(* ===== verification/_CoqProject ===== *)
-Q . S2P
Prelude.v
RustStd.v
Wrapping.v
Change.v
SchemaAst.v
SchemaDiff.v
SchemaDiffProps.v
SchemaDiffCases.v
WrappingTypes.v
CheckSchema.v
Operation.v
FieldUsage.v
Check.v
CheckBreaks.v
Patch.v
PatchProps.v
PatchClaims.v
IndexSet.v
FieldTypes.v
Subgraphs.v
ComposeContext.v
ComposeDirectives.v
ComposeEnums.v
ComposeEnumsClaims.v
GraphRef.v
IdNewtypes.v
ValidationContext.v
Validation.v
ValidationLogic.v
ValidationSpec.v
ValidationAccept.v
ValidationTypes.v
ValidationProps.v
Ingest.v
IngestRules.v
IngestProps.v
IngestClaims.v
Walkers.v
ComposeTables.v
Compose.v
ComposeEntity.v
ComposeValidate.v
ComposeInvariant.v
ComposeRules.v
ComposeProps.v
ComposeEntityProps.v
ComposeGroups.v
ComposeValidateProps.v
ComposeInputObjects.v
ComposeClaims.v
FederatedGraph.v
Emit.v
ComposeFields.v
GraphWf.v
EmitInvariant.v
EmitRules.v
EmitLayout.v
EmitGraph.v
DisplayUtils.v
Rendering.v
RenderProps.v
EmitOrder.v
EmitClaims.v
StringLiterals.v
Normalizer.v
SdlAst.v
Lint.v
FromSdl.v
FromSdlRules.v
FromSdlProps.v
FromSdlClaims.v
CachePlan.v
CachePlanProps.v
CachePlanClaims.v
QueryResponse.v
CachePhases.v
EngineCoerce.v
EngineCoerceProps.v
EngineCoerceClaims.v
EngineLiterals.v
