(* ===== verification/Prelude.v ===== *)
(** * Grafbase: a verification library

    Grafbase is a GraphQL federation platform in Rust. This library models the
    parts of it that compute on GraphQL schemas and operations, and the small
    data structures under them, and proves what makes them correct.

    ** The program's parts and the files that model them

    - Schema diffing, [engine/crates/graphql-schema-diff]. [diff] parses two
      schemas, traverses both into hash maps keyed by path and turns the maps
      into a sorted list of changes; [resolve_spans] slices the changed text;
      [patch] applies a list of changes to a schema.
      [Change.v] is [change.rs]; [SchemaAst.v] is the syntax tree of the
      cynic-parser crate with the class [CynicParser] that stands for the
      parser; [SchemaDiff.v] is [lib.rs], [state.rs], [traverse_schemas.rs];
      [Patch.v] is [patch.rs] and [patch/*.rs]. Proofs: [SchemaDiffProps.v],
      [SchemaDiffCases.v], [PatchProps.v], [PatchClaims.v].
    - Operation checks, [engine/crates/operation-checks]. Schemas and
      operations are converted to flat sorted vectors, operations are
      aggregated into usage counters, and [check] classifies the changes of a
      diff (a list of [Change], from the crate above) by those counters.
      [WrappingTypes.v] is [schema/wrapping_types.rs]; [CheckSchema.v] is
      [schema.rs] and [schema/async_graphql.rs]; [Operation.v] is
      [operation.rs] and [operation/async_graphql.rs]; [FieldUsage.v] is
      [aggregate_field_usage.rs] with its theorems;
      [Check.v] is [check.rs] and [check/rules.rs], with the theorems in
      [CheckBreaks.v].
    - Type wrapping, [engine/crates/wrapping/src/lib.rs]: [Wrapping.v].
    - Composition of subgraphs, [engine/crates/composition]. Subgraph documents
      are ingested into interned stores, and the definitions of the same name
      are composed. The stores of [subgraphs/*.rs] are [Subgraphs.v], with the
      interning and composition of types, [subgraphs/strings.rs],
      [subgraphs/field_types.rs], [compose/fields.rs], in [FieldTypes.v]
      over the interface [IndexSet.v] of the indexmap crate. Ingestion, [ingest_subgraph.rs] and
      [ingest_subgraph/*.rs], is [Ingest.v]: functions that take
      [&mut Subgraphs] are in a state monad over [Subgraphs] and [res]; its
      invariant and a rule per operation are in [IngestRules.v] and
      [IngestProps.v], the theorems in [IngestClaims.v]. The read-only walkers are [Walkers.v],
      with the labels of [@override] of the federated-graph crate. Composition
      writes an intermediate representation, in a state monad over its context
      and [res]: the context of [compose/context.rs] and [composition_ir.rs] is
      [ComposeContext.v] and [ComposeTables.v], with directives,
      [compose/directives.rs]; enums, [compose/enums.rs], are [ComposeEnums.v];
      scalars, unions, input objects, interfaces and the fields of objects,
      [compose.rs] and [compose/*.rs], are [Compose.v]; objects, entity
      interfaces, roots and [compose_subgraphs] are [ComposeEntity.v]; the
      validations [validate.rs], [validate/*.rs] and the entry point [lib.rs]
      are [ComposeValidate.v]. Emission,
      [emit_federated_graph.rs] and [emit_federated_graph/*.rs], turns the
      representation into a federated graph, in a state monad over its context:
      [Emit.v]; [compose], the whole of [lib.rs], is in
      [EmitClaims.v]. Proofs about directives and
      enums: [ComposeDirectives.v], [ComposeEnums.v],
      [ComposeEnumsClaims.v]. The invariant of the context and reading
      well-formed subgraphs are [ComposeInvariant.v], a judgement with a rule
      per operation [ComposeRules.v], and the rules for the functions above it
      [ComposeProps.v], [ComposeEntityProps.v], [ComposeGroups.v],
      [ComposeValidateProps.v]; [ComposeInputObjects.v] is about input objects;
      the theorems are in [ComposeClaims.v]. [ComposeFields.v] is about the
      order in which fields and tables are written; [EmitInvariant.v],
      [EmitRules.v], [EmitLayout.v], [EmitGraph.v] hold the invariant of
      emission, a rule per operation and what the emitted graph contains;
      [EmitOrder.v] and [EmitClaims.v] the theorems.
    - The federated graph, [engine/crates/federated-graph]. [FederatedGraph.v]
      is the data of [federated_graph/v4.rs] and [v4/*.rs]. The renderers of
      [render_sdl/*.rs] are [DisplayUtils.v] ([display_utils.rs]),
      [Rendering.v] ([render_federated_sdl.rs] and [render_api_sdl.rs]);
      [GraphWf.v] says when a graph is well formed,
      [RenderProps.v] that such a graph can be rendered. Reading a rendered
      graph, [from_sdl.rs] and [from_sdl/*.rs], is [FromSdl.v], in a monad over
      its state, errors and panics, on the syntax trees of [SdlAst.v];
      [FromSdlRules.v] holds its invariant and judgement, [FromSdlProps.v] and
      [FromSdlClaims.v] a rule per step and the theorems.
      [StringLiterals.v] is the decoding of string literals by the engine's
      parser, [engine/crates/engine/parser/src/parse/utils.rs].
    - Schema validation, [engine/crates/validation]. Two passes over a parsed
      document collect definitions and report the violated rules.
      [ValidationContext.v] is [context.rs] and [diagnostics.rs],
      [Validation.v] is [lib.rs], [validate.rs] and [validate/*.rs].
      [ValidationLogic.v] holds the program logic for code that only appends
      errors and the search for input object cycles, [ValidationSpec.v] and
      [ValidationAccept.v] the rules as propositions over documents,
      [ValidationTypes.v] the subtyping of the specification,
      [ValidationProps.v] the theorems.
    - Operation signatures, [engine/crates/operation-normalizer]. [normalize]
      removes aliases and literals and sorts what has no order, so that similar
      operations print the same text: [Normalizer.v].
    - The schema linter, [graphql-lint/src/lib.rs]: [Lint.v].
    - Partial caching, [engine/crates/partial-caching]. A query is split into
      the parts that can be cached, each under its cache control, and the rest;
      what the cache does not have is executed, and the response is merged with
      what it has. [CachePlan.v] is [planning/*.rs], [query_subset/mod.rs] and
      [parser_extensions.rs], on the parsed document and the class
      [CacheTypes] for the registry of types; [CachePlanProps.v] and
      [CachePlanClaims.v] say which selections a plan holds. [CachePhases.v] is
      [fetching/*.rs], [execution/mod.rs], [hit.rs], [response.rs],
      [headers.rs], [updating/*.rs] and [query_subset/display.rs], with its
      theorems. Responses, [engine/crates/graph-entities], are nodes in an
      arena: [QueryResponse.v].
    - Id collections of the engine, [engine/crates/engine-v2/id-derives] and
      [engine/crates/engine-v2/id-newtypes]: [IdNewtypes.v].
    - Binding of input values in the engine, [engine/crates/engine-v2]: the
      values of variables and the literals of an operation are coerced to the
      types of the schema and written to vectors of values. [EngineCoerce.v] is
      [src/operation/bind/coercion/*.rs], [src/operation/bind/variables.rs], the
      arguments of [src/operation/bind/field.rs] and the stores of
      [src/operation/input_value]; its code runs in a monad [CM] of a state, an
      error and [res]. [EngineCoerceProps.v] has the rules for input values as a
      function on trees, [spec], the reading of a store and that the one
      implements the other; the theorems are in [EngineCoerceClaims.v] and
      [EngineLiterals.v].
    - Graph references, [graph-ref/src/lib.rs]: [GraphRef.v].

    ** How code becomes definitions

    This file holds [res], the monad of code that can panic ([unwrap],
    [expect], indexing, [unreachable!], [assert!]); [RustStd.v] the standard
    library functions the code calls ([sort], [dedup], [binary_search],
    [partition_point], [split], [trim], string slicing) and machine words as [Z]
    with wrap-around. A [Result] is a sum with the error on the left.
    Hash maps are [gmap]s; where code iterates one, the definition takes the
    order as an argument and a theorem shows that it does not matter. Code
    that appends to a string is a function to the appended text. Structs are
    records, enums inductives, loops structural recursion or fuel. Release
    builds are modelled: integer overflow wraps and [debug_assert!] is absent.

    Third-party code is a class with documented laws: the parser of
    cynic-parser ([CynicParser], [CynicParserLaws]: the spans of a parsed
    document lie in its text), [IndexSet] of indexmap ([IndexSetLaws]). Both
    have concrete instances, used by the witnesses. The syntax trees of
    cynic-parser, async-graphql-parser and graphql-parser are input data types;
    the parsers that [from_sdl], [lint] and [normalize] call and the printer of
    graphql-parser are arguments, the case conversions of heck the class
    [Heck]. The Unicode
    tables behind [char::is_alphabetic] and [char::is_alphanumeric] are
    arguments of the validation of subgraph names; the hash of a cache key, the
    request headers and the printers of cynic-parser's executable documents,
    whose selection ids are distinct ([doc_wf]), are arguments of the phases of
    partial caching; the text of an [f64] and the
    uppercase of a character beyond ASCII are arguments of the renderers. A
    number of serde_json is a record of the answers of its methods, and its text
    an argument of coercion.

    ** What the theorems show

    - Diff: no panic when names have one kind; independence of hash order;
      reflexivity; the exact sets of type changes and of field, enum value and
      member changes, but for the span of an added enum value; duality of
      additions and removals; spans always resolve.
    - Patch: the exact body of a patched object or interface (what is added,
      kept, removed, retyped) when no argument changes, what is written of input
      objects and enums, members and interfaces, absence of panics, and that
      argument changes are not applied.
    - Checks: where the arguments of the two schemas line up, [check] reports
      exactly the changes for which the declarative predicate [Breaks] holds,
      with their severity; the closure of used input
      types terminates and is the reachability closure; nothing used, nothing
      reported; lookups, flattening of operations, the counts of fields,
      arguments and enum values against the uses in the parsed document, the
      request threshold; the
      packed wrapping word and [compare] against the sets of values of the
      types.
    - Wrapping: the packed [u32] refines a double-ended queue, its observers
      and printer.
    - Composition: interning is faithful and injective; composed types,
      conflicts and independence of subgraph order; grouping by name; the
      directives composed from several sites; the values of a composed enum by
      where it is used, and exactly when their composition panics; the fields
      of a composed input object. On every state that ingestion reaches,
      validation and composition return diagnostics or a well-formed
      intermediate representation with a query root and a definition for every
      name in use, and panic only in the two stated cases; the groups of
      definitions that are composed together.
    - Emission: [compose] returns the SDL of a well-formed graph, diagnostics,
      or panics only where validation or composition does, if the names that
      fields, keys and selections use exist, types have at most 21 lists and
      the fields fit a [usize] ([emittable]); each definition has
      one range of fields, sorted by name, with the types the subgraphs print;
      input values keep their places; the fields of composition are grouped and
      the tables sorted, so that the searches by bisection are complete.
    - Rendering: both renderers return on well-formed graphs; quoted strings
      are read back.
    - Reading: whatever the document, a graph that [from_sdl] returns is well
      formed and can be rendered; on documents that declare what they use
      ([sdl_ok]) it returns; the type of a field is rendered as it was written.
    - Normaliser: similar operations have the same signature, and exactly the
      fragments in use are printed, if fragments are defined after their use.
    - Linter: on schemas with the default roots, what follows the documented
      conventions, stated as propositions, is not reported, and what is not
      reported follows those that the linter looks at.
    - Partial caching: the partitions of a plan are exactly the paths, through
      fragments, to the leaves under each cache control, with the variables
      they use; planning returns whatever the document, also with fragment
      cycles; the executor is asked for exactly what is not cached; merging
      cached values into a response refines merging trees, keeps the rest, and
      panics exactly where shapes disagree; the header, age and updates of the
      response after execution.
      JSON that becomes nodes of a response is read back from it.
    - Ingestion: every state reached by ingesting subgraphs satisfies the
      invariant (no dangling id, the sites of all directives included, names and
      definitions agree, sorted tables);
      ingestion returns on documents whose names are defined and whose values
      it can keep, and records their definitions in order; the binary searches
      of the walkers are complete; enum composition cannot panic on such a
      state but in the case of mismatching values.
    - Validation: a document that is accepted satisfies rules of the
      specification stated as propositions, and a plain document with an error
      breaks one of them; exactly what the code checks; exactly when validation
      panics; what the first
      pass collects; input object cycles are found and the search terminates;
      subtyping agrees with the specification's algorithm, is a preorder on
      accepted schemas and keeps selections well typed.
    - Input values: coercing the value of a variable implements [spec], returns
      a value of the type that was asked for and keeps what was in the store;
      binding the variables of a request returns their values or names those at
      fault; a literal is coerced like a variable with the same value; the
      arguments of a field are bound completely; definitions of variables that
      were bound have distinct names and input types.
    - Ids and references: range iterators refine a double-ended queue,
      construction, with wrap-around, lookup and their panics at the largest
      id; [IdToMany]
      finds exactly the related values; graph references parse and print
      inversely, with the exact errors.

    Theorems named after a defect state, on a concrete input, where the code
    departs from its documentation: [argument_type_change_missed],
    [interface_argument_panics], [iter_field_arguments_misses],
    [type_condition_ignores_increment], [push_list_58_overwrites_inner],
    [diff_panics_on_shared_name], [diff_extension_drops_interfaces],
    [patch_drops_input_defaults], [list_composes_with_element],
    [enum_exact_match_panics], [patch_ignores_argument_changes],
    [enum_value_directive_rejected], [directive_before_its_type],
    [forbid_enables_draft], [repeated_fields_accepted],
    [extended_implements_ignored], [find_duplicates_previous],
    [default_root_name_taken], [add_enum_value_span],
    [composed_directives_of_enums_lost], [large_default_panics],
    [undefined_member_panics], [kind_mismatch_depends_on_order],
    [provides_on_scalar_panics], [renamed_root_missing], [emission_panics],
    [provides_unclosed], [interface_arguments_lost], [api_interface_arguments],
    [control_characters_change], [normalize_drops_used_fragments],
    [lint_misses], [from_sdl_panics], [extension_loses_fields],
    [update_loses_merged_fields], [cache_scopes_missing_header],
    [list_default_rejected], [json_variable_panics],
    [variable_item_nullability], [json_integer_rounded].

    ** Bounds and fuel

    - Binary search runs with the length of the slice as fuel; the interval
      shrinks in every step ([bs_loop_spec]).
    - [aggregate_field_usage] recurses through fragments. Its fuel is the depth
      of the call stack: on operations without fragment cycles some fuel is
      enough and more gives the same result ([aggregate_field_usage_counts]);
      with a cycle none is ([cyclic_fragment_diverges]).
    - [find_used_input_types] gets one more than the number of schema fields as
      fuel; each call below a root adds a type to the visited set.
    - [wrappers_from] follows the parent links of interned wrappers, which
      point to smaller indices: the number of wrappers is enough.
    - [groups] and [value_collect] consume at least one entry per step: the
      length of the vector is enough.
    - The search for input object cycles gets one more than the number of
      definitions as fuel; each call adds a definition to the visited set
      ([input_object_cycles_spec]).
    - Values and selections are nested data: ingestion, emission, rendering,
      reading and normalisation recurse structurally.
    - [field_groups_loop] consumes at least one field per step: one more than
      the number of fields is enough ([composed_field_groups]).
    - The loop of planning over fragments gets the fuel [fragment_fuel], from
      the number of fragments and of cache controls in the document, and that
      over ancestors [edge_fuel]: both are enough ([build_plan_returns]).
      [serialize_node] and [take_node_into_compact_value] follow ids: the
      number of nodes is enough on a tree ([response_roundtrip]).
    - Reading a coerced value follows ids; the height of the tree is enough
      ([reads_read]). The ids of values have 32 bits: theorems about stores ask
      for [room] for the cells a value can take, [cost].
    - Wrapping words hold 21 lists (32 bits, further pushes panic) and 57 lists
      (64 bits); the theorems carry these bounds.

    ** Not modelled

    The engines' asynchronous planning and execution, and binding of selection
    sets, the gateway, the CLI,
    telemetry, storage and WebAssembly interfaces (input and output around
    third-party crates); the legacy engine; importers of OpenAPI and Postgres
    schemas; serde and [Debug] implementations. Source positions and rendered
    text of diagnostics. The older versions of the federated graph with their
    conversions. Of partial caching, streaming responses of deferred fragments
    with the store and the shapes they are merged in. *)
From stdpp Require Export base tactics option list gmap strings sorting.
From stdpp Require Import options.

(** ** Panics

    A Rust function that can panic ([unwrap], [expect], slice indexing,
    [assert!]) is modelled by a function into [res]: [Ret] is a normal return,
    [Panic] an unwinding panic with the message of the failing operation. *)
Inductive res (A : Type) : Type :=
| Ret (a : A)
| Panic (msg : string).
Global Arguments Ret {A} a.
Global Arguments Panic {A} msg.

Global Instance res_ret : MRet res := @Ret.
Global Instance res_bind : MBind res := λ A B f m,
  match m with Ret a => f a | Panic e => Panic e end.
Global Instance res_fmap : FMap res := λ A B f m,
  match m with Ret a => Ret (f a) | Panic e => Panic e end.
Global Instance res_eq_dec `{EqDecision A} : EqDecision (res A).
Proof. solve_decision. Defined.

Definition is_panic {A} (m : res A) : bool :=
  match m with Ret _ => false | Panic _ => true end.

(** [Option::expect] and [Option::unwrap]. *)
Definition expect {A} (msg : string) (o : option A) : res A :=
  match o with Some a => Ret a | None => Panic msg end.
Abbreviation unwrap := (expect "called `Option::unwrap()` on a `None` value").

(** Left-to-right traversal of a list with effects. *)
Fixpoint mapM_res {A B} (f : A → res B) (l : list A) : res (list B) :=
  match l with
  | [] => Ret []
  | x :: l => y ← f x; ys ← mapM_res f l; Ret (y :: ys)
  end.

(** A left-to-right loop with effects. *)
Fixpoint fold_res {A B} (f : B → A → res B) (b : B) (l : list A) : res B :=
  match l with
  | [] => Ret b
  | a :: l => b ← f b a; fold_res f b l
  end.

(** [Iterator::any] with effects. *)
Fixpoint any_res {A} (f : A → res bool) (l : list A) : res bool :=
  match l with
  | [] => Ret false
  | x :: l => b ← f x; if b : bool then Ret true else any_res f l
  end.

Lemma res_bind_Ret {A B} (m : res A) (f : A → res B) b :
  m ≫= f = Ret b ↔ ∃ a, m = Ret a ∧ f a = Ret b.
Proof. destruct m; naive_solver. Qed.

Lemma expect_Ret {A} msg (o : option A) a : expect msg o = Ret a ↔ o = Some a.
Proof. destruct o; naive_solver. Qed.

Lemma mapM_res_Ret {A B} (f : A → res B) l ys :
  mapM_res f l = Ret ys ↔ Forall2 (λ x y, f x = Ret y) l ys.
Proof.
  revert ys. induction l as [|x l IH]; intros ys; simpl.
  { split; [intros [= <-]; constructor | by inversion 1]. }
  rewrite res_bind_Ret. setoid_rewrite res_bind_Ret. setoid_rewrite IH.
  split; [intros (y & ? & ys' & ? & [= <-]); by constructor |].
  inversion 1; naive_solver.
Qed.

Lemma fold_res_fmap {A B C} (f : B → A → res B) (g : C → A) b l :
  fold_res f b (g <$> l) = fold_res (λ b c, f b (g c)) b l.
Proof. revert b. induction l as [|x l IH]; intros b; simpl; [done|]. destruct (f b (g x)); simpl; auto. Qed.
Lemma fold_res_ext {A B} (f g : B → A → res B) b l :
  (∀ b x, f b x = g b x) → fold_res f b l = fold_res g b l.
Proof.
  intros E. revert b. induction l as [|x l IH]; intros b; simpl; [done|].
  rewrite E. destruct (g b x); simpl; auto.
Qed.

Lemma any_res_true {A} (f : A → res bool) (P : A → Prop) l :
  (∀ x, x ∈ l → ∃ b, f x = Ret b ∧ (b = true ↔ P x)) →
  ∃ b, any_res f l = Ret b ∧ (b = true ↔ ∃ x, x ∈ l ∧ P x).
Proof.
  induction l as [|x l IH]; intros Hf; simpl.
  { exists false. split; [done|]. set_solver. }
  destruct (Hf x) as (b & -> & Hb); [set_solver|]. destruct IH as (b' & -> & Hb'); [set_solver|].
  simpl. destruct b; [exists true; set_solver|]. exists b'. split; [done|]. rewrite Hb'. set_solver.
Qed.

(** ** Automation *)
Create HintDb grafbase.
Create Rewrite HintDb grafbase.

(** Case analysis on the innermost [match] or [decide] of the goal. *)
Ltac case_goal :=
  repeat (first [case_decide | case_match]; simplify_eq/=; try done).

(** Inverts a chain of [res] binds that is known to return. *)
Ltac inv_ret :=
  repeat match goal with
  | H : _ ≫= _ = Ret _ |- _ => apply res_bind_Ret in H as (? & ? & ?)
  | H : expect _ _ = Ret _ |- _ => apply expect_Ret in H
  | H : Ret _ = Ret _ |- _ => injection H as H
  | H : Panic _ = Ret _ |- _ => discriminate H
  end; simplify_eq/=.

(** ** Lists shared by the components *)

(** [Iterator::take_while]. *)
Fixpoint take_while {A} (p : A → bool) (l : list A) : list A :=
  match l with
  | [] => []
  | x :: l => if p x then x :: take_while p l else []
  end.

Fixpoint drop_while {A} (p : A → bool) (l : list A) : list A :=
  match l with
  | [] => []
  | x :: l' => if p x then drop_while p l' else l
  end.

Lemma take_drop_while {A} (p : A → bool) l : take_while p l ++ drop_while p l = l.
Proof. induction l as [|x l IH]; simpl; [done|]. destruct (p x); simpl; congruence. Qed.

Lemma take_while_Forall {A} (p : A → bool) l : Forall (λ x, p x = true) (take_while p l).
Proof. induction l as [|x l IH]; simpl; [done|]. destruct (p x) eqn:?; by constructor. Qed.

Lemma elem_of_take_while {A} (p : A → bool) l x : x ∈ take_while p l → x ∈ l.
Proof. rewrite <-(take_drop_while p l) at 2. set_solver. Qed.
Lemma elem_of_drop {A} n (l : list A) x : x ∈ drop n l → x ∈ l.
Proof. rewrite <-(take_drop n l) at 2. set_solver. Qed.

Lemma drop_while_length {A} (p : A → bool) l :
  drop (length (take_while p l)) l = drop_while p l.
Proof. induction l as [|x l IH]; simpl; [done|]. by destruct (p x). Qed.

(** [l] is partitioned by [p]: the elements that satisfy it come first. *)
Definition partitioned {A} (p : A → bool) (l : list A) : Prop :=
  Forall (λ x, p x = false) (drop_while p l).

Lemma partitioned_lookup {A} (p : A → bool) l i x :
  partitioned p l → l !! i = Some x → p x = bool_decide (i < length (take_while p l)).
Proof.
  unfold partitioned. revert i. induction l as [|y l IH]; intros i; simpl; [done|].
  destruct (p y) eqn:Hy; intros HF Hi.
  - destruct i as [|i]; simplify_eq/=; [done|].
    rewrite (IH i) by done. apply bool_decide_ext. lia.
  - case_bool_decide; [simpl in *; lia|]. eapply Forall_lookup_1 in HF; naive_solver.
Qed.

Lemma filter_none {A} (P : A → Prop) `{!∀ x, Decision (P x)} l :
  (∀ x, x ∈ l → ¬ P x) → filter P l = [].
Proof.
  induction l as [|x l IH]; intros HP; [done|].
  rewrite filter_cons, decide_False, IH; [done| |]; set_solver.
Qed.

Lemma StronglySorted_weaken {A} (R S : A → A → Prop) l :
  (∀ x y, R x y → S x y) → StronglySorted R l → StronglySorted S l.
Proof.
  intros HRS. induction 1 as [|x l _ IH Hx]; constructor; [done|].
  eapply Forall_impl; [exact Hx|]. apply HRS.
Qed.
Lemma StronglySorted_filter {A} (R : relation A) (P : A → Prop) `{!∀ x, Decision (P x)} l :
  StronglySorted R l → StronglySorted R (filter P l).
Proof.
  induction 1 as [|x l Hl IH Hx]; [constructor|]. rewrite filter_cons. case_decide; [|done].
  constructor; [done|]. apply Forall_forall. intros y [_ Hy]%list_elem_of_filter. by eapply Forall_forall in Hx.
Qed.
Lemma StronglySorted_filter_fmap {A B} (R : B → B → Prop) (f : A → B) P `{!∀ x, Decision (P x)} l :
  StronglySorted R (f <$> l) → StronglySorted R (f <$> filter P l).
Proof.
  induction l as [|x l IH]; simpl; [done|]. intros [Hs Hx]%StronglySorted_inv. rewrite filter_cons.
  case_decide; [|by apply IH]. simpl. constructor; [by apply IH|].
  rewrite Forall_fmap in *. apply Forall_forall. intros y [_ Hy]%list_elem_of_filter.
  rewrite Forall_forall in Hx. by apply Hx.
Qed.

(** Entries with distinct keys: the entries of one key. *)
Lemma filter_key_singleton {K V} `{EqDecision K} (l : list (K * V)) k v :
  NoDup l.*1 → (k, v) ∈ l → filter (λ y, y.1 = k) l = [(k, v)].
Proof.
  induction l as [|[k' v'] l IH]; intros Hn Hin; [by apply elem_of_nil in Hin|].
  apply NoDup_cons in Hn as [Hk Hn]. rewrite filter_cons. simpl. apply elem_of_cons in Hin as [[= -> ->]|Hin].
  - rewrite decide_True by done. f_equal. apply filter_none. intros [k2 v2] Hin E. simpl in E. subst.
    apply Hk, list_elem_of_fmap. by exists (k', v2).
  - rewrite decide_False; [by apply IH|]. intros ->. apply Hk, list_elem_of_fmap. by exists (k, v).
Qed.

(** [filter_map] of Rust, with a pure function. *)
Definition filter_map {A B} (f : A → option B) (l : list A) : list B := omap f l.

Lemma elem_of_filter_map {A B} (f : A → option B) l y :
  y ∈ filter_map f l ↔ ∃ x, x ∈ l ∧ f x = Some y.
Proof. unfold filter_map. rewrite list_elem_of_omap. naive_solver. Qed.

Lemma filter_map_Permutation {A B} (f : A → option B) l1 l2 :
  l1 ≡ₚ l2 → filter_map f l1 ≡ₚ filter_map f l2.
Proof. intros HP. unfold filter_map. by rewrite HP. Qed.

Lemma concat_map_Permutation {A B} (f : A → list B) l1 l2 :
  l1 ≡ₚ l2 → concat (f <$> l1) ≡ₚ concat (f <$> l2).
Proof.
  induction 1 as [|x l1 l2 _ IH|x y l|l1 l2 l3 _ IH1 _ IH2]; simpl.
  - done.
  - by rewrite IH.
  - rewrite !(assoc_L (++)). by rewrite (Permutation_app_comm (f y)).
  - by rewrite IH1.
Qed.

Lemma elem_of_concat_map {A B} (f : A → list B) l y :
  y ∈ concat (f <$> l) ↔ ∃ x, x ∈ l ∧ y ∈ f x.
Proof.
  induction l as [|x l IH]; simpl; [set_solver|].
  rewrite elem_of_app, IH. set_solver.
Qed.

#[export] Hint Rewrite @elem_of_filter_map @elem_of_concat_map : grafbase.
