(* ===== verification/RustStd.v ===== *)
(** * The parts of the Rust standard library the modelled crates use

    Total orders ([Ord]) with their laws, stable sorting ([slice::sort],
    [sort_unstable] on total orders), [Vec::dedup], [slice::binary_search_by]
    and [slice::partition_point] (the halving loop of the pinned 1.81
    toolchain), and the [str] methods [split], [split_once], [join], [trim]
    and range indexing on UTF-8 bytes. Strings are byte strings; [str]
    comparison is the bytewise lexicographic order of [String.compare]. *)
From Stdlib Require Import Ascii.
From Stdlib Require Import ZArith.
From S2P Require Import Prelude.

(** ** [Ord] *)
Class Ord (A : Type) := cmp : A → A → comparison.

(** What [Ord] promises: a total preorder whose equivalence is [cmp = Eq]. *)
Class OrdLaws (A : Type) `{Ord A} : Prop := {
  cmp_refl : ∀ x : A, cmp x x = Eq;
  cmp_antisym : ∀ x y : A, cmp x y = CompOpp (cmp y x);
  cmp_trans : ∀ (c : comparison) (x y z : A), cmp x y = c → cmp y z = c → cmp x z = c;
}.

(** The orders that are consistent with [Eq] (every derived [Ord]). *)
Class OrdEq (A : Type) `{Ord A} : Prop := cmp_eq : ∀ x y : A, cmp x y = Eq → x = y.

Definition cmp_le `{Ord A} (x y : A) : Prop := cmp x y ≠ Gt.
Definition cmp_lt `{Ord A} (x y : A) : Prop := cmp x y = Lt.
Definition ltb `{Ord A} (x y : A) : bool := match cmp x y with Lt => true | _ => false end.
Definition eqb `{Ord A} (x y : A) : bool := match cmp x y with Eq => true | _ => false end.

(** Comparison by a key: [sort_by_key] and hand-written [Ord]s. *)
Definition cmp_on {A B} `{Ord B} (f : A → B) : Ord A := λ x y, cmp (f x) (f y).

Global Instance cmp_on_laws {A B} `{Ord B, !OrdLaws B} (f : A → B) : @OrdLaws A (cmp_on f).
Proof.
  split; unfold cmp, cmp_on; intros *; [apply cmp_refl|apply cmp_antisym|apply cmp_trans].
Qed.

Lemma cmp_on_ord_eq {A B} `{Ord B, !OrdEq B} (f : A → B) `{!Inj (=) (=) f} :
  @OrdEq A (cmp_on f).
Proof. intros x y E. apply (inj f). by apply cmp_eq. Qed.

Section ord_theory.
Context `{OrdLaws A}.
Implicit Types x y z : A.

Lemma cmp_Lt_Gt x y : cmp x y = Lt ↔ cmp y x = Gt.
Proof. rewrite (cmp_antisym x y). by destruct (cmp y x). Qed.
Lemma cmp_Eq_sym x y : cmp x y = Eq → cmp y x = Eq.
Proof. intros E. by rewrite (cmp_antisym y x), E. Qed.

(** Equivalent elements compare alike. *)
Lemma cmp_Eq_l x y z : cmp x y = Eq → cmp x z = cmp y z.
Proof.
  intros Hxy. destruct (cmp y z) eqn:Hyz.
  - eauto using cmp_trans.
  - destruct (cmp x z) eqn:Hxz; [|done|].
    + pose proof (cmp_trans Eq y x z (cmp_Eq_sym _ _ Hxy) Hxz). congruence.
    + apply cmp_Lt_Gt in Hxz. pose proof (cmp_trans Lt y z x Hyz Hxz) as Hyx.
      apply cmp_Eq_sym in Hxy. congruence.
  - destruct (cmp x z) eqn:Hxz; [| |done].
    + pose proof (cmp_trans Eq y x z (cmp_Eq_sym _ _ Hxy) Hxz). congruence.
    + apply cmp_Lt_Gt in Hxz. pose proof (cmp_trans Gt y z x Hyz Hxz) as Hyx.
      apply cmp_Eq_sym in Hxy. congruence.
Qed.
Lemma cmp_Eq_r x y z : cmp x y = Eq → cmp z x = cmp z y.
Proof. intros E. rewrite (cmp_antisym z x), (cmp_antisym z y). by rewrite (cmp_Eq_l x y z E). Qed.

Lemma cmp_le_trans : Transitive (cmp_le (A:=A)).
Proof.
  intros x y z Hxy Hyz Hxz. unfold cmp_le in *.
  destruct (cmp x y) eqn:E1; [|destruct (cmp y z) eqn:E2|]; try done.
  - rewrite (cmp_Eq_l x y z E1) in Hxz. done.
  - rewrite <-(cmp_Eq_r y z x E2) in Hxz. congruence.
  - pose proof (cmp_trans Lt x y z E1 E2). congruence.
Qed.
Lemma cmp_le_total x y : cmp_le x y ∨ cmp_le y x.
Proof. unfold cmp_le. rewrite (cmp_antisym y x). destruct (cmp x y); naive_solver. Qed.
Lemma cmp_le_antisymm `{!OrdEq A} : AntiSymm (=) (cmp_le (A:=A)).
Proof.
  intros x y H1 H2. unfold cmp_le in *. rewrite (cmp_antisym y x) in H2.
  destruct (cmp x y) eqn:E; [by apply cmp_eq|done|done].
Qed.
Lemma eqb_true `{!OrdEq A} x y : eqb x y = true ↔ x = y.
Proof.
  unfold eqb. split; [destruct (cmp x y) eqn:E; try done; by intros _; apply cmp_eq|].
  intros ->. by rewrite cmp_refl.
Qed.
Lemma eqb_false `{!OrdEq A} x y : eqb x y = false ↔ x ≠ y.
Proof. rewrite <-not_true_iff_false, eqb_true. done. Qed.
Lemma ltb_irrefl x : ltb x x = false.
Proof. unfold ltb. by rewrite cmp_refl. Qed.
End ord_theory.

(** *** Instances *)
Global Instance nat_ord : Ord nat := Nat.compare.
Global Instance nat_ord_laws : OrdLaws nat.
Proof.
  split; unfold cmp, nat_ord.
  - apply Nat.compare_refl.
  - intros x y. apply Nat.compare_antisym.
  - intros [] x y z; rewrite ?Nat.compare_eq_iff, ?Nat.compare_lt_iff, ?Nat.compare_gt_iff; lia.
Qed.
Global Instance nat_ord_eq : OrdEq nat.
Proof. intros x y. apply Nat.compare_eq_iff. Qed.

Lemma ascii_compare_trans c (a b d : ascii) :
  Ascii.compare a b = c → Ascii.compare b d = c → Ascii.compare a d = c.
Proof.
  unfold Ascii.compare.
  destruct c; rewrite ?N.compare_eq_iff, ?N.compare_lt_iff, ?N.compare_gt_iff; lia.
Qed.

Global Instance string_ord : Ord string := String.compare.
Global Instance string_ord_laws : OrdLaws string.
Proof.
  split; unfold cmp, string_ord.
  - intros x. induction x as [|a x IH]; simpl; [done|].
    unfold Ascii.compare. by rewrite N.compare_refl.
  - apply String.compare_antisym.
  - intros c x. induction x as [|a x IH]; intros [|b y] [|d z]; simpl; try naive_solver.
    intros Hab Hbd. destruct (Ascii.compare a b) eqn:E1.
    + apply Ascii.compare_eq_iff in E1 as ->.
      destruct (Ascii.compare b d); eauto.
    + destruct c; try done. destruct (Ascii.compare b d) eqn:E2; try done.
      * apply Ascii.compare_eq_iff in E2 as ->. by rewrite E1.
      * by rewrite (ascii_compare_trans Lt a b d).
    + destruct c; try done. destruct (Ascii.compare b d) eqn:E2; try done.
      * apply Ascii.compare_eq_iff in E2 as ->. by rewrite E1.
      * by rewrite (ascii_compare_trans Gt a b d).
Qed.
Global Instance string_ord_eq : OrdEq string.
Proof. intros x y. apply String.compare_eq_iff. Qed.

(** Tuples and arrays compare lexicographically ([Ordering::then_with]). *)
Definition then_with (c d : comparison) : comparison :=
  match c with Eq => d | _ => c end.
Global Instance prod_ord `{Ord A, Ord B} : Ord (A * B) := λ p q,
  then_with (cmp p.1 q.1) (cmp p.2 q.2).
Global Instance prod_ord_laws `{OrdLaws A, OrdLaws B} : OrdLaws (A * B).
Proof.
  split; unfold cmp, prod_ord.
  - intros [x y]. simpl. by rewrite !cmp_refl.
  - intros [x y] [x' y']. simpl. rewrite (cmp_antisym x x'), (cmp_antisym y y').
    by destruct (cmp x' x).
  - intros c [x1 x2] [y1 y2] [z1 z2]; simpl. unfold then_with.
    destruct (cmp x1 y1) eqn:E1.
    + rewrite (cmp_Eq_l _ _ _ E1). destruct (cmp y1 z1); eauto using cmp_trans.
    + intros <-. destruct (cmp y1 z1) eqn:E2; try done.
      * by rewrite <-(cmp_Eq_r _ _ _ E2), E1.
      * by rewrite (cmp_trans Lt x1 y1 z1).
    + intros <-. destruct (cmp y1 z1) eqn:E2; try done.
      * by rewrite <-(cmp_Eq_r _ _ _ E2), E1.
      * by rewrite (cmp_trans Gt x1 y1 z1).
Qed.
Global Instance prod_ord_eq `{OrdEq A, OrdEq B} : OrdEq (A * B).
Proof.
  intros [x1 x2] [y1 y2]. unfold cmp, prod_ord, then_with. simpl.
  destruct (cmp x1 y1) eqn:E; try done. intros E2.
  f_equal; by apply cmp_eq.
Qed.

(** Sorted by a pair is sorted by its first component. *)
Lemma cmp_le_fst {A B} `{OrdLaws A, OrdLaws B} (p q : A * B) : cmp_le p q → cmp_le p.1 q.1.
Proof. unfold cmp_le, cmp at 1, prod_ord, then_with. by destruct (cmp p.1 q.1). Qed.
(** ... and by its second where the first is constant. *)
Lemma cmp_le_snd {A B} `{OrdLaws A, OrdLaws B} (p q : A * B) : cmp_le p q → p.1 = q.1 → cmp_le p.2 q.2.
Proof. unfold cmp_le, cmp at 1, prod_ord, then_with. intros Hle E. rewrite E, cmp_refl in Hle. done. Qed.

(** [Vec]s compare lexicographically, a prefix before its extensions. *)
Global Instance list_ord `{Ord A} : Ord (list A) :=
  fix go (l1 l2 : list A) : comparison :=
    match l1, l2 with
    | [], [] => Eq
    | [], _ :: _ => Lt
    | _ :: _, [] => Gt
    | x :: l1, y :: l2 => then_with (cmp x y) (go l1 l2)
    end.
Global Instance list_ord_laws `{OrdLaws A} : OrdLaws (list A).
Proof.
  split.
  - intros l. induction l as [|x l IH]; [done|].
    change (then_with (cmp x x) (cmp l l) = Eq). by rewrite cmp_refl, IH.
  - intros l1. induction l1 as [|x l1 IH]; intros [|y l2]; try done.
    change (then_with (cmp x y) (cmp l1 l2) = CompOpp (then_with (cmp y x) (cmp l2 l1))).
    rewrite (cmp_antisym x y), IH. by destruct (cmp y x).
  - intros c l1. induction l1 as [|x l1 IH]; intros [|y l2] [|z l3]; try (by destruct c).
    change (then_with (cmp x y) (cmp l1 l2) = c → then_with (cmp y z) (cmp l2 l3) = c →
      then_with (cmp x z) (cmp l1 l3) = c). unfold then_with.
    destruct (cmp x y) eqn:E1.
    + rewrite (cmp_Eq_l _ _ _ E1). destruct (cmp y z); eauto.
    + intros <-. destruct (cmp y z) eqn:E2; try done.
      * by rewrite <-(cmp_Eq_r _ _ _ E2), E1.
      * by rewrite (cmp_trans Lt x y z).
    + intros <-. destruct (cmp y z) eqn:E2; try done.
      * by rewrite <-(cmp_Eq_r _ _ _ E2), E1.
      * by rewrite (cmp_trans Gt x y z).
Qed.
Global Instance list_ord_eq `{OrdEq A} : OrdEq (list A).
Proof.
  intros l1. induction l1 as [|x l1 IH]; intros [|y l2]; try done.
  change (then_with (cmp x y) (cmp l1 l2) = Eq → x :: l1 = y :: l2). unfold then_with.
  destruct (cmp x y) eqn:E; try done. intros E2. f_equal; [by apply cmp_eq|by apply IH].
Qed.

(** ** Sorting: [slice::sort] *)

(** A stable sort: [insert_by] puts an element before the equal ones that
    followed it in the input. *)
Fixpoint insert_by `{Ord A} (x : A) (l : list A) : list A :=
  match l with
  | [] => [x]
  | y :: l' => match cmp x y with Gt => y :: insert_by x l' | _ => x :: l end
  end.
Definition sort `{Ord A} (l : list A) : list A := foldr insert_by [] l.

(** [Vec::dedup]: consecutive equal elements are merged. *)
Fixpoint dedup `{EqDecision A} (l : list A) : list A :=
  match l with
  | [] => []
  | x :: l' =>
      match l' with
      | y :: _ => if decide (x = y) then dedup l' else x :: dedup l'
      | [] => [x]
      end
  end.

Section sort_theory.
Context `{OrdLaws A}.
Implicit Types x y : A.
Implicit Types l : list A.

Lemma insert_by_perm x l : insert_by x l ≡ₚ x :: l.
Proof.
  induction l as [|y l IH]; simpl; [done|].
  destruct (cmp x y); [done..|]. rewrite IH. constructor.
Qed.
Lemma sort_perm l : sort l ≡ₚ l.
Proof. induction l as [|x l IH]; simpl; [done|]. by rewrite insert_by_perm, IH. Qed.

Lemma insert_by_sorted x l :
  StronglySorted cmp_le l → StronglySorted cmp_le (insert_by x l).
Proof.
  induction 1 as [|y l Hl IH Hy]; simpl; [repeat constructor|].
  destruct (cmp x y) eqn:E.
  - constructor; [by constructor|]. constructor; [by unfold cmp_le; rewrite E|].
    eapply Forall_impl; [exact Hy|]. intros z. apply cmp_le_trans. unfold cmp_le. by rewrite E.
  - constructor; [by constructor|]. constructor; [by unfold cmp_le; rewrite E|].
    eapply Forall_impl; [exact Hy|]. intros z. apply cmp_le_trans. unfold cmp_le. by rewrite E.
  - constructor; [done|]. rewrite insert_by_perm. constructor; [|done].
    unfold cmp_le. by rewrite (proj2 (cmp_Lt_Gt y x)).
Qed.
Lemma sort_sorted l : StronglySorted cmp_le (sort l).
Proof. induction l; simpl; [constructor|]. by apply insert_by_sorted. Qed.

Lemma elem_of_sort x l : x ∈ sort l ↔ x ∈ l.
Proof. by rewrite sort_perm. Qed.
Lemma length_sort l : length (sort l) = length l.
Proof. by rewrite sort_perm. Qed.

(** Sorting does not move elements of the same class relative to each other. *)
Lemma insert_by_filter_eq k x l :
  filter (λ y, cmp k y = Eq) (insert_by x l) =
  filter (λ y, cmp k y = Eq) (x :: l).
Proof.
  induction l as [|y l IH]; simpl; [done|].
  destruct (cmp x y) eqn:E; try done.
  rewrite !filter_cons, IH, filter_cons.
  destruct (decide (cmp k x = Eq)) as [Hx|], (decide (cmp k y = Eq)) as [Hy|]; try done.
  rewrite (cmp_Eq_l x k y) in E by by apply cmp_Eq_sym. congruence.
Qed.
Lemma sort_stable k l :
  filter (λ y, cmp k y = Eq) (sort l) = filter (λ y, cmp k y = Eq) l.
Proof.
  induction l as [|x l IH]; [done|]. change (sort (x :: l)) with (insert_by x (sort l)).
  rewrite insert_by_filter_eq, !filter_cons, IH. done.
Qed.

(** On an order consistent with equality a sorted list is determined by its
    elements, so [sort] and [sort_unstable] agree and the iteration order of
    the input is lost. *)
Lemma sort_unique `{!OrdEq A} l1 l2 : l1 ≡ₚ l2 → sort l1 = sort l2.
Proof.
  intros HP. pose proof (cmp_le_antisymm (A:=A)).
  apply (StronglySorted_unique cmp_le); try apply sort_sorted.
  by rewrite !sort_perm.
Qed.
Lemma sort_id l : StronglySorted cmp_le l → sort l = l.
Proof.
  induction 1 as [|x l Hl IH Hx]; [done|]. change (sort (x :: l)) with (insert_by x (sort l)).
  rewrite IH. destruct Hx as [|y l Hy _]; [done|].
  simpl. unfold cmp_le in Hy. by destruct (cmp x y).
Qed.
End sort_theory.

Lemma elem_of_dedup `{EqDecision A} (x : A) l : x ∈ dedup l ↔ x ∈ l.
Proof.
  induction l as [|y l IH]; [done|]. simpl. destruct l as [|z l]; [done|].
  case_decide as E; [subst|]; rewrite ?elem_of_cons, IH, ?elem_of_cons; naive_solver.
Qed.

Lemma dedup_sorted `{Ord A, !EqDecision A} (l : list A) :
  StronglySorted cmp_le l → StronglySorted cmp_le (dedup l).
Proof.
  induction 1 as [|x l Hl IH Hx]; simpl; [constructor|]. destruct l as [|y l]; [repeat constructor|].
  case_decide; [done|]. constructor; [done|]. apply Forall_forall. intros z Hz.
  rewrite elem_of_dedup in Hz. rewrite Forall_forall in Hx. by apply Hx.
Qed.
Lemma dedup_NoDup `{OrdLaws A, !OrdEq A, !EqDecision A} (l : list A) :
  StronglySorted cmp_le l → NoDup (dedup l).
Proof.
  induction 1 as [|x l Hl IH Hx]; simpl; [constructor|].
  destruct l as [|y l]; [apply NoDup_singleton|].
  case_decide as E; [done|]. constructor; [|done]. rewrite elem_of_dedup. intros Hin.
  apply E. apply (cmp_le_antisymm x y); [by inversion Hx|].
  inversion_clear Hl as [|? ? _ Hy]. apply elem_of_cons in Hin as [->|Hin].
  - unfold cmp_le. by rewrite cmp_refl.
  - eapply Forall_forall in Hy; eauto.
Qed.

(** ** Binary search *)

(** The loop of [slice::binary_search_by]: [left] and [right] bound the part
    still searched, [f] compares an element with the target. [inl i] is [Ok i]
    and [inr i] is [Err i]. *)
Fixpoint bs_loop {A} (f : A → comparison) (l : list A) (fuel left right : nat) : nat + nat :=
  match fuel with
  | 0 => inr left
  | S fuel =>
      if decide (left < right) then
        let mid := left + (right - left) / 2 in
        match f <$> (l !! mid) with
        | Some Lt => bs_loop f l fuel (mid + 1) right
        | Some Gt => bs_loop f l fuel left mid
        | Some Eq => inl mid
        | None => inr left
        end
      else inr left
  end.
Definition binary_search_by {A} (f : A → comparison) (l : list A) : nat + nat :=
  bs_loop f l (length l) 0 (length l).
(** [slice::binary_search]. *)
Definition binary_search `{Ord A} (x : A) (l : list A) : nat + nat :=
  binary_search_by (λ y, cmp y x) l.
(** [slice::binary_search_by_key]. *)
Definition binary_search_by_key {A} `{Ord B} (b : B) (f : A → B) (l : list A) : nat + nat :=
  binary_search_by (λ y, cmp (f y) b) l.
(** [slice::partition_point]. *)
Definition partition_point {A} (p : A → bool) (l : list A) : nat :=
  match binary_search_by (λ x, if p x then Lt else Gt) l with inl i | inr i => i end.

Definition is_ok {A B} (r : A + B) : bool := match r with inl _ => true | inr _ => false end.
Definition ok {A B} (r : A + B) : option A := match r with inl a => Some a | inr _ => None end.

(** The elements below, equal to and above the target come in that order. *)
Definition ordered_for {A} (f : A → comparison) (l : list A) : Prop :=
  ∀ i j x y, i ≤ j → l !! i = Some x → l !! j = Some y →
    (f y = Lt → f x = Lt) ∧ (f x = Gt → f y = Gt).

Lemma mid_bounds left right : left < right →
  left ≤ left + (right - left) / 2 < right.
Proof. intros. pose proof (Nat.div_lt (right - left) 2). lia. Qed.

Lemma bs_loop_spec {A} (f : A → comparison) l fuel left right :
  ordered_for f l → right - left ≤ fuel → left ≤ right ≤ length l →
  (∀ i x, i < left → l !! i = Some x → f x = Lt) →
  (∀ i x, right ≤ i → l !! i = Some x → f x = Gt) →
  match bs_loop f l fuel left right with
  | inl i => ∃ x, l !! i = Some x ∧ f x = Eq
  | inr i => i ≤ length l ∧ (∀ j x, j < i → l !! j = Some x → f x = Lt) ∧
             (∀ j x, i ≤ j → l !! j = Some x → f x = Gt)
  end.
Proof.
  intros Hord. revert left right.
  induction fuel as [|fuel IH]; intros left right Hf Hr Hlo Hhi; cbn [bs_loop].
  { assert (left = right) as -> by lia. naive_solver lia. }
  destruct (decide (left < right)) as [Hlt|]; [|assert (left = right) as -> by lia; naive_solver lia].
  pose proof (mid_bounds left right Hlt) as Hmid.
  cbv zeta. set (mid := left + (right - left) / 2) in *. clearbody mid.
  destruct (lookup_lt_is_Some_2 l mid) as [m Hm]; [lia|]. rewrite Hm. simpl.
  destruct (f m) eqn:Hfm; [by eauto|..]; (apply IH; [lia..| |]); try done.
  - intros i x Hi Hx. eapply Hord; [|exact Hx|exact Hm|]; [lia|done].
  - intros i x Hi Hx. eapply (Hord mid i m x); eauto.
Qed.

Lemma binary_search_by_spec {A} (f : A → comparison) l :
  ordered_for f l →
  match binary_search_by f l with
  | inl i => ∃ x, l !! i = Some x ∧ f x = Eq
  | inr i => i ≤ length l ∧ (∀ j x, j < i → l !! j = Some x → f x = Lt) ∧
             (∀ j x, i ≤ j → l !! j = Some x → f x = Gt)
  end.
Proof.
  intros. apply bs_loop_spec; try done; try lia.
  intros i x Hi Hx. apply lookup_lt_Some in Hx. lia.
Qed.

Lemma partition_point_spec {A} (p : A → bool) l :
  partitioned p l → partition_point p l = length (take_while p l).
Proof.
  intros Hp. unfold partition_point. set (f := λ x, if p x then Lt else Gt).
  assert (Hf : ∀ i x, l !! i = Some x → f x = if decide (i < length (take_while p l)) then Lt else Gt).
  { intros i x Hx. unfold f. erewrite partitioned_lookup by done. by repeat case_decide. }
  assert (length (take_while p l) ≤ length l) as Hlen.
  { rewrite <-(take_drop_while p l) at 2. rewrite length_app. lia. }
  pose proof (binary_search_by_spec f l) as Hbs.
  destruct (binary_search_by f l) as [i|i].
  - destruct Hbs as (x & Hx & E).
    + intros i' j x y ? Hx Hy. rewrite (Hf _ _ Hx), (Hf _ _ Hy). repeat case_decide; naive_solver lia.
    + unfold f in E. by destruct (p x).
  - destruct Hbs as (Hi & Hlo & Hhi).
    + intros i' j x y ? Hx Hy. rewrite (Hf _ _ Hx), (Hf _ _ Hy). repeat case_decide; naive_solver lia.
    + destruct (lt_eq_lt_dec i (length (take_while p l))) as [[Hlt| ->]|Hlt]; [|done|].
      * destruct (lookup_lt_is_Some_2 l i) as [x Hx]; [lia|].
        specialize (Hhi i x). rewrite (Hf i x) in Hhi by done. case_decide; naive_solver lia.
      * destruct (lookup_lt_is_Some_2 l (length (take_while p l))) as [x Hx]; [lia|].
        specialize (Hlo _ x Hlt Hx). rewrite (Hf _ x) in Hlo by done. case_decide; naive_solver lia.
Qed.

(** [Vec::dedup] with a [PartialEq] that need not be decidable equality: an
    element is compared with the last one kept. *)
Fixpoint dedup_from {A} (eq : A → A → bool) (prev : A) (l : list A) : list A :=
  match l with
  | [] => []
  | x :: l => if eq x prev then dedup_from eq prev l else x :: dedup_from eq x l
  end.
Definition dedup_by {A} (eq : A → A → bool) (l : list A) : list A :=
  match l with [] => [] | x :: l => x :: dedup_from eq x l end.

(** Related lists deduplicate to related lists when the relation respects the
    two equalities. *)
Lemma dedup_by_Forall2 {A B} (R : A → B → Prop) (eqA : A → A → bool) (eqB : B → B → bool) l k :
  (∀ x x' y y', R x x' → R y y' → eqA x y = eqB x' y') → Forall2 R l k →
  Forall2 R (dedup_by eqA l) (dedup_by eqB k).
Proof.
  intros Heq HF. destruct HF as [|p p' l k Hp HF]; [constructor|]. simpl. constructor; [done|].
  revert p p' Hp. induction HF as [|x x' l k Hx HF IH]; intros p p' Hp; simpl; [constructor|].
  rewrite (Heq x x' p p') by done. destruct (eqB x' p'); [by apply IH|].
  constructor; [done|]. by apply IH.
Qed.

Lemma sorted_NoDup_lt `{OrdLaws A, !OrdEq A} (l : list A) :
  NoDup l → StronglySorted cmp_le l → StronglySorted cmp_lt l.
Proof.
  intros Hn Hs. induction Hs as [|k l Hs IH Hx]; [constructor|].
  apply NoDup_cons in Hn as [Hk Hn].
  constructor; [by apply IH|]. apply Forall_forall. intros k' Hk'. rewrite Forall_forall in Hx.
  specialize (Hx k' Hk'). unfold cmp_lt. unfold cmp_le in Hx.
  destruct (cmp k k') eqn:E; [|done|done]. apply cmp_eq in E. by subst.
Qed.

(** ** [BTreeMap] and [BTreeSet]: iteration in the order of the keys *)
Definition btree_map_iter {V} `{Countable K, Ord K} (m : gmap K V) : list (K * V) :=
  @sort _ (cmp_on fst) (map_to_list m).
Definition btree_set_iter `{Countable K, Ord K} (s : gset K) : list K := sort (elements s).

Lemma elem_of_btree_map_iter {V} `{Countable K, OrdLaws K} (m : gmap K V) k v :
  (k, v) ∈ btree_map_iter m ↔ m !! k = Some v.
Proof.
  unfold btree_map_iter. rewrite (@elem_of_sort _ (cmp_on fst) _). apply elem_of_map_to_list.
Qed.
Lemma btree_map_iter_sorted {V} `{Countable K, OrdLaws K} (m : gmap K V) :
  StronglySorted cmp_le (btree_map_iter m).*1.
Proof.
  unfold btree_map_iter. pose proof (@sort_sorted _ (cmp_on (fst (B:=V))) _ (map_to_list m)) as Hs.
  induction Hs as [|x l Hl IH Hx]; simpl; [constructor|]. constructor; [done|].
  by rewrite Forall_fmap.
Qed.
(** The keys are distinct, so the order is strict. *)
Lemma btree_map_iter_lt {V} `{Countable K, OrdLaws K, !OrdEq K} (m : gmap K V) :
  StronglySorted cmp_lt (btree_map_iter m).*1.
Proof.
  apply sorted_NoDup_lt; [|apply btree_map_iter_sorted].
  unfold btree_map_iter. rewrite (@sort_perm _ (cmp_on fst) _). apply NoDup_fst_map_to_list.
Qed.
Lemma elem_of_btree_set_iter `{Countable K, OrdLaws K} (s : gset K) k :
  k ∈ btree_set_iter s ↔ k ∈ s.
Proof. unfold btree_set_iter. by rewrite elem_of_sort, elem_of_elements. Qed.

Section search_theory.
Context {A : Type} `{OrdLaws B} (f : A → B).
Implicit Types (l : list A) (b : B).

(** The list is sorted by the key [f]. *)
Definition sorted_by : list A → Prop := StronglySorted (λ x y, cmp_le (f x) (f y)).

Lemma sorted_by_lookup l i j x y :
  sorted_by l → i ≤ j → l !! i = Some x → l !! j = Some y → cmp_le (f x) (f y).
Proof.
  intros Hs. revert i j. induction Hs as [|z l Hl IH Hz]; intros i j Hij Hi Hj; [done|].
  destruct i as [|i], j as [|j]; simplify_eq/=; try lia.
  - unfold cmp_le. by rewrite cmp_refl.
  - eapply Forall_lookup_1 in Hz; eauto.
  - eapply IH; [|done..]. lia.
Qed.

Lemma sorted_by_ordered_for l b : sorted_by l → ordered_for (λ y, cmp (f y) b) l.
Proof.
  intros Hs i j x y Hij Hx Hy. pose proof (sorted_by_lookup l i j x y Hs Hij Hx Hy) as Hle.
  split.
  - intros Hyb. destruct (cmp (f x) b) eqn:E; [|done|]; exfalso; apply Hle.
    + apply cmp_Lt_Gt. by rewrite (cmp_Eq_r _ _ _ E).
    + apply cmp_Lt_Gt in E. apply cmp_Lt_Gt. eapply cmp_trans; eauto.
  - intros Hxb. destruct (cmp (f y) b) eqn:E; [| |done]; exfalso; apply Hle.
    + by rewrite (cmp_Eq_r _ _ _ E).
    + apply cmp_Lt_Gt in E. eapply cmp_trans; eauto.
Qed.

(** [binary_search_by_key] on a sorted slice decides membership of the key. *)
Lemma binary_search_by_key_ok l b i :
  sorted_by l → ok (binary_search_by_key b f l) = Some i →
  ∃ x, l !! i = Some x ∧ cmp (f x) b = Eq.
Proof.
  intros Hs Hi. pose proof (binary_search_by_spec _ l (sorted_by_ordered_for l b Hs)) as Hbs.
  unfold binary_search_by_key in Hi.
  destruct (binary_search_by _ l); naive_solver.
Qed.
Lemma binary_search_by_key_err l b :
  sorted_by l → ok (binary_search_by_key b f l) = None →
  ∀ x, x ∈ l → cmp (f x) b ≠ Eq.
Proof.
  intros Hs Hi x (j & Hx)%list_elem_of_lookup.
  pose proof (binary_search_by_spec _ l (sorted_by_ordered_for l b Hs)) as Hbs.
  unfold binary_search_by_key in Hi.
  destruct (binary_search_by _ l) as [|i]; [done|]. destruct Hbs as (_ & Hlo & Hhi).
  destruct (decide (j < i)); [rewrite (Hlo j x)|rewrite (Hhi j x)]; naive_solver lia.
Qed.
Lemma binary_search_by_key_is_Some l b :
  sorted_by l → is_Some (ok (binary_search_by_key b f l)) ↔ ∃ x, x ∈ l ∧ cmp (f x) b = Eq.
Proof.
  intros Hs. split.
  - intros [i Hi]. apply binary_search_by_key_ok in Hi as (x & Hx & ?); [|done].
    apply list_elem_of_lookup_2 in Hx. eauto.
  - intros (x & Hx & E). destruct (ok _) eqn:Hi; [eauto|].
    exfalso. by eapply binary_search_by_key_err.
Qed.

Lemma sorted_by_partitioned l b : sorted_by l → partitioned (λ x, ltb (f x) b) l.
Proof.
  unfold partitioned. induction 1 as [|x l Hl IH Hx]; simpl; [constructor|].
  destruct (ltb (f x) b) eqn:E; [done|]. constructor; [done|].
  eapply Forall_impl; [exact Hx|]. intros y Hxy. simpl in *. unfold ltb in *.
  destruct (cmp (f y) b) eqn:Ey; try done. exfalso. apply Hxy. apply cmp_Lt_Gt.
  destruct (cmp (f x) b) eqn:Ex; [by rewrite (cmp_Eq_r _ _ _ Ex)|done|].
  apply cmp_Lt_Gt in Ex. eapply cmp_trans; eauto.
Qed.

Lemma take_while_eq_sorted l b :
  sorted_by l → Forall (λ x, ltb (f x) b = false) l →
  take_while (λ x, eqb (f x) b) l = filter (λ x, cmp (f x) b = Eq) l.
Proof.
  induction 1 as [|x l Hl IH Hx]; intros HF; simpl; [done|].
  inversion_clear HF as [|? ? Hb HF']. rewrite filter_cons. unfold ltb in Hb. unfold eqb at 1.
  destruct (cmp (f x) b) eqn:E; [rewrite decide_True by done; by rewrite IH|done|].
  rewrite decide_False by done. symmetry. apply filter_none.
  intros y Hy Ey. eapply Forall_forall in Hx; [|done]. apply Hx.
  by rewrite (cmp_Eq_r _ _ _ Ey).
Qed.

(** The idiom [partition_point(|x| key(x) < b)] followed by
    [take_while(|x| key(x) == b)] collects exactly the entries with key [b]. *)
Lemma key_range_spec l b :
  sorted_by l →
  take_while (λ x, eqb (f x) b) (drop (partition_point (λ x, ltb (f x) b) l) l) =
  filter (λ x, cmp (f x) b = Eq) l.
Proof.
  intros Hs. pose proof (sorted_by_partitioned l b Hs) as Hp.
  rewrite partition_point_spec, drop_while_length by done.
  set (p := λ x, ltb (f x) b) in *.
  assert (sorted_by (drop_while p l)) as Hs'.
  { rewrite <-(take_drop_while p l) in Hs. by apply StronglySorted_app in Hs as (_ & _ & ?). }
  rewrite take_while_eq_sorted by done.
  transitivity (filter (λ x, cmp (f x) b = Eq) (take_while p l ++ drop_while p l));
    [|by rewrite take_drop_while].
  rewrite filter_app, (filter_none _ (take_while p l)); [done|].
  intros x Hx Ex. pose proof (take_while_Forall p l) as HF.
  eapply Forall_forall in HF; [|done]. unfold p, ltb in HF. by rewrite Ex in HF.
Qed.
End search_theory.
Global Arguments sorted_by {A B _} f l.

Lemma sorted_by_id `{Ord A} (l : list A) : sorted_by (λ x, x) l ↔ StronglySorted cmp_le l.
Proof. done. Qed.

(** Membership through [binary_search] in a sorted [Vec]. *)
Lemma binary_search_is_ok `{OrdLaws A, !OrdEq A} (x : A) l :
  StronglySorted cmp_le l → is_ok (binary_search x l) = true ↔ x ∈ l.
Proof.
  intros Hs. pose proof (binary_search_by_key_is_Some (λ y, y) l x Hs) as Hiff.
  change (binary_search_by_key x _ l) with (binary_search x l) in Hiff.
  assert (is_ok (binary_search x l) = true ↔ is_Some (ok (binary_search x l))) as ->.
  { destruct (binary_search x l); simpl; naive_solver. }
  rewrite Hiff. split; [intros (y & ? & E%cmp_eq); by subst|].
  intros ?. exists x. by rewrite cmp_refl.
Qed.

Lemma sort_sorted_by {A} `{OrdLaws B} (f : A → B) (l : list A) :
  sorted_by f (@sort A (cmp_on f) l).
Proof. apply (@sort_sorted A (cmp_on f) _). Qed.

(** ** [str] *)
Local Open Scope string_scope.
Local Open Scope nat_scope.

(** The double quote of format strings. *)
Definition dquote : ascii := ascii_of_nat 34.
Definition quoted (s : string) : string := String dquote s +:+ String dquote "".

(** [str::split(c)] for an ASCII separator; there is always a first piece. *)
Fixpoint str_split (c : ascii) (s : string) : list string :=
  match s with
  | EmptyString => [""]
  | String a s' =>
      if decide (a = c) then "" :: str_split c s'
      else match str_split c s' with
           | [] => [String a ""]
           | w :: ws => String a w :: ws
           end
  end.

(** [str::split_once(c)]. *)
Fixpoint split_once (c : ascii) (s : string) : option (string * string) :=
  match s with
  | EmptyString => None
  | String a s' =>
      if decide (a = c) then Some ("", s')
      else p ← split_once c s'; Some (String a p.1, p.2)
  end.

(** [str::match_indices(c)], the byte offsets. *)
Fixpoint match_indices_from (i : nat) (c : ascii) (s : string) : list nat :=
  match s with
  | EmptyString => []
  | String a s' =>
      if decide (a = c) then i :: match_indices_from (S i) c s'
      else match_indices_from (S i) c s'
  end.
Definition match_indices (c : ascii) (s : string) : list nat := match_indices_from 0 c s.

(** [<[&str]>::join(sep)]. *)
Definition join (sep : string) (l : list string) : string := String.concat sep l.

(** [str::is_char_boundary]: a UTF-8 continuation byte is [10xxxxxx]. *)
Definition is_continuation (a : ascii) : bool :=
  let n := nat_of_ascii a in (128 <=? n) && (n <? 192).
Definition is_char_boundary (s : string) (i : nat) : bool :=
  if i =? String.length s then true
  else match String.get i s with
       | Some a => (i =? 0) || negb (is_continuation a)
       | None => false
       end.

(** [&s[i..j]]. *)
Definition str_slice (s : string) (i j : nat) : res string :=
  if (i <=? j) && is_char_boundary s i && is_char_boundary s j
  then Ret (String.substring i (j - i) s)
  else Panic "byte index out of range or not a char boundary".

(** [str::trim]: the UTF-8 encodings of the characters with the Unicode
    property [White_Space]. *)
Definition bytes (l : list nat) : string := String.string_of_list_ascii (ascii_of_nat <$> l).
Definition white_space : list string :=
  ((λ n, bytes [n]) <$> [9; 10; 11; 12; 13; 32])
  ++ [bytes [194; 133]; bytes [194; 160]; bytes [225; 154; 128]]
  ++ ((λ n, bytes [226; 128; n]) <$> seq 128 11)
  ++ [bytes [226; 128; 168]; bytes [226; 128; 169]; bytes [226; 128; 175];
      bytes [226; 129; 159]; bytes [227; 128; 128]].

Fixpoint strip_prefix (p s : string) : option string :=
  match p, s with
  | EmptyString, _ => Some s
  | String a p', String b s' => if decide (a = b) then strip_prefix p' s' else None
  | String _ _, EmptyString => None
  end.
Definition strip_any (ps : list string) (s : string) : option string :=
  head (omap (λ p, strip_prefix p s) ps).
Fixpoint strip_loop (fuel : nat) (ps : list string) (s : string) : string :=
  match fuel with
  | 0 => s
  | S fuel => match strip_any ps s with Some s' => strip_loop fuel ps s' | None => s end
  end.
Definition str_rev (s : string) : string :=
  String.string_of_list_ascii (rev (String.list_ascii_of_string s)).
Definition trim_start (s : string) : string := strip_loop (String.length s) white_space s.
Definition trim_end (s : string) : string :=
  str_rev (strip_loop (String.length s) (str_rev <$> white_space) (str_rev s)).
Definition trim (s : string) : string := trim_end (trim_start s).

Definition is_empty (s : string) : bool := bool_decide (s = "").

Example trim_ex : trim (bytes [32; 10; 226; 128; 137; 65; 32; 66; 194; 160; 9]) = "A B".
Proof. vm_compute. reflexivity. Qed.

Lemma append_assoc (a b c : string) : a +:+ (b +:+ c) = (a +:+ b) +:+ c.
Proof.
  induction a as [|x a IH]; [done|].
  change (String x (a +:+ b +:+ c) = String x ((a +:+ b) +:+ c)). by rewrite IH.
Qed.
Lemma append_nil (a : string) : a +:+ "" = a.
Proof. induction a as [|x a IH]; [done|]. change (String x (a +:+ "") = String x a). by rewrite IH. Qed.

(** *** Facts about dotted paths *)

(** A segment without the separator, e.g. a GraphQL name. *)
Fixpoint no_char (c : ascii) (s : string) : bool :=
  match s with
  | EmptyString => true
  | String a s' => bool_decide (a ≠ c) && no_char c s'
  end.

Lemma str_split_cons c s : ∃ w ws, str_split c s = w :: ws.
Proof. destruct s as [|a s]; simpl; [by eauto|]. repeat case_match; eauto. Qed.

Lemma str_split_no_char c s : no_char c s = true → str_split c s = [s].
Proof.
  induction s as [|a s IH]; simpl; [done|].
  intros [Ha%bool_decide_eq_true_1 Hs]%andb_true_iff. rewrite decide_False by done.
  by rewrite IH.
Qed.

Lemma str_split_app c w s :
  no_char c w = true → str_split c (w +:+ String c s) = w :: str_split c s.
Proof.
  induction w as [|a w IH]; simpl; intros Hw.
  { change ("" +:+ String c s) with (String c s). simpl. by rewrite decide_True. }
  apply andb_true_iff in Hw as [Ha%bool_decide_eq_true_1 Hw].
  change (String a w +:+ String c s) with (String a (w +:+ String c s)). simpl.
  rewrite decide_False by done. by rewrite IH.
Qed.

Lemma split_once_app c w s :
  no_char c w = true → split_once c (w +:+ String c s) = Some (w, s).
Proof.
  induction w as [|a w IH]; simpl; intros Hw.
  { change ("" +:+ String c s) with (String c s). simpl. by rewrite decide_True. }
  apply andb_true_iff in Hw as [Ha%bool_decide_eq_true_1 Hw].
  change (String a w +:+ String c s) with (String a (w +:+ String c s)). simpl.
  rewrite decide_False by done. by rewrite IH.
Qed.

(** Splitting a joined path gives its segments back. *)
Lemma split_join c l :
  l ≠ [] → Forall (λ w, no_char c w = true) l → str_split c (join (String c "") l) = l.
Proof.
  intros Hne HF. unfold join. induction HF as [|w l Hw HF IH]; [done|]. simpl.
  destruct l as [|w' l]; [by apply str_split_no_char|].
  change (w ++ String c "" ++ String.concat (String c "") (w' :: l))%string
    with (w +:+ (String c (String.concat (String c "") (w' :: l)))).
  rewrite str_split_app by done. by rewrite IH.
Qed.

Lemma join2 a b : join "." [a; b] = a +:+ String "." b.
Proof. reflexivity. Qed.
Lemma join3 a b d : join "." [a; b; d] = a +:+ String "." (b +:+ String "." d).
Proof. reflexivity. Qed.

(** Joining is injective on dot-free segments. *)
Lemma join_inj c l1 l2 :
  l1 ≠ [] → l2 ≠ [] → Forall (λ w, no_char c w = true) l1 → Forall (λ w, no_char c w = true) l2 →
  join (String c "") l1 = join (String c "") l2 → l1 = l2.
Proof.
  intros ? ? H1 H2 E. rewrite <-(split_join c l1), <-(split_join c l2) by done. by rewrite E.
Qed.

(** ** Machine words: unsigned integers of [n] bits as [Z] with wrap-around

    The operators [!], [<<] and the truncation of Rust's unsigned integers, and
    their bits. Shared by the two packed representations of type wrappers. *)
Local Open Scope Z_scope.

Definition wrap (n x : Z) : Z := x mod 2 ^ n.
(** [!x]. *)
Definition bnot (n x : Z) : Z := Z.lxor x (Z.ones n).
(** [x << s], the bits shifted out are lost. *)
Definition shl (n x s : Z) : Z := wrap n (Z.shiftl x s).

Lemma testbit_ones_case n i : 0 ≤ n → 0 ≤ i → Z.testbit (Z.ones n) i = bool_decide (i < n).
Proof.
  intros. case_bool_decide; [apply Z.ones_spec_low|apply Z.ones_spec_high]; lia.
Qed.
Lemma testbit_mask n s i : 0 ≤ n → 0 ≤ s → 0 ≤ i →
  Z.testbit (Z.shiftl (Z.ones n) s) i = bool_decide (s ≤ i < s + n).
Proof.
  intros. rewrite Z.shiftl_spec by lia. destruct (decide (s ≤ i)).
  - rewrite testbit_ones_case by lia. apply bool_decide_ext. lia.
  - rewrite Z.testbit_neg_r by lia. by rewrite bool_decide_eq_false_2 by lia.
Qed.
Lemma testbit_small n k i : 0 ≤ n < 2 ^ k → 0 ≤ k ≤ i → Z.testbit n i = false.
Proof.
  intros. rewrite <-(Z.mod_small n (2 ^ k)) by lia. apply Z.mod_pow2_bits_high. lia.
Qed.
(** A number without bits above [k] is a [k]-bit word. *)
Lemma bits_range x k : 0 ≤ k → (∀ i, k ≤ i → Z.testbit x i = false) → 0 ≤ x < 2 ^ k.
Proof.
  intros Hk Hx. assert (x = Z.land x (Z.ones k)) as ->.
  { apply Z.bits_inj'. intros i Hi. rewrite Z.land_spec, testbit_ones_case by lia.
    case_bool_decide; [by rewrite andb_true_r|]. by rewrite Hx by lia. }
  rewrite Z.land_ones by lia. apply Z.mod_pos_bound. lia.
Qed.

Section word.
Context (n : Z) (Hn : 0 ≤ n).

Lemma testbit_shl v s i : 0 ≤ v → 0 ≤ s → 0 ≤ i →
  Z.testbit (shl n v s) i = bool_decide (s ≤ i < n) && Z.testbit v (i - s).
Proof using Hn.
  intros. unfold shl, wrap. destruct (decide (i < n)).
  - rewrite Z.mod_pow2_bits_low, Z.shiftl_spec by lia. case_bool_decide; [done|].
    by rewrite Z.testbit_neg_r by lia.
  - rewrite Z.mod_pow2_bits_high by lia. by rewrite bool_decide_eq_false_2 by lia.
Qed.
Lemma testbit_shl1 k i : 0 ≤ k < n → 0 ≤ i → Z.testbit (shl n 1 k) i = bool_decide (i = k).
Proof using Hn.
  intros. rewrite testbit_shl by lia. destruct (decide (i = k)) as [->|].
  - by rewrite Z.sub_diag, !bool_decide_eq_true_2 by lia.
  - rewrite (bool_decide_eq_false_2 (i = k)) by done. case_bool_decide; [|done].
    by rewrite (testbit_small 1 1) by lia.
Qed.
Lemma testbit_bnot x i : 0 ≤ i → Z.testbit (bnot n x) i = xorb (Z.testbit x i) (bool_decide (i < n)).
Proof using Hn. intros. unfold bnot. by rewrite Z.lxor_spec, testbit_ones_case by lia. Qed.

(** [x & (1 << i) != 0] tests bit [i]. *)
Lemma land_bit_0 x i : 0 ≤ i < n → (Z.land x (shl n 1 i) =? 0) = negb (Z.testbit x i).
Proof using Hn.
  intros Hi. destruct (Z.testbit x i) eqn:E; simpl.
  - apply Z.eqb_neq. intros H0. apply (f_equal (λ z, Z.testbit z i)) in H0.
    rewrite Z.land_spec, E, testbit_shl1, Z.testbit_0_l in H0 by lia.
    by rewrite bool_decide_eq_true_2 in H0 by lia.
  - apply Z.eqb_eq, Z.bits_inj'. intros j Hj. rewrite Z.land_spec, testbit_shl1, Z.testbit_0_l by lia.
    case_bool_decide; [subst; by rewrite E|apply andb_false_r].
Qed.

(** Setting and clearing bit [k]. *)
Lemma testbit_set_bit x k i : 0 ≤ k < n → 0 ≤ i →
  Z.testbit (Z.lor x (shl n 1 k)) i = if decide (i = k) then true else Z.testbit x i.
Proof using Hn.
  intros. rewrite Z.lor_spec, testbit_shl1 by lia.
  case_decide; case_bool_decide; try done; [apply orb_true_r|apply orb_false_r].
Qed.
Lemma testbit_clear_bit x k i : 0 ≤ x < 2 ^ n → 0 ≤ k < n → 0 ≤ i →
  Z.testbit (Z.land x (bnot n (shl n 1 k))) i = if decide (i = k) then false else Z.testbit x i.
Proof using Hn.
  intros. rewrite Z.land_spec, testbit_bnot, testbit_shl1 by lia.
  case_decide; [rewrite !bool_decide_eq_true_2 by lia; apply andb_false_r|].
  rewrite (bool_decide_eq_false_2 (i = k)) by done. destruct (decide (i < n)).
  - rewrite bool_decide_eq_true_2 by lia. apply andb_true_r.
  - by rewrite (testbit_small x n) by lia.
Qed.

(** ** A field of [k] bits at position [s] *)
Definition field_mask (k s : Z) : Z := Z.shiftl (Z.ones k) s.
Definition get_field (k x s : Z) : Z := Z.shiftr (Z.land x (field_mask k s)) s.
Definition set_field (k x s v : Z) : Z := Z.lor (Z.land x (bnot n (field_mask k s))) (shl n v s).

Context (k : Z) (Hk : 0 < k).

Lemma testbit_get_field x s i : 0 ≤ s → 0 ≤ i →
  Z.testbit (get_field k x s) i = bool_decide (i < k) && Z.testbit x (i + s).
Proof using Hk.
  intros. unfold get_field, field_mask. rewrite Z.shiftr_spec, Z.land_spec, testbit_mask by lia.
  rewrite andb_comm. f_equal. apply bool_decide_ext. lia.
Qed.
Lemma testbit_set_field x s v i : 0 ≤ s → s + k ≤ n → 0 ≤ v < 2 ^ k → 0 ≤ x < 2 ^ n → 0 ≤ i →
  Z.testbit (set_field k x s v) i =
  if bool_decide (s ≤ i < s + k) then Z.testbit v (i - s) else Z.testbit x i.
Proof using Hn Hk.
  intros Hs Hsk Hv Hx Hi. unfold set_field, field_mask.
  rewrite Z.lor_spec, Z.land_spec, testbit_bnot, testbit_mask, testbit_shl by lia.
  destruct (decide (i < n)).
  - rewrite (bool_decide_eq_true_2 (i < n)) by lia.
    destruct (decide (s ≤ i < s + k)).
    + rewrite !bool_decide_eq_true_2 by lia. simpl. by rewrite andb_false_r.
    + rewrite (bool_decide_eq_false_2 (s ≤ i < s + k)) by lia. simpl. rewrite andb_true_r.
      case_bool_decide; [rewrite (testbit_small v k) by lia|]; by rewrite orb_false_r.
  - rewrite (testbit_small x n), !bool_decide_eq_false_2 by lia. done.
Qed.
Lemma get_field_range x s : 0 ≤ s → 0 ≤ get_field k x s < 2 ^ k.
Proof using Hk.
  intros. apply bits_range; [lia|]. intros i Hi.
  rewrite testbit_get_field, bool_decide_eq_false_2 by lia. done.
Qed.
Lemma set_field_range x s v : 0 ≤ s → s + k ≤ n → 0 ≤ v < 2 ^ k → 0 ≤ x < 2 ^ n →
  0 ≤ set_field k x s v < 2 ^ n.
Proof using Hn Hk.
  intros. apply bits_range; [lia|]. intros i Hi.
  rewrite testbit_set_field, bool_decide_eq_false_2, (testbit_small x n) by lia. done.
Qed.
Lemma get_set_field x s v : 0 ≤ s → s + k ≤ n → 0 ≤ v < 2 ^ k → 0 ≤ x < 2 ^ n →
  get_field k (set_field k x s v) s = v.
Proof using Hn Hk.
  intros. apply Z.bits_inj'. intros i Hi. rewrite testbit_get_field, testbit_set_field by lia.
  destruct (decide (i < k)).
  - rewrite !bool_decide_eq_true_2 by lia. simpl. f_equal. lia.
  - rewrite (bool_decide_eq_false_2 (i < k)), (testbit_small v k i) by lia. done.
Qed.
Lemma get_field_ext x y s : 0 ≤ s → (∀ i, s ≤ i < s + k → Z.testbit x i = Z.testbit y i) →
  get_field k x s = get_field k y s.
Proof using Hk.
  intros Hs Hxy. apply Z.bits_inj'. intros i Hi. rewrite !testbit_get_field by lia.
  case_bool_decide; simpl; [|done]. apply Hxy. lia.
Qed.
End word.
