(* ===== verification/Wrapping.v ===== *)
(** * The [wrapping] crate: list/nullability wrappers packed into a [u32]

    [Wrapping] is the bit-packed [u32] of [wrapping/src/lib.rs], with every
    operation written on the bits as in the source. The crate's documentation
    states that the packed word is functionally equivalent to a record with a
    flag and a double-ended queue of list wrappers: [AWrapping] is that record
    and [abs] the abstraction function; the theorems show that each operation
    of the packed word implements the operation on the record. *)
From Stdlib Require Import ZArith Ascii.
From S2P Require Import Prelude RustStd.
Local Open Scope Z_scope.

(** ** Machine words *)
Definition u32_wrap (x : Z) : Z := wrap 32 x.
Definition u32_not (x : Z) : Z := bnot 32 x.
Definition u32_shl (x s : Z) : Z := shl 32 x s.

Fixpoint count_bits (fuel : nat) (b : bool) (x : Z) : Z :=
  match fuel with
  | O => 0
  | S fuel => if Bool.eqb (Z.odd x) b then 1 + count_bits fuel b (Z.div2 x) else 0
  end.
Definition trailing_zeros (x : Z) : Z := count_bits 32 false x.
Definition trailing_ones (x : Z) : Z := count_bits 32 true x.

(** ** Constants *)
Definition START_MASK : Z := 0x7C000000.
Definition START_SHIFT : Z := Eval vm_compute in trailing_zeros START_MASK.
Definition END_MASK : Z := 0x03E00000.
Definition END_SHIFT : Z := Eval vm_compute in trailing_zeros END_MASK.
Definition LIST_WRAPPINGS_MASK : Z := 0x001FFFFF.
Definition MAX_LIST_WRAPINGS : Z := Eval vm_compute in trailing_ones LIST_WRAPPINGS_MASK.
Definition INNER_IS_REQUIRED_FLAG : Z := 0x80000000.

Inductive ListWrapping := RequiredList | NullableList.
Global Instance ListWrapping_eq_dec : EqDecision ListWrapping.
Proof. solve_decision. Defined.

(** [struct Wrapping(u32)]. *)
Record Wrapping := MkWrapping { w0 : Z }.
Global Instance Wrapping_eq_dec : EqDecision Wrapping.
Proof. solve_decision. Defined.

(** ** Operations *)
Definition nullable : Wrapping := MkWrapping 0.
Definition required : Wrapping := MkWrapping INNER_IS_REQUIRED_FLAG.
Definition new (req : bool) : Wrapping := if req then required else nullable.

Definition inner_is_required (w : Wrapping) : bool :=
  negb (Z.land (w0 w) INNER_IS_REQUIRED_FLAG =? 0).

Definition start (w : Wrapping) : Z := Z.shiftr (Z.land (w0 w) START_MASK) START_SHIFT.
Definition inc_start (w : Wrapping) : Wrapping :=
  let s := u32_wrap (start w + 1) in
  MkWrapping (Z.lor (Z.land (w0 w) (u32_not START_MASK)) (u32_shl s START_SHIFT)).

Definition end_ (w : Wrapping) : Z := Z.shiftr (Z.land (w0 w) END_MASK) END_SHIFT.
Definition set_end (w : Wrapping) (e : Z) : Wrapping :=
  MkWrapping (Z.lor (Z.land (w0 w) (u32_not END_MASK)) (u32_shl e END_SHIFT)).
Definition inc_end (w : Wrapping) : res Wrapping :=
  let e := u32_wrap (end_ w + 1) in
  if e <? MAX_LIST_WRAPINGS + 1 then Ret (set_end w e) else Panic "Too many list wrappings".
Definition dec_end (w : Wrapping) : Wrapping := set_end w (u32_wrap (end_ w - 1)).

(** The wrapper stored at bit [i]: [self.0 & (1 << i) != 0]. *)
Definition wrapping_at (w : Wrapping) (i : Z) : ListWrapping :=
  if negb (Z.land (w0 w) (u32_shl 1 i) =? 0) then RequiredList else NullableList.

(** [Iterator::next]: the innermost wrapper; the [u32] itself is the iterator. *)
Definition next (w : Wrapping) : option ListWrapping * Wrapping :=
  let s := start w in
  if s =? end_ w then (None, w)
  else let w' := inc_start w in (Some (wrapping_at w' s), w').

(** [DoubleEndedIterator::next_back]: the outermost wrapper. *)
Definition next_back (w : Wrapping) : option ListWrapping * Wrapping :=
  let e := end_ w in
  if e =? start w then (None, w)
  else let w' := dec_end w in (Some (wrapping_at w' (e - 1)), w').
Definition pop_list_wrapping (w : Wrapping) : option ListWrapping * Wrapping := next_back w.

(** [ExactSizeIterator::len]. *)
Definition len (w : Wrapping) : Z := u32_wrap (end_ w - start w).

(** Draining the iterator front to back; a [Wrapping] holds at most 31 wrappers. *)
Fixpoint collect (fuel : nat) (w : Wrapping) : list ListWrapping :=
  match fuel with
  | O => []
  | S fuel =>
      match next w with
      | (Some lw, w') => lw :: collect fuel w'
      | (None, _) => []
      end
  end.
Definition list_wrappings (w : Wrapping) : list ListWrapping := collect 32 w.

Definition is_required (w : Wrapping) : bool :=
  match (next_back w).1 with
  | Some lw => bool_decide (lw = RequiredList)
  | None => inner_is_required w
  end.
Definition is_nullable (w : Wrapping) : bool := negb (is_required w).
Definition is_list (w : Wrapping) : bool := bool_decide (is_Some (next w).1).

Definition wrapped_by_nullable_list (w : Wrapping) : res Wrapping :=
  let e := end_ w in
  w' ← inc_end w;
  Ret (MkWrapping (Z.land (w0 w') (u32_not (u32_shl 1 e)))).
Definition wrapped_by_required_list (w : Wrapping) : res Wrapping :=
  let e := end_ w in
  w' ← inc_end w;
  Ret (MkWrapping (Z.lor (w0 w') (u32_shl 1 e))).
Definition wrapped_by (w : Wrapping) (lw : ListWrapping) : res Wrapping :=
  match lw with
  | RequiredList => wrapped_by_required_list w
  | NullableList => wrapped_by_nullable_list w
  end.

Fixpoint repeat_str (n : nat) (s : string) : string :=
  match n with O => "" | S n => s +:+ repeat_str n s end.
Definition write_type_string (w : Wrapping) (name : string) : string :=
  repeat_str (Z.to_nat (len w)) "["
  +:+ name
  +:+ (if inner_is_required w then "!" else "")
  +:+ foldr (λ lw acc, match lw with RequiredList => "]!" | NullableList => "]" end +:+ acc) ""
        (list_wrappings w).

(** The unit test [test_wrapping] of the crate. *)
Example test_wrapping :
  (w ← wrapped_by_nullable_list nullable;
   w ← wrapped_by_required_list w;
   w ← wrapped_by_nullable_list w;
   let '(p, w') := pop_list_wrapping w in
   Ret (list_wrappings w, is_required w, p, list_wrappings w', is_required w', write_type_string w "T"))
  = Ret ([NullableList; RequiredList; NullableList], false,
         Some NullableList, [NullableList; RequiredList], true, "[[[T]]!]"%string).
Proof. vm_compute. reflexivity. Qed.

(** ** The abstract queue of the crate's documentation *)
Record AWrapping := MkA {
  a_inner : bool;
  a_lists : list ListWrapping;  (** innermost to outermost *)
  a_front : nat;                (** how many wrappers were taken at the front *)
}.

(** Well-formed words: a [u32] whose start and end delimit a range of the 21
    list bits. *)
Definition wf (w : Wrapping) : Prop :=
  0 ≤ w0 w < 2 ^ 32 ∧ start w ≤ end_ w ≤ MAX_LIST_WRAPINGS.

Definition bit_wrapping (w : Wrapping) (i : nat) : ListWrapping :=
  if Z.testbit (w0 w) (Z.of_nat i) then RequiredList else NullableList.
Definition abs (w : Wrapping) : AWrapping :=
  MkA (Z.testbit (w0 w) 31)
      (bit_wrapping w <$> seq (Z.to_nat (start w)) (Z.to_nat (end_ w) - Z.to_nat (start w)))
      (Z.to_nat (start w)).

(** The operations of the queue. A slot freed at the front is not reused: the
    21 list bits bound the wrappers ever pushed. *)
Inductive op := OpNext | OpNextBack | OpWrap (lw : ListWrapping).
Definition a_step (a : AWrapping) (o : op) : res (option ListWrapping * AWrapping) :=
  match o with
  | OpNext =>
      match a_lists a with
      | [] => Ret (None, a)
      | lw :: ls => Ret (Some lw, MkA (a_inner a) ls (S (a_front a)))
      end
  | OpNextBack =>
      match last (a_lists a) with
      | None => Ret (None, a)
      | Some lw => Ret (Some lw, MkA (a_inner a) (removelast (a_lists a)) (a_front a))
      end
  | OpWrap lw =>
      if decide (a_front a + length (a_lists a) < 21)%nat
      then Ret (None, MkA (a_inner a) (a_lists a ++ [lw]) (a_front a))
      else Panic "Too many list wrappings"
  end.
Definition c_step (w : Wrapping) (o : op) : res (option ListWrapping * Wrapping) :=
  match o with
  | OpNext => Ret (next w)
  | OpNextBack => Ret (next_back w)
  | OpWrap lw => w' ← wrapped_by w lw; Ret (None, w')
  end.
(** A program of operations and the values it returns. *)
Fixpoint run {S} (step : S → op → res (option ListWrapping * S)) (s : S) (os : list op)
    : res (list (option ListWrapping) * S) :=
  match os with
  | [] => Ret ([], s)
  | o :: os => r ← step s o; rs ← run step r.2 os; Ret (r.1 :: rs.1, rs.2)
  end.

(** ** The operations on fields, and the invariant *)
Lemma START_MASK_eq : START_MASK = field_mask 5 START_SHIFT. Proof. reflexivity. Qed.
Lemma END_MASK_eq : END_MASK = field_mask 5 END_SHIFT. Proof. reflexivity. Qed.
Lemma start_eq w : start w = get_field 5 (w0 w) START_SHIFT. Proof. reflexivity. Qed.
Lemma end_eq w : end_ w = get_field 5 (w0 w) END_SHIFT. Proof. reflexivity. Qed.
Lemma inc_start_eq w :
  inc_start w = MkWrapping (set_field 32 5 (w0 w) START_SHIFT (u32_wrap (start w + 1))).
Proof. reflexivity. Qed.
Lemma set_end_eq w e : set_end w e = MkWrapping (set_field 32 5 (w0 w) END_SHIFT e).
Proof. reflexivity. Qed.
Lemma start_range w : 0 ≤ start w < 32. Proof. by apply (get_field_range 5). Qed.
Lemma end_range w : 0 ≤ end_ w < 32. Proof. by apply (get_field_range 5). Qed.

Ltac fields :=
  unfold START_SHIFT, END_SHIFT, MAX_LIST_WRAPINGS, INNER_IS_REQUIRED_FLAG in *.

(** The effect of writing one of the two fields: the others, the flag and the
    list bits stay. *)
Lemma set_start_props w s : 0 ≤ w0 w < 2 ^ 32 → 0 ≤ s < 32 →
  let w' := MkWrapping (set_field 32 5 (w0 w) START_SHIFT s) in
  0 ≤ w0 w' < 2 ^ 32 ∧ start w' = s ∧ end_ w' = end_ w ∧
  (∀ i, 0 ≤ i < 26 ∨ i = 31 → Z.testbit (w0 w') i = Z.testbit (w0 w) i).
Proof.
  intros Hw Hs. cbn zeta. rewrite !start_eq, !end_eq. cbn [w0]. fields.
  assert (∀ i, 0 ≤ i < 26 ∨ i = 31 → Z.testbit (set_field 32 5 (w0 w) 26 s) i = Z.testbit (w0 w) i) as Hb.
  { intros i Hi. rewrite testbit_set_field by lia. by rewrite bool_decide_eq_false_2 by lia. }
  refine (conj _ (conj _ (conj _ _))); [apply set_field_range; lia|apply get_set_field; lia| |exact Hb].
  apply get_field_ext; [lia|lia|]. intros i Hi. apply Hb. lia.
Qed.
Lemma set_end_props w e : 0 ≤ w0 w < 2 ^ 32 → 0 ≤ e < 32 →
  let w' := set_end w e in
  0 ≤ w0 w' < 2 ^ 32 ∧ start w' = start w ∧ end_ w' = e ∧
  (∀ i, 0 ≤ i < 21 ∨ i = 31 → Z.testbit (w0 w') i = Z.testbit (w0 w) i).
Proof.
  intros Hw Hs. cbn zeta. rewrite set_end_eq, !start_eq, !end_eq. cbn [w0]. fields.
  assert (∀ i, 0 ≤ i < 21 ∨ 26 ≤ i → Z.testbit (set_field 32 5 (w0 w) 21 e) i = Z.testbit (w0 w) i) as Hb.
  { intros i Hi. rewrite testbit_set_field by lia. by rewrite bool_decide_eq_false_2 by lia. }
  refine (conj _ (conj _ (conj _ _))); [apply set_field_range; lia| |apply get_set_field; lia|].
  - apply get_field_ext; [lia|lia|]. intros i Hi. apply Hb. lia.
  - intros i Hi. apply Hb. lia.
Qed.

(** Writing a list bit keeps the two fields and the flag. *)
Lemma set_list_bit_props w x' k b : 0 ≤ w0 w < 2 ^ 32 → 0 ≤ k < 21 →
  (∀ i, 0 ≤ i → Z.testbit x' i = if decide (i = k) then b else Z.testbit (w0 w) i) →
  let w' := MkWrapping x' in
  0 ≤ w0 w' < 2 ^ 32 ∧ start w' = start w ∧ end_ w' = end_ w.
Proof.
  intros Hw Hk Hx. cbn zeta. rewrite !start_eq, !end_eq. cbn [w0]. fields. refine (conj _ (conj _ _)).
  - apply bits_range; [lia|]. intros i Hi. rewrite Hx, decide_False by lia.
    by rewrite (testbit_small (w0 w) 32) by lia.
  - apply get_field_ext; [lia|lia|]. intros i Hi. by rewrite Hx, decide_False by lia.
  - apply get_field_ext; [lia|lia|]. intros i Hi. by rewrite Hx, decide_False by lia.
Qed.

Lemma inner_is_required_abs w : inner_is_required w = a_inner (abs w).
Proof.
  unfold inner_is_required. change INNER_IS_REQUIRED_FLAG with (u32_shl 1 31).
  unfold u32_shl. rewrite land_bit_0 by lia. apply negb_involutive.
Qed.
Lemma wrapping_at_bit w i : 0 ≤ i < 32 → wrapping_at w i = bit_wrapping w (Z.to_nat i).
Proof.
  intros. unfold wrapping_at, bit_wrapping, u32_shl. rewrite land_bit_0, negb_involutive by lia.
  by rewrite Z2Nat.id by lia.
Qed.
Lemma bit_wrapping_ext w w' i :
  Z.testbit (w0 w) (Z.of_nat i) = Z.testbit (w0 w') (Z.of_nat i) → bit_wrapping w i = bit_wrapping w' i.
Proof. unfold bit_wrapping. by intros ->. Qed.

Lemma abs_lists_ext w w' s n :
  (∀ i, (s ≤ i < s + n)%nat → Z.testbit (w0 w) (Z.of_nat i) = Z.testbit (w0 w') (Z.of_nat i)) →
  bit_wrapping w <$> seq s n = bit_wrapping w' <$> seq s n.
Proof.
  intros HE. apply list_fmap_ext. intros i x Hx. apply bit_wrapping_ext, HE.
  apply lookup_seq in Hx. lia.
Qed.

Lemma new_abs b : abs (new b) = MkA b [] 0. Proof. by destruct b. Qed.
Lemma new_wf b : wf (new b). Proof. destruct b; repeat split; vm_compute; congruence. Qed.

Lemma a_lists_length w : length (a_lists (abs w)) = (Z.to_nat (end_ w) - Z.to_nat (start w))%nat.
Proof. unfold abs; cbn [a_lists]. by rewrite length_fmap, length_seq. Qed.

(** [next] pops the innermost wrapper. *)
Lemma next_spec w : wf w → wf (next w).2 ∧
  a_step (abs w) OpNext = Ret ((next w).1, abs (next w).2).
Proof.
  intros [Hw Hse]. pose proof (start_range w). fields. unfold next, a_step. cbn [abs a_lists a_inner a_front].
  destruct (Z.eqb_spec (start w) (end_ w)) as [E|E].
  { cbn [fst snd]. split; [done|]. unfold abs. by rewrite E, Nat.sub_diag. }
  rewrite inc_start_eq.
  assert (u32_wrap (start w + 1) = start w + 1) as -> by (apply Z.mod_small; lia).
  destruct (set_start_props w (start w + 1)) as (Hw' & Hs' & He' & Hb); [done|lia|].
  set (w' := MkWrapping _) in *. clearbody w'. cbn [fst snd].
  replace (Z.to_nat (end_ w) - Z.to_nat (start w))%nat
    with (S (Z.to_nat (end_ w) - S (Z.to_nat (start w))))%nat by lia.
  cbn [seq fmap list_fmap]. split; [unfold wf; fields; lia|].
  rewrite wrapping_at_bit by lia. unfold abs.
  rewrite (bit_wrapping_ext w' w _) by (apply Hb; lia).
  rewrite Hs', He', Hb by lia.
  replace (Z.to_nat (start w + 1)) with (S (Z.to_nat (start w))) by lia.
  by rewrite (abs_lists_ext w' w) by (intros i Hi; apply Hb; lia).
Qed.

(** [next_back] pops the outermost wrapper. *)
Lemma next_back_spec w : wf w → wf (next_back w).2 ∧
  a_step (abs w) OpNextBack = Ret ((next_back w).1, abs (next_back w).2).
Proof.
  intros [Hw Hse]. pose proof (start_range w). fields. unfold next_back, a_step.
  destruct (Z.eqb_spec (end_ w) (start w)) as [E|E].
  { cbn [fst snd]. split; [done|]. unfold abs. by rewrite E, Nat.sub_diag. }
  unfold dec_end.
  assert (u32_wrap (end_ w - 1) = end_ w - 1) as -> by (apply Z.mod_small; lia).
  destruct (set_end_props w (end_ w - 1)) as (Hw' & Hs' & He' & Hb); [done|lia|].
  set (w' := set_end _ _) in *. clearbody w'. cbn [fst snd abs a_lists a_inner a_front].
  set (n := (Z.to_nat (end_ w - 1) - Z.to_nat (start w))%nat).
  replace (Z.to_nat (end_ w) - Z.to_nat (start w))%nat with (S n) by lia.
  rewrite seq_S, fmap_app. cbn [fmap list_fmap]. rewrite last_snoc, removelast_last.
  split; [unfold wf; fields; lia|].
  rewrite wrapping_at_bit by lia. unfold abs. rewrite Hs', He', Hb by lia. fold n.
  replace (Z.to_nat (start w) + n)%nat with (Z.to_nat (end_ w - 1)) by lia.
  rewrite (bit_wrapping_ext w' w _) by (apply Hb; lia).
  by rewrite (abs_lists_ext w' w) by (intros i Hi; apply Hb; lia).
Qed.

(** Setting or clearing list bit [end]. *)
Definition push_bit (x : Z) (lw : ListWrapping) (e : Z) : Z :=
  match lw with
  | RequiredList => Z.lor x (u32_shl 1 e)
  | NullableList => Z.land x (u32_not (u32_shl 1 e))
  end.
Lemma push_bit_testbit x lw e i : 0 ≤ x < 2 ^ 32 → 0 ≤ e < 21 → 0 ≤ i →
  Z.testbit (push_bit x lw e) i =
  if decide (i = e) then bool_decide (lw = RequiredList) else Z.testbit x i.
Proof.
  intros Hx He Hi. unfold push_bit. destruct lw.
  - unfold u32_shl. by rewrite testbit_set_bit by lia.
  - unfold u32_shl, u32_not. by rewrite testbit_clear_bit by lia.
Qed.

(** [wrapped_by] pushes an outermost wrapper, and panics exactly when the 21
    bits are used up. *)
Lemma wrapped_by_spec w lw : wf w →
  match wrapped_by w lw with
  | Ret w' => wf w' ∧ a_step (abs w) (OpWrap lw) = Ret (None, abs w')
  | Panic e => a_step (abs w) (OpWrap lw) = Panic e
  end.
Proof.
  intros [Hw Hse]. pose proof (start_range w). fields.
  assert (wrapped_by w lw = (w' ← inc_end w; Ret (MkWrapping
    (push_bit (w0 w') lw (end_ w))))) as ->.
  { by destruct lw. }
  unfold inc_end, a_step. rewrite a_lists_length. cbn [abs a_front a_inner].
  assert (u32_wrap (end_ w + 1) = end_ w + 1) as -> by (apply Z.mod_small; lia). fields.
  destruct (Z.ltb_spec (end_ w + 1) (21 + 1)).
  2:{ rewrite decide_False by lia. done. }
  rewrite decide_True by lia. cbn [mbind res_bind].
  destruct (set_end_props w (end_ w + 1)) as (Hw' & Hs' & He' & Hb); [done|lia|].
  set (w' := set_end _ _) in *. clearbody w'.
  pose proof (λ i, push_bit_testbit (w0 w') lw (end_ w) i Hw') as HB.
  destruct (set_list_bit_props w' (push_bit (w0 w') lw (end_ w)) (end_ w) (bool_decide (lw = RequiredList)) Hw') as (Hr & Hs & He);
    [lia|intros i Hi; apply HB; lia|].
  set (w'' := MkWrapping _) in *. assert (∀ i, 0 ≤ i → Z.testbit (w0 w'') i =
    if decide (i = end_ w) then bool_decide (lw = RequiredList) else Z.testbit (w0 w') i) as HB'.
  { intros i Hi. apply HB; lia. }
  clear HB. clearbody w''. split; [unfold wf; fields; lia|].
  unfold abs. rewrite Hs, He, Hs', He', HB', decide_False, Hb by lia.
  replace (Z.to_nat (end_ w + 1) - Z.to_nat (start w))%nat
    with (S (Z.to_nat (end_ w) - Z.to_nat (start w))) by lia.
  rewrite seq_S, fmap_app. cbn [fmap list_fmap].
  rewrite (abs_lists_ext w'' w) by (intros i Hi; rewrite HB', decide_False by lia; apply Hb; lia).
  assert (bit_wrapping w'' (Z.to_nat (start w) + (Z.to_nat (end_ w) - Z.to_nat (start w))) = lw) as ->;
    [|done].
  unfold bit_wrapping. rewrite HB', decide_True by lia. by destruct lw.
Qed.

(** Draining the iterator yields the abstract queue. *)
Lemma collect_abs w n : wf w → (length (a_lists (abs w)) < n)%nat → collect n w = a_lists (abs w).
Proof.
  revert w. induction n as [|n IH]; intros w Hwf Hn; [lia|]. cbn [collect].
  destruct (next_spec w Hwf) as [Hwf' Hn']. unfold a_step in Hn'.
  destruct (next w) as [r w']. cbn [fst snd] in *. specialize (IH w' Hwf').
  generalize dependent (abs w'). generalize dependent (abs w). intros a Hn a' IH Hn'.
  destruct (a_lists a) as [|lw ls]; simplify_eq; [done|].
  cbn [a_lists length] in *. by rewrite IH by lia.
Qed.
Lemma list_wrappings_abs w : wf w → list_wrappings w = a_lists (abs w).
Proof.
  intros Hwf. apply collect_abs; [done|]. rewrite a_lists_length.
  pose proof (end_range w). lia.
Qed.
Lemma len_abs w : wf w → len w = Z.of_nat (length (a_lists (abs w))).
Proof.
  intros [Hw Hse]. rewrite a_lists_length. pose proof (start_range w). fields.
  unfold len, u32_wrap, wrap. rewrite Z.mod_small by lia. lia.
Qed.

(** The rendering of an abstract type: [[T!]!] and the like. *)
Definition a_suffix (b : bool) (ls : list ListWrapping) : string :=
  (if b then "!" else "")
  +:+ foldr (λ lw acc, match lw with RequiredList => "]!" | NullableList => "]" end +:+ acc) "" ls.

Lemma a_suffix_inj b1 b2 ls1 ls2 : a_suffix b1 ls1 = a_suffix b2 ls2 → b1 = b2 ∧ ls1 = ls2.
Proof.
  unfold a_suffix.
  set (f := λ (lw : ListWrapping) (acc : string),
    (match lw with RequiredList => "]!" | NullableList => "]" end +:+ acc)%string).
  assert (∀ ls, foldr f "" ls = "" ∨ ∃ s, foldr f "" ls = String "]" s)%string as Hhd.
  { intros [|[] ls]; [by left|right; eexists; reflexivity..]. }
  assert (Hinj : ∀ ls1 ls2, foldr f "" ls1 = foldr f "" ls2 → ls1 = ls2).
  { induction ls0 as [|[] l IH]; intros [|[] l']; try done; cbn; intros E; injection E as E.
    - f_equal. by apply IH.
    - change ("" ++ foldr f "" l)%string with (foldr f "" l)%string in E.
      destruct (Hhd l') as [E'|[? E']]; rewrite E' in E; discriminate.
    - destruct (Hhd l) as [E'|[? E']]; rewrite E' in E; discriminate.
    - f_equal. by apply IH. }
  destruct b1, b2; cbn; intros E.
  - injection E as E. eauto.
  - destruct (Hhd ls2) as [E'|[? E']]; rewrite E' in E; discriminate.
  - destruct (Hhd ls1) as [E'|[? E']]; rewrite E' in E; discriminate.
  - eauto.
Qed.

Lemma write_type_string_eq w name : wf w →
  write_type_string w name =
  repeat_str (length (a_lists (abs w))) "[" +:+ name +:+ a_suffix (a_inner (abs w)) (a_lists (abs w)).
Proof.
  intros Hwf. unfold write_type_string, a_suffix.
  rewrite len_abs, Nat2Z.id, list_wrappings_abs, inner_is_required_abs by done. done.
Qed.

Fixpoint count_char (c : ascii) (s : string) : nat :=
  match s with
  | EmptyString => 0
  | String a s' => (if decide (a = c) then 1 else 0) + count_char c s'
  end.
Lemma count_char_app c s t : count_char c (s +:+ t) = (count_char c s + count_char c t)%nat.
Proof.
  induction s as [|a s IH]; [done|].
  change (String a s +:+ t) with (String a (s +:+ t)). cbn [count_char]. rewrite IH. lia.
Qed.
Lemma count_char_repeat n : count_char "]" (repeat_str n "[") = 0%nat.
Proof. induction n as [|n IH]; [done|]. cbn [repeat_str]. by rewrite count_char_app, IH. Qed.
Lemma count_char_suffix b ls : count_char "]" (a_suffix b ls) = length ls.
Proof.
  unfold a_suffix. rewrite count_char_app. assert (count_char "]" (if b then "!" else "") = 0%nat) as ->.
  { by destruct b. }
  induction ls as [|lw ls IH]; [done|]. cbn [foldr length]. rewrite count_char_app.
  simpl in IH. rewrite IH. by destruct lw.
Qed.

(** ** Properties *)

(** C36. The packed [u32] refines the double-ended queue its documentation
    describes: started from [Wrapping::new], every program of iterator steps
    from either end and of pushes returns the same values on the packed word
    as on the queue, panics at the same operation (the 22nd wrapper), and ends
    in a word that represents the queue. *)
Theorem wrapping_refines_queue (b : bool) (os : list op) :
  match run c_step (new b) os with
  | Ret (out, w) => wf w ∧ run a_step (MkA b [] 0) os = Ret (out, abs w)
  | Panic e => run a_step (MkA b [] 0) os = Panic e
  end.
Proof.
  rewrite <-new_abs. pose proof (new_wf b) as Hwf. generalize dependent (new b).
  induction os as [|o os IH]; intros w Hwf; [done|]. cbn [run].
  assert (match c_step w o with
          | Ret (r, w') => wf w' ∧ a_step (abs w) o = Ret (r, abs w')
          | Panic e => a_step (abs w) o = Panic e
          end) as Hstep.
  { destruct o as [| |lw]; unfold c_step.
    - pose proof (next_spec w Hwf). by destruct (next w).
    - pose proof (next_back_spec w Hwf). by destruct (next_back w).
    - pose proof (wrapped_by_spec w lw Hwf). by destruct (wrapped_by w lw). }
  destruct (c_step w o) as [[r w']|e]; [|by rewrite Hstep].
  destruct Hstep as [Hwf' Hs]. rewrite Hs. cbn [mbind res_bind fst snd].
  specialize (IH w' Hwf'). destruct (run c_step w' os) as [[out w'']|e].
  - destruct IH as [? ->]. done.
  - by rewrite IH.
Qed.

(** The observers of a well-formed word are those of the queue it
    represents: the wrappers from innermost to outermost, the length, whether
    there is a list, and the outermost nullability (the innermost flag when
    there is no list). *)
Theorem wrapping_observers (w : Wrapping) (Hwf : wf w) :
  list_wrappings w = a_lists (abs w) ∧
  len w = Z.of_nat (length (a_lists (abs w))) ∧
  inner_is_required w = a_inner (abs w) ∧
  is_list w = bool_decide (a_lists (abs w) ≠ []) ∧
  is_required w = match last (a_lists (abs w)) with
                  | Some lw => bool_decide (lw = RequiredList)
                  | None => a_inner (abs w)
                  end.
Proof.
  split_and!; [by apply list_wrappings_abs|by apply len_abs|apply inner_is_required_abs|..].
  - destruct (next_spec w Hwf) as [_ Hn]. unfold is_list, a_step in *.
    destruct (next w) as [r w']. cbn [fst snd] in *.
    generalize dependent (abs w'). generalize dependent (abs w). intros a a' Hn.
    destruct (a_lists a); simplify_eq; [done|]. by rewrite !bool_decide_eq_true_2 by eauto.
  - destruct (next_back_spec w Hwf) as [_ Hn]. unfold is_required, a_step in *.
    rewrite inner_is_required_abs.
    destruct (next_back w) as [r w']. cbn [fst snd] in *.
    generalize dependent (abs w'). generalize dependent (abs w). intros a a' Hn.
    by destruct (last (a_lists a)); simplify_eq.
Qed.
Lemma wrapping_observers_witness :
  wf (MkWrapping 0x80600006) ∧ list_wrappings (MkWrapping 0x80600006) = [NullableList; RequiredList; RequiredList].
Proof.
  assert (wf (MkWrapping 0x80600006)) as Hwf by (repeat split; vm_compute; congruence).
  split; [exact Hwf|]. rewrite (proj1 (wrapping_observers _ Hwf)). vm_compute. reflexivity.
Defined.

(** [write_type_string] loses nothing: two well-formed words that print the
    same type for a name have the same innermost flag and the same wrappers. *)
Theorem write_type_string_inj (w1 w2 : Wrapping) (name : string) (H1 : wf w1) (H2 : wf w2)
    (Heq : write_type_string w1 name = write_type_string w2 name) :
  inner_is_required w1 = inner_is_required w2 ∧ list_wrappings w1 = list_wrappings w2.
Proof.
  rewrite !write_type_string_eq in Heq by done.
  rewrite !inner_is_required_abs, !list_wrappings_abs by done.
  apply a_suffix_inj.
  pose proof (f_equal (count_char "]") Heq) as Hc.
  rewrite !count_char_app, !count_char_repeat, !count_char_suffix in Hc by done.
  assert (length (a_lists (abs w1)) = length (a_lists (abs w2))) as Hlen by lia.
  rewrite Hlen in Heq. by apply (inj (String.append _)), (inj (String.append _)) in Heq.
Qed.
Lemma write_type_string_inj_witness :
  wf required ∧ inner_is_required required = inner_is_required required
  ∧ list_wrappings required = list_wrappings required.
Proof.
  assert (wf required) as Hwf by apply (new_wf true).
  split; [exact Hwf|]. apply (write_type_string_inj required required "T" Hwf Hwf). reflexivity.
Defined.
