(* ===== verification/Change.v ===== *)
(** * [graphql-schema-diff/src/change.rs]: changes, their kinds and their order

    A [Change] is a dotted path, a [ChangeKind] and a [Span]. The derived [Ord]
    compares the three fields in that order, kinds by their position in the
    declaration. *)
From S2P Require Import Prelude RustStd.

Inductive ChangeKind :=
| ChangeQueryType
| ChangeMutationType
| ChangeSubscriptionType
| RemoveObjectType
| AddObjectType
| AddInterfaceImplementation
| RemoveInterfaceImplementation
| ChangeFieldType
| RemoveField
| AddField
| AddUnion
| RemoveUnion
| AddUnionMember
| RemoveUnionMember
| AddEnum
| RemoveEnum
| AddEnumValue
| RemoveEnumValue
| AddScalar
| RemoveScalar
| AddInterface
| RemoveInterface
| AddDirectiveDefinition
| RemoveDirectiveDefinition
| AddSchemaDefinition
| RemoveSchemaDefinition
| AddInputObject
| RemoveInputObject
| AddFieldArgument
| RemoveFieldArgument
| AddFieldArgumentDefault
| RemoveFieldArgumentDefault
| ChangeFieldArgumentDefault
| ChangeFieldArgumentType.
Global Instance ChangeKind_eq_dec : EqDecision ChangeKind.
Proof. solve_decision. Defined.

(** The variants in declaration order, and the discriminant [repr(u8)]. *)
Definition all_kinds : list ChangeKind :=
  [ChangeQueryType; ChangeMutationType; ChangeSubscriptionType;
   RemoveObjectType; AddObjectType; AddInterfaceImplementation;
   RemoveInterfaceImplementation; ChangeFieldType; RemoveField;
   AddField; AddUnion; RemoveUnion;
   AddUnionMember; RemoveUnionMember; AddEnum;
   RemoveEnum; AddEnumValue; RemoveEnumValue;
   AddScalar; RemoveScalar; AddInterface;
   RemoveInterface; AddDirectiveDefinition; RemoveDirectiveDefinition;
   AddSchemaDefinition; RemoveSchemaDefinition; AddInputObject;
   RemoveInputObject; AddFieldArgument; RemoveFieldArgument;
   AddFieldArgumentDefault; RemoveFieldArgumentDefault; ChangeFieldArgumentDefault;
   ChangeFieldArgumentType].
Definition kind_discriminant (k : ChangeKind) : nat :=
  match k with
  | ChangeQueryType => 0
  | ChangeMutationType => 1
  | ChangeSubscriptionType => 2
  | RemoveObjectType => 3
  | AddObjectType => 4
  | AddInterfaceImplementation => 5
  | RemoveInterfaceImplementation => 6
  | ChangeFieldType => 7
  | RemoveField => 8
  | AddField => 9
  | AddUnion => 10
  | RemoveUnion => 11
  | AddUnionMember => 12
  | RemoveUnionMember => 13
  | AddEnum => 14
  | RemoveEnum => 15
  | AddEnumValue => 16
  | RemoveEnumValue => 17
  | AddScalar => 18
  | RemoveScalar => 19
  | AddInterface => 20
  | RemoveInterface => 21
  | AddDirectiveDefinition => 22
  | RemoveDirectiveDefinition => 23
  | AddSchemaDefinition => 24
  | RemoveSchemaDefinition => 25
  | AddInputObject => 26
  | RemoveInputObject => 27
  | AddFieldArgument => 28
  | RemoveFieldArgument => 29
  | AddFieldArgumentDefault => 30
  | RemoveFieldArgumentDefault => 31
  | ChangeFieldArgumentDefault => 32
  | ChangeFieldArgumentType => 33
  end.

(** [ChangeKind::as_str]. *)
Definition as_str (k : ChangeKind) : string :=
  match k with
  | ChangeQueryType => "ChangeQueryType"
  | ChangeMutationType => "ChangeMutationType"
  | ChangeSubscriptionType => "ChangeSubscriptionType"
  | RemoveObjectType => "RemoveObjectType"
  | AddObjectType => "AddObjectType"
  | AddInterfaceImplementation => "AddInterfaceImplementation"
  | RemoveInterfaceImplementation => "RemoveInterfaceImplementation"
  | ChangeFieldType => "ChangeFieldType"
  | RemoveField => "RemoveField"
  | AddField => "AddField"
  | AddUnion => "AddUnion"
  | RemoveUnion => "RemoveUnion"
  | AddUnionMember => "AddUnionMember"
  | RemoveUnionMember => "RemoveUnionMember"
  | AddEnum => "AddEnum"
  | RemoveEnum => "RemoveEnum"
  | AddEnumValue => "AddEnumValue"
  | RemoveEnumValue => "RemoveEnumValue"
  | AddScalar => "AddScalar"
  | RemoveScalar => "RemoveScalar"
  | AddInterface => "AddInterface"
  | RemoveInterface => "RemoveInterface"
  | AddDirectiveDefinition => "AddDirectiveDefinition"
  | RemoveDirectiveDefinition => "RemoveDirectiveDefinition"
  | AddSchemaDefinition => "AddSchemaDefinition"
  | RemoveSchemaDefinition => "RemoveSchemaDefinition"
  | AddInputObject => "AddInputObject"
  | RemoveInputObject => "RemoveInputObject"
  | AddFieldArgument => "AddFieldArgument"
  | RemoveFieldArgument => "RemoveFieldArgument"
  | AddFieldArgumentDefault => "AddFieldArgumentDefault"
  | RemoveFieldArgumentDefault => "RemoveFieldArgumentDefault"
  | ChangeFieldArgumentDefault => "ChangeFieldArgumentDefault"
  | ChangeFieldArgumentType => "ChangeFieldArgumentType"
  end.

(** [impl FromStr for ChangeKind]: the arms are tried in order. *)
Definition from_str_table : list (string * ChangeKind) :=
  [("ChangeQueryType"%string, ChangeQueryType);
   ("ChangeMutationType"%string, ChangeMutationType);
   ("ChangeSubscriptionType"%string, ChangeSubscriptionType);
   ("RemoveObjectType"%string, RemoveObjectType);
   ("AddObjectType"%string, AddObjectType);
   ("AddInterfaceImplementation"%string, AddInterfaceImplementation);
   ("RemoveInterfaceImplementation"%string, RemoveInterfaceImplementation);
   ("ChangeFieldType"%string, ChangeFieldType);
   ("RemoveField"%string, RemoveField);
   ("AddField"%string, AddField);
   ("AddUnion"%string, AddUnion);
   ("RemoveUnion"%string, RemoveUnion);
   ("AddUnionMember"%string, AddUnionMember);
   ("RemoveUnionMember"%string, RemoveUnionMember);
   ("AddEnum"%string, AddEnum);
   ("RemoveEnum"%string, RemoveEnum);
   ("AddEnumValue"%string, AddEnumValue);
   ("RemoveEnumValue"%string, RemoveEnumValue);
   ("AddScalar"%string, AddScalar);
   ("RemoveScalar"%string, RemoveScalar);
   ("AddInterface"%string, AddInterface);
   ("RemoveInterface"%string, RemoveInterface);
   ("AddDirectiveDefinition"%string, AddDirectiveDefinition);
   ("RemoveDirectiveDefinition"%string, RemoveDirectiveDefinition);
   ("AddSchemaDefinition"%string, AddSchemaDefinition);
   ("RemoveSchemaDefinition"%string, RemoveSchemaDefinition);
   ("AddInputObject"%string, AddInputObject);
   ("RemoveInputObject"%string, RemoveInputObject);
   ("AddFieldArgument"%string, AddFieldArgument);
   ("RemoveFieldArgument"%string, RemoveFieldArgument);
   ("AddFieldArgumentDefault"%string, AddFieldArgumentDefault);
   ("RemoveFieldArgumentDefault"%string, RemoveFieldArgumentDefault);
   ("ChangeFieldArgumentDefault"%string, ChangeFieldArgumentDefault);
   ("ChangeFieldArgumentType"%string, ChangeFieldArgumentType)].
Definition from_str (s : string) : option ChangeKind :=
  (λ q : nat * (string * ChangeKind), q.2.2) <$>
    list_find (λ p : string * ChangeKind, p.1 = s) from_str_table.

(** [Span]: byte offsets, the end exclusive. *)
Record Span := MkSpan { span_start : nat; span_end : nat }.
Global Instance Span_eq_dec : EqDecision Span.
Proof. solve_decision. Defined.
Definition Span_empty : Span := MkSpan 0 0.

Record Change := MkChange { path : string; kind : ChangeKind; span : Span }.
Global Instance Change_eq_dec : EqDecision Change.
Proof. solve_decision. Defined.

(** *** [#[derive(Ord)]] *)
Global Instance ChangeKind_ord : Ord ChangeKind := cmp_on kind_discriminant.
Global Instance ChangeKind_ord_laws : OrdLaws ChangeKind := cmp_on_laws kind_discriminant.
Lemma kind_discriminant_lookup k : all_kinds !! kind_discriminant k = Some k.
Proof. by destruct k. Qed.
Global Instance kind_discriminant_inj : Inj (=) (=) kind_discriminant.
Proof.
  intros k1 k2 E. pose proof (kind_discriminant_lookup k1) as H1.
  rewrite E, kind_discriminant_lookup in H1. congruence.
Qed.
Global Instance ChangeKind_ord_eq : OrdEq ChangeKind.
Proof. apply (cmp_on_ord_eq kind_discriminant). Qed.

Definition span_key (s : Span) : nat * nat := (span_start s, span_end s).
Global Instance span_key_inj : Inj (=) (=) span_key.
Proof. intros [] [] ?. by simplify_eq/=. Qed.
Global Instance Span_ord : Ord Span := cmp_on span_key.
Global Instance Span_ord_laws : OrdLaws Span := cmp_on_laws span_key.
Global Instance Span_ord_eq : OrdEq Span.
Proof. apply (cmp_on_ord_eq span_key). Qed.

Definition change_key (c : Change) : string * (ChangeKind * Span) := (path c, (kind c, span c)).
Global Instance change_key_inj : Inj (=) (=) change_key.
Proof. intros [] [] ?. by simplify_eq/=. Qed.
Global Instance Change_ord : Ord Change := cmp_on change_key.
Global Instance Change_ord_laws : OrdLaws Change := cmp_on_laws change_key.
Global Instance Change_ord_eq : OrdEq Change.
Proof. apply (cmp_on_ord_eq change_key). Qed.

(** ** Properties *)

(** [as_str] and [from_str] are inverse: parsing the printed kind gives the
    kind back, and a string that parses is the printed form of its kind. *)
Theorem change_kind_roundtrip (s : string) (k : ChangeKind) :
  from_str s = Some k ↔ s = as_str k.
Proof.
  unfold from_str. split.
  - intros ([i [s' k']] & (Hi & Hs & _)%list_find_Some & Hk)%fmap_Some. simplify_eq/=.
    assert (Forall (λ p : string * ChangeKind, p.1 = as_str p.2) from_str_table) as HF.
    { repeat constructor. }
    by apply (Forall_lookup_1 _ _ _ _ HF Hi).
  - intros ->. destruct k; reflexivity.
Qed.
