(* ===== verification/SchemaAst.v ===== *)
(** * The type-system AST the schema tools read

    The documents come from the third-party crate [cynic-parser]. Its nodes
    appear here as the records and variants whose accessors [graphql-schema-diff]
    calls; what the crate computes for them (equality and printing of types,
    equality of values, parsing) is a parameter, [CynicParser]. *)
From S2P Require Import Prelude RustStd Change.

(** What [graphql-schema-diff] takes from the parser crate. *)
Class CynicParser := {
  Ty : Type;                       (** [ast::Type] *)
  ty_eqb : Ty → Ty → bool;         (** [PartialEq for ast::Type] *)
  ty_span : Ty → Span;             (** [Type::span] *)
  ty_to_string : Ty → string;      (** [Display for ast::Type] *)
  Val : Type;                      (** [ast::ConstValue] *)
  val_eqb : Val → Val → bool;      (** [PartialEq for ast::ConstValue] *)
}.

(** [PartialEq] is reflexive on the two node types. *)
Class CynicParserLaws `{CynicParser} : Prop := {
  ty_eqb_refl : ∀ t, ty_eqb t t = true;
  val_eqb_refl : ∀ v, val_eqb v v = true;
}.

Section ast.
Context `{CynicParser}.

(** A directive application: its name and the spans of its arguments. *)
Record Directive := MkDirective {
  dir_name : string;
  dir_argument_spans : list Span;
}.

Record InputValueDefinition := MkInputValue {
  iv_name : string;
  iv_ty : Ty;
  iv_default_value : option Val;
  iv_default_value_span : Span;
  iv_description : option Span;
  iv_directives : list Directive;
  iv_span : Span;
}.

Record FieldDefinition := MkField {
  fd_name : string;
  fd_arguments : list InputValueDefinition;
  fd_ty : Ty;
  fd_description : option Span;
  fd_directives : list Directive;
  fd_span : Span;
}.

Record EnumValueDefinition := MkEnumValue {
  ev_value : string;
  ev_directives : list Directive;
  ev_span : Span;
}.

Record UnionMember := MkUnionMember { um_name : string; um_span : Span }.

(** What every [ast::TypeDefinition] has. *)
Record TypeHeader := MkHeader {
  th_name : string;
  th_description : option Span;
  th_directives : list Directive;
  th_span : Span;
}.

Inductive TypeDefinition :=
| TScalar (h : TypeHeader)
| TObject (h : TypeHeader) (implements : list string) (fields : list FieldDefinition)
| TInterface (h : TypeHeader) (implements : list string) (fields : list FieldDefinition)
| TUnion (h : TypeHeader) (members : list UnionMember)
| TEnum (h : TypeHeader) (values : list EnumValueDefinition)
| TInputObject (h : TypeHeader) (fields : list InputValueDefinition).

Definition ty_header (t : TypeDefinition) : TypeHeader :=
  match t with
  | TScalar h | TObject h _ _ | TInterface h _ _ | TUnion h _ | TEnum h _ | TInputObject h _ => h
  end.
Definition ty_name (t : TypeDefinition) : string := th_name (ty_header t).

Record RootOperation := MkRoot { named_type : string; root_span : Span }.
Record SchemaDefinition := MkSchema {
  query_type : option RootOperation;
  mutation_type : option RootOperation;
  subscription_type : option RootOperation;
  sd_directives : list Directive;
  sd_span : Span;
}.

Record DirectiveDefinition := MkDirectiveDefinition { dd_name : string; dd_span : Span }.

Inductive Definition_ :=
| DSchema (d : SchemaDefinition)
| DSchemaExtension (d : SchemaDefinition)
| DType (t : TypeDefinition)
| DTypeExtension (t : TypeDefinition)
| DDirective (d : DirectiveDefinition).

Definition definition_span (d : Definition_) : Span :=
  match d with
  | DSchema d | DSchemaExtension d => sd_span d
  | DType t | DTypeExtension t => th_span (ty_header t)
  | DDirective d => dd_span d
  end.

End ast.

(** [TypeSystemDocument::definitions], in document order. *)
Abbreviation TypeSystemDocument := (list Definition_).

(** A concrete parser interface, for evaluation: types and values are their
    source text. *)
Definition text_parser : CynicParser := {|
  Ty := string * Span;
  ty_eqb a b := bool_decide (a.1 = b.1);
  ty_span t := t.2;
  ty_to_string t := t.1;
  Val := string;
  val_eqb a b := bool_decide (a = b);
|}.
Lemma text_parser_laws : @CynicParserLaws text_parser.
Proof. split; intros; apply bool_decide_eq_true_2; reflexivity. Qed.
