(* ===== verification/SchemaDiff.v ===== *)
(** * [graphql-schema-diff]: [state.rs], [traverse_schemas.rs] and [lib.rs]

    [diff] traverses the source and the target schema into a [DiffState] of
    five maps and turns the state into a sorted list of changes. A [HashMap] is
    a [gmap]; the functions that iterate over one take the sequence of its
    entries, so that the order of iteration is an argument. *)
From S2P Require Import Prelude RustStd Change SchemaAst.
Local Open Scope string_scope.
Local Open Scope list_scope.

Section diff.
Context `{CynicParser}.

(** ** State *)
Abbreviation DiffMap K V := (gmap K (option V * option V)).

Record DiffState := MkState {
  schema_definition_map : option SchemaDefinition * option SchemaDefinition;
  types_map : DiffMap string Definition_;
  fields_map : DiffMap (string * string) (option Ty * Span);
  interface_impls : DiffMap string (list string);
  arguments_map : DiffMap (string * string * string) InputValueDefinition;
}.
Definition DiffState_default : DiffState := MkState (None, None) ∅ ∅ ∅ ∅.

(** Field updates: [state.types_map = ...] and so on. *)
Definition with_types (s : DiffState) m :=
  MkState (schema_definition_map s) m (fields_map s) (interface_impls s) (arguments_map s).
Definition with_fields (s : DiffState) m :=
  MkState (schema_definition_map s) (types_map s) m (interface_impls s) (arguments_map s).
Definition with_impls (s : DiffState) m :=
  MkState (schema_definition_map s) (types_map s) (fields_map s) m (arguments_map s).
Definition with_args (s : DiffState) m :=
  MkState (schema_definition_map s) (types_map s) (fields_map s) (interface_impls s) m.

Inductive DefinitionKind :=
| KDirective | KEnum | KInputObject | KInterface | KObject | KScalar | KUnion.
#[global] Instance DefinitionKind_eq_dec : EqDecision DefinitionKind.
Proof. solve_decision. Defined.

(** [DefinitionKind::new]. *)
Definition DefinitionKind_new (d : Definition_) : option DefinitionKind :=
  match d with
  | DSchema _ | DSchemaExtension _ => None
  | DType t | DTypeExtension t =>
      match t with
      | TScalar _ => Some KScalar
      | TObject _ _ _ => Some KObject
      | TInterface _ _ _ => Some KInterface
      | TUnion _ _ => Some KUnion
      | TEnum _ _ => Some KEnum
      | TInputObject _ _ => Some KInputObject
      end
  | DDirective _ => Some KDirective
  end.

(** ** Traversal *)
Definition insert_source {K V} `{Countable K} (m : DiffMap K V) (k : K) (v : V) : DiffMap K V :=
  <[k := (Some v, None)]> m.
Definition merge_target {K V} `{Countable K} (m : DiffMap K V) (k : K) (v : V) : DiffMap K V :=
  <[k := ((default (None, None) (m !! k)).1, Some v)]> m.

Definition fill_args_src m (parent field : string) (args : list InputValueDefinition) :=
  foldl (λ m arg, insert_source m (parent, field, iv_name arg) arg) m args.
Definition args_target m (parent field : string) (args : list InputValueDefinition) :=
  foldl (λ m arg, merge_target m (parent, field, iv_name arg) arg) m args.

(** One output field of an object or interface, with its arguments. *)
Definition source_field (t : string) (s : DiffState) (f : FieldDefinition) : DiffState :=
  let s := with_fields s (insert_source (fields_map s) (t, fd_name f) (Some (fd_ty f), fd_span f)) in
  with_args s (fill_args_src (arguments_map s) t (fd_name f) (fd_arguments f)).
Definition target_field (t : string) (s : DiffState) (f : FieldDefinition) : DiffState :=
  let s := with_fields s (merge_target (fields_map s) (t, fd_name f) (Some (fd_ty f), fd_span f)) in
  with_args s (args_target (arguments_map s) t (fd_name f) (fd_arguments f)).

(** The body of the loop of [traverse_source]. *)
Definition traverse_source_definition (s : DiffState) (d : Definition_) : DiffState :=
  match d with
  | DSchema def | DSchemaExtension def =>
      MkState (Some def, (schema_definition_map s).2) (types_map s) (fields_map s)
        (interface_impls s) (arguments_map s)
  | DDirective def => with_types s (insert_source (types_map s) (dd_name def) d)
  | DType tpe | DTypeExtension tpe =>
      let t := ty_name tpe in
      let s := with_types s (insert_source (types_map s) t d) in
      match tpe with
      | TScalar _ => s
      | TObject _ implements fields | TInterface _ implements fields =>
          let s := with_impls s (insert_source (interface_impls s) t implements) in
          foldl (source_field t) s fields
      | TUnion _ members =>
          foldl (λ s m, with_fields s (insert_source (fields_map s) (t, um_name m) (None, um_span m)))
            s members
      | TEnum _ values =>
          foldl (λ s v, with_fields s (insert_source (fields_map s) (t, ev_value v) (None, ev_span v)))
            s values
      | TInputObject _ fields =>
          foldl (λ s f, with_fields s
              (insert_source (fields_map s) (t, iv_name f) (Some (iv_ty f), iv_span f))) s fields
      end
  end.
Definition traverse_source (source : TypeSystemDocument) (s : DiffState) : DiffState :=
  foldl traverse_source_definition s source.

(** The body of the loop of [traverse_target]. *)
Definition traverse_target_definition (s : DiffState) (d : Definition_) : DiffState :=
  match d with
  | DSchema def | DSchemaExtension def =>
      MkState ((schema_definition_map s).1, Some def) (types_map s) (fields_map s)
        (interface_impls s) (arguments_map s)
  | DDirective def => with_types s (merge_target (types_map s) (dd_name def) d)
  | DType tpe | DTypeExtension tpe =>
      let t := ty_name tpe in
      let s := with_types s (merge_target (types_map s) t d) in
      match tpe with
      | TScalar _ => s
      | TObject _ implements fields | TInterface _ implements fields =>
          let s := with_impls s (merge_target (interface_impls s) t implements) in
          foldl (target_field t) s fields
      | TUnion _ members =>
          foldl (λ s m, with_fields s (merge_target (fields_map s) (t, um_name m) (None, um_span m)))
            s members
      | TEnum _ values =>
          foldl (λ s v, with_fields s (merge_target (fields_map s) (t, ev_value v) (None, ev_span v)))
            s values
      | TInputObject _ fields =>
          foldl (λ s f, with_fields s
              (merge_target (fields_map s) (t, iv_name f) (Some (iv_ty f), iv_span f))) s fields
      end
  end.
Definition traverse_target (target : TypeSystemDocument) (s : DiffState) : DiffState :=
  foldl traverse_target_definition s target.

(** [None] is a schema that is only white space. *)
Definition traverse_schemas (source target : option TypeSystemDocument) (s : DiffState) : DiffState :=
  let s := match source with Some d => traverse_source d s | None => s end in
  match target with Some d => traverse_target d s | None => s end.

(** ** From the state to changes *)
Definition push_schema_definition_changes (m : option SchemaDefinition * option SchemaDefinition)
    : list Change :=
  match m with
  | (None, None) => []
  | (Some src, Some target) =>
      let root_change (k : ChangeKind) (a b : option RootOperation) : list Change :=
        if decide (named_type <$> a ≠ named_type <$> b)
        then [MkChange "" k (default Span_empty (root_span <$> b))] else [] in
      root_change ChangeQueryType (query_type src) (query_type target)
      ++ root_change ChangeMutationType (mutation_type src) (mutation_type target)
      ++ root_change ChangeSubscriptionType (subscription_type src) (subscription_type target)
  | (None, Some definition) => [MkChange "" AddSchemaDefinition (sd_span definition)]
  | (Some _, None) => [MkChange "" RemoveSchemaDefinition Span_empty]
  end.

Definition push_interface_implementer_changes
    (e : string * (option (list string) * option (list string))) : list Change :=
  let '(implementer, (src, target)) := e in
  let src := default [] src in
  let target := default [] target in
  ((λ i, MkChange (join "." [i; implementer]) RemoveInterfaceImplementation Span_empty)
     <$> filter (λ i, i ∉ target) src)
  ++ ((λ i, MkChange (join "." [i; implementer]) AddInterfaceImplementation Span_empty)
     <$> filter (λ i, i ∉ src) target).

Definition push_argument_changes (fields : DiffMap (string * string) (option Ty * Span))
    (e : string * string * string * (option InputValueDefinition * option InputValueDefinition))
    : res (list Change) :=
  let '((type_name, field_name, arg_name), (src, target)) := e in
  let p := join "." [type_name; field_name; arg_name] in
  match src, target with
  | None, None => Panic "internal error: entered unreachable code"
  | None, Some target => Ret [MkChange p AddFieldArgument (iv_span target)]
  | Some _, None =>
      parent ← expect "HashMap index: no entry found for key" (fields !! (type_name, field_name));
      let parent_is_gone := match parent with (Some _, None) => true | _ => false end in
      Ret (if parent_is_gone then [] else [MkChange p RemoveFieldArgument Span_empty])
  | Some src_arg, Some target_arg =>
      Ret ((if ty_eqb (iv_ty src_arg) (iv_ty target_arg) then []
            else [MkChange p ChangeFieldArgumentType (ty_span (iv_ty target_arg))])
           ++ match iv_default_value src_arg, iv_default_value target_arg with
              | None, Some _ => [MkChange p AddFieldArgumentDefault (iv_default_value_span target_arg)]
              | Some _, None => [MkChange p RemoveFieldArgumentDefault Span_empty]
              | Some a, Some b =>
                  if val_eqb a b then []
                  else [MkChange p ChangeFieldArgumentDefault (iv_default_value_span target_arg)]
              | None, None => []
              end)
  end.

(** The match of [push_field_changes] on the two sides of a field and the
    kind of its parent definition. *)
Definition field_change_kind (parent_is_gone : bool) (src target : option (option Ty * Span))
    (k : DefinitionKind) : res (option (ChangeKind * Span)) :=
  match src, target, k with
  | None, None, _ => Panic "internal error: entered unreachable code"
  | _, _, (KScalar | KDirective) => Panic "internal error: entered unreachable code"
  | None, Some (_, sp), (KObject | KInterface | KInputObject) => Ret (Some (AddField, sp))
  | None, Some (_, sp), KEnum => Ret (Some (AddEnumValue, sp))
  | None, Some (_, sp), KUnion => Ret (Some (AddUnionMember, sp))
  | Some _, None, k =>
      if parent_is_gone then Ret None
      else Ret (Some (match k with
                      | KEnum => RemoveEnumValue
                      | KUnion => RemoveUnionMember
                      | _ => RemoveField
                      end, Span_empty))
  | Some (ty_a, _), Some (ty_b, _), (KObject | KInputObject | KInterface) =>
      let same := match ty_a, ty_b with
                  | None, None => true
                  | Some a, Some b => ty_eqb a b
                  | _, _ => false
                  end in
      if same then Ret None
      else b ← unwrap ty_b; Ret (Some (ChangeFieldType, ty_span b))
  | Some _, Some _, _ => Ret None
  end.

Definition push_field_changes (types : DiffMap string Definition_)
    (e : string * string * (option (option Ty * Span) * option (option Ty * Span)))
    : res (list Change) :=
  let '((type_name, field_name), (src, target)) := e in
  parent ← expect "HashMap index: no entry found for key" (types !! type_name);
  let parent_is_gone := match parent with (Some _, None) => true | _ => false end in
  match parent with
  | (None, None) => Panic "internal error: entered unreachable code"
  | (Some _, None) | (None, Some _) => Ret []
  | (Some a, Some b) =>
      if decide (DefinitionKind_new a ≠ DefinitionKind_new b) then Ret []
      else
        k ← unwrap (DefinitionKind_new a);
        change_kind ← field_change_kind parent_is_gone src target k;
        Ret match change_kind with
            | Some (ck, sp) => [MkChange (join "." [type_name; field_name]) ck sp]
            | None => []
            end
  end.

Definition push_added_type (name : string) (d : Definition_) : list Change :=
  match DefinitionKind_new d with
  | None => []
  | Some k =>
      let change_kind := match k with
        | KDirective => AddDirectiveDefinition
        | KEnum => AddEnum
        | KInputObject => AddInputObject
        | KInterface => AddInterface
        | KObject => AddObjectType
        | KScalar => AddScalar
        | KUnion => AddUnion
        end in
      [MkChange name change_kind (definition_span d)]
  end.

Definition push_removed_type (name : string) (d : Definition_) : res (list Change) :=
  k ← unwrap (DefinitionKind_new d);
  let change_kind := match k with
    | KDirective => RemoveDirectiveDefinition
    | KEnum => RemoveEnum
    | KInputObject => RemoveInputObject
    | KInterface => RemoveInterface
    | KObject => RemoveObjectType
    | KScalar => RemoveScalar
    | KUnion => RemoveUnion
    end in
  Ret [MkChange name change_kind (definition_span d)].

Definition push_definition_changes (e : string * (option Definition_ * option Definition_))
    : res (list Change) :=
  let '(name, entries) := e in
  match entries with
  | (None, None) => Panic "internal error: entered unreachable code"
  | (None, Some d) => Ret (push_added_type name d)
  | (Some d, None) => push_removed_type name d
  | (Some a, Some b) =>
      if decide (DefinitionKind_new a ≠ DefinitionKind_new b)
      then r ← push_removed_type name a; Ret (r ++ push_added_type name b)
      else Ret []
  end.

(** [DiffState::into_changes], for a given iteration order of the four maps. *)
Definition into_changes_in_order (s : DiffState)
    (impls : list (string * (option (list string) * option (list string))))
    (types : list (string * (option Definition_ * option Definition_)))
    (fields : list (string * string * (option (option Ty * Span) * option (option Ty * Span))))
    (args : list (string * string * string *
                    (option InputValueDefinition * option InputValueDefinition)))
    : res (list Change) :=
  let schema_changes := push_schema_definition_changes (schema_definition_map s) in
  let impl_changes := concat (push_interface_implementer_changes <$> impls) in
  definition_changes ← mapM_res push_definition_changes types;
  field_changes ← mapM_res (push_field_changes (types_map s)) fields;
  argument_changes ← mapM_res (push_argument_changes (fields_map s)) args;
  Ret (sort (schema_changes ++ impl_changes ++ concat definition_changes
             ++ concat field_changes ++ concat argument_changes)).

Definition into_changes (s : DiffState) : res (list Change) :=
  into_changes_in_order s (map_to_list (interface_impls s)) (map_to_list (types_map s))
    (map_to_list (fields_map s)) (map_to_list (arguments_map s)).

(** [diff], after parsing; a blank schema is [None]. *)
Definition diff (source target : option TypeSystemDocument) : res (list Change) :=
  into_changes (traverse_schemas source target DiffState_default).

(** ** [resolve_spans] *)
Definition relevant_is_target (k : ChangeKind) : bool :=
  match k with
  | ChangeQueryType | ChangeMutationType | ChangeSubscriptionType => true
  | RemoveObjectType => false
  | AddObjectType => true
  | AddInterfaceImplementation => true
  | RemoveInterfaceImplementation => false
  | ChangeFieldType => true
  | RemoveField => false
  | AddField => true
  | AddUnion => true
  | RemoveUnion => false
  | AddUnionMember => true
  | RemoveUnionMember => false
  | AddEnum => true
  | RemoveEnum => false
  | AddEnumValue => true
  | RemoveEnumValue => false
  | AddScalar => true
  | RemoveScalar => false
  | AddInterface => true
  | RemoveInterface => false
  | AddDirectiveDefinition => true
  | RemoveDirectiveDefinition => false
  | AddSchemaDefinition => true
  | RemoveSchemaDefinition => false
  | AddInputObject => true
  | RemoveInputObject => false
  | AddFieldArgument => true
  | RemoveFieldArgument => false
  | AddFieldArgumentDefault => true
  | RemoveFieldArgumentDefault => false
  | ChangeFieldArgumentDefault => true
  | ChangeFieldArgumentType => true
  end.
Definition resolve_span (source target : string) (c : Change) : res string :=
  let relevant_schema := if relevant_is_target (kind c) then target else source in
  str_slice relevant_schema (span_start (span c)) (span_end (span c)).
Definition resolve_spans (source target : string) (changes : list Change) : res (list string) :=
  mapM_res (resolve_span source target) changes.

(** ** What the traversal collects

    The entries each definition contributes to the maps, in document order;
    the last entry of a key wins. *)
Definition type_entries (doc : TypeSystemDocument) : list (string * Definition_) :=
  omap (λ d, match d with
             | DSchema _ | DSchemaExtension _ => None
             | DDirective def => Some (dd_name def, d)
             | DType t | DTypeExtension t => Some (ty_name t, d)
             end) doc.
Definition schema_entries (doc : TypeSystemDocument) : list SchemaDefinition :=
  omap (λ d, match d with DSchema s | DSchemaExtension s => Some s | _ => None end) doc.
Definition def_impls (d : Definition_) : list (string * list string) :=
  match d with
  | DType t | DTypeExtension t =>
      match t with TObject _ i _ | TInterface _ i _ => [(ty_name t, i)] | _ => [] end
  | _ => []
  end.
Definition def_fields (d : Definition_) : list (string * string * (option Ty * Span)) :=
  match d with
  | DType t | DTypeExtension t =>
      match t with
      | TScalar _ => []
      | TObject _ _ fs | TInterface _ _ fs =>
          (λ f, ((ty_name t, fd_name f), (Some (fd_ty f), fd_span f))) <$> fs
      | TUnion _ ms => (λ m, ((ty_name t, um_name m), (None, um_span m))) <$> ms
      | TEnum _ vs => (λ v, ((ty_name t, ev_value v), (None, ev_span v))) <$> vs
      | TInputObject _ fs => (λ f, ((ty_name t, iv_name f), (Some (iv_ty f), iv_span f))) <$> fs
      end
  | _ => []
  end.
Definition def_args (d : Definition_) : list (string * string * string * InputValueDefinition) :=
  match d with
  | DType t | DTypeExtension t =>
      match t with
      | TObject _ _ fs | TInterface _ _ fs =>
          concat ((λ f, (λ a, ((ty_name t, fd_name f, iv_name a), a)) <$> fd_arguments f) <$> fs)
      | _ => []
      end
  | _ => []
  end.
Definition impl_entries (doc : TypeSystemDocument) := concat (def_impls <$> doc).
Definition field_entries (doc : TypeSystemDocument) := concat (def_fields <$> doc).
Definition arg_entries (doc : TypeSystemDocument) := concat (def_args <$> doc).

Definition insert_all {K V} `{Countable K} (m : DiffMap K V) (es : list (K * V)) :=
  foldl (λ m e, insert_source m e.1 e.2) m es.
Definition merge_all {K V} `{Countable K} (m : DiffMap K V) (es : list (K * V)) :=
  foldl (λ m e, merge_target m e.1 e.2) m es.
(** The value of the last entry with key [k]. *)
Definition last_value {K V} `{EqDecision K} (k : K) (es : list (K * V)) : option V :=
  last (snd <$> filter (λ e : K * V, e.1 = k) es).
(** The entry of a [DiffMap] with the given two sides. *)
Definition entry {V} (a b : option V) : option (option V * option V) :=
  match a, b with None, None => None | _, _ => Some (a, b) end.

Lemma last_value_snoc {K V} `{EqDecision K} (k : K) es (e : K * V) :
  last_value k (es ++ [e]) = if decide (e.1 = k) then Some e.2 else last_value k es.
Proof.
  unfold last_value. rewrite filter_app, filter_cons, filter_nil.
  case_decide; rewrite fmap_app; simpl; [by rewrite last_snoc|by rewrite app_nil_r].
Qed.
Lemma last_value_Some {K V} `{EqDecision K} (k : K) es (v : V) :
  last_value k es = Some v → (k, v) ∈ es.
Proof.
  unfold last_value. intros Hl%last_Some_elem_of.
  apply list_elem_of_fmap in Hl as ([k' v'] & -> & Hf). by apply list_elem_of_filter in Hf as [<- ?].
Qed.
Lemma last_value_is_Some {K V} `{EqDecision K} (k : K) es (v : V) :
  (k, v) ∈ es → is_Some (last_value k es).
Proof.
  intros Hin. unfold last_value. rewrite last_is_Some. intros E%fmap_nil_inv.
  assert ((k, v) ∈ filter (λ e : K * V, e.1 = k) es) as Hf by by apply list_elem_of_filter.
  rewrite E in Hf. by apply elem_of_nil in Hf.
Qed.

Lemma insert_source_lookup {K V} `{Countable K} (m : DiffMap K V) k v k' :
  insert_source m k v !! k' = if decide (k = k') then Some (Some v, None) else m !! k'.
Proof. apply lookup_insert. Qed.
Lemma merge_target_lookup {K V} `{Countable K} (m : DiffMap K V) k v k' :
  merge_target m k v !! k' =
  if decide (k = k') then Some ((default (None, None) (m !! k)).1, Some v) else m !! k'.
Proof. apply lookup_insert. Qed.

Lemma insert_all_lookup {K V} `{Countable K} (es : list (K * V)) (m : DiffMap K V) k :
  insert_all m es !! k = match last_value k es with Some v => Some (Some v, None) | None => m !! k end.
Proof.
  unfold insert_all. induction es as [|e es IH] using rev_ind; [done|].
  rewrite foldl_app, last_value_snoc. simpl. rewrite insert_source_lookup, IH.
  by case_decide.
Qed.
Lemma merge_all_lookup {K V} `{Countable K} (es : list (K * V)) (m : DiffMap K V) k :
  merge_all m es !! k =
  match last_value k es with
  | Some v => Some ((default (None, None) (m !! k)).1, Some v)
  | None => m !! k
  end.
Proof.
  unfold merge_all. induction es as [|e es IH] using rev_ind; [done|].
  rewrite foldl_app, last_value_snoc. simpl. rewrite merge_target_lookup, IH.
  case_decide; subst; [|done]. rewrite IH. by case_match.
Qed.
Lemma insert_merge_lookup {K V} `{Countable K} (es ft : list (K * V)) k :
  merge_all (insert_all ∅ es) ft !! k = entry (last_value k es) (last_value k ft).
Proof.
  rewrite merge_all_lookup, insert_all_lookup, lookup_empty.
  by destruct (last_value k es), (last_value k ft).
Qed.

Lemma insert_all_app {K V} `{Countable K} (m : DiffMap K V) es1 es2 :
  insert_all m (es1 ++ es2) = insert_all (insert_all m es1) es2.
Proof. apply foldl_app. Qed.
Lemma merge_all_app {K V} `{Countable K} (m : DiffMap K V) es1 es2 :
  merge_all m (es1 ++ es2) = merge_all (merge_all m es1) es2.
Proof. apply foldl_app. Qed.
Lemma foldl_fmap {A B C} (f : C → B → C) (g : A → B) (l : list A) c :
  foldl f c (g <$> l) = foldl (λ c a, f c (g a)) c l.
Proof. revert c. induction l; simpl; auto. Qed.

(** A loop that only touches [fields_map]. *)
Lemma foldl_source_fields {A} (k : A → string * string) (v : A → option Ty * Span) l s :
  foldl (λ s a, with_fields s (insert_source (fields_map s) (k a) (v a))) s l =
  with_fields s (insert_all (fields_map s) ((λ a, (k a, v a)) <$> l)).
Proof.
  revert s. induction l as [|a l IH]; intros s; simpl; [by destruct s|]. by rewrite IH.
Qed.
Lemma foldl_target_fields {A} (k : A → string * string) (v : A → option Ty * Span) l s :
  foldl (λ s a, with_fields s (merge_target (fields_map s) (k a) (v a))) s l =
  with_fields s (merge_all (fields_map s) ((λ a, (k a, v a)) <$> l)).
Proof.
  revert s. induction l as [|a l IH]; intros s; simpl; [by destruct s|]. by rewrite IH.
Qed.
Lemma foldl_source_field t fs s :
  foldl (source_field t) s fs =
  with_args (with_fields s (insert_all (fields_map s)
      ((λ f, ((t, fd_name f), (Some (fd_ty f), fd_span f))) <$> fs)))
    (insert_all (arguments_map s)
      (concat ((λ f, (λ a, ((t, fd_name f, iv_name a), a)) <$> fd_arguments f) <$> fs))).
Proof.
  revert s. induction fs as [|f fs IH]; intros s; simpl; [by destruct s|].
  rewrite IH, insert_all_app. unfold source_field, fill_args_src, insert_all.
  by rewrite !foldl_fmap.
Qed.
Lemma foldl_target_field t fs s :
  foldl (target_field t) s fs =
  with_args (with_fields s (merge_all (fields_map s)
      ((λ f, ((t, fd_name f), (Some (fd_ty f), fd_span f))) <$> fs)))
    (merge_all (arguments_map s)
      (concat ((λ f, (λ a, ((t, fd_name f, iv_name a), a)) <$> fd_arguments f) <$> fs))).
Proof.
  revert s. induction fs as [|f fs IH]; intros s; simpl; [by destruct s|].
  rewrite IH, merge_all_app. unfold target_field, args_target, merge_all.
  by rewrite !foldl_fmap.
Qed.

Definition last_or {A} (o : option A) (l : list A) : option A :=
  match last l with Some a => Some a | None => o end.
Lemma last_or_cons {A} (o : option A) a l : last_or o (a :: l) = last_or (Some a) l.
Proof. unfold last_or. rewrite last_cons. by destruct (last l). Qed.

Lemma traverse_source_eq doc s :
  traverse_source doc s =
  MkState (last_or (schema_definition_map s).1 (schema_entries doc), (schema_definition_map s).2)
    (insert_all (types_map s) (type_entries doc)) (insert_all (fields_map s) (field_entries doc))
    (insert_all (interface_impls s) (impl_entries doc)) (insert_all (arguments_map s) (arg_entries doc)).
Proof.
  revert s. induction doc as [|d doc IH]; intros s; [by destruct s as [[??]????]|].
  unfold traverse_source in *. simpl. rewrite IH.
  unfold field_entries, impl_entries, arg_entries. simpl. rewrite !insert_all_app.
  destruct d as [sd|sd|[]|[]|dd]; simpl;
    by rewrite ?last_or_cons, ?foldl_source_field, ?foldl_source_fields.
Qed.
Lemma traverse_target_eq doc s :
  traverse_target doc s =
  MkState ((schema_definition_map s).1, last_or (schema_definition_map s).2 (schema_entries doc))
    (merge_all (types_map s) (type_entries doc)) (merge_all (fields_map s) (field_entries doc))
    (merge_all (interface_impls s) (impl_entries doc)) (merge_all (arguments_map s) (arg_entries doc)).
Proof.
  revert s. induction doc as [|d doc IH]; intros s; [by destruct s as [[??]????]|].
  unfold traverse_target in *. simpl. rewrite IH.
  unfold field_entries, impl_entries, arg_entries. simpl. rewrite !merge_all_app.
  destruct d as [sd|sd|[]|[]|dd]; simpl;
    by rewrite ?last_or_cons, ?foldl_target_field, ?foldl_target_fields.
Qed.

(** The state after both traversals, by key. *)
Definition doc_of (o : option TypeSystemDocument) : TypeSystemDocument := default [] o.
Definition final_state (src tgt : option TypeSystemDocument) : DiffState :=
  traverse_schemas src tgt DiffState_default.
Lemma final_state_eq src tgt :
  final_state src tgt =
  MkState (last (schema_entries (doc_of src)), last (schema_entries (doc_of tgt)))
    (merge_all (insert_all ∅ (type_entries (doc_of src))) (type_entries (doc_of tgt)))
    (merge_all (insert_all ∅ (field_entries (doc_of src))) (field_entries (doc_of tgt)))
    (merge_all (insert_all ∅ (impl_entries (doc_of src))) (impl_entries (doc_of tgt)))
    (merge_all (insert_all ∅ (arg_entries (doc_of src))) (arg_entries (doc_of tgt))).
Proof.
  unfold final_state, traverse_schemas.
  assert (∀ o s, match o with Some d => traverse_source d s | None => s end
                 = traverse_source (doc_of o) s) as Hs by by intros [] ?.
  assert (∀ o s, match o with Some d => traverse_target d s | None => s end
                 = traverse_target (doc_of o) s) as Ht by by intros [] ?.
  rewrite Hs, Ht, traverse_source_eq, traverse_target_eq. simpl. unfold last_or.
  f_equal. f_equal; by case_match.
Qed.
End diff.
