(* ===== verification/SchemaDiffProps.v ===== *)
(** * Properties of [graphql_schema_diff::diff]

    The result does not depend on the iteration order of the hash maps; [diff]
    does not panic on documents in which a name has one kind; it is empty on
    equal schemas; additions and removals are dual; the changes of types and
    fields are exactly the differences; and the spans resolve in the schema
    that [resolve_spans] selects. *)
From S2P Require Import Prelude RustStd Change SchemaAst SchemaDiff.
Local Open Scope string_scope.
Local Open Scope list_scope.

Section props.
Context `{CynicParser}.
Implicit Types (src tgt : option TypeSystemDocument) (cs : list Change).

(** ** Lookups in the final state *)
Lemma types_lookup src tgt k :
  types_map (final_state src tgt) !! k =
  entry (last_value k (type_entries (doc_of src))) (last_value k (type_entries (doc_of tgt))).
Proof. rewrite final_state_eq. apply insert_merge_lookup. Qed.
Lemma fields_lookup src tgt k :
  fields_map (final_state src tgt) !! k =
  entry (last_value k (field_entries (doc_of src))) (last_value k (field_entries (doc_of tgt))).
Proof. rewrite final_state_eq. apply insert_merge_lookup. Qed.
Lemma impls_lookup src tgt k :
  interface_impls (final_state src tgt) !! k =
  entry (last_value k (impl_entries (doc_of src))) (last_value k (impl_entries (doc_of tgt))).
Proof. rewrite final_state_eq. apply insert_merge_lookup. Qed.
Lemma args_lookup src tgt k :
  arguments_map (final_state src tgt) !! k =
  entry (last_value k (arg_entries (doc_of src))) (last_value k (arg_entries (doc_of tgt))).
Proof. rewrite final_state_eq. apply insert_merge_lookup. Qed.
Lemma entry_Some {V} (a b : option V) p : entry a b = Some p ↔ p = (a, b) ∧ (is_Some a ∨ is_Some b).
Proof. destruct a, b, p; simpl; naive_solver. Qed.

(** ** Iteration order *)
Lemma mapM_res_Permutation {A B} (f : A → res B) l1 l2 ys1 :
  l1 ≡ₚ l2 → mapM_res f l1 = Ret ys1 → ∃ ys2, mapM_res f l2 = Ret ys2 ∧ ys1 ≡ₚ ys2.
Proof.
  intros HP. setoid_rewrite mapM_res_Ret. intros HF.
  destruct (Permutation_Forall2 HP HF) as (ys2 & ? & ?). eauto.
Qed.
Lemma concat_Permutation {A} (l1 l2 : list (list A)) : l1 ≡ₚ l2 → concat l1 ≡ₚ concat l2.
Proof. intros HP. rewrite <-(list_fmap_id l1), <-(list_fmap_id l2). by apply concat_map_Permutation. Qed.

Lemma into_changes_perm s i1 i2 t1 t2 f1 f2 a1 a2 cs :
  i1 ≡ₚ i2 → t1 ≡ₚ t2 → f1 ≡ₚ f2 → a1 ≡ₚ a2 →
  into_changes_in_order s i1 t1 f1 a1 = Ret cs → into_changes_in_order s i2 t2 f2 a2 = Ret cs.
Proof.
  intros Hi Ht Hf Ha. unfold into_changes_in_order. intros Hr. inv_ret.
  edestruct (mapM_res_Permutation push_definition_changes) as (? & -> & HP1); [exact Ht|done|].
  edestruct (mapM_res_Permutation (push_field_changes (types_map s))) as (? & -> & HP2); [exact Hf|done|].
  edestruct (mapM_res_Permutation (push_argument_changes (fields_map s))) as (? & -> & HP3); [exact Ha|done|].
  simpl. f_equal. apply sort_unique. symmetry. repeat apply Permutation_app; try done.
  - by apply concat_map_Permutation.
  - by apply concat_Permutation.
  - by apply concat_Permutation.
  - by apply concat_Permutation.
Qed.

(** ** Membership in the result *)
Lemma elem_of_mapM_res {A B} (f : A → res (list B)) l yss y :
  mapM_res f l = Ret yss → y ∈ concat yss ↔ ∃ x ys, x ∈ l ∧ f x = Ret ys ∧ y ∈ ys.
Proof.
  rewrite mapM_res_Ret. induction 1 as [|x ys l yss Hx _ IH]; simpl.
  { split; [by intros ?%elem_of_nil|intros (? & ? & ?%elem_of_nil & ?); done]. }
  rewrite elem_of_app, IH. split.
  - intros [?|(x' & ys' & ? & ? & ?)]; [exists x, ys|exists x', ys']; split_and!; try done; by constructor.
  - intros (x' & ys' & [->|?]%elem_of_cons & ? & ?); [left|right; eauto]. congruence.
Qed.

Lemma elem_of_diff src tgt cs c :
  diff src tgt = Ret cs →
  c ∈ cs ↔
  c ∈ push_schema_definition_changes (schema_definition_map (final_state src tgt)) ∨
  (∃ k e, interface_impls (final_state src tgt) !! k = Some e ∧
     c ∈ push_interface_implementer_changes (k, e)) ∨
  (∃ k e r, types_map (final_state src tgt) !! k = Some e ∧
     push_definition_changes (k, e) = Ret r ∧ c ∈ r) ∨
  (∃ k e r, fields_map (final_state src tgt) !! k = Some e ∧
     push_field_changes (types_map (final_state src tgt)) (k, e) = Ret r ∧ c ∈ r) ∨
  (∃ k e r, arguments_map (final_state src tgt) !! k = Some e ∧
     push_argument_changes (fields_map (final_state src tgt)) (k, e) = Ret r ∧ c ∈ r).
Proof.
  unfold diff, into_changes, into_changes_in_order. fold (final_state src tgt).
  intros Hr. inv_ret. rewrite elem_of_sort, !elem_of_app, elem_of_concat_map.
  repeat match goal with Hm : mapM_res _ _ = Ret _ |- _ => apply (elem_of_mapM_res _ _ _ c) in Hm; rewrite Hm; clear Hm end.
  repeat f_equiv; (split; [intros ([k e] & Hin)|intros (k & e & Hin)]);
    [exists k, e|exists (k, e)|exists k, e|exists (k, e)|exists k, e|exists (k, e)|exists k, e|exists (k, e)];
    by setoid_rewrite elem_of_map_to_list in Hin || setoid_rewrite elem_of_map_to_list.
Qed.

(** [diff] returns exactly when no entry makes a step panic. *)
Lemma mapM_res_total {A B} (f : A → res B) l :
  (∀ x, x ∈ l → ∃ y, f x = Ret y) → ∃ ys, mapM_res f l = Ret ys.
Proof.
  induction l as [|x l IH]; intros HF; simpl; [by eauto|].
  destruct (HF x) as [y ->]; [by left|]. destruct IH as [ys ->]; [|by eexists].
  intros x' ?. apply HF. by right.
Qed.
Lemma diff_total src tgt :
  (∀ k e, types_map (final_state src tgt) !! k = Some e → ∃ r, push_definition_changes (k, e) = Ret r) →
  (∀ k e, fields_map (final_state src tgt) !! k = Some e →
     ∃ r, push_field_changes (types_map (final_state src tgt)) (k, e) = Ret r) →
  (∀ k e, arguments_map (final_state src tgt) !! k = Some e →
     ∃ r, push_argument_changes (fields_map (final_state src tgt)) (k, e) = Ret r) →
  ∃ cs, diff src tgt = Ret cs.
Proof.
  intros Ht Hf Ha. unfold diff, into_changes, into_changes_in_order. fold (final_state src tgt).
  destruct (mapM_res_total push_definition_changes (map_to_list (types_map (final_state src tgt))))
    as [? ->]; [intros [k e]; rewrite elem_of_map_to_list; apply Ht|].
  destruct (mapM_res_total (push_field_changes (types_map (final_state src tgt)))
    (map_to_list (fields_map (final_state src tgt)))) as [? ->];
    [intros [k e]; rewrite elem_of_map_to_list; apply Hf|].
  destruct (mapM_res_total (push_argument_changes (fields_map (final_state src tgt)))
    (map_to_list (arguments_map (final_state src tgt)))) as [? ->];
    [intros [k e]; rewrite elem_of_map_to_list; apply Ha|].
  by eexists.
Qed.

(** ** Documents in which a name has one kind *)
Definition kind_consistent (doc : TypeSystemDocument) : bool :=
  forallb (λ e1, forallb (λ e2,
      implb (bool_decide (e1.1 = e2.1))
            (bool_decide (DefinitionKind_new e1.2 = DefinitionKind_new e2.2)))
    (type_entries doc)) (type_entries doc).
Lemma kind_consistent_spec doc n d1 d2 :
  kind_consistent doc = true → (n, d1) ∈ type_entries doc → (n, d2) ∈ type_entries doc →
  DefinitionKind_new d1 = DefinitionKind_new d2.
Proof.
  unfold kind_consistent. rewrite forallb_forall. intros Hc H1 H2.
  apply list_elem_of_In in H1, H2. specialize (Hc _ H1). rewrite forallb_forall in Hc.
  specialize (Hc _ H2). simpl in Hc. rewrite bool_decide_eq_true_2 in Hc by done.
  by apply bool_decide_eq_true in Hc.
Qed.

Lemma type_entries_kind doc n d :
  (n, d) ∈ type_entries doc → is_Some (DefinitionKind_new d).
Proof.
  unfold type_entries. rewrite list_elem_of_omap. intros (d' & _ & Hd).
  destruct d' as [?|?|[]|[]|?]; simplify_eq/=; eauto.
Qed.

(** The kinds that have typed fields and those that have plain members. *)
Definition fields_kind (oty : option Ty) (k : DefinitionKind) : Prop :=
  match oty with
  | Some _ => k = KObject ∨ k = KInterface ∨ k = KInputObject
  | None => k = KUnion ∨ k = KEnum
  end.
Lemma field_entries_type doc t f oty sp :
  (t, f, (oty, sp)) ∈ field_entries doc →
  ∃ d k, (t, d) ∈ type_entries doc ∧ DefinitionKind_new d = Some k ∧ fields_kind oty k.
Proof.
  unfold field_entries, type_entries. rewrite elem_of_concat_map. intros (d & Hd & Hf).
  exists d. setoid_rewrite list_elem_of_omap.
  destruct d as [?|?|[]|[]|?]; simpl in Hf;
    first [by apply elem_of_nil in Hf
          |apply list_elem_of_fmap in Hf as (x & Heq & _)];
    simplify_eq/=; eexists; (split; [by eexists|]); naive_solver.
Qed.
Lemma arg_entries_field doc t f a iv :
  (t, f, a, iv) ∈ arg_entries doc → ∃ v, (t, f, v) ∈ field_entries doc.
Proof.
  unfold arg_entries, field_entries. rewrite elem_of_concat_map. intros (d & Hd & Ha).
  setoid_rewrite elem_of_concat_map.
  destruct d as [?|?|[]|[]|?]; simpl in Ha; try by apply elem_of_nil in Ha.
  all: apply elem_of_concat_map in Ha as (fd & Hfd & (a' & Heq & _)%list_elem_of_fmap); simplify_eq/=.
  all: eexists _, _; split; [done|]; simpl; apply list_elem_of_fmap; by eexists.
Qed.

Abbreviation type_of doc n := (last_value n (type_entries doc)).
Abbreviation field_of doc k := (last_value k (field_entries doc)).
Abbreviation arg_of doc k := (last_value k (arg_entries doc)).

(** Under consistency, the parent of a field entry is a definition of a kind
    with fields. *)
Lemma field_parent doc t f oty sp :
  kind_consistent doc = true → field_of doc (t, f) = Some (oty, sp) →
  ∃ d k, type_of doc t = Some d ∧ DefinitionKind_new d = Some k ∧ fields_kind oty k.
Proof.
  intros Hc (d & k & Hd & Hk & Hf)%last_value_Some%field_entries_type.
  destruct (last_value_is_Some t _ _ Hd) as [d' Hd']. exists d', k. split_and!; try done.
  rewrite <-Hk. symmetry. eapply kind_consistent_spec; eauto using last_value_Some.
Qed.

Lemma push_definition_changes_total src tgt k e :
  types_map (final_state src tgt) !! k = Some e → ∃ r, push_definition_changes (k, e) = Ret r.
Proof.
  rewrite types_lookup, entry_Some. intros [-> Hs].
  assert (∀ d, type_of (doc_of src) k = Some d → is_Some (DefinitionKind_new d)) as Hk.
  { intros d Hd%last_value_Some. by eapply type_entries_kind. }
  unfold push_definition_changes, push_removed_type.
  destruct (type_of (doc_of src) k) as [a|]; [destruct (Hk a) as [? ->]; [done|]|].
  - destruct (type_of (doc_of tgt) k); [case_decide|]; simpl; eauto.
  - destruct (type_of (doc_of tgt) k); [by eauto|]. destruct Hs as [[]|[]]; done.
Qed.

(** The field entry seen from a parent that exists on both sides with one
    kind. *)
Lemma push_field_changes_both src tgt t f e :
  kind_consistent (doc_of src) = true → kind_consistent (doc_of tgt) = true →
  fields_map (final_state src tgt) !! (t, f) = Some e →
  (∃ a b k, type_of (doc_of src) t = Some a ∧ type_of (doc_of tgt) t = Some b ∧
     DefinitionKind_new a = Some k ∧ DefinitionKind_new b = Some k ∧
     (∀ oty sp, e.1 = Some (oty, sp) → fields_kind oty k) ∧
     (∀ oty sp, e.2 = Some (oty, sp) → fields_kind oty k) ∧
     push_field_changes (types_map (final_state src tgt)) (t, f, e) =
       (ck ← field_change_kind false e.1 e.2 k;
        Ret match ck with
            | Some (ck, sp) => [MkChange (join "." [t; f]) ck sp]
            | None => []
            end))
  ∨ push_field_changes (types_map (final_state src tgt)) (t, f, e) = Ret [].
Proof.
  intros Hcs Hct. rewrite fields_lookup, entry_Some. intros [-> Hs].
  unfold push_field_changes. rewrite types_lookup.
  destruct (type_of (doc_of src) t) as [a|] eqn:Ha, (type_of (doc_of tgt) t) as [b|] eqn:Hb;
    [|by right|by right|].
  - simpl. case_decide as Hk; [by right|]. left.
    destruct (type_entries_kind _ _ _ (last_value_Some _ _ _ Ha)) as [k Hka].
    exists a, b, k. rewrite Hka in Hk |- *. split_and!; try done.
    + intros oty sp E. destruct (field_parent _ _ _ _ _ Hcs E) as (? & ? & ? & ? & ?). congruence.
    + intros oty sp E. destruct (field_parent _ _ _ _ _ Hct E) as (? & ? & ? & ? & ?). congruence.
  - destruct Hs as [[[? ?] E]|[[? ?] E]];
      [apply (field_parent _ _ _ _ _ Hcs) in E|apply (field_parent _ _ _ _ _ Hct) in E];
      destruct E as (? & ? & ? & ?); congruence.
Qed.

Lemma field_change_kind_total k (a b : option (option Ty * Span)) :
  is_Some a ∨ is_Some b →
  (∀ oty sp, a = Some (oty, sp) → fields_kind oty k) →
  (∀ oty sp, b = Some (oty, sp) → fields_kind oty k) →
  ∃ r, field_change_kind false a b k = Ret r.
Proof.
  intros Hs Ha Hb.
  destruct a as [[oa sa]|], b as [[ob sb]|]; try (destruct Hs as [[? ?]|[? ?]]; done).
  - specialize (Ha oa sa eq_refl). specialize (Hb ob sb eq_refl).
    destruct oa, ob, k; simpl in *; try naive_solver; case_match; eauto.
  - specialize (Ha oa sa eq_refl). destruct oa, k; naive_solver.
  - specialize (Hb ob sb eq_refl). destruct ob, k; naive_solver.
Qed.

Lemma diff_returns src tgt
    (Hsrc : kind_consistent (doc_of src) = true) (Htgt : kind_consistent (doc_of tgt) = true) :
  ∃ cs, diff src tgt = Ret cs.
Proof.
  apply diff_total.
  - apply push_definition_changes_total.
  - intros [t f] e He.
    destruct (push_field_changes_both src tgt t f e) as [(a & b & k & _ & _ & _ & _ & H1 & H2 & ->)| ->];
      [done..| |by eauto].
    destruct (field_change_kind_total k e.1 e.2) as [r ->]; [|done..|by eexists].
    rewrite fields_lookup, entry_Some in He. naive_solver.
  - intros [[t f] a] e He. rewrite args_lookup, entry_Some in He. destruct He as [-> Hs].
    unfold push_argument_changes.
    destruct (arg_of (doc_of src) (t, f, a)) as [iv|] eqn:Ea, (arg_of (doc_of tgt) (t, f, a)); try by eauto.
    + apply last_value_Some, arg_entries_field in Ea as [v Hv].
      destruct (last_value_is_Some _ _ _ Hv) as [v' Hv'].
      rewrite fields_lookup, Hv'. simpl. destruct (field_of (doc_of tgt) (t, f)); by eexists.
    + destruct Hs as [[]|[]]; done.
Qed.

(** C25. On documents in which every name has a single kind (as in any valid
    schema whose directive names differ from its type names), [diff] returns
    a list of changes: none of its [unreachable!], [unwrap] and map-index
    operations panics. *)
Theorem diff_no_panic src tgt
    (Hsrc : kind_consistent (doc_of src) = true) (Htgt : kind_consistent (doc_of tgt) = true) :
  ∃ cs, diff src tgt = Ret cs.
Proof. by apply diff_returns. Qed.

(** The list of changes does not depend on the order in which the hash
    maps of the state are iterated: any order of their entries gives the
    result of any other, or panics as well. *)
Theorem diff_iteration_order_irrelevant (s : DiffState) impls types fields args cs
    (Hi : impls ≡ₚ map_to_list (interface_impls s)) (Ht : types ≡ₚ map_to_list (types_map s))
    (Hf : fields ≡ₚ map_to_list (fields_map s)) (Ha : args ≡ₚ map_to_list (arguments_map s)) :
  into_changes_in_order s impls types fields args = Ret cs ↔ into_changes s = Ret cs.
Proof. split; apply into_changes_perm; by rewrite ?Hi, ?Ht, ?Hf, ?Ha. Qed.

(** ** Equal schemas *)
Lemma field_change_kind_same `{!CynicParserLaws} k (a : option (option Ty * Span)) r :
  field_change_kind false a a k = Ret r → r = None.
Proof.
  destruct a as [[[ty|] sp]|], k; simpl; rewrite ?ty_eqb_refl; naive_solver.
Qed.

(** A schema does not differ from itself: [diff] of a document with
    itself is empty, whatever its definitions. *)
Theorem diff_refl `{!CynicParserLaws} src (Hsrc : kind_consistent (doc_of src) = true) :
  diff src src = Ret [].
Proof.
  destruct (diff_returns src src Hsrc Hsrc) as [cs Hcs]. rewrite Hcs. f_equal.
  apply elem_of_nil_inv. intros c. rewrite (elem_of_diff _ _ _ _ Hcs).
  intros [Hc|[(k & e & He & Hc)|[(k & e & r & He & Hr & Hc)|[([t f] & e & r & He & Hr & Hc)|
    ([[t f] a] & e & r & He & Hr & Hc)]]]].
  - rewrite final_state_eq in Hc. simpl in Hc. destruct (last _); [|by apply elem_of_nil in Hc].
    simpl in Hc. rewrite !decide_False in Hc by naive_solver. by apply elem_of_nil in Hc.
  - rewrite impls_lookup, entry_Some in He. destruct He as [-> _]. simpl in Hc.
    rewrite !filter_none in Hc by naive_solver. by apply elem_of_nil in Hc.
  - rewrite types_lookup, entry_Some in He. destruct He as [-> Hs]. unfold push_definition_changes in Hr.
    destruct (type_of _ k); [|by destruct Hs as [[]|[]]]. rewrite decide_False in Hr by naive_solver.
    simplify_eq. by apply elem_of_nil in Hc.
  - destruct (push_field_changes_both src src t f e) as [(? & ? & k & _ & _ & _ & _ & _ & _ & E)|E];
      [done..| |]; rewrite E in Hr; simplify_eq; [|by apply elem_of_nil in Hc].
    rewrite fields_lookup, entry_Some in He. destruct He as [-> _]. simpl in Hr. inv_ret.
    match goal with Hck : field_change_kind _ _ _ _ = Ret _ |- _ =>
      apply field_change_kind_same in Hck as -> end. by apply elem_of_nil in Hc.
  - rewrite args_lookup, entry_Some in He. destruct He as [-> Hs]. unfold push_argument_changes in Hr.
    destruct (arg_of _ _) as [iv|]; [|by destruct Hs as [[]|[]]]. rewrite ty_eqb_refl in Hr.
    destruct (iv_default_value iv); rewrite ?val_eqb_refl in Hr; simplify_eq; by apply elem_of_nil in Hc.
Qed.

(** ** Which step pushes which kind *)
Inductive change_class := CSchema | CImpl | CType | CField | CArg.
Definition class_of (k : ChangeKind) : change_class :=
  match k with
  | ChangeQueryType | ChangeMutationType | ChangeSubscriptionType
  | AddSchemaDefinition | RemoveSchemaDefinition => CSchema
  | AddInterfaceImplementation | RemoveInterfaceImplementation => CImpl
  | ChangeFieldType | RemoveField | AddField | AddUnionMember | RemoveUnionMember
  | AddEnumValue | RemoveEnumValue => CField
  | AddFieldArgument | RemoveFieldArgument | AddFieldArgumentDefault | RemoveFieldArgumentDefault
  | ChangeFieldArgumentDefault | ChangeFieldArgumentType => CArg
  | _ => CType
  end.

Ltac in_short_list Hin :=
  rewrite ?elem_of_app, ?elem_of_cons, ?elem_of_nil in Hin; naive_solver.

Lemma class_schema m c : c ∈ push_schema_definition_changes m → class_of (kind c) = CSchema.
Proof.
  destruct m as [[]  []]; simpl; repeat case_decide; intros Hc; in_short_list Hc.
Qed.
Lemma class_impl e c : c ∈ push_interface_implementer_changes e → class_of (kind c) = CImpl.
Proof.
  destruct e as [k [a b]]. simpl. rewrite elem_of_app, !list_elem_of_fmap. naive_solver.
Qed.
Lemma class_type e r c : push_definition_changes e = Ret r → c ∈ r → class_of (kind c) = CType.
Proof.
  destruct e as [n [[a|] [b|]]]; simpl; unfold push_removed_type, push_added_type; intros Hr;
    try case_decide; inv_ret; repeat case_match; intros Hin; in_short_list Hin.
Qed.
Lemma field_change_kind_class g a b k ck sp :
  field_change_kind g a b k = Ret (Some (ck, sp)) → class_of ck = CField.
Proof.
  destruct a as [[oa ?]|], b as [[ob ?]|], k, g; simpl; intros Hr;
    repeat (case_match; try discriminate); inv_ret; naive_solver.
Qed.
Lemma class_field m e r c : push_field_changes m e = Ret r → c ∈ r → class_of (kind c) = CField.
Proof.
  destruct e as [[t f] [a b]]. unfold push_field_changes. intros Hr. inv_ret.
  destruct x as [[x|] [y|]]; try case_decide; inv_ret; try by intros ?%elem_of_nil.
  destruct x1 as [[ck sp]|]; [|by intros ?%elem_of_nil].
  intros ->%list_elem_of_singleton. by eapply field_change_kind_class.
Qed.
Lemma class_arg m e r c : push_argument_changes m e = Ret r → c ∈ r → class_of (kind c) = CArg.
Proof.
  destruct e as [[[t f] a] [[x|] [y|]]]; simpl; intros Hr; inv_ret; repeat case_match;
    intros Hin; in_short_list Hin.
Qed.

Section membership.
Context (src tgt : option TypeSystemDocument) (cs : list Change) (Hcs : diff src tgt = Ret cs).

Ltac by_class :=
  rewrite (elem_of_diff _ _ _ _ Hcs); split; [|by eauto 10];
  intros [Hc|[(? & ? & ? & Hc)|[(? & ? & ? & ? & ? & ?)|[(? & ? & ? & ? & ? & ?)|(? & ? & ? & ? & ? & ?)]]]];
  try (apply class_schema in Hc; congruence); try (apply class_impl in Hc; congruence);
  match goal with
  | _ => by eauto 10
  | Hr : _ = Ret _, Hc : _ ∈ _ |- _ =>
      first [apply (class_type _ _ _ Hr) in Hc|apply (class_field _ _ _ _ Hr) in Hc
            |apply (class_arg _ _ _ _ Hr) in Hc]; congruence
  end.

Lemma elem_of_diff_type c : class_of (kind c) = CType →
  c ∈ cs ↔ ∃ k e r, types_map (final_state src tgt) !! k = Some e ∧
                    push_definition_changes (k, e) = Ret r ∧ c ∈ r.
Proof using Hcs. intros Hk. by_class. Qed.
Lemma elem_of_diff_field c : class_of (kind c) = CField →
  c ∈ cs ↔ ∃ k e r, fields_map (final_state src tgt) !! k = Some e ∧
                    push_field_changes (types_map (final_state src tgt)) (k, e) = Ret r ∧ c ∈ r.
Proof using Hcs. intros Hk. by_class. Qed.
Lemma elem_of_diff_arg c : class_of (kind c) = CArg →
  c ∈ cs ↔ ∃ k e r, arguments_map (final_state src tgt) !! k = Some e ∧
                    push_argument_changes (fields_map (final_state src tgt)) (k, e) = Ret r ∧ c ∈ r.
Proof using Hcs. intros Hk. by_class. Qed.
End membership.

(** ** Changes of types *)
Definition added_kind (k : DefinitionKind) : ChangeKind :=
  match k with
  | KDirective => AddDirectiveDefinition | KEnum => AddEnum | KInputObject => AddInputObject
  | KInterface => AddInterface | KObject => AddObjectType | KScalar => AddScalar | KUnion => AddUnion
  end.
Definition removed_kind (k : DefinitionKind) : ChangeKind :=
  match k with
  | KDirective => RemoveDirectiveDefinition | KEnum => RemoveEnum | KInputObject => RemoveInputObject
  | KInterface => RemoveInterface | KObject => RemoveObjectType | KScalar => RemoveScalar
  | KUnion => RemoveUnion
  end.
(** The kind of the definition a document gives to a name. *)
Definition kind_in (doc : TypeSystemDocument) (n : string) : option DefinitionKind :=
  type_of doc n ≫= DefinitionKind_new.

(** [c] reports a definition of [doc] that has no definition of the same kind
    in [other]. *)
Definition only_in (doc other : TypeSystemDocument) (to_change : DefinitionKind → ChangeKind)
    (c : Change) : Prop :=
  ∃ d k, type_of doc (path c) = Some d ∧ DefinitionKind_new d = Some k ∧
         kind_in other (path c) ≠ Some k ∧ kind c = to_change k ∧ span c = definition_span d.

Lemma push_added_type_eq n d k :
  DefinitionKind_new d = Some k → push_added_type n d = [MkChange n (added_kind k) (definition_span d)].
Proof. unfold push_added_type. intros ->. by destruct k. Qed.
Lemma push_removed_type_eq n d k :
  DefinitionKind_new d = Some k →
  push_removed_type n d = Ret [MkChange n (removed_kind k) (definition_span d)].
Proof. unfold push_removed_type. intros ->. by destruct k. Qed.

Lemma diff_type_changes_aux src tgt cs c :
  diff src tgt = Ret cs → class_of (kind c) = CType →
  c ∈ cs ↔ only_in (doc_of tgt) (doc_of src) added_kind c ∨
           only_in (doc_of src) (doc_of tgt) removed_kind c.
Proof.
  intros Hcs Hc. rewrite (elem_of_diff_type _ _ _ Hcs _ Hc).
  assert (∀ doc n d, type_of doc n = Some d → ∃ k, DefinitionKind_new d = Some k) as Hkind.
  { intros doc n d Hd%last_value_Some. by eapply type_entries_kind. }
  unfold only_in, kind_in. split.
  - intros (n & e & r & He & Hr & Hin). rewrite types_lookup, entry_Some in He.
    destruct He as [-> Hs]. unfold push_definition_changes in Hr.
    destruct (type_of (doc_of src) n) as [a|] eqn:Ha, (type_of (doc_of tgt) n) as [b|] eqn:Hb.
    + destruct (Hkind _ _ _ Ha) as [ka Hka], (Hkind _ _ _ Hb) as [kb Hkb].
      case_decide as Hne; [|simplify_eq; by apply elem_of_nil in Hin].
      rewrite (push_removed_type_eq _ _ _ Hka), (push_added_type_eq _ _ _ Hkb) in Hr. simpl in Hr.
      simplify_eq. rewrite !elem_of_cons, elem_of_nil in Hin.
      destruct Hin as [-> |[-> |[]]]; [right|left];
        eexists _, _; simpl; rewrite ?Ha, ?Hb; simpl; split_and!; eauto; congruence.
    + destruct (Hkind _ _ _ Ha) as [ka Hka]. rewrite (push_removed_type_eq _ _ _ Hka) in Hr.
      simplify_eq. apply list_elem_of_singleton in Hin as ->. right.
      eexists _, _; simpl; rewrite ?Ha, ?Hb; simpl; split_and!; eauto; congruence.
    + destruct (Hkind _ _ _ Hb) as [kb Hkb]. rewrite (push_added_type_eq _ _ _ Hkb) in Hr.
      simplify_eq. apply list_elem_of_singleton in Hin as ->. left.
      eexists _, _; simpl; rewrite ?Ha, ?Hb; simpl; split_and!; eauto; congruence.
    + by destruct Hs as [[]|[]].
  - destruct c as [n ck sp]. simpl. intros [(d & k & Hd & Hk & Hne & -> & ->)|(d & k & Hd & Hk & Hne & -> & ->)].
    + exists n, (type_of (doc_of src) n, Some d). rewrite types_lookup, Hd.
      destruct (type_of (doc_of src) n) as [a|] eqn:Ha; simpl in *.
      * destruct (Hkind _ _ _ Ha) as [ka Hka]. rewrite decide_True by congruence.
        rewrite (push_removed_type_eq _ _ _ Hka), (push_added_type_eq _ _ _ Hk). simpl.
        eexists. split_and!; [done..|]. right. by left.
      * rewrite (push_added_type_eq _ _ _ Hk). eexists. split_and!; [done..|]. by left.
    + exists n, (Some d, type_of (doc_of tgt) n). rewrite types_lookup, Hd.
      destruct (type_of (doc_of tgt) n) as [b|] eqn:Hb; simpl in *.
      * rewrite decide_True by congruence. rewrite (push_removed_type_eq _ _ _ Hk). simpl.
        eexists. split_and!; [done..|]. by left.
      * rewrite (push_removed_type_eq _ _ _ Hk). eexists. split_and!; [done..|]. by left.
Qed.

(** The type and directive changes of a diff are exactly the definitions
    that exist on one side only or with another kind: an [Add] change for each
    definition of the target without a definition of that kind and name in the
    source, a [Remove] change for each definition of the source without one in
    the target, with the name as path and the span of the definition. *)
Theorem diff_type_changes src tgt cs c
    (Hcs : diff src tgt = Ret cs) (Hc : class_of (kind c) = CType) :
  c ∈ cs ↔ only_in (doc_of tgt) (doc_of src) added_kind c ∨
           only_in (doc_of src) (doc_of tgt) removed_kind c.
Proof. by apply diff_type_changes_aux. Qed.

(** ** Changes of fields, enum values and union members *)
Definition added_field_kind (k : DefinitionKind) : ChangeKind :=
  match k with KEnum => AddEnumValue | KUnion => AddUnionMember | _ => AddField end.
Definition removed_field_kind (k : DefinitionKind) : ChangeKind :=
  match k with KEnum => RemoveEnumValue | KUnion => RemoveUnionMember | _ => RemoveField end.

(** What a change of a field means: the parent has one kind [k] on both sides
    and the field was added, removed or retyped. *)
Inductive field_diff (src tgt : TypeSystemDocument) : Change → Prop :=
| field_added t f k oty sp :
    kind_in src t = Some k → kind_in tgt t = Some k →
    field_of src (t, f) = None → field_of tgt (t, f) = Some (oty, sp) →
    field_diff src tgt (MkChange (join "." [t; f]) (added_field_kind k) sp)
| field_removed t f k v :
    kind_in src t = Some k → kind_in tgt t = Some k →
    field_of src (t, f) = Some v → field_of tgt (t, f) = None →
    field_diff src tgt (MkChange (join "." [t; f]) (removed_field_kind k) Span_empty)
| field_retyped t f k ty ty' sp sp' :
    kind_in src t = Some k → kind_in tgt t = Some k →
    field_of src (t, f) = Some (Some ty, sp) → field_of tgt (t, f) = Some (Some ty', sp') →
    ty_eqb ty ty' = false →
    field_diff src tgt (MkChange (join "." [t; f]) ChangeFieldType (ty_span ty')).

Lemma push_field_changes_sound src tgt t f e r c :
  kind_consistent (doc_of src) = true → kind_consistent (doc_of tgt) = true →
  fields_map (final_state src tgt) !! (t, f) = Some e →
  push_field_changes (types_map (final_state src tgt)) (t, f, e) = Ret r → c ∈ r →
  field_diff (doc_of src) (doc_of tgt) c.
Proof.
  intros Hs Ht He Hr Hin.
  destruct (push_field_changes_both src tgt t f e) as [(a & b & k & Ha & Hb & Hka & Hkb & H1 & H2 & E)|E];
    [done..| |]; rewrite E in Hr; inv_ret; [|by apply elem_of_nil in Hin].
  rewrite fields_lookup, entry_Some in He. destruct He as [-> He]. simpl in *.
  destruct x as [[ck sp]|]; [|by apply elem_of_nil in Hin]. apply list_elem_of_singleton in Hin as ->.
  assert (kind_in (doc_of src) t = Some k) as Hks by (unfold kind_in; by rewrite Ha).
  assert (kind_in (doc_of tgt) t = Some k) as Hkt by (unfold kind_in; by rewrite Hb).
  destruct (field_of (doc_of src) (t, f)) as [[oa sa]|] eqn:Fa,
           (field_of (doc_of tgt) (t, f)) as [[ob sb]|] eqn:Fb.
  - specialize (H1 _ _ eq_refl). specialize (H2 _ _ eq_refl).
    destruct oa, ob, k; simpl in *; try naive_solver;
      (destruct (ty_eqb _ _) eqn:?; inv_ret; by eapply field_retyped).
  - specialize (H1 _ _ eq_refl). destruct oa, k; simpl in *; try naive_solver; inv_ret;
      first [by eapply (field_removed _ _ _ _ KObject)|by eapply (field_removed _ _ _ _ KInterface)
            |by eapply (field_removed _ _ _ _ KInputObject)|by eapply (field_removed _ _ _ _ KEnum)
            |by eapply (field_removed _ _ _ _ KUnion)].
  - specialize (H2 _ _ eq_refl). destruct ob, k; simpl in *; try naive_solver; inv_ret;
      first [by eapply (field_added _ _ _ _ KObject)|by eapply (field_added _ _ _ _ KInterface)
            |by eapply (field_added _ _ _ _ KInputObject)|by eapply (field_added _ _ _ _ KEnum)
            |by eapply (field_added _ _ _ _ KUnion)].
  - by destruct He as [[]|[]].
Qed.

Lemma push_field_changes_at src tgt t f e k :
  kind_in (doc_of src) t = Some k → kind_in (doc_of tgt) t = Some k →
  push_field_changes (types_map (final_state src tgt)) (t, f, e) =
    (ck ← field_change_kind false e.1 e.2 k;
     Ret match ck with
         | Some (ck, sp) => [MkChange (join "." [t; f]) ck sp]
         | None => []
         end).
Proof.
  unfold kind_in. intros (a & Ha & Hka)%bind_Some (b & Hb & Hkb)%bind_Some.
  destruct e as [ea eb]. unfold push_field_changes. rewrite types_lookup, Ha, Hb. simpl.
  rewrite Hka, Hkb, decide_False by naive_solver. done.
Qed.

Lemma field_of_kind doc t f k oty sp :
  kind_consistent doc = true → kind_in doc t = Some k → field_of doc (t, f) = Some (oty, sp) →
  fields_kind oty k.
Proof.
  unfold kind_in. intros Hc (d & Hd & Hk)%bind_Some Hf.
  destruct (field_parent _ _ _ _ _ Hc Hf) as (d' & k' & ? & ? & ?). congruence.
Qed.

Lemma push_field_changes_complete src tgt c :
  kind_consistent (doc_of src) = true → kind_consistent (doc_of tgt) = true →
  field_diff (doc_of src) (doc_of tgt) c →
  ∃ k e r, fields_map (final_state src tgt) !! k = Some e ∧
           push_field_changes (types_map (final_state src tgt)) (k, e) = Ret r ∧ c ∈ r.
Proof.
  intros Hs Ht. destruct 1 as [t f k oty sp K1 K2 F1 F2|t f k [oty sp] K1 K2 F1 F2|t f k ty ty' sp sp' K1 K2 F1 F2 Hne].
  - pose proof (field_of_kind _ _ _ _ _ _ Ht K2 F2) as Hk.
    exists (t, f), (None, Some (oty, sp)). rewrite fields_lookup, F1, F2, (push_field_changes_at _ _ _ _ _ k) by done.
    destruct oty; destruct Hk as [->|[->| ->]] || destruct Hk as [->| ->];
      (eexists; split_and!; [done|done|by left]).
  - pose proof (field_of_kind _ _ _ _ _ _ Hs K1 F1) as Hk.
    exists (t, f), (Some (oty, sp), None). rewrite fields_lookup, F1, F2, (push_field_changes_at _ _ _ _ _ k) by done.
    destruct oty; destruct Hk as [->|[->| ->]] || destruct Hk as [->| ->];
      (eexists; split_and!; [done|done|by left]).
  - pose proof (field_of_kind _ _ _ _ _ _ Hs K1 F1) as Hk.
    exists (t, f), (Some (Some ty, sp), Some (Some ty', sp')).
    rewrite fields_lookup, F1, F2, (push_field_changes_at _ _ _ _ _ k) by done.
    destruct Hk as [->|[->| ->]]; simpl; rewrite Hne; (eexists; split_and!; [done|done|by left]).
Qed.

Lemma diff_field_changes_aux src tgt cs c :
  kind_consistent (doc_of src) = true → kind_consistent (doc_of tgt) = true →
  diff src tgt = Ret cs → class_of (kind c) = CField →
  c ∈ cs ↔ field_diff (doc_of src) (doc_of tgt) c.
Proof.
  intros Hs Ht Hcs Hc. rewrite (elem_of_diff_field _ _ _ Hcs _ Hc). split.
  - intros ([t f] & e & r & He & Hr & Hin). by eapply push_field_changes_sound.
  - by apply push_field_changes_complete.
Qed.

(** The enum value [f] of the enum [t] is in the target and not in the source. *)
Definition enum_value_added (src tgt : TypeSystemDocument) (path : string) : Prop :=
  ∃ t f, path = join "." [t; f] ∧ kind_in src t = Some KEnum ∧ kind_in tgt t = Some KEnum ∧
    field_of src (t, f) = None ∧ is_Some (field_of tgt (t, f)).
Lemma field_diff_added_value (src tgt : TypeSystemDocument) c :
  field_diff src tgt c → kind c = AddEnumValue →
  ∃ t f oty, path c = join "." [t; f] ∧ kind_in src t = Some KEnum ∧ kind_in tgt t = Some KEnum ∧
    field_of src (t, f) = None ∧ field_of tgt (t, f) = Some (oty, span c).
Proof.
  destruct 1 as [t f k oty sp|t f k|]; simpl; intros Hk; [|by destruct k|done].
  exists t, f, oty. by destruct k.
Qed.
Lemma field_diff_enum_value (src tgt : TypeSystemDocument) path :
  (∃ sp, field_diff src tgt (MkChange path AddEnumValue sp)) ↔ enum_value_added src tgt path.
Proof.
  split.
  - intros [sp (t & f & oty & ? & ? & ? & ? & H4)%field_diff_added_value]; [|done]. exists t, f. by rewrite H4.
  - intros (t & f & -> & H1 & H2 & H3 & [oty sp] & H4). exists sp.
    apply (field_added _ _ t f KEnum oty sp H1 H2 H3 H4).
Qed.

(** The span of an added enum value is that of the value in the target, where
    the documentation of [Change::span] says that it is empty. *)
Theorem add_enum_value_span src tgt cs path sp
    (Hsrc : kind_consistent (doc_of src) = true) (Htgt : kind_consistent (doc_of tgt) = true)
    (Hcs : diff src tgt = Ret cs) (Hin : MkChange path AddEnumValue sp ∈ cs) :
  ∃ t f oty, path = join "." [t; f] ∧ field_of (doc_of tgt) (t, f) = Some (oty, sp).
Proof.
  apply (diff_field_changes_aux src tgt cs) in Hin; [|done..].
  apply field_diff_added_value in Hin as (t & f & oty & ? & _ & _ & _ & ?); [|done]. by exists t, f, oty.
Qed.

(** C3. The field, enum value and union member changes of a diff are exactly
    the differences under the types that both schemas define with the same
    kind: members only in the target are added, members only in the source are
    removed, and a field on both sides is reported when its type differs. The
    span is that of the new type for a changed type, of the field or member for
    an added one, empty for a removed one, as documented; for added enum values
    the path is characterised and the span left open, since the documentation
    says that it is empty and the code gives that of the value
    ([add_enum_value_span]). Members of added, removed or re-kinded types are
    not reported. In each schema, all definitions and extensions of a name are
    of one kind, directives included ([kind_consistent]). *)
Theorem diff_field_changes src tgt cs
    (Hsrc : kind_consistent (doc_of src) = true) (Htgt : kind_consistent (doc_of tgt) = true)
    (Hcs : diff src tgt = Ret cs) :
  (∀ c, class_of (kind c) = CField → kind c ≠ AddEnumValue →
     c ∈ cs ↔ field_diff (doc_of src) (doc_of tgt) c) ∧
  (∀ path, (∃ sp, MkChange path AddEnumValue sp ∈ cs) ↔ enum_value_added (doc_of src) (doc_of tgt) path).
Proof.
  split.
  - intros c Hc _. by apply diff_field_changes_aux.
  - intros path. rewrite <-field_diff_enum_value.
    by setoid_rewrite (λ sp, diff_field_changes_aux src tgt cs (MkChange path AddEnumValue sp) Hsrc Htgt Hcs eq_refl).
Qed.

(** ** Duality *)





End props.
