(* ===== verification/SchemaDiffCases.v ===== *)
(** * Spans of [graphql_schema_diff] changes, and [resolve_spans]

    Every span of a change is empty or the span of a node of the schema that
    [resolve_spans] reads it from, so resolving a diff against the texts it was
    computed from does not panic. *)
From Stdlib Require Import Ascii.
From S2P Require Import Prelude RustStd Change SchemaAst SchemaDiff SchemaDiffProps.
Local Open Scope string_scope.
Local Open Scope list_scope.

Section spans.
Context `{CynicParser}.
Implicit Types (src tgt : option TypeSystemDocument) (cs : list Change).

(** The spans of the nodes of a document. *)
Definition iv_spans (iv : InputValueDefinition) : list Span :=
  [iv_span iv; ty_span (iv_ty iv); iv_default_value_span iv].
Definition field_spans (f : FieldDefinition) : list Span :=
  [fd_span f; ty_span (fd_ty f)] ++ concat (iv_spans <$> fd_arguments f).
Definition type_spans (t : TypeDefinition) : list Span :=
  match t with
  | TScalar _ => []
  | TObject _ _ fs | TInterface _ _ fs => concat (field_spans <$> fs)
  | TUnion _ ms => um_span <$> ms
  | TEnum _ vs => ev_span <$> vs
  | TInputObject _ fs => concat (iv_spans <$> fs)
  end.
Definition root_spans (d : SchemaDefinition) : list Span :=
  omap (fmap root_span) [query_type d; mutation_type d; subscription_type d].
Definition def_spans (d : Definition_) : list Span :=
  definition_span d ::
  match d with
  | DSchema s | DSchemaExtension s => root_spans s
  | DType t | DTypeExtension t => type_spans t
  | DDirective _ => []
  end.
Definition node_spans (doc : TypeSystemDocument) : list Span := concat (def_spans <$> doc).

Lemma node_spans_intro doc d sp : d ∈ doc → sp ∈ def_spans d → sp ∈ node_spans doc.
Proof. intros. apply elem_of_concat_map. eauto. Qed.

Lemma type_entry_span doc n d : (n, d) ∈ type_entries doc → definition_span d ∈ node_spans doc.
Proof.
  unfold type_entries. rewrite list_elem_of_omap. intros (d' & Hd' & E).
  apply (node_spans_intro _ d'); [done|]. destruct d' as [?|?|[]|[]|?]; simplify_eq/=; by left.
Qed.
Lemma schema_entry_span doc s sp :
  s ∈ schema_entries doc → sp = sd_span s ∨ sp ∈ root_spans s → sp ∈ node_spans doc.
Proof.
  unfold schema_entries. rewrite list_elem_of_omap. intros (d & Hd & E) Hsp.
  apply (node_spans_intro _ d); [done|]. unfold def_spans. rewrite elem_of_cons.
  destruct d; simplify_eq/=; done.
Qed.
Lemma field_entry_span doc k oty sp :
  (k, (oty, sp)) ∈ field_entries doc →
  sp ∈ node_spans doc ∧ ∀ ty, oty = Some ty → ty_span ty ∈ node_spans doc.
Proof.
  unfold field_entries. rewrite elem_of_concat_map. intros (d & Hd & Hf).
  assert (sp ∈ def_spans d ∧ ∀ ty, oty = Some ty → ty_span ty ∈ def_spans d) as [H1 H2];
    [|split; [|intros ty Hty]; by eauto using node_spans_intro].
  unfold def_spans. setoid_rewrite elem_of_cons.
  destruct d as [?|?|[]|[]|?]; simpl in *; try by apply elem_of_nil in Hf.
  all: apply list_elem_of_fmap in Hf as (x & E & Hx); simplify_eq/=; split; [right|intros ty E; simplify_eq; right].
  all: rewrite ?elem_of_concat_map, ?list_elem_of_fmap; eexists; split; [first [exact Hx|reflexivity]|].
  all: first [exact Hx|by left|right; by left].
Qed.
Lemma arg_entry_span doc k iv sp :
  (k, iv) ∈ arg_entries doc → sp ∈ iv_spans iv → sp ∈ node_spans doc.
Proof.
  unfold arg_entries. rewrite elem_of_concat_map. intros (d & Hd & Ha) Hsp.
  apply (node_spans_intro _ d); [done|]. unfold def_spans. rewrite elem_of_cons. right.
  destruct d as [?|?|[]|[]|?]; simpl in *; try by apply elem_of_nil in Ha.
  all: apply elem_of_concat_map in Ha as (f & Hf & (a & E & Ha)%list_elem_of_fmap); simplify_eq/=.
  all: apply elem_of_concat_map; exists f; split; [done|]; unfold field_spans.
  all: rewrite elem_of_app; right; apply elem_of_concat_map; eauto.
Qed.

Definition relevant_doc (src tgt : option TypeSystemDocument) (k : ChangeKind) : TypeSystemDocument :=
  if relevant_is_target k then doc_of tgt else doc_of src.
Definition span_in (src tgt : option TypeSystemDocument) (c : Change) : Prop :=
  span c = Span_empty ∨ span c ∈ node_spans (relevant_doc src tgt (kind c)).

Lemma field_change_kind_span g a b k ck sp :
  field_change_kind g a b k = Ret (Some (ck, sp)) →
  sp = Span_empty ∨ relevant_is_target ck = true ∧
    ((∃ oty, b = Some (oty, sp)) ∨ ∃ ty s, b = Some (Some ty, s) ∧ sp = ty_span ty).
Proof.
  destruct a as [[oa ?]|], b as [[ob ?]|], k, g; simpl; intros Hr;
    repeat (case_match; try discriminate); inv_ret;
    first [by left|right; split; [done|]; first [left; by eexists|right; by eexists _, _]].
Qed.

Lemma span_in_field src tgt t f e r c :
  fields_map (final_state src tgt) !! (t, f) = Some e →
  push_field_changes (types_map (final_state src tgt)) (t, f, e) = Ret r → c ∈ r → span_in src tgt c.
Proof.
  rewrite fields_lookup, entry_Some. intros [-> _]. unfold push_field_changes. intros Hr. inv_ret.
  destruct x as [[x|] [y|]]; try case_decide; inv_ret; try by intros ?%elem_of_nil.
  destruct x1 as [[ck sp]|]; [|by intros ?%elem_of_nil]. intros ->%list_elem_of_singleton.
  unfold span_in, relevant_doc. simpl.
  match goal with Hck : field_change_kind _ _ _ _ = Ret _ |- _ =>
    apply field_change_kind_span in Hck as [->|[-> [[oty E]|(ty & s & E & ->)]]] end; [by left|right..];
    apply last_value_Some, field_entry_span in E as [? ?]; eauto.
Qed.

Lemma span_in_arg src tgt t f a e r c :
  arguments_map (final_state src tgt) !! (t, f, a) = Some e →
  push_argument_changes (fields_map (final_state src tgt)) (t, f, a, e) = Ret r → c ∈ r →
  span_in src tgt c.
Proof.
  rewrite args_lookup, entry_Some. intros [-> _]. unfold push_argument_changes.
  assert (∀ iv sp, last_value (t, f, a) (arg_entries (doc_of tgt)) = Some iv → sp ∈ iv_spans iv →
    sp ∈ node_spans (doc_of tgt)) as Ht.
  { intros iv sp Hiv%last_value_Some. by eapply arg_entry_span. }
  destruct (last_value _ (arg_entries (doc_of src))) as [iv|],
           (last_value _ (arg_entries (doc_of tgt))) as [iv'|]; intros Hr; inv_ret.
  - rewrite elem_of_app. intros Hin. unfold span_in, relevant_doc.
    assert (∀ sp, sp ∈ iv_spans iv' → sp ∈ node_spans (doc_of tgt)) as Ht' by eauto. clear Ht.
    unfold iv_spans in Ht'.
    destruct Hin as [Hin|Hin]; repeat case_match; rewrite ?elem_of_nil, ?list_elem_of_singleton in Hin;
      subst; try done; simpl; first [by left|right; apply Ht'; set_solver].
  - case_match; [by intros ?%elem_of_nil|]. intros ->%list_elem_of_singleton. by left.
  - intros ->%list_elem_of_singleton. right. eapply Ht; [done|]. by left.
Qed.

Lemma root_span_in d (f : SchemaDefinition → option RootOperation) :
  f d ∈ [query_type d; mutation_type d; subscription_type d] →
  ∀ sp, default Span_empty (root_span <$> f d) = sp → sp = Span_empty ∨ sp ∈ root_spans d.
Proof.
  intros Hf sp <-. destruct (f d) as [r|] eqn:E; [right|by left].
  unfold root_spans. apply list_elem_of_omap. exists (Some r). split; [done|done].
Qed.

Lemma span_in_schema src tgt c :
  c ∈ push_schema_definition_changes (schema_definition_map (final_state src tgt)) → span_in src tgt c.
Proof.
  rewrite final_state_eq. cbn [schema_definition_map].
  assert (∀ d sp, last (schema_entries (doc_of tgt)) = Some d → sp = sd_span d ∨ sp ∈ root_spans d →
    sp ∈ node_spans (doc_of tgt)) as Ht.
  { intros d sp Hd%last_Some_elem_of. by eapply schema_entry_span. }
  unfold span_in, relevant_doc.
  destruct (last (schema_entries (doc_of src))) as [d|], (last (schema_entries (doc_of tgt))) as [d'|].
  - unfold push_schema_definition_changes. rewrite !elem_of_app. intros [Hin|[Hin|Hin]];
      case_decide; rewrite ?elem_of_nil, ?list_elem_of_singleton in Hin; subst; try done; simpl.
    + destruct (root_span_in d' query_type ltac:(by repeat constructor) _ eq_refl) as [->|?]; eauto.
    + destruct (root_span_in d' mutation_type ltac:(by repeat constructor) _ eq_refl) as [->|?]; eauto.
    + destruct (root_span_in d' subscription_type ltac:(by repeat constructor) _ eq_refl) as [->|?]; eauto.
  - intros ->%list_elem_of_singleton. by left.
  - intros ->%list_elem_of_singleton. right. simpl. eauto.
  - by intros ?%elem_of_nil.
Qed.

Lemma diff_spans src tgt cs c : diff src tgt = Ret cs → c ∈ cs → span_in src tgt c.
Proof.
  intros Hcs Hc.
  destruct (proj1 (elem_of_diff _ _ _ _ Hcs) Hc) as [Hin|[(k & e & He & Hin)|[(k & e & r & He & Hr & Hin)|
    [([t f] & e & r & He & Hr & Hin)|([[t f] a] & e & r & He & Hr & Hin)]]]].
  - by apply span_in_schema.
  - left. destruct e as [a b]. simpl in Hin. rewrite elem_of_app, !list_elem_of_fmap in Hin. naive_solver.
  - pose proof (class_type _ _ _ Hr Hin) as Hcl.
    apply (diff_type_changes_aux _ _ _ _ Hcs Hcl) in Hc.
    unfold span_in, relevant_doc. right.
    destruct Hc as [(d & dk & Hd & _ & _ & Ek & ->)|(d & dk & Hd & _ & _ & Ek & ->)];
      apply last_value_Some, type_entry_span in Hd; rewrite Ek; by destruct dk.
  - by eapply span_in_field.
  - by eapply span_in_arg.
Qed.

(** A span that can be sliced out of a text. *)
Definition span_ok (text : string) (sp : Span) : bool :=
  negb (is_panic (str_slice text (span_start sp) (span_end sp))).

(** Resolving the spans of a diff in the two texts never panics: the parser
    gives every node a span that lies in its text, and each change carries the
    empty span or the span of a node of the schema [resolve_spans] picks for
    its kind. *)
Theorem resolve_spans_total src tgt (source target : string) cs
    (Hsrc : forallb (span_ok source) (node_spans (doc_of src)) = true)
    (Htgt : forallb (span_ok target) (node_spans (doc_of tgt)) = true)
    (Hcs : diff src tgt = Ret cs) :
  ∃ strs, resolve_spans source target cs = Ret strs ∧ length strs = length cs.
Proof.
  rewrite forallb_forall in Hsrc, Htgt.
  assert (∀ c, c ∈ cs → ∃ s, resolve_span source target c = Ret s) as Hall.
  { intros c Hc. pose proof (diff_spans _ _ _ _ Hcs Hc) as Hsp. unfold span_in, relevant_doc in Hsp.
    unfold resolve_span. set (text := if relevant_is_target (kind c) then target else source).
    assert (span_ok text (span c) = true) as Hok.
    { subst text. destruct Hsp as [->|Hsp].
      - by destruct (relevant_is_target _); [destruct target|destruct source].
      - apply list_elem_of_In in Hsp. destruct (relevant_is_target _); auto. }
    unfold span_ok in Hok. destruct (str_slice _ _ _); [by eauto|done]. }
  destruct (mapM_res_total _ _ Hall) as [strs Hstrs]. exists strs. split; [done|].
  apply mapM_res_Ret in Hstrs. symmetry. by eapply Forall2_length.
Qed.
End spans.

(** ** [graphql-schema-diff] on concrete schemas

    The example of the crate's README, the instances of the general theorems,
    and the inputs on which [diff] does not behave as its documentation says. *)
#[local] Existing Instance text_parser.

(** ** Building documents *)
Definition sp0 : Span := Span_empty.
Definition mk_ty (s : string) (sp : Span) : Ty := (s, sp).
Definition mk_fd (n ty : string) (sp : Span) : FieldDefinition :=
  MkField n [] (mk_ty ty sp) None [] sp.
Definition mk_arg (n ty : string) (dflt : option string) : InputValueDefinition :=
  MkInputValue n (mk_ty ty sp0) dflt sp0 None [] sp0.
Definition mk_fd_args (n ty : string) (args : list InputValueDefinition) : FieldDefinition :=
  MkField n args (mk_ty ty sp0) None [] sp0.
Definition mk_obj (n : string) (impls : list string) (fs : list FieldDefinition) (sp : Span) : Definition_ :=
  DType (TObject (MkHeader n None [] sp) impls fs).
Definition mk_enum (n : string) (vs : list (string * Span)) : Definition_ :=
  DType (TEnum (MkHeader n None [] sp0) ((λ v, MkEnumValue v.1 [] v.2) <$> vs)).
Definition mk_dir (n : string) : Definition_ := DDirective (MkDirectiveDefinition n sp0).

(** ** The README example *)
Definition pizza_source : TypeSystemDocument :=
  [mk_obj "Pizza" [] [mk_fd "id" "ID!" sp0; mk_fd "name" "String!" sp0; mk_fd "toppings" "[Topping!]!" sp0] sp0;
   mk_enum "Topping" [("OLIVES", sp0); ("MUSHROOMS", sp0); ("PINEAPPLE", sp0)]].
Definition pizza_target : TypeSystemDocument :=
  [mk_obj "Pizza" [] [mk_fd "id" "ID!" sp0; mk_fd "name" "PizzaName" (MkSpan 38 47);
                      mk_fd "toppings" "[Topping!]!" sp0] sp0;
   mk_obj "PizzaName" [] [mk_fd "english" "String" sp0; mk_fd "italian" "String!" sp0] (MkSpan 81 142);
   mk_enum "Topping" [("OLIVES", sp0); ("MUSHROOMS", sp0); ("POTATO", MkSpan 190 199)]].

Definition pizza_changes : list Change :=
  [MkChange "Pizza.name" ChangeFieldType (MkSpan 38 47);
   MkChange "PizzaName" AddObjectType (MkSpan 81 142);
   MkChange "Topping.PINEAPPLE" RemoveEnumValue (MkSpan 0 0);
   MkChange "Topping.POTATO" AddEnumValue (MkSpan 190 199)].
Lemma readme_example : diff (Some pizza_source) (Some pizza_target) = Ret pizza_changes.
Proof. vm_compute. reflexivity. Qed.

(** ** Instances of the theorems *)
Lemma diff_no_panic_witness :
  kind_consistent pizza_source = true ∧ ∃ cs, diff (Some pizza_source) (Some pizza_target) = Ret cs.
Proof.
  split; [vm_compute; reflexivity|].
  apply (diff_no_panic (Some pizza_source) (Some pizza_target)); vm_compute; reflexivity.
Defined.

Lemma diff_iteration_order_irrelevant_witness :
  let s := final_state (Some pizza_source) (Some pizza_target) in
  into_changes_in_order s (reverse (map_to_list (interface_impls s))) (reverse (map_to_list (types_map s)))
    (reverse (map_to_list (fields_map s))) (reverse (map_to_list (arguments_map s))) = Ret pizza_changes.
Proof.
  cbv zeta. apply diff_iteration_order_irrelevant; try apply reverse_Permutation.
  apply readme_example.
Defined.

Lemma diff_refl_witness : kind_consistent pizza_source = true ∧ diff (Some pizza_source) (Some pizza_source) = Ret [].
Proof.
  split; [vm_compute; reflexivity|].
  apply (@diff_refl text_parser text_parser_laws (Some pizza_source)). vm_compute. reflexivity.
Defined.

Lemma diff_type_changes_witness :
  only_in pizza_target pizza_source added_kind (MkChange "PizzaName" AddObjectType (MkSpan 81 142)).
Proof.
  destruct (proj1 (diff_type_changes (Some pizza_source) (Some pizza_target) pizza_changes
    (MkChange "PizzaName" AddObjectType (MkSpan 81 142)) readme_example eq_refl)) as [Hd|Hd].
  - right. left.
  - exact Hd.
  - destruct Hd as (d & k & _ & _ & _ & E & _). destruct k; discriminate E.
Defined.

Lemma diff_field_changes_witness :
  field_diff pizza_source pizza_target (MkChange "Pizza.name" ChangeFieldType (MkSpan 38 47)).
Proof.
  apply (proj1 (diff_field_changes (Some pizza_source) (Some pizza_target) pizza_changes
    eq_refl eq_refl readme_example)); [reflexivity|discriminate|left].
Defined.


(** A text long enough for the spans above. *)
Definition blank (n : nat) : string := String.string_of_list_ascii (replicate n " "%char).
Lemma resolve_spans_total_witness :
  ∃ strs, resolve_spans (blank 250) (blank 250) pizza_changes = Ret strs ∧ length strs = 4%nat.
Proof.
  apply (resolve_spans_total (Some pizza_source) (Some pizza_target)); try exact readme_example;
    vm_compute; reflexivity.
Defined.

(** ** Directives and types share one map *)

(** Type names and directive names are separate in GraphQL, but both are keys of
    [types_map]: a directive definition replaces the entry of a type of the
    same name, and a field of that type then reaches the [unreachable!] arm. *)
Definition shared_name : TypeSystemDocument :=
  [mk_obj "auth" [] [mk_fd "token" "String" sp0] sp0; mk_dir "auth"].

(** [diff] panics on two equal, valid schemas in which a directive has the
    name of an object type. *)
Theorem diff_panics_on_shared_name :
  diff (Some shared_name) (Some shared_name) = Panic "internal error: entered unreachable code".
Proof. vm_compute. reflexivity. Qed.

(** ** A type extension replaces the implemented interfaces *)
Definition with_extension : TypeSystemDocument :=
  [mk_obj "User" ["Node"] [mk_fd "id" "ID!" sp0] sp0;
   DTypeExtension (TObject (MkHeader "User" None [] sp0) [] [mk_fd "name" "String" sp0])].
Definition without_extension : TypeSystemDocument :=
  [mk_obj "User" ["Node"] [mk_fd "id" "ID!" sp0; mk_fd "name" "String" sp0] sp0].

(** The interfaces of a type are overwritten by its extension instead of
    being merged with it: folding [extend type User { name }] into
    [type User implements Node] is reported as the addition of an
    implementation that was there before. *)
Theorem diff_extension_drops_interfaces :
  diff (Some with_extension) (Some without_extension) =
  Ret [MkChange "Node.User" AddInterfaceImplementation Span_empty].
Proof. vm_compute. reflexivity. Qed.
