(* ===== verification/WrappingTypes.v ===== *)
(** * [operation-checks/src/schema/wrapping_types.rs]

    The wrapping types of a field or argument packed into a [u64]: six bits
    with the number of lists, one bit for the innermost nullability and 57 bits
    for the lists, the lowest bit the outermost list. [compare] classifies the
    change from one wrapping to another; it is related here to the values the
    two types admit. *)
From Stdlib Require Import ZArith.
From S2P Require Import Prelude RustStd.
Local Open Scope Z_scope.

Inductive ListType := List_ | NonNullList.
Global Instance ListType_eq_dec : EqDecision ListType.
Proof. solve_decision. Defined.

(** [struct WrappingTypes(u64)], compared bit by bit. *)
Record WrappingTypes := MkWT { wt : Z }.
Global Instance WrappingTypes_eq_dec : EqDecision WrappingTypes.
Proof. solve_decision. Defined.
Definition WrappingTypes_default : WrappingTypes := MkWT 0.

Definition u64_wrap (x : Z) : Z := wrap 64 x.
Definition u64_not (x : Z) : Z := bnot 64 x.
Definition u64_shl (x s : Z) : Z := shl 64 x s.

Definition LIST_BITS_COUNT : Z := 57.
Definition NONNULL_BIT_OFFSET : Z := LIST_BITS_COUNT.
Definition NONNULL_BIT_MASK : Z := u64_shl 1 NONNULL_BIT_OFFSET.
Definition LIST_COUNT_BITS_OFFSET : Z := NONNULL_BIT_OFFSET + 1.
Definition LIST_COUNT_BITS_MASK : Z := u64_shl (Z.ones 64) LIST_COUNT_BITS_OFFSET.

Definition lists_count (w : WrappingTypes) : Z :=
  Z.shiftr (Z.land (wt w) LIST_COUNT_BITS_MASK) LIST_COUNT_BITS_OFFSET mod 2 ^ 8.
Definition inner_is_nonnull (w : WrappingTypes) : bool :=
  negb (Z.land (wt w) NONNULL_BIT_MASK =? 0).

(** Outermost to innermost. *)
Definition iter_list_types (w : WrappingTypes) : list ListType :=
  (λ i : nat, if Z.land (Z.shiftr (wt w) (Z.of_nat i)) 1 =? 0 then List_ else NonNullList)
    <$> seq 0 (Z.to_nat (lists_count w)).

Definition render (w : WrappingTypes) (inner : string) : string :=
  foldr (λ _ acc, "[" +:+ acc) "" (iter_list_types w)
  +:+ inner
  +:+ (if inner_is_nonnull w then "!" else "")
  +:+ foldr (λ l acc, match l with List_ => "]" | NonNullList => "]!" end +:+ acc) ""
        (reverse (iter_list_types w)).

Definition is_nonnull (w : WrappingTypes) : bool :=
  match iter_list_types w with
  | l :: _ => bool_decide (l = NonNullList)
  | [] => inner_is_nonnull w
  end.

Inductive WrapperTypesComparison := NoChange | RemovedNonNull | AddedNonNull | NotCompatible.
Global Instance WrapperTypesComparison_eq_dec : EqDecision WrapperTypesComparison.
Proof. solve_decision. Defined.

(** The two updates of [end_state] in [compare]. *)
Definition on_removed (s : WrapperTypesComparison) : WrapperTypesComparison :=
  match s with NoChange | RemovedNonNull => RemovedNonNull | AddedNonNull | NotCompatible => NotCompatible end.
Definition on_added (s : WrapperTypesComparison) : WrapperTypesComparison :=
  match s with NoChange | AddedNonNull => AddedNonNull | RemovedNonNull | NotCompatible => NotCompatible end.

(** The loop of [compare]: both iterators advance together until both end. *)
Fixpoint compare_loop (src target : list ListType) (end_state : WrapperTypesComparison)
    {struct src} : WrapperTypesComparison :=
  match src, target with
  | [], [] => end_state
  | List_ :: s, List_ :: t | NonNullList :: s, NonNullList :: t => compare_loop s t end_state
  | NonNullList :: s, List_ :: t => compare_loop s t (on_removed end_state)
  | List_ :: s, NonNullList :: t => compare_loop s t (on_added end_state)
  | _ :: s, [] => compare_loop s [] NotCompatible
  | [], _ :: t => NotCompatible
  end.
Definition compare (src target : WrappingTypes) : WrapperTypesComparison :=
  let end_state := compare_loop (iter_list_types src) (iter_list_types target) NoChange in
  match inner_is_nonnull src, inner_is_nonnull target with
  | true, true | false, false => end_state
  | true, false => on_removed end_state
  | false, true => on_added end_state
  end.

Definition set_inner_nonnull (w : WrappingTypes) (nonnull : bool) : WrappingTypes :=
  MkWT (Z.lor (Z.land (wt w) (u64_not NONNULL_BIT_MASK))
              (u64_shl (Z.b2z nonnull) NONNULL_BIT_OFFSET)).

Definition push_list (w : WrappingTypes) (nonnull : bool) : WrappingTypes :=
  let count := lists_count w in
  if LIST_BITS_COUNT <? count then w
  else
    let x := if nonnull then Z.lor (wt w) (u64_shl 1 count) else wt w in
    let new_count := u64_wrap (count + 1) in
    MkWT (Z.lor (Z.land x (u64_not LIST_COUNT_BITS_MASK)) (u64_shl new_count LIST_COUNT_BITS_OFFSET)).

(** The unit tests [roundtrip_nonempty] and [inner_nonnull_between_push_lists]. *)
Example roundtrip_nonempty :
  let w := push_list (push_list (set_inner_nonnull WrappingTypes_default true) false) true in
  (iter_list_types w, inner_is_nonnull w, render w "Int") = ([List_; NonNullList], true, "[[Int!]!]"%string).
Proof. vm_compute. reflexivity. Qed.
Example inner_nonnull_between_push_lists :
  let w := push_list (set_inner_nonnull (push_list WrappingTypes_default false) true) true in
  (iter_list_types w, inner_is_nonnull w, inner_is_nonnull (set_inner_nonnull w false))
  = ([List_; NonNullList], true, false).
Proof. vm_compute. reflexivity. Qed.

(** ** The packed word as a list of wrappers *)
Definition wf (w : WrappingTypes) : Prop :=
  0 ≤ wt w < 2 ^ 64 ∧ lists_count w ≤ 57 ∧
  ∀ i, lists_count w ≤ i < 57 → Z.testbit (wt w) i = false.

Lemma lists_count_eq w : lists_count w = get_field 6 (wt w) 58.
Proof.
  unfold lists_count. change (Z.shiftr _ _) with (get_field 6 (wt w) 58).
  pose proof (get_field_range 6 ltac:(lia) (wt w) 58). apply Z.mod_small. lia.
Qed.
Lemma lists_count_range w : 0 ≤ lists_count w < 64.
Proof. rewrite lists_count_eq. by apply (get_field_range 6). Qed.
Lemma inner_is_nonnull_bit w : inner_is_nonnull w = Z.testbit (wt w) 57.
Proof.
  unfold inner_is_nonnull, NONNULL_BIT_MASK, NONNULL_BIT_OFFSET, LIST_BITS_COUNT, u64_shl.
  rewrite land_bit_0 by lia. apply negb_involutive.
Qed.

Definition list_type_of (b : bool) : ListType := if b then NonNullList else List_.
Lemma iter_list_types_bits w :
  iter_list_types w =
  (λ i : nat, list_type_of (Z.testbit (wt w) (Z.of_nat i))) <$> seq 0 (Z.to_nat (lists_count w)).
Proof.
  apply list_fmap_ext. intros i x _. unfold list_type_of.
  assert (Z.land (Z.shiftr (wt w) (Z.of_nat x)) 1 = Z.b2z (Z.testbit (wt w) (Z.of_nat x))) as ->.
  { change 1 with (Z.ones 1). rewrite Z.land_ones, Z.shiftr_div_pow2 by lia.
    change (2 ^ 1) with 2. rewrite <-Z.testbit_spec' by lia. done. }
  by destruct (Z.testbit _ _).
Qed.
Lemma iter_list_types_ext w w' :
  lists_count w = lists_count w' →
  (∀ i, 0 ≤ i < lists_count w → Z.testbit (wt w) i = Z.testbit (wt w') i) →
  iter_list_types w = iter_list_types w'.
Proof.
  intros Hc Hb. rewrite !iter_list_types_bits, <-Hc. apply list_fmap_ext.
  intros i x Hx. apply lookup_seq in Hx. rewrite Hb by lia. done.
Qed.
Lemma length_iter_list_types w : length (iter_list_types w) = Z.to_nat (lists_count w).
Proof. unfold iter_list_types. by rewrite length_fmap, length_seq. Qed.

Lemma default_wf : wf WrappingTypes_default.
Proof. split_and!; try (vm_compute; congruence). intros i Hi. apply Z.testbit_0_l. Qed.
Lemma default_iter : iter_list_types WrappingTypes_default = [].
Proof. reflexivity. Qed.

Lemma testbit_set_inner w b i : 0 ≤ wt w < 2 ^ 64 → 0 ≤ i →
  Z.testbit (wt (set_inner_nonnull w b)) i = if decide (i = 57) then b else Z.testbit (wt w) i.
Proof.
  intros Hw Hi. unfold set_inner_nonnull, NONNULL_BIT_MASK, NONNULL_BIT_OFFSET, LIST_BITS_COUNT,
    u64_not, u64_shl. cbn [wt]. rewrite Z.lor_spec, testbit_clear_bit by lia.
  destruct b; cbn [Z.b2z].
  - rewrite testbit_shl1 by lia. case_decide; case_bool_decide; try done. apply orb_false_r.
  - rewrite testbit_shl, Z.testbit_0_l, andb_false_r by lia. apply orb_false_r.
Qed.
Lemma set_inner_nonnull_spec w b : wf w →
  wf (set_inner_nonnull w b) ∧ inner_is_nonnull (set_inner_nonnull w b) = b ∧
  iter_list_types (set_inner_nonnull w b) = iter_list_types w.
Proof.
  intros (Hw & Hc & Hz). pose proof (λ i, testbit_set_inner w b i Hw) as Hb.
  assert (lists_count (set_inner_nonnull w b) = lists_count w) as Hcount.
  { rewrite !lists_count_eq. apply get_field_ext; [lia|lia|]. intros i Hi.
    by rewrite Hb, decide_False by lia. }
  pose proof (lists_count_range w).
  refine (conj (conj _ (conj _ _)) (conj _ _)).
  - apply bits_range; [lia|]. intros i Hi. rewrite Hb, decide_False by lia.
    by rewrite (testbit_small (wt w) 64) by lia.
  - lia.
  - intros i Hi. rewrite Hb, decide_False by lia. apply Hz. lia.
  - by rewrite inner_is_nonnull_bit, Hb, decide_True by lia.
  - apply iter_list_types_ext; [done|]. intros i Hi. by rewrite Hb, decide_False by lia.
Qed.

Lemma push_list_spec w b : wf w → lists_count w < 57 →
  wf (push_list w b) ∧ inner_is_nonnull (push_list w b) = inner_is_nonnull w ∧
  iter_list_types (push_list w b) = iter_list_types w ++ [list_type_of b].
Proof.
  intros (Hw & _ & Hz) Hc. pose proof (lists_count_range w) as Hr.
  unfold push_list, LIST_BITS_COUNT.
  destruct (Z.ltb_spec 57 (lists_count w)); [lia|].
  set (x := if b then _ else wt w).
  assert (∀ i, 0 ≤ i → Z.testbit x i = if decide (i = lists_count w) then b else Z.testbit (wt w) i) as Hx.
  { intros i Hi. subst x. destruct b.
    - unfold u64_shl. by rewrite testbit_set_bit by lia.
    - case_decide as E; [|done]. rewrite E. apply Hz. lia. }
  assert (0 ≤ x < 2 ^ 64) as Hx64.
  { apply bits_range; [lia|]. intros i Hi. rewrite Hx, decide_False by lia.
    by rewrite (testbit_small (wt w) 64) by lia. }
  clearbody x. assert (u64_wrap (lists_count w + 1) = lists_count w + 1) as ->.
  { apply Z.mod_small. lia. }
  change (Z.lor _ _) with (set_field 64 6 x 58 (lists_count w + 1)).
  set (w' := MkWT _).
  assert (lists_count w' = lists_count w + 1) as Hcount.
  { rewrite lists_count_eq. apply get_set_field; lia. }
  assert (∀ i, 0 ≤ i < 58 → Z.testbit (wt w') i =
    if decide (i = lists_count w) then b else Z.testbit (wt w) i) as Hb.
  { intros i Hi. subst w'. cbn [wt]. rewrite testbit_set_field, bool_decide_eq_false_2 by lia. apply Hx. lia. }
  assert (0 ≤ wt w' < 2 ^ 64) as Hw' by (apply set_field_range; lia). clearbody w'.
  refine (conj (conj Hw' (conj _ _)) (conj _ _)).
  - lia.
  - intros i Hi. rewrite Hb, decide_False by lia. apply Hz. lia.
  - rewrite !inner_is_nonnull_bit, Hb, decide_False by lia. done.
  - rewrite !iter_list_types_bits, Hcount.
    replace (Z.to_nat (lists_count w + 1)) with (S (Z.to_nat (lists_count w))) by lia.
    rewrite seq_S, fmap_app. cbn [fmap list_fmap]. f_equal.
    + apply list_fmap_ext. intros i j Hj. apply lookup_seq in Hj. by rewrite Hb, decide_False by lia.
    + by rewrite Hb, decide_True by lia.
Qed.

(** ** What [compare] means for values *)

(** The values of a wrapped type, up to the base type: [fits ls inner v] for the
    list nullabilities [ls] from outermost to innermost. *)
Inductive value := VNull | VLeaf | VList (vs : list value).
Fixpoint fits (ls : list ListType) (inner : bool) (v : value) : Prop :=
  match ls, v with
  | [], VNull => inner = false
  | [], VLeaf => True
  | [], VList _ => False
  | l :: _, VNull => l = List_
  | _ :: _, VLeaf => False
  | _ :: ls, VList vs => Forall (fits ls inner) vs
  end.
Definition admits (w : WrappingTypes) (v : value) : Prop :=
  fits (iter_list_types w) (inner_is_nonnull w) v.

(** Nullability order: [weaker] allows [null] wherever the other does. *)
Definition weaker (a b : ListType) : Prop := a = NonNullList → b = NonNullList.
Definition widens (ls : list ListType) (i : bool) (ls' : list ListType) (i' : bool) : Prop :=
  Forall2 (λ a b, weaker b a) ls ls' ∧ (i' = true → i = true).

(** A value without nulls, of the right depth. *)
Fixpoint full (ls : list ListType) : value :=
  match ls with [] => VLeaf | _ :: ls => VList [full ls] end.
Lemma fits_full ls i : fits ls i (full ls).
Proof. induction ls; simpl; [done|]. by repeat constructor. Qed.

Lemma fits_widens ls i ls' i' :
  widens ls i ls' i' ↔ ∀ v, fits ls i v → fits ls' i' v.
Proof.
  split.
  - intros [HF Hi]. induction HF as [|a b ls ls' Hab HF IH]; intros v.
    + destruct v; simpl; try done. destruct i, i'; naive_solver.
    + destruct v as [| |vs]; simpl; [destruct a, b; unfold weaker in *; naive_solver|done|].
      intros Hvs. eapply Forall_impl; eauto.
  - revert ls'. induction ls as [|a ls IH]; intros [|b ls'] Hf.
    + split; [constructor|]. intros ->. destruct i; [done|]. by specialize (Hf VNull eq_refl).
    + by specialize (Hf VLeaf I).
    + by specialize (Hf (full (a :: ls)) (fits_full (a :: ls) i)).
    + destruct (IH ls') as [HF Hi].
      { intros v Hv. specialize (Hf (VList [v])). simpl in Hf. rewrite !Forall_singleton in Hf. auto. }
      split; [|done]. constructor; [|done]. intros ->. destruct a; [|done].
      by specialize (Hf VNull eq_refl).
Qed.

(** The state of [compare] as two facts: source values fit the target, and
    target values fit the source. *)
Definition fwd (s : WrapperTypesComparison) : Prop := s = NoChange ∨ s = RemovedNonNull.
Definition bwd (s : WrapperTypesComparison) : Prop := s = NoChange ∨ s = AddedNonNull.
Lemma fwd_on_removed s : fwd (on_removed s) ↔ fwd s. Proof. unfold fwd. destruct s; naive_solver. Qed.
Lemma fwd_on_added s : ¬ fwd (on_added s). Proof. unfold fwd. destruct s; naive_solver. Qed.
Lemma bwd_on_added s : bwd (on_added s) ↔ bwd s. Proof. unfold bwd. destruct s; naive_solver. Qed.
Lemma bwd_on_removed s : ¬ bwd (on_removed s). Proof. unfold bwd. destruct s; naive_solver. Qed.

Lemma compare_loop_nil s e : compare_loop s [] e = if s is [] then e else NotCompatible.
Proof. revert e. induction s as [|[] s IH]; intros e; [done|simpl; rewrite IH; by destruct s..]. Qed.

Lemma compare_loop_fwd s t e :
  fwd (compare_loop s t e) ↔ fwd e ∧ Forall2 (λ a b, weaker b a) s t.
Proof.
  revert t e. induction s as [|a s IH]; intros [|b t] e.
  - naive_solver.
  - split; [by intros [?|?]|]. intros [_ HF]. by inversion HF.
  - rewrite compare_loop_nil. split; [by intros [?|?]|]. intros [_ HF]. by inversion HF.
  - rewrite Forall2_cons. unfold weaker at 1.
    destruct a, b; simpl; rewrite IH, ?fwd_on_removed; [naive_solver| |naive_solver..].
    split; [by intros [?%fwd_on_added _]|naive_solver].
Qed.
Lemma compare_loop_bwd s t e :
  bwd (compare_loop s t e) ↔ bwd e ∧ Forall2 (λ a b, weaker b a) t s.
Proof.
  revert t e. induction s as [|a s IH]; intros [|b t] e.
  - naive_solver.
  - split; [by intros [?|?]|]. intros [_ HF]. by inversion HF.
  - rewrite compare_loop_nil. split; [by intros [?|?]|]. intros [_ HF]. by inversion HF.
  - rewrite Forall2_cons. unfold weaker at 1.
    destruct a, b; simpl; rewrite IH, ?bwd_on_added; [naive_solver..| |naive_solver].
    split; [by intros [?%bwd_on_removed _]|naive_solver].
Qed.

Lemma compare_fwd src tgt : fwd (compare src tgt) ↔ ∀ v, admits src v → admits tgt v.
Proof.
  unfold admits. rewrite <-fits_widens. unfold widens, compare.
  pose proof (compare_loop_fwd (iter_list_types src) (iter_list_types tgt) NoChange) as HL.
  assert (fwd NoChange) by by left.
  destruct (inner_is_nonnull src), (inner_is_nonnull tgt); rewrite ?fwd_on_removed, ?HL; try tauto.
  split; [by intros ?%fwd_on_added|intros [_ Hi]; by specialize (Hi eq_refl)].
Qed.
Lemma compare_bwd src tgt : bwd (compare src tgt) ↔ ∀ v, admits tgt v → admits src v.
Proof.
  unfold admits. rewrite <-fits_widens. unfold widens, compare.
  pose proof (compare_loop_bwd (iter_list_types src) (iter_list_types tgt) NoChange) as HL.
  assert (bwd NoChange) by by left.
  destruct (inner_is_nonnull src), (inner_is_nonnull tgt); rewrite ?bwd_on_added, ?HL; try tauto.
  split; [by intros ?%bwd_on_removed|intros [_ Hi]; by specialize (Hi eq_refl)].
Qed.

(** ** Properties *)

(** C37. [compare] decides compatibility of values: it answers [RemovedNonNull]
    exactly when every value of the source type is a value of the target type
    but not conversely, [AddedNonNull] in the opposite case, [NoChange] when the
    two types have the same values, and [NotCompatible] exactly when each type
    has a value the other rejects. *)
Theorem compare_values (src tgt : WrappingTypes) :
  let src_to_tgt := ∀ v, admits src v → admits tgt v in
  let tgt_to_src := ∀ v, admits tgt v → admits src v in
  (compare src tgt = NoChange ↔ src_to_tgt ∧ tgt_to_src) ∧
  (compare src tgt = RemovedNonNull ↔ src_to_tgt ∧ ¬ tgt_to_src) ∧
  (compare src tgt = AddedNonNull ↔ ¬ src_to_tgt ∧ tgt_to_src) ∧
  (compare src tgt = NotCompatible ↔ ¬ src_to_tgt ∧ ¬ tgt_to_src).
Proof.
  cbv zeta. rewrite <-compare_fwd, <-compare_bwd. unfold fwd, bwd.
  destruct (compare src tgt); naive_solver.
Qed.

(** The packed word is faithful up to 57 lists: pushing a list appends it to
    the wrappers, keeps the innermost nullability and stays well-formed, and
    setting the innermost nullability changes nothing else. *)
Theorem wrapping_types_operations (w : WrappingTypes) (b : bool) (Hwf : wf w) :
  (wf (set_inner_nonnull w b) ∧ inner_is_nonnull (set_inner_nonnull w b) = b ∧
   iter_list_types (set_inner_nonnull w b) = iter_list_types w) ∧
  ((length (iter_list_types w) < 57)%nat →
   wf (push_list w b) ∧ inner_is_nonnull (push_list w b) = inner_is_nonnull w ∧
   iter_list_types (push_list w b) = iter_list_types w ++ [list_type_of b]).
Proof.
  split; [by apply set_inner_nonnull_spec|]. rewrite length_iter_list_types. intros Hlen.
  apply push_list_spec; [done|]. lia.
Qed.
Lemma wrapping_types_operations_witness :
  iter_list_types (push_list (push_list WrappingTypes_default true) false) = [NonNullList; List_].
Proof.
  destruct (wrapping_types_operations WrappingTypes_default true default_wf) as [_ H1].
  destruct H1 as (Hwf & _ & E1); [vm_compute; lia|].
  destruct (wrapping_types_operations _ false Hwf) as [_ H2].
  destruct H2 as (_ & _ & E2); [rewrite E1; vm_compute; lia|].
  rewrite E2, E1. reflexivity.
Defined.

(** ** Above the documented limit *)
Fixpoint push_n (n : nat) (b : bool) (w : WrappingTypes) : WrappingTypes :=
  match n with O => w | S n => push_n n b (push_list w b) end.

(** The guard of [push_list] lets a 58th list through, one more than the 57
    the layout has bits for: it is written to the bit of the innermost
    nullability, so pushing a non-null list makes a nullable innermost type
    non-null, and the list types then have 58 entries. *)
Theorem push_list_58_overwrites_inner :
  let w := push_n 57 false WrappingTypes_default in
  inner_is_nonnull w = false ∧ inner_is_nonnull (push_list w true) = true ∧
  length (iter_list_types (push_list w true)) = 58%nat.
Proof. vm_compute. done. Qed.
