(* ===== verification/CheckSchema.v ===== *)
(** * [operation-checks]: [schema.rs] and [schema/async_graphql.rs]

    The schema operation checks run against: sorted vectors of fields and
    arguments, searched by binary search, built from a parsed service document.
    The parser ([async-graphql-parser]) is a third-party crate; its document is
    represented by the parts the conversion reads. *)
From S2P Require Import Prelude RustStd WrappingTypes.
Local Open Scope string_scope.
Local Open Scope list_scope.
Local Open Scope nat_scope.

(** ** Parsed service documents *)

(** [types::Type { base, nullable }] with [BaseType::Named] or [BaseType::List]. *)
Inductive AType :=
| ANamed (name : string) (nullable : bool)
| AList (inner : AType) (nullable : bool).

Record AInputValue := MkAInput { ai_name : string; ai_ty : AType; ai_has_default : bool }.
Record AField := MkAField { af_name : string; af_arguments : list AInputValue; af_ty : AType }.
Inductive AKind :=
| AKEnum | AKUnion | AKScalar
| AKObject (fields : list AField)
| AKInterface (fields : list AField)
| AKInputObject (fields : list AInputValue).
Inductive ADefinition :=
| ASchema (query mutation subscription : option string)
| ADirective
| AType_ (name : string) (kind : AKind).
Abbreviation ServiceDocument := (list ADefinition).

(** ** The schema *)
Record SchemaField := MkSchemaField {
  sf_type_name : string;
  sf_field_name : string;
  sf_base_type : string;
  sf_wrappers : WrappingTypes;
}.
Definition sf_is_required (f : SchemaField) : bool := is_nonnull (sf_wrappers f).
Definition render_type (f : SchemaField) : string := render (sf_wrappers f) (sf_base_type f).
(** [impl Ord for SchemaField]: type name, then field name. *)
Definition sf_key (f : SchemaField) : string * string := (sf_type_name f, sf_field_name f).

Record FieldArgument := MkFieldArgument {
  fa_type_name : string;
  fa_field_name : string;
  fa_argument_name : string;
  fa_base_type : string;
  fa_wrappers : WrappingTypes;
  fa_has_default : bool;
}.
(** [FieldArgument::sort_key], also its [Ord]. *)
Definition sort_key (a : FieldArgument) : string * string * string :=
  (fa_type_name a, fa_field_name a, fa_argument_name a).
Definition fa_is_required (a : FieldArgument) : bool := is_nonnull (fa_wrappers a).
Definition is_required_without_default_value (a : FieldArgument) : bool :=
  fa_is_required a && negb (fa_has_default a).

Record Schema := MkSchema {
  fields : list SchemaField;
  field_arguments : list FieldArgument;
  input_objects : gset string;
  query_type_name : string;
  mutation_type_name : string;
  subscription_type_name : string;
}.

(** [FieldId] and [ArgumentId] are indices into the two vectors. *)
Abbreviation FieldId := nat.
Abbreviation ArgumentId := nat.

Definition find_field (s : Schema) (type_name field_name : string) : option FieldId :=
  ok (binary_search_by_key (type_name, field_name) sf_key (fields s)).
Definition find_argument (s : Schema) (p : string * string * string) : option ArgumentId :=
  ok (binary_search_by_key p sort_key (field_arguments s)).
(** [schema[field_id]] and [schema[argument_id]]. *)
Definition index_field (s : Schema) (id : FieldId) : res SchemaField :=
  expect "index out of bounds" (fields s !! id).
Definition index_argument (s : Schema) (id : ArgumentId) : res FieldArgument :=
  expect "index out of bounds" (field_arguments s !! id).

Definition iter_fields (s : Schema) (type_name : string) : list SchemaField :=
  let start := partition_point (λ f, ltb (sf_type_name f) type_name) (fields s) in
  take_while (λ f, eqb (sf_type_name f) type_name) (drop start (fields s)).

Definition iter_field_arguments (s : Schema) (id : FieldId) : res (list (ArgumentId * FieldArgument)) :=
  field ← index_field s id;
  let start := partition_point
    (λ a, ltb (fa_type_name a) (sf_type_name field) && ltb (fa_field_name a) (sf_field_name field))
    (field_arguments s) in
  Ret (imap (λ idx arg, (idx + start, arg))
    (take_while (λ a, eqb (fa_type_name a) (sf_type_name field)
                      && eqb (fa_field_name a) (sf_field_name field))
       (drop start (field_arguments s)))).

(** ** From a service document *)

(** The loop of [extract_type]. *)
Fixpoint extract_loop (t : AType) (w : WrappingTypes) : string * WrappingTypes :=
  match t with
  | ANamed name nullable => (name, set_inner_nonnull w (negb nullable))
  | AList inner nullable => extract_loop inner (push_list w (negb nullable))
  end.
Definition extract_type (t : AType) : string * WrappingTypes := extract_loop t WrappingTypes_default.

(** The mutable locals of [From<ServiceDocument>]. *)
Record Builder := MkBuilder {
  b_fields : list SchemaField;
  b_arguments : list FieldArgument;
  b_inputs : gset string;
  b_query : option string;
  b_mutation : option string;
  b_subscription : option string;
}.
Definition Builder_new : Builder := MkBuilder [] [] ∅ None None None.

Definition push_field (t : string) (name : string) (ty : AType) (b : Builder) : Builder :=
  let '(base, w) := extract_type ty in
  MkBuilder (b_fields b ++ [MkSchemaField t name base w]) (b_arguments b) (b_inputs b)
    (b_query b) (b_mutation b) (b_subscription b).
Definition push_argument (t f : string) (b : Builder) (a : AInputValue) : Builder :=
  let '(base, w) := extract_type (ai_ty a) in
  MkBuilder (b_fields b)
    (b_arguments b ++ [MkFieldArgument t f (ai_name a) base w (ai_has_default a)]) (b_inputs b)
    (b_query b) (b_mutation b) (b_subscription b).
Definition or_else {A} (new old : option A) : option A := match new with Some _ => new | None => old end.

Definition ingest_definition (b : Builder) (d : ADefinition) : Builder :=
  match d with
  | ASchema q m s =>
      MkBuilder (b_fields b) (b_arguments b) (b_inputs b)
        (or_else q (b_query b)) (or_else m (b_mutation b)) (or_else s (b_subscription b))
  | ADirective => b
  | AType_ t k =>
      match k with
      | AKEnum | AKUnion | AKScalar => b
      | AKObject fs =>
          foldl (λ b f, foldl (push_argument t (af_name f)) (push_field t (af_name f) (af_ty f) b)
                          (af_arguments f)) b fs
      | AKInterface fs => foldl (λ b f, push_field t (af_name f) (af_ty f) b) b fs
      | AKInputObject fs =>
          let b := MkBuilder (b_fields b) (b_arguments b) ({[t]} ∪ b_inputs b)
                     (b_query b) (b_mutation b) (b_subscription b) in
          foldl (λ b f, push_field t (ai_name f) (ai_ty f) b) b fs
      end
  end.

Definition schema_from (value : ServiceDocument) : Schema :=
  let b := foldl ingest_definition Builder_new value in
  MkSchema (@sort SchemaField (cmp_on sf_key) (b_fields b))
    (@sort FieldArgument (cmp_on sort_key) (b_arguments b)) (b_inputs b)
    (default "Query" (b_query b)) (default "Mutation" (b_mutation b))
    (default "Subscription" (b_subscription b)).

(** ** The invariant of the two vectors *)
Definition schema_wf (s : Schema) : Prop :=
  sorted_by sf_key (fields s) ∧ sorted_by sort_key (field_arguments s).

Lemma schema_from_wf d : schema_wf (schema_from d).
Proof. split; apply sort_sorted_by. Qed.

Lemma find_field_Some s t f id :
  schema_wf s → find_field s t f = Some id → ∃ fd, fields s !! id = Some fd ∧ sf_key fd = (t, f).
Proof.
  intros [Hs _] Hf. apply binary_search_by_key_ok in Hf as (fd & ? & E%cmp_eq); eauto.
Qed.
Lemma find_field_None s t f :
  schema_wf s → find_field s t f = None ↔ ∀ fd, fd ∈ fields s → sf_key fd ≠ (t, f).
Proof.
  intros [Hs _]. rewrite eq_None_not_Some. unfold find_field.
  rewrite binary_search_by_key_is_Some by done. split.
  - intros Hn fd Hin E. apply Hn. exists fd. split; [done|]. rewrite E. apply cmp_refl.
  - intros Hn (fd & Hin & E%cmp_eq). by eapply Hn.
Qed.
Lemma find_argument_Some s p id :
  schema_wf s → find_argument s p = Some id →
  ∃ a, field_arguments s !! id = Some a ∧ sort_key a = p.
Proof.
  intros [_ Hs] Hf. apply binary_search_by_key_ok in Hf as (fd & ? & E%cmp_eq); eauto.
Qed.
Lemma find_argument_None s p :
  schema_wf s → find_argument s p = None ↔ ∀ a, a ∈ field_arguments s → sort_key a ≠ p.
Proof.
  intros [_ Hs]. rewrite eq_None_not_Some. unfold find_argument.
  rewrite binary_search_by_key_is_Some by done. split.
  - intros Hn fd Hin E. apply Hn. exists fd. split; [done|]. rewrite E. apply cmp_refl.
  - intros Hn (fd & Hin & E%cmp_eq). by eapply Hn.
Qed.

Lemma fields_sorted_by_type s : schema_wf s → sorted_by sf_type_name (fields s).
Proof.
  intros [Hs _]. induction Hs as [|f l Hl IH Hf]; constructor; [done|].
  eapply Forall_impl; [exact Hf|]. intros g. apply (cmp_le_fst (sf_key f) (sf_key g)).
Qed.
Lemma iter_fields_filter s t :
  schema_wf s → iter_fields s t = filter (λ f, sf_type_name f = t) (fields s).
Proof.
  intros Hwf. unfold iter_fields.
  rewrite (key_range_spec sf_type_name (fields s) t) by by apply fields_sorted_by_type.
  apply list_filter_iff. intros f. split; [apply cmp_eq|intros <-; apply cmp_refl].
Qed.

(** ** [extract_type] *)
#[local] Opaque set_inner_nonnull push_list inner_is_nonnull iter_list_types.
Fixpoint base_name (t : AType) : string :=
  match t with ANamed n _ => n | AList t _ => base_name t end.
Fixpoint list_depth (t : AType) : nat :=
  match t with ANamed _ _ => 0 | AList t _ => S (list_depth t) end.
(** The list nullabilities, outermost first, and the innermost nullability. *)
Fixpoint type_lists (t : AType) : list ListType :=
  match t with ANamed _ _ => [] | AList t nullable => list_type_of (negb nullable) :: type_lists t end.
Fixpoint type_inner_nonnull (t : AType) : bool :=
  match t with ANamed _ nullable => negb nullable | AList t _ => type_inner_nonnull t end.
(** GraphQL syntax of a type. *)
Fixpoint print_type (t : AType) : string :=
  match t with
  | ANamed n nullable => n +:+ (if nullable then "" else "!")
  | AList t nullable => "[" +:+ print_type t +:+ (if nullable then "]" else "]!")
  end.

Lemma extract_loop_spec t w :
  wf w → length (iter_list_types w) + list_depth t ≤ 57 →
  let r := extract_loop t w in
  r.1 = base_name t ∧ wf r.2 ∧ iter_list_types r.2 = iter_list_types w ++ type_lists t ∧
  inner_is_nonnull r.2 = type_inner_nonnull t.
Proof.
  revert w. induction t as [n b|t IH b]; intros w Hwf Hlen; cbn in *.
  - destruct (set_inner_nonnull_spec w (negb b) Hwf) as (? & ? & ->). by rewrite app_nil_r.
  - destruct (push_list_spec w (negb b) Hwf) as (Hwf' & Hi & E).
    { rewrite length_iter_list_types in Hlen. lia. }
    destruct (IH (push_list w (negb b)) Hwf') as (? & ? & -> & ?).
    { rewrite E, length_app. simpl. lia. }
    split_and!; try done. by rewrite E, <-(assoc_L (++)).
Qed.

Lemma fold_suffix_snoc (f : ListType → string) ls l :
  foldr (λ l acc, f l +:+ acc) "" (ls ++ [l]) = foldr (λ l acc, f l +:+ acc) "" ls +:+ f l.
Proof.
  induction ls as [|l' ls IH]; simpl.
  - apply append_nil.
  - rewrite IH. apply append_assoc.
Qed.

Lemma print_type_render t :
  print_type t =
  foldr (λ _ acc, "[" +:+ acc) "" (type_lists t) +:+ base_name t
  +:+ (if type_inner_nonnull t then "!" else "")
  +:+ foldr (λ l acc, match l with List_ => "]" | NonNullList => "]!" end +:+ acc) ""
        (reverse (type_lists t)).
Proof.
  induction t as [n b|t IH b]; simpl.
  - change ("" +:+ ?x) with x. rewrite append_nil. by destruct b.
  - rewrite IH, reverse_cons.
    rewrite (fold_suffix_snoc (λ l, match l with List_ => "]" | NonNullList => "]!" end)).
    rewrite !append_assoc. do 2 f_equal. by destruct b.
Qed.

(** ** Properties *)

(** [extract_type] keeps the whole type: for a type of up to 57 nested lists
    it returns the base name together with wrappers that render back to the
    GraphQL syntax of the type. *)
Theorem extract_type_roundtrip (t : AType) (Hdepth : list_depth t ≤ 57) :
  (extract_type t).1 = base_name t ∧
  render (extract_type t).2 (base_name t) = print_type t ∧
  iter_list_types (extract_type t).2 = type_lists t.
Proof.
  destruct (extract_loop_spec t WrappingTypes_default default_wf) as (H1 & H2 & H3 & H4); [done|].
  fold (extract_type t) in *. rewrite default_iter in H3. split_and!; try done.
  unfold render. rewrite H3, H4. by rewrite print_type_render.
Qed.
Lemma extract_type_roundtrip_witness :
  render (extract_type (AList (AList (ANamed "Int" false) true) false)).2 "Int" = "[[Int!]]!".
Proof.
  destruct (extract_type_roundtrip (AList (AList (ANamed "Int" false) true) false)) as (_ & E & _).
  - simpl. lia.
  - exact E.
Defined.

(** Lookups in the sorted vectors of a converted document are complete and
    correct: [find_field] and [find_argument] return the index of an entry with
    the requested key whenever there is one, and [iter_fields] enumerates
    exactly the fields of the type, in order. *)
Theorem schema_lookups (d : ServiceDocument) (t f a : string) :
  let s := schema_from d in
  match find_field s t f with
  | Some id => ∃ fd, index_field s id = Ret fd ∧ sf_key fd = (t, f)
  | None => ∀ fd, fd ∈ fields s → sf_key fd ≠ (t, f)
  end ∧
  match find_argument s (t, f, a) with
  | Some id => ∃ arg, index_argument s id = Ret arg ∧ sort_key arg = (t, f, a)
  | None => ∀ arg, arg ∈ field_arguments s → sort_key arg ≠ (t, f, a)
  end ∧
  iter_fields s t = filter (λ fd, sf_type_name fd = t) (fields s).
Proof.
  cbv zeta. pose proof (schema_from_wf d) as Hwf. split_and!.
  - destruct (find_field _ t f) as [id|] eqn:E; [|by apply find_field_None].
    apply find_field_Some in E as (fd & Hfd & ?); [|done]. exists fd. unfold index_field. by rewrite Hfd.
  - destruct (find_argument _ _) as [id|] eqn:E; [|by apply find_argument_None].
    apply find_argument_Some in E as (fd & Hfd & ?); [|done]. exists fd. unfold index_argument. by rewrite Hfd.
  - by apply iter_fields_filter.
Qed.

(** ** The arguments of a field *)

(** [type Query { a(x: Int! = 1): Int  b(y: Int! = 1): Int }] *)
Definition two_fields : ServiceDocument :=
  let int := ANamed "Int" true in
  let arg n := MkAInput n (ANamed "Int" false) true in
  [AType_ "Query" (AKObject [MkAField "a" [arg "x"] int; MkAField "b" [arg "y"] int])].

(** [iter_field_arguments] searches with a predicate that compares the type
    name and the field name separately instead of lexicographically, so it
    misses arguments: of two fields of the same type, the arguments of the
    second are not enumerated although the schema contains them. *)
Theorem iter_field_arguments_misses :
  let s := schema_from two_fields in
  find_field s "Query" "b" = Some 1 ∧
  iter_field_arguments s 1 = Ret [] ∧
  find_argument s ("Query", "b", "y") = Some 1.
Proof. vm_compute. done. Qed.
