(* ===== verification/Operation.v ===== *)
(** * [operation-checks]: [operation.rs] and [operation/async_graphql.rs]

    An operation is flattened into a vector of (parent selection, selection)
    pairs sorted by parent id. The conversion from the parsed executable
    document allocates the ids with a counter while it walks the selection
    trees. *)
From S2P Require Import Prelude RustStd WrappingTypes CheckSchema.
Local Open Scope string_scope.
Local Open Scope list_scope.
Local Open Scope nat_scope.

(** ** The flattened operation *)
Abbreviation SelectionId := nat.

Record Argument := MkArgument { arg_name : string; enum_literal_value : option string }.
Inductive Selection :=
| SField (field_name : string) (arguments : list Argument) (subselection : option SelectionId)
| SFragmentSpread (fragment_name : string)
| SInlineFragment (on : option string) (selection : SelectionId).
Record Fragment := MkFragment { type_condition : string; fragment_selection : SelectionId }.
Inductive OperationType := Query | Mutation | Subscription.

Record Operation := MkOperation {
  fragments : gmap string Fragment;
  operation_type : OperationType;
  root_selection : SelectionId;
  selections : list (SelectionId * Selection);
  enum_values_in_variable_defaults : list string;
}.

(** ** Parsed executable documents *)
Inductive AValue := AEnum (name : string) | AOtherValue.
Inductive ASelection :=
| ASField (name : string) (arguments : list (string * AValue)) (items : list ASelection)
| ASFragmentSpread (fragment_name : string)
| ASInlineFragment (on : option string) (items : list ASelection).
Record AFragment := MkAFragment { afr_on : string; afr_items : list ASelection }.
Record AVariable := MkAVariable { av_ty : AType; av_default : option AValue }.
Record AOperation := MkAOperation {
  ao_type : OperationType;
  ao_variables : list AVariable;
  ao_items : list ASelection;
}.
(** [ExecutableDocument]: the fragments in the iteration order of their map and
    the operations. *)
Record ExecutableDocument := MkDocument {
  ed_fragments : list (string * AFragment);
  ed_operations : list AOperation;
}.

(** ** Flattening *)

(** The two mutable locals: the id counter and the vector. *)
Abbreviation flat := (nat * list (SelectionId * Selection))%type.

Definition ingest_argument (a : string * AValue) : Argument :=
  MkArgument a.1 match a.2 with AEnum v => Some v | AOtherValue => None end.

(** The loop [for item in items { let item = ingest(..); selections.push((id, item)) }]. *)
Definition ingest_loop (ingest : ASelection → flat → Selection * flat) (id : SelectionId) :=
  fix go (items : list ASelection) (st : flat) : flat :=
    match items with
    | [] => st
    | item :: items =>
        let '(x, st) := ingest item st in
        go items (st.1, st.2 ++ [(id, x)])
    end.

Fixpoint ingest_selection (selection : ASelection) (st : flat) {struct selection} : Selection * flat :=
  match selection with
  | ASField name arguments items =>
      match items with
      | [] => (SField name (ingest_argument <$> arguments) None, st)
      | _ =>
          let id := st.1 in
          let st := ingest_loop ingest_selection id items (S st.1, st.2) in
          (SField name (ingest_argument <$> arguments) (Some id), st)
      end
  | ASFragmentSpread n => (SFragmentSpread n, st)
  | ASInlineFragment on items =>
      let id := st.1 in
      let st := ingest_loop ingest_selection id items (S st.1, st.2) in
      (SInlineFragment on id, st)
  end.
Abbreviation ingest_items := (ingest_loop ingest_selection).

Definition ingest_fragment (acc : gmap string Fragment * flat) (f : string * AFragment)
    : gmap string Fragment * flat :=
  let '(frags, st) := acc in
  let id := st.1 in
  let st := ingest_items id (afr_items f.2) (S st.1, st.2) in
  (<[f.1 := MkFragment (afr_on f.2) id]> frags, st).

Definition enum_default (v : AVariable) : option string :=
  match av_default v with
  | Some (AEnum value) => Some (join "." [(extract_type (av_ty v)).1; value])
  | _ => None
  end.

Definition operation_from (value : ExecutableDocument) : res Operation :=
  let '(frags, st) := foldl ingest_fragment (∅, (0, [])) (ed_fragments value) in
  operation ← unwrap (head (ed_operations value));
  let root := st.1 in
  let st := ingest_items root (ao_items operation) (S st.1, st.2) in
  Ret (MkOperation frags (ao_type operation) root
         (@sort (SelectionId * Selection) (cmp_on fst) st.2)
         (omap enum_default (ao_variables operation))).

(** ** What the flattening preserves *)

(** The selections stored under an id, in order. *)
Definition children (sels : list (SelectionId * Selection)) (id : SelectionId) : list Selection :=
  snd <$> filter (λ e : SelectionId * Selection, e.1 = id) sels.

(** [flattens sels id items]: the arena [sels] stores the selection set [items]
    under [id]. *)
Inductive flattens (sels : list (SelectionId * Selection)) : SelectionId → list ASelection → Prop :=
| flattens_intro id items xs :
    children sels id = xs → Forall2 (flattens_item sels) items xs → flattens sels id items
with flattens_item (sels : list (SelectionId * Selection)) : ASelection → Selection → Prop :=
| flattens_leaf n args :
    flattens_item sels (ASField n args []) (SField n (ingest_argument <$> args) None)
| flattens_field n args items id :
    items ≠ [] → flattens sels id items →
    flattens_item sels (ASField n args items) (SField n (ingest_argument <$> args) (Some id))
| flattens_spread n : flattens_item sels (ASFragmentSpread n) (SFragmentSpread n)
| flattens_inline on items id :
    flattens sels id items → flattens_item sels (ASInlineFragment on items) (SInlineFragment on id).

(** Induction over selection trees. *)
Section asel_ind.
Context (P : ASelection → Prop).
Context (Hfield : ∀ n args items, Forall P items → P (ASField n args items)).
Context (Hspread : ∀ n, P (ASFragmentSpread n)).
Context (Hinline : ∀ on items, Forall P items → P (ASInlineFragment on items)).
Fixpoint ASelection_nested_ind (s : ASelection) : P s :=
  let items_ind := fix go (items : list ASelection) : Forall P items :=
    match items with
    | [] => Forall_nil_2 P
    | x :: xs => Forall_cons_2 P x xs (ASelection_nested_ind x) (go xs)
    end in
  match s with
  | ASField n args items => Hfield n args items (items_ind items)
  | ASFragmentSpread n => Hspread n
  | ASInlineFragment on items => Hinline on items (items_ind items)
  end.
End asel_ind.

Lemma children_app l1 l2 id : children (l1 ++ l2) id = children l1 id ++ children l2 id.
Proof. unfold children. by rewrite filter_app, fmap_app. Qed.
Lemma children_singleton i x id : children [(i, x)] id = if decide (i = id) then [x] else [].
Proof. unfold children. rewrite filter_cons, filter_nil. simpl. by case_decide. Qed.
Lemma children_none l id : Forall (λ e : SelectionId * Selection, e.1 ≠ id) l → children l id = [].
Proof.
  intros HF. unfold children. rewrite filter_none; [done|]. intros e He. by eapply Forall_forall in HF.
Qed.
Lemma children_sort l id : children (@sort (SelectionId * Selection) (cmp_on fst) l) id = children l id.
Proof.
  unfold children. f_equal.
  pose proof (@sort_stable _ (cmp_on fst) _ (id, SFragmentSpread "") l) as Hst.
  rewrite !(list_filter_iff (λ e : SelectionId * Selection, e.1 = id)
    (λ y : SelectionId * Selection, cmp (Ord := cmp_on fst) (id, SFragmentSpread "") y = Eq)); [done|..].
  all: intros [i y]; unfold cmp, cmp_on; simpl; split; [intros ->; apply cmp_refl|by intros ?%cmp_eq].
Qed.

(** The arena agrees with [new] on the ids allocated between [c] and [c']. *)
Definition agrees (sels new : list (SelectionId * Selection)) (c c' : nat) : Prop :=
  ∀ id, c ≤ id < c' → children sels id = children new id.

(** What ingesting an item from counter [c] does: it appends entries with fresh
    ids, and every arena that agrees with them represents the item. *)
Definition ingest_ok (item : ASelection) : Prop :=
  ∀ c sels, ∃ x c' new,
    ingest_selection item (c, sels) = (x, (c', sels ++ new)) ∧ c ≤ c' ∧
    Forall (λ e : SelectionId * Selection, c ≤ e.1 < c') new ∧
    ∀ sels', agrees sels' new c c' → flattens_item sels' item x.

Lemma ingest_items_ok items id c sels :
  Forall ingest_ok items → id < c →
  ∃ c' new, ingest_items id items (c, sels) = (c', sels ++ new) ∧ c ≤ c' ∧
    Forall (λ e : SelectionId * Selection, e.1 = id ∨ c ≤ e.1 < c') new ∧
    ∀ sels', agrees sels' new c c' → Forall2 (flattens_item sels') items (children new id).
Proof.
  intros HF. revert c sels. induction HF as [|item items Hitem HF IH]; intros c sels Hid; simpl.
  { exists c, []. rewrite app_nil_r. by split_and!. }
  destruct (Hitem c sels) as (x & c1 & n1 & -> & Hc1 & Hn1 & Hrep). simpl.
  destruct (IH c1 ((sels ++ n1) ++ [(id, x)])) as (c2 & n2 & -> & Hc2 & Hn2 & Hrest); [lia|].
  exists c2, (n1 ++ [(id, x)] ++ n2). split_and!; [by rewrite <-!(assoc_L (++))|lia| |].
  - rewrite !Forall_app. split_and!; [| |eapply Forall_impl; [exact Hn2|]; simpl; lia].
    + eapply Forall_impl; [exact Hn1|]. simpl. lia.
    + repeat constructor.
  - intros sels' Hag.
    assert (children n1 id = []) as Hn1id.
    { apply children_none. eapply Forall_impl; [exact Hn1|]. simpl. lia. }
    rewrite !children_app, Hn1id, children_singleton, decide_True by done. simpl. constructor.
    + apply Hrep. intros i Hi. rewrite Hag, !children_app, children_singleton, decide_False by lia.
      rewrite (children_none n2); [by rewrite app_nil_r|]. eapply Forall_impl; [exact Hn2|]. simpl. lia.
    + apply Hrest. intros i Hi. rewrite Hag, !children_app, children_singleton, decide_False by lia.
      rewrite (children_none n1); [done|]. eapply Forall_impl; [exact Hn1|]. simpl. lia.
Qed.

(** A selection set allocated at [c]. *)
Lemma ingest_set_ok items c sels :
  Forall ingest_ok items →
  ∃ c' new, ingest_items c items (S c, sels) = (c', sels ++ new) ∧ c < c' ∧
    Forall (λ e : SelectionId * Selection, c ≤ e.1 < c') new ∧
    ∀ sels', agrees sels' new c c' → flattens sels' c items.
Proof.
  intros HF. destruct (ingest_items_ok items c (S c) sels HF) as (c' & new & E & Hc & Hn & Hrep); [lia|].
  exists c', new. split_and!; [done|lia|eapply Forall_impl; [exact Hn|]; simpl; lia|].
  intros sels' Hag. econstructor; [by apply Hag; lia|]. apply Hrep. intros i Hi. apply Hag. lia.
Qed.

Lemma ingest_selection_ok item : ingest_ok item.
Proof.
  induction item as [n args items IH|n|on items IH] using ASelection_nested_ind; intros c sels.
  - destruct items as [|i items].
    { exists (SField n (ingest_argument <$> args) None), c, []. rewrite app_nil_r.
      split_and!; try done. constructor. }
    destruct (ingest_set_ok (i :: items) c sels IH) as (c' & new & E & Hc & Hn & Hrep).
    exists (SField n (ingest_argument <$> args) (Some c)), c', new. cbn [ingest_selection fst snd].
    rewrite E. split_and!; [done|lia|done|]. intros sels' Hag. constructor; [done|auto].
  - exists (SFragmentSpread n), c, []. rewrite app_nil_r. split_and!; try done. intros. constructor.
  - destruct (ingest_set_ok items c sels IH) as (c' & new & E & Hc & Hn & Hrep).
    exists (SInlineFragment on c), c', new. cbn [ingest_selection fst snd].
    rewrite E. split_and!; [done|lia|done|]. intros sels' Hag. constructor. auto.
Qed.
Lemma ingest_all_ok items : Forall ingest_ok items.
Proof. apply Forall_forall. intros. apply ingest_selection_ok. Qed.

(** The invariant of the loop over the fragments. *)
Definition fragments_ok (seen : list (string * AFragment)) (acc : gmap string Fragment * flat) : Prop :=
  let '(frags, (c, sels)) := acc in
  Forall (λ e : SelectionId * Selection, e.1 < c) sels ∧
  ∀ n, match (list_to_map seen : gmap string AFragment) !! n with
       | None => frags !! n = None
       | Some fr => ∃ id, frags !! n = Some (MkFragment (afr_on fr) id) ∧
                          ∀ sels', agrees sels' sels 0 c → flattens sels' id (afr_items fr)
       end.

Lemma agrees_app_l sels' s1 s2 c c' :
  Forall (λ e : SelectionId * Selection, c ≤ e.1) s2 → c ≤ c' → agrees sels' (s1 ++ s2) 0 c' →
  agrees sels' s1 0 c.
Proof.
  intros HF Hc Hag i Hi. rewrite Hag, children_app by lia. rewrite (children_none s2).
  - by rewrite app_nil_r.
  - eapply Forall_impl; [exact HF|]. simpl. lia.
Qed.
Lemma agrees_app_r sels' s1 s2 c c' :
  Forall (λ e : SelectionId * Selection, e.1 < c) s1 → agrees sels' (s1 ++ s2) 0 c' →
  agrees sels' s2 c c'.
Proof.
  intros HF Hag i Hi. rewrite Hag, children_app by lia. rewrite (children_none s1); [done|].
  eapply Forall_impl; [exact HF|]. simpl. lia.
Qed.

Lemma ingest_fragment_ok seen acc f :
  f.1 ∉ seen.*1 → fragments_ok seen acc → fragments_ok (f :: seen) (ingest_fragment acc f).
Proof.
  destruct acc as [frags [c sels]], f as [n fr]. simpl. intros Hn [HF Hlk].
  destruct (ingest_set_ok (afr_items fr) c sels (ingest_all_ok _)) as (c' & new & -> & Hc & Hnew & Hrep).
  split.
  { rewrite Forall_app. split; (eapply Forall_impl; [eassumption|]); simpl; lia. }
  intros m. destruct (decide (n = m)) as [<-|Hne].
  - rewrite !lookup_insert_eq. eexists. split; [done|]. intros sels' Hag. apply Hrep.
    by eapply agrees_app_r.
  - rewrite !lookup_insert_ne by done. specialize (Hlk m).
    destruct (_ !! m) as [fr'|]; [|done]. destruct Hlk as (id & ? & Hfl). exists id. split; [done|].
    intros sels' Hag. apply Hfl. apply (agrees_app_l _ _ new c c'); [|lia|done].
    eapply Forall_impl; [exact Hnew|]. simpl. lia.
Qed.

Lemma ingest_fragments_ok fs seen acc :
  NoDup (fs.*1 ++ seen.*1) → fragments_ok seen acc →
  fragments_ok (reverse fs ++ seen) (foldl ingest_fragment acc fs).
Proof.
  revert seen acc. induction fs as [|f fs IH]; intros seen acc Hnd Hok; [done|].
  simpl in *. apply NoDup_cons in Hnd as [Hf Hnd]. rewrite reverse_cons, <-(assoc_L (++)). simpl. apply IH.
  - simpl. apply NoDup_app in Hnd as (H1 & H2 & H3). apply NoDup_app. split_and!; [done|set_solver|].
    constructor; [set_solver|done].
  - apply ingest_fragment_ok; [set_solver|done].
Qed.

(** What a conversion returns. *)
Lemma operation_from_ok value operation :
  NoDup (ed_fragments value).*1 → head (ed_operations value) = Some operation →
  ∃ op, operation_from value = Ret op ∧ sorted_by fst (selections op) ∧
    flattens (selections op) (root_selection op) (ao_items operation) ∧
    operation_type op = ao_type operation ∧
    enum_values_in_variable_defaults op = omap enum_default (ao_variables operation) ∧
    ∀ n, match (list_to_map (ed_fragments value) : gmap string AFragment) !! n with
         | None => fragments op !! n = None
         | Some fr => ∃ id, fragments op !! n = Some (MkFragment (afr_on fr) id) ∧
                            flattens (selections op) id (afr_items fr)
         end.
Proof.
  intros Hnames Hop.
  unfold operation_from. rewrite Hop. simpl.
  pose proof (ingest_fragments_ok (ed_fragments value) [] (∅, (0, []))) as Hfr.
  destruct (foldl ingest_fragment _ _) as [frags [c sels]].
  destruct Hfr as [HF Hlk].
  { simpl. by rewrite app_nil_r. }
  { split; [constructor|]. intros n. by rewrite !lookup_empty. }
  simpl. destruct (ingest_set_ok (ao_items operation) c sels (ingest_all_ok _))
    as (c' & new & -> & Hc & Hnew & Hrep).
  eexists. split; [done|]. cbn [selections root_selection operation_type fragments enum_values_in_variable_defaults snd].
  set (arena := sort _). assert (agrees arena (sels ++ new) 0 c') as Hag.
  { intros i _. apply children_sort. }
  split_and!; [by apply sort_sorted_by| |done|done|].
  - apply Hrep. by eapply agrees_app_r.
  - intros n. specialize (Hlk n). rewrite app_nil_r in Hlk.
    rewrite (list_to_map_proper (reverse (ed_fragments value)) (ed_fragments value)) in Hlk
      by (rewrite ?reverse_Permutation; done).
    destruct (_ !! n) as [fr|]; [|done]. destruct Hlk as (id & ? & Hfl). exists id. split; [done|].
    apply Hfl. apply (agrees_app_l _ _ new c c'); [|lia|done].
    eapply Forall_impl; [exact Hnew|]. simpl. lia.
Qed.

(** ** Properties *)

(** Flattening an operation loses nothing: the root selection set and the
    selection set of every fragment of the parsed document can be read back
    from the sorted arena, with their items in document order, and the fragment
    table has exactly the fragments of the document with their type conditions. *)
Theorem operation_from_flattens (value : ExecutableDocument) (operation : AOperation)
    (Hnames : NoDup (ed_fragments value).*1) (Hop : head (ed_operations value) = Some operation) :
  ∃ op, operation_from value = Ret op ∧
    flattens (selections op) (root_selection op) (ao_items operation) ∧
    operation_type op = ao_type operation ∧
    ∀ n, match (list_to_map (ed_fragments value) : gmap string AFragment) !! n with
         | None => fragments op !! n = None
         | Some fr => ∃ id, fragments op !! n = Some (MkFragment (afr_on fr) id) ∧
                            flattens (selections op) id (afr_items fr)
         end.
Proof. destruct (operation_from_ok value operation Hnames Hop) as (op & ? & _ & ? & ? & _ & ?). by exists op. Qed.

(** [query { todos(first: ASC) { ...F } } fragment F on Todo { ... on Todo { id } }] *)
Definition sample_document : ExecutableDocument :=
  MkDocument
    [("F", MkAFragment "Todo" [ASInlineFragment (Some "Todo") [ASField "id" [] []]])]
    [MkAOperation Query [] [ASField "todos" [("order", AEnum "ASC")] [ASFragmentSpread "F"]]].
Lemma operation_from_flattens_witness :
  ∃ op, operation_from sample_document = Ret op ∧
        flattens (selections op) (root_selection op)
          [ASField "todos" [("order", AEnum "ASC")] [ASFragmentSpread "F"]].
Proof.
  destruct (operation_from_flattens sample_document
    (MkAOperation Query [] [ASField "todos" [("order", AEnum "ASC")] [ASFragmentSpread "F"]]))
    as (op & E & Hfl & _).
  - apply NoDup_singleton.
  - reflexivity.
  - exists op. split; assumption.
Defined.
