(* ===== verification/FieldUsage.v ===== *)
(** * [operation-checks/src/aggregate_field_usage.rs]

    Usage counters per field, argument, enum value and type condition, and the
    traversal of a flattened operation that fills them. The recursion over
    selection sets is not structural: [fuel] bounds its depth, and running out
    of it is the stack overflow of the unbounded recursion. *)
From Stdlib Require Import ZArith.
From S2P Require Import Prelude RustStd WrappingTypes CheckSchema Operation.
Local Open Scope string_scope.
Local Open Scope list_scope.
Local Open Scope nat_scope.

Record FieldUsage := MkUsage {
  increment : Z;
  count_per_field : gmap FieldId Z;
  count_per_field_argument : gmap ArgumentId Z;
  count_per_enum_value : gmap string Z;
  arguments_with_defaults_left_out_count : gmap ArgumentId Z;
  type_condition_counts : gmap string Z;
}.
Definition FieldUsage_default : FieldUsage := MkUsage 1 ∅ ∅ ∅ ∅ ∅.

(** [u64] addition of a release build. *)
Definition u64_add (a b : Z) : Z := wrap 64 (a + b)%Z.
(** [*map.entry(k).or_insert(0) += n]. *)
Definition add_count {K} `{Countable K} (n : Z) (k : K) (m : gmap K Z) : gmap K Z :=
  <[k := u64_add (default 0%Z (m !! k)) n]> m.
(** [if let Some(count) = map.get_mut(&k) { *count += n } else { map.insert(k, n); }] *)
Definition add_or_insert {K} `{Countable K} (n : Z) (k : K) (m : gmap K Z) : gmap K Z :=
  match m !! k with
  | Some count => <[k := u64_add count n]> m
  | None => <[k := n]> m
  end.

Definition set_increment (u : FieldUsage) (n : Z) : FieldUsage :=
  MkUsage n (count_per_field u) (count_per_field_argument u) (count_per_enum_value u)
    (arguments_with_defaults_left_out_count u) (type_condition_counts u).

(** [HashMap::retain(|_, count| *count >= threshold)] on every map. *)
Definition retain {K} `{Countable K} (threshold : Z) (m : gmap K Z) : gmap K Z :=
  filter (λ e : K * Z, (threshold ≤ e.2)%Z) m.
Definition apply_request_count_threshold (u : FieldUsage) (threshold : Z) : FieldUsage :=
  MkUsage (increment u) (retain threshold (count_per_field u))
    (retain threshold (count_per_field_argument u)) (retain threshold (count_per_enum_value u))
    (retain threshold (arguments_with_defaults_left_out_count u))
    (retain threshold (type_condition_counts u)).

Definition register_field_usage (u : FieldUsage) (id : FieldId) : FieldUsage :=
  MkUsage (increment u) (add_or_insert (increment u) id (count_per_field u))
    (count_per_field_argument u) (count_per_enum_value u)
    (arguments_with_defaults_left_out_count u) (type_condition_counts u).
Definition register_argument_usage (u : FieldUsage) (id : ArgumentId) : FieldUsage :=
  MkUsage (increment u) (count_per_field u)
    (add_or_insert (increment u) id (count_per_field_argument u)) (count_per_enum_value u)
    (arguments_with_defaults_left_out_count u) (type_condition_counts u).
Definition register_enum_value_usage (u : FieldUsage) (enum_and_value : string) : FieldUsage :=
  MkUsage (increment u) (count_per_field u) (count_per_field_argument u)
    (add_count (increment u) enum_and_value (count_per_enum_value u))
    (arguments_with_defaults_left_out_count u) (type_condition_counts u).
Definition register_argument_with_default_left_out (u : FieldUsage) (id : ArgumentId) : FieldUsage :=
  MkUsage (increment u) (count_per_field u) (count_per_field_argument u) (count_per_enum_value u)
    (add_count (increment u) id (arguments_with_defaults_left_out_count u)) (type_condition_counts u).
(** [*usage.type_condition_counts.entry(..).or_insert(0) += 1] *)
Definition register_type_condition (u : FieldUsage) (p : string) : FieldUsage :=
  MkUsage (increment u) (count_per_field u) (count_per_field_argument u) (count_per_enum_value u)
    (arguments_with_defaults_left_out_count u) (add_count 1 p (type_condition_counts u)).

(** One argument of a selected field. *)
Definition aggregate_argument (schema : Schema) (parent field : string) (u : FieldUsage) (a : Argument)
    : res FieldUsage :=
  match find_argument schema (parent, field, arg_name a) with
  | None => Ret u
  | Some id =>
      let u := register_argument_usage u id in
      match enum_literal_value a with
      | None => Ret u
      | Some v =>
          arg ← index_argument schema id;
          Ret (register_enum_value_usage u (join "." [fa_base_type arg; v]))
      end
  end.

(** The schema arguments that are required, have a default and are not given. *)
Definition left_out (arguments : list Argument) (u : FieldUsage) (e : ArgumentId * FieldArgument)
    : FieldUsage :=
  let '(id, schema_arg) := e in
  if forallb (λ a, negb (bool_decide (arg_name a = fa_argument_name schema_arg))) arguments
     && (fa_is_required schema_arg && fa_has_default schema_arg)
  then register_argument_with_default_left_out u id else u.

(** The selections under an id: [partition_point] then [take_while]. *)
Definition selection_set (query : Operation) (id : SelectionId) : list (SelectionId * Selection) :=
  let start := partition_point (λ e, ltb e.1 id) (selections query) in
  take_while (λ e, eqb e.1 id) (drop start (selections query)).

Fixpoint aggregate_field_usage_inner (fuel : nat) (query : Operation) (schema : Schema)
    (selection_id : SelectionId) (parent_type_name : string) (usage : FieldUsage) : res FieldUsage :=
  match fuel with
  | 0 => Panic "stack overflow"
  | S fuel =>
      fold_res (λ usage (e : SelectionId * Selection),
        match e.2 with
        | SField field_name arguments subselection =>
            match find_field schema parent_type_name field_name with
            | None => Ret usage
            | Some field_id =>
                let usage := register_field_usage usage field_id in
                usage ← fold_res (aggregate_argument schema parent_type_name field_name) usage arguments;
                usage ← match subselection with
                        | None => Ret usage
                        | Some sub =>
                            field ← index_field schema field_id;
                            aggregate_field_usage_inner fuel query schema sub (sf_base_type field) usage
                        end;
                schema_args ← iter_field_arguments schema field_id;
                Ret (foldl (left_out arguments) usage schema_args)
            end
        | SFragmentSpread fragment_name =>
            match fragments query !! fragment_name with
            | None => Ret usage
            | Some fr =>
                aggregate_field_usage_inner fuel query schema (fragment_selection fr) (type_condition fr) usage
            end
        | SInlineFragment on selection =>
            let '(usage, parent) :=
              match on with
              | Some on => (register_type_condition usage (join "." [parent_type_name; on]), on)
              | None => (usage, parent_type_name)
              end in
            aggregate_field_usage_inner fuel query schema selection parent usage
        end) usage (selection_set query selection_id)
  end.

Definition root_type (query : Operation) (schema : Schema) : string :=
  match operation_type query with
  | Query => query_type_name schema
  | Mutation => mutation_type_name schema
  | Subscription => subscription_type_name schema
  end.
Definition aggregate_field_usage (fuel : nat) (query : Operation) (schema : Schema) (usage : FieldUsage)
    : res FieldUsage :=
  let usage := foldl register_enum_value_usage usage (enum_values_in_variable_defaults query) in
  aggregate_field_usage_inner fuel query schema (root_selection query) (root_type query schema) usage.

(** ** Usage counting: what [aggregate_field_usage] counts

    The traversal of the flattened operation is described by a list of events,
    given by an inductive relation over the selection trees of the parsed
    document ([walks]). The reference is a second relation, [uses], that only
    knows the fields, arguments and enum values that a document uses. *)

(** ** Events *)
Inductive Event :=
| EField (id : FieldId)
| EArgument (id : ArgumentId)
| EEnumValue (enum_and_value : string)
| ELeftOut (id : ArgumentId)
| ETypeCondition (condition : string).
Global Instance Event_eq_dec : EqDecision Event.
Proof. solve_decision. Defined.

Definition apply_event (u : FieldUsage) (e : Event) : FieldUsage :=
  match e with
  | EField id => register_field_usage u id
  | EArgument id => register_argument_usage u id
  | EEnumValue v => register_enum_value_usage u v
  | ELeftOut id => register_argument_with_default_left_out u id
  | ETypeCondition c => register_type_condition u c
  end.
(** The counter of an event, and what one occurrence adds to it. *)
Definition count_of (u : FieldUsage) (e : Event) : option Z :=
  match e with
  | EField id => count_per_field u !! id
  | EArgument id => count_per_field_argument u !! id
  | EEnumValue v => count_per_enum_value u !! v
  | ELeftOut id => arguments_with_defaults_left_out_count u !! id
  | ETypeCondition c => type_condition_counts u !! c
  end.
Definition weight (u : FieldUsage) (e : Event) : Z :=
  match e with ETypeCondition _ => 1%Z | _ => increment u end.
Definition occurrences (e : Event) (evs : list Event) : nat := length (filter (e =.) evs).

Definition is_u64 (n : Z) : Prop := (0 ≤ n < 2 ^ 64)%Z.
(** Every counter, and the increment, is a [u64]. *)
Definition usage_wf (u : FieldUsage) : Prop :=
  is_u64 (increment u) ∧ ∀ e n, count_of u e = Some n → is_u64 n.

Lemma u64_add_range a b : is_u64 (u64_add a b).
Proof. apply Z.mod_pos_bound. lia. Qed.
Lemma u64_add_0 n : is_u64 n → u64_add 0 n = n.
Proof. intros. apply Z.mod_small. done. Qed.
Lemma add_count_lookup {K} `{Countable K} n (k k' : K) m :
  add_count n k m !! k' = if decide (k = k') then Some (u64_add (default 0%Z (m !! k)) n) else m !! k'.
Proof.
  unfold add_count. case_decide as E; [subst; apply lookup_insert_eq|by apply lookup_insert_ne].
Qed.
Lemma add_or_insert_add_count {K} `{Countable K} n (k : K) m :
  is_u64 n → add_or_insert n k m = add_count n k m.
Proof.
  intros Hn. unfold add_or_insert, add_count. destruct (m !! k); simpl; [done|]. by rewrite u64_add_0.
Qed.

Lemma apply_event_increment u e : increment (apply_event u e) = increment u.
Proof. by destruct e. Qed.
Lemma apply_event_weight u e e' : weight (apply_event u e) e' = weight u e'.
Proof. destruct e'; simpl; by rewrite ?apply_event_increment. Qed.
Lemma apply_event_count u e e' :
  is_u64 (increment u) →
  count_of (apply_event u e) e' =
  if decide (e = e') then Some (u64_add (default 0%Z (count_of u e)) (weight u e)) else count_of u e'.
Proof.
  intros Hi. destruct e, e'; simpl; rewrite ?add_or_insert_add_count by done;
    rewrite ?add_count_lookup; repeat case_decide; simplify_eq/=; done.
Qed.

Lemma foldl_event_increment evs u : increment (foldl apply_event u evs) = increment u.
Proof. revert u. induction evs as [|e evs IH]; intros u; [done|]. simpl. by rewrite IH, apply_event_increment. Qed.

(** Each counter is the sum of its weighted occurrences, modulo [2^64]. *)
Lemma foldl_event_count evs u e :
  is_u64 (increment u) →
  count_of (foldl apply_event u evs) e =
  if decide (e ∈ evs)
  then Some (wrap 64 (default 0 (count_of u e) + weight u e * Z.of_nat (occurrences e evs)))%Z
  else count_of u e.
Proof.
  revert u. induction evs as [|e' evs IH]; intros u Hi.
  { rewrite decide_False; [done|]. apply not_elem_of_nil. }
  change (foldl apply_event u (e' :: evs)) with (foldl apply_event (apply_event u e') evs).
  rewrite IH by by rewrite apply_event_increment.
  rewrite apply_event_weight, apply_event_count by done. unfold occurrences in *. rewrite filter_cons.
  destruct (decide (e' = e)) as [->|Hne].
  - rewrite (decide_True (P := e ∈ e :: evs)) by set_solver. rewrite (decide_True (P := e = e)) by done.
    cbn [length default id]. case_decide as Hin.
    + f_equal. unfold u64_add, wrap. rewrite Z.add_mod_idemp_l by lia. f_equal. lia.
    + rewrite (filter_none _ evs); [|naive_solver]. unfold u64_add. simpl. by rewrite Z.mul_1_r.
  - rewrite (decide_False (P := e = e')) by done.
    rewrite (decide_ext (e ∈ e' :: evs) (e ∈ evs)) by set_solver. done.
Qed.

Lemma retain_lookup {K} `{Countable K} t (m : gmap K Z) k :
  retain t m !! k = (n ← m !! k; if decide (t ≤ n)%Z then Some n else None).
Proof.
  unfold retain. rewrite map_lookup_filter. destruct (m !! k); simpl; [|done]. by repeat case_decide.
Qed.
Lemma threshold_count u t e :
  count_of (apply_request_count_threshold u t) e =
  (n ← count_of u e; if decide (t ≤ n)%Z then Some n else None).
Proof. destruct e; apply retain_lookup. Qed.

(** ** The events of a document *)
Section events.
Context (frs : gmap string AFragment) (s : Schema).

Definition argument_events (parent field : string) (a : string * AValue) : list Event :=
  match find_argument s (parent, field, a.1) with
  | None => []
  | Some id =>
      EArgument id ::
      match a.2, field_arguments s !! id with
      | AEnum v, Some arg => [EEnumValue (join "." [fa_base_type arg; v])]
      | _, _ => []
      end
  end.
(** The arguments of a selected field that the schema enumerates, requires and
    defaults, and that the selection does not give. *)
Definition left_out_events (id : FieldId) (given : list string) : list Event :=
  match iter_field_arguments s id with
  | Ret l => fmap (λ e : ArgumentId * FieldArgument, ELeftOut e.1)
      (filter (λ e : ArgumentId * FieldArgument,
        (fa_argument_name e.2 ∉ given) ∧ (fa_is_required e.2 && fa_has_default e.2) = true) l)
  | Panic _ => []
  end.

(** [walks parent items evs]: the code, traversing the selection set [items] of
    a parent type, registers the events [evs], in this order. *)
Inductive walks : string → list ASelection → list Event → Prop :=
| walks_nil p : walks p [] []
| walks_unknown_field p n args sub items evs :
    find_field s p n = None → walks p items evs → walks p (ASField n args sub :: items) evs
| walks_field p n args sub items id fd evs evs' :
    find_field s p n = Some id → fields s !! id = Some fd →
    walks (sf_base_type fd) sub evs → walks p items evs' →
    walks p (ASField n args sub :: items)
      (EField id :: concat (argument_events p n <$> args) ++ evs ++ left_out_events id args.*1 ++ evs')
| walks_unknown_fragment p n items evs :
    frs !! n = None → walks p items evs → walks p (ASFragmentSpread n :: items) evs
| walks_fragment p n fr items evs evs' :
    frs !! n = Some fr → walks (afr_on fr) (afr_items fr) evs → walks p items evs' →
    walks p (ASFragmentSpread n :: items) (evs ++ evs')
| walks_on p t sub items evs evs' :
    walks t sub evs → walks p items evs' →
    walks p (ASInlineFragment (Some t) sub :: items) (ETypeCondition (join "." [p; t]) :: evs ++ evs')
| walks_inline p sub items evs evs' :
    walks p sub evs → walks p items evs' →
    walks p (ASInlineFragment None sub :: items) (evs ++ evs').

(** [uses parent items evs]: the fields, arguments and enum literals of
    arguments that the selection set uses, those of fragments once per spread,
    [evs] in the order of the text. *)
Inductive uses : string → list ASelection → list Event → Prop :=
| uses_nil p : uses p [] []
| uses_unknown_field p n args sub items evs :
    find_field s p n = None → uses p items evs → uses p (ASField n args sub :: items) evs
| uses_field p n args sub items id fd evs evs' :
    find_field s p n = Some id → fields s !! id = Some fd →
    uses (sf_base_type fd) sub evs → uses p items evs' →
    uses p (ASField n args sub :: items) (EField id :: concat (argument_events p n <$> args) ++ evs ++ evs')
| uses_unknown_fragment p n items evs :
    frs !! n = None → uses p items evs → uses p (ASFragmentSpread n :: items) evs
| uses_fragment p n fr items evs evs' :
    frs !! n = Some fr → uses (afr_on fr) (afr_items fr) evs → uses p items evs' →
    uses p (ASFragmentSpread n :: items) (evs ++ evs')
| uses_inline p on sub items evs evs' :
    uses (default p on) sub evs → uses p items evs' →
    uses p (ASInlineFragment on sub :: items) (evs ++ evs').
End events.

(** The events of the reference: fields, arguments and enum values. *)
Definition is_use (e : Event) : bool :=
  match e with EField _ | EArgument _ | EEnumValue _ => true | ELeftOut _ | ETypeCondition _ => false end.
Definition only_uses (evs : list Event) : list Event := filter (λ e, is_use e = true) evs.
Lemma only_uses_app evs evs' : only_uses (evs ++ evs') = only_uses evs ++ only_uses evs'.
Proof. apply filter_app. Qed.
Lemma only_uses_all evs : Forall (λ e, is_use e = true) evs → only_uses evs = evs.
Proof.
  induction 1 as [|e evs He _ IH]; [done|]. unfold only_uses in *. rewrite filter_cons, decide_True by done. by rewrite IH.
Qed.
Lemma argument_events_uses s p f args :
  Forall (λ e, is_use e = true) (concat (argument_events s p f <$> args)).
Proof.
  induction args as [|a args IH]; [constructor|]. rewrite fmap_cons. cbn [concat]. apply Forall_app. split; [|done].
  unfold argument_events. destruct (find_argument s _) as [id|]; [|constructor]. constructor; [done|].
  destruct a.2, (field_arguments s !! id); repeat constructor.
Qed.
Lemma left_out_events_uses s id given : only_uses (left_out_events s id given) = [].
Proof.
  unfold left_out_events. destruct (iter_field_arguments s id) as [l|]; [|done].
  induction (filter _ l) as [|e l' IH]; [done|]. rewrite fmap_cons. unfold only_uses in *.
  rewrite filter_cons, decide_False by done. exact IH.
Qed.
Lemma walks_uses frs s p items evs : walks frs s p items evs → uses frs s p items (only_uses evs).
Proof.
  induction 1 as [| |p n args sub items id fd evs evs' ? ? ? ? ? ?| | |p t sub items evs evs' ? ? ? ?|p sub items evs evs' ? ? ? ?];
    try (rewrite ?only_uses_app; by econstructor).
  - change (EField id :: ?l) with ([EField id] ++ l). rewrite !only_uses_app, left_out_events_uses.
    rewrite (only_uses_all (concat _)) by apply argument_events_uses. by eapply uses_field.
  - change (ETypeCondition ?c :: ?l) with ([ETypeCondition c] ++ l). rewrite !only_uses_app.
    change (only_uses [ETypeCondition _]) with (@nil Event). cbn [app]. by apply uses_inline.
Qed.
Lemma uses_det frs s p items evs evs' : uses frs s p items evs → uses frs s p items evs' → evs = evs'.
Proof.
  intros H. revert evs'. induction H; intros evs2 Hu; inversion Hu; subst; simplify_eq; auto; try congruence.
  - do 2 f_equal. f_equal; auto.
  - f_equal; auto.
  - f_equal; auto.
Qed.
Lemma only_uses_elem e evs : is_use e = true → e ∈ only_uses evs ↔ e ∈ evs.
Proof. intros He. unfold only_uses. rewrite list_elem_of_filter. tauto. Qed.
Lemma only_uses_occurrences e evs : is_use e = true → occurrences e (only_uses evs) = occurrences e evs.
Proof.
  intros He. unfold occurrences, only_uses. f_equal. rewrite list_filter_filter. apply list_filter_iff.
  intros e'. split; [tauto|]. by intros <-.
Qed.

(** ** The traversal of the flattened operation *)

(** The body of the loop over a selection set. *)
Definition inner_step (fuel : nat) (query : Operation) (schema : Schema) (parent : string)
    (usage : FieldUsage) (x : Selection) : res FieldUsage :=
  match x with
  | SField field_name arguments subselection =>
      match find_field schema parent field_name with
      | None => Ret usage
      | Some field_id =>
          usage ← fold_res (aggregate_argument schema parent field_name)
                    (register_field_usage usage field_id) arguments;
          usage ← match subselection with
                  | None => Ret usage
                  | Some sub =>
                      field ← index_field schema field_id;
                      aggregate_field_usage_inner fuel query schema sub (sf_base_type field) usage
                  end;
          schema_args ← iter_field_arguments schema field_id;
          Ret (foldl (left_out arguments) usage schema_args)
      end
  | SFragmentSpread n =>
      match fragments query !! n with
      | None => Ret usage
      | Some fr =>
          aggregate_field_usage_inner fuel query schema (fragment_selection fr) (type_condition fr) usage
      end
  | SInlineFragment (Some on) sub =>
      aggregate_field_usage_inner fuel query schema sub on
        (register_type_condition usage (join "." [parent; on]))
  | SInlineFragment None sub => aggregate_field_usage_inner fuel query schema sub parent usage
  end.

Lemma selection_set_children query id :
  sorted_by fst (selections query) → snd <$> selection_set query id = children (selections query) id.
Proof.
  intros Hs. unfold selection_set, children. rewrite key_range_spec by done. f_equal.
  apply list_filter_iff. intros e. split; [apply cmp_eq|intros <-; apply cmp_refl].
Qed.
Lemma aggregate_field_usage_inner_S fuel query schema id parent u :
  sorted_by fst (selections query) →
  aggregate_field_usage_inner (S fuel) query schema id parent u =
  fold_res (inner_step fuel query schema parent) u (children (selections query) id).
Proof.
  intros Hs. rewrite <-selection_set_children, fold_res_fmap by done. apply fold_res_ext.
  intros b [i x]. destruct x as [n args sub|n|[t|] sub]; done.
Qed.

Section refinement.
Context (frs : gmap string AFragment) (s : Schema) (query : Operation).
Context (Hs : schema_wf s) (Hq : sorted_by fst (selections query)).
(** The fragment table of the operation represents the document's. *)
Definition represents : Prop :=
  ∀ n, match frs !! n with
       | None => fragments query !! n = None
       | Some fr => ∃ id, fragments query !! n = Some (MkFragment (afr_on fr) id) ∧
                          flattens (selections query) id (afr_items fr)
       end.

Lemma aggregate_argument_events p f u a :
  aggregate_argument s p f u (ingest_argument a) = Ret (foldl apply_event u (argument_events s p f a)).
Proof.
  destruct a as [a v]. unfold aggregate_argument, argument_events. simpl.
  destruct (find_argument s _) as [id|] eqn:E; simpl; [|done].
  apply find_argument_Some in E as (arg & Harg & _); [|done].
  unfold index_argument. rewrite Harg. by destruct v.
Qed.
Lemma aggregate_arguments_events p f u args :
  fold_res (aggregate_argument s p f) u (ingest_argument <$> args) =
  Ret (foldl apply_event u (concat (argument_events s p f <$> args))).
Proof.
  revert u. induction args as [|a args IH]; intros u; [done|].
  rewrite !fmap_cons. cbn [fold_res concat]. rewrite aggregate_argument_events, foldl_app. apply IH.
Qed.

Lemma not_given args (n : string) :
  forallb (λ x, negb (bool_decide (arg_name x = n))) (ingest_argument <$> args) =
  bool_decide (n ∉ args.*1).
Proof.
  induction args as [|[m v] args IH]; [done|]. rewrite !fmap_cons. cbn [forallb]. rewrite IH.
  simpl. repeat case_bool_decide; set_solver.
Qed.
Lemma left_out_fold args u l :
  foldl (left_out (ingest_argument <$> args)) u l =
  foldl apply_event u
    ((λ e : ArgumentId * FieldArgument, ELeftOut e.1) <$>
     (filter (λ e : ArgumentId * FieldArgument,
       (fa_argument_name e.2 ∉ args.*1) ∧ (fa_is_required e.2 && fa_has_default e.2) = true) l)).
Proof.
  revert u. induction l as [|[id a] l IH]; intros u; [done|].
  rewrite filter_cons. cbn [foldl]. rewrite IH. unfold left_out. cbn [fst snd]. rewrite not_given.
  case_decide as Hd.
  - destruct Hd as [? ->]. by rewrite bool_decide_true by done.
  - case_bool_decide; [|done]. cbn [andb]. destruct (_ && _); [tauto|done].
Qed.

#[local] Opaque fa_is_required.
Lemma left_out_events_fold id args fd :
  fields s !! id = Some fd →
  ∃ l, iter_field_arguments s id = Ret l ∧
    ∀ u, foldl (left_out (ingest_argument <$> args)) u l =
         foldl apply_event u (left_out_events s id args.*1).
Proof.
  intros Hfd. unfold left_out_events, iter_field_arguments, index_field. rewrite Hfd. simpl.
  eexists. split; [done|]. intros u. by rewrite left_out_fold.
Qed.

(** Running a subselection, given how its items run. *)
Definition runs (p : string) (xs : list Selection) (evs : list Event) : Prop :=
  ∃ bound, ∀ fuel u, bound ≤ fuel →
    fold_res (inner_step fuel query s p) u xs = Ret (foldl apply_event u evs).
Definition runs_set (p : string) (id : SelectionId) (evs : list Event) : Prop :=
  ∃ bound, ∀ fuel u, bound ≤ fuel →
    aggregate_field_usage_inner fuel query s id p u = Ret (foldl apply_event u evs).

Lemma runs_set_flattens p id items evs :
  flattens (selections query) id items →
  (∀ xs, Forall2 (flattens_item (selections query)) items xs → runs p xs evs) → runs_set p id evs.
Proof.
  inversion_clear 1 as [? ? xs E HF]. intros Hruns. destruct (Hruns xs HF) as [F Hfuel].
  exists (S F). intros [|fuel] u Hle; [lia|]. rewrite aggregate_field_usage_inner_S, E by done.
  apply Hfuel. lia.
Qed.
(** One item, then the rest. *)
Lemma runs_cons p x xs evs evs' :
  (∃ bound, ∀ fuel u, bound ≤ fuel → inner_step fuel query s p u x = Ret (foldl apply_event u evs)) →
  runs p xs evs' → runs p (x :: xs) (evs ++ evs').
Proof.
  intros [F1 H1] [F2 H2]. exists (F1 `max` F2). intros fuel u Hle. simpl.
  rewrite H1 by lia. simpl. rewrite H2 by lia. by rewrite foldl_app.
Qed.

Lemma walks_runs p items evs :
  represents → walks frs s p items evs →
  ∀ xs, Forall2 (flattens_item (selections query)) items xs → runs p xs evs.
Proof.
  intros Hrep. induction 1 as
    [p|p n args sub items evs Hn _ IH|p n args sub items id fd evs evs' Hn Hfd Hsub IHsub _ IH
    |p n items evs Hn _ IH|p n fr items evs evs' Hn _ IHfr _ IH
    |p t sub items evs evs' _ IHsub _ IH|p sub items evs evs' _ IHsub _ IH]; intros xs HF.
  - inversion_clear HF. by exists 0.
  - inversion_clear HF as [|? x ? xs' Hx Hxs]. apply (runs_cons p x xs' []); [|by apply IH].
    exists 0. intros fuel u _. inversion_clear Hx; simpl; by rewrite Hn.
  - inversion_clear HF as [|? x ? xs' Hx Hxs].
    rewrite !app_comm_cons, !(assoc_L (++)). apply runs_cons; [|by apply IH].
    destruct (left_out_events_fold id args fd Hfd) as (l & Hl & Hfold).
    assert (∃ sub', x = SField n (ingest_argument <$> args) sub' ∧
      match sub' with None => evs = [] | Some i => runs_set (sf_base_type fd) i evs end) as (sub' & -> & Hs').
    { inversion Hx; subst; eexists; (split; [done|]); [by inversion Hsub|].
      by eapply runs_set_flattens. }
    destruct sub' as [i|].
    + destruct Hs' as [F HF]. exists F. intros fuel u Hle. simpl. rewrite Hn, aggregate_arguments_events. simpl.
      unfold index_field. rewrite Hfd. simpl. rewrite HF by done. simpl. rewrite Hl. simpl.
      by rewrite Hfold, !foldl_app.
    + subst. exists 0. intros fuel u _. simpl. rewrite Hn, aggregate_arguments_events. simpl.
      rewrite Hl. simpl. by rewrite Hfold, !foldl_app.
  - inversion_clear HF as [|? x ? xs' Hx Hxs]. apply (runs_cons p x xs' []); [|by apply IH].
    exists 0. intros fuel u _. inversion_clear Hx. simpl. specialize (Hrep n). rewrite Hn in Hrep.
    by rewrite Hrep.
  - inversion_clear HF as [|? x ? xs' Hx Hxs]. apply runs_cons; [|by apply IH].
    inversion_clear Hx. specialize (Hrep n). rewrite Hn in Hrep. destruct Hrep as (i & Hi & Hfl).
    destruct (runs_set_flattens _ _ _ _ Hfl IHfr) as [F HF]. exists F. intros fuel u Hle. simpl.
    rewrite Hi. by apply HF.
  - inversion_clear HF as [|? x ? xs' Hx Hxs]. rewrite app_comm_cons. apply runs_cons; [|by apply IH].
    inversion_clear Hx as [| | |? ? i Hfl]. destruct (runs_set_flattens _ _ _ _ Hfl IHsub) as [F HF].
    exists F. intros fuel u Hle. simpl. by rewrite HF.
  - inversion_clear HF as [|? x ? xs' Hx Hxs]. apply runs_cons; [|by apply IH].
    inversion_clear Hx as [| | |? ? i Hfl]. destruct (runs_set_flattens _ _ _ _ Hfl IHsub) as [F HF].
    exists F. intros fuel u Hle. by apply HF.
Qed.
End refinement.

(** ** Termination *)

(** The fragments a selection set spreads, at any depth. *)
Fixpoint spreads (x : ASelection) : list string :=
  match x with
  | ASField _ _ items => concat (spreads <$> items)
  | ASFragmentSpread n => [n]
  | ASInlineFragment _ items => concat (spreads <$> items)
  end.
(** The spreads between the fragments have no cycle: [rank] decreases. *)
Definition acyclic (frs : gmap string AFragment) (rank : string → nat) : Prop :=
  map_Forall (λ n fr, Forall (λ m, rank m < rank n) (concat (spreads <$> afr_items fr))) frs.

Section termination.
Context (frs : gmap string AFragment) (s : Schema) (rank : string → nat).
Context (Hs : schema_wf s) (Hac : acyclic frs rank).

Definition walks_some (p : string) (items : list ASelection) : Prop := ∃ evs, walks frs s p items evs.
(** Every item that only spreads fragments below [k] can be traversed. *)
Definition item_ok (k : nat) (x : ASelection) : Prop :=
  Forall (λ m, rank m < k) (spreads x) →
  ∀ p items, walks_some p items → walks_some p (x :: items).

Lemma items_walk k items p :
  Forall (item_ok k) items → Forall (λ m, rank m < k) (concat (spreads <$> items)) →
  walks_some p items.
Proof.
  induction 1 as [|x items Hx _ IH]; intros HF; [exists []; constructor|].
  rewrite fmap_cons in HF. simpl in HF. apply Forall_app in HF as [??]. apply Hx; [done|]. by apply IH.
Qed.

Lemma item_walks k x : item_ok k x.
Proof.
  revert x. induction k as [k IHk] using lt_wf_ind. intros x.
  induction x as [n args sub IH|n|on sub IH] using ASelection_nested_ind; intros Hsp p items [evs' Hw].
  - destruct (find_field s p n) as [id|] eqn:E; [|eexists; by constructor].
    destruct (find_field_Some _ _ _ _ Hs E) as (fd & Hfd & _).
    destruct (items_walk k sub (sf_base_type fd) IH Hsp) as [evs ?]. eexists. by econstructor.
  - destruct (frs !! n) as [fr|] eqn:E; [|eexists; by constructor].
    assert (walks_some (afr_on fr) (afr_items fr)) as [evs ?]; [|eexists; by econstructor].
    apply (items_walk (rank n)).
    + apply Forall_forall. intros y _. apply IHk. by inversion_clear Hsp.
    + apply (Hac n fr E).
  - destruct on as [t|].
    + destruct (items_walk k sub t IH Hsp) as [evs ?]. eexists. by econstructor.
    + destruct (items_walk k sub p IH Hsp) as [evs ?]. eexists. by econstructor.
Qed.
Lemma walks_total p items : walks_some p items.
Proof.
  apply (items_walk (S (list_max (rank <$> concat (spreads <$> items))))).
  - apply Forall_forall. intros x _. apply item_walks.
  - apply Forall_forall. intros m Hm. apply Nat.lt_succ_r.
    pose proof (proj1 (list_max_le (rank <$> concat (spreads <$> items)) _) (le_n _)) as HF.
    rewrite Forall_forall in HF. apply HF. by apply list_elem_of_fmap_2.
Qed.
End termination.

(** ** Several operations *)

(** Each operation is aggregated with its request count as increment. *)
Definition aggregate_history (u : FieldUsage) (history : list (Z * list Event)) : FieldUsage :=
  foldl (λ u h, foldl apply_event (set_increment u h.1) h.2) u history.
Definition total (e : Event) (history : list (Z * list Event)) : Z :=
  foldr (λ h acc, h.1 * Z.of_nat (occurrences e h.2) + acc)%Z 0%Z history.
Definition is_type_condition (e : Event) : bool :=
  match e with ETypeCondition _ => true | _ => false end.

Lemma occurrences_zero e evs : e ∉ evs → occurrences e evs = 0.
Proof. intros Hin. unfold occurrences. rewrite filter_none; [done|]. naive_solver. Qed.
Lemma set_increment_count u n e : count_of (set_increment u n) e = count_of u e.
Proof. by destruct e. Qed.
Lemma total_nonneg e history : Forall (λ h, is_u64 h.1) history → (0 ≤ total e history)%Z.
Proof. induction 1 as [|h history [? ?] _ IH]; simpl; lia. Qed.

Lemma aggregate_history_count e history u c :
  is_type_condition e = false → Forall (λ h, is_u64 h.1) history →
  default 0%Z (count_of u e) = c → (0 ≤ c)%Z → (c + total e history < 2 ^ 64)%Z →
  default 0%Z (count_of (aggregate_history u history) e) = (c + total e history)%Z ∧
  (is_Some (count_of (aggregate_history u history) e) ↔
   is_Some (count_of u e) ∨ Exists (λ h, e ∈ h.2) history).
Proof.
  intros He HF. revert u c. induction HF as [|[n evs] history Hn HF IH]; intros u c Hc Hc0 Hlt; simpl.
  { rewrite Exists_nil, Z.add_0_r. tauto. }
  simpl in Hn, Hlt. pose proof (total_nonneg e history HF).
  assert (default 0%Z (count_of (foldl apply_event (set_increment u n) evs) e) =
          (c + n * Z.of_nat (occurrences e evs))%Z ∧
          (is_Some (count_of (foldl apply_event (set_increment u n) evs) e) ↔
           is_Some (count_of u e) ∨ e ∈ evs)) as [Hd Hi].
  { rewrite foldl_event_count, set_increment_count, Hc by done.
    assert (weight (set_increment u n) e = n) as -> by by destruct e.
    case_decide as Hin.
    - split; [|naive_solver]. apply Z.mod_small. unfold is_u64 in Hn. lia.
    - rewrite Hc, occurrences_zero by done. split; [lia|tauto]. }
  destruct (IH _ _ Hd) as [H1 H2]; [unfold is_u64 in Hn; lia|lia|].
  unfold aggregate_history in *. rewrite H1, H2, Hi, Exists_cons. split; [lia|tauto].
Qed.

(** ** Properties *)

(** C19. [aggregate_field_usage] counts the fields, the arguments and the enum
    values that a document uses: on an operation whose fragment spreads have no
    cycle the traversal of the flattened operation terminates, and the counter
    of each field, argument and enum value holds its initial value plus the
    increment times the number of times the parsed document uses it, as a field
    or an argument of the schema's tables, as an enum literal given to an
    argument or as one of the defaults of the variables, modulo [2^64]; counters
    of what is not used are unchanged. Names of fragments are unique. The two
    other counters, of arguments left out and of type conditions, are not part
    of the statement: see [iter_field_arguments_misses] and
    [type_condition_ignores_increment]. *)
Theorem aggregate_field_usage_counts (doc : ExecutableDocument) (d : ServiceDocument)
    (operation : AOperation) (rank : string → nat) (u : FieldUsage)
    (Hnames : NoDup (ed_fragments doc).*1) (Hop : head (ed_operations doc) = Some operation)
    (Hac : acyclic (list_to_map (ed_fragments doc)) rank) (Hu : is_u64 (increment u)) :
  let s := schema_from d in
  ∃ op evs bound,
    operation_from doc = Ret op ∧
    uses (list_to_map (ed_fragments doc)) s (root_type op s) (ao_items operation) evs ∧
    let used := (EEnumValue <$> omap enum_default (ao_variables operation)) ++ evs in
    ∀ fuel, bound ≤ fuel → ∃ u', aggregate_field_usage fuel op s u = Ret u' ∧
      ∀ e, is_use e = true → count_of u' e =
        if decide (e ∈ used)
        then Some (wrap 64 (default 0 (count_of u e) + increment u * Z.of_nat (occurrences e used)))%Z
        else count_of u e.
Proof.
  intros s. pose proof (schema_from_wf d) as Hwf.
  destruct (operation_from_ok doc operation Hnames Hop) as (op & Hconv & Hsort & Hfl & _ & Hen & Hfr).
  destruct (walks_total _ s rank Hwf Hac (root_type op s) (ao_items operation)) as [evs Hw].
  destruct (runs_set_flattens s op Hsort (root_type op s) _ _ evs Hfl) as [bound Hb].
  { by eapply (walks_runs _ s op Hwf Hsort). }
  exists op, (only_uses evs), bound. split_and!; [done|by apply walks_uses|]. intros used fuel Hle.
  set (registered := (EEnumValue <$> omap enum_default (ao_variables operation)) ++ evs).
  assert (used = only_uses registered) as Hused.
  { unfold registered. rewrite only_uses_app, (only_uses_all (EEnumValue <$> _)); [done|].
    apply Forall_forall. by intros e (v & -> & _)%list_elem_of_fmap. }
  exists (foldl apply_event u registered). split.
  - unfold aggregate_field_usage, registered. rewrite Hen, Hb by done. rewrite foldl_app.
    by rewrite (foldl_fmap _ _ _ EEnumValue).
  - intros e He. rewrite Hused, only_uses_occurrences by done.
    rewrite (decide_ext _ _ _ _ (only_uses_elem e registered He)).
    replace (increment u) with (weight u e) by (by destruct e). by apply foldl_event_count.
Qed.

(** After any sequence of operations, each aggregated with its own request
    count, [apply_request_count_threshold] keeps a field, an argument, an enum
    value or a left-out argument exactly when the requests that use it, counted
    once per use, reach the (positive) threshold, as long as the count fits in
    64 bits. *)
Theorem threshold_keeps_frequent (e : Event) (history : list (Z * list Event)) (threshold : Z)
    (Hkind : is_type_condition e = false) (Hn : Forall (λ h, is_u64 h.1) history)
    (Hfit : (total e history < 2 ^ 64)%Z) (Ht : (0 < threshold)%Z) :
  count_of (apply_request_count_threshold (aggregate_history FieldUsage_default history) threshold) e =
  if decide (threshold ≤ total e history)%Z then Some (total e history) else None.
Proof.
  destruct (aggregate_history_count e history FieldUsage_default 0%Z Hkind Hn) as [Hc _]; [|lia|lia|].
  { destruct e; simpl; by rewrite lookup_empty. }
  rewrite threshold_count. destruct (count_of _ e) as [n|]; simpl in *; subst.
  - by repeat case_decide.
  - by rewrite decide_False by lia.
Qed.

(** ** Cases *)

(** [type Query { todos(order: Order): Todo }  type Todo { id: ID }] *)
Definition todo_service : ServiceDocument :=
  [AType_ "Query" (AKObject [MkAField "todos" [MkAInput "order" (ANamed "Order" true) false] (ANamed "Todo" true)]);
   AType_ "Todo" (AKObject [MkAField "id" [] (ANamed "ID" true)])].

(** What the sample document uses: two fields, an argument and an enum value. *)
Lemma sample_uses :
  uses (list_to_map (ed_fragments sample_document)) (schema_from todo_service) "Query"
    [ASField "todos" [("order", AEnum "ASC")] [ASFragmentSpread "F"]]
    [EField 0; EArgument 0; EEnumValue "Order.ASC"; EField 1].
Proof.
  assert (concat (argument_events (schema_from todo_service) "Query" "todos" <$> [("order", AEnum "ASC")]) =
    [EArgument 0; EEnumValue "Order.ASC"]) as E by (vm_compute; reflexivity).
  pose proof (uses_field (list_to_map (ed_fragments sample_document)) (schema_from todo_service) "Query" "todos"
    [("order", AEnum "ASC")] [ASFragmentSpread "F"] [] 0 (MkSchemaField "Query" "todos" "Todo" WrappingTypes_default) [EField 1] []) as Hf.
  rewrite E in Hf. apply Hf;
    [vm_compute; reflexivity|vm_compute; reflexivity| |constructor].
  eapply (uses_fragment _ _ _ "F" _ [] [EField 1] []); [reflexivity| |constructor].
  eapply (uses_inline _ _ _ _ _ [] [EField 1] []); [|constructor].
  eapply (uses_field _ _ "Todo" "id" [] _ [] 1 _ [] []);
    [vm_compute; reflexivity|vm_compute; reflexivity|constructor|constructor].
Qed.
Lemma aggregate_field_usage_counts_witness :
  ∃ op bound, operation_from sample_document = Ret op ∧
    ∀ fuel, bound ≤ fuel → ∃ u',
      aggregate_field_usage fuel op (schema_from todo_service) (set_increment FieldUsage_default 20) = Ret u' ∧
      count_of u' (EField 1) = Some 20%Z ∧ count_of u' (EArgument 0) = Some 20%Z ∧
      count_of u' (EEnumValue "Order.DESC") = None.
Proof.
  destruct (aggregate_field_usage_counts sample_document todo_service
    (MkAOperation Query [] [ASField "todos" [("order", AEnum "ASC")] [ASFragmentSpread "F"]])
    (λ _, 0) (set_increment FieldUsage_default 20)) as (op & evs & bound & Hop & Hevs & Hrun).
  - apply NoDup_singleton.
  - reflexivity.
  - intros n fr Hfr. cbn in Hfr. apply lookup_insert_Some in Hfr as [[_ <-]|[_ Hfr]]; [constructor|].
    by rewrite lookup_empty in Hfr.
  - split; vm_compute; congruence.
  - exists op, bound. split; [exact Hop|]. intros fuel Hle. destruct (Hrun fuel Hle) as (u' & E & Hcount).
    injection Hop as <-. rewrite (uses_det _ _ _ _ _ _ Hevs sample_uses) in Hcount.
    exists u'. split; [exact E|]. split; [|split].
    + rewrite Hcount by reflexivity. vm_compute. reflexivity.
    + rewrite Hcount by reflexivity. vm_compute. reflexivity.
    + rewrite Hcount by reflexivity. vm_compute. reflexivity.
Defined.

Lemma threshold_keeps_frequent_witness :
  count_of (apply_request_count_threshold
    (aggregate_history FieldUsage_default [(20%Z, [EField 0; EField 1]); (5%Z, [EField 1])]) 25) (EField 1)
  = Some 25%Z.
Proof.
  rewrite (threshold_keeps_frequent (EField 1) [(20%Z, [EField 0; EField 1]); (5%Z, [EField 1])] 25).
  - vm_compute. reflexivity.
  - reflexivity.
  - repeat constructor; vm_compute; congruence.
  - vm_compute. reflexivity.
  - lia.
Defined.

(** The counters of the sample document. *)
Example sample_usage :
  (op ← operation_from sample_document;
   u ← aggregate_field_usage 5 op (schema_from todo_service) FieldUsage_default;
   Ret (map_to_list (count_per_field u), map_to_list (count_per_enum_value u),
        map_to_list (type_condition_counts u)))
  = Ret ([(1, 1%Z); (0, 1%Z)], [("Order.ASC", 1%Z)], [("Todo.Todo", 1%Z)]).
Proof. vm_compute. reflexivity. Qed.

(** Type conditions are counted by one per use whatever the increment: an
    operation aggregated with 20 requests leaves its field above a threshold of
    10 requests but loses its type condition. *)
Theorem type_condition_ignores_increment :
  let s := schema_from todo_service in
  ∃ op u, operation_from sample_document = Ret op ∧
    aggregate_field_usage 5 op s (set_increment FieldUsage_default 20) = Ret u ∧
    let u' := apply_request_count_threshold u 10 in
    count_per_field u' !! 1 = Some 20%Z ∧
    type_condition_counts u !! "Todo.Todo" = Some 1%Z ∧ type_condition_counts u' !! "Todo.Todo" = None.
Proof. eexists _, _. split; [vm_compute; reflexivity|]. split; [vm_compute; reflexivity|]. vm_compute. done. Qed.

(** [query { ...F }  fragment F on Query { ...F }] *)
Definition cyclic_document : ExecutableDocument :=
  MkDocument [("F", MkAFragment "Query" [ASFragmentSpread "F"])]
    [MkAOperation Query [] [ASFragmentSpread "F"]].
Lemma cyclic_inner op s p u fuel :
  operation_from cyclic_document = Ret op →
  aggregate_field_usage_inner fuel op s 0 p u = Panic "stack overflow".
Proof.
  intros [= <-]. revert p u. induction fuel as [|fuel IH]; intros p u; [done|].
  rewrite aggregate_field_usage_inner_S by (vm_compute; repeat constructor; done).
  change (children _ _) with [SFragmentSpread "F"]. cbn [fold_res inner_step].
  change (fragments _ !! "F") with (Some (MkFragment "Query" 0)). cbn [fragment_selection type_condition].
  by rewrite IH.
Qed.
(** Without the acyclicity of fragment spreads the recursion of
    [aggregate_field_usage] never returns: a fragment that spreads itself
    exhausts every stack. *)
Theorem cyclic_fragment_diverges (fuel : nat) (s : Schema) (u : FieldUsage) :
  ∃ op, operation_from cyclic_document = Ret op ∧
    aggregate_field_usage fuel op s u = Panic "stack overflow".
Proof.
  eexists. split; [reflexivity|]. unfold aggregate_field_usage. destruct fuel as [|fuel]; [done|].
  rewrite aggregate_field_usage_inner_S by (vm_compute; repeat constructor; done).
  change (children _ _) with [SFragmentSpread "F"]. cbn [fold_res inner_step].
  change (fragments _ !! "F") with (Some (MkFragment "Query" 0)). cbn [fragment_selection type_condition].
  by rewrite (cyclic_inner _ _ _ _ _ eq_refl).
Qed.
