(* ===== verification/Check.v ===== *)
(** * [operation-checks]: [check.rs] and [check/rules.rs]

    The checks of a schema diff against the usage of the source schema. Paths
    are strings that the rules take apart again; the set of input types in use
    is computed on first demand and kept for the following changes
    ([used_input_types], threaded here as an explicit cache). *)
From Stdlib Require Import ZArith Ascii.
From S2P Require Import Prelude RustStd Change WrappingTypes CheckSchema Operation FieldUsage.
Local Open Scope string_scope.
Local Open Scope list_scope.
Local Open Scope nat_scope.

Inductive Severity := Warning | Error.
Global Instance Severity_eq_dec : EqDecision Severity.
Proof. solve_decision. Defined.
Record CheckDiagnostic := MkDiagnostic { message : string; severity : Severity }.

Record CheckParams := MkParams {
  source : Schema;
  target : Schema;
  check_diff : list Change;
  field_usage : FieldUsage;
}.

(** ** Lookups by path *)

(** [path.split('.')] followed by [.next().unwrap()] three times. *)
Definition next3 (path : string) : res (string * string * string) :=
  match str_split "."%char path with
  | a :: b :: c :: _ => Ret (a, b, c)
  | _ => unwrap None
  end.

Definition field_is_used (p : CheckParams) (type_and_field : string) : res bool :=
  '(type_name, field_name) ← unwrap (split_once "."%char type_and_field);
  Ret match CheckSchema.find_field (source p) type_name field_name with
      | None => false
      | Some id => bool_decide (is_Some (count_per_field (field_usage p) !! id))
      end.
Definition find_argument_path (p : CheckParams) (path : string) : res (option ArgumentId) :=
  key ← next3 path; Ret (CheckSchema.find_argument (source p) key).
Definition argument_is_used (p : CheckParams) (path : string) : res bool :=
  id ← find_argument_path p path;
  Ret match id with
      | None => false
      | Some id => bool_decide (is_Some (count_per_field_argument (field_usage p) !! id))
      end.
Definition enum_value_is_used (p : CheckParams) (path : string) : bool :=
  bool_decide (is_Some (count_per_enum_value (field_usage p) !! path)).
Definition argument_is_left_out (p : CheckParams) (path : string) : res bool :=
  id ← find_argument_path p path;
  Ret match id with
      | None => false
      | Some id => bool_decide (is_Some (arguments_with_defaults_left_out_count (field_usage p) !! id))
      end.

Definition trim_to_field_path (path : string) : res string :=
  match match_indices "."%char path with
  | [] => Panic "Expected field path, but no dot separator found."
  | _ :: idx :: _ => str_slice path 0 idx
  | [_] => Ret path
  end.

(** ** Input types in use *)

(** [find_used_input_types_rec]; the fuel bounds the depth of the recursion. *)
Fixpoint find_used_input_types_rec (fuel : nat) (src : Schema) (root_type : string)
    (used_input_types : gset string) : res (gset string) :=
  match fuel with
  | 0 => Panic "stack overflow"
  | S fuel =>
      if decide (root_type ∈ used_input_types) then Ret used_input_types
      else fold_res (λ used (field : SchemaField), find_used_input_types_rec fuel src (sf_base_type field) used)
             ({[root_type]} ∪ used_input_types) (iter_fields src root_type)
  end.
(** The keys of [count_per_field_argument] come in the order of the hash map. *)
Definition find_used_input_types_in_order (p : CheckParams) (keys : list ArgumentId) : res (gset string) :=
  fold_res (λ used id,
    arg ← index_argument (source p) id;
    find_used_input_types_rec (S (length (fields (source p)))) (source p) (fa_base_type arg) used) ∅ keys.
Definition find_used_input_types (p : CheckParams) : res (gset string) :=
  find_used_input_types_in_order p (map_to_list (count_per_field_argument (field_usage p))).*1.

(** [used_input_types.get_or_insert_with(|| find_used_input_types(..)).contains(type_name)] *)
Abbreviation Cache := (option (gset string)).
Definition type_in_used (p : CheckParams) (cache : Cache) (type_name : string) : res (bool * Cache) :=
  used ← match cache with Some used => Ret used | None => find_used_input_types p end;
  Ret (bool_decide (type_name ∈ used), Some used).

(** ** The rules *)
Definition remove_field (p : CheckParams) (change : Change) (cache : Cache)
    : res (option CheckDiagnostic * Cache) :=
  '(type_name, field_name) ← unwrap (split_once "."%char (path change));
  if decide (type_name ∈ input_objects (source p)) then
    '(type_is_used, cache) ← type_in_used p cache type_name;
    if negb type_is_used then Ret (None, cache)
    else
      field_is_required ←
        match CheckSchema.find_field (source p) type_name field_name with
        | Some id => field ← index_field (source p) id; Ret (sf_is_required field)
        | None => Ret false
        end;
      let diagnostic :=
        if field_is_required : bool then
          MkDiagnostic ("The field `" +:+ path change +:+ "` was removed but it is still used by clients.") Error
        else
          MkDiagnostic ("The field `" +:+ path change +:+ "` was removed but it may still be used by clients.")
            Warning in
      Ret (Some diagnostic, cache)
  else
    used ← field_is_used p (path change);
    Ret (if used : bool then
           Some (MkDiagnostic ("The field `" +:+ path change +:+ "` was removed but it is still used by clients.")
                   Error)
         else None, cache).

Definition add_field_argument (p : CheckParams) (change : Change) : res (option CheckDiagnostic) :=
  field_path ← trim_to_field_path (path change);
  used ← field_is_used p field_path;
  if negb used then Ret None
  else
    key ← next3 (path change);
    argument_id ← expect "Broken invariant: added argument not found in target schema."
                    (CheckSchema.find_argument (target p) key);
    arg ← index_argument (target p) argument_id;
    Ret (if negb (is_required_without_default_value arg) then None
         else Some (MkDiagnostic
           ("The new required argument at `" +:+ path change
            +:+ "` would break clients that are not providing it.") Error)).

Definition add_field (p : CheckParams) (change : Change) (cache : Cache)
    : res (option CheckDiagnostic * Cache) :=
  '(type_name, field_name) ← unwrap (split_once "."%char (path change));
  match CheckSchema.find_field (target p) type_name field_name with
  | None => Ret (None, cache)
  | Some field_id =>
      field ← index_field (target p) field_id;
      if negb (sf_is_required field) then Ret (None, cache)
      else
        '(used, cache) ← type_in_used p cache type_name;
        Ret (if used : bool then
               Some (MkDiagnostic ("The new required field at `" +:+ path change
                       +:+ "` would break clients that are not providing it.") Error)
             else None, cache)
  end.

(** The labelled block ['refine]: [Some r] is [return r], [None] falls through. *)
Definition refine_argument_change (p : CheckParams) (path : string)
    (arg_in_src arg_in_target : option ArgumentId) : res (option (option CheckDiagnostic)) :=
  match arg_in_src, arg_in_target with
  | Some src_id, Some target_id =>
      src_arg ← index_argument (source p) src_id;
      target_arg ← index_argument (target p) target_id;
      Ret (if decide (fa_base_type src_arg ≠ fa_base_type target_arg) then None
           else match compare (fa_wrappers src_arg) (fa_wrappers target_arg) with
                | RemovedNonNull => Some None
                | AddedNonNull =>
                    if fa_has_default target_arg then Some None
                    else Some (Some (MkDiagnostic
                      ("The argument `" +:+ path +:+ "` became required, but clients are not providing it.")
                      Error))
                | NoChange | NotCompatible => None
                end)
  | _, _ => Ret None
  end.
Definition change_field_argument_type (p : CheckParams) (change : Change) : res (option CheckDiagnostic) :=
  field_path ← trim_to_field_path (path change);
  used ← field_is_used p field_path;
  if negb used then Ret None
  else
    '(type_name, field_name_and_arg_name) ← unwrap (split_once "."%char (path change));
    '(field_name, arg_name) ← unwrap (split_once "."%char field_name_and_arg_name);
    let arg_in_src := CheckSchema.find_argument (source p) (type_name, field_name, arg_name) in
    let arg_in_target := CheckSchema.find_argument (source p) (type_name, field_name, arg_name) in
    refined ← refine_argument_change p (path change) arg_in_src arg_in_target;
    match refined with
    | Some r => Ret r
    | None =>
        used ← argument_is_used p (path change);
        Ret (if negb used then None
             else Some (MkDiagnostic
               ("The argument `" +:+ path change +:+ "` changed type but it is used by clients.") Error))
    end.

Definition remove_field_argument (p : CheckParams) (change : Change) : res (option CheckDiagnostic) :=
  used ← argument_is_used p (path change);
  Ret (if negb used then None
       else Some (MkDiagnostic
         ("The argument `" +:+ path change +:+ "` was removed but it is still used by clients.") Error)).

Definition change_field_type (p : CheckParams) (change : Change) (cache : Cache)
    : res (option CheckDiagnostic * Cache) :=
  '(type_name, field_name) ← unwrap (split_once "."%char (path change));
  match CheckSchema.find_field (source p) type_name field_name,
        CheckSchema.find_field (target p) type_name field_name with
  | Some source_field_id, Some target_field_id =>
      source_field ← index_field (source p) source_field_id;
      target_field ← index_field (target p) target_field_id;
      let is_input_object := bool_decide (type_name ∈ input_objects (source p)) in
      '(used, cache) ←
        (if is_input_object then type_in_used p cache type_name
         else used ← field_is_used p (path change); Ret (used, cache));
      Ret (if negb used then None
           else
             let wrappers_comparison := compare (sf_wrappers source_field) (sf_wrappers target_field) in
             if decide (sf_base_type source_field ≠ sf_base_type target_field
                        ∨ wrappers_comparison = NotCompatible) then
               Some (MkDiagnostic
                 ("The type of the field `" +:+ path change +:+ "` changed from `"
                  +:+ render_type source_field +:+ "` to `" +:+ render_type target_field +:+ "`.") Error)
             else match is_input_object, wrappers_comparison with
                  | true, AddedNonNull =>
                      Some (MkDiagnostic
                        ("The field `" +:+ path change +:+ "` became required, but clients may not be providing it.")
                        Warning)
                  | false, RemovedNonNull =>
                      Some (MkDiagnostic
                        ("The field `" +:+ path change +:+ "` became optional, but clients do not expect null.")
                        Error)
                  | _, _ => None
                  end, cache)
  | _, _ => Ret (None, cache)
  end.

Definition remove_interface_implementation (p : CheckParams) (change : Change) : option CheckDiagnostic :=
  if negb (bool_decide (is_Some (type_condition_counts (field_usage p) !! path change))) then None
  else Some (MkDiagnostic ("The interface implementation `" +:+ path change
         +:+ "` was removed but it is still used by clients.") Error).
Definition remove_union_member (p : CheckParams) (change : Change) : option CheckDiagnostic :=
  if negb (bool_decide (is_Some (type_condition_counts (field_usage p) !! path change))) then None
  else Some (MkDiagnostic ("The union member `" +:+ path change
         +:+ "` was removed but it is still used by clients.") Error).

Definition remove_object_type (p : CheckParams) (change : Change) : res (option CheckDiagnostic) :=
  let type_name := path change in
  let src := source p in
  if negb (bool_decide (type_name ∈ [query_type_name src; mutation_type_name src; subscription_type_name src]))
  then Ret None
  else
    type_is_used ← any_res (λ field, field_is_used p (type_name +:+ "." +:+ sf_field_name field))
                     (iter_fields src type_name);
    Ret (if negb type_is_used then None
         else Some (MkDiagnostic ("The root type `" +:+ type_name
                +:+ "` was removed but it is still used by clients.") Error)).

Definition remove_enum_value (p : CheckParams) (change : Change) : option CheckDiagnostic :=
  if negb (enum_value_is_used p (path change)) then None
  else Some (MkDiagnostic ("The enum value `" +:+ path change
         +:+ "` was removed but it is still used by clients.") Error).
Definition remove_field_argument_default (p : CheckParams) (change : Change) : res (option CheckDiagnostic) :=
  left ← argument_is_left_out p (path change);
  Ret (if negb left then None
       else Some (MkDiagnostic ("The default value for required argument `" +:+ path change
              +:+ "` was removed but some queries leave it out.") Error)).

(** ** [check] *)

(** A rule that does not use the cache. *)
Definition without_cache (r : res (option CheckDiagnostic)) (cache : Cache)
    : res (option CheckDiagnostic * Cache) := d ← r; Ret (d, cache).

Definition check_change (p : CheckParams) (change : Change) (cache : Cache)
    : res (option CheckDiagnostic * Cache) :=
  match kind change with
  | ChangeMutationType | ChangeSubscriptionType | ChangeQueryType
  | AddSchemaDefinition | RemoveSchemaDefinition
  | AddDirectiveDefinition | RemoveDirectiveDefinition
  | AddFieldArgumentDefault | ChangeFieldArgumentDefault
  | AddInterfaceImplementation | AddUnionMember | AddEnumValue
  | AddInputObject | AddInterface | AddObjectType | AddScalar | AddUnion | AddEnum
  | RemoveEnum | RemoveScalar | RemoveInterface | RemoveInputObject | RemoveUnion => Ret (None, cache)
  | RemoveObjectType => without_cache (remove_object_type p change) cache
  | RemoveField => remove_field p change cache
  | AddFieldArgument => without_cache (add_field_argument p change) cache
  | AddField => add_field p change cache
  | ChangeFieldArgumentType => without_cache (change_field_argument_type p change) cache
  | RemoveFieldArgument => without_cache (remove_field_argument p change) cache
  | ChangeFieldType => change_field_type p change cache
  | RemoveInterfaceImplementation => without_cache (Ret (remove_interface_implementation p change)) cache
  | RemoveUnionMember => without_cache (Ret (remove_union_member p change)) cache
  | RemoveEnumValue => without_cache (Ret (remove_enum_value p change)) cache
  | RemoveFieldArgumentDefault => without_cache (remove_field_argument_default p change) cache
  end.

(** [params.diff.iter().filter_map(..).collect()] over the mutable cache. *)
Fixpoint check_loop (p : CheckParams) (changes : list Change) (cache : Cache) : res (list CheckDiagnostic) :=
  match changes with
  | [] => Ret []
  | change :: changes =>
      '(d, cache) ← check_change p change cache;
      ds ← check_loop p changes cache;
      Ret (match d with Some d => d :: ds | None => ds end)
  end.
Definition check (p : CheckParams) : res (list CheckDiagnostic) := check_loop p (check_diff p) None.
