(* ===== verification/CheckBreaks.v ===== *)
(** * Operation checks: what [check] reports

    The set of input types in use is the closure of the types of used arguments
    under the fields of the source schema. [Breaks] says which changes break
    clients, and [check] reports exactly those, whatever the order in which the
    cache is filled. *)
From Stdlib Require Import ZArith Ascii.
From S2P Require Import Prelude RustStd Change WrappingTypes CheckSchema Operation FieldUsage Check.
Local Open Scope string_scope.
Local Open Scope list_scope.
Local Open Scope nat_scope.

(** ** The closure of the input types *)
Section closure.
Context (s : Schema).

(** [t] has a field of base type [t']. *)
Definition refers (t t' : string) : Prop :=
  ∃ f, f ∈ fields s ∧ sf_type_name f = t ∧ sf_base_type f = t'.
Definition type_names : gset string := list_to_set (sf_type_name <$> fields s).

(** The nodes of [out] that are not in [inn] are reachable from [roots] and have
    all their successors in [out]. *)
Record visited (roots : list string) (inn out : gset string) : Prop := {
  visited_mono : inn ⊆ out;
  visited_roots t : t ∈ roots → t ∈ out;
  visited_reach t : t ∈ out → t ∈ inn ∨ ∃ r, r ∈ roots ∧ rtc refers r t;
  visited_closed t t' : t ∈ out → t ∉ inn → refers t t' → t' ∈ out;
}.

Lemma visited_nil inn : visited [] inn inn.
Proof. split; set_solver. Qed.
Lemma visited_cons r roots inn mid out :
  visited [r] inn mid → visited roots mid out → visited (r :: roots) inn out.
Proof.
  intros [M1 R1 C1 S1] [M2 R2 C2 S2]. split.
  - set_solver.
  - intros t [->|?]%elem_of_cons; [apply M2, R1; set_solver|auto].
  - intros t [Ht|(r' & ? & ?)]%C2; [|right; exists r'; set_solver].
    apply C1 in Ht as [?|(r' & ? & ?)]; [by left|right; exists r'; set_solver].
  - intros t t' Hout Hin Href. destruct (decide (t ∈ mid)); [|by eapply S2].
    apply M2. by eapply S1.
Qed.
(** Entering a node and visiting its successors. *)
Lemma visited_enter r inn out succs :
  r ∉ inn → (∀ t, t ∈ succs ↔ refers r t) → visited succs ({[r]} ∪ inn) out → visited [r] inn out.
Proof.
  intros Hr Hsucc [M R C S]. split.
  - set_solver.
  - set_solver.
  - intros t [[->%elem_of_singleton|?]%elem_of_union|(r' & Hr' & ?)]%C; [|by left|].
    + right. exists r. split; [set_solver|constructor].
    + right. exists r. split; [set_solver|]. eapply rtc_l; [by apply Hsucc|done].
  - intros t t' Hout Hin Href. destruct (decide (t = r)) as [->|Hne].
    + apply R. by apply Hsucc.
    + eapply S; [done| |done]. set_solver.
Qed.

Definition fuel_ok (fuel : nat) (used : gset string) : Prop := size (type_names ∖ used) < fuel.

Lemma fuel_ok_mono fuel used used' : used ⊆ used' → fuel_ok fuel used → fuel_ok fuel used'.
Proof.
  unfold fuel_ok. intros Hsub Hf. eapply Nat.le_lt_trans; [|exact Hf]. apply subseteq_size. set_solver.
Qed.
Lemma fuel_ok_enter fuel r used :
  r ∈ type_names → r ∉ used → fuel_ok (S fuel) used → fuel_ok fuel ({[r]} ∪ used).
Proof.
  unfold fuel_ok. intros Hr Hu Hf.
  assert (size (type_names ∖ ({[r]} ∪ used)) < size (type_names ∖ used)); [|lia].
  apply subset_size. set_solver.
Qed.

Lemma fold_visited {A} (base : A → string) fuel l used :
  (∀ r used, fuel_ok fuel used →
     ∃ used', find_used_input_types_rec fuel s r used = Ret used' ∧ visited [r] used used') →
  (l ≠ [] → fuel_ok fuel used) →
  ∃ used', fold_res (λ used x, find_used_input_types_rec fuel s (base x) used) used l = Ret used' ∧
           visited (base <$> l) used used'.
Proof.
  intros Hrec. revert used. induction l as [|x l IH]; intros used Hf; simpl.
  { exists used. split; [done|]. apply visited_nil. }
  destruct (Hrec (base x) used) as (mid & -> & Hv1); [by apply Hf|]. simpl.
  destruct (IH mid) as (out & -> & Hv2).
  { intros _. eapply fuel_ok_mono; [apply Hv1|by apply Hf]. }
  exists out. split; [done|]. by eapply visited_cons.
Qed.

Lemma find_used_input_types_rec_spec fuel r used :
  schema_wf s → fuel_ok fuel used →
  ∃ used', find_used_input_types_rec fuel s r used = Ret used' ∧ visited [r] used used'.
Proof.
  intros Hwf. revert r used. induction fuel as [|fuel IH]; intros r used Hf; [by unfold fuel_ok in Hf; lia|].
  simpl. case_decide as Hr.
  { exists used. split; [done|]. split; [done|set_solver|by left|done]. }
  destruct (fold_visited sf_base_type fuel (iter_fields s r) ({[r]} ∪ used)) as (out & -> & Hv).
  { intros. by apply IH. }
  { intros Hne. apply fuel_ok_enter; [|done|done]. rewrite iter_fields_filter in Hne by done.
    destruct (filter _ _) as [|f l] eqn:E; [done|].
    assert (f ∈ filter (λ f, sf_type_name f = r) (fields s)) as [<- ?]%list_elem_of_filter
      by (rewrite E; set_solver).
    apply elem_of_list_to_set, list_elem_of_fmap_2. done. }
  exists out. split; [done|]. eapply visited_enter; [done| |exact Hv]. intros t.
  rewrite list_elem_of_fmap, iter_fields_filter by done. setoid_rewrite list_elem_of_filter.
  unfold refers. split; intros (f & H); exists f; naive_solver.
Qed.
End closure.

Lemma size_type_names s : size (type_names s) ≤ length (fields s).
Proof.
  unfold type_names. rewrite <-(length_fmap sf_type_name (fields s)).
  induction (sf_type_name <$> fields s) as [|n l IH]; [done|].
  cbn [list_to_set length]. rewrite size_union_alt, size_singleton.
  pose proof (subseteq_size (list_to_set l ∖ {[n]} : gset string) (list_to_set l) ltac:(set_solver)). lia.
Qed.

(** ** Usage of the source schema *)
Section used.
Context (p : CheckParams).
Let u := field_usage p.

Definition field_used (t f : string) : Prop :=
  ∃ id, CheckSchema.find_field (source p) t f = Some id ∧ is_Some (count_per_field u !! id).
Definition argument_used (t f a : string) : Prop :=
  ∃ id, CheckSchema.find_argument (source p) (t, f, a) = Some id ∧ is_Some (count_per_field_argument u !! id).
Definition argument_left_out (t f a : string) : Prop :=
  ∃ id, CheckSchema.find_argument (source p) (t, f, a) = Some id ∧
        is_Some (arguments_with_defaults_left_out_count u !! id).
(** [t] is the type of a used argument, or a field of a used input type has it. *)
Definition input_type_used (t : string) : Prop :=
  ∃ id arg, is_Some (count_per_field_argument u !! id) ∧ field_arguments (source p) !! id = Some arg ∧
            rtc (refers (source p)) (fa_base_type arg) t.

(** Both schemas are sorted and the usage was counted on the source schema. *)
Definition params_wf : Prop :=
  schema_wf (source p) ∧ schema_wf (target p) ∧
  ∀ id, is_Some (count_per_field_argument u !! id) → id < length (field_arguments (source p)).

(** The loop over the used arguments, in any order. *)
Lemma used_in_order_spec keys :
  schema_wf (source p) → Forall (λ id, id < length (field_arguments (source p))) keys →
  ∃ used, find_used_input_types_in_order p keys = Ret used ∧
    ∀ t, t ∈ used ↔ ∃ id arg, id ∈ keys ∧ field_arguments (source p) !! id = Some arg ∧
                              rtc (refers (source p)) (fa_base_type arg) t.
Proof.
  intros Hwf HF. unfold find_used_input_types_in_order.
  pose proof (Nat.lt_succ_diag_r (length (fields (source p)))) as Hfuel.
  revert Hfuel. generalize (S (length (fields (source p)))) as fuel. intros fuel Hfuel.
  set (step := λ used id, _). set (args := omap (λ id, field_arguments (source p) !! id) keys).
  assert (∀ inn, ∃ out, fold_res step inn keys = Ret out ∧
                        visited (source p) (fa_base_type <$> args) inn out) as Hloop.
  { subst args. induction HF as [|id keys Hid HF IH]; intros inn; simpl.
    { exists inn. split; [done|]. apply visited_nil. }
    apply lookup_lt_is_Some_2 in Hid as [arg Harg].
    assert (step inn id = find_used_input_types_rec fuel (source p) (fa_base_type arg) inn) as ->
      by (unfold step, index_argument; by rewrite Harg).
    rewrite Harg. destruct (find_used_input_types_rec_spec (source p) fuel (fa_base_type arg) inn Hwf) as (mid & E & Hv).
    { unfold fuel_ok. pose proof (subseteq_size (type_names (source p) ∖ inn) (type_names (source p))
        ltac:(set_solver)). pose proof (size_type_names (source p)). lia. }
    rewrite E. destruct (IH mid) as (out & Hout & Hv2). exists out. split; [exact Hout|].
    by eapply visited_cons. }
  destruct (Hloop ∅) as (out & -> & [_ Hr Hreach Hcl]). exists out. split; [done|].
  assert (∀ t, t ∈ fa_base_type <$> args ↔ ∃ id arg, id ∈ keys ∧ field_arguments (source p) !! id = Some arg ∧ fa_base_type arg = t) as Hargs.
  { intros t. rewrite list_elem_of_fmap. unfold args. setoid_rewrite list_elem_of_omap. naive_solver. }
  intros t. split.
  - intros [?|(r & (id & arg & ? & ? & <-)%Hargs & ?)]%Hreach; [set_solver|]. eauto.
  - intros (id & arg & ? & ? & Hrtc).
    assert (fa_base_type arg ∈ out) as Hin by (apply Hr, Hargs; eauto).
    clear -Hin Hrtc Hcl. induction Hrtc as [|t t' t'' Href _ IH]; [done|].
    apply IH. eapply Hcl; [exact Hin|set_solver|done].
Qed.

Lemma find_used_input_types_spec :
  params_wf → ∃ used, find_used_input_types p = Ret used ∧ ∀ t, t ∈ used ↔ input_type_used t.
Proof.
  intros (Hwf & _ & Hids). unfold find_used_input_types.
  destruct (used_in_order_spec (map_to_list (count_per_field_argument u)).*1) as (used & E & Hin); [done| |].
  - apply Forall_forall. intros id ((id' & n) & -> & Hin%elem_of_map_to_list)%list_elem_of_fmap.
    apply Hids. simpl. by rewrite Hin.
  - exists used. split; [done|]. intros t. rewrite Hin. unfold input_type_used.
    setoid_rewrite list_elem_of_fmap. split.
    + intros (id & arg & ((id' & n) & -> & Hl%elem_of_map_to_list) & ? & ?). exists id', arg. by rewrite Hl.
    + intros (id & arg & [n Hl] & ? & ?). exists id, arg. split; [|done].
      exists (id, n). split; [done|]. by apply elem_of_map_to_list.
Qed.
End used.

(** ** Operation checks: [check] reports exactly the breaking changes *)
#[local] Opaque compare is_nonnull render.

(** ** Taking paths apart *)
Abbreviation dotless := (no_char "."%char).

Lemma match_indices_no_char i c s : no_char c s = true → match_indices_from i c s = [].
Proof.
  revert i. induction s as [|a s IH]; intros i; simpl; [done|].
  intros [Ha%bool_decide_eq_true_1 Hs]%andb_true_iff. rewrite decide_False by done. by apply IH.
Qed.
Lemma match_indices_app i c w s :
  no_char c w = true →
  match_indices_from i c (w +:+ String c s) =
  (i + String.length w) :: match_indices_from (S (i + String.length w)) c s.
Proof.
  revert i. induction w as [|a w IH]; simpl; intros i Hw.
  { change ("" +:+ String c s) with (String c s). simpl. by rewrite decide_True, Nat.add_0_r. }
  apply andb_true_iff in Hw as [Ha%bool_decide_eq_true_1 Hw].
  change (String a w +:+ String c s) with (String a (w +:+ String c s)). simpl.
  rewrite decide_False, IH by done. by rewrite <-Nat.add_succ_comm.
Qed.
Lemma substring_prefix w s : String.substring 0 (String.length w) (w +:+ s) = w.
Proof.
  induction w as [|a w IH]; simpl.
  - change ("" +:+ s) with s. by destruct s.
  - change (String a w +:+ s) with (String a (w +:+ s)). simpl. by rewrite IH.
Qed.
Lemma get_app w a s : String.get (String.length w) (w +:+ String a s) = Some a.
Proof.
  induction w as [|b w IH]; simpl; [done|].
  change (String b w +:+ String a s) with (String b (w +:+ String a s)). simpl. done.
Qed.
Lemma length_append w s : String.length (w +:+ s) = String.length w + String.length s.
Proof.
  induction w as [|b w IH]; simpl; [done|].
  change (String b w +:+ s) with (String b (w +:+ s)). simpl. by rewrite IH.
Qed.
Lemma str_slice_prefix w s : str_slice (w +:+ String "." s) 0 (String.length w) = Ret w.
Proof.
  unfold str_slice. assert (is_char_boundary (w +:+ String "." s) 0 = true) as ->.
  { unfold is_char_boundary. case_match; [done|]. by destruct w. }
  assert (is_char_boundary (w +:+ String "." s) (String.length w) = true) as ->.
  { unfold is_char_boundary. case_match; [done|]. rewrite get_app. simpl. by rewrite orb_true_r. }
  simpl. by rewrite Nat.sub_0_r, substring_prefix.
Qed.
Lemma trim_to_field_path_ok t f a :
  dotless t = true → dotless f = true → trim_to_field_path (join "." [t; f; a]) = Ret (join "." [t; f]).
Proof.
  intros Ht Hf. rewrite join3. unfold trim_to_field_path, match_indices.
  rewrite !match_indices_app by done. simpl.
  assert (t +:+ String "." (f +:+ String "." a) = (t +:+ String "." f) +:+ String "." a) as ->.
  { rewrite <-append_assoc. done. }
  replace (S (String.length t + String.length f)) with (String.length (t +:+ String "." f))
    by (rewrite length_append; simpl; lia).
  apply str_slice_prefix.
Qed.
Lemma split_once_path t f : dotless t = true → split_once "."%char (join "." [t; f]) = Some (t, f).
Proof. apply split_once_app. Qed.
Lemma next3_path t f a :
  dotless t = true → dotless f = true → dotless a = true → next3 (join "." [t; f; a]) = Ret (t, f, a).
Proof. intros. unfold next3. rewrite (split_join "."%char); [done|done|]. repeat constructor; done. Qed.
Lemma split_once_path3 t f a :
  dotless t = true → split_once "."%char (join "." [t; f; a]) = Some (t, join "." [f; a]).
Proof. apply split_once_app. Qed.

(** ** Which changes break clients *)
Definition field_of (s : Schema) (t f : string) (fd : SchemaField) : Prop :=
  ∃ id, CheckSchema.find_field s t f = Some id ∧ fields s !! id = Some fd.
Definition argument_of (s : Schema) (t f a : string) (arg : FieldArgument) : Prop :=
  ∃ id, CheckSchema.find_argument s (t, f, a) = Some id ∧ field_arguments s !! id = Some arg.

Lemma field_of_det s t f fd fd' : field_of s t f fd → field_of s t f fd' → fd = fd'.
Proof. unfold field_of. naive_solver. Qed.
Lemma argument_of_det s t f a arg arg' : argument_of s t f a arg → argument_of s t f a arg' → arg = arg'.
Proof. unfold argument_of. naive_solver. Qed.

Section breaks.
Context (p : CheckParams).

(** [Breaks kind segments severity], with the path as its segments. *)
Inductive Breaks : ChangeKind → list string → Severity → Prop :=
(** A removed output field is used. *)
| breaks_remove_output_field t f :
    t ∉ input_objects (source p) → field_used p t f → Breaks RemoveField [t; f] Error
(** A removed field of an input object in use was required, or not. *)
| breaks_remove_required_input_field t f fd :
    t ∈ input_objects (source p) → input_type_used p t →
    field_of (source p) t f fd → sf_is_required fd = true → Breaks RemoveField [t; f] Error
| breaks_remove_input_field t f :
    t ∈ input_objects (source p) → input_type_used p t →
    (∀ fd, field_of (source p) t f fd → sf_is_required fd = false) → Breaks RemoveField [t; f] Warning
(** A new argument of a used field is required and has no default. *)
| breaks_add_argument t f a arg :
    field_used p t f → argument_of (target p) t f a arg → is_required_without_default_value arg = true →
    Breaks AddFieldArgument [t; f; a] Error
(** A new field of an input type in use is required. *)
| breaks_add_field t f fd :
    field_of (target p) t f fd → sf_is_required fd = true → input_type_used p t →
    Breaks AddField [t; f] Error
(** An argument of a used field became required. *)
| breaks_argument_required t f a src tgt :
    field_used p t f → argument_of (source p) t f a src → argument_of (target p) t f a tgt →
    fa_base_type src = fa_base_type tgt → compare (fa_wrappers src) (fa_wrappers tgt) = AddedNonNull →
    fa_has_default tgt = false → Breaks ChangeFieldArgumentType [t; f; a] Error
(** A used argument changed type other than by its nullability. *)
| breaks_argument_type t f a src tgt :
    field_used p t f → argument_used p t f a →
    argument_of (source p) t f a src → argument_of (target p) t f a tgt →
    (fa_base_type src ≠ fa_base_type tgt ∨
     compare (fa_wrappers src) (fa_wrappers tgt) ∈ [NoChange; NotCompatible]) →
    Breaks ChangeFieldArgumentType [t; f; a] Error
| breaks_remove_argument t f a : argument_used p t f a → Breaks RemoveFieldArgument [t; f; a] Error
(** A field in use changed type other than by its nullability, an input field
    became required, an output field became nullable. *)
| breaks_field_type t f src tgt :
    field_of (source p) t f src → field_of (target p) t f tgt →
    (if decide (t ∈ input_objects (source p)) then input_type_used p t else field_used p t f) →
    sf_base_type src ≠ sf_base_type tgt ∨ compare (sf_wrappers src) (sf_wrappers tgt) = NotCompatible →
    Breaks ChangeFieldType [t; f] Error
| breaks_input_required t f src tgt :
    field_of (source p) t f src → field_of (target p) t f tgt →
    t ∈ input_objects (source p) → input_type_used p t →
    sf_base_type src = sf_base_type tgt → compare (sf_wrappers src) (sf_wrappers tgt) = AddedNonNull →
    Breaks ChangeFieldType [t; f] Warning
| breaks_output_nullable t f src tgt :
    field_of (source p) t f src → field_of (target p) t f tgt →
    t ∉ input_objects (source p) → field_used p t f →
    sf_base_type src = sf_base_type tgt → compare (sf_wrappers src) (sf_wrappers tgt) = RemovedNonNull →
    Breaks ChangeFieldType [t; f] Error
(** An implementer or union member appears as a type condition. *)
| breaks_implementation segs :
    is_Some (type_condition_counts (field_usage p) !! join "." segs) →
    Breaks RemoveInterfaceImplementation segs Error
| breaks_union_member segs :
    is_Some (type_condition_counts (field_usage p) !! join "." segs) → Breaks RemoveUnionMember segs Error
(** A root type some field of which is used. *)
| breaks_root_type t f :
    t ∈ [query_type_name (source p); mutation_type_name (source p); subscription_type_name (source p)] →
    field_used p t f → Breaks RemoveObjectType [t] Error
| breaks_enum_value segs :
    is_Some (count_per_enum_value (field_usage p) !! join "." segs) → Breaks RemoveEnumValue segs Error
| breaks_remove_default t f a : argument_left_out p t f a → Breaks RemoveFieldArgumentDefault [t; f; a] Error.

(** The shape of the paths [graphql-schema-diff] reports. *)
Definition segments_ok (k : ChangeKind) (segs : list string) : Prop :=
  match k with
  | RemoveObjectType => length segs = 1
  | RemoveField | AddField | ChangeFieldType => length segs = 2
  | AddFieldArgument | ChangeFieldArgumentType | RemoveFieldArgument | RemoveFieldArgumentDefault =>
      length segs = 3
  | _ => True
  end.
Definition change_ok (c : Change) (segs : list string) : Prop :=
  path c = join "." segs ∧ Forall (λ w, dotless w = true) segs ∧ segments_ok (kind c) segs.

(** What the two argument rules ask of the schemas besides: an added argument
    is in the table of arguments of the target, which holds no arguments of
    interfaces, and a changed argument has the same index in both tables. *)
Definition arguments_line_up (k : ChangeKind) (segs : list string) : Prop :=
  match k, segs with
  | AddFieldArgument, [t; f; a] => is_Some (CheckSchema.find_argument (target p) (t, f, a))
  | ChangeFieldArgumentType, [t; f; a] =>
      CheckSchema.find_argument (source p) (t, f, a) = CheckSchema.find_argument (target p) (t, f, a)
  | _, _ => True
  end.
End breaks.

(** ** The rules decide [Breaks] *)
#[local] Opaque join.
Section rules.
Context (p : CheckParams) (Hwf : params_wf p).
Context (used : gset string) (Hused : find_used_input_types p = Ret used).
Context (Hin : ∀ t, t ∈ used ↔ input_type_used p t).

Lemma field_is_used_path t f :
  dotless t = true → ∃ b, field_is_used p (join "." [t; f]) = Ret b ∧ (b = true ↔ field_used p t f).
Proof.
  intros Ht. unfold field_is_used, field_used. rewrite split_once_path by done. simpl.
  eexists. split; [done|]. destruct (CheckSchema.find_field _ t f) as [id|]; [|naive_solver].
  rewrite bool_decide_eq_true. naive_solver.
Qed.
Lemma argument_is_used_path t f a :
  dotless t = true → dotless f = true → dotless a = true →
  ∃ b, argument_is_used p (join "." [t; f; a]) = Ret b ∧ (b = true ↔ argument_used p t f a).
Proof.
  intros Ht Hf Ha. unfold argument_is_used, argument_used, find_argument_path.
  rewrite next3_path by done. simpl. eexists. split; [done|].
  destruct (CheckSchema.find_argument _ _) as [id|]; [|naive_solver].
  rewrite bool_decide_eq_true. naive_solver.
Qed.
Lemma argument_is_left_out_path t f a :
  dotless t = true → dotless f = true → dotless a = true →
  ∃ b, argument_is_left_out p (join "." [t; f; a]) = Ret b ∧ (b = true ↔ argument_left_out p t f a).
Proof.
  intros Ht Hf Ha. unfold argument_is_left_out, argument_left_out, find_argument_path.
  rewrite next3_path by done. simpl. eexists. split; [done|].
  destruct (CheckSchema.find_argument _ _) as [id|]; [|naive_solver].
  rewrite bool_decide_eq_true. naive_solver.
Qed.
Lemma field_of_find s t f id :
  schema_wf s → CheckSchema.find_field s t f = Some id →
  ∃ fd, index_field s id = Ret fd ∧ field_of s t f fd.
Proof.
  intros Hs E. destruct (find_field_Some s t f id Hs E) as (fd & Hfd & _).
  exists fd. unfold index_field. rewrite Hfd. split; [done|]. by exists id.
Qed.
Lemma argument_of_find s t f a id :
  schema_wf s → CheckSchema.find_argument s (t, f, a) = Some id →
  ∃ arg, index_argument s id = Ret arg ∧ argument_of s t f a arg.
Proof.
  intros Hs E. destruct (find_argument_Some s _ id Hs E) as (arg & Harg & _).
  exists arg. unfold index_argument. rewrite Harg. split; [done|]. by exists id.
Qed.

(** A cache is empty or holds the set of used input types. *)
Definition cache_ok (cache : Cache) : Prop := cache = None ∨ cache = Some used.
Lemma type_in_used_ok cache t :
  cache_ok cache → type_in_used p cache t = Ret (bool_decide (t ∈ used), Some used).
Proof. intros [->| ->]; unfold type_in_used; by rewrite ?Hused. Qed.

(** A rule returns the same diagnostic from every cache, and its severity is [B]. *)
Definition decides (rule : Cache → res (option CheckDiagnostic * Cache)) (B : Severity → Prop) : Prop :=
  ∃ d, (∀ cache, cache_ok cache → ∃ cache', rule cache = Ret (d, cache') ∧ cache_ok cache') ∧
       ∀ sev, severity <$> d = Some sev ↔ B sev.

Lemma decides_without_cache r d B :
  r = Ret d → (∀ sev, severity <$> d = Some sev ↔ B sev) → decides (without_cache r) B.
Proof. intros -> HB. exists d. split; [|done]. intros cache Hc. by exists cache. Qed.
(** The common shape: an error exactly when a condition holds. *)
Lemma decides_error (b : bool) msg (P : Prop) (B : Severity → Prop) :
  (b = true ↔ P) → (∀ sev, B sev ↔ sev = Error ∧ P) →
  ∀ sev, severity <$> (if negb b then None else Some (MkDiagnostic msg Error)) = Some sev ↔ B sev.
Proof. intros Hb HB sev. rewrite HB, <-Hb. destruct b; simpl; naive_solver. Qed.

(** Inverts a breaking change and refutes the cases that contradict the context. *)
Ltac inv_breaks :=
  let H := fresh in intros H; inversion H; subst; try done;
  try match goal with
      | H1 : ∀ fd, field_of _ _ _ fd → _, H2 : field_of _ _ _ _, H3 : sf_is_required _ = true |- _ =>
          by rewrite (H1 _ H2) in H3
      end.
Lemma remove_field_ok t f c :
  path c = join "." [t; f] → dotless t = true →
  decides (remove_field p c) (Breaks p RemoveField [t; f]).
Proof.
  intros Hp Ht. destruct Hwf as (Hs & _).
  destruct (field_is_used_path t f Ht) as (b & Hb & Hb').
  unfold remove_field. rewrite Hp, split_once_path by done. simpl. case_decide as Hi.
  - destruct (decide (t ∈ used)) as [Hu|Hu]; [|exists None; split].
    + assert (∃ req : bool, match CheckSchema.find_field (source p) t f with
          | Some id => field ← index_field (source p) id; Ret (sf_is_required field)
          | None => Ret false end = Ret req ∧
        if req then ∃ fd, field_of (source p) t f fd ∧ sf_is_required fd = true
        else ∀ fd, field_of (source p) t f fd → sf_is_required fd = false) as (req & -> & Hreq).
      { destruct (CheckSchema.find_field _ t f) as [id|] eqn:E.
        - destruct (field_of_find _ _ _ _ Hs E) as (fd & -> & Hfd). simpl. eexists. split; [done|].
          destruct (sf_is_required fd) eqn:Er; [by eauto|]. intros fd' Hfd'.
          by rewrite (field_of_det _ _ _ _ _ Hfd' Hfd).
        - exists false. split; [done|]. intros fd (id & ? & _). congruence. }
      eexists. split.
      * intros cache Hc. rewrite (type_in_used_ok cache t Hc). rewrite bool_decide_true by done. simpl.
        eexists. split; [done|]. by right.
      * apply Hin in Hu. intros sev. destruct req; simpl; (split; [intros [= <-]|]).
        -- destruct Hreq as (fd & ? & ?). by eapply breaks_remove_required_input_field.
        -- destruct Hreq as (fd & Hfd & Hr). inv_breaks.
        -- by apply breaks_remove_input_field.
        -- inv_breaks.
    + intros cache Hc. rewrite (type_in_used_ok cache t Hc), bool_decide_false by done. simpl.
      eexists. split; [done|]. by right.
    + intros sev. rewrite Hin in Hu. split; [done|]. inv_breaks.
  - eexists. split; [intros cache Hc; rewrite Hb; simpl; by eexists|]. intros sev.
    destruct b; simpl; (split; [intros [= <-]|]).
    + apply breaks_remove_output_field; [done|]. by apply Hb'.
    + inv_breaks.
    + inv_breaks. by assert (false = true) by by apply Hb'.
Qed.

Lemma add_field_ok t f c :
  path c = join "." [t; f] → dotless t = true →
  decides (add_field p c) (Breaks p AddField [t; f]).
Proof.
  intros Hp Ht. destruct Hwf as (_ & Hs & _). unfold add_field. rewrite Hp, split_once_path by done. simpl.
  destruct (CheckSchema.find_field (target p) t f) as [id|] eqn:E.
  2: { exists None. split; [by eexists|]. intros sev. split; [done|]. inv_breaks.
       match goal with H : field_of _ _ _ _ |- _ => destruct H as (? & ? & _) end. congruence. }
  destruct (field_of_find _ _ _ _ Hs E) as (fd & -> & Hfd). simpl.
  destruct (sf_is_required fd) eqn:Er; simpl.
  2: { exists None. split; [by eexists|]. intros sev. split; [done|]. inv_breaks.
       match goal with H : field_of _ _ _ _ |- _ => rewrite (field_of_det _ _ _ _ _ H Hfd) in * end. congruence. }
  eexists. split.
  - intros cache Hc. rewrite (type_in_used_ok cache t Hc). simpl. eexists. split; [done|]. by right.
  - intros sev. case_bool_decide as Hu; rewrite Hin in Hu; simpl; (split; [intros [= <-]|inv_breaks]).
    by eapply breaks_add_field.
Qed.

Lemma remove_field_argument_ok t f a c :
  path c = join "." [t; f; a] → Forall (λ w, dotless w = true) [t; f; a] →
  decides (without_cache (remove_field_argument p c)) (Breaks p RemoveFieldArgument [t; f; a]).
Proof.
  intros Hp HF. apply Forall_cons in HF as [? [? [? _]%Forall_cons]%Forall_cons].
  destruct (argument_is_used_path t f a) as (b & Hb & Hb'); [done..|].
  eapply decides_without_cache; [unfold remove_field_argument; by rewrite Hp, Hb|].
  apply (decides_error _ _ _ _ Hb'). intros sev. split; [by inv_breaks|]. intros [-> ?]. by constructor.
Qed.
Lemma remove_field_argument_default_ok t f a c :
  path c = join "." [t; f; a] → Forall (λ w, dotless w = true) [t; f; a] →
  decides (without_cache (remove_field_argument_default p c)) (Breaks p RemoveFieldArgumentDefault [t; f; a]).
Proof.
  intros Hp HF. apply Forall_cons in HF as [? [? [? _]%Forall_cons]%Forall_cons].
  destruct (argument_is_left_out_path t f a) as (b & Hb & Hb'); [done..|].
  eapply decides_without_cache; [unfold remove_field_argument_default; by rewrite Hp, Hb|].
  apply (decides_error _ _ _ _ Hb'). intros sev. split; [by inv_breaks|]. intros [-> ?]. by constructor.
Qed.

Lemma add_field_argument_ok t f a c :
  path c = join "." [t; f; a] → Forall (λ w, dotless w = true) [t; f; a] →
  is_Some (CheckSchema.find_argument (target p) (t, f, a)) →
  decides (without_cache (add_field_argument p c)) (Breaks p AddFieldArgument [t; f; a]).
Proof.
  intros Hp HF [id Hid]. apply Forall_cons in HF as [? [? [? _]%Forall_cons]%Forall_cons].
  destruct Hwf as (_ & Hs & _). destruct (argument_of_find _ _ _ _ _ Hs Hid) as (arg & Harg & Hof).
  destruct (field_is_used_path t f) as (b & Hb & Hb'); [done|].
  unfold add_field_argument. rewrite Hp, trim_to_field_path_ok, next3_path by done. simpl. rewrite Hb. simpl.
  rewrite Hid. simpl. rewrite Harg. simpl.
  apply (decides_without_cache _ (if negb (b && is_required_without_default_value arg) then None
    else Some (MkDiagnostic ("The new required argument at `" +:+ join "." [t; f; a]
            +:+ "` would break clients that are not providing it.") Error))).
  { by destruct b, (is_required_without_default_value arg). }
  apply (decides_error _ _ (field_used p t f ∧ is_required_without_default_value arg = true)).
  { by rewrite andb_true_iff, Hb'. }
  intros sev. split.
  - inv_breaks. match goal with H : argument_of _ _ _ _ _ |- _ => by rewrite (argument_of_det _ _ _ _ _ _ H Hof) in * end.
  - intros [-> [? ?]]. by econstructor.
Qed.

(** The three rules for a changed field type, for the two definitions. *)
Lemma breaks_field_type_iff t f src tgt sev :
  field_of (source p) t f src → field_of (target p) t f tgt →
  Breaks p ChangeFieldType [t; f] sev ↔
  (if decide (t ∈ input_objects (source p)) then input_type_used p t else field_used p t f) ∧
  let comparison := compare (sf_wrappers src) (sf_wrappers tgt) in
  if decide (sf_base_type src ≠ sf_base_type tgt ∨ comparison = NotCompatible) then sev = Error
  else if decide (t ∈ input_objects (source p)) then comparison = AddedNonNull ∧ sev = Warning
  else comparison = RemovedNonNull ∧ sev = Error.
Proof.
  intros Hsrc Htgt. split.
  - intros H. inversion H; subst;
      repeat match goal with
      | H : field_of (source p) _ _ ?fd |- _ => assert_fails (constr_eq fd src); pose proof (field_of_det _ _ _ _ _ H Hsrc); subst fd
      | H : field_of (target p) _ _ ?fd |- _ => assert_fails (constr_eq fd tgt); pose proof (field_of_det _ _ _ _ _ H Htgt); subst fd
      end; simpl; repeat case_decide; intuition congruence.
  - simpl. intros [Hu Hc]. repeat case_decide; destruct_and?; subst.
    all: try by (eapply breaks_field_type; [done|done|by case_decide|done]).
    + eapply breaks_input_required; try done. destruct (decide (sf_base_type src = sf_base_type tgt)); tauto.
    + eapply breaks_output_nullable; try done. destruct (decide (sf_base_type src = sf_base_type tgt)); tauto.
Qed.
Lemma change_field_type_ok t f c :
  path c = join "." [t; f] → dotless t = true →
  decides (change_field_type p c) (Breaks p ChangeFieldType [t; f]).
Proof.
  intros Hp Ht. destruct Hwf as (Hs & Hs' & _).
  destruct (field_is_used_path t f Ht) as (b & Hb & Hb').
  unfold change_field_type. rewrite Hp, split_once_path by done. simpl.
  assert (∀ s, CheckSchema.find_field s t f = None → ∀ fd, ¬ field_of s t f fd) as Hnone.
  { intros s E fd (id & ? & _). congruence. }
  destruct (CheckSchema.find_field (source p) t f) as [i|] eqn:E.
  2: { exists None. split; [by eexists|]. intros sev. split; [done|]. inv_breaks; by edestruct Hnone. }
  destruct (CheckSchema.find_field (target p) t f) as [j|] eqn:E'.
  2: { exists None. split; [by eexists|]. intros sev. split; [done|]. inv_breaks; by edestruct Hnone. }
  destruct (field_of_find _ _ _ _ Hs E) as (src & -> & Hsrc).
  destruct (field_of_find _ _ _ _ Hs' E') as (tgt & -> & Htgt). simpl.
  set (inp := bool_decide (t ∈ input_objects (source p))).
  assert (∃ u, (∀ cache, cache_ok cache → ∃ cache',
    (if inp then type_in_used p cache t else used ← field_is_used p (join "." [t; f]); Ret (used, cache))
      = Ret (u, cache') ∧ cache_ok cache') ∧
    (u = true ↔ if inp then input_type_used p t else field_used p t f)) as (u & Hu & Hu').
  { destruct inp.
    - exists (bool_decide (t ∈ used)). rewrite bool_decide_eq_true. split; [|apply Hin].
      intros cache Hc. rewrite (type_in_used_ok cache t Hc). eexists. split; [done|]. by right.
    - exists b. split; [|done]. intros cache Hc. rewrite Hb. by eexists. }
  eexists. split.
  { intros cache Hc. destruct (Hu cache Hc) as (cache' & -> & ?). simpl. by eexists. }
  assert (∀ fd, field_of (source p) t f fd → fd = src) as Hs1 by (intros; by eapply field_of_det).
  assert (∀ fd, field_of (target p) t f fd → fd = tgt) as Hs2 by (intros; by eapply field_of_det).
  intros sev. rewrite (breaks_field_type_iff t f src tgt sev Hsrc Htgt).
  unfold inp in *. clear inp Hu. revert Hu'.
  destruct (decide (t ∈ input_objects (source p))) as [Hi|Hi];
    [rewrite bool_decide_true by done|rewrite bool_decide_false by done]; intros <-; destruct u; simpl;
    try (split; [done|by intros [? _]]); destruct (decide (_ ∨ _)); simpl;
    try destruct (compare _ _); clear; simpl; intuition congruence.
Qed.

(** The argument rule, for the two definitions. *)
Lemma breaks_argument_type_iff t f a src tgt sev :
  argument_of (source p) t f a src → argument_of (target p) t f a tgt →
  Breaks p ChangeFieldArgumentType [t; f; a] sev ↔
  sev = Error ∧ field_used p t f ∧
  if decide (fa_base_type src ≠ fa_base_type tgt) then argument_used p t f a
  else match compare (fa_wrappers src) (fa_wrappers tgt) with
       | RemovedNonNull => False
       | AddedNonNull => fa_has_default tgt = false
       | NoChange | NotCompatible => argument_used p t f a
       end.
Proof.
  intros Hsrc Htgt. split.
  - intros H. inversion H; subst;
      repeat match goal with
      | H : argument_of (source p) _ _ _ ?x |- _ => assert_fails (constr_eq x src); pose proof (argument_of_det _ _ _ _ _ _ H Hsrc); subst x
      | H : argument_of (target p) _ _ _ ?x |- _ => assert_fails (constr_eq x tgt); pose proof (argument_of_det _ _ _ _ _ _ H Htgt); subst x
      end; (split; [done|split; [done|]]).
    + rewrite decide_False by congruence. by destruct (compare _ _).
    + case_decide; [done|]. destruct (compare _ _); try done; set_solver.
  - intros (-> & Hu & Hc). destruct (decide (_ ≠ _)) as [?|Heq]; [by eapply breaks_argument_type; eauto|].
    destruct (decide (fa_base_type src = fa_base_type tgt)) as [Hb|]; [|done].
    destruct (compare (fa_wrappers src) (fa_wrappers tgt)) eqn:E; try done.
    + eapply breaks_argument_type; eauto. right. rewrite E. set_solver.
    + by eapply breaks_argument_required.
    + eapply breaks_argument_type; eauto. right. rewrite E. set_solver.
Qed.
Lemma change_field_argument_type_ok t f a c :
  path c = join "." [t; f; a] → Forall (λ w, dotless w = true) [t; f; a] →
  CheckSchema.find_argument (source p) (t, f, a) = CheckSchema.find_argument (target p) (t, f, a) →
  decides (without_cache (change_field_argument_type p c)) (Breaks p ChangeFieldArgumentType [t; f; a]).
Proof.
  intros Hp HF Hsame. apply Forall_cons in HF as [? [? [? _]%Forall_cons]%Forall_cons].
  destruct Hwf as (Hs & Hs' & _). destruct (field_is_used_path t f) as (b & Hb & Hb'); [done|].
  destruct (argument_is_used_path t f a) as (b' & Hb1 & Hb1'); [done..|].
  unfold change_field_argument_type.
  rewrite Hp, trim_to_field_path_ok, split_once_path3 by done. simpl. rewrite Hb. simpl.
  rewrite split_once_path by done. simpl.
  destruct (CheckSchema.find_argument (source p) (t, f, a)) as [id|] eqn:E.
  2: { assert (¬ argument_used p t f a) as Hnu by (intros (? & ? & _); congruence).
       apply (decides_without_cache _ None).
       { simpl. rewrite Hb1. destruct b, b'; try done. by destruct Hnu; apply Hb1'. }
       intros sev. split; [done|]. inv_breaks;
         match goal with H : argument_of (source p) _ _ _ _ |- _ => destruct H as (? & ? & _); congruence end. }
  destruct (argument_of_find _ _ _ _ _ Hs E) as (src & Hsi & Hsrc).
  destruct (argument_of_find _ _ _ _ _ Hs' (eq_sym Hsame)) as (tgt & Hti & Htgt).
  simpl. rewrite Hsi, Hti. simpl. destruct b; simpl.
  - rewrite Hb1. assert (field_used p t f) as Hfu by by apply Hb'.
    pose proof (λ sev, breaks_argument_type_iff t f a src tgt sev Hsrc Htgt) as Hiff.
    destruct (decide (fa_base_type src ≠ fa_base_type tgt)) as [Hne|Heq];
      [|destruct (compare _ _); [..|destruct (fa_has_default tgt)|]];
      (eapply decides_without_cache; [simpl; done|]); intros sev; rewrite Hiff, <-?Hb1';
      destruct b'; simpl; clear -Hfu; intuition congruence.
  - apply (decides_without_cache _ None); [done|]. intros sev. split; [done|].
    rewrite (breaks_argument_type_iff t f a src tgt sev Hsrc Htgt). by intros (_ & ?%Hb' & _).
Qed.

Lemma remove_object_type_ok t c :
  path c = t → dotless t = true →
  decides (without_cache (remove_object_type p c)) (Breaks p RemoveObjectType [t]).
Proof.
  intros Hp Ht. destruct Hwf as (Hs & _). unfold remove_object_type. rewrite Hp. case_bool_decide as Hr; simpl.
  2: { apply (decides_without_cache _ None); [done|]. intros sev. split; [done|]. inv_breaks. }
  destruct (any_res_true (λ field, field_is_used p (t +:+ "." +:+ sf_field_name field))
    (λ fd, field_used p t (sf_field_name fd)) (iter_fields (source p) t)) as (b & -> & Hb).
  { intros fd _. change ("." +:+ sf_field_name fd) with (String "." (sf_field_name fd)).
    rewrite <-join2. by apply field_is_used_path. }
  eapply decides_without_cache; [done|]. apply (decides_error _ _ _ _ Hb). intros sev. split.
  - inv_breaks. split; [done|].
    match goal with H : field_used p _ _ |- _ => destruct H as (id & Hid & Hc) end.
    destruct (find_field_Some _ _ _ _ Hs Hid) as (fd & Hl & [= Hty Hfn]). exists fd. rewrite Hfn.
    rewrite iter_fields_filter by done. split; [|by exists id].
    apply list_elem_of_filter. split; [done|]. by eapply list_elem_of_lookup_2.
  - intros (-> & fd & _ & ?). by eapply breaks_root_type.
Qed.

Lemma check_change_ok c segs :
  change_ok c segs → arguments_line_up p (kind c) segs → decides (check_change p c) (Breaks p (kind c) segs).
Proof.
  intros (Hp & HF & Hseg) Hup. unfold check_change.
  assert (∀ k, (∀ sev, ¬ Breaks p k segs sev) → decides (λ cache, Ret (None, cache)) (Breaks p k segs)) as Hsafe.
  { intros k Hk. exists None. split; [by eexists|]. intros sev. split; [done|]. by intros ?%Hk. }
  assert (∀ (k : ChangeKind) (m : gmap string Z) msg,
    (∀ sev, Breaks p k segs sev ↔ sev = Error ∧ is_Some (m !! join "." segs)) →
    decides (without_cache (Ret (if negb (bool_decide (is_Some (m !! path c))) then None
      else Some (MkDiagnostic msg Error)))) (Breaks p k segs)) as Hpath.
  { intros k m msg HB. eapply decides_without_cache; [done|].
    apply (decides_error _ _ _ _ (bool_decide_eq_true _)). by rewrite Hp. }
  destruct (kind c) eqn:Hk; simpl in Hseg; try (apply Hsafe; by inversion 1).
  all: try (apply Hpath; intros sev; (split; [by inv_breaks|intros [-> ?]; by constructor])).
  all: try (destruct segs as [|t [|f [|a [|? ?]]]]; try done).
  all: apply Forall_cons in HF as H; destruct H as [Ht _].
  all: eauto using remove_object_type_ok, remove_field_ok, add_field_ok, change_field_type_ok,
    add_field_argument_ok, change_field_argument_type_ok, remove_field_argument_ok,
    remove_field_argument_default_ok.
Qed.
End rules.

(** ** Properties *)

(** The diagnostic of a change, from an empty cache. *)
Definition verdict (p : CheckParams) (c : Change) : option CheckDiagnostic :=
  match check_change p c None with Ret (d, _) => d | Panic _ => None end.

Lemma check_loop_verdicts p used changes cache :
  params_wf p → find_used_input_types p = Ret used → (∀ t, t ∈ used ↔ input_type_used p t) →
  (∀ c, c ∈ changes → ∃ segs, change_ok c segs ∧ arguments_line_up p (kind c) segs) → cache_ok used cache →
  check_loop p changes cache = Ret (omap (verdict p) changes).
Proof.
  intros Hwf Hu Hin. revert cache. induction changes as [|c changes IH]; intros cache Hok Hc; [done|]. simpl.
  destruct (Hok c) as (segs & Hs & Hup); [set_solver|].
  destruct (check_change_ok p Hwf used Hu Hin c segs Hs Hup) as (d & Hd & _).
  destruct (Hd cache Hc) as (cache' & -> & Hc'). simpl. rewrite IH; [|set_solver|done]. simpl.
  assert (verdict p c = d) as ->; [|by destruct d].
  unfold verdict. by destruct (Hd None (or_introl eq_refl)) as (? & -> & _).
Qed.


(** [find_used_input_types] terminates with the types reachable from the
    types of the used arguments through the fields of the source schema, even
    when input types refer to each other in a cycle, and the set does not
    depend on the order in which the hash map enumerates the arguments. *)
Theorem find_used_input_types_closure (p : CheckParams) (keys : list ArgumentId)
    (Hwf : params_wf p) (Hkeys : keys ≡ₚ (map_to_list (count_per_field_argument (field_usage p))).*1) :
  ∃ used, find_used_input_types_in_order p keys = Ret used ∧ ∀ t, t ∈ used ↔ input_type_used p t.
Proof.
  destruct Hwf as (Hs & Ht & Hids). assert (∀ id, id ∈ keys ↔ is_Some (count_per_field_argument (field_usage p) !! id)) as Hk.
  { intros id. rewrite Hkeys, list_elem_of_fmap. split.
    - intros ((id' & n) & -> & Hl%elem_of_map_to_list). simpl. by rewrite Hl.
    - intros [n Hl]. exists (id, n). split; [done|]. by apply elem_of_map_to_list. }
  destruct (used_in_order_spec p keys Hs) as (used & E & Hin).
  - apply Forall_forall. intros id Hid. apply Hids, Hk, Hid.
  - exists used. split; [done|]. intros t. rewrite Hin. unfold input_type_used. by setoid_rewrite Hk.
Qed.

(** Nothing breaks when nothing is used. *)
Lemma unused_no_breaks p k segs sev :
  (∀ t f, ¬ field_used p t f) → (∀ t f a, ¬ argument_used p t f a) → (∀ t f a, ¬ argument_left_out p t f a) →
  (∀ t, ¬ input_type_used p t) → type_condition_counts (field_usage p) = ∅ →
  count_per_enum_value (field_usage p) = ∅ → ¬ Breaks p k segs sev.
Proof.
  intros H1 H2 H3 H4 H5 H6 HB. destruct HB; rewrite ?H5, ?H6, ?lookup_empty in *;
    try case_decide; try match goal with H : is_Some None |- _ => by destruct H end;
    first [by eapply H1|by eapply H2|by eapply H3|by eapply H4].
Qed.

(** A diff is never reported when the operations use nothing: with empty
    counters [check] returns no diagnostic for any diff with well-formed paths
    whose arguments line up. *)
Theorem check_unused_is_silent (source target : Schema) (changes : list Change) (n : Z)
    (Hs : schema_wf source) (Ht : schema_wf target)
    (Hok : ∀ c, c ∈ changes →
      ∃ segs, change_ok c segs ∧
        arguments_line_up (MkParams source target changes (set_increment FieldUsage_default n)) (kind c) segs) :
  check (MkParams source target changes (set_increment FieldUsage_default n)) = Ret [].
Proof.
  set (p := MkParams _ _ _ _) in *. assert (params_wf p) as Hwf.
  { split_and!; [done|done|]. intros id [? H]. simpl in H. by rewrite lookup_empty in H. }
  destruct (find_used_input_types_spec p Hwf) as (used & Hu & Hin).
  unfold check. rewrite (check_loop_verdicts p used) by (try done; by left). f_equal.
  assert (∀ c, c ∈ changes → verdict p c = None) as Hnone.
  { intros c Hc. destruct (Hok c Hc) as (segs & Hseg & Hup).
    destruct (check_change_ok p Hwf used Hu Hin c segs Hseg Hup) as (d & Hd & HB).
    unfold verdict. destruct (Hd None (or_introl eq_refl)) as (? & -> & _).
    destruct d as [d|]; [|done]. destruct (unused_no_breaks p (kind c) segs (severity d)); try done.
    - intros t f (id & _ & [? H]). simpl in H. by rewrite lookup_empty in H.
    - intros t f a (id & _ & [? H]). simpl in H. by rewrite lookup_empty in H.
    - intros t f a (id & _ & [? H]). simpl in H. by rewrite lookup_empty in H.
    - intros t (id & arg & [? H] & _). simpl in H. by rewrite lookup_empty in H.
    - by apply HB. }
  change (check_diff p) with changes. clear -Hnone.
  induction changes as [|c changes IH]; [done|]. simpl. rewrite Hnone by set_solver. apply IH. set_solver.
Qed.

(** ** Operation checks: concrete cases

    Snapshot tests of [operation-checks/tests/cases] evaluated on the model, the
    witnesses of the properties of [CheckBreaks], and two behaviours of the
    argument rules that contradict their comments. *)
From S2P Require Import Check.

(** Aggregates one query on the source schema and runs the checks on a diff. *)
Definition run_check (src tgt : ServiceDocument) (query : ExecutableDocument) (changes : list (ChangeKind * string))
    : res (list CheckDiagnostic) :=
  op ← operation_from query;
  usage ← aggregate_field_usage 20 op (schema_from src) FieldUsage_default;
  check (MkParams (schema_from src) (schema_from tgt)
           ((λ c : ChangeKind * string, MkChange c.2 c.1 Span_empty) <$> changes) usage).

Definition nullable (n : string) : AType := ANamed n true.
Definition non_null (n : string) : AType := ANamed n false.

(** [remove_mutation_root.graphql] *)
Example remove_mutation_root :
  let qu := AType_ "Qu" (AKObject [MkAField "everything" [] (AList (nullable "String") true)]) in
  let mu := AType_ "Mu" (AKObject [MkAField "deleteEverything" [] (nullable "Qu")]) in
  run_check [ASchema (Some "Qu") (Some "Mu") None; qu; mu] [ASchema (Some "Qu") None None; qu]
    (MkDocument [] [MkAOperation Mutation [] [ASField "deleteEverything" [] [ASField "everything" [] []]]])
    [(RemoveObjectType, "Mu")]
  = Ret [MkDiagnostic "The root type `Mu` was removed but it is still used by clients." Error].
Proof. vm_compute. reflexivity. Qed.

(** [add_required_input_field.graphql] *)
Definition say_hi : ADefinition :=
  AType_ "Query" (AKObject [MkAField "sayHi" [MkAInput "params" (nullable "GreetingParams") false] (non_null "String")]).
Definition greeting_old : ServiceDocument :=
  [AType_ "GreetingParams" (AKInputObject [MkAInput "name" (non_null "String") false]); say_hi].
Definition greeting_new : ServiceDocument :=
  [say_hi; AType_ "GreetingParams" (AKInputObject [MkAInput "name" (non_null "String") false;
     MkAInput "honorifics" (AList (non_null "String") false) false])].
Definition greet : ExecutableDocument :=
  MkDocument [] [MkAOperation Query [MkAVariable (non_null "GreetingParams") None]
    [ASField "sayHi" [("params", AOtherValue)] []]].
Example add_required_input_field :
  run_check greeting_old greeting_new greet [(AddField, "GreetingParams.honorifics")]
  = Ret [MkDiagnostic "The new required field at `GreetingParams.honorifics` would break clients that are not providing it." Error]
  ∧ run_check greeting_new greeting_old greet [(RemoveField, "GreetingParams.honorifics")]
  = Ret [MkDiagnostic "The field `GreetingParams.honorifics` was removed but it is still used by clients." Error].
Proof. split; vm_compute; reflexivity. Qed.

(** ** Witnesses *)
Definition greeting_usage : FieldUsage := MkUsage 1 {[1 := 1%Z]} {[0 := 1%Z]} ∅ ∅ ∅.
Definition greeting_params : CheckParams :=
  MkParams (schema_from greeting_old) (schema_from greeting_new)
    [MkChange "GreetingParams.honorifics" AddField Span_empty] greeting_usage.
Lemma greeting_params_wf : params_wf greeting_params.
Proof.
  split_and!; [apply schema_from_wf|apply schema_from_wf|]. intros id [n H]. simpl in H.
  apply lookup_singleton_Some in H as [<- _]. vm_compute. lia.
Qed.


Lemma find_used_input_types_closure_witness :
  ∃ used, find_used_input_types_in_order greeting_params [0] = Ret used ∧
          ∀ t, t ∈ used ↔ input_type_used greeting_params t.
Proof.
  apply (find_used_input_types_closure greeting_params [0]).
  - apply greeting_params_wf.
  - vm_compute. reflexivity.
Defined.

Lemma check_unused_is_silent_witness :
  check (MkParams (schema_from greeting_new) (schema_from greeting_old)
    [MkChange "GreetingParams.honorifics" RemoveField Span_empty] (set_increment FieldUsage_default 1)) = Ret [].
Proof.
  apply (check_unused_is_silent (schema_from greeting_new) (schema_from greeting_old)
    [MkChange "GreetingParams.honorifics" RemoveField Span_empty] 1).
  - apply schema_from_wf.
  - apply schema_from_wf.
  - intros c ->%list_elem_of_singleton. exists ["GreetingParams"; "honorifics"].
    split; [|done]. split_and!; [reflexivity|repeat constructor|reflexivity].
Defined.

(** ** [change_field_argument_type] reads the wrong argument of the target *)

(** [type Query { b(x: Int): Int }], then [b(x: String)] after a new field
    [a(y: Int! = 1)]: the index of [Query.b.x] in the source is that of
    [Query.a.y] in the target. *)
Definition arg_old : ServiceDocument :=
  [AType_ "Query" (AKObject [MkAField "b" [MkAInput "x" (nullable "Int") false] (nullable "Int")])].
Definition arg_new : ServiceDocument :=
  [AType_ "Query" (AKObject [MkAField "a" [MkAInput "y" (non_null "Int") true] (nullable "Int");
                             MkAField "b" [MkAInput "x" (nullable "String") false] (nullable "Int")])].
(** [type Query { a(y: Int): Int  b(x: Int): Int }], then [b(x: String)] only. *)
Definition arg_two : ServiceDocument :=
  [AType_ "Query" (AKObject [MkAField "a" [MkAInput "y" (nullable "Int") false] (nullable "Int");
                             MkAField "b" [MkAInput "x" (nullable "Int") false] (nullable "Int")])].
Definition arg_one : ServiceDocument :=
  [AType_ "Query" (AKObject [MkAField "b" [MkAInput "x" (nullable "String") false] (nullable "Int")])].
Definition query_bx : ExecutableDocument :=
  MkDocument [] [MkAOperation Query [] [ASField "b" [("x", AOtherValue)] []]].

(** [change_field_argument_type] looks the argument up in the source schema
    twice and indexes the target with the source's index: when another field
    with an argument is added, a used argument whose type changed from [Int] to
    [String] is compared with the wrong argument and not reported, and when an
    argument is removed the index is out of bounds and the check panics. *)
Theorem argument_type_change_missed :
  run_check arg_old arg_new query_bx [(ChangeFieldArgumentType, "Query.b.x")] = Ret [] ∧
  run_check arg_old arg_one query_bx [(ChangeFieldArgumentType, "Query.b.x")]
  = Ret [MkDiagnostic "The argument `Query.b.x` changed type but it is used by clients." Error] ∧
  run_check arg_two arg_one query_bx [(ChangeFieldArgumentType, "Query.b.x")] = Panic "index out of bounds".
Proof. split_and!; vm_compute; reflexivity. Qed.

(** ** Arguments of interface fields *)

(** [interface Node { id: ID }] used through [type Query { node: Node }], then
    [interface Node { id(format: Int): ID }]. *)
Definition node_query : ADefinition := AType_ "Query" (AKObject [MkAField "node" [] (nullable "Node")]).
Definition node_old : ServiceDocument :=
  [node_query; AType_ "Node" (AKInterface [MkAField "id" [] (nullable "ID")])].
Definition node_new : ServiceDocument :=
  [node_query; AType_ "Node" (AKInterface [MkAField "id" [MkAInput "format" (nullable "Int") false] (nullable "ID")])].

(** The conversion of a service document records no arguments for interface
    fields, so adding even an optional argument to an interface field in use
    makes [check] panic in [add_field_argument]. *)
Theorem interface_argument_panics :
  run_check node_old node_new
    (MkDocument [] [MkAOperation Query [] [ASField "node" [] [ASField "id" [] []]]])
    [(AddFieldArgument, "Node.id.format")]
  = Panic "Broken invariant: added argument not found in target schema.".
Proof. vm_compute. reflexivity. Qed.
