(* ===== verification/Patch.v ===== *)
(** * [graphql-schema-diff]: [patch.rs] and [patch/*.rs]

    Applies a diff to a source schema. Every function of the code that appends
    to the output string is a function to the text it appends. Slicing the
    source by the spans of the parsed document can panic ([str_slice]). *)
From Stdlib Require Import Ascii.
From S2P Require Import Prelude RustStd Change SchemaAst.
Local Open Scope string_scope.
Local Open Scope list_scope.
Local Open Scope nat_scope.

Definition INDENTATION : string := "  ".
Definition nl : string := String "010" "".

(** ** [paths.rs] *)
Inductive InterfaceImplementationChange := Added | Removed.
Global Instance InterfaceImplementationChange_eq_dec : EqDecision InterfaceImplementationChange.
Proof. solve_decision. Defined.
Definition impl_discriminant (c : InterfaceImplementationChange) : nat := match c with Added => 0 | Removed => 1 end.
Global Instance impl_discriminant_inj : Inj (=) (=) impl_discriminant.
Proof. by intros [] []. Qed.
Global Instance Impl_ord : Ord InterfaceImplementationChange := cmp_on impl_discriminant.
Global Instance Impl_ord_laws : OrdLaws InterfaceImplementationChange := cmp_on_laws impl_discriminant.
Global Instance Impl_ord_eq : OrdEq InterfaceImplementationChange.
Proof. apply (cmp_on_ord_eq impl_discriminant). Qed.

(** [[&str; 3]] and [[&str; 2]], ordered lexicographically. *)
Abbreviation path3 := (string * string * string)%type.
Abbreviation path2 := (string * string)%type.

Definition split_path (path : string) : path3 :=
  let segments := str_split "."%char path in
  (default "" (segments !! 0), default "" (segments !! 1), default "" (segments !! 2)).

Record Paths := MkPaths {
  p_diff : list Change;
  p_resolved_spans : list string;
  p_source : string;
  p_paths : list (path3 * nat);
  p_interface_impls : list (path2 * InterfaceImplementationChange);
}.

Definition interface_impl_change (change : Change) : option (path2 * InterfaceImplementationChange) :=
  let '(interface, implementer, _) := split_path (path change) in
  match kind change with
  | AddInterfaceImplementation => Some ((implementer, interface), Added)
  | RemoveInterfaceImplementation => Some ((implementer, interface), Removed)
  | _ => None
  end.
Definition Paths_new (diff : list Change) (resolved_spans : list string) (source : string) : Paths :=
  MkPaths diff resolved_spans source
    (sort (imap (λ idx change, (split_path (path change), idx)) diff))
    (sort (omap interface_impl_change diff)).

(** [ChangeView]: the index of a change. *)
Definition iter_top_level (p : Paths) : list nat :=
  snd <$> filter (λ e : path3 * nat, e.1.1.2 = "" ∧ e.1.2 = "") (p_paths p).
Definition iter_second_level (p : Paths) (parent : string) : list nat :=
  snd <$> filter (λ e : path3 * nat, e.1.1.1 = parent ∧ e.1.1.2 ≠ "" ∧ e.1.2 = "") (p_paths p).
Definition iter_exact (p : Paths) (path : path3) : list nat :=
  let first := partition_point (λ e : path3 * nat, ltb e.1 path) (p_paths p) in
  snd <$> take_while (λ e : path3 * nat, eqb e.1 path) (drop first (p_paths p)).
Definition added_interface_impls (p : Paths) (prefix : string) : list string :=
  let start := partition_point (λ e : path2 * InterfaceImplementationChange, ltb e.1.1 prefix)
                 (p_interface_impls p) in
  (λ e : path2 * InterfaceImplementationChange, e.1.2) <$>
    filter (λ e : path2 * InterfaceImplementationChange, e.2 = Added)
      (take_while (λ e : path2 * InterfaceImplementationChange, eqb e.1.1 prefix)
         (drop start (p_interface_impls p))).
Definition is_interface_impl_removed (p : Paths) (prefix interface : string) : bool :=
  match binary_search ((prefix, interface), Removed) (p_interface_impls p) with inl _ => true | inr _ => false end.

Definition view_change (p : Paths) (idx : nat) : res Change :=
  expect "index out of bounds" (p_diff p !! idx).
Definition resolved_str (p : Paths) (idx : nat) : res string :=
  expect "index out of bounds" (p_resolved_spans p !! idx).
(** The second part of the path. *)
Definition second_level (change : Change) : option string :=
  let '(_, second, _) := split_path (path change) in if is_empty second then None else Some second.

Definition slice_source (p : Paths) (s : Span) : res string :=
  str_slice (p_source p) (span_start s) (span_end s).

(** The text appended by a loop. *)
Definition concat_res {A} (f : A → res string) (l : list A) : res string :=
  texts ← mapM_res f l; Ret (join "" texts).

Section patch.
Context `{CynicParser}.

(** ** [directives.rs] *)
Definition patch_directive_definition (p : Paths) (d : DirectiveDefinition) : res string :=
  changes ← mapM_res (view_change p) (iter_exact p (dd_name d, "", ""));
  if existsb (λ c, bool_decide (kind c = RemoveDirectiveDefinition)) changes then Ret ""
  else text ← slice_source p (dd_span d); Ret (text +:+ nl +:+ nl).

Definition render_directive (p : Paths) (d : Directive) : res string :=
  match dir_argument_spans d with
  | [] => Ret (" @" +:+ dir_name d)
  | spans =>
      texts ← mapM_res (slice_source p) spans;
      Ret (" @" +:+ dir_name d +:+ "(" +:+ join ", " texts +:+ ")")
  end.
Definition patch_directives (p : Paths) (ds : list Directive) : res string :=
  concat_res (render_directive p) ds.

(** ** [schema_definitions.rs] *)
Inductive DefinitionOrExtension := IsExtension | IsDefinition.
Record NewRoots := MkRoots {
  new_query_type : option string;
  new_mutation_type : option string;
  new_subscription_type : option string;
}.
(** The loop over the changes of the schema definition; [None] is the early
    return on [RemoveSchemaDefinition]. *)
Fixpoint schema_changes (p : Paths) (views : list nat) (r : NewRoots) : res (option NewRoots) :=
  match views with
  | [] => Ret (Some r)
  | idx :: views =>
      change ← view_change p idx;
      match kind change with
      | ChangeQueryType =>
          t ← resolved_str p idx;
          schema_changes p views (MkRoots (Some t) (new_mutation_type r) (new_subscription_type r))
      | ChangeMutationType =>
          t ← resolved_str p idx;
          schema_changes p views (MkRoots (new_query_type r) (Some t) (new_subscription_type r))
      | ChangeSubscriptionType =>
          t ← resolved_str p idx;
          schema_changes p views (MkRoots (new_query_type r) (new_mutation_type r) (Some t))
      | RemoveSchemaDefinition => Ret None
      | _ => schema_changes p views r
      end
  end.

Definition extend_keyword (d : DefinitionOrExtension) : string :=
  match d with IsExtension => "extend " | IsDefinition => "" end.
(** One entry of the rendered schema definition. *)
Definition root_line (operation_name : string) (replacement : option string) (in_source : option RootOperation)
    : string :=
  match (match replacement with Some t => Some t | None => named_type <$> in_source end) with
  | Some type_name =>
      if is_empty type_name then "" else INDENTATION +:+ operation_name +:+ ": " +:+ type_name +:+ nl
  | None => ""
  end.
Definition is_some {A} (o : option A) : bool := match o with Some _ => true | None => false end.

Definition patch_schema_definition (p : Paths) (definition : SchemaDefinition) (doe : DefinitionOrExtension)
    : res string :=
  roots ← schema_changes p (iter_exact p ("", "", "")) (MkRoots None None None);
  match roots with
  | None => Ret ""
  | Some r =>
      directives ← patch_directives p (sd_directives definition);
      let head := extend_keyword doe +:+ "schema" +:+ directives in
      let any_root_type_defined :=
        is_some (new_query_type r) || is_some (new_mutation_type r) || is_some (new_subscription_type r)
        || is_some (query_type definition) || is_some (mutation_type definition)
        || is_some (subscription_type definition) in
      if negb any_root_type_defined then Ret (head +:+ nl +:+ nl)
      else Ret (head +:+ " {" +:+ nl
                +:+ root_line "query" (new_query_type r) (query_type definition)
                +:+ root_line "mutation" (new_mutation_type r) (mutation_type definition)
                +:+ root_line "subscription" (new_subscription_type r) (subscription_type definition)
                +:+ "}" +:+ nl +:+ nl)
  end.

(** ** [type_definitions.rs] *)

(** The locals filled by the loop over the changes below a type: the text of the
    added entries, the names removed and the new types. *)
Record Below := MkBelow {
  added_text : string;
  removed_names : list string;
  changed_field_types : list (string * string);
}.
Definition added_line (text : string) : string := INDENTATION +:+ trim text +:+ nl.

(** One change below an object, interface or input object. *)
Definition field_change (p : Paths) (b : Below) (idx : nat) : res Below :=
  change ← view_change p idx;
  match kind change with
  | ChangeFieldType =>
      field_name ← expect "ChangeFieldType without field name" (second_level change);
      t ← resolved_str p idx;
      Ret (MkBelow (added_text b) (removed_names b) (changed_field_types b ++ [(field_name, t)]))
  | RemoveField =>
      field_name ← expect "RemoveField without field name" (second_level change);
      Ret (MkBelow (added_text b) (removed_names b ++ [field_name]) (changed_field_types b))
  | AddField =>
      t ← resolved_str p idx;
      Ret (MkBelow (added_text b +:+ added_line t) (removed_names b) (changed_field_types b))
  | _ => Ret b
  end.
(** The type of a field after the change: [binary_search_by] in the new types. *)
Definition patched_type (b : Below) (name : string) (ty : Ty) : res string :=
  match binary_search_by (λ e : string * string, cmp e.1 name) (changed_field_types b) with
  | inl idx => e ← expect "index out of bounds" (changed_field_types b !! idx); Ret e.2
  | inr _ => Ret (ty_to_string ty)
  end.
Definition is_removed (b : Below) (name : string) : bool :=
  is_ok (binary_search name (sort (removed_names b))).

Definition patch_input_field (p : Paths) (b : Below) (field : InputValueDefinition) : res string :=
  if is_removed b (iv_name field) then Ret ""
  else
    ty ← patched_type b (iv_name field) (iv_ty field);
    directives ← patch_directives p (iv_directives field);
    Ret (INDENTATION +:+ iv_name field +:+ ": " +:+ ty +:+ directives +:+ nl).
Definition patch_input_object (p : Paths) (fields : list InputValueDefinition) (parent : string) : res string :=
  b ← fold_res (field_change p) (MkBelow "" [] []) (iter_second_level p parent);
  texts ← concat_res (patch_input_field p b) fields;
  Ret (" {" +:+ nl +:+ added_text b +:+ texts +:+ "}").

Definition patch_argument (p : Paths) (argument : InputValueDefinition) : res string :=
  description ← match iv_description argument with
                | Some s => t ← slice_source p s; Ret (t +:+ " ")
                | None => Ret ""
                end;
  default_text ← match iv_default_value argument with
                 | Some _ => t ← slice_source p (iv_default_value_span argument); Ret (" " +:+ t)
                 | None => Ret ""
                 end;
  directives ← patch_directives p (iv_directives argument);
  Ret (description +:+ iv_name argument +:+ ": " +:+ ty_to_string (iv_ty argument)
       +:+ default_text +:+ directives).
Definition patch_field (p : Paths) (b : Below) (field : FieldDefinition) : res string :=
  if is_removed b (fd_name field) then Ret ""
  else
    description ← match fd_description field with
                  | Some s => t ← slice_source p s; Ret (INDENTATION +:+ t +:+ nl)
                  | None => Ret ""
                  end;
    arguments ← match fd_arguments field with
                | [] => Ret ""
                | args => texts ← mapM_res (patch_argument p) args; Ret ("(" +:+ join ", " texts +:+ ")")
                end;
    ty ← patched_type b (fd_name field) (fd_ty field);
    directives ← patch_directives p (fd_directives field);
    Ret (description +:+ INDENTATION +:+ fd_name field +:+ arguments +:+ ": " +:+ ty +:+ directives +:+ nl).
Definition patch_fields (p : Paths) (fields : list FieldDefinition) (parent : string) : res string :=
  b ← fold_res (field_change p) (MkBelow "" [] []) (iter_second_level p parent);
  texts ← concat_res (patch_field p b) fields;
  Ret (" {" +:+ nl +:+ added_text b +:+ texts +:+ "}").

Definition enum_change (p : Paths) (b : Below) (idx : nat) : res Below :=
  change ← view_change p idx;
  match kind change with
  | AddEnumValue =>
      t ← resolved_str p idx;
      Ret (MkBelow (added_text b +:+ added_line t) (removed_names b) (changed_field_types b))
  | RemoveEnumValue =>
      value ← expect "RemoveEnumValue without value" (second_level change);
      Ret (MkBelow (added_text b) (removed_names b ++ [value]) (changed_field_types b))
  | _ => Ret b
  end.
Definition patch_enum_value (p : Paths) (b : Below) (value : EnumValueDefinition) : res string :=
  if is_removed b (ev_value value) then Ret ""
  else directives ← patch_directives p (ev_directives value);
       Ret (INDENTATION +:+ ev_value value +:+ directives +:+ nl).
Definition patch_enum_values (p : Paths) (values : list EnumValueDefinition) (enum_name : string) : res string :=
  b ← fold_res (enum_change p) (MkBelow "" [] []) (iter_second_level p enum_name);
  texts ← concat_res (patch_enum_value p b) values;
  Ret (" {" +:+ nl +:+ added_text b +:+ texts +:+ "}").

(** The members added and removed by the changes below a union. *)
Definition union_change (p : Paths) (acc : list string * list string) (idx : nat)
    : res (list string * list string) :=
  change ← view_change p idx;
  match kind change with
  | AddUnionMember =>
      m ← expect "AddUnionMember without member name" (second_level change); Ret (acc.1 ++ [m], acc.2)
  | RemoveUnionMember =>
      m ← expect "RemoveUnionMember without member name" (second_level change); Ret (acc.1, acc.2 ++ [m])
  | _ => Ret acc
  end.
Definition patched_members (p : Paths) (members : list UnionMember) (union_name : string) : res (list string) :=
  '(added, removed) ← fold_res (union_change p) ([], []) (iter_second_level p union_name);
  Ret (filter (λ name, is_ok (binary_search name (sort removed)) = false) (um_name <$> members) ++ added).
Definition patch_union (p : Paths) (members : list UnionMember) (union_name : string) : res string :=
  members ← patched_members p members union_name;
  Ret match members with [] => "" | _ => " = " +:+ join " | " members end.

Definition type_prefix (t : TypeDefinition) : string :=
  match t with
  | TScalar _ => "scalar" | TObject _ _ _ => "type" | TInterface _ _ _ => "interface"
  | TUnion _ _ => "union" | TEnum _ _ => "enum" | TInputObject _ _ => "input"
  end.
Definition is_type_removal (k : ChangeKind) : bool :=
  match k with
  | RemoveObjectType | RemoveUnion | RemoveEnum | RemoveScalar | RemoveInterface | RemoveInputObject => true
  | _ => false
  end.
Definition source_implements (t : TypeDefinition) : list string :=
  match t with TObject _ impls _ | TInterface _ impls _ => impls | _ => [] end.
Definition patched_implements (p : Paths) (t : TypeDefinition) : list string :=
  dedup (sort (filter (λ i, is_interface_impl_removed p (ty_name t) i = false)
                 (source_implements t ++ added_interface_impls p (ty_name t)))).

Definition patch_type_definition (p : Paths) (t : TypeDefinition) (doe : DefinitionOrExtension) : res string :=
  changes ← mapM_res (view_change p) (iter_exact p (ty_name t, "", ""));
  if existsb (λ c, is_type_removal (kind c)) changes then Ret ""
  else
    description ← match th_description (ty_header t) with
                  | Some s => text ← slice_source p s; Ret (text +:+ nl)
                  | None => Ret ""
                  end;
    let implements := patched_implements p t in
    directives ← patch_directives p (th_directives (ty_header t));
    body ← match t with
           | TScalar _ => Ret ""
           | TObject _ _ fields | TInterface _ _ fields => patch_fields p fields (ty_name t)
           | TUnion _ members => patch_union p members (ty_name t)
           | TEnum _ values => patch_enum_values p values (ty_name t)
           | TInputObject _ fields => patch_input_object p fields (ty_name t)
           end;
    Ret (description +:+ extend_keyword doe +:+ type_prefix t +:+ " " +:+ ty_name t
         +:+ match implements with [] => "" | _ => " implements " +:+ join " & " implements end
         +:+ directives +:+ body +:+ nl +:+ nl).

(** ** [patch.rs] *)
Definition is_type_addition (k : ChangeKind) : bool :=
  match k with
  | AddSchemaDefinition | AddObjectType | AddUnion | AddEnum | AddScalar | AddInterface
  | AddDirectiveDefinition | AddInputObject => true
  | _ => false
  end.
Definition top_level_text (p : Paths) (idx : nat) : res string :=
  change ← view_change p idx;
  if is_type_addition (kind change) then t ← resolved_str p idx; Ret (t +:+ nl +:+ nl) else Ret "".
Definition patch_definition (p : Paths) (d : Definition_) : res string :=
  match d with
  | DSchema def => patch_schema_definition p def IsDefinition
  | DSchemaExtension def => patch_schema_definition p def IsExtension
  | DType t => patch_type_definition p t IsDefinition
  | DTypeExtension t => patch_type_definition p t IsExtension
  | DDirective d => patch_directive_definition p d
  end.

(** [parse] is [cynic_parser::parse_type_system_document]; [None] is a parse
    error, returned as such. *)
Definition patch (parse : string → option TypeSystemDocument) (source : string) (diff : list Change)
    (resolved_spans : list string) : res (option string) :=
  match (if is_empty (trim source) then Some [] else parse source) with
  | None => Ret None
  | Some parsed =>
      let paths := Paths_new diff resolved_spans source in
      added ← concat_res (top_level_text paths) (iter_top_level paths);
      texts ← concat_res (patch_definition paths) parsed;
      Ret (Some (added +:+ texts))
  end.
End patch.
