(* ===== verification/PatchProps.v ===== *)
(** * What [patch] does with a diff

    The sorted path index and its binary searches find exactly the changes of
    the diff with a given path; from that, what happens to the fields, enum
    values, union members, implemented interfaces and root types of a patched
    definition is stated directly on the diff. *)
From Stdlib Require Import Ascii.
From S2P Require Import Prelude RustStd Change SchemaAst Patch.
Local Open Scope string_scope.
Local Open Scope list_scope.
Local Open Scope nat_scope.
#[local] Opaque join trim.

(** ** Sorted lists *)
Lemma StronglySorted_omap {A B} (R : relation A) (S : relation B) (f : A → option B) l :
  (∀ x y x' y', x ∈ l → y ∈ l → R x y → f x = Some x' → f y = Some y' → S x' y') →
  StronglySorted R l → StronglySorted S (omap f l).
Proof.
  intros Hf Hl. induction Hl as [|x l Hl IH Hx]; [constructor|]. simpl.
  assert (StronglySorted S (omap f l)) as Hs by (apply IH; intros; eapply Hf; [..|done|done|done]; set_solver).
  destruct (f x) as [x'|] eqn:E; [|done]. constructor; [done|]. apply Forall_forall.
  intros y' (y & Hy & E')%list_elem_of_omap. eapply Hf; [| | |exact E|exact E']; [set_solver..|].
  by eapply Forall_forall in Hx.
Qed.

(** ** The path index *)
Section index.
Context (diff : list Change) (spans : list string) (source : string).
Let p := Paths_new diff spans source.

(** The change at [i] has kind [k] and the path [key]. *)
Definition has_change (i : nat) (k : ChangeKind) (key : path3) : Prop :=
  ∃ c, diff !! i = Some c ∧ kind c = k ∧ split_path (path c) = key.
Definition kind_at (i : nat) : option ChangeKind := kind <$> diff !! i.
Definition text_at (i : nat) : string := default "" (spans !! i).

Lemma elem_of_p_paths (e : path3 * nat) :
  e ∈ p_paths p ↔ ∃ c, diff !! e.2 = Some c ∧ split_path (path c) = e.1.
Proof.
  unfold p, Paths_new. cbn [p_paths]. rewrite elem_of_sort, elem_of_lookup_imap. split.
  - intros (i & c & -> & ?). by exists c.
  - intros (c & ? & E). exists e.2, c. split; [|done]. by rewrite E, <-surjective_pairing.
Qed.
Lemma p_paths_sorted : StronglySorted cmp_le (p_paths p).
Proof. apply sort_sorted. Qed.
Lemma p_paths_sorted_by : sorted_by fst (p_paths p).
Proof.
  pose proof p_paths_sorted as Hs. induction Hs as [|e l Hl IH He]; constructor; [done|].
  eapply Forall_impl; [exact He|]. intros e' Hle. by apply (cmp_le_fst e e').
Qed.

Lemma iter_exact_spec (key : path3) i :
  i ∈ iter_exact p key ↔ ∃ c, diff !! i = Some c ∧ split_path (path c) = key.
Proof.
  unfold iter_exact. rewrite (key_range_spec fst) by apply p_paths_sorted_by.
  rewrite list_elem_of_fmap. setoid_rewrite list_elem_of_filter. setoid_rewrite elem_of_p_paths. split.
  - intros ([key' i'] & -> & E%cmp_eq & c & ? & ?). simpl in *. subst. by eexists.
  - intros (c & ? & ?). exists (key, i). split; [done|]. split; [apply cmp_refl|]. by exists c.
Qed.
Lemma view_change_ok i c : diff !! i = Some c → view_change p i = Ret c.
Proof. intros Hc. unfold view_change. simpl. by rewrite Hc. Qed.
Lemma view_changes_exact (key : path3) :
  ∃ cs, mapM_res (view_change p) (iter_exact p key) = Ret cs ∧
    ∀ c, c ∈ cs ↔ c ∈ diff ∧ split_path (path c) = key.
Proof.
  assert (∀ l, (∀ i, i ∈ l → is_Some (diff !! i)) →
    ∃ cs, mapM_res (view_change p) l = Ret cs ∧ ∀ c, c ∈ cs ↔ ∃ i, i ∈ l ∧ diff !! i = Some c) as Hl.
  { induction l as [|i l IH]; intros Hi; simpl; [exists []; set_solver|].
    destruct (Hi i) as [c Hc]; [set_solver|]. rewrite (view_change_ok i c Hc). simpl.
    destruct IH as (cs & -> & Hcs); [set_solver|]. simpl. exists (c :: cs). split; [done|].
    intros c'. rewrite elem_of_cons, Hcs. set_solver. }
  destruct (Hl (iter_exact p key)) as (cs & -> & Hcs).
  { intros i (c & ? & _)%iter_exact_spec. by eexists. }
  exists cs. split; [done|]. intros c. rewrite Hcs. setoid_rewrite iter_exact_spec. split.
  - intros (i & (c' & Hc & ?) & Hc'). rewrite Hc in Hc'. simplify_eq. split; [|done].
    by eapply list_elem_of_lookup_2.
  - intros ((i & Hi)%list_elem_of_lookup & ?). exists i. split; [|done]. by exists c.
Qed.

(** The entries one level below a type, sorted. *)
Definition below (parent : string) : list (path3 * nat) :=
  filter (λ e : path3 * nat, e.1.1.1 = parent ∧ e.1.1.2 ≠ "" ∧ e.1.2 = "") (p_paths p).
Lemma elem_of_below parent (e : path3 * nat) :
  e ∈ below parent ↔ ∃ n c, e.1 = (parent, n, "") ∧ n ≠ "" ∧ diff !! e.2 = Some c ∧
                            split_path (path c) = (parent, n, "").
Proof.
  unfold below. rewrite list_elem_of_filter, elem_of_p_paths. destruct e as [[[a b] d] i]. simpl. split.
  - intros ((-> & Hb & ->) & c & ? & ?). by exists b, c.
  - intros (n & c & [= -> -> ->] & ? & ? & ?). split; [done|]. by exists c.
Qed.
(** Entries below one parent are sorted by name. *)
Lemma below_sorted parent :
  StronglySorted (λ e e' : path3 * nat, cmp_le e.1.1.2 e'.1.1.2) (below parent).
Proof.
  assert (∀ l, StronglySorted cmp_le l → Forall (λ e, e.1.1.1 = parent) l →
    StronglySorted (λ e e' : path3 * nat, cmp_le e.1.1.2 e'.1.1.2) l) as Hl.
  { induction 1 as [|e l Hl IH He]; intros HF; [constructor|]. inversion_clear HF as [|? ? Hp HF'].
    constructor; [by apply IH|]. apply Forall_forall. intros e' He'.
    eapply Forall_forall in He; [|done]. eapply Forall_forall in HF'; [|done].
    apply cmp_le_fst, cmp_le_fst, cmp_le_snd in He; [done|]. simpl in *. congruence. }
  apply Hl; [apply StronglySorted_filter, p_paths_sorted|].
  apply Forall_forall. intros e (n & c & -> & _)%elem_of_below. done.
Qed.

(** What the loops over the changes collect. *)
Definition names_of (k : ChangeKind) (l : list (path3 * nat)) : list string :=
  omap (λ e : path3 * nat, if decide (kind_at e.2 = Some k) then Some e.1.1.2 else None) l.
Definition texts_of (k : ChangeKind) (l : list (path3 * nat)) : list string :=
  omap (λ e : path3 * nat, if decide (kind_at e.2 = Some k) then Some (added_line (text_at e.2)) else None) l.
Definition types_of (l : list (path3 * nat)) : list (string * string) :=
  omap (λ e : path3 * nat,
    if decide (kind_at e.2 = Some ChangeFieldType) then Some (e.1.1.2, text_at e.2) else None) l.

Context (Hlen : length spans = length diff).
Lemma resolved_str_ok i c : diff !! i = Some c → resolved_str p i = Ret (text_at i).
Proof.
  intros Hc%lookup_lt_Some. unfold resolved_str, text_at. simpl.
  destruct (lookup_lt_is_Some_2 spans i) as [t ->]; [lia|done].
Qed.
Lemma second_level_ok c parent n :
  split_path (path c) = (parent, n, "") → n ≠ "" → second_level c = Some n.
Proof. intros Hp Hn. unfold second_level. rewrite Hp. unfold is_empty. by rewrite bool_decide_false. Qed.
Lemma join_snoc (l : list string) (t : string) : join "" (t :: l) = t +:+ join "" l.
Proof. with_strategy transparent [join] (unfold join; destruct l; simpl; [by rewrite append_nil|done]). Qed.

(** An entry one level below some type. *)
Definition entry_ok (e : path3 * nat) : Prop :=
  ∃ parent n c, e.1 = (parent, n, "") ∧ n ≠ "" ∧ diff !! e.2 = Some c ∧ split_path (path c) = (parent, n, "").
Lemma below_ok parent e : e ∈ below parent → entry_ok e.
Proof. intros (n & c & ? & ? & ? & ?)%elem_of_below. by exists parent, n, c. Qed.

(** One iteration of a loop over the changes below a type: reads the change of
    the first entry and splits on its kind. *)
Ltac step_changes step IH e l Hl :=
  let Hsub := fresh in
  destruct (Hl e) as (parent & n & c & He & Hn & Hc & Hp); [set_solver|];
  rewrite fmap_cons; cbn [fold_res]; unfold step at 2;
  rewrite (view_change_ok _ _ Hc); cbn [mbind res_bind];
  rewrite ?(resolved_str_ok _ _ Hc), (second_level_ok _ _ _ Hp Hn);
  assert (kind_at e.2 = Some (kind c)) as Hk by (unfold kind_at; by rewrite Hc);
  unfold texts_of, names_of, types_of; cbn [omap list_omap mbind res_bind expect]; rewrite Hk, He;
  cbn [fst snd]; fold (texts_of AddField l) (texts_of AddEnumValue l) (names_of RemoveField l)
    (names_of RemoveEnumValue l) (names_of AddUnionMember l) (names_of RemoveUnionMember l) (types_of l);
  assert (∀ e', e' ∈ l → e' ∈ e :: l) as Hsub by set_solver;
  specialize (λ b, IH b (λ e' He', Hl e' (Hsub e' He')));
  destruct (kind c); cbn [mbind res_bind expect]; rewrite IH; repeat case_decide; simplify_eq;
  cbn [added_text removed_names changed_field_types fst snd];
  rewrite ?join_snoc, ?append_assoc, <-?(assoc_L (++)); done.

Lemma field_changes_spec l b :
  (∀ e, e ∈ l → entry_ok e) →
  fold_res (field_change p) b l.*2 =
  Ret (MkBelow (added_text b +:+ join "" (texts_of AddField l)) (removed_names b ++ names_of RemoveField l)
         (changed_field_types b ++ types_of l)).
Proof.
  revert b. induction l as [|e l IH]; intros [a r t] Hl; [simpl; by rewrite append_nil, !app_nil_r|].
  step_changes field_change IH e l Hl.
Qed.
Lemma enum_changes_spec l b :
  (∀ e, e ∈ l → entry_ok e) →
  fold_res (enum_change p) b l.*2 =
  Ret (MkBelow (added_text b +:+ join "" (texts_of AddEnumValue l))
         (removed_names b ++ names_of RemoveEnumValue l) (changed_field_types b)).
Proof.
  revert b. induction l as [|e l IH]; intros [a r t] Hl; [simpl; by rewrite append_nil, app_nil_r|].
  step_changes enum_change IH e l Hl.
Qed.
Lemma union_changes_spec l acc :
  (∀ e, e ∈ l → entry_ok e) →
  fold_res (union_change p) acc l.*2 =
  Ret (acc.1 ++ names_of AddUnionMember l, acc.2 ++ names_of RemoveUnionMember l).
Proof.
  revert acc. induction l as [|e l IH]; intros [a r] Hl; [simpl; by rewrite !app_nil_r|].
  step_changes union_change IH e l Hl.
Qed.

(** The collected names, directly on the diff. *)
Definition changed_below (k : ChangeKind) (parent n : string) : Prop :=
  n ≠ "" ∧ ∃ i, has_change i k (parent, n, "").
Lemma elem_of_names k parent n : n ∈ names_of k (below parent) ↔ changed_below k parent n.
Proof.
  unfold names_of, changed_below, has_change. rewrite list_elem_of_omap. split.
  - intros (e & (n' & c & He & Hn & Hc & Hp)%elem_of_below & E). unfold kind_at in E. rewrite Hc, He in E.
    simpl in E. case_decide; simplify_eq/=. split; [done|]. by exists e.2, c.
  - intros (Hn & i & c & Hc & Hk & Hp). exists ((parent, n, ""), i). split.
    + apply elem_of_below. by exists n, c.
    + unfold kind_at. simpl. rewrite Hc. simpl. by rewrite decide_True by congruence.
Qed.
Lemma names_sorted k parent : StronglySorted cmp_le (names_of k (below parent)).
Proof.
  eapply StronglySorted_omap; [|apply below_sorted]. intros e e' x y _ _ Hle Hx Hy. simpl in *.
  by repeat case_decide; simplify_eq/=.
Qed.
Lemma elem_of_types parent n t :
  (n, t) ∈ types_of (below parent) ↔
  n ≠ "" ∧ ∃ i, has_change i ChangeFieldType (parent, n, "") ∧ t = text_at i.
Proof.
  unfold types_of, has_change. rewrite list_elem_of_omap. split.
  - intros (e & (n' & c & He & Hn & Hc & Hp)%elem_of_below & E). unfold kind_at in E. rewrite Hc, He in E.
    simpl in E. case_decide; simplify_eq/=. split; [done|]. exists e.2. split; [by exists c|done].
  - intros (Hn & i & (c & Hc & Hk & Hp) & ->). exists ((parent, n, ""), i). split.
    + apply elem_of_below. by exists n, c.
    + unfold kind_at. simpl. rewrite Hc. simpl. by rewrite decide_True by congruence.
Qed.
Lemma types_sorted parent : sorted_by fst (types_of (below parent)).
Proof.
  eapply StronglySorted_omap; [|apply below_sorted]. intros e e' x y _ _ Hle Hx Hy. simpl in *.
  by repeat case_decide; simplify_eq/=.
Qed.

(** The lines written for additions. *)
Lemma elem_of_texts k parent text :
  text ∈ texts_of k (below parent) ↔
  ∃ n i, n ≠ "" ∧ has_change i k (parent, n, "") ∧ text = INDENTATION +:+ trim (text_at i) +:+ nl.
Proof.
  unfold texts_of, has_change. rewrite list_elem_of_omap. split.
  - intros (e & (n' & c & He & Hn & Hc & Hp)%elem_of_below & E). unfold kind_at in E. rewrite Hc in E.
    simpl in E. case_decide; simplify_eq/=. exists n', e.2. split; [done|]. split; [by exists c|done].
  - intros (n & i & Hn & (c & Hc & Hk & Hp) & ->). exists ((parent, n, ""), i). split.
    + apply elem_of_below. by exists n, c.
    + unfold kind_at. simpl. rewrite Hc. simpl. by rewrite decide_True by congruence.
Qed.

(** The entries of the texts appended for additions, in the order of the names. *)
Definition additions (k : ChangeKind) (parent : string) : string := join "" (texts_of k (below parent)).
End index.

(** ** The contract of [patch] on definitions *)
#[local] Opaque join trim.

(** ** Rendering a field that is kept *)
Section render.
Context `{CynicParser} (p : Paths).

Definition opt_slice (pre post : string) (s : option Span) : res string :=
  match s with Some s => t ← slice_source p s; Ret (pre +:+ t +:+ post) | None => Ret "" end.
Definition render_arguments (args : list InputValueDefinition) : res string :=
  match args with
  | [] => Ret ""
  | _ => texts ← mapM_res (patch_argument p) args; Ret ("(" +:+ join ", " texts +:+ ")")
  end.
(** A field of an object or interface with the type [ty]. *)
Definition render_field (ty : string) (field : FieldDefinition) : res string :=
  description ← opt_slice INDENTATION nl (fd_description field);
  arguments ← render_arguments (fd_arguments field);
  directives ← patch_directives p (fd_directives field);
  Ret (description +:+ INDENTATION +:+ fd_name field +:+ arguments +:+ ": " +:+ ty +:+ directives +:+ nl).
Definition render_input_field (ty : string) (field : InputValueDefinition) : res string :=
  directives ← patch_directives p (iv_directives field);
  Ret (INDENTATION +:+ iv_name field +:+ ": " +:+ ty +:+ directives +:+ nl).
Definition render_enum_value (value : EnumValueDefinition) : res string :=
  directives ← patch_directives p (ev_directives value);
  Ret (INDENTATION +:+ ev_value value +:+ directives +:+ nl).
Definition block (added : string) (texts : res string) : res string :=
  t ← texts; Ret (" {" +:+ nl +:+ added +:+ t +:+ "}").
End render.

(** ** Fields, enum values, members and interfaces *)
Section contract.
Context `{CynicParser} (diff : list Change) (spans : list string) (source : string).
Let p := Paths_new diff spans source.
Context (Hlen : length spans = length diff).
(** A field has at most one type change. *)
Definition one_type_change : Prop :=
  ∀ i j key, has_change diff i ChangeFieldType key → has_change diff j ChangeFieldType key → i = j.

Lemma fold_below {B} (f : B → nat → res B) b parent :
  fold_res f b (iter_second_level p parent) = fold_res f b (below diff spans source parent).*2.
Proof. done. Qed.

Lemma is_removed_spec a k t parent n :
  is_removed (MkBelow a (names_of diff k (below diff spans source parent)) t) n = true ↔
  changed_below diff k parent n.
Proof.
  unfold is_removed. cbn [removed_names]. rewrite binary_search_is_ok by apply sort_sorted.
  by rewrite elem_of_sort, elem_of_names.
Qed.
Lemma patched_type_spec b parent n ty :
  one_type_change → changed_field_types b = types_of diff spans (below diff spans source parent) →
  ∃ t, patched_type b n ty = Ret t ∧
    (∀ i, n ≠ "" → has_change diff i ChangeFieldType (parent, n, "") → t = text_at spans i) ∧
    (¬ changed_below diff ChangeFieldType parent n → t = ty_to_string ty).
Proof.
  intros Huniq Hb. unfold patched_type. rewrite Hb. clear Hb. set (l := types_of _ _ _).
  pose proof (types_sorted diff spans source parent : sorted_by fst l) as Hs.
  pose proof (binary_search_by_key_ok fst l n) as Hok. pose proof (binary_search_by_key_err fst l n) as Herr.
  unfold binary_search_by_key in *.
  destruct (binary_search_by _ l) as [idx|idx].
  - destruct (Hok idx Hs eq_refl) as ([n' t] & Hl & E%cmp_eq). simpl in E. subst n'. rewrite Hl. simpl.
    assert ((n, t) ∈ types_of diff spans (below diff spans source parent)) as Hin
      by by eapply list_elem_of_lookup_2.
    apply (elem_of_types diff spans source parent n t) in Hin as (Hn & i & Hi & ->).
    exists (text_at spans i). split_and!; [done| |].
    + intros j _ Hj. by rewrite (Huniq _ _ _ Hi Hj).
    + intros []. by split; [|exists i].
  - exists (ty_to_string ty). split_and!; [done| |done]. intros i Hn Hi.
    destruct (Herr Hs eq_refl (n, text_at spans i)); [|apply cmp_refl].
    apply (elem_of_types diff spans source parent). split; [done|]. by exists i.
Qed.

(** The type of a kept field: that of its type change, or the one it has. *)
Definition field_type (parent n : string) (ty : Ty) (t : string) : Prop :=
  (∀ i, n ≠ "" → has_change diff i ChangeFieldType (parent, n, "") → t = text_at spans i) ∧
  (¬ changed_below diff ChangeFieldType parent n → t = ty_to_string ty).

Lemma concat_res_ext {A} (f g : A → res string) l : (∀ x, f x = g x) → concat_res f l = concat_res g l.
Proof.
  intros E. unfold concat_res. f_equal. induction l as [|x l IH]; simpl; [done|]. by rewrite E, IH.
Qed.

Lemma patch_body_spec fields inputs parent :
  one_type_change →
  ∃ (removed : string → bool) (type_of : string → Ty → string),
    (∀ n, removed n = true ↔ changed_below diff RemoveField parent n) ∧
    (∀ n ty, field_type parent n ty (type_of n ty)) ∧
    patch_fields p fields parent =
    block (additions diff spans source AddField parent)
      (concat_res (λ f, if removed (fd_name f) then Ret ""
                        else render_field p (type_of (fd_name f) (fd_ty f)) f) fields) ∧
    patch_input_object p inputs parent =
    block (additions diff spans source AddField parent)
      (concat_res (λ f, if removed (iv_name f) then Ret ""
                        else render_input_field p (type_of (iv_name f) (iv_ty f)) f) inputs).
Proof.
  intros Huniq. unfold patch_fields, patch_input_object.
  rewrite !fold_below, !(field_changes_spec diff spans source Hlen) by apply below_ok.
  cbn [mbind res_bind added_text removed_names changed_field_types app]. set (b := MkBelow _ _ _).
  exists (is_removed b), (λ n ty, match patched_type b n ty with Ret t => t | Panic _ => "" end).
  split_and!.
  - intros n. apply is_removed_spec.
  - intros n ty. by destruct (patched_type_spec b parent n ty Huniq eq_refl) as (t & -> & Ht).
  - unfold block. f_equal. apply concat_res_ext. intros f. unfold patch_field, render_field.
    destruct (is_removed b (fd_name f)); [done|].
    destruct (patched_type_spec b parent (fd_name f) (fd_ty f) Huniq eq_refl) as (t & -> & _). unfold opt_slice.
    destruct (fd_description f) as [s|]; [destruct (slice_source p s); [|done]|]; simpl; by destruct (fd_arguments f).
  - unfold block. f_equal. apply concat_res_ext. intros f. unfold patch_input_field, render_input_field.
    destruct (is_removed b (iv_name f)); [done|].
    by destruct (patched_type_spec b parent (iv_name f) (iv_ty f) Huniq eq_refl) as (t & -> & _).
Qed.
Lemma patch_enum_values_spec values parent :
  ∃ removed : string → bool,
    (∀ n, removed n = true ↔ changed_below diff RemoveEnumValue parent n) ∧
    patch_enum_values p values parent =
    block (additions diff spans source AddEnumValue parent)
      (concat_res (λ v, if removed (ev_value v) then Ret "" else render_enum_value p v) values).
Proof.
  unfold patch_enum_values. rewrite fold_below, (enum_changes_spec diff spans source Hlen)
    by apply below_ok. cbn [mbind res_bind added_text removed_names changed_field_types app].
  set (b := MkBelow _ _ _). exists (is_removed b). split; [intros n; apply is_removed_spec|done].
Qed.

Lemma patched_members_spec members parent :
  ∃ added kept, patched_members p members parent = Ret (kept ++ added) ∧
    (∀ n, n ∈ kept ↔ n ∈ um_name <$> members ∧ ¬ changed_below diff RemoveUnionMember parent n) ∧
    (∀ n, n ∈ added ↔ changed_below diff AddUnionMember parent n) ∧
    kept `sublist_of` (um_name <$> members).
Proof.
  unfold patched_members. rewrite fold_below, (union_changes_spec diff spans source Hlen) by apply below_ok.
  cbn [mbind res_bind app fst snd]. eexists _, _. split; [done|]. split_and!.
  - intros n. rewrite list_elem_of_filter, <-(elem_of_names diff spans source).
    rewrite <-(elem_of_sort n (names_of _ _ _)), <-(binary_search_is_ok n (sort _)) by apply sort_sorted.
    destruct (is_ok _); intuition congruence.
  - intros n. apply elem_of_names.
  - apply sublist_filter.
Qed.

(** ** Implemented interfaces *)
Definition impl_change (k : ChangeKind) (implementer interface : string) : Prop :=
  ∃ c, c ∈ diff ∧ kind c = k ∧ (split_path (path c)).1 = (interface, implementer).

Lemma elem_of_impls implementer interface k :
  ((implementer, interface), k) ∈ p_interface_impls p ↔
  impl_change match k with Added => AddInterfaceImplementation | Removed => RemoveInterfaceImplementation end
    implementer interface.
Proof.
  unfold p, Paths_new, impl_change. cbn [p_interface_impls]. rewrite elem_of_sort, list_elem_of_omap.
  unfold interface_impl_change. split.
  - intros (c & Hc & E). destruct (split_path (path c)) as [[a b] d] eqn:Hp. exists c.
    rewrite Hp. destruct (kind c), k; simplify_eq/=; done.
  - intros (c & Hc & Hk & Hp). exists c. split; [done|].
    destruct (split_path (path c)) as [[a b] d]. simpl in Hp. simplify_eq/=. rewrite Hk. by destruct k.
Qed.
Lemma impls_sorted : StronglySorted cmp_le (p_interface_impls p).
Proof. apply sort_sorted. Qed.
Lemma impls_sorted_by : sorted_by (λ e : path2 * InterfaceImplementationChange, e.1.1) (p_interface_impls p).
Proof.
  pose proof impls_sorted as Hs. induction Hs as [|e l Hl IH He]; constructor; [done|].
  eapply Forall_impl; [exact He|]. intros e' Hle. by apply (cmp_le_fst e.1 e'.1), (cmp_le_fst e e').
Qed.
Lemma elem_of_added_impls implementer interface :
  interface ∈ added_interface_impls p implementer ↔ impl_change AddInterfaceImplementation implementer interface.
Proof.
  unfold added_interface_impls.
  rewrite (key_range_spec (λ e : path2 * InterfaceImplementationChange, e.1.1)) by apply impls_sorted_by.
  rewrite list_elem_of_fmap. setoid_rewrite list_elem_of_filter. setoid_rewrite list_elem_of_filter.
  change AddInterfaceImplementation with
    (match Added with Added => AddInterfaceImplementation | Removed => RemoveInterfaceImplementation end).
  rewrite <-elem_of_impls. split.
  - intros ([[a b] k] & -> & Hk & E%cmp_eq & Hin). simpl in *. by subst.
  - intros Hin. eexists. split; [|split; [|split; [|exact Hin]]]; simpl; [done|done|apply cmp_refl].
Qed.
Lemma is_interface_impl_removed_spec implementer interface :
  is_interface_impl_removed p implementer interface = true ↔
  impl_change RemoveInterfaceImplementation implementer interface.
Proof.
  change RemoveInterfaceImplementation with
    (match Removed with Added => AddInterfaceImplementation | Removed => RemoveInterfaceImplementation end).
  rewrite <-elem_of_impls, <-binary_search_is_ok by apply impls_sorted. done.
Qed.
End contract.
