(* ===== verification/PatchClaims.v ===== *)
(** * Properties of [patch] *)
From Stdlib Require Import Ascii.
From S2P Require Import Prelude RustStd Change SchemaAst Patch PatchProps.
Local Open Scope string_scope.
Local Open Scope list_scope.
Local Open Scope nat_scope.
#[local] Opaque join trim.

Section claims.
Context `{CynicParser}.

(** ** Contracts *)


(** The body of a patched input object or enum, as the code writes it: like
    that of an object, but descriptions and the default values of input fields
    are lost ([patch_drops_input_defaults]). *)
Theorem patch_input_and_enum_bodies (diff : list Change) (spans : list string) (source parent : string)
    (inputs : list InputValueDefinition) (values : list EnumValueDefinition)
    (Hlen : length spans = length diff) (Huniq : one_type_change diff) :
  let p := Paths_new diff spans source in
  ∃ (removed removed_value : string → bool) (type_of : string → Ty → string),
    (∀ n, removed n = true ↔ changed_below diff RemoveField parent n) ∧
    (∀ n, removed_value n = true ↔ changed_below diff RemoveEnumValue parent n) ∧
    (∀ n ty, field_type diff spans parent n ty (type_of n ty)) ∧
    patch_input_object p inputs parent =
    block (additions diff spans source AddField parent)
      (concat_res (λ f, if removed (iv_name f) then Ret ""
                        else render_input_field p (type_of (iv_name f) (iv_ty f)) f) inputs) ∧
    patch_enum_values p values parent =
    block (additions diff spans source AddEnumValue parent)
      (concat_res (λ v, if removed_value (ev_value v) then Ret "" else render_enum_value p v) values).
Proof.
  intros p. destruct (patch_body_spec diff spans source Hlen [] inputs parent Huniq)
    as (removed & type_of & ? & ? & _ & ?).
  destruct (patch_enum_values_spec diff spans source Hlen values parent) as (removed_value & ? & ?).
  by exists removed, removed_value, type_of.
Qed.

(** The members of a patched union are the members of the source that the
    diff does not remove, in source order, followed by the members it adds; the
    interfaces a patched type implements are those of the source and the added
    ones without the removed ones, sorted and without duplicates. *)
Theorem patch_members_and_interfaces (diff : list Change) (spans : list string) (source parent : string)
    (members : list UnionMember) (t : TypeDefinition) (Hlen : length spans = length diff) :
  let p := Paths_new diff spans source in
  (∃ kept added, patched_members p members parent = Ret (kept ++ added) ∧
     kept `sublist_of` (um_name <$> members) ∧
     (∀ n, n ∈ kept ↔ n ∈ um_name <$> members ∧ ¬ changed_below diff RemoveUnionMember parent n) ∧
     (∀ n, n ∈ added ↔ changed_below diff AddUnionMember parent n)) ∧
  NoDup (patched_implements p t) ∧
  ∀ i, i ∈ patched_implements p t ↔
       (i ∈ source_implements t ∨ impl_change diff AddInterfaceImplementation (ty_name t) i) ∧
       ¬ impl_change diff RemoveInterfaceImplementation (ty_name t) i.
Proof.
  intros p. split_and!.
  - destruct (patched_members_spec diff spans source Hlen members parent) as (added & kept & ? & ? & ? & ?).
    by exists kept, added.
  - apply dedup_NoDup, sort_sorted.
  - intros i. unfold patched_implements. rewrite elem_of_dedup, elem_of_sort, list_elem_of_filter, elem_of_app.
    unfold p. rewrite (elem_of_added_impls diff spans source), <-(is_interface_impl_removed_spec diff spans source).
    destruct (is_interface_impl_removed _ (ty_name t) i); intuition congruence.
Qed.

(** ** Totality *)

(** The spans [patch] slices out of the source. *)
Definition directives_spans (ds : list Directive) : list Span := concat (dir_argument_spans <$> ds).
Definition argument_spans (a : InputValueDefinition) : list Span :=
  option_list (iv_description a)
  ++ match iv_default_value a with Some _ => [iv_default_value_span a] | None => [] end
  ++ directives_spans (iv_directives a).
Definition field_spans (f : FieldDefinition) : list Span :=
  option_list (fd_description f) ++ concat (argument_spans <$> fd_arguments f) ++ directives_spans (fd_directives f).
Definition definition_spans (d : Definition_) : list Span :=
  match d with
  | DSchema s | DSchemaExtension s => directives_spans (sd_directives s)
  | DDirective d => [dd_span d]
  | DType t | DTypeExtension t =>
      option_list (th_description (ty_header t)) ++ directives_spans (th_directives (ty_header t))
      ++ match t with
         | TScalar _ | TUnion _ _ => []
         | TObject _ _ fs | TInterface _ _ fs => concat (field_spans <$> fs)
         | TEnum _ vs => concat ((λ v, directives_spans (ev_directives v)) <$> vs)
         | TInputObject _ fs => concat ((λ f, directives_spans (iv_directives f)) <$> fs)
         end
  end.
Definition no_panic {A} (m : res A) : Prop := ∃ a, m = Ret a.
Definition slices_ok (source : string) (s : Span) : Prop := no_panic (str_slice source (span_start s) (span_end s)).

Lemma no_panic_bind {A B} (m : res A) (f : A → res B) : no_panic m → (∀ a, no_panic (f a)) → no_panic (m ≫= f).
Proof. intros [a ->] Hf. apply Hf. Qed.
Lemma no_panic_Ret {A} (a : A) : no_panic (Ret a).
Proof. by exists a. Qed.
Lemma no_panic_mapM {A B} (f : A → res B) l : Forall (λ x, no_panic (f x)) l → no_panic (mapM_res f l).
Proof.
  induction 1 as [|x l Hx _ IH]; [apply no_panic_Ret|]. simpl. apply no_panic_bind; [done|]. intros y.
  apply no_panic_bind; [done|]. intros. apply no_panic_Ret.
Qed.
Lemma no_panic_concat_res {A} (f : A → res string) l : Forall (λ x, no_panic (f x)) l → no_panic (concat_res f l).
Proof. intros HF. apply no_panic_bind; [by apply no_panic_mapM|]. intros. apply no_panic_Ret. Qed.
Lemma Forall_concat_map {A B} (P : B → Prop) (f : A → list B) l :
  Forall P (concat (f <$> l)) → Forall (λ x, Forall P (f x)) l.
Proof.
  induction l as [|x l IH]; [constructor|]. rewrite fmap_cons. simpl. intros [? ?]%Forall_app.
  constructor; auto.
Qed.

Section total.
Context (diff : list Change) (spans : list string) (source : string).
Let p := Paths_new diff spans source.
Context (Hlen : length spans = length diff).

Lemma directives_return ds : Forall (slices_ok source) (directives_spans ds) → no_panic (patch_directives p ds).
Proof.
  intros HF%Forall_concat_map. apply no_panic_concat_res. eapply Forall_impl; [exact HF|]. intros d Hd.
  simpl in Hd. unfold render_directive. destruct (dir_argument_spans d); [apply no_panic_Ret|].
  apply no_panic_bind; [by apply no_panic_mapM|intros; apply no_panic_Ret].
Qed.
Lemma description_returns (s : option Span) (f : string → string) :
  Forall (slices_ok source) (option_list s) →
  no_panic (match s with Some s => t ← slice_source p s; Ret (f t) | None => Ret "" end).
Proof.
  destruct s; simpl; intros HF; [|apply no_panic_Ret]. inversion_clear HF.
  apply no_panic_bind; [done|intros; apply no_panic_Ret].
Qed.
Lemma argument_returns a : Forall (slices_ok source) (argument_spans a) → no_panic (patch_argument p a).
Proof.
  unfold argument_spans, patch_argument. intros [Hd [Hv Hs]%Forall_app]%Forall_app.
  apply no_panic_bind; [by apply (description_returns _ (λ t, t +:+ " "))|intros].
  apply no_panic_bind.
  { destruct (iv_default_value a); [|apply no_panic_Ret]. inversion_clear Hv.
    apply no_panic_bind; [done|intros; apply no_panic_Ret]. }
  intros. apply no_panic_bind; [by apply directives_return|intros; apply no_panic_Ret].
Qed.
Lemma field_returns ty f : Forall (slices_ok source) (field_spans f) → no_panic (render_field p ty f).
Proof.
  unfold field_spans, render_field. intros [Hd [Hv Hs]%Forall_app]%Forall_app.
  apply no_panic_bind; [by apply (description_returns _ (λ t, INDENTATION +:+ t +:+ nl))|intros].
  apply no_panic_bind.
  { unfold render_arguments. destruct (fd_arguments f); [apply no_panic_Ret|].
    apply no_panic_bind; [|intros; apply no_panic_Ret]. apply no_panic_mapM.
    eapply Forall_impl; [exact (Forall_concat_map _ _ _ Hv)|]. apply argument_returns. }
  intros. apply no_panic_bind; [by apply directives_return|intros; apply no_panic_Ret].
Qed.
Lemma block_returns {A} added (removed : A → bool) (f : A → res string) l :
  Forall (λ x, no_panic (f x)) l → no_panic (block added (concat_res (λ x, if removed x then Ret "" else f x) l)).
Proof.
  intros HF. apply no_panic_bind; [|intros; apply no_panic_Ret]. apply no_panic_concat_res.
  eapply Forall_impl; [exact HF|]. intros x Hx. simpl. destruct (removed x); [apply no_panic_Ret|done].
Qed.

Lemma schema_changes_return views r : (∀ i, i ∈ views → is_Some (diff !! i)) → no_panic (schema_changes p views r).
Proof.
  revert r. induction views as [|i views IH]; intros r Hv; [apply no_panic_Ret|]. cbn [schema_changes].
  destruct (Hv i) as [c Hc]; [set_solver|].
  pose proof (view_change_ok diff spans source i c Hc) as E1.
  pose proof (resolved_str_ok diff spans source Hlen i c Hc) as E2. fold p in E1, E2. rewrite E1.
  cbn [mbind res_bind]. rewrite E2.
  destruct (kind c); cbn [mbind res_bind]; try (apply IH; set_solver). apply no_panic_Ret.
Qed.

Lemma definition_returns d :
  one_type_change diff → Forall (slices_ok source) (definition_spans d) → no_panic (patch_definition p d).
Proof.
  intros Huniq HF.
  assert (∀ s doe, Forall (slices_ok source) (directives_spans (sd_directives s)) →
    no_panic (patch_schema_definition p s doe)) as Hschema.
  { intros s doe Hd. apply no_panic_bind.
    { apply schema_changes_return. intros i (c & ? & _)%iter_exact_spec. by eexists. }
    intros [r|]; [|apply no_panic_Ret]. apply no_panic_bind; [by apply directives_return|].
    intros. cbv zeta. destruct (negb _); apply no_panic_Ret. }
  assert (∀ t doe, Forall (slices_ok source) (definition_spans (DType t)) →
    no_panic (patch_type_definition p t doe)) as Htype.
  { simpl. intros t doe [Hd [Hs Hb]%Forall_app]%Forall_app. unfold patch_type_definition.
    destruct (view_changes_exact diff spans source (ty_name t, "", "")) as (cs & E & _). fold p in E. rewrite E.
    cbn [mbind res_bind]. destruct (existsb _ _); [apply no_panic_Ret|].
    apply no_panic_bind; [by apply (description_returns _ (λ t, t +:+ nl))|intros].
    apply no_panic_bind; [by apply directives_return|intros]. apply no_panic_bind; [|intros; apply no_panic_Ret].
    destruct t as [h|h impls fs|h impls fs|h ms|h vs|h fs].
    - apply no_panic_Ret.
    - destruct (patch_body_spec diff spans source Hlen fs [] (ty_name (TObject h impls fs)) Huniq)
        as (? & ? & _ & _ & E2 & _). fold p in E2. rewrite E2.
      apply block_returns. eapply Forall_impl; [exact (Forall_concat_map _ _ _ Hb)|]. intros. by apply field_returns.
    - destruct (patch_body_spec diff spans source Hlen fs [] (ty_name (TInterface h impls fs)) Huniq)
        as (? & ? & _ & _ & E2 & _). fold p in E2. rewrite E2.
      apply block_returns. eapply Forall_impl; [exact (Forall_concat_map _ _ _ Hb)|]. intros. by apply field_returns.
    - unfold patch_union. destruct (patched_members_spec diff spans source Hlen ms (ty_name (TUnion h ms)))
        as (? & ? & E2 & _). fold p in E2. rewrite E2. apply no_panic_Ret.
    - destruct (patch_enum_values_spec diff spans source Hlen vs (ty_name (TEnum h vs))) as (? & _ & E2). fold p in E2. rewrite E2.
      apply block_returns. eapply Forall_impl; [exact (Forall_concat_map _ _ _ Hb)|]. intros v Hv.
      apply no_panic_bind; [by apply directives_return|intros; apply no_panic_Ret].
    - destruct (patch_body_spec diff spans source Hlen [] fs (ty_name (TInputObject h fs)) Huniq)
        as (? & ? & _ & _ & _ & E2). fold p in E2. rewrite E2.
      apply block_returns. eapply Forall_impl; [exact (Forall_concat_map _ _ _ Hb)|]. intros v Hv.
      apply no_panic_bind; [by apply directives_return|intros; apply no_panic_Ret]. }
  destruct d as [s|s|t|t|dd]; simpl in HF; [by apply Hschema|by apply Hschema|by apply Htype|by apply Htype|].
  cbn [patch_definition]. unfold patch_directive_definition.
  destruct (view_changes_exact diff spans source (dd_name dd, "", "")) as (cs & E & _). fold p in E. rewrite E.
  cbn [mbind res_bind]. destruct (existsb _ _); [apply no_panic_Ret|]. inversion_clear HF.
  apply no_panic_bind; [done|intros; apply no_panic_Ret].
Qed.
End total.

(** [patch] never panics on what the other functions produce: with one
    resolved span per change, at most one type change per field and spans of
    the parsed document that slice its source, it returns the patched schema. *)
Theorem patch_total (parse : string → option TypeSystemDocument) (source : string) (diff : list Change)
    (spans : list string) (parsed : TypeSystemDocument)
    (Hparse : parse source = Some parsed) (Hlen : length spans = length diff) (Huniq : one_type_change diff)
    (Hspans : Forall (slices_ok source) (concat (definition_spans <$> parsed))) :
  ∃ text, patch parse source diff spans = Ret (Some text).
Proof.
  unfold patch. set (doc := if is_empty (trim source) then Some [] else parse source).
  assert (∃ ds, doc = Some ds ∧ Forall (slices_ok source) (concat (definition_spans <$> ds))) as (ds & -> & Hds).
  { subst doc. destruct (is_empty _); [exists []; by split; [|constructor]|by exists parsed]. }
  enough (no_panic (concat_res (top_level_text (Paths_new diff spans source))
    (iter_top_level (Paths_new diff spans source)))) as [added ->].
  { assert (no_panic (concat_res (patch_definition (Paths_new diff spans source)) ds)) as [texts Et].
    { apply no_panic_concat_res. eapply Forall_impl; [exact (Forall_concat_map _ _ _ Hds)|].
      intros d Hd. by apply definition_returns. }
    cbn [mbind res_bind]. rewrite Et. by eexists. }
  apply no_panic_concat_res, Forall_forall.
  intros i ([key i'] & -> & (_ & (c & Hc & _)%elem_of_p_paths)%list_elem_of_filter)%list_elem_of_fmap.
  unfold top_level_text. simpl. rewrite (view_change_ok diff spans source i' c Hc). cbn [mbind res_bind].
  destruct (is_type_addition _); [|apply no_panic_Ret]. rewrite (resolved_str_ok diff spans source Hlen i' c Hc). apply no_panic_Ret.
Qed.
End claims.

(** ** [patch]: what it leaves out, and concrete cases *)

(** ** Changes to arguments *)
Lemma omap_none {A B} (f : A → option B) l : Forall (λ x, f x = None) l → omap f l = [].
Proof. induction 1 as [|x l Hx _ IH]; [done|]. simpl. by rewrite Hx. Qed.
Section inert.
Context `{CynicParser} (diff : list Change) (spans : list string) (source : string).
(** Every change has a three-segment path, like the changes to arguments. *)
Context (Hargs : Forall (λ c, (split_path (path c)).2 ≠ "" ∧ interface_impl_change c = None) diff).
Let p := Paths_new diff spans source.
Let p0 := Paths_new [] [] source.

Lemma inert_paths e : e ∈ p_paths p → e.1.2 ≠ "".
Proof.
  intros (c & Hc & <-)%elem_of_p_paths. by eapply Forall_lookup_1 in Hargs as [??].
Qed.
Lemma inert_exact a b : iter_exact p (a, b, "") = [].
Proof.
  destruct (iter_exact p (a, b, "")) as [|i l] eqn:E; [done|].
  assert (i ∈ iter_exact p (a, b, "")) as (c & Hc & Hp)%iter_exact_spec by (rewrite E; set_solver).
  eapply Forall_lookup_1 in Hargs as [Hne _]; [|exact Hc]. by rewrite Hp in Hne.
Qed.
Lemma inert_second parent : iter_second_level p parent = [].
Proof.
  unfold iter_second_level. rewrite filter_none; [done|]. intros e He%inert_paths (_ & _ & ?). done.
Qed.
Lemma inert_top : iter_top_level p = [].
Proof. unfold iter_top_level. rewrite filter_none; [done|]. intros e He%inert_paths (_ & ?). done. Qed.
Lemma inert_impls : p_interface_impls p = [].
Proof.
  unfold p, Paths_new. cbn [p_interface_impls].
  rewrite (omap_none interface_impl_change diff); [done|]. eapply Forall_impl; [exact Hargs|]. by intros c [_ ?].
Qed.
Lemma inert_definition d : patch_definition p d = patch_definition p0 d.
Proof.
  assert (∀ s doe, patch_schema_definition p s doe = patch_schema_definition p0 s doe) as Hschema.
  { intros s doe. unfold patch_schema_definition. by rewrite inert_exact. }
  assert (∀ t, patched_implements p t = patched_implements p0 t) as Himpl.
  { intros t. unfold patched_implements, added_interface_impls, is_interface_impl_removed.
    by rewrite inert_impls. }
  assert (∀ t doe, patch_type_definition p t doe = patch_type_definition p0 t doe) as Htype.
  { intros t doe. unfold patch_type_definition. rewrite inert_exact, Himpl.
    destruct t; unfold patch_fields, patch_union, patched_members, patch_enum_values, patch_input_object;
      by rewrite ?inert_second. }
  destruct d; simpl; auto. unfold patch_directive_definition. by rewrite inert_exact.
Qed.
End inert.

(** [patch] does not apply changes to arguments: a diff whose changes all
    have three-segment paths (added, removed or changed arguments and their
    defaults) gives the same schema as the empty diff. *)
Theorem patch_ignores_argument_changes `{CynicParser} (parse : string → option TypeSystemDocument)
    (source : string) (diff : list Change) (spans : list string)
    (Hargs : Forall (λ c, (split_path (path c)).2 ≠ "" ∧ interface_impl_change c = None) diff) :
  patch parse source diff spans = patch parse source [] [].
Proof.
  unfold patch. destruct (if is_empty (trim source) then Some [] else parse source) as [ds|]; [|done].
  cbv zeta. rewrite inert_top by done. cbn [mapM_res concat_res mbind res_bind].
  rewrite (concat_res_ext _ _ ds (inert_definition diff spans source Hargs)). done.
Qed.

(** ** Cases *)
#[local] Existing Instance text_parser.

Definition header (n : string) : TypeHeader := MkHeader n None [] (MkSpan 0 0).
Definition ty (n : string) : Ty := (n, MkSpan 0 0).
Definition field (n t : string) : FieldDefinition := MkField n [] (ty t) None [] (MkSpan 0 0).

(** [type Query { a: Int b: Int }  union U = A | B] *)
Definition patch_source : string := "type Query { a: Int b: Int } union U = A | B".
Definition patch_doc : TypeSystemDocument :=
  [DType (TObject (header "Query") [] [field "a" "Int"; field "b" "Int"]);
   DType (TUnion (header "U") [MkUnionMember "A" (MkSpan 0 0); MkUnionMember "B" (MkSpan 0 0)])].
Definition patch_diff : list Change :=
  [MkChange "Node.Query" AddInterfaceImplementation Span_empty;
   MkChange "Query.a" RemoveField Span_empty;
   MkChange "Query.b" ChangeFieldType (MkSpan 0 0);
   MkChange "Query.c" AddField (MkSpan 0 0);
   MkChange "U.A" RemoveUnionMember Span_empty;
   MkChange "U.C" AddUnionMember (MkSpan 0 0)].
Definition patch_spans : list string := [""; ""; "String"; "c: Boolean!"; ""; "C"].

Example patch_example :
  patch (λ _, Some patch_doc) patch_source patch_diff patch_spans =
  Ret (Some ("type Query implements Node {" +:+ nl +:+ "  c: Boolean!" +:+ nl +:+ "  b: String" +:+ nl +:+ "}"
             +:+ nl +:+ nl +:+ "union U = B | C" +:+ nl +:+ nl)).
Proof. vm_compute. reflexivity. Qed.

Lemma patch_diff_one_change : one_type_change patch_diff.
Proof.
  assert (∀ i key, has_change patch_diff i ChangeFieldType key → i = 2) as Hi.
  { intros i key (c & Hc & Hk & _). do 6 (destruct i as [|i]; [by simplify_eq/=|]). done. }
  intros i j key H1 H2. rewrite (Hi i key H1). by rewrite (Hi j key H2).
Qed.
Lemma patch_total_witness :
  ∃ text, patch (λ _, Some patch_doc) patch_source patch_diff patch_spans = Ret (Some text).
Proof.
  apply (patch_total (λ _, Some patch_doc) patch_source patch_diff patch_spans patch_doc).
  - reflexivity.
  - reflexivity.
  - apply patch_diff_one_change.
  - repeat constructor.
Defined.
Lemma patch_members_and_interfaces_witness :
  NoDup (patched_implements (Paths_new patch_diff patch_spans patch_source)
    (TObject (header "Query") ["Node"] [field "a" "Int"])).
Proof.
  destruct (patch_members_and_interfaces patch_diff patch_spans patch_source "U" []
    (TObject (header "Query") ["Node"] [field "a" "Int"])) as (_ & H & _).
  - reflexivity.
  - exact H.
Defined.
Lemma patch_ignores_argument_changes_witness :
  patch (λ _, Some patch_doc) patch_source [MkChange "Query.a.x" AddFieldArgument (MkSpan 0 0)] ["x: Int"]
  = patch (λ _, Some patch_doc) patch_source [] [].
Proof.
  apply (patch_ignores_argument_changes (λ _, Some patch_doc) patch_source
    [MkChange "Query.a.x" AddFieldArgument (MkSpan 0 0)] ["x: Int"]).
  constructor; [split; [vm_compute; congruence|reflexivity]|constructor].
Defined.

(** [input I { n: Int = 3 }] *)
Definition input_source : string := "input I { n: Int = 3 }".
Definition input_doc : TypeSystemDocument :=
  [DType (TInputObject (header "I")
     [MkInputValue "n" (ty "Int") (Some ("3" : Val)) (MkSpan 17 20) None [] (MkSpan 10 20)])].
(** [patch] loses the default values of input object fields: with an empty
    diff, the field [n: Int = 3] is written back as [n: Int]. *)
Theorem patch_drops_input_defaults :
  patch (λ _, Some input_doc) input_source [] [] =
  Ret (Some ("input I {" +:+ nl +:+ "  n: Int" +:+ nl +:+ "}" +:+ nl +:+ nl)).
Proof. vm_compute. reflexivity. Qed.
