(* ===== verification/IndexSet.v ===== *)
(** * The interface of [indexmap::IndexSet]

    The interners of the composition crate are [IndexSet]s of the third-party
    crate [indexmap]. The operations they use are a class, with the documented
    behaviour as laws: elements have the index of their first insertion, and a
    new element goes to the end. [list_index_set] is an executable instance. *)
From S2P Require Import Prelude.
Local Open Scope nat_scope.

Class IndexSet := {
  iset : Type → Type;
  iset_empty : ∀ {A}, iset A;
  iset_len : ∀ {A}, iset A → nat;
  get_index : ∀ {A}, iset A → nat → option A;
  get_index_of : ∀ {A} `{EqDecision A}, iset A → A → option nat;
  insert_full : ∀ {A} `{EqDecision A}, A → iset A → nat * iset A;
}.

Class IndexSetLaws `{IndexSet} : Prop := {
  iset_empty_len : ∀ A, iset_len (iset_empty (A := A)) = 0;
  get_index_lt : ∀ A (s : iset A) i, is_Some (get_index s i) ↔ i < iset_len s;
  get_index_of_spec : ∀ A `{EqDecision A} (s : iset A) x i, get_index_of s x = Some i ↔ get_index s i = Some x;
  insert_full_old : ∀ A `{EqDecision A} (s : iset A) x i, get_index s i = Some x → insert_full x s = (i, s);
  insert_full_new : ∀ A `{EqDecision A} (s : iset A) x,
    (∀ i, get_index s i ≠ Some x) →
    (insert_full x s).1 = iset_len s ∧
    ∀ i, get_index (insert_full x s).2 i = if decide (i = iset_len s) then Some x else get_index s i;
}.

Section laws.
Context `{IndexSetLaws} {A : Type} `{EqDecision A}.
Implicit Types s : iset A.

(** [s'] extends [s]: every index keeps its element. *)
Definition extends (s s' : iset A) : Prop := ∀ i x, get_index s i = Some x → get_index s' i = Some x.
Global Instance extends_preorder : PreOrder extends.
Proof. split; [by intros s i x|]. intros s1 s2 s3 H1 H2 i x Hi. apply H2, H1, Hi. Qed.

(** An element has one index. *)
Lemma get_index_inj s i j x : get_index s i = Some x → get_index s j = Some x → i = j.
Proof.
  intros Hi Hj. apply (insert_full_old _ s x) in Hi, Hj. rewrite Hi in Hj. by injection Hj.
Qed.

(** What an insertion does, whether the element is new or not. *)
Lemma insert_full_spec s x :
  get_index (insert_full x s).2 (insert_full x s).1 = Some x ∧ extends s (insert_full x s).2 ∧
  (∀ i y, get_index (insert_full x s).2 i = Some y → get_index s i = Some y ∨ (i = (insert_full x s).1 ∧ y = x)) ∧
  iset_len s ≤ iset_len (insert_full x s).2.
Proof.
  destruct (get_index_of s x) as [i|] eqn:E.
  - apply get_index_of_spec in E. rewrite (insert_full_old _ _ _ _ E). simpl. split_and!; [done|done|auto|done].
  - destruct (insert_full_new _ s x) as [Hidx Hget].
    { intros i Hi. apply (get_index_of_spec _ s x i) in Hi. congruence. }
    assert (get_index s (iset_len s) = None) as Hlen.
    { apply eq_None_not_Some. rewrite get_index_lt. lia. }
    assert (extends s (insert_full x s).2) as Hext.
    { intros i y Hi. rewrite Hget. case_decide; [|done]. subst. congruence. }
    split_and!; [|done| |].
    + by rewrite Hget, Hidx, decide_True.
    + intros i y. rewrite Hget. case_decide as Hd; [|auto]. intros [= <-]. right. by rewrite Hidx.
    + destruct (decide (iset_len s ≤ iset_len (insert_full x s).2)) as [|Hlt]; [done|].
      destruct (proj2 (get_index_lt _ s (iset_len (insert_full x s).2))) as [y Hy]; [lia|].
      apply Hext, mk_is_Some, get_index_lt in Hy. lia.
Qed.
End laws.

(** ** An instance: duplicate-free lists *)
Definition nodup_list (A : Type) : Type := { l : list A | NoDup l }.

Lemma NoDup_snoc_fresh {A} `{EqDecision A} (x : A) l : NoDup l → list_find (x =.) l = None → NoDup (l ++ [x]).
Proof.
  intros Hl Hx%list_find_None. apply NoDup_app. split_and!; [done| |apply NoDup_singleton].
  intros y Hy ->%list_elem_of_singleton. eapply Forall_forall in Hx; [|done]. done.
Qed.
Definition push_as {A} `{EqDecision A} (x : A) (s : nodup_list A) (o : option (nat * A))
    : list_find (x =.) (`s) = o → nat * nodup_list A :=
  match o return list_find (x =.) (`s) = o → nat * nodup_list A with
  | Some (i, _) => λ _, (i, s)
  | None => λ E, (length (`s), (`s ++ [x]) ↾ NoDup_snoc_fresh x (`s) (proj2_sig s) E)
  end.
Definition push_new {A} `{EqDecision A} (x : A) (s : nodup_list A) : nat * nodup_list A :=
  push_as x s (list_find (x =.) (`s)) eq_refl.
Definition list_index_set : IndexSet := {|
  iset := nodup_list;
  iset_empty A := [] ↾ NoDup_nil_2;
  iset_len A s := length (`s);
  get_index A s i := `s !! i;
  get_index_of A _ s x := fst <$> list_find (x =.) (`s);
  insert_full A _ := push_new;
|}.

Lemma push_new_cases {A} `{EqDecision A} (x : A) (s : nodup_list A) :
  (∃ i y, list_find (x =.) (`s) = Some (i, y) ∧ push_new x s = (i, s)) ∨
  (list_find (x =.) (`s) = None ∧ (push_new x s).1 = length (`s) ∧ proj1_sig (push_new x s).2 = (`s) ++ [x]).
Proof.
  assert (∀ o E, (∃ i y, o = Some (i, y) ∧ push_as x s o E = (i, s)) ∨
    (o = None ∧ (push_as x s o E).1 = length (`s) ∧ proj1_sig (push_as x s o E).2 = (`s) ++ [x])) as H.
  { intros [[i y]|] E; [left; by exists i, y|by right]. }
  exact (H _ eq_refl).
Qed.
Lemma list_find_NoDup {A} `{EqDecision A} (x : A) l i :
  NoDup l → (fst <$> list_find (x =.) l) = Some i ↔ l !! i = Some x.
Proof.
  intros Hnd. split.
  - intros ([j y] & (Hj & <- & _)%list_find_Some & [= ->])%fmap_Some. done.
  - intros Hi. destruct (list_find (x =.) l) as [[j y]|] eqn:E.
    + apply list_find_Some in E as (Hj & <- & _). simpl. by rewrite (NoDup_lookup _ _ _ _ Hnd Hi Hj).
    + apply list_find_None in E. eapply Forall_lookup_1 in E; [|exact Hi]. done.
Qed.
Lemma list_index_set_laws : @IndexSetLaws list_index_set.
Proof.
  split; simpl; intros A.
  - done.
  - intros s i. apply lookup_lt_is_Some.
  - intros EqA [l Hl] x i. by apply list_find_NoDup.
  - intros EqA s x i Hi. destruct (push_new_cases x s) as [(j & y & E & ->)|(E & _)].
    + f_equal. assert ((fst <$> list_find (x =.) (`s)) = Some i) as H by (apply list_find_NoDup; [apply (proj2_sig s)|done]).
      rewrite E in H. by injection H.
    + apply list_find_None in E. eapply Forall_lookup_1 in E; [|exact Hi]. done.
  - intros EqA s x Hno. destruct (push_new_cases x s) as [(j & y & E & _)|(E & -> & ->)].
    { apply list_find_Some in E as (Hj & <- & _). by destruct (Hno j). }
    split; [done|]. intros i. case_decide as Hi; [subst; by apply list_lookup_middle|].
    destruct (decide (i < length (`s))); [by rewrite lookup_app_l|].
    rewrite lookup_app_r, (lookup_ge_None_2 (`s)) by lia.
    apply lookup_ge_None_2. simpl. lia.
Qed.
