(* ===== verification/FieldTypes.v ===== *)
(** * [composition]: [subgraphs/field_types.rs], [subgraphs/strings.rs] and [compose/fields.rs]

    Field types are interned: a type is an inner type (name, innermost
    nullability) and a chain of list wrappers, each pointing to the next outer
    one. Composing the types of a field from different subgraphs compares the
    chains. *)
From S2P Require Import Prelude RustStd CheckSchema IndexSet.
Local Open Scope string_scope.
Local Open Scope list_scope.
Local Open Scope nat_scope.

Inductive WrapperTypeKind := KList | KNonNullList.
Global Instance WrapperTypeKind_eq_dec : EqDecision WrapperTypeKind.
Proof. solve_decision. Defined.
Record WrapperType := MkWrapper { wrapper_kind : WrapperTypeKind; outer : option nat }.
Global Instance WrapperType_eq_dec : EqDecision WrapperType.
Proof. solve_decision. Defined.
Record InnerFieldType := MkInner { inner_name : nat; inner_wrapper : option nat; inner_required : bool }.
Global Instance InnerFieldType_eq_dec : EqDecision InnerFieldType.
Proof. solve_decision. Defined.
Abbreviation StringId := nat.
Abbreviation FieldTypeId := nat.

Section field_types.
Context `{IndexSet}.

(** The part of [Subgraphs] that interning changes. *)
Record Store := MkStore {
  strings : iset string;
  inner_types : iset InnerFieldType;
  wrappers : iset WrapperType;
}.
Definition Store_empty : Store := MkStore iset_empty iset_empty iset_empty.

(** ** [Strings] *)
Definition intern (s : string) (set : iset string) : StringId * iset string :=
  match get_index_of set s with Some idx => (idx, set) | None => insert_full s set end.
Definition resolve (set : iset string) (id : StringId) : res string := unwrap (get_index set id).
Definition lookup_string (set : iset string) (s : string) : option StringId := get_index_of set s.

(** ** Interning types *)
Fixpoint intern_loop (ty : AType) (wrapper_type_id : option nat) (st : Store) : FieldTypeId * Store :=
  match ty with
  | AList inner nullable =>
      let '(id, ws) := insert_full (MkWrapper (if nullable : bool then KList else KNonNullList) wrapper_type_id)
                         (wrappers st) in
      intern_loop inner (Some id) (MkStore (strings st) (inner_types st) ws)
  | ANamed name nullable =>
      let '(name_id, strs) := intern name (strings st) in
      let '(id, inner) := insert_full (MkInner name_id wrapper_type_id (negb nullable)) (inner_types st) in
      (id, MkStore strs inner (wrappers st))
  end.
Definition intern_field_type (field_type : AType) (st : Store) : FieldTypeId * Store :=
  intern_loop field_type None st.

(** ** Walking a type *)
Definition inner (st : Store) (id : FieldTypeId) : res InnerFieldType := unwrap (get_index (inner_types st) id).

(** [iter_wrappers], innermost first; an index only points to smaller ones. *)
Fixpoint wrappers_from (fuel : nat) (ws : iset WrapperType) (wrapper : option nat) : list WrapperTypeKind :=
  match fuel, wrapper with
  | S fuel, Some id =>
      match get_index ws id with
      | Some next => wrapper_kind next :: wrappers_from fuel ws (outer next)
      | None => []
      end
  | _, _ => []
  end.
Definition iter_wrappers (st : Store) (t : InnerFieldType) : list WrapperTypeKind :=
  wrappers_from (iset_len (wrappers st)) (wrappers st) (inner_wrapper t).

Definition inner_is_required (st : Store) (id : FieldTypeId) : res bool := t ← inner st id; Ret (inner_required t).
Definition is_required (st : Store) (id : FieldTypeId) : res bool :=
  t ← inner st id;
  Ret match last (iter_wrappers st t) with
      | Some KList => false
      | Some KNonNullList => true
      | None => inner_required t
      end.
Definition is_list (st : Store) (id : FieldTypeId) : res bool :=
  t ← inner st id; Ret (negb (bool_decide (iter_wrappers st t = []))).
Definition type_name (st : Store) (id : FieldTypeId) : res string := t ← inner st id; resolve (strings st) (inner_name t).

Definition display (st : Store) (id : FieldTypeId) : res string :=
  t ← inner st id;
  name ← resolve (strings st) (inner_name t);
  let out := if inner_required t then name +:+ "!" else name in
  Ret (foldl (λ out w, match w with KList => "[" +:+ out +:+ "]" | KNonNullList => "[" +:+ out +:+ "]!" end)
         out (iter_wrappers st t)).

(** ** Composing two types *)

(** The loop over the zipped wrapper iterators. [x] and [y] is the pair just
    taken, [self] and [other] what the two iterators still have. Peeking calls
    [self.next()] and, if it returned an element, [other.next()]: at the end
    of [other] the element taken from [self] is lost. *)
Fixpoint compose_loop (x y : WrapperTypeKind) (self other : list WrapperTypeKind) : option bool :=
  match self with
  | [] => match other with [] => Some (bool_decide (y = KNonNullList)) | _ => None end
  | x' :: self =>
      match other with
      | [] => match self with [] => Some (bool_decide (y = KNonNullList)) | _ => None end
      | y' :: other => if decide (x ≠ y) then None else compose_loop x' y' self other
      end
  end.
Definition compose (st : Store) (self other : FieldTypeId) : res (option bool) :=
  if decide (self = other) then Ret (Some true)
  else
    a ← inner st self;
    b ← inner st other;
    if decide (inner_name a ≠ inner_name b) then Ret None
    else match iter_wrappers st a, iter_wrappers st b with
         | x :: xs, y :: ys =>
             Ret (if decide (inner_required a ≠ inner_required b) then None else compose_loop x y xs ys)
         | _, _ => required ← is_required st other; Ret (Some required)
         end.

Definition compose_for_input (st : Store) (self other : FieldTypeId) : res (option FieldTypeId) :=
  r ← compose st self other; Ret (option_map (λ b : bool, if b then other else self) r).
Definition compose_for_output (st : Store) (self other : FieldTypeId) : res (option FieldTypeId) :=
  r ← compose st self other; Ret (option_map (λ b : bool, if b then self else other) r).

(** ** [compose/fields.rs] *)

(** What the functions read of a [FieldWalker] or a [FieldArgumentWalker]. *)
Record FieldWalker := MkFieldWalker {
  parent_name : string;
  field_name : string;
  subgraph_name : string;
  field_type : FieldTypeId;
}.

(** [try_fold] over the remaining fields; the error is the conflicting field. *)
Fixpoint fold_types (compose_fn : FieldTypeId → FieldTypeId → res (option FieldTypeId)) (ty : FieldTypeId)
    (fields : list FieldWalker) : res (FieldTypeId + FieldWalker) :=
  match fields with
  | [] => Ret (inl ty)
  | f :: fields =>
      r ← compose_fn ty (field_type f);
      match r with Some ty => fold_types compose_fn ty fields | None => Ret (inr f) end
  end.
Definition conflict_message (st : Store) (first a b : FieldWalker) : res string :=
  a_type ← display st (field_type a);
  b_type ← display st (field_type b);
  Ret ("The " +:+ parent_name first +:+ "." +:+ field_name first
       +:+ " field has conflicting types in different subgraphs: " +:+ a_type +:+ " in " +:+ subgraph_name a
       +:+ " but " +:+ b_type +:+ " in " +:+ subgraph_name b).
(** The composed type, and the fatal diagnostics pushed. *)
Definition compose_field_types (st : Store)
    (compose_fn : FieldTypeId → FieldTypeId → res (option FieldTypeId)) (fields : list FieldWalker)
    : res (option FieldTypeId * list string) :=
  match fields with
  | [] => Ret (None, [])
  | first :: fields =>
      r ← fold_types compose_fn (field_type first) fields;
      match r with
      | inl ty => Ret (Some ty, [])
      | inr b => message ← conflict_message st first first b; Ret (None, [message])
      end
  end.
Definition compose_input_field_types (st : Store) (fields : list FieldWalker) :=
  compose_field_types st (compose_for_input st) fields.
Definition compose_output_field_types (st : Store) (fields : list FieldWalker) :=
  compose_field_types st (compose_for_output st) fields.

(** Arguments: [parent_name] and [field_name] are those of the composed field. *)
Record ArgumentWalker := MkArgumentWalker { argument_name : string; argument_field : FieldWalker }.
Definition argument_conflict_message (st : Store) (parent field : string) (a b : ArgumentWalker) : res string :=
  a_type ← display st (field_type (argument_field a));
  b_type ← display st (field_type (argument_field b));
  Ret ("The " +:+ parent +:+ "." +:+ field +:+ "(" +:+ argument_name a
       +:+ ":) argument has conflicting types in different subgraphs: " +:+ a_type +:+ " in "
       +:+ subgraph_name (argument_field a) +:+ " but " +:+ b_type +:+ " in " +:+ subgraph_name (argument_field b)).
Definition compose_argument_types (st : Store) (parent field : string) (arguments : list ArgumentWalker)
    : res (option FieldTypeId * list string) :=
  match arguments with
  | [] => Ret (None, [])
  | first :: rest =>
      r ← fold_types (compose_for_input st) (field_type (argument_field first)) (argument_field <$> rest);
      match r with
      | inl ty => Ret (Some ty, [])
      | inr b =>
          message ← argument_conflict_message st parent field first (MkArgumentWalker (argument_name first) b);
          Ret (None, [message])
      end
  end.

(** [for_each_field_group]: the fields of all definitions sorted by name (a
    stable sort), cut into the maximal runs of equal names. *)
Fixpoint groups (fuel : nat) {A} (key : A → StringId) (l : list A) : list (list A) :=
  match fuel, l with
  | S fuel, x :: _ =>
      let end_ := partition_point (λ y, eqb (key y) (key x)) l in
      take end_ l :: groups fuel key (drop end_ l)
  | _, _ => []
  end.
Definition field_groups {A} (key : A → StringId) (definitions : list (list A)) : list (list A) :=
  let all_fields := @sort A (cmp_on key) (concat definitions) in
  groups (length all_fields) key all_fields.
End field_types.

(** ** Composition of field types: properties

    Interning represents types faithfully and uniquely; two types with the same
    number of lists compose exactly when they differ at most in their outermost
    nullability, to the less required one in output position and the more
    required one in input position, whatever the order of the subgraphs. *)

(** ** Types as chains of wrappers *)
Fixpoint type_kinds (t : AType) : list WrapperTypeKind :=
  match t with
  | ANamed _ _ => []
  | AList t nullable => (if nullable : bool then KList else KNonNullList) :: type_kinds t
  end.
(** Outermost nullability. *)
Definition required (t : AType) : bool := match t with ANamed _ n | AList _ n => negb n end.
Definition set_nullable (t : AType) (b : bool) : AType :=
  match t with ANamed n _ => ANamed n b | AList t _ => AList t b end.
(** The types are equal up to their outermost nullability. *)
Definition same_up_to_outer (a b : AType) : Prop := set_nullable a true = set_nullable b true.
Global Instance AType_eq_dec : EqDecision AType.
Proof. solve_decision. Defined.
Global Instance same_up_to_outer_dec a b : Decision (same_up_to_outer a b).
Proof. unfold same_up_to_outer. apply _. Defined.
Global Instance same_up_to_outer_equiv : Equivalence same_up_to_outer.
Proof. unfold same_up_to_outer. split; [done|by intros ??|by intros ??? -> ->]. Qed.

Lemma type_parts_inj a b :
  base_name a = base_name b → type_inner_nonnull a = type_inner_nonnull b → type_kinds a = type_kinds b → a = b.
Proof.
  revert b. induction a as [n x|a IH x]; intros [n' x'|b x']; simpl; try done.
  - intros -> E _. by destruct x, x'.
  - intros Hn Hi [= E Hk]. rewrite (IH b Hn Hi Hk). by destruct x, x'.
Qed.
Lemma length_type_kinds t : length (type_kinds t) = list_depth t.
Proof. induction t; simpl; congruence. Qed.

Definition eqb_bool (a b : bool) : bool := bool_decide (a = b).

Section props.
Context `{IndexSetLaws}.

(** [chain ws w ks]: following [outer] from [w] gives [ks], innermost first. *)
Inductive chain (ws : iset WrapperType) : option nat → list WrapperTypeKind → Prop :=
| chain_nil : chain ws None []
| chain_cons i k o ks : get_index ws i = Some (MkWrapper k o) → chain ws o ks → chain ws (Some i) (k :: ks).

(** Every wrapper points to one interned before it. *)
Definition wrappers_wf (ws : iset WrapperType) : Prop :=
  ∀ i w o, get_index ws i = Some w → outer w = Some o → o < i.

Lemma chain_mono ws ws' w ks : extends ws ws' → chain ws w ks → chain ws' w ks.
Proof. intros Hext. induction 1; econstructor; eauto. Qed.
Lemma chain_det ws w ks ks' : chain ws w ks → chain ws w ks' → ks = ks'.
Proof.
  intros Hc. revert ks'. induction Hc as [|i k o ks Hi _ IH]; inversion_clear 1; [done|].
  assert (MkWrapper k o = MkWrapper k0 o0) as [= <- <-] by congruence. f_equal. auto.
Qed.
Lemma chain_inj ws w w' ks : chain ws w ks → chain ws w' ks → w = w'.
Proof.
  intros Hc. revert w'. induction Hc as [|i k o ks Hi _ IH]; intros w' Hc'; inversion Hc' as [|j k' o' ks' Hj Hc'']; [done|].
  subst. f_equal. apply (get_index_inj ws i j (MkWrapper k o)); [done|]. by rewrite (IH _ Hc'').
Qed.
Lemma chain_wrappers_from ws w ks fuel :
  wrappers_wf ws → chain ws w ks → (∀ i, w = Some i → i < fuel) → wrappers_from fuel ws w = ks.
Proof.
  intros Hwf Hc. revert fuel. induction Hc as [|i k o ks Hi Hc IH]; intros fuel Hf; [by destruct fuel|].
  specialize (Hf i eq_refl). destruct fuel as [|fuel]; [lia|]. simpl. rewrite Hi. simpl. f_equal.
  apply IH. intros j ->. pose proof (Hwf i _ j Hi eq_refl). lia.
Qed.

(** [id] is the interned form of [t]. *)
Definition represents (st : Store) (id : FieldTypeId) (t : AType) : Prop :=
  ∃ inn, get_index (inner_types st) id = Some inn ∧
    get_index (strings st) (inner_name inn) = Some (base_name t) ∧
    inner_required inn = type_inner_nonnull t ∧
    chain (wrappers st) (inner_wrapper inn) (reverse (type_kinds t)).

Definition store_extends (st st' : Store) : Prop :=
  extends (strings st) (strings st') ∧ extends (inner_types st) (inner_types st') ∧
  extends (wrappers st) (wrappers st').
Lemma represents_mono st st' id t : store_extends st st' → represents st id t → represents st' id t.
Proof.
  intros (Hs & Hi & Hw) (inn & ? & ? & ? & ?). exists inn. split_and!; eauto using chain_mono.
Qed.

Lemma intern_spec s set :
  get_index (intern s set).2 (intern s set).1 = Some s ∧ extends set (intern s set).2.
Proof.
  unfold intern. destruct (get_index_of set s) as [i|] eqn:E; simpl.
  - apply get_index_of_spec in E. split; [done|reflexivity].
  - pose proof (insert_full_spec set s) as (? & ? & _). done.
Qed.
Lemma insert_wrapper_wf ws k w :
  wrappers_wf ws → (∀ o, w = Some o → is_Some (get_index ws o)) → wrappers_wf (insert_full (MkWrapper k w) ws).2.
Proof.
  intros Hwf Hw i w' o Hi Ho. destruct (insert_full_spec ws (MkWrapper k w)) as (_ & _ & Hinv & _).
  destruct (get_index_of ws (MkWrapper k w)) as [j|] eqn:E.
  { apply get_index_of_spec in E. rewrite (insert_full_old _ _ _ _ E) in Hi. by eapply Hwf. }
  destruct (insert_full_new _ ws (MkWrapper k w)) as [Hidx _].
  { intros j Hj. apply (get_index_of_spec _ ws) in Hj. congruence. }
  apply Hinv in Hi as [Hi|[-> ->]]; [by eapply Hwf|]. simpl in Ho. rewrite Hidx. apply get_index_lt. by apply Hw.
Qed.

Lemma intern_loop_spec t w st ks :
  wrappers_wf (wrappers st) → chain (wrappers st) w ks →
  wrappers_wf (wrappers (intern_loop t w st).2) ∧ store_extends st (intern_loop t w st).2 ∧
  ∃ inn, get_index (inner_types (intern_loop t w st).2) (intern_loop t w st).1 = Some inn ∧
    get_index (strings (intern_loop t w st).2) (inner_name inn) = Some (base_name t) ∧
    inner_required inn = type_inner_nonnull t ∧
    chain (wrappers (intern_loop t w st).2) (inner_wrapper inn) (reverse (type_kinds t) ++ ks).
Proof.
  revert w st ks. induction t as [n b|t IH b]; intros w st ks Hwf Hc.
  - cbn [intern_loop]. pose proof (intern_spec n (strings st)) as (Hs & Hse).
    destruct (intern n (strings st)) as [sid strs]. simpl in *.
    pose proof (insert_full_spec (inner_types st) (MkInner sid w (negb b))) as (Hi & Hie & _).
    destruct (insert_full _ (inner_types st)) as [iid inner']. simpl in *.
    split_and!; [done|split_and!; done|]. eexists. split_and!; done.
  - cbn [intern_loop]. set (wr := MkWrapper (if b then KList else KNonNullList) w).
    pose proof (insert_full_spec (wrappers st) wr) as (Hi & Hext & _).
    assert (wrappers_wf (insert_full wr (wrappers st)).2) as Hwf'.
    { apply insert_wrapper_wf; [done|]. intros o ->. inversion Hc; subst. by eexists. }
    destruct (insert_full wr (wrappers st)) as [wid ws]. simpl in *.
    destruct (IH (Some wid) (MkStore (strings st) (inner_types st) ws)
      ((if b then KList else KNonNullList) :: ks)) as (? & (? & ? & Hws) & inn & ? & ? & ? & Hch); [done| |].
    { econstructor; [exact Hi|]. by eapply chain_mono. }
    simpl in *. split_and!; [done|split_and!; [done|done|by transitivity ws]|].
    exists inn. split_and!; [done..|]. by rewrite reverse_cons, <-(assoc_L (++)).
Qed.

(** ** Reading a representation *)
Section read.
Context (st : Store) (Hwf : wrappers_wf (wrappers st)).

Lemma represents_inner id t :
  represents st id t → ∃ inn, inner st id = Ret inn ∧ iter_wrappers st inn = reverse (type_kinds t) ∧
    inner_required inn = type_inner_nonnull t ∧ get_index (strings st) (inner_name inn) = Some (base_name t).
Proof.
  intros (inn & Hi & Hs & Hr & Hc). exists inn. unfold inner. rewrite Hi. split_and!; [done| |done|done].
  unfold iter_wrappers. apply chain_wrappers_from; [done|done|]. intros i Hiw. rewrite Hiw in Hc.
  inversion Hc; subst. apply get_index_lt. by eexists.
Qed.
Lemma represents_is_required id t : represents st id t → is_required st id = Ret (required t).
Proof.
  intros (inn & Hi & Hw & Hr & _)%represents_inner. unfold is_required. rewrite Hi. simpl. rewrite Hw, Hr.
  destruct t as [n b|t b]; simpl; [by destruct b|]. rewrite reverse_cons, last_snoc. by destruct b.
Qed.
Lemma represents_display id t : represents st id t → display st id = Ret (print_type t).
Proof.
  intros (inn & Hi & Hw & Hr & Hs)%represents_inner. unfold display, resolve. rewrite Hi. simpl.
  rewrite Hs. simpl. rewrite Hw, Hr. f_equal. clear.
  induction t as [n b|t IH b]; simpl; [destruct b; simpl; [by rewrite append_nil|done]|].
  rewrite reverse_cons, foldl_app. simpl. rewrite IH. by destruct b.
Qed.
(** A type has one id, and an id one type. *)
Lemma represents_unique id id' t t' : represents st id t → represents st id' t' → id = id' ↔ t = t'.
Proof.
  intros (inn & Hi & Hs & Hr & Hc) (inn' & Hi' & Hs' & Hr' & Hc'). split.
  - intros <-. assert (inn = inn') as <- by congruence. apply type_parts_inj; [congruence|congruence|].
    apply (inj reverse). by eapply chain_det.
  - intros <-. apply (get_index_inj (inner_types st) id id' inn); [exact Hi|]. rewrite Hi'. f_equal.
    destruct inn as [n w r], inn' as [n' w' r']. simpl in *. subst. f_equal.
    + by apply (get_index_inj (strings st) n' n (base_name t)).
    + by eapply chain_inj.
Qed.

(** ** Composing two types with the same number of lists *)
Lemma compose_loop_snoc la lb x y xs ys k1 k2 :
  length la = length lb → x :: xs = la ++ [k1] → y :: ys = lb ++ [k2] →
  compose_loop x y xs ys = if decide (la = lb) then Some (bool_decide (k2 = KNonNullList)) else None.
Proof.
  revert lb x y xs ys. induction la as [|a la IH]; intros [|b lb] x y xs ys Hlen Ex Ey; simplify_eq/=; [done|].
  destruct la as [|a' la], lb as [|b' lb]; simplify_eq/=.
  - repeat case_decide; simplify_eq; congruence.
  - rewrite (IH (b' :: lb) a' b' (la ++ [k1]) (lb ++ [k2])) by (simpl; congruence).
    repeat case_decide; simplify_eq; congruence.
Qed.

Lemma set_nullable_required t : set_nullable t (negb (required t)) = t.
Proof. by destruct t as [? []|? []]. Qed.
Lemma type_kinds_length_eq a b : list_depth a = list_depth b → length (reverse (type_kinds a)) = length (reverse (type_kinds b)).
Proof. rewrite !length_reverse, !length_type_kinds. done. Qed.

Lemma compose_spec a b ta tb :
  represents st a ta → represents st b tb → list_depth ta = list_depth tb → a ≠ b →
  compose st a b = Ret (if decide (same_up_to_outer ta tb) then Some (required tb) else None).
Proof.
  intros Ha Hb Hdepth Hne. pose proof (represents_is_required b tb Hb) as Hreq.
  destruct (represents_inner a ta Ha) as (ia & Eia & Hwa & Hra & Hna).
  destruct (represents_inner b tb Hb) as (ib & Eib & Hwb & Hrb & Hnb).
  unfold compose. rewrite decide_False, Eia, Eib by done. cbn [mbind res_bind]. rewrite Hwa, Hwb, Hra, Hrb, Hreq.
  assert (inner_name ia = inner_name ib ↔ base_name ta = base_name tb) as Hname.
  { split; [congruence|]. intros E. apply (get_index_inj (strings st) _ _ (base_name ta)); congruence. }
  destruct (decide (inner_name ia ≠ inner_name ib)) as [Hn|Hn].
  { rewrite decide_False; [done|]. intros Hs. apply Hn, Hname. unfold same_up_to_outer in Hs.
    destruct ta, tb; by simplify_eq/=. }
  destruct (decide (inner_name ia = inner_name ib)) as [Hnm%Hname|]; [|done]. clear Hn Hname.
  destruct ta as [n x|ta x], tb as [n' x'|tb x']; simplify_eq/=; [by rewrite decide_True|].
  rewrite !reverse_cons. destruct (reverse (type_kinds ta) ++ _) as [|k ks] eqn:E1; [by destruct (reverse (type_kinds ta))|].
  destruct (reverse (type_kinds tb) ++ _) as [|k' ks'] eqn:E2; [by destruct (reverse (type_kinds tb))|].
  cbn [mbind res_bind]. f_equal.
  rewrite (compose_loop_snoc (reverse (type_kinds ta)) (reverse (type_kinds tb)) k k' ks ks' _ _
    (type_kinds_length_eq _ _ Hdepth) (eq_sym E1) (eq_sym E2)).
  assert (same_up_to_outer (AList ta x) (AList tb x') ↔ ta = tb) as Hsame.
  { unfold same_up_to_outer. simpl. split; [by intros [= ->]|by intros ->]. }
  destruct (decide (type_inner_nonnull ta ≠ type_inner_nonnull tb)) as [Hd|Hd].
  { rewrite decide_False; [done|]. rewrite Hsame. congruence. }
  destruct (decide (reverse (type_kinds ta) = reverse (type_kinds tb))) as [Hk%(inj reverse)|Hk].
  - rewrite decide_True; [by destruct x'|]. apply Hsame, type_parts_inj; [done| |done].
    destruct (decide (type_inner_nonnull ta = type_inner_nonnull tb)); [done|tauto].
  - rewrite decide_False; [done|]. rewrite Hsame. congruence.
Qed.

(** [out] selects [compose_for_output] or [compose_for_input]. *)
Definition compose_fn (out : bool) := if out then compose_for_output st else compose_for_input st.
Definition combine (out a b : bool) : bool := if out then a && b else a || b.
(** All are required, or any is. *)
Definition combine_all (out : bool) (ts : list AType) : bool :=
  if out then forallb required ts else existsb required ts.
Lemma combine_all_foldl out t ts :
  foldl (λ acc t, combine out acc (required t)) (required t) ts = combine_all out (t :: ts).
Proof.
  unfold combine_all, combine. destruct out; simpl; generalize (required t) as acc;
    induction ts as [|x ts IH]; intros acc; simpl; rewrite ?andb_true_r, ?orb_false_r; try done; rewrite IH;
    by rewrite ?andb_assoc, ?orb_assoc.
Qed.

Lemma compose_fn_spec out a b ta tb :
  represents st a ta → represents st b tb → list_depth ta = list_depth tb →
  compose_fn out a b =
  Ret (if decide (same_up_to_outer ta tb)
       then Some (if eqb_bool (required tb) out then a else b) else None).
Proof.
  intros Ha Hb Hd. destruct (decide (a = b)) as [<-|Hne].
  - assert (ta = tb) as <- by by apply (represents_unique a a ta tb Ha Hb).
    rewrite decide_True by done.
    destruct out; simpl; unfold compose_for_output, compose_for_input, compose; rewrite decide_True by done;
      simpl; by destruct (eqb_bool _ _).
  - destruct out; simpl; unfold compose_for_output, compose_for_input;
      rewrite (compose_spec a b ta tb) by done; simpl; case_decide; simpl; try done; by destruct (required tb).
Qed.

Lemma same_up_to_outer_depth a b : same_up_to_outer a b → list_depth a = list_depth b.
Proof. unfold same_up_to_outer. destruct a, b; simpl; congruence. Qed.
Lemma set_nullable_same a b x : same_up_to_outer a b → set_nullable a x = set_nullable b x.
Proof. unfold same_up_to_outer. destruct a, b; simpl; congruence. Qed.
(** The picked type has the combined requiredness. *)
Lemma pick_spec out a b ta tb :
  represents st a ta → represents st b tb → same_up_to_outer ta tb →
  represents st (if eqb_bool (required tb) out then a else b)
    (set_nullable ta (negb (combine out (required ta) (required tb)))).
Proof.
  intros Ha Hb Hs. unfold eqb_bool.
  assert (set_nullable ta (negb (required tb)) = tb) as Etb.
  { by rewrite (set_nullable_same ta tb), set_nullable_required. }
  pose proof (set_nullable_required ta) as Eta.
  destruct out, (required ta), (required tb); simpl in *; first [by rewrite Eta|by rewrite Etb].
Qed.

Lemma fold_types_spec out fields ts c tc :
  represents st c tc →
  Forall2 (λ f t, represents st (field_type f) t ∧ list_depth t = list_depth tc) fields ts →
  ∃ r, fold_types (compose_fn out) c fields = Ret r ∧
    match r with
    | inl id => Forall (same_up_to_outer tc) ts ∧
        represents st id (set_nullable tc (negb (foldl (λ acc t, combine out acc (required t)) (required tc) ts)))
    | inr f => ¬ Forall (same_up_to_outer tc) ts ∧ f ∈ fields
    end.
Proof.
  intros Hc HF. revert c tc Hc HF. revert ts.
  induction fields as [|f fields IH]; intros ts c tc Hc HF.
  { inversion_clear HF. exists (inl c). split; [done|]. split; [constructor|]. simpl. by rewrite set_nullable_required. }
  inversion_clear HF as [|? t ? ts' [Hf Hd] HF']. simpl.
  rewrite (compose_fn_spec out c (field_type f) tc t Hc Hf) by done. cbn [mbind res_bind].
  case_decide as Hs.
  - pose proof (pick_spec out c (field_type f) tc t Hc Hf Hs) as Hp.
    set (tc' := set_nullable tc _) in Hp.
    assert (same_up_to_outer tc tc') as Hs' by by destruct tc.
    assert (required tc' = combine out (required tc) (required t)) as Hr'.
    { unfold tc'. destruct tc; simpl; by rewrite negb_involutive. }
    destruct (IH ts' _ tc' Hp) as (r & -> & Hr).
    { eapply Forall2_impl; [exact HF'|]. intros f' t' [? ?]. split; [done|].
      by rewrite <-(same_up_to_outer_depth _ _ Hs'). }
    exists r. split; [done|]. rewrite Hr' in Hr.
    assert (Forall (same_up_to_outer tc) (t :: ts') ↔ Forall (same_up_to_outer tc') ts') as HFs.
    { rewrite Forall_cons. split.
      - intros [_ Hall]. eapply Forall_impl; [exact Hall|]. intros t' Ht'. by rewrite <-Hs'.
      - intros Hall. split; [done|]. eapply Forall_impl; [exact Hall|]. intros t' Ht'. by rewrite Hs'. }
    destruct r as [id|f'].
    + destruct Hr as [Hall Hid]. split; [by apply HFs|]. by rewrite (set_nullable_same tc tc' _ Hs').
    + destruct Hr as [Hall Hin]. split; [by rewrite HFs|set_solver].
  - exists (inr f). split; [done|]. split; [|set_solver]. rewrite Forall_cons. naive_solver.
Qed.
End read.
End props.

(** ** Properties *)
Section claims.
Context `{IndexSetLaws}.

(** Interning keeps types apart and whole: from a well-formed store,
    [intern_field_type] returns an id that prints back to the GraphQL syntax of
    the type and has its requiredness, ids handed out before keep their types,
    and two ids are equal exactly when their types are. *)
Theorem intern_field_type_faithful (st : Store) (t : AType) (Hwf : wrappers_wf (wrappers st)) :
  let '(id, st') := intern_field_type t st in
  wrappers_wf (wrappers st') ∧ represents st' id t ∧
  display st' id = Ret (print_type t) ∧ is_required st' id = Ret (required t) ∧
  ∀ id' t', represents st id' t' →
    represents st' id' t' ∧ (id' = id ↔ t' = t).
Proof.
  destruct (intern_loop_spec t None st []) as (Hwf' & Hext & Hrep); [done|constructor|].
  rewrite app_nil_r in Hrep. change (represents (intern_loop t None st).2 (intern_loop t None st).1 t) in Hrep.
  unfold intern_field_type. destruct (intern_loop t None st) as [id st']. simpl in *.
  split_and!; [done|done|by apply represents_display|by apply represents_is_required|].
  intros id' t' Hr. assert (represents st' id' t') by by eapply represents_mono.
  split; [done|]. by apply (represents_unique st').
Qed.

Lemma compose_field_types_ok (st : Store) (out : bool) (first : FieldWalker) (fields : list FieldWalker)
    (t : AType) (ts : list AType) :
  wrappers_wf (wrappers st) → represents st (field_type first) t →
  Forall2 (λ f t', represents st (field_type f) t' ∧ list_depth t' = list_depth t) fields ts →
  ∃ r ds, compose_field_types st (compose_fn st out) (first :: fields) = Ret (r, ds) ∧
    match r with
    | Some id => Forall (same_up_to_outer t) ts ∧ ds = [] ∧
        represents st id (set_nullable t (negb (combine_all out (t :: ts))))
    | None => ¬ Forall (same_up_to_outer t) ts ∧ length ds = 1
    end.
Proof.
  intros Hwf Hfirst Hrest.
  cbn [compose_field_types]. destruct (fold_types_spec st Hwf out fields ts (field_type first) t Hfirst Hrest) as (r & -> & Hr).
  cbn [mbind res_bind]. destruct r as [id|f].
  - destruct Hr as [Hall Hid]. exists (Some id), []. rewrite combine_all_foldl in Hid. done.
  - destruct Hr as [Hall (i & Hi)%list_elem_of_lookup]. destruct (Forall2_lookup_l _ _ _ _ _ Hrest Hi) as (t' & _ & Ht' & _).
    unfold conflict_message. rewrite (represents_display st Hwf _ _ Hfirst), (represents_display st Hwf _ _ Ht').
    simpl. by eexists None, [_].
Qed.

(** C34. Composing the types of one field over all subgraphs, for types with the
    same number of lists: it succeeds exactly when the types agree up to their
    outermost nullability, and then the result is that type, required in output
    position when all are and in input position when any is; otherwise it
    returns no type and reports one fatal diagnostic. *)
Theorem compose_field_types_spec (st : Store) (out : bool) (first : FieldWalker) (fields : list FieldWalker)
    (t : AType) (ts : list AType)
    (Hwf : wrappers_wf (wrappers st)) (Hfirst : represents st (field_type first) t)
    (Hrest : Forall2 (λ f t', represents st (field_type f) t' ∧ list_depth t' = list_depth t) fields ts) :
  ∃ r ds, compose_field_types st (compose_fn st out) (first :: fields) = Ret (r, ds) ∧
    match r with
    | Some id => Forall (same_up_to_outer t) ts ∧ ds = [] ∧
        represents st id (set_nullable t (negb (combine_all out (t :: ts))))
    | None => ¬ Forall (same_up_to_outer t) ts ∧ length ds = 1
    end.
Proof. by apply compose_field_types_ok. Qed.

Lemma combine_all_perm out ts ts' : ts ≡ₚ ts' → combine_all out ts = combine_all out ts'.
Proof.
  intros HP. unfold combine_all. destruct out; induction HP; simpl; try congruence.
  - by rewrite !andb_assoc, (andb_comm (required y)).
  - by rewrite !orb_assoc, (orb_comm (required y)).
Qed.
Lemma Forall2_map_r {A B} (P : A → B → Prop) (f : A → B) l : Forall (λ x, P x (f x)) l → Forall2 P l (f <$> l).
Proof. induction 1; simpl; constructor; auto. Qed.

(** The composed type does not depend on the order of the subgraphs: for
    fields whose types have the same number of lists, every permutation of the
    fields composes to the same type, or to none. *)
Theorem compose_order_irrelevant (st : Store) (out : bool) (fields fields' : list FieldWalker)
    (type_of : FieldWalker → AType) (depth : nat) (Hwf : wrappers_wf (wrappers st)) (HP : fields ≡ₚ fields')
    (Htypes : Forall (λ f, represents st (field_type f) (type_of f) ∧ list_depth (type_of f) = depth) fields) :
  ∃ r ds ds', compose_field_types st (compose_fn st out) fields = Ret (r, ds) ∧
              compose_field_types st (compose_fn st out) fields' = Ret (r, ds').
Proof.
  destruct fields as [|f fs].
  { apply Permutation_nil in HP as ->. by exists None, [], []. }
  destruct fields' as [|f' fs']; [symmetry in HP; by apply Permutation_nil_cons in HP|].
  assert (∀ g gs, f :: fs ≡ₚ g :: gs → ∃ r ds, compose_field_types st (compose_fn st out) (g :: gs) = Ret (r, ds) ∧
    match r with
    | Some id => (∀ h, h ∈ f :: fs → same_up_to_outer (type_of g) (type_of h)) ∧
        represents st id (set_nullable (type_of g) (negb (combine_all out (type_of <$> f :: fs))))
    | None => ¬ ∀ h, h ∈ f :: fs → same_up_to_outer (type_of g) (type_of h)
    end) as Hgroup.
  { intros g gs Hgp. rewrite Hgp in Htypes. apply Forall_cons in Htypes as [[Hg Hgd] Hgs].
    destruct (compose_field_types_ok st out g gs (type_of g) (type_of <$> gs)) as (r & ds & E & Hr); [done|done| |].
    { apply Forall2_map_r. eapply Forall_impl; [exact Hgs|]. intros x [? ->]. done. }
    exists r, ds. split; [done|].
    assert (Forall (same_up_to_outer (type_of g)) (type_of <$> gs) ↔
            ∀ h, h ∈ f :: fs → same_up_to_outer (type_of g) (type_of h)) as Hiff.
    { rewrite Forall_fmap, Forall_forall. setoid_rewrite Hgp. setoid_rewrite elem_of_cons. naive_solver. }
    destruct r as [id|]; [|naive_solver]. destruct Hr as (Hall & _ & Hid). split; [by apply Hiff|].
    rewrite (combine_all_perm out _ (type_of <$> g :: gs)); [done|]. by rewrite Hgp. }
  destruct (Hgroup f fs) as (r & ds & E & Hr); [done|]. destruct (Hgroup f' fs' HP) as (r' & ds' & E' & Hr').
  exists r, ds, ds'. split; [done|]. rewrite E'. f_equal. f_equal.
  assert (f' ∈ f :: fs) as Hin by (rewrite HP; set_solver).
  destruct r as [id|], r' as [id'|]; [| | |done].
  - f_equal. destruct Hr as [Hall Hid], Hr' as [_ Hid']. eapply (represents_unique st); [exact Hid'|exact Hid|].
    symmetry. apply set_nullable_same. by apply Hall.
  - destruct Hr as [Hall _], Hr'. intros h Hh. by rewrite <-(Hall h Hh), (Hall f' Hin).
  - destruct Hr' as [Hall _], Hr. intros h Hh. by rewrite <-(Hall h Hh), (Hall f ltac:(set_solver)).
Qed.

(** ** Lists and non-lists *)
(** [compose] does not tell a list from its element: when one type has no
    list wrapper it never looks at the other's, so the output types [[Int]] and
    [Int] compose without a conflict; and when the first type has exactly one
    more list than the second, zipping the wrappers drops the extra one, so
    [[[Int]]] composes with [[Int]] but not [[Int]] with [[[Int]]]. *)
Theorem list_composes_with_element :
  let _ := list_index_set in
  let int := ANamed "Int" true in
  let '(i0, st) := intern_field_type int Store_empty in
  let '(i1, st) := intern_field_type (AList int true) st in
  let '(i2, st) := intern_field_type (AList (AList int true) true) st in
  compose_for_output st i1 i0 = Ret (Some i0) ∧ compose_for_output st i0 i1 = Ret (Some i1) ∧
  compose_for_output st i2 i1 = Ret (Some i1) ∧ compose_for_output st i1 i2 = Ret None.
Proof. vm_compute. done. Qed.
End claims.

(** ** [composition/src/compose/fields.rs]: groups of fields, and concrete cases *)

Section groups.
Context {A : Type} (key : A → StringId).
Implicit Types l : list A.
Let same (n : nat) (y : A) : bool := eqb (key y) n.

Lemma eqb_nat (a b : nat) : eqb a b = bool_decide (a = b).
Proof. case_bool_decide as E; [by apply eqb_true|by apply eqb_false]. Qed.
Lemma cmp_le_nat (a b : nat) : cmp_le a b ↔ a ≤ b.
Proof. unfold cmp_le, cmp, nat_ord. rewrite Nat.compare_gt_iff. lia. Qed.

(** A sorted list starts with the run of its first key. *)
Lemma sorted_run n l :
  sorted_by key l → Forall (λ y, n ≤ key y) l →
  take_while (same n) l = filter (λ y, key y = n) l ∧ Forall (λ y, n < key y) (drop_while (same n) l).
Proof.
  intros Hs. induction Hs as [|x l Hl IH Hx]; intros HF; simpl; [done|].
  apply Forall_cons in HF as [Hle HF]. unfold same. rewrite eqb_nat, filter_cons. fold same.
  case_bool_decide as E.
  - rewrite decide_True by done. destruct (IH HF) as [E1 E2]. split; [|done]. f_equal. exact E1.
  - rewrite decide_False by done.
    assert (Forall (λ y, n < key y) l) as Hgt.
    { eapply Forall_impl; [exact Hx|]. intros y Hy%cmp_le_nat. lia. }
    split; [|constructor; [lia|done]]. symmetry. apply filter_none. intros y Hy.
    eapply Forall_forall in Hgt; [|done]. lia.
Qed.
Lemma partitioned_same n l :
  sorted_by key l → Forall (λ y, n ≤ key y) l → partitioned (same n) l.
Proof.
  intros Hs HF. unfold partitioned. destruct (sorted_run n l Hs HF) as [_ Hd].
  eapply Forall_impl; [exact Hd|]. intros y Hy. unfold same. rewrite eqb_nat. apply bool_decide_false. simpl in Hy. lia.
Qed.
Lemma sorted_drop_while p l : sorted_by key l → sorted_by key (drop_while p l).
Proof.
  induction 1 as [|x l Hl IH Hx]; simpl; [constructor|]. destruct (p x); [done|]. by constructor.
Qed.
(** The distinct keys of a sorted list. *)
Lemma dedup_run x l :
  sorted_by key (x :: l) →
  dedup (key <$> x :: l) = key x :: dedup (key <$> drop_while (same (key x)) (x :: l)).
Proof.
  cbn [drop_while]. unfold same at 1. rewrite eqb_nat, bool_decide_true by done. fold (same (key x)).
  revert x. induction l as [|y l IH]; intros x Hs; [done|]. apply StronglySorted_inv in Hs as [Hs Hx].
  cbn [fmap list_fmap dedup drop_while]. unfold same at 1. rewrite eqb_nat.
  case_decide as E; case_bool_decide as E'; try congruence.
  - rewrite E. exact (IH y Hs).
  - done.
Qed.

Lemma groups_spec fuel l :
  length l ≤ fuel → sorted_by key l →
  groups fuel key l = (λ n, filter (λ y, key y = n) l) <$> dedup (key <$> l).
Proof.
  revert l. induction fuel as [|fuel IH]; intros [|x l] Hlen Hs; try done; [simpl in Hlen; lia|].
  cbn [groups]. fold (same (key x)).
  assert (Forall (λ y, key x ≤ key y) (x :: l)) as HF.
  { constructor; [lia|]. apply StronglySorted_inv in Hs as [_ Hx].
    eapply Forall_impl; [exact Hx|]. intros y. apply cmp_le_nat. }
  destruct (sorted_run (key x) (x :: l) Hs HF) as [Htake Hdrop].
  rewrite partition_point_spec by by apply partitioned_same.
  rewrite drop_while_length. set (d := drop_while _ _) in *.
  assert (take (length (take_while (same (key x)) (x :: l))) (x :: l) = take_while (same (key x)) (x :: l)) as ->.
  { rewrite <-(take_drop_while (same (key x)) (x :: l)) at 2. apply take_app_length. }
  rewrite (dedup_run x l Hs). fold d. rewrite fmap_cons, Htake. f_equal. rewrite IH.
  - apply list_fmap_ext. intros i n Hn.
    assert (n ∈ key <$> d) as (y & -> & Hy)%list_elem_of_fmap
      by (apply elem_of_dedup; by eapply list_elem_of_lookup_2).
    rewrite <-(take_drop_while (same (key x)) (x :: l)) at 1. fold d.
    rewrite filter_app, (filter_none _ (take_while _ _)); [done|].
    intros z Hz E. rewrite Htake in Hz. apply list_elem_of_filter in Hz as [Hz _].
    eapply Forall_forall in Hdrop; [|exact Hy]. simpl in Hdrop. lia.
  - assert (length (x :: l) = length (take_while (same (key x)) (x :: l)) + length d) as Hl.
    { unfold d. by rewrite <-length_app, take_drop_while. }
    rewrite Htake, filter_cons, decide_True in Hl by done. simpl in *. lia.
  - by apply sorted_drop_while.
Qed.

(** A stable sort keeps the order of the elements with one key. *)
Lemma insert_filter_key n x l :
  filter (λ y, key y = n) (@insert_by A (cmp_on key) x l) = filter (λ y, key y = n) (x :: l).
Proof.
  induction l as [|y l IH]; [done|]. cbn [insert_by].
  destruct (@cmp A (cmp_on key) x y) eqn:E; [done|done|]. rewrite filter_cons, IH, !filter_cons.
  repeat case_decide; try done. change (cmp (key x) (key y) = Gt) in E.
  replace (key x) with (key y) in E by congruence. by rewrite cmp_refl in E.
Qed.
Lemma sort_filter_key n l : filter (λ y, key y = n) (@sort A (cmp_on key) l) = filter (λ y, key y = n) l.
Proof.
  induction l as [|x l IH]; [done|]. change (@sort A (cmp_on key) (x :: l)) with
    (@insert_by A (cmp_on key) x (@sort A (cmp_on key) l)).
  rewrite insert_filter_key, !filter_cons, IH. done.
Qed.
End groups.

(** [for_each_field_group] calls its closure once per field name, in
    increasing order of the name ids, with exactly the fields of that name of
    all the definitions, in the order of the definitions. *)
Theorem field_groups_spec {A} (key : A → StringId) (definitions : list (list A)) :
  ∃ names : list StringId, NoDup names ∧ StronglySorted cmp_le names ∧
    (∀ n, n ∈ names ↔ ∃ f, f ∈ concat definitions ∧ key f = n) ∧
    field_groups key definitions = (λ n, filter (λ f, key f = n) (concat definitions)) <$> names.
Proof.
  set (all := concat definitions). set (l := @sort A (cmp_on key) all).
  assert (sorted_by key l) as Hs by apply sort_sorted_by.
  assert (StronglySorted cmp_le (key <$> l)) as Hk.
  { clear -Hs. induction Hs as [|x l' Hl IH Hx]; simpl; constructor; [done|]. by apply Forall_fmap. }
  exists (dedup (key <$> l)). split_and!.
  - by apply dedup_NoDup.
  - by apply dedup_sorted.
  - intros n. rewrite elem_of_dedup, list_elem_of_fmap. unfold l. setoid_rewrite elem_of_sort. naive_solver.
  - unfold field_groups. fold all l. rewrite groups_spec by done. apply list_fmap_ext. intros i n _.
    apply sort_filter_key.
Qed.

(** ** Cases *)
#[local] Existing Instance list_index_set.
#[local] Existing Instance list_index_set_laws.

Definition int_opt : AType := ANamed "Int" true.
Definition int_req : AType := ANamed "Int" false.
(** A store with [Int] and [Int!]. *)
Definition two_types : Store := (intern_field_type int_req (intern_field_type int_opt Store_empty).2).2.

Lemma store_empty_wf : wrappers_wf (wrappers Store_empty).
Proof. intros i w o Hi. cbn in Hi. done. Qed.
Lemma two_types_wf : wrappers_wf (wrappers two_types).
Proof. intros i w o Hi. vm_compute in Hi. done. Qed.
Lemma two_types_opt : represents two_types 0 int_opt.
Proof. exists (MkInner 0 None false). split_and!; try reflexivity. constructor. Qed.
Lemma two_types_req : represents two_types 1 int_req.
Proof. exists (MkInner 0 None true). split_and!; try reflexivity. constructor. Qed.

Lemma intern_field_type_faithful_witness :
  display (intern_field_type (AList int_req true) Store_empty).2
    (intern_field_type (AList int_req true) Store_empty).1 = Ret "[Int!]".
Proof.
  pose proof (intern_field_type_faithful Store_empty (AList int_req true) store_empty_wf) as H.
  destruct (intern_field_type (AList int_req true) Store_empty) as [id st]. destruct H as (_ & _ & E & _). exact E.
Defined.

Definition field_a : FieldWalker := MkFieldWalker "Query" "n" "a" 0.
Definition field_b : FieldWalker := MkFieldWalker "Query" "n" "b" 1.

Lemma compose_field_types_spec_witness :
  ∃ ds, compose_output_field_types two_types [field_a; field_b] = Ret (Some 0, ds).
Proof.
  destruct (compose_field_types_spec two_types true field_a [field_b] int_opt [int_req]) as (r & ds & E & Hr).
  - apply two_types_wf.
  - apply two_types_opt.
  - constructor; [split; [apply two_types_req|reflexivity]|constructor].
  - exists ds. change (compose_output_field_types two_types [field_a; field_b] = Ret (r, ds)) in E. rewrite E.
    vm_compute in E. congruence.
Defined.

Lemma compose_order_irrelevant_witness :
  ∃ r ds ds', compose_input_field_types two_types [field_a; field_b] = Ret (r, ds) ∧
              compose_input_field_types two_types [field_b; field_a] = Ret (r, ds').
Proof.
  apply (compose_order_irrelevant two_types false [field_a; field_b] [field_b; field_a]
    (λ f, if decide (field_type f = 0) then int_opt else int_req) 0).
  - apply two_types_wf.
  - apply perm_swap.
  - constructor; [split; [apply two_types_opt|reflexivity]|].
    constructor; [split; [apply two_types_req|reflexivity]|constructor].
Defined.
