(* ===== verification/Subgraphs.v ===== *)
(** * [composition]: the stores of [subgraphs/*.rs]

    The ingested subgraphs: the subgraphs with their root types, the
    definitions, their fields, arguments, keys, union members and implemented
    interfaces, the enum values and the directives of each directive site, with
    the operations ingestion fills them with and the walkers composition reads
    them with. [BTreeMap], [BTreeSet] and [HashMap] are [gmap] and [gset]; the
    ordered ones are iterated in key order. *)
From S2P Require Import Prelude RustStd IndexSet FieldTypes.
Local Open Scope string_scope.
Local Open Scope list_scope.
Local Open Scope nat_scope.

Abbreviation DefinitionId := nat.
Abbreviation SubgraphId := nat.
Abbreviation DirectiveSiteId := nat.

(** ** [subgraphs/directives.rs] *)

(** [Value]; an [f64] is its 64 bits. *)
Inductive Value :=
| VString (s : StringId)
| VInt (n : Z)
| VFloat (bits : Z)
| VBoolean (b : bool)
| VEnum (s : StringId)
| VObject (fields : list (StringId * Value))
| VList (items : list Value)
| VNull.

(** [f64::eq]: a NaN differs from everything and the two zeros are equal. *)
Definition f64_is_nan (bits : Z) : bool :=
  (9218868437227405312 <? Z.land bits (Z.ones 63))%Z.
Definition f64_eq (a b : Z) : bool :=
  negb (f64_is_nan a) && negb (f64_is_nan b)
  && ((a =? b)%Z || ((Z.land a (Z.ones 63) =? 0)%Z && (Z.land b (Z.ones 63) =? 0)%Z)).

(** The derived [PartialEq]. *)
Fixpoint value_eqb (a b : Value) : bool :=
  match a, b with
  | VString s, VString t | VEnum s, VEnum t => s =? t
  | VInt n, VInt m => (n =? m)%Z
  | VFloat x, VFloat y => f64_eq x y
  | VBoolean x, VBoolean y => Bool.eqb x y
  | VObject l1, VObject l2 =>
      (fix go l1 l2 :=
         match l1, l2 with
         | [], [] => true
         | (n1, v1) :: l1, (n2, v2) :: l2 => (n1 =? n2) && value_eqb v1 v2 && go l1 l2
         | _, _ => false
         end) l1 l2
  | VList l1, VList l2 =>
      (fix go l1 l2 :=
         match l1, l2 with
         | [], [] => true
         | v1 :: l1, v2 :: l2 => value_eqb v1 v2 && go l1 l2
         | _, _ => false
         end) l1 l2
  | VNull, VNull => true
  | _, _ => false
  end.

Abbreviation Arguments_ := (list (StringId * Value)).

(** [subgraphs/keys.rs]: selection sets of keys, [@requires] and [@provides]. *)
Inductive Selection :=
| SField (field : StringId) (arguments : Arguments_) (subselection : list Selection)
| SInlineFragment (on : StringId) (subselection : list Selection).
Record Key := MkKey { selection_set : list Selection; resolvable : bool }.

Record OverrideDirective := MkOverride { override_from : StringId; override_label : option StringId }.
Record AuthorizedDirective := MkAuthorized {
  authorized_arguments : option (list Selection);
  authorized_fields : option (list Selection);
  authorized_node : option (list Selection);
  authorized_metadata : option Value;
}.

Record Directives := MkDirectives {
  site_id_counter : nat;
  deprecated_map : gmap DirectiveSiteId (option StringId);
  override_map : gmap DirectiveSiteId OverrideDirective;
  provides_map : gmap DirectiveSiteId (list Selection);
  requires_map : gmap DirectiveSiteId (list Selection);
  authorized_map : gmap DirectiveSiteId AuthorizedDirective;
  requires_scopes_set : gset (DirectiveSiteId * list StringId);
  policies_set : gset (DirectiveSiteId * list StringId);
  authenticated_set : gset DirectiveSiteId;
  inaccessible_set : gset DirectiveSiteId;
  shareable_set : gset DirectiveSiteId;
  external_set : gset DirectiveSiteId;
  interface_object_set : gset DirectiveSiteId;
  tags_set : gset (DirectiveSiteId * StringId);
  composed_directives_set : gset (SubgraphId * StringId);
  composed_directive_instances : list (DirectiveSiteId * StringId * Arguments_);
}.
Definition Directives_default : Directives := MkDirectives 0 ∅ ∅ ∅ ∅ ∅ ∅ ∅ ∅ ∅ ∅ ∅ ∅ ∅ ∅ [].

(** ** [subgraphs/definitions.rs] *)
Inductive DefinitionKind := DObject | DInterface | DUnion | DInputObject | DScalar | DEnum.
Global Instance DefinitionKind_eq_dec : EqDecision DefinitionKind.
Proof. solve_decision. Defined.

Record Definition_ := MkDefinition {
  subgraph_id : SubgraphId;
  definition_name : StringId;
  definition_kind : DefinitionKind;
  definition_description : option StringId;
  definition_directives : DirectiveSiteId;
}.

(** ** [subgraphs/fields.rs] *)
Record FieldTuple := MkFieldTuple {
  tuple_type : FieldTypeId;
  tuple_description : option StringId;
  tuple_directives : DirectiveSiteId;
}.
Abbreviation FieldId := (DefinitionId * StringId)%type.
Abbreviation ArgumentId := (DefinitionId * StringId * StringId)%type.

(** [usize::MAX], the exclusive upper end of the range queries. *)
Definition usize_max : N := 18446744073709551615.

(** [k] lies in the range [(id, StringId::MIN)..(id, StringId::MAX)]. *)
Definition in_range (id : nat) (k : nat * StringId) : bool :=
  (k.1 =? id) && (N.of_nat k.2 <? usize_max)%N.

Section subgraphs.
Context `{IndexSet}.

(** [subgraphs/top.rs]. *)
Record Subgraph := MkSubgraph {
  subgraph_name_id : StringId;
  subgraph_url : StringId;
  query_type : option DefinitionId;
  mutation_type : option DefinitionId;
  subscription_type : option DefinitionId;
}.

(** [Subgraphs]; [strings] and [field_types] are the interners of [FieldTypes],
    and the containers with several tables are flattened. *)
Record Subgraphs := MkSubgraphs {
  store : Store;
  subgraphs : list Subgraph;
  definitions : list Definition_;
  interface_impls : gset (StringId * StringId);
  interface_definitions_to_subgraphs : gmap (StringId * StringId) (list SubgraphId);
  directives : Directives;
  enums : gmap (DefinitionId * StringId) DirectiveSiteId;
  definition_fields : gmap FieldId FieldTuple;
  field_arguments : gmap ArgumentId FieldTuple;
  input_field_default_values : gmap FieldId Value;
  field_argument_defaults : gmap ArgumentId Value;
  keys : list (DefinitionId * Key);
  nested_key_fields : gset FieldId;
  objects_with_nested_keys : gset DefinitionId;
  unions : gset (DefinitionId * DefinitionId);
  ingestion_diagnostics : list string;
  definition_names : gmap (StringId * SubgraphId) DefinitionId;
}.

(** Field updates. *)
Definition with_store (sg : Subgraphs) st : Subgraphs :=
  MkSubgraphs st (subgraphs sg) (definitions sg) (interface_impls sg) (interface_definitions_to_subgraphs sg)
    (directives sg) (enums sg) (definition_fields sg) (field_arguments sg) (input_field_default_values sg)
    (field_argument_defaults sg) (keys sg) (nested_key_fields sg) (objects_with_nested_keys sg) (unions sg)
    (ingestion_diagnostics sg) (definition_names sg).
Definition with_subgraphs (sg : Subgraphs) l : Subgraphs :=
  MkSubgraphs (store sg) l (definitions sg) (interface_impls sg) (interface_definitions_to_subgraphs sg)
    (directives sg) (enums sg) (definition_fields sg) (field_arguments sg) (input_field_default_values sg)
    (field_argument_defaults sg) (keys sg) (nested_key_fields sg) (objects_with_nested_keys sg) (unions sg)
    (ingestion_diagnostics sg) (definition_names sg).
Definition with_definitions (sg : Subgraphs) ds names : Subgraphs :=
  MkSubgraphs (store sg) (subgraphs sg) ds (interface_impls sg) (interface_definitions_to_subgraphs sg)
    (directives sg) (enums sg) (definition_fields sg) (field_arguments sg) (input_field_default_values sg)
    (field_argument_defaults sg) (keys sg) (nested_key_fields sg) (objects_with_nested_keys sg) (unions sg)
    (ingestion_diagnostics sg) names.
Definition with_interface_impls (sg : Subgraphs) impls to_subgraphs : Subgraphs :=
  MkSubgraphs (store sg) (subgraphs sg) (definitions sg) impls to_subgraphs
    (directives sg) (enums sg) (definition_fields sg) (field_arguments sg) (input_field_default_values sg)
    (field_argument_defaults sg) (keys sg) (nested_key_fields sg) (objects_with_nested_keys sg) (unions sg)
    (ingestion_diagnostics sg) (definition_names sg).
Definition with_directives (sg : Subgraphs) (d : Directives) : Subgraphs :=
  MkSubgraphs (store sg) (subgraphs sg) (definitions sg) (interface_impls sg) (interface_definitions_to_subgraphs sg)
    d (enums sg) (definition_fields sg) (field_arguments sg) (input_field_default_values sg)
    (field_argument_defaults sg) (keys sg) (nested_key_fields sg) (objects_with_nested_keys sg) (unions sg)
    (ingestion_diagnostics sg) (definition_names sg).
Definition with_enums (sg : Subgraphs) e : Subgraphs :=
  MkSubgraphs (store sg) (subgraphs sg) (definitions sg) (interface_impls sg) (interface_definitions_to_subgraphs sg)
    (directives sg) e (definition_fields sg) (field_arguments sg) (input_field_default_values sg)
    (field_argument_defaults sg) (keys sg) (nested_key_fields sg) (objects_with_nested_keys sg) (unions sg)
    (ingestion_diagnostics sg) (definition_names sg).
Definition with_fields (sg : Subgraphs) fields arguments input_defaults argument_defaults : Subgraphs :=
  MkSubgraphs (store sg) (subgraphs sg) (definitions sg) (interface_impls sg) (interface_definitions_to_subgraphs sg)
    (directives sg) (enums sg) fields arguments input_defaults argument_defaults
    (keys sg) (nested_key_fields sg) (objects_with_nested_keys sg) (unions sg)
    (ingestion_diagnostics sg) (definition_names sg).
Definition with_keys (sg : Subgraphs) ks nested objects : Subgraphs :=
  MkSubgraphs (store sg) (subgraphs sg) (definitions sg) (interface_impls sg) (interface_definitions_to_subgraphs sg)
    (directives sg) (enums sg) (definition_fields sg) (field_arguments sg) (input_field_default_values sg)
    (field_argument_defaults sg) ks nested objects (unions sg) (ingestion_diagnostics sg) (definition_names sg).
Definition with_unions (sg : Subgraphs) us : Subgraphs :=
  MkSubgraphs (store sg) (subgraphs sg) (definitions sg) (interface_impls sg) (interface_definitions_to_subgraphs sg)
    (directives sg) (enums sg) (definition_fields sg) (field_arguments sg) (input_field_default_values sg)
    (field_argument_defaults sg) (keys sg) (nested_key_fields sg) (objects_with_nested_keys sg) us
    (ingestion_diagnostics sg) (definition_names sg).
Definition with_diagnostics (sg : Subgraphs) ds : Subgraphs :=
  MkSubgraphs (store sg) (subgraphs sg) (definitions sg) (interface_impls sg) (interface_definitions_to_subgraphs sg)
    (directives sg) (enums sg) (definition_fields sg) (field_arguments sg) (input_field_default_values sg)
    (field_argument_defaults sg) (keys sg) (nested_key_fields sg) (objects_with_nested_keys sg) (unions sg)
    ds (definition_names sg).

(** [Default::default]: the built-in scalars are interned. *)
Definition BUILTIN_SCALARS : list string := ["ID"; "String"; "Boolean"; "Int"; "Float"].
Definition intern_string (s : string) (sg : Subgraphs) : StringId * Subgraphs :=
  let '(id, strs) := intern s (strings (store sg)) in
  (id, with_store sg (MkStore strs (inner_types (store sg)) (wrappers (store sg)))).
Definition Subgraphs_default : Subgraphs :=
  foldl (λ sg s, (intern_string s sg).2)
    (MkSubgraphs Store_empty [] [] ∅ ∅ Directives_default ∅ ∅ ∅ ∅ ∅ [] ∅ ∅ ∅ [] ∅)
    BUILTIN_SCALARS.

(** *** Ingestion: directives *)
Definition new_directive_site (sg : Subgraphs) : DirectiveSiteId * Subgraphs :=
  let d := directives sg in
  (site_id_counter d,
   with_directives sg (MkDirectives (S (site_id_counter d)) (deprecated_map d) (override_map d)
     (provides_map d) (requires_map d) (authorized_map d) (requires_scopes_set d) (policies_set d)
     (authenticated_set d) (inaccessible_set d) (shareable_set d) (external_set d)
     (interface_object_set d) (tags_set d) (composed_directives_set d) (composed_directive_instances d))).
Definition insert_deprecated (id : DirectiveSiteId) (reason : option string) (sg : Subgraphs) : Subgraphs :=
  let '(reason, sg) := match reason with
                       | Some r => let '(r, sg) := intern_string r sg in (Some r, sg)
                       | None => (None, sg)
                       end in
  let d := directives sg in
  with_directives sg (MkDirectives (site_id_counter d) (<[id := reason]> (deprecated_map d)) (override_map d)
     (provides_map d) (requires_map d) (authorized_map d) (requires_scopes_set d) (policies_set d)
     (authenticated_set d) (inaccessible_set d) (shareable_set d) (external_set d)
     (interface_object_set d) (tags_set d) (composed_directives_set d) (composed_directive_instances d)).
Definition set_override (id : DirectiveSiteId) (o : OverrideDirective) (sg : Subgraphs) : Subgraphs :=
  let d := directives sg in
  with_directives sg (MkDirectives (site_id_counter d) (deprecated_map d) (<[id := o]> (override_map d))
     (provides_map d) (requires_map d) (authorized_map d) (requires_scopes_set d) (policies_set d)
     (authenticated_set d) (inaccessible_set d) (shareable_set d) (external_set d)
     (interface_object_set d) (tags_set d) (composed_directives_set d) (composed_directive_instances d)).
Definition set_provides (id : DirectiveSiteId) (fields : list Selection) (sg : Subgraphs) : Subgraphs :=
  let d := directives sg in
  with_directives sg (MkDirectives (site_id_counter d) (deprecated_map d) (override_map d)
     (<[id := fields]> (provides_map d)) (requires_map d) (authorized_map d) (requires_scopes_set d) (policies_set d)
     (authenticated_set d) (inaccessible_set d) (shareable_set d) (external_set d)
     (interface_object_set d) (tags_set d) (composed_directives_set d) (composed_directive_instances d)).
Definition set_requires (id : DirectiveSiteId) (fields : list Selection) (sg : Subgraphs) : Subgraphs :=
  let d := directives sg in
  with_directives sg (MkDirectives (site_id_counter d) (deprecated_map d) (override_map d)
     (provides_map d) (<[id := fields]> (requires_map d)) (authorized_map d) (requires_scopes_set d) (policies_set d)
     (authenticated_set d) (inaccessible_set d) (shareable_set d) (external_set d)
     (interface_object_set d) (tags_set d) (composed_directives_set d) (composed_directive_instances d)).
Definition insert_authorized (id : DirectiveSiteId) (a : AuthorizedDirective) (sg : Subgraphs) : Subgraphs :=
  let d := directives sg in
  with_directives sg (MkDirectives (site_id_counter d) (deprecated_map d) (override_map d)
     (provides_map d) (requires_map d) (<[id := a]> (authorized_map d)) (requires_scopes_set d) (policies_set d)
     (authenticated_set d) (inaccessible_set d) (shareable_set d) (external_set d)
     (interface_object_set d) (tags_set d) (composed_directives_set d) (composed_directive_instances d)).
Definition append_required_scopes (id : DirectiveSiteId) (scopes : list StringId) (sg : Subgraphs) : Subgraphs :=
  let d := directives sg in
  with_directives sg (MkDirectives (site_id_counter d) (deprecated_map d) (override_map d)
     (provides_map d) (requires_map d) (authorized_map d) ({[(id, scopes)]} ∪ requires_scopes_set d) (policies_set d)
     (authenticated_set d) (inaccessible_set d) (shareable_set d) (external_set d)
     (interface_object_set d) (tags_set d) (composed_directives_set d) (composed_directive_instances d)).
Definition insert_policy (id : DirectiveSiteId) (policies : list StringId) (sg : Subgraphs) : Subgraphs :=
  let d := directives sg in
  with_directives sg (MkDirectives (site_id_counter d) (deprecated_map d) (override_map d)
     (provides_map d) (requires_map d) (authorized_map d) (requires_scopes_set d) ({[(id, policies)]} ∪ policies_set d)
     (authenticated_set d) (inaccessible_set d) (shareable_set d) (external_set d)
     (interface_object_set d) (tags_set d) (composed_directives_set d) (composed_directive_instances d)).
Definition insert_authenticated (id : DirectiveSiteId) (sg : Subgraphs) : Subgraphs :=
  let d := directives sg in
  with_directives sg (MkDirectives (site_id_counter d) (deprecated_map d) (override_map d)
     (provides_map d) (requires_map d) (authorized_map d) (requires_scopes_set d) (policies_set d)
     ({[id]} ∪ authenticated_set d) (inaccessible_set d) (shareable_set d) (external_set d)
     (interface_object_set d) (tags_set d) (composed_directives_set d) (composed_directive_instances d)).
Definition set_inaccessible (id : DirectiveSiteId) (sg : Subgraphs) : Subgraphs :=
  let d := directives sg in
  with_directives sg (MkDirectives (site_id_counter d) (deprecated_map d) (override_map d)
     (provides_map d) (requires_map d) (authorized_map d) (requires_scopes_set d) (policies_set d)
     (authenticated_set d) ({[id]} ∪ inaccessible_set d) (shareable_set d) (external_set d)
     (interface_object_set d) (tags_set d) (composed_directives_set d) (composed_directive_instances d)).
Definition set_shareable (id : DirectiveSiteId) (sg : Subgraphs) : Subgraphs :=
  let d := directives sg in
  with_directives sg (MkDirectives (site_id_counter d) (deprecated_map d) (override_map d)
     (provides_map d) (requires_map d) (authorized_map d) (requires_scopes_set d) (policies_set d)
     (authenticated_set d) (inaccessible_set d) ({[id]} ∪ shareable_set d) (external_set d)
     (interface_object_set d) (tags_set d) (composed_directives_set d) (composed_directive_instances d)).
Definition set_external (id : DirectiveSiteId) (sg : Subgraphs) : Subgraphs :=
  let d := directives sg in
  with_directives sg (MkDirectives (site_id_counter d) (deprecated_map d) (override_map d)
     (provides_map d) (requires_map d) (authorized_map d) (requires_scopes_set d) (policies_set d)
     (authenticated_set d) (inaccessible_set d) (shareable_set d) ({[id]} ∪ external_set d)
     (interface_object_set d) (tags_set d) (composed_directives_set d) (composed_directive_instances d)).
Definition set_interface_object (id : DirectiveSiteId) (sg : Subgraphs) : Subgraphs :=
  let d := directives sg in
  with_directives sg (MkDirectives (site_id_counter d) (deprecated_map d) (override_map d)
     (provides_map d) (requires_map d) (authorized_map d) (requires_scopes_set d) (policies_set d)
     (authenticated_set d) (inaccessible_set d) (shareable_set d) (external_set d)
     ({[id]} ∪ interface_object_set d) (tags_set d) (composed_directives_set d) (composed_directive_instances d)).
Definition insert_tag (id : DirectiveSiteId) (tag : string) (sg : Subgraphs) : Subgraphs :=
  let '(tag, sg) := intern_string tag sg in
  let d := directives sg in
  with_directives sg (MkDirectives (site_id_counter d) (deprecated_map d) (override_map d)
     (provides_map d) (requires_map d) (authorized_map d) (requires_scopes_set d) (policies_set d)
     (authenticated_set d) (inaccessible_set d) (shareable_set d) (external_set d)
     (interface_object_set d) ({[(id, tag)]} ∪ tags_set d) (composed_directives_set d) (composed_directive_instances d)).
Definition insert_composed_directive (subgraph : SubgraphId) (directive_name : string) (sg : Subgraphs) : Subgraphs :=
  let '(name, sg) := intern_string directive_name sg in
  let d := directives sg in
  with_directives sg (MkDirectives (site_id_counter d) (deprecated_map d) (override_map d)
     (provides_map d) (requires_map d) (authorized_map d) (requires_scopes_set d) (policies_set d)
     (authenticated_set d) (inaccessible_set d) (shareable_set d) (external_set d)
     (interface_object_set d) (tags_set d) ({[(subgraph, name)]} ∪ composed_directives_set d) (composed_directive_instances d)).
Definition insert_composed_directive_instance (id : DirectiveSiteId) (directive_name : string)
    (arguments : Arguments_) (sg : Subgraphs) : Subgraphs :=
  let '(name, sg) := intern_string directive_name sg in
  let d := directives sg in
  with_directives sg (MkDirectives (site_id_counter d) (deprecated_map d) (override_map d)
     (provides_map d) (requires_map d) (authorized_map d) (requires_scopes_set d) (policies_set d)
     (authenticated_set d) (inaccessible_set d) (shareable_set d) (external_set d)
     (interface_object_set d) (tags_set d) (composed_directives_set d)
     (composed_directive_instances d ++ [(id, name, arguments)])).

(** *** Ingestion: definitions, fields, enums, unions, keys *)
Definition push_subgraph (name url : string) (sg : Subgraphs) : SubgraphId * Subgraphs :=
  let '(name, sg) := intern_string name sg in
  let '(url, sg) := intern_string url sg in
  (length (subgraphs sg), with_subgraphs sg (subgraphs sg ++ [MkSubgraph name url None None None])).

(** [push_definition]: the index of the new definition is its id. *)
Definition push_definition (subgraph : SubgraphId) (name : string) (kind : DefinitionKind)
    (description : option StringId) (site : DirectiveSiteId) (sg : Subgraphs)
    : DefinitionId * Subgraphs :=
  let '(name, sg) := intern_string name sg in
  let id := length (definitions sg) in
  (id, with_definitions sg (definitions sg ++ [MkDefinition subgraph name kind description site])
         (<[(name, subgraph) := id]> (definition_names sg))).

Definition push_enum_value (enum_id : DefinitionId) (enum_value : StringId)
    (site : DirectiveSiteId) (sg : Subgraphs) : Subgraphs :=
  with_enums sg (<[(enum_id, enum_value) := site]> (enums sg)).
Definition push_union_member (union member : DefinitionId) (sg : Subgraphs) : Subgraphs :=
  with_unions sg ({[(union, member)]} ∪ unions sg).

Definition insert_default {K} `{Countable K} (k : K) (default : option Value) (m : gmap K Value) : gmap K Value :=
  match default with Some v => <[k := v]> m | None => m end.
Definition push_field (parent : DefinitionId) (field_name : string) (tuple : FieldTuple)
    (default : option Value) (sg : Subgraphs) : FieldId * Subgraphs :=
  let '(name, sg) := intern_string field_name sg in
  ((parent, name),
   with_fields sg (<[(parent, name) := tuple]> (definition_fields sg)) (field_arguments sg)
     (insert_default (parent, name) default (input_field_default_values sg)) (field_argument_defaults sg)).
Definition insert_field_argument (field : FieldId) (argument_name : StringId) (tuple : FieldTuple)
    (default : option Value) (sg : Subgraphs) : Subgraphs :=
  with_fields sg (definition_fields sg) (<[(field, argument_name) := tuple]> (field_arguments sg))
    (input_field_default_values sg)
    (insert_default (field, argument_name) default (field_argument_defaults sg)).

(** *** Walkers *)

(** [DefinitionWalker::definition]: an index into the vector. *)
Definition definition (sg : Subgraphs) (id : DefinitionId) : res Definition_ :=
  expect "index out of bounds" (definitions sg !! id).
Definition string_at (sg : Subgraphs) (id : StringId) : res string := resolve (strings (store sg)) id.

(** [DirectiveSiteWalker]. *)
Definition authenticated (sg : Subgraphs) (id : DirectiveSiteId) : bool :=
  bool_decide (id ∈ authenticated_set (directives sg)).
Definition inaccessible (sg : Subgraphs) (id : DirectiveSiteId) : bool :=
  bool_decide (id ∈ inaccessible_set (directives sg)).
Definition deprecated (sg : Subgraphs) (id : DirectiveSiteId) : option (option StringId) :=
  deprecated_map (directives sg) !! id.
(** [range((id, vec![])..)] and [take_while]. *)
Definition lists_of_site (id : DirectiveSiteId) (s : gset (DirectiveSiteId * list StringId))
    : list (list StringId) :=
  (take_while (λ e, e.1 =? id)
     (filter (λ e, cmp_le (id, []) e) (btree_set_iter s))).*2.
Definition requires_scopes (sg : Subgraphs) (id : DirectiveSiteId) : list (list StringId) :=
  lists_of_site id (requires_scopes_set (directives sg)).
Definition policies (sg : Subgraphs) (id : DirectiveSiteId) : list (list StringId) :=
  lists_of_site id (policies_set (directives sg)).
Definition tags (sg : Subgraphs) (id : DirectiveSiteId) : list StringId :=
  (filter (λ e, in_range id e = true) (btree_set_iter (tags_set (directives sg)))).*2.
Definition iter_composed_directives (sg : Subgraphs) (id : DirectiveSiteId)
    : list (StringId * Arguments_) :=
  let instances := composed_directive_instances (directives sg) in
  let point := partition_point (λ e, ltb e.1.1 id) instances in
  (λ e : DirectiveSiteId * StringId * Arguments_, (e.1.2, e.2))
    <$> take_while (λ e, eqb e.1.1 id) (drop point instances).

(** [DefinitionWalker::enum_values] and [enum_value_by_name]. *)
Definition enum_values (sg : Subgraphs) (id : DefinitionId) : list (StringId * DirectiveSiteId) :=
  (λ e : DefinitionId * StringId * DirectiveSiteId, (e.1.2, e.2))
    <$> filter (λ e, in_range id e.1 = true) (btree_map_iter (enums sg)).
Definition enum_value_by_name (sg : Subgraphs) (id : DefinitionId) (name : StringId)
    : option (StringId * DirectiveSiteId) :=
  site ← enums sg !! (id, name); Some (name, site).

(** [iter_all_fields] and [iter_all_field_arguments]. *)
Definition iter_all_fields (sg : Subgraphs) : list (FieldId * FieldTuple) :=
  btree_map_iter (definition_fields sg).
Definition iter_all_field_arguments (sg : Subgraphs) : list (ArgumentId * FieldTuple) :=
  btree_map_iter (field_arguments sg).
(** [r#type().type_name().id]. *)
Definition type_name_id (sg : Subgraphs) (t : FieldTuple) : res StringId :=
  i ← inner (store sg) (tuple_type t); Ret (inner_name i).
End subgraphs.
