(* ===== verification/ComposeContext.v ===== *)
(** * [composition]: [compose/context.rs], [composition_ir.rs] and [compose/directives.rs]

    The composition context, as a state the composition functions thread
    ([M]), with its operations, and the composition of directives. *)
From S2P Require Import Prelude RustStd IndexSet FieldTypes Subgraphs.
Local Open Scope string_scope.
Local Open Scope list_scope.
Local Open Scope nat_scope.

(** [federated::Directives]: the id of the first directive and their number. *)
Abbreviation DirectiveRange := (nat * nat)%type.
Abbreviation TypeDefinitionId := nat.

(** [ir::Directive], over the interned strings of the federated graph. *)
Inductive Directive :=
| Authenticated
| Deprecated (reason : option nat)
| Inaccessible
| Policy (policies : list (list nat))
| RequiresScopes (scopes : list (list nat))
| Other (name : nat) (arguments : list (nat * Value)).

Inductive TypeDefinitionKind := TObject | TInterface | TEnum | TUnion | TScalar | TInputObject.
Record TypeDefinitionRecord := MkTypeDefinition {
  td_name : nat;
  td_description : option nat;
  td_directives : DirectiveRange;
  td_kind : TypeDefinitionKind;
}.
Record EnumValueRecord := MkEnumValue {
  ev_enum_id : TypeDefinitionId;
  ev_value : nat;
  ev_composed_directives : DirectiveRange;
  ev_description : option nat;
}.
Inductive FederatedDefinition :=
| FScalar (id : nat) | FObject (id : nat) | FInterface (id : nat)
| FUnion (id : nat) | FEnum (id : nat) | FInputObject (id : nat).

(** *** The other records of [composition_ir.rs] and the tables that hold them

    [federated::Object] and [federated::Interface] have more fields, which are
    empty until the federated graph is emitted. *)
Record ObjectRecord := MkObject { object_type_definition_id : TypeDefinitionId }.
Record InterfaceRecord := MkInterface { interface_type_definition_id : TypeDefinitionId }.
Record UnionRecord := MkUnion {
  union_name : nat;
  union_composed_directives : DirectiveRange;
  union_description : option nat;
}.
(** [federated::InputValueDefinitions]: the first id and the number. *)
Abbreviation InputValueDefinitions := (nat * nat)%type.
Definition NO_INPUT_VALUE_DEFINITION : InputValueDefinitions := (0, 0).
Record InputObjectRecord := MkInputObject {
  io_name : nat;
  io_fields : InputValueDefinitions;
  io_composed_directives : DirectiveRange;
  io_description : option nat;
}.
Record InputValueDefinitionIr := MkInputValueDefinition {
  ivd_name : nat;
  ivd_type : FieldTypeId;
  ivd_directives : DirectiveRange;
  ivd_description : option nat;
  ivd_default : option Value;
}.
(** [federated::OverrideLabel]: [percent(n)], or unknown. *)
Inductive OverrideLabel := Percent (n : Z) | Unknown.
Inductive OverrideSource := FromSubgraph (id : SubgraphId) | Missing (name : nat).
Record Override := MkOverrideIr {
  override_graph : SubgraphId;
  override_ir_label : OverrideLabel;
  override_ir_from : OverrideSource;
}.
Record FieldIr := MkFieldIr {
  fi_parent_definition : FederatedDefinition;
  fi_field_name : StringId;
  fi_field_type : FieldTypeId;
  fi_arguments : InputValueDefinitions;
  fi_resolvable_in : list SubgraphId;
  fi_provides : list FieldId;
  fi_requires : list FieldId;
  fi_authorized_directives : list FieldId;
  fi_overrides : list Override;
  fi_composed_directives : DirectiveRange;
  fi_description : option nat;
}.
Record KeyIr := MkKeyIr {
  key_parent : FederatedDefinition;
  key_id : nat;
  key_is_interface_object : bool;
  key_resolvable : bool;
}.
Record Tables := MkTables {
  objects : list ObjectRecord;
  interfaces : list InterfaceRecord;
  ir_unions : list UnionRecord;
  input_objects : list InputObjectRecord;
  input_value_definitions : list InputValueDefinitionIr;
  root_query : option nat;
  root_mutation : option nat;
  root_subscription : option nat;
  ir_fields : list FieldIr;
  union_members : gset (nat * nat);
  union_join_members : gmap (nat * nat) (list SubgraphId);
  ir_keys : list KeyIr;
  object_fields_from_entity_interfaces : gset (nat * nat);
  object_authorized_directives : list (nat * DirectiveSiteId);
  interface_authorized_directives : list (nat * DirectiveSiteId);
}.
Definition Tables_default : Tables := MkTables [] [] [] [] [] None None None [] ∅ ∅ [] ∅ [] [].

(** The derived [PartialEq] of [Directive]. *)
Fixpoint args_eqb {A} (eqA : A → A → bool) (l1 l2 : list (A * Value)) : bool :=
  match l1, l2 with
  | [], [] => true
  | (n1, v1) :: l1, (n2, v2) :: l2 => eqA n1 n2 && value_eqb v1 v2 && args_eqb eqA l1 l2
  | _, _ => false
  end.
Definition directive_eqb (a b : Directive) : bool :=
  match a, b with
  | Authenticated, Authenticated | Inaccessible, Inaccessible => true
  | Deprecated r, Deprecated s => bool_decide (r = s)
  | Policy l, Policy l' | RequiresScopes l, RequiresScopes l' => bool_decide (l = l')
  | Other n args, Other n' args' => (n =? n') && args_eqb Nat.eqb args args'
  | _, _ => false
  end.

Section context.
Context `{IndexSet}.

(** [Context] without the subgraphs, which are only read: [CompositionIr], with
    the tables that enum and directive composition does not write set apart,
    and the messages of the diagnostics, which are all fatal. *)
Record Ctx := MkCtx {
  ir_strings : iset string;
  ir_directives : list Directive;
  ir_type_definitions : list TypeDefinitionRecord;
  ir_definitions_by_name : gmap nat FederatedDefinition;
  ir_enum_values : list EnumValueRecord;
  ir_tables : Tables;
  diagnostics : list string;
}.
Definition Ctx_empty : Ctx := MkCtx iset_empty [] [] ∅ [] Tables_default [].

(** ** The monad of functions on the context *)
Definition M (A : Type) : Type := Ctx → res (A * Ctx).
Global Instance M_ret : MRet M := λ A a c, Ret (a, c).
Global Instance M_bind : MBind M := λ A B f m c, '(a, c) ← m c; f a c.
Definition lift {A} (r : res A) : M A := λ c, a ← r; Ret (a, c).

(** A loop that threads an accumulator. *)
Fixpoint foldM {A B} (f : B → A → M B) (b : B) (l : list A) : M B :=
  match l with
  | [] => mret b
  | x :: l => b ← f b x; foldM f b l
  end.

(** ** [Context] *)

(** [StringsIr::insert]. *)
Definition insert_static_str (s : string) : M nat := λ c,
  let '(id, strs) := intern s (ir_strings c) in
  Ret (id, MkCtx strs (ir_directives c) (ir_type_definitions c) (ir_definitions_by_name c)
             (ir_enum_values c) (ir_tables c) (diagnostics c)).
Definition insert_string (sg : Subgraphs) (id : StringId) : M nat :=
  s ← lift (string_at sg id); insert_static_str s.
Definition insert_directive (d : Directive) : M nat := λ c,
  Ret (length (ir_directives c),
       MkCtx (ir_strings c) (ir_directives c ++ [d]) (ir_type_definitions c)
         (ir_definitions_by_name c) (ir_enum_values c) (ir_tables c) (diagnostics c)).
Definition insert_optional_str (o : option string) : M (option nat) :=
  match o with
  | Some s => id ← insert_static_str s; mret (Some id)
  | None => mret None
  end.
(** [type_definitions.push_return_idx] and the entry in [definitions_by_name]. *)
Definition push_enum_definition (name : nat) (description : option nat)
    (directives : DirectiveRange) : M TypeDefinitionId := λ c,
  let id := length (ir_type_definitions c) in
  Ret (id, MkCtx (ir_strings c) (ir_directives c)
             (ir_type_definitions c ++ [MkTypeDefinition name description directives TEnum])
             (<[name := FEnum id]> (ir_definitions_by_name c))
             (ir_enum_values c) (ir_tables c) (diagnostics c)).
Definition insert_enum (enum_name : string) (description : option string)
    (directives : DirectiveRange) : M TypeDefinitionId :=
  name ← insert_static_str enum_name;
  description ← insert_optional_str description;
  push_enum_definition name description directives.
Definition push_enum_value_record (r : EnumValueRecord) : M nat := λ c,
  Ret (length (ir_enum_values c),
       MkCtx (ir_strings c) (ir_directives c) (ir_type_definitions c)
         (ir_definitions_by_name c) (ir_enum_values c ++ [r]) (ir_tables c) (diagnostics c)).
Definition insert_enum_value (value : string) (description : option string)
    (composed_directives : DirectiveRange) (enum_id : TypeDefinitionId) : M nat :=
  value ← insert_static_str value;
  description ← insert_optional_str description;
  push_enum_value_record (MkEnumValue enum_id value composed_directives description).
(** [Diagnostics::push_fatal]. *)
Definition push_fatal (message : string) : M unit := λ c,
  Ret ((), MkCtx (ir_strings c) (ir_directives c) (ir_type_definitions c)
             (ir_definitions_by_name c) (ir_enum_values c) (ir_tables c) (diagnostics c ++ [message])).

(** ** [collect_composed_directives] *)

(** The closure [push_directive] and the variable [ids] it captures. *)
Definition push_directive (ids : option DirectiveRange) (d : Directive) : M (option DirectiveRange) :=
  id ← insert_directive d;
  mret (match ids with Some (start, len) => Some (start, S len) | None => Some (id, 1) end).

(** One directive of [iter_composed_directives], its strings inserted. *)
Definition insert_other (sg : Subgraphs) (e : StringId * Arguments_) : M Directive :=
  name ← insert_string sg e.1;
  arguments ← mapM (λ a : StringId * Value, n ← insert_string sg a.1; mret (n, a.2)) e.2;
  mret (Other name arguments).

(** The blocks for [@requiresScopes] and [@policy]. *)
Definition push_lists (sg : Subgraphs) (mk : list (list nat) → Directive)
    (args : list (list StringId)) (ids : option DirectiveRange) : M (option DirectiveRange) :=
  lists ← mapM (mapM (insert_string sg)) args;
  let lists := dedup (sort lists) in
  if decide (lists = []) then mret ids else push_directive ids (mk lists).

Definition push_tag (ids : option DirectiveRange) (tag : StringId) : M (option DirectiveRange) :=
  name ← insert_static_str "tag";
  arg ← insert_static_str "name";
  push_directive ids (Other name [(arg, VString tag)]).

Definition push_deprecated (sg : Subgraphs) (sites : list DirectiveSiteId)
    (ids : option DirectiveRange) : M (option DirectiveRange) :=
  match head (omap (deprecated sg) sites) with
  | Some reason =>
      reason ← match reason with
               | Some r => s ← insert_string sg r; mret (Some s)
               | None => mret None
               end;
      push_directive ids (Deprecated reason)
  | None => mret ids
  end.
Definition push_if (b : bool) (d : Directive) (ids : option DirectiveRange) : M (option DirectiveRange) :=
  if b then push_directive ids d else mret ids.

(** The body, with the value of [ids] it starts with. *)
Definition collect_ids (sg : Subgraphs) (sites : list DirectiveSiteId)
    (ids : option DirectiveRange) : M (option DirectiveRange) :=
  ids ← push_deprecated sg sites ids;
  extra_directives ← mapM (λ site, mapM (insert_other sg) (iter_composed_directives sg site)) sites;
  let tags : gset StringId := list_to_set (concat (tags sg <$> sites)) in
  ids ← push_if (existsb (inaccessible sg) sites) Inaccessible ids;
  ids ← push_if (existsb (authenticated sg) sites) Authenticated ids;
  ids ← push_lists sg RequiresScopes (concat (requires_scopes sg <$> sites)) ids;
  ids ← push_lists sg Policy (concat (policies sg <$> sites)) ids;
  ids ← foldM push_tag ids (btree_set_iter tags);
  foldM push_directive ids (dedup_by directive_eqb (concat extra_directives)).
Definition collect_composed_directives (sg : Subgraphs) (sites : list DirectiveSiteId) : M DirectiveRange :=
  ids ← collect_ids sg sites None;
  mret (default (0, 0) ids).
End context.
