(* ===== verification/ComposeDirectives.v ===== *)
(** * What [collect_composed_directives] composes

    The directives it appends, read through the interned strings, are the
    directives of the sites; the range it returns is where they are. *)
From S2P Require Import Prelude RustStd IndexSet FieldTypes Subgraphs ComposeContext.
Local Open Scope string_scope.
Local Open Scope list_scope.
Local Open Scope nat_scope.

(** Directives over strings instead of interned ids. *)
Inductive SDirective :=
| SAuthenticated
| SDeprecated (reason : option string)
| SInaccessible
| SPolicy (policies : list (list string))
| SRequiresScopes (scopes : list (list string))
| SOther (name : string) (arguments : list (string * Value)).

Definition sdirective_eqb (a b : SDirective) : bool :=
  match a, b with
  | SAuthenticated, SAuthenticated | SInaccessible, SInaccessible => true
  | SDeprecated r, SDeprecated s => bool_decide (r = s)
  | SPolicy l, SPolicy l' | SRequiresScopes l, SRequiresScopes l' => bool_decide (l = l')
  | SOther n args, SOther n' args' =>
      bool_decide (n = n') && args_eqb (λ a b, bool_decide (a = b)) args args'
  | _, _ => false
  end.

Section proofs.
Context `{IndexSetLaws}.
Implicit Types (strs : iset string) (c : Ctx).

(** The id [i] is interned as [s]. *)
Definition named strs (i : nat) (s : string) : Prop := get_index strs i = Some s.

Definition denotes strs (d : Directive) (s : SDirective) : Prop :=
  match d, s with
  | Authenticated, SAuthenticated | Inaccessible, SInaccessible => True
  | Deprecated r, SDeprecated t => option_Forall2 (named strs) r t
  | Policy l, SPolicy k | RequiresScopes l, SRequiresScopes k => Forall2 (Forall2 (named strs)) l k
  | Other n args, SOther m args' =>
      named strs n m ∧ Forall2 (λ a b, named strs a.1 b.1 ∧ a.2 = b.2) args args'
  | _, _ => False
  end.

Lemma named_mono strs strs' i s : extends strs strs' → named strs i s → named strs' i s.
Proof. intros He. apply He. Qed.
Lemma named_inj strs i j s t : named strs i s → named strs j t → i = j ↔ s = t.
Proof.
  unfold named. intros Hi Hj. split; [congruence|]. intros ->. exact (get_index_inj strs i j t Hi Hj).
Qed.
Lemma named_list_mono strs strs' l k :
  extends strs strs' → Forall2 (named strs) l k → Forall2 (named strs') l k.
Proof. intros He HF. eapply Forall2_impl; [exact HF|]. intros i s. by apply named_mono. Qed.
Lemma denotes_mono strs strs' d s : extends strs strs' → denotes strs d s → denotes strs' d s.
Proof.
  intros He. destruct d, s; simpl; try done.
  - intros HF. inversion HF; constructor; by eapply named_mono.
  - intros HF. eapply Forall2_impl; [exact HF|]. intros ??. by apply named_list_mono.
  - intros HF. eapply Forall2_impl; [exact HF|]. intros ??. by apply named_list_mono.
  - intros [Hn HF]. split; [by eapply named_mono|]. eapply Forall2_impl; [exact HF|].
    intros ?? [??]. split; [by eapply named_mono|done].
Qed.

Lemma args_eqb_named strs l l' k k' :
  Forall2 (λ a b, named strs a.1 b.1 ∧ a.2 = b.2) l l' →
  Forall2 (λ a b, named strs a.1 b.1 ∧ a.2 = b.2) k k' →
  args_eqb Nat.eqb l k = args_eqb (λ a b, bool_decide (a = b)) l' k'.
Proof.
  intros HF. revert k k'. induction HF as [|[n v] [s v'] l l' [Hn Hv] HF IH]; intros k k' HK;
    destruct HK as [|[m w] [t w'] k k' [Hm Hw] HK]; try done.
  simpl in *. subst. rewrite (IH k k' HK). f_equal. f_equal.
  apply eq_bool_prop_intro. rewrite Is_true_true, Nat.eqb_eq, bool_decide_spec.
  by eapply named_inj.
Qed.

(** Interning respects equality, so duplicates are found on the ids. *)
Lemma other_eqb strs d d' e e' :
  denotes strs d d' → denotes strs e e' →
  (∃ n a, d = Other n a) → (∃ n a, e = Other n a) → directive_eqb d e = sdirective_eqb d' e'.
Proof.
  intros Hd He (n & a & ->) (m & b & ->). destruct d', e'; simpl in *; try done.
  destruct Hd as [Hn Ha], He as [Hm Hb].
  rewrite (args_eqb_named strs a arguments b arguments0) by done. f_equal.
  apply eq_bool_prop_intro. rewrite Is_true_true, Nat.eqb_eq, bool_decide_spec.
  by eapply named_inj.
Qed.

(** ** Computations that only intern strings *)

(** What the composition of enums and directives leaves alone: the tables and,
    unless it fails, the diagnostics. *)
Definition unwritten c : Tables * list string := (ir_tables c, diagnostics c).
(** Everything but the strings, which are extended, and the directives. *)
Definition frame c c' : Prop :=
  extends (ir_strings c) (ir_strings c') ∧
  ir_type_definitions c' = ir_type_definitions c ∧
  ir_definitions_by_name c' = ir_definitions_by_name c ∧
  ir_enum_values c' = ir_enum_values c ∧ unwritten c' = unwritten c.
Lemma frame_refl c : frame c c.
Proof. unfold frame. split_and!; try done. Qed.
Lemma frame_trans c1 c2 c3 : frame c1 c2 → frame c2 c3 → frame c1 c3.
Proof.
  intros (E1 & ? & ? & ? & ?) (E2 & ? & ? & ? & ?).
  split_and!; [by transitivity (ir_strings c2)|congruence..].
Qed.

(** [m] returns, interns strings and nothing else, and its result satisfies
    [P] of the strings. *)
Definition interns {A} (m : M A) (P : iset string → A → Prop) : Prop :=
  ∀ c, ∃ a c', m c = Ret (a, c') ∧ frame c c' ∧ ir_directives c' = ir_directives c ∧
    P (ir_strings c') a.
Definition mono {A} (P : iset string → A → Prop) : Prop :=
  ∀ s s' a, extends s s' → P s a → P s' a.

Lemma interns_ret {A} (a : A) (P : iset string → A → Prop) : (∀ s, P s a) → interns (mret a) P.
Proof. intros HP c. exists a, c. split_and!; [done|apply frame_refl|done|apply HP]. Qed.
Lemma interns_bind {A B} (m : M A) (f : A → M B) P Q :
  interns m P → mono P →
  (∀ a, interns (f a) (λ s b, P s a → Q s b)) → interns (m ≫= f) Q.
Proof.
  intros Hm HP Hf c. destruct (Hm c) as (a & c1 & E1 & F1 & D1 & Pa).
  destruct (Hf a c1) as (b & c2 & E2 & F2 & D2 & Qb).
  exists b, c2. split_and!.
  - unfold mbind, M_bind. by rewrite E1.
  - by eapply frame_trans.
  - congruence.
  - apply Qb. eapply HP; [apply F2|done].
Qed.
Lemma interns_wand {A} (m : M A) (P Q : iset string → A → Prop) :
  interns m P → (∀ s a, P s a → Q s a) → interns m Q.
Proof.
  intros Hm HPQ c. destruct (Hm c) as (a & c1 & E1 & F1 & D1 & Pa). exists a, c1. eauto 10.
Qed.

Lemma intern_named s strs : named (intern s strs).2 (intern s strs).1 s ∧ extends strs (intern s strs).2.
Proof.
  unfold intern, named. destruct (get_index_of strs s) as [i|] eqn:E.
  - apply get_index_of_spec in E. split; [done|]. by intros j x.
  - destruct (insert_full_spec strs s) as (H1 & H2 & _). done.
Qed.
Lemma insert_static_str_interns s : interns (insert_static_str s) (λ strs i, named strs i s).
Proof.
  intros c. unfold insert_static_str. destruct (intern_named s (ir_strings c)) as [Hn He].
  destruct (intern s (ir_strings c)) as [id strs]. simpl in *.
  eexists _, _. split; [done|]. split; [by split_and!|done].
Qed.
Lemma named_is_mono s : mono (λ strs i, named strs i s).
Proof. intros ??? He. by apply named_mono. Qed.

Context (sg : Subgraphs).

(** The string of an id of the subgraphs. *)
Definition str (id : StringId) : string := default "" (get_index (strings (store sg)) id).
Definition resolves (id : StringId) : Prop := is_Some (get_index (strings (store sg)) id).

Lemma string_at_str id : resolves id → string_at sg id = Ret (str id).
Proof. intros [s Hs]. unfold string_at, resolve, str. by rewrite Hs. Qed.
Lemma insert_string_interns id : resolves id → interns (insert_string sg id) (λ strs i, named strs i (str id)).
Proof.
  intros Hr c. unfold insert_string, lift, mbind, M_bind. rewrite string_at_str by done. simpl.
  apply insert_static_str_interns.
Qed.

Lemma mapM_interns {A B} (f : A → M B) (R : iset string → A → B → Prop) l :
  (∀ x, x ∈ l → interns (f x) (λ s, R s x)) → (∀ x, mono (λ s, R s x)) →
  interns (mapM f l) (λ s ys, Forall2 (R s) l ys).
Proof.
  intros Hf HR. induction l as [|x l IH]; simpl.
  { apply interns_ret. constructor. }
  apply (interns_bind _ _ (λ s, R s x)); [apply Hf; set_solver|apply HR|]. intros y.
  apply (interns_bind _ _ (λ s ys, Forall2 (R s) l ys)).
  - apply IH. intros z Hz. apply Hf. set_solver.
  - intros s s' ys He HF. eapply Forall2_impl; [exact HF|]. intros ??. by apply HR.
  - intros ys. apply interns_ret. intros s HF Hy. by constructor.
Qed.

(** ** Computations that append directives *)

(** [ids] is the range of the directives appended since there were [n0]. *)
Definition ids_ok (n0 : nat) (ids : option DirectiveRange) c : Prop :=
  n0 ≤ length (ir_directives c) ∧
  ids = if decide (length (ir_directives c) = n0) then None
        else Some (n0, length (ir_directives c) - n0).

(** [m] appends directives that satisfy [Q] and keeps [ids] up to date. *)
Definition appends (m : option DirectiveRange → M (option DirectiveRange))
    (Q : iset string → list Directive → Prop) : Prop :=
  ∀ n0 ids c, ids_ok n0 ids c → ∃ ids' c' ds, m ids c = Ret (ids', c') ∧ frame c c' ∧
    ir_directives c' = ir_directives c ++ ds ∧ ids_ok n0 ids' c' ∧ Q (ir_strings c') ds.

Lemma appends_ret (Q : iset string → list Directive → Prop) : (∀ s, Q s []) → appends (λ ids, mret ids) Q.
Proof.
  intros HQ n0 ids c Hids. exists ids, c, [].
  rewrite app_nil_r. split_and!; [done|apply frame_refl|done|done|apply HQ].
Qed.
Lemma appends_push d Q : (∀ s, Q s [d]) → appends (λ ids, push_directive ids d) Q.
Proof.
  intros HQ n0 ids c [Hle ->].
  eexists _, _, [d]. split; [reflexivity|].
  split; [by split_and!|]. split; [done|]. split; [|apply HQ]. unfold ids_ok. simpl.
  rewrite length_app. simpl. split; [lia|].
  destruct (decide (length (ir_directives c) = n0)) as [<-|];
    rewrite decide_False by lia; do 2 f_equal; lia.
Qed.

(** Interning before appending. *)
Lemma appends_intern {A} (m : M A) P f Q :
  interns m P → mono P →
  (∀ a, appends (λ ids, f ids a) (λ s ds, P s a → Q s ds)) →
  appends (λ ids, a ← m; f ids a) Q.
Proof.
  intros Hm HP Hf n0 ids c Hids. destruct (Hm c) as (a & c1 & E1 & F1 & D1 & Pa).
  destruct (Hf a n0 ids c1) as (ids' & c2 & ds & E2 & F2 & D2 & Hids' & HQ).
  { unfold ids_ok in *. by rewrite D1. }
  exists ids', c2, ds. split_and!.
  - unfold mbind, M_bind. by rewrite E1.
  - by eapply frame_trans.
  - congruence.
  - done.
  - apply HQ. eapply HP; [apply F2|done].
Qed.
Lemma appends_seq m1 m2 Q1 Q2 Q :
  appends m1 Q1 → mono Q1 → appends m2 Q2 →
  (∀ s ds1 ds2, Q1 s ds1 → Q2 s ds2 → Q s (ds1 ++ ds2)) →
  appends (λ ids, ids ← m1 ids; m2 ids) Q.
Proof.
  intros H1 HM H2 HQ n0 ids c Hids.
  destruct (H1 n0 ids c Hids) as (ids1 & c1 & ds1 & E1 & F1 & D1 & Hids1 & HQ1).
  destruct (H2 n0 ids1 c1 Hids1) as (ids2 & c2 & ds2 & E2 & F2 & D2 & Hids2 & HQ2).
  exists ids2, c2, (ds1 ++ ds2). split_and!.
  - unfold mbind, M_bind. by rewrite E1.
  - by eapply frame_trans.
  - by rewrite D2, D1, (assoc_L (++)).
  - done.
  - apply HQ; [eapply HM; [apply F2|done]|done].
Qed.
Lemma appends_wand m (Q Q' : iset string → list Directive → Prop) :
  appends m Q → (∀ s ds, Q s ds → Q' s ds) → appends m Q'.
Proof.
  intros Hm HQ n0 ids c Hids. destruct (Hm n0 ids c Hids) as (ids' & c' & ds & ? & ? & ? & ? & ?).
  exists ids', c', ds. eauto 10.
Qed.

(** A loop appends what its steps append. *)
Lemma appends_foldM {A} (f : option DirectiveRange → A → M (option DirectiveRange))
    (g : A → SDirective) l :
  (∀ x, x ∈ l → appends (λ ids, f ids x) (λ s ds, Forall2 (denotes s) ds [g x])) →
  appends (λ ids, foldM f ids l) (λ s ds, Forall2 (denotes s) ds (g <$> l)).
Proof.
  intros Hf. induction l as [|x l IH]; simpl.
  { apply appends_ret. constructor. }
  eapply appends_seq; [apply Hf; set_solver| |apply IH; set_solver|].
  - intros s s' ds He HF. eapply Forall2_impl; [exact HF|]. intros ??. by apply denotes_mono.
  - intros s ds1 ds2 H1 H2. exact (Forall2_app H1 H2).
Qed.
Lemma appends_foldM_push ds (Q : iset string → list Directive → Prop) :
  (∀ s, Q s ds) → appends (λ ids, foldM push_directive ids ds) Q.
Proof.
  intros HQ. eapply (appends_wand _ (λ _ ds', ds' = ds)); [|naive_solver]. clear HQ.
  induction ds as [|d ds IH]; simpl; [by apply appends_ret|].
  eapply appends_seq; [apply (appends_push d (λ _ ds', ds' = [d])); done|by intros ???|exact IH|].
  by intros s ds1 ds2 -> ->.
Qed.

(** ** The directives of the sites *)

(** Every string the tables mention for the site is interned. *)
Definition site_ok (site : DirectiveSiteId) : Prop :=
  (∀ r, deprecated sg site = Some (Some r) → resolves r) ∧
  (∀ l, l ∈ requires_scopes sg site → Forall resolves l) ∧
  (∀ l, l ∈ policies sg site → Forall resolves l) ∧
  (∀ e, e ∈ iter_composed_directives sg site →
     resolves e.1 ∧ Forall (λ a, resolves a.1) e.2).

(** The lists of a [@requiresScopes] or [@policy]: the distinct argument lists
    of the sites. *)
Definition distinct_lists (args : list (list StringId)) (ls : list (list string)) : Prop :=
  NoDup ls ∧ ∀ l, l ∈ ls ↔ ∃ arg, arg ∈ args ∧ l = str <$> arg.

Definition other_of (e : StringId * Arguments_) : SDirective :=
  SOther (str e.1) ((λ a : StringId * Value, (str a.1, a.2)) <$> e.2).
Definition tag_of (tag : StringId) : SDirective := SOther "tag" [("name", VString tag)].

(** The composition of the directives of [sites]: one [@deprecated], the first
    found; [@inaccessible] and [@authenticated] if any site has it; the distinct
    scopes and policies; each tag once, in the order of the ids; the other
    composed directives in site order without consecutive duplicates. *)
Definition composed (sites : list DirectiveSiteId) strs (ds : list Directive) : Prop :=
  ∃ scopes pols,
    distinct_lists (concat (requires_scopes sg <$> sites)) scopes ∧
    distinct_lists (concat (policies sg <$> sites)) pols ∧
    Forall2 (denotes strs) ds
      (match head (omap (deprecated sg) sites) with
       | Some reason => [SDeprecated (str <$> reason)] | None => [] end
       ++ (if existsb (inaccessible sg) sites then [SInaccessible] else [])
       ++ (if existsb (authenticated sg) sites then [SAuthenticated] else [])
       ++ (if decide (scopes = []) then [] else [SRequiresScopes scopes])
       ++ (if decide (pols = []) then [] else [SPolicy pols])
       ++ (tag_of <$> btree_set_iter (list_to_set (concat (tags sg <$> sites)) : gset StringId))
       ++ dedup_by sdirective_eqb (other_of <$> concat (iter_composed_directives sg <$> sites))).

Lemma denotes_list_mono ss : mono (λ strs ds, Forall2 (denotes strs) ds ss).
Proof. intros s s' ds He HF. eapply Forall2_impl; [exact HF|]. intros ??. by apply denotes_mono. Qed.
Hint Resolve denotes_list_mono : grafbase.

Lemma insert_lists_interns args :
  (∀ l, l ∈ args → Forall resolves l) →
  interns (mapM (mapM (insert_string sg)) args)
    (λ strs ls, Forall2 (λ arg l, Forall2 (λ id i, named strs i (str id)) arg l) args ls).
Proof.
  intros Hargs. apply (mapM_interns _ (λ strs arg l, Forall2 (λ id i, named strs i (str id)) arg l)).
  - intros l Hl. apply (mapM_interns _ (λ strs id i, named strs i (str id))).
    + intros id Hid. apply insert_string_interns. specialize (Hargs l Hl).
      rewrite Forall_forall in Hargs. by apply Hargs.
    + intros id. apply named_is_mono.
  - intros l s s' k He HF. eapply Forall2_impl; [exact HF|]. intros ??. by apply named_mono.
Qed.

(** Reading interned lists back. *)
Definition names strs (l : list nat) : list string := (λ i, default "" (get_index strs i)) <$> l.

Lemma named_names strs l ss : Forall2 (named strs) l ss → names strs l = ss.
Proof.
  induction 1 as [|i s l ss Hi _ IH]; [done|]. unfold names in *. rewrite fmap_cons, IH.
  unfold named in Hi. by rewrite Hi.
Qed.
Lemma named_list_inj strs l k ss : Forall2 (named strs) l ss → Forall2 (named strs) k ss → l = k.
Proof.
  intros HF. revert k. induction HF as [|i s l ss Hi _ IH]; intros k HK; inversion HK as [|j ? k' ? Hj]; [done|].
  subst. f_equal; [by apply (named_inj strs i j s s)|by apply IH].
Qed.
Lemma named_str_list strs arg l :
  Forall2 (λ id i, named strs i (str id)) arg l → Forall2 (named strs) l (str <$> arg).
Proof. induction 1; constructor; auto. Qed.

(** Deduplicating the interned lists deduplicates the lists of strings. *)
Lemma distinct_lists_dedup strs args ls :
  Forall2 (λ arg l, Forall2 (λ id i, named strs i (str id)) arg l) args ls →
  ∃ ss, distinct_lists args ss ∧ Forall2 (Forall2 (named strs)) (dedup (sort ls)) ss.
Proof.
  intros HF.
  assert (∀ l, l ∈ ls → ∃ arg, arg ∈ args ∧ Forall2 (named strs) l (str <$> arg)) as Hin.
  { intros l (k & Hk)%list_elem_of_lookup. destruct (Forall2_lookup_r _ _ _ _ _ HF Hk) as (arg & Harg & ?).
    exists arg. split; [by eapply list_elem_of_lookup_2|by apply named_str_list]. }
  assert (∀ l, l ∈ dedup (sort ls) → Forall2 (named strs) l (names strs l)) as Hds.
  { intros l. rewrite elem_of_dedup, elem_of_sort. intros (arg & _ & HF')%Hin. by rewrite (named_names _ _ _ HF'). }
  exists (names strs <$> dedup (sort ls)). split; [split|].
  - apply NoDup_fmap_2_strong; [|apply dedup_NoDup, sort_sorted].
    intros l k Hl%Hds Hk%Hds E. rewrite <-E in Hk. by eapply named_list_inj.
  - intros l. rewrite list_elem_of_fmap. setoid_rewrite elem_of_dedup. setoid_rewrite elem_of_sort. split.
    + intros (k & -> & (arg & ? & HF')%Hin). exists arg. split; [done|]. by apply named_names.
    + intros (arg & (k & Hk)%list_elem_of_lookup & ->).
      destruct (Forall2_lookup_l _ _ _ _ _ HF Hk) as (l & Hl & HF'). exists l.
      split; [symmetry; by apply named_names, named_str_list|by eapply list_elem_of_lookup_2].
  - apply Forall2_fmap_r, Forall_Forall2_diag, Forall_forall. exact Hds.
Qed.

Lemma push_lists_appends (mk : list (list nat) → Directive) (smk : list (list string) → SDirective) args :
  (∀ strs ls ss, Forall2 (Forall2 (named strs)) ls ss → denotes strs (mk ls) (smk ss)) →
  (∀ l, l ∈ args → Forall resolves l) →
  appends (push_lists sg mk args) (λ strs ds, ∃ ss, distinct_lists args ss ∧
    Forall2 (denotes strs) ds (if decide (ss = []) then [] else [smk ss])).
Proof.
  intros Hmk Hargs. unfold push_lists.
  eapply (appends_intern _ _ (λ ids (ls : list (list nat)), if decide (dedup (sort ls) = []) then mret ids
    else push_directive ids (mk (dedup (sort ls))))); [by apply insert_lists_interns| |].
  { intros s s' ls He HF. eapply Forall2_impl; [exact HF|]. intros ?? HF'.
    eapply Forall2_impl; [exact HF'|]. intros ??. by apply named_mono. }
  intros ls. case_decide as Hnil.
  - apply appends_ret. intros strs (ss & Hss & HF)%distinct_lists_dedup. exists ss. split; [done|].
    rewrite Hnil in HF. inversion HF. subst. rewrite decide_True by done. constructor.
  - apply appends_push. intros strs (ss & Hss & HF)%distinct_lists_dedup. exists ss. split; [done|].
    rewrite decide_False by (intros ->; by apply Forall2_nil_inv_r in HF). repeat constructor. by apply Hmk.
Qed.

Section sites.
Context (sites : list DirectiveSiteId) (Hsites : Forall site_ok sites).

Lemma site_ok_at site : site ∈ sites → site_ok site.
Proof. rewrite Forall_forall in Hsites. apply Hsites. Qed.

Lemma push_deprecated_appends :
  appends (push_deprecated sg sites) (λ strs ds, Forall2 (denotes strs) ds
    match head (omap (deprecated sg) sites) with
    | Some reason => [SDeprecated (str <$> reason)] | None => [] end).
Proof.
  unfold push_deprecated. destruct (head _) as [reason|] eqn:E; [|apply appends_ret; constructor].
  eapply (appends_intern _ (λ strs r, option_Forall2 (named strs) r (str <$> reason))
    (λ ids r, push_directive ids (Deprecated r))).
  - destruct reason as [r|]; [|apply interns_ret; constructor].
    eapply interns_bind; [apply insert_string_interns|apply named_is_mono|].
    + apply head_Some_elem_of, list_elem_of_omap in E as (site & Hsite & E).
      destruct (site_ok_at site Hsite) as (Hd & _). by apply Hd.
    + intros i. apply interns_ret. intros s Hi. by constructor.
  - intros s s' r He HF. inversion HF; constructor. by eapply named_mono.
  - intros r. apply appends_push. intros s Hr. by repeat constructor.
Qed.

Lemma push_if_appends b d sd :
  (∀ strs, denotes strs d sd) →
  appends (push_if b d) (λ strs ds, Forall2 (denotes strs) ds (if b then [sd] else [])).
Proof.
  intros Hd. destruct b; [apply appends_push|apply appends_ret]; intros s; by repeat constructor.
Qed.

Lemma insert_other_interns e :
  resolves e.1 → Forall (λ a, resolves a.1) e.2 →
  interns (insert_other sg e) (λ strs d, denotes strs d (other_of e) ∧ ∃ n a, d = Other n a).
Proof.
  intros He HF. unfold insert_other.
  eapply interns_bind; [by apply insert_string_interns|apply named_is_mono|]. intros n.
  eapply (interns_bind _ _ (λ strs args, Forall2 (λ a b, named strs b.1 (str a.1) ∧ b.2 = a.2) e.2 args)).
  - apply (mapM_interns _ (λ strs a b, named strs b.1 (str a.1) ∧ b.2 = a.2)).
    + intros a Ha. rewrite Forall_forall in HF.
      eapply interns_bind; [apply insert_string_interns; by apply HF|apply named_is_mono|].
      intros i. by apply interns_ret.
    + intros a s s' b Hext [??]. split; [by eapply named_mono|done].
  - intros s s' l Hext HF'. eapply Forall2_impl; [exact HF'|]. intros ?? [??].
    split; [by eapply named_mono|done].
  - intros args. apply interns_ret. intros s HF' Hn. split; [|by eauto]. split; [done|].
    apply Forall2_fmap_r. clear -HF'. induction HF'; constructor; naive_solver.
Qed.

Lemma extra_interns :
  interns (mapM (λ site, mapM (insert_other sg) (iter_composed_directives sg site)) sites)
    (λ strs extra, Forall2 (λ d sd, denotes strs d sd ∧ ∃ n a, d = Other n a) (concat extra)
       (other_of <$> concat (iter_composed_directives sg <$> sites))).
Proof.
  eapply interns_wand; [apply (mapM_interns _ (λ strs site ds,
    Forall2 (λ e d, denotes strs d (other_of e) ∧ ∃ n a, d = Other n a) (iter_composed_directives sg site) ds))| ].
  - intros site Hsite. apply (mapM_interns _ (λ strs e d, denotes strs d (other_of e) ∧ ∃ n a, d = Other n a)).
    + intros e He. destruct (site_ok_at site Hsite) as (_ & _ & _ & Hr). by apply insert_other_interns; apply Hr.
    + intros e s s' d Hext [??]. split; [by eapply denotes_mono|done].
  - intros site s s' ds Hext HF. eapply Forall2_impl; [exact HF|]. intros ?? [??].
    split; [by eapply denotes_mono|done].
  - intros s extra HF. apply Forall2_fmap_r. clear Hsites.
    induction HF as [|site ds l extra Hds _ IH]; simpl; [constructor|].
    apply Forall2_app; [|exact IH]. clear -Hds. induction Hds; constructor; auto.
Qed.

Lemma push_tag_appends tag :
  appends (λ ids, push_tag ids tag) (λ strs ds, Forall2 (denotes strs) ds [tag_of tag]).
Proof.
  unfold push_tag.
  eapply (appends_intern _ _ (λ ids name, arg ← insert_static_str "name"; push_directive ids (Other name [(arg, VString tag)])));
    [apply insert_static_str_interns|apply named_is_mono|]. intros name.
  eapply (appends_intern _ _ (λ ids arg, push_directive ids (Other name [(arg, VString tag)])));
    [apply insert_static_str_interns|apply named_is_mono|]. intros arg.
  apply appends_push. intros s Ha Hn. by repeat constructor.
Qed.

(** Sequencing, with the two parts of what is appended kept apart. *)
Definition both (Q1 Q2 : iset string → list Directive → Prop) : iset string → list Directive → Prop :=
  λ s ds, ∃ ds1 ds2, ds = ds1 ++ ds2 ∧ Q1 s ds1 ∧ Q2 s ds2.
Lemma appends_both m1 m2 Q1 Q2 :
  appends m1 Q1 → mono Q1 → appends m2 Q2 → appends (λ ids, ids ← m1 ids; m2 ids) (both Q1 Q2).
Proof. intros H1 HM H2. eapply appends_seq; [exact H1|exact HM|exact H2|]. intros s ds1 ds2 ??. by exists ds1, ds2. Qed.

Lemma lists_mono args smk : mono (λ strs ds, ∃ ss, distinct_lists args ss ∧
  Forall2 (denotes strs) ds (if decide (ss = []) then [] else [smk ss])).
Proof. intros s s' ds He (ss & ? & HF). exists ss. split; [done|]. by eapply denotes_list_mono. Qed.

Lemma extra_appends extra :
  appends (λ ids, foldM push_directive ids (dedup_by directive_eqb (concat extra)))
    (λ strs ds, Forall2 (λ d sd, denotes strs d sd ∧ ∃ n a, d = Other n a) (concat extra)
         (other_of <$> concat (iter_composed_directives sg <$> sites)) →
       Forall2 (denotes strs) ds
         (dedup_by sdirective_eqb (other_of <$> concat (iter_composed_directives sg <$> sites)))).
Proof.
  apply appends_foldM_push. intros s HF.
  eapply Forall2_impl; [eapply dedup_by_Forall2; [|exact HF]|by intros ?? [??]].
  intros x x' y y' [??] [??]. by eapply other_eqb.
Qed.

(** What is appended after the [@deprecated]. *)
Definition composed_rest strs (ds : list Directive) : Prop :=
  ∃ scopes pols,
    distinct_lists (concat (requires_scopes sg <$> sites)) scopes ∧
    distinct_lists (concat (policies sg <$> sites)) pols ∧
    Forall2 (denotes strs) ds
      ((if existsb (inaccessible sg) sites then [SInaccessible] else [])
       ++ (if existsb (authenticated sg) sites then [SAuthenticated] else [])
       ++ (if decide (scopes = []) then [] else [SRequiresScopes scopes])
       ++ (if decide (pols = []) then [] else [SPolicy pols])
       ++ (tag_of <$> btree_set_iter (list_to_set (concat (tags sg <$> sites)) : gset StringId))
       ++ dedup_by sdirective_eqb (other_of <$> concat (iter_composed_directives sg <$> sites))).

Lemma rest_appends :
  appends (λ ids,
    extra_directives ← mapM (λ site, mapM (insert_other sg) (iter_composed_directives sg site)) sites;
    let tags : gset StringId := list_to_set (concat (tags sg <$> sites)) in
    ids ← push_if (existsb (inaccessible sg) sites) Inaccessible ids;
    ids ← push_if (existsb (authenticated sg) sites) Authenticated ids;
    ids ← push_lists sg RequiresScopes (concat (requires_scopes sg <$> sites)) ids;
    ids ← push_lists sg Policy (concat (policies sg <$> sites)) ids;
    ids ← foldM push_tag ids (btree_set_iter tags);
    foldM push_directive ids (dedup_by directive_eqb (concat extra_directives))) composed_rest.
Proof.
  eapply appends_intern; [apply extra_interns| |].
  { intros s s' extra He HF. eapply Forall2_impl; [exact HF|]. intros ?? [??].
    split; [by eapply denotes_mono|done]. }
  intros extra. eapply appends_wand.
  { apply appends_both; [by apply (push_if_appends _ Inaccessible SInaccessible)|apply denotes_list_mono|].
    apply appends_both; [by apply (push_if_appends _ Authenticated SAuthenticated)|apply denotes_list_mono|].
    apply appends_both; [apply (push_lists_appends RequiresScopes SRequiresScopes); [done|]|apply lists_mono|].
    { intros l (site & Hsite & Hl)%elem_of_concat_map. destruct (site_ok_at site Hsite) as (_ & Hr & _); by apply Hr. }
    apply appends_both; [apply (push_lists_appends Policy SPolicy); [done|]|apply lists_mono|].
    { intros l (site & Hsite & Hl)%elem_of_concat_map. destruct (site_ok_at site Hsite) as (_ & _ & Hr & _); by apply Hr. }
    apply appends_both; [apply (appends_foldM push_tag tag_of); intros; apply push_tag_appends|apply denotes_list_mono|].
    apply extra_appends. }
  intros s ds (d2 & ? & -> & Q2 & d3 & ? & -> & Q3 & d4 & ? & -> & (scopes & ? & Q4)
    & d5 & ? & -> & (pols & ? & Q5) & d6 & d7 & -> & Q6 & Q7) HP.
  exists scopes, pols. split; [done|]. split; [done|]. auto 10 using Forall2_app.
Qed.

Lemma collect_ids_appends : appends (collect_ids sg sites) (composed sites).
Proof.
  eapply appends_seq; [apply push_deprecated_appends|apply denotes_list_mono|apply rest_appends|].
  intros s ds1 ds2 H1 (scopes & pols & ? & ? & H2). exists scopes, pols.
  split; [done|]. split; [done|]. by apply Forall2_app.
Qed.
End sites.

(** The result of [collect_composed_directives]. *)
Lemma collect_composed_directives_returns sites c :
  Forall site_ok sites →
  ∃ range c' ds, collect_composed_directives sg sites c = Ret (range, c') ∧ frame c c' ∧
    ir_directives c' = ir_directives c ++ ds ∧
    range = (if decide (ds = []) then (0, 0) else (length (ir_directives c), length ds)) ∧
    composed sites (ir_strings c') ds.
Proof.
  intros Hsites. destruct (collect_ids_appends sites Hsites (length (ir_directives c)) None c)
    as (ids & c' & ds & E & F & D & [Hle ->] & HQ).
  { split; [done|]. by rewrite decide_True. }
  eexists _, c', ds. split; [|split; [exact F|split; [exact D|split; [|exact HQ]]]].
  - unfold collect_composed_directives, mbind, M_bind. by rewrite E.
  - rewrite D, length_app in *. destruct ds as [|d ds]; simpl in *.
    + rewrite decide_True by lia. done.
    + rewrite decide_False by lia. simpl. f_equal. lia.
Qed.
End proofs.
