(* ===== verification/ComposeEnums.v ===== *)
(** * [composition]: [compose/enums.rs]

    How the definitions of an enum in several subgraphs are merged, depending
    on where the enum is used. *)
From S2P Require Import Prelude RustStd IndexSet FieldTypes Subgraphs ComposeContext ComposeDirectives.
Local Open Scope string_scope.
Local Open Scope list_scope.
Local Open Scope nat_scope.

Section enums.
Context `{IndexSet}.
Implicit Types (sg : Subgraphs) (first : DefinitionId) (definitions : list DefinitionId).

(** [iter_all_fields().filter(..).any(..)]: the parent's kind selects the field. *)
Definition field_of_kind_has_type sg (kinds : list DefinitionKind) (enum_name : StringId)
    (field : FieldId * FieldTuple) : res bool :=
  parent ← definition sg field.1.1;
  if decide (definition_kind parent ∈ kinds)
  then t ← type_name_id sg field.2; Ret (bool_decide (t = enum_name))
  else Ret false.

Definition enum_is_used_in_input sg (enum_name : StringId) : res bool :=
  in_field_arguments ← any_res (λ arg, t ← type_name_id sg arg.2; Ret (bool_decide (t = enum_name)))
                         (iter_all_field_arguments sg);
  if in_field_arguments : bool then Ret true
  else any_res (field_of_kind_has_type sg [DInputObject] enum_name) (iter_all_fields sg).

Definition enum_is_used_in_return_position sg (enum_name : StringId) : res bool :=
  any_res (field_of_kind_has_type sg [DObject; DInterface] enum_name) (iter_all_fields sg).

(** The names of the values of a definition. *)
Definition value_names sg (id : DefinitionId) : list StringId := (enum_values sg id).*1.

(** The body of the loops that insert one value: its directives are composed
    from the definitions that have it. *)
Definition insert_value sg definitions (enum_id : TypeDefinitionId) (value : StringId) : M unit :=
  let sites := omap (λ enm, snd <$> enum_value_by_name sg enm value) definitions in
  composed_directives ← collect_composed_directives sg sites;
  s ← lift (string_at sg value);
  _ ← insert_enum_value s None composed_directives enum_id;
  mret ().

(** The loop [for definition in definitions] with [retain]. *)
Definition intersection sg first definitions : list StringId :=
  foldl (λ values d, filter (λ v, v ∈ (list_to_set (value_names sg d) : gset StringId)) values)
    (value_names sg first) definitions.

Definition merge_intersection sg first definitions (enum_id : TypeDefinitionId) : M unit :=
  let values := intersection sg first definitions in
  _ ← (if decide (values = []) then
         name ← lift (d ← definition sg first; string_at sg (definition_name d));
         push_fatal ("Values for enum " +:+ name +:+ " are empty (intersection)")
       else mret ());
  foldM (λ _, insert_value sg definitions enum_id) () values.

(** One run of equal names in the sorted vector of all values. *)
Definition insert_group sg (enum_id : TypeDefinitionId) (group : list (StringId * DirectiveSiteId)) : M unit :=
  match group with
  | [] => mret ()
  | (name, _) :: _ =>
      composed_directives ← collect_composed_directives sg group.*2;
      s ← lift (string_at sg name);
      _ ← insert_enum_value s None composed_directives enum_id;
      mret ()
  end.
Definition merge_union sg definitions (enum_id : TypeDefinitionId) : M unit :=
  let all_values := sort (concat (enum_values sg <$> definitions)) in
  foldM (λ _, insert_group sg enum_id) () (groups (length all_values) fst all_values).

(** [is_slice_match]: [slice[idx]] is indexed before the lengths are compared. *)
Fixpoint is_slice_match_from (slice : list StringId) (idx : nat) (items : list StringId) : res bool :=
  match items with
  | [] => Ret (idx =? length slice)
  | item :: items =>
      x ← expect "index out of bounds" (slice !! idx);
      if decide (x ≠ item) then Ret false else is_slice_match_from slice (S idx) items
  end.
Definition is_slice_match (slice items : list StringId) : res bool := is_slice_match_from slice 0 items.

(** The first loop of [merge_exactly_matching]: does every definition match? *)
Fixpoint all_match sg (expected : list StringId) definitions : res bool :=
  match definitions with
  | [] => Ret true
  | d :: definitions =>
      b ← is_slice_match expected (value_names sg d);
      if b : bool then all_match sg expected definitions else Ret false
  end.
Definition merge_exactly_matching sg first definitions (enum_id : TypeDefinitionId) : M unit :=
  let expected := value_names sg first in
  matches ← lift (all_match sg expected definitions);
  if matches : bool then foldM (λ _, insert_value sg definitions enum_id) () expected
  else
    name ← lift (d ← definition sg first; string_at sg (definition_name d));
    push_fatal ("The enum " +:+ name +:+ " should match exactly in all subgraphs, but it does not").

Definition merge_enum_definitions sg first definitions : M unit :=
  first_definition ← lift (definition sg first);
  let enum_name := definition_name first_definition in
  ds ← lift (mapM_res (definition sg) definitions);
  composed_directives ← collect_composed_directives sg (definition_directives <$> ds);
  description ← lift match head (omap definition_description ds) with
                     | Some d => s ← string_at sg d; Ret (Some s)
                     | None => Ret None
                     end;
  in_input ← lift (enum_is_used_in_input sg enum_name);
  in_return ← lift (enum_is_used_in_return_position sg enum_name);
  let insert_enum :=
    name ← lift (string_at sg enum_name); insert_enum name description composed_directives in
  match in_input : bool, in_return : bool with
  | true, false => enum_id ← insert_enum; merge_intersection sg first definitions enum_id
  | false, true => enum_id ← insert_enum; merge_union sg definitions enum_id
  | true, true => enum_id ← insert_enum; merge_exactly_matching sg first definitions enum_id
  | false, false => mret ()
  end.
End enums.

(** ** How enums are merged: the proofs about [compose/enums.rs] *)

Section proofs.
Context `{IndexSetLaws} (sg : Subgraphs).
Implicit Types (c : Ctx) (strs : iset string).

(** The directives a range stands for. *)
Definition slice (dirs : list Directive) (r : DirectiveRange) : list Directive := take r.2 (drop r.1 dirs).

(** [r] is a range of [dirs] with the composition of the directives of [sites]. *)
Definition range_of (sites : list DirectiveSiteId) strs dirs (r : DirectiveRange) : Prop :=
  r.1 + r.2 ≤ length dirs ∧ composed sg sites strs (slice dirs r).

(** The record of a value of the composed enum. *)
Definition value_record strs dirs (enum_id : TypeDefinitionId) (v : StringId * list DirectiveSiteId)
    (ev : EnumValueRecord) : Prop :=
  ev_enum_id ev = enum_id ∧ named strs (ev_value ev) (str sg v.1) ∧
  ev_description ev = None ∧ range_of v.2 strs dirs (ev_composed_directives ev).

Lemma composed_mono sites : mono (composed sg sites).
Proof.
  intros s s' ds He (scopes & pols & ? & ? & HF). exists scopes, pols.
  split; [done|]. split; [done|]. by eapply denotes_list_mono.
Qed.
Lemma range_of_mono sites strs strs' dirs dirs' r :
  extends strs strs' → range_of sites strs dirs r → range_of sites strs' (dirs ++ dirs') r.
Proof.
  intros He [Hle HC]. split; [rewrite length_app; lia|].
  unfold slice in *. rewrite drop_app_le, take_app_le by (rewrite ?length_drop; lia).
  by eapply composed_mono.
Qed.

(** [m] appends the values [l] to the enum: nothing else but strings,
    directives and enum values changes. *)
Definition inserts (m : M unit) (enum_id : TypeDefinitionId)
    (l : list (StringId * list DirectiveSiteId)) : Prop :=
  ∀ c, ∃ c' evs ds, m c = Ret ((), c') ∧ extends (ir_strings c) (ir_strings c') ∧
    ir_type_definitions c' = ir_type_definitions c ∧
    ir_definitions_by_name c' = ir_definitions_by_name c ∧ unwritten c' = unwritten c ∧
    ir_directives c' = ir_directives c ++ ds ∧ ir_enum_values c' = ir_enum_values c ++ evs ∧
    Forall2 (value_record (ir_strings c') (ir_directives c') enum_id) l evs.

Lemma value_record_mono strs strs' dirs dirs' enum_id v ev :
  extends strs strs' → value_record strs dirs enum_id v ev →
  value_record strs' (dirs ++ dirs') enum_id v ev.
Proof.
  intros He (? & ? & ? & ?). split_and!; [done|by eapply named_mono|done|by eapply range_of_mono].
Qed.

Lemma inserts_ret enum_id : inserts (mret ()) enum_id [].
Proof. intros c. exists c, [], []. rewrite !app_nil_r. split_and!; try done. Qed.
Lemma inserts_seq m1 m2 enum_id l1 l2 :
  inserts m1 enum_id l1 → inserts m2 enum_id l2 → inserts (_ ← m1; m2) enum_id (l1 ++ l2).
Proof.
  intros H1 H2 c. destruct (H1 c) as (c1 & e1 & d1 & E1 & X1 & T1 & N1 & G1 & D1 & V1 & F1).
  destruct (H2 c1) as (c2 & e2 & d2 & E2 & X2 & T2 & N2 & G2 & D2 & V2 & F2).
  exists c2, (e1 ++ e2), (d1 ++ d2). split_and!; [|by etransitivity|congruence..| | |].
  - unfold mbind, M_bind. by rewrite E1.
  - by rewrite D2, D1, (assoc_L (++)).
  - by rewrite V2, V1, (assoc_L (++)).
  - apply Forall2_app; [|done]. eapply Forall2_impl; [exact F1|]. intros v ev Hv.
    rewrite D2. by eapply value_record_mono.
Qed.
Lemma inserts_foldM {A} (f : A → M unit) (g : A → StringId * list DirectiveSiteId) enum_id l :
  (∀ x, x ∈ l → inserts (f x) enum_id [g x]) → inserts (foldM (λ _, f) () l) enum_id (g <$> l).
Proof.
  induction l as [|x l IH]; intros Hf; [apply inserts_ret|].
  change (g <$> x :: l) with ([g x] ++ (g <$> l)).
  intros c. destruct (inserts_seq (f x) (foldM (λ _, f) () l) enum_id [g x] (g <$> l)) with (c := c)
    as (c' & evs & ds & E & R); [apply Hf; set_solver|apply IH; set_solver|].
  exists c', evs, ds. split; [|exact R]. rewrite <-E. cbn [foldM]. unfold mbind, M_bind.
  destruct (f x c) as [[[] c1]|]; done.
Qed.

(** One value: compose its directives, then record it. *)
Lemma insert_one_inserts value sites enum_id :
  resolves sg value → Forall (site_ok sg) sites →
  inserts (composed_directives ← collect_composed_directives sg sites;
           s ← lift (string_at sg value);
           _ ← insert_enum_value s None composed_directives enum_id;
           mret ()) enum_id [(value, sites)].
Proof.
  intros Hv Hs c.
  destruct (collect_composed_directives_returns sg sites c Hs)
    as (r & c1 & ds & E1 & (X1 & T1 & N1 & V1 & G1) & D1 & -> & HC).
  destruct (insert_static_str_interns (str sg value) c1) as (i & c2 & E2 & (X2 & T2 & N2 & V2 & G2) & D2 & Hi).
  eexists _, [MkEnumValue enum_id i _ None], ds. split.
  { unfold mbind at 1, M_bind. rewrite E1. simpl. unfold mbind at 1, M_bind, lift.
    rewrite string_at_str by done. simpl. unfold insert_enum_value, mbind, M_bind. rewrite E2. simpl. reflexivity. }
  unfold unwritten in *. simpl. rewrite G1 in G2. injection G2 as -> ->. rewrite V2, V1, T2, T1, N2, N1, D2, D1.
  split_and!; try done; [by etransitivity|].
  constructor; [|constructor]. split_and!; [done|done|done|]. split; simpl.
  - rewrite length_app. case_decide; simpl; lia.
  - eapply composed_mono; [exact X2|]. unfold slice. case_decide as Hd; simpl.
    + by subst.
    + by rewrite drop_app_length, firstn_all.
Qed.

(** ** The values of a definition *)

(** The ids of the definitions and of their values are those of the tables, and
    [StringId::MAX] was not handed out. *)
Record enums_ok (defs : list DefinitionId) : Prop := {
  definition_ok : ∀ d, d ∈ defs → ∃ x, definitions sg !! d = Some x ∧
    resolves sg (definition_name x) ∧ site_ok sg (definition_directives x) ∧
    (∀ t, definition_description x = Some t → resolves sg t);
  value_ok : ∀ d v site, d ∈ defs → enums sg !! (d, v) = Some site →
    resolves sg v ∧ site_ok sg site ∧ (N.of_nat v < usize_max)%N;
}.

Lemma elem_of_enum_values d v site :
  (v, site) ∈ enum_values sg d ↔ enums sg !! (d, v) = Some site ∧ (N.of_nat v < usize_max)%N.
Proof.
  unfold enum_values. rewrite list_elem_of_fmap. split.
  - intros ([[d' v'] s'] & [= <- <-] & [Hr Hin]%list_elem_of_filter).
    unfold in_range in Hr. simpl in Hr. apply andb_true_iff in Hr as [->%Nat.eqb_eq ?%N.ltb_lt].
    by apply elem_of_btree_map_iter in Hin.
  - intros [Hin ?]. exists (d, v, site). split; [done|]. apply list_elem_of_filter.
    split; [|by apply elem_of_btree_map_iter]. unfold in_range. simpl.
    apply andb_true_iff. split; [by apply Nat.eqb_eq|by apply N.ltb_lt].
Qed.

(** The names come in increasing order, each once. *)
Lemma value_names_lt d : StronglySorted lt (value_names sg d).
Proof.
  unfold value_names, enum_values. rewrite <-list_fmap_compose.
  pose proof (StronglySorted_filter_fmap cmp_lt fst (λ e, in_range d e.1 = true) _
    (btree_map_iter_lt (enums sg))) as Hs.
  assert (Forall (λ e : nat * nat * nat, e.1.1 = d) (filter (λ e, in_range d e.1 = true) (btree_map_iter (enums sg)))) as HF.
  { apply Forall_forall. intros e [Hr _]%list_elem_of_filter. unfold in_range in Hr.
    by apply andb_true_iff in Hr as [?%Nat.eqb_eq _]. }
  revert Hs HF. generalize (filter (λ e, in_range d e.1 = true) (btree_map_iter (enums sg))). clear.
  induction l as [|e l IH]; simpl; intros Hs HF; [constructor|].
  apply StronglySorted_inv in Hs as [Hs Hx]. apply Forall_cons in HF as [He HF]. constructor; [by apply IH|].
  rewrite Forall_fmap in Hx. rewrite Forall_fmap. apply Forall_forall. intros e' He'. rewrite Forall_forall in Hx, HF.
  specialize (Hx e' He'). specialize (HF e' He'). simpl in *.
  unfold cmp_lt, cmp, prod_ord, then_with in Hx. rewrite He, HF, cmp_refl in Hx. by apply Nat.compare_lt_iff in Hx.
Qed.
Lemma value_names_NoDup d : NoDup (value_names sg d).
Proof.
  pose proof (value_names_lt d) as Hs. induction Hs as [|v l _ IH Hx]; constructor; [|done].
  intros Hin. rewrite Forall_forall in Hx. specialize (Hx v Hin). lia.
Qed.

(** The directive sites of a value in the definitions that have it. *)
Definition sites_of (defs : list DefinitionId) (v : StringId) : list DirectiveSiteId :=
  omap (λ enm, snd <$> enum_value_by_name sg enm v) defs.

Lemma elem_of_sites_of defs v site : site ∈ sites_of defs v ↔ ∃ d, d ∈ defs ∧ enums sg !! (d, v) = Some site.
Proof.
  unfold sites_of. rewrite list_elem_of_omap. unfold enum_value_by_name.
  apply exist_proper. intros d. destruct (enums sg !! (d, v)); naive_solver.
Qed.

Section merge.
Context (defs : list DefinitionId) (Hok : enums_ok defs).

Lemma elem_of_value_names d v : d ∈ defs → v ∈ value_names sg d ↔ is_Some (enums sg !! (d, v)).
Proof.
  intros Hd. unfold value_names. rewrite list_elem_of_fmap. split.
  - intros ([v' site] & -> & [Hin _]%elem_of_enum_values). by exists site.
  - intros [site Hin]. exists (v, site). split; [done|]. apply elem_of_enum_values.
    split; [done|]. by destruct (value_ok _ Hok d v site Hd Hin) as (_ & _ & ?).
Qed.
Lemma sites_of_ok v : Forall (site_ok sg) (sites_of defs v).
Proof.
  apply Forall_forall. intros site (d & Hd & Hin)%elem_of_sites_of.
  by destruct (value_ok _ Hok d v site Hd Hin) as (_ & ? & _).
Qed.
Lemma value_resolves d v : d ∈ defs → v ∈ value_names sg d → resolves sg v.
Proof. intros Hd [site Hin]%elem_of_value_names; [|done]. by destruct (value_ok _ Hok d v site Hd Hin) as (? & _). Qed.

Lemma insert_value_inserts enum_id d v :
  d ∈ defs → v ∈ value_names sg d → inserts (insert_value sg defs enum_id v) enum_id [(v, sites_of defs v)].
Proof. intros Hd Hv. apply insert_one_inserts; [by eapply value_resolves|apply sites_of_ok]. Qed.

(** ** Intersection *)
Lemma intersection_spec first l :
  intersection sg first l =
  filter (λ v, Forall (λ d, v ∈ value_names sg d) l) (value_names sg first).
Proof.
  unfold intersection. generalize (value_names sg first). induction l as [|d l IH]; intros vs; cbn [foldl].
  - induction vs as [|v vs IH]; [done|]. rewrite filter_cons, decide_True by constructor. by rewrite <-IH.
  - rewrite IH, list_filter_filter. apply list_filter_iff. intros v.
    rewrite Forall_cons, elem_of_list_to_set. tauto.
Qed.

Lemma insert_values_inserts enum_id first vs :
  first ∈ defs → (∀ v, v ∈ vs → v ∈ value_names sg first) →
  inserts (foldM (λ _, insert_value sg defs enum_id) () vs) enum_id ((λ v, (v, sites_of defs v)) <$> vs).
Proof.
  intros Hf Hvs. apply (inserts_foldM _ (λ v, (v, sites_of defs v))). intros v Hv.
  eapply insert_value_inserts; [exact Hf|by apply Hvs].
Qed.

(** ** Union *)

(** All values of the definitions, sorted. *)
Let all_values : list (StringId * DirectiveSiteId) := sort (concat (enum_values sg <$> defs)).

Lemma elem_of_all_values v site : (v, site) ∈ all_values ↔ ∃ d, d ∈ defs ∧ enums sg !! (d, v) = Some site.
Proof.
  unfold all_values. rewrite elem_of_sort, elem_of_concat_map. apply exist_proper. intros d.
  rewrite elem_of_enum_values. split; [naive_solver|]. intros [Hd Hin]. split_and!; [done..|].
  by destruct (value_ok _ Hok d v site Hd Hin) as (_ & _ & ?).
Qed.

Lemma all_values_sites v : (filter (λ y, y.1 = v) all_values).*2 ≡ₚ sites_of defs v.
Proof.
  unfold all_values. rewrite sort_perm. unfold sites_of.
  assert (∀ d, d ∈ defs → (filter (λ y, y.1 = v) (enum_values sg d)).*2 =
    match enums sg !! (d, v) with Some site => [site] | None => [] end) as Hone.
  { intros d Hd. destruct (enums sg !! (d, v)) as [site|] eqn:E.
    - rewrite (filter_key_singleton _ v site); [done|apply value_names_NoDup|].
      apply elem_of_enum_values. split; [done|]. by destruct (value_ok _ Hok d v site Hd E) as (_ & _ & ?).
    - rewrite filter_none; [done|]. intros [v' site] [Hin _]%elem_of_enum_values Ev. simpl in Ev. congruence. }
  clear Hok all_values. revert Hone. induction defs as [|d l IH]; intros Hone; simpl; [done|].
  rewrite filter_app, fmap_app, Hone by set_solver. unfold enum_value_by_name at 1.
  destruct (enums sg !! (d, v)); simpl; [constructor|]; apply IH; intros; apply Hone; set_solver.
Qed.

(** A group of the sorted vector, by its first entry. *)
Definition group_value (group : list (StringId * DirectiveSiteId)) : StringId * list DirectiveSiteId :=
  (default 0 (fst <$> head group), group.*2).

Lemma group_value_filter n :
  n ∈ dedup all_values.*1 →
  group_value (filter (λ y, y.1 = n) all_values) = (n, (filter (λ y, y.1 = n) all_values).*2).
Proof.
  rewrite elem_of_dedup, list_elem_of_fmap. intros ([v site] & -> & Hin). simpl.
  assert ((v, site) ∈ filter (λ y, y.1 = v) all_values) as Hmem by by apply list_elem_of_filter.
  assert (Forall (λ y, y.1 = v) (filter (λ y, y.1 = v) all_values)) as Hfst.
  { apply Forall_forall. by intros y [? _]%list_elem_of_filter. }
  destruct (filter (λ y, y.1 = v) all_values) as [|[n s'] g]; [by apply elem_of_nil in Hmem|].
  apply Forall_cons in Hfst as [Hn _]. simpl in Hn. by subst n.
Qed.
Lemma insert_group_inserts enum_id n :
  n ∈ dedup all_values.*1 →
  inserts (insert_group sg enum_id (filter (λ y, y.1 = n) all_values)) enum_id
    [group_value (filter (λ y, y.1 = n) all_values)].
Proof.
  intros Hn. pose proof (group_value_filter n Hn) as Hg.
  assert (Forall (site_ok sg) (filter (λ y, y.1 = n) all_values).*2) as Hsites.
  { rewrite all_values_sites. apply sites_of_ok. }
  assert (resolves sg n) as Hr.
  { rewrite elem_of_dedup, list_elem_of_fmap in Hn. destruct Hn as ([v site] & -> & Hin).
    apply elem_of_all_values in Hin as (d & Hd & Hin). by destruct (value_ok _ Hok d v site Hd Hin) as (? & _). }
  rewrite Hg. unfold group_value in Hg. injection Hg as Hh. unfold insert_group.
  destruct (filter (λ y, y.1 = n) all_values) as [|[n' s'] g] eqn:E; simpl in Hh; subst.
  - exfalso. rewrite elem_of_dedup, list_elem_of_fmap in Hn. destruct Hn as ([v site] & Hv & Hin).
    simpl in Hv. apply (not_elem_of_nil (v, site)). rewrite <-E. by apply list_elem_of_filter.
  - by apply insert_one_inserts.
Qed.

(** The groups are the names in use, in increasing order, with their sites. *)
Lemma merge_union_inserts enum_id :
  ∃ l, inserts (merge_union sg defs enum_id) enum_id l ∧
    StronglySorted lt l.*1 ∧ (∀ v, v ∈ l.*1 ↔ ∃ d, d ∈ defs ∧ v ∈ value_names sg d) ∧
    Forall (λ p, p.2 ≡ₚ sites_of defs p.1) l.
Proof.
  set (names := dedup all_values.*1). exists ((λ n, (n, (filter (λ y, y.1 = n) all_values).*2)) <$> names).
  assert (StronglySorted cmp_le all_values.*1) as Hsort.
  { unfold all_values. pose proof (sort_sorted (concat (enum_values sg <$> defs))) as Hs.
    induction Hs as [|x l _ IH Hx]; simpl; constructor; [done|]. rewrite Forall_fmap.
    eapply Forall_impl; [exact Hx|]. intros y. apply cmp_le_fst. }
  assert (∀ n, n ∈ names ↔ ∃ d, d ∈ defs ∧ n ∈ value_names sg d) as Hnames.
  { intros n. unfold names. rewrite elem_of_dedup, list_elem_of_fmap. split.
    - intros ([v site] & -> & (d & Hd & Hin)%elem_of_all_values). exists d. split; [done|].
      by apply elem_of_value_names.
    - intros (d & Hd & [site Hin]%elem_of_value_names); [|done]. exists (n, site). split; [done|].
      apply elem_of_all_values. eauto. }
  assert (((λ n, (n, (filter (λ y, y.1 = n) all_values).*2)) <$> names).*1 = names) as Hfst.
  { rewrite <-list_fmap_compose. apply list_fmap_id. }
  rewrite Hfst. split_and!; [| |done|].
  - unfold merge_union. fold all_values. rewrite groups_spec; [|done|].
    + assert (((λ n, (n, (filter (λ y, y.1 = n) all_values).*2)) <$> names) =
        group_value <$> ((λ n, filter (λ y, y.1 = n) all_values) <$> names)) as ->.
      { rewrite <-list_fmap_compose. apply list_fmap_ext. intros i n Hn. symmetry.
        apply group_value_filter. by eapply list_elem_of_lookup_2. }
      apply inserts_foldM. intros g (n & -> & Hn)%list_elem_of_fmap. by apply insert_group_inserts.
    + clear -Hsort. unfold sorted_by. revert Hsort. generalize all_values.
      intros l. induction l as [|x l IH]; simpl; intros Hs; [constructor|].
      apply StronglySorted_inv in Hs as [Hs Hx]. rewrite Forall_fmap in Hx. by constructor; [apply IH|].
  - pose proof (sorted_NoDup_lt names) as Hlt. unfold names in *.
    eapply StronglySorted_weaken; [|apply Hlt; [by apply dedup_NoDup|by apply dedup_sorted]].
    intros x y. apply Nat.compare_lt_iff.
  - rewrite Forall_fmap. apply Forall_forall. intros n _. apply all_values_sites.
Qed.

(** ** Exact match *)

(** [b] has the values [a], in the same positions, and more. *)
Definition strictly_extends (a b : list StringId) : Prop := a `prefix_of` b ∧ a ≠ b.

Lemma is_slice_match_from_spec slice idx items :
  idx ≤ length slice →
  match is_slice_match_from slice idx items with
  | Ret true => items = drop idx slice
  | Ret false => items ≠ drop idx slice ∧ ¬ strictly_extends (drop idx slice) items
  | Panic _ => strictly_extends (drop idx slice) items
  end.
Proof.
  revert idx. induction items as [|x items IH]; intros idx Hidx; simpl.
  { destruct (Nat.eqb_spec idx (length slice)) as [->|Hne]; [by rewrite drop_ge|].
    assert (drop idx slice ≠ []) as Hd.
    { intros E%(f_equal length). rewrite length_drop in E. simpl in E. lia. }
    split; [congruence|]. intros [Hp _]. by apply prefix_nil_inv in Hp. }
  destruct (slice !! idx) as [y|] eqn:E; simpl.
  - rewrite (drop_S _ _ _ E). case_decide as Hxy.
    + split; [congruence|]. intros [Hp _]. by apply prefix_cons_inv_1 in Hp.
    + assert (y = x) as -> by (destruct (decide (y = x)); naive_solver).
      assert (S idx ≤ length slice) as Hlt by (apply lookup_lt_Some in E; lia). specialize (IH (S idx) Hlt).
      destruct (is_slice_match_from slice (S idx) items) as [[]|].
      * by f_equal.
      * destruct IH as [Hne Hns]. split; [congruence|]. intros [Hp Hn]. apply Hns.
        split; [by apply prefix_cons_inv_2 in Hp|congruence].
      * destruct IH as [Hp Hn]. split; [by apply prefix_cons|congruence].
  - apply lookup_ge_None in E. rewrite drop_ge by done. split; [apply prefix_nil|done].
Qed.
Lemma is_slice_match_spec slice items :
  match is_slice_match slice items with
  | Ret true => items = slice
  | Ret false => items ≠ slice ∧ ¬ strictly_extends slice items
  | Panic _ => strictly_extends slice items
  end.
Proof. pose proof (is_slice_match_from_spec slice 0 items) as Hs. rewrite drop_0 in Hs. apply Hs. lia. Qed.

(** The first definition that does not match decides. *)
Lemma all_match_spec expected l :
  match all_match sg expected l with
  | Ret true => Forall (λ d, value_names sg d = expected) l
  | Ret false => ∃ l1 d l2, l = l1 ++ d :: l2 ∧ Forall (λ d, value_names sg d = expected) l1 ∧
      value_names sg d ≠ expected ∧ ¬ strictly_extends expected (value_names sg d)
  | Panic _ => ∃ l1 d l2, l = l1 ++ d :: l2 ∧ Forall (λ d, value_names sg d = expected) l1 ∧
      strictly_extends expected (value_names sg d)
  end.
Proof.
  induction l as [|d l IH]; simpl; [constructor|].
  pose proof (is_slice_match_spec expected (value_names sg d)) as Hd.
  destruct (is_slice_match expected (value_names sg d)) as [[]|]; simpl.
  - destruct (all_match sg expected l) as [[]|].
    + by constructor.
    + destruct IH as (l1 & d' & l2 & -> & ? & ?). exists (d :: l1), d', l2. split; [done|]. by split; [constructor|].
    + destruct IH as (l1 & d' & l2 & -> & ? & ?). exists (d :: l1), d', l2. split; [done|]. by split; [constructor|].
  - exists [], d, l. naive_solver.
  - exists [], d, l. naive_solver.
Qed.
End merge.

(** ** Where an enum is used *)

(** Parents and types of the fields are in the tables. *)
Record fields_ok : Prop := {
  field_ok : ∀ p n t, definition_fields sg !! (p, n) = Some t →
    is_Some (definitions sg !! p) ∧ is_Some (get_index (inner_types (store sg)) (tuple_type t));
  argument_ok : ∀ a t, field_arguments sg !! a = Some t →
    is_Some (get_index (inner_types (store sg)) (tuple_type t));
}.

Definition has_type (t : FieldTuple) (name : StringId) : Prop :=
  ∃ i, get_index (inner_types (store sg)) (tuple_type t) = Some i ∧ inner_name i = name.
Definition field_used (kinds : list DefinitionKind) (name : StringId) : Prop :=
  ∃ p n t x, definition_fields sg !! (p, n) = Some t ∧ definitions sg !! p = Some x ∧
    definition_kind x ∈ kinds ∧ has_type t name.
Definition used_in_input (name : StringId) : Prop :=
  (∃ a t, field_arguments sg !! a = Some t ∧ has_type t name) ∨ field_used [DInputObject] name.
Definition used_in_return (name : StringId) : Prop := field_used [DObject; DInterface] name.

Lemma type_name_id_spec t name : is_Some (get_index (inner_types (store sg)) (tuple_type t)) →
  ∃ n, type_name_id sg t = Ret n ∧ (n = name ↔ has_type t name).
Proof.
  intros [i Hi]. exists (inner_name i). unfold type_name_id, inner, has_type. rewrite Hi.
  split; [done|]. naive_solver.
Qed.

Lemma any_field_spec (Hf : fields_ok) kinds name :
  ∃ b, any_res (field_of_kind_has_type sg kinds name) (iter_all_fields sg) = Ret b ∧
    (b = true ↔ field_used kinds name).
Proof.
  destruct (any_res_true (field_of_kind_has_type sg kinds name)
    (λ f, ∃ x, definitions sg !! f.1.1 = Some x ∧ definition_kind x ∈ kinds ∧ has_type f.2 name)
    (iter_all_fields sg)) as (b & -> & Hb).
  - intros [[p n] t] Hin%elem_of_btree_map_iter. destruct (field_ok Hf p n t Hin) as [[x Hx] Ht].
    destruct (type_name_id_spec t name Ht) as (m & Hm & Hiff).
    unfold field_of_kind_has_type, definition. simpl. rewrite Hx, Hm. simpl. case_decide.
    + exists (bool_decide (m = name)). split; [done|]. rewrite bool_decide_eq_true, Hiff. naive_solver.
    + exists false. split; [done|]. naive_solver.
  - exists b. split; [done|]. rewrite Hb. unfold field_used. split.
    + intros ([[p n] t] & Hin%elem_of_btree_map_iter & x & ?). by exists p, n, t, x.
    + intros (p & n & t & x & Hin & ?). exists ((p, n), t). split; [by apply elem_of_btree_map_iter|]. by exists x.
Qed.

Lemma enum_is_used_in_input_spec (Hf : fields_ok) name :
  ∃ b, enum_is_used_in_input sg name = Ret b ∧ (b = true ↔ used_in_input name).
Proof.
  unfold enum_is_used_in_input.
  destruct (any_res_true (λ arg : ArgumentId * FieldTuple, t ← type_name_id sg arg.2; Ret (bool_decide (t = name)))
    (λ arg, has_type arg.2 name) (iter_all_field_arguments sg)) as (b & -> & Hb).
  { intros [a t] Hin%elem_of_btree_map_iter. destruct (type_name_id_spec t name) as (m & Hm & Hiff).
    - by eapply argument_ok.
    - simpl. rewrite Hm. simpl. eexists. split; [done|]. by rewrite bool_decide_eq_true. }
  assert (b = true ↔ ∃ a t, field_arguments sg !! a = Some t ∧ has_type t name) as Hb'.
  { rewrite Hb. split.
    - intros ([a t] & Hin%elem_of_btree_map_iter & ?). by exists a, t.
    - intros (a & t & Hin & ?). exists (a, t). split; [by apply elem_of_btree_map_iter|done]. }
  destruct (any_field_spec Hf [DInputObject] name) as (b' & Hb2 & Hiff).
  simpl. rewrite Hb2. unfold used_in_input. destruct b; [exists true|exists b']; split; try done; naive_solver.
Qed.
End proofs.
