(* ===== verification/ComposeEnumsClaims.v ===== *)
(** * The contract of enum and directive composition *)
From S2P Require Import Prelude RustStd CheckSchema IndexSet FieldTypes Subgraphs ComposeContext ComposeDirectives ComposeEnums.
Local Open Scope string_scope.
Local Open Scope list_scope.
Local Open Scope nat_scope.

Section claims.
Context `{IndexSetLaws} (sg : Subgraphs).
Implicit Types c : Ctx.

Lemma lift_bind {A B} (r : res A) a (k : A → M B) c : r = Ret a → (lift r ≫= k) c = k a c.
Proof. by intros ->. Qed.
Lemma ret_bind {A B} (m : M A) a (k : A → M B) c c' : m c = Ret (a, c') → (m ≫= k) c = k a c'.
Proof. intros E. unfold mbind, M_bind. by rewrite E. Qed.

(** The directive sites of the definitions. *)
Definition definition_sites (defs : list DefinitionId) : list DirectiveSiteId :=
  omap (λ d, definition_directives <$> definitions sg !! d) defs.

(** From [c] to [c'] one enum was added, named [name], with the composed
    directives of the definitions and the values [l], and the fatal messages
    [msgs] were reported. *)
Definition adds_enum (name : StringId) (defs : list DefinitionId) c c'
    (l : list (StringId * list DirectiveSiteId)) (msgs : list string) : Prop :=
  let enum_id := length (ir_type_definitions c) in
  ∃ td evs,
    ir_type_definitions c' = ir_type_definitions c ++ [td] ∧ td_kind td = TEnum ∧
    named (ir_strings c') (td_name td) (str sg name) ∧
    ir_definitions_by_name c' = <[td_name td := FEnum enum_id]> (ir_definitions_by_name c) ∧
    range_of sg (definition_sites defs) (ir_strings c') (ir_directives c') (td_directives td) ∧
    ir_enum_values c' = ir_enum_values c ++ evs ∧
    Forall2 (value_record sg (ir_strings c') (ir_directives c') enum_id) l evs ∧
    ir_tables c' = ir_tables c ∧ diagnostics c' = diagnostics c ++ msgs.

Lemma adds_enum_inserts name defs c c1 m msgs l :
  adds_enum name defs c c1 [] msgs → inserts sg m (length (ir_type_definitions c)) l →
  ∃ c2, m c1 = Ret ((), c2) ∧ adds_enum name defs c c2 l msgs.
Proof.
  intros (td & evs & T & K & N & B & R & V & F & Q & G) Hm. apply Forall2_nil_inv_l in F as ->.
  destruct (Hm c1) as (c2 & evs & ds & E & X2 & T2 & N2 & G2 & D2 & V2 & F2).
  exists c2. split; [done|]. exists td, evs. rewrite app_nil_r in V. injection G2 as Q2 G2.
  split_and!; [congruence|done|by eapply named_mono|congruence| |congruence|done|congruence|congruence].
  rewrite D2. by eapply range_of_mono.
Qed.
Lemma adds_enum_fatal name defs c c1 msg :
  adds_enum name defs c c1 [] [] →
  ∃ c2, push_fatal msg c1 = Ret ((), c2) ∧ adds_enum name defs c c2 [] [msg].
Proof.
  intros (td & evs & T & K & N & B & R & V & F & Q & G). eexists. split; [done|].
  exists td, evs. simpl. split_and!; try done. by rewrite G, app_nil_r.
Qed.

(** The first definition whose values differ from [expected] has values with [P]. *)
Definition first_mismatch (expected : list StringId) (defs : list DefinitionId)
    (P : list StringId → Prop) : Prop :=
  ∃ l1 d l2, defs = l1 ++ d :: l2 ∧ Forall (λ d, value_names sg d = expected) l1 ∧
    value_names sg d ≠ expected ∧ P (value_names sg d).

Section merge.
Context (first : DefinitionId) (rest : list DefinitionId).
Let defs : list DefinitionId := first :: rest.
Context (Hok : enums_ok sg defs) (Hf : fields_ok sg) (x : Definition_) (Hx : definitions sg !! first = Some x).
Let name : StringId := definition_name x.

Lemma definitions_return :
  ∃ ds, mapM_res (definition sg) defs = Ret ds ∧ definition_directives <$> ds = definition_sites defs ∧
    Forall (site_ok sg) (definition_sites defs) ∧
    (∀ t, head (omap definition_description ds) = Some t → resolves sg t).
Proof.
  assert (∀ l, (∀ d, d ∈ l → d ∈ defs) → ∃ ds, mapM_res (definition sg) l = Ret ds ∧
    definition_directives <$> ds = definition_sites l ∧ Forall (site_ok sg) (definition_sites l) ∧
    Forall (λ x, ∀ t, definition_description x = Some t → resolves sg t) ds) as Hl.
  { induction l as [|d l IH]; intros Hin; simpl; [by exists []|].
    destruct (definition_ok _ _ Hok d) as (y & Hy & _ & Hs & Hd); [set_solver|].
    destruct IH as (ds & -> & E & HF & HD); [set_solver|]. unfold definition. rewrite Hy. simpl.
    exists (y :: ds). split_and!; [done|by rewrite fmap_cons, E|by constructor|by constructor]. }
  destruct (Hl defs) as (ds & ? & ? & ? & HD); [done|]. exists ds. split_and!; [done..|].
  intros t (y & Hy & Ht)%head_Some_elem_of%list_elem_of_omap. rewrite Forall_forall in HD. by eapply HD.
Qed.

Lemma insert_optional_interns o : interns (insert_optional_str o) (λ _ _, True).
Proof.
  destruct o as [t|]; [|by apply interns_ret]. unfold insert_optional_str.
  eapply interns_bind; [apply insert_static_str_interns|apply named_is_mono|].
  intros i. by apply interns_ret.
Qed.

(** [insert_enum] after the directives of the definitions were composed. *)
Lemma insert_enum_adds c c0 dirs description :
  frame c c0 → ir_directives c0 = ir_directives c ++ dirs →
  composed sg (definition_sites defs) (ir_strings c0) dirs →
  ∃ c1, insert_enum (str sg name) description
          (if decide (dirs = []) then (0, 0) else (length (ir_directives c), length dirs)) c0 =
        Ret (length (ir_type_definitions c), c1) ∧ adds_enum name defs c c1 [] [].
Proof.
  intros (X0 & T0 & N0 & V0 & G0) D0 HC.
  destruct (insert_static_str_interns (str sg name) c0) as (i & c2 & E2 & (X2 & T2 & N2 & V2 & G2) & D2 & Hi).
  destruct (insert_optional_interns description c2) as (o & c3 & E3 & (X3 & T3 & N3 & V3 & G3) & D3 & _).
  eexists. split.
  { unfold insert_enum, mbind, M_bind. rewrite E2. simpl. rewrite E3. simpl. unfold push_enum_definition.
    rewrite T3, T2, T0, N3, N2, N0. reflexivity. }
  eexists (MkTypeDefinition i o _ TEnum), []. simpl. rewrite !app_nil_r.
  injection G0 as Q0 G0. injection G2 as Q2 G2. injection G3 as Q3 G3.
  split_and!; [done|done|by apply X3|done| |congruence|constructor|congruence|congruence].
  rewrite D3, D2, D0. split; simpl.
  - rewrite length_app. case_decide; simpl; lia.
  - eapply composed_mono; [by transitivity (ir_strings c2)|]. unfold slice. case_decide as Hd; simpl.
    + by subst.
    + by rewrite drop_app_length, firstn_all.
Qed.

#[local] Opaque mapM_res.
(** The part before the match on the usage, and the insertion of the enum. *)
Lemma merge_prefix c i o :
  enum_is_used_in_input sg name = Ret i → enum_is_used_in_return_position sg name = Ret o →
  ∃ c0 c1, frame c c0 ∧ adds_enum name defs c c1 [] [] ∧
    merge_enum_definitions sg first defs c =
      let enum_id := length (ir_type_definitions c) in
      match i, o with
      | true, false => merge_intersection sg first defs enum_id c1
      | false, true => merge_union sg defs enum_id c1
      | true, true => merge_exactly_matching sg first defs enum_id c1
      | false, false => Ret ((), c0)
      end.
Proof.
  intros Hi Ho. destruct definitions_return as (ds & Eds & Esites & Hsites & Hdesc).
  destruct (collect_composed_directives_returns sg (definition_sites defs) c Hsites)
    as (r & c0 & dirs & E0 & F0 & D0 & -> & HC).
  assert (resolves sg name) as Hname.
  { destruct (definition_ok _ _ Hok first) as (y & Hy & ? & _); [set_solver|]. unfold name. congruence. }
  set (description := str sg <$> head (omap definition_description ds)).
  destruct (insert_enum_adds c c0 dirs description F0 D0 HC) as (c1 & E1 & Hadds).
  exists c0, c1. split; [done|]. split; [done|].
  assert (definition sg first = Ret x) as Edef by (unfold definition; by rewrite Hx).
  unfold merge_enum_definitions, mbind, M_bind, lift. rewrite Edef. simpl.
  rewrite Eds. simpl. rewrite Esites, E0. simpl. unfold description in E1.
  destruct (head (omap definition_description ds)) as [t|];
    [rewrite (string_at_str sg t (Hdesc t eq_refl))|]; simpl;
    fold name; rewrite Hi; simpl; rewrite Ho; simpl; rewrite string_at_str by done;
    cbn [fmap option_fmap option_map] in E1; destruct i, o; simpl; rewrite ?E1; reflexivity.
Qed.

Lemma message_name : (d ← definition sg first; string_at sg (definition_name d)) = Ret (str sg name).
Proof.
  unfold definition. rewrite Hx. simpl. apply string_at_str.
  destruct (definition_ok _ _ Hok first) as (y & Hy & ? & _); [set_solver|].
  rewrite Hx in Hy. by injection Hy as <-.
Qed.

Lemma merge_intersection_adds c c1 :
  adds_enum name defs c c1 [] [] →
  let values := filter (λ v, Forall (λ d, v ∈ value_names sg d) defs) (value_names sg first) in
  ∃ c2, merge_intersection sg first defs (length (ir_type_definitions c)) c1 = Ret ((), c2) ∧
    adds_enum name defs c c2 ((λ v, (v, sites_of sg defs v)) <$> values)
      (if decide (values = []) then ["Values for enum " +:+ str sg name +:+ " are empty (intersection)"] else []).
Proof.
  intros Hadds values. unfold merge_intersection. rewrite intersection_spec. fold values. cbv zeta.
  assert (inserts sg (foldM (λ _, insert_value sg defs (length (ir_type_definitions c))) () values)
    (length (ir_type_definitions c)) ((λ v, (v, sites_of sg defs v)) <$> values)) as Hins.
  { apply (insert_values_inserts sg defs Hok _ first); [set_solver|]. intros v Hv.
    by apply list_elem_of_filter in Hv as [_ ?]. }
  case_decide as Hnil.
  - destruct (adds_enum_fatal name defs c c1 ("Values for enum " +:+ str sg name +:+ " are empty (intersection)") Hadds)
      as (c2 & E2 & Hadds2).
    erewrite ret_bind; [|rewrite (lift_bind _ _ _ _ message_name); exact E2]. by eapply adds_enum_inserts.
  - erewrite ret_bind by reflexivity. by eapply adds_enum_inserts.
Qed.

Lemma merge_union_adds c c1 :
  adds_enum name defs c c1 [] [] →
  ∃ c2 l, merge_union sg defs (length (ir_type_definitions c)) c1 = Ret ((), c2) ∧
    adds_enum name defs c c2 l [] ∧ StronglySorted lt l.*1 ∧
    (∀ v, v ∈ l.*1 ↔ ∃ d, d ∈ defs ∧ v ∈ value_names sg d) ∧
    Forall (λ p, p.2 ≡ₚ sites_of sg defs p.1) l.
Proof.
  intros Hadds. destruct (merge_union_inserts sg defs Hok (length (ir_type_definitions c))) as (l & Hins & ? & ? & ?).
  destruct (adds_enum_inserts name defs c c1 _ [] l Hadds Hins) as (c2 & ? & ?). by exists c2, l.
Qed.

Lemma merge_exactly_matching_adds c c1 :
  adds_enum name defs c c1 [] [] →
  let expected := value_names sg first in
  match merge_exactly_matching sg first defs (length (ir_type_definitions c)) c1 with
  | Ret (_, c2) =>
      (Forall (λ d, value_names sg d = expected) defs ∧
       adds_enum name defs c c2 ((λ v, (v, sites_of sg defs v)) <$> expected) []) ∨
      (first_mismatch expected defs (λ vs, ¬ strictly_extends expected vs) ∧
       adds_enum name defs c c2 []
         ["The enum " +:+ str sg name +:+ " should match exactly in all subgraphs, but it does not"])
  | Panic _ => first_mismatch expected defs (strictly_extends expected)
  end.
Proof.
  intros Hadds expected. unfold merge_exactly_matching. fold expected. cbv zeta.
  pose proof (all_match_spec sg expected defs) as Ham.
  destruct (all_match sg expected defs) as [[]|]; [rewrite (lift_bind _ _ _ _ eq_refl)..|]; simpl.
  - assert (inserts sg (foldM (λ _, insert_value sg defs (length (ir_type_definitions c))) () expected)
      (length (ir_type_definitions c)) ((λ v, (v, sites_of sg defs v)) <$> expected)) as Hins.
    { apply (insert_values_inserts sg defs Hok _ first); [set_solver|done]. }
    destruct (adds_enum_inserts name defs c c1 _ [] _ Hadds Hins) as (c2 & -> & ?). by left.
  - rewrite (lift_bind _ _ _ _ message_name).
    destruct (adds_enum_fatal name defs c c1
      ("The enum " +:+ str sg name +:+ " should match exactly in all subgraphs, but it does not") Hadds)
      as (c2 & -> & ?). right. split; [|done]. destruct Ham as (l1 & d & l2 & E & ? & ? & ?). by exists l1, d, l2.
  - destruct Ham as (l1 & d & l2 & E & ? & [??]). exists l1, d, l2. split_and!; [done..|congruence|done].
Qed.

(** The function panics only on an enum used in both positions. *)
Lemma merge_enum_definitions_panics c msg :
  merge_enum_definitions sg first defs c = Panic msg →
  used_in_input sg name ∧ used_in_return sg name ∧
  first_mismatch (value_names sg first) defs (strictly_extends (value_names sg first)).
Proof.
  intros Hp. destruct (enum_is_used_in_input_spec sg Hf name) as (i & Ei & Hi).
  destruct (any_field_spec sg Hf [DObject; DInterface] name) as (o & Eo & Ho).
  destruct (merge_prefix c i o Ei Eo) as (c0 & c1 & F0 & Hadds & E). rewrite E in Hp. cbv zeta in Hp.
  destruct i, o; [|destruct (merge_intersection_adds c c1 Hadds) as (? & E' & _); congruence
                  |destruct (merge_union_adds c c1 Hadds) as (? & ? & E' & _); congruence|done].
  pose proof (merge_exactly_matching_adds c c1 Hadds) as Hm. rewrite Hp in Hm.
  split_and!; [by apply Hi|by apply Ho|done].
Qed.

(** A used enum is inserted. *)
Lemma merge_enum_definitions_adds c c' :
  merge_enum_definitions sg first defs c = Ret ((), c') → used_in_input sg name ∨ used_in_return sg name →
  ∃ l msgs, adds_enum name defs c c' l msgs.
Proof.
  intros Hrun Hused. destruct (enum_is_used_in_input_spec sg Hf name) as (i & Ei & Hi).
  destruct (any_field_spec sg Hf [DObject; DInterface] name) as (o & Eo & Ho).
  change (o = true ↔ used_in_return sg name) in Ho.
  destruct (merge_prefix c i o Ei Eo) as (c0 & c1 & F0 & Hadds & E). rewrite E in Hrun. cbv zeta in Hrun.
  destruct i, o.
  - pose proof (merge_exactly_matching_adds c c1 Hadds) as Hm. rewrite Hrun in Hm. destruct Hm as [[_ ?]|[_ ?]]; eauto.
  - destruct (merge_intersection_adds c c1 Hadds) as (c2 & E' & ?). rewrite Hrun in E'. injection E' as <-. eauto.
  - destruct (merge_union_adds c c1 Hadds) as (c2 & l & E' & ? & _). rewrite Hrun in E'. injection E' as <-. eauto.
  - exfalso. destruct Hused as [Hu|Hu]; [by apply Hi in Hu|by apply Ho in Hu].
Qed.
End merge.

(** C35. Composing an enum that several subgraphs define. Unused, it is left
    out. Used only in input position, it gets the values all subgraphs share,
    and an empty intersection is a fatal error. Used only in return position,
    it gets the values of any subgraph, each once, in the order of the interned
    names. Used in both, it gets the values when they are the same in all
    subgraphs; otherwise the first subgraph that differs decides: the function
    panics if it has the values of the first and more after them, and reports
    a fatal error if not. Each value carries the composed directives of its
    sites. *)
Theorem merge_enum_definitions_spec (first : DefinitionId) (rest : list DefinitionId) (x : Definition_) c :
  let defs := first :: rest in
  let name := definition_name x in
  enums_ok sg defs → fields_ok sg → definitions sg !! first = Some x →
  let result := merge_enum_definitions sg first defs c in
  (¬ used_in_input sg name → ¬ used_in_return sg name → ∃ c', result = Ret ((), c') ∧ frame c c') ∧
  (used_in_input sg name → ¬ used_in_return sg name →
     let values := filter (λ v, Forall (λ d, v ∈ value_names sg d) defs) (value_names sg first) in
     ∃ c', result = Ret ((), c') ∧
       adds_enum name defs c c' ((λ v, (v, sites_of sg defs v)) <$> values)
         (if decide (values = []) then ["Values for enum " +:+ str sg name +:+ " are empty (intersection)"] else [])) ∧
  (¬ used_in_input sg name → used_in_return sg name →
     ∃ c' l, result = Ret ((), c') ∧ adds_enum name defs c c' l [] ∧ StronglySorted lt l.*1 ∧
       (∀ v, v ∈ l.*1 ↔ ∃ d, d ∈ defs ∧ v ∈ value_names sg d) ∧
       Forall (λ p, p.2 ≡ₚ sites_of sg defs p.1) l) ∧
  (used_in_input sg name → used_in_return sg name →
     match result with
     | Ret (_, c') =>
         (Forall (λ d, value_names sg d = value_names sg first) defs ∧
          adds_enum name defs c c' ((λ v, (v, sites_of sg defs v)) <$> value_names sg first) []) ∨
         (first_mismatch (value_names sg first) defs (λ vs, ¬ strictly_extends (value_names sg first) vs) ∧
          adds_enum name defs c c' []
            ["The enum " +:+ str sg name +:+ " should match exactly in all subgraphs, but it does not"])
     | Panic _ => first_mismatch (value_names sg first) defs (strictly_extends (value_names sg first))
     end).
Proof.
  intros defs name Hok Hf Hx result.
  destruct (enum_is_used_in_input_spec sg Hf name) as (i & Ei & Hi).
  destruct (any_field_spec sg Hf [DObject; DInterface] name) as (o & Eo & Ho).
  change (enum_is_used_in_return_position sg name = Ret o) in Eo.
  change (o = true ↔ used_in_return sg name) in Ho.
  destruct (merge_prefix first rest Hok Hf x Hx c i o Ei Eo) as (c0 & c1 & F0 & Hadds & E).
  unfold result. unfold defs in *. rewrite E. cbv zeta.
  split_and!; intros Hin Hout.
  - destruct i; [exfalso; by apply Hin, Hi|]. destruct o; [exfalso; by apply Hout, Ho|]. by exists c0.
  - apply Hi in Hin. destruct o; [exfalso; by apply Hout, Ho|]. subst i. by apply merge_intersection_adds.
  - destruct i; [exfalso; by apply Hin, Hi|]. apply Ho in Hout. subst o. by apply merge_union_adds.
  - apply Hi in Hin. apply Ho in Hout. subst i o. by apply merge_exactly_matching_adds.
Qed.

(** Composing the directives of the sites of a definition, field or value:
    the function returns, interns strings and appends directives and changes
    nothing else; what it appends is, read through the interned strings, the
    first [@deprecated], [@inaccessible] and [@authenticated] when some site has
    them, the distinct [@requiresScopes] and [@policy] lists, each tag once and
    the other composed directives; and the range it returns is exactly where
    they are, the empty range when there are none. *)
Theorem collect_composed_directives_spec sites c :
  Forall (site_ok sg) sites →
  ∃ range c' ds, collect_composed_directives sg sites c = Ret (range, c') ∧ frame c c' ∧
    ir_directives c' = ir_directives c ++ ds ∧
    range = (if decide (ds = []) then (0, 0) else (length (ir_directives c), length ds)) ∧
    composed sg sites (ir_strings c') ds.
Proof. apply collect_composed_directives_returns. Qed.
End claims.

(** ** Enum composition on concrete subgraphs *)

(** ** Checkers for the hypotheses *)
Section checkers.
Context `{IndexSetLaws} (sg : Subgraphs).

Definition resolvesb (id : StringId) : bool := bool_decide (is_Some (get_index (strings (store sg)) id)).
Definition site_okb (site : DirectiveSiteId) : bool :=
  match deprecated sg site with Some (Some r) => resolvesb r | _ => true end
  && forallb (forallb resolvesb) (requires_scopes sg site)
  && forallb (forallb resolvesb) (policies sg site)
  && forallb (λ e, resolvesb e.1 && forallb (λ a, resolvesb a.1) e.2) (iter_composed_directives sg site).
Definition definition_okb (d : DefinitionId) : bool :=
  match definitions sg !! d with
  | Some x => resolvesb (definition_name x) && site_okb (definition_directives x)
              && match definition_description x with Some t => resolvesb t | None => true end
  | None => false
  end.
Definition enums_okb (defs : list DefinitionId) : bool :=
  forallb definition_okb defs
  && forallb (λ e, resolvesb e.1.2 && site_okb e.2 && (N.of_nat e.1.2 <? usize_max)%N) (map_to_list (enums sg)).
Definition tuple_okb (t : FieldTuple) : bool :=
  bool_decide (is_Some (get_index (inner_types (store sg)) (tuple_type t))).
Definition fields_okb : bool :=
  forallb (λ e, bool_decide (is_Some (definitions sg !! e.1.1)) && tuple_okb e.2) (map_to_list (definition_fields sg))
  && forallb (λ e, tuple_okb e.2) (map_to_list (field_arguments sg)).

Lemma forallb_elem {A} (f : A → bool) l x : forallb f l = true → x ∈ l → f x = true.
Proof. rewrite forallb_forall. intros Hf Hx. apply Hf. by apply list_elem_of_In. Qed.
Lemma resolvesb_true id : resolvesb id = true → resolves sg id.
Proof. apply bool_decide_eq_true_1. Qed.
Lemma resolvesb_list l : forallb resolvesb l = true → Forall (resolves sg) l.
Proof. intros Hl. apply Forall_forall. intros x Hx. eapply resolvesb_true, forallb_elem; eauto. Qed.

Lemma site_okb_true site : site_okb site = true → site_ok sg site.
Proof.
  unfold site_okb. rewrite !andb_true_iff. intros (((Hd & Hs) & Hp) & Ho). split_and!.
  - intros r E. rewrite E in Hd. by apply resolvesb_true.
  - intros l Hl. apply resolvesb_list. exact (forallb_elem _ _ l Hs Hl).
  - intros l Hl. apply resolvesb_list. exact (forallb_elem _ _ l Hp Hl).
  - intros e He. eapply forallb_elem in Ho; [|exact He]. apply andb_true_iff in Ho as [Hn Ha].
    split; [by apply resolvesb_true|]. apply Forall_forall. intros a Hin. apply resolvesb_true.
    exact (forallb_elem (λ a, resolvesb a.1) e.2 a Ha Hin).
Qed.
Lemma enums_okb_true defs : enums_okb defs = true → enums_ok sg defs.
Proof.
  unfold enums_okb. intros [Hd Hv]%andb_true_iff. split.
  - intros d Hin. eapply forallb_elem in Hd; [|exact Hin]. unfold definition_okb in Hd.
    destruct (definitions sg !! d) as [x|]; [|done]. exists x. rewrite !andb_true_iff in Hd.
    destruct Hd as ((Hn & Hs) & Ht). split_and!; [done|by apply resolvesb_true|by apply site_okb_true|].
    intros t E. rewrite E in Ht. by apply resolvesb_true.
  - intros d v site _ Hin%elem_of_map_to_list. eapply forallb_elem in Hv; [|exact Hin].
    rewrite !andb_true_iff in Hv. destruct Hv as ((Hr & Hs) & Hlt).
    split_and!; [by apply resolvesb_true|by apply site_okb_true|by apply N.ltb_lt].
Qed.
Lemma fields_okb_true : fields_okb = true → fields_ok sg.
Proof.
  unfold fields_okb. intros [Hd Ha]%andb_true_iff. split.
  - intros p n t Hin%elem_of_map_to_list. eapply forallb_elem in Hd; [|exact Hin].
    apply andb_true_iff in Hd as [H1 H2]. by split; eapply bool_decide_eq_true_1.
  - intros a t Hin%elem_of_map_to_list. eapply forallb_elem in Ha; [|exact Hin].
    by eapply bool_decide_eq_true_1.
Qed.
End checkers.

#[local] Existing Instance list_index_set.
#[local] Existing Instance list_index_set_laws.

(** ** Two subgraphs with an enum [Color] *)

(** A value without directives: its name is interned and it gets a new site. *)
Definition add_value (id : DefinitionId) (sg : Subgraphs) (value : string) : Subgraphs :=
  let '(name, sg) := intern_string value sg in
  let '(site, sg) := new_directive_site sg in
  push_enum_value id name site sg.
Definition add_color (subgraph : SubgraphId) (values : list string) (sg : Subgraphs) : DefinitionId * Subgraphs :=
  let '(site, sg) := new_directive_site sg in
  let '(id, sg) := push_definition subgraph "Color" DEnum None site sg in
  (id, foldl (add_value id) sg values).

(** An object [Query] with a field [color: Color], which takes a [Color] if
    [with_argument]. *)
Definition add_query (with_argument : bool) (sg : Subgraphs) : Subgraphs :=
  let '(site, sg) := new_directive_site sg in
  let '(id, sg) := push_definition 0 "Query" DObject None site sg in
  let '(ty, st) := intern_field_type (ANamed "Color" true) (store sg) in
  let sg := with_store sg st in
  let tuple := MkFieldTuple ty None site in
  let '(field, sg) := push_field id "color" tuple None sg in
  if with_argument then insert_field_argument field 0 tuple None sg else sg.

Definition two_colors (with_argument : bool) (v1 v2 : list string) : Subgraphs :=
  add_query with_argument (add_color 1 v2 (add_color 0 v1 Subgraphs_default).2).2.

(** The names of the composed values and the diagnostics. *)
Definition composed_values (r : res (unit * Ctx)) : res (list string * list string) :=
  '(_, c) ← r;
  Ret (omap (λ ev, get_index (ir_strings c) (ev_value ev)) (ir_enum_values c), diagnostics c).

Example union_case :
  composed_values (merge_enum_definitions (two_colors false ["RED"] ["GREEN"; "RED"]) 0 [0; 1] Ctx_empty) =
  Ret (["RED"; "GREEN"], []).
Proof. vm_compute. reflexivity. Qed.

(** An enum used in input and in return position to which the second subgraph
    adds a value: [is_slice_match] indexes past the end and composition panics;
    when the first subgraph has the additional value, the mismatch is reported. *)
Theorem enum_exact_match_panics :
  is_panic (merge_enum_definitions (two_colors true ["RED"] ["RED"; "GREEN"]) 0 [0; 1] Ctx_empty) = true ∧
  composed_values (merge_enum_definitions (two_colors true ["RED"; "GREEN"] ["RED"]) 0 [0; 1] Ctx_empty) =
  Ret ([], ["The enum Color should match exactly in all subgraphs, but it does not"]).
Proof. vm_compute. split; reflexivity. Qed.

Definition color_definition : Definition_ := MkDefinition 0 5 DEnum None 0.

Lemma merge_enum_definitions_spec_witness :
  let sg := two_colors true ["RED"] ["RED"; "GREEN"] in
  used_in_input sg 5 ∧ used_in_return sg 5 ∧
  match merge_enum_definitions sg 0 [0; 1] Ctx_empty with
  | Ret _ => False
  | Panic _ => first_mismatch sg (value_names sg 0) [0; 1] (strictly_extends (value_names sg 0))
  end.
Proof.
  intros sg.
  assert (enums_ok sg [0; 1]) as Hok by (apply enums_okb_true; vm_compute; reflexivity).
  assert (fields_ok sg) as Hf by (apply fields_okb_true; vm_compute; reflexivity).
  assert (used_in_input sg 5) as Hi.
  { left. exists (2, 9, 0), (MkFieldTuple 0 None 5). split; [vm_compute; reflexivity|].
    exists (MkInner 5 None false). split; vm_compute; reflexivity. }
  assert (used_in_return sg 5) as Ho.
  { exists 2, 9, (MkFieldTuple 0 None 5), (MkDefinition 0 8 DObject None 5).
    split; [vm_compute; reflexivity|]. split; [vm_compute; reflexivity|]. split; [constructor|].
    exists (MkInner 5 None false). split; vm_compute; reflexivity. }
  split; [exact Hi|]. split; [exact Ho|].
  destruct (merge_enum_definitions_spec sg 0 [1] color_definition Ctx_empty Hok Hf) as (_ & _ & _ & Hboth);
    [vm_compute; reflexivity|].
  pose proof (Hboth Hi Ho) as Hr.
  destruct (merge_enum_definitions sg 0 [0; 1] Ctx_empty) as [r|msg] eqn:E; [|exact Hr].
  exfalso. assert (is_panic (merge_enum_definitions sg 0 [0; 1] Ctx_empty) = true) as Hp by (vm_compute; reflexivity).
  rewrite E in Hp. discriminate Hp.
Defined.

(** Two sites: the first deprecated and tagged, the second inaccessible, with
    the same tag and a custom directive. *)
Definition tagged_sites : Subgraphs :=
  insert_composed_directive_instance 1 "custom" [(0, VBoolean true)]
    (set_inaccessible 1 (insert_tag 1 "b" (insert_tag 0 "a" (insert_tag 0 "b"
      (insert_deprecated 0 (Some "old") (new_directive_site (new_directive_site Subgraphs_default).2).2))))).

Lemma collect_composed_directives_spec_witness :
  (length <$> (ir_directives <$> (snd <$> collect_composed_directives tagged_sites [0; 1] Ctx_empty))) = Ret 5 ∧
  ∃ range c' ds, collect_composed_directives tagged_sites [0; 1] Ctx_empty = Ret (range, c') ∧
    frame Ctx_empty c' ∧ ir_directives c' = ir_directives Ctx_empty ++ ds ∧
    range = (if decide (ds = []) then (0, 0) else (length (ir_directives Ctx_empty), length ds)) ∧
    composed tagged_sites [0; 1] (ir_strings c') ds.
Proof.
  split; [vm_compute; reflexivity|].
  apply (collect_composed_directives_spec tagged_sites [0; 1] Ctx_empty).
  apply Forall_cons; split; [|apply Forall_cons; split; [|apply Forall_nil; exact I]];
    apply site_okb_true; vm_compute; reflexivity.
Defined.
