(* ===== verification/GraphRef.v ===== *)
(** * Graph references: graph-ref/src/lib.rs

    [GraphRef] is the [graph@branch#version] reference the CLI accepts. The
    parser ([FromStr]) is modelled with its error values, the printer
    ([Display]) as the string it writes. The theorems are the two round trips
    and the exact set of rejected inputs with their messages. *)
From Stdlib Require Import Ascii.
From S2P Require Import Prelude RustStd.

Local Open Scope string_scope.
Local Open Scope list_scope.
Local Open Scope nat_scope.

Inductive GraphRef : Type :=
| LatestProductionVersion (graph_slug : string)
| LatestVersion (graph_slug branch_name : string)
| Id (graph_slug branch_name version : string).

Global Instance GraphRef_eq_dec : EqDecision GraphRef.
Proof. solve_decision. Defined.

Definition new (graph_slug branch_name version : string) : GraphRef :=
  Id graph_slug branch_name version.
Definition latest_production_version (graph_slug : string) : GraphRef :=
  LatestProductionVersion graph_slug.
Definition latest_version (graph_slug branch_name : string) : GraphRef :=
  LatestVersion graph_slug branch_name.

Definition slug (self : GraphRef) : string :=
  match self with
  | LatestProductionVersion graph_slug => graph_slug
  | LatestVersion graph_slug _ => graph_slug
  | Id graph_slug _ _ => graph_slug
  end.
Definition branch (self : GraphRef) : option string :=
  match self with
  | LatestProductionVersion _ => None
  | LatestVersion _ branch_name => Some branch_name
  | Id _ branch_name _ => Some branch_name
  end.
Definition version (self : GraphRef) : option string :=
  match self with
  | LatestProductionVersion _ => None
  | LatestVersion _ _ => None
  | Id _ _ version => Some version
  end.

(** [str::contains(char)]. *)
Definition contains (c : ascii) (s : string) : bool := negb (no_char c s).

(** The [match] that opens [from_str], before any check. *)
Definition from_str_raw (s : string) : GraphRef :=
  match split_once "@"%char s with
  | Some (graph_slug, rest) =>
      match split_once "#"%char rest with
      | Some (branch_name, version) => Id graph_slug branch_name version
      | None => LatestVersion graph_slug rest
      end
  | None => LatestProductionVersion s
  end.


(** The labelled block ['split]. *)
Definition did_you_mean (graph : GraphRef) : string :=
  match split_once "/"%char (slug graph) with
  | None => ""
  | Some (_, graph_slug) =>
      if is_empty graph_slug then ""
      else
        let branch_name := default "" ((λ branch, "@" +:+ branch) <$> branch graph) in
        let version := default "" ((λ version, "#" +:+ version) <$> version graph) in
        " Did you mean: " +:+ String dquote (graph_slug +:+ branch_name +:+ version)
          +:+ String dquote ""
  end.

(** [FromStr::from_str]: [inr] is [Ok], [inl] is [Err]. *)
Definition from_str (s : string) : string + GraphRef :=
  let graph := from_str_raw s in
  if is_empty (slug graph) then inl "The graph name is missing."
  else if contains "/"%char (slug graph) then
    inl ("Graph ref should not contain an account name." +:+ did_you_mean graph)
  else inr graph.

(** [Display::fmt], the string written to the formatter. *)
Definition to_string (self : GraphRef) : string :=
  slug self
  +:+ match branch self with Some branch => "@" +:+ branch | None => "" end
  +:+ match version self with Some version => "#" +:+ version | None => "" end.

(** ** Lemmas *)
Lemma split_once_None c s : split_once c s = None ↔ no_char c s = true.
Proof.
  induction s as [|a s IH]; simpl; [done|]. case_decide as Ha.
  - subst. rewrite bool_decide_eq_false_2 by naive_solver. naive_solver.
  - rewrite bool_decide_eq_true_2 by done. simpl. rewrite <-IH.
    destruct (split_once c s); naive_solver.
Qed.

(** What [split_once] returns when it finds the separator. *)
Lemma split_once_Some c s a b :
  split_once c s = Some (a, b) → s = a +:+ String c b ∧ no_char c a = true.
Proof.
  revert a b. induction s as [|x s IH]; intros a b; simpl; [done|]. case_decide as Hx.
  - intros [= <- <-]. by subst.
  - destruct (split_once c s) as [[a' b']|]; [|done]. simpl. intros [= <- <-].
    destruct (IH a' b' eq_refl) as [-> ?]. split; [done|]. simpl.
    by rewrite bool_decide_eq_true_2.
Qed.

(** The values that have a textual form: the separators of the grammar do not
    occur inside the components before them. *)
Definition well_formed (g : GraphRef) : bool :=
  no_char "@"%char (slug g)
  && match branch g with Some b => no_char "#"%char b | None => true end.

(** The values [from_str] accepts. *)
Definition accepted (g : GraphRef) : bool :=
  well_formed g && negb (is_empty (slug g)) && no_char "/"%char (slug g).

Lemma from_str_raw_print s : to_string (from_str_raw s) = s ∧ well_formed (from_str_raw s) = true.
Proof.
  unfold from_str_raw, to_string, well_formed.
  destruct (split_once "@"%char s) as [[a r]|] eqn:E1; simpl.
  - apply split_once_Some in E1 as [-> Ha].
    destruct (split_once "#"%char r) as [[b v]|] eqn:E2; simpl; rewrite Ha; simpl.
    + apply split_once_Some in E2 as [-> Hb]. by rewrite Hb.
    + apply split_once_None in E2. by rewrite E2, !append_nil.
  - apply split_once_None in E1. by rewrite E1, !append_nil.
Qed.

Lemma from_str_raw_parse g : well_formed g = true → from_str_raw (to_string g) = g.
Proof.
  unfold well_formed, from_str_raw, to_string. intros [Hs Hb]%andb_true_iff.
  destruct g as [a|a b|a b v]; simpl in *.
  - rewrite !append_nil. by apply split_once_None in Hs as ->.
  - rewrite append_nil. change ("@" +:+ b) with (String "@"%char b).
    rewrite split_once_app by done. by apply split_once_None in Hb as ->.
  - change (("@" +:+ b) +:+ "#" +:+ v) with (String "@"%char (b +:+ String "#"%char v)).
    by rewrite split_once_app, split_once_app.
Qed.

(** Replacing the graph slug, as the error message suggests. *)
Definition with_slug (b : string) (g : GraphRef) : GraphRef :=
  match g with
  | LatestProductionVersion _ => LatestProductionVersion b
  | LatestVersion _ br => LatestVersion b br
  | Id _ br v => Id b br v
  end.

Lemma no_char_app c a b : no_char c (a +:+ b) = no_char c a && no_char c b.
Proof.
  induction a as [|x a IH]; [done|].
  change (no_char c (String x (a +:+ b)) = no_char c (String x a) && no_char c b). simpl.
  by rewrite IH, andb_assoc.
Qed.

Lemma did_you_mean_spec g a b :
  slug g = a +:+ String "/"%char b → no_char "/"%char a = true →
  did_you_mean g =
    if is_empty b then ""
    else " Did you mean: " +:+ String dquote (to_string (with_slug b g)) +:+ String dquote "".
Proof.
  intros Hs Ha. unfold did_you_mean. rewrite Hs, split_once_app by done.
  by destruct g.
Qed.

(** ** Claims *)

(** [from_str] accepts a string as the reference [g] exactly when
    [g] prints as that string, its slug is non-empty and free of [@] and [/],
    and its branch is free of [#]. So printing what was parsed gives the input
    back, parsing what was printed gives the reference back, and no two
    accepted references share a textual form. *)
Theorem graph_ref_roundtrip s g :
  from_str s = inr g ↔ to_string g = s ∧ accepted g = true.
Proof.
  unfold from_str, accepted, contains. split.
  - destruct (from_str_raw_print s) as [Hp Hw].
    destruct (is_empty _) eqn:He; [done|]. destruct (no_char "/"%char _) eqn:Hc; simpl; [|done].
    intros [= <-]. by rewrite Hp, Hw, He, Hc.
  - intros (<- & ((Hw & He)%andb_true_iff & Hc)%andb_true_iff).
    rewrite from_str_raw_parse by done.
    apply negb_true_iff in He. by rewrite He, Hc.
Qed.

(** Every rejection: a reference whose slug carries an account prefix
    [a/b] is refused with the message that proposes the same reference without
    the prefix (no proposal when [b] is empty), and the proposal, when its slug
    has no further slash, is itself accepted and denotes the same branch and
    version; the only other rejected inputs are those with an empty slug. *)
Theorem graph_ref_errors s m :
  from_str s = inl m →
  (slug (from_str_raw s) = "" ∧ m = "The graph name is missing.") ∨
  ∃ a b, slug (from_str_raw s) = a +:+ String "/"%char b ∧ no_char "/"%char a = true ∧
    let g := with_slug b (from_str_raw s) in
    m = "Graph ref should not contain an account name." +:+
        (if is_empty b then ""
         else " Did you mean: " +:+ String dquote (to_string g) +:+ String dquote "") ∧
    (b ≠ "" → no_char "/"%char b = true → from_str (to_string g) = inr g).
Proof.
  destruct (from_str_raw_print s) as [_ Hw]. unfold from_str at 1, contains.
  destruct (is_empty _) eqn:He.
  { apply bool_decide_eq_true_1 in He. intros [= <-]. by left. }
  destruct (no_char "/"%char _) eqn:Hc; simpl; [done|]. intros [= <-]. right.
  destruct (split_once "/"%char (slug (from_str_raw s))) as [[a b]|] eqn:E;
    [|apply split_once_None in E; congruence].
  apply split_once_Some in E as [Hs Ha]. exists a, b. split_and!; try done.
  { by erewrite did_you_mean_spec. }
  intros Hb Hbc. apply andb_true_iff in Hw as [H1 H2]. rewrite Hs, no_char_app in H1.
  apply andb_true_iff in H1 as [_ H1]. simpl in H1.
  assert (slug (with_slug b (from_str_raw s)) = b) as Hsl by (by destruct (from_str_raw s)).
  assert (branch (with_slug b (from_str_raw s)) = branch (from_str_raw s)) as Hbr
    by (by destruct (from_str_raw s)).
  unfold from_str, contains. rewrite from_str_raw_parse, Hsl, Hbc.
  - unfold is_empty. by rewrite bool_decide_eq_false_2.
  - unfold well_formed. by rewrite Hsl, Hbr, H1, H2.
Qed.

(** The test [account_name_not_allowed] of the crate. *)
Lemma graph_ref_errors_witness :
  let m := "Graph ref should not contain an account name. Did you mean: "
             +:+ String dquote ("bell@main" +:+ String dquote "") in
  from_str "cow/bell@main" = inl m ∧
  ((slug (from_str_raw "cow/bell@main") = "" ∧ m = "The graph name is missing.") ∨
   ∃ a b, slug (from_str_raw "cow/bell@main") = a +:+ String "/"%char b ∧
     no_char "/"%char a = true ∧
     let g := with_slug b (from_str_raw "cow/bell@main") in
     m = "Graph ref should not contain an account name." +:+
         (if is_empty b then ""
          else " Did you mean: " +:+ String dquote (to_string g) +:+ String dquote "") ∧
     (b ≠ "" → no_char "/"%char b = true → from_str (to_string g) = inr g)).
Proof.
  intros m. assert (from_str "cow/bell@main" = inl m) as E by (vm_compute; reflexivity).
  split; [exact E|]. exact (graph_ref_errors "cow/bell@main" m E).
Defined.
