(* ===== verification/IdNewtypes.v ===== *)
(** * Ids of the engine's arenas: id-derives and id-newtypes

    The engine keeps its schema, operations and responses in arenas indexed by
    newtyped ids. [IdOps] is the pair of conversions every id type provides
    ([From<usize>], which can panic, and [usize: From<Id>]); [IdLaws] is what
    the collections rely on. The derive macro of
    engine/crates/engine-v2/id-derives/src/id.rs discharges the laws for an id
    over [NonZero] of a [w]-bit integer. Against the interface we model
    [IdRange] with its double-ended iterator and [IdToMany] with its value
    iterator (engine/crates/engine-v2/id-newtypes/src). [usize] is a 64-bit
    integer whose additions and subtractions wrap, as in the release profile. *)
From stdpp Require Import list_numbers.
From S2P Require Import Prelude RustStd.

Local Open Scope string_scope.
Local Open Scope list_scope.
Local Open Scope Z_scope.

(** ** [usize] *)
Definition usize_bits : Z := 64.
Definition uadd (a b : Z) : Z := wrap usize_bits (a + b).
Definition usub (a b : Z) : Z := wrap usize_bits (a - b).

Lemma uadd_small a b : 0 ≤ a → 0 ≤ b → a + b < 2 ^ 64 → uadd a b = a + b.
Proof. intros. unfold uadd, wrap, usize_bits. apply Z.mod_small. lia. Qed.
Lemma usub_small a b : 0 ≤ b ≤ a → a < 2 ^ 64 → usub a b = a - b.
Proof. intros. unfold usub, wrap, usize_bits. apply Z.mod_small. lia. Qed.

(** ** The interface of an id type *)
Class IdOps (Id : Type) := {
  from_usize : Z → res Id;
  to_usize : Id → Z;
}.

(** The [valid] values of the type (the ones its private constructor makes) are
    the numbers below [bound]; the conversion panics on the rest. *)
Class IdLaws (Id : Type) `{IdOps Id} (bound : Z) (valid : Id → Prop) : Prop := {
  bound_usize : 0 < bound < 2 ^ 64;
  to_usize_range : ∀ id : Id, valid id → 0 ≤ to_usize id < bound;
  from_to_usize : ∀ id : Id, valid id → from_usize (to_usize id) = Ret id;
  to_from_usize : ∀ v, 0 ≤ v < bound →
    ∃ id : Id, from_usize v = Ret id ∧ to_usize id = v ∧ valid id;
  from_usize_panics : ∀ v, bound ≤ v < 2 ^ 64 → is_panic (from_usize (Id:=Id) v) = true;
}.

(** ** [derive(Id)]: a newtype over [NonZero<uw>] *)
Record DerivedId (w : Z) (max : option Z) : Type := mk_id {
  get_inner : Z;
}.
Global Arguments mk_id {w max} _.
Global Arguments get_inner {w max} _.

(** [NonZero::try_from(uw)] followed by [expect]. *)
Definition try_non_zero (msg : string) (v : Z) : res Z :=
  if decide (v = 0) then Panic msg else Ret v.

(** The [assert!] that [build_max_check] emits for [#[max(..)]]. *)
Definition max_check (max : option Z) (value : Z) : res unit :=
  match max with
  | None => Ret ()
  | Some m => if decide (value ≤ m) then Ret () else Panic "id exceeds maximum"
  end.

(** The emitted [impl From<usize>]: [value + 1] is a [w]-bit addition. *)
Definition derived_from_usize (w : Z) (max : option Z) (value : Z) : res (DerivedId w max) :=
  value ← (if decide (value < 2 ^ w) then Ret value else Panic "Too big");
  _ ← max_check max value;
  inner ← try_non_zero "Too many ids" (wrap w (value + 1));
  Ret (mk_id inner).

(** The emitted [impl From<Id> for usize]: [(id.0.get() - 1) as usize]. *)
Definition derived_to_usize {w max} (id : DerivedId w max) : Z := wrap w (get_inner id - 1).

(** The values the type can hold: a [NonZero<uw>] that passed the check. *)
Definition derived_bound (w : Z) (max : option Z) : Z :=
  match max with
  | None => 2 ^ w - 1
  | Some m => Z.min (m + 1) (2 ^ w - 1)
  end.

Global Instance derived_id_ops w max : IdOps (DerivedId w max) := {
  from_usize := derived_from_usize w max;
  to_usize := derived_to_usize;
}.
Definition derived_valid {w max} (id : DerivedId w max) : Prop :=
  1 ≤ get_inner id ≤ derived_bound w max.

(** ** [IdRange] *)
Record IdRange (Id : Type) : Type := mk_range { start : Id; end_ : Id }.
Global Arguments mk_range {Id} _ _.
Global Arguments start {Id} _.
Global Arguments end_ {Id} _.

Section id_range.
Context {Id : Type} `{IdOps Id}.
Implicit Types (r : IdRange Id) (id : Id).

Definition empty : res (IdRange Id) :=
  s ← from_usize 0; e ← from_usize 0; Ret (mk_range s e).

Definition len r : Z := usub (to_usize (end_ r)) (to_usize (start r)).
Definition range_is_empty r : bool := bool_decide (len r = 0).

Definition get r (i : Z) : res (option Id) :=
  let i := uadd (to_usize (start r)) i in
  if decide (i < to_usize (end_ r)) then id ← from_usize i; Ret (Some id) else Ret None.

Definition index_of r (id : Id) : option Z :=
  let id := to_usize id in
  let start := to_usize (start r) in
  if decide (start ≤ id ∧ id < to_usize (end_ r)) then Some (usub id start) else None.

(** [from_src] is the [Id: From<Src>] of the caller's start. *)
Definition from_start_and_length {Src} (from_src : Src → res Id) (start : Src) (len : Z)
    : res (IdRange Id) :=
  start ← from_src start;
  e ← from_usize (uadd (to_usize start) len);
  Ret (mk_range start e).

Definition from_single (id : Id) : res (IdRange Id) :=
  e ← from_usize (uadd (to_usize id) 1); Ret (mk_range id e).

(** The [for] loop of [from_slice]: [None] is its early return. *)
Fixpoint from_slice_loop (end_ : Z) (ids : list Id) : option Z :=
  match ids with
  | [] => Some end_
  | id :: ids =>
      if decide (to_usize id ≠ uadd end_ 1) then None
      else from_slice_loop (uadd end_ 1) ids
  end.
Definition from_slice (ids : list Id) : res (option (IdRange Id)) :=
  match ids with
  | [] => r ← empty; Ret (Some r)
  | first :: ids =>
      match from_slice_loop (to_usize first) ids with
      | None => Ret None
      | Some end_ => e ← from_usize (uadd end_ 1); Ret (Some (mk_range first e))
      end
  end.

(** [IdRangeIterator]: [next], [next_back] and [size_hint] on the range left. *)
Definition next r : res (option Id * IdRange Id) :=
  if negb (range_is_empty r) then
    let id := start r in
    s ← from_usize (uadd (to_usize id) 1);
    Ret (Some id, mk_range s (end_ r))
  else Ret (None, r).
Definition next_back r : res (option Id * IdRange Id) :=
  if negb (range_is_empty r) then
    e ← from_usize (usub (to_usize (end_ r)) 1);
    Ret (Some e, mk_range (start r) e)
  else Ret (None, r).
Definition size_hint r : Z * option Z := let n := len r in (n, Some n).
End id_range.

(** A caller's interleaving of the two ends of the iterator. *)
Inductive End := Front | Back.

Section traces.
Context {Id : Type} `{IdOps Id}.

Definition step_iter (e : End) (r : IdRange Id) : res (option Id * IdRange Id) :=
  match e with Front => next r | Back => next_back r end.
Fixpoint run_iter (es : list End) (r : IdRange Id) : res (list (option Id) * IdRange Id) :=
  match es with
  | [] => Ret ([], r)
  | e :: es =>
      p ← step_iter e r;
      q ← run_iter es p.2;
      Ret (p.1 :: q.1, q.2)
  end.
End traces.

(** The abstract iterator: a double-ended queue. *)
Definition step_deque {A} (e : End) (l : list A) : option A * list A :=
  match e with Front => (head l, tail l) | Back => (last l, take (pred (length l)) l) end.
Fixpoint run_deque {A} (es : list End) (l : list A) : list (option A) * list A :=
  match es with
  | [] => ([], l)
  | e :: es => let p := step_deque e l in let q := run_deque es p.2 in (p.1 :: q.1, q.2)
  end.

(** ** [IdToMany] *)
Section id_to_many.
Context {Id V : Type} `{Ord Id}.

(** [From<Vec<(Id, V)>>]: [sort_unstable_by_key] leaves the order of the
    entries with equal keys open, so the result is a relation. *)
Definition is_id_to_many (relations sorted : list (Id * V)) : Prop :=
  sorted ≡ₚ relations ∧ sorted_by fst sorted.

(** [ids]. *)
Definition ids (self : list (Id * V)) : list Id := self.*1.

(** [ValueIterator], its state the index into the relations. *)
Definition value_next (relations : list (Id * V)) (id : Id) (idx : nat) : option V * nat :=
  match relations !! idx with
  | None => (None, idx)
  | Some (key, value) => if eqb key id then (Some value, S idx) else (None, idx)
  end.
Fixpoint value_collect (fuel : nat) relations id idx : list V :=
  match fuel with
  | O => []
  | S fuel =>
      match value_next relations id idx with
      | (Some v, idx) => v :: value_collect fuel relations id idx
      | (None, _) => []
      end
  end.
Definition find_all (relations : list (Id * V)) (id : Id) : nat :=
  partition_point (λ probe, ltb probe.1 id) relations.
End id_to_many.

(** ** The derive macro discharges the interface *)
Global Instance derived_id_laws w max :
  1 < w ≤ 64 → (∀ m, max = Some m → 0 ≤ m) →
  IdLaws (DerivedId w max) (derived_bound w max) derived_valid.
Proof.
  intros Hw Hm.
  assert (2 ^ 2 ≤ 2 ^ w) by (apply Z.pow_le_mono_r; lia).
  assert (2 ^ w ≤ 2 ^ 64) by (apply Z.pow_le_mono_r; lia).
  assert (0 < derived_bound w max ≤ 2 ^ w - 1) as Hb
    by (destruct max as [m|]; simpl in *; [specialize (Hm m eq_refl)|]; lia).
  assert (∀ v, 0 ≤ v < derived_bound w max → derived_from_usize w max v = Ret (mk_id (v + 1))) as Hf.
  { intros v Hv. unfold derived_from_usize. rewrite decide_True by lia. simpl.
    assert (max_check max v = Ret ()) as ->.
    { unfold max_check. destruct max; [|done]. rewrite decide_True; [done|]. simpl in *. lia. }
    simpl. unfold wrap. rewrite Z.mod_small by lia.
    unfold try_non_zero. by rewrite decide_False by lia. }
  assert (∀ id : DerivedId w max, derived_valid id → derived_to_usize id = get_inner id - 1) as Ht.
  { intros id Hv. unfold derived_valid, derived_to_usize, wrap in *. rewrite Z.mod_small; lia. }
  split.
  - lia.
  - intros id Hv. simpl. rewrite Ht by done. unfold derived_valid in Hv. lia.
  - intros [i] Hv. simpl. rewrite Ht by done. unfold derived_valid in Hv. simpl in *.
    rewrite Hf by lia. do 2 f_equal. lia.
  - intros v Hv. exists (mk_id (v + 1)). simpl. rewrite Hf by lia.
    assert (derived_valid (w:=w) (max:=max) (mk_id (v + 1))) by (unfold derived_valid; simpl; lia).
    rewrite Ht by done. simpl. split_and!; [done|lia|done].
  - intros v Hv. simpl. unfold derived_from_usize.
    case_decide; [simpl|done].
    destruct (max_check max v) eqn:E; simpl; [|done].
    assert (v = 2 ^ w - 1) as ->.
    { unfold max_check in E. destruct max; simpl in *; [case_decide|]; simplify_eq; lia. }
    unfold wrap, try_non_zero. replace (2 ^ w - 1 + 1) with (2 ^ w) by lia.
    by rewrite Z.mod_same, decide_True by lia.
Qed.

(** ** Ranges *)
Section range_theory.
Context {Id : Type} `{IdLaws Id bound valid}.
Implicit Types (r : IdRange Id) (id : Id).

(** A range of valid ids whose start does not exceed its end. *)
Definition range_wf r : Prop :=
  valid (start r) ∧ valid (end_ r) ∧ to_usize (start r) ≤ to_usize (end_ r).

(** The ids of a range, as numbers: [seqZ m n] is [m, m+1, .., m+n-1]. *)
Definition elems r : list Z := seqZ (to_usize (start r)) (to_usize (end_ r) - to_usize (start r)).

Lemma to_usize_inj id1 id2 : valid id1 → valid id2 → to_usize id1 = to_usize id2 → id1 = id2.
Proof.
  intros H1 H2 E. pose proof (from_to_usize (bound:=bound) id1 H1) as E1.
  rewrite E, (from_to_usize (bound:=bound) id2 H2) in E1. congruence.
Qed.

Lemma range_bounds r : range_wf r →
  0 ≤ to_usize (start r) ≤ to_usize (end_ r) ∧ to_usize (end_ r) < bound ∧ bound < 2 ^ 64.
Proof.
  intros (Hs & He & Hle). pose proof (bound_usize (IdLaws:=_)) as Hb.
  apply to_usize_range in Hs, He. lia.
Qed.

Lemma len_spec r : range_wf r → len r = Z.of_nat (length (elems r)).
Proof.
  intros Hwf. pose proof (range_bounds r Hwf). unfold len, elems.
  rewrite length_seqZ, usub_small by lia. lia.
Qed.

Lemma is_empty_spec r : range_wf r → range_is_empty r = bool_decide (elems r = []).
Proof.
  intros Hwf. unfold range_is_empty. apply bool_decide_ext. rewrite len_spec by done.
  destruct (elems r); simpl; naive_solver lia.
Qed.

Lemma seqZ_snoc m n : 0 < n → seqZ m n = seqZ m (n - 1) ++ [m + n - 1].
Proof.
  intros. replace n with ((n - 1) + 1) at 1 by lia. rewrite seqZ_app by lia.
  f_equal. rewrite seqZ_cons by lia. rewrite seqZ_nil by lia. f_equal. lia.
Qed.

(** One step at either end is a step of the queue of the range's ids. *)
Lemma step_iter_spec e r : range_wf r →
  ∃ o r', step_iter e r = Ret (o, r') ∧ range_wf r' ∧
    step_deque e (elems r) = (to_usize <$> o, elems r').
Proof.
  intros Hwf. pose proof (range_bounds r Hwf) as Hb. destruct Hwf as (Hs & He & Hle).
  assert (range_is_empty r = bool_decide (elems r = [])) as Hem by (apply is_empty_spec; done).
  destruct (decide (to_usize (start r) = to_usize (end_ r))) as [Heq|Hne].
  { assert (elems r = []) as Hnil by (unfold elems; rewrite Heq, seqZ_nil by lia; done).
    exists None, r. destruct e; unfold step_iter, next, next_back, step_deque;
      rewrite Hem, bool_decide_eq_true_2, Hnil by done; done. }
  assert (elems r ≠ []) as Hnn by (unfold elems; rewrite seqZ_cons by lia; done).
  destruct e; unfold step_iter, next, next_back, step_deque;
    rewrite Hem, bool_decide_eq_false_2 by done; simpl.
  - rewrite uadd_small by lia.
    destruct (to_from_usize (Id:=Id) (to_usize (start r) + 1)) as (s & -> & Es & Hvs); [lia|].
    eexists _, _. split; [done|]. split; [split_and!; simpl; [done..|lia]|].
    unfold elems; simpl. rewrite seqZ_cons by lia. rewrite Es. simpl. do 2 f_equal; lia.
  - rewrite usub_small by lia.
    destruct (to_from_usize (Id:=Id) (to_usize (end_ r) - 1)) as (x & -> & Ex & Hvx); [lia|].
    eexists _, _. split; [done|]. split; [split_and!; simpl; [done..|lia]|].
    unfold elems; simpl. rewrite seqZ_snoc by lia. rewrite last_snoc, length_app, Nat.add_1_r.
    simpl. rewrite take_app_length, Ex. do 2 f_equal; lia.
Qed.

Lemma run_iter_spec es r : range_wf r →
  ∃ outs r', run_iter es r = Ret (outs, r') ∧ range_wf r' ∧
    run_deque es (elems r) = ((λ o : option Id, to_usize <$> o) <$> outs, elems r').
Proof.
  revert r. induction es as [|e es IH]; intros r Hwf; simpl; [by eauto|].
  destruct (step_iter_spec e r Hwf) as (o & r1 & -> & Hwf1 & ->). simpl.
  destruct (IH r1 Hwf1) as (outs & r2 & -> & Hwf2 & ->). simpl. eauto.
Qed.

Lemma get_spec r i : range_wf r → 0 ≤ i → to_usize (start r) + i < 2 ^ 64 →
  ∃ o, get r i = Ret o ∧ to_usize <$> o = elems r !! Z.to_nat i ∧
    (∀ id, o = Some id → valid id).
Proof.
  intros Hwf Hi Hw. pose proof (range_bounds r Hwf). unfold get, elems. cbv zeta.
  rewrite uadd_small by lia. case_decide.
  - destruct (to_from_usize (Id:=Id) (to_usize (start r) + i)) as (id & -> & E & Hv); [lia|].
    eexists. split; [done|]. rewrite lookup_seqZ_lt by lia. simpl. rewrite E.
    split; [f_equal; lia|naive_solver].
  - exists None. rewrite lookup_seqZ_ge by lia. done.
Qed.

Lemma index_of_spec r id i : range_wf r → valid id →
  index_of r id = Some i ↔ 0 ≤ i ∧ elems r !! Z.to_nat i = Some (to_usize id).
Proof.
  intros Hwf Hv. pose proof (range_bounds r Hwf). pose proof (to_usize_range id Hv).
  unfold index_of, elems. cbv zeta. rewrite lookup_seqZ. case_decide.
  - rewrite usub_small by lia. split; [intros [= <-]; lia|intros; f_equal; lia].
  - split; [done|lia].
Qed.

(** The loop of [from_slice] succeeds exactly on consecutive ids. *)
Lemma from_slice_loop_spec e ids : 0 ≤ e < bound → Forall valid ids →
  from_slice_loop e ids =
    if decide (to_usize <$> ids = seqZ (e + 1) (Z.of_nat (length ids)))
    then Some (e + Z.of_nat (length ids)) else None.
Proof.
  pose proof (bound_usize (IdLaws:=_)) as Hb. intros He HF. revert e He.
  induction HF as [|id ids Hv HF IH]; intros e He; cbn [from_slice_loop length].
  { rewrite decide_True by done. f_equal. lia. }
  rewrite uadd_small by lia. rewrite seqZ_cons, fmap_cons by lia.
  replace (Z.pred (Z.of_nat (S (length ids)))) with (Z.of_nat (length ids)) by lia.
  replace (Z.succ (e + 1)) with (e + 1 + 1) by lia.
  pose proof (to_usize_range id Hv). case_decide as Hid.
  - rewrite decide_False by naive_solver. done.
  - assert (to_usize id = e + 1) as Hid' by (destruct (decide (to_usize id = e + 1)); done).
    rewrite IH by lia. repeat case_decide; try congruence. f_equal. lia.
Qed.
End range_theory.

Global Arguments range_wf {Id _} valid r.

(** ** Claims *)
Section range_claims.
Context {Id : Type} `{IdLaws Id bound valid}.

(** [IdRangeIterator] is a double-ended queue: any interleaving of
    [next] and [next_back] on a well-formed range runs without panicking,
    returns what the same interleaving returns on the list of the range's ids,
    leaves the ids that list has left, and keeps [len] and [size_hint] exact. *)
Theorem id_range_iterator_refines_deque es (r : IdRange Id) :
  range_wf valid r →
  ∃ outs r', run_iter es r = Ret (outs, r') ∧ range_wf valid r' ∧
    run_deque es (elems r) = ((λ o : option Id, to_usize <$> o) <$> outs, elems r') ∧
    size_hint r' = (Z.of_nat (length (elems r')), Some (Z.of_nat (length (elems r')))).
Proof.
  intros Hwf. destruct (run_iter_spec es r Hwf) as (outs & r' & ? & Hwf' & ?).
  exists outs, r'. unfold size_hint. by rewrite len_spec.
Qed.

(** [get] and [index_of] are inverse on a well-formed range: [get]
    returns the [i]-th id and nothing past the end, [index_of] finds exactly the
    ids of the range, at their position. ([start + i] must not exceed
    [usize::MAX], where the addition wraps.) *)
Theorem id_range_get_index_of (r : IdRange Id) i id :
  range_wf valid r → valid id → 0 ≤ i → to_usize (start r) + i < 2 ^ 64 →
  (∃ o, get r i = Ret o ∧ to_usize <$> o = elems r !! Z.to_nat i) ∧
  (get r i = Ret (Some id) ↔ index_of r id = Some i) ∧
  (is_Some (index_of r id) ↔ to_usize id ∈ elems r).
Proof.
  intros Hwf Hv Hi Hw. destruct (get_spec r i Hwf Hi Hw) as (o & Hg & Ho & Hov).
  split_and!; [by eauto| |].
  - rewrite index_of_spec, Hg by done. split.
    + intros [= ->]. split; [done|]. by rewrite <-Ho.
    + intros [_ E]. rewrite E in Ho. destruct o as [id'|]; simplify_eq/=.
      do 2 f_equal. eapply to_usize_inj; eauto.
  - rewrite list_elem_of_lookup. split.
    + intros [j Hj]. apply index_of_spec in Hj as [_ ?]; eauto.
    + intros [j Hj]. exists (Z.of_nat j). apply index_of_spec; [done..|].
      rewrite Nat2Z.id. split; [lia|done].
Qed.

(** C40. A range from a start and a length, for every length a [usize] holds
    and with the wrapping addition of the release profile. It panics exactly
    when the end, the start plus the length modulo 2^64, is no id. Otherwise the
    range has that start and that end and its [len] is the length asked for: it
    is the well-formed range of that many ids from the start when the sum does
    not wrap, and when it wraps the range is malformed, ending before its start,
    without a panic. *)
Theorem id_range_constructors (first : Id) (n : Z) :
  valid first → 0 ≤ n < 2 ^ 64 →
  let sum := to_usize first + n in
  match from_start_and_length Ret first n with
  | Ret r =>
      start r = first ∧ to_usize (end_ r) = sum mod 2 ^ 64 ∧ len r = n ∧ sum mod 2 ^ 64 < bound ∧
      if decide (sum < 2 ^ 64) then range_wf valid r ∧ elems r = seqZ (to_usize first) n
      else to_usize (end_ r) < to_usize (start r) ∧ elems r = []
  | Panic _ => bound ≤ sum mod 2 ^ 64
  end.
Proof.
  intros Hv Hn sum. pose proof (to_usize_range first Hv). pose proof (bound_usize (IdLaws:=_)) as Hb.
  unfold from_start_and_length. simpl.
  change (uadd (to_usize first) n) with (sum mod 2 ^ 64).
  pose proof (Z.mod_pos_bound sum (2 ^ 64) ltac:(lia)) as Hm.
  destruct (decide (sum mod 2 ^ 64 < bound)).
  - destruct (to_from_usize (Id:=Id) (sum mod 2 ^ 64)) as (e & -> & E & Hve); [lia|]. simpl.
    split_and!; [done..| |done|].
    + unfold len, usub, wrap, usize_bits. simpl. rewrite E, Zminus_mod_idemp_l. subst sum.
      replace (to_usize first + n - to_usize first) with n by lia. apply Z.mod_small. lia.
    + unfold elems. simpl. rewrite E. case_decide.
      * rewrite (Z.mod_small sum) by (subst sum; lia). split.
        -- split_and!; simpl; [done..|]. rewrite E, Z.mod_small by (subst sum; lia). subst sum. lia.
        -- f_equal. subst sum. lia.
      * assert (sum mod 2 ^ 64 = sum - 2 ^ 64) as ->.
        { symmetry. apply (Z.mod_unique _ _ 1); subst sum; lia. }
        split; [subst sum; lia|]. apply seqZ_nil. subst sum. lia.
  - destruct (from_usize _) eqn:E; simpl; [|lia].
    pose proof (from_usize_panics (Id:=Id) (sum mod 2 ^ 64)) as Hp.
    rewrite E in Hp. discriminate Hp. lia.
Qed.

(** [from_slice] recognises consecutive ids: on a slice that is not a run
    of consecutive ids it returns [None]; on a run it returns the well-formed
    range whose elements are the slice, unless the run ends at the largest id,
    whose exclusive end does not exist, where it panics. *)
Theorem id_range_from_slice (slice : list Id) :
  Forall valid slice →
  let l := to_usize <$> slice in
  match from_slice slice with
  | Ret None => ∀ m n, l ≠ seqZ m n
  | Ret (Some r) => range_wf valid r ∧ elems r = l
  | Panic _ => l = seqZ (bound - Z.of_nat (length l)) (Z.of_nat (length l))
  end.
Proof.
  destruct slice as [|first ids].
  { intros _. pose proof (bound_usize (IdLaws:=_)). simpl. unfold empty.
    destruct (to_from_usize (Id:=Id) 0) as (z & -> & E & Hz); [lia|]. simpl.
    split; [split_and!; simpl; [done..|lia]|]. unfold elems. simpl. by rewrite seqZ_nil by lia. }
  intros [Hv HF]%Forall_cons. cbv zeta. unfold from_slice.
  pose proof (to_usize_range first Hv) as Hr. pose proof (bound_usize (IdLaws:=_)) as Hb.
  rewrite from_slice_loop_spec by done. rewrite fmap_cons. cbn [length]. rewrite length_fmap.
  case_decide as Hc; simpl.
  - assert (to_usize first + Z.of_nat (length ids) < bound) as Hlt.
    { destruct (decide (ids = [])) as [->|Hne]; [simpl; lia|].
      assert (to_usize first + Z.of_nat (length ids) ∈ to_usize <$> ids) as Hin.
      { rewrite Hc, elem_of_seqZ. destruct ids; [done|]. simpl. lia. }
      apply list_elem_of_fmap in Hin as (id & E & Hid).
      rewrite Forall_forall in HF. pose proof (to_usize_range id (HF id Hid)). lia. }
    rewrite uadd_small by lia.
    destruct (decide (to_usize first + Z.of_nat (length ids) + 1 < bound)).
    + destruct (to_from_usize (Id:=Id) (to_usize first + Z.of_nat (length ids) + 1))
        as (e & -> & E & Hve); [lia|]. simpl.
      split; [split_and!; simpl; [done..|lia]|]. unfold elems. simpl. rewrite E, Hc.
      rewrite seqZ_cons by lia. do 2 f_equal; lia.
    + pose proof (from_usize_panics (Id:=Id) (to_usize first + Z.of_nat (length ids) + 1)) as Hp.
      destruct (from_usize _); simpl in *; [by discriminate Hp; lia|].
      rewrite Hc. symmetry. rewrite seqZ_cons by lia. f_equal; [lia|]. f_equal; lia.
  - intros m n E. apply Hc. destruct (decide (0 < n)) as [Hn|]; [|by rewrite seqZ_nil in E by lia].
    pose proof (f_equal length E) as El. cbn [length] in El. rewrite length_seqZ, length_fmap in El.
    rewrite seqZ_cons in E by lia. injection E as -> ->. f_equal; lia.
Qed.
End range_claims.

Section id_to_many_theory.
Context {Id V : Type} `{OrdLaws Id, !OrdEq Id}.
Implicit Types (rel sorted : list (Id * V)) (id : Id).

Lemma value_collect_spec fuel rel id idx : (length rel ≤ fuel + idx)%nat →
  value_collect fuel rel id idx = (take_while (λ x, eqb x.1 id) (drop idx rel)).*2.
Proof.
  revert idx. induction fuel as [|fuel IH]; intros idx Hl; simpl.
  { by rewrite drop_ge by lia. }
  unfold value_next. destruct (rel !! idx) as [[k v]|] eqn:E.
  - rewrite (drop_S _ _ _ E). simpl. destruct (eqb k id); [|done]. simpl.
    rewrite IH by lia. done.
  - apply lookup_ge_None in E. by rewrite drop_ge.
Qed.
End id_to_many_theory.

(** [IdToMany::find_all]: however [sort_unstable_by_key] orders the
    entries with equal keys, iterating the values of an id ends within the
    length of the relation and yields exactly the values related to that id in
    the vector the map was built from, each as often as it occurs there. *)
Theorem id_to_many_find_all {Id V : Type} `{OrdLaws Id, !OrdEq Id, EqDecision Id}
    (relations sorted : list (Id * V)) (id : Id) (fuel : nat) :
  is_id_to_many relations sorted → (length relations ≤ fuel)%nat →
  value_collect fuel sorted id (find_all sorted id) ≡ₚ (filter (λ p, p.1 = id) relations).*2.
Proof.
  intros [HP Hs] Hf. rewrite value_collect_spec by (rewrite (Permutation_length HP); lia).
  unfold find_all. rewrite (key_range_spec fst) by done. rewrite <-HP.
  erewrite list_filter_iff; [done|]. intros [k v]. simpl.
  split; [apply cmp_eq|intros ->; apply cmp_refl].
Qed.

(** ** Witnesses: a [u32] id with the schema's [MAX_ID] *)
Definition MAX_ID : Z := 2 ^ 29 - 1.
Abbreviation SchemaId := (DerivedId 32 (Some MAX_ID)).
Definition schema_range (a b : Z) : IdRange SchemaId := mk_range (mk_id (a + 1)) (mk_id (b + 1)).

Lemma schema_id_laws : IdLaws SchemaId (2 ^ 29) derived_valid.
Proof.
  change (2 ^ 29) with (derived_bound 32 (Some MAX_ID)).
  apply derived_id_laws; [lia|]. intros m [= <-]. unfold MAX_ID. lia.
Qed.

Lemma schema_range_wf : range_wf derived_valid (schema_range 3 6).
Proof. unfold range_wf, derived_valid. vm_compute. intuition congruence. Qed.

Lemma id_range_iterator_refines_deque_witness :
  range_wf derived_valid (schema_range 3 6) ∧
  run_deque [Front; Back; Front; Front] (elems (schema_range 3 6)) =
    ([Some 3; Some 5; Some 4; None], []) ∧
  ∃ outs r', run_iter [Front; Back; Front; Front] (schema_range 3 6) = Ret (outs, r') ∧
    range_wf derived_valid r' ∧
    run_deque [Front; Back; Front; Front] (elems (schema_range 3 6)) =
      ((λ o : option SchemaId, to_usize <$> o) <$> outs, elems r') ∧
    size_hint r' = (Z.of_nat (length (elems r')), Some (Z.of_nat (length (elems r')))).
Proof.
  split; [exact schema_range_wf|]. split; [vm_compute; reflexivity|].
  apply (@id_range_iterator_refines_deque _ _ _ _ schema_id_laws), schema_range_wf.
Defined.

Lemma id_range_get_index_of_witness :
  get (schema_range 3 6) 1 = Ret (Some (mk_id 5)) ∧ get (schema_range 3 6) 3 = Ret None ∧
  (get (schema_range 3 6) 1 = Ret (Some (mk_id 5)) ↔
   index_of (schema_range 3 6) (mk_id 5) = Some 1).
Proof.
  split; [vm_compute; reflexivity|]. split; [vm_compute; reflexivity|].
  apply (@id_range_get_index_of _ _ _ _ schema_id_laws (schema_range 3 6) 1 (mk_id 5)).
  - exact schema_range_wf.
  - unfold derived_valid. vm_compute. intuition congruence.
  - lia.
  - vm_compute. reflexivity.
Defined.

Lemma id_range_constructors_witness :
  from_start_and_length Ret (mk_id 4 : SchemaId) 3 = Ret (schema_range 3 6) ∧
  is_panic (from_start_and_length Ret (mk_id (2 ^ 29) : SchemaId) 1) = true ∧
  from_start_and_length Ret (mk_id 4 : SchemaId) (2 ^ 64 - 1) = Ret (schema_range 3 2) ∧
  elems (schema_range 3 6) = seqZ 3 3 ∧ to_usize (end_ (schema_range 3 2)) < to_usize (start (schema_range 3 2)).
Proof.
  split; [vm_compute; reflexivity|]. split; [vm_compute; reflexivity|]. split; [vm_compute; reflexivity|].
  pose proof (@id_range_constructors _ _ _ _ schema_id_laws (mk_id 4) 3) as (_ & _ & _ & _ & _ & He).
  { unfold derived_valid. vm_compute. intuition congruence. }
  { lia. }
  pose proof (@id_range_constructors _ _ _ _ schema_id_laws (mk_id 4) (2 ^ 64 - 1)) as (_ & _ & _ & _ & Hlt & _).
  { unfold derived_valid. vm_compute. intuition congruence. }
  { lia. }
  split; [exact He|exact Hlt].
Defined.

Lemma id_range_from_slice_witness :
  from_slice [mk_id 4; mk_id 5; mk_id 6 : SchemaId] = Ret (Some (schema_range 3 6)) ∧
  from_slice [mk_id 4; mk_id 6 : SchemaId] = Ret None ∧
  is_panic (from_slice [mk_id (2 ^ 29) : SchemaId]) = true ∧
  range_wf derived_valid (schema_range 3 6) ∧ elems (schema_range 3 6) = [3; 4; 5].
Proof.
  split; [vm_compute; reflexivity|]. split; [vm_compute; reflexivity|].
  split; [vm_compute; reflexivity|].
  apply (@id_range_from_slice _ _ _ _ schema_id_laws [mk_id 4; mk_id 5; mk_id 6]).
  repeat constructor; unfold derived_valid; vm_compute; congruence.
Defined.

Lemma id_to_many_find_all_witness :
  let rel := [("b", 1); ("a", 2); ("b", 3)] in
  let sorted := [("a", 2); ("b", 3); ("b", 1)] in
  is_id_to_many rel sorted ∧
  value_collect 3 sorted "b" (find_all sorted "b") = [3; 1] ∧
  value_collect 3 sorted "b" (find_all sorted "b") ≡ₚ (filter (λ p, p.1 = "b") rel).*2.
Proof.
  intros rel sorted. assert (is_id_to_many rel sorted) as Hm.
  { split; [|repeat constructor; by vm_compute].
    exact (Permutation_app_comm [("a", 2); ("b", 3)] [("b", 1)]). }
  split; [exact Hm|]. split; [vm_compute; reflexivity|].
  apply (id_to_many_find_all rel sorted "b" 3 Hm). simpl. lia.
Defined.
