(* ===== verification/ValidationContext.v ===== *)
(** * [graphql-schema-validation]: [lib.rs], [context.rs] and [diagnostics/constructors.rs]

    The parsed service document, the diagnostics and the context that the
    validation rules thread. The document is that of [async-graphql-parser], a
    third-party crate: its types keep the parts the rules read, with the
    positions that end up in labels. A diagnostic is one constructor per
    [miette!] call site, with the values it interpolates and its labels; the
    wording of the messages is not modelled. *)
From S2P Require Import Prelude CheckSchema.
Local Open Scope string_scope.
Local Open Scope list_scope.
Local Open Scope nat_scope.

(** ** The document *)
Record Pos := MkPos { line : nat; column : nat }.
Record Name := MkName { name_pos : Pos; name_node : string }.

Inductive DirectiveLocation :=
| LQuery | LMutation | LSubscription | LField | LFragmentDefinition | LFragmentSpread
| LInlineFragment | LVariableDefinition | LSchema | LScalar | LObject | LFieldDefinition
| LArgumentDefinition | LInterface | LUnion | LEnum | LEnumValue | LInputObject
| LInputFieldDefinition.
Global Instance DirectiveLocation_eq_dec : EqDecision DirectiveLocation.
Proof. solve_decision. Defined.
Global Instance AType_eq_dec : EqDecision AType.
Proof. solve_decision. Defined.

(** [ConstDirective], by its name. *)
Record ConstDirective := MkConstDirective { cd_name : string }.
Record InputValueDefinition := MkInputValue {
  iv_name : Name;
  iv_ty : AType;
  iv_has_default : bool;
  iv_directives : list ConstDirective;
}.
Record FieldDefinition := MkFieldDefinition {
  fd_name : Name;
  fd_arguments : list InputValueDefinition;
  fd_ty : AType;
  fd_directives : list ConstDirective;
}.
Record EnumValueDefinition := MkEnumValueDefinition {
  evd_value : string;
  evd_directives : list ConstDirective;
}.
Inductive TypeKind :=
| Scalar
| Object (implements : list string) (fields : list FieldDefinition)
| Interface (implements : list string) (fields : list FieldDefinition)
| Union (members : list string)
| Enum (values : list EnumValueDefinition)
| InputObject (fields : list InputValueDefinition).
Record TypeDefinition := MkTypeDefinition {
  t_extend : bool;
  t_name : Name;
  t_directives : list ConstDirective;
  t_kind : TypeKind;
}.
Record DirectiveDefinition := MkDirectiveDefinition {
  dd_name : string;
  dd_arguments : list InputValueDefinition;
  dd_is_repeatable : bool;
  dd_locations : list DirectiveLocation;
}.
Record SchemaDefinition := MkSchemaDefinition {
  sd_pos : Pos;
  sd_directives : list ConstDirective;
  sd_query : option string;
  sd_mutation : option string;
  sd_subscription : option string;
}.
Inductive TypeSystemDefinition :=
| TSSchema (def : SchemaDefinition)
| TSType (typedef : TypeDefinition)
| TSDirective (def : DirectiveDefinition).
Abbreviation Document := (list TypeSystemDefinition).

(** ** Diagnostics *)

(** A label: a position and the length of the marked text. *)
Record Label := MkLabel { label_text : option string; label_pos : Pos; label_len : nat }.

Inductive Report :=
| SyntaxError (message : string)
| DoubleUnderscoreName (bad_name : string) (label : Label)
| UnknownType (type_name location : string)
| OutputTypeInInputPosition (bad_type location : string)
| InputObjectInOutputPosition (bad_type location : string)
| EmptyObject (name : string)
| EmptyInterface (name : string)
| EmptyInputObject (name : string)
| DuplicateArgument (name parent field : string)
| ArgumentDoubleUnderscore (label : Label)
| RequiredArgumentDeprecated (parent field argument : string)
| DirectiveDoubleUnderscore
| NotRepeatable (directive : string)
| InvalidDirectiveLocation (directive : string) (location : DirectiveLocation)
| DuplicateEnumValue (type_name value : string)
| CannotExtendUnknownEnum (type_name : string)
| InputObjectCycle (input_object : string) (chain : list string)
| CannotExtendUnknownInputObject (type_name : string)
| ImplementsTwice (parent iface : string)
| ImplementsNonInterface (parent name : string)
| ImplementsUnknown (parent iface : string)
| MissingField (field implementer iface : string)
| ArgumentTypeMismatch (iface implementer field argument : string) (expected found : AType)
| ExtraRequiredArgument (iface implementer field argument : string)
| MissingArgument (iface implementer field argument : string)
| NotASubtype (iface implementer field : string) (expected found : AType)
| MissingTransitiveImplements (parent implements iface : string)
| CannotExtendUnknownInterface (type_name : string)
| FieldDoubleUnderscore (parent field : string) (label : Label)
| DuplicateField (field parent : string)
| CannotExtendUnknownObject (type_name : string)
| CannotExtendUnknownScalar (type_name : string)
| DuplicateSchemaDefinition (previous second : Label)
| TypeUsedTwice (name : string)
| UnknownRoot (root name : string) (label : Label)
| RootNotObject (root name : string)
| DefaultRootNotObject (name : string)
| ReservedName (name : string) (label : Label)
| DuplicateDefinition (name : string) (previous second : Label)
| CannotExtendUnknownUnion (type_name : string)
| UnionNonObjectMember (member union : string)
| UnionUnknownMember (member union : string)
| UnionDuplicateMember (union member : string).

(** ** Options: a [u8] of flags *)
Abbreviation Options := N.
Definition FORBID_EXTENDING_UNKNOWN_TYPES : Options := 1%N.
Definition DRAFT_VALIDATIONS : Options := 1%N.
(** [bitflags]: [contains]. *)
Definition contains (o flag : Options) : bool := N.eqb (N.land o flag) flag.

(** ** The context *)
Record Context := MkContext {
  definition_names : gmap string TypeDefinition;
  directive_names : gmap string DirectiveDefinition;
  errors : list Report;
  options : Options;
  schema_definition : option SchemaDefinition;
  extended_fields : gmap string (list (list FieldDefinition));
  extended_unions : gmap string (list (list string));
  extended_interface_implementations : gmap string (list string);
  extended_enums : gmap string (list (list EnumValueDefinition));
  strings_buf : gmap string nat;
}.
Definition Context_new (opts : Options) : Context :=
  MkContext ∅ ∅ [] opts None ∅ ∅ ∅ ∅ ∅.

(** Field updates. *)
Definition set_definition_names f (c : Context) : Context :=
  MkContext (f (definition_names c)) (directive_names c) (errors c) (options c) (schema_definition c)
    (extended_fields c) (extended_unions c) (extended_interface_implementations c)
    (extended_enums c) (strings_buf c).
Definition set_directive_names f (c : Context) : Context :=
  MkContext (definition_names c) (f (directive_names c)) (errors c) (options c) (schema_definition c)
    (extended_fields c) (extended_unions c) (extended_interface_implementations c)
    (extended_enums c) (strings_buf c).
Definition set_errors f (c : Context) : Context :=
  MkContext (definition_names c) (directive_names c) (f (errors c)) (options c) (schema_definition c)
    (extended_fields c) (extended_unions c) (extended_interface_implementations c)
    (extended_enums c) (strings_buf c).
Definition set_schema_definition s (c : Context) : Context :=
  MkContext (definition_names c) (directive_names c) (errors c) (options c) s
    (extended_fields c) (extended_unions c) (extended_interface_implementations c)
    (extended_enums c) (strings_buf c).
Definition set_extended_fields f (c : Context) : Context :=
  MkContext (definition_names c) (directive_names c) (errors c) (options c) (schema_definition c)
    (f (extended_fields c)) (extended_unions c) (extended_interface_implementations c)
    (extended_enums c) (strings_buf c).
Definition set_extended_unions f (c : Context) : Context :=
  MkContext (definition_names c) (directive_names c) (errors c) (options c) (schema_definition c)
    (extended_fields c) (f (extended_unions c)) (extended_interface_implementations c)
    (extended_enums c) (strings_buf c).
Definition set_extended_implements f (c : Context) : Context :=
  MkContext (definition_names c) (directive_names c) (errors c) (options c) (schema_definition c)
    (extended_fields c) (extended_unions c) (f (extended_interface_implementations c))
    (extended_enums c) (strings_buf c).
Definition set_extended_enums f (c : Context) : Context :=
  MkContext (definition_names c) (directive_names c) (errors c) (options c) (schema_definition c)
    (extended_fields c) (extended_unions c) (extended_interface_implementations c)
    (f (extended_enums c)) (strings_buf c).
Definition set_strings_buf f (c : Context) : Context :=
  MkContext (definition_names c) (directive_names c) (errors c) (options c) (schema_definition c)
    (extended_fields c) (extended_unions c) (extended_interface_implementations c)
    (extended_enums c) (f (strings_buf c)).

(** ** Functions that take [&mut Context] *)
Definition V (A : Type) : Type := Context → res (A * Context).
Global Instance V_ret : MRet V := λ A a c, Ret (a, c).
Global Instance V_bind : MBind V := λ A B f m c, '(a, c) ← m c; f a c.
Definition get_ctx : V Context := λ c, Ret (c, c).
Definition modify (f : Context → Context) : V unit := λ c, Ret ((), f c).
Definition vlift {A} (r : res A) : V A := λ c, a ← r; Ret (a, c).

(** [for x in l { f(x) }]. *)
Fixpoint for_each {A} (l : list A) (f : A → V unit) : V unit :=
  match l with
  | [] => mret ()
  | x :: l => f x;; for_each l f
  end.

(** Slice indexing. *)
Definition index {A} (l : list A) (i : nat) : res A := expect "index out of bounds" (l !! i).

Definition push_error (err : Report) : V unit := modify (set_errors (λ es, es ++ [err])).

(** [HashMap::entry(name).or_default()] followed by a push or an extend. *)
Definition push_entry {A} (name : string) (x : A) (m : gmap string (list A)) : gmap string (list A) :=
  <[name := default [] (m !! name) ++ [x]]> m.
Definition extend_entry {A} (name : string) (xs : list A) (m : gmap string (list A)) : gmap string (list A) :=
  <[name := default [] (m !! name) ++ xs]> m.

Definition with_enum_values (enum_name : string) (base_values : list EnumValueDefinition)
    (handler : list EnumValueDefinition → V unit) : V unit :=
  ctx ← get_ctx;
  handler (base_values ++ concat (default [] (extended_enums ctx !! enum_name))).
Definition with_union_members (union_name : string) (base_values : list string)
    (handler : list string → V unit) : V unit :=
  ctx ← get_ctx;
  handler (base_values ++ concat (default [] (extended_unions ctx !! union_name))).
Definition with_fields (name : string) (base_fields : list FieldDefinition)
    (handler : list FieldDefinition → V unit) : V unit :=
  ctx ← get_ctx;
  handler (base_fields ++ concat (default [] (extended_fields ctx !! name))).
Definition with_implements (type_name : string) (base_implements : list string)
    (handler : list string → V unit) : V unit :=
  ctx ← get_ctx;
  handler (base_implements ++ default [] (extended_interface_implementations ctx !! type_name)).

(** [self.strings_buf.insert(name, idx)]. *)
Definition strings_buf_insert (name : string) (idx : nat) : V (option nat) := λ c,
  Ret (strings_buf c !! name, set_strings_buf <[name := idx]> c).
Fixpoint find_duplicates_loop (idx : nat) (names : list string)
    (handle_duplicates : nat → nat → V unit) : V unit :=
  match names with
  | [] => mret ()
  | name :: names =>
      previous ← strings_buf_insert name idx;
      match previous with
      | Some previous => handle_duplicates previous idx
      | None => mret ()
      end;;
      find_duplicates_loop (S idx) names handle_duplicates
  end.
Definition find_duplicates (names : list string) (handle_duplicates : nat → nat → V unit) : V unit :=
  modify (set_strings_buf (λ _, ∅));;
  find_duplicates_loop 0 names handle_duplicates.

(** ** [diagnostics/constructors.rs] *)
Definition double_underscore_name (bad_name : string) (pos : Pos) : V unit :=
  push_error (DoubleUnderscoreName bad_name (MkLabel None pos (String.length bad_name))).
Definition unknown_type (type_name location : string) : V unit :=
  push_error (UnknownType type_name location).
Definition output_type_in_input_position (bad_type location : string) : V unit :=
  push_error (OutputTypeInInputPosition bad_type location).
Definition input_object_in_output_position (bad_type location : string) : V unit :=
  push_error (InputObjectInOutputPosition bad_type location).
Definition empty_object (bad_object : string) : V unit := push_error (EmptyObject bad_object).
Definition empty_interface (bad_interface : string) : V unit := push_error (EmptyInterface bad_interface).
Definition empty_input_object (bad_input_object : string) : V unit :=
  push_error (EmptyInputObject bad_input_object).
