(* ===== verification/Validation.v ===== *)
(** * [graphql-schema-validation]: [validate.rs] and [validate/*.rs]

    The validation rules, one definition per function, in the order the code
    calls them. [HashMap::into_values] visits the entries of a map in an
    unspecified order: the order is an argument of the rules that use it. The
    search for cycles of input objects is recursive with a visited set; its
    fuel bounds the depth of the recursion. *)
From S2P Require Import Prelude CheckSchema ValidationContext.
Local Open Scope string_scope.
Local Open Scope list_scope.
Local Open Scope nat_scope.

(** ** Types *)

(** [ast::Type::nullable]. *)
Definition nullable (t : AType) : bool :=
  match t with ANamed _ n | AList _ n => n end.
Definition is_list (t : AType) : bool := match t with AList _ _ => true | ANamed _ _ => false end.
Fixpoint extract_type_name (t : AType) : string :=
  match t with ANamed name _ => name | AList inner _ => extract_type_name inner end.

Definition is_builtin_scalar (name : string) : bool :=
  bool_decide (name ∈ ["String"; "ID"; "Float"; "Boolean"; "Int"]).
Definition starts_with_double_underscore (name : string) : bool := String.prefix "__" name.
Definition name_label (text : option string) (n : Name) : Label :=
  MkLabel text (name_pos n) (String.length (name_node n)).

Inductive ValidateInputTypeResult := InputOk | InputUnknownType | NotAnInputType.
Definition validate_input_type (type_name : string) : V ValidateInputTypeResult :=
  if is_builtin_scalar type_name then mret InputOk
  else
    ctx ← get_ctx;
    mret match definition_names ctx !! type_name with
    | None => InputUnknownType
    | Some definition =>
        match t_kind definition with
        | Scalar | Enum _ | InputObject _ => InputOk
        | Object _ _ | Interface _ _ | Union _ => NotAnInputType
        end
    end.

Inductive ValidateOutputTypeResult := OutputOk | OutputUnknownType | OutputInputObject.
Definition validate_output_type (name : string) : V ValidateOutputTypeResult :=
  if is_builtin_scalar name then mret OutputOk
  else
    ctx ← get_ctx;
    mret match definition_names ctx !! name with
    | None => OutputUnknownType
    | Some definition =>
        match t_kind definition with
        | Scalar | Object _ _ | Interface _ _ | Union _ | Enum _ => OutputOk
        | InputObject _ => OutputInputObject
        end
    end.

(** ** Directives *)

(** The check of an input position, written out at each of its three uses. *)
Definition check_input_position (t : AType) (location : string) : V unit :=
  let type_name := extract_type_name t in
  r ← validate_input_type type_name;
  match r with
  | InputOk => mret ()
  | InputUnknownType => unknown_type type_name location
  | NotAnInputType => output_type_in_input_position type_name location
  end.

Definition validate_directive_definition (definition : DirectiveDefinition) : V unit :=
  let directive_name := dd_name definition in
  (if starts_with_double_underscore directive_name then push_error DirectiveDoubleUnderscore
   else mret ());;
  for_each (dd_arguments definition) (λ arg,
    check_input_position (iv_ty arg)
      ("@" +:+ directive_name +:+ "(" +:+ name_node (iv_name arg) +:+ ":)"));;
  modify (set_directive_names <[dd_name definition := definition]>).

Definition validate_directives (directives : list ConstDirective) (location : DirectiveLocation) : V unit :=
  find_duplicates (cd_name <$> directives) (λ first _,
    d ← vlift (index directives first);
    let directive_name := cd_name d in
    ctx ← get_ctx;
    if default true (dd_is_repeatable <$> directive_names ctx !! directive_name) then mret ()
    else push_error (NotRepeatable directive_name));;
  for_each directives (λ directive,
    ctx ← get_ctx;
    match directive_names ctx !! cd_name directive with
    | Some definition =>
        if bool_decide (location ∈ dd_locations definition) then mret ()
        else push_error (InvalidDirectiveLocation (cd_name directive) location)
    | None => mret ()
    end).

(** ** Arguments and fields *)
Definition validate_argument (parent field : string) (arg : InputValueDefinition) : V unit :=
  let arg_name := name_node (iv_name arg) in
  (if starts_with_double_underscore arg_name
   then push_error (ArgumentDoubleUnderscore (name_label (Some "here") (iv_name arg)))
   else mret ());;
  check_input_position (iv_ty arg) (parent +:+ "." +:+ field +:+ "(" +:+ arg_name +:+ ":)");;
  ctx ← get_ctx;
  (if contains (options ctx) DRAFT_VALIDATIONS then
     let is_non_null_without_default := negb (nullable (iv_ty arg)) && negb (iv_has_default arg) in
     if is_non_null_without_default
        && bool_decide ("deprecated" ∈ cd_name <$> iv_directives arg)
     then push_error (RequiredArgumentDeprecated parent field arg_name)
     else mret ()
   else mret ());;
  validate_directives (iv_directives arg) LArgumentDefinition.
Definition validate_arguments (parent field : string) (args : list InputValueDefinition) : V unit :=
  find_duplicates ((λ arg, name_node (iv_name arg)) <$> args) (λ _ duplicate,
    arg ← vlift (index args duplicate);
    push_error (DuplicateArgument (name_node (iv_name arg)) parent field));;
  for_each args (validate_argument parent field).

Definition validate_object_field (parent_type_name : string) (field : FieldDefinition) : V unit :=
  let field_name := name_node (fd_name field) in
  validate_directives (fd_directives field) LFieldDefinition;;
  (if starts_with_double_underscore field_name
   then push_error (FieldDoubleUnderscore parent_type_name field_name (name_label (Some "here") (fd_name field)))
   else mret ());;
  validate_arguments parent_type_name field_name (fd_arguments field).

(** The body of the loops over the fields of objects and of interfaces. *)
Definition validate_field (parent_type_name : string) (field : FieldDefinition) : V unit :=
  validate_object_field parent_type_name field;;
  let type_name := extract_type_name (fd_ty field) in
  let location := parent_type_name +:+ "." +:+ name_node (fd_name field) in
  r ← validate_output_type type_name;
  match r with
  | OutputOk => mret ()
  | OutputUnknownType => unknown_type type_name location
  | OutputInputObject => input_object_in_output_position type_name location
  end.

(** ** Implementers of interfaces *)
Definition validate_implements_interface_transitively (parent_name : string)
    (parent_implements : list string) (iface_name : string) (iface_implements : list string) : V unit :=
  for_each iface_implements (λ implements,
    if bool_decide (implements ∈ parent_implements) then mret ()
    else push_error (MissingTransitiveImplements parent_name implements iface_name)).

Fixpoint validate_implementer_wrapper_types (candidate iface : AType) : bool :=
  if negb (nullable iface) && nullable candidate then false
  else
    match candidate, iface with
    | ANamed _ _, ANamed _ _ => true
    | ANamed _ _, AList _ _ | AList _ _, ANamed _ _ => false
    | AList inner_candidate _, AList inner_iface _ =>
        validate_implementer_wrapper_types inner_candidate inner_iface
    end.

Definition validate_implementer_inner_type (defs : gmap string TypeDefinition)
    (candidate_type_name iface_field_type_name : string) : bool :=
  if String.eqb candidate_type_name iface_field_type_name then true
  else
    match t_kind <$> defs !! iface_field_type_name with
    | Some (Union members) => bool_decide (candidate_type_name ∈ members)
    | Some (Interface _ _) =>
        match t_kind <$> defs !! candidate_type_name with
        | Some (Object implements _) | Some (Interface implements _) =>
            bool_decide (iface_field_type_name ∈ implements)
        | _ => false
        end
    | _ => false
    end.

Definition validate_field_type_implements_interface_field (interface_name implementer_name : string)
    (candidate_field interface_field : FieldDefinition) : V unit :=
  let candidate_type_name := extract_type_name (fd_ty candidate_field) in
  let iface_field_type_name := extract_type_name (fd_ty interface_field) in
  ctx ← get_ctx;
  if validate_implementer_wrapper_types (fd_ty candidate_field) (fd_ty interface_field)
     && validate_implementer_inner_type (definition_names ctx) candidate_type_name iface_field_type_name
  then mret ()
  else push_error (NotASubtype interface_name implementer_name (name_node (fd_name candidate_field))
                     (fd_ty interface_field) (fd_ty candidate_field)).

Section validate.
(** [HashMap::into_values]. *)
Context (into_values : gmap string (option nat * option nat) → list (option nat * option nat)).

(** The map from argument names to their indices in the two fields. *)
Definition argument_name (arg : InputValueDefinition) : string := name_node (iv_name arg).
Definition paired_arguments (candidate_args iface_args : list InputValueDefinition) :
    gmap string (option nat * option nat) :=
  let args := foldl (λ (args : gmap string (option nat * option nat)) '(idx, arg),
    <[argument_name arg := (Some idx, None)]> args) ∅ (zip (seq 0 (length candidate_args)) candidate_args) in
  foldl (λ (args : gmap string (option nat * option nat)) '(idx, arg),
    <[argument_name arg := ((default (None, None) (args !! argument_name arg)).1, Some idx)]> args)
    args (zip (seq 0 (length iface_args)) iface_args).

(** [option.map(|idx| &args[idx])]. *)
Definition index_opt {A} (l : list A) (o : option nat) : res (option A) :=
  match o with Some i => a ← index l i; Ret (Some a) | None => Ret None end.

Definition validate_field_arguments_implement_interface_field (iface_name implementer_name : string)
    (candidate_field iface_field : FieldDefinition) : V unit :=
  let field_name := name_node (fd_name candidate_field) in
  let candidate_args := fd_arguments candidate_field in
  let iface_args := fd_arguments iface_field in
  for_each (into_values (paired_arguments candidate_args iface_args)) (λ '(candidate, iface),
    candidate ← vlift (index_opt candidate_args candidate);
    iface ← vlift (index_opt iface_args iface);
    match candidate, iface with
    | Some candidate, Some iface =>
        if bool_decide (iv_ty candidate = iv_ty iface) then mret ()
        else push_error (ArgumentTypeMismatch iface_name implementer_name field_name
                           (argument_name candidate) (iv_ty iface) (iv_ty candidate))
    | Some candidate, None =>
        if nullable (iv_ty candidate) then mret ()
        else push_error (ExtraRequiredArgument iface_name implementer_name field_name (argument_name candidate))
    | None, Some arg =>
        push_error (MissingArgument iface_name implementer_name field_name (argument_name arg))
    | None, None => vlift (Panic "internal error: entered unreachable code")
    end).

(** The loop over the fields of the interface, with the vector [errs]. *)
Fixpoint implement_fields (implementer_name iface_name : string)
    (candidate_superset iface_fields : list FieldDefinition) (errs : list Report) : V (list Report) :=
  match iface_fields with
  | [] => mret errs
  | field :: iface_fields =>
      match list_find (λ candidate, name_node (fd_name candidate) = name_node (fd_name field)) candidate_superset with
      | Some (_, candidate_field) =>
          validate_field_type_implements_interface_field iface_name implementer_name candidate_field field;;
          validate_field_arguments_implement_interface_field iface_name implementer_name candidate_field field;;
          implement_fields implementer_name iface_name candidate_superset iface_fields errs
      | None =>
          implement_fields implementer_name iface_name candidate_superset iface_fields
            (errs ++ [MissingField (name_node (fd_name field)) implementer_name iface_name])
      end
  end.
Definition validate_fields_implement_interface (implementer_name : string)
    (implementer_fields : list FieldDefinition) (iface_name : string)
    (iface_fields : list FieldDefinition) : V unit :=
  with_fields implementer_name implementer_fields (λ candidate_superset,
    errs ← implement_fields implementer_name iface_name candidate_superset iface_fields [];
    for_each errs push_error).

Definition validate_implements_list (parent_name : string) (parent_implements : list string)
    (parent_fields : list FieldDefinition) : V unit :=
  find_duplicates parent_implements (λ idx _,
    iface_name ← vlift (index parent_implements idx);
    push_error (ImplementsTwice parent_name iface_name));;
  for_each parent_implements (λ iface_name,
    ctx ← get_ctx;
    match definition_names ctx !! iface_name with
    | Some ty =>
        match t_kind ty with
        | Interface implements fields =>
            validate_implements_interface_transitively parent_name parent_implements
              (name_node (t_name ty)) implements;;
            validate_fields_implement_interface parent_name parent_fields (name_node (t_name ty)) fields
        | _ => push_error (ImplementsNonInterface parent_name (name_node (t_name ty)))
        end
    | None => push_error (ImplementsUnknown parent_name iface_name)
    end).

(** ** Objects and interfaces *)

(** The last check of every extension. *)
Definition check_extends (known : option TypeKind → bool) (type_name : string) (err : Report) : V unit :=
  ctx ← get_ctx;
  if contains (options ctx) FORBID_EXTENDING_UNKNOWN_TYPES
     && negb (known (t_kind <$> definition_names ctx !! type_name))
  then push_error err else mret ().

Definition is_object (k : option TypeKind) : bool := match k with Some (Object _ _) => true | _ => false end.
Definition is_interface (k : option TypeKind) : bool := match k with Some (Interface _ _) => true | _ => false end.
Definition is_union (k : option TypeKind) : bool := match k with Some (Union _) => true | _ => false end.
Definition is_enum (k : option TypeKind) : bool := match k with Some (Enum _) => true | _ => false end.
Definition is_input_object (k : option TypeKind) : bool := match k with Some (InputObject _) => true | _ => false end.
Definition is_scalar (k : option TypeKind) : bool := match k with Some Scalar => true | _ => false end.

Definition validate_object (parent_type_name : string) (type_definition : TypeDefinition)
    (implements : list string) (obj_fields : list FieldDefinition) : V unit :=
  validate_directives (t_directives type_definition) LObject;;
  with_implements parent_type_name implements (λ implements,
    validate_implements_list parent_type_name implements obj_fields);;
  with_fields parent_type_name obj_fields (λ fields,
    (if decide (fields = []) then empty_object parent_type_name else mret ());;
    for_each fields (validate_field parent_type_name);;
    find_duplicates ((λ f, name_node (fd_name f)) <$> fields) (λ _ idx,
      f ← vlift (index fields idx);
      push_error (DuplicateField (name_node (fd_name f)) parent_type_name))).
Definition validate_object_extension (type_name : string) (type_definition : TypeDefinition) : V unit :=
  validate_directives (t_directives type_definition) LObject;;
  check_extends is_object type_name (CannotExtendUnknownObject type_name).

Definition validate_interface (parent_type_name : string) (type_definition : TypeDefinition)
    (implements : list string) (iface_fields : list FieldDefinition) : V unit :=
  validate_directives (t_directives type_definition) LInterface;;
  with_implements parent_type_name implements (λ implements,
    validate_implements_list parent_type_name implements iface_fields);;
  (if decide (iface_fields = []) then empty_interface parent_type_name else mret ());;
  for_each iface_fields (validate_field parent_type_name).
Definition validate_interface_extension (type_name : string) (type_definition : TypeDefinition) : V unit :=
  validate_directives (t_directives type_definition) LInterface;;
  check_extends is_interface type_name (CannotExtendUnknownInterface type_name).

(** ** Input objects *)
Fixpoint references_input_object_rec (defs : gmap string TypeDefinition) (fuel : nat) (name : string)
    (fields : list InputValueDefinition) (visited : gset string) : res (option (list string) * gset string) :=
  match fuel with
  | 0 => Panic "out of fuel"
  | S fuel =>
      (fix go (fields : list InputValueDefinition) (visited : gset string) :=
        match fields with
        | [] => Ret (None, visited)
        | field :: fields =>
            if nullable (iv_ty field) || is_list (iv_ty field) then go fields visited
            else
              let field_type_name := extract_type_name (iv_ty field) in
              if String.eqb field_type_name name then Ret (Some [argument_name field], visited)
              else if bool_decide (field_type_name ∈ visited) then go fields visited
              else
                match t_kind <$> defs !! field_type_name with
                | Some (InputObject inner) =>
                    '(r, visited) ← references_input_object_rec defs fuel name inner
                                      ({[field_type_name]} ∪ visited);
                    match r with
                    | Some chain => Ret (Some (chain ++ [argument_name field]), visited)
                    | None => go fields visited
                    end
                | _ => go fields visited
                end
        end) fields visited
  end.
Definition cycle_fuel (defs : gmap string TypeDefinition) : nat := S (size defs).
Definition input_object_cycles (input_object_name : string) (fields : list InputValueDefinition) : V unit :=
  ctx ← get_ctx;
  r ← vlift (references_input_object_rec (definition_names ctx) (cycle_fuel (definition_names ctx))
               input_object_name fields ∅);
  match r.1 with
  | Some chain => push_error (InputObjectCycle input_object_name (reverse chain))
  | None => mret ()
  end.

Definition validate_input_field (parent_type_name : string) (field : InputValueDefinition) : V unit :=
  validate_directives (iv_directives field) LInputFieldDefinition;;
  check_input_position (iv_ty field) (parent_type_name +:+ "." +:+ argument_name field).
Definition validate_input_object (parent_type_name : string) (type_definition : TypeDefinition)
    (fields : list InputValueDefinition) : V unit :=
  validate_directives (t_directives type_definition) LInputObject;;
  (if decide (fields = []) then empty_input_object parent_type_name else mret ());;
  for_each fields (validate_input_field parent_type_name);;
  input_object_cycles parent_type_name fields.
Definition validate_input_object_extension (type_name : string) (type_definition : TypeDefinition) : V unit :=
  validate_directives (t_directives type_definition) LInputObject;;
  check_extends is_input_object type_name (CannotExtendUnknownInputObject type_name).

(** ** Enums, unions and scalars *)
Definition validate_enum_members (type_name : string) (type_definition : TypeDefinition)
    (enm_values : list EnumValueDefinition) : V unit :=
  validate_directives (t_directives type_definition) LEnum;;
  with_enum_values type_name enm_values (λ values,
    find_duplicates (evd_value <$> values) (λ idx _,
      value ← vlift (index enm_values idx);
      push_error (DuplicateEnumValue type_name (evd_value value)));;
    for_each values (λ value, validate_directives (evd_directives value) LInputFieldDefinition)).
Definition validate_enum_extension (type_name : string) (type_definition : TypeDefinition) : V unit :=
  validate_directives (t_directives type_definition) LEnum;;
  check_extends is_enum type_name (CannotExtendUnknownEnum type_name).

Definition validate_union_extension (type_name : string) (type_definition : TypeDefinition) : V unit :=
  validate_directives (t_directives type_definition) LUnion;;
  check_extends is_union type_name (CannotExtendUnknownUnion type_name).
Definition validate_union_member (type_name member_name : string) : V unit :=
  ctx ← get_ctx;
  match definition_names ctx !! member_name with
  | Some definition =>
      if is_object (Some (t_kind definition)) then mret ()
      else push_error (UnionNonObjectMember member_name type_name)
  | None => push_error (UnionUnknownMember member_name type_name)
  end.
Definition validate_union_members (type_name : string) (type_definition : TypeDefinition)
    (members : list string) : V unit :=
  validate_directives (t_directives type_definition) LUnion;;
  with_union_members type_name members (λ members,
    for_each members (validate_union_member type_name);;
    find_duplicates members (λ first _,
      name ← vlift (index members first);
      push_error (UnionDuplicateMember type_name name))).

Definition validate_scalar_extension (type_name : string) (type_definition : TypeDefinition) : V unit :=
  validate_directives (t_directives type_definition) LScalar;;
  check_extends (λ k, is_builtin_scalar type_name || is_scalar k) type_name
    (CannotExtendUnknownScalar type_name).

(** ** The schema definition *)
Definition schema_label (text : option string) (pos : Pos) : Label :=
  MkLabel text pos (String.length "schema").
Definition validate_schema_definition (def : SchemaDefinition) : V unit :=
  ctx ← get_ctx;
  modify (set_schema_definition None);;
  match schema_definition ctx with
  | Some previous_def =>
      push_error (DuplicateSchemaDefinition
        (schema_label (Some "Previous definition") (sd_pos previous_def))
        (schema_label (Some "Second definition") (sd_pos def)))
  | None => mret ()
  end;;
  modify (set_schema_definition (Some def)).

Definition root_names (def : SchemaDefinition) : list (option string * string) :=
  [(sd_query def, "Query"); (sd_mutation def, "Mutation"); (sd_subscription def, "Subscription")].
Definition validate_root (pos : Pos) (root : option string * string) : V unit :=
  match root.1 with
  | None => mret ()
  | Some actual =>
      ctx ← get_ctx;
      match definition_names ctx !! actual with
      | None => push_error (UnknownRoot root.2 actual (schema_label None pos))
      | Some referenced =>
          if is_object (Some (t_kind referenced)) then mret ()
          else push_error (RootNotObject root.2 (name_node (t_name referenced)))
      end
  end.
Definition validate_schema_definition_references : V unit :=
  ctx ← get_ctx;
  match schema_definition ctx with
  | None => mret ()
  | Some def =>
      validate_directives (sd_directives def) LSchema;;
      let names := root_names def in
      for_each (seq 0 (length names)) (λ idx,
        name ← vlift (index names idx);
        let name := default name.2 name.1 in
        for_each (drop 1 (drop idx names)) (λ other_name,
          let other_name := default other_name.2 other_name.1 in
          if String.eqb name other_name then push_error (TypeUsedTwice name) else mret ()));;
      for_each names (validate_root (sd_pos def))
  end.

Definition validate_root_types : V unit :=
  ctx ← get_ctx;
  match schema_definition ctx with
  | Some _ => mret ()
  | None =>
      for_each ["Query"; "Mutation"; "Subscription"] (λ name,
        ctx ← get_ctx;
        match definition_names ctx !! name with
        | Some def =>
            if is_object (Some (t_kind def)) then mret () else push_error (DefaultRootNotObject name)
        | None => mret ()
        end)
  end.

(** ** The two passes *)

(** [self.definition_names.insert(type_name, typedef)]. *)
Definition definition_names_insert (type_name : string) (typedef : TypeDefinition) : V (option TypeDefinition) :=
  λ c, Ret (definition_names c !! type_name, set_definition_names <[type_name := typedef]> c).

Definition validate_type_definition (typedef : TypeDefinition) : V unit :=
  let type_name := name_node (t_name typedef) in
  (if negb (t_extend typedef) && is_builtin_scalar type_name
   then push_error (ReservedName type_name (name_label None (t_name typedef))) else mret ());;
  (if starts_with_double_underscore type_name
   then double_underscore_name type_name (name_pos (t_name typedef)) else mret ());;
  if t_extend typedef then
    match t_kind typedef with
    | Object implements fields | Interface implements fields =>
        modify (set_extended_fields (push_entry type_name fields));;
        modify (set_extended_implements (extend_entry type_name implements))
    | Enum values => modify (set_extended_enums (push_entry type_name values))
    | Union members => modify (set_extended_unions (push_entry type_name members))
    | _ => mret ()
    end
  else
    existing ← definition_names_insert type_name typedef;
    match existing with
    | Some existing_typedef =>
        push_error (DuplicateDefinition type_name
          (name_label (Some "Previous definition") (t_name existing_typedef))
          (name_label (Some "Second definition") (t_name typedef)))
    | None => mret ()
    end.

Definition validate_definition_second_pass (def : TypeSystemDefinition) : V unit :=
  match def with
  | TSSchema _ | TSDirective _ => mret ()
  | TSType typedef =>
      let type_name := name_node (t_name typedef) in
      let is_extension := t_extend typedef in
      match t_kind typedef with
      | Object implements fields =>
          if is_extension then validate_object_extension type_name typedef
          else validate_object type_name typedef implements fields
      | Interface implements fields =>
          if is_extension then validate_interface_extension type_name typedef
          else validate_interface type_name typedef implements fields
      | InputObject fields =>
          if is_extension then validate_input_object_extension type_name typedef
          else validate_input_object type_name typedef fields
      | Union members =>
          if is_extension then validate_union_extension type_name typedef
          else validate_union_members type_name typedef members
      | Enum values =>
          if is_extension then validate_enum_extension type_name typedef
          else validate_enum_members type_name typedef values
      | Scalar =>
          if is_extension then validate_scalar_extension type_name typedef else mret ()
      end
  end.
Definition validate_definitions_second_pass (ast : Document) : V unit :=
  for_each ast validate_definition_second_pass.

Definition validate_definition_first_pass (def : TypeSystemDefinition) : V unit :=
  match def with
  | TSSchema def => validate_schema_definition def
  | TSType typedef => validate_type_definition typedef
  | TSDirective def => validate_directive_definition def
  end.
Definition validate (parsed_ast : Document) : V unit :=
  for_each parsed_ast validate_definition_first_pass;;
  validate_schema_definition_references;;
  validate_root_types;;
  validate_definitions_second_pass parsed_ast.

(** ** [lib.rs], over the parser of [async-graphql-parser] *)
Definition validate_with_options (parse_schema : string → string + Document) (sdl : string)
    (opts : Options) : res (list Report) :=
  match parse_schema sdl with
  | inl err => Ret [SyntaxError err]
  | inr parsed_ast => '(_, ctx) ← validate parsed_ast (Context_new opts); Ret (errors ctx)
  end.
Definition validate_sdl (parse_schema : string → string + Document) (sdl : string) : res (list Report) :=
  validate_with_options parse_schema sdl 0%N.
Definition has_errors (diagnostics : list Report) : bool := negb (bool_decide (diagnostics = [])).
End validate.
