(* ===== verification/ValidationLogic.v ===== *)
(** * A logic for the validation rules

    A rule of [graphql-schema-validation] reads the static part of the context
    and pushes errors. [judges e m e' P N] says of a rule [m]: started in a
    context whose static part is [e], it panics exactly when [N] holds;
    otherwise it ends with the static part [e'], and it has pushed no error
    exactly when [P] holds. There is one rule per combinator; duplicates are
    reduced to a loop over the pairs of consecutive occurrences. *)
From S2P Require Import Prelude CheckSchema ValidationContext Validation.
Local Open Scope string_scope.
Local Open Scope list_scope.
Local Open Scope nat_scope.

(** The context without its diagnostics and the reusable buffer. *)
Definition static (c : Context) : Context := set_errors (λ _, []) (set_strings_buf (λ _, ∅) c).

Definition judges (e : Context) (m : V unit) (e' : Context) (P N : Prop) : Prop :=
  ∀ c, static c = e →
    match m c with
    | Ret (_, c') => ¬ N ∧ static c' = e' ∧ ∃ es, errors c' = errors c ++ es ∧ (es = [] ↔ P)
    | Panic _ => N
    end.

Declare Scope validation_scope.
Delimit Scope validation_scope with validation.
(** A rule that only pushes errors, and none exactly when [P] holds. *)
Notation "e ⊢ m ⟹ P" := (judges e m e P False) (at level 70, m at level 60, P at level 65) : validation_scope.
Local Open Scope validation_scope.

(** ** Structural rules *)
Lemma judges_iff e m e' P P' N N' :
  judges e m e' P N → (P ↔ P') → (N ↔ N') → judges e m e' P' N'.
Proof.
  intros Hm HP HN c Hc. specialize (Hm c Hc). destruct (m c) as [[u c']|]; [|by apply HN].
  destruct Hm as (Hn & Hs & es & He & Hes). split; [by rewrite <-HN|]. split; [done|].
  exists es. by rewrite Hes, HP.
Qed.
(** Rules are judged up to pointwise equality, conditions up to equivalence. *)
Global Instance judges_proper :
  Proper ((=) ==> pointwise_relation Context (=) ==> (=) ==> iff ==> iff ==> iff) judges.
Proof.
  intros e ? <- m m' Hm e' ? <- P P' HP N N' HN. split; intros Hj.
  - eapply judges_iff; [|done..]. intros c Hc. rewrite <-Hm. by apply Hj.
  - eapply judges_iff; [|by symmetry..]. intros c Hc. rewrite Hm. by apply Hj.
Qed.
Lemma judges_ret e : e ⊢ mret () ⟹ True.
Proof. intros c Hc. split; [by intros []|]. split; [done|]. exists []. by rewrite app_nil_r. Qed.
Lemma judges_push e err : e ⊢ push_error err ⟹ False.
Proof. intros c Hc. split; [by intros []|]. split; [by rewrite <-Hc|]. by exists [err]. Qed.
Lemma judges_panic e e' msg P : judges e (vlift (Panic msg)) e' P True.
Proof. by intros c Hc. Qed.
Lemma judges_seq e m1 e1 P1 N1 m2 e2 P2 N2 :
  judges e m1 e1 P1 N1 → judges e1 m2 e2 P2 N2 →
  judges e (m1;; m2) e2 (P1 ∧ P2) (N1 ∨ N2).
Proof.
  intros H1 H2 c Hc. specialize (H1 c Hc). unfold mbind, V_bind. destruct (m1 c) as [[u c1]|]; [|by left].
  destruct H1 as (Hn1 & Hs1 & es1 & He1 & Hes1). simpl. specialize (H2 c1 Hs1).
  destruct (m2 c1) as [[u' c2]|]; [|by right]. destruct H2 as (Hn2 & Hs2 & es2 & He2 & Hes2).
  split; [tauto|]. split; [done|]. exists (es1 ++ es2).
  rewrite He2, He1, <-(assoc_L (++)), <-Hes1, <-Hes2. split; [done|]. apply app_nil.
Qed.
Lemma judges_get e (k : Context → V unit) e' P N :
  (∀ c, static c = e → judges e (k c) e' P N) → judges e (ctx ← get_ctx; k ctx) e' P N.
Proof. intros Hk c Hc. apply (Hk c Hc c Hc). Qed.
Lemma judges_lift {A} e (r : res A) a (k : A → V unit) e' P N :
  r = Ret a → judges e (k a) e' P N → judges e (x ← vlift r; k x) e' P N.
Proof. intros -> Hk c Hc. apply (Hk c Hc). Qed.
Lemma judges_lift_panic {A} e msg (k : A → V unit) e' P :
  judges e (x ← vlift (Panic msg); k x) e' P True.
Proof. by intros c Hc. Qed.
Lemma judges_for {A} e (f : A → V unit) P N l :
  (∀ x, x ∈ l → judges e (f x) e (P x) (N x)) →
  judges e (for_each l f) e (Forall P l) (Exists N l).
Proof.
  induction l as [|x l IH]; intros Hf; simpl.
  - eapply judges_iff; [apply judges_ret|by rewrite Forall_nil|]. by rewrite Exists_nil.
  - eapply judges_iff; [eapply judges_seq; [apply Hf; set_solver|apply IH; set_solver]| |].
    + by rewrite Forall_cons.
    + by rewrite Exists_cons.
Qed.

(** ** Rules for quiet judgements *)
Lemma quiet_iff e m P P' : e ⊢ m ⟹ P → (P ↔ P') → e ⊢ m ⟹ P'.
Proof. intros Hm HP. eapply judges_iff; [exact Hm|exact HP|tauto]. Qed.
Lemma quiet_seq e m1 m2 P1 P2 : e ⊢ m1 ⟹ P1 → e ⊢ m2 ⟹ P2 → e ⊢ (m1;; m2) ⟹ (P1 ∧ P2).
Proof. intros H1 H2. eapply judges_iff; [by eapply judges_seq|done|tauto]. Qed.
Lemma quiet_for {A} e (f : A → V unit) (P : A → Prop) l :
  (∀ x, x ∈ l → e ⊢ f x ⟹ P x) → e ⊢ for_each l f ⟹ (Forall P l).
Proof.
  intros Hf. eapply judges_iff; [by apply (judges_for e f P (λ _, False))|done|].
  rewrite Exists_exists. split; [by intros (? & _ & ?)|by intros []].
Qed.
Lemma quiet_if e (b : bool) m : e ⊢ m ⟹ False → e ⊢ (if b then m else mret ()) ⟹ (b = false).
Proof. intros Hm. destruct b; (eapply quiet_iff; [first [exact Hm|apply judges_ret]|naive_solver]). Qed.
Lemma quiet_unless e (b : bool) m : e ⊢ m ⟹ False → e ⊢ (if b then mret () else m) ⟹ (b = true).
Proof. intros Hm. destruct b; (eapply quiet_iff; [first [exact Hm|apply judges_ret]|naive_solver]). Qed.
Lemma quiet_decide e Q `{Decision Q} m : e ⊢ m ⟹ False → e ⊢ (if decide Q then m else mret ()) ⟹ (¬ Q).
Proof. intros Hm. case_decide; [eapply quiet_iff; [done|tauto]|]. eapply quiet_iff; [apply judges_ret|tauto]. Qed.

(** ** Duplicates *)

(** [m] neither reads nor writes the buffer of names. *)
Definition buf_frame (m : V unit) : Prop := ∀ c b,
  m (set_strings_buf (λ _, b) c) = '(u, c') ← m c; Ret (u, set_strings_buf (λ _, b) c').

Lemma frame_ret : buf_frame (mret ()).
Proof. done. Qed.
Lemma frame_push err : buf_frame (push_error err).
Proof. done. Qed.
Lemma frame_lift {A} (r : res A) k : (∀ a, buf_frame (k a)) → buf_frame (a ← vlift r; k a).
Proof. intros Hk c b. destruct r as [a|]; [apply Hk|done]. Qed.
Lemma frame_seq m1 m2 : buf_frame m1 → buf_frame m2 → buf_frame (m1;; m2).
Proof.
  intros H1 H2 c b. unfold mbind, V_bind. rewrite H1. destruct (m1 c) as [[u c1]|]; [|done]. apply H2.
Qed.
Lemma frame_for {A} (f : A → V unit) l : (∀ x, buf_frame (f x)) → buf_frame (for_each l f).
Proof. intros Hf. induction l as [|x l IH]; [apply frame_ret|]. by apply frame_seq. Qed.
#[export] Hint Resolve frame_ret frame_push frame_lift frame_seq : grafbase.

(** The last position of each name. *)
Definition positions (names : list string) : gmap string nat :=
  foldl (λ m '(i, n), <[n := i]> m) ∅ (zip (seq 0 (length names)) names).
(** The consecutive occurrences of the names, in the order of the second. *)
Fixpoint pairs_from (pre names : list string) : list (nat * nat) :=
  match names with
  | [] => []
  | n :: names =>
      match positions pre !! n with Some i => [(i, length pre)] | None => [] end
      ++ pairs_from (pre ++ [n]) names
  end.
Definition duplicate_pairs (names : list string) : list (nat * nat) := pairs_from [] names.

Lemma zip_seq_snoc {A} (l : list A) x k :
  zip (seq k (length (l ++ [x]))) (l ++ [x]) = zip (seq k (length l)) l ++ [(k + length l, x)].
Proof.
  rewrite length_app. simpl. rewrite Nat.add_1_r, seq_S.
  rewrite zip_with_app by by rewrite length_seq. done.
Qed.
Lemma positions_snoc pre n : positions (pre ++ [n]) = <[n := length pre]> (positions pre).
Proof. unfold positions. by rewrite zip_seq_snoc, foldl_app. Qed.
Lemma positions_spec names n i :
  positions names !! n = Some i ↔ names !! i = Some n ∧ ∀ k, i < k → names !! k ≠ Some n.
Proof.
  revert i. induction names as [|x names IH] using rev_ind; intros i.
  { change (positions []) with (∅ : gmap string nat). rewrite lookup_empty. naive_solver. }
  rewrite positions_snoc. destruct (decide (x = n)) as [->|Hne].
  - rewrite lookup_insert_eq. split.
    + intros [= <-]. split; [by rewrite list_lookup_middle|]. intros k Hk Hl.
      apply lookup_lt_Some in Hl. rewrite length_app in Hl. simpl in *. lia.
    + intros [Hi Hmax]. f_equal. apply lookup_lt_Some in Hi as Hlt. rewrite length_app in Hlt. simpl in Hlt.
      destruct (decide (i = length names)) as [->|]; [done|]. exfalso.
      apply (Hmax (length names)); [lia|]. by rewrite list_lookup_middle.
  - rewrite lookup_insert_ne by done. rewrite IH.
    assert (∀ k, (names ++ [x]) !! k = Some n ↔ names !! k = Some n) as E.
    { intros k. rewrite lookup_snoc_Some. split; [naive_solver|].
      intros Hk. left. split; [by apply lookup_lt_Some in Hk|done]. }
    rewrite E. by setoid_rewrite E.
Qed.

(** Two consecutive occurrences of one name. *)
Definition consecutive (names : list string) (i j : nat) : Prop :=
  i < j ∧ (∃ n, names !! i = Some n ∧ names !! j = Some n ∧ ∀ k, i < k < j → names !! k ≠ Some n).

Lemma elem_of_pairs_from pre names i j :
  (i, j) ∈ pairs_from pre names ↔ length pre ≤ j ∧ consecutive (pre ++ names) i j.
Proof.
  revert pre. induction names as [|n names IH]; intros pre; simpl.
  { split; [by intros ?%elem_of_nil|]. intros (Hj & _ & n & _ & Hn & _). apply lookup_lt_Some in Hn.
    rewrite app_nil_r in Hn. lia. }
  rewrite elem_of_app, IH, length_app, <-(assoc_L (++)). simpl.
  enough ((i, j) ∈ match positions pre !! n with Some i0 => [(i0, length pre)] | None => [] end
    ↔ j = length pre ∧ consecutive (pre ++ n :: names) i j) as ->.
  { destruct (decide (j = length pre)) as [->|Hne]; [|intuition lia].
    split; [intros [[_ ?]|[? _]]; [by split|lia]|]. intros [_ ?]. by left. }
  transitivity (j = length pre ∧ positions pre !! n = Some i).
  { destruct (positions pre !! n) as [i0|]; [|set_solver].
    rewrite list_elem_of_singleton. naive_solver. }
  rewrite positions_spec. split; intros [-> H']; (split; [done|]).
  - destruct H' as [Hi Hmax]. apply lookup_lt_Some in Hi as Hlt. split; [done|]. exists n.
    rewrite lookup_app_l, list_lookup_middle by done. split_and!; [done..|].
    intros k Hk. rewrite lookup_app_l by lia. apply Hmax. lia.
  - destruct H' as (Hlt & n' & Hi & Hn & Hmax). rewrite list_lookup_middle in Hn by done. simplify_eq.
    rewrite lookup_app_l in Hi by done. split; [done|]. intros k Hk Hl. apply lookup_lt_Some in Hl as Hkl.
    apply (Hmax k); [lia|]. by rewrite lookup_app_l.
Qed.
Lemma elem_of_duplicate_pairs names i j : (i, j) ∈ duplicate_pairs names ↔ consecutive names i j.
Proof. unfold duplicate_pairs. rewrite elem_of_pairs_from. simpl. intuition lia. Qed.

Lemma pairs_from_sorted pre names : StronglySorted lt (pairs_from pre names).*2.
Proof.
  revert pre. induction names as [|n names IH]; intros pre; simpl; [constructor|].
  destruct (positions pre !! n) as [i|]; [|apply IH]. simpl. constructor; [apply IH|].
  apply Forall_forall. intros j ([i' j'] & -> & [Hj _]%elem_of_pairs_from)%list_elem_of_fmap.
  rewrite length_app in Hj. simpl in *. lia.
Qed.
Lemma find_duplicates_loop_spec (h : nat → nat → V unit) pre names c :
  (∀ i j, buf_frame (h i j)) →
  find_duplicates_loop (length pre) names h (set_strings_buf (λ _, positions pre) c) =
    '(_, c') ← for_each (pairs_from pre names) (λ '(i, j), h i j) c;
    Ret ((), set_strings_buf (λ _, positions (pre ++ names)) c').
Proof.
  intros Hh. revert pre c. induction names as [|n names IH]; intros pre c.
  { simpl. by rewrite app_nil_r. }
  cbn [find_duplicates_loop pairs_from].
  transitivity ((match positions pre !! n with Some i => h i (length pre) | None => mret () end;;
    find_duplicates_loop (length (pre ++ [n])) names h) (set_strings_buf (λ _, positions (pre ++ [n])) c)).
  { rewrite positions_snoc, length_app, Nat.add_1_r. by destruct c. }
  specialize (IH (pre ++ [n])). rewrite <-(assoc_L (++)) in IH. simpl in IH.
  unfold mbind, V_bind. destruct (positions pre !! n) as [i|]; [|apply IH].
  rewrite (Hh i (length pre)). simpl. unfold mbind, V_bind.
  destruct (h i (length pre) c) as [[u c']|]; [|done]. apply IH.
Qed.

(** [find_duplicates] calls its handler on the consecutive occurrences. *)
Lemma find_duplicates_for_each (h : nat → nat → V unit) names c :
  (∀ i j, buf_frame (h i j)) →
  find_duplicates names h c =
    '(_, c') ← for_each (duplicate_pairs names) (λ '(i, j), h i j) c;
    Ret ((), set_strings_buf (λ _, positions names) c').
Proof. intros Hh. by apply (find_duplicates_loop_spec h [] names c). Qed.

Lemma judges_find_duplicates e names h (P N : nat → nat → Prop) :
  (∀ i j, buf_frame (h i j)) →
  (∀ i j, consecutive names i j → judges e (h i j) e (P i j) (N i j)) →
  judges e (find_duplicates names h) e
    (∀ i j, consecutive names i j → P i j) (∃ i j, consecutive names i j ∧ N i j).
Proof.
  intros Hf Hh. apply (judges_iff e _ e (Forall (λ '(i, j), P i j) (duplicate_pairs names)) _
    (Exists (λ '(i, j), N i j) (duplicate_pairs names))).
  - intros c Hc. rewrite find_duplicates_for_each by done.
    opose proof (judges_for e (λ '(i, j), h i j) (λ '(i, j), P i j) (λ '(i, j), N i j)
      (duplicate_pairs names) _ c Hc) as Hj; [intros [i j] Hij%elem_of_duplicate_pairs; by apply Hh|].
    destruct (for_each _ _ c) as [[u c']|]; [|done]. exact Hj.
  - rewrite Forall_forall. setoid_rewrite <-elem_of_duplicate_pairs. split; [by intros H i j ?%H|].
    intros H [i j] ?. by apply H.
  - rewrite Exists_exists. setoid_rewrite <-elem_of_duplicate_pairs. split; [intros ([i j] & ?); eauto|].
    intros (i & j & ?). by exists (i, j).
Qed.

(** A name that occurs twice. *)
Definition occurs_twice (names : list string) (n : string) : Prop :=
  ∃ i j, i < j ∧ names !! i = Some n ∧ names !! j = Some n.
Lemma consecutive_twice names i j n :
  consecutive names i j → names !! i = Some n ∨ names !! j = Some n → occurs_twice names n.
Proof. intros (? & n' & ? & ? & _) [?|?]; simplify_eq; exists i, j; done. Qed.
Lemma twice_consecutive names n :
  occurs_twice names n → ∃ i j, consecutive names i j ∧ names !! i = Some n ∧ names !! j = Some n.
Proof.
  intros (i & j & Hij & Hi & Hj).
  remember (j - i) as d eqn:Hd. revert i j Hij Hi Hj Hd. induction (lt_wf d) as [d _ IH]. intros i j Hij Hi Hj Hd.
  destruct (decide (Exists (λ k, names !! k = Some n) (seq (S i) (j - S i)))) as [Hex|Hno].
  - apply Exists_exists in Hex as (k & Hk%elem_of_seq & Hkn).
    apply (IH (j - k)) with k j; lia || done.
  - exists i, j. split; [|done]. split; [done|]. exists n. split_and!; [done..|]. intros k Hk Hkn.
    apply Hno, Exists_exists. exists k. rewrite elem_of_seq. split; [lia|done].
Qed.
Lemma NoDup_not_twice names : NoDup names ↔ ∀ n, ¬ occurs_twice names n.
Proof.
  rewrite NoDup_alt. split.
  - intros Hn n (i & j & ? & Hi & Hj). specialize (Hn i j n Hi Hj). lia.
  - intros Hn i j n Hi Hj. destruct (Nat.lt_trichotomy i j) as [?|[?|?]]; [|done|]; exfalso; apply (Hn n);
      [exists i, j|exists j, i]; done.
Qed.

(** A handler that always reports: no error exactly when the names are distinct. *)
Lemma quiet_no_duplicates e names h :
  (∀ i j, buf_frame (h i j)) →
  (∀ i j n, names !! i = Some n → names !! j = Some n → e ⊢ h i j ⟹ False) →
  e ⊢ find_duplicates names h ⟹ (NoDup names).
Proof.
  intros Hf Hh. eapply judges_iff.
  - apply (judges_find_duplicates e names h (λ _ _, False) (λ _ _, False)); [done|].
    intros i j (_ & n & Hi & Hj & _). by apply (Hh i j n).
  - rewrite NoDup_not_twice. split.
    + intros Hc n (i & j & Hij & _)%twice_consecutive. eauto.
    + intros Hn i j Hij. pose proof Hij as (_ & n & Hi & _). apply (Hn n). eapply consecutive_twice; eauto.
  - naive_solver.
Qed.

(** ** Cycles of input objects

    [input_object_cycles.rs] looks for a chain of required fields that leads
    from an input object back to itself. The search returns, finds a chain when
    there is one, and the chain it reports is one. *)

(** The fields a chain follows: non-null and not a list. *)
Definition required_named (f : InputValueDefinition) : bool :=
  negb (nullable (iv_ty f)) && negb (is_list (iv_ty f)).
Definition target (f : InputValueDefinition) : string := extract_type_name (iv_ty f).

(** A chain of required fields from [fields] to the input object [name]. *)
Inductive chain_to (defs : gmap string TypeDefinition) (name : string) :
    list InputValueDefinition → list string → Prop :=
| chain_here fields f :
    f ∈ fields → required_named f = true → target f = name →
    chain_to defs name fields [argument_name f]
| chain_step fields f inner chain :
    f ∈ fields → required_named f = true →
    t_kind <$> defs !! target f = Some (InputObject inner) →
    chain_to defs name inner chain →
    chain_to defs name fields (argument_name f :: chain).

Lemma chain_to_cons defs name fields f chain :
  chain_to defs name fields chain → chain_to defs name (f :: fields) chain.
Proof.
  destruct 1; [eapply chain_here|eapply chain_step]; eauto; by apply list_elem_of_further.
Qed.
#[local] Hint Resolve chain_to_cons : grafbase.

Section search.
Context (defs : gmap string TypeDefinition) (name : string).

(** The required fields of [fields] end neither in [name] nor in an input
    object that has not been visited. *)
Definition explored (visited : gset string) (fields : list InputValueDefinition) : Prop :=
  ∀ f, f ∈ fields → required_named f = true →
    target f ≠ name ∧
    (target f ∈ visited ∨ ∀ inner, t_kind <$> defs !! target f ≠ Some (InputObject inner)).

Lemma explored_mono v v' fields : v ⊆ v' → explored v fields → explored v' fields.
Proof. intros Hv He f Hf Hr. destruct (He f Hf Hr) as [? [?|?]]; split; auto. Qed.

Lemma explored_no_chain visited fields chain :
  (∀ t inner, t ∈ visited → t_kind <$> defs !! t = Some (InputObject inner) → explored visited inner) →
  explored visited fields → ¬ chain_to defs name fields chain.
Proof.
  intros Hv He Hc. induction Hc as [fields f Hf Hr Ht|fields f inner chain Hf Hr Hd _ IH].
  - by destruct (He f Hf Hr).
  - destruct (He f Hf Hr) as [_ [Hin|Hno]]; [|by eapply Hno]. by eapply IH, Hv.
Qed.

(** What a search that returned guarantees. *)
Definition search_post (fields : list InputValueDefinition) (visited : gset string)
    (r : option (list string) * gset string) : Prop :=
  visited ⊆ r.2 ∧
  match r.1 with
  | Some chain => chain_to defs name fields (reverse chain)
  | None =>
      explored r.2 fields ∧
      ∀ t inner, t ∈ r.2 → t ∉ visited → t_kind <$> defs !! t = Some (InputObject inner) → explored r.2 inner
  end.

(** A first field that adds nothing to what is explored. *)
Lemma search_post_skip f fields visited r :
  (required_named f = true → target f ≠ name ∧
    (target f ∈ visited ∨ ∀ inner, t_kind <$> defs !! target f ≠ Some (InputObject inner))) →
  search_post fields visited r → search_post (f :: fields) visited r.
Proof.
  intros Hf [Hv Hr]. split; [done|]. destruct (r.1) as [chain|]; [by apply chain_to_cons|].
  destruct Hr as [He Ht]. split; [|done]. intros g [->|Hg]%elem_of_cons Hreq; [|by apply He].
  destruct (Hf Hreq) as [? [?|?]]; split; auto.
Qed.
(** A first field whose input object was searched in vain. *)
Lemma search_post_visit f fields inner visited v r :
  target f ≠ name → t_kind <$> defs !! target f = Some (InputObject inner) →
  search_post inner ({[target f]} ∪ visited) (None, v) → search_post fields v r →
  search_post (f :: fields) visited r.
Proof.
  intros Hne Hd [Hv1 [He1 Ht1]] [Hv2 Hr]. simpl in *. split; [set_solver|].
  destruct (r.1) as [chain|]; [by apply chain_to_cons|]. destruct Hr as [He Ht]. split.
  - intros g [->|Hg]%elem_of_cons Hreq; [|by apply He]. split; [done|]. left. set_solver.
  - intros t inner' Htr Htv Hd'. destruct (decide (t ∈ v)) as [Hin|]; [|by eapply Ht].
    apply (explored_mono v); [done|]. destruct (decide (t = target f)) as [->|].
    + by simplify_eq.
    + apply (Ht1 t); [done|set_solver|done].
Qed.

Lemma references_input_object_rec_spec fuel fields visited :
  size (dom defs ∖ visited) < fuel →
  ∃ r, references_input_object_rec defs fuel name fields visited = Ret r ∧ search_post fields visited r.
Proof.
  revert fields visited. induction fuel as [|fuel IHf]; intros fields visited Hfuel; [lia|].
  simpl. revert visited Hfuel. induction fields as [|f fields IH]; intros visited Hfuel.
  { eexists. split; [done|]. split; [done|]. split; [|set_solver]. by intros g ?%elem_of_nil. }
  destruct (IH visited Hfuel) as (r & Hr & Hpost). unfold required_named in *.
  destruct (nullable (iv_ty f) || is_list (iv_ty f)) eqn:Hreq.
  { exists r. split; [done|]. apply search_post_skip; [|done]. unfold required_named.
    rewrite <-negb_orb, Hreq. done. }
  assert (required_named f = true) as Hrq by (unfold required_named; by rewrite <-negb_orb, Hreq).
  destruct (String.eqb_spec (extract_type_name (iv_ty f)) name) as [Heq|Hne].
  { eexists. split; [done|]. split; [done|]. simpl. eapply chain_here; [by left|done|done]. }
  case_bool_decide as Hvis.
  { exists r. split; [done|]. apply search_post_skip; [|done]. intros _. split; [done|]. by left. }
  destruct (t_kind <$> defs !! extract_type_name (iv_ty f)) as [k|] eqn:Hk; [destruct k as [| | | | |inner]|];
    try (exists r; split; [done|]; apply search_post_skip; [|done]; intros _; split; [done|]; right;
         intros inner'; unfold target; rewrite Hk; done).
  assert (extract_type_name (iv_ty f) ∈ dom defs) as Hdom.
  { apply elem_of_dom. destruct (defs !! _); [done|discriminate]. }
  destruct (IHf inner ({[extract_type_name (iv_ty f)]} ∪ visited)) as ([o v] & Hrec & Hp).
  { assert (size (dom defs ∖ ({[extract_type_name (iv_ty f)]} ∪ visited)) < size (dom defs ∖ visited)); [|lia].
    apply subset_size. set_solver. }
  rewrite Hrec. simpl. destruct o as [chain|].
  - eexists. split; [done|]. destruct Hp as [Hv Hc]. simpl in *. split; [set_solver|]. simpl.
    rewrite reverse_app. eapply (chain_step _ _ _ f); [by left|done|done|done].
  - destruct (IH v) as (r' & Hr' & Hpost').
    { enough (size (dom defs ∖ v) ≤ size (dom defs ∖ visited)) by lia. apply subseteq_size.
      destruct Hp as [Hv _]. simpl in Hv. set_solver. }
    exists r'. split; [done|]. by eapply search_post_visit.
Qed.

(** The search of [input_object_cycles], with its fuel and no visited object. *)
Lemma cycle_search_spec fields :
  ∃ r v, references_input_object_rec defs (cycle_fuel defs) name fields ∅ = Ret (r, v) ∧
  match r with
  | Some chain => chain_to defs name fields (reverse chain)
  | None => ∀ chain, ¬ chain_to defs name fields chain
  end.
Proof.
  destruct (references_input_object_rec_spec (cycle_fuel defs) fields ∅) as ([r v] & -> & _ & Hr).
  { rewrite difference_empty_L, size_dom. unfold cycle_fuel. lia. }
  exists r, v. split; [done|]. destruct r as [chain|]; [done|]. destruct Hr as [He Ht]. intros chain.
  apply (explored_no_chain v); [|done]. intros t inner Hin. apply Ht; [done|set_solver].
Qed.
End search.

(** The rule as a judgement. *)
Lemma judges_input_object_cycles e name fields :
  e ⊢ input_object_cycles name fields ⟹ (∀ chain, ¬ chain_to (definition_names e) name fields chain).
Proof.
  apply judges_get. intros c Hc. assert (definition_names c = definition_names e) as -> by by rewrite <-Hc.
  destruct (cycle_search_spec (definition_names e) name fields) as (r & v & Hr & Hs).
  eapply judges_lift; [done|]. simpl. destruct r as [chain|].
  - eapply quiet_iff; [apply judges_push|]. split; [done|]. intros Hno. by eapply Hno.
  - eapply quiet_iff; [apply judges_ret|]. done.
Qed.
