(* ===== verification/ValidationSpec.v ===== *)
(** * When the validation rules accept

    For every rule of [graphql-schema-validation], the condition under which
    it pushes no error, as a proposition over the collected definitions, and
    the judgement that the rule decides it. *)
From S2P Require Import Prelude CheckSchema ValidationContext Validation ValidationLogic.
Local Open Scope string_scope.
Local Open Scope list_scope.
Local Open Scope nat_scope.
Local Open Scope validation_scope.

Lemma static_idemp c : static (static c) = static c.
Proof. done. Qed.
(** Extensionally equal rules are judged alike. *)
Lemma judges_ext e (m m' : V unit) e' P N :
  (∀ c, m c = m' c) → judges e m e' P N → judges e m' e' P N.
Proof. intros Hm. by rewrite (Hm : pointwise_relation _ (=) m m'). Qed.

Lemma judges_gets {A} e (g : Context → A) (k : A → V unit) e' P N :
  judges e (ctx ← get_ctx; k (g ctx)) e' P N → judges e (x ← (ctx ← get_ctx; mret (g ctx)); k x) e' P N.
Proof. by apply judges_ext. Qed.

(** Reading the context: the static part is that of [e]. *)
Ltac read_field c Hc f :=
  let H := fresh in pose proof (f_equal f Hc) as H;
  cbn [static set_errors set_strings_buf definition_names directive_names options schema_definition
       extended_fields extended_unions extended_interface_implementations extended_enums] in H;
  rewrite ?H; clear H.
Ltac read_ctx :=
  apply judges_get;
  let c := fresh "ctx" in let Hc := fresh "Hctx" in
  intros c Hc; (read_field c Hc definition_names; read_field c Hc directive_names;
    read_field c Hc options; read_field c Hc schema_definition; read_field c Hc extended_fields;
    read_field c Hc extended_unions; read_field c Hc extended_interface_implementations;
    read_field c Hc extended_enums; clear c Hc).

(** ** Types and directives *)
Definition input_kind (k : TypeKind) : bool :=
  match k with Scalar | Enum _ | InputObject _ => true | _ => false end.
Definition output_kind (k : TypeKind) : bool :=
  match k with InputObject _ => false | _ => true end.
(** [n] names a built-in scalar or a definition of a kind that satisfies [p]. *)
Definition names_type (defs : gmap string TypeDefinition) (p : TypeKind → bool) (n : string) : Prop :=
  is_builtin_scalar n = true ∨ ∃ def, defs !! n = Some def ∧ p (t_kind def) = true.

Lemma names_type_lookup defs p n :
  is_builtin_scalar n = false →
  names_type defs p n ↔ match defs !! n with Some def => p (t_kind def) = true | None => False end.
Proof.
  intros Hb. unfold names_type. rewrite Hb. destruct (defs !! n) as [def|]; split.
  - by intros [?|(? & [= <-] & ?)].
  - intros Hp. right. eauto.
  - by intros [?|(? & ? & ?)].
  - done.
Qed.
Lemma judges_check_input_position e t location :
  e ⊢ check_input_position t location ⟹ names_type (definition_names e) input_kind (extract_type_name t).
Proof.
  unfold check_input_position, validate_input_type.
  destruct (is_builtin_scalar _) eqn:Hb.
  { eapply quiet_iff; [apply judges_ret|]. split; [by left|done]. }
  apply (judges_gets e (λ ctx, match definition_names ctx !! _ with None => _ | Some _ => _ end)). read_ctx.
  destruct (definition_names e !! extract_type_name t) as [def|] eqn:Hd; [destruct (t_kind def) eqn:Hk|];
    (eapply quiet_iff; [first [apply judges_ret|apply judges_push]|]);
    rewrite names_type_lookup, Hd, ?Hk by done; done.
Qed.

(** A directive that is not defined as non-repeatable. *)
Definition repeatable (e : Context) (n : string) : Prop :=
  ∀ def, directive_names e !! n = Some def → dd_is_repeatable def = true.
Definition ok_directives (e : Context) (directives : list ConstDirective) (location : DirectiveLocation) : Prop :=
  (∀ n, occurs_twice (cd_name <$> directives) n → repeatable e n) ∧
  Forall (λ d, ∀ def, directive_names e !! cd_name d = Some def → location ∈ dd_locations def) directives.

Lemma lookup_index {A B} (f : A → B) l i n :
  (f <$> l) !! i = Some n → ∃ x, index l i = Ret x ∧ f x = n.
Proof.
  rewrite list_lookup_fmap, fmap_Some. intros (x & Hx & ->). exists x. unfold index. by rewrite Hx.
Qed.

Lemma judges_validate_directives e directives location :
  e ⊢ validate_directives directives location ⟹ ok_directives e directives location.
Proof.
  unfold validate_directives. apply quiet_seq.
  - eapply judges_iff; [apply (judges_find_duplicates _ _ _
      (λ i _, ∀ n, (cd_name <$> directives) !! i = Some n → repeatable e n) (λ _ _, False))| |].
    + intros i j c b. unfold mbind, V_bind. simpl. destruct (index directives i); [|done]. simpl.
      by destruct (default _ _).
    + intros i j (_ & n & Hi & _). destruct (lookup_index _ _ _ _ Hi) as (d & Hd & Hn).
      eapply judges_lift; [done|]. rewrite Hn. read_ctx. eapply quiet_iff; [apply quiet_unless, judges_push|].
      unfold repeatable. simpl. rewrite Hi.
      destruct (directive_names e !! n) as [def|] eqn:Hdef; simpl; naive_solver.
    + split.
      * intros Hc n (i & j & Hij & Hi & _)%twice_consecutive. by eapply Hc.
      * intros Hc i j Hij n Hi. apply Hc. eapply consecutive_twice; eauto.
    + naive_solver.
  - apply quiet_for. intros d _. read_ctx. destruct (directive_names e !! cd_name d) as [def|].
    + eapply quiet_iff; [apply quiet_unless, judges_push|]. rewrite bool_decide_eq_true. naive_solver.
    + eapply quiet_iff; [apply judges_ret|]. naive_solver.
Qed.

(** ** Arguments and fields *)
Definition ok_argument (e : Context) (arg : InputValueDefinition) : Prop :=
  starts_with_double_underscore (argument_name arg) = false ∧
  names_type (definition_names e) input_kind (extract_type_name (iv_ty arg)) ∧
  (contains (options e) DRAFT_VALIDATIONS = true → nullable (iv_ty arg) = false →
     iv_has_default arg = false → "deprecated" ∉ cd_name <$> iv_directives arg) ∧
  ok_directives e (iv_directives arg) LArgumentDefinition.
Definition ok_arguments (e : Context) (args : list InputValueDefinition) : Prop :=
  NoDup (argument_name <$> args) ∧ Forall (ok_argument e) args.
Definition ok_field (e : Context) (f : FieldDefinition) : Prop :=
  (ok_directives e (fd_directives f) LFieldDefinition ∧
   starts_with_double_underscore (name_node (fd_name f)) = false ∧
   ok_arguments e (fd_arguments f)) ∧
  names_type (definition_names e) output_kind (extract_type_name (fd_ty f)).

Lemma judges_validate_argument e parent field arg :
  e ⊢ validate_argument parent field arg ⟹ ok_argument e arg.
Proof.
  unfold validate_argument, ok_argument. apply quiet_seq; [apply quiet_if, judges_push|].
  apply quiet_seq; [apply judges_check_input_position|].
  read_ctx. apply quiet_seq; [|apply judges_validate_directives].
  destruct (contains _ _); [|eapply quiet_iff; [apply judges_ret|done]].
  eapply quiet_iff; [apply quiet_if, judges_push|]. rewrite !andb_false_iff, !negb_false_iff, bool_decide_eq_false.
  destruct (nullable _), (iv_has_default _); naive_solver.
Qed.

(** Handlers that report the name of an element. *)
Lemma quiet_report_duplicates {A} e (f : A → string) (l : list A) (second : bool) (err : A → Report) :
  e ⊢ find_duplicates (f <$> l) (λ i j, x ← vlift (index l (if second then j else i)); push_error (err x))
    ⟹ NoDup (f <$> l).
Proof.
  apply quiet_no_duplicates; [auto with grafbase|]. intros i j n Hi Hj.
  destruct (lookup_index f l (if second then j else i) n) as (x & Hx & _); [by destruct second|].
  eapply judges_lift; [exact Hx|]. apply judges_push.
Qed.

Lemma judges_validate_arguments e parent field args :
  e ⊢ validate_arguments parent field args ⟹ ok_arguments e args.
Proof.
  unfold validate_arguments. apply quiet_seq.
  - apply (quiet_report_duplicates e argument_name args true
      (λ arg, DuplicateArgument (name_node (iv_name arg)) parent field)).
  - apply quiet_for. intros arg _. apply judges_validate_argument.
Qed.

Lemma judges_validate_field e parent f : e ⊢ validate_field parent f ⟹ ok_field e f.
Proof.
  unfold validate_field, validate_object_field, ok_field. apply quiet_seq.
  - apply quiet_seq; [apply judges_validate_directives|].
    apply quiet_seq; [apply quiet_if, judges_push|apply judges_validate_arguments].
  - unfold validate_output_type. destruct (is_builtin_scalar _) eqn:Hb.
    { eapply quiet_iff; [apply judges_ret|]. split; [by left|done]. }
    apply (judges_gets e (λ ctx, match definition_names ctx !! _ with None => _ | Some _ => _ end)). read_ctx.
    destruct (definition_names e !! extract_type_name (fd_ty f)) as [def|] eqn:Hd; [destruct (t_kind def) eqn:Hk|];
      (eapply quiet_iff; [first [apply judges_ret|apply judges_push]|]);
    rewrite names_type_lookup, Hd, ?Hk by done; done.
Qed.

(** ** Implementers of interfaces

    [interface_implementers.rs]: the condition under which a type with a list
    of implemented interfaces is accepted, and the subtyping of field types,
    compared with the algorithm of the GraphQL specification. *)

(** ** Subtyping *)
Definition field_subtype (defs : gmap string TypeDefinition) (candidate iface : AType) : bool :=
  validate_implementer_wrapper_types candidate iface
  && validate_implementer_inner_type defs (extract_type_name candidate) (extract_type_name iface).

(** ** Arguments *)

(** The last argument of a name: the one a map keeps. *)
Definition last_argument (args : list InputValueDefinition) (n : string) : option InputValueDefinition :=
  last (filter (λ arg, argument_name arg = n) args).
Definition ok_argument_pair (candidate iface : option InputValueDefinition) : Prop :=
  match candidate, iface with
  | Some candidate, Some iface => iv_ty candidate = iv_ty iface
  | Some candidate, None => nullable (iv_ty candidate) = true
  | None, Some _ => False
  | None, None => True
  end.
Definition ok_arguments_implement (candidate_args iface_args : list InputValueDefinition) : Prop :=
  ∀ n, ok_argument_pair (last_argument candidate_args n) (last_argument iface_args n).

Lemma last_argument_positions args n :
  index_opt args (positions (argument_name <$> args) !! n) = Ret (last_argument args n).
Proof.
  unfold index_opt, last_argument. induction args as [|a args IH] using rev_ind; [done|].
  rewrite fmap_app, filter_app. change (argument_name <$> [a]) with [argument_name a].
  rewrite positions_snoc, filter_cons, filter_nil.
  destruct (decide (argument_name a = n)) as [->|Hne].
  - rewrite lookup_insert_eq, last_snoc. unfold index. rewrite length_fmap, list_lookup_middle by done. done.
  - rewrite lookup_insert_ne, app_nil_r by done. rewrite <-IH.
    destruct (positions _ !! n) as [i|] eqn:Hi; [|done].
    apply positions_spec in Hi as [Hi%lookup_lt_Some _]. rewrite length_fmap in Hi.
    unfold index. by rewrite lookup_app_l.
Qed.

(** The map of indices pairs the last positions. *)
Definition pair_up (a b : option nat) : option (option nat * option nat) :=
  match a, b with None, None => None | _, _ => Some (a, b) end.

Lemma paired_candidates args :
  foldl (λ (args : gmap string (option nat * option nat)) '(idx, arg),
    <[argument_name arg := (Some idx, None)]> args) ∅ (zip (seq 0 (length args)) args)
  = (λ i, (Some i, None)) <$> positions (argument_name <$> args).
Proof.
  induction args as [|a args IH] using rev_ind; [symmetry; apply (fmap_empty (M := gmap string))|].
  rewrite zip_seq_snoc, foldl_app, IH, fmap_app. change (argument_name <$> [a]) with [argument_name a].
  rewrite positions_snoc. simpl.
  by rewrite fmap_insert, length_fmap.
Qed.
Lemma paired_arguments_lookup cargs iargs n :
  paired_arguments cargs iargs !! n =
    pair_up (positions (argument_name <$> cargs) !! n) (positions (argument_name <$> iargs) !! n).
Proof.
  unfold paired_arguments. rewrite paired_candidates. revert n.
  induction iargs as [|a iargs IH] using rev_ind; intros n.
  { simpl. rewrite lookup_fmap. change (positions []) with (∅ : gmap string nat). rewrite lookup_empty.
    by destruct (positions _ !! n). }
  rewrite zip_seq_snoc, foldl_app, fmap_app. change (argument_name <$> [a]) with [argument_name a].
  rewrite positions_snoc, length_fmap. simpl.
  destruct (decide (argument_name a = n)) as [->|Hne].
  - rewrite !lookup_insert_eq, IH. by destruct (positions _ !! n), (positions (argument_name <$> iargs) !! n).
  - rewrite !lookup_insert_ne by done. apply IH.
Qed.

Lemma paired_arguments_Some cargs iargs n p :
  paired_arguments cargs iargs !! n = Some p →
  p = (positions (argument_name <$> cargs) !! n, positions (argument_name <$> iargs) !! n).
Proof.
  rewrite paired_arguments_lookup. unfold pair_up.
  destruct (positions (_ <$> cargs) !! n), (positions (_ <$> iargs) !! n); by intros [= <-].
Qed.
Lemma paired_arguments_None cargs iargs n :
  paired_arguments cargs iargs !! n = None ↔ last_argument cargs n = None ∧ last_argument iargs n = None.
Proof.
  rewrite paired_arguments_lookup.
  pose proof (last_argument_positions cargs n) as Ea. pose proof (last_argument_positions iargs n) as Eb.
  unfold index_opt in Ea, Eb. destruct (positions (_ <$> cargs) !! n) as [i|].
  { destruct (index cargs i); [|done]. injection Ea as <-. by split; [|intros []]. }
  injection Ea as <-. destruct (positions (_ <$> iargs) !! n) as [i|].
  - destruct (index iargs i); [|done]. injection Eb as <-. by split; [|intros []].
  - by injection Eb as <-.
Qed.
(** The names that occur decide the condition on arguments. *)
Lemma ok_arguments_paired cargs iargs :
  ok_arguments_implement cargs iargs ↔
  ∀ n p, paired_arguments cargs iargs !! n = Some p →
    ok_argument_pair (last_argument cargs n) (last_argument iargs n).
Proof.
  split; [intros Hok n p _; apply Hok|]. intros Hok n.
  destruct (paired_arguments cargs iargs !! n) as [p|] eqn:Hn; [by eapply Hok|].
  by apply paired_arguments_None in Hn as [-> ->].
Qed.

Section implements.
Context (into_values : gmap string (option nat * option nat) → list (option nat * option nat)).
Context (into_values_perm : ∀ m, into_values m ≡ₚ (map_to_list m).*2).

Lemma elem_of_into_values m p : p ∈ into_values m ↔ ∃ n, m !! n = Some p.
Proof.
  rewrite into_values_perm, list_elem_of_fmap. setoid_rewrite <-elem_of_map_to_list. split.
  - intros ([n q] & -> & Hin). by exists n.
  - intros [n Hn]. by exists (n, p).
Qed.

(** The body of the loop over the pairs. *)
Lemma judges_argument_pair e cargs iargs n p iface_name implementer_name field_name :
  paired_arguments cargs iargs !! n = Some p →
  e ⊢ (candidate ← vlift (index_opt cargs p.1); iface ← vlift (index_opt iargs p.2);
    match candidate, iface with
    | Some candidate, Some iface =>
        if bool_decide (iv_ty candidate = iv_ty iface) then mret ()
        else push_error (ArgumentTypeMismatch iface_name implementer_name field_name
                           (argument_name candidate) (iv_ty iface) (iv_ty candidate))
    | Some candidate, None =>
        if nullable (iv_ty candidate) then mret ()
        else push_error (ExtraRequiredArgument iface_name implementer_name field_name (argument_name candidate))
    | None, Some arg => push_error (MissingArgument iface_name implementer_name field_name (argument_name arg))
    | None, None => vlift (Panic "internal error: entered unreachable code")
    end) ⟹ ok_argument_pair (last_argument cargs n) (last_argument iargs n).
Proof.
  intros Hn. rewrite (paired_arguments_Some _ _ _ _ Hn). simpl.
  eapply judges_lift; [apply last_argument_positions|]. eapply judges_lift; [apply last_argument_positions|].
  destruct (last_argument cargs n) as [a|] eqn:Ha, (last_argument iargs n) as [b|] eqn:Hb; simpl.
  - eapply quiet_iff; [apply quiet_unless, judges_push|]. by rewrite bool_decide_eq_true.
  - apply quiet_unless, judges_push.
  - apply judges_push.
  - by rewrite (proj2 (paired_arguments_None cargs iargs n)) in Hn.
Qed.

Lemma judges_argument_pairs e iface_name implementer_name g f :
  e ⊢ validate_field_arguments_implement_interface_field into_values iface_name implementer_name g f
    ⟹ ok_arguments_implement (fd_arguments g) (fd_arguments f).
Proof.
  unfold validate_field_arguments_implement_interface_field.
  set (cargs := fd_arguments g). set (iargs := fd_arguments f).
  apply (quiet_iff e _ (Forall (λ p, ∀ a b, index_opt cargs p.1 = Ret a → index_opt iargs p.2 = Ret b →
    ok_argument_pair a b) (into_values (paired_arguments cargs iargs)))).
  - apply quiet_for. intros [ci ii] [n Hn]%elem_of_into_values.
    eapply quiet_iff; [by apply (judges_argument_pair e cargs iargs n (ci, ii))|].
    rewrite (paired_arguments_Some _ _ _ _ Hn). simpl. rewrite !last_argument_positions. naive_solver.
  - rewrite Forall_forall, ok_arguments_paired. setoid_rewrite elem_of_into_values. split.
    + intros Hp n p Hn. apply (Hp p); [by exists n|..];
        rewrite (paired_arguments_Some _ _ _ _ Hn); apply last_argument_positions.
    + intros Hok p [n Hn] a b. rewrite (paired_arguments_Some _ _ _ _ Hn). simpl.
      rewrite !last_argument_positions. intros [= <-] [= <-]. by eapply Hok.
Qed.

(** ** Fields *)
Definition first_field (fields : list FieldDefinition) (n : string) : option FieldDefinition :=
  head (filter (λ f, name_node (fd_name f) = n) fields).
Lemma list_find_first_field fields n :
  snd <$> list_find (λ f, name_node (fd_name f) = n) fields = first_field fields n.
Proof.
  unfold first_field. induction fields as [|f fields IH]; simpl; [done|].
  rewrite filter_cons. case_decide; [done|]. rewrite <-IH. by destruct (list_find _ fields) as [[]|].
Qed.

(** [g] can stand where the interface field [f] is selected. *)
Definition ok_field_implements (defs : gmap string TypeDefinition) (g f : FieldDefinition) : Prop :=
  field_subtype defs (fd_ty g) (fd_ty f) = true ∧ ok_arguments_implement (fd_arguments g) (fd_arguments f).
Definition ok_fields_implement (defs : gmap string TypeDefinition) (fields iface_fields : list FieldDefinition) : Prop :=
  Forall (λ f, ∃ g, first_field fields (name_node (fd_name f)) = Some g ∧ ok_field_implements defs g f) iface_fields.

Lemma judges_field_subtype e iface_name implementer_name g f :
  e ⊢ validate_field_type_implements_interface_field iface_name implementer_name g f
    ⟹ (field_subtype (definition_names e) (fd_ty g) (fd_ty f) = true).
Proof. read_ctx. apply quiet_unless, judges_push. Qed.

Lemma V_bind_assoc {A B C} (m : V A) (f : A → V B) (g : B → V C) c :
  (x ← m; y ← f x; g y) c = (y ← (x ← m; f x); g y) c.
Proof. unfold mbind, V_bind. by destruct (m c) as [[a c']|]. Qed.

Lemma judges_implement_fields e implementer_name iface_name fields iface_fields errs :
  e ⊢ (errs ← implement_fields into_values implementer_name iface_name fields iface_fields errs;
       for_each errs push_error)
    ⟹ (errs = [] ∧ ok_fields_implement (definition_names e) fields iface_fields).
Proof.
  revert errs. induction iface_fields as [|f iface_fields IH]; intros errs; simpl.
  { eapply quiet_iff; [apply (quiet_for e _ (λ _, False)); intros; apply judges_push|].
    destruct errs; rewrite ?Forall_nil, ?Forall_cons; unfold ok_fields_implement; rewrite Forall_nil; naive_solver. }
  unfold ok_fields_implement. rewrite Forall_cons, <-list_find_first_field.
  destruct (list_find _ fields) as [[i g]|]; simpl.
  - eapply judges_ext; [intros c; apply V_bind_assoc|cbn beta]. eapply quiet_iff.
    + apply quiet_seq; [apply judges_field_subtype|].
      eapply judges_ext; [intros c; apply V_bind_assoc|cbn beta]. apply quiet_seq; [apply judges_argument_pairs|apply IH].
    + unfold ok_field_implements. naive_solver.
  - eapply quiet_iff; [apply IH|]. split; [intros [Hn _]; by apply app_nil in Hn as []|naive_solver].
Qed.

(** ** The list of implemented interfaces *)
Definition ext_fields (e : Context) (n : string) : list FieldDefinition :=
  concat (default [] (extended_fields e !! n)).
Definition ext_implements (e : Context) (n : string) : list string :=
  default [] (extended_interface_implementations e !! n).

Definition ok_implements (e : Context) (parent_name : string) (implements : list string)
    (fields : list FieldDefinition) : Prop :=
  NoDup implements ∧
  Forall (λ iface, ∃ ty iface_implements iface_fields,
    definition_names e !! iface = Some ty ∧ t_kind ty = Interface iface_implements iface_fields ∧
    Forall (λ i, i ∈ implements) iface_implements ∧
    ok_fields_implement (definition_names e) (fields ++ ext_fields e parent_name) iface_fields) implements.

Lemma judges_validate_fields_implement e n fields iface_name iface_fields :
  e ⊢ validate_fields_implement_interface into_values n fields iface_name iface_fields
    ⟹ ok_fields_implement (definition_names e) (fields ++ ext_fields e n) iface_fields.
Proof.
  unfold validate_fields_implement_interface, with_fields. read_ctx.
  eapply quiet_iff; [apply judges_implement_fields|]. naive_solver.
Qed.
Lemma judges_transitively e parent implements iface iface_implements :
  e ⊢ validate_implements_interface_transitively parent implements iface iface_implements
    ⟹ Forall (λ i, i ∈ implements) iface_implements.
Proof.
  apply quiet_for. intros i _. eapply quiet_iff; [apply quiet_unless, judges_push|].
  by rewrite bool_decide_eq_true.
Qed.

Lemma judges_validate_implements_list e parent_name implements fields :
  e ⊢ validate_implements_list into_values parent_name implements fields
    ⟹ ok_implements e parent_name implements fields.
Proof.
  unfold validate_implements_list. apply quiet_seq.
  - pose proof (quiet_report_duplicates e id implements false (ImplementsTwice parent_name)) as H.
    by rewrite list_fmap_id in H.
  - apply quiet_for. intros iface _. read_ctx.
    destruct (definition_names e !! iface) as [ty|] eqn:Hd.
    + destruct (t_kind ty) as [| |is_ fs| | |] eqn:Hk;
        try (eapply quiet_iff; [apply judges_push|]; split; [done|]; intros (? & ? & ? & ? & ? & _); congruence).
      eapply quiet_iff; [apply quiet_seq; [apply judges_transitively|apply judges_validate_fields_implement]|].
      split; [intros []; by exists ty, is_, fs|]. intros (ty' & is' & fs' & Hd' & Hk' & ?).
      replace ty' with ty in Hk' by congruence. rewrite Hk in Hk'. by injection Hk' as <- <-.
    + eapply quiet_iff; [apply judges_push|]. split; [done|]. intros (? & ? & ? & ? & _). congruence.
Qed.
End implements.
