(* ===== verification/ValidationAccept.v ===== *)
(** * What the validator accepts

    The conditions of the definitions, of the first and of the second pass, and
    the acceptance and panics of [validate] as a whole. *)
From S2P Require Import Prelude CheckSchema ValidationContext Validation ValidationLogic ValidationSpec.
Local Open Scope string_scope.
Local Open Scope list_scope.
Local Open Scope nat_scope.
Local Open Scope validation_scope.

(** ** Extensions *)
Definition ok_extends (e : Context) (known : option TypeKind → bool) (n : string) : Prop :=
  contains (options e) FORBID_EXTENDING_UNKNOWN_TYPES = true →
  known (t_kind <$> definition_names e !! n) = true.
Lemma judges_check_extends e known n err : e ⊢ check_extends known n err ⟹ ok_extends e known n.
Proof.
  read_ctx. eapply quiet_iff; [apply quiet_if, judges_push|]. unfold ok_extends. simpl.
  rewrite andb_false_iff, negb_false_iff. destruct (contains _ _); naive_solver.
Qed.
Definition ok_extension (e : Context) (t : TypeDefinition) (location : DirectiveLocation)
    (known : option TypeKind → bool) : Prop :=
  ok_directives e (t_directives t) location ∧ ok_extends e known (name_node (t_name t)).
Lemma judges_extension e t location known err :
  e ⊢ (validate_directives (t_directives t) location;; check_extends known (name_node (t_name t)) err)
    ⟹ ok_extension e t location known.
Proof. apply quiet_seq; [apply judges_validate_directives|apply judges_check_extends]. Qed.

(** ** Definitions *)
Definition ext_members (e : Context) (n : string) : list string :=
  concat (default [] (extended_unions e !! n)).
Definition ext_values (e : Context) (n : string) : list EnumValueDefinition :=
  concat (default [] (extended_enums e !! n)).
Definition field_name (f : FieldDefinition) : string := name_node (fd_name f).

Definition ok_object (e : Context) (t : TypeDefinition) (implements : list string)
    (fields : list FieldDefinition) : Prop :=
  let n := name_node (t_name t) in let all_fields := fields ++ ext_fields e n in
  ok_directives e (t_directives t) LObject ∧
  ok_implements e n (implements ++ ext_implements e n) fields ∧
  all_fields ≠ [] ∧ Forall (ok_field e) all_fields ∧ NoDup (field_name <$> all_fields).
Definition ok_interface (e : Context) (t : TypeDefinition) (implements : list string)
    (fields : list FieldDefinition) : Prop :=
  let n := name_node (t_name t) in
  ok_directives e (t_directives t) LInterface ∧
  ok_implements e n (implements ++ ext_implements e n) fields ∧
  fields ≠ [] ∧ Forall (ok_field e) fields.
Definition ok_input_field (e : Context) (f : InputValueDefinition) : Prop :=
  ok_directives e (iv_directives f) LInputFieldDefinition ∧
  names_type (definition_names e) input_kind (extract_type_name (iv_ty f)).
Definition ok_input_object (e : Context) (t : TypeDefinition) (fields : list InputValueDefinition) : Prop :=
  ok_directives e (t_directives t) LInputObject ∧ fields ≠ [] ∧ Forall (ok_input_field e) fields ∧
  ∀ chain, ¬ chain_to (definition_names e) (name_node (t_name t)) fields chain.
Definition ok_union (e : Context) (t : TypeDefinition) (members : list string) : Prop :=
  let all_members := members ++ ext_members e (name_node (t_name t)) in
  ok_directives e (t_directives t) LUnion ∧
  Forall (λ m, is_object (t_kind <$> definition_names e !! m) = true) all_members ∧ NoDup all_members.
Definition ok_enum (e : Context) (t : TypeDefinition) (values : list EnumValueDefinition) : Prop :=
  let all_values := values ++ ext_values e (name_node (t_name t)) in
  ok_directives e (t_directives t) LEnum ∧ NoDup (evd_value <$> all_values) ∧
  Forall (λ v, ok_directives e (evd_directives v) LInputFieldDefinition) all_values.

Lemma judges_validate_input_object e t fields :
  e ⊢ validate_input_object (name_node (t_name t)) t fields ⟹ ok_input_object e t fields.
Proof.
  apply quiet_seq; [apply judges_validate_directives|].
  apply quiet_seq; [apply quiet_decide, judges_push|].
  apply quiet_seq; [|apply judges_input_object_cycles].
  apply quiet_for. intros f _.
  apply quiet_seq; [apply judges_validate_directives|apply judges_check_input_position].
Qed.
Lemma judges_validate_union_members e t members :
  e ⊢ validate_union_members (name_node (t_name t)) t members ⟹ ok_union e t members.
Proof.
  apply quiet_seq; [apply judges_validate_directives|]. unfold with_union_members. read_ctx.
  apply quiet_seq.
  - apply quiet_for. intros m _. read_ctx. destruct (definition_names e !! m) as [def|]; simpl.
    + apply quiet_unless, judges_push.
    + eapply quiet_iff; [apply judges_push|done].
  - pose proof (quiet_report_duplicates e id (members ++ ext_members e (name_node (t_name t))) false
      (UnionDuplicateMember (name_node (t_name t)))) as H. by rewrite list_fmap_id in H.
Qed.

(** The panic of enums: a value that is repeated within the extensions. *)
Lemma consecutive_in_suffix (a b : list string) :
  (∃ i j, consecutive (a ++ b) i j ∧ length a ≤ i) ↔ ¬ NoDup b.
Proof.
  rewrite NoDup_not_twice. split.
  - intros (i & j & (Hij & n & Hi & Hj & _) & Hle) Hno. apply (Hno n).
    rewrite lookup_app_r in Hi, Hj by lia. exists (i - length a), (j - length a). split; [lia|done].
  - intros Hno. destruct (decide (NoDup b)) as [Hn|Hn].
    { exfalso. by apply Hno, NoDup_not_twice. }
    destruct (decide (Exists (λ n, Exists (λ '(i, j), i < j ∧ b !! i = Some n ∧ b !! j = Some n)
      (list_prod (seq 0 (length b)) (seq 0 (length b)))) b)) as [Hex|Hne].
    + apply Exists_exists in Hex as (n & _ & ((i & j) & _ & Hij & Hi & Hj)%Exists_exists).
      destruct (twice_consecutive b n) as (i' & j' & Hc & _); [by exists i, j|].
      exists (length a + i'), (length a + j'). split; [|lia]. destruct Hc as (Hlt & m & Hi' & Hj' & Hmax).
      split; [lia|]. exists m. rewrite !lookup_app_r by lia.
      replace (length a + i' - length a) with i' by lia. replace (length a + j' - length a) with j' by lia.
      split_and!; [done..|]. intros k Hk. rewrite lookup_app_r by lia. apply Hmax. lia.
    + exfalso. apply Hno. intros n (i & j & Hij & Hi & Hj). apply Hne, Exists_exists. exists n.
      split; [by eapply list_elem_of_lookup_2|]. apply Exists_exists. exists (i, j). split; [|done].
      apply list_elem_of_In, in_prod; apply list_elem_of_In, elem_of_seq.
      * apply lookup_lt_Some in Hi. lia.
      * apply lookup_lt_Some in Hj. lia.
Qed.

Definition enum_panics (e : Context) (t : TypeDefinition) : Prop :=
  ¬ NoDup (evd_value <$> ext_values e (name_node (t_name t))).

Lemma judges_enum_duplicates e n (base ext : list EnumValueDefinition) :
  judges e (find_duplicates (evd_value <$> base ++ ext) (λ idx _,
      value ← vlift (index base idx); push_error (DuplicateEnumValue n (evd_value value)))) e
    (NoDup (evd_value <$> base ++ ext)) (¬ NoDup (evd_value <$> ext)).
Proof.
  eapply judges_iff; [apply (judges_find_duplicates e _ _ (λ _ _, False) (λ i _, length base ≤ i))| |].
  - auto with grafbase.
  - intros i j Hij. destruct (base !! i) as [v|] eqn:Hv; unfold index; rewrite Hv; simpl.
    + apply lookup_lt_Some in Hv as Hlt.
      eapply judges_lift; [done|]. eapply judges_iff; [apply judges_push|done|lia].
    + apply lookup_ge_None in Hv. eapply judges_iff; [apply judges_lift_panic|reflexivity|done].
  - rewrite NoDup_not_twice. split.
    + intros Hc n' (i & j & Hij & _)%twice_consecutive. eauto.
    + intros Hn i j Hij. pose proof Hij as (_ & n' & Hi & _). apply (Hn n'). eapply consecutive_twice; eauto.
  - rewrite <-(consecutive_in_suffix (evd_value <$> base)), <-fmap_app, length_fmap. done.
Qed.
Lemma judges_validate_enum_members e t values :
  judges e (validate_enum_members (name_node (t_name t)) t values) e (ok_enum e t values) (enum_panics e t).
Proof.
  eapply judges_iff; [eapply judges_seq; [apply judges_validate_directives|]| |].
  - unfold with_enum_values. read_ctx. eapply judges_seq; [apply judges_enum_duplicates|].
    apply quiet_for. intros v _. apply judges_validate_directives.
  - done.
  - unfold enum_panics, ext_values. simpl. tauto.
Qed.

(** ** The schema definition *)
Definition root_name (root : option string * string) : string := default root.2 root.1.
Definition ok_root (e : Context) (root : option string * string) : Prop :=
  ∀ n, root.1 = Some n → is_object (t_kind <$> definition_names e !! n) = true.
Definition ok_schema_definition (e : Context) : Prop :=
  ∀ def, schema_definition e = Some def →
    ok_directives e (sd_directives def) LSchema ∧ NoDup (root_name <$> root_names def) ∧
    Forall (ok_root e) (root_names def).
Definition ok_root_types (e : Context) : Prop :=
  schema_definition e = None →
  Forall (λ n, ∀ t, definition_names e !! n = Some t → is_object (Some (t_kind t)) = true)
    ["Query"; "Mutation"; "Subscription"].

Lemma judges_root_pairs e (names : list (option string * string)) :
  e ⊢ for_each (seq 0 (length names)) (λ idx,
        name ← vlift (index names idx);
        let name := default name.2 name.1 in
        for_each (drop 1 (drop idx names)) (λ other_name,
          let other_name := default other_name.2 other_name.1 in
          if String.eqb name other_name then push_error (TypeUsedTwice name) else mret ()))
    ⟹ NoDup (root_name <$> names).
Proof.
  apply (quiet_iff e _ (Forall (λ idx, ∀ r, names !! idx = Some r →
    Forall (λ o, root_name r ≠ root_name o) (drop (S idx) names)) (seq 0 (length names)))).
  - apply quiet_for. intros idx [_ Hlt]%elem_of_seq. destruct (lookup_lt_is_Some_2 names idx) as [r Hr]; [done|].
    eapply judges_lift; [unfold index; by rewrite Hr|]. rewrite drop_drop, Nat.add_1_r. eapply quiet_iff.
    + apply quiet_for. intros o _. eapply quiet_iff; [apply quiet_if, judges_push|]. apply String.eqb_neq.
    + rewrite Hr. naive_solver.
  - rewrite NoDup_alt, Forall_forall. split.
    + intros H i j n Hi Hj. rewrite list_lookup_fmap, fmap_Some in Hi, Hj.
      destruct Hi as (r & Hi & ->), Hj as (o & Hj & Ho).
      assert (∀ a b ra rb, a < b → names !! a = Some ra → names !! b = Some rb → root_name ra ≠ root_name rb) as Hlt.
      { intros a b ra rb Hab Ha Hb. assert (a ∈ seq 0 (length names)) as Hin.
        { apply elem_of_seq. apply lookup_lt_Some in Ha. lia. }
        specialize (H a Hin ra Ha). rewrite Forall_forall in H. apply H, list_elem_of_lookup.
        exists (b - S a). rewrite lookup_drop. by replace (S a + (b - S a)) with b by lia. }
      destruct (Nat.lt_trichotomy i j) as [?|[?|?]]; [|done|]; exfalso; by eapply Hlt.
    + intros H i _ r Hi. apply Forall_forall. intros o [k Hk]%list_elem_of_lookup Heq. rewrite lookup_drop in Hk.
      assert (i = S i + k); [|lia]. apply (H _ _ (root_name r)); rewrite list_lookup_fmap.
      * by rewrite Hi.
      * by rewrite Hk, Heq.
Qed.
Lemma judges_schema_references e : e ⊢ validate_schema_definition_references ⟹ ok_schema_definition e.
Proof.
  unfold validate_schema_definition_references, ok_schema_definition. read_ctx.
  destruct (schema_definition e) as [def|]; [|eapply quiet_iff; [apply judges_ret|naive_solver]].
  eapply quiet_iff; [|split; [by intros H ? [= <-]|by intros H; apply (H def)]].
  apply quiet_seq; [apply judges_validate_directives|]. apply quiet_seq; [apply judges_root_pairs|].
  apply quiet_for. intros [[actual|] d] _; unfold validate_root, ok_root; simpl.
  - read_ctx. destruct (definition_names e !! actual) as [t|] eqn:Ht.
    + eapply quiet_iff; [apply quiet_unless, judges_push|].
      split; [intros H n [= <-]; by rewrite Ht|intros H; specialize (H actual eq_refl); by rewrite Ht in H].
    + eapply quiet_iff; [apply judges_push|]. split; [done|]. intros H. specialize (H actual eq_refl). by rewrite Ht in H.
  - eapply quiet_iff; [apply judges_ret|done].
Qed.
Lemma judges_root_types e : e ⊢ validate_root_types ⟹ ok_root_types e.
Proof.
  unfold validate_root_types, ok_root_types. read_ctx.
  destruct (schema_definition e) as [def|]; [eapply quiet_iff; [apply judges_ret|done]|].
  eapply quiet_iff; [|split; [intros H _; exact H|by intros H; apply H]].
  apply quiet_for. intros n _. read_ctx. destruct (definition_names e !! n) as [t|].
  - eapply quiet_iff; [apply quiet_unless, judges_push|]. naive_solver.
  - eapply quiet_iff; [apply judges_ret|]. naive_solver.
Qed.

(** ** The first pass *)

(** What the first pass collects from one definition. *)
Definition collect (e : Context) (d : TypeSystemDefinition) : Context :=
  match d with
  | TSSchema def => set_schema_definition (Some def) e
  | TSDirective def => set_directive_names <[dd_name def := def]> e
  | TSType t =>
      let n := name_node (t_name t) in
      if t_extend t then
        match t_kind t with
        | Object implements fields | Interface implements fields =>
            set_extended_implements (extend_entry n implements) (set_extended_fields (push_entry n fields) e)
        | Enum values => set_extended_enums (push_entry n values) e
        | Union members => set_extended_unions (push_entry n members) e
        | _ => e
        end
      else set_definition_names <[n := t]> e
  end.
Definition collected (opts : Options) (doc : Document) : Context := foldl collect (Context_new opts) doc.

Definition ok_first (e : Context) (d : TypeSystemDefinition) : Prop :=
  match d with
  | TSSchema _ => schema_definition e = None
  | TSDirective def =>
      starts_with_double_underscore (dd_name def) = false ∧
      Forall (λ arg, names_type (definition_names e) input_kind (extract_type_name (iv_ty arg))) (dd_arguments def)
  | TSType t =>
      let n := name_node (t_name t) in
      (t_extend t = false → is_builtin_scalar n = false) ∧
      starts_with_double_underscore n = false ∧
      (t_extend t = false → definition_names e !! n = None)
  end.

Lemma judges_modify e f :
  (∀ c, static (f c) = f (static c)) → (∀ c, errors (f c) = errors c) →
  judges e (modify f) (f e) True False.
Proof.
  intros Hs He c Hc. simpl. split; [tauto|]. rewrite Hs, Hc. split; [done|]. exists [].
  by rewrite He, app_nil_r.
Qed.
Lemma judges_schema_definition e def :
  judges e (validate_schema_definition def) (set_schema_definition (Some def) e) (schema_definition e = None) False.
Proof.
  unfold validate_schema_definition. read_ctx.
  eapply (judges_iff _ _ (set_schema_definition (Some def) (set_schema_definition None e))).
  - eapply judges_seq; [by apply judges_modify|]. eapply judges_seq; [|by apply judges_modify].
    apply (judges_iff _ _ _ (schema_definition e = None) _ False _); [|reflexivity..].
    destruct (schema_definition e); [eapply quiet_iff; [apply judges_push|naive_solver]|].
    eapply quiet_iff; [apply judges_ret|naive_solver].
  - naive_solver.
  - naive_solver.
Qed.
Lemma judges_directive_definition e def :
  judges e (validate_directive_definition def) (collect e (TSDirective def)) (ok_first e (TSDirective def)) False.
Proof.
  eapply judges_iff; [eapply judges_seq; [apply quiet_if, judges_push|];
    eapply judges_seq; [|by apply judges_modify]| |].
  - apply quiet_for. intros arg _. apply judges_check_input_position.
  - simpl. naive_solver.
  - naive_solver.
Qed.
Lemma judges_insert_definition e n t (err : TypeDefinition → Report) :
  judges e (existing ← definition_names_insert n t;
            match existing with Some x => push_error (err x) | None => mret () end)
    (set_definition_names <[n := t]> e) (definition_names e !! n = None) False.
Proof.
  intros c <-. unfold mbind, V_bind. simpl. destruct (definition_names c !! n) as [x|]; simpl.
  - split; [tauto|]. split; [done|]. by exists [err x].
  - split; [tauto|]. split; [done|]. exists []. by rewrite app_nil_r.
Qed.
Lemma judges_type_definition e t :
  judges e (validate_type_definition t) (collect e (TSType t)) (ok_first e (TSType t)) False.
Proof.
  unfold validate_type_definition, collect, ok_first.
  eapply judges_iff; [eapply judges_seq; [apply quiet_if, judges_push|];
    eapply judges_seq; [apply quiet_if, judges_push|]| |].
  - apply (judges_iff _ _ _ (t_extend t = false → definition_names e !! name_node (t_name t) = None) _ False _);
      [|reflexivity..].
    destruct (t_extend t).
    + apply (judges_iff _ _ _ True _ False); [|naive_solver|done].
      destruct (t_kind t); try (apply judges_ret || by apply judges_modify);
        (eapply judges_iff; [eapply judges_seq; by apply judges_modify|naive_solver..]).
    + eapply judges_iff; [apply judges_insert_definition|naive_solver|done].
  - rewrite andb_false_iff, negb_false_iff. destruct (t_extend t); naive_solver.
  - naive_solver.
Qed.
Lemma judges_first_pass e doc :
  judges e (for_each doc validate_definition_first_pass) (foldl collect e doc)
    (∀ pre d post, doc = pre ++ d :: post → ok_first (foldl collect e pre) d) False.
Proof.
  revert e. induction doc as [|d doc IH]; intros e; simpl.
  { eapply quiet_iff; [apply judges_ret|]. split; [|done]. by intros _ [] ? ?. }
  eapply judges_iff; [eapply judges_seq; [|apply IH]| |].
  - instantiate (1 := False). instantiate (1 := ok_first e d). destruct d; simpl.
    + apply judges_schema_definition.
    + apply judges_type_definition.
    + apply judges_directive_definition.
  - split.
    + intros [H1 H2] [|d' pre] d2 post [= -> E]; [done|]. subst. by eapply H2.
    + intros H. split; [by apply (H [] d doc)|]. intros pre d2 post ->. by apply (H (d :: pre) d2 post).
  - naive_solver.
Qed.

(** ** The second pass and the whole validation *)
Definition ok_second (e : Context) (d : TypeSystemDefinition) : Prop :=
  match d with
  | TSSchema _ | TSDirective _ => True
  | TSType t =>
      match t_kind t with
      | Object implements fields =>
          if t_extend t then ok_extension e t LObject is_object else ok_object e t implements fields
      | Interface implements fields =>
          if t_extend t then ok_extension e t LInterface is_interface else ok_interface e t implements fields
      | InputObject fields =>
          if t_extend t then ok_extension e t LInputObject is_input_object else ok_input_object e t fields
      | Union members =>
          if t_extend t then ok_extension e t LUnion is_union else ok_union e t members
      | Enum values => if t_extend t then ok_extension e t LEnum is_enum else ok_enum e t values
      | Scalar =>
          if t_extend t
          then ok_extension e t LScalar (λ k, is_builtin_scalar (name_node (t_name t)) || is_scalar k)
          else True
      end
  end.
(** The definition of an enum whose extensions repeat a value. *)
Definition panics_at (e : Context) (d : TypeSystemDefinition) : Prop :=
  match d with
  | TSType t => t_extend t = false ∧ is_enum (Some (t_kind t)) = true ∧ enum_panics e t
  | _ => False
  end.

Definition valid_document (opts : Options) (doc : Document) : Prop :=
  (∀ pre d post, doc = pre ++ d :: post → ok_first (collected opts pre) d) ∧
  ok_schema_definition (collected opts doc) ∧ ok_root_types (collected opts doc) ∧
  Forall (ok_second (collected opts doc)) doc.

Section accept.
Context (into_values : gmap string (option nat * option nat) → list (option nat * option nat)).
Context (into_values_perm : ∀ m, into_values m ≡ₚ (map_to_list m).*2).

Lemma judges_with_implements e n implements fields :
  e ⊢ with_implements n implements (λ implements, validate_implements_list into_values n implements fields)
    ⟹ ok_implements e n (implements ++ ext_implements e n) fields.
Proof. unfold with_implements. read_ctx. by apply judges_validate_implements_list. Qed.

Lemma judges_validate_object e t implements fields :
  e ⊢ validate_object into_values (name_node (t_name t)) t implements fields ⟹ ok_object e t implements fields.
Proof.
  apply quiet_seq; [apply judges_validate_directives|]. apply quiet_seq; [apply judges_with_implements|].
  unfold with_fields. read_ctx. apply quiet_seq; [apply quiet_decide, judges_push|].
  apply quiet_seq; [apply quiet_for; intros; apply judges_validate_field|].
  apply (quiet_report_duplicates e field_name _ true
    (λ f, DuplicateField (field_name f) (name_node (t_name t)))).
Qed.
Lemma judges_validate_interface e t implements fields :
  e ⊢ validate_interface into_values (name_node (t_name t)) t implements fields ⟹ ok_interface e t implements fields.
Proof.
  apply quiet_seq; [apply judges_validate_directives|]. apply quiet_seq; [apply judges_with_implements|].
  apply quiet_seq; [apply quiet_decide, judges_push|]. apply quiet_for. intros. apply judges_validate_field.
Qed.

Lemma judges_second_pass e d :
  judges e (validate_definition_second_pass into_values d) e (ok_second e d) (panics_at e d).
Proof.
  destruct d as [|t|]; simpl; [apply judges_ret| |apply judges_ret].
  destruct (t_kind t), (t_extend t); simpl;
    first [ eapply judges_iff; [first [apply judges_extension | apply judges_ret | apply judges_validate_object
              | apply judges_validate_interface | apply judges_validate_union_members
              | apply judges_validate_input_object]|reflexivity|naive_solver]
          | eapply judges_iff; [apply judges_validate_enum_members|reflexivity|naive_solver] ].
Qed.

Lemma judges_validate opts doc :
  judges (Context_new opts) (validate into_values doc) (collected opts doc) (valid_document opts doc)
    (Exists (panics_at (collected opts doc)) doc).
Proof.
  unfold validate. eapply judges_iff; [eapply judges_seq; [apply judges_first_pass|];
    eapply judges_seq; [apply judges_schema_references|];
    eapply judges_seq; [apply judges_root_types|apply judges_for; intros; apply judges_second_pass]| |].
  - done.
  - naive_solver.
Qed.
End accept.
