(* ===== verification/ValidationTypes.v ===== *)
(** * Subtyping in validated schemas

    The subtyping test of [interface_implementers.rs] against the algorithm of
    the GraphQL specification, and what an accepted document guarantees:
    subtyping is a preorder, and a path of field selections that is typed at an
    interface is typed at each of its subtypes. *)
From S2P Require Import Prelude CheckSchema ValidationContext Validation ValidationLogic ValidationSpec ValidationAccept.
Local Open Scope string_scope.
Local Open Scope list_scope.
Local Open Scope nat_scope.

(** ** The algorithm of the specification

    [IsValidImplementationFieldType] and [IsSubType], over types with explicit
    non-null wrappers. *)
Inductive SpecType :=
| SNamed (name : string)
| SList (inner : SpecType)
| SNonNull (inner : SpecType).
Global Instance SpecType_eq_dec : EqDecision SpecType.
Proof. solve_decision. Defined.

Fixpoint spec_type (t : AType) : SpecType :=
  match t with
  | ANamed n nullable => if nullable then SNamed n else SNonNull (SNamed n)
  | AList inner nullable => if nullable then SList (spec_type inner) else SNonNull (SList (spec_type inner))
  end.

Definition IsSubType (defs : gmap string TypeDefinition) (possible_sub_type super_type : SpecType) : bool :=
  bool_decide (possible_sub_type = super_type)
  || match possible_sub_type, super_type with
     | SNamed sub, SNamed super =>
         match t_kind <$> defs !! sub, t_kind <$> defs !! super with
         | Some (Object _ _), Some (Union members) => bool_decide (sub ∈ members)
         | Some (Object implements _), Some (Interface _ _) => bool_decide (super ∈ implements)
         | Some (Interface implements _), Some (Interface _ _) => bool_decide (super ∈ implements)
         | _, _ => false
         end
     | _, _ => false
     end.
Fixpoint IsValidImplementationFieldType (defs : gmap string TypeDefinition)
    (field_type implemented_field_type : SpecType) : bool :=
  match field_type with
  | SNonNull nullable_type =>
      let implemented_nullable_type :=
        match implemented_field_type with SNonNull t => t | t => t end in
      IsValidImplementationFieldType defs nullable_type implemented_nullable_type
  | SList item_type =>
      match implemented_field_type with
      | SList implemented_item_type => IsValidImplementationFieldType defs item_type implemented_item_type
      | _ => IsSubType defs field_type implemented_field_type
      end
  | SNamed _ => IsSubType defs field_type implemented_field_type
  end.

(** The members of unions are objects: the rule of [validate_union_members]. *)
Definition unions_of_objects (defs : gmap string TypeDefinition) : Prop :=
  ∀ u t members m, defs !! u = Some t → t_kind t = Union members → m ∈ members →
    is_object (t_kind <$> defs !! m) = true.

Lemma inner_type_IsSubType defs a b :
  unions_of_objects defs →
  validate_implementer_inner_type defs a b = IsSubType defs (SNamed a) (SNamed b).
Proof.
  intros Hu. unfold validate_implementer_inner_type, IsSubType.
  destruct (String.eqb_spec a b) as [->|Hne]; [by rewrite bool_decide_true|].
  rewrite bool_decide_false by congruence. simpl.
  destruct (defs !! b) as [t|] eqn:Hb; simpl; [|by destruct (defs !! a) as [[??? []]|]].
  destruct (t_kind t) as [| | |members| |] eqn:Hk; destruct (defs !! a) as [ta|] eqn:Ha; simpl;
    try (by destruct (t_kind ta)); try done.
  - pose proof (Hu b t members a Hb Hk) as H. rewrite Ha in H. simpl in H.
    destruct (t_kind ta); try done; apply bool_decide_false; intros Hin; by specialize (H Hin).
  - apply bool_decide_false. intros Hin. specialize (Hu b t members a Hb Hk Hin). by rewrite Ha in Hu.
Qed.

Lemma field_subtype_spec defs a b :
  unions_of_objects defs →
  field_subtype defs a b = IsValidImplementationFieldType defs (spec_type a) (spec_type b).
Proof.
  intros Hu. unfold field_subtype. revert b. induction a as [n na|a IH na]; intros [m nb|b nb]; simpl.
  - rewrite inner_type_IsSubType by done. by destruct na, nb.
  - by destruct na, nb.
  - destruct na, nb; simpl; done.
  - destruct na, nb; simpl; rewrite <-?IH; done.
Qed.

(** ** Accepted documents without extensions *)
Definition is_extension (d : TypeSystemDefinition) : bool :=
  match d with TSType t => t_extend t | _ => false end.

Lemma collect_definition opts doc n t :
  definition_names (collected opts doc) !! n = Some t →
  TSType t ∈ doc ∧ t_extend t = false ∧ name_node (t_name t) = n.
Proof.
  unfold collected. induction doc as [|d doc IH] using rev_ind; [by simpl; rewrite lookup_empty|].
  rewrite foldl_app. simpl. intros Hl.
  assert (definition_names (foldl collect (Context_new opts) doc) !! n = Some t →
    TSType t ∈ doc ++ [d] ∧ t_extend t = false ∧ name_node (t_name t) = n) as Hold.
  { intros H. destruct (IH H) as (? & ? & ?). split; [by apply elem_of_app; left|done]. }
  destruct d as [def|t'|def]; simpl in Hl; [by apply Hold| |by apply Hold].
  destruct (t_extend t') eqn:Hext; [by destruct (t_kind t'); apply Hold|]. simpl in Hl.
  destruct (decide (name_node (t_name t') = n)) as [<-|Hne].
  - rewrite lookup_insert_eq in Hl. injection Hl as <-. split; [set_solver|done].
  - rewrite lookup_insert_ne in Hl by done. by apply Hold.
Qed.
Lemma collect_no_extension opts doc :
  Forall (λ d, is_extension d = false) doc →
  extended_fields (collected opts doc) = ∅ ∧ extended_interface_implementations (collected opts doc) = ∅ ∧
  extended_unions (collected opts doc) = ∅.
Proof.
  unfold collected. induction doc as [|d doc IH] using rev_ind; [done|].
  intros [Hd%IH He]%Forall_app. rewrite foldl_app. rewrite Forall_singleton in He.
  destruct d as [def|t|def]; simpl in *; [done| |done]. by rewrite He.
Qed.

Section accepted.
Context (opts : Options) (doc : Document).
Context (Hvalid : valid_document opts doc) (Hplain : Forall (λ d, is_extension d = false) doc).
Let e := collected opts doc.
Let defs := definition_names e.

Lemma accepted_definition n t : defs !! n = Some t → t_extend t = false ∧ name_node (t_name t) = n ∧ ok_second e (TSType t).
Proof.
  intros (Hin & He & Hn)%collect_definition. split_and!; [done..|].
  destruct Hvalid as (_ & _ & _ & Hs). rewrite Forall_forall in Hs. by apply Hs.
Qed.
Lemma accepted_implements n t implements fields :
  defs !! n = Some t → t_kind t = Object implements fields ∨ t_kind t = Interface implements fields →
  Forall (λ iface, ∃ ty iface_implements iface_fields,
    defs !! iface = Some ty ∧ t_kind ty = Interface iface_implements iface_fields ∧
    Forall (λ i, i ∈ implements) iface_implements ∧ ok_fields_implement defs fields iface_fields) implements.
Proof.
  intros Ht Hk. destruct (accepted_definition n t Ht) as (He & Hn & Hs).
  destruct (collect_no_extension opts doc Hplain) as (Hf & Hi & _).
  assert (ok_implements e n (implements ++ ext_implements e n) fields) as [_ Hok].
  { simpl in Hs. destruct Hk as [Hk|Hk]; rewrite Hk, He in Hs; rewrite <-Hn; apply Hs. }
  assert (ext_implements e n = []) as E1 by (unfold ext_implements, e; by rewrite Hi).
  assert (ext_fields e n = []) as E2 by (unfold ext_fields, e; by rewrite Hf).
  rewrite E1, app_nil_r in Hok. rewrite E2, app_nil_r in Hok. exact Hok.
Qed.
Lemma accepted_unions : unions_of_objects defs.
Proof.
  intros u t members m Ht Hk Hm. destruct (accepted_definition u t Ht) as (He & Hn & Hs).
  simpl in Hs. rewrite Hk, He in Hs. destruct Hs as (_ & Hall & _). apply Forall_app in Hall as [Hall _].
  rewrite Forall_forall in Hall. by apply Hall.
Qed.

(** Subtyping of named types, one step at a time. *)
Inductive named_subtype : string → string → Prop :=
| sub_refl a : named_subtype a a
| sub_member a u t members :
    defs !! u = Some t → t_kind t = Union members → a ∈ members → named_subtype a u
| sub_implements a i t implements fields :
    defs !! a = Some t → t_kind t = Object implements fields ∨ t_kind t = Interface implements fields →
    i ∈ implements → named_subtype a i.

Lemma inner_type_named_subtype a b :
  validate_implementer_inner_type defs a b = true ↔ named_subtype a b.
Proof.
  unfold validate_implementer_inner_type. destruct (String.eqb_spec a b) as [->|Hne]; [by split; constructor|].
  split.
  - destruct (defs !! b) as [t|] eqn:Hb; [|done]. simpl. destruct (t_kind t) as [| |is_ fs|members| |] eqn:Hk; try done.
    + destruct (defs !! a) as [ta|] eqn:Ha; [|done]. simpl.
      destruct (t_kind ta) as [|is' fs'|is' fs'| | |] eqn:Hka; try done; intros Hin%bool_decide_eq_true;
        eapply sub_implements; eauto.
    + intros Hin%bool_decide_eq_true. by eapply sub_member.
  - intros Hs. destruct Hs as [a|a u t members Ht Hk Hin|a i t implements fields Ht Hk Hin]; [done| |].
    + rewrite Ht. simpl. rewrite Hk. by apply bool_decide_true.
    + pose proof (accepted_implements a t implements fields Ht Hk) as Hall. rewrite Forall_forall in Hall.
      destruct (Hall i Hin) as (ty & is' & fs' & Hty & Hkty & _). rewrite Hty, Ht. simpl. rewrite Hkty.
      destruct Hk as [-> | ->]; by apply bool_decide_true.
Qed.
Lemma named_subtype_trans a b c : named_subtype a b → named_subtype b c → named_subtype a c.
Proof.
  intros H1 H2. destruct H2 as [b|b u t members Ht Hk Hin|b i t implements fields Ht Hk Hin]; [done| |].
  - destruct H1 as [b|b u' t' members' Ht' Hk' Hin'|b i t' implements fields Ht' Hk' Hin']; [by eapply sub_member| |].
    + pose proof (accepted_unions u t members u' Ht Hk Hin) as Ho. rewrite Ht' in Ho. simpl in Ho. by rewrite Hk' in Ho.
    + pose proof (accepted_implements b t' implements fields Ht' Hk') as Hall. rewrite Forall_forall in Hall.
      destruct (Hall i Hin') as (ty & is' & fs' & Hty & Hkty & _).
      pose proof (accepted_unions u t members i Ht Hk Hin) as Ho. rewrite Hty in Ho. simpl in Ho. by rewrite Hkty in Ho.
  - destruct H1 as [b|b u' t' members' Ht' Hk' Hin'|b i' t' implements' fields' Ht' Hk' Hin']; [by eapply sub_implements| |].
    + rewrite Ht in Ht'. injection Ht' as <-. destruct Hk; congruence.
    + eapply sub_implements; [done|done|].
      pose proof (accepted_implements b t' implements' fields' Ht' Hk') as Hall. rewrite Forall_forall in Hall.
      destruct (Hall i' Hin') as (ty & is' & fs' & Hty & Hkty & Hsub & _). rewrite Ht in Hty. injection Hty as <-.
      rewrite Forall_forall in Hsub. apply Hsub. destruct Hk as [Hk|Hk]; rewrite Hk in Hkty; by simplify_eq.
Qed.
Lemma wrapper_types_trans a b c :
  validate_implementer_wrapper_types a b = true → validate_implementer_wrapper_types b c = true →
  validate_implementer_wrapper_types a c = true.
Proof.
  revert b c. induction a as [n na|a IH na]; intros [m nb|b nb] [k nc|c nc]; simpl;
    destruct na, nb, nc; simpl; try done; apply IH.
Qed.
Lemma wrapper_types_refl a : validate_implementer_wrapper_types a a = true.
Proof. induction a as [n []|a IH []]; simpl; done. Qed.
End accepted.

(** ** Paths of selections *)

(** The arguments given to a field: declared, and all those that cannot be null. *)
Definition arguments_given (g : FieldDefinition) (given : list string) : Prop :=
  (∀ a, a ∈ given → is_Some (last_argument (fd_arguments g) a)) ∧
  (∀ a arg, last_argument (fd_arguments g) a = Some arg → nullable (iv_ty arg) = false → a ∈ given).

(** Selecting the fields of a path one after the other, from the type [n]. *)
Inductive path_typed (defs : gmap string TypeDefinition) :
    string → list (string * list string) → AType → Prop :=
| path_last n t implements fields f given g :
    defs !! n = Some t → t_kind t = Object implements fields ∨ t_kind t = Interface implements fields →
    first_field fields f = Some g → arguments_given g given →
    path_typed defs n [(f, given)] (fd_ty g)
| path_more n t implements fields f given g path ty :
    defs !! n = Some t → t_kind t = Object implements fields ∨ t_kind t = Interface implements fields →
    first_field fields f = Some g → arguments_given g given →
    path_typed defs (extract_type_name (fd_ty g)) path ty →
    path_typed defs n ((f, given) :: path) ty.

Lemma arguments_given_implements g f given :
  ok_arguments_implement (fd_arguments g) (fd_arguments f) → arguments_given f given → arguments_given g given.
Proof.
  intros Hok [Hdecl Hreq]. split.
  - intros a Ha. destruct (Hdecl a Ha) as [arg Harg]. specialize (Hok a). rewrite Harg in Hok.
    by destruct (last_argument (fd_arguments g) a).
  - intros a arg Ha Hn. specialize (Hok a). rewrite Ha in Hok.
    destruct (last_argument (fd_arguments f) a) as [arg'|] eqn:Hf; simpl in Hok; [|congruence].
    apply (Hreq a arg'); [done|congruence].
Qed.

Lemma first_field_name fields n f : first_field fields n = Some f → f ∈ fields ∧ name_node (fd_name f) = n.
Proof. unfold first_field. intros Hf%head_Some_elem_of. by apply list_elem_of_filter in Hf as []. Qed.

Section paths.
Context (opts : Options) (doc : Document).
Context (Hvalid : valid_document opts doc) (Hplain : Forall (λ d, is_extension d = false) doc).
Let defs := definition_names (collected opts doc).

(** A field of a supertype, on a subtype. *)
Lemma subtype_field a b t implements fields f g :
  validate_implementer_inner_type defs a b = true →
  defs !! b = Some t → t_kind t = Object implements fields ∨ t_kind t = Interface implements fields →
  first_field fields f = Some g →
  ∃ t' implements' fields' g', defs !! a = Some t' ∧
    (t_kind t' = Object implements' fields' ∨ t_kind t' = Interface implements' fields') ∧
    first_field fields' f = Some g' ∧ ok_field_implements defs g' g.
Proof.
  intros Hsub Hb Hk Hg.
  assert (ok_field_implements defs g g) as Hrefl.
  { split; [|by intros n; destruct (last_argument _ n)]. unfold field_subtype. rewrite wrapper_types_refl. simpl.
    unfold validate_implementer_inner_type. by rewrite String.eqb_refl. }
  apply (inner_type_named_subtype opts doc) in Hsub; [|done..].
  destruct Hsub as [a|a u tu members Hu Hku Hin|a i ta is_ fs Ha Hka Hin].
  - by exists t, implements, fields, g.
  - fold defs in Hu. destruct Hk; congruence.
  - pose proof (accepted_implements opts doc Hvalid Hplain a ta is_ fs Ha Hka) as Hall. rewrite Forall_forall in Hall.
    destruct (Hall i Hin) as (ty & is' & fs' & Hty & Hkty & _ & Hf). fold defs in Hty. rewrite Hb in Hty. injection Hty as <-.
    assert (fields = fs') as -> by (destruct Hk; congruence). apply first_field_name in Hg as [Hg Hn].
    unfold ok_fields_implement in Hf. rewrite Forall_forall in Hf. destruct (Hf g Hg) as (g' & Hg' & Hok). rewrite Hn in Hg'.
    by exists ta, is_, fs, g'.
Qed.

Lemma subtype_path a b path ty :
  validate_implementer_inner_type defs a b = true → path_typed defs b path ty →
  ∃ ty', path_typed defs a path ty' ∧ field_subtype defs ty' ty = true.
Proof.
  intros Hsub Hp. revert a Hsub.
  induction Hp as [n t is_ fs f given g Ht Hk Hg Hargs|n t is_ fs f given g path ty Ht Hk Hg Hargs _ IH]; intros a Hsub;
    destruct (subtype_field a n t is_ fs f g Hsub Ht Hk Hg) as (t' & is' & fs' & g' & Ht' & Hk' & Hg' & Hty & Ha).
  - exists (fd_ty g'). split; [|done]. eapply path_last; eauto. by eapply arguments_given_implements.
  - unfold field_subtype in Hty. apply andb_true_iff in Hty as [_ Hty].
    destruct (IH _ Hty) as (ty' & Hp' & Hs'). exists ty'. split; [|done].
    eapply path_more; eauto. by eapply arguments_given_implements.
Qed.
End paths.
