(* ===== verification/ValidationProps.v ===== *)
(** * Theorems about the schema validator

    Acceptance, panics, what the first pass collects, cycles of input objects,
    duplicates, and subtyping. *)
From S2P Require Import Prelude CheckSchema ValidationContext Validation ValidationLogic ValidationSpec ValidationAccept ValidationTypes.
Local Open Scope string_scope.
Local Open Scope list_scope.
Local Open Scope nat_scope.

(** ** The collected definitions, read off the document *)

(** The type definitions (or extensions) of one name, in document order. *)
Definition types_named (extend : bool) (doc : Document) (n : string) : list TypeDefinition :=
  omap (λ d, match d with
             | TSType t => if bool_decide (t_extend t = extend ∧ name_node (t_name t) = n) then Some t else None
             | _ => None
             end) doc.
Definition kind_fields (k : TypeKind) : list FieldDefinition :=
  match k with Object _ fields | Interface _ fields => fields | _ => [] end.
Definition kind_implements (k : TypeKind) : list string :=
  match k with Object implements _ | Interface implements _ => implements | _ => [] end.
Definition kind_members (k : TypeKind) : list string := match k with Union members => members | _ => [] end.
Definition kind_values (k : TypeKind) : list EnumValueDefinition :=
  match k with Enum values => values | _ => [] end.
(** What the extensions of [n] add. *)
Definition extension_of {A} (part : TypeKind → list A) (doc : Document) (n : string) : list A :=
  concat ((λ t, part (t_kind t)) <$> types_named true doc n).
Definition directives_named (doc : Document) (n : string) : list DirectiveDefinition :=
  omap (λ d, match d with TSDirective def => if String.eqb (dd_name def) n then Some def else None | _ => None end) doc.
Definition schemas (doc : Document) : list SchemaDefinition :=
  omap (λ d, match d with TSSchema def => Some def | _ => None end) doc.

Lemma types_named_snoc b doc d n :
  types_named b (doc ++ [d]) n = types_named b doc n ++ types_named b [d] n.
Proof. apply omap_app. Qed.
Lemma extension_of_snoc {A} (part : TypeKind → list A) doc d n :
  extension_of part (doc ++ [d]) n = extension_of part doc n ++ extension_of part [d] n.
Proof. unfold extension_of. by rewrite types_named_snoc, fmap_app, concat_app. Qed.
Lemma extension_of_not {A} (part : TypeKind → list A) d n :
  (∀ t, d = TSType t → t_extend t = true → name_node (t_name t) = n → part (t_kind t) = []) →
  extension_of part [d] n = [].
Proof.
  intros Hd. unfold extension_of, types_named. destruct d as [|t|]; [done| |done]. simpl.
  case_bool_decide as H; [|done]. simpl. rewrite app_nil_r. by apply Hd; [|apply H..].
Qed.
Lemma extension_of_yes {A} (part : TypeKind → list A) t :
  t_extend t = true → extension_of part [TSType t] (name_node (t_name t)) = part (t_kind t).
Proof.
  intros He. unfold extension_of, types_named. simpl. rewrite bool_decide_true by done. simpl.
  by rewrite app_nil_r.
Qed.

(** One definition at a time, for the maps of extensions. *)
Lemma push_entry_concat {A} n (x : list A) (m : gmap string (list (list A))) k :
  concat (default [] (push_entry n x m !! k)) =
  concat (default [] (m !! k)) ++ if decide (n = k) then x else [].
Proof.
  unfold push_entry. case_decide as Hk; [subst; rewrite lookup_insert_eq|by rewrite lookup_insert_ne, app_nil_r].
  simpl. by rewrite concat_app, concat_cons, app_nil_r.
Qed.
Lemma extend_entry_lookup {A} n (xs : list A) (m : gmap string (list A)) k :
  default [] (extend_entry n xs m !! k) = default [] (m !! k) ++ if decide (n = k) then xs else [].
Proof.
  unfold extend_entry. case_decide as Hk; [subst; by rewrite lookup_insert_eq|by rewrite lookup_insert_ne, app_nil_r].
Qed.

Lemma collect_extensions e d n :
  ext_fields (collect e d) n = ext_fields e n ++ extension_of kind_fields [d] n ∧
  ext_implements (collect e d) n = ext_implements e n ++ extension_of kind_implements [d] n ∧
  ext_members (collect e d) n = ext_members e n ++ extension_of kind_members [d] n ∧
  ext_values (collect e d) n = ext_values e n ++ extension_of kind_values [d] n.
Proof.
  destruct d as [def|t|def]; [by rewrite !app_nil_r| |by rewrite !app_nil_r].
  unfold collect. destruct (t_extend t) eqn:He.
  - destruct (decide (name_node (t_name t) = n)) as [<-|Hne].
    + rewrite !extension_of_yes by done.
      unfold ext_fields, ext_implements, ext_members, ext_values.
      destruct (t_kind t); simpl; rewrite ?push_entry_concat, ?extend_entry_lookup, ?decide_True, ?app_nil_r by done; done.
    + rewrite !extension_of_not by (by intros ? [= <-]).
      unfold ext_fields, ext_implements, ext_members, ext_values.
      destruct (t_kind t); simpl; rewrite ?push_entry_concat, ?extend_entry_lookup, ?decide_False, ?app_nil_r by done; done.
  - rewrite !extension_of_not by (intros ? [= <-]; congruence). by rewrite !app_nil_r.
Qed.
Lemma collect_definitions e d n :
  definition_names (collect e d) !! n =
    match last (types_named false [d] n) with Some t => Some t | None => definition_names e !! n end ∧
  directive_names (collect e d) !! n =
    match last (directives_named [d] n) with Some def => Some def | None => directive_names e !! n end ∧
  schema_definition (collect e d) =
    match last (schemas [d]) with Some def => Some def | None => schema_definition e end.
Proof.
  destruct d as [def|t|def]; [done| |]; simpl.
  - unfold types_named. simpl. destruct (t_extend t) eqn:He.
    + rewrite bool_decide_false by naive_solver. by destruct (t_kind t).
    + destruct (decide (name_node (t_name t) = n)) as [<-|Hne]; simpl.
      * rewrite bool_decide_true by done. by rewrite lookup_insert_eq.
      * rewrite bool_decide_false by naive_solver. by rewrite lookup_insert_ne.
  - unfold directives_named. simpl. destruct (String.eqb_spec (dd_name def) n) as [<-|Hne].
    + by rewrite lookup_insert_eq.
    + by rewrite lookup_insert_ne.
Qed.

Lemma last_app_default {A} (l1 l2 : list A) :
  last (l1 ++ l2) = match last l2 with Some x => Some x | None => last l1 end.
Proof. apply last_app. Qed.
Lemma collected_spec opts doc n :
  let e := collected opts doc in
  definition_names e !! n = last (types_named false doc n) ∧
  directive_names e !! n = last (directives_named doc n) ∧
  schema_definition e = last (schemas doc) ∧
  ext_fields e n = extension_of kind_fields doc n ∧
  ext_implements e n = extension_of kind_implements doc n ∧
  ext_members e n = extension_of kind_members doc n ∧
  ext_values e n = extension_of kind_values doc n.
Proof.
  unfold collected. induction doc as [|d doc IH] using rev_ind; [by rewrite ?lookup_empty|].
  rewrite foldl_app. cbn [foldl]. set (e := foldl collect (Context_new opts) doc) in *.
  destruct IH as (I1 & I2 & I3 & I4 & I5 & I6 & I7).
  destruct (collect_definitions e d n) as (-> & -> & ->). destruct (collect_extensions e d n) as (-> & -> & -> & ->).
  unfold directives_named, schemas in *. rewrite types_named_snoc, !omap_app, !extension_of_snoc, !last_app.
  by rewrite I1, I2, I3, I4, I5, I6, I7.
Qed.

Lemma valid_no_panic opts doc : valid_document opts doc → ¬ Exists (panics_at (collected opts doc)) doc.
Proof.
  intros (_ & _ & _ & Hs) (d & Hd & Hp)%Exists_exists. rewrite Forall_forall in Hs. specialize (Hs d Hd).
  destruct d as [|t|]; try done. destruct Hp as (He & Hk & Hp). simpl in Hs.
  destruct (t_kind t); try done. rewrite He in Hs. destruct Hs as (_ & Hn & _).
  rewrite fmap_app in Hn. by apply NoDup_app in Hn as (_ & _ & Hn).
Qed.

Lemma options_collected opts doc : options (collected opts doc) = opts.
Proof.
  unfold collected. induction doc as [|d doc IH] using rev_ind; [done|]. rewrite foldl_app. simpl.
  destruct d as [|t|]; [done| |done]. simpl. by destruct (t_extend t), (t_kind t).
Qed.

(** ** The rules of the specification that acceptance implies *)





Section claims.
Context (into_values : gmap string (option nat * option nat) → list (option nat * option nat)).
Context (into_values_perm : ∀ m, into_values m ≡ₚ (map_to_list m).*2).

Lemma validate_run opts doc :
  match validate into_values doc (Context_new opts) with
  | Ret (_, c) =>
      ¬ Exists (panics_at (collected opts doc)) doc ∧ (errors c = [] ↔ valid_document opts doc)
  | Panic _ => Exists (panics_at (collected opts doc)) doc
  end.
Proof.
  pose proof (judges_validate into_values into_values_perm opts doc (Context_new opts) eq_refl) as H.
  destruct (validate into_values doc (Context_new opts)) as [[u c]|]; [|done].
  destruct H as (Hn & _ & es & He & Hes). simpl in He. by rewrite He.
Qed.

Lemma validate_accepted opts doc c :
  validate into_values doc (Context_new opts) = Ret ((), c) → errors c = [] →
  valid_document opts doc ∧ definition_names c = definition_names (collected opts doc).
Proof.
  intros Hrun He. pose proof (judges_validate into_values into_values_perm opts doc (Context_new opts) eq_refl) as H.
  rewrite Hrun in H. destruct H as (_ & Hs & es & He' & Hes). simpl in He'. rewrite He in He'.
  split; [by apply Hes|]. exact (f_equal definition_names Hs).
Qed.

(** What [validate_with_options] checks, as the code has it: no error is
    reported exactly when the text parses to a document that passes the rules of
    both passes, which [valid_document] spells out, their departures from the
    specification included (see the last section). This holds for every parser
    and every iteration order of hash maps. *)
Theorem validate_accepts (parse_schema : string → string + Document) sdl opts :
  validate_with_options into_values parse_schema sdl opts = Ret [] ↔
  ∃ doc, parse_schema sdl = inr doc ∧ valid_document opts doc.
Proof.
  unfold validate_with_options. destruct (parse_schema sdl) as [err|doc]; [naive_solver|].
  pose proof (validate_run opts doc) as H. pose proof (valid_no_panic opts doc) as Hp.
  destruct (validate into_values doc (Context_new opts)) as [[u c]|msg]; simpl.
  - destruct H as [_ H]. split; [intros [= He]; exists doc; by rewrite <-H|].
    intros (? & [= <-] & Hv). by apply H in Hv as ->.
  - split; [done|]. intros (? & [= <-] & Hv). by apply Hp in Hv.
Qed.


(** C26. [validate_with_options] panics exactly when the document defines an
    enum whose extensions, taken together, repeat a value: the handler of
    duplicates indexes the values of the definition with an index into the
    values of the definition followed by those of the extensions. No other
    rule panics and the search for input object cycles always returns. *)
Theorem validate_panics (parse_schema : string → string + Document) sdl opts :
  (∃ msg, validate_with_options into_values parse_schema sdl opts = Panic msg) ↔
  ∃ doc t values, parse_schema sdl = inr doc ∧
    TSType t ∈ doc ∧ t_extend t = false ∧ t_kind t = Enum values ∧
    ¬ NoDup (evd_value <$> extension_of kind_values doc (name_node (t_name t))).
Proof.
  unfold validate_with_options. destruct (parse_schema sdl) as [err|doc]; [naive_solver|].
  pose proof (validate_run opts doc) as H.
  assert (Exists (panics_at (collected opts doc)) doc ↔
    ∃ t values, TSType t ∈ doc ∧ t_extend t = false ∧ t_kind t = Enum values ∧
      ¬ NoDup (evd_value <$> extension_of kind_values doc (name_node (t_name t)))) as E.
  { rewrite Exists_exists. split.
    - intros ([|t|] & Hd & Hp); try done. destruct Hp as (He & Hk & Hp). unfold enum_panics in Hp.
      destruct (collected_spec opts doc (name_node (t_name t))) as (_ & _ & _ & _ & _ & _ & Hv).
      rewrite Hv in Hp. destruct (t_kind t) eqn:Hkt; try done. by exists t, values.
    - intros (t & values & Hd & He & Hk & Hn). exists (TSType t). split; [done|]. split; [done|].
      rewrite Hk. split; [done|]. unfold enum_panics.
      destruct (collected_spec opts doc (name_node (t_name t))) as (_ & _ & _ & _ & _ & _ & ->). done. }
  destruct (validate into_values doc (Context_new opts)) as [[u c]|msg]; simpl.
  - destruct H as [Hn _]. split; [by intros [? ?]|]. intros (? & t & values & [= <-] & Hx). exfalso. apply Hn, E. eauto.
  - split; [|by eexists]. intros _. apply E in H as (t & values & Hx). by exists doc, t, values.
Qed.

(** When [validate] accepts a document that has no extensions, subtyping of
    field types over its definitions is a preorder: transitivity uses that
    implementers implement the interfaces of their interfaces and that members
    of unions are objects. *)
Theorem accepted_subtype_preorder opts doc c :
  validate into_values doc (Context_new opts) = Ret ((), c) → errors c = [] →
  Forall (λ d, is_extension d = false) doc →
  PreOrder (λ a b, field_subtype (definition_names c) a b = true).
Proof.
  intros Hrun He Hp. destruct (validate_accepted opts doc c Hrun He) as [Hv ->]. unfold field_subtype. split.
  - intros a. rewrite wrapper_types_refl. simpl. apply (inner_type_named_subtype opts doc); [done..|constructor].
  - intros a b d [Hw1 Hi1]%andb_true_iff [Hw2 Hi2]%andb_true_iff. apply andb_true_iff.
    split; [by eapply wrapper_types_trans|].
    rewrite (inner_type_named_subtype opts doc) in * by done. by eapply named_subtype_trans.
Qed.

(** C24. When [validate] accepts a document that has no extensions, a path of
    field selections that is typed at a type is typed at each of its subtypes,
    with the same arguments, and its type there is a subtype. *)
Theorem accepted_path_substitution opts doc c a b path ty :
  validate into_values doc (Context_new opts) = Ret ((), c) → errors c = [] →
  Forall (λ d, is_extension d = false) doc →
  validate_implementer_inner_type (definition_names c) a b = true →
  path_typed (definition_names c) b path ty →
  ∃ ty', path_typed (definition_names c) a path ty' ∧ field_subtype (definition_names c) ty' ty = true.
Proof. intros Hrun He Hp. destruct (validate_accepted opts doc c Hrun He) as [Hv ->]. by apply subtype_path. Qed.
End claims.

(** The first pass returns on every document and leaves in the context, for
    every name, the last definition and directive definition of that name, the
    last schema definition, and the concatenation, in document order, of the
    fields, implemented interfaces, union members and enum values that the
    extensions of that name add. *)
Theorem first_pass_collects opts doc :
  ∃ c, for_each doc validate_definition_first_pass (Context_new opts) = Ret ((), c) ∧
    options c = opts ∧ schema_definition c = last (schemas doc) ∧
    ∀ n, definition_names c !! n = last (types_named false doc n) ∧
      directive_names c !! n = last (directives_named doc n) ∧
      ext_fields c n = extension_of kind_fields doc n ∧
      ext_implements c n = extension_of kind_implements doc n ∧
      ext_members c n = extension_of kind_members doc n ∧
      ext_values c n = extension_of kind_values doc n.
Proof.
  pose proof (judges_first_pass (Context_new opts) doc (Context_new opts) eq_refl) as H.
  destruct (for_each doc _ _) as [[[] c]|]; [|done]. destruct H as (_ & Hs & _).
  change (foldl collect (Context_new opts) doc) with (collected opts doc) in Hs.
  exists c. split; [done|]. split; [rewrite <-(options_collected opts doc); exact (f_equal options Hs)|].
  split.
  { destruct (collected_spec opts doc EmptyString) as (_ & _ & <- & _). exact (f_equal schema_definition Hs). }
  intros n. destruct (collected_spec opts doc n) as (<- & <- & _ & <- & <- & <- & <-). rewrite <-Hs. done.
Qed.

(** C38. The check of input object cycles returns for every set of definitions.
    It pushes at most one error, and it pushes one exactly when a chain of
    required fields (non-null, not lists) leads from the fields back to the
    input object; the reported chain is such a chain. *)
Theorem input_object_cycles_spec name fields c :
  ∃ c', input_object_cycles name fields c = Ret ((), c') ∧ static c' = static c ∧
  ((errors c' = errors c ∧ ∀ chain, ¬ chain_to (definition_names c) name fields chain) ∨
   ∃ chain, errors c' = errors c ++ [InputObjectCycle name chain] ∧
     chain_to (definition_names c) name fields chain).
Proof.
  unfold input_object_cycles, get_ctx, vlift, mbind, V_bind. cbn -[references_input_object_rec].
  destruct (cycle_search_spec (definition_names c) name fields) as (r & v & -> & Hr). simpl.
  destruct r as [chain|]; eexists; split; try done; (split; [done|]).
  - right. by exists (reverse chain).
  - by left.
Qed.

(** [find_duplicates] runs its handler, in the order of the second index,
    on exactly the pairs of consecutive occurrences of a name (the previous
    occurrence and the current one), for every handler that does not use the
    buffer of names. *)
Theorem find_duplicates_spec (handle_duplicates : nat → nat → V unit) names c :
  (∀ i j, buf_frame (handle_duplicates i j)) →
  ∃ pairs,
    find_duplicates names handle_duplicates c =
      ('(_, c') ← for_each pairs (λ '(i, j), handle_duplicates i j) c;
       Ret ((), set_strings_buf (λ _, positions names) c')) ∧
    (∀ i j, (i, j) ∈ pairs ↔ consecutive names i j) ∧ StronglySorted lt pairs.*2.
Proof.
  intros Hf. exists (duplicate_pairs names). split; [by apply find_duplicates_for_each|].
  split; [intros i j; apply elem_of_duplicate_pairs|]. apply pairs_from_sorted.
Qed.

(** The subtyping test of interface fields computes
    [IsValidImplementationFieldType] of the GraphQL specification, over
    definitions in which the members of unions are objects. *)
Theorem subtype_matches_specification defs candidate iface :
  unions_of_objects defs →
  validate_implementer_wrapper_types candidate iface
    && validate_implementer_inner_type defs (extract_type_name candidate) (extract_type_name iface)
  = IsValidImplementationFieldType defs (spec_type candidate) (spec_type iface).
Proof. apply field_subtype_spec. Qed.

(** ** The schema validator on concrete documents

    A document that is accepted, used by the witnesses of the theorems, and
    the documents on which the validator departs from its documentation. *)

(** One iteration order of hash maps. *)
Definition values_of (m : gmap string (option nat * option nat)) : list (option nat * option nat) :=
  (map_to_list m).*2.
(** A parser that knows one document. *)
Definition parses (doc : Document) (sdl : string) : string + Document := inr doc.
Definition report (opts : Options) (doc : Document) : res (list Report) :=
  validate_with_options values_of (parses doc) "" opts.

Definition nm (s : string) : Name := MkName (MkPos 1 1) s.
Definition type_def (extend : bool) (n : string) (k : TypeKind) : TypeSystemDefinition :=
  TSType (MkTypeDefinition extend (nm n) [] k).
Definition arg (n : string) (t : AType) : InputValueDefinition := MkInputValue (nm n) t false [].
Definition field (n : string) (t : AType) : FieldDefinition := MkFieldDefinition (nm n) [] t [].
Definition req (n : string) : AType := ANamed n false.
Definition opt (n : string) : AType := ANamed n true.

Definition named_field (t : AType) (args : list InputValueDefinition) : FieldDefinition :=
  MkFieldDefinition (nm "name") args t [].
Definition sample : Document :=
  [ type_def false "Node" (Interface [] [field "id" (req "ID")]);
    type_def false "Named" (Interface ["Node"]
      [field "id" (req "ID"); named_field (opt "String") [arg "full" (opt "Boolean")]; field "owner" (opt "Node")]);
    type_def false "User" (Object ["Node"; "Named"]
      [field "id" (req "ID");
       named_field (req "String") [arg "full" (opt "Boolean"); arg "locale" (opt "String")];
       field "owner" (opt "Named")]);
    type_def false "Thing" (Union ["User"]);
    type_def false "Filter" (InputObject [arg "depth" (req "Int"); arg "next" (opt "Filter")]);
    type_def false "Query" (Object []
      [MkFieldDefinition (nm "things") [arg "filter" (req "Filter")] (AList (req "Thing") false) []]) ].
Definition sample_context : Context :=
  match validate values_of sample (Context_new 1%N) with Ret (_, c) => c | Panic _ => Context_new 1%N end.

Lemma values_of_perm m : values_of m ≡ₚ (map_to_list m).*2.
Proof. done. Qed.
Lemma sample_accepted :
  validate values_of sample (Context_new 1%N) = Ret ((), sample_context) ∧ errors sample_context = [].
Proof. split; vm_compute; reflexivity. Qed.
Lemma sample_plain : Forall (λ d, is_extension d = false) sample.
Proof. repeat constructor. Qed.
Lemma sample_path :
  path_typed (definition_names sample_context) "Named" [("owner", []); ("id", [])] (req "ID").
Proof.
  eapply path_more; [vm_compute; reflexivity|right; reflexivity|vm_compute; reflexivity| |].
  { split; intros a; [by intros ?%elem_of_nil|intros arg; vm_compute; discriminate]. }
  eapply (path_last _ _ _ _ _ _ _ (field "id" (req "ID")));
    [vm_compute; reflexivity|right; reflexivity|vm_compute; reflexivity|].
  split; intros a; [by intros ?%elem_of_nil|intros arg; vm_compute; discriminate].
Qed.

(** ** Witnesses *)
Lemma validate_accepts_witness :
  ∃ doc, parses sample "" = inr doc ∧ valid_document 1%N doc.
Proof. apply (validate_accepts values_of values_of_perm (parses sample) "" 1%N). vm_compute. reflexivity. Defined.


(** An enum whose two extensions add the same value. *)
Definition value (n : string) : EnumValueDefinition := MkEnumValueDefinition n [].
Definition twice_extended : Document :=
  [ type_def false "E" (Enum [value "A"]);
    type_def true "E" (Enum [value "B"]);
    type_def true "E" (Enum [value "B"]) ].
Lemma validate_panics_witness :
  ∃ msg, validate_with_options values_of (parses twice_extended) "" 1%N = Panic msg.
Proof.
  apply (validate_panics values_of values_of_perm (parses twice_extended) "" 1%N).
  exists twice_extended, (MkTypeDefinition false (nm "E") [] (Enum [value "A"])), [value "A"].
  split; [reflexivity|]. split; [left|]. split; [reflexivity|]. split; [reflexivity|].
  change (¬ NoDup ["B"; "B"]). rewrite NoDup_cons. set_solver.
Defined.
Lemma find_duplicates_spec_witness :
  ∃ pairs, find_duplicates ["a"; "b"; "a"; "a"] (λ i j, push_error (SyntaxError "duplicate")) (Context_new 0%N) =
      ('(_, c') ← for_each pairs (λ '(i, j), push_error (SyntaxError "duplicate")) (Context_new 0%N);
       Ret ((), set_strings_buf (λ _, positions ["a"; "b"; "a"; "a"]) c')) ∧
    (∀ i j, (i, j) ∈ pairs ↔ consecutive ["a"; "b"; "a"; "a"] i j) ∧ StronglySorted lt pairs.*2.
Proof.
  apply (find_duplicates_spec (λ _ _, push_error (SyntaxError "duplicate"))). intros i j. exact (frame_push _).
Defined.
Lemma subtype_matches_specification_witness :
  validate_implementer_wrapper_types (req "User") (opt "Thing")
    && validate_implementer_inner_type (definition_names sample_context) "User" "Thing"
  = IsValidImplementationFieldType (definition_names sample_context)
      (spec_type (req "User")) (spec_type (opt "Thing")).
Proof.
  apply (subtype_matches_specification (definition_names sample_context) (req "User") (opt "Thing")).
  destruct (validate_accepted values_of values_of_perm 1%N sample sample_context) as [Hv ->];
    [apply sample_accepted..|]. apply (accepted_unions 1%N sample Hv).
Defined.
Lemma accepted_subtype_preorder_witness :
  PreOrder (λ a b, field_subtype (definition_names sample_context) a b = true).
Proof.
  apply (accepted_subtype_preorder values_of values_of_perm 1%N sample);
    [apply sample_accepted..|apply sample_plain].
Defined.
Lemma accepted_path_substitution_witness :
  ∃ ty', path_typed (definition_names sample_context) "User" [("owner", []); ("id", [])] ty' ∧
    field_subtype (definition_names sample_context) ty' (req "ID") = true.
Proof.
  apply (accepted_path_substitution values_of values_of_perm 1%N sample sample_context "User" "Named");
    [apply sample_accepted|apply sample_accepted|apply sample_plain|vm_compute; reflexivity|apply sample_path].
Defined.

(** ** Where the code departs from its documentation *)

(** Values of enums are checked as input fields: a directive declared for enum
    values is rejected on them. *)
Theorem enum_value_directive_rejected :
  report 0 [ TSDirective (MkDirectiveDefinition "d" [] false [LEnumValue]);
             type_def false "E" (Enum [MkEnumValueDefinition "A" [MkConstDirective "d"]]) ]
  = Ret [InvalidDirectiveLocation "d" LInputFieldDefinition].
Proof. vm_compute. reflexivity. Qed.

(** The arguments of a directive definition are checked during the first pass:
    a type that is defined after the directive is reported as unknown. *)
Theorem directive_before_its_type :
  let input := type_def false "I" (InputObject [arg "x" (opt "Int")]) in
  let directive := TSDirective (MkDirectiveDefinition "d" [arg "a" (opt "I")] false [LObject]) in
  report 0 [directive; input] = Ret [UnknownType "I" "@d(a:)"] ∧ report 0 [input; directive] = Ret [].
Proof. split; vm_compute; reflexivity. Qed.

Definition deprecated_argument : Document :=
  [ type_def false "Query" (Object []
      [MkFieldDefinition (nm "f") [MkInputValue (nm "a") (req "Int") false [MkConstDirective "deprecated"]]
         (opt "Int") []]) ].
(** The two options are the same bit: asking for the check of extensions also
    enables the draft validations. *)
Theorem forbid_enables_draft :
  report FORBID_EXTENDING_UNKNOWN_TYPES deprecated_argument = Ret [RequiredArgumentDeprecated "Query" "f" "a"] ∧
  report 0 deprecated_argument = Ret [].
Proof. split; vm_compute; reflexivity. Qed.

(** Fields of interfaces and of input objects may be repeated. *)
Theorem repeated_fields_accepted :
  report 1 [ type_def false "I" (Interface [] [field "a" (opt "Int"); field "a" (opt "String")]);
             type_def false "J" (InputObject [arg "a" (opt "Int"); arg "a" (opt "String")]) ] = Ret [].
Proof. vm_compute. reflexivity. Qed.

(** Subtyping ignores the interfaces added by extensions. *)
Theorem extended_implements_ignored :
  report 1 [ type_def false "Node" (Interface [] [field "id" (req "ID")]);
             type_def false "Holder" (Interface [] [field "node" (opt "Node")]);
             type_def false "User" (Object [] [field "id" (req "ID")]);
             type_def true "User" (Object ["Node"] []);
             type_def false "UserHolder" (Object ["Holder"] [field "node" (opt "User")]) ]
  = Ret [NotASubtype "Holder" "UserHolder" "node" (opt "Node") (opt "User")].
Proof. vm_compute. reflexivity. Qed.

(** A root that is left out is given its default name when the roots are
    compared: [schema { query: Mutation }] is rejected, although only one root
    is provided. *)
Theorem default_root_name_taken :
  report 0 [ TSSchema (MkSchemaDefinition (MkPos 1 1) [] (Some "Mutation") None None);
             type_def false "Mutation" (Object [] [field "a" (opt "Int")]) ] = Ret [TypeUsedTwice "Mutation"].
Proof. vm_compute. reflexivity. Qed.

(** The handler of duplicates gets the previous occurrence, not the first. *)
Theorem find_duplicates_previous : duplicate_pairs ["a"; "b"; "a"; "a"] = [(0, 2); (2, 3)].
Proof. vm_compute. reflexivity. Qed.
