(* ===== verification/Ingest.v ===== *)
(** * [composition]: [ingest_subgraph.rs] and [ingest_subgraph/*.rs]

    Ingesting the document of a subgraph into the stores of [Subgraphs]. The
    documents are those of [async-graphql-parser], a third-party crate, with
    the parts ingestion reads; its parser of selection sets is an argument. *)
From Stdlib Require Import Ascii.
From S2P Require Import Prelude RustStd CheckSchema IndexSet FieldTypes Subgraphs.
Local Open Scope string_scope.
Local Open Scope list_scope.
Local Open Scope nat_scope.

(** ** Documents *)

(** [serde_json::Number]. *)
Inductive Number := PosInt (n : Z) | NegInt (n : Z) | Float (bits : Z).
Inductive ConstValue :=
| CNull | CNumber (n : Number) | CString (s : string) | CBoolean (b : bool) | CBinary
| CEnum (s : string) | CList (items : list ConstValue) | CObject (fields : list (string * ConstValue)).
Record ConstDirective := MkConstDirective {
  directive_name : string;
  directive_arguments : list (string * ConstValue);
}.
Record InputValueDefinition := MkInputValueDefinition {
  iv_name : string;
  iv_description : option string;
  iv_ty : AType;
  iv_default : option ConstValue;
  iv_directives : list ConstDirective;
}.
Record FieldDefinition := MkFieldDefinition {
  fd_name : string;
  fd_description : option string;
  fd_arguments : list InputValueDefinition;
  fd_ty : AType;
  fd_directives : list ConstDirective;
}.
Record EnumValueDefinition := MkEnumValueDefinition {
  evd_value : string;
  evd_directives : list ConstDirective;
}.
Inductive TypeKind :=
| TScalar
| TObject (implements : list string) (fields : list FieldDefinition)
| TInterface (implements : list string) (fields : list FieldDefinition)
| TUnion (members : list string)
| TEnum (values : list EnumValueDefinition)
| TInputObject (fields : list InputValueDefinition).
Record TypeDefinition := MkTypeDefinition {
  type_def_name : string;
  type_def_description : option string;
  type_def_directives : list ConstDirective;
  type_def_kind : TypeKind;
}.
Record SchemaDefinition := MkSchemaDefinition {
  sd_directives : list ConstDirective;
  sd_query : option string;
  sd_mutation : option string;
  sd_subscription : option string;
}.
Inductive TypeSystemDefinition :=
| TSSchema (def : SchemaDefinition)
| TSType (def : TypeDefinition)
| TSDirective.
Abbreviation Document := (list TypeSystemDefinition).

(** Executable documents, as far as [selection_set_from_str] reads them. The
    value of an argument is [None] when [into_const] finds a variable in it. *)
Inductive AstSelection :=
| AstField (name : string) (arguments : list (string * option ConstValue)) (items : list AstSelection)
| AstInlineFragment (type_condition : option string) (items : list AstSelection)
| AstFragmentSpread.
Inductive ExecutableDocument :=
| SingleOperation (items : list AstSelection)
| MultipleOperations.

(** [ConstDirective::get_argument]. *)
Definition get_argument (name : string) (d : ConstDirective) : option ConstValue :=
  snd <$> head (filter (λ a, a.1 = name) (directive_arguments d)).
(** The argument [name] when it is a string. *)
Definition string_argument (name : string) (d : ConstDirective) : option string :=
  match get_argument name d with Some (CString s) => Some s | _ => None end.

(** [str::trim_start_matches('@')]. *)
Fixpoint trim_at (s : string) : string :=
  match s with
  | String c s' => if Ascii.eqb c "@"%char then trim_at s' else s
  | EmptyString => s
  end.

(** ** [schema_definitions.rs] *)
Record RootTypeMatcher := MkRootTypeMatcher {
  matcher_query : option string;
  matcher_mutation : option string;
  matcher_subscription : option string;
}.
(** [Option::or]. *)
Definition or {A} (a b : option A) : option A := match a with Some _ => a | None => b end.
Definition ingest_schema_definition (document : Document) : RootTypeMatcher :=
  foldl (λ m d,
    match d with
    | TSSchema node =>
        MkRootTypeMatcher (or (matcher_query m) (sd_query node)) (or (matcher_mutation m) (sd_mutation node))
          (or (matcher_subscription m) (sd_subscription node))
    | _ => m
    end) (MkRootTypeMatcher None None None) document.

Inductive RootTypeMatch := RQuery | RMutation | RSubscription | NotRootButHasDefaultRootName | NotRoot.
Fixpoint match_names (name : string) (cases : list (option string * string * RootTypeMatch)) : RootTypeMatch :=
  match cases with
  | [] => NotRoot
  | (name_from_definition, default_name, match_case) :: cases =>
      match name_from_definition with
      | Some root_name =>
          if String.eqb root_name name then match_case
          else if String.eqb name default_name then NotRootButHasDefaultRootName
          else match_names name cases
      | None => if String.eqb name default_name then match_case else match_names name cases
      end
  end.
Definition match_name (m : RootTypeMatcher) (name : string) : RootTypeMatch :=
  match_names name [(matcher_query m, "Query", RQuery); (matcher_mutation m, "Mutation", RMutation);
                    (matcher_subscription m, "Subscription", RSubscription)].
Definition is_query (m : RootTypeMatcher) (name : string) : bool :=
  match match_name m name with RQuery => true | _ => false end.

(** ** The directive matcher of [directives.rs] *)
Record DirectiveMatcher := MkDirectiveMatcher {
  m_shareable : string; m_key : string; m_external : string; m_provides : string; m_requires : string;
  m_inaccessible : string; m_interface_object : string; m_override : string; m_compose_directive : string;
  m_requires_scopes : string; m_authenticated : string; m_policy : string; m_tag : string;
  m_composed_directives : gset string;
}.
Definition DirectiveMatcher_default : DirectiveMatcher :=
  MkDirectiveMatcher "shareable" "key" "external" "provides" "requires" "inaccessible" "interfaceObject"
    "override" "composeDirective" "requiresScopes" "authenticated" "policy" "tag" ∅.
(** [str::contains]. *)
Definition str_contains (s pattern : string) : bool :=
  match String.index 0 pattern s with Some _ => true | None => false end.
Definition is_federation_directive (d : ConstDirective) : bool :=
  if negb (String.eqb (directive_name d) "link") then false
  else match get_argument "url" d with
       | Some (CString s) => str_contains s "dev/federation/v2"
       | _ => false
       end.
(** [IndexMap::get] on the fields of an object. *)
Definition object_get (name : string) (fields : list (string * ConstValue)) : option ConstValue :=
  snd <$> head (filter (λ a, a.1 = name) fields).
Definition read_imports (imports : list ConstValue) (out : list (string * string)) : list (string * string) :=
  foldl (λ out import,
    match import with
    | CString import => let import := trim_at import in out ++ [(import, import)]
    | CObject obj =>
        match object_get "name" obj with
        | Some (CString name) =>
            let alias := match object_get "as" obj with Some (CString s) => s | _ => name end in
            out ++ [(trim_at name, trim_at alias)]
        | _ => out
        end
    | _ => out
    end) out imports.
(** The loop of [DirectiveMatcher::new] over the arguments of [@link]. *)
Definition read_link (acc : option string * list (string * string)) (arg : string * ConstValue) :
    option string * list (string * string) :=
  match arg with
  | (name, CString value) => if String.eqb name "as" then (Some value, acc.2) else acc
  | (name, CList imports) => if String.eqb name "import" then (acc.1, read_imports imports acc.2) else acc
  | _ => acc
  end.
Definition final_name (prefix : string) (imported : list (string * string)) (name : string) : string :=
  match head (filter (λ e, e.1 = name) imported) with
  | Some (_, alias) => alias
  | None => prefix +:+ name
  end.
Definition DirectiveMatcher_new (d : ConstDirective) : DirectiveMatcher :=
  let '(as_, imported) := foldl read_link (None, []) (directive_arguments d) in
  let prefix := match as_ with Some prefix => prefix +:+ "__" | None => "federation__" end in
  let f := final_name prefix imported in
  MkDirectiveMatcher (f "shareable") (f "key") (f "external") (f "provides") (f "requires") (f "inaccessible")
    (f "interfaceObject") (f "override") (f "composeDirective") (f "requiresScopes") (f "authenticated")
    (f "policy") (f "tag") ∅.
Definition with_composed_directives (m : DirectiveMatcher) (s : gset string) : DirectiveMatcher :=
  MkDirectiveMatcher (m_shareable m) (m_key m) (m_external m) (m_provides m) (m_requires m) (m_inaccessible m)
    (m_interface_object m) (m_override m) (m_compose_directive m) (m_requires_scopes m) (m_authenticated m)
    (m_policy m) (m_tag m) s.
Definition is_composed_directive (m : DirectiveMatcher) (name : string) : bool :=
  bool_decide (trim_at name ∈ m_composed_directives m).

(** [NestedKeyFields]: the two sets. *)
Abbreviation NestedKeyFields := (gset Subgraphs.FieldId * gset DefinitionId)%type.

Section ingest.
Context `{IndexSet}.

(** ** Functions that take [&mut Subgraphs] *)
Definition I (A : Type) : Type := Subgraphs → res (A * Subgraphs).
Global Instance I_ret : MRet I := λ A a sg, Ret (a, sg).
Global Instance I_bind : MBind I := λ A B f m sg, '(a, sg) ← m sg; f a sg.
Definition get_sg : I Subgraphs := λ sg, Ret (sg, sg).
Definition ilift {A} (r : res A) : I A := λ sg, a ← r; Ret (a, sg).
(** An operation of the stores. *)
Definition op {A} (f : Subgraphs → A * Subgraphs) : I A := λ sg, Ret (f sg).
Definition upd (f : Subgraphs → Subgraphs) : I unit := λ sg, Ret ((), f sg).
Fixpoint for_in {A} (l : list A) (f : A → I unit) : I unit :=
  match l with
  | [] => mret ()
  | x :: l => f x;; for_in l f
  end.
(** [iter().map(f).collect()] into a vector. *)
Definition collect {A B} (f : A → I B) : list A → I (list B) :=
  fix go l :=
    match l with
    | [] => mret []
    | x :: l => y ← f x; ys ← go l; mret (y :: ys)
    end.
(** The same into a [Result], whose error is the left value: it stops at the
    first error. *)
Definition try_collect {A B} (f : A → I (string + B)) : list A → I (string + list B) :=
  fix go l :=
    match l with
    | [] => mret (inr [])
    | x :: l =>
        r ← f x;
        match r with
        | inl err => mret (inl err)
        | inr y => r ← go l; mret match r with inl err => inl err | inr ys => inr (y :: ys) end
        end
    end.
(** [option.map(|s| subgraphs.strings.intern(s))]. *)
Definition intern_option (o : option string) : I (option StringId) :=
  match o with
  | Some s => id ← op (intern_string s); mret (Some id)
  | None => mret None
  end.

(** ** Stores: what can panic *)
Definition intern_type (t : AType) : I FieldTypeId := λ sg,
  let '(id, st) := intern_field_type t (store sg) in Ret (id, with_store sg st).
Definition definition_by_name_id (sg : Subgraphs) (name : StringId) (subgraph : SubgraphId) : option DefinitionId :=
  definition_names sg !! (name, subgraph).
Definition definition_by_name (name : string) (subgraph : SubgraphId) : I DefinitionId :=
  interned_name ← op (intern_string name);
  sg ← get_sg;
  ilift (unwrap (definition_by_name_id sg interned_name subgraph)).
Definition push_interface_impl (implementer implemented_interface : DefinitionId) : I unit :=
  sg ← get_sg;
  implementer_def ← ilift (definition sg implementer);
  implementee_def ← ilift (definition sg implemented_interface);
  let key := (definition_name implementee_def, definition_name implementer_def) in
  upd (λ sg, with_interface_impls sg ({[key]} ∪ interface_impls sg)
    (<[key := default [] (interface_definitions_to_subgraphs sg !! key) ++ [subgraph_id implementer_def]]>
       (interface_definitions_to_subgraphs sg))).
Definition set_root (f : Subgraph → Subgraph) (subgraph : SubgraphId) : I unit :=
  sg ← get_sg;
  s ← ilift (expect "index out of bounds" (subgraphs sg !! subgraph));
  upd (λ sg, with_subgraphs sg (<[subgraph := f s]> (subgraphs sg))).
Definition set_query_type (subgraph : SubgraphId) (id : DefinitionId) : I unit :=
  set_root (λ s, MkSubgraph (subgraph_name_id s) (subgraph_url s) (Some id) (mutation_type s) (subscription_type s))
    subgraph.
Definition set_mutation_type (subgraph : SubgraphId) (id : DefinitionId) : I unit :=
  set_root (λ s, MkSubgraph (subgraph_name_id s) (subgraph_url s) (query_type s) (Some id) (subscription_type s))
    subgraph.
Definition set_subscription_type (subgraph : SubgraphId) (id : DefinitionId) : I unit :=
  set_root (λ s, MkSubgraph (subgraph_name_id s) (subgraph_url s) (query_type s) (mutation_type s) (Some id))
    subgraph.
Definition push_ingestion_diagnostic (subgraph : SubgraphId) (message : string) : I unit :=
  sg ← get_sg;
  s ← ilift (expect "index out of bounds" (subgraphs sg !! subgraph));
  name ← ilift (string_at sg (subgraph_name_id s));
  upd (λ sg, with_diagnostics sg (ingestion_diagnostics sg ++ ["[" +:+ name +:+ "]: " +:+ message])).

(** [walk(definition_id).name().as_str()]. *)
Definition name_of (sg : Subgraphs) (id : DefinitionId) : res string :=
  d ← definition sg id; string_at sg (definition_name d).

(** ** Values *)
Definition i64_max : Z := 9223372036854775807.
(** [Number::as_i64] for a number that [is_u64] or [is_i64]. *)
Definition as_i64 (n : Z) : option Z := if (n <=? i64_max)%Z then Some n else None.
Fixpoint ast_value_to_subgraph_value (value : ConstValue) : I Value :=
  match value with
  | CBinary => ilift (Panic "internal error: entered unreachable code: binary value in argument")
  | CNull => mret VNull
  | CNumber (PosInt n) | CNumber (NegInt n) => n ← ilift (unwrap (as_i64 n)); mret (VInt n)
  | CNumber (Float bits) => mret (VFloat bits)
  | CString s => id ← op (intern_string s); mret (VString id)
  | CBoolean b => mret (VBoolean b)
  | CEnum s => id ← op (intern_string s); mret (VEnum id)
  | CList l => vs ← collect ast_value_to_subgraph_value l; mret (VList vs)
  | CObject o =>
      vs ← collect (λ field : string * ConstValue,
        name ← op (intern_string field.1);
        v ← ast_value_to_subgraph_value field.2;
        mret (name, v)) o;
      mret (VObject vs)
  end.
Definition ingest_argument (arg : string * ConstValue) : I (StringId * Value) :=
  name ← op (intern_string arg.1); value ← ast_value_to_subgraph_value arg.2; mret (name, value).

(** ** Selection sets *)
Context (parse_query : string → string + ExecutableDocument).

(** One item of [build_selection_set]. *)
Fixpoint build_selection (item : AstSelection) : I (string + Selection) :=
  match item with
  | AstField name arguments items =>
      field ← op (intern_string name);
      arguments ← collect (λ a : string * option ConstValue,
        name ← op (intern_string a.1);
        value ← ilift (unwrap a.2);
        value ← ast_value_to_subgraph_value value;
        mret (name, value)) arguments;
      r ← try_collect build_selection items;
      match r with
      | inl err => mret (inl err)
      | inr subselection => mret (inr (SField field arguments subselection))
      end
  | AstInlineFragment (Some on) items =>
      r ← try_collect build_selection items;
      match r with
      | inl err => mret (inl err)
      | inr subselection => on ← op (intern_string on); mret (inr (SInlineFragment on subselection))
      end
  | _ => mret (inl "Fragment spreads not allowed in key definitions.")
  end.
Definition build_selection_set (items : list AstSelection) : I (string + list Selection) :=
  try_collect build_selection items.
Definition selection_set_from_str (fields : string) : I (string + list Selection) :=
  match parse_query ("{ " +:+ fields +:+ " }") with
  | inl err => mret (inl err)
  | inr MultipleOperations => mret (inl "The `fields` argument in `@keys` must be a selection set")
  | inr (SingleOperation items) => build_selection_set items
  end.
Definition push_key (object_id : DefinitionId) (selection_set_str : string) (resolvable : bool) : I (string + unit) :=
  r ← selection_set_from_str selection_set_str;
  match r with
  | inl err => mret (inl err)
  | inr selection_set =>
      upd (λ sg, with_keys sg (keys sg ++ [(object_id, MkKey selection_set resolvable)]) (nested_key_fields sg)
                   (objects_with_nested_keys sg));;
      mret (inr ())
  end.

(** ** [directives.rs] *)

(** [if c { m }]. *)
Definition when (c : bool) (m : I unit) : I unit := if c then m else mret ().

(** An optional argument that holds a selection set; [None] when it is absent
    or not a string. *)
Definition selection_argument (name : string) (d : ConstDirective) : I (string + option (list Selection)) :=
  match string_argument name d with
  | Some input => r ← selection_set_from_str input; mret match r with inl err => inl err | inr l => inr (Some l) end
  | None => mret (inr None)
  end.
(** [authorized::ingest]. *)
Definition ingest_authorized (site : DirectiveSiteId) (d : ConstDirective) : I (string + unit) :=
  arguments ← selection_argument "arguments" d;
  match arguments with
  | inl err => mret (inl err)
  | inr arguments =>
      fields ← selection_argument "fields" d;
      match fields with
      | inl err => mret (inl err)
      | inr fields =>
          node ← selection_argument "node" d;
          match node with
          | inl err => mret (inl err)
          | inr node =>
              metadata ← match get_argument "metadata" d with
                         | Some v => v ← ast_value_to_subgraph_value v; mret (Some v)
                         | None => mret None
                         end;
              upd (insert_authorized site (MkAuthorized arguments fields node metadata));;
              mret (inr ())
          end
      end
  end.

(** The lists of [@requiresScopes] and [@policy]. *)
Definition inner_strings (v : ConstValue) : I (list StringId) :=
  match v with
  | CList l => collect (λ s, op (intern_string s)) (omap (λ v, match v with CString s => Some s | _ => None end) l)
  | _ => mret []
  end.
Definition list_argument (name : string) (d : ConstDirective) : list ConstValue :=
  match get_argument name d with Some (CList l) => l | _ => [] end.

(** [@requires] and [@provides]: the argument must be a string. *)
Definition ingest_selection_directive (insert : list Selection → Subgraphs → Subgraphs)
    (subgraph : SubgraphId) (d : ConstDirective) : I unit :=
  match string_argument "fields" d with
  | None => mret ()
  | Some fields_arg =>
      r ← selection_set_from_str fields_arg;
      match r with
      | inl err => push_ingestion_diagnostic subgraph err
      | inr fields => upd (insert fields)
      end
  end.
(** The conditions without [continue], from [@authenticated] on. *)
Definition ingest_directive_tail (site : DirectiveSiteId) (matcher : DirectiveMatcher) (subgraph : SubgraphId)
    (location : Subgraphs → res string) (d : ConstDirective) : I unit :=
  let name := directive_name d in
  when (String.eqb (m_authenticated matcher) name) (upd (insert_authenticated site));;
  when (String.eqb (m_requires_scopes matcher) name)
    (for_in (list_argument "scopes" d) (λ scope,
       inner ← inner_strings scope; upd (append_required_scopes site inner)));;
  when (String.eqb (m_policy matcher) name)
    (for_in (list_argument "policies" d) (λ policy,
       inner ← inner_strings policy; upd (insert_policy site inner)));;
  when (String.eqb name "deprecated") (upd (insert_deprecated site (string_argument "reason" d)));;
  when (String.eqb name "authorized")
    (r ← ingest_authorized site d;
     match r with
     | inl err =>
         sg ← get_sg;
         location ← ilift (location sg);
         push_ingestion_diagnostic subgraph
           ("Error validating the @authorized directive at " +:+ location +:+ ": " +:+ err)
     | inr () => mret ()
     end).
Definition ingest_directive (site : DirectiveSiteId) (matcher : DirectiveMatcher) (subgraph : SubgraphId)
    (location : Subgraphs → res string) (d : ConstDirective) : I unit :=
  let name := directive_name d in
  if String.eqb (m_shareable matcher) name then upd (set_shareable site)
  else if String.eqb (m_external matcher) name then upd (set_external site)
  else if String.eqb (m_interface_object matcher) name then upd (set_interface_object site)
  else if String.eqb (m_inaccessible matcher) name then upd (set_inaccessible site)
  else if String.eqb (m_override matcher) name then
    from ← intern_option (string_argument "from" d);
    label ← intern_option (string_argument "label" d);
    match from with
    | None => mret ()
    | Some from => upd (set_override site (MkOverride from label))
    end
  else if String.eqb (m_requires matcher) name then ingest_selection_directive (set_requires site) subgraph d
  else if String.eqb (m_provides matcher) name then ingest_selection_directive (set_provides site) subgraph d
  else
    when (is_composed_directive matcher name)
      (arguments ← collect ingest_argument (directive_arguments d);
       upd (insert_composed_directive_instance site name arguments));;
    if String.eqb (m_tag matcher) name then
      match get_argument "name" d with
      | None => mret ()
      | Some value =>
          match value with CString s => upd (insert_tag site s) | _ => mret () end;;
          ingest_directive_tail site matcher subgraph location d
      end
    else ingest_directive_tail site matcher subgraph location d.
Definition ingest_directives (site : DirectiveSiteId) (directives_node : list ConstDirective)
    (matcher : DirectiveMatcher) (subgraph : SubgraphId) (location : Subgraphs → res string) : I unit :=
  for_in directives_node (ingest_directive site matcher subgraph location).

Definition ingest_keys (definition_id : DefinitionId) (directives_node : list ConstDirective)
    (matcher : DirectiveMatcher) : I unit :=
  for_in directives_node (λ d,
    when (String.eqb (m_key matcher) (directive_name d))
      match string_argument "fields" d with
      | None => mret ()
      | Some fields_arg =>
          let is_resolvable := match get_argument "resolvable" d with Some (CBoolean b) => b | _ => true end in
          push_key definition_id fields_arg is_resolvable;; mret ()
      end).

Definition schema_directives (document : Document) : list ConstDirective :=
  concat (omap (λ d, match d with TSSchema node => Some (sd_directives node) | _ => None end) document).
Definition composed_names (matcher : DirectiveMatcher) (document : Document) : list string :=
  omap (string_argument "name")
    (filter (λ d, m_compose_directive matcher = directive_name d) (schema_directives document)).
Definition ingest_directive_definitions (document : Document) (subgraph : SubgraphId) : I DirectiveMatcher :=
  let matcher := match head (filter (λ d, is_federation_directive d = true) (schema_directives document)) with
                 | Some d => DirectiveMatcher_new d
                 | None => DirectiveMatcher_default
                 end in
  let names := composed_names matcher document in
  for_in names (λ name,
    when (negb (String.prefix "@" name))
      (push_ingestion_diagnostic subgraph
         ("The `" +:+ name +:+ "` directive is missing the `@` prefix in @composeDirective.")));;
  mret (with_composed_directives matcher (list_to_set (trim_at <$> names))).

(** ** [enums.rs] and [fields.rs] *)
Definition ingest_enum (definition_id : DefinitionId) (values : list EnumValueDefinition)
    (matcher : DirectiveMatcher) (subgraph : SubgraphId) : I unit :=
  for_in values (λ value,
    value_name ← op (intern_string (evd_value value));
    value_directives ← op new_directive_site;
    upd (push_enum_value definition_id value_name value_directives);;
    ingest_directives value_directives (evd_directives value) matcher subgraph (λ sg, name_of sg definition_id)).

(** [default_value.map(ast_value_to_subgraph_value)]. *)
Definition ingest_default (o : option ConstValue) : I (option Value) :=
  match o with Some v => v ← ast_value_to_subgraph_value v; mret (Some v) | None => mret None end.
Definition ingest_input_fields (parent : DefinitionId) (fields : list InputValueDefinition)
    (matcher : DirectiveMatcher) (subgraph : SubgraphId) : I unit :=
  for_in fields (λ field,
    field_type ← intern_type (iv_ty field);
    directives ← op new_directive_site;
    ingest_directives directives (iv_directives field) matcher subgraph
      (λ sg, n ← name_of sg parent; Ret (n +:+ "." +:+ iv_name field));;
    description ← intern_option (iv_description field);
    default ← ingest_default (iv_default field);
    op (push_field parent (iv_name field) (MkFieldTuple field_type description directives) default);;
    mret ()).
(** [walk_field(field_id)]: an index into the map. *)
Definition walk_field (sg : Subgraphs) (field : Subgraphs.FieldId) : res FieldTuple :=
  expect "no entry found for key" (definition_fields sg !! field).
Definition ingest_field_arguments (field : Subgraphs.FieldId) (arguments : list InputValueDefinition)
    (matcher : DirectiveMatcher) (subgraph : SubgraphId) : I unit :=
  for_in arguments (λ argument,
    ty ← intern_type (iv_ty argument);
    name ← op (intern_string (iv_name argument));
    argument_directives ← op new_directive_site;
    ingest_directives argument_directives (iv_directives argument) matcher subgraph
      (λ sg, _ ← walk_field sg field; parent ← name_of sg field.1; field_name ← string_at sg field.2;
             Ret (parent +:+ "." +:+ field_name +:+ "(" +:+ iv_name argument +:+ ":)"));;
    description ← intern_option (iv_description argument);
    default ← ingest_default (iv_default argument);
    upd (insert_field_argument field name (MkFieldTuple ty description argument_directives) default)).
Definition ingest_fields (definition_id : DefinitionId) (fields : list FieldDefinition)
    (matcher : DirectiveMatcher) (parent_is_query_root_type : bool) (subgraph : SubgraphId) : I unit :=
  for_in fields (λ field,
    if parent_is_query_root_type && bool_decide (fd_name field ∈ ["_entities"; "_service"]) then mret ()
    else
      description ← intern_option (fd_description field);
      field_type ← intern_type (fd_ty field);
      directives ← op new_directive_site;
      field_id ← op (push_field definition_id (fd_name field) (MkFieldTuple field_type description directives) None);
      ingest_directives directives (fd_directives field) matcher subgraph
        (λ sg, n ← name_of sg definition_id; Ret (n +:+ "." +:+ fd_name field));;
      ingest_field_arguments field_id (fd_arguments field) matcher subgraph).

(** ** [nested_key_fields.rs], with the walkers it uses *)

(** [SubgraphWalker::definitions]: the ids of the definitions of a subgraph. *)
Definition subgraph_definitions (sg : Subgraphs) (subgraph : SubgraphId) : list DefinitionId :=
  let start := partition_point (λ d, ltb (subgraph_id d) subgraph) (definitions sg) in
  seq start (length (take_while (λ d, subgraph_id d =? subgraph) (drop start (definitions sg)))).
(** [DefinitionWalker::entity_keys]: the keys whose indices it returns. *)
Definition entity_keys (sg : Subgraphs) (id : DefinitionId) : list Key :=
  let start := partition_point (λ k, ltb k.1 id) (keys sg) in
  (take_while (λ k, k.1 =? id) (drop start (keys sg))).*2.
Definition find_field (sg : Subgraphs) (id : DefinitionId) (name : StringId) : option FieldTuple :=
  definition_fields sg !! (id, name).
(** [FieldTypeWalker::definition]. *)
Definition type_definition (sg : Subgraphs) (t : FieldTypeId) (subgraph : SubgraphId) : res (option DefinitionId) :=
  i ← inner (store sg) t; Ret (definition_by_name_id sg (inner_name i) subgraph).

Definition insert_nested (nested : NestedKeyFields) (field : Subgraphs.FieldId) : NestedKeyFields :=
  ({[field]} ∪ nested.1, {[field.1]} ∪ nested.2).
Fixpoint ingest_nested_key_fields_rec (sg : Subgraphs) (parent : DefinitionId) (selection : Selection)
    (nested : NestedKeyFields) : res NestedKeyFields :=
  match selection with
  | SField field _ subselection =>
      match find_field sg parent field with
      | None => Ret nested
      | Some tuple =>
          let nested := insert_nested nested (parent, field) in
          if decide (subselection = []) then Ret nested
          else
            parent_def ← definition sg parent;
            selection_field_type ← type_definition sg (tuple_type tuple) (subgraph_id parent_def);
            match selection_field_type with
            | None => Ret nested
            | Some selection_field_type =>
                (fix go (l : list Selection) (nested : NestedKeyFields) :=
                   match l with
                   | [] => Ret nested
                   | s :: l => nested ← ingest_nested_key_fields_rec sg selection_field_type s nested; go l nested
                   end) subselection nested
            end
      end
  | SInlineFragment _ _ => Ret nested
  end.
Definition ingest_nested_key (sg : Subgraphs) (subgraph : SubgraphId) (definition : DefinitionId)
    (nested : NestedKeyFields) (selection : Selection) : res NestedKeyFields :=
  match selection with
  | SField field _ subselection =>
      field_type ← match find_field sg definition field with
                   | Some tuple => type_definition sg (tuple_type tuple) subgraph
                   | None => Ret None
                   end;
      match field_type with
      | None => Ret nested
      | Some field_type =>
          fold_res (λ nested s, ingest_nested_key_fields_rec sg field_type s nested) nested subselection
      end
  | SInlineFragment _ _ => Ret nested
  end.
Definition ingest_nested_key_fields (subgraph : SubgraphId) : I unit :=
  sg ← get_sg;
  ilift (expect "index out of bounds" (subgraphs sg !! subgraph));;
  nested ← ilift (fold_res (λ nested definition,
    fold_res (λ nested key, fold_res (ingest_nested_key sg subgraph definition) nested (selection_set key))
      nested (entity_keys sg definition))
    (nested_key_fields sg, objects_with_nested_keys sg) (subgraph_definitions sg subgraph));
  upd (λ sg, with_keys sg (keys sg) nested.1 nested.2).

(** ** [ingest_subgraph.rs] *)
Definition SERVICE_TYPE_NAME : string := "_Service".
Definition ENTITY_UNION_NAME : string := "_Entity".

Definition ingest_root (subgraph : SubgraphId) (root_type_matcher : RootTypeMatcher) (type_name : string)
    (definition_id : DefinitionId) : I unit :=
  match match_name root_type_matcher type_name with
  | RQuery => set_query_type subgraph definition_id
  | RMutation => set_mutation_type subgraph definition_id
  | RSubscription => set_subscription_type subgraph definition_id
  | NotRootButHasDefaultRootName =>
      push_ingestion_diagnostic subgraph
        ("The " +:+ type_name +:+ " type has the default name for a root but is itself not a root. This is not valid in a federation context.")
  | NotRoot => mret ()
  end.
Definition ingest_top_level_type (subgraph : SubgraphId) (matcher : DirectiveMatcher)
    (root_type_matcher : RootTypeMatcher) (def : TypeDefinition) : I unit :=
  let type_name := type_def_name def in
  description ← intern_option (type_def_description def);
  directives ← op new_directive_site;
  let push kind := op (push_definition subgraph type_name kind description directives) in
  definition_id ←
    match type_def_kind def with
    | TObject _ _ =>
        if String.eqb type_name SERVICE_TYPE_NAME then mret None
        else id ← push DObject; ingest_root subgraph root_type_matcher type_name id;; mret (Some id)
    | TInterface _ _ => id ← push DInterface; mret (Some id)
    | TUnion _ =>
        if String.eqb type_name ENTITY_UNION_NAME then mret None
        else id ← push DUnion; mret (Some id)
    | TInputObject _ => id ← push DInputObject; mret (Some id)
    | TScalar => id ← push DScalar; mret (Some id)
    | TEnum values => id ← push DEnum; ingest_enum id values matcher subgraph;; mret (Some id)
    end;
  match definition_id with
  | None => mret ()
  | Some definition_id =>
      ingest_directives directives (type_def_directives def) matcher subgraph (λ _, Ret type_name);;
      ingest_keys definition_id (type_def_directives def) matcher
  end.
Definition ingest_top_level_definitions (subgraph : SubgraphId) (document : Document)
    (matcher : DirectiveMatcher) (root_type_matcher : RootTypeMatcher) : I unit :=
  for_in document (λ definition,
    match definition with
    | TSType def => ingest_top_level_type subgraph matcher root_type_matcher def
    | TSSchema _ | TSDirective => mret ()
    end).

Definition ingest_implements (subgraph : SubgraphId) (definition_id : DefinitionId) (implements : list string) : I unit :=
  for_in implements (λ implemented_interface,
    implemented_interface ← definition_by_name implemented_interface subgraph;
    push_interface_impl definition_id implemented_interface).
Definition ingest_definition_body (subgraph : SubgraphId) (matcher : DirectiveMatcher)
    (root_type_matcher : RootTypeMatcher) (def : TypeDefinition) : I unit :=
  let name := type_def_name def in
  match type_def_kind def with
  | TUnion members =>
      if String.eqb name ENTITY_UNION_NAME then mret ()
      else
        union_id ← definition_by_name name subgraph;
        for_in members (λ member,
          member_id ← definition_by_name member subgraph;
          upd (push_union_member union_id member_id))
  | TInputObject fields =>
      definition_id ← definition_by_name name subgraph;
      ingest_input_fields definition_id fields matcher subgraph
  | TInterface implements fields =>
      definition_id ← definition_by_name name subgraph;
      ingest_implements subgraph definition_id implements;;
      ingest_fields definition_id fields matcher false subgraph
  | TObject implements fields =>
      if String.eqb name SERVICE_TYPE_NAME then mret ()
      else
        definition_id ← definition_by_name name subgraph;
        ingest_implements subgraph definition_id implements;;
        ingest_fields definition_id fields matcher (is_query root_type_matcher name) subgraph
  | _ => mret ()
  end.
Definition ingest_definition_bodies (subgraph : SubgraphId) (document : Document)
    (matcher : DirectiveMatcher) (root_type_matcher : RootTypeMatcher) : I unit :=
  for_in (omap (λ d, match d with TSType def => Some def | _ => None end) document)
    (ingest_definition_body subgraph matcher root_type_matcher).

Definition ingest_subgraph (document : Document) (name url : string) : I unit :=
  subgraph ← op (push_subgraph name url);
  let root_type_matcher := ingest_schema_definition document in
  matcher ← ingest_directive_definitions document subgraph;
  ingest_top_level_definitions subgraph document matcher root_type_matcher;;
  ingest_definition_bodies subgraph document matcher root_type_matcher;;
  ingest_nested_key_fields subgraph;;
  for_in (btree_set_iter (m_composed_directives matcher)) (λ name, upd (insert_composed_directive subgraph name)).
End ingest.
