(* ===== verification/IngestRules.v ===== *)
(** * The invariant of the ingested subgraphs

    Every id stored in [Subgraphs] refers to something that exists, the
    definitions are sorted by subgraph and the keys by definition. Ingestion is
    reasoned about with a judgement over its state: started in a well-formed
    state, an operation that returns leaves a well-formed state that extends
    the first one. *)
From S2P Require Import Prelude RustStd CheckSchema IndexSet FieldTypes Subgraphs Ingest.
Local Open Scope string_scope.
Local Open Scope list_scope.
Local Open Scope nat_scope.

(** ** The strings of values and selections *)
Fixpoint value_strings (v : Value) : list StringId :=
  match v with
  | VString s | VEnum s => [s]
  | VObject fields => concat (map (λ f, f.1 :: value_strings f.2) fields)
  | VList items => concat (map value_strings items)
  | VInt _ | VFloat _ | VBoolean _ | VNull => []
  end.
Definition arguments_strings (a : Arguments_) : list StringId := concat (map (λ f, f.1 :: value_strings f.2) a).
Fixpoint selection_strings (s : Selection) : list StringId :=
  match s with
  | SField field arguments subselection =>
      field :: arguments_strings arguments ++ concat (map selection_strings subselection)
  | SInlineFragment on subselection => on :: concat (map selection_strings subselection)
  end.
Definition selections_strings (l : list Selection) : list StringId := concat (map selection_strings l).

Section invariant.
Context `{IndexSetLaws}.

(** ** Well-formed ids *)
Definition interned (sg : Subgraphs) (id : StringId) : Prop := is_Some (get_index (strings (store sg)) id).
Definition interned_all (sg : Subgraphs) (ids : list StringId) : Prop := Forall (interned sg) ids.
Definition interned_opt (sg : Subgraphs) (o : option StringId) : Prop := ∀ id, o = Some id → interned sg id.
Definition site_exists (sg : Subgraphs) (site : DirectiveSiteId) : Prop := site < site_id_counter (directives sg).
Definition defined (sg : Subgraphs) (id : DefinitionId) : Prop := id < length (definitions sg).
Definition typed (sg : Subgraphs) (id : FieldTypeId) : Prop := ∃ t, represents (store sg) id t.
Definition tuple_wf (sg : Subgraphs) (t : FieldTuple) : Prop :=
  typed sg (tuple_type t) ∧ interned_opt sg (tuple_description t) ∧ site_exists sg (tuple_directives t).

(** ** The tables *)
Record definitions_wf (sg : Subgraphs) : Prop := {
  def_ids : ∀ id d, definitions sg !! id = Some d →
    interned sg (definition_name d) ∧ interned_opt sg (definition_description d) ∧
    site_exists sg (definition_directives d) ∧ subgraph_id d < length (subgraphs sg) ∧
    is_Some (definition_names sg !! (definition_name d, subgraph_id d));
  def_sorted : StronglySorted le (subgraph_id <$> definitions sg);
  def_names : ∀ n s id, definition_names sg !! (n, s) = Some id →
    ∃ d, definitions sg !! id = Some d ∧ definition_name d = n ∧ subgraph_id d = s;
}.
Record bodies_wf (sg : Subgraphs) : Prop := {
  body_fields : ∀ d n t, definition_fields sg !! (d, n) = Some t → defined sg d ∧ interned sg n ∧ tuple_wf sg t;
  body_arguments : ∀ f a t, field_arguments sg !! (f, a) = Some t →
    is_Some (definition_fields sg !! f) ∧ interned sg a ∧ tuple_wf sg t;
  body_defaults : ∀ f v, input_field_default_values sg !! f = Some v →
    is_Some (definition_fields sg !! f) ∧ interned_all sg (value_strings v);
  body_argument_defaults : ∀ a v, field_argument_defaults sg !! a = Some v →
    is_Some (field_arguments sg !! a) ∧ interned_all sg (value_strings v);
  body_enums : ∀ d v site, enums sg !! (d, v) = Some site → defined sg d ∧ interned sg v ∧ site_exists sg site;
}.
Record links_wf (sg : Subgraphs) : Prop := {
  link_impls : ∀ a b, (a, b) ∈ interface_impls sg → interned sg a ∧ interned sg b;
  link_unions : ∀ u m, (u, m) ∈ unions sg → defined sg u ∧ defined sg m;
  link_keys : ∀ d k, (d, k) ∈ keys sg → defined sg d ∧ interned_all sg (selections_strings (selection_set k));
  link_keys_sorted : StronglySorted le (keys sg).*1;
  link_nested : ∀ f, f ∈ nested_key_fields sg → is_Some (definition_fields sg !! f);
  link_objects : ∀ d, d ∈ objects_with_nested_keys sg → defined sg d;
  link_subgraphs : ∀ s, s ∈ subgraphs sg → interned sg (subgraph_name_id s) ∧ interned sg (subgraph_url s) ∧
    (∀ id, query_type s = Some id ∨ mutation_type s = Some id ∨ subscription_type s = Some id → defined sg id);
  link_impl_subgraphs : ∀ k l, interface_definitions_to_subgraphs sg !! k = Some l →
    (interned sg k.1 ∧ interned sg k.2) ∧ Forall (λ s, s < length (subgraphs sg)) l;
}.
(** Some directive is recorded for the site. *)
Definition site_recorded (d : Directives) (site : DirectiveSiteId) : Prop :=
  is_Some (deprecated_map d !! site) ∨ is_Some (override_map d !! site) ∨ is_Some (provides_map d !! site) ∨
  is_Some (requires_map d !! site) ∨ is_Some (authorized_map d !! site) ∨
  (∃ l, (site, l) ∈ requires_scopes_set d) ∨ (∃ l, (site, l) ∈ policies_set d) ∨
  site ∈ authenticated_set d ∨ site ∈ inaccessible_set d ∨ site ∈ shareable_set d ∨ site ∈ external_set d ∨
  site ∈ interface_object_set d ∨ (∃ t, (site, t) ∈ tags_set d) ∨
  (∃ n a, (site, n, a) ∈ composed_directive_instances d).
Record directives_wf (sg : Subgraphs) (d : Directives) : Prop := {
  dir_sites : ∀ site, site_recorded d site → site_exists sg site;
  dir_deprecated : ∀ site r, deprecated_map d !! site = Some r → interned_opt sg r;
  dir_override : ∀ site o, override_map d !! site = Some o →
    interned sg (override_from o) ∧ interned_opt sg (override_label o);
  dir_provides : ∀ site l, provides_map d !! site = Some l → interned_all sg (selections_strings l);
  dir_requires : ∀ site l, requires_map d !! site = Some l → interned_all sg (selections_strings l);
  dir_authorized : ∀ site a, authorized_map d !! site = Some a →
    (∀ l, authorized_arguments a = Some l ∨ authorized_fields a = Some l ∨ authorized_node a = Some l →
       interned_all sg (selections_strings l)) ∧
    (∀ v, authorized_metadata a = Some v → interned_all sg (value_strings v));
  dir_scopes : ∀ site l, (site, l) ∈ requires_scopes_set d → interned_all sg l;
  dir_policies : ∀ site l, (site, l) ∈ policies_set d → interned_all sg l;
  dir_tags : ∀ site t, (site, t) ∈ tags_set d → interned sg t;
  dir_composed : ∀ s n, (s, n) ∈ composed_directives_set d → s < length (subgraphs sg) ∧ interned sg n;
  dir_instances : ∀ site n a, (site, n, a) ∈ composed_directive_instances d →
    interned sg n ∧ interned_all sg (arguments_strings a);
}.
Record wf (sg : Subgraphs) : Prop := {
  wf_store : wrappers_wf (wrappers (store sg));
  wf_definitions : definitions_wf sg;
  wf_bodies : bodies_wf sg;
  wf_links : links_wf sg;
  wf_directives : directives_wf sg (directives sg);
}.

(** ** Extension of states *)

(** Nothing that exists disappears; [same] also adds no definition. *)
Record grows (sg sg' : Subgraphs) : Prop := {
  g_store : store_extends (store sg) (store sg');
  g_sites : site_id_counter (directives sg) ≤ site_id_counter (directives sg');
  g_definitions : definitions sg `prefix_of` definitions sg';
  g_subgraphs : length (subgraphs sg) = length (subgraphs sg');
  g_fields : ∀ f, is_Some (definition_fields sg !! f) → is_Some (definition_fields sg' !! f);
}.
Definition same (sg sg' : Subgraphs) : Prop :=
  grows sg sg' ∧ definitions sg' = definitions sg ∧ definition_names sg' = definition_names sg.

Global Instance grows_preorder : PreOrder grows.
Proof.
  split.
  - intros sg. split; [by repeat split|done|done|done|done].
  - intros a b c [(S1 & S2 & S3) ? ? ? ?] [(T1 & T2 & T3) ? ? ? ?].
    split; [split_and!; by etransitivity|lia|by etransitivity|congruence|auto].
Qed.
Global Instance same_preorder : PreOrder same.
Proof.
  split.
  - intros sg. split; [reflexivity|done].
  - intros a b c (G1 & D1 & N1) (G2 & D2 & N2). split; [by etransitivity|split; congruence].
Qed.
Lemma same_grows sg sg' : same sg sg' → grows sg sg'.
Proof. by intros []. Qed.

Lemma interned_mono sg sg' id : grows sg sg' → interned sg id → interned sg' id.
Proof. intros [(Hs & _) _ _ _] [s Hid]. exists s. by apply Hs. Qed.
Lemma interned_all_mono sg sg' l : grows sg sg' → interned_all sg l → interned_all sg' l.
Proof. intros Hg Hl. eapply Forall_impl; [exact Hl|]. intros id. by apply interned_mono. Qed.
Lemma interned_opt_mono sg sg' o : grows sg sg' → interned_opt sg o → interned_opt sg' o.
Proof. intros Hg Ho id Hid. eapply interned_mono; [done|by apply Ho]. Qed.
Lemma site_exists_mono sg sg' site : grows sg sg' → site_exists sg site → site_exists sg' site.
Proof. intros [_ Hs _ _ _]. unfold site_exists. lia. Qed.
Lemma defined_mono sg sg' id : grows sg sg' → defined sg id → defined sg' id.
Proof. intros [_ _ Hp _ _]. apply prefix_length in Hp. unfold defined. lia. Qed.
Lemma typed_mono sg sg' id : grows sg sg' → typed sg id → typed sg' id.
Proof. intros [Hs _ _ _ _] [t Ht]. exists t. by eapply represents_mono. Qed.
Lemma tuple_wf_mono sg sg' t : grows sg sg' → tuple_wf sg t → tuple_wf sg' t.
Proof.
  intros Hg (? & ? & ?). split_and!; [by eapply typed_mono|by eapply interned_opt_mono|by eapply site_exists_mono].
Qed.
Lemma directives_wf_mono sg sg' d : grows sg sg' → directives_wf sg d → directives_wf sg' d.
Proof.
  intros Hg [D0 D1 D2 D3 D4 D5 D6 D7 D8 D9 D10]. split.
  - intros site Hr. eapply site_exists_mono; eauto.
  - intros site r Hr. eapply interned_opt_mono; eauto.
  - intros site o Ho. destruct (D2 site o Ho). split; [by eapply interned_mono|by eapply interned_opt_mono].
  - intros site l Hl. eapply interned_all_mono; eauto.
  - intros site l Hl. eapply interned_all_mono; eauto.
  - intros site a Ha. destruct (D5 site a Ha) as [A1 A2].
    split; [intros l Hl|intros v Hv]; eapply interned_all_mono; eauto.
  - intros site l Hl. eapply interned_all_mono; eauto.
  - intros site l Hl. eapply interned_all_mono; eauto.
  - intros site t Ht. eapply interned_mono; eauto.
  - intros s n Hn. destruct (D9 s n Hn). rewrite <-(g_subgraphs _ _ Hg). split; [done|by eapply interned_mono].
  - intros site n a Hi. destruct (D10 site n a Hi). split; [by eapply interned_mono|by eapply interned_all_mono].
Qed.
End invariant.

(** Carries what is known of the state before a step over to the state after it. *)
Ltac carry Hg :=
  cbn beta in *;
  let G := fresh in
  first [pose proof (same_grows _ _ Hg) as G | pose proof Hg as G];
  repeat match goal with
  | Hi : interned ?sg _ |- _ => match type of G with grows sg _ => apply (interned_mono _ _ _ G) in Hi end
  | Hi : interned_all ?sg _ |- _ => match type of G with grows sg _ => apply (interned_all_mono _ _ _ G) in Hi end
  | Hi : interned_opt ?sg _ |- _ => match type of G with grows sg _ => apply (interned_opt_mono _ _ _ G) in Hi end
  | Hi : site_exists ?sg _ |- _ => match type of G with grows sg _ => apply (site_exists_mono _ _ _ G) in Hi end
  | Hi : defined ?sg _ |- _ => match type of G with grows sg _ => apply (defined_mono _ _ _ G) in Hi end
  | Hi : typed ?sg _ |- _ => match type of G with grows sg _ => apply (typed_mono _ _ _ G) in Hi end
  | Hi : is_Some (definition_fields ?sg !! _) |- _ =>
      match type of G with grows sg _ => apply (g_fields _ _ G) in Hi end
  end; clear G.

(** ** Rules for the operations of ingestion

    The judgement [step_ok] and one rule per operation of the stores: it
    preserves the invariant and extends the state. *)

Section rules.
Context `{IndexSetLaws}.
Implicit Types sg : Subgraphs.

(** The tables carry over to an extension that does not change them. *)
Lemma definitions_wf_mono sg sg' :
  same sg sg' → definitions_wf sg → definitions_wf sg'.
Proof.
  intros (G & ED & EN) [D1 D2 D3]. split.
  - intros id d. rewrite ED. intros Hd. destruct (D1 id d Hd) as (? & ? & ? & ? & ?). rewrite EN, <-(g_subgraphs _ _ G).
    split_and!; [by eapply interned_mono|by eapply interned_opt_mono|by eapply site_exists_mono|done|done].
  - by rewrite ED.
  - intros n s id. rewrite EN, ED. apply D3.
Qed.
Lemma bodies_wf_mono sg sg' :
  grows sg sg' → definition_fields sg' = definition_fields sg → field_arguments sg' = field_arguments sg →
  input_field_default_values sg' = input_field_default_values sg →
  field_argument_defaults sg' = field_argument_defaults sg → enums sg' = enums sg →
  bodies_wf sg → bodies_wf sg'.
Proof.
  intros G E1 E2 E3 E4 E5 [B1 B2 B3 B4 B5]. split; rewrite ?E1, ?E2, ?E3, ?E4, ?E5.
  - intros d n t Ht. destruct (B1 d n t Ht) as (? & ? & ?).
    split_and!; [by eapply defined_mono|by eapply interned_mono|by eapply tuple_wf_mono].
  - intros f a t Ht. destruct (B2 f a t Ht) as (? & ? & ?). 
    split_and!; [done|by eapply interned_mono|by eapply tuple_wf_mono].
  - intros f v Hv. destruct (B3 f v Hv). split; [done|by eapply interned_all_mono].
  - intros a v Hv. destruct (B4 a v Hv). split; [done|by eapply interned_all_mono].
  - intros d v site Hv. destruct (B5 d v site Hv) as (? & ? & ?).
    split_and!; [by eapply defined_mono|by eapply interned_mono|by eapply site_exists_mono].
Qed.
Lemma links_wf_mono sg sg' :
  grows sg sg' → interface_impls sg' = interface_impls sg → unions sg' = unions sg → keys sg' = keys sg →
  nested_key_fields sg' = nested_key_fields sg → objects_with_nested_keys sg' = objects_with_nested_keys sg →
  subgraphs sg' = subgraphs sg → interface_definitions_to_subgraphs sg' = interface_definitions_to_subgraphs sg →
  links_wf sg → links_wf sg'.
Proof.
  intros G E1 E2 E3 E4 E5 E6 E7 [L1 L2 L3 L4 L5 L6 L7 L8]. split; rewrite ?E1, ?E2, ?E3, ?E4, ?E5, ?E6, ?E7.
  - intros a b Hab. destruct (L1 a b Hab). split; by eapply interned_mono.
  - intros u m Hu. destruct (L2 u m Hu). split; by eapply defined_mono.
  - intros d k Hk. destruct (L3 d k Hk). split; [by eapply defined_mono|by eapply interned_all_mono].
  - done.
  - intros f Hf. by apply (g_fields _ _ G), L5.
  - intros d Hd. eapply defined_mono; eauto.
  - intros s Hs. destruct (L7 s Hs) as (? & ? & Hr). split_and!; [by eapply interned_mono..|].
    intros id Hid. eapply defined_mono; eauto.
  - intros k l Hk. destruct (L8 k l Hk) as [[? ?] ?]. split; [split; by eapply interned_mono|done].
Qed.

(** ** The judgement *)
Definition step_ok {A} (R : Subgraphs → Subgraphs → Prop) (sg : Subgraphs) (r : res (A * Subgraphs))
    (Q : A → Subgraphs → Prop) : Prop :=
  match r with
  | Ret (a, sg') => wf sg' ∧ R sg sg' ∧ Q a sg'
  | Panic _ => True
  end.
Lemma step_ret {A} R `{!PreOrder R} sg (a : A) (Q : A → Subgraphs → Prop) :
  wf sg → Q a sg → step_ok R sg (mret (M := I) a sg) Q.
Proof. intros Hwf HQ. split_and!; [done|reflexivity|done]. Qed.
Lemma step_bind {A B} R `{!PreOrder R} sg (m : I A) (f : A → I B) Q Q' :
  step_ok R sg (m sg) Q →
  (∀ a sg', wf sg' → R sg sg' → Q a sg' → step_ok R sg' (f a sg') Q') →
  step_ok R sg ((a ← m; f a) sg) Q'.
Proof.
  intros Hm Hf. unfold mbind, I_bind. destruct (m sg) as [[a sg1]|]; [|done]. destruct Hm as (Hwf & HR & HQ). simpl.
  specialize (Hf a sg1 Hwf HR HQ). destruct (f a sg1) as [[b sg2]|]; [|done].
  destruct Hf as (? & ? & ?). split_and!; [done|by etransitivity|done].
Qed.
Lemma step_get {A} R sg (f : Subgraphs → I A) Q : step_ok R sg (f sg sg) Q → step_ok R sg ((s ← get_sg; f s) sg) Q.
Proof. done. Qed.
Lemma step_lift {A} R `{!PreOrder R} sg (r : res A) (Q : A → Subgraphs → Prop) :
  wf sg → (∀ a, r = Ret a → Q a sg) → step_ok R sg (ilift r sg) Q.
Proof. intros Hwf HQ. destruct r as [a|]; [|done]. split_and!; [done|reflexivity|by apply HQ]. Qed.
Lemma step_wand {A} R sg (r : res (A * Subgraphs)) (Q Q' : A → Subgraphs → Prop) :
  step_ok R sg r Q → (∀ a sg', R sg sg' → Q a sg' → Q' a sg') → step_ok R sg r Q'.
Proof. intros Hr HQ. destruct r as [[a sg']|]; [|done]. destruct Hr as (? & ? & ?). split_and!; auto. Qed.
Lemma step_same {A} sg (r : res (A * Subgraphs)) Q : step_ok same sg r Q → step_ok grows sg r Q.
Proof. destruct r as [[a sg']|]; [|done]. intros (? & ? & ?). split_and!; [done|by apply same_grows|done]. Qed.
(** A loop with an invariant that survives extension. *)
Lemma step_for {A} R `{!PreOrder R} (P : Subgraphs → Prop) (f : A → I unit) l sg :
  (∀ s s', R s s' → P s → P s') →
  (∀ x s, x ∈ l → wf s → P s → step_ok R s (f x s) (λ _ _, True)) →
  wf sg → P sg → step_ok R sg (for_in l f sg) (λ _ _, True).
Proof.
  intros HP. revert sg. induction l as [|x l IH]; intros sg Hf Hwf Hsg; cbn [for_in].
  { by apply step_ret. }
  eapply step_bind; [done|apply Hf; [by left|done|done]|]. intros _ sg' Hwf' HR _.
  apply IH; [|done|by eapply HP]. intros y s Hy. apply Hf. by right.
Qed.

(** ** Interning *)
Lemma with_store_ok sg st :
  wf sg → store_extends (store sg) st → wrappers_wf (wrappers st) →
  wf (with_store sg st) ∧ same sg (with_store sg st).
Proof.
  intros [W1 W2 W3 W4 W5] Hext Hw.
  assert (same sg (with_store sg st)) as Hs by (split; [by split|done]).
  pose proof (same_grows _ _ Hs) as G. split; [|done]. split; [done|by eapply definitions_wf_mono| | |].
  - by eapply bodies_wf_mono.
  - by eapply links_wf_mono.
  - by eapply directives_wf_mono.
Qed.
Lemma step_intern_named sg s :
  wf sg → step_ok same sg (op (intern_string s) sg) (λ id sg', get_index (strings (store sg')) id = Some s).
Proof.
  intros Hwf. unfold op, intern_string. pose proof (intern_spec s (strings (store sg))) as [Hid Hext].
  destruct (intern s (strings (store sg))) as [id strs]. simpl in *.
  destruct (with_store_ok sg (MkStore strs (inner_types (store sg)) (wrappers (store sg)))) as [Hwf' Hs'];
    [done|by split|apply Hwf|]. by split_and!.
Qed.
Lemma step_intern sg s :
  wf sg → step_ok same sg (op (intern_string s) sg) (λ id sg', interned sg' id).
Proof.
  intros Hwf. eapply step_wand; [by apply step_intern_named|]. intros id sg' _ Hid. by exists s.
Qed.
Lemma step_intern_option sg o :
  wf sg → step_ok same sg (intern_option o sg) (λ id sg', interned_opt sg' id).
Proof.
  intros Hwf. destruct o as [s|]; cbn [intern_option]; [|by apply step_ret; [apply _| |]].
  eapply step_bind; [apply _|by apply step_intern|]. intros id sg' Hwf' _ Hid. apply step_ret; [apply _|done|].
  by intros ? [= <-].
Qed.
Lemma step_intern_type sg t : wf sg → step_ok same sg (intern_type t sg) (λ id sg', typed sg' id).
Proof.
  intros Hwf. unfold intern_type, intern_field_type.
  destruct (intern_loop_spec t None (store sg) []) as (Hw & Hext & inn & Hrep); [apply Hwf|constructor|].
  destruct (intern_loop t None (store sg)) as [id st]. simpl in *.
  destruct (with_store_ok sg st) as [Hwf' Hs']; [done..|]. split_and!; [done|done|].
  exists t, inn. by rewrite app_nil_r in Hrep.
Qed.

(** ** Directives *)
Lemma with_directives_ok sg d :
  wf sg → site_id_counter (directives sg) ≤ site_id_counter d → directives_wf sg d →
  wf (with_directives sg d) ∧ same sg (with_directives sg d).
Proof.
  intros [W1 W2 W3 W4 W5] Hc Hd.
  assert (same sg (with_directives sg d)) as Hs by (split; [by split; [split_and!; done|..]|done]).
  pose proof (same_grows _ _ Hs) as G. split; [|done]. split; [done|by eapply definitions_wf_mono| | |].
  - by eapply bodies_wf_mono.
  - by eapply links_wf_mono.
  - by eapply directives_wf_mono.
Qed.
Lemma step_new_site sg :
  wf sg → step_ok same sg (op new_directive_site sg) (λ site sg', site_exists sg' site).
Proof.
  intros Hwf. unfold op, new_directive_site.
  edestruct (with_directives_ok sg) as [Hwf' Hs']; [done| | |split_and!; [exact Hwf'|exact Hs'|]].
  - simpl. lia.
  - destruct (wf_directives _ Hwf). by split.
  - unfold site_exists. simpl. lia.
Qed.

(** An update of one table of the directives. *)
Lemma step_directives sg (f : Subgraphs → Subgraphs) d :
  wf sg → f sg = with_directives sg d → site_id_counter d = site_id_counter (directives sg) → directives_wf sg d →
  step_ok same sg (upd f sg) (λ _ _, True).
Proof.
  intros Hwf Hf Hc Hd. unfold upd. rewrite Hf. destruct (with_directives_ok sg d) as [? ?]; [done|lia|done|].
  by split_and!.
Qed.
(** The sites recorded after an update of one table. *)
Ltac solve_sites Hs :=
  let site := fresh "site" in let Hr := fresh "Hr" in
  intros site Hr; unfold site_recorded in Hr;
  cbn [deprecated_map override_map provides_map requires_map authorized_map requires_scopes_set policies_set
    authenticated_set inaccessible_set shareable_set external_set interface_object_set tags_set
    composed_directives_set composed_directive_instances] in Hr;
  repeat match type of Hr with _ ∨ _ => destruct Hr as [Hr|Hr] end;
  first
    [ apply Hs; unfold site_recorded; tauto
    | apply lookup_insert_is_Some' in Hr as [<-|Hr]; [done|]; apply Hs; unfold site_recorded; tauto
    | apply elem_of_union in Hr as [->%elem_of_singleton|Hr]; [done|]; apply Hs; unfold site_recorded; tauto
    | destruct Hr as [? [[= -> ->]%elem_of_singleton|Hr]%elem_of_union]; [done|];
      apply Hs; unfold site_recorded; eauto 20
    | destruct Hr as (? & ? & [Hr|[= -> -> ->]%list_elem_of_singleton]%elem_of_app); [|done];
      apply Hs; unfold site_recorded; eauto 20 ].
Ltac solve_directives Hwf :=
  let Hs := fresh "Hs" in
  destruct (wf_directives _ Hwf) as [Hs]; split; [solve_sites Hs|..];
  cbn [deprecated_map override_map provides_map requires_map authorized_map
    requires_scopes_set policies_set tags_set composed_directives_set composed_directive_instances];
  first [ assumption
        | intros ? ?; rewrite lookup_insert_Some; intros [[<- <-]|[_ ?]]; eauto
        | intros ? ?; rewrite elem_of_union, elem_of_singleton; intros [[= -> ->]|?]; eauto
        | intros ? ? ?; rewrite elem_of_app, list_elem_of_singleton; intros [?|[= -> -> ->]]; eauto ].
Lemma step_set_override sg site o :
  wf sg → site_exists sg site → interned sg (override_from o) → interned_opt sg (override_label o) →
  step_ok same sg (upd (set_override site o) sg) (λ _ _, True).
Proof. intros Hwf Hsite ? ?. eapply step_directives; [done|reflexivity|done|]. solve_directives Hwf. Qed.
Lemma step_set_provides sg site l :
  wf sg → site_exists sg site → interned_all sg (selections_strings l) → step_ok same sg (upd (set_provides site l) sg) (λ _ _, True).
Proof. intros Hwf Hsite ?. eapply step_directives; [done|reflexivity|done|]. solve_directives Hwf. Qed.
Lemma step_set_requires sg site l :
  wf sg → site_exists sg site → interned_all sg (selections_strings l) → step_ok same sg (upd (set_requires site l) sg) (λ _ _, True).
Proof. intros Hwf Hsite ?. eapply step_directives; [done|reflexivity|done|]. solve_directives Hwf. Qed.
Lemma step_insert_authorized sg site a :
  wf sg → site_exists sg site →
  (∀ l, authorized_arguments a = Some l ∨ authorized_fields a = Some l ∨ authorized_node a = Some l →
     interned_all sg (selections_strings l)) →
  (∀ v, authorized_metadata a = Some v → interned_all sg (value_strings v)) →
  step_ok same sg (upd (insert_authorized site a) sg) (λ _ _, True).
Proof. intros Hwf Hsite ? ?. eapply step_directives; [done|reflexivity|done|]. solve_directives Hwf. Qed.
Lemma step_append_scopes sg site l :
  wf sg → site_exists sg site → interned_all sg l → step_ok same sg (upd (append_required_scopes site l) sg) (λ _ _, True).
Proof. intros Hwf Hsite ?. eapply step_directives; [done|reflexivity|done|]. solve_directives Hwf. Qed.
Lemma step_insert_policy sg site l :
  wf sg → site_exists sg site → interned_all sg l → step_ok same sg (upd (insert_policy site l) sg) (λ _ _, True).
Proof. intros Hwf Hsite ?. eapply step_directives; [done|reflexivity|done|]. solve_directives Hwf. Qed.
Lemma step_flags sg site :
  wf sg → site_exists sg site →
  step_ok same sg (upd (insert_authenticated site) sg) (λ _ _, True) ∧
  step_ok same sg (upd (set_inaccessible site) sg) (λ _ _, True) ∧
  step_ok same sg (upd (set_shareable site) sg) (λ _ _, True) ∧
  step_ok same sg (upd (set_external site) sg) (λ _ _, True) ∧
  step_ok same sg (upd (set_interface_object site) sg) (λ _ _, True).
Proof.
  intros Hwf Hsite. split_and!; (eapply step_directives; [done|reflexivity|done|]; solve_directives Hwf).
Qed.

(** Operations that intern a string first. *)
Lemma step_intern_then sg s (f : StringId → Subgraphs → Subgraphs) :
  wf sg →
  (∀ id sg', wf sg' → same sg sg' → interned sg' id → step_ok same sg' (upd (f id) sg') (λ _ _, True)) →
  step_ok same sg (upd (λ sg, let '(id, sg) := intern_string s sg in f id sg) sg) (λ _ _, True).
Proof.
  intros Hwf Hf. pose proof (step_intern sg s Hwf) as Hi. unfold op in Hi. unfold upd in *.
  destruct (intern_string s sg) as [id sg1]. destruct Hi as (Hwf1 & Hs1 & Hid).
  destruct (Hf id sg1 Hwf1 Hs1 Hid) as (? & ? & _). split_and!; [done|by etransitivity|done].
Qed.
Lemma step_insert_tag sg site s : wf sg → site_exists sg site → step_ok same sg (upd (insert_tag site s) sg) (λ _ _, True).
Proof.
  intros Hwf Hsite. apply step_intern_then; [done|]. intros id sg' Hwf' Hs Hid. carry Hs.
  eapply step_directives; [done|reflexivity|done|]. solve_directives Hwf'.
Qed.
Lemma step_insert_composed sg subgraph s :
  wf sg → subgraph < length (subgraphs sg) → step_ok same sg (upd (insert_composed_directive subgraph s) sg) (λ _ _, True).
Proof.
  intros Hwf Hsub. apply step_intern_then; [done|]. intros id sg' Hwf' Hs Hid. rewrite (g_subgraphs _ _ (same_grows _ _ Hs)) in Hsub.
  eapply step_directives; [done|reflexivity|done|]. solve_directives Hwf'.
Qed.
Lemma step_insert_instance sg site s a :
  wf sg → site_exists sg site → interned_all sg (arguments_strings a) →
  step_ok same sg (upd (insert_composed_directive_instance site s a) sg) (λ _ _, True).
Proof.
  intros Hwf Hsite Ha. apply step_intern_then; [done|]. intros id sg' Hwf' Hs Hid. carry Hs.
  eapply step_directives; [done|reflexivity|done|]. solve_directives Hwf'.
Qed.
Lemma step_insert_deprecated sg site o : wf sg → site_exists sg site → step_ok same sg (upd (insert_deprecated site o) sg) (λ _ _, True).
Proof.
  intros Hwf Hsite. pose proof (step_intern_option sg o Hwf) as Hi. unfold upd, insert_deprecated.
  assert (∃ r sg1, intern_option o sg = Ret (r, sg1) ∧
    match o with Some r => let '(r, sg) := intern_string r sg in (Some r, sg) | None => (None, sg) end = (r, sg1))
    as (r & sg1 & E1 & ->).
  { destruct o as [s|]; [|by exists None, sg]. unfold intern_option, op, mbind, I_bind. simpl.
    destruct (intern_string s sg) as [id sg1]. by exists (Some id), sg1. }
  rewrite E1 in Hi. destruct Hi as (Hwf1 & Hs1 & Hr). carry Hs1.
  edestruct (with_directives_ok sg1) as [Hwf2 Hs2]; [done| | |split_and!; [exact Hwf2|by etransitivity|done]]; [done|].
  solve_directives Hwf1.
Qed.

(** ** Definitions, bodies and links *)
Definition latest sg (subgraph : SubgraphId) : Prop := length (subgraphs sg) = S subgraph.
Definition last_definition sg (id : DefinitionId) : Prop := length (definitions sg) = S id.
Lemma latest_mono sg sg' s : grows sg sg' → latest sg s → latest sg' s.
Proof. intros G Hl. unfold latest. by rewrite <-(g_subgraphs _ _ G). Qed.
Lemma last_definition_same sg sg' id : same sg sg' → last_definition sg id → last_definition sg' id.
Proof. intros (_ & ED & _). unfold last_definition. by rewrite ED. Qed.
Lemma last_definition_defined sg id : last_definition sg id → defined sg id.
Proof. unfold last_definition, defined. lia. Qed.

(** The definition [d] records a type named [e.1] of kind [e.2]. *)
Definition recorded sg (subgraph : SubgraphId) (e : string * DefinitionKind) (d : Definition_) : Prop :=
  subgraph_id d = subgraph ∧ definition_kind d = e.2 ∧
  get_index (strings (store sg)) (definition_name d) = Some e.1.
(** From [sg] to [sg'] the types [l] were recorded, in this order. *)
Definition adds sg sg' (subgraph : SubgraphId) (l : list (string * DefinitionKind)) : Prop :=
  ∃ new, definitions sg' = definitions sg ++ new ∧ Forall2 (recorded sg' subgraph) l new.
Lemma adds_same sg sg' subgraph : same sg sg' → adds sg sg' subgraph [].
Proof. intros (_ & ED & _). exists []. by rewrite ED, app_nil_r. Qed.
Lemma adds_trans sg s1 s2 subgraph l1 l2 :
  grows s1 s2 → adds sg s1 subgraph l1 → adds s1 s2 subgraph l2 → adds sg s2 subgraph (l1 ++ l2).
Proof.
  intros [(Hs & _) _ _ _ _] (n1 & E1 & F1) (n2 & E2 & F2). exists (n1 ++ n2).
  rewrite E2, E1, (assoc app). split; [done|]. apply Forall2_app; [|done].
  eapply Forall2_impl; [exact F1|]. intros e d (? & ? & ?). split_and!; [done..|]. by apply Hs.
Qed.

Lemma StronglySorted_snoc_le (l : list nat) x :
  StronglySorted le l → (∀ y, y ∈ l → y ≤ x) → StronglySorted le (l ++ [x]).
Proof.
  induction 1 as [|y l Hl IH Hy]; intros Hx; simpl; [repeat constructor|].
  constructor; [apply IH; set_solver|]. apply Forall_app. split; [done|]. constructor; [|done]. apply Hx. by left.
Qed.

Lemma step_push_definition sg subgraph name kind description site :
  wf sg → latest sg subgraph → interned_opt sg description → site_exists sg site →
  step_ok grows sg (op (push_definition subgraph name kind description site) sg)
    (λ id sg', last_definition sg' id ∧ adds sg sg' subgraph [(name, kind)]).
Proof.
  intros Hwf Hlast Hdesc Hsite. pose proof (step_intern_named sg name Hwf) as Hi. unfold op in *.
  unfold push_definition. destruct (intern_string name sg) as [n sg1]. destruct Hi as (Hwf1 & Hs1 & Hnamed).
  assert (interned sg1 n) as Hn by (by exists name).
  apply (latest_mono _ _ _ (same_grows _ _ Hs1)) in Hlast. carry Hs1.
  set (d := MkDefinition subgraph n kind description site). simpl.
  set (sg2 := with_definitions sg1 (definitions sg1 ++ [d]) _).
  assert (grows sg1 sg2) as G.
  { split; [split_and!; done|done|by apply prefix_app_r|done|done]. }
  destruct Hwf1 as [W1 [D1 D2 D3] W3 W4 W5]. split_and!; [|by etransitivity; [apply same_grows|]| |].
  2: { unfold last_definition. simpl. rewrite length_app. simpl. lia. }
  2: { exists [d]. simpl. destruct Hs1 as (_ & -> & _). split; [done|]. by repeat constructor. }
  split; [done| |by eapply bodies_wf_mono|by eapply links_wf_mono|by eapply directives_wf_mono].
  split; simpl.
  - intros id x [Hx|[-> <-]]%lookup_snoc_Some.
    + destruct (D1 id x (proj2 Hx)) as (? & ? & ? & ? & Hin).
      split_and!; [by eapply interned_mono|by eapply interned_opt_mono|by eapply site_exists_mono|done|].
      rewrite lookup_insert_is_Some. destruct (decide ((n, subgraph) = (definition_name x, subgraph_id x))); auto.
    + simpl. split_and!; [by eapply interned_mono|by eapply interned_opt_mono|by eapply site_exists_mono| |].
      * unfold latest in Hlast. lia.
      * by rewrite lookup_insert_eq.
  - rewrite fmap_app. apply StronglySorted_snoc_le; [done|].
    intros s (x & -> & [id Hx]%list_elem_of_lookup)%list_elem_of_fmap. destruct (D1 id x Hx) as (_ & _ & _ & Hlt & _).
    simpl. unfold latest in Hlast. lia.
  - intros m s id. rewrite lookup_insert_Some. intros [[[= <- <-] <-]|[_ Hid]].
    + exists d. by rewrite list_lookup_middle.
    + destruct (D3 m s id Hid) as (x & Hx & ?). exists x. split; [|done]. by apply lookup_app_l_Some.
Qed.

Lemma step_definition_by_name sg name subgraph :
  wf sg → step_ok same sg (definition_by_name name subgraph sg) (λ id sg', defined sg' id).
Proof.
  intros Hwf. unfold definition_by_name. eapply step_bind; [apply _|by apply step_intern|].
  intros n sg1 Hwf1 _ _. apply step_get. apply step_lift; [apply _|done|]. intros id Hid%expect_Ret.
  destruct (def_names _ (wf_definitions _ Hwf1) _ _ _ Hid) as (d & Hd & _). by apply lookup_lt_Some in Hd.
Qed.

Ltac same_tables := split; [by split; [split_and!; done|..]|done].
(** Prefix of the proofs about one changed table. *)
Ltac carry_wf Hwf Hs :=
  let G := fresh "G" in pose proof (same_grows _ _ Hs) as G;
  destruct Hwf as [?W1 ?W2 ?W3 ?W4 ?W5];
  split_and!; [split; [done|by eapply definitions_wf_mono|try by eapply bodies_wf_mono
    |try by eapply links_wf_mono|by eapply directives_wf_mono]|exact Hs|try done].

Lemma step_push_enum_value sg id v site :
  wf sg → defined sg id → interned sg v → site_exists sg site →
  step_ok same sg (upd (push_enum_value id v site) sg) (λ _ _, True).
Proof.
  intros Hwf Hd Hv Hsite. assert (same sg (push_enum_value id v site sg)) as Hs by same_tables. unfold upd.
  carry_wf Hwf Hs. destruct W3 as [B1 B2 B3 B4 B5]. split; [exact B1|exact B2|exact B3|exact B4|].
  intros d w site'. simpl. rewrite lookup_insert_Some. intros [[[= <- <-] <-]|[_ ?]]; [done|by apply B5].
Qed.
Lemma step_push_union_member sg u m :
  wf sg → defined sg u → defined sg m → step_ok same sg (upd (push_union_member u m) sg) (λ _ _, True).
Proof.
  intros Hwf Hu Hm. assert (same sg (push_union_member u m sg)) as Hs by same_tables. unfold upd.
  carry_wf Hwf Hs. destruct W4 as [L1 L2 L3 L4 L5 L6 L7 L8]. split; [exact L1| |exact L3|exact L4|exact L5|exact L6|exact L7|exact L8].
  intros u' m'. simpl. rewrite elem_of_union, elem_of_singleton. intros [[= -> ->]|?]; [done|by apply L2].
Qed.
Lemma step_push_key sg id l resolvable :
  wf sg → last_definition sg id → interned_all sg (selections_strings l) →
  step_ok same sg (upd (λ sg, with_keys sg (keys sg ++ [(id, MkKey l resolvable)]) (nested_key_fields sg)
    (objects_with_nested_keys sg)) sg) (λ _ _, True).
Proof.
  intros Hwf Hid Hl. unfold upd.
  match goal with |- step_ok _ _ (Ret (_, ?sg')) _ => assert (same sg sg') as Hs by same_tables end.
  carry_wf Hwf Hs. destruct W4 as [L1 L2 L3 L4 L5 L6 L7 L8]. split; [exact L1|exact L2| | |exact L5|exact L6|exact L7|exact L8].
  - intros d k. simpl. rewrite elem_of_app, list_elem_of_singleton. intros [?|[= -> ->]]; [by apply L3|].
    split; [by apply last_definition_defined|done].
  - simpl. rewrite fmap_app. apply StronglySorted_snoc_le; [done|].
    intros d ([d' k] & -> & Hk)%list_elem_of_fmap. destruct (L3 d' k Hk) as [Hd _].
    unfold defined, last_definition in *. simpl. lia.
Qed.
Lemma step_set_nested sg nested :
  wf sg → (∀ f, f ∈ nested.1 → is_Some (definition_fields sg !! f)) → (∀ d, d ∈ nested.2 → defined sg d) →
  step_ok same sg (upd (λ sg, with_keys sg (keys sg) nested.1 nested.2) sg) (λ _ _, True).
Proof.
  intros Hwf Hn Ho. unfold upd.
  match goal with |- step_ok _ _ (Ret (_, ?sg')) _ => assert (same sg sg') as Hs by same_tables end.
  carry_wf Hwf Hs. destruct W4 as [L1 L2 L3 L4 L5 L6 L7 L8].
  split; [exact L1|exact L2|exact L3|exact L4|exact Hn|exact Ho|exact L7|exact L8].
Qed.
Lemma step_push_interface_impl sg a b :
  wf sg → step_ok same sg (push_interface_impl a b sg) (λ _ _, True).
Proof.
  intros Hwf. unfold push_interface_impl. apply step_get.
  eapply step_bind; [apply _|apply (step_lift same _ _ (λ d _, interned sg (definition_name d) ∧ subgraph_id d < length (subgraphs sg))); [done|]|].
  { intros d Hd%expect_Ret. by destruct (def_ids _ (wf_definitions _ Hwf) _ _ Hd) as (? & _ & _ & ? & _). }
  intros d sg1 Hwf1 Hs1 [Hd Hlt]. carry Hs1.
  eapply step_bind; [apply _|apply (step_lift same _ _ (λ d _, interned sg1 (definition_name d))); [done|]|].
  { intros d' Hd'%expect_Ret. destruct (def_ids _ (wf_definitions _ Hwf) _ _ Hd') as [Hi _].
    eapply interned_mono; [by apply same_grows|done]. }
  intros d' sg2 Hwf2 Hs2 Hd'. carry Hs2. unfold upd.
  match goal with |- step_ok _ _ (Ret (_, ?sg')) _ => assert (same sg2 sg') as Hs by same_tables end.
  carry_wf Hwf2 Hs. destruct W4 as [L1 L2 L3 L4 L5 L6 L7 L8].
  split; [|exact L2|exact L3|exact L4|exact L5|exact L6|exact L7|].
  - intros x y. simpl. rewrite elem_of_union, elem_of_singleton. intros [[= -> ->]|?]; [done|by apply L1].
  - intros k l. simpl. rewrite lookup_insert_Some. intros [[<- <-]|[_ Hl]]; [|by apply (L8 k)].
    split; [done|]. apply Forall_app. split; [|constructor; [|done]].
    + destruct (interface_definitions_to_subgraphs sg2 !! _) as [l|] eqn:E; [by apply (L8 _ _ E)|constructor].
    + pose proof (g_subgraphs _ _ (same_grows _ _ Hs1)) as X1. pose proof (g_subgraphs _ _ (same_grows _ _ Hs2)) as X2. lia.
Qed.
Lemma step_diagnostic sg subgraph message :
  wf sg → step_ok same sg (push_ingestion_diagnostic subgraph message sg) (λ _ _, True).
Proof.
  intros Hwf. unfold push_ingestion_diagnostic. apply step_get.
  eapply step_bind; [apply _|by apply (step_lift same _ _ (λ _ _, True))|]. intros s sg1 Hwf1 _ _.
  eapply step_bind; [apply _|by apply (step_lift same _ _ (λ _ _, True))|]. intros n sg2 Hwf2 _ _. unfold upd.
  match goal with |- step_ok _ _ (Ret (_, ?sg')) _ => assert (same sg2 sg') as Hs by same_tables end.
  carry_wf Hwf2 Hs.
Qed.
Lemma step_set_root sg (f : Subgraph → Subgraph) subgraph id :
  wf sg → defined sg id →
  (∀ s, subgraph_name_id (f s) = subgraph_name_id s ∧ subgraph_url (f s) = subgraph_url s ∧
    ∀ i, query_type (f s) = Some i ∨ mutation_type (f s) = Some i ∨ subscription_type (f s) = Some i →
      i = id ∨ query_type s = Some i ∨ mutation_type s = Some i ∨ subscription_type s = Some i) →
  step_ok same sg (set_root f subgraph sg) (λ _ _, True).
Proof.
  intros Hwf Hid Hf. unfold set_root. apply step_get.
  eapply step_bind; [apply _|apply (step_lift same _ _ (λ s _, s ∈ subgraphs sg)); [done|]|].
  { intros s Hs%expect_Ret. by eapply list_elem_of_lookup_2. }
  intros s sg1 Hwf1 Hs1 Hin. unfold upd.
  match goal with |- step_ok _ _ (Ret (_, ?sg')) _ => assert (same sg1 sg') as Hs end.
  { split; [|done]. split; [split_and!; done|done|done| |done]. simpl. by rewrite length_insert. }
  pose proof (link_subgraphs _ (wf_links _ Hwf) s Hin) as (Hn & Hu & Hr). carry Hs1.
  carry_wf Hwf1 Hs. destruct W4 as [L1 L2 L3 L4 L5 L6 L7 L8].
  split; [exact L1|exact L2|exact L3|exact L4|exact L5|exact L6| |by intros k l; simpl; rewrite length_insert; apply L8].
  intros s'. simpl. intros Hs'. destruct (Hf s) as (E1 & E2 & E3).
  assert (s' ∈ subgraphs sg1 ∨ s' = f s) as [Hold| ->].
  { apply list_elem_of_lookup in Hs' as [i Hi]. destruct (decide (i = subgraph)) as [->|].
    - apply list_lookup_insert_Some in Hi as [(_ & <- & _)|[? _]]; [by right|done].
    - rewrite list_lookup_insert_ne in Hi by done. left. by eapply list_elem_of_lookup_2. }
  - by apply L7.
  - split_and!; [by rewrite E1|by rewrite E2|]. intros i [->|Hi]%E3; [done|].
    change (defined sg1 i). apply (defined_mono sg); [by apply same_grows|by apply Hr].
Qed.
Lemma step_push_field sg parent name t o :
  wf sg → defined sg parent → tuple_wf sg t → (∀ v, o = Some v → interned_all sg (value_strings v)) →
  step_ok same sg (op (push_field parent name t o) sg) (λ f sg', f.1 = parent ∧ is_Some (definition_fields sg' !! f)).
Proof.
  intros Hwf Hp Ht Ho. pose proof (step_intern sg name Hwf) as Hi. unfold op in *. unfold push_field.
  destruct (intern_string name sg) as [n sg1]. destruct Hi as (Hwf1 & Hs1 & Hn). carry Hs1.
  apply (tuple_wf_mono _ sg1) in Ht; [|by apply same_grows].
  assert (∀ v, o = Some v → interned_all sg1 (value_strings v)) as Ho1.
  { intros v Hv. eapply interned_all_mono; [by apply same_grows|]. by apply Ho. }
  match goal with |- step_ok _ _ (Ret (_, ?sg')) _ => assert (same sg1 sg') as Hs end.
  { split; [|done]. split; [split_and!; done|done|done|done|]. intros f Hf. simpl. rewrite lookup_insert_is_Some.
    destruct (decide ((parent, n) = f)); auto. }
  assert (∀ f, is_Some (definition_fields sg1 !! f) → is_Some (<[(parent, n):=t]> (definition_fields sg1) !! f)) as Hf.
  { apply (g_fields _ _ (same_grows _ _ Hs)). }
  enough (wf (with_fields sg1 (<[(parent, n):=t]> (definition_fields sg1)) (field_arguments sg1)
    (insert_default (parent, n) o (input_field_default_values sg1)) (field_argument_defaults sg1))).
  { split_and!; [done|by etransitivity|done|]. simpl. by rewrite lookup_insert_eq. }
  pose proof (same_grows _ _ Hs) as G. destruct Hwf1 as [W1 W2 [B1 B2 B3 B4 B5] [L1 L2 L3 L4 L5 L6 L7 L8] W5].
  split; [done|by eapply definitions_wf_mono| | |by eapply directives_wf_mono].
  - split; [| | |exact B4|exact B5].
    + intros d m t'. simpl. rewrite lookup_insert_Some. intros [[[= <- <-] <-]|[_ ?]]; [done|by apply B1].
    + intros f a t' Ha. destruct (B2 f a t' Ha) as (? & ? & ?). split_and!; [by apply Hf|done|done].
    + intros f v. simpl. destruct o as [v'|]; [|intros Hv; destruct (B3 f v Hv); by split; [apply Hf|]].
      simpl. rewrite lookup_insert_Some.
      intros [[<- <-]|[_ Hv]]; [split; [by rewrite lookup_insert_eq|by apply Ho1]|].
      destruct (B3 f v Hv). by split; [apply Hf|].
  - split; [exact L1|exact L2|exact L3|exact L4| |exact L6|exact L7|exact L8]. intros f Hin. by apply Hf, L5.
Qed.
Lemma step_insert_argument sg f a t o :
  wf sg → is_Some (definition_fields sg !! f) → interned sg a → tuple_wf sg t →
  (∀ v, o = Some v → interned_all sg (value_strings v)) →
  step_ok same sg (upd (insert_field_argument f a t o) sg) (λ _ _, True).
Proof.
  intros Hwf Hf Ha Ht Ho. assert (same sg (insert_field_argument f a t o sg)) as Hs by same_tables. unfold upd.
  carry_wf Hwf Hs. destruct W3 as [B1 B2 B3 B4 B5]. split; [exact B1| |exact B3| |exact B5].
  - intros f' a' t'. simpl. rewrite lookup_insert_Some. intros [[[= <- <-] <-]|[_ ?]]; [done|by apply B2].
  - intros f' v. simpl. assert (∀ v, field_argument_defaults sg !! f' = Some v →
      is_Some (<[(f, a):=t]> (field_arguments sg) !! f') ∧ interned_all sg (value_strings v)) as Hold.
    { intros v' Hv. destruct (B4 f' v' Hv). split; [|done]. rewrite lookup_insert_is_Some'. by right. }
    destruct o as [v'|]; [|apply Hold]. simpl. rewrite lookup_insert_Some.
    intros [[<- <-]|[_ Hv]]; [|by apply Hold]. split; [by rewrite lookup_insert_eq|by apply Ho].
Qed.
End rules.
