(* ===== verification/IngestProps.v ===== *)
(** * Ingestion preserves the invariant and returns

    Rules for the functions of [ingest_subgraph.rs] and its modules: what they
    preserve, and from which documents they return. *)
From S2P Require Import Prelude RustStd CheckSchema IndexSet FieldTypes Subgraphs Ingest IngestRules.
Local Open Scope string_scope.
Local Open Scope list_scope.
Local Open Scope nat_scope.

(** Induction over the nested values and selections. *)
Section nested_ind.
Context (P : ConstValue → Prop) (HN : P CNull) (Hn : ∀ n, P (CNumber n)) (HS : ∀ s, P (CString s))
  (HB : ∀ b, P (CBoolean b)) (HY : P CBinary) (HE : ∀ s, P (CEnum s))
  (HL : ∀ l, Forall P l → P (CList l)) (HO : ∀ o, Forall (λ f, P f.2) o → P (CObject o)).
Fixpoint ConstValue_nested_ind (v : ConstValue) : P v :=
  match v with
  | CNull => HN | CNumber n => Hn n | CString s => HS s | CBoolean b => HB b | CBinary => HY | CEnum s => HE s
  | CList l => HL l ((fix go l := match l return Forall P l with
                                  | [] => Forall_nil_2 _
                                  | v :: l => Forall_cons_2 _ _ _ (ConstValue_nested_ind v) (go l)
                                  end) l)
  | CObject o => HO o ((fix go o := match o return Forall (λ f, P f.2) o with
                                    | [] => Forall_nil_2 _
                                    | f :: o => Forall_cons_2 (λ f, P f.2) f o (ConstValue_nested_ind f.2) (go o)
                                    end) o)
  end.
End nested_ind.
Section selection_ind.
Context (P : AstSelection → Prop) (HF : ∀ n a items, Forall P items → P (AstField n a items))
  (HI : ∀ c items, Forall P items → P (AstInlineFragment c items)) (HS : P AstFragmentSpread).
Fixpoint AstSelection_nested_ind (s : AstSelection) : P s :=
  let go := fix go l := match l return Forall P l with
                        | [] => Forall_nil_2 _
                        | s :: l => Forall_cons_2 _ _ _ (AstSelection_nested_ind s) (go l)
                        end in
  match s with
  | AstField n a items => HF n a items (go items)
  | AstInlineFragment c items => HI c items (go items)
  | AstFragmentSpread => HS
  end.
End selection_ind.

Section key_ind.
Context (P : Selection → Prop) (HF : ∀ n a l, Forall P l → P (SField n a l))
  (HI : ∀ n l, Forall P l → P (SInlineFragment n l)).
Fixpoint Selection_nested_ind (s : Selection) : P s :=
  let go := fix go l := match l return Forall P l with
                        | [] => Forall_nil_2 _
                        | s :: l => Forall_cons_2 _ _ _ (Selection_nested_ind s) (go l)
                        end in
  match s with
  | SField n a l => HF n a l (go l)
  | SInlineFragment n l => HI n l (go l)
  end.
End key_ind.

Section props.
Context `{IndexSetLaws}.
Implicit Types sg : Subgraphs.

Lemma interned_all_concat {A} sg (f : A → list StringId) l :
  Forall (λ x, interned_all sg (f x)) l → interned_all sg (concat (map f l)).
Proof. unfold interned_all. induction 1; simpl; [constructor|]. by apply Forall_app. Qed.

(** ** Collecting *)
Lemma step_collect {A B} (f : A → I B) (Q : B → Subgraphs → Prop) l sg :
  (∀ y s s', same s s' → Q y s → Q y s') →
  Forall (λ x, ∀ s, wf s → step_ok same s (f x s) Q) l → wf sg →
  step_ok same sg (collect f l sg) (λ ys s, Forall (λ y, Q y s) ys).
Proof.
  intros HQ. induction l as [|x l IH] in sg |- *; intros Hf Hwf; cbn [collect].
  { by apply step_ret; [apply _| |]. }
  apply Forall_cons in Hf as [Hx Hl].
  eapply step_bind; [apply _|by apply Hx|]. intros y s1 Hwf1 _ Hy.
  eapply step_bind; [apply _|by apply IH|]. intros ys s2 Hwf2 Hs2 Hys.
  apply step_ret; [apply _|done|]. constructor; [by eapply HQ|done].
Qed.
(** The value of a successful result. *)
Definition on_right {A} (Q : A → Subgraphs → Prop) (r : string + A) sg : Prop :=
  match r with inl _ => True | inr a => Q a sg end.
Lemma step_try_collect {A B} (f : A → I (string + B)) (Q : B → Subgraphs → Prop) l sg :
  (∀ y s s', same s s' → Q y s → Q y s') →
  Forall (λ x, ∀ s, wf s → step_ok same s (f x s) (on_right Q)) l → wf sg →
  step_ok same sg (try_collect f l sg) (on_right (λ ys s, Forall (λ y, Q y s) ys)).
Proof.
  intros HQ. induction l as [|x l IH] in sg |- *; intros Hf Hwf; cbn [try_collect].
  { by apply step_ret; [apply _| |constructor]. }
  apply Forall_cons in Hf as [Hx Hl].
  eapply step_bind; [apply _|by apply Hx|]. intros [err|y] s1 Hwf1 _ Hy; [by apply step_ret; [apply _| |]|].
  eapply step_bind; [apply _|by apply IH|]. intros [err|ys] s2 Hwf2 Hs2 Hys; (apply step_ret; [apply _|done|]); [done|].
  constructor; [by eapply HQ|done].
Qed.

(** ** Values and selections *)
Lemma interned_all_same s s' l : same s s' → interned_all s l → interned_all s' l.
Proof. intros Hs. by apply interned_all_mono, same_grows. Qed.
Lemma step_named_value sg n v :
  (∀ s, wf s → step_ok same s (ast_value_to_subgraph_value v s) (λ v' s', interned_all s' (value_strings v'))) →
  wf sg →
  step_ok same sg ((name ← op (intern_string n); v ← ast_value_to_subgraph_value v; mret (name, v)) sg)
    (λ f s, interned_all s (f.1 :: value_strings f.2)).
Proof.
  intros Hv Hwf. eapply step_bind; [apply _|by apply step_intern|]. intros id s1 Hwf1 _ Hid.
  eapply step_bind; [apply _|by apply Hv|]. intros v' s2 Hwf2 Hs2 Hv'. carry Hs2.
  apply step_ret; [apply _|done|]. by constructor.
Qed.
Lemma step_value sg v :
  wf sg → step_ok same sg (ast_value_to_subgraph_value v sg) (λ v' s', interned_all s' (value_strings v')).
Proof.
  revert sg. induction v as [|n|s|b| |s|l IH|o IH] using ConstValue_nested_ind; intros sg Hwf;
    cbn [ast_value_to_subgraph_value].
  - by apply step_ret; [apply _| |constructor].
  - destruct n; try (eapply step_bind; [apply _|by apply (step_lift same _ _ (λ _ _, True))|]; intros z s1 Hwf1 _ _);
      by apply step_ret; [apply _| |constructor].
  - eapply step_bind; [apply _|by apply step_intern|]. intros id s1 Hwf1 _ Hid.
    apply step_ret; [apply _|done|]. by constructor.
  - by apply step_ret; [apply _| |constructor].
  - done.
  - eapply step_bind; [apply _|by apply step_intern|]. intros id s1 Hwf1 _ Hid.
    apply step_ret; [apply _|done|]. by constructor.
  - eapply step_bind; [apply _|apply (step_collect _ (λ v' s', interned_all s' (value_strings v'))); [|done|done]|].
    { intros y s s'. apply interned_all_same. }
    intros vs s1 Hwf1 _ Hvs. apply step_ret; [apply _|done|]. simpl. by apply interned_all_concat.
  - eapply step_bind; [apply _|apply (step_collect _ (λ f s', interned_all s' (f.1 :: value_strings f.2))); [| |done]|].
    { intros y s s'. apply interned_all_same. }
    { eapply Forall_impl; [exact IH|]. intros [n v] Hv s Hwf'. by apply step_named_value. }
    intros vs s1 Hwf1 _ Hvs. apply step_ret; [apply _|done|]. simpl. by apply interned_all_concat.
Qed.
Lemma step_arguments sg (l : list (string * ConstValue)) :
  wf sg → step_ok same sg (collect ingest_argument l sg) (λ a s, interned_all s (arguments_strings a)).
Proof.
  intros Hwf. eapply step_wand; [apply (step_collect _ (λ f s', interned_all s' (f.1 :: value_strings f.2))); [| |done]|].
  - intros y s s'. apply interned_all_same.
  - apply Forall_forall. intros [n v] _ s Hwf'. apply step_named_value; [intros s0; apply step_value|done].
  - intros a s _ Ha. by apply interned_all_concat.
Qed.

Lemma step_selections sg items :
  Forall (λ item, ∀ s, wf s → step_ok same s (build_selection item s)
    (on_right (λ x s', interned_all s' (selection_strings x)))) items → wf sg →
  step_ok same sg (try_collect build_selection items sg) (on_right (λ l s', interned_all s' (selections_strings l))).
Proof.
  intros Hi Hwf. eapply step_wand; [apply (step_try_collect _ (λ x s', interned_all s' (selection_strings x))); [|done|done]|].
  - intros y s s'. apply interned_all_same.
  - intros [err|l] s' _ Hl; [done|]. by apply interned_all_concat.
Qed.
Lemma step_build_selection sg item :
  wf sg → step_ok same sg (build_selection item sg) (on_right (λ x s', interned_all s' (selection_strings x))).
Proof.
  revert sg. induction item as [n a items IH|[on|] items IH|] using AstSelection_nested_ind; intros sg Hwf;
    cbn [build_selection]; try by apply step_ret; [apply _| |].
  - eapply step_bind; [apply _|by apply step_intern|]. intros id s1 Hwf1 _ Hid.
    eapply step_bind; [apply _|apply (step_collect _ (λ f s', interned_all s' (f.1 :: value_strings f.2))); [| |done]|].
    { intros y s s'. apply interned_all_same. }
    { apply Forall_forall. intros [m v] _ s Hwf'. eapply step_bind; [apply _|by apply step_intern|].
      intros mid s2 Hwf2 _ Hmid. eapply step_bind; [apply _|by apply (step_lift same _ _ (λ _ _, True))|].
      intros v' s3 Hwf3 Hs3 _. eapply step_bind; [apply _|by apply step_value|]. intros v2 s4 Hwf4 Hs4 Hv2.
      carry Hs3. carry Hs4. apply step_ret; [apply _|done|]. by constructor. }
    intros args s2 Hwf2 Hs2 Hargs. eapply step_bind; [apply _|by apply step_selections|].
    intros [err|l] s3 Hwf3 Hs3 Hl; (apply step_ret; [apply _|done|]); [done|]. carry Hs2. carry Hs3.
    constructor; [done|]. apply Forall_app. split; [|done]. apply interned_all_concat.
    eapply Forall_impl; [exact Hargs|]. intros f. by apply interned_all_same.
  - eapply step_bind; [apply _|by apply step_selections|].
    intros [err|l] s1 Hwf1 Hs1 Hl; [by apply step_ret; [apply _| |]|].
    eapply step_bind; [apply _|by apply step_intern|]. intros id s2 Hwf2 Hs2 Hid.
    apply step_ret; [apply _|done|]. constructor; [done|]. by eapply interned_all_same.
Qed.

Context (parse_query : string → string + ExecutableDocument).

Lemma step_selection_set sg fields :
  wf sg → step_ok same sg (selection_set_from_str parse_query fields sg)
    (on_right (λ l s', interned_all s' (selections_strings l))).
Proof.
  intros Hwf. unfold selection_set_from_str.
  destruct (parse_query _) as [err|[items|]]; try by apply step_ret; [apply _| |].
  apply step_selections; [|done]. apply Forall_forall. intros item _ s. apply step_build_selection.
Qed.
Lemma step_push_key_str sg id fields resolvable :
  wf sg → last_definition sg id → step_ok same sg (push_key parse_query id fields resolvable sg) (λ _ _, True).
Proof.
  intros Hwf Hid. unfold push_key. eapply step_bind; [apply _|by apply step_selection_set|].
  intros [err|l] s1 Hwf1 Hs1 Hl; [by apply step_ret; [apply _| |]|].
  eapply step_bind; [apply _|apply step_push_key; [done|by eapply last_definition_same|done]|].
  intros [] s2 Hwf2 _ _. by apply step_ret; [apply _| |].
Qed.

(** ** Directives *)
Lemma step_when sg c m : wf sg → step_ok same sg (m sg) (λ _ _, True) → step_ok same sg (when c m sg) (λ _ _, True).
Proof. intros Hwf Hm. destruct c; [done|]. by apply step_ret; [apply _| |]. Qed.
(** A sequence of steps without results. *)
Lemma step_then {A} sg (m : I unit) (k : I A) Q :
  step_ok same sg (m sg) (λ _ _, True) → (∀ sg', wf sg' → same sg sg' → step_ok same sg' (k sg') Q) →
  step_ok same sg ((m;; k) sg) Q.
Proof. intros Hm Hk. eapply step_bind; [apply _|exact Hm|]. intros [] s Hwf Hs _. by apply Hk. Qed.

Lemma step_selection_argument sg name d :
  wf sg → step_ok same sg (selection_argument parse_query name d sg)
    (on_right (λ o s', ∀ l, o = Some l → interned_all s' (selections_strings l))).
Proof.
  intros Hwf. unfold selection_argument. destruct (string_argument name d); [|by apply step_ret; [apply _| |]].
  eapply step_bind; [apply _|by apply step_selection_set|].
  intros [err|l] s1 Hwf1 _ Hl; (apply step_ret; [apply _|done|]); [done|]. by intros ? [= <-].
Qed.
Lemma step_authorized sg site d :
  wf sg → site_exists sg site → step_ok same sg (ingest_authorized parse_query site d sg) (λ _ _, True).
Proof.
  intros Hwf Hsite. unfold ingest_authorized.
  eapply step_bind; [apply _|by apply step_selection_argument|].
  intros [err|a] s1 Hwf1 Hs1 Ha; [by apply step_ret; [apply _| |]|]. simpl in Ha.
  eapply step_bind; [apply _|by apply step_selection_argument|].
  intros [err|f] s2 Hwf2 Hs2 Hf; [by apply step_ret; [apply _| |]|]. simpl in Hf.
  eapply step_bind; [apply _|by apply step_selection_argument|].
  intros [err|n] s3 Hwf3 Hs3 Hn; [by apply step_ret; [apply _| |]|]. simpl in Hn.
  eapply (step_bind _ _ _ _ (λ o s', ∀ v, o = Some v → interned_all s' (value_strings v))).
  { destruct (get_argument "metadata" d) as [v|]; [|by apply step_ret; [apply _| |]].
    eapply step_bind; [apply _|by apply step_value|]. intros v' s4 Hwf4 _ Hv.
    apply step_ret; [apply _|done|]. by intros ? [= <-]. }
  intros m s4 Hwf4 Hs4 Hm. apply step_then.
  - carry Hs1. carry Hs2. carry Hs3. carry Hs4. apply step_insert_authorized; [done|done| |done]. simpl. intros l Hl.
    apply (interned_all_same s3); [done|]. destruct Hl as [Hl|[Hl|Hl]]; [| |by apply Hn].
    + apply (interned_all_same s1); [by etransitivity|by apply Ha].
    + apply (interned_all_same s2); [done|by apply Hf].
  - intros s5 Hwf5 _. by apply step_ret; [apply _| |].
Qed.
Lemma step_inner_strings sg v : wf sg → step_ok same sg (inner_strings v sg) (λ l s', interned_all s' l).
Proof.
  intros Hwf. destruct v as [| | | | | |l|]; cbn [inner_strings]; try by apply step_ret; [apply _| |constructor].
  apply (step_collect _ (λ id s', interned s' id)); [| |done].
  - intros id s s' Hs. by apply interned_mono, same_grows.
  - apply Forall_forall. intros x _ s. apply step_intern.
Qed.
Lemma step_selection_directive sg (insert : list Selection → Subgraphs → Subgraphs) subgraph d :
  (∀ s l, wf s → same sg s → interned_all s (selections_strings l) → step_ok same s (upd (insert l) s) (λ _ _, True)) →
  wf sg → step_ok same sg (ingest_selection_directive parse_query insert subgraph d sg) (λ _ _, True).
Proof.
  intros Hi Hwf. unfold ingest_selection_directive.
  destruct (string_argument "fields" d); [|by apply step_ret; [apply _| |]].
  eapply step_bind; [apply _|by apply step_selection_set|]. intros [err|l] s1 Hwf1 Hs1 Hl.
  - by apply step_diagnostic.
  - by apply Hi.
Qed.
Lemma step_lists sg (add : list StringId → Subgraphs → Subgraphs) l :
  (∀ s ids, wf s → same sg s → interned_all s ids → step_ok same s (upd (add ids) s) (λ _ _, True)) →
  wf sg → step_ok same sg (for_in l (λ v, inner ← inner_strings v; upd (add inner)) sg) (λ _ _, True).
Proof.
  intros Ha Hwf. apply (step_for same (same sg)); [by intros s s' ? ?; etransitivity| |done|reflexivity].
  intros v s _ Hwf' Hs. eapply step_bind; [apply _|by apply step_inner_strings|]. intros ids s1 Hwf1 Hs1 Hids.
  apply Ha; [done|by etransitivity|done].
Qed.
Lemma step_directive_tail sg site matcher subgraph location d :
  wf sg → site_exists sg site → step_ok same sg (ingest_directive_tail parse_query site matcher subgraph location d sg) (λ _ _, True).
Proof.
  intros Hwf Hsite. unfold ingest_directive_tail.
  apply step_then; [apply step_when; [done|by apply step_flags]|]. intros s1 Hwf1 Hs1. carry Hs1.
  apply step_then; [apply step_when; [done|apply step_lists; [|done]]|].
  { intros s ids Hwf' Hs Hids. carry Hs. by apply step_append_scopes. }
  intros s2 Hwf2 Hs2. carry Hs2.
  apply step_then; [apply step_when; [done|apply step_lists; [|done]]|].
  { intros s ids Hwf' Hs Hids. carry Hs. by apply step_insert_policy. }
  intros s3 Hwf3 Hs3. carry Hs3.
  apply step_then; [apply step_when; [done|by apply step_insert_deprecated]|]. intros s4 Hwf4 Hs4. carry Hs4.
  apply step_when; [done|]. eapply step_bind; [apply _|by apply step_authorized|].
  intros [err|[]] s5 Hwf5 _ _; [|by apply step_ret; [apply _| |]].
  apply step_get. eapply step_bind; [apply _|by apply (step_lift same _ _ (λ _ _, True))|].
  intros loc s6 Hwf6 _ _. by apply step_diagnostic.
Qed.
(** [@override], which is recorded when it has a [from]. *)
Lemma step_override sg site d :
  wf sg → site_exists sg site →
  step_ok same sg ((from ← intern_option (string_argument "from" d);
    label ← intern_option (string_argument "label" d);
    match from with None => mret () | Some from => upd (set_override site (MkOverride from label)) end) sg) (λ _ _, True).
Proof.
  intros Hwf Hsite. eapply step_bind; [apply _|by apply step_intern_option|]. intros from s1 Hwf1 Hs1 Hfrom.
  eapply step_bind; [apply _|by apply step_intern_option|]. intros label s2 Hwf2 Hs2 Hlabel. carry Hs1. carry Hs2.
  destruct from as [from|]; [|by apply step_ret; [apply _| |]]. apply step_set_override; [done|done| |done].
  by apply Hfrom.
Qed.
Lemma step_directive sg site matcher subgraph location d :
  wf sg → site_exists sg site → step_ok same sg (ingest_directive parse_query site matcher subgraph location d sg) (λ _ _, True).
Proof.
  intros Hwf Hsite. unfold ingest_directive.
  repeat match goal with |- step_ok _ _ ((if ?b then upd _ else _) _) _ => destruct b; [by apply step_flags|] end.
  destruct (String.eqb (m_override matcher) _).
  { by apply step_override. }
  destruct (String.eqb (m_requires matcher) _).
  { apply step_selection_directive; [|done]. intros s l Hwf' Hs Hl. carry Hs. by apply step_set_requires. }
  destruct (String.eqb (m_provides matcher) _).
  { apply step_selection_directive; [|done]. intros s l Hwf' Hs Hl. carry Hs. by apply step_set_provides. }
  apply step_then.
  { apply step_when; [done|]. eapply step_bind; [apply _|by apply step_arguments|].
    intros a s1 Hwf1 Hs1 Ha. carry Hs1. by apply step_insert_instance. }
  intros s1 Hwf1 Hs1. carry Hs1. destruct (String.eqb (m_tag matcher) _); [|by apply step_directive_tail].
  destruct (get_argument "name" d) as [v|]; [|by apply step_ret; [apply _| |]].
  apply step_then; [|intros s2 Hwf2 Hs2; carry Hs2; by apply step_directive_tail].
  destruct v; try (by apply step_ret; [apply _| |]). by apply step_insert_tag.
Qed.
Lemma step_directives_all sg site l matcher subgraph location :
  wf sg → site_exists sg site → step_ok same sg (ingest_directives parse_query site l matcher subgraph location sg) (λ _ _, True).
Proof.
  intros Hwf Hsite. apply (step_for same (λ s, site_exists s site)); [| |done|done].
  - intros s s' Hs. by apply site_exists_mono, same_grows.
  - intros d s _ Hwf' Hs. by apply step_directive.
Qed.
Lemma step_keys sg id l matcher :
  wf sg → last_definition sg id → step_ok same sg (ingest_keys parse_query id l matcher sg) (λ _ _, True).
Proof.
  intros Hwf Hid. apply (step_for same (λ s, last_definition s id)); [intros s s'; apply last_definition_same| |done|done].
  intros d s _ Hwf' Hid'. apply step_when; [done|].
  destruct (string_argument "fields" d); [|by apply step_ret; [apply _| |]].
  eapply step_bind; [apply _|by apply step_push_key_str|]. intros r s1 Hwf1 _ _. by apply step_ret; [apply _| |].
Qed.

(** ** Enums and fields *)
Lemma step_enum sg id values matcher subgraph :
  wf sg → defined sg id → step_ok same sg (ingest_enum parse_query id values matcher subgraph sg) (λ _ _, True).
Proof.
  intros Hwf Hid. apply (step_for same (λ s, defined s id)); [intros s s' Hs; by apply defined_mono, same_grows| |done|done].
  intros v s _ Hwf' Hid'. eapply step_bind; [apply _|by apply step_intern|]. intros n s1 Hwf1 Hs1 Hn.
  eapply step_bind; [apply _|by apply step_new_site|]. intros site s2 Hwf2 Hs2 Hsite. carry Hs1. carry Hs2.
  apply step_then; [by apply step_push_enum_value|]. intros s3 Hwf3 Hs3. carry Hs3. by apply step_directives_all.
Qed.
Lemma step_default sg o :
  wf sg → step_ok same sg (ingest_default o sg) (λ o s, ∀ v, o = Some v → interned_all s (value_strings v)).
Proof.
  intros Hwf. destruct o as [v|]; [|by apply step_ret; [apply _| |]].
  eapply step_bind; [apply _|by apply step_value|]. intros v' s1 Hwf1 _ Hv.
  apply step_ret; [apply _|done|]. by intros ? [= <-].
Qed.
Lemma step_input_fields sg parent fields matcher subgraph :
  wf sg → defined sg parent →
  step_ok same sg (ingest_input_fields parse_query parent fields matcher subgraph sg) (λ _ _, True).
Proof.
  intros Hwf Hid. apply (step_for same (λ s, defined s parent)); [intros s s' Hs; by apply defined_mono, same_grows| |done|done].
  intros f s _ Hwf' Hid'. eapply step_bind; [apply _|by apply step_intern_type|]. intros t s1 Hwf1 Hs1 Ht.
  eapply step_bind; [apply _|by apply step_new_site|]. intros site s2 Hwf2 Hs2 Hsite.
  apply step_then; [by apply step_directives_all|]. intros s3 Hwf3 Hs3.
  eapply step_bind; [apply _|by apply step_intern_option|]. intros desc s4 Hwf4 Hs4 Hdesc.
  eapply step_bind; [apply _|by apply step_default|]. intros v s5 Hwf5 Hs5 Hv.
  carry Hs1. carry Hs2. carry Hs3. carry Hs4. carry Hs5.
  eapply step_bind; [apply _|by apply step_push_field|]. intros _ s6 Hwf6 _ _. by apply step_ret; [apply _| |].
Qed.
Lemma step_field_arguments sg field args matcher subgraph :
  wf sg → is_Some (definition_fields sg !! field) →
  step_ok same sg (ingest_field_arguments parse_query field args matcher subgraph sg) (λ _ _, True).
Proof.
  intros Hwf Hid. apply (step_for same (λ s, is_Some (definition_fields s !! field)));
    [intros s s' Hs; apply (g_fields _ _ (same_grows _ _ Hs))| |done|done].
  intros a s _ Hwf' Hid'. eapply step_bind; [apply _|by apply step_intern_type|]. intros t s1 Hwf1 Hs1 Ht.
  eapply step_bind; [apply _|by apply step_intern|]. intros n s2 Hwf2 Hs2 Hn.
  eapply step_bind; [apply _|by apply step_new_site|]. intros site s3 Hwf3 Hs3 Hsite.
  apply step_then; [by apply step_directives_all|]. intros s4 Hwf4 Hs4.
  eapply step_bind; [apply _|by apply step_intern_option|]. intros desc s5 Hwf5 Hs5 Hdesc.
  eapply step_bind; [apply _|by apply step_default|]. intros v s6 Hwf6 Hs6 Hv.
  carry Hs1. carry Hs2. carry Hs3. carry Hs4. carry Hs5. carry Hs6. by apply step_insert_argument.
Qed.
Lemma step_fields sg id fields matcher is_query subgraph :
  wf sg → defined sg id →
  step_ok same sg (ingest_fields parse_query id fields matcher is_query subgraph sg) (λ _ _, True).
Proof.
  intros Hwf Hid. apply (step_for same (λ s, defined s id)); [intros s s' Hs; by apply defined_mono, same_grows| |done|done].
  intros f s _ Hwf' Hid'. case_match; [by apply step_ret; [apply _| |]|].
  eapply step_bind; [apply _|by apply step_intern_option|]. intros desc s1 Hwf1 Hs1 Hdesc.
  eapply step_bind; [apply _|by apply step_intern_type|]. intros t s2 Hwf2 Hs2 Ht.
  eapply step_bind; [apply _|by apply step_new_site|]. intros site s3 Hwf3 Hs3 Hsite.
  carry Hs1. carry Hs2. carry Hs3.
  eapply step_bind; [apply _|by apply step_push_field|]. intros field s4 Hwf4 Hs4 [_ Hf]. carry Hs4.
  apply step_then; [by apply step_directives_all|]. intros s5 Hwf5 Hs5. carry Hs5. by apply step_field_arguments.
Qed.

(** ** Nested keys *)
Definition nested_ok sg (nested : NestedKeyFields) : Prop :=
  (∀ f, f ∈ nested.1 → is_Some (definition_fields sg !! f)) ∧ (∀ d, d ∈ nested.2 → defined sg d).
Lemma fold_res_inv {A B} (P : B → Prop) (f : B → A → res B) b l r :
  (∀ b x b', P b → f b x = Ret b' → P b') → P b → fold_res f b l = Ret r → P r.
Proof.
  intros Hf. revert b. induction l as [|x l IH]; intros b Hb; simpl; [by intros [= <-]|].
  intros (b' & Hx & Hl)%res_bind_Ret. eapply IH; [|done]. by eapply Hf.
Qed.
Lemma nested_rec_ok sg parent selection nested r :
  wf sg → nested_ok sg nested → ingest_nested_key_fields_rec sg parent selection nested = Ret r → nested_ok sg r.
Proof.
  intros Hwf. revert parent nested r. induction selection as [n a l IH|n l] using Selection_nested_ind;
    intros parent nested r Hok; cbn [ingest_nested_key_fields_rec]; [|by intros [= <-]].
  destruct (find_field sg parent n) as [t|] eqn:Hf; [|by intros [= <-]].
  assert (nested_ok sg (insert_nested nested (parent, n))) as Hok'.
  { destruct Hok as [O1 O2]. split; intros x; simpl; rewrite elem_of_union, elem_of_singleton.
    - intros [->|?]; [by exists t|by apply O1].
    - intros [->|?]; [|by apply O2]. by destruct (body_fields _ (wf_bodies _ Hwf) _ _ _ Hf). }
  case_decide; [by intros [= <-]|]. intros (d & _ & (o & _ & Hgo)%res_bind_Ret)%res_bind_Ret.
  destruct o as [ty|]; [|by injection Hgo as <-]. revert Hgo Hok'. generalize (insert_nested nested (parent, n)).
  clear Hok. match goal with Hne : l ≠ [] |- _ => clear Hne end. induction l as [|s l IHl]; intros nested' Hgo Hok'; [by injection Hgo as <-|].
  apply Forall_cons in IH as [IHs IHr]. apply res_bind_Ret in Hgo as (nested2 & Hs & Hgo).
  eapply IHl; [done|done|]. by eapply IHs.
Qed.
Lemma nested_key_ok sg subgraph d nested s r :
  wf sg → nested_ok sg nested → ingest_nested_key sg subgraph d nested s = Ret r → nested_ok sg r.
Proof.
  intros Hwf Hok. destruct s as [n a l|n l]; cbn [ingest_nested_key]; [|by intros [= <-]].
  intros (o & _ & Hr)%res_bind_Ret. destruct o as [ty|]; [|by injection Hr as <-].
  eapply (fold_res_inv (nested_ok sg)); [|done|done]. intros b x b' Hb. by apply nested_rec_ok.
Qed.
Lemma step_nested sg subgraph :
  wf sg → step_ok same sg (ingest_nested_key_fields subgraph sg) (λ _ _, True).
Proof.
  intros Hwf. unfold ingest_nested_key_fields. apply step_get.
  eapply step_bind; [apply _|by apply (step_lift same _ _ (λ _ _, True))|]. intros s s1 Hwf1 Hs1 _.
  eapply step_bind; [apply _|apply (step_lift same _ _ (λ nested _, nested_ok sg nested)); [done|]|].
  - intros nested Hn. eapply (fold_res_inv (nested_ok sg)); [| |exact Hn].
    + intros b d b' Hb. apply (fold_res_inv (nested_ok sg)); [|done]. intros b1 k b2 Hb1.
      apply (fold_res_inv (nested_ok sg)); [|done]. intros b3 x b4 Hb3. by apply nested_key_ok.
    + split; [apply (link_nested _ (wf_links _ Hwf))|apply (link_objects _ (wf_links _ Hwf))].
  - intros nested s2 Hwf2 Hs2 [O1 O2]. assert (grows sg s2) as G by (apply same_grows; by etransitivity).
    apply step_set_nested; [done|intros f Hf; by apply (g_fields _ _ G), O1|].
    intros d Hd. eapply defined_mono; [exact G|by apply O2].
Qed.

(** ** [ingest_subgraph] *)
Lemma step_root sg subgraph rm name id :
  wf sg → defined sg id → step_ok same sg (ingest_root subgraph rm name id sg) (λ _ _, True).
Proof.
  intros Hwf Hid. unfold ingest_root. destruct (match_name rm name).
  1-3: apply (step_set_root _ _ _ id); [done|done|]; intros s; simpl; split_and!; [done..|];
    intros i Hi; destruct Hi as [Hi|[Hi|Hi]]; first [injection Hi as <-; by left|tauto].
  - by apply step_diagnostic.
  - by apply step_ret; [apply _| |].
Qed.
(** [step_bind] for a first step that adds no definition. *)
Lemma step_bind_same {A B} sg (m : I A) (f : A → I B) Q Q' :
  step_ok same sg (m sg) Q →
  (∀ a sg', wf sg' → same sg sg' → Q a sg' → step_ok grows sg' (f a sg') Q') →
  step_ok grows sg ((a ← m; f a) sg) Q'.
Proof.
  intros Hm Hf. eapply (step_bind _ _ _ _ (λ a s, same sg s ∧ Q a s)); [|naive_solver].
  destruct (m sg) as [[a s]|]; [|done]. destruct Hm as (? & ? & ?).
  split_and!; [done|by apply same_grows|done|done].
Qed.
(** The types of a document that are recorded, with their kinds. *)
Definition recorded_type (def : TypeDefinition) : list (string * DefinitionKind) :=
  let name := type_def_name def in
  match type_def_kind def with
  | TScalar => [(name, DScalar)]
  | TObject _ _ => if decide (name = "_Service") then [] else [(name, DObject)]
  | TInterface _ _ => [(name, DInterface)]
  | TUnion _ => if decide (name = "_Entity") then [] else [(name, DUnion)]
  | TEnum _ => [(name, DEnum)]
  | TInputObject _ => [(name, DInputObject)]
  end.
Definition recorded_types (document : Document) : list (string * DefinitionKind) :=
  concat (map (λ d, match d with TSType def => recorded_type def | _ => [] end) document).

(** The definition [o] was pushed last, if any, and the types [l] recorded since [sg0]. *)
Definition pushed sg0 subgraph l (o : option DefinitionId) sg : Prop :=
  (∀ id, o = Some id → last_definition sg id) ∧ adds sg0 sg subgraph l.
Lemma step_pushed sg subgraph l (m : I DefinitionId) (k : DefinitionId → I unit) :
  step_ok grows sg (m sg) (λ id s, last_definition s id ∧ adds sg s subgraph l) →
  (∀ id s, wf s → last_definition s id → step_ok same s (k id s) (λ _ _, True)) →
  step_ok grows sg ((id ← m; k id;; mret (Some id)) sg) (pushed sg subgraph l).
Proof.
  intros Hm Hk. eapply step_bind; [apply _|exact Hm|]. intros id s1 Hwf1 _ [Hid Hadds].
  eapply step_bind_same; [by apply Hk|]. intros [] s2 Hwf2 Hs2 _. apply step_ret; [apply _|done|]. split.
  - intros ? [= <-]. by eapply last_definition_same.
  - rewrite <-(app_nil_r l). by apply (adds_trans sg s1); [apply same_grows| |apply adds_same].
Qed.
Lemma step_pushed_only sg subgraph l (m : I DefinitionId) :
  step_ok grows sg (m sg) (λ id s, last_definition s id ∧ adds sg s subgraph l) →
  step_ok grows sg ((id ← m; mret (Some id)) sg) (pushed sg subgraph l).
Proof.
  intros Hm. eapply step_bind; [apply _|exact Hm|]. intros id s1 Hwf1 _ [Hid Hadds].
  apply step_ret; [apply _|done|]. split; [by intros ? [= <-]|done].
Qed.
Lemma step_not_pushed sg subgraph : wf sg → step_ok grows sg (mret (M := I) None sg) (pushed sg subgraph []).
Proof. intros Hwf. apply step_ret; [apply _|done|]. split; [done|by apply adds_same]. Qed.
Lemma step_push_kept sg subgraph matcher rm def description site :
  wf sg → latest sg subgraph → interned_opt sg description → site_exists sg site →
  let type_name := type_def_name def in
  let push kind := op (push_definition subgraph type_name kind description site) in
  step_ok grows sg (match type_def_kind def with
    | TObject _ _ =>
        if String.eqb type_name SERVICE_TYPE_NAME then mret None
        else id ← push DObject; ingest_root subgraph rm type_name id;; mret (Some id)
    | TInterface _ _ => id ← push DInterface; mret (Some id)
    | TUnion _ =>
        if String.eqb type_name ENTITY_UNION_NAME then mret None
        else id ← push DUnion; mret (Some id)
    | TInputObject _ => id ← push DInputObject; mret (Some id)
    | TScalar => id ← push DScalar; mret (Some id)
    | TEnum values => id ← push DEnum; ingest_enum parse_query id values matcher subgraph;; mret (Some id)
    end sg) (pushed sg subgraph (recorded_type def)).
Proof.
  intros Hwf Hl Hd Hs type_name push. unfold recorded_type. fold type_name.
  destruct (type_def_kind def); unfold SERVICE_TYPE_NAME, ENTITY_UNION_NAME;
    try match goal with |- context [String.eqb ?a ?b] => destruct (String.eqb_spec a b) end;
    repeat first [rewrite decide_True by done; by apply step_not_pushed|rewrite decide_False by done];
    first [apply step_pushed; [by apply step_push_definition|intros id s Hwf' Hid]
          |apply step_pushed_only; by apply step_push_definition].
  - apply step_root; [done|by apply last_definition_defined].
  - apply step_enum; [done|by apply last_definition_defined].
Qed.
Lemma step_top_level sg subgraph matcher rm def :
  wf sg → latest sg subgraph →
  step_ok grows sg (ingest_top_level_type parse_query subgraph matcher rm def sg)
    (λ _ s, adds sg s subgraph (recorded_type def)).
Proof.
  intros Hwf Hl. unfold ingest_top_level_type.
  eapply step_bind_same; [by apply step_intern_option|]. intros desc s1 Hwf1 Hs1 Hdesc.
  eapply step_bind_same; [by apply step_new_site|]. intros site s2 Hwf2 Hs2 Hsite. carry Hs2.
  assert (same sg s2) as Hs by by transitivity s1.
  assert (latest s2 subgraph) as Hl2 by (apply (latest_mono sg s2); [by apply same_grows|done]).
  eapply step_bind; [apply _|by apply step_push_kept|]. intros o s3 Hwf3 Hg3 [Hid Hadds].
  assert (∀ s, same s3 s → adds sg s subgraph (recorded_type def)) as Hsince.
  { intros s Hs'. apply (adds_trans sg s2 s _ [] (recorded_type def)); [|by apply adds_same|].
    - etransitivity; [exact Hg3|by apply same_grows].
    - rewrite <-(app_nil_r (recorded_type def)). by apply (adds_trans s2 s3); [apply same_grows| |apply adds_same]. }
  destruct o as [id|]; [|by apply step_ret; [apply _| |apply Hsince]]. apply step_same.
  eapply step_wand; [|intros _ s Hs' _; by apply Hsince].
  apply step_then; [apply step_directives_all; [done|by eapply site_exists_mono]|].
  intros s4 Hwf4 Hs4. apply step_keys; [done|].
  eapply last_definition_same; [done|by apply Hid].
Qed.
Lemma step_top_levels sg subgraph document matcher rm :
  wf sg → latest sg subgraph →
  step_ok grows sg (ingest_top_level_definitions parse_query subgraph document matcher rm sg)
    (λ _ s, adds sg s subgraph (recorded_types document)).
Proof.
  unfold ingest_top_level_definitions. induction document as [|d document IH] in sg |- *; intros Hwf Hl; cbn [for_in].
  { apply step_ret; [apply _|done|by apply adds_same]. }
  eapply (step_bind _ _ _ _ (λ _ s, adds sg s subgraph match d with TSType def => recorded_type def | _ => [] end)).
  { destruct d; [|by apply step_top_level|]; (apply step_ret; [apply _|done|by apply adds_same]). }
  intros [] s1 Hwf1 Hg1 Hadds1. eapply step_wand; [apply IH; [done|by eapply latest_mono]|].
  intros [] s2 Hg2 Hadds2. by eapply adds_trans.
Qed.
Lemma step_implements sg subgraph id l :
  wf sg → step_ok same sg (ingest_implements subgraph id l sg) (λ _ _, True).
Proof.
  intros Hwf. apply (step_for same (λ _, True)); [done| |done|done]. intros n s _ Hwf' _.
  eapply step_bind; [apply _|by apply step_definition_by_name|]. intros i s1 Hwf1 _ _. by apply step_push_interface_impl.
Qed.
Lemma step_body sg subgraph matcher rm def :
  wf sg → step_ok same sg (ingest_definition_body parse_query subgraph matcher rm def sg) (λ _ _, True).
Proof.
  intros Hwf. unfold ingest_definition_body.
  destruct (type_def_kind def) as [|is_ fs|is_ fs|members| |fs]; try by apply step_ret; [apply _| |].
  - case_match; [by apply step_ret; [apply _| |]|].
    eapply step_bind; [apply _|by apply step_definition_by_name|]. intros id s1 Hwf1 _ Hid.
    apply step_then; [by apply step_implements|]. intros s2 Hwf2 Hs2. carry Hs2. by apply step_fields.
  - eapply step_bind; [apply _|by apply step_definition_by_name|]. intros id s1 Hwf1 _ Hid.
    apply step_then; [by apply step_implements|]. intros s2 Hwf2 Hs2. carry Hs2. by apply step_fields.
  - case_match; [by apply step_ret; [apply _| |]|].
    eapply step_bind; [apply _|by apply step_definition_by_name|]. intros id s1 Hwf1 _ Hid.
    apply (step_for same (λ s, defined s id)); [intros s s' Hs; by apply defined_mono, same_grows| |done|done].
    intros m s _ Hwf' Hid'. eapply step_bind; [apply _|by apply step_definition_by_name|].
    intros mid s2 Hwf2 Hs2 Hmid. carry Hs2. by apply step_push_union_member.
  - eapply step_bind; [apply _|by apply step_definition_by_name|]. intros id s1 Hwf1 _ Hid. by apply step_input_fields.
Qed.
Lemma step_directive_definitions sg doc subgraph :
  wf sg → step_ok same sg (ingest_directive_definitions doc subgraph sg) (λ _ _, True).
Proof.
  intros Hwf. unfold ingest_directive_definitions. apply step_then; [|intros; by apply step_ret; [apply _| |]].
  apply (step_for same (λ _, True)); [done| |done|done]. intros n s _ Hwf' _. apply step_when; [done|by apply step_diagnostic].
Qed.

Lemma push_subgraph_ok sg name url :
  wf sg → wf (push_subgraph name url sg).2 ∧ latest (push_subgraph name url sg).2 (push_subgraph name url sg).1 ∧
  (push_subgraph name url sg).1 = length (subgraphs sg) ∧ definitions (push_subgraph name url sg).2 = definitions sg ∧
  extends (strings (store sg)) (strings (store (push_subgraph name url sg).2)).
Proof.
  intros Hwf. unfold push_subgraph.
  pose proof (step_intern sg name Hwf) as Hn. unfold op in Hn. destruct (intern_string name sg) as [n s1].
  destruct Hn as (Hwf1 & Hs1 & Hn).
  pose proof (step_intern s1 url Hwf1) as Hu. unfold op in Hu. destruct (intern_string url s1) as [u s2].
  destruct Hu as (Hwf2 & Hs2 & Hu). carry Hs2. simpl.
  assert (length (subgraphs s2) = length (subgraphs sg) ∧ definitions s2 = definitions sg ∧
    extends (strings (store sg)) (strings (store s2))) as (EL & ED & EX).
  { destruct Hs1 as (G1 & D1 & _), Hs2 as (G2 & D2 & _).
    split_and!; [by rewrite (g_subgraphs _ _ G1), (g_subgraphs _ _ G2)|congruence|].
    etransitivity; [apply G1|apply G2]. }
  split_and!; [|unfold latest; simpl; rewrite length_app; simpl; lia|done|done|done].
  destruct Hwf2 as [W1 [D1 D2 D3] [B1 B2 B3 B4 B5] [L1 L2 L3 L4 L5 L6 L7 L8] W5]. split.
  - exact W1.
  - split; [|exact D2|exact D3]. intros id d Hd. destruct (D1 id d Hd) as (? & ? & ? & ? & ?).
    split_and!; [done..| |done]. simpl. rewrite length_app. lia.
  - by split.
  - split; [exact L1|exact L2|exact L3|exact L4|exact L5|exact L6| |].
    2: { intros k l Hl. apply L8 in Hl as [Hk Hl]. split; [exact Hk|]. eapply Forall_impl; [exact Hl|]. simpl. rewrite length_app. lia. }
    simpl. intros s [Hs| ->%list_elem_of_singleton]%elem_of_app.
    + by apply L7.
    + simpl. split_and!; [done|done|]. by intros id [?|[?|?]].
  - destruct W5 as [D0 D4 D5 D6 D7 D8 D9 D10 D11 D12 D13].
    split; [exact D0|exact D4|exact D5|exact D6|exact D7|exact D8|exact D9|exact D10|exact D11| |exact D13].
    intros s n' Hs. destruct (D12 s n' Hs). split; [|done]. simpl. rewrite length_app. lia.
Qed.

(** Ingesting a subgraph into a well-formed state leaves a well-formed state,
    with one more subgraph and the types of the document; no string is lost. *)
Lemma ingest_subgraph_ok sg doc name url sg' :
  wf sg → ingest_subgraph parse_query doc name url sg = Ret ((), sg') →
  wf sg' ∧ length (subgraphs sg') = S (length (subgraphs sg)) ∧
  adds sg sg' (length (subgraphs sg)) (recorded_types doc) ∧ extends (strings (store sg)) (strings (store sg')).
Proof.
  intros Hwf Hrun. destruct (push_subgraph_ok sg name url Hwf) as (Hwf1 & Hl & E1 & ED1 & EX).
  unfold ingest_subgraph, op in Hrun. unfold mbind at 1, I_bind at 1 in Hrun. simpl in Hrun.
  destruct (push_subgraph name url sg) as [subgraph s1]. simpl in *. subst subgraph.
  set (subgraph := length (subgraphs sg)) in *.
  match type of Hrun with ?m s1 = _ =>
    enough (step_ok grows s1 (m s1) (λ _ s, adds s1 s subgraph (recorded_types doc))) as Hok end.
  { rewrite Hrun in Hok. destruct Hok as (? & Hg & new & ED & HF). split_and!; [done| |exists new; by rewrite <-ED1|].
    - by rewrite <-(g_subgraphs _ _ Hg), Hl.
    - etransitivity; [exact EX|apply Hg]. }
  eapply step_bind_same; [by apply step_directive_definitions|]. intros matcher s2 Hwf2 Hs2 _.
  assert (latest s2 subgraph) as Hl2 by (eapply latest_mono; [by apply same_grows|done]).
  eapply step_bind; [apply _|by apply step_top_levels|].
  intros [] s3 Hwf3 Hg3 Hadds. apply step_same.
  eapply (step_wand _ _ _ (λ _ _, True)); last first.
  { intros _ s Hs _. apply (adds_trans s1 s2 s _ [] (recorded_types doc)); [|by apply adds_same|].
    - etransitivity; [exact Hg3|by apply same_grows].
    - rewrite <-(app_nil_r (recorded_types doc)).
      by apply (adds_trans s2 s3); [apply same_grows| |apply adds_same]. }
  apply step_then.
  { apply (step_for same (λ _, True)); [done| |done|done]. intros d s _ Hwf' _. by apply step_body. }
  intros s4 Hwf4 Hs4. apply step_then; [by apply step_nested|]. intros s5 Hwf5 Hs5.
  apply (step_for same (λ s, latest s subgraph)); [intros s s' Hs; by apply latest_mono, same_grows| |done|].
  - intros n s _ Hwf' Hlast. apply step_insert_composed; [done|]. unfold latest in Hlast. lia.
  - apply (latest_mono s2); [|done]. etransitivity; [exact Hg3|]. by etransitivity; apply same_grows.
Qed.

(** ** When ingestion returns *)

(** A value that is kept as it is: no binary value and no integer above [i64::MAX]. *)
Fixpoint value_ok (v : ConstValue) : bool :=
  match v with
  | CBinary => false
  | CNumber (PosInt n) | CNumber (NegInt n) => (n <=? i64_max)%Z
  | CList l => forallb value_ok l
  | CObject o => forallb (λ f, value_ok f.2) o
  | CNull | CNumber (Float _) | CString _ | CBoolean _ | CEnum _ => true
  end.
(** The arguments of the fields of a selection are such values, not variables. *)
Fixpoint selection_ok (item : AstSelection) : bool :=
  match item with
  | AstField _ arguments items =>
      forallb (λ a, match a.2 with Some v => value_ok v | None => false end) arguments && forallb selection_ok items
  | AstInlineFragment _ items => forallb selection_ok items
  | AstFragmentSpread => true
  end.
Definition selections_ok (fields : string) : bool :=
  match parse_query ("{ " +:+ fields +:+ " }") with
  | inr (SingleOperation items) => forallb selection_ok items
  | _ => true
  end.
(** The values of a directive, and the selection sets in its arguments. *)
Definition directive_ok (d : ConstDirective) : bool :=
  forallb (λ a, value_ok a.2) (directive_arguments d) &&
  forallb (λ name, match string_argument name d with Some s => selections_ok s | None => true end)
    ["fields"; "arguments"; "node"].
Definition directives_ok (l : list ConstDirective) : bool := forallb directive_ok l.
Definition input_value_ok (v : InputValueDefinition) : bool :=
  directives_ok (iv_directives v) && match iv_default v with Some x => value_ok x | None => true end.
Definition field_ok (f : FieldDefinition) : bool :=
  directives_ok (fd_directives f) && forallb input_value_ok (fd_arguments f).
(** The interfaces and members a type names are among [names], and its values can be kept. *)
Definition type_ok (names : list string) (def : TypeDefinition) : bool :=
  let among l := forallb (λ n, bool_decide (n ∈ names)) l in
  directives_ok (type_def_directives def) &&
  match type_def_kind def with
  | TScalar => true
  | TObject implements fields =>
      bool_decide (type_def_name def = "_Service") || among implements && forallb field_ok fields
  | TInterface implements fields => among implements && forallb field_ok fields
  | TUnion members => bool_decide (type_def_name def = "_Entity") || among members
  | TEnum values => forallb (λ v, directives_ok (evd_directives v)) values
  | TInputObject fields => forallb input_value_ok fields
  end.
Definition document_ok (document : Document) : bool :=
  forallb (λ d, match d with TSType def => type_ok (recorded_types document).*1 def | _ => true end) document.

Definition returns {A} (r : res A) : Prop := is_panic r = false.
Lemma returned_Ret {A} (r : res A) : returns r ↔ ∃ a, r = Ret a.
Proof. unfold returns. destruct r as [a|]; simpl; [|naive_solver]. split; [by exists a|done]. Qed.
Lemma step_returns_bind {A B} R sg (m : I A) (f : A → I B) Q :
  returns (m sg) → step_ok R sg (m sg) Q →
  (∀ a s, wf s → R sg s → Q a s → returns (f a s)) → returns ((a ← m; f a) sg).
Proof.
  unfold mbind, I_bind. intros Hm Hs Hf. destruct (m sg) as [[a s]|]; [|done]. destruct Hs as (? & ? & ?). by apply Hf.
Qed.
Lemma returns_then {A} sg (m : I unit) (k : I A) :
  returns (m sg) → step_ok same sg (m sg) (λ _ _, True) → (∀ s, wf s → same sg s → returns (k s)) → returns ((m;; k) sg).
Proof. intros Hm Hs Hk. eapply step_returns_bind; [done|exact Hs|]. intros [] s ? ? _. by apply Hk. Qed.
(** An operation of the stores returns. *)
Lemma returns_op {A} sg (f : Subgraphs → A * Subgraphs) : returns (op f sg).
Proof. done. Qed.
Lemma returns_lift {A} sg (r : res A) : returns r → returns (ilift r sg).
Proof. unfold ilift. by destruct r. Qed.
Lemma returns_for {A} R (P : Subgraphs → Prop) (f : A → I unit) l sg :
  (∀ s s', R s s' → P s → P s') →
  (∀ x s, x ∈ l → wf s → P s → returns (f x s) ∧ step_ok R s (f x s) (λ _ _, True)) →
  wf sg → P sg → returns (for_in l f sg).
Proof.
  intros HP. revert sg. induction l as [|x l IH]; intros sg Hf Hwf Hsg; cbn [for_in]; [done|].
  destruct (Hf x sg) as [Hr Hs]; [by left|done|done|].
  eapply step_returns_bind; [exact Hr|exact Hs|]. intros _ s Hwf' HR _.
  apply IH; [|done|by eapply HP]. intros y s' Hy. apply Hf. by right.
Qed.
Lemma step_any {A} R sg (r : res (A * Subgraphs)) Q : step_ok R sg r Q → step_ok R sg r (λ _ _, True).
Proof. intros Hr. by eapply step_wand. Qed.
(** The operation returns from every well-formed state and preserves the invariant. *)
Definition fine {A} (m : I A) : Prop := ∀ s, wf s → returns (m s) ∧ step_ok same s (m s) (λ _ _, True).
Lemma fine_bind {A B} (m : I A) (f : A → I B) : fine m → (∀ a, fine (f a)) → fine (a ← m; f a).
Proof.
  intros Hm Hf s Hwf. destruct (Hm s Hwf) as [Hr Hs]. split.
  - eapply step_returns_bind; [exact Hr|exact Hs|]. intros a s' Hwf' _ _. by apply Hf.
  - eapply step_bind; [apply _|exact Hs|]. intros a s' Hwf' _ _. by apply Hf.
Qed.
Lemma fine_ret {A} (a : A) : fine (mret a).
Proof. intros s Hwf. split; [done|by apply step_ret; [apply _| |]]. Qed.
Lemma fine_lift {A} (r : res A) : returns r → fine (ilift r).
Proof. intros Hr s Hwf. split; [|by apply step_lift; [apply _| |]]. unfold ilift. by destruct r. Qed.
Lemma fine_intern n : fine (op (intern_string n)).
Proof. intros s Hwf. split; [done|by eapply step_any, step_intern]. Qed.
Lemma fine_collect {A B} (f : A → I B) l : Forall (λ x, fine (f x)) l → fine (collect f l).
Proof.
  induction 1 as [|x l Hx Hl IH]; cbn [collect]; [apply fine_ret|].
  apply fine_bind; [done|]. intros y. apply fine_bind; [done|]. intros ys. apply fine_ret.
Qed.
Lemma fine_try_collect {A B} (f : A → I (string + B)) l : Forall (λ x, fine (f x)) l → fine (try_collect f l).
Proof.
  induction 1 as [|x l Hx Hl IH]; cbn [try_collect]; [apply fine_ret|].
  apply fine_bind; [done|]. intros [err|y]; [apply fine_ret|]. apply fine_bind; [done|]. intros r. apply fine_ret.
Qed.
Lemma forallb_Forall_true {A} (f : A → bool) l : forallb f l = true ↔ Forall (λ x, f x = true) l.
Proof. rewrite forallb_forall, Forall_forall. by setoid_rewrite list_elem_of_In. Qed.
Lemma Forall_mp {A} (P Q : A → Prop) l : Forall (λ x, P x → Q x) l → Forall P l → Forall Q l.
Proof. induction 1; inversion_clear 1; constructor; auto. Qed.

(** *** Values, selections and directives *)
Lemma fine_named_value n v :
  fine (ast_value_to_subgraph_value v) →
  fine (name ← op (intern_string n); v ← ast_value_to_subgraph_value v; mret (name, v)).
Proof.
  intros Hv. apply fine_bind; [apply fine_intern|]. intros id. apply fine_bind; [done|]. intros v'. apply fine_ret.
Qed.
Lemma fine_value v : value_ok v = true → fine (ast_value_to_subgraph_value v).
Proof.
  induction v as [|n|s|b| |s|l IH|o IH] using ConstValue_nested_ind; intros Hok;
    cbn [ast_value_to_subgraph_value value_ok] in *; try apply fine_ret; try done.
  - destruct n; [..|apply fine_ret]; (apply fine_bind; [apply fine_lift; unfold as_i64; rewrite Hok; done|intros z; apply fine_ret]).
  - apply fine_bind; [apply fine_intern|]. intros id. apply fine_ret.
  - apply fine_bind; [apply fine_intern|]. intros id. apply fine_ret.
  - apply forallb_Forall_true in Hok. apply fine_bind; [|intros vs; apply fine_ret].
    apply fine_collect. exact (Forall_mp _ _ _ IH Hok).
  - apply forallb_Forall_true in Hok. apply fine_bind; [|intros vs; apply fine_ret].
    apply fine_collect. eapply Forall_impl; [exact (Forall_mp _ _ _ IH Hok)|]. intros [n v]. apply fine_named_value.
Qed.
Lemma fine_selection item : selection_ok item = true → fine (build_selection item).
Proof.
  induction item as [n a items IH|[on|] items IH|] using AstSelection_nested_ind; intros Hok;
    cbn [build_selection selection_ok] in *; try apply fine_ret.
  - apply andb_true_iff in Hok as [Ha Hi]. apply forallb_Forall_true in Ha, Hi.
    apply fine_bind; [apply fine_intern|]. intros id. apply fine_bind.
    { apply fine_collect. eapply Forall_impl; [exact Ha|]. intros [m [v|]] Hv; [|done].
      apply fine_bind; [apply fine_intern|]. intros mid.
      change (fine (v' ← ast_value_to_subgraph_value v; mret (mid, v'))).
      apply fine_bind; [by apply fine_value|]. intros v'. apply fine_ret. }
    intros args. apply fine_bind; [apply fine_try_collect; exact (Forall_mp _ _ _ IH Hi)|]. intros [err|l]; apply fine_ret.
  - apply forallb_Forall_true in Hok.
    apply fine_bind; [apply fine_try_collect; exact (Forall_mp _ _ _ IH Hok)|]. intros [err|l]; [apply fine_ret|].
    apply fine_bind; [apply fine_intern|]. intros id. apply fine_ret.
Qed.
Lemma fine_selection_set fields : selections_ok fields = true → fine (selection_set_from_str parse_query fields).
Proof.
  unfold selections_ok, selection_set_from_str, build_selection_set.
  destruct (parse_query _) as [err|[items|]]; [intros _; apply fine_ret| |intros _; apply fine_ret].
  intros Hi%forallb_Forall_true. apply fine_try_collect. eapply Forall_impl; [exact Hi|]. apply fine_selection.
Qed.
Lemma directive_selections d name s :
  directive_ok d = true → name ∈ ["fields"; "arguments"; "node"] → string_argument name d = Some s →
  selections_ok s = true.
Proof.
  intros [_ Hok%forallb_Forall_true]%andb_true_iff Hn Hs. eapply Forall_forall in Hok; [|exact Hn]. by rewrite Hs in Hok.
Qed.
Lemma directive_values d name v : directive_ok d = true → get_argument name d = Some v → value_ok v = true.
Proof.
  intros [Hok%forallb_Forall_true _]%andb_true_iff. unfold get_argument.
  intros ([n x] & [_ Hx]%head_Some_elem_of%list_elem_of_filter & ->)%fmap_Some. by eapply Forall_forall in Hok.
Qed.
Lemma fine_selection_argument name d :
  directive_ok d = true → name ∈ ["fields"; "arguments"; "node"] → fine (selection_argument parse_query name d).
Proof.
  intros Hok Hn. unfold selection_argument. destruct (string_argument name d) as [s|] eqn:Hs; [|apply fine_ret].
  apply fine_bind; [eapply fine_selection_set, directive_selections; eauto|]. intros r. apply fine_ret.
Qed.
Lemma returns_authorized sg site d :
  directive_ok d = true → wf sg → returns (ingest_authorized parse_query site d sg).
Proof.
  intros Hok Hwf. unfold ingest_authorized.
  assert (∀ name, name ∈ ["fields"; "arguments"; "node"] → fine (selection_argument parse_query name d)) as Hs
    by (intros; by apply fine_selection_argument).
  eapply step_returns_bind; [by apply Hs; [set_solver|]|by apply step_selection_argument|].
  intros [err|a] s1 Hwf1 _ _; [done|].
  eapply step_returns_bind; [by apply Hs; [set_solver|]|by apply step_selection_argument|].
  intros [err|f] s2 Hwf2 _ _; [done|].
  eapply step_returns_bind; [by apply Hs; [set_solver|]|by apply step_selection_argument|].
  intros [err|n] s3 Hwf3 _ _; [done|].
  assert (fine match get_argument "metadata" d with
               | Some v => v ← ast_value_to_subgraph_value v; mret (Some v)
               | None => mret None
               end) as Hm.
  { destruct (get_argument "metadata" d) as [v|] eqn:Hv; [|apply fine_ret].
    apply fine_bind; [by eapply fine_value, directive_values|]. intros v'. apply fine_ret. }
  destruct (Hm s3 Hwf3) as [Hr Hst]. by eapply step_returns_bind; [exact Hr|exact Hst|].
Qed.

(** The subgraph exists. *)
Definition hosted sg (subgraph : SubgraphId) : Prop := subgraph < length (subgraphs sg).
Lemma hosted_same sg s subgraph : same sg s → hosted sg subgraph → hosted s subgraph.
Proof. intros [G _]. unfold hosted. by rewrite (g_subgraphs _ _ G). Qed.
Lemma interned_string_at sg id : interned sg id → returns (string_at sg id).
Proof. intros [s Hs]. unfold string_at, resolve. by rewrite Hs. Qed.
Lemma returns_diagnostic sg subgraph message :
  wf sg → hosted sg subgraph → returns (push_ingestion_diagnostic subgraph message sg).
Proof.
  intros Hwf [s Hs]%lookup_lt_is_Some_2. unfold push_ingestion_diagnostic. unfold mbind, I_bind, ilift, get_sg.
  simpl. rewrite Hs. simpl.
  assert (returns (string_at sg (subgraph_name_id s))) as Hn.
  { apply interned_string_at. apply list_elem_of_lookup_2 in Hs. apply (link_subgraphs _ (wf_links _ Hwf) s Hs). }
  by destruct (string_at sg (subgraph_name_id s)).
Qed.
Lemma returns_name_of sg id : wf sg → defined sg id → returns (name_of sg id).
Proof.
  intros Hwf [d Hd]%lookup_lt_is_Some_2. unfold name_of, definition. rewrite Hd. simpl.
  apply interned_string_at. by destruct (def_ids _ (wf_definitions _ Hwf) id d Hd).
Qed.
Lemma returns_when c (m : I unit) sg : returns (m sg) → returns (when c m sg).
Proof. by destruct c. Qed.
Lemma fine_inner_strings v : fine (inner_strings v).
Proof.
  destruct v as [| | | | | |l|]; cbn [inner_strings]; try apply fine_ret.
  apply fine_collect, Forall_forall. intros x _. apply fine_intern.
Qed.
(** Both judgements at once, for operations that depend on the state. *)
Definition runs sg (m : I unit) : Prop := returns (m sg) ∧ step_ok same sg (m sg) (λ _ _, True).
Lemma runs_then sg (m k : I unit) : runs sg m → (∀ s, wf s → same sg s → runs s k) → runs sg (m;; k).
Proof.
  intros [Hr Hs] Hk. split; [eapply returns_then; [exact Hr|exact Hs|]|eapply step_then; [exact Hs|]];
    intros s Hwf' Hs'; by apply Hk.
Qed.
Lemma runs_bind {A} sg (m : I A) (k : A → I unit) Q :
  returns (m sg) → step_ok same sg (m sg) Q →
  (∀ a s, wf s → same sg s → Q a s → runs s (k a)) → runs sg (a ← m; k a).
Proof.
  intros Hr Hs Hk. split; [eapply step_returns_bind; [exact Hr|exact Hs|]|eapply step_bind; [apply _|exact Hs|]];
    intros a s Hwf' Hs' Ha; by apply Hk.
Qed.
Lemma runs_ret sg : wf sg → runs sg (mret ()).
Proof. intros Hwf. split; [done|by apply step_ret; [apply _| |]]. Qed.
Lemma runs_upd sg f : step_ok same sg (upd f sg) (λ _ _, True) → runs sg (upd f).
Proof. by split. Qed.
Lemma runs_when sg c m : wf sg → runs sg m → runs sg (when c m).
Proof. intros Hwf Hm. destruct c; [done|by apply runs_ret]. Qed.
Lemma runs_for {A} (P : Subgraphs → Prop) (f : A → I unit) l sg :
  (∀ s s', same s s' → P s → P s') → (∀ x s, x ∈ l → wf s → P s → runs s (f x)) → wf sg → P sg → runs sg (for_in l f).
Proof.
  intros HP Hf Hwf Hsg. split; [by apply (returns_for same P)|].
  apply (step_for same P); [done| |done|done]. intros x s Hx Hwf' Hs. by apply Hf.
Qed.
Lemma runs_diagnostic sg subgraph message : wf sg → hosted sg subgraph → runs sg (push_ingestion_diagnostic subgraph message).
Proof. intros Hwf Hh. split; [by apply returns_diagnostic|by apply step_diagnostic]. Qed.
Lemma runs_lists sg (add : list StringId → Subgraphs → Subgraphs) l :
  (∀ s ids, wf s → same sg s → interned_all s ids → step_ok same s (upd (add ids) s) (λ _ _, True)) →
  wf sg → runs sg (for_in l (λ v, inner ← inner_strings v; upd (add inner))).
Proof.
  intros Ha Hwf. apply (runs_for (same sg)); [by intros s s' ? ?; etransitivity| |done|reflexivity].
  intros v s _ Hwf' Hs. eapply runs_bind; [by apply fine_inner_strings|by apply step_inner_strings|].
  intros ids s1 Hwf1 Hs1 Hids. apply runs_upd, Ha; [done|by etransitivity|done].
Qed.
Lemma runs_selection_directive sg (insert : list Selection → Subgraphs → Subgraphs) subgraph d :
  (∀ s l, wf s → same sg s → interned_all s (selections_strings l) → step_ok same s (upd (insert l) s) (λ _ _, True)) →
  directive_ok d = true → wf sg → hosted sg subgraph →
  runs sg (ingest_selection_directive parse_query insert subgraph d).
Proof.
  intros Hi Hok Hwf Hh. unfold ingest_selection_directive.
  destruct (string_argument "fields" d) as [f|] eqn:Hf; [|by apply runs_ret].
  eapply runs_bind; [|by apply step_selection_set|].
  - apply fine_selection_set; [|done]. eapply directive_selections; [done| |exact Hf]. set_solver.
  - intros [err|l] s1 Hwf1 Hs1 Hl; [apply runs_diagnostic; [done|by eapply hosted_same]|]. by apply runs_upd, Hi.
Qed.
Lemma runs_directive_tail sg site matcher subgraph location d :
  directive_ok d = true → wf sg → site_exists sg site → hosted sg subgraph →
  (∀ s, wf s → same sg s → returns (location s)) →
  runs sg (ingest_directive_tail parse_query site matcher subgraph location d).
Proof.
  intros Hok Hwf Hsite Hh Hloc. unfold ingest_directive_tail.
  apply runs_then; [apply runs_when, runs_upd; [done|by apply step_flags]|]. intros s1 Hwf1 Hs1. carry Hs1.
  apply runs_then; [apply runs_when, runs_lists; [done| |done]|].
  { intros s ids Hwf' Hs Hids. carry Hs. by apply step_append_scopes. }
  intros s2 Hwf2 Hs2. carry Hs2.
  apply runs_then; [apply runs_when, runs_lists; [done| |done]|].
  { intros s ids Hwf' Hs Hids. carry Hs. by apply step_insert_policy. }
  intros s3 Hwf3 Hs3. carry Hs3.
  apply runs_then; [apply runs_when, runs_upd; [done|by apply step_insert_deprecated]|]. intros s4 Hwf4 Hs4. carry Hs4.
  apply runs_when; [done|]. eapply runs_bind; [by apply returns_authorized|by apply step_authorized|].
  intros [err|[]] s5 Hwf5 Hs5 _; [|by apply runs_ret].
  assert (same sg s5) as Hs by (transitivity s1; [done|]; transitivity s2; [done|]; transitivity s3; [done|]; by transitivity s4).
  destruct (proj1 (returned_Ret (location s5))) as [loc Hl]; [by apply Hloc|].
  pose proof (runs_diagnostic s5 subgraph ("Error validating the @authorized directive at " +:+ loc +:+ ": " +:+ err) Hwf5
    (hosted_same _ _ _ Hs Hh)) as [Hr Hst].
  unfold runs, mbind at 1 3, I_bind at 1 3, get_sg. simpl. unfold ilift, mbind, I_bind. simpl. by rewrite Hl.
Qed.
Lemma returns_intern_option sg o : returns (intern_option o sg).
Proof. destruct o as [s|]; [|done]. unfold intern_option, op, mbind, I_bind. simpl. by destruct (intern_string s sg). Qed.
Lemma runs_directive sg site matcher subgraph location d :
  directive_ok d = true → wf sg → site_exists sg site → hosted sg subgraph →
  (∀ s, wf s → same sg s → returns (location s)) →
  runs sg (ingest_directive parse_query site matcher subgraph location d).
Proof.
  intros Hok Hwf Hsite Hh Hloc.
  assert (∀ s, wf s → same sg s → runs s (ingest_directive_tail parse_query site matcher subgraph location d)) as Htail.
  { intros s Hwf' Hs. carry Hs. apply runs_directive_tail; [done|done|done|by eapply hosted_same|].
    intros s' Hwf'' Hs'. apply Hloc; [done|by etransitivity]. }
  unfold ingest_directive.
  repeat match goal with |- runs _ (if ?b then upd _ else _) => destruct b; [by apply runs_upd, step_flags|] end.
  destruct (String.eqb (m_override matcher) _).
  { split; [|exact (step_override sg site d Hwf Hsite)].
    eapply step_returns_bind; [apply returns_intern_option|by apply step_intern_option|]. intros from s1 Hwf1 _ _.
    eapply step_returns_bind; [apply returns_intern_option|by apply step_intern_option|]. by destruct from. }
  destruct (String.eqb (m_requires matcher) _).
  { apply runs_selection_directive; [|done..]. intros s l Hwf' Hs Hl. carry Hs. by apply step_set_requires. }
  destruct (String.eqb (m_provides matcher) _).
  { apply runs_selection_directive; [|done..]. intros s l Hwf' Hs Hl. carry Hs. by apply step_set_provides. }
  apply runs_then.
  { apply runs_when; [done|]. eapply runs_bind; [|by apply step_arguments|].
    - apply fine_collect; [|done]. apply andb_true_iff in Hok as [Hv%forallb_Forall_true _].
      eapply Forall_impl; [exact Hv|]. intros [n v] Hx. by apply fine_named_value, fine_value.
    - intros a s1 Hwf1 Hs1 Ha. carry Hs1. by apply runs_upd, step_insert_instance. }
  intros s1 Hwf1 Hs1. destruct (String.eqb (m_tag matcher) _); [|by apply Htail]. carry Hs1.
  destruct (get_argument "name" d) as [v|]; [|by apply runs_ret].
  apply runs_then; [|intros s2 Hwf2 Hs2; apply Htail; [done|by etransitivity]].
  destruct v; try (by apply runs_ret). by apply runs_upd, step_insert_tag.
Qed.
Lemma runs_directives_all sg site l matcher subgraph location :
  directives_ok l = true → wf sg → site_exists sg site → hosted sg subgraph →
  (∀ s, wf s → same sg s → returns (location s)) →
  runs sg (ingest_directives parse_query site l matcher subgraph location).
Proof.
  intros Hok%forallb_Forall_true Hwf Hsite Hh Hloc.
  apply (runs_for (same sg)); [by intros s s' ? ?; etransitivity| |done|reflexivity].
  intros d s Hd Hwf' Hs. carry Hs. apply runs_directive; [by eapply Forall_forall in Hok|done|done|by eapply hosted_same|].
  intros s' Hwf'' Hs'. apply Hloc; [done|by etransitivity].
Qed.
Lemma returns_keys sg id l matcher :
  directives_ok l = true → wf sg → last_definition sg id → returns (ingest_keys parse_query id l matcher sg).
Proof.
  intros Hok%forallb_Forall_true Hwf Hid.
  apply (runs_for (λ s, last_definition s id)); [intros s s'; apply last_definition_same| |done|done].
  intros d s Hd Hwf' Hid'. apply runs_when; [done|].
  destruct (string_argument "fields" d) as [f|] eqn:Hf; [|by apply runs_ret].
  eapply runs_bind; [|by apply step_push_key_str|intros; by apply runs_ret].
  unfold push_key. eapply step_returns_bind; [|by apply step_selection_set|by intros [err|x]].
  apply fine_selection_set; [|done]. eapply Forall_forall in Hok; [|exact Hd].
  eapply directive_selections; [done| |exact Hf]. set_solver.
Qed.

(** *** Enums and fields *)
Lemma fine_default o : match o with Some x => value_ok x | None => true end = true → fine (ingest_default o).
Proof.
  destruct o as [v|]; intros Hv; cbn [ingest_default]; [|apply fine_ret].
  apply fine_bind; [by apply fine_value|]. intros v'. apply fine_ret.
Qed.
Lemma returns_intern_type sg t : returns (intern_type t sg).
Proof. unfold intern_type. by destruct (intern_field_type t (store sg)). Qed.
Lemma runs_enum sg id values matcher subgraph :
  forallb (λ v, directives_ok (evd_directives v)) values = true → wf sg → defined sg id → hosted sg subgraph →
  runs sg (ingest_enum parse_query id values matcher subgraph).
Proof.
  intros Hok%forallb_Forall_true Hwf Hid Hh.
  apply (runs_for (same sg)); [by intros s s' ? ?; etransitivity| |done|reflexivity].
  intros v s Hv Hwf' Hs. carry Hs. apply (hosted_same _ s) in Hh; [|done].
  eapply runs_bind; [done|by apply step_intern|]. intros n s1 Hwf1 Hs1 Hn.
  eapply runs_bind; [done|by apply step_new_site|]. intros site s2 Hwf2 Hs2 Hsite. carry Hs1. carry Hs2.
  apply runs_then; [by apply runs_upd, step_push_enum_value|]. intros s3 Hwf3 Hs3. carry Hs3.
  apply runs_directives_all; [by eapply Forall_forall in Hok|done|done| |].
  - eapply hosted_same; [|done]. transitivity s1; [done|]. by transitivity s2.
  - intros s4 Hwf4 Hs4. carry Hs4. by apply returns_name_of.
Qed.
(** [carry], and the subgraph still exists. *)
Ltac carry_hosted Hs :=
  carry Hs; match goal with Hh : hosted _ _ |- _ => apply (hosted_same _ _ _ Hs) in Hh end.
Lemma runs_input_fields sg parent fields matcher subgraph :
  forallb input_value_ok fields = true → wf sg → defined sg parent → hosted sg subgraph →
  runs sg (ingest_input_fields parse_query parent fields matcher subgraph).
Proof.
  intros Hok%forallb_Forall_true Hwf Hid Hh.
  apply (runs_for (same sg)); [by intros s s' ? ?; etransitivity| |done|reflexivity].
  intros f s Hf Hwf' Hs. carry_hosted Hs. eapply Forall_forall in Hok as [Hd Hv]%andb_true_iff; [|exact Hf].
  eapply runs_bind; [apply returns_intern_type|by apply step_intern_type|]. intros t s1 Hwf1 Hs1 Ht. carry_hosted Hs1.
  eapply runs_bind; [done|by apply step_new_site|]. intros site s2 Hwf2 Hs2 Hsite. carry_hosted Hs2.
  apply runs_then.
  { apply runs_directives_all; [done|done|done|done|]. intros s' Hwf'' Hs'. carry Hs'.
    pose proof (returns_name_of s' parent Hwf'' Hid) as Hn. by destruct (name_of s' parent). }
  intros s3 Hwf3 Hs3. carry Hs3.
  eapply runs_bind; [apply returns_intern_option|by apply step_intern_option|]. intros desc s4 Hwf4 Hs4 Hdesc. carry Hs4.
  eapply runs_bind; [by apply fine_default|by apply step_default|]. intros v s5 Hwf5 Hs5 Hv'. carry Hs5.
  eapply runs_bind; [done|by apply step_push_field|]. intros _ s6 Hwf6 _ _. by apply runs_ret.
Qed.
Lemma runs_field_arguments sg field args matcher subgraph :
  forallb input_value_ok args = true → wf sg → is_Some (definition_fields sg !! field) → hosted sg subgraph →
  runs sg (ingest_field_arguments parse_query field args matcher subgraph).
Proof.
  intros Hok%forallb_Forall_true Hwf Hid Hh.
  apply (runs_for (same sg)); [by intros s s' ? ?; etransitivity| |done|reflexivity].
  intros a s Ha Hwf' Hs. carry_hosted Hs. eapply Forall_forall in Hok as [Hd Hv]%andb_true_iff; [|exact Ha].
  eapply runs_bind; [apply returns_intern_type|by apply step_intern_type|]. intros t s1 Hwf1 Hs1 Ht. carry_hosted Hs1.
  eapply runs_bind; [done|by apply step_intern|]. intros n s2 Hwf2 Hs2 Hn. carry_hosted Hs2.
  eapply runs_bind; [done|by apply step_new_site|]. intros site s3 Hwf3 Hs3 Hsite. carry_hosted Hs3.
  apply runs_then.
  { apply runs_directives_all; [done|done|done|done|]. intros s' Hwf'' Hs'. carry Hs'.
    destruct Hid as [x Hx]. unfold walk_field. rewrite Hx. simpl. destruct field as [parent name].
    destruct (body_fields _ (wf_bodies _ Hwf'') _ _ _ Hx) as (Hp & Hi & _).
    pose proof (returns_name_of s' parent Hwf'' Hp) as Hr. pose proof (interned_string_at s' name Hi) as Hr'. simpl.
    destruct (name_of s' parent); [|done]. simpl. by destruct (string_at s' name). }
  intros s4 Hwf4 Hs4. carry Hs4.
  eapply runs_bind; [apply returns_intern_option|by apply step_intern_option|]. intros desc s5 Hwf5 Hs5 Hdesc. carry Hs5.
  eapply runs_bind; [by apply fine_default|by apply step_default|]. intros v s6 Hwf6 Hs6 Hv'. carry Hs6.
  by apply runs_upd, step_insert_argument.
Qed.
Lemma runs_fields sg id fields matcher is_query subgraph :
  forallb field_ok fields = true → wf sg → defined sg id → hosted sg subgraph →
  runs sg (ingest_fields parse_query id fields matcher is_query subgraph).
Proof.
  intros Hok%forallb_Forall_true Hwf Hid Hh.
  apply (runs_for (same sg)); [by intros s s' ? ?; etransitivity| |done|reflexivity].
  intros f s Hf Hwf' Hs. carry_hosted Hs. eapply Forall_forall in Hok as [Hd Ha]%andb_true_iff; [|exact Hf].
  case_match; [by apply runs_ret|].
  eapply runs_bind; [apply returns_intern_option|by apply step_intern_option|]. intros desc s1 Hwf1 Hs1 Hdesc. carry_hosted Hs1.
  eapply runs_bind; [apply returns_intern_type|by apply step_intern_type|]. intros t s2 Hwf2 Hs2 Ht. carry_hosted Hs2.
  eapply runs_bind; [done|by apply step_new_site|]. intros site s3 Hwf3 Hs3 Hsite. carry_hosted Hs3.
  eapply runs_bind; [done|by apply step_push_field|]. intros field s4 Hwf4 Hs4 [_ Hf']. carry_hosted Hs4.
  apply runs_then.
  { apply runs_directives_all; [done|done|done|done|]. intros s' Hwf'' Hs'. carry Hs'.
    pose proof (returns_name_of s' id Hwf'' Hid) as Hn. by destruct (name_of s' id). }
  intros s5 Hwf5 Hs5. carry_hosted Hs5. by apply runs_field_arguments.
Qed.

(** *** Nested keys *)
Lemma fold_res_returns {A B} (f : B → A → res B) b l : (∀ b x, x ∈ l → returns (f b x)) → returns (fold_res f b l).
Proof.
  revert b. induction l as [|x l IH]; intros b Hf; simpl; [done|].
  destruct (proj1 (returned_Ret (f b x))) as [b' ->]; [apply Hf; by left|]. apply IH. intros b1 y Hy. apply Hf. by right.
Qed.
Lemma type_definition_returns sg t subgraph :
  wf sg → typed sg t →
  ∃ o, type_definition sg t subgraph = Ret o ∧ ∀ id, o = Some id → defined sg id.
Proof.
  intros Hwf (ty & inn & Hi & _). unfold type_definition, inner. rewrite Hi. simpl. eexists. split; [done|].
  intros id Hid. destruct (def_names _ (wf_definitions _ Hwf) _ _ _ Hid) as (d & Hd & _). by apply lookup_lt_Some in Hd.
Qed.
Lemma nested_rec_returns sg parent selection nested :
  wf sg → defined sg parent → returns (ingest_nested_key_fields_rec sg parent selection nested).
Proof.
  intros Hwf. revert parent nested. induction selection as [n a l IH|n l] using Selection_nested_ind;
    intros parent nested Hp; cbn [ingest_nested_key_fields_rec]; [|done].
  destruct (find_field sg parent n) as [t|] eqn:Hf; [|done]. case_decide; [done|].
  destruct (lookup_lt_is_Some_2 _ _ Hp) as [d Hd]. unfold definition. rewrite Hd. simpl.
  destruct (body_fields _ (wf_bodies _ Hwf) _ _ _ Hf) as (_ & _ & Ht & _).
  destruct (type_definition_returns sg (tuple_type t) (subgraph_id d) Hwf Ht) as (o & -> & Ho). simpl.
  destruct o as [ty|]; [|done]. generalize (insert_nested nested (parent, n)).
  match goal with Hne : l ≠ [] |- _ => clear Hne end.
  induction IH as [|s l IHs _ IHl]; intros nested'; [done|].
  destruct (proj1 (returned_Ret (ingest_nested_key_fields_rec sg ty s nested'))) as [b ->]; [by apply IHs, Ho|].
  apply IHl.
Qed.
Lemma returns_nested sg subgraph :
  wf sg → hosted sg subgraph → returns (ingest_nested_key_fields subgraph sg).
Proof.
  intros Hwf [s Hs]%lookup_lt_is_Some_2. unfold ingest_nested_key_fields, mbind, I_bind, ilift, get_sg. simpl.
  rewrite Hs. simpl. match goal with |- context [fold_res ?f ?b ?l] => assert (returns (fold_res f b l)) as Hr end.
  { apply fold_res_returns. intros b d _. apply fold_res_returns. intros b1 k _. apply fold_res_returns.
    intros b2 x _. destruct x as [n a l|n l]; cbn [ingest_nested_key]; [|done].
    destruct (find_field sg d n) as [t|] eqn:Hf; simpl; [|done].
    destruct (body_fields _ (wf_bodies _ Hwf) _ _ _ Hf) as (_ & _ & Ht & _).
    destruct (type_definition_returns sg (tuple_type t) subgraph Hwf Ht) as (o & -> & Ho). simpl.
    destruct o as [ty|]; [|done]. apply fold_res_returns. intros b3 y _. by apply nested_rec_returns, Ho. }
  apply returned_Ret in Hr as [r ->]. done.
Qed.

(** *** Types *)

(** The subgraph has a definition of this name. *)
Definition named sg (subgraph : SubgraphId) (name : string) : Prop :=
  ∃ id, get_index (strings (store sg)) id = Some name ∧ is_Some (definition_names sg !! (id, subgraph)).
Lemma named_same sg s subgraph name : same sg s → named sg subgraph name → named s subgraph name.
Proof.
  intros (G & _ & EN) (id & Hid & Hn). exists id. rewrite EN. split; [|done]. by apply (g_store _ _ G).
Qed.
Lemma adds_named sg s subgraph l name : wf s → adds sg s subgraph l → name ∈ l.*1 → named s subgraph name.
Proof.
  intros Hwf (new & ED & HF) (e & -> & [i He]%list_elem_of_lookup)%list_elem_of_fmap.
  destruct (Forall2_lookup_l _ _ _ _ _ HF He) as (d & Hd & <- & _ & Hn). exists (definition_name d). split; [done|].
  destruct (def_ids _ (wf_definitions _ Hwf) (length (definitions sg) + i) d) as (_ & _ & _ & _ & ?); [|done].
  rewrite ED, lookup_app_r by lia. by replace (length (definitions sg) + i - length (definitions sg)) with i by lia.
Qed.
Lemma returns_definition_by_name sg name subgraph :
  wf sg → named sg subgraph name → returns (definition_by_name name subgraph sg).
Proof.
  intros Hwf Hn. unfold definition_by_name. eapply step_returns_bind; [done|by apply step_intern_named|].
  intros id s1 Hwf1 Hs1 Hid. apply (named_same _ _ _ _ Hs1) in Hn as (id' & Hid' & [x Hx]).
  assert (id' = id) as -> by (by apply (get_index_inj (strings (store s1)) _ _ name)).
  unfold mbind, I_bind, get_sg, ilift, definition_by_name_id. simpl. by rewrite Hx.
Qed.
Lemma runs_implements sg subgraph id l :
  wf sg → defined sg id → (∀ n, n ∈ l → named sg subgraph n) → runs sg (ingest_implements subgraph id l).
Proof.
  intros Hwf Hid Hn. apply (runs_for (same sg)); [by intros s s' ? ?; etransitivity| |done|reflexivity].
  intros n s Hin Hwf' Hs. carry Hs.
  eapply runs_bind; [apply returns_definition_by_name; [done|eapply named_same; [done|by apply Hn]]|by apply step_definition_by_name|].
  intros i s1 Hwf1 Hs1 Hi. carry Hs1. split; [|by apply step_push_interface_impl].
  apply lookup_lt_is_Some_2 in Hid as [d Hd], Hi as [d' Hd'].
  unfold push_interface_impl, mbind, I_bind, get_sg, ilift, definition. simpl. rewrite Hd. simpl. by rewrite Hd'.
Qed.
Lemma returns_root sg subgraph rm name id :
  wf sg → hosted sg subgraph → returns (ingest_root subgraph rm name id sg).
Proof.
  intros Hwf Hh. pose proof (returns_diagnostic sg subgraph) as Hdiag.
  pose proof (lookup_lt_is_Some_2 _ _ Hh) as [s Hs]. unfold ingest_root. destruct (match_name rm name).
  1-3: unfold set_query_type, set_mutation_type, set_subscription_type, set_root, mbind, I_bind, get_sg, ilift;
    simpl; by rewrite Hs.
  - by apply Hdiag.
  - done.
Qed.
Lemma latest_hosted sg subgraph : latest sg subgraph → hosted sg subgraph.
Proof. unfold latest, hosted. lia. Qed.
(** A pushed definition, with what is done next. *)
Lemma returns_pushed sg subgraph name kind description site (k : DefinitionId → I unit) :
  wf sg → latest sg subgraph → interned_opt sg description → site_exists sg site →
  (∀ id s, wf s → latest s subgraph → defined s id → returns (k id s)) →
  returns ((id ← op (push_definition subgraph name kind description site); k id;; mret (Some id)) sg).
Proof.
  intros Hwf Hl Hd Hs Hk. eapply step_returns_bind; [done|by apply step_push_definition|].
  intros id s1 Hwf1 Hg1 [Hid%last_definition_defined _].
  specialize (Hk id s1 Hwf1 (latest_mono _ _ _ Hg1 Hl) Hid). unfold mbind, I_bind. by destruct (k id s1) as [[[] s2]|].
Qed.
Lemma returns_top_level sg subgraph matcher rm def names :
  type_ok names def = true → wf sg → latest sg subgraph →
  returns (ingest_top_level_type parse_query subgraph matcher rm def sg).
Proof.
  intros [Hd Hk]%andb_true_iff Hwf Hl. unfold ingest_top_level_type.
  eapply step_returns_bind; [apply returns_intern_option|by apply step_intern_option|]. intros desc s1 Hwf1 Hs1 Hdesc.
  eapply step_returns_bind; [done|by apply step_new_site|]. intros site s2 Hwf2 Hs2 Hsite. carry Hs2.
  assert (latest s2 subgraph) as Hl2 by (apply (latest_mono sg); [by apply same_grows; transitivity s1|done]).
  eapply step_returns_bind; [|by apply step_push_kept|].
  - destruct (type_def_kind def) eqn:E; repeat case_match; try done;
      try (by eapply (step_returns_bind grows); [done|by apply step_push_definition|]).
    + apply returns_pushed; [done..|]. intros id s Hwf' Hl' _. by apply returns_root, latest_hosted.
    + apply returns_pushed; [done..|]. intros id s Hwf' Hl' Hid. by apply runs_enum; [..|apply latest_hosted].
  - intros [id|] s3 Hwf3 Hg3 [Hid _]; [|done]. specialize (Hid id eq_refl).
    assert (runs s3 (ingest_directives parse_query site (type_def_directives def) matcher subgraph (λ _, Ret (type_def_name def))))
      as [Hr Hst].
    { apply runs_directives_all; [done|done|by eapply site_exists_mono| |done].
      by eapply latest_hosted, latest_mono. }
    eapply returns_then; [exact Hr|exact Hst|]. intros s4 Hwf4 Hs4. apply returns_keys; [done|done|].
    by eapply last_definition_same.
Qed.
Lemma document_ok_type doc def :
  document_ok doc = true → TSType def ∈ doc → type_ok (recorded_types doc).*1 def = true.
Proof. intros Hok%forallb_Forall_true Hd. eapply Forall_forall in Hok; [|exact Hd]. exact Hok. Qed.
Lemma returns_top_levels sg subgraph document matcher rm :
  document_ok document = true → wf sg → latest sg subgraph →
  returns (ingest_top_level_definitions parse_query subgraph document matcher rm sg).
Proof.
  intros Hok Hwf Hl. apply (returns_for grows (λ s, latest s subgraph)); [by intros; eapply latest_mono| |done|done].
  intros d s Hd Hwf' Hl'. destruct d as [|def|]; [by split; [|apply step_ret; [apply _| |]]| |by split; [|apply step_ret; [apply _| |]]].
  split; [|by eapply step_any, step_top_level]. eapply returns_top_level; [by apply document_ok_type|done|done].
Qed.
Lemma among_named sg subgraph (names l : list string) :
  (∀ n, n ∈ names → named sg subgraph n) → forallb (λ n, bool_decide (n ∈ names)) l = true →
  ∀ n, n ∈ l → named sg subgraph n.
Proof.
  intros Hn Hl%forallb_Forall_true n Hin. eapply Forall_forall in Hl; [|exact Hin].
  apply Hn. by apply bool_decide_eq_true_1 in Hl.
Qed.
Lemma runs_object sg subgraph matcher is_query name implements fields (names : list string) :
  wf sg → hosted sg subgraph → named sg subgraph name → (∀ n, n ∈ names → named sg subgraph n) →
  forallb (λ n, bool_decide (n ∈ names)) implements && forallb field_ok fields = true →
  runs sg (definition_id ← definition_by_name name subgraph;
           ingest_implements subgraph definition_id implements;;
           ingest_fields parse_query definition_id fields matcher is_query subgraph).
Proof.
  intros Hwf Hh Hn Hnames [Hi Hf]%andb_true_iff.
  eapply runs_bind; [by apply returns_definition_by_name|by apply step_definition_by_name|].
  intros id s1 Hwf1 Hs1 Hid. apply (hosted_same _ _ _ Hs1) in Hh. apply runs_then.
  - apply runs_implements; [done|done|]. intros n Hin. eapply named_same; [done|]. by eapply among_named.
  - intros s2 Hwf2 Hs2. carry_hosted Hs2. by apply runs_fields.
Qed.
Lemma runs_body sg subgraph matcher rm def (names : list string) :
  wf sg → hosted sg subgraph → (∀ n, n ∈ names → named sg subgraph n) →
  ((recorded_type def).*1 ⊆ names) → type_ok names def = true →
  runs sg (ingest_definition_body parse_query subgraph matcher rm def).
Proof.
  intros Hwf Hh Hnames Hself [_ Hok]%andb_true_iff. unfold ingest_definition_body, recorded_type in *.
  destruct (type_def_kind def) as [|is_ fs|is_ fs|members|values|fs]; try by apply runs_ret.
  - unfold SERVICE_TYPE_NAME. destruct (String.eqb_spec (type_def_name def) "_Service") as [|Hne]; [by apply runs_ret|].
    rewrite decide_False in Hself by done. rewrite bool_decide_eq_false_2 in Hok by done.
    eapply runs_object; [done|done|apply Hnames; set_solver|done|done].
  - eapply runs_object; [done|done|apply Hnames; set_solver|done|done].
  - unfold ENTITY_UNION_NAME. destruct (String.eqb_spec (type_def_name def) "_Entity") as [|Hne]; [by apply runs_ret|].
    rewrite decide_False in Hself by done. rewrite bool_decide_eq_false_2 in Hok by done.
    eapply runs_bind; [apply returns_definition_by_name; [done|apply Hnames; set_solver]|by apply step_definition_by_name|].
    intros id s1 Hwf1 Hs1 Hid. apply (runs_for (same s1)); [by intros s s' ? ?; etransitivity| |done|reflexivity].
    intros m s Hm Hwf' Hs. carry Hs. eapply runs_bind; [|by apply step_definition_by_name|].
    + apply returns_definition_by_name; [done|]. apply (named_same sg); [by etransitivity|]. by eapply among_named.
    + intros mid s2 Hwf2 Hs2 Hmid. carry Hs2. by apply runs_upd, step_push_union_member.
  - eapply runs_bind; [apply returns_definition_by_name; [done|apply Hnames; set_solver]|by apply step_definition_by_name|].
    intros id s1 Hwf1 Hs1 Hid. apply runs_input_fields; [done|done|done|by eapply hosted_same].
Qed.
Lemma runs_bodies sg subgraph document matcher rm :
  document_ok document = true → wf sg → hosted sg subgraph →
  (∀ n, n ∈ (recorded_types document).*1 → named sg subgraph n) →
  runs sg (ingest_definition_bodies parse_query subgraph document matcher rm).
Proof.
  intros Hok Hwf Hh Hn. apply (runs_for (same sg)); [by intros s s' ? ?; etransitivity| |done|reflexivity].
  intros def s (d & Hd & Hdef)%list_elem_of_omap Hwf' Hs. destruct d as [|def'|]; [done| |done]. injection Hdef as ->.
  eapply (runs_body _ _ _ _ _ (recorded_types document).*1); [done|by eapply hosted_same| | |by apply document_ok_type].
  - intros n Hin. eapply named_same; [done|by apply Hn].
  - intros n (e & -> & He)%list_elem_of_fmap. apply list_elem_of_fmap_2. unfold recorded_types.
    apply list_elem_of_In, in_concat. exists (recorded_type def). split; [|by apply list_elem_of_In].
    apply in_map_iff. exists (TSType def). split; [done|by apply list_elem_of_In].
Qed.
Lemma returns_directive_definitions sg doc subgraph :
  wf sg → hosted sg subgraph → returns (ingest_directive_definitions doc subgraph sg).
Proof.
  intros Hwf Hh. unfold ingest_directive_definitions.
  match goal with |- returns ((?m;; mret ?x) sg) => assert (runs sg m) as [Hr Hs] end.
  { apply (runs_for (λ s, hosted s subgraph)); [by intros; eapply hosted_same| |done|done].
    intros n s _ Hwf' Hh'. by apply runs_when, runs_diagnostic. }
  by eapply returns_then; [exact Hr|exact Hs|].
Qed.

(** A document whose names are defined and whose values can be kept is ingested. *)
Lemma ingest_subgraph_returns sg doc name url :
  wf sg → document_ok doc = true → ∃ sg', ingest_subgraph parse_query doc name url sg = Ret ((), sg').
Proof.
  intros Hwf Hok. destruct (push_subgraph_ok sg name url Hwf) as (Hwf1 & Hl & _).
  enough (returns (ingest_subgraph parse_query doc name url sg)) as [[[] s] Hs]%returned_Ret by (by exists s).
  unfold ingest_subgraph, op. unfold mbind at 1, I_bind at 1. simpl.
  destruct (push_subgraph name url sg) as [subgraph s1]. simpl in *.
  eapply step_returns_bind; [by apply returns_directive_definitions, latest_hosted|by apply step_directive_definitions|].
  intros matcher s2 Hwf2 Hs2 _.
  assert (latest s2 subgraph) as Hl2 by (eapply latest_mono; [by apply same_grows|done]).
  eapply step_returns_bind; [by apply returns_top_levels|by apply step_top_levels|]. intros [] s3 Hwf3 Hg3 Hadds.
  assert (hosted s3 subgraph) as Hh by (by eapply latest_hosted, latest_mono).
  destruct (runs_bodies s3 subgraph doc matcher (ingest_schema_definition doc) Hok Hwf3 Hh) as [Hr Hst].
  { intros n Hn. by eapply adds_named. }
  eapply returns_then; [exact Hr|exact Hst|]. intros s4 Hwf4 Hs4. apply (hosted_same _ _ _ Hs4) in Hh.
  eapply returns_then; [by apply returns_nested|by apply step_nested|]. intros s5 Hwf5 Hs5.
  apply (hosted_same _ _ _ Hs5) in Hh.
  apply (runs_for (λ s, hosted s subgraph)); [by intros; eapply hosted_same| |done|done].
  intros n s _ Hwf' Hh'. by apply runs_upd, step_insert_composed.
Qed.
End props.
