(* ===== verification/IngestClaims.v ===== *)
(** * The states ingestion reaches

    The invariant holds of every state that ingesting subgraphs reaches; it
    makes the binary searches of the walkers complete and the composition of
    enums safe. *)
From S2P Require Import Prelude RustStd CheckSchema IndexSet FieldTypes Subgraphs ComposeContext ComposeDirectives ComposeEnums ComposeEnumsClaims Ingest IngestRules IngestProps.
Local Open Scope string_scope.
Local Open Scope list_scope.
Local Open Scope nat_scope.

Section claims.
Context `{IndexSetLaws} (parse_query : string → string + ExecutableDocument).
Implicit Types sg : Subgraphs.

(** The states a program reaches that ingests subgraphs one after the other. *)
Inductive reachable : Subgraphs → Prop :=
| reachable_default : reachable Subgraphs_default
| reachable_ingest sg sg' document name url :
    reachable sg → ingest_subgraph parse_query document name url sg = Ret ((), sg') → reachable sg'.

Lemma wf_intern_all l sg : wf sg → wf (foldl (λ sg s, (intern_string s sg).2) sg l).
Proof.
  induction l as [|s l IH] in sg |- *; intros Hwf; simpl; [done|]. apply IH.
  pose proof (step_intern sg s Hwf) as Hi. unfold op in Hi. destruct (intern_string s sg). apply Hi.
Qed.
Lemma empty_get A i : get_index (iset_empty (A := A)) i = None.
Proof. apply eq_None_not_Some. rewrite get_index_lt, iset_empty_len. lia. Qed.
Lemma wf_default : wf Subgraphs_default.
Proof.
  apply wf_intern_all. split; simpl.
  - intros i w o. by rewrite empty_get.
  - split; simpl; [done|constructor|]. intros n s id. by rewrite lookup_empty.
  - split; simpl; intros *; by rewrite lookup_empty.
  - split; simpl; try constructor; intros *; rewrite ?lookup_empty; set_solver.
  - split; simpl; [|intros *; rewrite ?lookup_empty; set_solver..].
    intros site. unfold site_recorded. simpl. rewrite !lookup_empty, !is_Some_alt. set_solver.
Qed.
Lemma reachable_wf sg : reachable sg → wf sg.
Proof.
  induction 1 as [|sg sg' doc name url _ IH Hrun]; [apply wf_default|]. by eapply ingest_subgraph_ok.
Qed.
(** The built-in scalars are interned from the start. *)
Lemma intern_all_interned l sg s :
  (s ∈ l ∨ ∃ i, get_index (strings (store sg)) i = Some s) →
  ∃ i, get_index (strings (store (foldl (λ sg s, (intern_string s sg).2) sg l))) i = Some s.
Proof.
  induction l as [|x l IH] in sg |- *; simpl; intros Hs; [by destruct Hs as [Hs%elem_of_nil|]|]. apply IH.
  unfold intern_string. pose proof (intern_named x (strings (store sg))) as [Hx Hext].
  destruct (intern x (strings (store sg))) as [i strs]. simpl in *.
  destruct Hs as [[->|Hs]%elem_of_cons|[j Hj]]; [right; exists i; exact Hx|by left|right; exists j; by apply Hext].
Qed.
Lemma reachable_builtins sg s : reachable sg → s ∈ BUILTIN_SCALARS → ∃ i, get_index (strings (store sg)) i = Some s.
Proof.
  intros Hr Hs. induction Hr as [|sg sg' doc name url Hr IH Hrun]; [apply intern_all_interned; by left|].
  destruct IH as [i Hi]. exists i. by eapply ingest_subgraph_ok; [apply reachable_wf|..].
Qed.

(** ** The searches of the walkers *)
Lemma StronglySorted_le_by {A} (f : A → nat) l : StronglySorted le (f <$> l) → sorted_by f l.
Proof.
  induction l as [|x l IH]; simpl; [constructor|]. inversion_clear 1 as [|? ? Hl Hx]. constructor; [by apply IH|].
  rewrite Forall_fmap in Hx. eapply Forall_impl; [exact Hx|]. intros y Hy. by apply Nat.compare_le_iff.
Qed.
Lemma filter_cmp_eq {A} (f : A → nat) b (l : list A) : filter (λ x, cmp (f x) b = Eq) l = filter (λ x, f x = b) l.
Proof. apply list_filter_iff. intros x. apply Nat.compare_eq_iff. Qed.
Lemma eqb_Nat_eqb (a b : nat) : (a =? b) = eqb a b.
Proof.
  unfold eqb, cmp, nat_ord. destruct (Nat.eqb_spec a b) as [->|Hne]; [by rewrite Nat.compare_refl|].
  destruct (Nat.compare_spec a b); [done|done|done].
Qed.
Lemma take_while_ext {A} (p q : A → bool) l : (∀ x, p x = q x) → take_while p l = take_while q l.
Proof. intros Hpq. induction l as [|x l IH]; simpl; [done|]. by rewrite Hpq, IH. Qed.

Lemma entity_keys_spec sg id :
  wf sg → entity_keys sg id = (filter (λ k, k.1 = id) (keys sg)).*2.
Proof.
  intros [_ _ _ L _]. unfold entity_keys. f_equal.
  rewrite (take_while_ext _ (λ k, eqb k.1 id)) by (intros; apply eqb_Nat_eqb).
  rewrite (key_range_spec fst) by (apply StronglySorted_le_by, L). apply (filter_cmp_eq fst).
Qed.

Lemma StronglySorted_seq start n : StronglySorted lt (seq start n).
Proof.
  induction n as [|n IH] in start |- *; simpl; constructor; [done|]. apply Forall_forall. intros i Hi%elem_of_seq. lia.
Qed.
Lemma take_while_length {A} (p : A → bool) l : length (take_while p l) ≤ length l.
Proof. induction l as [|x l IH]; simpl; [done|]. destruct (p x); simpl; lia. Qed.
Lemma sorted_eqb_partitioned {A} (f : A → nat) l b :
  sorted_by f l → Forall (λ x, b ≤ f x) l → partitioned (λ x, f x =? b) l.
Proof.
  unfold partitioned. induction 1 as [|x l Hl IH Hx]; intros HF; simpl; [constructor|].
  apply Forall_cons in HF as [Hb HF]. destruct (Nat.eqb_spec (f x) b) as [E|Hne]; [by apply IH|].
  constructor; [by apply Nat.eqb_neq|]. eapply Forall_impl; [exact Hx|]. intros y Hy%Nat.compare_le_iff.
  apply Nat.eqb_neq. lia.
Qed.
(** The indices that [partition_point] and [take_while] delimit. *)
Lemma key_range_indices {A} (f : A → nat) (l : list A) b i :
  sorted_by f l →
  let start := partition_point (λ x, ltb (f x) b) l in
  i ∈ seq start (length (take_while (λ x, f x =? b) (drop start l))) ↔ f <$> l !! i = Some b.
Proof.
  intros Hs start. pose proof (sorted_by_partitioned f l b Hs) as Hp.
  assert (∀ j x, l !! j = Some x → j < start ↔ f x < b) as Hlo.
  { intros j x Hj. unfold start. rewrite partition_point_spec by done.
    pose proof (partitioned_lookup _ l j x Hp Hj) as E. rewrite <-(Nat.compare_lt_iff (f x)).
    rewrite <-(bool_decide_eq_true (j < _)), <-E. unfold ltb, cmp, nat_ord.
    destruct (Nat.compare (f x) b); by split. }
  assert (partitioned (λ x, f x =? b) (drop start l)) as Hp'.
  { apply sorted_eqb_partitioned.
    - unfold sorted_by in *. rewrite <-(take_drop start l) in Hs. by apply StronglySorted_app in Hs as (_ & _ & ?).
    - apply Forall_lookup_2. intros j x Hj. rewrite lookup_drop in Hj. apply Hlo in Hj. lia. }
  pose proof (take_while_length (λ x, f x =? b) (drop start l)) as Hlen. rewrite length_drop in Hlen.
  rewrite elem_of_seq, fmap_Some. split.
  - intros [Hge Hlt]. destruct (lookup_lt_is_Some_2 l i) as [x Hx]; [lia|]. exists x. split; [done|].
    assert (drop start l !! (i - start) = Some x) as Hd by (rewrite lookup_drop; by replace (start + _) with i by lia).
    apply (partitioned_lookup _ _ _ _ Hp') in Hd. rewrite bool_decide_eq_true_2 in Hd by lia.
    by apply Nat.eqb_eq in Hd.
  - intros (x & Hx & Hb). assert (start ≤ i) as Hge by (apply Nat.le_ngt; rewrite (Hlo i x Hx), <-Hb; lia). split; [done|].
    assert (drop start l !! (i - start) = Some x) as Hd by (rewrite lookup_drop; by replace (start + _) with i by lia).
    apply (partitioned_lookup _ _ _ _ Hp') in Hd. rewrite <-Hb, Nat.eqb_refl in Hd. symmetry in Hd.
    apply bool_decide_eq_true_1 in Hd. lia.
Qed.

(** ** The hypotheses of composition *)
Lemma wf_lists_of_site sg (s : gset (DirectiveSiteId * list StringId)) site l :
  (∀ site l, (site, l) ∈ s → interned_all sg l) → l ∈ lists_of_site site s → Forall (resolves sg) l.
Proof.
  intros Hs ([site' l'] & -> & [_ Hin]%elem_of_take_while%list_elem_of_filter)%list_elem_of_fmap.
  apply (Hs site'). by apply elem_of_btree_set_iter.
Qed.
Lemma wf_site_ok sg site : wf sg → site_ok sg site.
Proof.
  intros [_ _ _ _ [_ D1 D2 D3 D4 D5 D6 D7 D8 D9 D10]]. split_and!.
  - intros r Hr. by apply (D1 site (Some r) Hr).
  - intros l. by apply wf_lists_of_site.
  - intros l. by apply wf_lists_of_site.
  - intros e ([[site' n] a] & -> & Hin%elem_of_take_while)%list_elem_of_fmap. simpl.
    assert ((site', n, a) ∈ composed_directive_instances (directives sg)) as Hi.
    { rewrite <-(take_drop (partition_point (λ e, ltb e.1.1 site) (composed_directive_instances (directives sg)))).
      set_solver. }
    destruct (D10 _ _ _ Hi) as [Hn Ha]. split; [done|]. clear -Ha.
    unfold interned_all, arguments_strings in Ha. induction a as [|[m v] a IH]; simpl in *; [constructor|].
    apply Forall_cons in Ha as [Hm [_ Ha]%Forall_app]. by constructor; [|apply IH].
Qed.
Lemma wf_fields_ok sg : wf sg → fields_ok sg.
Proof.
  intros [_ _ [B1 B2 B3 B4 B5] _ _]. split.
  - intros p n t Ht. destruct (B1 p n t Ht) as (Hp & _ & (ty & inn & Hty & _) & _).
    split; [by apply lookup_lt_is_Some|by exists inn].
  - intros [f a] t Ht. destruct (B2 f a t Ht) as (_ & _ & (ty & inn & Hty & _) & _). by exists inn.
Qed.
Lemma wf_enums_ok sg defs :
  wf sg → (N.of_nat (iset_len (strings (store sg))) ≤ usize_max)%N →
  Forall (λ d, d < length (definitions sg)) defs → enums_ok sg defs.
Proof.
  intros Hwf Hlen Hdefs. pose proof (wf_definitions _ Hwf) as [D1 D2 D3]. pose proof (wf_bodies _ Hwf) as [B1 B2 B3 B4 B5].
  split.
  - intros d Hd. eapply Forall_forall in Hdefs; [|exact Hd]. apply lookup_lt_is_Some in Hdefs as [x Hx].
    destruct (D1 d x Hx) as (Hn & Hdesc & _). exists x. split_and!; [done|done|by apply wf_site_ok|done].
  - intros d v site _ Hv. destruct (B5 d v site Hv) as (_ & Hi & _). split_and!; [done|by apply wf_site_ok|].
    apply get_index_lt in Hi. lia.
Qed.

(** ** Claims *)

(** C6. The invariant of ingestion. Starting from the empty state, after any
    number of subgraphs were ingested, whatever their documents: every string
    id, definition id, field type id, subgraph id and directive site id that the
    tables hold refers to an entry that exists, the site of every directive of
    every kind included; default values belong to input fields and arguments
    that exist; the map from names to definitions agrees with the vector of
    definitions; the definitions are sorted by subgraph and the keys by
    definition. *)
Theorem ingested_subgraphs_wf sg : reachable sg → wf sg.
Proof. apply reachable_wf. Qed.

(** C39. Ingesting a subgraph. Ingestion returns on every document in which the
    interfaces and union members that types name are types of the document, the
    arguments of selection sets are no variables, and no default value, argument
    of a directive or of a selection set is binary or an integer above
    [i64::MAX] ([document_ok]; otherwise it can panic, see
    [undefined_member_panics] and [large_default_panics]). Whenever it returns,
    it has recorded exactly the types of the document, in the order of the
    document and with their names and kinds, as the definitions of the new
    subgraph, after those of the earlier subgraphs, which it does not touch; only
    [_Service] objects and [_Entity] unions are left out. *)
Theorem ingested_definitions sg document name url :
  reachable sg →
  (document_ok parse_query document = true →
     ∃ sg', ingest_subgraph parse_query document name url sg = Ret ((), sg')) ∧
  ∀ sg', ingest_subgraph parse_query document name url sg = Ret ((), sg') →
    length (subgraphs sg') = S (length (subgraphs sg)) ∧
    ∃ new, definitions sg' = definitions sg ++ new ∧
      Forall2 (λ (e : string * DefinitionKind) d,
        subgraph_id d = length (subgraphs sg) ∧ definition_kind d = e.2 ∧
        string_at sg' (definition_name d) = Ret e.1) (recorded_types document) new.
Proof.
  intros Hr%reachable_wf. split; [by apply ingest_subgraph_returns|]. intros sg' Hrun.
  destruct (ingest_subgraph_ok parse_query sg document name url sg' Hr Hrun)
    as (_ & Hlen & (new & ED & HF) & _). split; [done|]. exists new. split; [done|].
  eapply Forall2_impl; [exact HF|]. intros e d (? & ? & Hn). split_and!; [done..|].
  unfold string_at, resolve. by rewrite Hn.
Qed.

(** The walkers find their entries by binary search in vectors that are
    only ever appended to. On every reachable state the searches are complete:
    [SubgraphWalker::definitions] returns the ids of the definitions of the
    subgraph, each once and in order, and [DefinitionWalker::entity_keys] the
    keys of the definition in the order in which they were ingested. *)
Theorem ingested_searches_complete sg :
  reachable sg →
  (∀ s id, id ∈ subgraph_definitions sg s ↔ subgraph_id <$> definitions sg !! id = Some s) ∧
  (∀ s, StronglySorted lt (subgraph_definitions sg s)) ∧
  (∀ id, entity_keys sg id = (filter (λ k, k.1 = id) (keys sg)).*2).
Proof.
  intros Hr%reachable_wf. split_and!.
  - intros s id. apply key_range_indices, StronglySorted_le_by, Hr.
  - intros s. apply StronglySorted_seq.
  - intros id. by apply entity_keys_spec.
Qed.

(** Ingestion and composition together: on every state that ingestion
    reaches, with at most [usize::MAX] strings, composing an enum that some
    subgraphs define cannot panic, with one exception: the enum is used both in
    input and in return position and the first definition whose values differ
    from those of the first definition has all of them and more after them. *)
Theorem ingested_enums_compose sg first rest x c :
  reachable sg → (N.of_nat (iset_len (strings (store sg))) ≤ usize_max)%N →
  Forall (λ d, d < length (definitions sg)) (first :: rest) → definitions sg !! first = Some x →
  match merge_enum_definitions sg first (first :: rest) c with
  | Ret _ => True
  | Panic _ =>
      used_in_input sg (definition_name x) ∧ used_in_return sg (definition_name x) ∧
      first_mismatch sg (value_names sg first) (first :: rest) (strictly_extends (value_names sg first))
  end.
Proof.
  intros Hr%reachable_wf Hlen Hdefs Hx. destruct (merge_enum_definitions sg first _ c) as [|msg] eqn:E; [done|].
  eapply merge_enum_definitions_panics; [by apply wf_enums_ok|by apply wf_fields_ok|done|exact E].
Qed.
End claims.

(** ** Ingestion on concrete subgraphs *)

#[local] Existing Instance list_index_set.
#[local] Existing Instance list_index_set_laws.

(** A parser that knows the selection sets of the documents below. *)
Definition parse_some (s : string) : string + ExecutableDocument :=
  if String.eqb s "{ id }" then inr (SingleOperation [AstField "id" [] []])
  else if String.eqb s "{ organization { id } }" then
    inr (SingleOperation [AstField "organization" [] [AstField "id" [] []]])
  else inl "unexpected token".

(** ** Two subgraphs *)
Definition field (name : string) (ty : AType) : FieldDefinition := MkFieldDefinition name None [] ty [].
Definition object (name : string) (ds : list ConstDirective) (fields : list FieldDefinition) : TypeSystemDefinition :=
  TSType (MkTypeDefinition name None ds (TObject [] fields)).
Definition key (fields : string) : ConstDirective := MkConstDirective "key" [("fields", CString fields)].
Definition enum (name : string) (ds : list ConstDirective) (values : list (string * list ConstDirective)) : TypeSystemDefinition :=
  TSType (MkTypeDefinition name None ds (TEnum ((λ v, MkEnumValueDefinition v.1 v.2) <$> values))).

(** [User @key(fields: ..organization { id }..) @key(fields: ..id..)]. *)
Definition accounts : Document :=
  [object "User" [key "organization { id }"; key "id"]
     [field "id" (ANamed "ID" false); field "organization" (ANamed "Organization" false)];
   object "Organization" [key "id"] [field "id" (ANamed "ID" false)];
   enum "Role" [] [("ADMIN", []); ("GUEST", [])];
   object "_Service" [] [field "sdl" (ANamed "String" true)];
   object "Query" []
     [field "_service" (ANamed "_Service" false);
      MkFieldDefinition "me" None [MkInputValueDefinition "role" None (ANamed "Role" true) (Some (CEnum "ADMIN")) []]
        (ANamed "Role" true) []]].
Definition billing : Document := [enum "Role" [] [("ADMIN", []); ("GUEST", []); ("BILLING", [])]].

Definition ingested (subgraphs_ : list (string * Document)) : res Subgraphs :=
  fold_res (λ sg s, '(_, sg) ← ingest_subgraph parse_some s.2 s.1 ("http://" +:+ s.1) sg; Ret sg)
    Subgraphs_default subgraphs_.
Definition state (r : res Subgraphs) : Subgraphs := match r with Ret sg => sg | Panic _ => Subgraphs_default end.
Definition one_subgraph : Subgraphs := state (ingested [("accounts", accounts)]).
Definition two_subgraphs : Subgraphs := state (ingested [("accounts", accounts); ("billing", billing)]).

Lemma one_run : ingest_subgraph parse_some accounts "accounts" "http://accounts" Subgraphs_default = Ret ((), one_subgraph).
Proof. vm_compute. reflexivity. Qed.
Lemma two_run : ingest_subgraph parse_some billing "billing" "http://billing" one_subgraph = Ret ((), two_subgraphs).
Proof. vm_compute. reflexivity. Qed.
Lemma one_reachable : reachable parse_some one_subgraph.
Proof. eapply reachable_ingest; [apply reachable_default|apply one_run]. Qed.
Lemma two_reachable : reachable parse_some two_subgraphs.
Proof. eapply reachable_ingest; [apply one_reachable|apply two_run]. Qed.

Lemma ingested_subgraphs_wf_witness : reachable parse_some two_subgraphs ∧ wf two_subgraphs.
Proof. split; [exact two_reachable|]. exact (ingested_subgraphs_wf parse_some two_subgraphs two_reachable). Defined.

Lemma ingested_definitions_witness :
  document_ok parse_some accounts = true ∧
  recorded_types accounts = [("User", DObject); ("Organization", DObject); ("Role", DEnum); ("Query", DObject)] ∧
  ∃ sg, ingest_subgraph parse_some accounts "accounts" "http://accounts" Subgraphs_default = Ret ((), sg) ∧
  length (subgraphs sg) = 1 ∧
  ∃ new, definitions sg = new ∧
    Forall2 (λ (e : string * DefinitionKind) d,
      subgraph_id d = 0 ∧ definition_kind d = e.2 ∧ string_at sg (definition_name d) = Ret e.1) (recorded_types accounts) new.
Proof.
  split; [vm_compute; reflexivity|]. split; [reflexivity|].
  pose proof (ingested_definitions parse_some Subgraphs_default accounts "accounts" "http://accounts"
    (reachable_default parse_some)) as [Hret Hdefs].
  destruct Hret as [sg Hsg]; [vm_compute; reflexivity|]. exists sg. split; [exact Hsg|]. exact (Hdefs sg Hsg).
Defined.

Lemma ingested_searches_complete_witness :
  subgraph_definitions two_subgraphs 0 = [0; 1; 2; 3] ∧ subgraph_definitions two_subgraphs 1 = [4] ∧
  length (entity_keys two_subgraphs 0) = 2 ∧
  (∀ id, entity_keys two_subgraphs id = (filter (λ k, k.1 = id) (keys two_subgraphs)).*2).
Proof.
  split; [vm_compute; reflexivity|]. split; [vm_compute; reflexivity|]. split; [vm_compute; reflexivity|].
  exact (proj2 (proj2 (ingested_searches_complete parse_some two_subgraphs two_reachable))).
Defined.

#[local] Opaque two_subgraphs.
(** The second subgraph adds a value to an enum used in both positions: composition panics. *)
Lemma ingested_enums_compose_witness :
  is_panic (merge_enum_definitions two_subgraphs 2 [2; 4] Ctx_empty) = true ∧
  ∃ x, definitions two_subgraphs !! 2 = Some x ∧
  used_in_input two_subgraphs (definition_name x) ∧ used_in_return two_subgraphs (definition_name x) ∧
  first_mismatch two_subgraphs (value_names two_subgraphs 2) [2; 4] (strictly_extends (value_names two_subgraphs 2)).
Proof.
  assert (is_panic (merge_enum_definitions two_subgraphs 2 [2; 4] Ctx_empty) = true) as Hp by (vm_compute; reflexivity).
  split; [exact Hp|].
  destruct (definitions two_subgraphs !! 2) as [x|] eqn:Hx; [|vm_compute in Hx; discriminate].
  exists x. split; [reflexivity|].
  pose proof (ingested_enums_compose parse_some two_subgraphs 2 [4] x Ctx_empty two_reachable) as Hc.
  destruct (merge_enum_definitions two_subgraphs 2 [2; 4] Ctx_empty) as [r|msg]; [discriminate Hp|].
  apply Hc; [vm_compute; discriminate| |exact Hx].
  apply Forall_cons_2; [|apply Forall_cons_2; [|apply Forall_nil_2]]; apply Nat.ltb_lt; vm_compute; reflexivity.
Defined.

(** ** What the code does not handle *)

(** The names of the composed directives of a site, as composition reads them. *)
Definition composed_at (sg : Subgraphs) (site : DirectiveSiteId) : list (option string) :=
  (λ e, get_index (strings (store sg)) e.1) <$> iter_composed_directives sg site.
Definition note : ConstDirective := MkConstDirective "note" [].
Definition schema_composing : TypeSystemDefinition :=
  TSSchema (MkSchemaDefinition [MkConstDirective "composeDirective" [("name", CString "@note")]] None None None).

(** The instances of composed directives are found by binary search on their
    site, but those of an enum are ingested after those of its values, whose
    sites are later: when both have one, neither is found. *)
Theorem composed_directives_of_enums_lost :
  let both := state (ingested [("s", [schema_composing; enum "Role" [note] [("ADMIN", [note])]])]) in
  let value_only := state (ingested [("s", [schema_composing; enum "Role" [] [("ADMIN", [note])]])]) in
  length (composed_directive_instances (directives both)) = 2 ∧
  composed_at both 0 = [] ∧ composed_at both 1 = [] ∧ composed_at value_only 1 = [Some "note"].
Proof. vm_compute. split_and!; reflexivity. Qed.

(** A default value above [i64::MAX], which is a valid [Float] literal, panics. *)
Theorem large_default_panics :
  is_panic (ingested [("s", [TSType (MkTypeDefinition "Input" None [] (TInputObject
    [MkInputValueDefinition "f" None (ANamed "Float" true) (Some (CNumber (PosInt (i64_max + 1)))) []]))])]) = true.
Proof. vm_compute. reflexivity. Qed.

(** A union member or an implemented interface that the document does not
    define panics instead of being reported. *)
Theorem undefined_member_panics :
  is_panic (ingested [("s", [TSType (MkTypeDefinition "U" None [] (TUnion ["Missing"]))])]) = true ∧
  is_panic (ingested [("s", [TSType (MkTypeDefinition "O" None [] (TObject ["Missing"] []))])]) = true.
Proof. vm_compute. split; reflexivity. Qed.
