(* ===== verification/Walkers.v ===== *)
(** * [composition]: the walkers of [subgraphs/*.rs]

    The read-only views of the stores that composition and validation use. A
    [FieldWalker] is the id of a field with its tuple, a [FieldArgumentWalker]
    the id of an argument with its tuple, a [DefinitionWalker] the id of a
    definition with the record it reads. *)
From Stdlib Require Import Ascii.
From S2P Require Import Prelude RustStd CheckSchema IndexSet FieldTypes Subgraphs Ingest ComposeContext.
Local Open Scope string_scope.
Local Open Scope list_scope.
Local Open Scope nat_scope.

Abbreviation Field := (FieldId * FieldTuple)%type.
Abbreviation Argument := (ArgumentId * FieldTuple)%type.
Abbreviation Def := (DefinitionId * Definition_)%type.

(** The derived [PartialEq] of [Selection]. *)
Fixpoint arguments_eqb (l1 l2 : Arguments_) : bool :=
  match l1, l2 with
  | [], [] => true
  | (n1, v1) :: l1, (n2, v2) :: l2 => (n1 =? n2) && value_eqb v1 v2 && arguments_eqb l1 l2
  | _, _ => false
  end.
Definition list_eqb {A} (eqA : A → A → bool) : list A → list A → bool :=
  fix go l1 l2 :=
    match l1, l2 with
    | [], [] => true
    | x :: l1, y :: l2 => eqA x y && go l1 l2
    | _, _ => false
    end.
Fixpoint selection_eqb (a b : Selection) : bool :=
  match a, b with
  | SField f args sub, SField f' args' sub' =>
      (f =? f') && arguments_eqb args args' && list_eqb selection_eqb sub sub'
  | SInlineFragment on sub, SInlineFragment on' sub' => (on =? on') && list_eqb selection_eqb sub sub'
  | _, _ => false
  end.

Section walkers.
Context `{IndexSet}.
Implicit Types sg : Subgraphs.

(** ** Definitions *)
Definition walk_definition sg (id : DefinitionId) : res Def := d ← definition sg id; Ret (id, d).
Definition name_str sg (d : Def) : res string := string_at sg (definition_name d.2).
Definition subgraph_name_of sg (d : Definition_) : res string :=
  s ← expect "index out of bounds" (subgraphs sg !! subgraph_id d); string_at sg (subgraph_name_id s).
Definition def_subgraph_name sg (d : Def) : res string := subgraph_name_of sg d.2.
(** [iter_definitions_with_name], with the exclusive end of its range. *)
Definition iter_definitions_with_name sg (name : StringId) : list (SubgraphId * DefinitionId) :=
  (λ e : StringId * SubgraphId * DefinitionId, (e.1.2, e.2))
    <$> filter (λ e, in_range name e.1 = true) (btree_map_iter (definition_names sg)).
Definition iter_implementers_for_interface sg (interface_name : StringId) : list StringId :=
  (filter (λ e, in_range interface_name e = true) (btree_set_iter (interface_impls sg))).*2.
(** [SubgraphWalker::interface_implementers]. *)
Definition interface_implementers sg (subgraph : SubgraphId) (interface_name : StringId) : list DefinitionId :=
  omap (λ e : StringId * StringId, definition_names sg !! (e.2, subgraph))
    (filter (λ e, e.1 = interface_name) (btree_set_iter (interface_impls sg))).
Definition iter_union_members sg (union_id : DefinitionId) : list DefinitionId :=
  (filter (λ e, in_range union_id e = true) (btree_set_iter (unions sg))).*2.
Definition is_root_type sg (subgraph : SubgraphId) (definition : DefinitionId) : res bool :=
  s ← expect "index out of bounds" (subgraphs sg !! subgraph);
  Ret (bool_decide (query_type s = Some definition) || bool_decide (mutation_type s = Some definition)
       || bool_decide (subscription_type s = Some definition)).

(** ** Keys *)

(** [DefinitionWalker::entity_keys]: the ids of the keys. *)
Definition entity_key_ids sg (id : DefinitionId) : list nat :=
  let start := partition_point (λ k, ltb k.1 id) (keys sg) in
  seq start (length (take_while (λ k, k.1 =? id) (drop start (keys sg)))).
Definition key_at sg (key : nat) : res Key := k ← expect "index out of bounds" (keys sg !! key); Ret k.2.
Definition is_entity sg (id : DefinitionId) : bool :=
  negb (bool_decide (entity_key_ids sg id = [])) || bool_decide (id ∈ objects_with_nested_keys sg).
(** The name of a selected field. *)
Definition selected_field (s : Selection) : option StringId :=
  match s with SField field _ _ => Some field | SInlineFragment _ _ => None end.
Definition is_part_of_key sg (field : FieldId) : bool :=
  bool_decide (field.2 ∈ omap selected_field (concat (selection_set <$> entity_keys sg field.1)))
  || bool_decide (field ∈ nested_key_fields sg).

(** ** Fields and arguments *)
Definition fields sg (id : DefinitionId) : list Field :=
  filter (λ f, in_range id f.1 = true) (btree_map_iter (definition_fields sg)).
(** [range(ArgumentId(d, f, MIN)..ArgumentId(d, f, MAX))]. *)
Definition argument_in_range (f : FieldId) (a : ArgumentId) : bool :=
  bool_decide (a.1 = f) && (N.of_nat a.2 <? usize_max)%N.
Definition arguments sg (f : FieldId) : list Argument :=
  filter (λ a, argument_in_range f a.1 = true) (btree_map_iter (field_arguments sg)).
Definition argument_by_name sg (f : FieldId) (name : StringId) : option Argument :=
  t ← field_arguments sg !! (f, name); Some (f, name, t).
Definition default_value sg (f : FieldId) : option Value := input_field_default_values sg !! f.
Definition argument_default sg (a : ArgumentId) : option Value := field_argument_defaults sg !! a.

(** [FieldWalker::parent_definition], for a field and for the field of an argument. *)
Definition parent_definition sg (f : FieldId) : res Def := walk_definition sg f.1.
Definition argument_parent sg (a : ArgumentId) : res Def :=
  _ ← walk_field sg a.1; parent_definition sg a.1.
Definition field_subgraph_name sg (f : FieldId) : res string :=
  p ← parent_definition sg f; def_subgraph_name sg p.
Definition argument_subgraph_name sg (a : ArgumentId) : res string :=
  p ← argument_parent sg a; def_subgraph_name sg p.
(** [format!] of a parent name, a dot and a field name. *)
Definition field_path sg (f : FieldId) : res string :=
  p ← parent_definition sg f;
  p ← name_str sg p;
  n ← string_at sg f.2;
  Ret (p +:+ "." +:+ n).

(** What [compose/fields.rs] reads of a field. *)
Definition field_walker sg (f : Field) : res FieldWalker :=
  p ← parent_definition sg f.1;
  parent ← name_str sg p;
  name ← string_at sg f.1.2;
  subgraph ← def_subgraph_name sg p;
  Ret (MkFieldWalker parent name subgraph (tuple_type f.2)).
Definition argument_walker sg (a : Argument) : res ArgumentWalker :=
  p ← argument_parent sg a.1;
  parent ← name_str sg p;
  field ← string_at sg a.1.1.2;
  name ← string_at sg a.1.2;
  subgraph ← def_subgraph_name sg p;
  Ret (MkArgumentWalker name (MkFieldWalker parent field subgraph (tuple_type a.2))).

(** ** Directive sites *)
Definition shareable sg (site : DirectiveSiteId) : bool := bool_decide (site ∈ shareable_set (directives sg)).
Definition external sg (site : DirectiveSiteId) : bool := bool_decide (site ∈ external_set (directives sg)).
Definition interface_object sg (site : DirectiveSiteId) : bool :=
  bool_decide (site ∈ interface_object_set (directives sg)).
Definition override_ sg (site : DirectiveSiteId) : option OverrideDirective := override_map (directives sg) !! site.
Definition provides_ sg (site : DirectiveSiteId) : option (list Selection) := provides_map (directives sg) !! site.
Definition requires_ sg (site : DirectiveSiteId) : option (list Selection) := requires_map (directives sg) !! site.
Definition authorized_ sg (site : DirectiveSiteId) : option AuthorizedDirective := authorized_map (directives sg) !! site.
Definition is_authorized sg (site : DirectiveSiteId) : bool :=
  match authorized_ sg site with Some _ => true | None => false end.
End walkers.

(** ** [federated-graph]: the labels of [@override]

    [federated_graph/v1.rs]: [OverrideLabel] with its parser and printer, over
    [u8::from_str] and [u8::fmt] of the standard library. *)

(** ** The standard library *)
Definition digit_of (c : ascii) : option Z :=
  let n := Z.of_nat (nat_of_ascii c) in
  if ((48 <=? n) && (n <=? 57))%Z then Some (n - 48)%Z else None.
Definition ascii_of_digit (d : Z) : ascii := ascii_of_nat (Z.to_nat (d + 48)).

(** The loop of [from_str_radix(10)]: [checked_mul] and [checked_add] at each
    digit. *)
Fixpoint parse_digits (max acc : Z) (s : string) : option Z :=
  match s with
  | EmptyString => Some acc
  | String c s =>
      d ← digit_of c;
      let acc := (acc * 10 + d)%Z in
      if (acc <=? max)%Z then parse_digits max acc s else None
  end.
(** [u8::from_str]: a leading [+] is accepted, an empty number is not. *)
Definition u8_from_str (s : string) : option Z :=
  let digits := match s with
                | String c s' => if Ascii.eqb c "+"%char then s' else s
                | EmptyString => s
                end in
  match digits with
  | EmptyString => None
  | _ => parse_digits 255 0 digits
  end.
(** [u8::fmt]: at most three digits. *)
Definition u8_fmt (n : Z) : string :=
  let d k := String (ascii_of_digit (n / k mod 10)) "" in
  if (n <? 10)%Z then d 1%Z
  else if (n <? 100)%Z then d 10%Z +:+ d 1%Z
  else d 100%Z +:+ d 10%Z +:+ d 1%Z.
(** [str::strip_suffix] with a character. *)
Fixpoint strip_suffix_char (c : ascii) (s : string) : option string :=
  match s with
  | EmptyString => None
  | String c' EmptyString => if Ascii.eqb c c' then Some EmptyString else None
  | String c' s => r ← strip_suffix_char c s; Some (String c' r)
  end.

(** ** [OverrideLabel] *)
Definition label_error : string := "Expected a field of the format " +:+ quoted "percent(<number>)" +:+ " ".
Definition label_from_str (s : string) : string + OverrideLabel :=
  match suffix ← strip_prefix "percent(" s; percent ← strip_suffix_char ")"%char suffix; u8_from_str percent with
  | Some percent => inr (Percent percent)
  | None => inl label_error
  end.
Definition label_fmt (l : OverrideLabel) : string :=
  match l with
  | Percent percent => "percent(" +:+ u8_fmt percent +:+ ")"
  | Unknown => ""
  end.

(** ** Theorems *)
Lemma strip_prefix_app p s : strip_prefix p (p +:+ s) = Some s.
Proof. induction p as [|c p IH]; [done|]. simpl. by rewrite decide_True. Qed.
Lemma strip_suffix_app c s : strip_suffix_char c (s +:+ String c "") = Some s.
Proof.
  induction s as [|c' s IH]; simpl; [by rewrite Ascii.eqb_refl|].
  rewrite IH. by destruct (s +:+ String c "") eqn:E; [destruct s|].
Qed.
Lemma u8_fmt_from_str n : (0 ≤ n < 256)%Z → u8_from_str (u8_fmt n) = Some n.
Proof.
  intros Hn.
  assert (Forall (λ n, u8_from_str (u8_fmt n) = Some n) (seqZ 0 256)) as HF.
  { apply (bool_decide_unpack _). vm_compute. exact Logic.I. }
  rewrite Forall_forall in HF. apply HF. apply elem_of_seqZ. lia.
Qed.
Lemma parse_digits_bounds max acc s n : (0 ≤ acc ≤ max)%Z → parse_digits max acc s = Some n → (0 ≤ n ≤ max)%Z.
Proof.
  revert acc. induction s as [|c s IH]; intros acc Ha; simpl; [by intros [= <-]|].
  unfold digit_of. set (m := Z.of_nat (nat_of_ascii c)).
  destruct ((48 <=? m) && (m <=? 57))%Z eqn:E; simpl; [|done]. apply andb_true_iff in E as [?%Z.leb_le ?%Z.leb_le].
  destruct (_ <=? max)%Z eqn:E; [|done]. apply Z.leb_le in E. apply IH. lia.
Qed.

(** The labels of [@override] parse back from their text, and a parsed
    percentage is a [u8]; every other text is refused with the same error. *)
Theorem override_label_roundtrip :
  (∀ n, (0 ≤ n < 256)%Z → label_from_str (label_fmt (Percent n)) = inr (Percent n)) ∧
  (∀ s l, label_from_str s = inr l → ∃ n, l = Percent n ∧ (0 ≤ n < 256)%Z) ∧
  (∀ s e, label_from_str s = inl e → e = label_error).
Proof.
  split_and!.
  - intros n Hn. unfold label_from_str, label_fmt. rewrite strip_prefix_app. cbn [mbind option_bind].
    rewrite strip_suffix_app. cbn [mbind option_bind]. by rewrite u8_fmt_from_str.
  - intros s l. unfold label_from_str. destruct (strip_prefix _ s) as [p|]; [|done]. simpl.
    destruct (strip_suffix_char _ p) as [q|]; [|done]. simpl.
    destruct (u8_from_str q) as [n|] eqn:E; [|done]. intros [= <-]. exists n. split; [done|].
    unfold u8_from_str in E. repeat case_match; try done; apply parse_digits_bounds in E; lia.
  - intros s e. unfold label_from_str. destruct (_ ← strip_prefix _ s; _); [done|]. by intros [= <-].
Qed.
