(* ===== verification/ComposeTables.v ===== *)
(** * [composition]: the operations of [compose/context.rs] on the tables

    The operations of the composition context beyond those of [ComposeContext]. *)
From S2P Require Import Prelude RustStd IndexSet FieldTypes Subgraphs ComposeContext.
Local Open Scope string_scope.
Local Open Scope list_scope.
Local Open Scope nat_scope.

(** ** Updates of the tables *)
Definition add_object (o : ObjectRecord) (t : Tables) : Tables :=
  MkTables (objects t ++ [o]) (interfaces t) (ir_unions t) (input_objects t) (input_value_definitions t)
    (root_query t) (root_mutation t) (root_subscription t) (ir_fields t) (union_members t) (union_join_members t)
    (ir_keys t) (object_fields_from_entity_interfaces t) (object_authorized_directives t)
    (interface_authorized_directives t).
Definition add_interface (i : InterfaceRecord) (t : Tables) : Tables :=
  MkTables (objects t) (interfaces t ++ [i]) (ir_unions t) (input_objects t) (input_value_definitions t)
    (root_query t) (root_mutation t) (root_subscription t) (ir_fields t) (union_members t) (union_join_members t)
    (ir_keys t) (object_fields_from_entity_interfaces t) (object_authorized_directives t)
    (interface_authorized_directives t).
Definition add_union (u : UnionRecord) (t : Tables) : Tables :=
  MkTables (objects t) (interfaces t) (ir_unions t ++ [u]) (input_objects t) (input_value_definitions t)
    (root_query t) (root_mutation t) (root_subscription t) (ir_fields t) (union_members t) (union_join_members t)
    (ir_keys t) (object_fields_from_entity_interfaces t) (object_authorized_directives t)
    (interface_authorized_directives t).
Definition add_input_object (o : InputObjectRecord) (t : Tables) : Tables :=
  MkTables (objects t) (interfaces t) (ir_unions t) (input_objects t ++ [o]) (input_value_definitions t)
    (root_query t) (root_mutation t) (root_subscription t) (ir_fields t) (union_members t) (union_join_members t)
    (ir_keys t) (object_fields_from_entity_interfaces t) (object_authorized_directives t)
    (interface_authorized_directives t).
Definition add_input_value_definition (v : InputValueDefinitionIr) (t : Tables) : Tables :=
  MkTables (objects t) (interfaces t) (ir_unions t) (input_objects t) (input_value_definitions t ++ [v])
    (root_query t) (root_mutation t) (root_subscription t) (ir_fields t) (union_members t) (union_join_members t)
    (ir_keys t) (object_fields_from_entity_interfaces t) (object_authorized_directives t)
    (interface_authorized_directives t).
Definition add_field (f : FieldIr) (t : Tables) : Tables :=
  MkTables (objects t) (interfaces t) (ir_unions t) (input_objects t) (input_value_definitions t) (root_query t)
    (root_mutation t) (root_subscription t) (ir_fields t ++ [f]) (union_members t) (union_join_members t)
    (ir_keys t) (object_fields_from_entity_interfaces t) (object_authorized_directives t)
    (interface_authorized_directives t).
Definition add_key (k : KeyIr) (t : Tables) : Tables :=
  MkTables (objects t) (interfaces t) (ir_unions t) (input_objects t) (input_value_definitions t) (root_query t)
    (root_mutation t) (root_subscription t) (ir_fields t) (union_members t) (union_join_members t)
    (ir_keys t ++ [k]) (object_fields_from_entity_interfaces t) (object_authorized_directives t)
    (interface_authorized_directives t).
Definition add_object_authorized (e : nat * DirectiveSiteId) (t : Tables) : Tables :=
  MkTables (objects t) (interfaces t) (ir_unions t) (input_objects t) (input_value_definitions t) (root_query t)
    (root_mutation t) (root_subscription t) (ir_fields t) (union_members t) (union_join_members t) (ir_keys t)
    (object_fields_from_entity_interfaces t) (object_authorized_directives t ++ [e])
    (interface_authorized_directives t).
Definition add_interface_authorized (e : nat * DirectiveSiteId) (t : Tables) : Tables :=
  MkTables (objects t) (interfaces t) (ir_unions t) (input_objects t) (input_value_definitions t) (root_query t)
    (root_mutation t) (root_subscription t) (ir_fields t) (union_members t) (union_join_members t) (ir_keys t)
    (object_fields_from_entity_interfaces t) (object_authorized_directives t)
    (interface_authorized_directives t ++ [e]).
Definition add_entity_interface_field (e : nat * nat) (t : Tables) : Tables :=
  MkTables (objects t) (interfaces t) (ir_unions t) (input_objects t) (input_value_definitions t) (root_query t)
    (root_mutation t) (root_subscription t) (ir_fields t) (union_members t) (union_join_members t) (ir_keys t)
    ({[e]} ∪ object_fields_from_entity_interfaces t) (object_authorized_directives t)
    (interface_authorized_directives t).
Definition add_union_member (subgraph : SubgraphId) (e : nat * nat) (t : Tables) : Tables :=
  MkTables (objects t) (interfaces t) (ir_unions t) (input_objects t) (input_value_definitions t) (root_query t)
    (root_mutation t) (root_subscription t) (ir_fields t) ({[e]} ∪ union_members t)
    (<[e := default [] (union_join_members t !! e) ++ [subgraph]]> (union_join_members t)) (ir_keys t)
    (object_fields_from_entity_interfaces t) (object_authorized_directives t) (interface_authorized_directives t).
Definition with_query (id : nat) (t : Tables) : Tables :=
  MkTables (objects t) (interfaces t) (ir_unions t) (input_objects t) (input_value_definitions t) (Some id)
    (root_mutation t) (root_subscription t) (ir_fields t) (union_members t) (union_join_members t) (ir_keys t)
    (object_fields_from_entity_interfaces t) (object_authorized_directives t) (interface_authorized_directives t).
Definition with_mutation (id : nat) (t : Tables) : Tables :=
  MkTables (objects t) (interfaces t) (ir_unions t) (input_objects t) (input_value_definitions t) (root_query t)
    (Some id) (root_subscription t) (ir_fields t) (union_members t) (union_join_members t) (ir_keys t)
    (object_fields_from_entity_interfaces t) (object_authorized_directives t) (interface_authorized_directives t).
Definition with_subscription (id : nat) (t : Tables) : Tables :=
  MkTables (objects t) (interfaces t) (ir_unions t) (input_objects t) (input_value_definitions t) (root_query t)
    (root_mutation t) (Some id) (ir_fields t) (union_members t) (union_join_members t) (ir_keys t)
    (object_fields_from_entity_interfaces t) (object_authorized_directives t) (interface_authorized_directives t).

Section tables.
Context `{IndexSet}.

(** An update of the tables that returns a value computed from the old ones. *)
Definition on_tables {A} (get : Tables → A) (f : Tables → Tables) : M A := λ c,
  Ret (get (ir_tables c),
       MkCtx (ir_strings c) (ir_directives c) (ir_type_definitions c) (ir_definitions_by_name c)
         (ir_enum_values c) (f (ir_tables c)) (diagnostics c)).
Definition update_tables (f : Tables → Tables) : M unit := on_tables (λ _, ()) f.

(** [type_definitions.push_return_idx] and [definitions_by_name.insert]. *)
Definition push_type_definition (r : TypeDefinitionRecord) : M TypeDefinitionId := λ c,
  Ret (length (ir_type_definitions c),
       MkCtx (ir_strings c) (ir_directives c) (ir_type_definitions c ++ [r]) (ir_definitions_by_name c)
         (ir_enum_values c) (ir_tables c) (diagnostics c)).
Definition name_definition (name : nat) (d : FederatedDefinition) : M unit := λ c,
  Ret ((), MkCtx (ir_strings c) (ir_directives c) (ir_type_definitions c) (<[name := d]> (ir_definitions_by_name c))
             (ir_enum_values c) (ir_tables c) (diagnostics c)).

Definition insert_field (ir : FieldIr) : M nat := on_tables (λ t, length (ir_fields t)) (add_field ir).
Definition insert_input_value_definition (v : InputValueDefinitionIr) : M nat :=
  on_tables (λ t, length (input_value_definitions t)) (add_input_value_definition v).
Definition insert_input_object (name : nat) (description : option string) (composed_directives : DirectiveRange)
    (fields : InputValueDefinitions) : M nat :=
  description ← insert_optional_str description;
  id ← on_tables (λ t, length (input_objects t))
         (add_input_object (MkInputObject name fields composed_directives description));
  _ ← name_definition name (FInputObject id);
  mret id.
Definition insert_interface (name : nat) (description : option string) (composed_directives : DirectiveRange) : M nat :=
  description ← insert_optional_str description;
  type_definition_id ← push_type_definition (MkTypeDefinition name description composed_directives TInterface);
  id ← on_tables (λ t, length (interfaces t)) (add_interface (MkInterface type_definition_id));
  _ ← name_definition name (FInterface id);
  mret id.
Definition insert_object (name : nat) (description : option string) (composed_directives : DirectiveRange) : M nat :=
  description ← insert_optional_str description;
  type_definition_id ← push_type_definition (MkTypeDefinition name description composed_directives TObject);
  id ← on_tables (λ t, length (objects t)) (add_object (MkObject type_definition_id));
  _ ← name_definition name (FObject id);
  mret id.
Definition insert_scalar (scalar_name : string) (description : option string)
    (composed_directives : DirectiveRange) : M unit :=
  name ← insert_static_str scalar_name;
  description ← insert_optional_str description;
  id ← push_type_definition (MkTypeDefinition name description composed_directives TScalar);
  name_definition name (FScalar id).
Definition insert_union (name : nat) (composed_directives : DirectiveRange) (description : option string) : M nat :=
  description ← insert_optional_str description;
  id ← on_tables (λ t, length (ir_unions t)) (add_union (MkUnion name composed_directives description));
  _ ← name_definition name (FUnion id);
  mret id.
Definition insert_union_member (subgraph : SubgraphId) (union_name member_name : nat) : M unit :=
  update_tables (add_union_member subgraph (union_name, member_name)).
Definition insert_key (id : nat) (key_id : nat) (key : Key) : M unit :=
  update_tables (add_key (MkKeyIr (FObject id) key_id false (resolvable key))).
Definition insert_interface_resolvable_key (id : nat) (key_id : nat) (key : Key) (is_interface_object : bool) : M unit :=
  update_tables (add_key (MkKeyIr (FInterface id) key_id is_interface_object (resolvable key))).
Definition insert_object_authorized (id : nat) (site : DirectiveSiteId) : M unit :=
  update_tables (add_object_authorized (id, site)).
Definition insert_interface_authorized (id : nat) (site : DirectiveSiteId) : M unit :=
  update_tables (add_interface_authorized (id, site)).
Definition insert_object_field_from_entity_interface (object_name field_id : nat) : M unit :=
  update_tables (add_entity_interface_field (object_name, field_id)).
Definition set_query (id : nat) : M unit := update_tables (with_query id).
Definition set_mutation (id : nat) : M unit := update_tables (with_mutation id).
Definition set_subscription (id : nat) : M unit := update_tables (with_subscription id).
End tables.
