(* ===== verification/Compose.v ===== *)
(** * [composition]: [compose.rs], [compose/*.rs]

    The composition of the definitions of the subgraphs into the intermediate
    representation: scalars, unions, input objects, interfaces, objects and
    the root types. Entity interfaces are in [ComposeEntity], enums in
    [ComposeEnums]. *)
From S2P Require Import Prelude RustStd CheckSchema IndexSet FieldTypes Subgraphs Ingest Walkers ComposeContext ComposeTables.
Local Open Scope string_scope.
Local Open Scope list_scope.
Local Open Scope nat_scope.

(** [Iterator::find] with a condition that can panic. *)
Fixpoint find_res {A} (f : A → res bool) (l : list A) : res (option A) :=
  match l with
  | [] => Ret None
  | x :: l => b ← f x; if b : bool then Ret (Some x) else find_res f l
  end.

Section compose.
Context `{IndexSet}.
Implicit Types (sg : Subgraphs) (first : Def) (definitions : list Def).

Definition each {A} (l : list A) (f : A → M unit) : M unit := foldM (λ _, f) () l.

(** The directive sites of definitions, fields and arguments. *)
Definition def_sites definitions : list DirectiveSiteId := (λ d, definition_directives d.2) <$> definitions.
Definition field_sites (fields : list Field) : list DirectiveSiteId := (λ f, tuple_directives f.2) <$> fields.
Definition argument_sites (args : list Argument) : list DirectiveSiteId := (λ a, tuple_directives a.2) <$> args.
(** [definitions.iter().find_map(|def| def.description())], as a string. *)
Definition find_description sg definitions : res (option string) :=
  match head (omap (λ d, definition_description d.2) definitions) with
  | Some d => s ← string_at sg d; Ret (Some s)
  | None => Ret None
  end.
(** [description.map(|d| ctx.insert_string(d.id))]. *)
Definition insert_string_option sg (o : option StringId) : M (option nat) :=
  match o with
  | Some d => s ← insert_string sg d; mret (Some s)
  | None => mret None
  end.
(** The update of the range of ids a loop has inserted. *)
Definition extend_range (ids : option (nat * nat)) (id : nat) : option (nat * nat) :=
  match ids with Some (start, len) => Some (start, S len) | None => Some (id, 1) end.
(** [compose_input_field_types] and [compose_output_field_types]; the names that
    a message needs are read first. *)
Definition compose_types sg (compose_fn : Store → list FieldWalker → res (option FieldTypeId * list string))
    (fields : list Field) : M (option FieldTypeId) :=
  ws ← lift (mapM_res (field_walker sg) fields);
  r ← lift (compose_fn (store sg) ws);
  _ ← each r.2 push_fatal;
  mret r.1.
(** The definition of the type of a field, if it is marked [@inaccessible]. *)
Definition type_is_inaccessible sg (t : FieldTypeId) (subgraph : SubgraphId) : res bool :=
  o ← type_definition sg t subgraph;
  match o with
  | Some id => d ← definition sg id; Ret (inaccessible sg (definition_directives d))
  | None => Ret false
  end.

(** ** [compose/scalar.rs] and the unions of [compose.rs] *)
Definition merge_scalar_definitions sg first definitions : M unit :=
  directives ← collect_composed_directives sg (def_sites definitions);
  description ← lift (find_description sg definitions);
  name ← lift (name_str sg first);
  insert_scalar name description directives.

Definition merge_union_definitions sg first definitions : M unit :=
  union_name ← insert_string sg (definition_name first.2);
  directives ← collect_composed_directives sg (def_sites definitions);
  description ← lift (find_description sg definitions);
  _ ← insert_union union_name directives description;
  each (concat ((λ d, iter_union_members sg d.1) <$> definitions)) (λ member,
    member ← lift (definition sg member);
    member_name ← insert_string sg (definition_name member);
    insert_union_member (subgraph_id member) union_name member_name).

(** ** [compose/input_object.rs] *)

(** The names of the fields of the first definition that all others have. *)
Definition field_intersection sg first definitions : list StringId :=
  filter (λ name, Forall (λ d, is_Some (find_field sg d.1 name)) (tail definitions))
    ((λ f : Field, f.1.2) <$> fields sg first.1).
Definition missing_required_message sg first (f : Field) : res string :=
  input_type_name ← name_str sg first;
  field_name ← string_at sg f.1.2;
  bad_subgraph ← field_subgraph_name sg f.1;
  Ret ("The " +:+ input_type_name +:+ "." +:+ field_name
       +:+ " field is not defined in all subgraphs, but it is required in " +:+ bad_subgraph).
(** One turn of the loop: the fields with one name. *)
Definition merge_input_field sg first (intersection : list StringId) (range : option InputValueDefinitions)
    (group : list Field) : M (option InputValueDefinitions) :=
  match group with
  | [] => mret range
  | (field_id, _) :: _ =>
      let field_name := field_id.2 in
      if decide (field_name ∈ intersection) then
        composed_directives ← collect_composed_directives sg (field_sites group);
        description ← insert_string_option sg (head (omap (λ f, tuple_description f.2) group));
        field_type ← compose_types sg compose_input_field_types group;
        match field_type with
        | None => mret range
        | Some field_type =>
            let default := head (omap (λ f, default_value sg f.1) group) in
            name ← insert_string sg field_name;
            id ← insert_input_value_definition
                   (MkInputValueDefinition name field_type composed_directives description default);
            mret (extend_range range id)
        end
      else
        required ← lift (find_res (λ f, is_required (store sg) (tuple_type f.2)) group);
        match required with
        | Some f => message ← lift (missing_required_message sg first f); _ ← push_fatal message; mret range
        | None => mret range
        end
  end.
Definition merge_input_object_definitions sg first definitions : M unit :=
  description ← lift (find_description sg definitions);
  composed_directives ← collect_composed_directives sg (def_sites definitions);
  input_object_name ← insert_string sg (definition_name first.2);
  let intersection := field_intersection sg first definitions in
  range ← foldM (merge_input_field sg first intersection) None
            (field_groups (λ f : Field, f.1.2) ((λ d, fields sg d.1) <$> definitions));
  _ ← insert_input_object input_object_name description composed_directives
        (default NO_INPUT_VALUE_DEFINITION range);
  mret ().

(** ** [compose/interface.rs] *)
Definition insert_authorized_sites sg (insert : DirectiveSiteId → M unit) definitions : M unit :=
  each (filter (λ site, is_authorized sg site = true) (def_sites definitions)) insert.
Definition authorized_fields_of sg (fields : list Field) : list FieldId :=
  (filter (λ f : Field, is_authorized sg (tuple_directives f.2) = true) fields).*1.
Definition merge_interface_field sg first (interface_id : nat) (group : list Field) : M unit :=
  match group with
  | [] => mret ()
  | (field_id, tuple) :: _ =>
      description ← insert_string_option sg (tuple_description tuple);
      _ ← (if existsb (shareable sg) (field_sites group) then
             message ← lift (interface ← name_str sg first; name ← string_at sg field_id.2;
               Ret ("The field " +:+ interface +:+ "." +:+ name
                    +:+ " is marked as shareable but this is not allowed on interfaces."));
             push_fatal message
           else mret ());
      composed_directives ← collect_composed_directives sg (field_sites group);
      field_type ← compose_types sg compose_output_field_types group;
      match field_type with
      | None => mret ()
      | Some field_type =>
          _ ← insert_field (MkFieldIr (FInterface interface_id) field_id.2 field_type NO_INPUT_VALUE_DEFINITION
                [] [] [] (authorized_fields_of sg group) [] composed_directives description);
          mret ()
      end
  end.
Definition check_implementer_field sg (interface_name implementer_name field_name : StringId) : M unit :=
  if existsb (λ e : SubgraphId * DefinitionId, bool_decide (is_Some (find_field sg e.2 field_name)))
       (iter_definitions_with_name sg implementer_name)
  then mret ()
  else
    message ← lift (interface ← string_at sg interface_name; field ← string_at sg field_name;
      implementer ← string_at sg implementer_name;
      Ret ("The `" +:+ interface +:+ "." +:+ field +:+ "` field is not implemented by `" +:+ implementer
           +:+ "`, but it should be."));
    push_fatal message.
Definition check_implementers sg (interface_name : StringId) (field_names : list StringId) : M unit :=
  each (iter_implementers_for_interface sg interface_name) (λ implementer_name,
    each field_names (check_implementer_field sg interface_name implementer_name)).
Definition merge_interface_definitions sg first definitions : M unit :=
  composed_directives ← collect_composed_directives sg (def_sites definitions);
  interface_description ← lift (find_description sg definitions);
  interface_name ← insert_string sg (definition_name first.2);
  interface_id ← insert_interface interface_name interface_description composed_directives;
  _ ← insert_authorized_sites sg (insert_interface_authorized interface_id) definitions;
  let field_lists := (λ d : Def, fields sg d.1) <$> definitions in
  _ ← each (field_groups (λ f : Field, f.1.2) field_lists) (merge_interface_field sg first interface_id);
  let all_fields := @sort Field (cmp_on (λ f : Field, f.1.2)) (concat field_lists) in
  check_implementers sg (definition_name first.2) (dedup ((λ f : Field, f.1.2) <$> all_fields)).

(** ** [compose/object.rs] *)
Definition default_conflict_message sg (a other : Argument) : res string :=
  p ← argument_parent sg a.1;
  type_name ← name_str sg p;
  field_name ← string_at sg a.1.1.2;
  argument_name ← string_at sg a.1.2;
  first_subgraph ← argument_subgraph_name sg other.1;
  second_subgraph ← argument_subgraph_name sg a.1;
  Ret ("The argument " +:+ type_name +:+ "." +:+ field_name +:+ "." +:+ argument_name
       +:+ " has incompatible defaults in subgraphs " +:+ quoted first_subgraph +:+ " and " +:+ quoted second_subgraph).
Definition compose_default sg (default : option (Value * Argument)) (argument : Argument)
    : M (option (Value * Argument)) :=
  match argument_default sg argument.1 with
  | None => mret default
  | Some value =>
      match default with
      | None => mret (Some (value, argument))
      | Some (v, other_argument) =>
          if value_eqb v value then mret default
          else message ← lift (default_conflict_message sg argument other_argument); _ ← push_fatal message; mret default
      end
  end.
Definition compose_field_argument_defaults sg (arguments : list Argument) : M (option Value) :=
  default ← foldM (compose_default sg) None arguments;
  mret (fst <$> default).

Definition required_argument_message sg (fields : list Field) (required_arg : Argument)
    (parent_definition_name field_name argument_name : StringId) : res string :=
  subgraph_where_required ← argument_subgraph_name sg required_arg.1;
  subgraphs_where_missing ← mapM_res (λ f : Field, field_subgraph_name sg f.1)
    (filter (λ f : Field, argument_by_name sg f.1 argument_name = None) fields);
  parent ← string_at sg parent_definition_name;
  field ← string_at sg field_name;
  argument ← string_at sg argument_name;
  Ret ("The argument `" +:+ parent +:+ "." +:+ field +:+ "(" +:+ argument +:+ ":)` is required in "
       +:+ subgraph_where_required +:+ " but missing in " +:+ join ", " subgraphs_where_missing +:+ ".").
(** [compose_argument_types]. *)
Definition compose_argument_types_of sg (parent_definition_name field_name : StringId) (group : list Argument)
    : M (option FieldTypeId) :=
  parent ← lift (string_at sg parent_definition_name);
  field ← lift (string_at sg field_name);
  ws ← lift (mapM_res (argument_walker sg) group);
  r ← lift (compose_argument_types (store sg) parent field ws);
  _ ← each r.2 push_fatal;
  mret r.1.
Definition inaccessible_argument_message sg (parent_definition_name field_name argument_name : StringId) : res string :=
  parent ← string_at sg parent_definition_name;
  field ← string_at sg field_name;
  argument ← string_at sg argument_name;
  Ret ("The argument `" +:+ parent +:+ "." +:+ field +:+ "(" +:+ argument
       +:+ ":)` is of an @inaccessible type, but is itself not marked as @inaccessible.").
Definition argument_type_is_inaccessible sg (a : Argument) : res bool :=
  p ← argument_parent sg a.1; type_is_inaccessible sg (tuple_type a.2) (subgraph_id p.2).

(** One turn of the loop of [merge_field_arguments]. *)
Definition merge_argument sg (fields : list Field) (parent_definition_name field_name : StringId)
    (intersection : list StringId) (ids : option InputValueDefinitions) (group : list Argument)
    : M (option InputValueDefinitions) :=
  match group with
  | [] => mret ids
  | (argument_id, _) :: _ =>
      let argument_name := argument_id.2 in
      default ← compose_field_argument_defaults sg group;
      if decide (argument_name ∈ intersection) then
        composed_directives ← collect_composed_directives sg (argument_sites group);
        argument_type ← compose_argument_types_of sg parent_definition_name field_name group;
        match argument_type with
        | None => mret ids
        | Some argument_type =>
            type_inaccessible ← lift (any_res (argument_type_is_inaccessible sg) group);
            _ ← (if type_inaccessible && negb (existsb (inaccessible sg) (argument_sites group)) then
                   message ← lift (inaccessible_argument_message sg parent_definition_name field_name argument_name);
                   push_fatal message
                 else mret ());
            name ← insert_string sg argument_name;
            id ← insert_input_value_definition
                   (MkInputValueDefinition name argument_type composed_directives None default);
            mret (extend_range ids id)
        end
      else
        required ← lift (find_res (λ a, is_required (store sg) (tuple_type a.2)) group);
        match required with
        | Some a =>
            message ← lift (required_argument_message sg fields a parent_definition_name field_name argument_name);
            _ ← push_fatal message; mret ids
        | None => mret ids
        end
  end.
Definition argument_intersection sg (first : Field) (fields : list Field) : list StringId :=
  filter (λ name, Forall (λ f : Field, is_Some (argument_by_name sg f.1 name)) (tail fields))
    ((λ a : Argument, a.1.2) <$> arguments sg first.1).
Definition merge_field_arguments sg (first : Field) (fields : list Field) : M InputValueDefinitions :=
  p ← lift (parent_definition sg first.1);
  ids ← foldM (merge_argument sg fields (definition_name p.2) first.1.2 (argument_intersection sg first fields)) None
          (field_groups (λ a : Argument, a.1.2) ((λ f : Field, arguments sg f.1) <$> fields));
  mret (default NO_INPUT_VALUE_DEFINITION ids).

(** A definition of a field that does not conflict with another one. *)
Definition may_be_shared sg (f : Field) : bool :=
  let site := tuple_directives f.2 in
  shareable sg site || external sg site || is_part_of_key sg f.1
  || match override_ sg site with Some _ => true | None => false end.
Definition duplicate_field_message sg (first : Field) (fields : list Field) : res string :=
  next ← expect "index out of bounds" (fields !! 1);
  name ← string_at sg first.1.2;
  p ← parent_definition sg first.1;
  parent ← name_str sg p;
  first_subgraph ← def_subgraph_name sg p;
  next_subgraph ← field_subgraph_name sg next.1;
  Ret ("The field `" +:+ name +:+ "` on `" +:+ parent +:+ "` is defined in two subgraphs (`" +:+ first_subgraph
       +:+ "` and `" +:+ next_subgraph +:+ "`).").
Definition field_exposes_inaccessible sg (f : Field) : res bool :=
  if inaccessible sg (tuple_directives f.2) then Ret false
  else p ← parent_definition sg f.1; type_is_inaccessible sg (tuple_type f.2) (subgraph_id p.2).
Definition inaccessible_type_message sg (first : Field) (fields : list Field) : res string :=
  name ← field_path sg first.1;
  non_marked_subgraphs ← mapM_res (λ f : Field, field_subgraph_name sg f.1)
    (filter (λ f : Field, inaccessible sg (tuple_directives f.2) = false) fields);
  Ret ("The field `" +:+ name +:+ "` is of an @inaccessible type, but is itself not marked as @inaccessible in subgraphs "
       +:+ join ", " non_marked_subgraphs).
Definition resolvable_in sg (fields : list Field) (object_is_shareable : bool) : res (list SubgraphId) :=
  if object_is_shareable || existsb (λ site, match override_ sg site with Some _ => true | None => false end) (field_sites fields)
  then Ret []
  else mapM_res (λ f : Field, p ← parent_definition sg f.1; Ret (subgraph_id p.2))
         (filter (λ f : Field, external sg (tuple_directives f.2) = false ∧ is_part_of_key sg f.1 = false) fields).

Definition same_override_message sg (f : Field) (o : OverrideDirective) : res string :=
  from ← string_at sg (override_from o);
  path ← field_path sg f.1;
  Ret ("Source and destination subgraphs " +:+ quoted from +:+ " are the same for overridden field " +:+ quoted path).
Definition double_override_message sg (source f : Field) : res string :=
  path ← field_path sg source.1;
  source_subgraph ← field_subgraph_name sg source.1;
  subgraph ← field_subgraph_name sg f.1;
  Ret ("Field " +:+ quoted path +:+ " on subgraph " +:+ quoted source_subgraph
       +:+ " is also marked with directive @override in subgraph " +:+ quoted subgraph
       +:+ ". Only one @override directive is allowed per field.").
(** The interned name of the subgraph of a field. *)
Definition subgraph_name_id_of sg (f : FieldId) : res StringId :=
  p ← parent_definition sg f;
  s ← expect "index out of bounds" (subgraphs sg !! subgraph_id p.2);
  Ret (subgraph_name_id s).
(** [label.and_then(|label| label.parse().ok()).unwrap_or_default()]. *)
Definition parse_label sg (label : option StringId) : res OverrideLabel :=
  match label with
  | Some label => s ← string_at sg label; Ret match label_from_str s with inr l => l | inl _ => Unknown end
  | None => Ret Unknown
  end.
Definition collect_override sg (fields : list Field) (overrides : list Override) (f : Field) : M (list Override) :=
  match override_ sg (tuple_directives f.2) with
  | None => mret overrides
  | Some o =>
      p ← lift (parent_definition sg f.1);
      name_id ← lift (subgraph_name_id_of sg f.1);
      if decide (override_from o = name_id) then
        message ← lift (same_override_message sg f o); _ ← push_fatal message; mret overrides
      else
        source ← lift (find_res (λ g : Field, n ← subgraph_name_id_of sg g.1; Ret (bool_decide (n = override_from o))) fields);
        _ ← match source with
            | Some source =>
                match override_ sg (tuple_directives source.2) with
                | Some _ => message ← lift (double_override_message sg source f); push_fatal message
                | None => mret ()
                end
            | None => mret ()
            end;
        label ← lift (parse_label sg (override_label o));
        from ← match list_find (λ s, subgraph_name_id s = override_from o) (subgraphs sg) with
               | Some (position, _) => mret (FromSubgraph position)
               | None => name ← insert_string sg (override_from o); mret (Missing name)
               end;
        mret (overrides ++ [MkOverrideIr (subgraph_id p.2) label from])
  end.
Definition collect_overrides sg (fields : list Field) : M (list Override) :=
  foldM (collect_override sg fields) [] fields.

Definition has_provides sg (f : Field) : bool :=
  match provides_ sg (tuple_directives f.2) with Some _ => true | None => false end.
Definition has_requires sg (f : Field) : bool :=
  match requires_ sg (tuple_directives f.2) with Some _ => true | None => false end.
Definition compose_object_fields sg (parent : nat) (object_is_shareable : bool) (first : Field) (fields : list Field) : M unit :=
  _ ← (if negb object_is_shareable && (1 <? length (filter (λ f, may_be_shared sg f = false) fields)) then
         message ← lift (duplicate_field_message sg first fields); push_fatal message
       else mret ());
  exposes ← lift (any_res (field_exposes_inaccessible sg) fields);
  _ ← (if exposes : bool then message ← lift (inaccessible_type_message sg first fields); push_fatal message else mret ());
  arguments ← merge_field_arguments sg first fields;
  resolvable_in ← lift (resolvable_in sg fields object_is_shareable);
  let provides := (filter (λ f, has_provides sg f = true) fields).*1 in
  let requires := (filter (λ f, has_requires sg f = true) fields).*1 in
  let authorized_directives := authorized_fields_of sg fields in
  overrides ← collect_overrides sg fields;
  description ← insert_string_option sg (head (omap (λ f, tuple_description f.2) fields));
  composed_directives ← collect_composed_directives sg (field_sites fields);
  field_type ← compose_types sg compose_output_field_types fields;
  match field_type with
  | None => mret ()
  | Some field_type =>
      _ ← insert_field (MkFieldIr (FObject parent) first.1.2 field_type arguments resolvable_in provides requires
            authorized_directives overrides composed_directives description);
      mret ()
  end.
(** [for_each_field_group] with [compose_object_fields]. *)
Definition compose_fields_of sg (parent : nat) (object_is_shareable : bool) definitions : M unit :=
  each (field_groups (λ f : Field, f.1.2) ((λ d, fields sg d.1) <$> definitions)) (λ group,
    match group with
    | [] => mret ()
    | first :: _ => compose_object_fields sg parent object_is_shareable first group
    end).

Definition field_names_of sg (P : Field → bool) definitions : gset StringId :=
  list_to_set ((λ f : Field, f.1.2) <$> filter (λ f, P f = true) (concat ((λ d, fields sg d.1) <$> definitions))).
Definition missing_shareable_message sg (d : Def) (field : StringId) : res string :=
  subgraph ← def_subgraph_name sg d;
  name ← name_str sg d;
  field ← string_at sg field;
  Ret ("[" +:+ subgraph +:+ "] The shareable object `" +:+ name +:+ "` is missing the `" +:+ field
       +:+ "` field defined in other subgraphs.").
Definition validate_shareable_object_fields_match sg definitions : M unit :=
  let all_fields := field_names_of sg (λ _, true) definitions in
  let inaccessible_fields := field_names_of sg (λ f, inaccessible sg (tuple_directives f.2)) definitions in
  each definitions (λ definition,
    each (btree_set_iter (all_fields ∖ inaccessible_fields)) (λ field,
      match find_field sg definition.1 field with
      | Some _ => mret ()
      | None => message ← lift (missing_shareable_message sg definition field); push_fatal message
      end)).
End compose.
