(* ===== verification/ComposeEntity.v ===== *)
(** * [composition]: [compose/entity_interface.rs], [compose/roots.rs] and [compose.rs]

    Entity interfaces and interface objects, object definitions, the root types
    and the composition of all definitions. *)
From S2P Require Import Prelude RustStd CheckSchema IndexSet FieldTypes Subgraphs Ingest Walkers ComposeContext ComposeTables ComposeEnums Compose.
Local Open Scope string_scope.
Local Open Scope list_scope.
Local Open Scope nat_scope.

Section entity.
Context `{IndexSet}.
Implicit Types (sg : Subgraphs) (first : Def) (definitions : list Def).

(** ** [compose/entity_interface.rs] *)
Definition translate_argument sg (ids : option InputValueDefinitions) (arg : Argument) : M (option InputValueDefinitions) :=
  directives ← collect_composed_directives sg [tuple_directives arg.2];
  name ← insert_string sg arg.1.2;
  id ← insert_input_value_definition
         (MkInputValueDefinition name (tuple_type arg.2) directives None (argument_default sg arg.1));
  mret (extend_range ids id).
Definition translate_arguments sg (field : FieldId) : M InputValueDefinitions :=
  ids ← foldM (translate_argument sg) None (arguments sg field);
  mret (default NO_INPUT_VALUE_DEFINITION ids).

(** The closures of [or_insert_with]: a field of the interface, and a field of
    an interface object. *)
Definition interface_field sg (interface_id : nat) (interface_def : Def) (field : Field) : M FieldIr :=
  arguments ← translate_arguments sg field.1;
  let resolvable_in := if is_part_of_key sg field.1 then [] else [subgraph_id interface_def.2] in
  composed_directives ← collect_composed_directives sg [tuple_directives field.2];
  let authorized_directives := authorized_fields_of sg [field] in
  description ← insert_string_option sg (tuple_description field.2);
  mret (MkFieldIr (FInterface interface_id) field.1.2 (tuple_type field.2) arguments resolvable_in [] []
          authorized_directives [] composed_directives description).
Definition interface_object_field sg (interface_id : nat) (definition : Def) (field : Field) : M FieldIr :=
  let provides := if has_provides sg field then [field.1] else [] in
  let requires := if has_requires sg field then [field.1] else [] in
  overrides ← collect_overrides sg [field];
  composed_directives ← collect_composed_directives sg [tuple_directives field.2];
  description ← insert_string_option sg (tuple_description field.2);
  let authorized_directives := authorized_fields_of sg [field] in
  arguments ← translate_arguments sg field.1;
  mret (MkFieldIr (FInterface interface_id) field.1.2 (tuple_type field.2) arguments [subgraph_id definition.2]
          provides requires authorized_directives overrides composed_directives description).
(** [fields.entry(field.name().id).or_insert_with(..)] for each field. *)
Definition add_entity_fields sg (mk : Field → M FieldIr) (acc : gmap StringId FieldIr) (fs : list Field)
    : M (gmap StringId FieldIr) :=
  foldM (λ (acc : gmap StringId FieldIr) field,
    match acc !! field.1.2 with
    | Some _ => mret acc
    | None => ir ← mk field; mret (<[field.1.2 := ir]> acc)
    end) acc fs.

Definition implementer_names sg (interface_name : StringId) (d : Def) : res (gset StringId) :=
  _ ← expect "index out of bounds" (subgraphs sg !! subgraph_id d.2);
  names ← mapM_res (λ id, d ← definition sg id; Ret (definition_name d))
            (interface_implementers sg (subgraph_id d.2) interface_name);
  Ret (list_to_set names).
Definition missing_implementers_message sg (interface_name : StringId) (d : Def) (missing : gset StringId) : res string :=
  subgraph_name ← def_subgraph_name sg d;
  interface_name ← string_at sg interface_name;
  names ← mapM_res (string_at sg) (btree_set_iter missing);
  Ret ("[" +:+ subgraph_name +:+ "]: Interface type " +:+ quoted interface_name +:+ " has a resolvable key in subgraph "
       +:+ quoted subgraph_name +:+ " but that subgraph is missing some of the supergraph implementation types of "
       +:+ quoted interface_name +:+ ". Subgraph " +:+ quoted subgraph_name +:+ " should define types "
       +:+ join ", " names +:+ ".").
(** More than one interface: they must have the same implementers. *)
Definition check_entity_interface sg (interface_name : StringId) (all_implementers : gset StringId) (interface : Def) : M unit :=
  implementers ← lift (implementer_names sg interface_name interface);
  _ ← (if decide (implementers = all_implementers) then mret ()
       else message ← lift (missing_implementers_message sg interface_name interface (all_implementers ∖ implementers));
            push_fatal message);
  if interface_object sg (definition_directives interface.2) then
    message ← lift (subgraph ← def_subgraph_name sg interface; name ← string_at sg interface_name;
      Ret ("[" +:+ subgraph +:+ "] The @interfaceObject directive is not valid on interfaces (on `" +:+ name +:+ "`)."));
    push_fatal message
  else mret ().
Definition check_entity_interfaces sg (interface_name : StringId) (interface_defs : list Def) : M unit :=
  sets ← lift (mapM_res (implementer_names sg interface_name) interface_defs);
  each interface_defs (check_entity_interface sg interface_name (⋃ sets)).

(** An object definition of the group: it must be an interface object with the
    key of the interface. *)
Definition merge_interface_object sg first (interface_id : nat) (expected_key : Key) (interface_def : Def)
    (acc : gmap StringId FieldIr) (definition : Def) : M (gmap StringId FieldIr) :=
  _ ← (if interface_object sg (definition_directives definition.2) then mret ()
       else message ← lift (name ← name_str sg definition; subgraph ← def_subgraph_name sg definition;
              Ret ("`" +:+ name +:+ "` is an entity interface but the object type `" +:+ name
                   +:+ "` is missing the @interfaceObject directive in the `" +:+ subgraph +:+ "` subgraph."));
            push_fatal message);
  let key_ids := entity_key_ids sg definition.1 in
  _ ← match key_ids with
      | [] =>
          message ← lift (name ← name_str sg first; subgraph ← def_subgraph_name sg definition;
            Ret ("The object type `" +:+ name +:+ "` is annotated with @interfaceObject but missing a key in the `"
                 +:+ subgraph +:+ "` subgraph."));
          push_fatal message
      | key_id :: _ =>
          key ← lift (key_at sg key_id);
          if list_eqb selection_eqb (selection_set key) (selection_set expected_key) then mret ()
          else
            message ← lift (subgraph ← def_subgraph_name sg definition; name ← name_str sg definition;
              interface ← name_str sg interface_def;
              Ret ("[" +:+ subgraph +:+ "] The object type `" +:+ name
                   +:+ "` is annotated with @interfaceObject but has a different key than the entity interface `"
                   +:+ interface +:+ "`."));
            push_fatal message
      end;
  _ ← each key_ids (λ key_id,
        key ← lift (key_at sg key_id);
        if resolvable key then insert_interface_resolvable_key interface_id key_id key true else mret ());
  add_entity_fields sg (interface_object_field sg interface_id definition) acc (fields sg definition.1).

(** An implementer of the interface in its subgraph gets the fields it lacks. *)
Definition contribute_fields sg first (expected_key : Key) (field_ids : list (StringId * nat)) (object : DefinitionId) : M unit :=
  object ← lift (walk_definition sg object);
  _ ← match entity_key_ids sg object.1 with
      | key_id :: _ =>
          key ← lift (key_at sg key_id);
          if list_eqb selection_eqb (selection_set key) (selection_set expected_key) then mret ()
          else
            message ← lift (subgraph ← def_subgraph_name sg object; name ← name_str sg object; interface ← name_str sg first;
              Ret ("[" +:+ subgraph +:+ "] The object type `" +:+ name +:+ "` implements the entity interface `"
                   +:+ interface +:+ "` but does not have the same key. The key must match exactly."));
            push_fatal message
      | [] =>
          message ← lift (subgraph ← def_subgraph_name sg object; name ← name_str sg object;
            Ret ("[" +:+ subgraph +:+ "] The object type `" +:+ name
                 +:+ "` is annotated with @interfaceObject but missing a key."));
          push_fatal message
      end;
  object_name ← insert_string sg (definition_name object.2);
  each (filter (λ e : StringId * nat, find_field sg object.1 e.1 = None) field_ids)
    (λ e, insert_object_field_from_entity_interface object_name e.2).

(** [fields.into_iter().map(|(name, field)| (name, ctx.insert_field(field)))]. *)
Definition insert_entity_fields (fs : gmap StringId FieldIr) : M (list (StringId * nat)) :=
  mapM (λ e : StringId * FieldIr, id ← insert_field e.2; mret (e.1, id)) (btree_map_iter fs).

Definition merge_entity_interface_definitions sg first definitions : M unit :=
  composed_directives ← collect_composed_directives sg (def_sites definitions);
  let interface_defs := filter (λ d : Def, definition_kind d.2 = DInterface) definitions in
  match interface_defs with
  | [] =>
      message ← lift (name ← name_str sg first;
        Ret ("The entity interface `" +:+ name +:+ "` is not defined as an interface in any subgraph."));
      push_fatal message
  | interface_def :: others =>
      _ ← (if decide (others = []) then mret ()
           else check_entity_interfaces sg (definition_name first.2) interface_defs);
      description ← lift (find_description sg [interface_def]);
      interface_name ← insert_string sg (definition_name first.2);
      interface_id ← insert_interface interface_name description composed_directives;
      _ ← insert_authorized_sites sg (insert_interface_authorized interface_id) definitions;
      acc ← add_entity_fields sg (interface_field sg interface_id interface_def) ∅ (fields sg interface_def.1);
      match entity_key_ids sg interface_def.1 with
      | [] =>
          message ← lift (name ← name_str sg first; subgraph ← def_subgraph_name sg interface_def;
            Ret ("The entity interface `" +:+ name +:+ "` is missing a key in the `" +:+ subgraph +:+ "` subgraph."));
          push_fatal message
      | key_id :: _ =>
          expected_key ← lift (key_at sg key_id);
          _ ← insert_interface_resolvable_key interface_id key_id expected_key false;
          acc ← foldM (merge_interface_object sg first interface_id expected_key interface_def) acc
                  (filter (λ d : Def, definition_kind d.2 = DObject) definitions);
          field_ids ← insert_entity_fields acc;
          _ ← lift (expect "index out of bounds" (subgraphs sg !! subgraph_id interface_def.2));
          each (interface_implementers sg (subgraph_id interface_def.2) (definition_name first.2))
            (contribute_fields sg first expected_key field_ids)
      end
  end.

(** ** Objects, [compose.rs] *)

(** [{:?}] of a [DefinitionKind]. *)
Definition kind_debug (k : DefinitionKind) : string :=
  match k with
  | DObject => "Object" | DInterface => "Interface" | DUnion => "Union"
  | DInputObject => "InputObject" | DScalar => "Scalar" | DEnum => "Enum"
  end.
Definition incompatible_kinds_message sg first (incompatible : Def) : res string :=
  name ← name_str sg first;
  first_subgraph ← def_subgraph_name sg first;
  second_subgraph ← def_subgraph_name sg incompatible;
  Ret ("Cannot merge " +:+ kind_debug (definition_kind first.2) +:+ " with " +:+ kind_debug (definition_kind incompatible.2)
       +:+ " (`" +:+ name +:+ "` in `" +:+ first_subgraph +:+ "` and `" +:+ second_subgraph +:+ "`)").
Definition entity_mismatch_message sg first definitions : res string :=
  name ← name_str sg first;
  entity_subgraphs ← mapM_res (def_subgraph_name sg) (filter (λ d : Def, is_entity sg d.1 = true) definitions);
  non_entity_subgraphs ← mapM_res (def_subgraph_name sg) (filter (λ d : Def, is_entity sg d.1 = false) definitions);
  Ret ("The `" +:+ name +:+ "` object is an entity in subgraphs " +:+ join ", " entity_subgraphs
       +:+ " but not in subgraphs " +:+ join ", " non_entity_subgraphs +:+ ".").
Definition merge_object_definitions sg first definitions : M unit :=
  let is_shareable := existsb (shareable sg) (def_sites definitions) in
  match head (filter (λ d : Def, definition_kind d.2 ≠ DObject) definitions) with
  | Some incompatible => message ← lift (incompatible_kinds_message sg first incompatible); push_fatal message
  | None =>
      let first_is_entity := is_entity sg first.1 in
      _ ← (if existsb (λ d : Def, negb (Bool.eqb (is_entity sg d.1) first_is_entity)) definitions then
             message ← lift (entity_mismatch_message sg first definitions); push_fatal message
           else mret ());
      description ← lift (find_description sg definitions);
      composed_directives ← collect_composed_directives sg (def_sites definitions);
      object_name ← insert_string sg (definition_name first.2);
      object_id ← insert_object object_name description composed_directives;
      _ ← each (concat ((λ d : Def, entity_key_ids sg d.1) <$> definitions)) (λ key_id,
            key ← lift (key_at sg key_id); insert_key object_id key_id key);
      _ ← insert_authorized_sites sg (insert_object_authorized object_id) definitions;
      _ ← (if is_shareable then validate_shareable_object_fields_match sg definitions else mret ());
      compose_fields_of sg object_id is_shareable definitions
  end.

(** ** [compose/roots.rs] *)
Definition merge_fields sg (root : string) definitions : M (option nat) :=
  if decide (definitions = []) then mret None
  else
    type_name ← insert_static_str root;
    directives ← collect_composed_directives sg (def_sites definitions);
    object_id ← insert_object type_name None directives;
    _ ← compose_fields_of sg object_id false definitions;
    mret (Some object_id).
Definition root_types sg (root : Subgraph → option DefinitionId) : res (list Def) :=
  mapM_res (walk_definition sg) (omap root (subgraphs sg)).
Definition merge_root_fields sg : M unit :=
  query_types ← lift (root_types sg query_type);
  mutation_types ← lift (root_types sg mutation_type);
  subscription_types ← lift (root_types sg subscription_type);
  query ← merge_fields sg "Query" query_types;
  match query with
  | None => push_fatal "The root `Query` object is not defined in any subgraph."
  | Some query_id =>
      _ ← set_query query_id;
      mutation ← merge_fields sg "Mutation" mutation_types;
      _ ← match mutation with Some id => set_mutation id | None => mret () end;
      subscription ← merge_fields sg "Subscription" subscription_types;
      match subscription with Some id => set_subscription id | None => mret () end
  end.

(** ** [compose_subgraphs] *)

(** The loop of [Subgraphs::iter_definition_groups]: the groups it passes to its
    argument, with the current key and buffer. *)
Fixpoint groups_loop sg (key : option StringId) (buf : list DefinitionId)
    (l : list (StringId * SubgraphId * DefinitionId)) : res (list (list DefinitionId)) :=
  match l with
  | [] => Ret [buf]
  | (name, subgraph, definition) :: l =>
      let new_key := negb (bool_decide (key = Some name)) in
      let buf' := if new_key then [] else buf in
      root ← is_root_type sg subgraph definition;
      rest ← groups_loop sg (Some name) (if root : bool then buf' else buf' ++ [definition]) l;
      Ret (if new_key then buf :: rest else rest)
  end.
Definition iter_definition_groups sg : res (list (list DefinitionId)) :=
  groups_loop sg None [] (btree_map_iter (definition_names sg)).

Definition compose_group sg (group : list DefinitionId) : M unit :=
  definitions ← lift (mapM_res (walk_definition sg) group);
  match definitions with
  | [] => mret ()
  | first :: _ =>
      if interface_object sg (definition_directives first.2)
         || (bool_decide (definition_kind first.2 = DInterface) && negb (bool_decide (entity_key_ids sg first.1 = [])))
      then merge_entity_interface_definitions sg first definitions
      else
        match definition_kind first.2 with
        | DObject => merge_object_definitions sg first definitions
        | DUnion => merge_union_definitions sg first definitions
        | DInputObject => merge_input_object_definitions sg first definitions
        | DInterface => merge_interface_definitions sg first definitions
        | DScalar => merge_scalar_definitions sg first definitions
        | DEnum => merge_enum_definitions sg first.1 group
        end
  end.
Definition compose_subgraphs sg : M unit :=
  groups ← lift (iter_definition_groups sg);
  _ ← each groups (compose_group sg);
  merge_root_fields sg.

(** [Context::new]: the diagnostics of ingestion and the built-in scalars. *)
Definition builtin_scalar sg (name : string) : res string :=
  id ← expect "all built in scalars to be interned" (lookup_string (strings (store sg)) name); string_at sg id.
Definition Context_new sg (messages : list string) : res Ctx :=
  let c := MkCtx iset_empty [] [] ∅ [] Tables_default (messages ++ ingestion_diagnostics sg) in
  '(_, c) ← each BUILTIN_SCALARS (λ name, s ← lift (builtin_scalar sg name); insert_scalar s None (0, 0)) c;
  Ret c.
End entity.
