(* ===== verification/ComposeValidate.v ===== *)
(** * [composition]: [validate.rs], [validate/*.rs] and [lib.rs]

    The validations before composition, and the entry point up to the
    intermediate representation. Which characters beyond ASCII are alphabetic
    or alphanumeric is the Unicode tables of the standard library, an argument
    here. *)
From Stdlib Require Import Ascii.
From S2P Require Import Prelude RustStd CheckSchema IndexSet FieldTypes Subgraphs Ingest Walkers ComposeContext ComposeTables ComposeEnums Compose ComposeEntity.
Local Open Scope string_scope.
Local Open Scope list_scope.
Local Open Scope nat_scope.

(** ** Characters *)

(** [str::chars]: the UTF-8 encodings of the characters. *)
Fixpoint chars (s : string) : list string :=
  match s with
  | EmptyString => []
  | String c s =>
      match s with
      | String c' _ => if is_continuation c' then
                         match chars s with w :: ws => String c w :: ws | [] => [String c ""] end
                       else String c "" :: chars s
      | EmptyString => [String c ""]
      end
  end.
Definition ascii_in (lo hi : nat) (c : ascii) : bool := (lo <=? nat_of_ascii c) && (nat_of_ascii c <=? hi).
Definition is_ascii_alphabetic (c : ascii) : bool := ascii_in 65 90 c || ascii_in 97 122 c.
Definition is_ascii_digit (c : ascii) : bool := ascii_in 48 57 c.
(** A character that is not one byte is looked up in the tables. *)
Definition is_alphabetic (unicode_alphabetic : string → bool) (c : string) : bool :=
  match c with String a EmptyString => is_ascii_alphabetic a | _ => unicode_alphabetic c end.
Definition is_alphanumeric (unicode_alphanumeric : string → bool) (c : string) : bool :=
  match c with String a EmptyString => is_ascii_alphabetic a || is_ascii_digit a | _ => unicode_alphanumeric c end.
Fixpoint to_ascii_lowercase (s : string) : string :=
  match s with
  | EmptyString => EmptyString
  | String c s => String (if ascii_in 65 90 c then ascii_of_nat (nat_of_ascii c + 32) else c) (to_ascii_lowercase s)
  end.

Section validate.
Context `{IndexSet} (unicode_alphabetic unicode_alphanumeric : string → bool).
Implicit Types sg : Subgraphs.

(** ** [validate/subgraph_names.rs] *)
Definition validate_name (name : string) : M unit :=
  match chars name with
  | [] => push_fatal "The empty string is not a valid subgraph name"
  | first :: rest =>
      let first_char_is_ok := is_alphabetic unicode_alphabetic first in
      let other_chars_are_ok :=
        forallb (λ c, String.eqb c "-" || is_alphanumeric unicode_alphanumeric c) rest in
      if first_char_is_ok && other_chars_are_ok then mret ()
      else push_fatal ("Invalid subgraph name: " +:+ quoted name
             +:+ ". Only alphanumeric characters and hyphens (`-`) are allowed, and the first character must be alphabetic.")
  end.
Definition validate_subgraph_name sg (seen : gset string) (s : Subgraph) : M (gset string) :=
  name ← lift (string_at sg (subgraph_name_id s));
  _ ← validate_name name;
  let lower := to_ascii_lowercase name in
  _ ← (if decide (lower ∈ seen) then
         push_fatal ("Found two subgraphs named " +:+ quoted name +:+ ". Subgraph names are case insensitive.")
       else mret ());
  mret ({[lower]} ∪ seen).
Definition validate_subgraph_names sg : M unit :=
  _ ← foldM (validate_subgraph_name sg) ∅ (subgraphs sg); mret ().

(** ** [validate/selection.rs] *)

(** [Iterator::all] with a condition that can panic. *)
Definition all_res {A} (f : A → res bool) : list A → res bool :=
  fix go l := match l with [] => Ret true | x :: l => b ← f x; if b : bool then go l else Ret false end.
Fixpoint argument_type_matches sg (subgraph : SubgraphId) (arg_type : FieldTypeId) (value : Value) : res bool :=
  arg_type_name ← type_name (store sg) arg_type;
  match value with
  | VString _ => Ret (String.eqb arg_type_name "String")
  | VInt _ => Ret (String.eqb arg_type_name "Int")
  | VFloat _ => Ret (String.eqb arg_type_name "Float")
  | VBoolean _ => Ret (String.eqb arg_type_name "Boolean")
  | VEnum value =>
      enum_type ← type_definition sg arg_type subgraph;
      Ret match enum_type with
          | Some enum_type => bool_decide (is_Some (enum_value_by_name sg enum_type value))
          | None => false
          end
  | VObject fields =>
      input_object_type ← type_definition sg arg_type subgraph;
      match input_object_type with
      | Some input_object_type =>
          all_res (λ f : StringId * Value,
            match find_field sg input_object_type f.1 with
            | Some inner_field => argument_type_matches sg subgraph (tuple_type inner_field) f.2
            | None => Ret false
            end) fields
      | None => Ret false
      end
  | VList inner =>
      list ← is_list (store sg) arg_type;
      if list : bool then all_res (argument_type_matches sg subgraph arg_type) inner else Ret false
  | VNull => Ret false
  end.

(** The required arguments of the selected field must be provided. *)
Definition validate_required_arguments sg (field : FieldId) (selection_arguments : Arguments_)
    (directive_path : res string) (directive_name : string) : M unit :=
  each (arguments sg field) (λ arg,
    required ← lift (is_required (store sg) (tuple_type arg.2));
    if required && bool_decide (argument_default sg arg.1 = None)
       && bool_decide (arg.1.2 ∉ selection_arguments.*1)
    then
      message ← lift (field_name ← string_at sg field.2; arg_name ← string_at sg arg.1.2; directive_path ← directive_path;
        Ret ("Error in @" +:+ directive_name +:+ " on " +:+ directive_path +:+ ": the " +:+ field_name +:+ "." +:+ arg_name
             +:+ " argument is required but not provided."));
      push_fatal message
    else mret ()).
(** The loop over the provided arguments; [false] when it returns early. *)
Fixpoint validate_arguments sg (on_definition : Def) (field : FieldId) (selection_arguments : Arguments_)
    (directive_path : res string) (directive_name : string) : M bool :=
  match selection_arguments with
  | [] => mret true
  | (argument_name, argument_value) :: rest =>
      match argument_by_name sg field argument_name with
      | None =>
          message ← lift (argument ← string_at sg argument_name; field_name ← string_at sg field.2;
            definition_name ← name_str sg on_definition; directive_path ← directive_path;
            Ret ("Error in @" +:+ directive_name +:+ " on " +:+ directive_path +:+ ": the " +:+ field_name +:+ "."
                 +:+ argument +:+ " argument does not exist on " +:+ definition_name));
          _ ← push_fatal message; mret false
      | Some argument =>
          matches ← lift (argument_type_matches sg (subgraph_id on_definition.2) (tuple_type argument.2) argument_value);
          if matches : bool then validate_arguments sg on_definition field rest directive_path directive_name
          else
            message ← lift (argument_ ← string_at sg argument_name; field_name ← string_at sg field.2;
              expected_type ← display (store sg) (tuple_type argument.2); directive_path ← directive_path;
              Ret ("Error in @" +:+ directive_name +:+ " on " +:+ directive_path +:+ ": the " +:+ field_name +:+ "."
                   +:+ argument_ +:+ " argument does not not match the expected type (" +:+ expected_type +:+ ")"));
            _ ← push_fatal message; mret false
      end
  end.
(** [FieldTypeWalker::definition] as a walker, with what the caller does when there is none. *)
Definition type_definition_or sg (none : res Def) (t : FieldTypeId) (subgraph : SubgraphId) : res Def :=
  o ← type_definition sg t subgraph;
  match o with Some id => walk_definition sg id | None => none end.
Definition foldU {A} (f : A → M unit) : list A → M unit :=
  fix go l := match l with [] => mret () | x :: l => _ ← f x; go l end.
Fixpoint validate_selection sg (directive_path : res string) (directive_name : string) (on_definition : Def)
    (selection : Selection) : M unit :=
  match selection with
  | SField field_name selection_arguments subselection =>
      match find_field sg on_definition.1 field_name with
      | None =>
          message ← lift (field ← string_at sg field_name; definition_name ← name_str sg on_definition;
            directive_path ← directive_path;
            Ret ("Error in @" +:+ directive_name +:+ " at " +:+ directive_path +:+ ": the " +:+ field
                 +:+ " field does not exist on " +:+ definition_name));
          push_fatal message
      | Some tuple =>
          let field := (on_definition.1, field_name) in
          _ ← validate_required_arguments sg field selection_arguments directive_path directive_name;
          continue ← validate_arguments sg on_definition field selection_arguments directive_path directive_name;
          if continue : bool then
            foldU (λ selection,
              type ← lift (type_definition_or sg (Panic "type is defined in subgraph") (tuple_type tuple)
                             (subgraph_id on_definition.2));
              validate_selection sg directive_path directive_name type selection) subselection
          else mret ()
      end
  | SInlineFragment on subselection =>
      match definition_by_name_id sg on (subgraph_id on_definition.2) with
      | None =>
          message ← lift (directive_path ← directive_path; on ← string_at sg on; parent ← name_str sg on_definition;
            Ret ("Error in " +:+ directive_name +:+ " at " +:+ directive_path +:+ ": type condition `... " +:+ on
                 +:+ "` is invalid on " +:+ parent));
          push_fatal message
      | Some on =>
          foldU (λ selection,
            on ← lift (walk_definition sg on);
            validate_selection sg directive_path directive_name on selection) subselection
      end
  end.
Definition validate_selections sg (field : Field) : M unit :=
  let site := tuple_directives field.2 in
  let requires := default [] (requires_ sg site) in
  let authorized := default [] (a ← authorized_ sg site; authorized_fields a) in
  let on_parent name (selections : list Selection) := each selections (λ selection,
    p ← lift (parent_definition sg field.1);
    validate_selection sg (field_path sg field.1) name p selection) in
  _ ← on_parent "requires" requires;
  _ ← on_parent "authorized" authorized;
  each (default [] (provides_ sg site)) (λ selection,
    p ← lift (parent_definition sg field.1);
    field_type ← lift (type_definition_or sg (Panic "called `Option::unwrap()` on a `None` value") (tuple_type field.2)
                         (subgraph_id p.2));
    validate_selection sg (field_path sg field.1) "provides" field_type selection).

(** ** [validate/input_selection.rs] *)
Definition validate_input_selections sg (field : Field) : M unit :=
  each (default [] (a ← authorized_ sg (tuple_directives field.2); authorized_arguments a)) (λ selection,
    match selection with
    | SField name _ _ =>
        match argument_by_name sg field.1 name with
        | Some _ => mret ()
        | None =>
            message ← lift (name ← string_at sg name; path ← field_path sg field.1;
              Ret ("Error in @authorized: the " +:+ name +:+ " argument does not exist on " +:+ path
                   +:+ ". Did you use the `arguments` argument instead of `fields`?"));
            push_fatal message
        end
    | SInlineFragment _ _ => lift (Panic "not yet implemented")
    end).

(** ** [validate.rs] *)
Definition validate_query_nonempty sg : M unit :=
  if forallb (λ query_type, bool_decide (fields sg query_type = [])) (omap query_type (subgraphs sg))
  then push_fatal "None of the subgraphs defines root query fields."
  else mret ().
Definition validate_override_labels sg (field : Field) : M unit :=
  match o ← override_ sg (tuple_directives field.2); override_label o with
  | None => mret ()
  | Some label =>
      label ← lift (string_at sg label);
      match label_from_str label with
      | inr _ => mret ()
      | inl err =>
          message ← lift (path ← field_path sg field.1;
            Ret ("Invalid @override label argument on " +:+ path +:+ ": " +:+ err));
          push_fatal message
      end
  end.
Definition validate_fields sg : M unit :=
  each (iter_all_fields sg) (λ field,
    _ ← validate_selections sg field;
    _ ← validate_override_labels sg field;
    validate_input_selections sg field).
Definition validate sg : M unit :=
  _ ← validate_subgraph_names sg;
  _ ← validate_query_nonempty sg;
  validate_fields sg.

(** ** [lib.rs]: [compose], up to the emission of the federated graph *)

(** The diagnostics and, without any, the intermediate representation. *)
Definition compose_ir sg : res (list string * option Ctx) :=
  if decide (subgraphs sg = []) then
    Ret (["No graphs found for composition build. You must have at least one active graph."], None)
  else
    c ← Context_new sg [];
    '(_, c) ← validate sg c;
    if decide (diagnostics c ≠ []) then Ret (diagnostics c, None)
    else
      '(_, c) ← compose_subgraphs sg c;
      Ret (diagnostics c, if decide (diagnostics c = []) then Some c else None).
End validate.
