(* ===== verification/ComposeInvariant.v ===== *)
(** * The invariant of the intermediate representation

    Every id that the tables of the composition context hold refers to an entry
    that exists, every range of ids lies in its table, and the map from names
    to definitions agrees with the tables. Composition is reasoned about with
    a judgement over the context: started in a well-formed context, a function
    returns, in a well-formed context that extends the first one. *)
From S2P Require Import Prelude RustStd CheckSchema IndexSet FieldTypes Subgraphs Ingest IngestRules Walkers ComposeContext ComposeDirectives ComposeTables Compose ComposeEntity IngestClaims.
Local Open Scope string_scope.
Local Open Scope list_scope.
Local Open Scope nat_scope.

Section invariant.
Context `{IndexSetLaws} (sg : Subgraphs).
Implicit Types c : Ctx.

(** ** Well-formed ids *)
Definition str_ok c (i : nat) : Prop := is_Some (get_index (ir_strings c) i).
Definition str_opt c (o : option nat) : Prop := ∀ i, o = Some i → str_ok c i.
Definition dirs_ok c (r : DirectiveRange) : Prop := r.1 + r.2 ≤ length (ir_directives c).
Definition values_ok c (r : InputValueDefinitions) : Prop := r.1 + r.2 ≤ length (input_value_definitions (ir_tables c)).
Definition type_at c (id : TypeDefinitionId) (kind : TypeDefinitionKind) (name : nat) : Prop :=
  ∃ td, ir_type_definitions c !! id = Some td ∧ td_kind td = kind ∧ td_name td = name.
Definition object_at c (id name : nat) : Prop :=
  ∃ o, objects (ir_tables c) !! id = Some o ∧ type_at c (object_type_definition_id o) TObject name.
Definition interface_at c (id name : nat) : Prop :=
  ∃ i, interfaces (ir_tables c) !! id = Some i ∧ type_at c (interface_type_definition_id i) TInterface name.
(** The definition [d] exists and is named [name]. *)
Definition defined_as c (name : nat) (d : FederatedDefinition) : Prop :=
  match d with
  | FScalar id => type_at c id TScalar name
  | FEnum id => type_at c id TEnum name
  | FObject id => object_at c id name
  | FInterface id => interface_at c id name
  | FUnion id => ∃ u, ir_unions (ir_tables c) !! id = Some u ∧ union_name u = name
  | FInputObject id => ∃ o, input_objects (ir_tables c) !! id = Some o ∧ io_name o = name
  end.
Definition fed_ok c (d : FederatedDefinition) : Prop := ∃ name, defined_as c name d.
(** The name [s] has a definition. *)
Definition composed_as c (s : string) : Prop :=
  ∃ i, get_index (ir_strings c) i = Some s ∧ is_Some (ir_definitions_by_name c !! i).
Definition field_exists (f : FieldId) : Prop := is_Some (definition_fields sg !! f).
Definition subgraph_exists (s : SubgraphId) : Prop := s < length (subgraphs sg).

(** An [@authorized] directive of the site. *)
Definition authorized_site (site : DirectiveSiteId) : Prop := site_exists sg site ∧ is_authorized sg site = true.
(** The directive is one of those that composition describes, and the strings of
    its arguments are interned in the subgraphs. *)
Definition sdirective_interned (s : SDirective) : Prop :=
  match s with SOther _ args => Forall (λ a, interned_all sg (value_strings a.2)) args | _ => True end.
Definition dir_ok c (d : Directive) : Prop := ∃ s, denotes (ir_strings c) d s ∧ sdirective_interned s.

(** ** Well-formed records *)
Definition td_ok c (td : TypeDefinitionRecord) : Prop :=
  str_ok c (td_name td) ∧ str_opt c (td_description td) ∧ dirs_ok c (td_directives td).
Definition ev_ok c (ev : EnumValueRecord) : Prop :=
  (∃ name, type_at c (ev_enum_id ev) TEnum name) ∧ str_ok c (ev_value ev) ∧ str_opt c (ev_description ev) ∧
  dirs_ok c (ev_composed_directives ev).
Definition union_ok c (u : UnionRecord) : Prop :=
  str_ok c (union_name u) ∧ str_opt c (union_description u) ∧ dirs_ok c (union_composed_directives u).
Definition io_ok c (o : InputObjectRecord) : Prop :=
  str_ok c (io_name o) ∧ str_opt c (io_description o) ∧ dirs_ok c (io_composed_directives o) ∧ values_ok c (io_fields o).
Definition ivd_ok c (v : InputValueDefinitionIr) : Prop :=
  str_ok c (ivd_name v) ∧ str_opt c (ivd_description v) ∧ dirs_ok c (ivd_directives v) ∧ typed sg (ivd_type v) ∧
  (∀ d, ivd_default v = Some d → interned_all sg (value_strings d)).
Definition ov_ok c (o : Override) : Prop :=
  subgraph_exists (override_graph o) ∧
  match override_ir_from o with FromSubgraph s => subgraph_exists s | Missing n => str_ok c n end.
Definition fi_ok c (f : FieldIr) : Prop :=
  fed_ok c (fi_parent_definition f) ∧ interned sg (fi_field_name f) ∧ typed sg (fi_field_type f) ∧
  values_ok c (fi_arguments f) ∧ dirs_ok c (fi_composed_directives f) ∧ str_opt c (fi_description f) ∧
  Forall subgraph_exists (fi_resolvable_in f) ∧ Forall field_exists (fi_provides f) ∧
  Forall field_exists (fi_requires f) ∧ Forall field_exists (fi_authorized_directives f) ∧
  Forall (ov_ok c) (fi_overrides f).
Definition key_ok c (k : KeyIr) : Prop := fed_ok c (key_parent k) ∧ key_id k < length (keys sg).

(** ** Well-formed contexts *)
Record ir_wf c : Prop := {
  w_directives : Forall (dir_ok c) (ir_directives c);
  w_names : ∀ n d, ir_definitions_by_name c !! n = Some d → defined_as c n d;
  w_types : Forall (td_ok c) (ir_type_definitions c);
  w_enum_values : Forall (ev_ok c) (ir_enum_values c);
  w_objects : ∀ id, id < length (objects (ir_tables c)) → ∃ n, object_at c id n;
  w_interfaces : ∀ id, id < length (interfaces (ir_tables c)) → ∃ n, interface_at c id n;
  w_unions : Forall (union_ok c) (ir_unions (ir_tables c));
  w_input_objects : Forall (io_ok c) (input_objects (ir_tables c));
  w_values : Forall (ivd_ok c) (input_value_definitions (ir_tables c));
  w_fields : Forall (fi_ok c) (ir_fields (ir_tables c));
  w_keys : Forall (key_ok c) (ir_keys (ir_tables c));
  w_members : ∀ u m, (u, m) ∈ union_members (ir_tables c) → str_ok c u ∧ str_ok c m;
  w_join_members : ∀ e l, union_join_members (ir_tables c) !! e = Some l →
    e ∈ union_members (ir_tables c) ∧ Forall subgraph_exists l;
  w_roots : ∀ id, root_query (ir_tables c) = Some id ∨ root_mutation (ir_tables c) = Some id ∨
    root_subscription (ir_tables c) = Some id → fed_ok c (FObject id);
  w_entity_fields : ∀ n f, (n, f) ∈ object_fields_from_entity_interfaces (ir_tables c) →
    str_ok c n ∧ f < length (ir_fields (ir_tables c));
  w_object_authorized : Forall (λ e, fed_ok c (FObject e.1) ∧ authorized_site e.2) (object_authorized_directives (ir_tables c));
  w_interface_authorized :
    Forall (λ e, fed_ok c (FInterface e.1) ∧ authorized_site e.2) (interface_authorized_directives (ir_tables c));
}.

(** ** Extension of contexts *)
Record ir_grows c c' : Prop := {
  gr_strings : extends (ir_strings c) (ir_strings c');
  gr_directives : ir_directives c `prefix_of` ir_directives c';
  gr_types : ir_type_definitions c `prefix_of` ir_type_definitions c';
  gr_names : ∀ n, is_Some (ir_definitions_by_name c !! n) → is_Some (ir_definitions_by_name c' !! n);
  gr_objects : objects (ir_tables c) `prefix_of` objects (ir_tables c');
  gr_interfaces : interfaces (ir_tables c) `prefix_of` interfaces (ir_tables c');
  gr_unions : ir_unions (ir_tables c) `prefix_of` ir_unions (ir_tables c');
  gr_input_objects : input_objects (ir_tables c) `prefix_of` input_objects (ir_tables c');
  gr_values : input_value_definitions (ir_tables c) `prefix_of` input_value_definitions (ir_tables c');
  gr_fields : ir_fields (ir_tables c) `prefix_of` ir_fields (ir_tables c');
  gr_query : is_Some (root_query (ir_tables c)) → is_Some (root_query (ir_tables c'));
  gr_diagnostics : diagnostics c `prefix_of` diagnostics c';
}.
Global Instance ir_grows_preorder : PreOrder ir_grows.
Proof.
  split.
  - intros c. by split.
  - intros a b d [] []. split; first [by etransitivity|auto].
Qed.

Section mono.
Context {c c' : Ctx} (G : ir_grows c c').

Lemma str_ok_mono i : str_ok c i → str_ok c' i.
Proof. intros [s Hs]. exists s. by apply G. Qed.
Lemma str_opt_mono o : str_opt c o → str_opt c' o.
Proof. intros Ho i Hi. by apply str_ok_mono, Ho. Qed.
Lemma dirs_ok_mono r : dirs_ok c r → dirs_ok c' r.
Proof. pose proof (prefix_length _ _ (gr_directives _ _ G)). unfold dirs_ok. lia. Qed.
Lemma values_ok_mono r : values_ok c r → values_ok c' r.
Proof. pose proof (prefix_length _ _ (gr_values _ _ G)). unfold values_ok. lia. Qed.
Lemma type_at_mono id k n : type_at c id k n → type_at c' id k n.
Proof.
  intros (td & Htd & ? & ?). exists td. split_and!; [|done|done]. eapply prefix_lookup_Some; [exact Htd|apply G].
Qed.
Lemma composed_as_mono s : composed_as c s → composed_as c' s.
Proof. intros (i & Hi & Hn). exists i. split; [by apply (gr_strings _ _ G)|by apply (gr_names _ _ G)]. Qed.
Lemma object_at_mono id n : object_at c id n → object_at c' id n.
Proof.
  intros (o & Ho & Ht). exists o. split; [|by apply type_at_mono]. eapply prefix_lookup_Some; [exact Ho|apply G].
Qed.
Lemma interface_at_mono id n : interface_at c id n → interface_at c' id n.
Proof.
  intros (o & Ho & Ht). exists o. split; [|by apply type_at_mono]. eapply prefix_lookup_Some; [exact Ho|apply G].
Qed.
Lemma defined_as_mono n d : defined_as c n d → defined_as c' n d.
Proof.
  destruct d; simpl; eauto using type_at_mono, object_at_mono, interface_at_mono.
  - intros (u & Hu & ?). exists u. split; [|done]. eapply prefix_lookup_Some; [exact Hu|apply G].
  - intros (u & Hu & ?). exists u. split; [|done]. eapply prefix_lookup_Some; [exact Hu|apply G].
Qed.
Lemma fed_ok_mono d : fed_ok c d → fed_ok c' d.
Proof. intros [n Hn]. exists n. by apply defined_as_mono. Qed.
Lemma td_ok_mono td : td_ok c td → td_ok c' td.
Proof. intros (? & ? & ?). split_and!; eauto using str_ok_mono, str_opt_mono, dirs_ok_mono. Qed.
Lemma ev_ok_mono ev : ev_ok c ev → ev_ok c' ev.
Proof.
  intros ((n & ?) & ? & ? & ?). split_and!; [exists n; by apply type_at_mono|..];
    eauto using str_ok_mono, str_opt_mono, dirs_ok_mono.
Qed.
Lemma union_ok_mono u : union_ok c u → union_ok c' u.
Proof. intros (? & ? & ?). split_and!; eauto using str_ok_mono, str_opt_mono, dirs_ok_mono. Qed.
Lemma io_ok_mono o : io_ok c o → io_ok c' o.
Proof. intros (? & ? & ? & ?). split_and!; eauto using str_ok_mono, str_opt_mono, dirs_ok_mono, values_ok_mono. Qed.
Lemma ivd_ok_mono v : ivd_ok c v → ivd_ok c' v.
Proof. intros (? & ? & ? & ? & ?). split_and!; eauto using str_ok_mono, str_opt_mono, dirs_ok_mono. Qed.
Lemma ov_ok_mono o : ov_ok c o → ov_ok c' o.
Proof. intros (? & Ho). split; [done|]. destruct (override_ir_from o); [done|by apply str_ok_mono]. Qed.
Lemma fi_ok_mono f : fi_ok c f → fi_ok c' f.
Proof.
  intros (? & ? & ? & ? & ? & ? & ? & ? & ? & ? & HF).
  split_and!; eauto using fed_ok_mono, values_ok_mono, str_opt_mono, dirs_ok_mono.
  eapply Forall_impl; [exact HF|]. intros o. apply ov_ok_mono.
Qed.
Lemma key_ok_mono k : key_ok c k → key_ok c' k.
Proof. intros [? ?]. split; [by apply fed_ok_mono|done]. Qed.
End mono.

(** The range of the input values a loop has inserted. *)
Definition range_ok c (o : option InputValueDefinitions) : Prop := ∀ r, o = Some r → values_ok c r.
Lemma range_ok_mono c c' o : ir_grows c c' → range_ok c o → range_ok c' o.
Proof. intros G Ho r Hr. by apply (values_ok_mono G), Ho. Qed.
Lemma range_ok_default c o : range_ok c o → values_ok c (default NO_INPUT_VALUE_DEFINITION o).
Proof. intros Ho. destruct o as [r|]; simpl; [by apply Ho|]. unfold values_ok. simpl. lia. Qed.
Lemma Forall_ov_mono c c' l : ir_grows c c' → Forall (ov_ok c) l → Forall (ov_ok c') l.
Proof. intros G HF. eapply Forall_impl; [exact HF|]. intros o. apply (ov_ok_mono G). Qed.

(** ** Preservation

    A context that extends a well-formed one is well-formed when the new
    entries of its tables are. *)
Definition appended {A} (P : A → Prop) (l l' : list A) : Prop := ∃ k, l' = l ++ k ∧ Forall P k.
Lemma appended_same {A} (P : A → Prop) l : appended P l l.
Proof. exists []. by rewrite app_nil_r. Qed.
Lemma appended_one {A} (P : A → Prop) l x : P x → appended P l (l ++ [x]).
Proof. intros Hx. exists [x]. split; [done|]. by constructor. Qed.
Lemma appended_Forall {A} (P P' : A → Prop) l l' :
  (∀ x, P x → P' x) → Forall P l → appended P' l l' → Forall P' l'.
Proof.
  intros HP HF (k & -> & Hk). apply Forall_app. split; [|done]. eapply Forall_impl; [exact HF|]. exact HP.
Qed.

Record new_ok c c' : Prop := {
  n_directives : appended (dir_ok c') (ir_directives c) (ir_directives c');
  n_names : ∀ n d, ir_definitions_by_name c' !! n = Some d → ir_definitions_by_name c !! n = Some d ∨ defined_as c' n d;
  n_types : appended (td_ok c') (ir_type_definitions c) (ir_type_definitions c');
  n_enum_values : appended (ev_ok c') (ir_enum_values c) (ir_enum_values c');
  n_objects : ∀ id, id < length (objects (ir_tables c')) → id < length (objects (ir_tables c)) ∨ ∃ n, object_at c' id n;
  n_interfaces : ∀ id, id < length (interfaces (ir_tables c')) →
    id < length (interfaces (ir_tables c)) ∨ ∃ n, interface_at c' id n;
  n_unions : appended (union_ok c') (ir_unions (ir_tables c)) (ir_unions (ir_tables c'));
  n_input_objects : appended (io_ok c') (input_objects (ir_tables c)) (input_objects (ir_tables c'));
  n_values : appended (ivd_ok c') (input_value_definitions (ir_tables c)) (input_value_definitions (ir_tables c'));
  n_fields : appended (fi_ok c') (ir_fields (ir_tables c)) (ir_fields (ir_tables c'));
  n_keys : appended (key_ok c') (ir_keys (ir_tables c)) (ir_keys (ir_tables c'));
  n_members : ∀ u m, (u, m) ∈ union_members (ir_tables c') →
    (u, m) ∈ union_members (ir_tables c) ∨ str_ok c' u ∧ str_ok c' m;
  n_members_kept : union_members (ir_tables c) ⊆ union_members (ir_tables c');
  n_join_members : ∀ e l, union_join_members (ir_tables c') !! e = Some l →
    union_join_members (ir_tables c) !! e = Some l ∨
    e ∈ union_members (ir_tables c') ∧
    ∃ s, l = default [] (union_join_members (ir_tables c) !! e) ++ [s] ∧ subgraph_exists s;
  n_roots : ∀ id, root_query (ir_tables c') = Some id ∨ root_mutation (ir_tables c') = Some id ∨
    root_subscription (ir_tables c') = Some id →
    (root_query (ir_tables c) = Some id ∨ root_mutation (ir_tables c) = Some id ∨ root_subscription (ir_tables c) = Some id) ∨
    fed_ok c' (FObject id);
  n_entity_fields : ∀ n f, (n, f) ∈ object_fields_from_entity_interfaces (ir_tables c') →
    (n, f) ∈ object_fields_from_entity_interfaces (ir_tables c) ∨ str_ok c' n ∧ f < length (ir_fields (ir_tables c'));
  n_object_authorized : appended (λ e, fed_ok c' (FObject e.1) ∧ authorized_site e.2)
    (object_authorized_directives (ir_tables c)) (object_authorized_directives (ir_tables c'));
  n_interface_authorized : appended (λ e, fed_ok c' (FInterface e.1) ∧ authorized_site e.2)
    (interface_authorized_directives (ir_tables c)) (interface_authorized_directives (ir_tables c'));
}.
Lemma ir_wf_extend c c' : ir_wf c → ir_grows c c' → new_ok c c' → ir_wf c'.
Proof.
  intros [W1 W2 W3 W4 W5 W6 W7 W8 W9 W10 W11 W12 W13 W14 W15 W16 W17] G
    [N1 N2 N3 N4 N5 N6 N7 N8 N9 N10 N11 N12 NK N13 N14 N15 N16 N17].
  pose proof (@fed_ok_mono c c' G) as Hfed. pose proof (@str_ok_mono c c' G) as Hstr. split.
  - eapply appended_Forall; [|exact W1|exact N1]. intros d (s & Hs & Hi). exists s. split; [|done]. eapply denotes_mono; [apply G|done].
  - intros n d [Hd|Hd]%N2; [|done]. by apply (defined_as_mono G), W2.
  - eapply appended_Forall; [|exact W3|exact N3]. apply (td_ok_mono G).
  - eapply appended_Forall; [|exact W4|exact N4]. apply (ev_ok_mono G).
  - intros id [Hid|Hid]%N5; [|done]. destruct (W5 id Hid) as [n ?]. exists n. by apply (object_at_mono G).
  - intros id [Hid|Hid]%N6; [|done]. destruct (W6 id Hid) as [n ?]. exists n. by apply (interface_at_mono G).
  - eapply appended_Forall; [|exact W7|exact N7]. apply (union_ok_mono G).
  - eapply appended_Forall; [|exact W8|exact N8]. apply (io_ok_mono G).
  - eapply appended_Forall; [|exact W9|exact N9]. apply (ivd_ok_mono G).
  - eapply appended_Forall; [|exact W10|exact N10]. apply (fi_ok_mono G).
  - eapply appended_Forall; [|exact W11|exact N11]. apply (key_ok_mono G).
  - intros u m [Hm|Hm]%N12; [|done]. destruct (W12 u m Hm). by split; apply Hstr.
  - intros e l [Hl|(Hin & s & -> & Hs)]%N13; [destruct (W13 e l Hl); split; [by apply NK|done]|].
    split; [done|]. apply Forall_app. split; [|by constructor].
    destruct (union_join_members (ir_tables c) !! e) as [l|] eqn:El; [by eapply W13|constructor].
  - intros id [Hid|Hid]%N14; [|done]. by apply Hfed, W14.
  - intros n f [Hf|Hf]%N15; [|done]. destruct (W15 n f Hf). split; [by apply Hstr|].
    pose proof (prefix_length _ _ (gr_fields _ _ G)). lia.
  - eapply appended_Forall; [|exact W16|exact N16]. intros e [? ?]. split; [by apply Hfed|done].
  - eapply appended_Forall; [|exact W17|exact N17]. intros e [? ?]. split; [by apply Hfed|done].
Qed.
End invariant.

(** Solves the parts of [new_ok] that an operation does not touch. *)
Ltac untouched :=
  split; simpl; first [done|apply appended_same|by left|by eauto|idtac].

(** Carries what is known of a context over to one that extends it. *)
Ltac carryc G :=
  cbn beta in *;
  repeat match goal with
  | Hi : str_ok ?c _ |- _ => match type of G with ir_grows c _ => apply (str_ok_mono G) in Hi end
  | Hi : str_opt ?c _ |- _ => match type of G with ir_grows c _ => apply (str_opt_mono G) in Hi end
  | Hi : dirs_ok ?c _ |- _ => match type of G with ir_grows c _ => apply (dirs_ok_mono G) in Hi end
  | Hi : values_ok ?c _ |- _ => match type of G with ir_grows c _ => apply (values_ok_mono G) in Hi end
  | Hi : range_ok ?c _ |- _ => match type of G with ir_grows c _ => apply (range_ok_mono _ _ _ G) in Hi end
  | Hi : type_at ?c _ _ _ |- _ => match type of G with ir_grows c _ => apply (type_at_mono G) in Hi end
  | Hi : composed_as ?c _ |- _ => match type of G with ir_grows c _ => apply (composed_as_mono G) in Hi end
  | Hi : object_at ?c _ _ |- _ => match type of G with ir_grows c _ => apply (object_at_mono G) in Hi end
  | Hi : interface_at ?c _ _ |- _ => match type of G with ir_grows c _ => apply (interface_at_mono G) in Hi end
  | Hi : fed_ok ?c _ |- _ => match type of G with ir_grows c _ => apply (fed_ok_mono G) in Hi end
  | Hi : Forall (ov_ok ?sg ?c) _ |- _ => match type of G with ir_grows c _ => apply (Forall_ov_mono sg _ _ _ G) in Hi end
  end.

(** ** Reading well-formed subgraphs

    On well-formed subgraphs the walkers do not panic, and the ids they return
    are well-formed. *)

(** [r] returns a value with [P]. *)
Definition returns {A} (r : res A) (P : A → Prop) : Prop := match r with Ret a => P a | Panic _ => False end.
Lemma returns_Ret {A} (r : res A) P : returns r P ↔ ∃ a, r = Ret a ∧ P a.
Proof. destruct r; simpl; naive_solver. Qed.
Lemma returns_ret {A} (a : A) (P : A → Prop) : P a → returns (Ret a) P.
Proof. done. Qed.
Lemma returns_bind {A B} (r : res A) (f : A → res B) P Q :
  returns r P → (∀ a, P a → returns (f a) Q) → returns (a ← r; f a) Q.
Proof. destruct r; simpl; auto. Qed.
Lemma returns_wand {A} (r : res A) (P Q : A → Prop) : returns r P → (∀ a, P a → Q a) → returns r Q.
Proof. destruct r; simpl; auto. Qed.
Lemma returns_any {A} (r : res A) (P : A → Prop) : returns r P → returns r (λ _, True).
Proof. intros Hr. by eapply returns_wand. Qed.
Lemma returns_mapM {A B} (f : A → res B) (P : A → B → Prop) l :
  (∀ x, x ∈ l → returns (f x) (P x)) → returns (mapM_res f l) (λ ys, Forall2 P l ys).
Proof.
  induction l as [|x l IH]; intros Hf; cbn [mapM_res]; [constructor|].
  eapply returns_bind; [apply Hf; by left|]. intros y Hy.
  eapply returns_bind; [apply IH; intros; apply Hf; by right|]. intros ys Hys. by constructor.
Qed.
Lemma returns_find {A} (f : A → res bool) l :
  (∀ x, x ∈ l → returns (f x) (λ _, True)) → returns (find_res f l) (λ o, ∀ x, o = Some x → x ∈ l).
Proof.
  induction l as [|x l IH]; intros Hf; cbn [find_res]; [by simpl|].
  eapply returns_bind; [apply Hf; by left|]. intros [] _; [intros y [= <-]; by left|].
  eapply returns_wand; [apply IH; intros; apply Hf; by right|]. intros o Ho y Hy. right. by apply Ho.
Qed.
Lemma returns_any_res {A} (f : A → res bool) l :
  (∀ x, x ∈ l → returns (f x) (λ _, True)) → returns (any_res f l) (λ _, True).
Proof.
  induction l as [|x l IH]; intros Hf; cbn [any_res]; [done|].
  eapply returns_bind; [apply Hf; by left|]. intros [] _; [done|]. apply IH. intros; apply Hf; by right.
Qed.

Section reads.
Context `{IndexSetLaws} (sg : Subgraphs) (Hsg : wf sg).

(** ** Well-formed walkers *)
Definition def_ok (d : Def) : Prop := definitions sg !! d.1 = Some d.2.
Definition field_ok (f : Field) : Prop := definition_fields sg !! f.1 = Some f.2.
Definition argument_ok (a : Argument) : Prop := field_arguments sg !! a.1 = Some a.2.

Lemma reads_string id : interned sg id → returns (string_at sg id) (λ _, True).
Proof. intros [s Hs]. unfold string_at, resolve. by rewrite Hs. Qed.
Lemma reads_definition id : defined sg id → returns (definition sg id) (λ d, def_ok (id, d)).
Proof. intros [d Hd]%lookup_lt_is_Some. unfold definition. by rewrite Hd. Qed.
Lemma reads_walk id : defined sg id → returns (walk_definition sg id) (λ d, d.1 = id ∧ def_ok d).
Proof. intros Hid. eapply returns_bind; [by apply reads_definition|]. by intros d Hd. Qed.
Lemma def_parts d : def_ok d →
  defined sg d.1 ∧ interned sg (definition_name d.2) ∧ interned_opt sg (definition_description d.2) ∧
  site_exists sg (definition_directives d.2) ∧ subgraph_id d.2 < length (subgraphs sg).
Proof.
  intros Hd. destruct (def_ids _ (wf_definitions _ Hsg) _ _ Hd) as (? & ? & ? & ? & _).
  split_and!; [by eapply lookup_lt_Some|done..].
Qed.
Lemma reads_name d : def_ok d → returns (name_str sg d) (λ _, True).
Proof. intros (_ & ? & _)%def_parts. by apply reads_string. Qed.
Lemma subgraph_at s : s < length (subgraphs sg) → ∃ x, subgraphs sg !! s = Some x ∧ interned sg (subgraph_name_id x).
Proof.
  intros [x Hx]%lookup_lt_is_Some. exists x. split; [done|].
  by destruct (link_subgraphs _ (wf_links _ Hsg) x) as (? & _); [eapply list_elem_of_lookup_2|].
Qed.
Lemma reads_subgraph_name d : def_ok d → returns (def_subgraph_name sg d) (λ _, True).
Proof.
  intros (_ & _ & _ & _ & Hs)%def_parts. unfold def_subgraph_name, subgraph_name_of.
  destruct (subgraph_at _ Hs) as (x & -> & ?). simpl. by apply reads_string.
Qed.

(** ** Fields and arguments *)
Lemma field_parts f : field_ok f →
  defined sg f.1.1 ∧ interned sg f.1.2 ∧ typed sg (tuple_type f.2) ∧ interned_opt sg (tuple_description f.2) ∧
  site_exists sg (tuple_directives f.2).
Proof.
  destruct f as [[p n] t]. intros Hf. by destruct (body_fields _ (wf_bodies _ Hsg) _ _ _ Hf) as (? & ? & ? & ? & ?).
Qed.
Lemma argument_parts a : argument_ok a →
  (∃ t, field_ok (a.1.1, t)) ∧ interned sg a.1.2 ∧ typed sg (tuple_type a.2) ∧ site_exists sg (tuple_directives a.2).
Proof.
  destruct a as [[f n] t]. intros Ha.
  destruct (body_arguments _ (wf_bodies _ Hsg) _ _ _ Ha) as ((t' & ?) & ? & ? & ? & ?). split_and!; [by exists t'|done..].
Qed.
Lemma elem_of_fields id f : f ∈ fields sg id → field_ok f ∧ f.1.1 = id.
Proof.
  intros [Hr Hin]%list_elem_of_filter. destruct f as [[p n] t]. apply elem_of_btree_map_iter in Hin. split; [done|].
  unfold in_range in Hr. simpl in *. by apply andb_true_iff in Hr as [->%Nat.eqb_eq _].
Qed.
Lemma elem_of_arguments f a : a ∈ arguments sg f → argument_ok a ∧ a.1.1 = f.
Proof.
  intros [Hr Hin]%list_elem_of_filter. destruct a as [[p n] t]. apply elem_of_btree_map_iter in Hin. split; [done|].
  unfold argument_in_range in Hr. simpl in *. by apply andb_true_iff in Hr as [->%bool_decide_eq_true _].
Qed.
Lemma reads_parent f : field_ok f → returns (parent_definition sg f.1) (λ d, d.1 = f.1.1 ∧ def_ok d).
Proof. intros (? & _)%field_parts. by apply reads_walk. Qed.
Lemma reads_field_subgraph f : field_ok f → returns (field_subgraph_name sg f.1) (λ _, True).
Proof.
  intros Hf. eapply returns_bind; [by apply reads_parent|]. intros d [_ Hd]. by apply reads_subgraph_name.
Qed.
Lemma reads_field_path f : field_ok f → returns (field_path sg f.1) (λ _, True).
Proof.
  intros Hf. pose proof (field_parts _ Hf) as (_ & ? & _).
  eapply returns_bind; [by apply reads_parent|]. intros d [_ Hd].
  eapply returns_bind; [by apply reads_name|]. intros p _. eapply returns_bind; [by apply reads_string|]. done.
Qed.
Lemma reads_argument_parent a : argument_ok a → returns (argument_parent sg a.1) (λ d, def_ok d).
Proof.
  intros Ha. pose proof (argument_parts _ Ha) as ((t & Hf) & _). unfold argument_parent, walk_field.
  unfold field_ok in Hf. simpl in Hf. rewrite Hf. simpl.
  eapply returns_wand; [apply (reads_parent (a.1.1, t)); done|]. naive_solver.
Qed.
Lemma reads_argument_subgraph a : argument_ok a → returns (argument_subgraph_name sg a.1) (λ _, True).
Proof.
  intros Ha. eapply returns_bind; [by apply reads_argument_parent|]. intros d Hd. by apply reads_subgraph_name.
Qed.
Lemma reads_field_walker f : field_ok f → returns (field_walker sg f) (λ w, typed sg (field_type w) ∧ field_type w = tuple_type f.2).
Proof.
  intros Hf. pose proof (field_parts _ Hf) as (_ & ? & ? & _). unfold field_walker.
  eapply returns_bind; [by apply reads_parent|]. intros d [_ Hd].
  eapply returns_bind; [by apply reads_name|]. intros p _. eapply returns_bind; [by apply reads_string|]. intros n _.
  eapply returns_bind; [by apply reads_subgraph_name|]. intros s _. by split.
Qed.
Lemma reads_argument_walker a : argument_ok a →
  returns (argument_walker sg a) (λ w, typed sg (field_type (argument_field w))).
Proof.
  intros Ha. pose proof (argument_parts _ Ha) as ((t & Hf) & ? & ? & _). pose proof (field_parts _ Hf) as (_ & ? & _).
  unfold argument_walker. eapply returns_bind; [by apply reads_argument_parent|]. intros d Hd.
  eapply returns_bind; [by apply reads_name|]. intros p _. eapply returns_bind; [by apply reads_string|]. intros n _.
  eapply returns_bind; [by apply reads_string|]. intros m _.
  eapply returns_bind; [by apply reads_subgraph_name|]. intros s _. done.
Qed.

(** ** Types *)
Lemma reads_inner t : typed sg t → returns (inner (store sg) t) (λ _, True).
Proof. intros (ty & i & Hi & _). unfold inner. by rewrite Hi. Qed.
Lemma reads_is_required t : typed sg t → returns (is_required (store sg) t) (λ _, True).
Proof. intros Ht. by eapply returns_bind; [by apply reads_inner|]. Qed.
Lemma reads_is_list t : typed sg t → returns (is_list (store sg) t) (λ _, True).
Proof. intros Ht. by eapply returns_bind; [by apply reads_inner|]. Qed.
Lemma reads_display t : typed sg t → returns (display (store sg) t) (λ _, True).
Proof. intros (ty & Hty). by rewrite (represents_display (store sg) (wf_store _ Hsg) t ty Hty). Qed.
Lemma reads_type_name t : typed sg t → returns (type_name (store sg) t) (λ _, True).
Proof. intros (ty & i & Hi & Hn & _). unfold type_name, inner. rewrite Hi. simpl. unfold resolve. by rewrite Hn. Qed.
Lemma reads_type_definition t s :
  typed sg t → returns (type_definition sg t s) (λ o, ∀ id, o = Some id → defined sg id).
Proof.
  intros Ht. eapply returns_bind; [by apply reads_inner|]. intros i _ id Hid.
  destruct (def_names _ (wf_definitions _ Hsg) _ _ _ Hid) as (d & Hd & _). by eapply lookup_lt_Some.
Qed.
Lemma reads_compose_type out a b :
  typed sg a → typed sg b →
  returns (compose_fn (store sg) out a b) (λ o, ∀ t, o = Some t → typed sg t).
Proof.
  intros Ha Hb. assert (returns (compose (store sg) a b) (λ _, True)) as Hc.
  { unfold compose. case_decide; [done|]. eapply returns_bind; [by apply reads_inner|]. intros ia _.
    eapply returns_bind; [by apply reads_inner|]. intros ib _. case_decide; [done|].
    destruct (iter_wrappers (store sg) ia), (iter_wrappers (store sg) ib); try done;
      (eapply returns_bind; [by apply reads_is_required|done]). }
  unfold compose_fn. destruct out; (eapply returns_bind; [exact Hc|]); intros [[]|] _; simpl; by intros t [= <-].
Qed.
Lemma reads_fold_types out l t :
  typed sg t → Forall (λ w, typed sg (field_type w)) l →
  returns (fold_types (compose_fn (store sg) out) t l)
    (λ r, match r with inl t => typed sg t | inr w => w ∈ l end).
Proof.
  intros Ht. induction l as [|w l IH] in t, Ht |- *; intros HF; cbn [fold_types]; [done|].
  apply Forall_cons in HF as [Hw HF]. eapply returns_bind; [by apply reads_compose_type|].
  intros [t'|] Ht'; [|by left]. eapply returns_wand; [by apply IH; [apply Ht'|]|]. intros [?|?] ?; [done|by right].
Qed.
Definition composed_ok (r : option FieldTypeId * list string) : Prop := ∀ t, r.1 = Some t → typed sg t.
Lemma reads_compose_field_types out l :
  Forall (λ w, typed sg (field_type w)) l →
  returns (compose_field_types (store sg) (compose_fn (store sg) out) l) composed_ok.
Proof.
  intros HF. destruct l as [|w l]; [by intros t|]. apply Forall_cons in HF as [Hw HF].
  eapply returns_bind; [by apply reads_fold_types|]. intros [t|w'] Ht; [by intros t' [= <-]|].
  rewrite Forall_forall in HF. unfold conflict_message.
  eapply (returns_bind _ _ (λ _, True)); [|intros m _; by intros t]. eapply returns_bind; [by apply reads_display|]. intros a _.
  eapply returns_bind; [apply reads_display; by apply HF|]. done.
Qed.
Lemma reads_compose_argument_types parent field l :
  Forall (λ w, typed sg (field_type (argument_field w))) l →
  returns (compose_argument_types (store sg) parent field l) composed_ok.
Proof.
  intros HF. destruct l as [|w l]; [by intros t|]. apply Forall_cons in HF as [Hw HF].
  eapply returns_bind; [apply (reads_fold_types false); [done|by apply Forall_fmap]|]. intros [t|w'] Ht; [by intros t' [= <-]|].
  apply list_elem_of_fmap in Ht as (a & -> & Ha). rewrite Forall_forall in HF. unfold argument_conflict_message.
  eapply (returns_bind _ _ (λ _, True)); [|intros m _; by intros t]. eapply returns_bind; [by apply reads_display|]. intros b _.
  eapply returns_bind; [apply reads_display; exact (HF a Ha)|]. done.
Qed.

(** ** Keys *)
Lemma elem_of_entity_key_ids id k : k ∈ entity_key_ids sg id → k < length (keys sg).
Proof.
  intros Hk. apply (key_range_indices (λ e : DefinitionId * Key, e.1)) in Hk;
    [|apply StronglySorted_le_by, (link_keys_sorted _ (wf_links _ Hsg))].
  apply fmap_Some in Hk as (e & He & _). by eapply lookup_lt_Some.
Qed.
Lemma reads_key k : k < length (keys sg) → returns (key_at sg k) (λ _, True).
Proof. intros [e He]%lookup_lt_is_Some. unfold key_at. by rewrite He. Qed.
Lemma reads_type_is_inaccessible t s : typed sg t → returns (type_is_inaccessible sg t s) (λ _, True).
Proof.
  intros Ht. eapply returns_bind; [by apply reads_type_definition|]. intros [id|] Hid; [|done].
  eapply returns_bind; [by apply reads_definition, Hid|]. done.
Qed.
Lemma reads_find_description l :
  Forall def_ok l → returns (find_description sg l) (λ _, True).
Proof.
  intros HF. unfold find_description. destruct (head _) as [d|] eqn:E; [|done].
  apply head_Some_elem_of, list_elem_of_omap in E as (x & Hx & Hd).
  rewrite Forall_forall in HF. apply HF in Hx. apply def_parts in Hx as (_ & _ & Ho & _).
  eapply returns_bind; [apply reads_string; by apply Ho|]. done.
Qed.
End reads.

Create HintDb reads.
#[export] Hint Resolve reads_string reads_name reads_subgraph_name reads_field_subgraph reads_field_path
  reads_argument_subgraph reads_display reads_find_description : reads.
#[export] Hint Resolve reads_definition reads_walk reads_parent reads_argument_parent : reads.
(** Proves that a message can be built: a sequence of reads of well-formed ids. *)
Ltac solve_reads :=
  repeat (eapply returns_bind; [by eauto with reads|intros ? ?; cbn beta in *]);
  first [done|by eapply returns_any; eauto with reads].
