(* ===== verification/ComposeRules.v ===== *)
(** * Rules for the operations of the composition context

    The judgement [ok]: the function returns a context that is well-formed and
    extends the first one, or panics under the condition [E]. One rule per
    operation of the context. *)
From S2P Require Import Prelude RustStd CheckSchema IndexSet FieldTypes Subgraphs Ingest IngestRules IngestClaims Walkers ComposeContext ComposeDirectives ComposeTables Compose ComposeEntity ComposeInvariant.
Local Open Scope string_scope.
Local Open Scope list_scope.
Local Open Scope nat_scope.

Section rules.
Context `{IndexSetLaws} (sg : Subgraphs) (Hsg : wf sg) (E : Prop).
Implicit Types c : Ctx.

Definition ok {A} c (r : res (A * Ctx)) (Q : A → Ctx → Prop) : Prop :=
  match r with
  | Ret (a, c') => ir_wf sg c' ∧ ir_grows c c' ∧ Q a c'
  | Panic _ => E
  end.

(** ** Control *)
Lemma ok_ret {A} c (a : A) (Q : A → Ctx → Prop) : ir_wf sg c → Q a c → ok c (mret (M := M) a c) Q.
Proof. intros ? ?. by split_and!. Qed.
Lemma ok_bind {A B} c (m : M A) (f : A → M B) Q Q' :
  ok c (m c) Q → (∀ a c', ir_wf sg c' → ir_grows c c' → Q a c' → ok c' (f a c') Q') → ok c ((a ← m; f a) c) Q'.
Proof.
  intros Hm Hf. unfold mbind, M_bind. destruct (m c) as [[a c1]|]; [|done]. destruct Hm as (Hwf & HG & HQ). simpl.
  specialize (Hf a c1 Hwf HG HQ). destruct (f a c1) as [[b c2]|]; [|done].
  destruct Hf as (? & ? & ?). split_and!; [done|by etransitivity|done].
Qed.
Lemma ok_read {A B} c (r : res A) (f : A → M B) (P : A → Prop) Q :
  returns r P → (∀ a, P a → ok c (f a c) Q) → ok c ((a ← lift r; f a) c) Q.
Proof. intros (a & -> & Ha)%returns_Ret Hf. by apply Hf. Qed.
Lemma ok_wand {A} c (r : res (A * Ctx)) (Q Q' : A → Ctx → Prop) :
  ok c r Q → (∀ a c', ir_grows c c' → Q a c' → Q' a c') → ok c r Q'.
Proof. intros Hr HQ. destruct r as [[a c']|]; [|done]. destruct Hr as (? & ? & ?). split_and!; auto. Qed.
Lemma ok_if (b : bool) (m : M unit) c :
  ir_wf sg c → ok c (m c) (λ _ _, True) → ok c ((if b then m else mret ()) c) (λ _ _, True).
Proof. intros Hwf Hm. destruct b; [done|by apply ok_ret]. Qed.
(** A sequence whose first part returns nothing. *)
Lemma ok_then {A} c (m : M unit) (k : M A) Q :
  ok c (m c) (λ _ _, True) → (∀ c', ir_wf sg c' → ir_grows c c' → ok c' (k c') Q) → ok c ((_ ← m; k) c) Q.
Proof. intros Hm Hk. eapply ok_bind; [exact Hm|]. intros [] c' ? ? _. by apply Hk. Qed.
Lemma ok_foldM {A B} (Q : B → Ctx → Prop) (f : B → A → M B) l b c :
  (∀ b x c, x ∈ l → ir_wf sg c → Q b c → ok c (f b x c) Q) →
  ir_wf sg c → Q b c → ok c (foldM f b l c) Q.
Proof.
  induction l as [|x l IH] in b, c |- *; intros Hf Hwf HQ; cbn [foldM]; [by apply ok_ret|].
  eapply ok_bind; [apply Hf; [by left|done|done]|]. intros b' c' Hwf' _ HQ'.
  apply IH; [|done|done]. intros ? y ? Hy. apply Hf. by right.
Qed.
(** A loop whose body needs something that survives extension. *)
Lemma ok_each {A} (P : Ctx → Prop) (l : list A) (f : A → M unit) c :
  (∀ c c', ir_grows c c' → P c → P c') →
  (∀ x c, x ∈ l → ir_wf sg c → P c → ok c (f x c) (λ _ _, True)) →
  ir_wf sg c → P c → ok c (each l f c) (λ _ _, True).
Proof.
  intros HP Hf Hwf Hc. eapply ok_wand; [|done].
  apply (ok_foldM (λ _, P)); [|done|done]. intros [] x c0 Hx Hwf0 HP0.
  eapply ok_wand; [by apply Hf|]. intros _ c' HG _. by eapply HP.
Qed.
Lemma ok_each_simple {A} (l : list A) (f : A → M unit) c :
  (∀ x c, x ∈ l → ir_wf sg c → ok c (f x c) (λ _ _, True)) → ir_wf sg c → ok c (each l f c) (λ _ _, True).
Proof. intros Hf Hwf. apply (ok_each (λ _, True)); auto. Qed.

(** A loop that establishes something for each element. *)
Lemma ok_each_all {A} (P : A → Ctx → Prop) (l : list A) (f : A → M unit) c :
  (∀ x c c', ir_grows c c' → P x c → P x c') →
  (∀ x c, x ∈ l → ir_wf sg c → ok c (f x c) (λ _ c', P x c')) →
  ir_wf sg c → ok c (each l f c) (λ _ c', ∀ x, x ∈ l → P x c').
Proof.
  intros HP. unfold each. induction l as [|x l IH] in c |- *; intros Hf Hwf; cbn [foldM].
  { apply ok_ret; [done|]. by intros x ?%elem_of_nil. }
  eapply ok_bind; [apply Hf; [by left|done]|]. intros u c1 Hwf1 _ Hx. destruct u. cbn beta in Hx.
  eapply ok_wand; [apply IH; [|done]; intros y c2 Hy; apply Hf; by right|]. intros [] c2 G Hl y [->|Hy]%elem_of_cons.
  - by eapply HP.
  - by apply Hl.
Qed.

(** ** An operation that extends the context *)
Lemma ok_step {A} c c' (a : A) (Q : A → Ctx → Prop) :
  ir_wf sg c → ir_grows c c' → new_ok sg c c' → Q a c' → ok c (Ret (a, c')) Q.
Proof. intros Hwf HG HN HQ. split_and!; [by eapply ir_wf_extend|done|done]. Qed.
Ltac grows := split; simpl; first [done|by apply prefix_app_r|by intros _; eexists|intros ? ?; rewrite lookup_insert_is_Some'; by right].

Lemma ok_push_fatal c msg : ir_wf sg c → ok c (push_fatal msg c) (λ _ _, True).
Proof. intros Hwf. apply ok_step; [done|grows|untouched|done]. Qed.
(** Reporting an error. *)
Definition failed c : Prop := diagnostics c ≠ [].
Lemma ok_fail c (r : res string) :
  ir_wf sg c → returns r (λ _, True) → ok c ((m ← lift r; push_fatal m) c) (λ _ c', failed c').
Proof.
  intros Hwf Hr. eapply ok_read; [exact Hr|]. intros m _. apply ok_step; [done|grows|untouched|].
  unfold failed. simpl. by destruct (diagnostics c).
Qed.
Lemma ok_intern c s : ir_wf sg c → ok c (insert_static_str s c) (λ i c', get_index (ir_strings c') i = Some s).
Proof.
  intros Hwf. destruct (insert_static_str_interns s c) as (i & c' & -> & (X & T & N & V & U) & D & Hi).
  injection U as EQ ED. apply ok_step; [done| | |exact Hi].
  - split; rewrite ?EQ, ?D, ?T, ?N, ?ED; try done.
  - split; rewrite ?EQ, ?D, ?T, ?V, ?N; first [apply appended_same|done|by left].
Qed.
Lemma ok_insert_static_str c s : ir_wf sg c → ok c (insert_static_str s c) (λ i c', str_ok c' i).
Proof. intros Hwf. eapply ok_wand; [by apply ok_intern|]. intros i c' _ Hi. by exists s. Qed.
Lemma ok_read_message c (r : res string) :
  ir_wf sg c → returns r (λ _, True) → ok c ((m ← lift r; push_fatal m) c) (λ _ _, True).
Proof. intros Hwf Hr. eapply ok_read; [exact Hr|]. intros m _. by apply ok_push_fatal. Qed.
Lemma ok_insert_string c id : ir_wf sg c → interned sg id → ok c (insert_string sg id c) (λ i c', str_ok c' i).
Proof. intros Hwf Hid. eapply ok_read; [by apply reads_string|]. intros s _. by apply ok_insert_static_str. Qed.
(** The name of a definition that is about to be inserted. *)
Lemma ok_insert_name c d :
  ir_wf sg c → def_ok sg d →
  ok c (insert_string sg (definition_name d.2) c)
    (λ i c', str_ok c' i ∧ get_index (ir_strings c') i = Some (str sg (definition_name d.2))).
Proof.
  intros Hwf Hd. destruct (def_parts sg Hsg d Hd) as (_ & Hn & _). unfold insert_string. rewrite (string_at_str sg _ Hn).
  eapply ok_wand; [by apply ok_intern|]. intros i c' _ Hi. split; [by exists (str sg (definition_name d.2))|exact Hi].
Qed.
Lemma ok_insert_optional_str c o : ir_wf sg c → ok c (insert_optional_str o c) (λ i c', str_opt c' i).
Proof.
  intros Hwf. destruct o as [s|]; cbn [insert_optional_str]; [|by apply ok_ret].
  eapply ok_bind; [by apply ok_insert_static_str|]. intros i c' Hwf' _ Hi. apply ok_ret; [done|]. by intros ? [= <-].
Qed.
Lemma ok_insert_string_option c o :
  ir_wf sg c → interned_opt sg o → ok c (insert_string_option sg o c) (λ i c', str_opt c' i).
Proof.
  intros Hwf Ho. destruct o as [s|]; cbn [insert_string_option]; [|by apply ok_ret].
  eapply ok_bind; [apply ok_insert_string; [done|by apply Ho]|]. intros i c' Hwf' _ Hi.
  apply ok_ret; [done|]. by intros ? [= <-].
Qed.
(** The strings of tags and of the arguments of composed directives. *)
Lemma elem_of_dedup_by {A} (eq : A → A → bool) x l : x ∈ dedup_by eq l → x ∈ l.
Proof.
  destruct l as [|y l]; [done|]. simpl. rewrite !elem_of_cons. intros [->|Hx]; [by left|right].
  revert y Hx. induction l as [|z l IH]; intros y; simpl; [done|]. rewrite elem_of_cons.
  destruct (eq z y); [intros Hx; right; by eapply IH|]. rewrite elem_of_cons. intros [->|Hx]; [by left|right; by eapply IH].
Qed.
Lemma wf_site_tag site t : t ∈ tags sg site → interned sg t.
Proof.
  unfold tags. intros ([s t'] & -> & [_ Hin]%list_elem_of_filter)%list_elem_of_fmap.
  apply elem_of_btree_set_iter in Hin. by apply (dir_tags _ _ (wf_directives _ Hsg) s).
Qed.
Lemma wf_site_arguments site e : e ∈ iter_composed_directives sg site → interned_all sg (arguments_strings e.2).
Proof.
  intros ([[s n] a] & -> & Hin%elem_of_take_while)%list_elem_of_fmap. simpl.
  apply (dir_instances _ _ (wf_directives _ Hsg) s n).
  eapply elem_of_subseteq; [|exact Hin]. apply subseteq_drop.
Qed.
Lemma arguments_interned (a : Arguments_) :
  interned_all sg (arguments_strings a) → Forall (λ e, interned_all sg (value_strings e.2)) a.
Proof.
  unfold interned_all, arguments_strings. induction a as [|[n v] a IH]; simpl; [done|].
  intros [_ [Hv Ha]%Forall_app]%Forall_cons. constructor; [done|by apply IH].
Qed.
Lemma composed_interned (sites : list DirectiveSiteId) scopes pols s :
  s ∈ (match head (omap (deprecated sg) sites) with Some reason => [SDeprecated (str sg <$> reason)] | None => [] end
       ++ (if existsb (inaccessible sg) sites then [SInaccessible] else [])
       ++ (if existsb (authenticated sg) sites then [SAuthenticated] else [])
       ++ (if decide (scopes = []) then [] else [SRequiresScopes scopes])
       ++ (if decide (pols = []) then [] else [SPolicy pols])
       ++ (tag_of <$> btree_set_iter (list_to_set (concat (tags sg <$> sites)) : gset StringId))
       ++ dedup_by sdirective_eqb (other_of sg <$> concat (iter_composed_directives sg <$> sites))) →
  sdirective_interned sg s.
Proof.
  rewrite !elem_of_app. intros [Hs|[Hs|[Hs|[Hs|[Hs|[Hs|Hs]]]]]].
  1-5: by repeat case_match; set_solver.
  - apply list_elem_of_fmap in Hs as (t & -> & Ht). simpl. constructor; [|done]. simpl. constructor; [|done].
    rewrite elem_of_btree_set_iter, elem_of_list_to_set in Ht.
    apply elem_of_concat_map in Ht as (site & _ & Ht). by apply (wf_site_tag site).
  - apply elem_of_dedup_by, list_elem_of_fmap in Hs as (e & -> & He). simpl. apply Forall_fmap.
    apply elem_of_concat_map in He as (site & _ & He). by apply arguments_interned, (wf_site_arguments site e).
Qed.
Lemma ok_collect c sites : ir_wf sg c → ok c (collect_composed_directives sg sites c) (λ r c', dirs_ok c' r).
Proof.
  intros Hwf. destruct (collect_composed_directives_returns sg sites c)
    as (r & c' & ds & -> & (X & T & N & V & U) & D & -> & HC).
  { apply Forall_forall. intros site _. by apply wf_site_ok. }
  injection U as EQ ED. apply ok_step; [done| | |].
  - split; rewrite ?EQ, ?D, ?T, ?N, ?ED; try done. by apply prefix_app_r.
  - split; rewrite ?EQ, ?T, ?V, ?N; first [apply appended_same|done|by left|idtac].
    exists ds. split; [done|]. destruct HC as (scopes & pols & _ & _ & HF).
    apply Forall_forall. intros d [i Hd]%list_elem_of_lookup.
    eapply Forall2_lookup_l in HF as (s & Hs & Hds); [|exact Hd]. exists s. split; [exact Hds|].
    by eapply composed_interned, list_elem_of_lookup_2.
  - unfold dirs_ok. rewrite D, length_app. case_decide; simpl; lia.
Qed.

(** ** The tables *)
Lemma ok_push_type_definition c td :
  ir_wf sg c → td_ok c td →
  ok c (push_type_definition td c) (λ id c', type_at c' id (td_kind td) (td_name td)).
Proof.
  intros Hwf Htd. unfold push_type_definition. match goal with |- ok _ (Ret (_, ?c')) _ => assert (ir_grows c c') as G by grows end.
  apply ok_step; [done|done| |].
  - untouched. apply appended_one. by apply (td_ok_mono G).
  - exists td. split_and!; [|done|done]. simpl. by apply list_lookup_middle.
Qed.
Lemma ok_name_definition c n d :
  ir_wf sg c → defined_as c n d → ok c (name_definition n d c) (λ _ c', is_Some (ir_definitions_by_name c' !! n)).
Proof.
  intros Hwf Hd. unfold name_definition. match goal with |- ok _ (Ret (_, ?c')) _ => assert (ir_grows c c') as G by grows end.
  apply ok_step; [done|done| |simpl; rewrite lookup_insert_is_Some'; by left]. untouched. intros m d'. rewrite lookup_insert_Some.
  intros [[<- <-]|[_ Hm]]; [right; by apply (defined_as_mono G)|by left].
Qed.
Lemma ok_insert_field c ir :
  ir_wf sg c → fi_ok sg c ir → ok c (insert_field ir c) (λ id c', id < length (ir_fields (ir_tables c'))).
Proof.
  intros Hwf Hir. unfold insert_field, on_tables.
  match goal with |- ok _ (Ret (_, ?c')) _ => assert (ir_grows c c') as G by grows end.
  apply ok_step; [done|done| |simpl; rewrite length_app; simpl; lia].
  untouched.
  - apply appended_one. by apply (fi_ok_mono _ G).
Qed.
Lemma ok_insert_value c ids v :
  ir_wf sg c → ivd_ok sg c v → range_ok c ids →
  ok c ((id ← insert_input_value_definition v; mret (extend_range ids id)) c) (λ ids c', range_ok c' ids).
Proof.
  intros Hwf Hv Hids. cbv [insert_input_value_definition on_tables mbind M_bind res_bind mret M_ret].
  match goal with |- ok _ (Ret (_, ?c')) _ => assert (ir_grows c c') as G by grows end.
  apply ok_step; [done|done| |].
  - untouched. apply appended_one. by apply (ivd_ok_mono _ G).
  - intros r. unfold extend_range, values_ok. simpl. rewrite length_app. simpl.
    destruct ids as [[st len]|]; intros [= <-]; simpl; [|lia].
    specialize (Hids _ eq_refl). unfold values_ok in Hids. simpl in Hids. lia.
Qed.
Lemma ok_on_tables_unit c (f : Tables → Tables) :
  ir_wf sg c →
  (∀ c', c' = MkCtx (ir_strings c) (ir_directives c) (ir_type_definitions c) (ir_definitions_by_name c)
                (ir_enum_values c) (f (ir_tables c)) (diagnostics c) →
    ir_grows c c' ∧ (ir_grows c c' → new_ok sg c c')) →
  ok c (update_tables f c) (λ _ _, True).
Proof. intros Hwf Hf. destruct (Hf _ eq_refl) as [G N]. unfold update_tables, on_tables. apply ok_step; auto. Qed.

Lemma ok_insert_object c name description dirs :
  ir_wf sg c → str_ok c name → dirs_ok c dirs →
  ok c (insert_object name description dirs c) (λ id c', object_at c' id name ∧ is_Some (ir_definitions_by_name c' !! name)).
Proof.
  intros Hwf Hn Hd. unfold insert_object.
  eapply ok_bind; [by apply ok_insert_optional_str|]. intros o c1 Hwf1 G1 Ho. carryc G1.
  eapply ok_bind; [by apply ok_push_type_definition|]. intros tid c2 Hwf2 G2 Ht. carryc G2. simpl in Ht.
  eapply (ok_bind _ _ _ (λ id c', object_at c' id name)).
  { unfold on_tables. match goal with |- ok _ (Ret (_, ?c')) _ => assert (ir_grows c2 c') as G by grows end.
    match goal with |- ok _ (Ret (?i, ?c')) _ => assert (object_at c' i name) as Ho' end.
    { exists (MkObject tid). simpl. split; [by apply list_lookup_middle|by apply (type_at_mono G)]. }
    apply ok_step; [done|done| |done]. untouched. intros id. rewrite length_app. simpl.
    intros Hid. destruct (decide (id < length (objects (ir_tables c2)))); [by left|]. right. exists name.
    by replace id with (length (objects (ir_tables c2))) by lia. }
  intros id c3 Hwf3 G3 Hid. eapply ok_bind; [by apply ok_name_definition|]. intros u c4 Hwf4 G4 Hin. carryc G4. by apply ok_ret.
Qed.
Lemma ok_insert_interface c name description dirs :
  ir_wf sg c → str_ok c name → dirs_ok c dirs →
  ok c (insert_interface name description dirs c) (λ id c', interface_at c' id name ∧ is_Some (ir_definitions_by_name c' !! name)).
Proof.
  intros Hwf Hn Hd. unfold insert_interface.
  eapply ok_bind; [by apply ok_insert_optional_str|]. intros o c1 Hwf1 G1 Ho. carryc G1.
  eapply ok_bind; [by apply ok_push_type_definition|]. intros tid c2 Hwf2 G2 Ht. carryc G2. simpl in Ht.
  eapply (ok_bind _ _ _ (λ id c', interface_at c' id name)).
  { unfold on_tables. match goal with |- ok _ (Ret (_, ?c')) _ => assert (ir_grows c2 c') as G by grows end.
    match goal with |- ok _ (Ret (?i, ?c')) _ => assert (interface_at c' i name) as Ho' end.
    { exists (MkInterface tid). simpl. split; [by apply list_lookup_middle|by apply (type_at_mono G)]. }
    apply ok_step; [done|done| |done]. untouched. intros id. rewrite length_app. simpl.
    intros Hid. destruct (decide (id < length (interfaces (ir_tables c2)))); [by left|]. right. exists name.
    by replace id with (length (interfaces (ir_tables c2))) by lia. }
  intros id c3 Hwf3 G3 Hid. eapply ok_bind; [by apply ok_name_definition|]. intros u c4 Hwf4 G4 Hin. carryc G4. by apply ok_ret.
Qed.
Lemma ok_insert_scalar c name description dirs :
  ir_wf sg c → dirs_ok c dirs → ok c (insert_scalar name description dirs c) (λ _ c', composed_as c' name).
Proof.
  intros Hwf Hd. unfold insert_scalar.
  eapply ok_bind; [by apply ok_intern|]. intros n c1 Hwf1 G1 Hn. carryc G1.
  eapply ok_bind; [by apply ok_insert_optional_str|]. intros o c2 Hwf2 G2 Ho. carryc G2. apply (gr_strings _ _ G2) in Hn.
  eapply ok_bind; [apply ok_push_type_definition; [done|by split_and!; [exists name|..]]|]. intros tid c3 Hwf3 G3 Ht.
  apply (gr_strings _ _ G3) in Hn. eapply ok_wand; [by apply ok_name_definition|].
  intros u c4 G4 Hin. exists n. split; [by apply (gr_strings _ _ G4)|done].
Qed.
Lemma ok_insert_union c name dirs description :
  ir_wf sg c → str_ok c name → dirs_ok c dirs → ok c (insert_union name dirs description c) (λ _ c', is_Some (ir_definitions_by_name c' !! name)).
Proof.
  intros Hwf Hn Hd. unfold insert_union.
  eapply ok_bind; [by apply ok_insert_optional_str|]. intros o c1 Hwf1 G1 Ho. carryc G1.
  eapply (ok_bind _ _ _ (λ id c', defined_as c' name (FUnion id))).
  { unfold on_tables. match goal with |- ok _ (Ret (_, ?c')) _ => assert (ir_grows c1 c') as G by grows end.
    apply ok_step; [done|done| |].
    - untouched. apply appended_one. by apply (union_ok_mono G).
    - eexists. simpl. split; [by apply list_lookup_middle|done]. }
  intros id c3 Hwf3 G3 Hid. eapply ok_bind; [by apply ok_name_definition|]. intros u c4 Hwf4 G4 Hin. by apply ok_ret.
Qed.
Lemma ok_insert_input_object c name description dirs range :
  ir_wf sg c → str_ok c name → dirs_ok c dirs → values_ok c range →
  ok c (insert_input_object name description dirs range c) (λ _ c', is_Some (ir_definitions_by_name c' !! name)).
Proof.
  intros Hwf Hn Hd Hr. unfold insert_input_object.
  eapply ok_bind; [by apply ok_insert_optional_str|]. intros o c1 Hwf1 G1 Ho. carryc G1.
  eapply (ok_bind _ _ _ (λ id c', defined_as c' name (FInputObject id))).
  { unfold on_tables. match goal with |- ok _ (Ret (_, ?c')) _ => assert (ir_grows c1 c') as G by grows end.
    apply ok_step; [done|done| |].
    - untouched. apply appended_one. by apply (io_ok_mono G).
    - eexists. simpl. split; [by apply list_lookup_middle|done]. }
  intros id c3 Hwf3 G3 Hid. eapply ok_bind; [by apply ok_name_definition|]. intros u c4 Hwf4 G4 Hin. by apply ok_ret.
Qed.
Lemma ok_insert_union_member c s u m :
  ir_wf sg c → s < length (subgraphs sg) → str_ok c u → str_ok c m → ok c (insert_union_member s u m c) (λ _ _, True).
Proof.
  intros Hwf Hs Hu Hm. apply ok_on_tables_unit; [done|]. intros c' ->. split; [grows|]. intros G. untouched.
  - intros u' m' [[= -> ->]%elem_of_singleton|Hin]%elem_of_union; [right|by left].
    split; by apply (str_ok_mono G).
  - set_solver.
  - intros e l. rewrite lookup_insert_Some. intros [[<- <-]|[_ He]]; [|by left]. right. split; [set_solver|]. by exists s.
Qed.
Lemma ok_insert_key_ir c k : ir_wf sg c → key_ok sg c k → ok c (update_tables (add_key k) c) (λ _ _, True).
Proof.
  intros Hwf Hk. apply ok_on_tables_unit; [done|]. intros c' ->. split; [grows|]. intros G. untouched.
  apply appended_one. by apply (key_ok_mono _ G).
Qed.
Lemma ok_object_authorized c id site :
  ir_wf sg c → fed_ok c (FObject id) → authorized_site sg site → ok c (insert_object_authorized id site c) (λ _ _, True).
Proof.
  intros Hwf Hi Hs. apply ok_on_tables_unit; [done|]. intros c' ->. split; [grows|]. intros G. untouched.
  apply appended_one. split; [by apply (fed_ok_mono G)|done].
Qed.
Lemma ok_interface_authorized c id site :
  ir_wf sg c → fed_ok c (FInterface id) → authorized_site sg site → ok c (insert_interface_authorized id site c) (λ _ _, True).
Proof.
  intros Hwf Hi Hs. apply ok_on_tables_unit; [done|]. intros c' ->. split; [grows|]. intros G. untouched.
  apply appended_one. split; [by apply (fed_ok_mono G)|done].
Qed.
Lemma ok_entity_interface_field c n f :
  ir_wf sg c → str_ok c n → f < length (ir_fields (ir_tables c)) →
  ok c (insert_object_field_from_entity_interface n f c) (λ _ _, True).
Proof.
  intros Hwf Hn Hf. apply ok_on_tables_unit; [done|]. intros c' ->. split; [grows|]. intros G. untouched.
  intros n' f' [[= -> ->]%elem_of_singleton|Hin]%elem_of_union; [right|by left]. split; [by apply (str_ok_mono G)|done].
Qed.
Lemma ok_set_query c id :
  ir_wf sg c → fed_ok c (FObject id) → ok c (set_query id c) (λ _ c', is_Some (root_query (ir_tables c'))).
Proof.
  intros Hwf Hi. unfold set_query, update_tables, on_tables.
  match goal with |- ok _ (Ret (_, ?c')) _ => assert (ir_grows c c') as G by grows end.
  apply ok_step; [done|done| |simpl; by eexists]. untouched.
  intros i [Hr|[Hr|Hr]]; first [injection Hr as <-; right; by apply (fed_ok_mono G)|left; tauto].
Qed.
Lemma ok_set_roots c id :
  ir_wf sg c → fed_ok c (FObject id) → ok c (set_mutation id c) (λ _ _, True) ∧ ok c (set_subscription id c) (λ _ _, True).
Proof.
  intros Hwf Hi. split_and!; (apply ok_on_tables_unit; [done|]; intros c' ->; split; [grows|]; intros G; untouched);
    intros i [Hr|[Hr|Hr]]; first [injection Hr as <-; right; by apply (fed_ok_mono G)|left; tauto].
Qed.
End rules.

