(* ===== verification/ComposeProps.v ===== *)
(** * Composition preserves the invariant of the intermediate representation

    Rules for the functions of [compose/*.rs]. *)
From S2P Require Import Prelude RustStd CheckSchema IndexSet FieldTypes Subgraphs Ingest IngestRules IngestClaims Walkers ComposeContext ComposeDirectives ComposeTables Compose ComposeEntity ComposeInvariant ComposeRules.
Local Open Scope string_scope.
Local Open Scope list_scope.
Local Open Scope nat_scope.

Section props.
Context `{IndexSetLaws} (sg : Subgraphs) (Hsg : wf sg) (E : Prop).
Implicit Types (c : Ctx) (d : Def) (f : Field).
Abbreviation ok := (ok sg E).

(** The groups of fields and of arguments. *)
Lemma elem_of_group {A} (key : A → StringId) ls g x : g ∈ field_groups key ls → x ∈ g → x ∈ concat ls.
Proof.
  destruct (field_groups_spec key ls) as (names & _ & _ & _ & ->).
  intros (n & -> & _)%list_elem_of_fmap [_ Hx]%list_elem_of_filter. done.
Qed.
Lemma field_group_ok (l : list Def) g :
  g ∈ field_groups (λ f : Field, f.1.2) ((λ d, fields sg d.1) <$> l) → Forall (field_ok sg) g.
Proof.
  intros Hg. apply Forall_forall. intros f Hf. eapply elem_of_group in Hf; [|exact Hg].
  apply elem_of_concat_map in Hf as (d & _ & Hf). by apply (elem_of_fields sg d.1).
Qed.
Lemma argument_group_ok (l : list Field) g :
  g ∈ field_groups (λ a : Argument, a.1.2) ((λ f, arguments sg f.1) <$> l) → Forall (argument_ok sg) g.
Proof.
  intros Hg. apply Forall_forall. intros a Ha. eapply elem_of_group in Ha; [|exact Hg].
  apply elem_of_concat_map in Ha as (f & _ & Ha). by apply (elem_of_arguments sg f.1).
Qed.
Lemma found_description_ok (g : list Field) :
  Forall (field_ok sg) g → interned_opt sg (head (omap (λ f, tuple_description f.2) g)).
Proof.
  intros HF id (f & Hf & Hd)%head_Some_elem_of%list_elem_of_omap. rewrite Forall_forall in HF.
  destruct (field_parts sg Hsg f (HF f Hf)) as (_ & _ & _ & Ho & _). by apply Ho.
Qed.

Lemma ok_fatals c l : ir_wf sg c → ok c (each l push_fatal c) (λ _ _, True).
Proof. intros Hwf. apply ok_each_simple; [|done]. intros m c' _ Hwf'. by apply ok_push_fatal. Qed.
Lemma ok_compose_types c out g :
  ir_wf sg c → Forall (field_ok sg) g →
  ok c (compose_types sg (if out : bool then compose_output_field_types else compose_input_field_types) g c)
    (λ o _, ∀ t, o = Some t → typed sg t).
Proof.
  intros Hwf HF. unfold compose_types. eapply ok_read.
  { apply (returns_mapM _ (λ _ w, typed sg (field_type w))). intros f Hf. rewrite Forall_forall in HF.
    eapply returns_wand; [apply reads_field_walker; [done|by apply HF]|]. by intros w []. }
  intros ws Hws. assert (Forall (λ w, typed sg (field_type w)) ws) as HFw.
  { apply Forall_forall. intros w [i Hw]%list_elem_of_lookup. by eapply Forall2_lookup_r in Hws as (? & _ & ?). }
  eapply (ok_read _ _ _ _ _ (composed_ok sg)).
  { destruct out; [exact (reads_compose_field_types sg Hsg true ws HFw)|exact (reads_compose_field_types sg Hsg false ws HFw)]. }
  intros r Hr. apply ok_then; [by apply ok_fatals|]. intros c' Hwf' _. by apply ok_ret.
Qed.

(** ** Scalars, unions and input objects *)
Lemma ok_scalar c first l :
  ir_wf sg c → def_ok sg first → Forall (def_ok sg) l → 
  ok c (merge_scalar_definitions sg first l c) (λ _ c', composed_as c' (str sg (definition_name first.2))).
Proof.
  intros Hwf Hf Hl. unfold merge_scalar_definitions.
  eapply ok_bind; [by apply ok_collect|]. intros dirs c1 Hwf1 G1 Hd.
  eapply ok_read; [by apply reads_find_description|]. intros desc _.
  destruct (def_parts sg Hsg first Hf) as (_ & Hn & _). unfold name_str. rewrite (string_at_str sg _ Hn).
  by apply (ok_insert_scalar sg E).
Qed.
Lemma ok_union c first l :
  ir_wf sg c → def_ok sg first → Forall (def_ok sg) l → 
  ok c (merge_union_definitions sg first l c) (λ _ c', composed_as c' (str sg (definition_name first.2))).
Proof.
  intros Hwf Hf Hl. unfold merge_union_definitions. destruct (def_parts sg Hsg first Hf) as (_ & Hn & _).
  eapply ok_bind; [by apply ok_insert_name|]. intros name c1 Hwf1 G1 [Hname Hs].
  eapply ok_bind; [by apply ok_collect|]. intros dirs c2 Hwf2 G2 Hd. carryc G2. apply (gr_strings _ _ G2) in Hs.
  eapply ok_read; [by apply reads_find_description|]. intros desc _.
  eapply ok_bind; [by apply ok_insert_union|]. intros uid c3 Hwf3 G3 Hdef. carryc G3. apply (gr_strings _ _ G3) in Hs.
  eapply ok_wand; [|intros _ c' G _; apply (composed_as_mono G); by exists name].
  apply (ok_each _ _ (λ c, str_ok c name)); [intros ? ? G; apply (str_ok_mono G)| |done|done].
  intros m c4 Hm Hwf4 Hu. apply elem_of_concat_map in Hm as (d & _ & Hm).
  apply list_elem_of_fmap in Hm as ([u m'] & -> & [_ Hin]%list_elem_of_filter). apply elem_of_btree_set_iter in Hin.
  destruct (link_unions _ (wf_links _ Hsg) _ _ Hin) as [_ Hm]. simpl in *.
  eapply ok_read; [by apply reads_definition|]. intros x Hx. destruct (def_parts sg Hsg _ Hx) as (_ & Hxn & _ & _ & Hxs).
  eapply ok_bind; [by apply ok_insert_string|]. intros mn c5 Hwf5 G5 Hmn. carryc G5. by apply ok_insert_union_member.
Qed.
Lemma default_value_ok (g : list Field) v :
  head (omap (λ f, default_value sg f.1) g) = Some v → interned_all sg (value_strings v).
Proof.
  intros (f & _ & Hv)%head_Some_elem_of%list_elem_of_omap. by apply (body_defaults _ (wf_bodies _ Hsg) f.1).
Qed.
Lemma ok_input_field c first intersection range g :
  ir_wf sg c → def_ok sg first → Forall (field_ok sg) g → range_ok c range →
  ok c (merge_input_field sg first intersection range g c) (λ r c', range_ok c' r).
Proof.
  intros Hwf Hf Hg Hr. unfold merge_input_field. destruct g as [|[fid t] g']; [by apply ok_ret|].
  set (g := (fid, t) :: g') in *. assert (field_ok sg (fid, t)) as Hft by by apply Forall_cons in Hg as [].
  destruct (field_parts sg Hsg _ Hft) as (_ & Hn & _). simpl in Hn. case_decide.
  - eapply ok_bind; [by apply ok_collect|]. intros dirs c1 Hwf1 G1 Hd. carryc G1.
    eapply ok_bind; [by apply ok_insert_string_option, found_description_ok|]. intros desc c2 Hwf2 G2 Ho. carryc G2.
    eapply ok_bind; [by apply (ok_compose_types _ false)|]. intros [ty|] c3 Hwf3 G3 Hty; carryc G3; [|by apply ok_ret].
    eapply ok_bind; [by apply ok_insert_string|]. intros name c4 Hwf4 G4 Hname. carryc G4.
    apply ok_insert_value; [done| |done]. split_and!; [done|done|done|by apply Hty|]. intros v. apply default_value_ok.
  - eapply ok_read.
    { apply returns_find. intros f Hin. rewrite Forall_forall in Hg.
      apply reads_is_required; [done..|]. apply (field_parts sg Hsg f (Hg f Hin)). }
    intros [f|] Hin; [|by apply ok_ret]. specialize (Hin f eq_refl). rewrite Forall_forall in Hg.
    pose proof (Hg f Hin) as Hfo. pose proof (field_parts sg Hsg f Hfo) as (_ & Hfn & _).
    eapply (ok_read _ _ _ _ _ (λ _, True)); [unfold missing_required_message; solve_reads|]. intros m _. apply ok_then; [by apply ok_push_fatal|]. intros c1 Hwf1 G1. carryc G1. by apply ok_ret.
Qed.
Lemma ok_input_object c first l :
  ir_wf sg c → def_ok sg first → Forall (def_ok sg) l → 
  ok c (merge_input_object_definitions sg first l c) (λ _ c', composed_as c' (str sg (definition_name first.2))).
Proof.
  intros Hwf Hf Hl. unfold merge_input_object_definitions. destruct (def_parts sg Hsg first Hf) as (_ & Hn & _).
  eapply ok_read; [by apply reads_find_description|]. intros desc _.
  eapply ok_bind; [by apply ok_collect|]. intros dirs c1 Hwf1 G1 Hd.
  eapply ok_bind; [by apply ok_insert_name|]. intros name c2 Hwf2 G2 [Hname Hs]. carryc G2.
  eapply (ok_bind _ _ _ _ _ (λ r c', range_ok c' r)).
  { apply ok_foldM; [|done|done]. intros r g c3 Hg Hwf3 Hr. apply ok_input_field; [done|done| |done].
    by eapply field_group_ok. }
  intros r c3 Hwf3 G3 Hr. carryc G3. apply (gr_strings _ _ G3) in Hs.
  eapply ok_bind; [apply ok_insert_input_object; [done..|by apply range_ok_default]|]. intros oid c4 Hwf4 G4 Hdef.
  apply ok_ret; [done|]. exists name. split; [by apply (gr_strings _ _ G4)|done].
Qed.

(** ** Interfaces *)
Lemma authorized_fields_ok (g : list Field) :
  Forall (field_ok sg) g → Forall (field_exists sg) (authorized_fields_of sg g).
Proof.
  intros HF. apply Forall_forall. intros fid (f & -> & [_ Hf]%list_elem_of_filter)%list_elem_of_fmap.
  rewrite Forall_forall in HF. exists f.2. by apply HF.
Qed.
Lemma def_sites_ok l : Forall (def_ok sg) l → Forall (site_exists sg) (def_sites l).
Proof.
  intros HF. apply Forall_fmap. eapply Forall_impl; [exact HF|]. intros d Hd. by apply (def_parts sg Hsg d).
Qed.
Lemma ok_authorized_sites c (P : Ctx → Prop) insert l :
  (∀ c c', ir_grows c c' → P c → P c') →
  (∀ c site, ir_wf sg c → P c → authorized_site sg site → ok c (insert site c) (λ _ _, True)) →
  ir_wf sg c → P c → Forall (def_ok sg) l → ok c (insert_authorized_sites sg insert l c) (λ _ _, True).
Proof.
  intros HP Hi Hwf HPc Hl. apply (ok_each _ _ P); [done| |done|done].
  intros site c' [Ha Hs]%list_elem_of_filter Hwf' HP'. apply Hi; [done|done|]. split; [|done].
  pose proof (def_sites_ok l Hl) as HF. rewrite Forall_forall in HF. by apply HF.
Qed.
Lemma ok_interface_field c first id n g :
  ir_wf sg c → def_ok sg first → interface_at c id n → Forall (field_ok sg) g →
  ok c (merge_interface_field sg first id g c) (λ _ _, True).
Proof.
  intros Hwf Hf Hi Hg. unfold merge_interface_field. destruct g as [|[fid t] g']; [by apply ok_ret|].
  set (g := (fid, t) :: g') in *. assert (field_ok sg (fid, t)) as Hft by by apply Forall_cons in Hg as [].
  destruct (field_parts sg Hsg _ Hft) as (_ & Hn & _ & Ho & _). simpl in Hn, Ho.
  eapply ok_bind; [by apply ok_insert_string_option|]. intros desc c1 Hwf1 G1 Hdesc. carryc G1.
  apply ok_then; [apply ok_if; [done|apply ok_read_message; [done|solve_reads]]|]. intros c2 Hwf2 G2. carryc G2.
  eapply ok_bind; [by apply ok_collect|]. intros dirs c3 Hwf3 G3 Hd. carryc G3.
  eapply ok_bind; [by apply (ok_compose_types _ true)|]. intros [ty|] c4 Hwf4 G4 Hty; carryc G4; [|by apply ok_ret].
  eapply ok_bind; [apply ok_insert_field; [done|]|intros _ c5 Hwf5 _ _; by apply ok_ret].
  split_and!; simpl; [by exists n|done|by apply Hty|unfold values_ok; simpl; lia|done|done|constructor..| |constructor].
  by apply authorized_fields_ok.
Qed.
Lemma interned_field_names (l : list Def) n :
  n ∈ dedup ((λ f : Field, f.1.2) <$> @sort Field (cmp_on (λ f : Field, f.1.2)) (concat ((λ d : Def, fields sg d.1) <$> l))) →
  interned sg n.
Proof.
  rewrite elem_of_dedup. intros (f & -> & Hf)%list_elem_of_fmap. apply elem_of_sort, elem_of_concat_map in Hf as (d & _ & Hf).
  destruct (elem_of_fields sg _ _ Hf) as [Hok _]. exact (proj1 (proj2 (field_parts sg Hsg f Hok))).
Qed.
Lemma ok_check_implementers c name l :
  ir_wf sg c → interned sg name → (∀ n, n ∈ l → interned sg n) → ok c (check_implementers sg name l c) (λ _ _, True).
Proof.
  intros Hwf Hn Hl. apply ok_each_simple; [|done]. intros m c1 Hm Hwf1. apply ok_each_simple; [|done].
  intros x c2 Hx Hwf2. apply Hl in Hx. unfold check_implementer_field.
  apply list_elem_of_fmap in Hm as ([a m'] & -> & [_ Hin]%list_elem_of_filter). apply elem_of_btree_set_iter in Hin.
  destruct (link_impls _ (wf_links _ Hsg) _ _ Hin) as [_ Hm]. simpl in *.
  destruct (existsb _ _); [by apply ok_ret|]. apply ok_read_message; [done|solve_reads].
Qed.
Lemma ok_interface c first l :
  ir_wf sg c → def_ok sg first → Forall (def_ok sg) l → 
  ok c (merge_interface_definitions sg first l c) (λ _ c', composed_as c' (str sg (definition_name first.2))).
Proof.
  intros Hwf Hf Hl. unfold merge_interface_definitions. destruct (def_parts sg Hsg first Hf) as (_ & Hn & _).
  eapply ok_bind; [by apply ok_collect|]. intros dirs c1 Hwf1 G1 Hd.
  eapply ok_read; [by apply reads_find_description|]. intros desc _.
  eapply ok_bind; [by apply ok_insert_name|]. intros name c2 Hwf2 G2 [Hname Hstr]. carryc G2.
  eapply ok_bind; [by apply ok_insert_interface|]. intros id c3 Hwf3 G3 [Hid Hin]. apply (gr_strings _ _ G3) in Hstr.
  assert (composed_as c3 (str sg (definition_name first.2))) as Hc by by exists name.
  apply ok_then.
  { apply (ok_authorized_sites _ (λ c, interface_at c id name)); [intros ? ? G; apply (interface_at_mono G)| |done|done|done].
    intros c4 site Hwf4 Hi Hst. apply ok_interface_authorized; [done|by exists name|done]. }
  intros c4 Hwf4 G4. carryc G4. apply ok_then.
  { apply (ok_each _ _ (λ c, interface_at c id name)); [intros ? ? G; apply (interface_at_mono G)| |done|done].
    intros g c5 Hg Hwf5 Hi. eapply ok_interface_field; [done|done|done|]. by eapply field_group_ok. }
  intros c5 Hwf5 G5. carryc G5. eapply ok_wand; [|intros _ c' G _; by apply (composed_as_mono G)].
  apply ok_check_implementers; [done|done|]. intros m. apply interned_field_names.
Qed.
End props.

(** ** Objects, entity interfaces and roots preserve the invariant *)

Section props.
Context `{IndexSetLaws} (sg : Subgraphs) (Hsg : wf sg) (E : Prop).
Implicit Types (c : Ctx) (d : Def) (f : Field) (a : Argument).
Abbreviation ok := (ok sg E).

(** ** Arguments *)
Definition found_default (o : option (Value * Argument)) : Prop :=
  ∀ v a, o = Some (v, a) → interned_all sg (value_strings v) ∧ argument_ok sg a.
Lemma ok_default c o a :
  ir_wf sg c → found_default o → argument_ok sg a → ok c (compose_default sg o a c) (λ o _, found_default o).
Proof.
  intros Hwf Ho Ha. unfold compose_default. destruct (argument_default sg a.1) as [v|] eqn:Ev; [|by apply ok_ret].
  destruct o as [[v' other]|].
  - destruct (value_eqb v' v); [by apply ok_ret|]. destruct (Ho _ _ eq_refl) as [_ Hother].
    pose proof (argument_parts sg Hsg a Ha) as ((t & Hf) & Hn & _). pose proof (field_parts sg Hsg _ Hf) as (_ & Hfn & _).
    eapply (ok_read _ _ _ _ _ (λ _, True)); [unfold default_conflict_message; solve_reads|]. intros m _.
    apply ok_then; [by apply ok_push_fatal|]. intros c1 Hwf1 _. by apply ok_ret.
  - apply ok_ret; [done|]. intros v' a' [= <- <-]. split; [|done].
    by apply (body_argument_defaults _ (wf_bodies _ Hsg) a.1).
Qed.
Lemma ok_defaults c l :
  ir_wf sg c → Forall (argument_ok sg) l →
  ok c (compose_field_argument_defaults sg l c) (λ o _, ∀ v, o = Some v → interned_all sg (value_strings v)).
Proof.
  intros Hwf Hl. rewrite Forall_forall in Hl. eapply (ok_bind _ _ _ _ _ (λ o _, found_default o)).
  { apply (ok_foldM _ _ (λ o _, found_default o)); [|done|done]. intros o a c1 Ha Hwf1 Ho.
    apply ok_default; [done|done|by apply Hl]. }
  intros o c1 Hwf1 _ Ho. apply ok_ret; [done|]. intros v ([v' a] & -> & ->)%fmap_Some. by destruct (Ho _ _ eq_refl).
Qed.
Lemma ok_argument_types c p n l :
  ir_wf sg c → interned sg p → interned sg n → Forall (argument_ok sg) l →
  ok c (compose_argument_types_of sg p n l c) (λ o _, ∀ t, o = Some t → typed sg t).
Proof.
  intros Hwf Hp Hn Hl. unfold compose_argument_types_of.
  eapply ok_read; [by apply reads_string|]. intros ps _. eapply ok_read; [by apply reads_string|]. intros ns _.
  eapply ok_read.
  { apply (returns_mapM _ (λ _ w, typed sg (field_type (argument_field w)))). intros a Ha. rewrite Forall_forall in Hl.
    apply reads_argument_walker; [done|by apply Hl]. }
  intros ws Hws. eapply (ok_read _ _ _ _ _ (composed_ok sg)).
  { apply reads_compose_argument_types; [done|]. apply Forall_forall. intros w [i Hw]%list_elem_of_lookup.
    by eapply Forall2_lookup_r in Hws as (? & _ & ?). }
  intros r Hr. apply ok_then; [by apply ok_fatals|]. intros c' Hwf' _. by apply ok_ret.
Qed.
Lemma reads_field_subgraphs (P : Field → Prop) `{!∀ f, Decision (P f)} l :
  Forall (field_ok sg) l → returns (mapM_res (λ f : Field, field_subgraph_name sg f.1) (filter P l)) (λ _, True).
Proof.
  intros Hl. rewrite Forall_forall in Hl. eapply returns_any.
  apply (returns_mapM _ (λ _ _, True)). intros f [_ Hf]%list_elem_of_filter. apply reads_field_subgraph; [done|by apply Hl].
Qed.
Lemma ok_argument c fs p n intersection ids l :
  ir_wf sg c → Forall (field_ok sg) fs → interned sg p → interned sg n → range_ok c ids → Forall (argument_ok sg) l →
  ok c (merge_argument sg fs p n intersection ids l c) (λ ids c', range_ok c' ids).
Proof.
  intros Hwf Hfs Hp Hn Hids Hl. unfold merge_argument. destruct l as [|[aid t] l']; [by apply ok_ret|].
  set (l := (aid, t) :: l') in *. assert (argument_ok sg (aid, t)) as Ha by by apply Forall_cons in Hl as [].
  destruct (argument_parts sg Hsg _ Ha) as (_ & Han & _). simpl in Han.
  eapply ok_bind; [by apply ok_defaults|]. intros def c1 Hwf1 G1 Hdef. carryc G1. case_decide.
  - eapply ok_bind; [by apply ok_collect|]. intros dirs c2 Hwf2 G2 Hd. carryc G2.
    eapply ok_bind; [by apply ok_argument_types|]. intros [ty|] c3 Hwf3 G3 Hty; carryc G3; [|by apply ok_ret].
    eapply ok_read.
    { apply returns_any_res. intros a Hin. rewrite Forall_forall in Hl. pose proof (Hl a Hin) as Hao.
      unfold argument_type_is_inaccessible. eapply returns_bind; [by apply reads_argument_parent|]. intros pd _.
      apply reads_type_is_inaccessible; [done|]. by destruct (argument_parts sg Hsg a Hao) as (_ & _ & ? & _). }
    intros b _. apply ok_then.
    { apply ok_if; [done|]. apply ok_read_message; [done|]. unfold inaccessible_argument_message. solve_reads. }
    intros c4 Hwf4 G4. carryc G4. eapply ok_bind; [by apply ok_insert_string|]. intros name c5 Hwf5 G5 Hname. carryc G5.
    apply ok_insert_value; [done| |done]. split_and!; [done|done|done|by apply Hty|done].
  - eapply ok_read.
    { apply returns_find. intros a Hin. rewrite Forall_forall in Hl. apply reads_is_required; [done..|].
      by destruct (argument_parts sg Hsg a (Hl a Hin)) as (_ & _ & ? & _). }
    intros [a|] Hin; [|by apply ok_ret]. specialize (Hin a eq_refl). rewrite Forall_forall in Hl. pose proof (Hl a Hin) as Hao.
    eapply (ok_read _ _ _ _ _ (λ _, True)).
    { unfold required_argument_message. eapply returns_bind; [by apply reads_argument_subgraph|]. intros s _.
      eapply returns_bind; [by apply reads_field_subgraphs|]. intros ss _. solve_reads. }
    intros m _. apply ok_then; [by apply ok_push_fatal|]. intros c2 Hwf2 G2. carryc G2. by apply ok_ret.
Qed.
Lemma ok_field_arguments c first fs :
  ir_wf sg c → field_ok sg first → Forall (field_ok sg) fs →
  ok c (merge_field_arguments sg first fs c) (λ r c', values_ok c' r).
Proof.
  intros Hwf Hf Hfs. unfold merge_field_arguments. destruct (field_parts sg Hsg _ Hf) as (_ & Hn & _).
  eapply ok_read; [by apply reads_parent|]. intros p [_ Hp]. destruct (def_parts sg Hsg p Hp) as (_ & Hpn & _).
  eapply (ok_bind _ _ _ _ _ (λ r c', range_ok c' r)).
  { apply ok_foldM; [|done|done]. intros r g c1 Hg Hwf1 Hr. apply ok_argument; [done..|]. by eapply argument_group_ok. }
  intros r c1 Hwf1 _ Hr. apply ok_ret; [done|by apply range_ok_default].
Qed.

(** ** Overrides *)
Lemma reads_subgraph_name_id f : field_ok sg f → returns (subgraph_name_id_of sg f.1) (λ _, True).
Proof.
  intros Hf. eapply returns_bind; [by apply reads_parent|]. intros p [_ Hp].
  destruct (def_parts sg Hsg p Hp) as (_ & _ & _ & _ & Hs). by destruct (subgraph_at sg Hsg _ Hs) as (x & -> & _).
Qed.
Lemma ok_override c fs os f :
  ir_wf sg c → Forall (field_ok sg) fs → field_ok sg f → Forall (ov_ok sg c) os →
  ok c (collect_override sg fs os f c) (λ os c', Forall (ov_ok sg c') os).
Proof.
  intros Hwf Hfs Hf Hos. unfold collect_override. destruct (override_ sg _) as [o|] eqn:Eo; [|by apply ok_ret].
  destruct (dir_override _ _ (wf_directives _ Hsg) _ _ Eo) as [Hfrom Hlabel].
  eapply ok_read; [by apply reads_parent|]. intros p [_ Hp]. destruct (def_parts sg Hsg p Hp) as (_ & _ & _ & _ & Hs).
  eapply ok_read; [by apply reads_subgraph_name_id|]. intros nid _. case_decide.
  { eapply (ok_read _ _ _ _ _ (λ _, True)); [unfold same_override_message; solve_reads|]. intros m _.
    apply ok_then; [by apply ok_push_fatal|]. intros c1 Hwf1 G1. carryc G1. by apply ok_ret. }
  eapply ok_read.
  { apply returns_find. intros g Hg. rewrite Forall_forall in Hfs.
    eapply returns_bind; [apply reads_subgraph_name_id; by apply Hfs|]. done. }
  intros source Hsource. apply ok_then.
  { destruct source as [g|]; [|by apply ok_ret]. destruct (override_ sg (tuple_directives g.2)); [|by apply ok_ret].
    rewrite Forall_forall in Hfs. pose proof (Hfs g (Hsource g eq_refl)) as Hg.
    apply ok_read_message; [done|]. unfold double_override_message. solve_reads. }
  intros c1 Hwf1 G1. carryc G1. eapply (ok_read _ _ _ _ _ (λ _, True)).
  { unfold parse_label. destruct (override_label o) as [l|]; [|done].
    eapply returns_bind; [apply reads_string; by apply Hlabel|]. done. }
  intros label _. eapply (ok_bind _ _ _ _ _ (λ from c', ov_ok sg c' (MkOverrideIr (subgraph_id p.2) label from))).
  - destruct (list_find _ _) as [[i s]|] eqn:El.
    + apply ok_ret; [done|]. split; [done|]. apply list_find_Some in El as (Hi & _). by eapply lookup_lt_Some.
    + eapply ok_bind; [by apply ok_insert_string|]. intros n c2 Hwf2 _ Hn. by apply ok_ret.
  - intros from c2 Hwf2 G2 Hov. carryc G2. apply ok_ret; [done|]. apply Forall_app. split; [done|by constructor].
Qed.
Lemma ok_overrides c fs :
  ir_wf sg c → Forall (field_ok sg) fs → ok c (collect_overrides sg fs c) (λ os c', Forall (ov_ok sg c') os).
Proof.
  intros Hwf Hfs. apply (ok_foldM _ _ (λ os c', Forall (ov_ok sg c') os)); [|done|constructor].
  intros os f c1 Hf Hwf1 Hos. apply ok_override; [done|done| |done]. rewrite Forall_forall in Hfs. by apply Hfs.
Qed.

(** ** Fields of objects *)
Lemma filtered_fields_ok (P : Field → Prop) `{!∀ f, Decision (P f)} (l : list Field) :
  Forall (field_ok sg) l → Forall (field_exists sg) (filter P l).*1.
Proof.
  intros HF. apply Forall_forall. intros fid (f & -> & [_ Hf]%list_elem_of_filter)%list_elem_of_fmap.
  rewrite Forall_forall in HF. exists f.2. by apply HF.
Qed.
Lemma reads_resolvable_in l b :
  Forall (field_ok sg) l → returns (resolvable_in sg l b) (Forall (subgraph_exists sg)).
Proof.
  intros Hl. unfold resolvable_in. destruct (b || _); [constructor|]. rewrite Forall_forall in Hl.
  eapply returns_wand.
  { apply (returns_mapM _ (λ _ s, subgraph_exists sg s)). intros f [_ Hf]%list_elem_of_filter.
    eapply returns_bind; [apply reads_parent; [done|by apply Hl]|]. intros p [_ Hp]. apply returns_ret.
    by apply (def_parts sg Hsg p). }
  intros ss Hss. apply Forall_forall. intros s [i Hi]%list_elem_of_lookup. by eapply Forall2_lookup_r in Hss as (? & _ & ?).
Qed.
Lemma ok_object_fields c parent name b first fs :
  ir_wf sg c → object_at c parent name → first ∈ fs → Forall (field_ok sg) fs →
  ok c (compose_object_fields sg parent b first fs c) (λ _ _, True).
Proof.
  intros Hwf Hp Hin Hfs. unfold compose_object_fields. pose proof Hfs as Hall. rewrite Forall_forall in Hall.
  pose proof (Hall first Hin) as Hf. destruct (field_parts sg Hsg _ Hf) as (_ & Hn & _). apply ok_then.
  { destruct (negb b && (1 <? length (filter (λ f, may_be_shared sg f = false) fs))) eqn:Eb; [|by apply ok_ret].
    apply andb_true_iff in Eb as [_ Hlen%Nat.ltb_lt]. apply ok_read_message; [done|]. unfold duplicate_field_message.
    pose proof (length_filter (λ f, may_be_shared sg f = false) fs) as Hle.
    destruct (lookup_lt_is_Some_2 fs 1) as [next Hnext]; [lia|]. rewrite Hnext. simpl.
    assert (field_ok sg next) as Hno by (apply Hall; by eapply list_elem_of_lookup_2).
    eapply returns_bind; [by apply reads_string|]. intros ? _. eapply returns_bind; [by apply reads_parent|].
    intros p [_ Hpd]. solve_reads. }
  intros c1 Hwf1 G1. carryc G1. eapply ok_read.
  { apply returns_any_res. intros f Hfin. unfold field_exposes_inaccessible. destruct (inaccessible _ _); [done|].
    eapply returns_bind; [apply reads_parent; [done|by apply Hall]|]. intros p _. apply reads_type_is_inaccessible; [done|].
    by destruct (field_parts sg Hsg f (Hall f Hfin)) as (_ & _ & ? & _). }
  intros exposes _. apply ok_then.
  { apply ok_if; [done|]. apply ok_read_message; [done|]. unfold inaccessible_type_message.
    eapply returns_bind; [by apply reads_field_path|]. intros ? _.
    eapply returns_bind; [by apply reads_field_subgraphs|]. done. }
  intros c2 Hwf2 G2. carryc G2.
  eapply ok_bind; [by apply ok_field_arguments|]. intros args c3 Hwf3 G3 Hargs. carryc G3.
  eapply ok_read; [by apply reads_resolvable_in|]. intros res Hres.
  eapply ok_bind; [by apply ok_overrides|]. intros os c4 Hwf4 G4 Hos. carryc G4.
  eapply ok_bind; [by apply ok_insert_string_option, found_description_ok|]. intros desc c5 Hwf5 G5 Hdesc. carryc G5.
  eapply ok_bind; [by apply ok_collect|]. intros dirs c6 Hwf6 G6 Hd. carryc G6.
  eapply ok_bind; [by apply (ok_compose_types sg Hsg E _ true)|]. intros [ty|] c7 Hwf7 G7 Hty; carryc G7; [|by apply ok_ret].
  eapply ok_bind; [apply ok_insert_field; [done|]|intros _ c8 Hwf8 _ _; by apply ok_ret].
  split_and!; simpl; [by exists name|done|by apply Hty|done|done|done|done| | |by apply authorized_fields_ok|done];
    by apply filtered_fields_ok.
Qed.
Lemma ok_fields_of c parent name b l :
  ir_wf sg c → object_at c parent name → ok c (compose_fields_of sg parent b l c) (λ _ _, True).
Proof.
  intros Hwf Hp. apply (ok_each _ _ (λ c, object_at c parent name)); [intros ? ? G; apply (object_at_mono G)| |done|done].
  intros g c1 Hg Hwf1 Hp1. destruct g as [|f g']; [by apply ok_ret|].
  eapply ok_object_fields; [done|done|by left|]. by eapply field_group_ok.
Qed.
End props.
