(* ===== verification/ComposeEntityProps.v ===== *)
(** * Composing all definitions preserves the invariant *)
From S2P Require Import Prelude RustStd CheckSchema IndexSet FieldTypes Subgraphs Ingest IngestRules IngestClaims Walkers ComposeContext ComposeDirectives ComposeTables ComposeEnums Compose ComposeEntity ComposeInvariant ComposeRules ComposeProps.
Local Open Scope string_scope.
Local Open Scope list_scope.
Local Open Scope nat_scope.

Section props.
Context `{IndexSetLaws} (sg : Subgraphs) (Hsg : wf sg) (E : Prop).
Implicit Types (c : Ctx) (d : Def) (f : Field) (a : Argument).
Abbreviation ok := (ok sg E).

(** ** Objects *)
Lemma ok_shareable c l :
  ir_wf sg c → Forall (def_ok sg) l → ok c (validate_shareable_object_fields_match sg l c) (λ _ _, True).
Proof.
  intros Hwf Hl. apply ok_each_simple; [|done]. intros d c1 Hd Hwf1. apply ok_each_simple; [|done].
  intros n c2 Hn Hwf2. rewrite Forall_forall in Hl. pose proof (Hl d Hd) as Hdo.
  destruct (find_field sg d.1 n); [by apply ok_ret|]. apply elem_of_btree_set_iter, elem_of_difference in Hn as [Hn _].
  apply elem_of_list_to_set, list_elem_of_fmap in Hn as (f & -> & [_ Hf]%list_elem_of_filter).
  apply elem_of_concat_map in Hf as (d' & _ & Hf). destruct (elem_of_fields sg _ _ Hf) as [Hfo _].
  destruct (field_parts sg Hsg f Hfo) as (_ & Hfn & _).
  apply ok_read_message; [done|]. unfold missing_shareable_message. solve_reads.
Qed.
Lemma reads_subgraph_names (P : Def → Prop) `{!∀ d, Decision (P d)} l :
  Forall (def_ok sg) l → returns (mapM_res (def_subgraph_name sg) (filter P l)) (λ _, True).
Proof.
  intros Hl. rewrite Forall_forall in Hl. eapply returns_any. apply (returns_mapM _ (λ _ _, True)).
  intros d [_ Hd]%list_elem_of_filter. apply reads_subgraph_name; [done|by apply Hl].
Qed.
Lemma ok_keys c l (insert : nat → Key → M unit) (P : Ctx → Prop) :
  (∀ c c', ir_grows c c' → P c → P c') →
  (∀ c id k, ir_wf sg c → P c → id < length (keys sg) → ok c (insert id k c) (λ _ _, True)) →
  (∀ k, k ∈ l → k < length (keys sg)) → ir_wf sg c → P c →
  ok c (each l (λ key_id, key ← lift (key_at sg key_id); insert key_id key) c) (λ _ _, True).
Proof.
  intros HP Hi Hl Hwf HPc. apply (ok_each _ _ P); [done| |done|done]. intros k c1 Hk Hwf1 HP1.
  eapply ok_read; [apply reads_key; by apply Hl|]. intros key _. by apply Hi; [| |apply Hl].
Qed.
Lemma ok_object c first l :
  ir_wf sg c → first ∈ l → Forall (def_ok sg) l → 
  ok c (merge_object_definitions sg first l c) (λ _ c', failed c' ∨ composed_as c' (str sg (definition_name first.2))).
Proof.
  intros Hwf Hin Hl. pose proof Hl as Hall. rewrite Forall_forall in Hall. pose proof (Hall first Hin) as Hf.
  unfold merge_object_definitions. destruct (def_parts sg Hsg first Hf) as (_ & Hn & _).
  destruct (head (filter _ l)) as [d|] eqn:Ed.
  { apply head_Some_elem_of, list_elem_of_filter in Ed as [_ Hd]. pose proof (Hall d Hd) as Hdo.
    eapply ok_wand; [apply ok_fail; [done|unfold incompatible_kinds_message; solve_reads]|]. by left. }
  apply ok_then.
  { apply ok_if; [done|]. apply ok_read_message; [done|]. unfold entity_mismatch_message.
    eapply returns_bind; [by apply reads_name|]. intros ? _. eapply returns_bind; [by apply reads_subgraph_names|]. intros ? _.
    eapply returns_bind; [by apply reads_subgraph_names|]. done. }
  intros c1 Hwf1 _. eapply ok_read; [by apply reads_find_description|]. intros desc _.
  eapply ok_bind; [by apply ok_collect|]. intros dirs c2 Hwf2 G2 Hd.
  eapply ok_bind; [by apply ok_insert_name|]. intros name c3 Hwf3 G3 [Hname Hstr]. carryc G3.
  eapply ok_bind; [by apply ok_insert_object|]. intros id c4 Hwf4 G4 [Hid Hdef]. apply (gr_strings _ _ G4) in Hstr.
  assert (composed_as c4 (str sg (definition_name first.2))) as Hc by by exists name. apply ok_then.
  { apply (ok_keys _ _ _ (λ c, object_at c id name)); [intros ? ? G; apply (object_at_mono G)| | |done|done].
    - intros c5 kid k Hwf5 Hi Hk. apply ok_insert_key_ir; [done|]. split; [by exists name|done].
    - intros k (d & _ & Hk)%elem_of_concat_map. by eapply elem_of_entity_key_ids. }
  intros c5 Hwf5 G5. carryc G5. apply ok_then.
  { apply (ok_authorized_sites sg Hsg E _ (λ c, object_at c id name)); [intros ? ? G; apply (object_at_mono G)| |done|done|done].
    intros c6 site Hwf6 Hi Hs. apply ok_object_authorized; [done|by exists name|done]. }
  intros c6 Hwf6 G6. carryc G6. apply ok_then; [by apply ok_if; [|apply ok_shareable]|].
  intros c7 Hwf7 G7. carryc G7. eapply ok_wand; [by eapply ok_fields_of|]. intros _ c8 G8 _. right. by apply (composed_as_mono G8).
Qed.

(** ** Entity interfaces *)
Lemma ok_translate_arguments c fid :
  ir_wf sg c → ok c (translate_arguments sg fid c) (λ r c', values_ok c' r).
Proof.
  intros Hwf. eapply (ok_bind _ _ _ _ _ (λ r c', range_ok c' r)).
  { apply (ok_foldM _ _ (λ r c', range_ok c' r)); [|done|done]. intros ids a c1 Ha Hwf1 Hids.
    destruct (elem_of_arguments sg _ _ Ha) as [Hao _]. destruct (argument_parts sg Hsg a Hao) as (_ & Hn & Ht & _).
    eapply ok_bind; [by apply ok_collect|]. intros dirs c2 Hwf2 G2 Hd. carryc G2.
    eapply ok_bind; [by apply ok_insert_string|]. intros name c3 Hwf3 G3 Hname. carryc G3.
    apply ok_insert_value; [done| |done]. split_and!; [done|done|done|done|].
    intros v Hv. by apply (body_argument_defaults _ (wf_bodies _ Hsg) a.1). }
  intros r c1 Hwf1 _ Hr. apply ok_ret; [done|by apply range_ok_default].
Qed.
Lemma authorized_field_ok f : field_ok sg f → Forall (field_exists sg) (authorized_fields_of sg [f]).
Proof. intros Hf. apply authorized_fields_ok. by constructor. Qed.
Lemma ok_entity_field c id name idef f :
  ir_wf sg c → interface_at c id name → def_ok sg idef → field_ok sg f →
  ok c (interface_field sg id idef f c) (λ ir c', fi_ok sg c' ir).
Proof.
  intros Hwf Hi Hd Hf. destruct (field_parts sg Hsg f Hf) as (_ & Hn & Ht & Ho & _).
  destruct (def_parts sg Hsg idef Hd) as (_ & _ & _ & _ & Hs). unfold interface_field.
  eapply ok_bind; [by apply ok_translate_arguments|]. intros args c1 Hwf1 G1 Hargs. carryc G1.
  eapply ok_bind; [by apply ok_collect|]. intros dirs c2 Hwf2 G2 Hdirs. carryc G2.
  eapply ok_bind; [by apply ok_insert_string_option|]. intros desc c3 Hwf3 G3 Hdesc. carryc G3.
  apply ok_ret; [done|]. split_and!; simpl; [by exists name|done|done|done|done|done| |constructor|constructor| |constructor].
  - destruct (is_part_of_key _ _); [constructor|by constructor].
  - by apply authorized_field_ok.
Qed.
Lemma ok_interface_object_field c id name def f :
  ir_wf sg c → interface_at c id name → def_ok sg def → field_ok sg f →
  ok c (interface_object_field sg id def f c) (λ ir c', fi_ok sg c' ir).
Proof.
  intros Hwf Hi Hd Hf. destruct (field_parts sg Hsg f Hf) as (_ & Hn & Ht & Ho & _).
  destruct (def_parts sg Hsg def Hd) as (_ & _ & _ & _ & Hs). unfold interface_object_field.
  eapply ok_bind; [apply ok_overrides; [done|done|by constructor]|]. intros os c1 Hwf1 G1 Hos. carryc G1.
  eapply ok_bind; [by apply ok_collect|]. intros dirs c2 Hwf2 G2 Hdirs. carryc G2.
  eapply ok_bind; [by apply ok_insert_string_option|]. intros desc c3 Hwf3 G3 Hdesc. carryc G3.
  eapply ok_bind; [by apply ok_translate_arguments|]. intros args c4 Hwf4 G4 Hargs. carryc G4.
  assert (field_exists sg f.1) as Hfe by by exists f.2.
  apply ok_ret; [done|]. split_and!; simpl; [by exists name|done|done|done|done|done|by constructor| | |by apply authorized_field_ok|done].
  - destruct (has_provides sg f); by repeat constructor.
  - destruct (has_requires sg f); by repeat constructor.
Qed.
Definition irs_ok c (acc : gmap StringId FieldIr) : Prop := ∀ n ir, acc !! n = Some ir → fi_ok sg c ir.
Lemma irs_ok_mono c c' acc : ir_grows c c' → irs_ok c acc → irs_ok c' acc.
Proof. intros G Ha n ir Hn. apply (fi_ok_mono _ G). by eapply Ha. Qed.
Lemma ok_add_entity_fields c (P : Ctx → Prop) mk acc fs :
  (∀ c c', ir_grows c c' → P c → P c') →
  (∀ c f, f ∈ fs → ir_wf sg c → P c → ok c (mk f c) (λ ir c', fi_ok sg c' ir)) →
  ir_wf sg c → P c → irs_ok c acc → ok c (add_entity_fields sg mk acc fs c) (λ acc c', irs_ok c' acc).
Proof.
  intros HP Hmk Hwf HPc Hacc.
  eapply ok_wand; [apply (ok_foldM _ _ (λ acc c', P c' ∧ irs_ok c' acc)); [|done|done]|by intros ? ? _ []].
  intros acc1 f c1 Hf Hwf1 [HP1 Ha1]. destruct (acc1 !! f.1.2); [by apply ok_ret|].
  eapply ok_bind; [by apply Hmk|]. intros ir c2 Hwf2 G2 Hir. apply ok_ret; [done|]. split; [by eapply HP|].
  intros n ir'. rewrite lookup_insert_Some. intros [[_ <-]|[_ Hn]]; [done|]. apply (fi_ok_mono _ G2). by eapply Ha1.
Qed.
Lemma implementers_defined s n id : id ∈ interface_implementers sg s n → defined sg id.
Proof.
  intros (e & _ & Hid)%list_elem_of_omap. destruct (def_names _ (wf_definitions _ Hsg) _ _ _ Hid) as (d & Hd & _).
  by eapply lookup_lt_Some.
Qed.
Lemma reads_implementer_names n d :
  def_ok sg d → returns (implementer_names sg n d) (λ s, ∀ m, m ∈ s → interned sg m).
Proof.
  intros Hd. unfold implementer_names. destruct (def_parts sg Hsg d Hd) as (_ & _ & _ & _ & Hs).
  destruct (subgraph_at sg Hsg _ Hs) as (x & -> & _). simpl. eapply returns_bind.
  { apply (returns_mapM _ (λ _ m, interned sg m)). intros id Hid%implementers_defined.
    eapply returns_bind; [by apply reads_definition|]. intros y Hy. apply returns_ret. by destruct (def_parts sg Hsg _ Hy) as (_ & ? & _). }
  intros names HF m [i Hm]%elem_of_list_to_set%list_elem_of_lookup. by eapply Forall2_lookup_r in HF as (? & _ & ?).
Qed.
Lemma ok_check_entity_interface c n all d :
  ir_wf sg c → interned sg n → (∀ m, m ∈ all → interned sg m) → def_ok sg d →
  ok c (check_entity_interface sg n all d c) (λ _ _, True).
Proof.
  intros Hwf Hn Hall Hd. unfold check_entity_interface. eapply ok_read; [by apply reads_implementer_names|].
  intros s Hs. apply ok_then.
  - case_decide; [by apply ok_ret|]. apply ok_read_message; [done|]. unfold missing_implementers_message.
    eapply returns_bind; [by apply reads_subgraph_name|]. intros ? _. eapply returns_bind; [by apply reads_string|]. intros ? _.
    eapply returns_bind; [|done]. apply (returns_mapM _ (λ _ _, True)).
    intros m [Hm _]%elem_of_btree_set_iter%elem_of_difference. by apply reads_string, Hall.
  - intros c1 Hwf1 _. destruct (interface_object _ _); [|by apply ok_ret]. apply ok_read_message; [done|solve_reads].
Qed.
Lemma ok_check_entity_interfaces c n l :
  ir_wf sg c → interned sg n → Forall (def_ok sg) l → ok c (check_entity_interfaces sg n l c) (λ _ _, True).
Proof.
  intros Hwf Hn Hl. rewrite Forall_forall in Hl. eapply ok_read.
  { apply (returns_mapM _ (λ _ s, ∀ m, m ∈ s → interned sg m)). intros d Hd. apply reads_implementer_names. by apply Hl. }
  intros sets HF. apply ok_each_simple; [|done]. intros d c1 Hd Hwf1.
  apply ok_check_entity_interface; [done|done| |by apply Hl].
  intros m (s & [i Hs]%list_elem_of_lookup & Hm)%elem_of_union_list. by eapply Forall2_lookup_r in HF as (? & _ & Hi); [apply Hi|].
Qed.
Lemma ok_key_check c id (k : Key) (message : res string) :
  ir_wf sg c → id < length (keys sg) → returns message (λ _, True) →
  ok c ((key ← lift (key_at sg id);
         if list_eqb selection_eqb (selection_set key) (selection_set k) then mret ()
         else m ← lift message; push_fatal m) c) (λ _ _, True).
Proof.
  intros Hwf Hid Hm. eapply ok_read; [by apply reads_key|]. intros key _.
  destruct (list_eqb _ _ _); [by apply ok_ret|by apply ok_read_message].
Qed.
Lemma ok_interface_object c first id name k idef acc d :
  ir_wf sg c → def_ok sg first → interface_at c id name → def_ok sg idef → irs_ok c acc → def_ok sg d →
  ok c (merge_interface_object sg first id k idef acc d c) (λ acc c', irs_ok c' acc ∧ interface_at c' id name).
Proof.
  intros Hwf Hf Hi Hid Ha Hd. unfold merge_interface_object.
  pose proof (elem_of_entity_key_ids sg Hsg d.1) as Hkeys. apply ok_then.
  { destruct (interface_object _ _); [by apply ok_ret|]. apply ok_read_message; [done|solve_reads]. }
  intros c1 Hwf1 G1. carryc G1. apply (irs_ok_mono _ _ _ G1) in Ha. apply ok_then.
  { destruct (entity_key_ids sg d.1) as [|kid kids]; [apply ok_read_message; [done|solve_reads]|].
    apply ok_key_check; [done|apply Hkeys; by left|solve_reads]. }
  intros c2 Hwf2 G2. carryc G2. apply (irs_ok_mono _ _ _ G2) in Ha. apply ok_then.
  { apply (ok_keys _ _ (λ kid key, if resolvable key then insert_interface_resolvable_key id kid key true else mret ())
      (λ c, interface_at c id name)); [intros ? ? G; apply (interface_at_mono G)| |done|done|done].
    intros c3 kid key Hwf3 Hi3 Hk. destruct (resolvable key); [|by apply ok_ret].
    apply ok_insert_key_ir; [done|]. split; [by exists name|done]. }
  intros c3 Hwf3 G3. carryc G3. apply (irs_ok_mono _ _ _ G3) in Ha. eapply ok_wand.
  { apply (ok_add_entity_fields _ (λ c, interface_at c id name)); [intros ? ? G; apply (interface_at_mono G)| |done|done|done].
    intros c4 f Hfi Hwf4 Hi4. destruct (elem_of_fields sg _ _ Hfi) as [Hfo _]. by eapply ok_interface_object_field. }
  intros acc' c4 G4 Ha4. carryc G4. done.
Qed.

Definition ids_ok c (l : list (StringId * nat)) : Prop := Forall (λ e, e.2 < length (ir_fields (ir_tables c))) l.
Lemma ids_ok_mono c c' l : ir_grows c c' → ids_ok c l → ids_ok c' l.
Proof.
  intros G Hl. pose proof (prefix_length _ _ (gr_fields _ _ G)) as HL. eapply Forall_impl; [exact Hl|]. intros e He. cbn beta in He |- *. lia.
Qed.
Lemma ok_insert_entity_fields c acc :
  ir_wf sg c → irs_ok c acc → ok c (insert_entity_fields acc c) (λ l c', ids_ok c' l).
Proof.
  intros Hwf Ha. unfold insert_entity_fields.
  assert (Forall (λ e : StringId * FieldIr, fi_ok sg c e.2) (btree_map_iter acc)) as HF.
  { apply Forall_forall. intros [n ir] Hin%elem_of_btree_map_iter. by eapply Ha. }
  revert HF. generalize (btree_map_iter acc). clear Ha. intros l.
  induction l as [|e l IH] in c, Hwf |- *; intros HF; cbn [mapM]; [apply ok_ret; [done|constructor]|].
  apply Forall_cons in HF as [He HF]. eapply ok_bind.
  { eapply ok_bind; [by apply ok_insert_field|]. intros id c1 Hwf1 _ Hid.
    apply (ok_ret _ _ _ _ (λ e c', e.2 < length (ir_fields (ir_tables c')))); done. }
  intros y c1 Hwf1 G1 Hy. cbn beta in Hy. eapply ok_bind.
  { apply IH; [done|]. eapply Forall_impl; [exact HF|]. intros e'. apply (fi_ok_mono _ G1). }
  intros ys c2 Hwf2 G2 Hys. apply ok_ret; [done|]. constructor; [|done].
  pose proof (prefix_length _ _ (gr_fields _ _ G2)). cbn beta. lia.
Qed.
Lemma ok_contribute c first k ids id :
  ir_wf sg c → def_ok sg first → ids_ok c ids → defined sg id → ok c (contribute_fields sg first k ids id c) (λ _ _, True).
Proof.
  intros Hwf Hf Hids Hid. unfold contribute_fields. eapply ok_read; [by apply reads_walk|]. intros o [_ Ho].
  pose proof (elem_of_entity_key_ids sg Hsg o.1) as Hkeys. destruct (def_parts sg Hsg o Ho) as (_ & Hn & _). apply ok_then.
  { destruct (entity_key_ids sg o.1) as [|kid kids]; [apply ok_read_message; [done|solve_reads]|].
    apply ok_key_check; [done|apply Hkeys; by left|solve_reads]. }
  intros c1 Hwf1 G1. apply (ids_ok_mono _ _ _ G1) in Hids.
  eapply ok_bind; [by apply ok_insert_string|]. intros name c2 Hwf2 G2 Hname. apply (ids_ok_mono _ _ _ G2) in Hids.
  apply (ok_each _ _ (λ c, str_ok c name ∧ ids_ok c ids)); [|  |done|done].
  - intros ? ? G [? ?]. split; [by apply (str_ok_mono G)|by eapply ids_ok_mono].
  - intros e c3 [_ He]%list_elem_of_filter Hwf3 [Hn3 Hi3]. apply ok_entity_interface_field; [done|done|].
    unfold ids_ok in Hi3. rewrite Forall_forall in Hi3. by apply Hi3.
Qed.
Lemma filter_defs_ok (P : Def → Prop) `{!∀ d, Decision (P d)} l : Forall (def_ok sg) l → Forall (def_ok sg) (filter P l).
Proof. intros HF. apply Forall_forall. intros d [_ Hd]%list_elem_of_filter. rewrite Forall_forall in HF. by apply HF. Qed.
Lemma ok_entity c first l :
  ir_wf sg c → def_ok sg first → Forall (def_ok sg) l →
  ok c (merge_entity_interface_definitions sg first l c) (λ _ c', failed c' ∨ composed_as c' (str sg (definition_name first.2))).
Proof.
  intros Hwf Hf Hl. unfold merge_entity_interface_definitions. destruct (def_parts sg Hsg first Hf) as (_ & Hn & _).
  eapply ok_bind; [by apply ok_collect|]. intros dirs c1 Hwf1 G1 Hdirs. cbv zeta.
  pose proof (filter_defs_ok (λ d, definition_kind d.2 = DInterface) l Hl) as Hids.
  destruct (filter _ l) as [|idef others]; [eapply ok_wand; [apply ok_fail; [done|solve_reads]|by left]|].
  pose proof Hids as Hids'. apply Forall_cons in Hids' as [Hidef _].
  apply ok_then; [case_decide; [by apply ok_ret|by apply ok_check_entity_interfaces]|].
  intros c2 Hwf2 G2. carryc G2.
  eapply ok_read; [apply reads_find_description; [done|by constructor]|]. intros desc _.
  eapply ok_bind; [by apply ok_insert_name|]. intros name c3 Hwf3 G3 [Hname Hstr]. carryc G3.
  eapply ok_bind; [by apply ok_insert_interface|]. intros id c4 Hwf4 G4 [Hid Hdef]. apply (gr_strings _ _ G4) in Hstr.
  assert (composed_as c4 (str sg (definition_name first.2))) as Hc by by exists name. apply ok_then.
  { apply (ok_authorized_sites sg Hsg E _ (λ c, interface_at c id name)); [intros ? ? G; apply (interface_at_mono G)| |done|done|done].
    intros c5 site Hwf5 Hi Hs. apply ok_interface_authorized; [done|by exists name|done]. }
  intros c5 Hwf5 G5. carryc G5. eapply ok_bind.
  { apply (ok_add_entity_fields _ (λ c, interface_at c id name)); [intros ? ? G; apply (interface_at_mono G)| |done|done|done].
    intros c6 f Hfi Hwf6 Hi. destruct (elem_of_fields sg _ _ Hfi) as [Hfo _]. by eapply ok_entity_field. }
  intros acc c6 Hwf6 G6 Hacc. carryc G6. pose proof (elem_of_entity_key_ids sg Hsg idef.1) as Hkeys.
  destruct (entity_key_ids sg idef.1) as [|kid kids]; [eapply ok_wand; [apply ok_fail; [done|solve_reads]|by left]|].
  assert (kid < length (keys sg)) as Hkid by (apply Hkeys; by left).
  eapply ok_read; [by apply reads_key|]. intros key _. apply ok_then.
  { apply ok_insert_key_ir; [done|]. split; [by exists name|done]. }
  intros c7 Hwf7 G7. carryc G7. apply (irs_ok_mono _ _ _ G7) in Hacc. eapply ok_bind.
  { apply (ok_foldM _ _ (λ acc c', irs_ok c' acc ∧ interface_at c' id name)); [|done|done].
    intros acc1 d c8 [_ Hd]%list_elem_of_filter Hwf8 [Ha8 Hi8]. rewrite Forall_forall in Hl.
    apply ok_interface_object; [done|done|done|done|done|by apply Hl]. }
  intros acc1 c8 Hwf8 G8 [Ha8 _]. carryc G8. eapply ok_bind; [by apply ok_insert_entity_fields|]. intros ids c9 Hwf9 G9 Hids9.
  carryc G9.
  destruct (def_parts sg Hsg idef Hidef) as (_ & _ & _ & _ & Hsub). destruct (subgraph_at sg Hsg _ Hsub) as (x & Hx & _).
  eapply (ok_read _ _ _ _ _ (λ _, True)); [by rewrite Hx|]. intros _ _.
  eapply ok_wand; [|intros _ c' G _; right; by apply (composed_as_mono G)].
  apply (ok_each _ _ (λ c, ids_ok c ids)); [intros ? ? G; by apply ids_ok_mono| |done|done].
  intros oid c10 Hoid Hwf10 Hids10. apply ok_contribute; [done..|]. by eapply implementers_defined.
Qed.

(** ** Roots *)
Lemma ok_merge_fields c root l :
  ir_wf sg c → Forall (def_ok sg) l →
  ok c (merge_fields sg root l c) (λ o c', ∀ id, o = Some id → fed_ok c' (FObject id)).
Proof.
  intros Hwf Hl. unfold merge_fields. case_decide; [by apply ok_ret|].
  eapply ok_bind; [by apply ok_insert_static_str|]. intros name c1 Hwf1 G1 Hname.
  eapply ok_bind; [by apply ok_collect|]. intros dirs c2 Hwf2 G2 Hd. carryc G2.
  eapply ok_bind; [by apply ok_insert_object|]. intros id c3 Hwf3 G3 [Hid _].
  apply ok_then; [by eapply ok_fields_of|]. intros c4 Hwf4 G4. carryc G4. apply ok_ret; [done|].
  intros ? [= <-]. by exists name.
Qed.
Lemma reads_root_types (root : Subgraph → option DefinitionId) :
  (∀ s id, root s = Some id → query_type s = Some id ∨ mutation_type s = Some id ∨ subscription_type s = Some id) →
  returns (root_types sg root) (Forall (def_ok sg)).
Proof.
  intros Hroot. unfold root_types. eapply returns_wand.
  { apply (returns_mapM _ (λ _ d, def_ok sg d)). intros id (s & Hs & Hid)%list_elem_of_omap.
    destruct (link_subgraphs _ (wf_links _ Hsg) s Hs) as (_ & _ & Hr).
    eapply returns_wand; [apply reads_walk, Hr, Hroot, Hid|]. naive_solver. }
  intros ds HF. apply Forall_forall. intros d [i Hd]%list_elem_of_lookup. by eapply Forall2_lookup_r in HF as (? & _ & ?).
Qed.
Lemma ok_roots c :
  ir_wf sg c → ok c (merge_root_fields sg c) (λ _ c', failed c' ∨ is_Some (root_query (ir_tables c'))).
Proof.
  intros Hwf. unfold merge_root_fields.
  eapply ok_read; [apply reads_root_types; tauto|]. intros qs Hqs.
  eapply ok_read; [apply reads_root_types; tauto|]. intros ms Hms.
  eapply ok_read; [apply reads_root_types; tauto|]. intros ss Hss.
  eapply ok_bind; [by apply ok_merge_fields|]. intros [q|] c1 Hwf1 _ Hq; last first.
  { eapply ok_wand; [by apply (ok_fail sg E _ (Ret _))|]. by left. }
  eapply ok_bind; [by apply ok_set_query, Hq|]. intros [] c2 Hwf2 _ Hq2. cbn beta in Hq2.
  eapply ok_wand; [|intros [] c' G _; right; by apply (gr_query _ _ G)].
  eapply ok_bind; [by apply ok_merge_fields|]. intros m c3 Hwf3 _ Hm. apply ok_then.
  { destruct m as [id|]; [by apply ok_set_roots, Hm|by apply ok_ret]. }
  intros c4 Hwf4 _. eapply ok_bind; [by apply ok_merge_fields|]. intros s c5 Hwf5 _ Hs.
  destruct s as [id|]; [by apply ok_set_roots, Hs|by apply ok_ret].
Qed.
End props.
