(* ===== verification/ComposeGroups.v ===== *)
(** * Composing the subgraphs: the groups, the enums and [compose_subgraphs]

    [Subgraphs::iter_definition_groups] passes on, for each name, the
    definitions with that name; every group is composed in a well-formed
    context, and the only group whose composition can panic is that of an enum. *)
From S2P Require Import Prelude RustStd CheckSchema IndexSet FieldTypes Subgraphs Ingest IngestRules IngestClaims Walkers ComposeContext ComposeDirectives ComposeTables ComposeEnums ComposeEnumsClaims Compose ComposeEntity ComposeInvariant ComposeRules ComposeProps ComposeEntityProps.
Local Open Scope string_scope.
Local Open Scope list_scope.
Local Open Scope nat_scope.

Section groups.
Context `{IndexSetLaws} (sg : Subgraphs).
Abbreviation Entry := (StringId * SubgraphId * DefinitionId)%type.
Implicit Types l : list Entry.

(** ** The groups *)

(** The definition of the entry is not a root type of its subgraph. *)
Definition nonroot (e : Entry) : bool :=
  match is_root_type sg e.1.2 e.2 with Ret b => negb b | Panic _ => false end.
(** The definitions named [n] that are not root types. *)
Definition members (n : StringId) l : list DefinitionId := (filter (λ e, e.1.1 = n ∧ nonroot e) l).*2.
Definition group_of (n : StringId) : list DefinitionId := members n (btree_map_iter (definition_names sg)).

Lemma is_root_type_returns e : e.1.2 < length (subgraphs sg) → is_root_type sg e.1.2 e.2 = Ret (negb (nonroot e)).
Proof.
  intros [s Hs]%lookup_lt_is_Some. unfold nonroot, is_root_type. rewrite Hs. simpl. by rewrite negb_involutive.
Qed.
Lemma members_cons n e l :
  members n (e :: l) = (if decide (e.1.1 = n) then (if nonroot e then [e.2] else []) else []) ++ members n l.
Proof.
  unfold members. rewrite filter_cons. destruct (nonroot e) eqn:En; repeat case_decide; try naive_solver.
Qed.
Lemma members_none n l : Forall (λ e, e.1.1 ≠ n) l → members n l = [].
Proof. induction 1 as [|e l He HF IH]; [done|]. rewrite members_cons, decide_False, IH by done. done. Qed.

Lemma groups_loop_spec l k buf :
  Forall (λ e, e.1.2 < length (subgraphs sg)) l → sorted_by (λ e : Entry, e.1.1) l → Forall (λ e, k ≤ e.1.1) l →
  ∃ ns, groups_loop sg (Some k) buf l = Ret ((buf ++ members k l) :: ((λ n, members n l) <$> ns)) ∧
    StronglySorted lt (k :: ns) ∧ (∀ n, n ∈ ns ↔ n ≠ k ∧ n ∈ (λ e : Entry, e.1.1) <$> l).
Proof.
  intros Hs Hl Hk. induction l as [|[[n s] id] l IH] in k, buf, Hs, Hl, Hk |- *.
  { exists []. cbn [groups_loop]. unfold members. rewrite filter_nil. simpl. rewrite app_nil_r.
    split_and!; [done|repeat constructor|set_solver]. }
  apply Forall_cons in Hs as [Hs1 Hs]. apply StronglySorted_inv in Hl as [Hl Hn].
  apply Forall_cons in Hk as [Hk1 Hk]. simpl in Hk1.
  assert (Forall (λ e : Entry, n ≤ e.1.1) l) as Hn'.
  { eapply Forall_impl; [exact Hn|]. intros e. apply cmp_le_nat. }
  cbn [groups_loop]. 
  pose proof (is_root_type_returns (n, s, id) Hs1) as Hr. cbn in Hr. rewrite Hr. cbn [mbind res_bind].
  rewrite if_negb. destruct (decide (n = k)) as [->|Hne].
  - rewrite bool_decide_true by done. simpl.
    destruct (IH k (if nonroot (k, s, id) then buf ++ [id] else buf) Hs Hl Hk) as (ns & -> & Hss & Hns).
    exists ns. split_and!; [|done|set_solver]. simpl. rewrite members_cons, decide_True by done. f_equal. f_equal.
    + destruct (nonroot (k, s, id)); simpl; by rewrite <-?(assoc_L (++)).
    + apply list_fmap_ext. intros i m Hm%list_elem_of_lookup_2. rewrite members_cons, decide_False; [done|].
      simpl. apply Hns in Hm as [? _]. done.
  - rewrite bool_decide_false by congruence. simpl.
    destruct (IH n (if nonroot (n, s, id) then [id] else []) Hs Hl Hn') as (ns & -> & Hss & Hns).
    exists (n :: ns). split_and!.
    + simpl. rewrite members_cons, decide_False, (members_none k) by
        (done || (eapply Forall_impl; [exact Hn'|]; simpl; lia)).
      rewrite app_nil_r. f_equal. f_equal. rewrite members_cons, decide_True by done. simpl. f_equal.
      apply list_fmap_ext. intros i m Hm%list_elem_of_lookup_2. rewrite members_cons, decide_False; [done|].
      simpl. apply Hns in Hm as [? _]. done.
    + constructor; [done|]. constructor; [lia|]. apply StronglySorted_inv in Hss as [_ Hlt].
      eapply Forall_impl; [exact Hlt|]. simpl. lia.
    + intros m. rewrite elem_of_cons, Hns. simpl. rewrite elem_of_cons. split; [|destruct (decide (m = n)); tauto].
      intros [->|[? Hm]]; [split; [done|by left]|]. split; [|by right]. intros ->.
      apply list_elem_of_fmap in Hm as (e & -> & He). rewrite Forall_forall in Hn'. specialize (Hn' e He). simpl in *. lia.
Qed.

Section wf.
Context (Hsg : wf sg).
Lemma definition_names_sorted : sorted_by (λ e : Entry, e.1.1) (btree_map_iter (definition_names sg)).
Proof.
  pose proof (btree_map_iter_lt (definition_names sg)) as Hs. unfold sorted_by.
  induction (btree_map_iter (definition_names sg)) as [|e l IH]; [constructor|].
  rewrite fmap_cons in Hs. apply StronglySorted_inv in Hs as [Hs Hx]. constructor; [by apply IH|].
  rewrite Forall_fmap in Hx. eapply Forall_impl; [exact Hx|]. intros e' He'.
  unfold cmp_lt, cmp, prod_ord, then_with in He'. unfold cmp_le. simpl in *. by destruct (cmp e.1.1 e'.1.1).
Qed.
Lemma names_subgraphs : Forall (λ e : Entry, e.1.2 < length (subgraphs sg)) (btree_map_iter (definition_names sg)).
Proof.
  apply Forall_forall. intros [[n s] id] Hin%elem_of_btree_map_iter.
  destruct (def_names _ (wf_definitions _ Hsg) _ _ _ Hin) as (d & Hd & _ & <-).
  by destruct (def_ids _ (wf_definitions _ Hsg) _ _ Hd) as (_ & _ & _ & ? & _).
Qed.
Lemma iter_groups :
  ∃ names, iter_definition_groups sg = Ret ([] :: (group_of <$> names)) ∧ StronglySorted lt names ∧
    (∀ n, n ∈ names ↔ ∃ s, is_Some (definition_names sg !! (n, s))).
Proof.
  assert (∀ n, n ∈ (λ e : Entry, e.1.1) <$> btree_map_iter (definition_names sg) ↔ ∃ s, is_Some (definition_names sg !! (n, s))) as Hin.
  { intros n. rewrite list_elem_of_fmap. split.
    - intros ([[n' s] id] & -> & He%elem_of_btree_map_iter). by exists s, id.
    - intros (s & id & He). exists (n, s, id). split; [done|]. by apply elem_of_btree_map_iter. }
  pose proof definition_names_sorted as Hs. pose proof names_subgraphs as Hb. unfold iter_definition_groups, group_of.
  destruct (btree_map_iter (definition_names sg)) as [|[[n s] id] l] eqn:El.
  { exists []. split_and!; [done|constructor|]. intros n. by rewrite <-Hin. }
  destruct (groups_loop_spec ((n, s, id) :: l) n [] Hb Hs) as (ns & E & Hss & Hns).
  { constructor; [simpl; lia|]. apply StronglySorted_inv in Hs as [_ Hx]. eapply Forall_impl; [exact Hx|]. intros e. apply cmp_le_nat. }
  exists (n :: ns). split_and!; [|done|].
  - cbn [groups_loop] in E |- *. rewrite bool_decide_true in E by done. rewrite bool_decide_false by done. simpl in E |- *.
    destruct (is_root_type sg s id) as [r|]; [|done]. simpl in *. destruct (groups_loop _ _ _ _); [|done]. simpl in *.
    injection E as ->. done.
  - intros m. rewrite <-Hin, elem_of_cons, Hns, fmap_cons, elem_of_cons. destruct (decide (m = n)); tauto.
Qed.
Lemma elem_of_group_of n id :
  id ∈ group_of n ↔ ∃ s, definition_names sg !! (n, s) = Some id ∧ is_root_type sg s id = Ret false.
Proof.
  unfold group_of, members. rewrite list_elem_of_fmap. split.
  - intros ([[n' s] id'] & -> & [[<- Hr] Hin%elem_of_btree_map_iter]%list_elem_of_filter). exists s. split; [done|].
    unfold nonroot in Hr. simpl in *. by destruct (is_root_type sg s id') as [[]|].
  - intros (s & Hin & Hr). exists (n, s, id). split; [done|]. apply list_elem_of_filter.
    split; [|by apply elem_of_btree_map_iter]. split; [done|]. unfold nonroot. simpl. by rewrite Hr.
Qed.
Lemma group_of_defined n id : id ∈ group_of n → ∃ d, definitions sg !! id = Some d ∧ definition_name d = n.
Proof.
  intros (s & Hin & _)%elem_of_group_of. destruct (def_names _ (wf_definitions _ Hsg) _ _ _ Hin) as (d & ? & ? & _).
  by exists d.
Qed.
End wf.
End groups.

(** ** Enums *)
Section enums.
Context `{IndexSetLaws} (sg : Subgraphs) (Hsg : wf sg).
Implicit Types c : Ctx.
Abbreviation ok := (ok sg True).

(** Where a panic is allowed, nothing needs to be known of what is read. *)
Lemma ok_lift {A B} c (r : res A) (f : A → M B) Q : (∀ a, ok c (f a c) Q) → ok c ((a ← lift r; f a) c) Q.
Proof. intros Hf. destruct r as [a|m]; [exact (Hf a)|done]. Qed.
Lemma ok_insert_enum c s o dirs :
  ir_wf sg c → dirs_ok c dirs → ok c (insert_enum s o dirs c) (λ id c', ∃ name, type_at c' id TEnum name).
Proof.
  intros Hwf Hd. unfold insert_enum.
  eapply ok_bind; [by apply ok_insert_static_str|]. intros n c1 Hwf1 G1 Hn. carryc G1.
  eapply ok_bind; [by apply ok_insert_optional_str|]. intros d c2 Hwf2 G2 Ho. carryc G2. unfold push_enum_definition.
  match goal with |- ok _ (Ret (?i, ?c')) _ =>
    assert (ir_grows c2 c') as G by (split; simpl; first [done|by apply prefix_app_r|intros ? ?; rewrite lookup_insert_is_Some'; by right]);
    assert (type_at c' i TEnum n) as Ht by (eexists; simpl; split; [by apply list_lookup_middle|done]) end.
  apply ok_step; [done|done| |by exists n]. untouched.
  - intros m e. rewrite lookup_insert_Some. intros [[<- <-]|[_ Hm]]; [by right|by left].
  - apply appended_one. apply (td_ok_mono G). by split_and!.
Qed.
Lemma ok_insert_enum_value c s o dirs id :
  ir_wf sg c → dirs_ok c dirs → (∃ name, type_at c id TEnum name) →
  ok c (insert_enum_value s o dirs id c) (λ _ _, True).
Proof.
  intros Hwf Hd (name & Hid). unfold insert_enum_value.
  eapply ok_bind; [by apply ok_insert_static_str|]. intros n c1 Hwf1 G1 Hn. carryc G1.
  eapply ok_bind; [by apply ok_insert_optional_str|]. intros d c2 Hwf2 G2 Ho. carryc G2. unfold push_enum_value_record.
  match goal with |- ok _ (Ret (?i, ?c')) _ =>
    assert (ir_grows c2 c') as G by (split; simpl; first [done|by apply prefix_app_r]) end.
  apply ok_step; [done|done| |done]. untouched.
  apply appended_one. apply (ev_ok_mono G). split_and!; [by exists name|done..].
Qed.
Lemma ok_value c sites v id :
  ir_wf sg c → (∃ name, type_at c id TEnum name) →
  ok c ((composed_directives ← collect_composed_directives sg sites;
         s ← lift (string_at sg v);
         _ ← insert_enum_value s None composed_directives id;
         mret ()) c) (λ _ _, True).
Proof.
  intros Hwf (name & Hid). eapply ok_bind; [by apply ok_collect|]. intros dirs c1 Hwf1 G1 Hd. carryc G1.
  apply ok_lift. intros s. eapply ok_bind; [apply ok_insert_enum_value; [done|done|by exists name]|].
  intros i c2 Hwf2 _ _. by apply ok_ret.
Qed.
Lemma ok_values {A} c (f : A → M unit) l id :
  (∀ x c, ir_wf sg c → (∃ name, type_at c id TEnum name) → ok c (f x c) (λ _ _, True)) →
  ir_wf sg c → (∃ name, type_at c id TEnum name) → ok c (foldM (λ _, f) () l c) (λ _ _, True).
Proof.
  intros Hf Hwf Hid. apply (ok_each _ _ (λ c, ∃ name, type_at c id TEnum name)); [| |done|done].
  - intros c1 c2 G (name & Ht). exists name. by apply (type_at_mono G).
  - intros x c1 _ Hwf1 Hid1. by apply Hf.
Qed.
Lemma ok_merge_enum_any c first l : ir_wf sg c → ok c (merge_enum_definitions sg first l c) (λ _ _, True).
Proof.
  intros Hwf. unfold merge_enum_definitions. apply ok_lift. intros x. cbv zeta. apply ok_lift. intros ds.
  eapply ok_bind; [by apply ok_collect|]. intros dirs c1 Hwf1 G1 Hd. cbn beta in Hd.
  apply ok_lift. intros desc. apply ok_lift. intros i. apply ok_lift. intros o.
  assert (∀ k : TypeDefinitionId → M unit,
    (∀ id c, ir_wf sg c → (∃ name, type_at c id TEnum name) → ok c (k id c) (λ _ _, True)) →
    ok c1 ((id ← (name ← lift (string_at sg (definition_name x)); insert_enum name desc dirs); k id) c1) (λ _ _, True)) as Hk.
  { intros k Hk. eapply ok_bind; [apply ok_lift; intros s; by apply ok_insert_enum|].
    intros id c2 Hwf2 _ Hid. by apply Hk. }
  destruct i, o; [| | |by apply ok_ret]; apply Hk; intros id c2 Hwf2 Hid.
  - unfold merge_exactly_matching. cbv zeta. apply ok_lift. intros [].
    + apply (ok_values _ _ _ id); [|done|done]. intros v c3 Hwf3 Hid3. by apply ok_value.
    + apply ok_lift. intros m. by apply ok_push_fatal.
  - unfold merge_intersection. cbv zeta. destruct Hid as (name & Hid). apply ok_then.
    { case_decide; [apply ok_lift; intros m; by apply ok_push_fatal|by apply ok_ret]. }
    intros c3 Hwf3 G3. carryc G3. apply (ok_values _ _ _ id); [|done|by exists name].
    intros v c4 Hwf4 Hid4. by apply ok_value.
  - unfold merge_union. cbv zeta. apply (ok_values _ _ _ id); [|done|done]. intros [|[v s] g] c3 Hwf3 Hid3; [by apply ok_ret|].
    by apply ok_value.
Qed.
End enums.

(** ** All groups *)
Section compose.
Context `{IndexSetLaws} (sg : Subgraphs) (Hsg : wf sg).
Implicit Types c : Ctx.

(** Some enum is used in input and in return position, and the first of its
    definitions that differs from the first one has its values and more after
    them. *)
Definition enum_outgrown : Prop :=
  ∃ n first rest x, group_of sg n = first :: rest ∧ definitions sg !! first = Some x ∧ definition_kind x = DEnum ∧
    used_in_input sg n ∧ used_in_return sg n ∧
    first_mismatch sg (value_names sg first) (first :: rest) (strictly_extends (value_names sg first)).
Context (Hlen : (N.of_nat (iset_len (strings (store sg))) ≤ usize_max)%N).
Abbreviation ok := (ok sg enum_outgrown).

Lemma ok_enum c n first rest x :
  ir_wf sg c → group_of sg n = first :: rest → definitions sg !! first = Some x → definition_kind x = DEnum →
  ok c (merge_enum_definitions sg first (first :: rest) c)
    (λ _ c', used_in_input sg n ∨ used_in_return sg n → composed_as c' (str sg n)).
Proof.
  intros Hwf Hg Hx Hk. pose proof (ok_merge_enum_any sg Hsg c first (first :: rest) Hwf) as Hok.
  assert (enums_ok sg (first :: rest)) as He.
  { apply wf_enums_ok; [done|done|]. apply Forall_forall. intros id Hid. rewrite <-Hg in Hid.
    destruct (group_of_defined sg Hsg n id Hid) as (d & Hd & _). by eapply lookup_lt_Some. }
  destruct (group_of_defined sg Hsg n first) as (x' & Hx' & Hn); [rewrite Hg; by left|].
  assert (definition_name x = n) as <- by congruence.
  destruct (merge_enum_definitions sg first (first :: rest) c) as [[[] c']|msg] eqn:E.
  - destruct Hok as (? & ? & _). split_and!; [done|done|]. intros Hused.
    destruct (merge_enum_definitions_adds sg first rest He (wf_fields_ok sg Hsg) x Hx c c' E Hused) as (l & msgs & Hadds).
    destruct Hadds as (td & evs & _ & _ & Hnm & EN & _). exists (td_name td). split; [exact Hnm|].
    rewrite EN, lookup_insert_is_Some'. by left.
  - apply merge_enum_definitions_panics with (x := x) in E as (? & ? & ?); [|done|by apply wf_fields_ok|done].
    by exists (definition_name x), first, rest, x.
Qed.
(** The definitions with this name make a type of the composed graph: there are
    some besides root types, and an enum is used. *)
Definition composable (n : StringId) : Prop :=
  ∃ first rest x, group_of sg n = first :: rest ∧ definitions sg !! first = Some x ∧
    (definition_kind x = DEnum → used_in_input sg n ∨ used_in_return sg n).
Definition group_done (g : list DefinitionId) c : Prop :=
  failed c ∨ ∀ n, g = group_of sg n → composable n → composed_as c (str sg n).
Lemma failed_mono c c' : ir_grows c c' → failed c → failed c'.
Proof. intros G Hf E. apply Hf. pose proof (gr_diagnostics _ _ G) as Hp. rewrite E in Hp. by apply prefix_nil_inv. Qed.
Lemma group_done_mono g c c' : ir_grows c c' → group_done g c → group_done g c'.
Proof.
  intros G [Hf|Hd]; [left; by eapply failed_mono|right]. intros n E Hn. by apply (composed_as_mono G), Hd.
Qed.
Lemma ok_group c n : ir_wf sg c → ok c (compose_group sg (group_of sg n) c) (λ _ c', group_done (group_of sg n) c').
Proof.
  intros Hwf. unfold compose_group. eapply ok_read.
  { apply (returns_mapM _ (λ id d, d.1 = id ∧ def_ok sg d)). intros id Hid.
    destruct (group_of_defined sg Hsg n id Hid) as (d & Hd & _). apply reads_walk. by eapply lookup_lt_Some. }
  intros ds HF. destruct ds as [|first ds].
  { apply ok_ret; [done|]. right. apply Forall2_nil_inv_r in HF. intros m E (f & r & x & E' & _). congruence. }
  apply Forall2_cons_inv_r in HF as (id & rest & [<- Hf] & HF & Hg).
  assert (Forall (def_ok sg) (first :: ds)) as Hall.
  { constructor; [done|]. clear -HF. induction HF as [|? ? ? ? [_ ?] _ IH]; by constructor. }
  destruct (group_of_defined sg Hsg n first.1) as (x & Hx & Hn); [rewrite Hg; by left|].
  assert (first.2 = x) as E1 by (unfold def_ok in Hf; congruence).
  assert (∀ m, group_of sg n = group_of sg m → composable m → m = n) as Hone.
  { intros m E _. destruct (group_of_defined sg Hsg m first.1) as (x' & Hx' & <-); [rewrite <-E, Hg; by left|]. congruence. }
  assert (∀ c1 (r : res (() * Ctx)), ok c1 r (λ _ c', failed c' ∨ composed_as c' (str sg (definition_name first.2))) →
    ok c1 r (λ _ c', group_done (group_of sg n) c')) as Hdone.
  { intros c1 r Hr. eapply ok_wand; [exact Hr|]. rewrite E1, Hn. intros _ c' _ [Hf'|Hc]; [by left|right].
    intros m E Hm. by rewrite (Hone m E Hm). }
  assert (∀ c1 (r : res (() * Ctx)), ok c1 r (λ _ c', composed_as c' (str sg (definition_name first.2))) →
    ok c1 r (λ _ c', group_done (group_of sg n) c')) as Hdone'.
  { intros c1 r Hr. apply Hdone. eapply ok_wand; [exact Hr|]. by right. }
  destruct (_ || _); [by apply Hdone, ok_entity|]. destruct (definition_kind first.2) eqn:Ek.
  all: first [by apply Hdone', ok_scalar|by apply Hdone', ok_union|by apply Hdone', ok_input_object|by apply Hdone', ok_interface|idtac].
  - apply Hdone, ok_object; [done|done|by left|done].
  - eapply ok_wand; [rewrite Hg; by apply (ok_enum _ n first.1 rest first.2)|]. intros u c' _ Hc. right. intros m E Hm. pose proof (Hone m E Hm) as ->.
    apply Hc. destruct Hm as (f' & r' & x' & E' & Hx' & Hk). apply Hk. congruence.
Qed.
Lemma ok_compose_subgraphs c :
  ir_wf sg c →
  ok c (compose_subgraphs sg c) (λ _ c', failed c' ∨
    is_Some (root_query (ir_tables c')) ∧ ∀ n, composable n → composed_as c' (str sg n)).
Proof.
  intros Hwf. unfold compose_subgraphs. destruct (iter_groups sg Hsg) as (names & E & _ & Hnames).
  eapply (ok_read _ _ _ _ _ (λ gs, gs = [] :: (group_of sg <$> names))); [by rewrite E|]. intros gs ->.
  eapply ok_bind.
  { apply (ok_each_all _ _ group_done); [intros; by eapply group_done_mono| |done].
    intros g c1 [->|(n & -> & _)%list_elem_of_fmap]%elem_of_cons Hwf1; [|by apply ok_group].
    apply ok_ret; [done|]. right. intros n Hn (f & r & x & E' & _). congruence. }
  intros u c1 Hwf1 _ Hall. cbn beta in Hall. eapply ok_wand; [by apply ok_roots|].
  intros _ c2 G [Hf|Hq]; [by left|]. destruct (decide (diagnostics c2 = [])) as [Hnf|]; [|by left]. right. split; [done|].
  intros n Hn. assert (group_of sg n ∈ [] :: (group_of sg <$> names)) as Hin.
  { right. apply list_elem_of_fmap. exists n. split; [done|]. apply Hnames.
    destruct Hn as (f & r & x & E' & _). destruct (proj1 (elem_of_group_of sg n f)) as (s & Hs & _); [rewrite E'; by left|].
    by exists s, f. }
  destruct (Hall _ Hin) as [Hf|Hd]; [exfalso; by apply (failed_mono _ _ G) in Hf|].
  apply (composed_as_mono G). by apply Hd.
Qed.

End compose.

(** ** The initial context *)
Section initial.
Context `{IndexSetLaws} (sg : Subgraphs).
Lemma ir_wf_empty l : ir_wf sg (MkCtx iset_empty [] [] ∅ [] Tables_default l).
Proof.
  split; simpl; try constructor; intros *; rewrite ?lookup_empty; try (set_solver || lia || done).
  all: intros [?|[?|?]]; done.
Qed.
Lemma context_new_ok messages :
  (∀ s, s ∈ BUILTIN_SCALARS → ∃ i, get_index (strings (store sg)) i = Some s) →
  ∃ c, Context_new sg messages = Ret c ∧ ir_wf sg c ∧ messages ++ ingestion_diagnostics sg `prefix_of` diagnostics c.
Proof.
  intros Hb. unfold Context_new. set (c0 := MkCtx _ _ _ _ _ _ _).
  assert (ComposeRules.ok sg False c0
    (each BUILTIN_SCALARS (λ name, s ← lift (builtin_scalar sg name); insert_scalar s None (0, 0)) c0) (λ _ _, True)) as Hok.
  { apply ok_each_simple; [|apply ir_wf_empty]. intros s c Hs Hwf. eapply (ok_read _ _ _ _ _ (λ _, True)).
    - unfold builtin_scalar, lookup_string. destruct (Hb s Hs) as [i Hi].
      rewrite (proj2 (get_index_of_spec _ _ s i) Hi). simpl. unfold string_at, resolve. by rewrite Hi.
    - intros x _. eapply ok_wand; [apply ok_insert_scalar; [done|]|done]. unfold dirs_ok. simpl. lia. }
  destruct (each _ _ c0) as [[[] c]|]; [|done]. destruct Hok as (Hwf & G & _). exists c.
  split_and!; [done|done|]. apply (gr_diagnostics _ _ G).
Qed.
End initial.
