(* ===== verification/ComposeValidateProps.v ===== *)
(** * The validations before composition: when they panic *)
From S2P Require Import Prelude RustStd CheckSchema IndexSet FieldTypes Subgraphs Ingest IngestRules IngestProps IngestClaims Walkers ComposeContext ComposeDirectives ComposeTables ComposeEnums Compose ComposeEntity ComposeValidate ComposeInvariant ComposeRules ComposeProps.
Local Open Scope string_scope.
Local Open Scope list_scope.
Local Open Scope nat_scope.

(** Induction on values with their nested lists. *)
Section value_ind.
Context (P : Value → Prop) (Hs : ∀ s, P (VString s)) (Hi : ∀ n, P (VInt n)) (Hf : ∀ b, P (VFloat b))
  (Hb : ∀ b, P (VBoolean b)) (He : ∀ s, P (VEnum s)) (Ho : ∀ l, Forall (λ f, P f.2) l → P (VObject l))
  (Hl : ∀ l, Forall P l → P (VList l)) (Hn : P VNull).
Fixpoint value_nested_ind (v : Value) : P v.
Proof.
  destruct v; [apply Hs|apply Hi|apply Hf|apply Hb|apply He| | |apply Hn].
  - apply Ho. induction fields as [|[n v] l IH]; constructor; [apply value_nested_ind|exact IH].
  - apply Hl. induction items as [|v l IH]; constructor; [apply value_nested_ind|exact IH].
Defined.
End value_ind.

Section props.
Context `{IndexSetLaws} (ua un : string → bool) (sg : Subgraphs) (Hsg : wf sg).
Implicit Types (c : Ctx) (d : Def) (f : Field).

(** ** The selections that make the validation panic *)

(** Below [d], the selection descends into a field whose type the subgraph
    does not define, such as a built-in scalar. *)
Inductive untyped : Def → Selection → Prop :=
| untyped_here d name args s sub t :
    find_field sg d.1 name = Some t → type_definition sg (tuple_type t) (subgraph_id d.2) = Ret None →
    untyped d (SField name args (s :: sub))
| untyped_field d name args sub t id x s :
    find_field sg d.1 name = Some t → type_definition sg (tuple_type t) (subgraph_id d.2) = Ret (Some id) →
    definitions sg !! id = Some x → s ∈ sub → untyped (id, x) s → untyped d (SField name args sub)
| untyped_fragment d on sub id x s :
    definition_by_name_id sg on (subgraph_id d.2) = Some id → definitions sg !! id = Some x →
    s ∈ sub → untyped (id, x) s → untyped d (SInlineFragment on sub).

(** A directive of some field has such a selection, [@provides] is on a field
    whose type the subgraph does not define, or the [arguments] of
    [@authorized] have an inline fragment. *)
Definition unvalidated : Prop :=
  ∃ f p, field_ok sg f ∧ definitions sg !! f.1.1 = Some p ∧
    let site := tuple_directives f.2 in
    (∃ l s, (requires_ sg site = Some l ∨ ∃ a, authorized_ sg site = Some a ∧ authorized_fields a = Some l) ∧
       s ∈ l ∧ untyped (f.1.1, p) s) ∨
    (∃ l s, provides_ sg site = Some l ∧ s ∈ l ∧
       (type_definition sg (tuple_type f.2) (subgraph_id p) = Ret None ∨
        ∃ id x, type_definition sg (tuple_type f.2) (subgraph_id p) = Ret (Some id) ∧
          definitions sg !! id = Some x ∧ untyped (id, x) s)) ∨
    (∃ a l on sub, authorized_ sg site = Some a ∧ authorized_arguments a = Some l ∧ SInlineFragment on sub ∈ l).

(** ** Arguments *)
Lemma returns_all_res {A} (g : A → res bool) l :
  Forall (λ x, returns (g x) (λ _, True)) l → returns (all_res g l) (λ _, True).
Proof.
  induction 1 as [|x l Hx _ IH]; cbn [all_res]; [done|]. eapply returns_bind; [exact Hx|]. by intros [] _.
Qed.
Lemma found_field_ok id name t : find_field sg id name = Some t → field_ok sg (id, name, t).
Proof. done. Qed.
Lemma reads_argument_type_matches s v t : typed sg t → returns (argument_type_matches sg s t v) (λ _, True).
Proof.
  revert t. induction v as [| | | | |l IH|l IH|] using value_nested_ind; intros t Ht;
    cbn [argument_type_matches]; (eapply returns_bind; [by apply reads_type_name|]; intros tn _); try done.
  - eapply returns_bind; [by apply reads_type_definition|]. done.
  - eapply returns_bind; [by apply reads_type_definition|]. intros [id|] _; [|done]. apply returns_all_res.
    eapply Forall_impl; [exact IH|]. intros [m v] Hv. simpl in *. destruct (find_field sg id m) as [t'|] eqn:Et; [|done].
    apply Hv. by destruct (field_parts sg Hsg _ (found_field_ok _ _ _ Et)) as (_ & _ & ? & _).
  - eapply returns_bind; [by apply reads_is_list|]. intros [] _; [|done]. apply returns_all_res.
    eapply Forall_impl; [exact IH|]. intros v Hv. by apply Hv.
Qed.

Section selections.
Context (E : Prop) (directive_path : res string) (Hpath : returns directive_path (λ _, True)) (directive_name : string).
Abbreviation ok := (ok sg E).

Lemma ok_required_arguments c id name args :
  ir_wf sg c → interned sg name →
  ok c (validate_required_arguments sg (id, name) args directive_path directive_name c) (λ _ _, True).
Proof.
  intros Hwf Hn. apply ok_each_simple; [|done]. intros a c1 Ha Hwf1.
  destruct (elem_of_arguments sg _ _ Ha) as [Hao _]. destruct (argument_parts sg Hsg a Hao) as (_ & Han & Ht & _).
  eapply ok_read; [by apply reads_is_required|]. intros r _. destruct (_ && _); [|by apply ok_ret].
  apply ok_read_message; [done|]. solve_reads.
Qed.
Lemma ok_message_stop c (r : res string) :
  ir_wf sg c → returns r (λ _, True) → ok c ((m ← lift r; _ ← push_fatal m; mret false) c) (λ _ _, True).
Proof.
  intros Hwf Hr. eapply ok_read; [exact Hr|]. intros m _. apply ok_then; [by apply ok_push_fatal|].
  intros c1 Hwf1 _. by apply ok_ret.
Qed.
Lemma ok_validate_arguments c d name args :
  ir_wf sg c → def_ok sg d → interned sg name → interned_all sg (arguments_strings args) →
  ok c (validate_arguments sg d (d.1, name) args directive_path directive_name c) (λ _ _, True).
Proof.
  intros Hwf Hd Hn Ha. induction args as [|[n v] args IH] in c, Hwf, Ha |- *; cbn [validate_arguments]; [by apply ok_ret|].
  unfold arguments_strings in Ha. simpl in Ha. apply Forall_cons in Ha as [Hi [_ Ha]%Forall_app].
  destruct (argument_by_name sg (d.1, name) n) as [a|] eqn:Ea.
  - unfold argument_by_name in Ea. apply bind_Some in Ea as (t & Et & [= <-]).
    destruct (argument_parts sg Hsg (d.1, name, n, t) Et) as (_ & _ & Ht & _). simpl in *.
    eapply ok_read; [by apply reads_argument_type_matches|]. intros [] _; [by apply IH|].
    apply ok_message_stop; [done|solve_reads].
  - apply ok_message_stop; [done|solve_reads].
Qed.
Lemma ok_foldU {A} (g : A → M unit) l c :
  Forall (λ x, ∀ c, ir_wf sg c → ok c (g x c) (λ _ _, True)) l → ir_wf sg c → ok c (foldU g l c) (λ _ _, True).
Proof.
  intros HF. induction HF as [|x l Hx _ IH] in c |- *; intros Hwf; cbn [foldU]; [by apply ok_ret|].
  apply ok_then; [by apply Hx|]. intros c1 Hwf1 _. by apply IH.
Qed.
Lemma strings_of_sub sub s : interned_all sg (selections_strings sub) → s ∈ sub → interned_all sg (selection_strings s).
Proof.
  unfold selections_strings, interned_all. rewrite !Forall_forall. intros Hs Hin id Hid. apply Hs.
  apply elem_of_concat_map. by exists s.
Qed.
Lemma ok_validate_selection s d c :
  ir_wf sg c → def_ok sg d → interned_all sg (selection_strings s) → (untyped d s → E) →
  ok c (validate_selection sg directive_path directive_name d s c) (λ _ _, True).
Proof.
  revert d c. induction s as [name args sub IH|on sub IH] using Selection_nested_ind; intros d c Hwf Hd Hs HE;
    cbn [validate_selection]; cbn [selection_strings] in Hs; apply Forall_cons in Hs as [Hn Hs].
  - apply Forall_app in Hs as [Hargs Hsub]. destruct (find_field sg d.1 name) as [t|] eqn:Et;
      [|apply ok_read_message; [done|solve_reads]].
    destruct (field_parts sg Hsg _ (found_field_ok _ _ _ Et)) as (_ & _ & Ht & _). simpl in Ht.
    apply ok_then; [by apply ok_required_arguments|]. intros c1 Hwf1 _.
    eapply ok_bind; [by apply ok_validate_arguments|]. intros [] c2 Hwf2 _ _; [|by apply ok_ret].
    apply ok_foldU; [|done]. rewrite Forall_forall in IH |- *. intros s Hin c3 Hwf3. unfold type_definition_or.
    destruct (type_definition sg (tuple_type t) (subgraph_id d.2)) as [[id|]|] eqn:Etd.
    + pose proof (reads_type_definition sg Hsg _ (subgraph_id d.2) Ht) as Hid. rewrite Etd in Hid. simpl in Hid.
      eapply ok_read; [exact (reads_walk sg id (Hid id eq_refl))|]. intros [id' x] [E1 Hx]. simpl in E1. subst id'.
      apply IH; [done|done|done|by eapply strings_of_sub|]. intros Hu. apply HE. by eapply untyped_field.
    + apply HE. destruct sub as [|s0 sub]; [by apply elem_of_nil in Hin|]. by eapply untyped_here.
    + exfalso. pose proof (reads_type_definition sg Hsg _ (subgraph_id d.2) Ht) as Hid. by rewrite Etd in Hid.
  - destruct (definition_by_name_id sg on (subgraph_id d.2)) as [id|] eqn:Eid;
      [|apply ok_read_message; [done|solve_reads]].
    apply ok_foldU; [|done]. rewrite Forall_forall in IH |- *. intros s Hin c3 Hwf3.
    destruct (def_names _ (wf_definitions _ Hsg) _ _ _ Eid) as (x & Hx & _).
    eapply ok_read; [apply (reads_walk sg id); by eapply lookup_lt_Some|]. intros [id' x'] [E1 Hx']. simpl in E1. subst id'.
    apply IH; [done|done|done|by eapply strings_of_sub|]. intros Hu. apply HE. by eapply untyped_fragment.
Qed.
End selections.

(** ** The validations *)
Abbreviation ok := (ok sg unvalidated).

Lemma ok_names c : ir_wf sg c → ok c (validate_subgraph_names ua un sg c) (λ _ _, True).
Proof.
  intros Hwf. unfold validate_subgraph_names.
  eapply ok_bind; [|intros seen c1 Hwf1 _ _; by apply ok_ret].
  apply (ok_foldM _ _ (λ _ _, True)); [|done|done]. intros seen s c1 Hs Hwf1 _. unfold validate_subgraph_name.
  destruct (link_subgraphs _ (wf_links _ Hsg) s Hs) as (Hn & _).
  eapply ok_read; [by apply reads_string|]. intros name _. cbv zeta. apply ok_then.
  { unfold validate_name. destruct (chars name); [by apply ok_push_fatal|]. cbv zeta.
    destruct (_ && _); [by apply ok_ret|by apply ok_push_fatal]. }
  intros c2 Hwf2 _. apply ok_then; [case_decide; [by apply ok_push_fatal|by apply ok_ret]|].
  intros c3 Hwf3 _. by apply ok_ret.
Qed.
Lemma ok_no_selection {A} c (g : A → M unit) o : ir_wf sg c → o = None → ok c (each (default [] o) g c) (λ _ _, True).
Proof. intros Hwf ->. by apply (ok_ret _ _ c ()). Qed.
Lemma ok_selections c f : ir_wf sg c → field_ok sg f → ok c (validate_selections sg f c) (λ _ _, True).
Proof.
  intros Hwf Hf. pose proof (wf_directives _ Hsg) as D. destruct (field_parts sg Hsg f Hf) as (Hp & _ & Ht & _).
  apply lookup_lt_is_Some in Hp as [p Hp]. pose proof (reads_field_path sg Hsg f Hf) as Hpath.
  assert (walk_definition sg f.1.1 = Ret (f.1.1, p)) as Hwalk.
  { unfold walk_definition, definition. by rewrite Hp. }
  set (site := tuple_directives f.2) in *.
  assert (∀ name l c, ir_wf sg c → interned_all sg (selections_strings l) →
    (∀ s, s ∈ l → untyped (f.1.1, p) s → unvalidated) →
    ok c (each l (λ selection, p ← lift (parent_definition sg f.1);
      validate_selection sg (field_path sg f.1) name p selection) c) (λ _ _, True)) as Hparent.
  { intros name l c1 Hwf1 Hl HE. apply ok_each_simple; [|done]. intros s c2 Hs Hwf2.
    eapply (ok_read _ _ _ _ _ (λ d, d = (f.1.1, p))); [unfold parent_definition; by rewrite Hwalk|]. intros _ ->.
    apply ok_validate_selection; [done|done|done|by eapply strings_of_sub|by apply HE]. }
  unfold validate_selections. fold site. cbv zeta. apply ok_then.
  { destruct (requires_ sg site) as [l|] eqn:El; [|by apply ok_no_selection].
    apply Hparent; [done|exact (dir_requires _ _ D _ _ El)|]. intros s Hs Hu. exists f, p. split_and!; [done|done|].
    left. exists l, s. auto. }
  intros c1 Hwf1 _. apply ok_then.
  { destruct (authorized_ sg site) as [a|] eqn:Ea; [|by apply ok_no_selection].
    cbn [mbind option_bind]. destruct (authorized_fields a) as [l|] eqn:El; [|by apply ok_no_selection].
    apply Hparent; [done|apply (proj1 (dir_authorized _ _ D _ _ Ea)); auto|]. intros s Hs Hu.
    exists f, p. split_and!; [done|done|]. left. exists l, s. split_and!; [right; by exists a|done|done]. }
  intros c2 Hwf2 _. destruct (provides_ sg site) as [l|] eqn:El; [|by apply ok_no_selection].
  apply ok_each_simple; [|done]. intros s c3 Hs Hwf3.
  eapply (ok_read _ _ _ _ _ (λ d, d = (f.1.1, p))); [unfold parent_definition; by rewrite Hwalk|]. intros _ ->.
  assert (∀ P, P → field_ok sg f ∧ definitions sg !! f.1.1 = Some p ∧ P) as Hhere by done.
  unfold type_definition_or. pose proof (reads_type_definition sg Hsg _ (subgraph_id p) Ht) as Hid. simpl in *.
  destruct (type_definition sg (tuple_type f.2) (subgraph_id p)) as [[id|]|] eqn:Etd; [| |done].
  - simpl in Hid. eapply ok_read; [exact (reads_walk sg id (Hid id eq_refl))|]. intros [id' x] [E1 Hx]. simpl in E1. subst id'.
    apply ok_validate_selection; [done|done|done|eapply strings_of_sub; [exact (dir_provides _ _ D _ _ El)|done]|].
    intros Hu. exists f, p. apply Hhere. right. left. exists l, s. split_and!; [done|done|]. right. by exists id, x.
  - exists f, p. apply Hhere. right. left. exists l, s. auto.
Qed.
Lemma ok_override_labels c f : ir_wf sg c → field_ok sg f → ok c (validate_override_labels sg f c) (λ _ _, True).
Proof.
  intros Hwf Hf. unfold validate_override_labels. pose proof (reads_field_path sg Hsg f Hf) as Hpath.
  destruct (override_ sg (tuple_directives f.2)) as [o|] eqn:Eo; cbn [mbind option_bind]; [|by apply ok_ret].
  destruct (override_label o) as [l|] eqn:El; [|by apply ok_ret].
  destruct (dir_override _ _ (wf_directives _ Hsg) _ _ Eo) as [_ Hl].
  eapply ok_read; [by apply reads_string, Hl|]. intros s _. destruct (label_from_str s); [|by apply ok_ret].
  apply ok_read_message; [done|]. eapply returns_bind; [exact Hpath|]. done.
Qed.
Lemma ok_input_selections c f : ir_wf sg c → field_ok sg f → ok c (validate_input_selections sg f c) (λ _ _, True).
Proof.
  intros Hwf Hf. unfold validate_input_selections. pose proof (reads_field_path sg Hsg f Hf) as Hpath.
  destruct (authorized_ sg (tuple_directives f.2)) as [a|] eqn:Ea; [|by apply ok_no_selection].
  cbn [mbind option_bind]. destruct (authorized_arguments a) as [l|] eqn:El; [|by apply ok_no_selection].
  apply ok_each_simple; [|done]. intros s c1 Hs Hwf1.
  assert (interned_all sg (selection_strings s)) as Hi.
  { eapply strings_of_sub; [|exact Hs]. apply (proj1 (dir_authorized _ _ (wf_directives _ Hsg) _ _ Ea)). auto. }
  destruct s as [name args sub|on sub].
  - destruct (argument_by_name sg f.1 name); [by apply ok_ret|]. apply Forall_cons in Hi as [Hn _].
    apply ok_read_message; [done|]. eapply returns_bind; [by apply reads_string|]. intros ? _.
    eapply returns_bind; [exact Hpath|]. done.
  - destruct (field_parts sg Hsg f Hf) as ([p Hp]%lookup_lt_is_Some & _). exists f, p. split_and!; [done|done|].
    right. right. by exists a, l, on, sub.
Qed.
Lemma ok_validate c : ir_wf sg c → ok c (validate ua un sg c) (λ _ _, True).
Proof.
  intros Hwf. unfold validate. apply ok_then; [by apply ok_names|]. intros c1 Hwf1 _. apply ok_then.
  { unfold validate_query_nonempty. destruct (forallb _ _); [by apply ok_push_fatal|by apply ok_ret]. }
  intros c2 Hwf2 _. apply ok_each_simple; [|done]. intros f c3 Hin Hwf3.
  assert (field_ok sg f) as Hf by (destruct f; by apply elem_of_btree_map_iter in Hin).
  apply ok_then; [by apply ok_selections|]. intros c4 Hwf4 _.
  apply ok_then; [by apply ok_override_labels|]. intros c5 Hwf5 _. by apply ok_input_selections.
Qed.
End props.
