(* ===== verification/ComposeInputObjects.v ===== *)
(** * What composing an input object does *)
From S2P Require Import Prelude RustStd CheckSchema IndexSet FieldTypes Subgraphs Ingest IngestRules IngestClaims Walkers ComposeContext ComposeDirectives ComposeTables ComposeEnums ComposeEnumsClaims Compose ComposeEntity ComposeInvariant ComposeRules ComposeProps.
Local Open Scope string_scope.
Local Open Scope list_scope.
Local Open Scope nat_scope.

Section input_objects.
Context `{IndexSetLaws} (sg : Subgraphs).
Implicit Types (c : Ctx) (vs : list InputValueDefinitionIr) (msgs : list string) (f : Field) (g : list Field).

(** From [c] to [c'] the input values [vs] and the messages [msgs] were added. *)
Definition effect c c' vs msgs : Prop :=
  extends (ir_strings c) (ir_strings c') ∧
  input_value_definitions (ir_tables c') = input_value_definitions (ir_tables c) ++ vs ∧
  diagnostics c' = diagnostics c ++ msgs ∧ input_objects (ir_tables c') = input_objects (ir_tables c).
Lemma effect_refl c : effect c c [] [].
Proof. unfold effect. by rewrite !app_nil_r. Qed.
Lemma effect_trans c1 c2 c3 vs vs' ms ms' :
  effect c1 c2 vs ms → effect c2 c3 vs' ms' → effect c1 c3 (vs ++ vs') (ms ++ ms').
Proof.
  intros (X & V & D & O) (X' & V' & D' & O'). split_and!; [by etransitivity| | |congruence].
  - by rewrite V', V, (assoc_L (++)).
  - by rewrite D', D, (assoc_L (++)).
Qed.
Lemma frame_effect c c' : frame c c' → effect c c' [] [].
Proof. intros (X & _ & _ & _ & U). injection U as ET ED. unfold effect. by rewrite ET, ED, !app_nil_r. Qed.

(** [r] returns, with an effect that satisfies [Q]. *)
Definition gives {A} c (r : res (A * Ctx)) (Q : A → Ctx → list InputValueDefinitionIr → list string → Prop) : Prop :=
  ∃ a c' vs msgs, r = Ret (a, c') ∧ effect c c' vs msgs ∧ Q a c' vs msgs.
Lemma gives_ret {A} c (a : A) (Q : A → Ctx → _ → _ → Prop) : Q a c [] [] → gives c (mret (M := M) a c) Q.
Proof. intros HQ. exists a, c, [], []. split_and!; [done|apply effect_refl|done]. Qed.
Lemma gives_bind {A B} c (m : M A) (k : A → M B) Q1 Q :
  gives c (m c) Q1 →
  (∀ a c' vs ms, effect c c' vs ms → Q1 a c' vs ms →
     gives c' (k a c') (λ b c'' vs' ms', Q b c'' (vs ++ vs') (ms ++ ms'))) →
  gives c ((a ← m; k a) c) Q.
Proof.
  intros (a & c1 & vs & ms & E1 & F1 & H1) Hk. destruct (Hk a c1 vs ms F1 H1) as (b & c2 & vs' & ms' & E2 & F2 & HQ).
  exists b, c2, (vs ++ vs'), (ms ++ ms'). split_and!; [|by eapply effect_trans|done]. unfold mbind, M_bind. by rewrite E1.
Qed.
(** A step that interns strings and composes directives only. *)
Lemma gives_frame {A B} c (m : M A) (k : A → M B) (P : A → Ctx → Prop) Q :
  (∃ a c', m c = Ret (a, c') ∧ frame c c' ∧ P a c') →
  (∀ a c', effect c c' [] [] → P a c' → gives c' (k a c') Q) → gives c ((a ← m; k a) c) Q.
Proof.
  intros (a & c1 & E & F & HP) Hk. apply frame_effect in F.
  apply (gives_bind _ _ _ (λ a c' vs ms, effect c c' [] [] ∧ P a c' ∧ vs = [] ∧ ms = [])).
  - by exists a, c1, [], [].
  - intros a' c' vs ms _ (F' & HP' & -> & ->). by apply Hk.
Qed.
Lemma gives_read {A B} c (r : res A) (k : A → M B) (P : A → Prop) Q :
  returns r P → (∀ a, P a → gives c (k a c) Q) → gives c ((a ← lift r; k a) c) Q.
Proof. intros (a & -> & Ha)%returns_Ret Hk. by apply Hk. Qed.
Lemma gives_wand {A} c (r : res (A * Ctx)) (Q Q' : A → Ctx → _ → _ → Prop) :
  gives c r Q → (∀ a c' vs msgs, Q a c' vs msgs → Q' a c' vs msgs) → gives c r Q'.
Proof. intros (a & c' & vs & msgs & ? & ? & ?) HQ. exists a, c', vs, msgs. auto. Qed.

(** [interns], as the steps of a frame. *)
Lemma interns_frame {A} (m : M A) P c : interns m P → ∃ a c', m c = Ret (a, c') ∧ frame c c' ∧ P (ir_strings c') a.
Proof. intros Hm. destruct (Hm c) as (a & c' & E & F & _ & HP). by exists a, c'. Qed.

Section wf.
Context (Hsg : wf sg) (Hlen : (N.of_nat (iset_len (strings (store sg))) ≤ usize_max)%N).

Lemma insert_string_option_frame o c :
  interned_opt sg o → ∃ a c', insert_string_option sg o c = Ret (a, c') ∧ frame c c' ∧ True.
Proof.
  intros Ho. destruct o as [id|]; [|by exists None, c; split_and!; [|apply frame_refl|]].
  destruct (interns_frame _ _ c (insert_string_interns sg id (Ho id eq_refl))) as (i & c' & E & F & _).
  exists (Some i), c'. split_and!; [|done|done]. cbn [insert_string_option]. unfold mbind, M_bind. by rewrite E.
Qed.
Lemma collect_frame sites c :
  ∃ r c', collect_composed_directives sg sites c = Ret (r, c') ∧ frame c c' ∧ True.
Proof.
  destruct (collect_composed_directives_returns sg sites c) as (r & c' & ds & E & F & _); [|by exists r, c'].
  apply Forall_forall. intros site _. by apply wf_site_ok.
Qed.
Lemma each_fatal msgs c :
  each msgs push_fatal c = Ret ((), MkCtx (ir_strings c) (ir_directives c) (ir_type_definitions c)
    (ir_definitions_by_name c) (ir_enum_values c) (ir_tables c) (diagnostics c ++ msgs)).
Proof.
  unfold each. induction msgs as [|m msgs IH] in c |- *; cbn [foldM].
  - rewrite app_nil_r. by destruct c.
  - unfold mbind, M_bind, push_fatal at 1. simpl. rewrite IH. simpl. by rewrite <-(assoc_L (++)).
Qed.
(** A group of fields has a composed type, or one message says why not. *)
Lemma compose_input_types g c :
  g ≠ [] → Forall (field_ok sg) g →
  gives c (compose_types sg compose_input_field_types g c)
    (λ o _ vs msgs, vs = [] ∧ (msgs = [] ↔ is_Some o)).
Proof.
  intros Hne HF. unfold compose_types. eapply gives_read.
  { apply (returns_mapM _ (λ _ w, typed sg (field_type w))). intros f Hf. rewrite Forall_forall in HF.
    eapply returns_wand; [apply reads_field_walker; [done|by apply HF]|]. by intros w []. }
  intros ws Hws. assert (ws ≠ []) as Hwne by (intros ->; apply Forall2_nil_inv_r in Hws; done).
  assert (Forall (λ w, typed sg (field_type w)) ws) as HFw.
  { apply Forall_forall. intros w [i Hw]%list_elem_of_lookup. by eapply Forall2_lookup_r in Hws as (? & _ & ?). }
  pose proof (reads_compose_field_types sg Hsg false ws HFw) as Hr. destruct ws as [|w ws]; [done|].
  eapply (gives_read _ _ _ (λ r, r.2 = [] ↔ is_Some r.1)).
  - unfold compose_input_field_types. revert Hr. unfold compose_field_types.
    change (compose_fn (store sg) false) with (compose_for_input (store sg)).
    destruct (fold_types _ _ _) as [[t|b]|]; simpl; [done| |done]. destruct (conflict_message _ _ _ _); simpl; [|done].
    intros _. split; [done|by intros []].
  - intros r Hr'. eexists _, _, [], r.2. split.
    + unfold mbind, M_bind. rewrite each_fatal. reflexivity.
    + split; [|done]. unfold effect. simpl. by rewrite app_nil_r.
Qed.

(** ** One group of fields *)
Definition required f : Prop := is_required (store sg) (tuple_type f.2) = Ret true.

(** The value [v] is named [n]. *)
Definition value_named c (v : InputValueDefinitionIr) (n : StringId) : Prop :=
  get_index (ir_strings c) (ivd_name v) = Some (str sg n).
(** The range of the values added since [start]. *)
Definition range_since (start : nat) vs : option InputValueDefinitions :=
  if decide (vs = []) then None else Some (start, length vs).
Definition field_step (inter : list StringId) (range : option InputValueDefinitions) g (n : StringId)
    (range' : option InputValueDefinitions) c vs msgs : Prop :=
  (vs = [] ∧ range' = range ∨ ∃ v id, vs = [v] ∧ range' = extend_range range id ∧ n ∈ inter ∧ value_named c v n ∧
     id + 1 = length (input_value_definitions (ir_tables c))) ∧
  (n ∈ inter → msgs = [] → vs ≠ []) ∧ (n ∉ inter → msgs = [] → Forall (λ f, ¬ required f) g).

Lemma find_required g :
  Forall (field_ok sg) g →
  returns (find_res (λ f, is_required (store sg) (tuple_type f.2)) g)
    (λ o, match o with Some f => f ∈ g | None => Forall (λ f, ¬ required f) g end).
Proof.
  induction 1 as [|f g Hf HF IH]; cbn [find_res]; [by constructor|].
  destruct (field_parts sg Hsg f Hf) as (_ & _ & Ht & _). unfold required.
  destruct (is_required (store sg) (tuple_type f.2)) as [[]|] eqn:Er; simpl.
  - by left.
  - eapply returns_wand; [exact IH|]. intros [f'|] Hf'; [by right|]. constructor; [by rewrite Er|done].
  - pose proof (reads_is_required sg (tuple_type f.2) Ht) as Hr. by rewrite Er in Hr.
Qed.
Lemma merge_input_field_gives first inter range g n c :
  def_ok sg first → Forall (field_ok sg) g → Forall (λ f, f.1.2 = n) g → g ≠ [] →
  gives c (merge_input_field sg first inter range g c) (field_step inter range g n).
Proof.
  intros Hd Hg Hn Hne. destruct g as [|[fid t] g']; [done|]. unfold merge_input_field. set (g := (fid, t) :: g') in *.
  assert (fid.2 = n) as -> by by apply Forall_cons in Hn as [? _].
  assert (interned sg n) as Hi.
  { apply Forall_cons in Hg as [Hft _]. destruct (field_parts sg Hsg _ Hft) as (_ & Hi & _). simpl in Hi.
    apply Forall_cons in Hn as [<- _]. done. }
  cbv zeta. case_decide as Hin.
  - eapply gives_frame; [apply collect_frame|]. intros dirs c1 _ _.
    eapply gives_frame; [by apply insert_string_option_frame, found_description_ok|]. intros desc c2 _ _.
    eapply gives_bind; [by apply compose_input_types|]. intros o c3 vs msgs _ [-> Hm]. destruct o as [ty|].
    + assert (msgs = []) as -> by by apply Hm.
      apply (gives_frame _ _ _ (λ i c, get_index (ir_strings c) i = Some (str sg n))).
      { exact (interns_frame _ _ c3 (insert_string_interns sg n Hi)). }
      intros name c4 _ Hname.
      eexists _, _, [_], []. split; [reflexivity|]. split.
      { unfold effect. simpl. by rewrite app_nil_r. }
      split_and!; [right|done|done]. eexists _, _. split_and!; [done|done|done|exact Hname|].
      simpl. by rewrite length_app.
    + apply gives_ret. split_and!; [by left| |done]. intros _ E. rewrite app_nil_r in E. apply Hm in E as []. done.
  - eapply gives_read; [by apply find_required|]. intros [f|] Hf; [|by apply gives_ret; split_and!; [left| |]].
    rewrite Forall_forall in Hg. pose proof (Hg f Hf) as Hfo. pose proof (field_parts sg Hsg f Hfo) as (_ & Hfn & _).
    eapply (gives_read _ _ _ (λ _, True)); [unfold missing_required_message; solve_reads|]. intros m _.
    eexists _, _, [], [m]. split; [reflexivity|]. split; [unfold effect; simpl; by rewrite app_nil_r|].
    by split_and!; [left| |].
Qed.

(** ** All groups *)
Lemma value_named_mono c c' v n : extends (ir_strings c) (ir_strings c') → value_named c v n → value_named c' v n.
Proof. intros X. apply X. Qed.
Lemma range_since_extend start vs v :
  extend_range (range_since start vs) (start + length vs) = range_since start (vs ++ [v]).
Proof.
  unfold range_since, extend_range. rewrite (decide_False (P := vs ++ [v] = [])) by (by destruct vs).
  case_decide as E; [subst; simpl; by rewrite Nat.add_0_r|]. rewrite length_app. simpl. f_equal. f_equal. lia.
Qed.
Definition fields_step (inter : list StringId) (start : nat) vs0 (group : StringId → list Field) (ns : list StringId)
    (range' : option InputValueDefinitions) c vs msgs : Prop :=
  range' = range_since start (vs0 ++ vs) ∧
  (∃ ks, Forall2 (value_named c) vs ks ∧ ks ⊆ inter ∧ (msgs = [] → ks = filter (λ n, n ∈ inter) ns)) ∧
  (msgs = [] → ∀ n, n ∈ ns → n ∉ inter → Forall (λ f, ¬ required f) (group n)).

Lemma merge_input_fields_gives first inter start group ns vs0 c :
  def_ok sg first →
  (∀ n, n ∈ ns → Forall (field_ok sg) (group n) ∧ Forall (λ f, f.1.2 = n) (group n) ∧ group n ≠ []) →
  length (input_value_definitions (ir_tables c)) = start + length vs0 →
  gives c (foldM (merge_input_field sg first inter) (range_since start vs0) (group <$> ns) c)
    (fields_step inter start vs0 group ns).
Proof.
  intros Hd. induction ns as [|n ns IH] in vs0, c |- *; intros Hns Hlength; cbn [foldM fmap list_fmap].
  { apply gives_ret. split_and!; [by rewrite app_nil_r| |set_solver]. exists []. split_and!; [constructor|set_solver|done]. }
  destruct (Hns n) as (Hg & Hn & Hne); [by left|].
  eapply gives_bind; [by apply merge_input_field_gives|]. intros range' c1 vs1 ms1 (X1 & V1 & _) (Hvs & Hin & Hout).
  assert (range' = range_since start (vs0 ++ vs1) ∧ length (input_value_definitions (ir_tables c1)) = start + length (vs0 ++ vs1))
    as [-> Hlength1].
  { rewrite V1, !length_app, Hlength. split; [|lia]. destruct Hvs as [[-> ->]|(v & id & -> & -> & _ & _ & Hid)]; [by rewrite app_nil_r|].
    rewrite <-range_since_extend. f_equal. rewrite V1, length_app, Hlength in Hid. simpl in Hid. lia. }
  destruct (IH (vs0 ++ vs1) c1) as (r2 & c2 & vs2 & ms2 & E2 & F2 & -> & (ks & Hks & Hsub & Hall) & Hreq);
    [intros m Hm; apply Hns; by right|done|].
  eexists _, c2, vs2, ms2. split_and!; [exact E2|done|].
  split_and!; [by rewrite (assoc_L (++))| |].
  - destruct Hvs as [[-> _]|(v & id & -> & _ & Hni & Hv & _)].
    + exists ks. split_and!; [done|done|]. intros [-> ->]%app_nil. rewrite filter_cons, decide_False; [by apply Hall|].
      intros Hni. by apply (Hin Hni).
    + exists (n :: ks). split_and!; [|set_solver|].
      * constructor; [|done]. eapply value_named_mono; [apply F2|done].
      * intros [-> ->]%app_nil. rewrite filter_cons, decide_True by done. f_equal. by apply Hall.
  - intros [-> ->]%app_nil m [->|Hm]%elem_of_cons Hni; [by apply Hout|by apply Hreq].
Qed.

(** ** The input object *)
Lemma elem_of_fields_iff id n t : (id, n, t) ∈ fields sg id ↔ find_field sg id n = Some t.
Proof.
  split; [intros [Hf _]%elem_of_fields; exact Hf|]. intros Ht. apply list_elem_of_filter. split.
  - unfold in_range. simpl. rewrite Nat.eqb_refl. apply N.ltb_lt.
    destruct (field_parts sg Hsg (id, n, t) Ht) as (_ & Hi & _). apply get_index_lt in Hi. simpl in Hi. lia.
  - by apply elem_of_btree_map_iter.
Qed.
Lemma elem_of_field_intersection first rest n :
  n ∈ field_intersection sg first (first :: rest) ↔ Forall (λ d, is_Some (find_field sg d.1 n)) (first :: rest).
Proof.
  unfold field_intersection. simpl. rewrite list_elem_of_filter, Forall_cons, list_elem_of_fmap. split.
  - intros [Hr ([[id m] t] & -> & Hf)]. split; [|done]. destruct (elem_of_fields sg _ _ Hf) as [Hfo E]. simpl in *. subst id.
    by exists t.
  - intros [[t Ht] Hr]. split; [done|]. exists (first.1, n, t). split; [done|]. by apply elem_of_fields_iff.
Qed.
Lemma insert_input_object_run i desc dirs range c :
  ∃ id od c', insert_input_object i desc dirs range c = Ret (id, c') ∧ extends (ir_strings c) (ir_strings c') ∧
    input_value_definitions (ir_tables c') = input_value_definitions (ir_tables c) ∧ diagnostics c' = diagnostics c ∧
    input_objects (ir_tables c') = input_objects (ir_tables c) ++ [MkInputObject i range dirs od].
Proof.
  destruct (insert_optional_interns desc c) as (od & c1 & E1 & (X & _ & _ & _ & U) & _). injection U as ET ED.
  eexists _, od, _. split; [unfold insert_input_object; rewrite (ret_bind _ _ _ _ _ E1); reflexivity|]. simpl.
  by rewrite ET, ED.
Qed.
(** The names of the groups are those of the fields. *)
Definition all_fields (defs : list Def) : list Field := concat ((λ d, fields sg d.1) <$> defs).
Lemma elem_of_all_fields defs n : (∃ f, f ∈ all_fields defs ∧ f.1.2 = n) ↔ ∃ d t, d ∈ defs ∧ find_field sg d.1 n = Some t.
Proof.
  split.
  - intros ([[id m] t] & Hf & <-). apply elem_of_concat_map in Hf as (d & Hd & Hf).
    destruct (elem_of_fields sg _ _ Hf) as [Hfo E]. simpl in *. subst id. by exists d, t.
  - intros (d & t & Hd & Ht). exists (d.1, n, t). split; [|done]. apply elem_of_concat_map. exists d. split; [done|].
    by apply elem_of_fields_iff.
Qed.
Definition group_in (defs : list Def) (n : StringId) : list Field := filter (λ f : Field, f.1.2 = n) (all_fields defs).
Lemma group_in_ok defs n :
  (∃ f, f ∈ all_fields defs ∧ f.1.2 = n) →
  Forall (field_ok sg) (group_in defs n) ∧ Forall (λ f, f.1.2 = n) (group_in defs n) ∧ group_in defs n ≠ [].
Proof.
  intros (f & Hf & Hfn). split_and!.
  - apply Forall_forall. intros f' [_ Hf']%list_elem_of_filter. apply elem_of_concat_map in Hf' as (d & _ & Hf').
    by apply (elem_of_fields sg d.1).
  - apply Forall_forall. by intros f' [? _]%list_elem_of_filter.
  - intros E. apply (not_elem_of_nil f). rewrite <-E. by apply list_elem_of_filter.
Qed.

(** The values that an input object has when no error was reported: [ks] are the
    names of the fields that all definitions have, in order, and no definition
    has a required field besides. *)
Definition shared_fields (defs : list Def) (ks : list StringId) : Prop :=
  StronglySorted lt ks ∧ (∀ n, n ∈ ks ↔ Forall (λ d, is_Some (find_field sg d.1 n)) defs) ∧
  ∀ d n t, d ∈ defs → find_field sg d.1 n = Some t → is_required (store sg) (tuple_type t) = Ret true → n ∈ ks.
Lemma filter_shared first rest names :
  let defs := first :: rest in
  let inter := field_intersection sg first defs in
  NoDup names → StronglySorted cmp_le names → (∀ n, n ∈ names ↔ ∃ f, f ∈ all_fields defs ∧ f.1.2 = n) →
  (∀ n, n ∈ names → n ∉ inter → Forall (λ f, ¬ required f) (group_in defs n)) →
  shared_fields defs (filter (λ n, n ∈ inter) names).
Proof.
  intros defs inter Hnd Hsorted Hnames Hreq. setoid_rewrite elem_of_all_fields in Hnames. split_and!.
  - apply StronglySorted_filter. eapply StronglySorted_weaken; [|by apply sorted_NoDup_lt].
    intros a b. apply Nat.compare_lt_iff.
  - intros n. rewrite list_elem_of_filter. unfold inter, defs. rewrite elem_of_field_intersection. split; [by intros []|].
    intros HF. split; [done|]. apply Hnames. apply Forall_cons in HF as [[t Ht] _]. exists first, t. split; [by left|done].
  - intros d n t Hd Ht Hr. assert (n ∈ names) as Hnn by (apply Hnames; by exists d, t). rewrite list_elem_of_filter.
    split; [|done]. destruct (decide (n ∈ inter)) as [|Hni]; [done|]. exfalso. specialize (Hreq n Hnn Hni).
    rewrite Forall_forall in Hreq. apply (Hreq (d.1, n, t)); [|exact Hr]. apply list_elem_of_filter. split; [done|].
    apply elem_of_concat_map. exists d. split; [done|]. by apply elem_of_fields_iff.
Qed.

Lemma merge_input_object_gives first rest c :
  Forall (def_ok sg) (first :: rest) →
  let defs := first :: rest in
  ∃ c' vs msgs o ks, merge_input_object_definitions sg first defs c = Ret ((), c') ∧
    input_value_definitions (ir_tables c') = input_value_definitions (ir_tables c) ++ vs ∧
    input_objects (ir_tables c') = input_objects (ir_tables c) ++ [o] ∧
    diagnostics c' = diagnostics c ++ msgs ∧
    get_index (ir_strings c') (io_name o) = Some (str sg (definition_name first.2)) ∧
    io_fields o = (if decide (vs = []) then (0, 0) else (length (input_value_definitions (ir_tables c)), length vs)) ∧
    Forall2 (value_named c') vs ks ∧ Forall (λ n, Forall (λ d, is_Some (find_field sg d.1 n)) defs) ks ∧
    (msgs = [] → shared_fields defs ks).
Proof.
  intros Hds defs. pose proof Hds as [Hfirst _]%Forall_cons. unfold merge_input_object_definitions.
  destruct (def_parts sg Hsg first Hfirst) as (_ & Hname & _).
  destruct (proj1 (returns_Ret _ _) (reads_find_description sg Hsg defs Hds)) as (desc & Edesc & _).
  rewrite (lift_bind _ _ _ _ Edesc).
  destruct (collect_frame (def_sites defs) c) as (dirs & c1 & E1 & F1%frame_effect & _).
  rewrite (ret_bind _ _ _ _ _ E1).
  destruct (interns_frame _ _ c1 (insert_string_interns sg _ Hname)) as (i & c2 & E2 & F2%frame_effect & Hi).
  rewrite (ret_bind _ _ _ _ _ E2). cbv zeta.
  destruct (field_groups_spec (λ f : Field, f.1.2) ((λ d, fields sg d.1) <$> defs)) as (names & Hnd & Hsorted & Hnames & ->).
  set (start := length (input_value_definitions (ir_tables c2))). change None with (range_since start []).
  destruct (merge_input_fields_gives first (field_intersection sg first defs) start (group_in defs) names [] c2)
    as (range & c3 & vs & msgs & E3 & F3 & -> & (ks & Hks & Hsub & Hall) & Hreq);
    [done|intros n Hn; by apply group_in_ok, Hnames|simpl; lia|].
  rewrite (ret_bind _ _ _ _ _ E3). simpl app.
  destruct (insert_input_object_run i desc dirs (default NO_INPUT_VALUE_DEFINITION (range_since start vs)) c3)
    as (id & od & c4 & E4 & X4 & V4 & D4 & O4). rewrite (ret_bind _ _ _ _ _ E4).
  pose proof (effect_trans _ _ _ _ _ _ _ F1 F2) as F12. pose proof (effect_trans _ _ _ _ _ _ _ F12 F3) as (X & V & D & O).
  simpl in V, D. exists c4, vs, msgs, (MkInputObject i (default NO_INPUT_VALUE_DEFINITION (range_since start vs)) dirs od), ks.
  split_and!; [done|by rewrite V4|by rewrite O4, O|by rewrite D4|apply X4, F3, Hi| | | |].
  - simpl. unfold range_since. case_decide; simpl; [done|]. unfold start. destruct F12 as (_ & -> & _). by rewrite app_nil_r.
  - eapply Forall2_impl; [exact Hks|]. intros v n. by apply value_named_mono.
  - apply Forall_forall. intros n Hn%Hsub. by apply elem_of_field_intersection.
  - intros ->. rewrite (Hall eq_refl). apply filter_shared; [done|done|exact Hnames|by apply Hreq].
Qed.
End wf.
End input_objects.
