(* ===== verification/ComposeClaims.v ===== *)
(** * Ingestion, validation and composition together *)
From S2P Require Import Prelude RustStd CheckSchema IndexSet FieldTypes Subgraphs ComposeContext ComposeDirectives ComposeEnums ComposeEnumsClaims Ingest IngestRules IngestClaims Walkers ComposeTables Compose ComposeEntity ComposeValidate ComposeInvariant ComposeRules ComposeProps ComposeEntityProps ComposeGroups ComposeValidateProps ComposeInputObjects.
Local Open Scope string_scope.
Local Open Scope list_scope.
Local Open Scope nat_scope.

Section claims.
Context `{IndexSetLaws} (parse_query : string → string + ExecutableDocument) (ua un : string → bool).
Implicit Types sg : Subgraphs.

(** What [compose] does, up to the emission of the graph. *)
Lemma compose_ir_ok sg :
  reachable parse_query sg → (N.of_nat (iset_len (strings (store sg))) ≤ usize_max)%N →
  match compose_ir ua un sg with
  | Ret (ds, Some c) => ds = [] ∧ ir_wf sg c ∧ is_Some (root_query (ir_tables c)) ∧
      (∀ n, composable sg n → composed_as c (str sg n)) ∧ subgraphs sg ≠ [] ∧ ingestion_diagnostics sg = []
  | Ret (ds, None) => ds ≠ []
  | Panic _ => unvalidated sg ∨ enum_outgrown sg
  end.
Proof.
  intros Hr Hlen. pose proof (reachable_wf parse_query _ Hr) as Hwf. unfold compose_ir. case_decide as Hsub; [done|].
  destruct (context_new_ok sg []) as (c0 & -> & Hc0 & Hd0).
  { intros s Hs. by apply (reachable_builtins parse_query sg s Hr). }
  simpl in Hd0. cbn [mbind res_bind].
  pose proof (ok_validate ua un sg Hwf c0 Hc0) as Hv. destruct (validate ua un sg c0) as [[[] c1]|msg]; [|by left].
  destruct Hv as (Hc1 & G1 & _). cbn [mbind res_bind]. case_decide as Hd; [done|].
  pose proof (ok_compose_subgraphs sg Hwf Hlen c1 Hc1) as Hs. destruct (compose_subgraphs sg c1) as [[[] c2]|msg]; [|by right].
  destruct Hs as (Hc2 & _ & Hs). cbn [mbind res_bind]. case_decide as Hd2; [|done].
  destruct Hs as [Hf|[Hq Hn]]; [by destruct Hf|]. split_and!; try done.
  pose proof (gr_diagnostics _ _ G1) as Hp. rewrite Hd in Hp.
  apply prefix_nil_inv in Hp. rewrite Hp in Hd0. by apply prefix_nil_inv.
Qed.

(** C5. Composition is safe. On every state that ingestion reaches, with at most
    [usize::MAX] strings, validation and composition return a graph without
    diagnostics or diagnostics without a graph. They panic only in two cases: a
    directive of a field selects below a type that its subgraph does not define
    (or an inline fragment in the arguments of [@authorized]), which the
    validation does not handle, or an enum is used in both positions and the
    first definition that differs has more values. *)
Theorem composition_outcome sg :
  reachable parse_query sg → (N.of_nat (iset_len (strings (store sg))) ≤ usize_max)%N →
  match compose_ir ua un sg with
  | Ret (ds, Some _) => ds = []
  | Ret (ds, None) => ds ≠ []
  | Panic _ => unvalidated sg ∨ enum_outgrown sg
  end.
Proof.
  intros Hr Hlen. pose proof (compose_ir_ok sg Hr Hlen) as Hok.
  destruct (compose_ir ua un sg) as [[ds [c|]]|]; [|done|done]. by destruct Hok as [? _].
Qed.

(** C7. The intermediate representation that composition hands to the emission
    of the graph is well-formed: every id of a string, directive, type, object,
    interface, field, input value, subgraph or key it holds exists, every range
    of ids lies in its table, and the map from names to definitions agrees with
    the tables. *)
Theorem composed_ir_wf sg ds c :
  reachable parse_query sg → (N.of_nat (iset_len (strings (store sg))) ≤ usize_max)%N →
  compose_ir ua un sg = Ret (ds, Some c) → ir_wf sg c.
Proof.
  intros Hr Hlen Hc. pose proof (compose_ir_ok sg Hr Hlen) as Hok. rewrite Hc in Hok. by destruct Hok as (_ & ? & _).
Qed.

(** C21. Nothing is forgotten. When composition succeeds, the graph has a query
    root and a definition for every name that some subgraph defines other than
    as a root type, except for the enums that no field or argument uses. *)
Theorem composed_definitions_complete sg ds c :
  reachable parse_query sg → (N.of_nat (iset_len (strings (store sg))) ≤ usize_max)%N →
  compose_ir ua un sg = Ret (ds, Some c) →
  is_Some (root_query (ir_tables c)) ∧ (∀ n, composable sg n → composed_as c (str sg n)).
Proof.
  intros Hr Hlen Hc. pose proof (compose_ir_ok sg Hr Hlen) as Hok. rewrite Hc in Hok. by destruct Hok as (_ & _ & ? & ? & _).
Qed.

(** [Subgraphs::iter_definition_groups] passes on the definitions by name. On
    every reachable state it returns; after one empty group come the names in
    use, in increasing order and each once, and the group of a name consists of
    the definitions registered under it in some subgraph that are not a root
    type of that subgraph. *)
Theorem iter_definition_groups_spec sg :
  reachable parse_query sg →
  ∃ names, iter_definition_groups sg = Ret ([] :: (group_of sg <$> names)) ∧ StronglySorted lt names ∧
    (∀ n, n ∈ names ↔ ∃ s, is_Some (definition_names sg !! (n, s))) ∧
    (∀ n id, id ∈ group_of sg n ↔ ∃ s, definition_names sg !! (n, s) = Some id ∧ is_root_type sg s id = Ret false).
Proof.
  intros Hr%reachable_wf. destruct (iter_groups sg Hr) as (names & ? & ? & ?). exists names. split_and!; [done..|].
  intros n id. apply elem_of_group_of.
Qed.

(** C33. Composing an input object that several subgraphs define. The function
    returns, adds one input object with the name of the definitions and the
    values [vs] it appends to the table of input values, whose range the record
    has. Only fields that all definitions have are added. If nothing was
    reported, they are exactly those, each once and in the order of the interned
    names, and no definition has a required field that another one lacks. *)
Theorem merge_input_object_definitions_spec sg first rest c :
  reachable parse_query sg → (N.of_nat (iset_len (strings (store sg))) ≤ usize_max)%N →
  Forall (def_ok sg) (first :: rest) →
  let defs := first :: rest in
  ∃ c' vs msgs o ks, merge_input_object_definitions sg first defs c = Ret ((), c') ∧
    input_value_definitions (ir_tables c') = input_value_definitions (ir_tables c) ++ vs ∧
    input_objects (ir_tables c') = input_objects (ir_tables c) ++ [o] ∧
    diagnostics c' = diagnostics c ++ msgs ∧
    get_index (ir_strings c') (io_name o) = Some (str sg (definition_name first.2)) ∧
    io_fields o = (if decide (vs = []) then (0, 0) else (length (input_value_definitions (ir_tables c)), length vs)) ∧
    Forall2 (value_named sg c') vs ks ∧ Forall (λ n, Forall (λ d, is_Some (find_field sg d.1 n)) defs) ks ∧
    (msgs = [] → shared_fields sg defs ks).
Proof. intros Hr Hlen Hds. apply merge_input_object_gives; [by eapply reachable_wf|done|done]. Qed.
End claims.

(** ** Composition on concrete subgraphs *)

#[local] Existing Instance list_index_set.
#[local] Existing Instance list_index_set_laws.

(** Only ASCII characters are used below. *)
Definition no_unicode (c : string) : bool := false.
Definition composed (subgraphs_ : list (string * Document)) : res (list string * option Ctx) :=
  sg ← ingested subgraphs_; compose_ir no_unicode no_unicode sg.
Definition errors (r : res (list string * option Ctx)) : option (list string) :=
  match r with Ret (ds, _) => Some ds | Panic _ => None end.

Definition input (name : string) (fields : list (string * AType)) : TypeSystemDefinition :=
  TSType (MkTypeDefinition name None [] (TInputObject ((λ f, MkInputValueDefinition f.1 None f.2 None []) <$> fields))).
Definition query (fields : list FieldDefinition) : TypeSystemDefinition := object "Query" [] fields.

(** ** Two subgraphs that compose *)
Definition users : Document :=
  [object "User" [key "id"] [field "id" (ANamed "ID" false)];
   input "Filter" [("name", ANamed "String" true); ("age", ANamed "Int" true)];
   query [field "me" (ANamed "User" true);
          MkFieldDefinition "find" None [MkInputValueDefinition "filter" None (ANamed "Filter" true) None []]
            (AList (ANamed "User" false) true) []]].
Definition roles : Document :=
  [object "User" [key "id"] [field "id" (ANamed "ID" false); field "role" (ANamed "Role" true)];
   enum "Role" [] [("ADMIN", []); ("GUEST", [])];
   input "Filter" [("name", ANamed "String" false)]].
Definition users_and_roles : Subgraphs := state (ingested [("users", users); ("roles", roles)]).

Lemma users_run :
  ingest_subgraph parse_some users "users" "http://users" Subgraphs_default =
  Ret ((), state (ingested [("users", users)])).
Proof. vm_compute. reflexivity. Qed.
Lemma roles_run :
  ingest_subgraph parse_some roles "roles" "http://roles" (state (ingested [("users", users)])) = Ret ((), users_and_roles).
Proof. vm_compute. reflexivity. Qed.
Lemma users_and_roles_reachable : reachable parse_some users_and_roles.
Proof. eapply reachable_ingest; [eapply reachable_ingest; [apply reachable_default|apply users_run]|apply roles_run]. Qed.
Lemma users_and_roles_small : (N.of_nat (iset_len (strings (store users_and_roles))) ≤ usize_max)%N.
Proof. vm_compute. discriminate. Qed.
Definition the_ir : Ctx :=
  match compose_ir no_unicode no_unicode users_and_roles with Ret (_, Some c) => c | _ => Ctx_empty end.
Lemma users_and_roles_compose : compose_ir no_unicode no_unicode users_and_roles = Ret ([], Some the_ir).
Proof. vm_compute. reflexivity. Qed.
#[local] Opaque users_and_roles the_ir.

Lemma composition_outcome_witness :
  is_panic (compose_ir no_unicode no_unicode two_subgraphs) = true ∧
  (unvalidated two_subgraphs ∨ enum_outgrown two_subgraphs).
Proof.
  assert (is_panic (compose_ir no_unicode no_unicode two_subgraphs) = true) as Hp by (vm_compute; reflexivity).
  split; [exact Hp|].
  pose proof (composition_outcome parse_some no_unicode no_unicode two_subgraphs two_reachable) as Ho.
  destruct (compose_ir no_unicode no_unicode two_subgraphs) as [[ds [c|]]|]; [discriminate Hp|discriminate Hp|].
  apply Ho. vm_compute. discriminate.
Defined.
Lemma composed_ir_wf_witness : ir_wf users_and_roles the_ir.
Proof.
  exact (composed_ir_wf parse_some no_unicode no_unicode users_and_roles [] the_ir users_and_roles_reachable
    users_and_roles_small users_and_roles_compose).
Defined.
(** [Role] is an enum that a field returns. *)
Lemma composed_definitions_complete_witness :
  is_Some (root_query (ir_tables the_ir)) ∧
  (∀ n, composable users_and_roles n → composed_as the_ir (str users_and_roles n)).
Proof.
  exact (composed_definitions_complete parse_some no_unicode no_unicode users_and_roles [] the_ir
    users_and_roles_reachable users_and_roles_small users_and_roles_compose).
Defined.
Lemma iter_definition_groups_spec_witness :
  iter_definition_groups users_and_roles = Ret [[]; [0; 3]; [1; 5]; []; [4]] ∧
  ∃ names, iter_definition_groups users_and_roles = Ret ([] :: (group_of users_and_roles <$> names)) ∧
    StronglySorted lt names.
Proof.
  split; [vm_compute; reflexivity|].
  destruct (iter_definition_groups_spec parse_some users_and_roles users_and_roles_reachable) as (names & E & Hs & _).
  exists names. split; [exact E|exact Hs].
Defined.
(** The two definitions of [Filter] share [name], which the second one requires. *)
Definition filter_definitions : list Def :=
  match mapM_res (walk_definition users_and_roles) [1; 5] with Ret l => l | Panic _ => [] end.
Lemma merge_input_object_definitions_spec_witness :
  match filter_definitions with
  | first :: rest =>
      ∃ c' vs o ks, merge_input_object_definitions users_and_roles first (first :: rest) Ctx_empty = Ret ((), c') ∧
        input_value_definitions (ir_tables c') = vs ∧ input_objects (ir_tables c') = [o] ∧ diagnostics c' = [] ∧
        shared_fields users_and_roles (first :: rest) ks ∧ length vs = 1
  | [] => False
  end.
Proof.
  destruct filter_definitions as [|first [|second rest]] eqn:E; [vm_compute in E; discriminate E..|].
  assert (Forall (def_ok users_and_roles) (first :: second :: rest)) as Hok.
  { rewrite <-E. apply Forall_forall. intros d Hd. vm_compute in Hd.
    repeat (apply elem_of_cons in Hd as [->|Hd]; [vm_compute; reflexivity|]). apply elem_of_nil in Hd. destruct Hd. }
  destruct (merge_input_object_definitions_spec parse_some users_and_roles first (second :: rest) Ctx_empty
    users_and_roles_reachable users_and_roles_small Hok)
    as (c' & vs & msgs & o & ks & Hrun & Hv & Ho & Hd & _ & _ & _ & _ & Hsh).
  assert (match merge_input_object_definitions users_and_roles first (first :: second :: rest) Ctx_empty with
          | Ret (_, c) => diagnostics c = [] ∧ length (input_value_definitions (ir_tables c)) = 1
          | Panic _ => False
          end) as Hc.
  { vm_compute in E. injection E as <- <- <-. vm_compute. split; reflexivity. }
  rewrite Hrun in Hc. destruct Hc as [Hd' Hl]. simpl in Hd, Hv, Ho. rewrite Hd' in Hd. rewrite Hv in Hl.
  exists c', vs, o, ks. split; [exact Hrun|]. split; [exact Hv|]. split; [exact Ho|]. split; [exact Hd'|].
  split; [apply Hsh; symmetry; exact Hd|exact Hl].
Defined.

(** ** What the code does not handle *)
Definition with_directive (name : string) (ty : AType) (d : string) (arguments : list (string * ConstValue)) : FieldDefinition :=
  MkFieldDefinition name None [] ty [MkConstDirective d arguments].
Definition hello : TypeSystemDefinition := query [field "hello" (ANamed "String" true)].

(** Only [merge_object_definitions] compares the kinds of the definitions of a
    name: an object and a union with the same name are an error when the object
    comes first, and are merged without one when the union comes first. *)
Theorem kind_mismatch_depends_on_order :
  let a := ("a", [hello; object "User" [] [field "id" (ANamed "ID" true)]; TSType (MkTypeDefinition "T" None [] (TUnion ["User"]))]) in
  let b := ("b", [object "T" [] [field "x" (ANamed "Int" true)]]) in
  errors (composed [b; a]) = Some ["Cannot merge Object with Union (`T` in `b` and `a`)"] ∧
  errors (composed [a; b]) = Some [].
Proof. vm_compute. split; reflexivity. Qed.

(** [@provides] on a field with a built-in scalar type panics. *)
Theorem provides_on_scalar_panics :
  errors (composed [("a", [query [with_directive "hello" (ANamed "String" true) "provides" [("fields", CString "id")]]])]) = None.
Proof. vm_compute. reflexivity. Qed.

(** A root type that is not named [Query] and is the type of a field: composition
    reports nothing, but the graph has no definition with its name. *)
Theorem renamed_root_missing :
  match composed [("a", [TSSchema (MkSchemaDefinition [] (Some "Root") None None);
                         object "Root" [] [field "root" (ANamed "Root" true)]])] with
  | Ret (ds, Some c) => ds = [] ∧ length (ir_fields (ir_tables c)) = 1 ∧
      lookup_string (ir_strings c) "Root" = None ∧ bool_decide (is_Some (lookup_string (ir_strings c) "Query")) = true
  | _ => False
  end.
Proof. vm_compute. split_and!; reflexivity. Qed.
