(* ===== verification/FederatedGraph.v ===== *)
(** * [federated-graph]: the data of [federated_graph/v4.rs]

    The federated graph that composition emits: vectors of records that refer
    to each other by index. The records that composition fills before emission
    (type definitions, enum values, input objects) are those of
    [ComposeContext]; objects, interfaces, fields and the rest have here the
    fields they get when they are emitted. *)
From S2P Require Import Prelude RustStd Wrapping CheckSchema IndexSet FieldTypes Subgraphs ComposeContext.
Local Open Scope string_scope.
Local Open Scope list_scope.
Local Open Scope nat_scope.

Global Instance FederatedDefinition_eq_dec : EqDecision FederatedDefinition.
Proof. solve_decision. Defined.
Global Instance FederatedDefinition_countable : Countable FederatedDefinition.
Proof.
  refine (inj_countable'
    (λ d, match d with
          | FScalar i => (0, i) | FObject i => (1, i) | FInterface i => (2, i)
          | FUnion i => (3, i) | FEnum i => (4, i) | FInputObject i => (5, i)
          end)
    (λ e, match e with
          | (0, i) => FScalar i | (1, i) => FObject i | (2, i) => FInterface i
          | (3, i) => FUnion i | (4, i) => FEnum i | (_, i) => FInputObject i
          end) _).
  by intros [].
Defined.

(** [Definition::as_enum]. *)
Definition as_enum (d : FederatedDefinition) : option TypeDefinitionId :=
  match d with FEnum id => Some id | _ => None end.

Record FType := MkFType { ft_wrapping : Wrapping; ft_definition : FederatedDefinition }.

(** [Value]; an [f64] is its 64 bits. *)
Inductive FValue :=
| FVNull
| FVString (s : nat)
| FVInt (n : Z)
| FVFloat (bits : Z)
| FVBoolean (b : bool)
| FVUnboundEnumValue (s : nat)
| FVEnumValue (id : nat)
| FVObject (fields : list (nat * FValue))
| FVList (items : list FValue).

Inductive FSelection :=
| FSField (field : nat) (arguments : list (nat * FValue)) (subselection : list FSelection)
| FSInlineFragment (on : FederatedDefinition) (subselection : list FSelection).

(** [InputValueDefinitionSetItem]. *)
Inductive ValueSetItem := MkValueSetItem (input_value_definition : nat) (subselection : list ValueSetItem).

Inductive FDirective :=
| FDAuthenticated
| FDDeprecated (reason : option nat)
| FDInaccessible
| FDPolicy (policies : list (list nat))
| FDRequiresScopes (scopes : list (list nat))
| FDOther (name : nat) (arguments : list (nat * FValue)).

Record FAuthorized := MkFAuthorized {
  fa_fields : option (list FSelection);
  fa_node : option (list FSelection);
  fa_arguments : option (list ValueSetItem);
  fa_metadata : option FValue;
}.
Record FKey := MkFKey {
  fk_subgraph_id : SubgraphId;
  fk_fields : list FSelection;
  fk_is_interface_object : bool;
  fk_resolvable : bool;
}.

(** [Fields]: the id of the first field and the id after the last one. *)
Abbreviation Fields := (nat * nat)%type.
Definition NO_FIELDS : Fields := (0, 0).
Definition NO_DIRECTIVES : DirectiveRange := (0, 0).

Record FObjectRecord := MkFObject {
  fo_type_definition_id : TypeDefinitionId;
  fo_implements_interfaces : list nat;
  fo_join_implements : list (SubgraphId * nat);
  fo_keys : list FKey;
  fo_fields : Fields;
}.
Record FInterfaceRecord := MkFInterface {
  fif_type_definition_id : TypeDefinitionId;
  fif_implements_interfaces : list nat;
  fif_keys : list FKey;
  fif_fields : Fields;
  fif_join_implements : list (SubgraphId * nat);
}.
(** [FieldProvides] and [FieldRequires]. *)
Record FieldSelection := MkFieldSelection { fsel_subgraph_id : SubgraphId; fsel_fields : list FSelection }.
Record FField := MkFField {
  ff_name : nat;
  ff_type : FType;
  ff_arguments : InputValueDefinitions;
  ff_resolvable_in : list SubgraphId;
  ff_provides : list FieldSelection;
  ff_requires : list FieldSelection;
  ff_overrides : list Override;
  ff_composed_directives : DirectiveRange;
  ff_description : option nat;
}.
Record FUnionRecord := MkFUnion {
  fu_name : nat;
  fu_members : list nat;
  fu_join_members : gset (SubgraphId * nat);
  fu_composed_directives : DirectiveRange;
  fu_description : option nat;
}.
Record FInputValue := MkFInputValue {
  fiv_name : nat;
  fiv_type : FType;
  fiv_directives : DirectiveRange;
  fiv_description : option nat;
  fiv_default : option FValue;
}.
Record FSubgraph := MkFSubgraph { fs_name : nat; fs_url : nat }.
Record RootOperationTypes := MkRootOperationTypes {
  rot_query : nat;
  rot_mutation : option nat;
  rot_subscription : option nat;
}.

Record FederatedGraph := MkFederatedGraph {
  fg_subgraphs : list FSubgraph;
  fg_root_operation_types : RootOperationTypes;
  fg_type_definitions : list TypeDefinitionRecord;
  fg_objects : list FObjectRecord;
  fg_interfaces : list FInterfaceRecord;
  fg_fields : list FField;
  fg_unions : list FUnionRecord;
  fg_input_objects : list InputObjectRecord;
  fg_enum_values : list EnumValueRecord;
  fg_input_value_definitions : list FInputValue;
  fg_strings : list string;
  fg_directives : list FDirective;
  fg_authorized_directives : list FAuthorized;
  fg_field_authorized_directives : list (nat * nat);
  fg_object_authorized_directives : list (nat * nat);
  fg_interface_authorized_directives : list (nat * nat);
}.

(** Field updates. *)
Definition set_subgraphs (x : list FSubgraph) (g : FederatedGraph) : FederatedGraph :=
  MkFederatedGraph x (fg_root_operation_types g) (fg_type_definitions g) (fg_objects g) (fg_interfaces g)
    (fg_fields g) (fg_unions g) (fg_input_objects g) (fg_enum_values g) (fg_input_value_definitions g)
    (fg_strings g) (fg_directives g) (fg_authorized_directives g) (fg_field_authorized_directives g)
    (fg_object_authorized_directives g) (fg_interface_authorized_directives g).
Definition set_objects (x : list FObjectRecord) (g : FederatedGraph) : FederatedGraph :=
  MkFederatedGraph (fg_subgraphs g) (fg_root_operation_types g) (fg_type_definitions g) x (fg_interfaces g)
    (fg_fields g) (fg_unions g) (fg_input_objects g) (fg_enum_values g) (fg_input_value_definitions g)
    (fg_strings g) (fg_directives g) (fg_authorized_directives g) (fg_field_authorized_directives g)
    (fg_object_authorized_directives g) (fg_interface_authorized_directives g).
Definition set_interfaces (x : list FInterfaceRecord) (g : FederatedGraph) : FederatedGraph :=
  MkFederatedGraph (fg_subgraphs g) (fg_root_operation_types g) (fg_type_definitions g) (fg_objects g) x
    (fg_fields g) (fg_unions g) (fg_input_objects g) (fg_enum_values g) (fg_input_value_definitions g)
    (fg_strings g) (fg_directives g) (fg_authorized_directives g) (fg_field_authorized_directives g)
    (fg_object_authorized_directives g) (fg_interface_authorized_directives g).
Definition set_fields (x : list FField) (g : FederatedGraph) : FederatedGraph :=
  MkFederatedGraph (fg_subgraphs g) (fg_root_operation_types g) (fg_type_definitions g) (fg_objects g)
    (fg_interfaces g) x (fg_unions g) (fg_input_objects g) (fg_enum_values g) (fg_input_value_definitions g)
    (fg_strings g) (fg_directives g) (fg_authorized_directives g) (fg_field_authorized_directives g)
    (fg_object_authorized_directives g) (fg_interface_authorized_directives g).
Definition set_unions (x : list FUnionRecord) (g : FederatedGraph) : FederatedGraph :=
  MkFederatedGraph (fg_subgraphs g) (fg_root_operation_types g) (fg_type_definitions g) (fg_objects g)
    (fg_interfaces g) (fg_fields g) x (fg_input_objects g) (fg_enum_values g) (fg_input_value_definitions g)
    (fg_strings g) (fg_directives g) (fg_authorized_directives g) (fg_field_authorized_directives g)
    (fg_object_authorized_directives g) (fg_interface_authorized_directives g).
Definition set_input_value_definitions (x : list FInputValue) (g : FederatedGraph) : FederatedGraph :=
  MkFederatedGraph (fg_subgraphs g) (fg_root_operation_types g) (fg_type_definitions g) (fg_objects g)
    (fg_interfaces g) (fg_fields g) (fg_unions g) (fg_input_objects g) (fg_enum_values g) x (fg_strings g)
    (fg_directives g) (fg_authorized_directives g) (fg_field_authorized_directives g)
    (fg_object_authorized_directives g) (fg_interface_authorized_directives g).
Definition set_strings (x : list string) (g : FederatedGraph) : FederatedGraph :=
  MkFederatedGraph (fg_subgraphs g) (fg_root_operation_types g) (fg_type_definitions g) (fg_objects g)
    (fg_interfaces g) (fg_fields g) (fg_unions g) (fg_input_objects g) (fg_enum_values g)
    (fg_input_value_definitions g) x (fg_directives g) (fg_authorized_directives g)
    (fg_field_authorized_directives g) (fg_object_authorized_directives g)
    (fg_interface_authorized_directives g).
Definition set_fg_directives (x : list FDirective) (g : FederatedGraph) : FederatedGraph :=
  MkFederatedGraph (fg_subgraphs g) (fg_root_operation_types g) (fg_type_definitions g) (fg_objects g)
    (fg_interfaces g) (fg_fields g) (fg_unions g) (fg_input_objects g) (fg_enum_values g)
    (fg_input_value_definitions g) (fg_strings g) x (fg_authorized_directives g)
    (fg_field_authorized_directives g) (fg_object_authorized_directives g)
    (fg_interface_authorized_directives g).
Definition set_authorized_directives (x : list FAuthorized) (g : FederatedGraph) : FederatedGraph :=
  MkFederatedGraph (fg_subgraphs g) (fg_root_operation_types g) (fg_type_definitions g) (fg_objects g)
    (fg_interfaces g) (fg_fields g) (fg_unions g) (fg_input_objects g) (fg_enum_values g)
    (fg_input_value_definitions g) (fg_strings g) (fg_directives g) x (fg_field_authorized_directives g)
    (fg_object_authorized_directives g) (fg_interface_authorized_directives g).
Definition set_field_authorized (x : list (nat * nat)) (g : FederatedGraph) : FederatedGraph :=
  MkFederatedGraph (fg_subgraphs g) (fg_root_operation_types g) (fg_type_definitions g) (fg_objects g)
    (fg_interfaces g) (fg_fields g) (fg_unions g) (fg_input_objects g) (fg_enum_values g)
    (fg_input_value_definitions g) (fg_strings g) (fg_directives g) (fg_authorized_directives g) x
    (fg_object_authorized_directives g) (fg_interface_authorized_directives g).
Definition set_object_authorized (x : list (nat * nat)) (g : FederatedGraph) : FederatedGraph :=
  MkFederatedGraph (fg_subgraphs g) (fg_root_operation_types g) (fg_type_definitions g) (fg_objects g)
    (fg_interfaces g) (fg_fields g) (fg_unions g) (fg_input_objects g) (fg_enum_values g)
    (fg_input_value_definitions g) (fg_strings g) (fg_directives g) (fg_authorized_directives g)
    (fg_field_authorized_directives g) x (fg_interface_authorized_directives g).
Definition set_interface_authorized (x : list (nat * nat)) (g : FederatedGraph) : FederatedGraph :=
  MkFederatedGraph (fg_subgraphs g) (fg_root_operation_types g) (fg_type_definitions g) (fg_objects g)
    (fg_interfaces g) (fg_fields g) (fg_unions g) (fg_input_objects g) (fg_enum_values g)
    (fg_input_value_definitions g) (fg_strings g) (fg_directives g) (fg_authorized_directives g)
    (fg_field_authorized_directives g) (fg_object_authorized_directives g) x.

(** ** Indexing *)
Definition at_index {A} (l : list A) (i : nat) : res A := expect "index out of bounds" (l !! i).
(** [&l[start..end]]. *)
Definition slice {A} (l : list A) (from to : nat) : res (list A) :=
  if (from <=? to) && (to <=? length l) then Ret (take (to - from) (drop from l))
  else Panic "range out of bounds".
Definition input_values_at (g : FederatedGraph) (r : InputValueDefinitions) : res (list FInputValue) :=
  slice (fg_input_value_definitions g) r.1 (r.1 + r.2).
Definition fields_at (g : FederatedGraph) (r : Fields) : res (list FField) := slice (fg_fields g) r.1 r.2.
Definition directives_at (g : FederatedGraph) (r : DirectiveRange) : res (list FDirective) :=
  slice (fg_directives g) r.1 (r.1 + r.2).

Definition type_definition_name (g : FederatedGraph) (id : TypeDefinitionId) : res nat :=
  td ← at_index (fg_type_definitions g) id; Ret (td_name td).
(** [FederatedGraph::definition_name], up to the lookup of the string. *)
Definition definition_name_id (g : FederatedGraph) (d : FederatedDefinition) : res nat :=
  match d with
  | FScalar id | FEnum id => type_definition_name g id
  | FObject id => o ← at_index (fg_objects g) id; type_definition_name g (fo_type_definition_id o)
  | FInterface id => i ← at_index (fg_interfaces g) id; type_definition_name g (fif_type_definition_id i)
  | FUnion id => u ← at_index (fg_unions g) id; Ret (fu_name u)
  | FInputObject id => o ← at_index (fg_input_objects g) id; Ret (io_name o)
  end.
Definition graph_definition_name (g : FederatedGraph) (d : FederatedDefinition) : res string :=
  name_id ← definition_name_id g d; at_index (fg_strings g) name_id.

(** ** [v4/enum_values.rs] *)

(** [iter_enum_values], with the ids. *)
Definition iter_enum_values (g : FederatedGraph) (enum_id : TypeDefinitionId) : list (nat * EnumValueRecord) :=
  let start := partition_point (λ v, ev_enum_id v <? enum_id) (fg_enum_values g) in
  imap (λ idx v, (start + idx, v)) (take_while (λ v, ev_enum_id v =? enum_id) (drop start (fg_enum_values g))).
Definition enum_value_range (g : FederatedGraph) (enum_id : TypeDefinitionId) : nat * nat :=
  match iter_enum_values g enum_id with
  | [] => (0, 0)
  | start :: values => (start.1, length values + 1)
  end.
Definition find_enum_value_by_name_id (g : FederatedGraph) (enum_id : TypeDefinitionId) (name_id : nat)
    : option (nat * EnumValueRecord) :=
  find (λ v, ev_value v.2 =? name_id) (iter_enum_values g enum_id).
