(* ===== verification/Emit.v ===== *)
(** * [composition]: [emit_federated_graph.rs] and [emit_federated_graph/*.rs]

    The last pass of composition: the intermediate representation becomes a
    federated graph. The context of emission is a state that the functions
    thread ([E]); [definitions] and the subgraphs are only read. *)
From S2P Require Import Prelude RustStd Wrapping CheckSchema IndexSet FieldTypes Subgraphs Ingest Walkers ComposeContext FederatedGraph.
Local Open Scope string_scope.
Local Open Scope list_scope.
Local Open Scope nat_scope.

(** [Iterator::chunk_by]: the maximal runs of elements with the same key. *)
Fixpoint chunk_by {A K} `{EqDecision K} (key : A → K) (l : list A) : list (K * list A) :=
  match l with
  | [] => []
  | x :: l =>
      match chunk_by key l with
      | (k, c) :: cs => if decide (key x = k) then (k, x :: c) :: cs else (key x, [x]) :: (k, c) :: cs
      | [] => [(key x, [x])]
      end
  end.

(** [Iterator::position]. *)
Definition position {A} (p : A → bool) (l : list A) : option nat := fst <$> list_find (λ x, p x = true) l.

(** [for_each_field_group]: the groups it calls [f] with, in order. *)
Fixpoint field_groups_loop (fuel : nat) (fields : list FieldIr) (start : nat)
    : res (list (FederatedDefinition * list FieldIr)) :=
  match fuel with
  | 0 => Panic "out of fuel"
  | S fuel =>
      if start <? length fields then
        field ← at_index fields start;
        let definition := fi_parent_definition field in
        let end_ := start + partition_point (λ f, bool_decide (fi_parent_definition f = definition)) (drop start fields) in
        buf ← slice fields start end_;
        rest ← field_groups_loop fuel fields end_;
        Ret ((definition, buf) :: rest)
      else Ret []
  end.
Definition for_each_field_group (fields : list FieldIr) : res (list (FederatedDefinition * list FieldIr)) :=
  field_groups_loop (S (length fields)) fields 0.

Section emit.
Context `{IndexSet}.
Implicit Types sg : Subgraphs.

Record EmitCtx := MkEmitCtx {
  out : FederatedGraph;
  field_types_map : gmap FieldTypeId FType;
  selection_map : gmap (FederatedDefinition * nat) nat;
  ctx_definitions : gmap nat FederatedDefinition;
  strings_ir : iset string;
}.

(** ** The monad of functions on the context *)
Definition E (A : Type) : Type := EmitCtx → res (A * EmitCtx).
Global Instance E_ret : MRet E := λ A a c, Ret (a, c).
Global Instance E_bind : MBind E := λ A B f m c, '(a, c) ← m c; f a c.
Definition eread {A} (r : EmitCtx → res A) : E A := λ c, a ← r c; Ret (a, c).
Definition elift {A} (r : res A) : E A := eread (λ _, r).
Definition modify_out (f : FederatedGraph → FederatedGraph) : E unit := λ c,
  Ret ((), MkEmitCtx (f (out c)) (field_types_map c) (selection_map c) (ctx_definitions c) (strings_ir c)).
(** An update of the graph that can panic. *)
Definition try_modify_out (f : FederatedGraph → res FederatedGraph) : E unit := λ c,
  g ← f (out c); Ret ((), MkEmitCtx g (field_types_map c) (selection_map c) (ctx_definitions c) (strings_ir c)).
Fixpoint eeach {A} (f : A → E unit) (l : list A) : E unit :=
  match l with
  | [] => mret ()
  | x :: l => _ ← f x; eeach f l
  end.
Definition omapM {A B} (f : A → E B) (o : option A) : E (option B) :=
  match o with Some a => b ← f a; mret (Some b) | None => mret None end.

(** [l[i] = f(l[i])], through [IndexMut]. *)
Definition update_at {A} (l : list A) (i : nat) (f : A → A) : res (list A) :=
  x ← at_index l i; Ret (<[i := f x]> l).
Definition update_object (id : nat) (f : FObjectRecord → FObjectRecord) : E unit :=
  try_modify_out (λ g, l ← update_at (fg_objects g) id f; Ret (set_objects l g)).
Definition update_interface (id : nat) (f : FInterfaceRecord → FInterfaceRecord) : E unit :=
  try_modify_out (λ g, l ← update_at (fg_interfaces g) id f; Ret (set_interfaces l g)).
Definition update_union (id : nat) (f : FUnionRecord → FUnionRecord) : E unit :=
  try_modify_out (λ g, l ← update_at (fg_unions g) id f; Ret (set_unions l g)).
Definition update_field (id : nat) (f : FField → FField) : E unit :=
  try_modify_out (λ g, l ← update_at (fg_fields g) id f; Ret (set_fields l g)).

(** ** [context.rs] *)
Definition emit_str (s : string) : E nat := λ c,
  let '(id, strs) := intern s (strings_ir c) in
  Ret (id, MkEmitCtx (out c) (field_types_map c) (selection_map c) (ctx_definitions c) strs).
Definition emit_string sg (id : StringId) : E nat := s ← elift (string_at sg id); emit_str s.
(** [ctx.definitions[&name]]. *)
Definition definition_at (name : nat) : E FederatedDefinition :=
  eread (λ c, expect "no entry found for key" (ctx_definitions c !! name)).

Fixpoint insert_value_with_type sg (enum_type : option TypeDefinitionId) (value : Value) : E FValue :=
  match value with
  | VNull => mret FVNull
  | VString s => id ← emit_string sg s; mret (FVString id)
  | VInt n => mret (FVInt n)
  | VFloat f => mret (FVFloat f)
  | VBoolean b => mret (FVBoolean b)
  | VEnum s =>
      value_name ← emit_string sg s;
      enum_value ← eread (λ c, Ret (enum_id ← enum_type; find_enum_value_by_name_id (out c) enum_id value_name));
      mret (match enum_value with
            | Some enum_value => FVEnumValue enum_value.1
            | None => FVUnboundEnumValue value_name
            end)
  | VObject fields =>
      fields ← mapM (λ kv, k ← emit_string sg kv.1; v ← insert_value_with_type sg enum_type kv.2; mret (k, v)) fields;
      mret (FVObject fields)
  | VList items => items ← mapM (insert_value_with_type sg enum_type) items; mret (FVList items)
  end.
Definition insert_value sg (value : Value) : E FValue := insert_value_with_type sg None value.

(** ** [field_types_map.rs] *)
Fixpoint wrap_all (wrapping : Wrapping) (wrappers : list WrapperTypeKind) : res Wrapping :=
  match wrappers with
  | [] => Ret wrapping
  | wrapper :: wrappers =>
      wrapping ← match wrapper with
                 | KList => wrapped_by_nullable_list wrapping
                 | KNonNullList => wrapped_by_required_list wrapping
                 end;
      wrap_all wrapping wrappers
  end.
Definition cache_type (id : FieldTypeId) (ty : FType) : E unit := λ c,
  Ret ((), MkEmitCtx (out c) (<[id := ty]> (field_types_map c)) (selection_map c) (ctx_definitions c) (strings_ir c)).
Definition unregistered sg (name : StringId) : string :=
  "Invariant violation: definition " +:+ quoted (default "" (get_index (strings (store sg)) name))
  +:+ " from field type not registered.".
Definition insert_field_type sg (id : FieldTypeId) : E FType :=
  t ← elift (inner (store sg) id);
  type_name ← emit_string sg (inner_name t);
  cached ← eread (λ c, Ret (field_types_map c !! id));
  match cached with
  | Some ty => mret ty
  | None =>
      definition ← eread (λ c, expect (unregistered sg (inner_name t)) (ctx_definitions c !! type_name));
      wrapping ← elift (wrap_all (new (inner_required t)) (iter_wrappers (store sg) t));
      _ ← cache_type id (MkFType wrapping definition);
      mret (MkFType wrapping definition)
  end.

(** ** Selections *)
Fixpoint attach_selection_one sg (target : FederatedDefinition) (selection : Selection) : E FSelection :=
  match selection with
  | SField field arguments subselection =>
      selection_field ← emit_string sg field;
      field ← eread (λ c, expect "no entry found for key" (selection_map c !! (target, selection_field)));
      f ← eread (λ c, at_index (fg_fields (out c)) field);
      let field_ty := ft_definition (ff_type f) in
      let field_arguments := ff_arguments f in
      arguments ← mapM (λ nv : StringId * Value,
        arg_name ← emit_string sg nv.1;
        argument ← eread (λ c,
          args ← input_values_at (out c) field_arguments;
          idx ← unwrap (position (λ arg, fiv_name arg =? arg_name) args);
          Ret (field_arguments.1 + idx));
        argument_enum_type ← eread (λ c,
          a ← at_index (fg_input_value_definitions (out c)) argument; Ret (as_enum (ft_definition (fiv_type a))));
        value ← insert_value_with_type sg argument_enum_type nv.2;
        mret (argument, value)) arguments;
      subselection ← mapM (attach_selection_one sg field_ty) subselection;
      mret (FSField field arguments subselection)
  | SInlineFragment on subselection =>
      on ← emit_string sg on;
      on ← definition_at on;
      subselection ← mapM (attach_selection_one sg on) subselection;
      mret (FSInlineFragment on subselection)
  end.
Definition attach_selection sg (selection_set : list Selection) (target : FederatedDefinition) : E (list FSelection) :=
  mapM (attach_selection_one sg target) selection_set.

(** *** [attach_argument_selection.rs] *)
Fixpoint attach_on_input_object_one sg (input_object_id : nat) (selection : Selection) : E (option ValueSetItem) :=
  match selection with
  | SInlineFragment _ _ => mret None
  | SField field _ subselection =>
      field_name ← emit_string sg field;
      found ← eread (λ c,
        input_object ← at_index (fg_input_objects (out c)) input_object_id;
        fields ← input_values_at (out c) (io_fields input_object);
        Ret (idx ← position (λ f, fiv_name f =? field_name) fields; Some ((io_fields input_object).1 + idx)));
      match found with
      | None => mret None
      | Some field_id =>
          ty ← eread (λ c, v ← at_index (fg_input_value_definitions (out c)) field_id; Ret (ft_definition (fiv_type v)));
          subselection ← match ty with
                         | FInputObject object =>
                             items ← mapM (attach_on_input_object_one sg object) subselection; mret (omap id items)
                         | _ => mret []
                         end;
          mret (Some (MkValueSetItem field_id subselection))
      end
  end.
Definition attach_selection_on_input_object sg (selection_set : list Selection) (input_object_id : nat) : E (list ValueSetItem) :=
  items ← mapM (attach_on_input_object_one sg input_object_id) selection_set; mret (omap id items).
Definition attach_argument_one sg (field_id : nat) (selection : Selection) : E (option ValueSetItem) :=
  match selection with
  | SInlineFragment _ _ => mret None
  | SField field _ subselection =>
      selection_field ← emit_string sg field;
      argument_id ← eread (λ c,
        f ← at_index (fg_fields (out c)) field_id;
        args ← input_values_at (out c) (ff_arguments f);
        idx ← unwrap (position (λ arg, fiv_name arg =? selection_field) args);
        Ret ((ff_arguments f).1 + idx));
      ty ← eread (λ c, v ← at_index (fg_input_value_definitions (out c)) argument_id; Ret (ft_definition (fiv_type v)));
      subselection ← match ty with
                     | FInputObject object => attach_selection_on_input_object sg subselection object
                     | _ => mret []
                     end;
      mret (Some (MkValueSetItem argument_id subselection))
  end.
Definition attach_argument_selection sg (selection_set : list Selection) (field_id : nat) : E (list ValueSetItem) :=
  items ← mapM (attach_argument_one sg field_id) selection_set; mret (omap id items).

(** ** Directives, subgraphs, interfaces and input values *)
Definition emit_directive sg (directive : Directive) : E FDirective :=
  match directive with
  | Authenticated => mret FDAuthenticated
  | Deprecated reason => mret (FDDeprecated reason)
  | Inaccessible => mret FDInaccessible
  | Policy policies => mret (FDPolicy policies)
  | RequiresScopes scopes => mret (FDRequiresScopes scopes)
  | Other name arguments =>
      arguments ← mapM (λ nv : nat * Value, v ← insert_value sg nv.2; mret (nv.1, v)) arguments;
      mret (FDOther name arguments)
  end.
Definition push_fdirective (d : FDirective) : E unit := modify_out (λ g, set_fg_directives (fg_directives g ++ [d]) g).
Definition emit_directives sg (ir : list Directive) : E unit :=
  eeach (λ d, converted ← emit_directive sg d; push_fdirective converted) ir.

Definition emit_subgraphs sg : E unit :=
  eeach (λ s,
    name ← emit_string sg (subgraph_name_id s);
    url ← emit_string sg (subgraph_url s);
    modify_out (λ g, set_subgraphs (fg_subgraphs g ++ [MkFSubgraph name url]) g)) (subgraphs sg).

(** [definitions.rs]. *)
Definition iter_interface_impls sg : list (StringId * StringId) := btree_set_iter (interface_impls sg).
Definition subgraphs_implementing_interface sg (implementer implemented_interface : StringId) : list SubgraphId :=
  default [] (interface_definitions_to_subgraphs sg !! (implementer, implemented_interface)).

Definition object_implements (implementee : nat) (subgraphs : list SubgraphId) (o : FObjectRecord) : FObjectRecord :=
  MkFObject (fo_type_definition_id o) (fo_implements_interfaces o ++ [implementee])
    (fo_join_implements o ++ ((λ s, (s, implementee)) <$> subgraphs)) (fo_keys o) (fo_fields o).
Definition interface_implements (implementee : nat) (subgraphs : list SubgraphId) (i : FInterfaceRecord) : FInterfaceRecord :=
  MkFInterface (fif_type_definition_id i) (fif_implements_interfaces i ++ [implementee]) (fif_keys i) (fif_fields i)
    (fif_join_implements i ++ ((λ s, (s, implementee)) <$> subgraphs)).
Definition emit_interface_impl sg (e : StringId * StringId) : E unit :=
  let '(implementee_name, implementer_name) := e in
  implementer ← emit_string sg implementer_name;
  implementee ← emit_string sg implementee_name;
  d ← definition_at implementee;
  match d with
  | FInterface implementee =>
      d ← definition_at implementer;
      let subgraphs := subgraphs_implementing_interface sg implementee_name implementer_name in
      match d with
      | FObject object_id => update_object object_id (object_implements implementee subgraphs)
      | FInterface interface_id => update_interface interface_id (interface_implements implementee subgraphs)
      | _ => elift (Panic "internal error: entered unreachable code")
      end
  | _ => mret ()
  end.
Definition emit_interface_impls sg : E unit := eeach (emit_interface_impl sg) (iter_interface_impls sg).

Definition emit_input_value sg (v : InputValueDefinitionIr) : E FInputValue :=
  ty ← insert_field_type sg (ivd_type v);
  default ← omapM (insert_value_with_type sg (as_enum (ft_definition ty))) (ivd_default v);
  mret (MkFInputValue (ivd_name v) ty (ivd_directives v) (ivd_description v) default).
Definition emit_input_value_definitions sg (l : list InputValueDefinitionIr) : E unit :=
  l ← mapM (emit_input_value sg) l;
  modify_out (set_input_value_definitions l).
End emit.

(** ** [composition]: [emit_fields] and the whole of [emit_federated_graph] *)

(** The selections whose resolution waits until all fields are emitted:
    [field_provides], [field_requires] and [field_authorized]. *)
Record DelayedSelection := MkDelayed {
  ds_field_id : nat;
  ds_subgraph_id : SubgraphId;
  ds_definition : FederatedDefinition;
  ds_selection : list Selection;
}.
Record AuthorizedField := MkAuthorizedField {
  af_parent : FederatedDefinition;
  af_field_id : nat;
  af_output : FederatedDefinition;
  af_directive : AuthorizedDirective;
}.
Record Delayed := MkDelays {
  field_provides : list DelayedSelection;
  field_requires : list DelayedSelection;
  field_authorized : list AuthorizedField;
}.
Definition Delayed_empty : Delayed := MkDelays [] [] [].
Definition Delayed_app (a b : Delayed) : Delayed :=
  MkDelays (field_provides a ++ field_provides b) (field_requires a ++ field_requires b)
    (field_authorized a ++ field_authorized b).

Section emit_fields.
Context `{IndexSet}.
Implicit Types sg : Subgraphs.

(** The fields of a group with those of entity interfaces, sorted by name. *)
Definition group_fields sg (g : FederatedGraph) (ir_fields : list FieldIr) (from_interfaces : gset (nat * nat))
    (definition : FederatedDefinition) (fields : list FieldIr) : res (list FieldIr) :=
  extra ← match definition with
          | FObject id =>
              o ← at_index (fg_objects g) id;
              object_name ← type_definition_name g (fo_type_definition_id o);
              mapM_res (λ e : nat * nat, at_index ir_fields e.2)
                (filter (λ e, in_range object_name e = true) (btree_set_iter from_interfaces))
          | _ => Ret []
          end;
  named ← mapM_res (λ f, s ← string_at sg (fi_field_name f); Ret (s, f)) (fields ++ extra);
  Ret (sort (H := cmp_on fst) named).*2.

(** The closures of the two [filter_map]s. *)
Definition provides_of sg (field_id : nat) (id : FieldId) : E (option DelayedSelection) :=
  field ← elift (walk_field sg id);
  match provides_ sg (tuple_directives field) with
  | Some selection =>
      t ← elift (inner (store sg) (tuple_type field));
      field_type_name ← emit_string sg (inner_name t);
      parent ← elift (parent_definition sg id);
      definition ← definition_at field_type_name;
      mret (Some (MkDelayed field_id (subgraph_id parent.2) definition selection))
  | None => mret None
  end.
Definition requires_of sg (field_id : nat) (definition : FederatedDefinition) (id : FieldId)
    : E (option DelayedSelection) :=
  field ← elift (walk_field sg id);
  match requires_ sg (tuple_directives field) with
  | Some selection =>
      parent ← elift (parent_definition sg id);
      mret (Some (MkDelayed field_id (subgraph_id parent.2) definition selection))
  | None => mret None
  end.
Definition authorized_of sg (parent : FederatedDefinition) (field_id : nat) (output : FederatedDefinition)
    (id : FieldId) : E (option AuthorizedField) :=
  field ← elift (walk_field sg id);
  mret (MkAuthorizedField parent field_id output <$> authorized_ sg (tuple_directives field)).

(** [ctx.out.fields.push_return_idx(field)] and [ctx.selection_map.insert]. *)
Definition push_field (field : FField) : E nat := λ c,
  Ret (length (fg_fields (out c)),
       MkEmitCtx (set_fields (fg_fields (out c) ++ [field]) (out c)) (field_types_map c) (selection_map c)
         (ctx_definitions c) (strings_ir c)).
Definition select_as (key : FederatedDefinition * nat) (field_id : nat) : E unit := λ c,
  Ret ((), MkEmitCtx (out c) (field_types_map c) (<[key := field_id]> (selection_map c)) (ctx_definitions c) (strings_ir c)).

(** The body of the loop over the fields of a group. *)
Definition emit_field sg (definition : FederatedDefinition) (f : FieldIr) : E (nat * Delayed) :=
  ty ← insert_field_type sg (fi_field_type f);
  field_name ← emit_string sg (fi_field_name f);
  field_id ← push_field (MkFField field_name ty (fi_arguments f) (fi_resolvable_in f) [] [] (fi_overrides f)
                           (fi_composed_directives f) (fi_description f));
  provides ← mapM (provides_of sg field_id) (fi_provides f);
  requires ← mapM (requires_of sg field_id definition) (fi_requires f);
  authorized ← mapM (authorized_of sg definition field_id (ft_definition ty)) (fi_authorized_directives f);
  _ ← select_as (definition, field_name) field_id;
  mret (field_id, MkDelays (omap id provides) (omap id requires) (omap id authorized)).

(** [start_field_id], [end_field_id] and the delayed selections after the loop. *)
Fixpoint emit_field_loop sg (definition : FederatedDefinition) (ids : option (nat * nat)) (delayed : Delayed)
    (fields : list FieldIr) : E (option (nat * nat) * Delayed) :=
  match fields with
  | [] => mret (ids, delayed)
  | f :: fields =>
      r ← emit_field sg definition f;
      emit_field_loop sg definition
        (match ids with Some (start, _) => Some (start, r.1) | None => Some (r.1, r.1) end)
        (Delayed_app delayed r.2) fields
  end.

Definition introspection_field (definition : FederatedDefinition) (name : nat) : FField :=
  MkFField name (MkFType (new false) definition) NO_INPUT_VALUE_DEFINITION [] [] [] [] NO_DIRECTIVES None.
Definition set_object_fields (fields : Fields) (o : FObjectRecord) : FObjectRecord :=
  MkFObject (fo_type_definition_id o) (fo_implements_interfaces o) (fo_join_implements o) (fo_keys o) fields.
Definition set_interface_fields (fields : Fields) (i : FInterfaceRecord) : FInterfaceRecord :=
  MkFInterface (fif_type_definition_id i) (fif_implements_interfaces i) (fif_keys i) fields (fif_join_implements i).
(** The fields of a group have been emitted: the range of the definition. *)
Definition set_range (definition : FederatedDefinition) (fields : Fields) (schema type_ : nat) : E unit :=
  query ← eread (λ c, Ret (rot_query (fg_root_operation_types (out c))));
  match definition with
  | FObject id =>
      if id =? query then
        _ ← modify_out (λ g, set_fields (fg_fields g ++ (introspection_field definition <$> [schema; type_])) g);
        update_object id (set_object_fields (fields.1, fields.2 + 2))
      else update_object id (set_object_fields fields)
  | FInterface id => update_interface id (set_interface_fields fields)
  | _ => elift (Panic "internal error: entered unreachable code")
  end.

(** The closure that [emit_fields] passes to [for_each_field_group]. *)
Definition emit_group sg (ir_fields : list FieldIr) (from_interfaces : gset (nat * nat)) (schema type_ : nat)
    (delayed : Delayed) (group : FederatedDefinition * list FieldIr) : E Delayed :=
  fields ← eread (λ c, group_fields sg (out c) ir_fields from_interfaces group.1 group.2);
  r ← emit_field_loop sg group.1 None delayed fields;
  let range := match r.1 with Some (start, end_) => (start, end_ + 1) | None => NO_FIELDS end in
  _ ← set_range group.1 range schema type_;
  mret r.2.
Fixpoint emit_groups sg (ir_fields : list FieldIr) (from_interfaces : gset (nat * nat)) (schema type_ : nat)
    (delayed : Delayed) (groups : list (FederatedDefinition * list FieldIr)) : E Delayed :=
  match groups with
  | [] => mret delayed
  | g :: groups =>
      delayed ← emit_group sg ir_fields from_interfaces schema type_ delayed g;
      emit_groups sg ir_fields from_interfaces schema type_ delayed groups
  end.

Definition add_provides (p : FieldSelection) (f : FField) : FField :=
  MkFField (ff_name f) (ff_type f) (ff_arguments f) (ff_resolvable_in f) (ff_provides f ++ [p]) (ff_requires f)
    (ff_overrides f) (ff_composed_directives f) (ff_description f).
Definition add_requires (p : FieldSelection) (f : FField) : FField :=
  MkFField (ff_name f) (ff_type f) (ff_arguments f) (ff_resolvable_in f) (ff_provides f) (ff_requires f ++ [p])
    (ff_overrides f) (ff_composed_directives f) (ff_description f).
Definition emit_delayed sg (add : FieldSelection → FField → FField) (d : DelayedSelection) : E unit :=
  fields ← attach_selection sg (ds_selection d) (ds_definition d);
  update_field (ds_field_id d) (add (MkFieldSelection (ds_subgraph_id d) fields)).

Definition push_authorized (a : FAuthorized) : E nat := λ c,
  Ret (length (fg_authorized_directives (out c)),
       MkEmitCtx (set_authorized_directives (fg_authorized_directives (out c) ++ [a]) (out c)) (field_types_map c)
         (selection_map c) (ctx_definitions c) (strings_ir c)).
Definition emit_authorized_field sg (a : AuthorizedField) : E unit :=
  let directive := af_directive a in
  fields ← omapM (λ s, attach_selection sg s (af_parent a)) (authorized_fields directive);
  node ← omapM (λ s, attach_selection sg s (af_output a)) (authorized_node directive);
  metadata ← omapM (insert_value sg) (authorized_metadata directive);
  arguments ← omapM (λ s, attach_argument_selection sg s (af_field_id a)) (authorized_arguments directive);
  idx ← push_authorized (MkFAuthorized fields node arguments metadata);
  modify_out (λ g, set_field_authorized (fg_field_authorized_directives g ++ [(af_field_id a, idx)]) g).

Definition emit_fields sg (ir_fields : list FieldIr) (from_interfaces : gset (nat * nat)) (schema type_ : nat) : E unit :=
  groups ← elift (for_each_field_group ir_fields);
  delayed ← emit_groups sg ir_fields from_interfaces schema type_ Delayed_empty groups;
  _ ← eeach (emit_delayed sg add_provides) (field_provides delayed);
  _ ← eeach (emit_delayed sg add_requires) (field_requires delayed);
  eeach (emit_authorized_field sg) (field_authorized delayed).

(** ** Unions, keys and authorization *)
Definition add_member (object_id : nat) (subgraphs : list SubgraphId) (u : FUnionRecord) : FUnionRecord :=
  MkFUnion (fu_name u) (fu_members u ++ [object_id])
    (list_to_set ((λ s, (s, object_id)) <$> subgraphs) ∪ fu_join_members u) (fu_composed_directives u) (fu_description u).
Definition emit_union_member (ir_join_members : gmap (nat * nat) (list SubgraphId)) (union_id : nat) (e : nat * nat) : E unit :=
  d ← definition_at e.2;
  match d with
  | FObject object_id => update_union union_id (add_member object_id (default [] (ir_join_members !! e)))
  | _ => mret ()
  end.
Definition emit_union_members (ir_members : gset (nat * nat)) (ir_join_members : gmap (nat * nat) (list SubgraphId)) : E unit :=
  eeach (λ chunk,
    d ← definition_at chunk.1;
    match d with
    | FUnion union_id =>
        _ ← eread (λ c, at_index (fg_unions (out c)) union_id);
        eeach (emit_union_member ir_join_members union_id) chunk.2
    | _ => mret ()
    end) (chunk_by fst (btree_set_iter ir_members)).

Definition object_key (key : FKey) (o : FObjectRecord) : FObjectRecord :=
  MkFObject (fo_type_definition_id o) (fo_implements_interfaces o) (fo_join_implements o) (fo_keys o ++ [key]) (fo_fields o).
Definition interface_key (key : FKey) (i : FInterfaceRecord) : FInterfaceRecord :=
  MkFInterface (fif_type_definition_id i) (fif_implements_interfaces i) (fif_keys i ++ [key]) (fif_fields i)
    (fif_join_implements i).
Definition emit_key sg (k : KeyIr) : E unit :=
  key ← elift (expect "index out of bounds" (keys sg !! key_id k));
  selection ← attach_selection sg (selection_set key.2) (key_parent k);
  parent ← elift (walk_definition sg key.1);
  let key := MkFKey (subgraph_id parent.2) selection (key_is_interface_object k) (key_resolvable k) in
  match key_parent k with
  | FObject object_id => update_object object_id (object_key key)
  | FInterface interface_id => update_interface interface_id (interface_key key)
  | _ => elift (Panic "internal error: entered unreachable code: non-object, non-interface key parent")
  end.
Definition emit_keys sg (l : list KeyIr) : E unit := eeach (emit_key sg) l.

(** The bodies of the two loops of [emit_authorized_directives], which differ in
    the definition and in the table. *)
Definition emit_authorized_on sg (definition : FederatedDefinition) (site : DirectiveSiteId) : E nat :=
  authorized ← elift (unwrap (authorized_ sg site));
  metadata ← omapM (insert_value sg) (authorized_metadata authorized);
  fields ← omapM (λ s, attach_selection sg s definition) (authorized_fields authorized);
  push_authorized (MkFAuthorized fields None None metadata).
Definition emit_object_authorized sg (e : nat * DirectiveSiteId) : E unit :=
  id ← emit_authorized_on sg (FObject e.1) e.2;
  modify_out (λ g, set_object_authorized (fg_object_authorized_directives g ++ [(e.1, id)]) g).
Definition emit_interface_authorized sg (e : nat * DirectiveSiteId) : E unit :=
  id ← emit_authorized_on sg (FInterface e.1) e.2;
  modify_out (λ g, set_interface_authorized (fg_interface_authorized_directives g ++ [(e.1, id)]) g).
Definition emit_authorized_directives sg (t : Tables) : E unit :=
  _ ← eeach (emit_object_authorized sg) (object_authorized_directives t);
  eeach (emit_interface_authorized sg) (interface_authorized_directives t).

(** ** [emit_federated_graph] *)
Definition empty_object (o : ObjectRecord) : FObjectRecord := MkFObject (object_type_definition_id o) [] [] [] NO_FIELDS.
Definition empty_interface (i : InterfaceRecord) : FInterfaceRecord :=
  MkFInterface (interface_type_definition_id i) [] [] NO_FIELDS [].
Definition empty_union (u : UnionRecord) : FUnionRecord :=
  MkFUnion (union_name u) [] ∅ (union_composed_directives u) (union_description u).
(** The graph that emission starts from, with the query root. *)
Definition initial_graph (ir : Ctx) (query : nat) : FederatedGraph :=
  let t := ir_tables ir in
  MkFederatedGraph [] (MkRootOperationTypes query (root_mutation t) (root_subscription t)) (ir_type_definitions ir)
    (empty_object <$> objects t) (empty_interface <$> interfaces t) [] (empty_union <$> ir_unions t) (input_objects t)
    (ir_enum_values ir) [] [] [] [] [] [] [].
(** [StringsIr::into_federated_strings]. *)
Definition into_federated_strings (s : iset string) : list string := omap (get_index s) (seq 0 (iset_len s)).

(** The calls between [Context::new] and [drop(ctx)]. *)
Definition emit_all sg (ir : Ctx) (schema type_ : nat) : E unit :=
  let t := ir_tables ir in
  _ ← emit_directives sg (ir_directives ir);
  _ ← emit_subgraphs sg;
  _ ← emit_interface_impls sg;
  _ ← emit_input_value_definitions sg (input_value_definitions t);
  _ ← emit_fields sg (ir_fields t) (object_fields_from_entity_interfaces t) schema type_;
  _ ← emit_union_members (union_members t) (union_join_members t);
  _ ← emit_keys sg (ir_keys t);
  emit_authorized_directives sg t.
(** Up to the rendering of the graph as text. *)
Definition emit_federated_graph sg (ir : Ctx) : res FederatedGraph :=
  let '(schema, strings) := intern "__schema" (ir_strings ir) in
  let '(type_, strings) := intern "__type" strings in
  query ← unwrap (root_query (ir_tables ir));
  '(_, ctx) ← emit_all sg ir schema type_
                (MkEmitCtx (initial_graph ir query) ∅ ∅ (ir_definitions_by_name ir) strings);
  Ret (set_strings (into_federated_strings (strings_ir ctx)) (out ctx)).
End emit_fields.
