(* ===== verification/ComposeFields.v ===== *)
(** * The groups of fields of [for_each_field_group]

    The binary search of the loop always makes progress, so it terminates on
    every list and its groups concatenate to the list. Where the fields of a
    definition are consecutive, the groups are the maximal runs. *)
From S2P Require Import Prelude RustStd Wrapping CheckSchema IndexSet FieldTypes Subgraphs ComposeContext ComposeEnums Ingest IngestProps Walkers ComposeTables Compose ComposeEntity ComposeValidate FederatedGraph Emit.
Local Open Scope string_scope.
Local Open Scope list_scope.
Local Open Scope nat_scope.

(** ** [chunk_by] *)
Section chunks.
Context {A K : Type} `{EqDecision K} (key : A → K).
Implicit Types l : list A.

Lemma chunk_by_concat l : concat (chunk_by key l).*2 = l.
Proof.
  induction l as [|x l IH]; simpl; [done|]. rewrite <-IH at 2. destruct (chunk_by key l) as [|[k c] cs]; [done|].
  by case_decide.
Qed.
Lemma chunk_by_keys l : Forall (λ kc, kc.2 ≠ [] ∧ Forall (λ x, key x = kc.1) kc.2) (chunk_by key l).
Proof.
  induction l as [|x l IH]; simpl; [done|]. destruct (chunk_by key l) as [|[k c] cs].
  { constructor; [|done]. simpl. split; [done|by constructor]. }
  apply Forall_cons in IH as [[? ?] ?]. case_decide as E; constructor; simpl; try done.
  - split; [done|by constructor].
  - split; [done|by constructor].
  - by constructor.
Qed.
Lemma elem_of_chunk_keys l k : k ∈ (chunk_by key l).*1 ↔ ∃ x, x ∈ l ∧ key x = k.
Proof.
  induction l as [|x l IH]; simpl; [set_solver|]. destruct (chunk_by key l) as [|[k' c] cs]; [set_solver|].
  case_decide; set_solver.
Qed.
Lemma chunk_by_cons x l :
  chunk_by key (x :: l) =
    match chunk_by key l with
    | (k, c) :: cs => if decide (key x = k) then (k, x :: c) :: cs else (key x, [x]) :: (k, c) :: cs
    | [] => [(key x, [x])]
    end.
Proof. done. Qed.
(** The first chunk and the others. *)
Lemma chunk_by_split x l :
  chunk_by key (x :: l) =
    (key x, x :: take_while (λ y, bool_decide (key y = key x)) l) ::
    chunk_by key (drop_while (λ y, bool_decide (key y = key x)) l).
Proof.
  revert x. induction l as [|y l IH]; intros x; [done|].
  rewrite chunk_by_cons.
  rewrite IH. simpl. destruct (decide (key x = key y)) as [E|E].
  - rewrite bool_decide_true by congruence. by rewrite E.
  - rewrite bool_decide_false by congruence. by rewrite <-IH.
Qed.

(** The elements with a key are consecutive. *)
Definition consecutive l : Prop := NoDup (chunk_by key l).*1.
Global Instance consecutive_dec l : Decision (consecutive l).
Proof. unfold consecutive. apply _. Defined.

Lemma consecutive_cons x l :
  consecutive (x :: l) → partitioned (λ y, bool_decide (key y = key x)) l ∧
    consecutive (drop_while (λ y, bool_decide (key y = key x)) l).
Proof.
  unfold consecutive. rewrite chunk_by_split. simpl. intros [Hx Hl]%NoDup_cons. split; [|done].
  apply Forall_forall. intros y Hy. apply bool_decide_eq_false. intros E. apply Hx, elem_of_chunk_keys. eauto.
Qed.
Lemma chunk_by_same x l : Forall (λ y, key y = key x) l → chunk_by key (x :: l) = [(key x, x :: l)].
Proof.
  intros Hl. rewrite chunk_by_split.
  assert (drop_while (λ y, bool_decide (key y = key x)) l = []) as E.
  { induction Hl as [|y l Hy _ IH]; simpl; [done|]. by rewrite bool_decide_true. }
  rewrite E. do 3 f_equal. pose proof (take_drop_while (λ y, bool_decide (key y = key x)) l) as T.
  rewrite E, app_nil_r in T. done.
Qed.
(** More elements with a new key. *)
Lemma chunk_by_app l y l' :
  (∀ x, last l = Some x → key x ≠ key y) → Forall (λ x, key x = key y) l' →
  chunk_by key (l ++ y :: l') = chunk_by key l ++ [(key y, y :: l')].
Proof.
  intros Hk Hl'. induction l as [|x l IH]; [by apply chunk_by_same|]. destruct l as [|z l].
  - cbn [app]. simpl. pose proof (chunk_by_same y l' Hl') as E. simpl in E. rewrite E. rewrite decide_False; [done|by apply Hk].
  - change ((x :: z :: l) ++ y :: l') with (x :: (z :: l) ++ y :: l'). rewrite !(chunk_by_cons x), IH by done.
    rewrite (chunk_by_split z l). simpl. by case_decide.
Qed.
Lemma consecutive_app l k l' :
  consecutive l → (∀ x, x ∈ l → key x ≠ k) → Forall (λ x, key x = k) l' → consecutive (l ++ l').
Proof.
  intros Hl Hk Hl'. destruct l' as [|y l']; [by rewrite app_nil_r|]. apply Forall_cons in Hl' as [<- Hl'].
  unfold consecutive. rewrite chunk_by_app; [|intros x Hx; by apply Hk, last_Some_elem_of|done].
  rewrite fmap_app. apply NoDup_app. split_and!; [done| |apply NoDup_singleton].
  intros z [w [Hw Ew]]%elem_of_chunk_keys Hz. simpl in Hz. apply list_elem_of_singleton in Hz. apply (Hk w Hw). congruence.
Qed.
Lemma filter_Forall_id (P : A → Prop) `{!∀ x, Decision (P x)} l : Forall P l → filter P l = l.
Proof. induction 1 as [|x l Hx _ IH]; [done|]. by rewrite filter_cons, decide_True, IH. Qed.
(** A chunk has all the elements with its key. *)
Lemma consecutive_chunk l k ch : consecutive l → (k, ch) ∈ chunk_by key l → ch = filter (λ x, key x = k) l.
Proof.
  remember (length l) as n eqn:Hn. revert l Hn. induction (lt_wf n) as [n _ IH]. intros l -> Hc.
  destruct l as [|x l]; [set_solver|]. pose proof (consecutive_cons _ _ Hc) as [Hp Hd].
  unfold consecutive in Hc. rewrite chunk_by_split in Hc |- *. cbn [fmap list_fmap fst] in Hc. apply NoDup_cons in Hc as [Hx _].
  set (p := λ y, bool_decide (key y = key x)) in *. rewrite filter_cons.
  assert (filter (λ x, key x = k) l = filter (λ x, key x = k) (take_while p l) ++ filter (λ x, key x = k) (drop_while p l))
    as -> by (by rewrite <-filter_app, take_drop_while). intros [[= -> ->]|Hin]%elem_of_cons.
  - rewrite decide_True by done. f_equal. rewrite filter_Forall_id, filter_none; [by rewrite app_nil_r| |].
    + intros y Hy E. unfold partitioned in Hp. rewrite Forall_forall in Hp. specialize (Hp y Hy).
      by apply bool_decide_eq_false in Hp.
    + pose proof (take_while_Forall p l) as HF. eapply Forall_impl; [exact HF|]. intros y Hy. by apply bool_decide_eq_true in Hy.
  - assert (k ≠ key x) as Hk by (intros ->; apply Hx; by apply (list_elem_of_fmap_2 fst _ (key x, ch))).
    rewrite decide_False by done. rewrite (filter_none _ (take_while p l)).
    + simpl. apply (IH (length (drop_while p l))); [|done|done|done].
      pose proof (f_equal length (take_drop_while p l)) as E. rewrite length_app in E. simpl. lia.
    + intros y Hy E. pose proof (take_while_Forall p l) as HF. rewrite Forall_forall in HF. specialize (HF y Hy).
      apply bool_decide_eq_true in HF. congruence.
Qed.
End chunks.

(** ** The loop *)
(** A binary search that never finds its target stops inside the list, and not
    at the front when the front is below the target. *)
Lemma bs_loop_pos {A} (f : A → comparison) x l fuel left right :
  f x = Lt → Forall (λ y, f y ≠ Eq) (x :: l) → left ≤ right ≤ length (x :: l) → 0 < right → right ≤ fuel + left →
  ∃ i, bs_loop f (x :: l) fuel left right = inr i ∧ 0 < i ≤ length (x :: l).
Proof.
  intros Hx Hf. revert left right. induction fuel as [|fuel IH]; intros left right Hr H0 Hfuel; cbn [bs_loop].
  { exists left. split; [done|lia]. }
  case_decide as Hlt; [|exists left; split; [done|lia]]. pose proof (mid_bounds left right Hlt) as Hmid. cbv zeta.
  set (mid := left + (right - left) / 2) in *. clearbody mid.
  destruct (lookup_lt_is_Some_2 (x :: l) mid) as [m Hm]; [lia|]. rewrite Hm. simpl.
  destruct (f m) eqn:Hfm.
  - by pose proof (proj1 (Forall_lookup _ _) Hf mid m Hm).
  - apply IH; lia.
  - apply IH; [lia| |lia]. destruct mid as [|mid]; [|lia]. simplify_eq/=. congruence.
Qed.
Lemma partition_point_pos {A} (p : A → bool) x l :
  p x = true → 0 < partition_point p (x :: l) ≤ length (x :: l).
Proof.
  intros Hx. unfold partition_point, binary_search_by.
  destruct (bs_loop_pos (λ x, if p x then Lt else Gt) x l (length (x :: l)) 0 (length (x :: l)))
    as (i & -> & Hi); [by rewrite Hx| |lia|simpl; lia|lia|done].
  apply Forall_forall. intros y _. by destruct (p y).
Qed.

Abbreviation parent := fi_parent_definition.
Abbreviation same d := (λ f, bool_decide (fi_parent_definition f = d)).

(** One iteration. *)
Lemma slice_drop {A} (l : list A) start n :
  start + n ≤ length l → slice l start (start + n) = Ret (take n (drop start l)).
Proof.
  intros Hn. unfold slice. rewrite (proj2 (Nat.leb_le _ _)) by lia. rewrite (proj2 (Nat.leb_le _ _)) by lia.
  simpl. by replace (start + n - start) with n by lia.
Qed.
Lemma field_groups_step fuel fields start f l :
  drop start fields = f :: l → start < length fields →
  let n := partition_point (same (parent f)) (f :: l) in
  field_groups_loop (S fuel) fields start =
    (rest ← field_groups_loop fuel fields (start + n); Ret ((parent f, take n (f :: l)) :: rest)).
Proof.
  intros E Hlt n. assert (0 < n ≤ length (f :: l)) as Hn by (apply partition_point_pos; by apply bool_decide_true).
  cbn [field_groups_loop]. rewrite (proj2 (Nat.ltb_lt _ _)) by done.
  assert (fields !! start = Some f) as Hf.
  { rewrite <-(Nat.add_0_r start), <-lookup_drop, E. done. }
  unfold at_index. rewrite Hf. cbn [expect mbind res_bind]. rewrite E. fold n.
  rewrite slice_drop, E; [done|]. pose proof (length_drop fields start) as HL. rewrite E in HL. lia.
Qed.

(** The loop terminates, and its groups cover the list. *)
Lemma field_groups_done fuel fields start : length fields ≤ start → field_groups_loop (S fuel) fields start = Ret [].
Proof. intros Hs. cbn [field_groups_loop]. by rewrite (proj2 (Nat.ltb_ge _ _)). Qed.
Lemma field_groups_loop_total fuel fields start :
  length fields ≤ fuel + start →
  ∃ gs, field_groups_loop (S fuel) fields start = Ret gs ∧ concat gs.*2 = drop start fields ∧
    Forall (λ g, ∃ f l, g.2 = f :: l ∧ parent f = g.1) gs.
Proof.
  revert start. induction fuel as [|fuel IH]; intros start Hf.
  { rewrite field_groups_done by done. exists []. by rewrite drop_ge. }
  destruct (decide (length fields ≤ start)) as [Hs|Hs].
  { rewrite field_groups_done by done. exists []. by rewrite drop_ge. }
  destruct (drop start fields) as [|f l] eqn:E.
  { pose proof (length_drop fields start) as HL. rewrite E in HL. simpl in HL. lia. }
  rewrite (field_groups_step _ _ _ f l) by (done || lia).
  set (n := partition_point (same (parent f)) (f :: l)).
  assert (0 < n ≤ length (f :: l)) as Hn by (apply partition_point_pos; by apply bool_decide_true).
  destruct (IH (start + n)) as (gs & -> & Hc & HF); [lia|]. cbn [mbind res_bind]. eexists. split; [done|]. split.
  - rewrite fmap_cons; cbn [concat snd]; rewrite Hc, <-drop_drop, E. apply take_drop.
  - constructor; [|done]. destruct n as [|n]; [lia|]. simpl. eauto.
Qed.

(** Where the fields of a definition are consecutive, a group is a run. *)
Lemma field_groups_loop_runs fuel fields start :
  consecutive parent (drop start fields) → length fields ≤ fuel + start →
  field_groups_loop (S fuel) fields start = Ret (chunk_by parent (drop start fields)).
Proof.
  revert start. induction fuel as [|fuel IH]; intros start Hc Hf.
  { rewrite field_groups_done by done. by rewrite drop_ge. }
  destruct (decide (length fields ≤ start)) as [Hs|Hs].
  { rewrite field_groups_done by done. by rewrite drop_ge. }
  destruct (drop start fields) as [|f l] eqn:E.
  { pose proof (length_drop fields start) as HL. rewrite E in HL. simpl in HL. lia. }
  rewrite (field_groups_step _ _ _ f l) by (done || lia). apply consecutive_cons in Hc as [Hp Hc].
  assert (partitioned (same (parent f)) (f :: l)) as Hp'.
  { unfold partitioned. cbn [drop_while]. by rewrite bool_decide_true. }
  rewrite (partition_point_spec _ _ Hp'). cbn [take_while]. rewrite bool_decide_true by done. cbn [length].
  set (n := length (take_while (same (parent f)) l)).
  assert (drop (start + S n) fields = drop_while (same (parent f)) l) as Hd.
  { rewrite <-drop_drop, E. cbn [drop]. apply drop_while_length. }
  rewrite IH; [|by rewrite Hd|lia]. rewrite Hd. cbn [mbind res_bind]. rewrite chunk_by_split. do 3 f_equal. cbn [take]. f_equal.
  rewrite <-(take_drop_while (same (parent f)) l) at 1. apply take_app_length.
Qed.

(** [for_each_field_group] always terminates and hands each field to [f] once and
    in order. *)
Lemma for_each_field_group_total fields :
  ∃ gs, for_each_field_group fields = Ret gs ∧ concat gs.*2 = fields ∧
    Forall (λ g, ∃ f l, g.2 = f :: l ∧ parent f = g.1) gs.
Proof. apply field_groups_loop_total. lia. Qed.
Lemma for_each_field_group_runs fields :
  consecutive parent fields → for_each_field_group fields = Ret (chunk_by parent fields).
Proof. intros Hc. apply field_groups_loop_runs; [done|lia]. Qed.

(** ** The fields of a definition are inserted together

    A judgement for what composition does to its tables, whatever the context it
    starts in: [writes d m Q] means that [m] adds no object and no interface,
    that every field, enum value and authorized directive it adds belongs to
    [d], and that its result satisfies [Q]. It follows that the fields of a
    definition are consecutive, which the emission of the graph relies on, and
    that enum values and authorized directives are sorted by their definition,
    which the binary searches of the federated graph rely on. *)
Section writes.
Context `{IndexSet}.
Implicit Types (c : Ctx) (d : FederatedDefinition).

(** The definitions that the entries of the tables belong to. *)
Definition authorized_objects c : list FederatedDefinition :=
  (λ e, FObject e.1) <$> object_authorized_directives (ir_tables c).
Definition authorized_interfaces c : list FederatedDefinition :=
  (λ e, FInterface e.1) <$> interface_authorized_directives (ir_tables c).
Definition valued_enums c : list FederatedDefinition := (λ v, FEnum (ev_enum_id v)) <$> ir_enum_values c.
(** A table grows with entries of [d]. *)
Definition grows_for {A} (f : A → FederatedDefinition) d (l l' : list A) : Prop :=
  ∃ k, l' = l ++ k ∧ Forall (λ x, f x = d) k.
Global Instance grows_for_preorder {A} (f : A → FederatedDefinition) d : PreOrder (grows_for f d).
Proof.
  split; [intros l; exists []; by rewrite app_nil_r|]. intros l1 l2 l3 (k & -> & Hk) (k' & -> & Hk').
  exists (k ++ k'). rewrite app_assoc. split; [done|by apply Forall_app].
Qed.
Lemma grows_for_snoc {A} (f : A → FederatedDefinition) d l x : f x = d → grows_for f d l (l ++ [x]).
Proof. intros Hx. exists [x]. split; [done|by constructor]. Qed.
Record added d c c' : Prop := {
  add_objects : objects (ir_tables c') = objects (ir_tables c);
  add_interfaces : interfaces (ir_tables c') = interfaces (ir_tables c);
  add_types : length (ir_type_definitions c) ≤ length (ir_type_definitions c');
  add_fields : grows_for fi_parent_definition d (ir_fields (ir_tables c)) (ir_fields (ir_tables c'));
  add_no_fields : ∀ i, d = FEnum i → ir_fields (ir_tables c') = ir_fields (ir_tables c);
  add_authorized_objects : grows_for id d (authorized_objects c) (authorized_objects c');
  add_authorized_interfaces : grows_for id d (authorized_interfaces c) (authorized_interfaces c');
  add_enum_values : grows_for id d (valued_enums c) (valued_enums c');
}.
Global Instance added_preorder d : PreOrder (added d).
Proof.
  split; [by intros c; split|]. intros c1 c2 c3 [? ? ? ? N1 ? ? ?] [? ? ? ? N2 ? ? ?]. split; try (by etransitivity).
  intros i Hi. by rewrite (N2 i Hi), (N1 i Hi).
Qed.

Definition writes {A} d (m : M A) (Q : A → Prop) : Prop :=
  ∀ c a c', m c = Ret (a, c') → added d c c' ∧ Q a.
Abbreviation writes_any d m := (writes d m (λ _, True)).

(** ** Control *)
Lemma writes_ret {A} d (a : A) (Q : A → Prop) : Q a → writes d (mret (M := M) a) Q.
Proof. intros HQ c a' c' [= <- <-]. by split. Qed.
Lemma writes_bind {A B} d (m : M A) (f : A → M B) Q Q' :
  writes d m Q → (∀ a, Q a → writes d (f a) Q') → writes d (a ← m; f a) Q'.
Proof.
  intros Hm Hf c b c'. unfold mbind, M_bind. destruct (m c) as [[a c1]|] eqn:E; [|done]. simpl. intros E'.
  destruct (Hm _ _ _ E) as [H1 HQ]. destruct (Hf a HQ _ _ _ E') as [H2 HQ']. split; [by etransitivity|done].
Qed.
Lemma writes_any_bind {A B} d (m : M A) (f : A → M B) Q :
  writes_any d m → (∀ a, writes d (f a) Q) → writes d (a ← m; f a) Q.
Proof. intros Hm Hf. eapply writes_bind; [exact Hm|auto]. Qed.
Lemma writes_lift {A} d (r : res A) : writes_any d (lift r).
Proof. intros c a c'. unfold lift. destruct r; [|done]. intros [= <- <-]. by split. Qed.
Lemma writes_foldM {A B} d (f : B → A → M B) (Q : B → Prop) b l :
  Q b → (∀ b x, Q b → writes d (f b x) Q) → writes d (foldM f b l) Q.
Proof.
  intros Hb Hf. induction l as [|x l IH] in b, Hb |- *; cbn [foldM]; [by apply writes_ret|].
  eapply writes_bind; [by apply Hf|]. intros b' Hb'. by apply IH.
Qed.
Lemma writes_each {A} d (f : A → M unit) l : (∀ x, writes_any d (f x)) → writes_any d (each l f).
Proof. intros Hf. apply writes_foldM; [done|]. intros _ x _. apply Hf. Qed.
Lemma writes_mapM {A B} d (f : A → M B) l : (∀ x, writes_any d (f x)) → writes_any d (mapM f l).
Proof.
  intros Hf. induction l as [|x l IH]; [by apply writes_ret|]. cbn [mapM].
  apply writes_any_bind; [apply Hf|]. intros y. apply writes_any_bind; [exact IH|]. intros ys. by apply writes_ret.
Qed.

(** ** The operations of the context *)
Lemma added_same d c c' :
  ir_tables c' = ir_tables c → ir_enum_values c' = ir_enum_values c →
  length (ir_type_definitions c) ≤ length (ir_type_definitions c') → added d c c'.
Proof.
  intros E E' Ht. split; unfold authorized_objects, authorized_interfaces, valued_enums; rewrite ?E, ?E'; done.
Qed.
Lemma writes_same {A} d (m : M A) :
  (∀ c a c', m c = Ret (a, c') → ir_tables c' = ir_tables c ∧ ir_enum_values c' = ir_enum_values c ∧
     length (ir_type_definitions c) ≤ length (ir_type_definitions c')) → writes_any d m.
Proof. intros Hm c a c' E. split; [|done]. destruct (Hm _ _ _ E) as (? & ? & ?). by apply added_same. Qed.

Lemma writes_str d s : writes_any d (insert_static_str s).
Proof. apply writes_same. intros c a c'. unfold insert_static_str. destruct (intern _ _). by intros [= <- <-]. Qed.
Lemma writes_directive d x : writes_any d (insert_directive x).
Proof. apply writes_same. by intros c a c' [= <- <-]. Qed.
Lemma writes_fatal d s : writes_any d (push_fatal s).
Proof. apply writes_same. by intros c a c' [= <- <-]. Qed.
Lemma writes_type d r : writes_any d (push_type_definition r).
Proof. apply writes_same. intros c a c' [= <- <-]. simpl. rewrite length_app. split_and!; [done|done|lia]. Qed.
Lemma writes_name d n x : writes_any d (name_definition n x).
Proof. apply writes_same. by intros c a c' [= <- <-]. Qed.
Lemma writes_enum_definition d n x r : writes_any d (push_enum_definition n x r).
Proof. apply writes_same. intros c a c' [= <- <-]. simpl. rewrite length_app. split_and!; [done|done|lia]. Qed.
Lemma writes_enum_value d r : FEnum (ev_enum_id r) = d → writes_any d (push_enum_value_record r).
Proof.
  intros Hr c a c' [= <- <-]. split; [|done]. split; try done. unfold valued_enums. simpl. rewrite fmap_app. by apply grows_for_snoc.
Qed.
(** The other tables. *)
Lemma writes_on_tables {A} d (get : Tables → A) f :
  (∀ t, objects (f t) = objects t ∧ interfaces (f t) = interfaces t ∧ ir_fields (f t) = ir_fields t ∧
     object_authorized_directives (f t) = object_authorized_directives t ∧
     interface_authorized_directives (f t) = interface_authorized_directives t) →
  writes_any d (on_tables get f).
Proof.
  intros Hf c a c' [= <- <-]. split; [|done]. destruct (Hf (ir_tables c)) as (E1 & E2 & E3 & E4 & E5).
  split; unfold authorized_objects, authorized_interfaces; simpl; rewrite ?E1, ?E2, ?E3, ?E4, ?E5; done.
Qed.
Lemma writes_insert_field d f : fi_parent_definition f = d → (∀ i, d ≠ FEnum i) → writes_any d (insert_field f).
Proof. intros Hf Hd c a c' [= <- <-]. split; [|done]. split; try done; [by apply grows_for_snoc|]. intros i Hi. by destruct (Hd i). Qed.
Lemma writes_object_authorized id site : writes_any (FObject id) (insert_object_authorized id site).
Proof.
  intros c a c' [= <- <-]. split; [|done]. split; try done. unfold authorized_objects. simpl. rewrite fmap_app. by apply grows_for_snoc.
Qed.
Lemma writes_interface_authorized id site : writes_any (FInterface id) (insert_interface_authorized id site).
Proof.
  intros c a c' [= <- <-]. split; [|done]. split; try done. unfold authorized_interfaces. simpl. rewrite fmap_app. by apply grows_for_snoc.
Qed.
End writes.
Abbreviation writes_any d m := (writes d m (λ _, True)).

Create HintDb writes.
#[export] Hint Resolve writes_str writes_directive writes_fatal writes_type writes_name writes_enum_definition writes_lift writes_object_authorized writes_interface_authorized : writes.
#[export] Hint Extern 2 (writes _ (on_tables _ _) _) => apply writes_on_tables; by intros [] : writes.

(** Follows the structure of a function; what the hints know is not unfolded. *)
Ltac writes_step :=
  lazymatch goal with
  | |- writes _ (mret _) _ => apply writes_ret; exact Logic.I
  | |- writes _ (mbind _ _) _ => apply writes_any_bind; [|intros ?]
  | |- writes _ (foldM _ _ _) _ => apply writes_foldM; [exact Logic.I|intros ? ? _]
  | |- writes _ (each _ _) _ => apply writes_each; intros ?
  | |- writes _ (mapM _ _) _ => apply writes_mapM; intros ?
  | |- writes _ (match ?x with _ => _ end) _ => destruct x
  | |- writes _ (let '_ := ?x in _) _ => destruct x
  end.
Ltac writes := repeat first [progress (cbn beta iota zeta)|solve [auto 2 with writes]|writes_step].

Section functions.
Context `{IndexSet} (sg : Subgraphs) (d : FederatedDefinition).
Implicit Types first : Def.

Lemma writes_optional_str o : writes_any d (insert_optional_str o).
Proof. unfold insert_optional_str. writes. Qed.
Lemma writes_string id : writes_any d (insert_string sg id).
Proof. unfold insert_string. writes. Qed.
#[local] Hint Resolve writes_optional_str writes_string : writes.
Lemma writes_string_option o : writes_any d (insert_string_option sg o).
Proof. unfold insert_string_option. writes. Qed.
Lemma writes_push_directive ids x : writes_any d (push_directive ids x).
Proof. unfold push_directive. writes. Qed.
#[local] Hint Resolve writes_string_option writes_push_directive : writes.
Lemma writes_collect sites : writes_any d (collect_composed_directives sg sites).
Proof.
  unfold collect_composed_directives, collect_ids, push_deprecated, push_if, push_lists, push_tag, insert_other. writes.
Qed.
Lemma writes_compose_types fn fs : writes_any d (compose_types sg fn fs).
Proof. unfold compose_types. writes. Qed.
Lemma writes_argument_types p f g : writes_any d (compose_argument_types_of sg p f g).
Proof. unfold compose_argument_types_of. writes. Qed.
Lemma writes_value v : writes_any d (insert_input_value_definition v).
Proof. unfold insert_input_value_definition. writes. Qed.
#[local] Hint Resolve writes_collect writes_compose_types writes_argument_types writes_value : writes.

(** *** The definitions that have no fields *)
Lemma writes_scalar first ds : writes_any d (merge_scalar_definitions sg first ds).
Proof. unfold merge_scalar_definitions, insert_scalar. writes. Qed.
Lemma writes_union first ds : writes_any d (merge_union_definitions sg first ds).
Proof. unfold merge_union_definitions, insert_union, insert_union_member, update_tables. writes. Qed.
Lemma writes_input_object first ds : writes_any d (merge_input_object_definitions sg first ds).
Proof. unfold merge_input_object_definitions, insert_input_object, merge_input_field. writes. Qed.

(** *** The parts of objects and interfaces *)
Lemma writes_overrides fs : writes_any d (collect_overrides sg fs).
Proof. unfold collect_overrides, collect_override. writes. Qed.
Lemma writes_arguments (first : Field) fs : writes_any d (merge_field_arguments sg first fs).
Proof. unfold merge_field_arguments, merge_argument, compose_field_argument_defaults, compose_default. writes. Qed.
#[local] Hint Resolve writes_overrides writes_arguments : writes.
Lemma writes_authorized_sites f ds : (∀ s, writes_any d (f s)) → writes_any d (insert_authorized_sites sg f ds).
Proof. intros Hf. unfold insert_authorized_sites. by apply writes_each. Qed.
Lemma writes_check_implementers n l : writes_any d (check_implementers sg n l).
Proof. unfold check_implementers, check_implementer_field. writes. Qed.
Lemma writes_shareable ds : writes_any d (validate_shareable_object_fields_match sg ds).
Proof. unfold validate_shareable_object_fields_match. writes. Qed.
Lemma writes_check_entity n ds : writes_any d (check_entity_interfaces sg n ds).
Proof. unfold check_entity_interfaces, check_entity_interface. writes. Qed.
Lemma writes_translate f : writes_any d (translate_arguments sg f).
Proof. unfold translate_arguments, translate_argument. writes. Qed.
Lemma writes_interface_key i k key b : writes_any d (insert_interface_resolvable_key i k key b).
Proof. unfold insert_interface_resolvable_key, update_tables. writes. Qed.
Lemma writes_contribute first key ids o : writes_any d (contribute_fields sg first key ids o).
Proof. unfold contribute_fields, insert_object_field_from_entity_interface, update_tables. writes. Qed.
End functions.
#[export] Hint Resolve writes_optional_str writes_string writes_string_option writes_push_directive writes_collect writes_compose_types writes_argument_types writes_value writes_scalar writes_union writes_input_object writes_overrides writes_arguments writes_check_implementers writes_shareable writes_check_entity writes_translate writes_interface_key writes_contribute : writes.

(** ** The fields of objects and interfaces *)
Section parents.
Context `{IndexSet} (sg : Subgraphs).
Implicit Types (c : Ctx) (first : Def).

Lemma writes_enum_value_of id v o r : writes_any (FEnum id) (insert_enum_value v o r id).
Proof. unfold insert_enum_value. writes. by apply writes_enum_value. Qed.
#[local] Hint Resolve writes_enum_value_of : writes.
Lemma writes_intersection (first : DefinitionId) ds id : writes_any (FEnum id) (merge_intersection sg first ds id).
Proof. unfold merge_intersection, ComposeEnums.insert_value. writes. Qed.
Lemma writes_merge_union ds id : writes_any (FEnum id) (merge_union sg ds id).
Proof. unfold merge_union, insert_group. writes. Qed.
Lemma writes_exactly_matching (first : DefinitionId) ds id : writes_any (FEnum id) (merge_exactly_matching sg first ds id).
Proof. unfold merge_exactly_matching, ComposeEnums.insert_value. writes. Qed.
Lemma writes_interface_field first id g : writes_any (FInterface id) (merge_interface_field sg first id g).
Proof.
  unfold merge_interface_field. writes. by apply writes_insert_field.
Qed.
Lemma writes_object_fields id b (first : Field) fs : writes_any (FObject id) (compose_object_fields sg id b first fs).
Proof.
  unfold compose_object_fields. writes. by apply writes_insert_field.
Qed.
Lemma writes_fields_of id b ds : writes_any (FObject id) (compose_fields_of sg id b ds).
Proof. unfold compose_fields_of. apply writes_each. intros [|f g]; [by apply writes_ret|apply writes_object_fields]. Qed.

(** The fields an entity interface collects before it inserts them. *)
Definition owned d (acc : gmap StringId FieldIr) : Prop := map_Forall (λ _ f, fi_parent_definition f = d) acc.
Lemma writes_entity_fields d mk acc fs :
  (∀ f, writes d (mk f) (λ ir, fi_parent_definition ir = d)) → owned d acc →
  writes d (add_entity_fields sg mk acc fs) (owned d).
Proof.
  intros Hmk Hacc. apply writes_foldM; [done|]. clear acc Hacc. intros acc f Hacc.
  destruct (acc !! f.1.2); [by apply writes_ret|]. eapply writes_bind; [apply Hmk|]. intros ir Hir.
  apply writes_ret. by apply map_Forall_insert_2.
Qed.
Lemma writes_own_field id def f :
  writes (FInterface id) (interface_field sg id def f) (λ ir, fi_parent_definition ir = FInterface id).
Proof. unfold interface_field. repeat (apply writes_any_bind; [auto with writes|intros ?]). by apply writes_ret. Qed.
Lemma writes_interface_object_field id def f :
  writes (FInterface id) (interface_object_field sg id def f) (λ ir, fi_parent_definition ir = FInterface id).
Proof. unfold interface_object_field. repeat (apply writes_any_bind; [auto with writes|intros ?]). by apply writes_ret. Qed.
Lemma writes_interface_object first id key def acc x :
  owned (FInterface id) acc →
  writes (FInterface id) (merge_interface_object sg first id key def acc x) (owned (FInterface id)).
Proof.
  intros Hacc. unfold merge_interface_object.
  repeat (apply writes_any_bind; [writes|intros ?]).
  apply writes_entity_fields; [|done]. intros f. apply writes_interface_object_field.
Qed.
Lemma writes_insert_entity_fields d acc :
  owned d acc → (∀ i, d ≠ FEnum i) → writes_any d (insert_entity_fields acc).
Proof.
  intros Hacc Hd. unfold insert_entity_fields.
  assert (Forall (λ e : StringId * FieldIr, fi_parent_definition e.2 = d) (btree_map_iter acc)) as HF.
  { apply Forall_forall. intros [k f]. rewrite elem_of_btree_map_iter. apply (map_Forall_lookup_1 _ _ _ _ Hacc). }
  induction HF as [|e l He _ IH]; [by apply writes_ret|]. cbn [mapM].
  apply writes_any_bind; [apply writes_any_bind; [by apply writes_insert_field|intros ?; by apply writes_ret]|].
  intros ?. apply writes_any_bind; [exact IH|]. intros ?. by apply writes_ret.
Qed.

(** ** The invariant *)
Definition parent_exists c d : Prop :=
  match d with
  | FObject id => id < length (objects (ir_tables c))
  | FInterface id => id < length (interfaces (ir_tables c))
  | _ => False
  end.
Definition fields_grouped c : Prop :=
  Forall (λ f, parent_exists c (fi_parent_definition f)) (ir_fields (ir_tables c)) ∧
  consecutive fi_parent_definition (ir_fields (ir_tables c)).
(** The owners of the entries of a table, in order. *)
Definition owner_exists c d : Prop :=
  match d with FEnum id => id < length (ir_type_definitions c) | _ => parent_exists c d end.
Definition id_le d d' : Prop :=
  match d, d' with
  | FObject i, FObject j | FInterface i, FInterface j | FEnum i, FEnum j => i ≤ j
  | _, _ => True
  end.
Definition owners_sorted c (l : list FederatedDefinition) : Prop := Forall (owner_exists c) l ∧ StronglySorted id_le l.
Record ordered c : Prop := {
  ord_fields : fields_grouped c;
  ord_objects : owners_sorted c (authorized_objects c);
  ord_interfaces : owners_sorted c (authorized_interfaces c);
  ord_enums : owners_sorted c (valued_enums c);
}.
(** No field has the parent [d] yet, and the entries of the tables come before those of [d]. *)
Record fresh c d : Prop := {
  fr_fields : Forall (λ f, fi_parent_definition f ≠ d) (ir_fields (ir_tables c));
  fr_objects : Forall (λ e, id_le e d) (authorized_objects c);
  fr_interfaces : Forall (λ e, id_le e d) (authorized_interfaces c);
  fr_enums : Forall (λ e, id_le e d) (valued_enums c);
}.

Lemma owners_sorted_grows d c c' l l' :
  owners_sorted c l → grows_for id d l l' → Forall (λ e, id_le e d) l → owner_exists c' d →
  (∀ x, owner_exists c x → owner_exists c' x) → owners_sorted c' l'.
Proof.
  intros [HE HS] (k & -> & Hk) Hl Hd Hmono. split.
  - apply Forall_app. split; [exact (Forall_impl _ _ _ HE Hmono)|]. eapply Forall_impl; [exact Hk|].
    intros x Hx. simpl in Hx. by subst.
  - apply StronglySorted_app. split_and!; [|done|].
    + intros x y Hx Hy. rewrite Forall_forall in Hl. rewrite Forall_forall in Hk. specialize (Hk y Hy). simpl in Hk. subst y. by apply Hl.
    + clear -Hk. induction k as [|x k IH]; [constructor|]. apply Forall_cons in Hk as [Hx Hk]. constructor; [by apply IH|].
      eapply Forall_impl; [exact Hk|]. intros y Hy. simpl in Hx, Hy. rewrite Hx, Hy. by destruct d; simpl.
Qed.
Lemma owner_exists_added d c c' x : added d c c' → owner_exists c x → owner_exists c' x.
Proof. intros [EO EI ET _ _ _ _ _]. destruct x; simpl; rewrite ?EO, ?EI; try done. lia. Qed.
Lemma grouped_added d c c' :
  fields_grouped c → added d c c' → Forall (λ f, fi_parent_definition f ≠ d) (ir_fields (ir_tables c)) → owner_exists c d →
  fields_grouped c'.
Proof.
  intros [HF HC] [HO HI _ (l & HE & Hl) HN _ _ _] Hd Hp.
  assert (∀ d', parent_exists c' d' ↔ parent_exists c d') as E by (intros []; simpl; rewrite ?HO, ?HI; done).
  assert (Forall (λ f, parent_exists c' (fi_parent_definition f)) (ir_fields (ir_tables c))) as HF'.
  { apply (Forall_impl _ _ _ HF). intros f. apply E. }
  unfold fields_grouped. destruct d as [| | | |i|] eqn:Ed; try done; [| |by rewrite (HN i eq_refl)]; rewrite HE;
    (split; [|by apply (consecutive_app _ _ d); subst; [done|by apply Forall_forall|done]]);
    apply Forall_app; (split; [done|]); apply (Forall_impl _ _ _ Hl); intros f ->; by apply E.
Qed.
Lemma ordered_added d c c' : ordered c → added d c c' → fresh c d → owner_exists c d → ordered c'.
Proof.
  intros [HG SO SI SE] Ha [FF FO FI FE] Hp. pose proof Ha as [_ _ _ _ _ AO AI AE].
  assert (∀ x, owner_exists c x → owner_exists c' x) as Hm by (intros x; by apply (owner_exists_added d)).
  pose proof (owners_sorted_grows d c c') as Hs. split; [by eapply grouped_added| | |].
  - exact (Hs _ _ SO AO FO (Hm _ Hp) Hm).
  - exact (Hs _ _ SI AI FI (Hm _ Hp) Hm).
  - exact (Hs _ _ SE AE FE (Hm _ Hp) Hm).
Qed.

Definition keeps {A} (m : M A) : Prop := ∀ c a c', ordered c → m c = Ret (a, c') → ordered c'.
Lemma keeps_bind {A B} (m : M A) (f : A → M B) : keeps m → (∀ a, keeps (f a)) → keeps (a ← m; f a).
Proof.
  intros Hm Hf c b c' Hc. unfold mbind, M_bind. destruct (m c) as [[a c1]|] eqn:E; [|done]. simpl. intros E'.
  eapply Hf; [by eapply Hm|exact E'].
Qed.
Lemma keeps_each {A} (f : A → M unit) l : (∀ x, keeps (f x)) → keeps (each l f).
Proof.
  intros Hf. unfold each. induction l as [|x l IH]; cbn [foldM]; [by intros c a c' Hc [= <- <-]|].
  apply keeps_bind; [apply Hf|]. by intros [].
Qed.
(** Code that adds no entry for any definition. *)
Lemma grows_for_nothing {A} (f : A → FederatedDefinition) d d' l l' :
  d ≠ d' → grows_for f d l l' → grows_for f d' l l' → l' = l.
Proof.
  intros Hd (k & -> & Hk) (k' & E & Hk'). apply app_inv_head in E as <-. destruct k as [|x k]; [by rewrite app_nil_r|].
  apply Forall_cons in Hk as [Hk _], Hk' as [Hk' _]. congruence.
Qed.
Lemma owners_sorted_same c c' l l' :
  (∀ x, owner_exists c x → owner_exists c' x) → l' = l → owners_sorted c l → owners_sorted c' l'.
Proof. intros Hm -> [HE HS]. split; [|done]. exact (Forall_impl _ _ _ HE Hm). Qed.
Lemma keeps_writes {A} (m : M A) : (∀ d, writes_any d m) → keeps m.
Proof.
  intros Hm c a c' [[HF HC] SO SI SE] E. destruct (Hm (FScalar 0) _ _ _ E) as [Ha _]. destruct (Hm (FScalar 1) _ _ _ E) as [Hb _].
  assert (∀ x, owner_exists c x → owner_exists c' x) as Hx by (intros x; by apply (owner_exists_added (FScalar 0))).
  destruct Ha as [HO HI HT F1 _ O1 I1 E1], Hb as [_ _ _ F2 _ O2 I2 E2].
  assert (FScalar 0 ≠ FScalar 1) as Hne by done. split; [|eapply owners_sorted_same; [done|by eapply (grows_for_nothing id _ _ _ _ Hne)|done]..].
  unfold fields_grouped. rewrite (grows_for_nothing _ _ _ _ _ Hne F1 F2). split; [|done].
  eapply Forall_impl; [exact HF|]. intros f. unfold parent_exists. by rewrite HO, HI.
Qed.

(** A new definition, followed by code that adds its entries. *)
Lemma optional_str_tables o c a c' :
  insert_optional_str o c = Ret (a, c') →
  ir_tables c' = ir_tables c ∧ ir_enum_values c' = ir_enum_values c ∧ ir_type_definitions c' = ir_type_definitions c.
Proof.
  unfold insert_optional_str, insert_static_str, mbind, M_bind. destruct o; [|by intros [= _ <-]].
  destruct (intern _ _). by intros [= _ <-].
Qed.
(** The context after a definition was added: the new one owns nothing yet. *)
Lemma ordered_new c c' d :
  ordered c → ir_fields (ir_tables c') = ir_fields (ir_tables c) →
  authorized_objects c' = authorized_objects c → authorized_interfaces c' = authorized_interfaces c →
  valued_enums c' = valued_enums c → (∀ x, owner_exists c x → owner_exists c' x ∧ id_le x d ∧ x ≠ d) →
  ordered c' ∧ fresh c' d.
Proof.
  intros [[HF HC] SO SI SE] EF EO EI EE Hx.
  assert (∀ l, owners_sorted c l → Forall (λ e, id_le e d) l) as Hle.
  { intros l [Hl _]. eapply Forall_impl; [exact Hl|]. intros x Hex. by apply Hx. }
  assert (∀ f, parent_exists c (fi_parent_definition f) → parent_exists c' (fi_parent_definition f) ∧ fi_parent_definition f ≠ d) as Hp.
  { intros f Hf. destruct (Hx (fi_parent_definition f)) as (H1 & _ & H2); [by destruct (fi_parent_definition f)|].
    split; [|done]. by destruct (fi_parent_definition f). }
  pose proof (owners_sorted_same c c') as Hsame.
  assert (∀ x, owner_exists c x → owner_exists c' x) as Hm by (intros x Hex; apply (Hx x Hex)).
  split; split.
  - unfold fields_grouped. rewrite EF. split; [|done]. eapply Forall_impl; [exact HF|]. intros f Hf. by apply Hp.
  - exact (Hsame _ _ Hm EO SO).
  - exact (Hsame _ _ Hm EI SI).
  - exact (Hsame _ _ Hm EE SE).
  - rewrite EF. eapply Forall_impl; [exact HF|]. intros f Hf. by apply Hp.
  - rewrite EO. by apply Hle.
  - rewrite EI. by apply Hle.
  - rewrite EE. by apply Hle.
Qed.
Lemma keeps_object {A} name o ds (m : nat → M A) :
  (∀ id, writes_any (FObject id) (m id)) → keeps (id ← insert_object name o ds; m id).
Proof.
  intros Hm c a c' Hc. unfold insert_object. unfold mbind, M_bind.
  destruct (insert_optional_str o c) as [[o' c1]|] eqn:E; [|done]. apply optional_str_tables in E as (E & EV & ET).
  simpl. intros E'. apply Hm in E' as [Ha _].
  match type of Ha with added ?d ?c1 _ => destruct (ordered_new c c1 d Hc) as [Ho Hf] end;
    try (unfold authorized_objects, authorized_interfaces, valued_enums; simpl; by rewrite ?E, ?EV); [|eapply ordered_added; [exact Ho|exact Ha|exact Hf|]].
  - intros x. destruct x; simpl; rewrite ?E, ?ET, ?length_app; simpl; try done; intros; split_and!; try done; try lia. congruence || (intros [= ?]; lia).
  - simpl. rewrite E, length_app. simpl. lia.
Qed.
Lemma keeps_interface {A} name o ds (m : nat → M A) :
  (∀ id, writes_any (FInterface id) (m id)) → keeps (id ← insert_interface name o ds; m id).
Proof.
  intros Hm c a c' Hc. unfold insert_interface. unfold mbind, M_bind.
  destruct (insert_optional_str o c) as [[o' c1]|] eqn:E; [|done]. apply optional_str_tables in E as (E & EV & ET).
  simpl. intros E'. apply Hm in E' as [Ha _].
  match type of Ha with added ?d ?c1 _ => destruct (ordered_new c c1 d Hc) as [Ho Hf] end;
    try (unfold authorized_objects, authorized_interfaces, valued_enums; simpl; by rewrite ?E, ?EV); [|eapply ordered_added; [exact Ho|exact Ha|exact Hf|]].
  - intros x. destruct x; simpl; rewrite ?E, ?ET, ?length_app; simpl; try done; intros; split_and!; try done; try lia. congruence || (intros [= ?]; lia).
  - simpl. rewrite E, length_app. simpl. lia.
Qed.
Lemma keeps_enum {A} name o ds (m : nat → M A) :
  (∀ id, writes_any (FEnum id) (m id)) → keeps (id ← push_enum_definition name o ds; m id).
Proof.
  intros Hm c a c' Hc. unfold mbind, M_bind. simpl. intros E'. apply Hm in E' as [Ha _].
  match type of Ha with added ?d ?c1 _ => destruct (ordered_new c c1 d Hc) as [Ho Hf] end;
    try done; [|eapply ordered_added; [exact Ho|exact Ha|exact Hf|]].
  - intros x. destruct x; simpl; rewrite ?length_app; simpl; try done; intros; split_and!; try done; try lia. congruence || (intros [= ?]; lia).
  - simpl. rewrite length_app. simpl. lia.
Qed.

(** ** Composition keeps it *)
Lemma keeps_read {A B} (r : res A) (f : A → M B) : (∀ a, keeps (f a)) → keeps (a ← lift r; f a).
Proof. intros Hf. apply keeps_bind; [apply keeps_writes; auto with writes|exact Hf]. Qed.
Ltac keeps_step := apply keeps_bind; [apply keeps_writes; solve [intros; writes]|intros ?].

Lemma keeps_object_definitions first ds : keeps (merge_object_definitions sg first ds).
Proof.
  unfold merge_object_definitions. case_match; [apply keeps_writes; intros; writes|].
  repeat keeps_step. apply keeps_object. intros id.
  repeat (apply writes_any_bind; [|intros ?]).
  - unfold insert_key, update_tables. writes.
  - apply writes_authorized_sites. intros s. apply writes_object_authorized.
  - writes.
  - apply writes_fields_of.
Qed.
Lemma keeps_interface_definitions first ds : keeps (merge_interface_definitions sg first ds).
Proof.
  unfold merge_interface_definitions. repeat keeps_step. apply keeps_interface. intros id.
  apply writes_any_bind; [|intros ?].
  - apply writes_authorized_sites. intros s. apply writes_interface_authorized.
  - apply writes_any_bind; [|intros ?; writes]. apply writes_each. intros g. apply writes_interface_field.
Qed.
Lemma keeps_entity_interface first ds : keeps (merge_entity_interface_definitions sg first ds).
Proof.
  unfold merge_entity_interface_definitions. keeps_step. case_match; [apply keeps_writes; intros; writes|].
  repeat keeps_step. apply keeps_interface. intros id. apply writes_any_bind; [|intros ?].
  { apply writes_authorized_sites. intros s. apply writes_interface_authorized. }
  eapply writes_bind; [apply writes_entity_fields; [intros f; apply writes_own_field|done]|]. intros acc Hacc.
  case_match; [writes|]. do 2 (apply writes_any_bind; [writes|intros ?]).
  eapply writes_bind; [apply writes_foldM; [exact Hacc|]|].
  { intros b x Hb. by apply writes_interface_object. }
  intros acc' Hacc'. apply writes_any_bind; [by apply writes_insert_entity_fields|]. intros ?. writes.
Qed.
Lemma keeps_assoc {A B C} (m : M A) (f : A → M B) (g : B → M C) :
  keeps (a ← m; b ← f a; g b) → keeps (b ← (a ← m; f a); g b).
Proof. intros Hk c x c' Hc E. apply (Hk c x c' Hc). revert E. unfold mbind, M_bind. by destruct (m c) as [[a c1]|]. Qed.
Lemma keeps_insert_enum {A} (r : res string) o ds (m : nat → M A) :
  (∀ id, writes_any (FEnum id) (m id)) → keeps (id ← (name ← lift r; insert_enum name o ds); m id).
Proof.
  intros Hm. unfold insert_enum. apply keeps_assoc. keeps_step. apply keeps_assoc. keeps_step. apply keeps_assoc. keeps_step.
  by apply keeps_enum.
Qed.
Lemma keeps_enum_definitions (first : DefinitionId) ds : keeps (merge_enum_definitions sg first ds).
Proof.
  unfold merge_enum_definitions. repeat keeps_step. cbv zeta. repeat case_match.
  - apply keeps_insert_enum. intros id. apply writes_exactly_matching.
  - apply keeps_insert_enum. intros id. apply writes_intersection.
  - apply keeps_insert_enum. intros id. apply writes_merge_union.
  - apply keeps_writes. intros. writes.
Qed.
Lemma keeps_group g : keeps (compose_group sg g).
Proof.
  unfold compose_group. apply keeps_read. intros [|first ds]; [apply keeps_writes; intros; writes|].
  case_match; [apply keeps_entity_interface|].
  destruct (definition_kind first.2);
    first [apply keeps_object_definitions|apply keeps_interface_definitions|apply keeps_enum_definitions|apply keeps_writes; intros; auto with writes].
Qed.
Lemma keeps_merge_fields root ds : keeps (merge_fields sg root ds).
Proof.
  unfold merge_fields. case_decide; [apply keeps_writes; intros; writes|]. repeat keeps_step.
  apply keeps_object. intros id. apply writes_any_bind; [apply writes_fields_of|]. intros ?. by apply writes_ret.
Qed.
Lemma keeps_compose_subgraphs : keeps (compose_subgraphs sg).
Proof.
  unfold compose_subgraphs. apply keeps_read. intros gs. apply keeps_bind; [apply keeps_each; apply keeps_group|].
  intros _. unfold merge_root_fields. do 3 (apply keeps_read; intros ?).
  apply keeps_bind; [apply keeps_merge_fields|]. intros [q|]; [|apply keeps_writes; intros; writes].
  unfold set_query, set_mutation, set_subscription, update_tables. keeps_step.
  apply keeps_bind; [apply keeps_merge_fields|]. intros ?. keeps_step.
  apply keeps_bind; [apply keeps_merge_fields|]. intros ?. apply keeps_writes. intros. writes.
Qed.
End parents.

(** ** Validation *)
Section validation.
Context `{IndexSet} (ua un : string → bool) (sg : Subgraphs) (d : FederatedDefinition).

Lemma writes_foldU {A} (f : A → M unit) l : Forall (λ x, writes_any d (f x)) l → writes_any d (foldU f l).
Proof.
  induction 1 as [|x l Hx _ IH]; cbn [foldU]; [by apply writes_ret|]. by apply writes_any_bind; [|intros _].
Qed.
Lemma writes_validate_arguments on f args path name : writes_any d (validate_arguments sg on f args path name).
Proof. induction args as [|[n v] args IH]; cbn [validate_arguments]; writes. Qed.
#[local] Hint Resolve writes_validate_arguments : writes.
Lemma writes_validate_selection path name s on : writes_any d (validate_selection sg path name on s).
Proof.
  revert on. induction s as [field args sub IH|t sub IH] using Selection_nested_ind; intros on; cbn [validate_selection].
  - unfold validate_required_arguments. case_match; [|writes]. do 2 (apply writes_any_bind; [writes|intros ?]).
    case_match; [|writes]. apply writes_foldU. eapply Forall_impl; [exact IH|]. intros s Hs.
    apply writes_any_bind; [writes|intros ?]. apply Hs.
  - case_match; [|writes]. apply writes_foldU. eapply Forall_impl; [exact IH|]. intros s Hs.
    apply writes_any_bind; [writes|intros ?]. apply Hs.
Qed.
#[local] Hint Resolve writes_validate_selection : writes.
Lemma writes_validate : writes_any d (validate ua un sg).
Proof.
  unfold validate, validate_subgraph_names, validate_subgraph_name, validate_name, validate_query_nonempty, validate_fields,
    validate_selections, validate_override_labels, validate_input_selections. writes.
Qed.
End validation.

(** The tables that composition returns are ordered. *)
Lemma compose_ir_ordered `{IndexSet} ua un sg ds c : compose_ir ua un sg = Ret (ds, Some c) → ordered c.
Proof.
  unfold compose_ir. case_decide; [done|]. unfold Context_new.
  match goal with |- context [each _ _ ?c0] => set (c0' := c0) end.
  assert (ordered c0') as Hc0 by (split; (split; simpl; [constructor|constructor || apply NoDup_nil_2])).
  match goal with |- context [each ?l ?f c0'] => destruct (each l f c0') as [[u c1]|] eqn:E1 end; [|done].
  assert (ordered c1) as Hc1.
  { eapply (keeps_each _ BUILTIN_SCALARS); [|exact Hc0|exact E1]. intros s. apply keeps_writes. intros d.
    unfold insert_scalar. writes. }
  cbn [mbind res_bind]. destruct (validate ua un sg c1) as [[u2 c2]|] eqn:E2; [|done].
  assert (ordered c2) as Hc2.
  { eapply keeps_writes; [|exact Hc1|exact E2]. intros d. apply writes_validate. }
  cbn [mbind res_bind]. case_decide; [done|]. destruct (compose_subgraphs sg c2) as [[u3 c3]|] eqn:E3; [|done].
  cbn [mbind res_bind]. case_decide; [|done]. intros [= _ <-]. by eapply keeps_compose_subgraphs.
Qed.
Lemma compose_ir_grouped `{IndexSet} ua un sg ds c : compose_ir ua un sg = Ret (ds, Some c) → fields_grouped c.
Proof. intros Hc%compose_ir_ordered. apply Hc. Qed.

(** The keys of a table whose owners are sorted. *)
Lemma owners_sorted_ids `{IndexSet} c {A} (f : A → FederatedDefinition) (key : A → nat) l :
  (∀ x y, id_le (f x) (f y) → key x ≤ key y) → owners_sorted c (f <$> l) → StronglySorted (λ x y, key x ≤ key y) l.
Proof.
  intros Hf [_ Hs]. induction l as [|x l IH]; [constructor|]. cbn [fmap list_fmap] in Hs. apply StronglySorted_inv in Hs as [Hs Hx].
  constructor; [by apply IH|]. apply (Forall_fmap f) in Hx. eapply Forall_impl; [exact Hx|]. intros y. apply Hf.
Qed.
