(* ===== verification/GraphWf.v ===== *)
(** * Well-formed federated graphs

    Every id that a record of a federated graph holds refers to an entry of the
    graph, and every range of ids lies in its vector. The predicates are over
    the sizes of the vectors, so that they can be stated of a graph that is
    still being emitted, and they survive growth. *)
From S2P Require Import Prelude RustStd Wrapping CheckSchema IndexSet FieldTypes Subgraphs ComposeContext FederatedGraph.
Local Open Scope list_scope.
Local Open Scope nat_scope.

Record Sizes := MkSizes {
  z_strings : nat; z_subgraphs : nat; z_directives : nat; z_values : nat; z_types : nat; z_objects : nat;
  z_interfaces : nat; z_unions : nat; z_input_objects : nat; z_enum_values : nat; z_fields : nat; z_authorized : nat;
}.
Record sz_le (a b : Sizes) : Prop := {
  le_strings : z_strings a ≤ z_strings b; le_subgraphs : z_subgraphs a ≤ z_subgraphs b;
  le_directives : z_directives a ≤ z_directives b; le_values : z_values a ≤ z_values b; le_types : z_types a ≤ z_types b;
  le_objects : z_objects a ≤ z_objects b; le_interfaces : z_interfaces a ≤ z_interfaces b; le_unions : z_unions a ≤ z_unions b;
  le_input_objects : z_input_objects a ≤ z_input_objects b; le_enum_values : z_enum_values a ≤ z_enum_values b;
  le_fields : z_fields a ≤ z_fields b; le_authorized : z_authorized a ≤ z_authorized b;
}.
Global Instance sz_le_preorder : PreOrder sz_le.
Proof. split; [by intros a; split|]. intros a b c [] []. split; lia. Qed.

Section ok.
Implicit Types sz : Sizes.
Definition opt_lt (n : nat) (o : option nat) : Prop := ∀ i, o = Some i → i < n.
Definition range_in (n : nat) (r : nat * nat) : Prop := r.1 + r.2 ≤ n.
Definition def_in sz (d : FederatedDefinition) : Prop :=
  match d with
  | FScalar i | FEnum i => i < z_types sz
  | FObject i => i < z_objects sz
  | FInterface i => i < z_interfaces sz
  | FUnion i => i < z_unions sz
  | FInputObject i => i < z_input_objects sz
  end.
Inductive value_in sz : FValue → Prop :=
| vin_null : value_in sz FVNull
| vin_string s : s < z_strings sz → value_in sz (FVString s)
| vin_int n : value_in sz (FVInt n)
| vin_float n : value_in sz (FVFloat n)
| vin_boolean b : value_in sz (FVBoolean b)
| vin_unbound s : s < z_strings sz → value_in sz (FVUnboundEnumValue s)
| vin_enum i : i < z_enum_values sz → value_in sz (FVEnumValue i)
| vin_object l : Forall (λ kv, kv.1 < z_strings sz ∧ value_in sz kv.2) l → value_in sz (FVObject l)
| vin_list l : Forall (value_in sz) l → value_in sz (FVList l).
Inductive selection_in sz : FSelection → Prop :=
| sin_field f args sub :
    f < z_fields sz → Forall (λ av, av.1 < z_values sz ∧ value_in sz av.2) args → Forall (selection_in sz) sub →
    selection_in sz (FSField f args sub)
| sin_fragment on sub : def_in sz on → Forall (selection_in sz) sub → selection_in sz (FSInlineFragment on sub).
Inductive item_in sz : ValueSetItem → Prop :=
| iin i sub : i < z_values sz → Forall (item_in sz) sub → item_in sz (MkValueSetItem i sub).
Definition directive_in sz (d : FDirective) : Prop :=
  match d with
  | FDAuthenticated | FDInaccessible => True
  | FDDeprecated reason => opt_lt (z_strings sz) reason
  | FDPolicy l | FDRequiresScopes l => Forall (Forall (λ s, s < z_strings sz)) l
  | FDOther name args => name < z_strings sz ∧ Forall (λ av, av.1 < z_strings sz ∧ value_in sz av.2) args
  end.
Definition opt_in {A} (P : A → Prop) (o : option A) : Prop := ∀ x, o = Some x → P x.
Definition authorized_in sz (a : FAuthorized) : Prop :=
  opt_in (Forall (selection_in sz)) (fa_fields a) ∧ opt_in (Forall (selection_in sz)) (fa_node a) ∧
  opt_in (Forall (item_in sz)) (fa_arguments a) ∧ opt_in (value_in sz) (fa_metadata a).
Definition key_in sz (k : FKey) : Prop := fk_subgraph_id k < z_subgraphs sz ∧ Forall (selection_in sz) (fk_fields k).
Definition fields_in sz (r : Fields) : Prop := r.1 ≤ r.2 ≤ z_fields sz.
Definition join_in sz (e : SubgraphId * nat) : Prop := e.1 < z_subgraphs sz ∧ e.2 < z_interfaces sz.
Definition object_in sz (o : FObjectRecord) : Prop :=
  fo_type_definition_id o < z_types sz ∧ Forall (λ i, i < z_interfaces sz) (fo_implements_interfaces o) ∧
  Forall (join_in sz) (fo_join_implements o) ∧ Forall (key_in sz) (fo_keys o) ∧ fields_in sz (fo_fields o).
Definition interface_in sz (o : FInterfaceRecord) : Prop :=
  fif_type_definition_id o < z_types sz ∧ Forall (λ i, i < z_interfaces sz) (fif_implements_interfaces o) ∧
  Forall (join_in sz) (fif_join_implements o) ∧ Forall (key_in sz) (fif_keys o) ∧ fields_in sz (fif_fields o).
Definition field_selection_in sz (s : FieldSelection) : Prop :=
  fsel_subgraph_id s < z_subgraphs sz ∧ Forall (selection_in sz) (fsel_fields s).
Definition override_in sz (o : Override) : Prop :=
  override_graph o < z_subgraphs sz ∧
  match override_ir_from o with FromSubgraph s => s < z_subgraphs sz | Missing n => n < z_strings sz end.
Definition field_in sz (f : FField) : Prop :=
  ff_name f < z_strings sz ∧ def_in sz (ft_definition (ff_type f)) ∧ range_in (z_values sz) (ff_arguments f) ∧
  Forall (λ s, s < z_subgraphs sz) (ff_resolvable_in f) ∧ Forall (field_selection_in sz) (ff_provides f) ∧
  Forall (field_selection_in sz) (ff_requires f) ∧ Forall (override_in sz) (ff_overrides f) ∧
  range_in (z_directives sz) (ff_composed_directives f) ∧ opt_lt (z_strings sz) (ff_description f).
Definition type_in sz (td : TypeDefinitionRecord) : Prop :=
  td_name td < z_strings sz ∧ opt_lt (z_strings sz) (td_description td) ∧ range_in (z_directives sz) (td_directives td).
Definition enum_value_in sz (v : EnumValueRecord) : Prop :=
  ev_enum_id v < z_types sz ∧ ev_value v < z_strings sz ∧ range_in (z_directives sz) (ev_composed_directives v) ∧
  opt_lt (z_strings sz) (ev_description v).
Definition union_in sz (u : FUnionRecord) : Prop :=
  fu_name u < z_strings sz ∧ Forall (λ o, o < z_objects sz) (fu_members u) ∧
  (∀ s o, (s, o) ∈ fu_join_members u → s < z_subgraphs sz ∧ o < z_objects sz) ∧
  range_in (z_directives sz) (fu_composed_directives u) ∧ opt_lt (z_strings sz) (fu_description u).
Definition input_object_in sz (o : InputObjectRecord) : Prop :=
  io_name o < z_strings sz ∧ range_in (z_values sz) (io_fields o) ∧ range_in (z_directives sz) (io_composed_directives o) ∧
  opt_lt (z_strings sz) (io_description o).
Definition input_value_in sz (v : FInputValue) : Prop :=
  fiv_name v < z_strings sz ∧ def_in sz (ft_definition (fiv_type v)) ∧ range_in (z_directives sz) (fiv_directives v) ∧
  opt_lt (z_strings sz) (fiv_description v) ∧ opt_in (value_in sz) (fiv_default v).
Definition root_in sz (r : RootOperationTypes) : Prop :=
  rot_query r < z_objects sz ∧ opt_lt (z_objects sz) (rot_mutation r) ∧ opt_lt (z_objects sz) (rot_subscription r).

Record graph_in sz (g : FederatedGraph) : Prop := {
  gi_subgraphs : Forall (λ s, fs_name s < z_strings sz ∧ fs_url s < z_strings sz) (fg_subgraphs g);
  gi_roots : root_in sz (fg_root_operation_types g);
  gi_types : Forall (type_in sz) (fg_type_definitions g);
  gi_objects : Forall (object_in sz) (fg_objects g);
  gi_interfaces : Forall (interface_in sz) (fg_interfaces g);
  gi_fields : Forall (field_in sz) (fg_fields g);
  gi_unions : Forall (union_in sz) (fg_unions g);
  gi_input_objects : Forall (input_object_in sz) (fg_input_objects g);
  gi_enum_values : Forall (enum_value_in sz) (fg_enum_values g);
  gi_values : Forall (input_value_in sz) (fg_input_value_definitions g);
  gi_directives : Forall (directive_in sz) (fg_directives g);
  gi_authorized : Forall (authorized_in sz) (fg_authorized_directives g);
  gi_field_authorized : Forall (λ e, e.1 < z_fields sz ∧ e.2 < z_authorized sz) (fg_field_authorized_directives g);
  gi_object_authorized : Forall (λ e, e.1 < z_objects sz ∧ e.2 < z_authorized sz) (fg_object_authorized_directives g);
  gi_interface_authorized :
    Forall (λ e, e.1 < z_interfaces sz ∧ e.2 < z_authorized sz) (fg_interface_authorized_directives g);
}.

(** The sizes of a graph, given those of the vectors that emission fills in one
    step or at its end. *)
Definition sizes_with (strings subgraphs directives values : nat) (g : FederatedGraph) : Sizes :=
  MkSizes strings subgraphs directives values (length (fg_type_definitions g)) (length (fg_objects g))
    (length (fg_interfaces g)) (length (fg_unions g)) (length (fg_input_objects g)) (length (fg_enum_values g))
    (length (fg_fields g)) (length (fg_authorized_directives g)).
Definition graph_wf (g : FederatedGraph) : Prop :=
  graph_in (sizes_with (length (fg_strings g)) (length (fg_subgraphs g)) (length (fg_directives g))
    (length (fg_input_value_definitions g)) g) g.
End ok.

(** ** Growth *)
Section mono.
Context {a b : Sizes} (L : sz_le a b).

Lemma opt_lt_mono n m o : n ≤ m → opt_lt n o → opt_lt m o.
Proof. intros Hnm Ho i Hi. specialize (Ho i Hi). lia. Qed.
Lemma opt_in_mono {A} (P Q : A → Prop) o : (∀ x, P x → Q x) → opt_in P o → opt_in Q o.
Proof. intros HPQ Ho x Hx. by apply HPQ, Ho. Qed.
Lemma range_in_mono n m r : n ≤ m → range_in n r → range_in m r.
Proof. unfold range_in. lia. Qed.
Lemma def_in_mono d : def_in a d → def_in b d.
Proof. destruct L, d; simpl; lia. Qed.
Lemma value_in_mono : ∀ v, value_in a v → value_in b v.
Proof.
  fix IH 2. intros v []; constructor; try (destruct L; lia).
  - induction H; constructor; [|done]. destruct H as [? Hv]. split; [destruct L; lia|by apply IH].
  - induction H; constructor; [by apply IH|done].
Qed.
Lemma args_in_mono n m (l : list (nat * FValue)) :
  n ≤ m → Forall (λ av, av.1 < n ∧ value_in a av.2) l → Forall (λ av, av.1 < m ∧ value_in b av.2) l.
Proof. intros Hnm Hl. eapply Forall_impl; [exact Hl|]. intros av [? ?]. split; [lia|by apply value_in_mono]. Qed.
Lemma selection_in_mono : ∀ s, selection_in a s → selection_in b s.
Proof.
  fix IH 2. intros s [f args sub Hf Hargs Hsub|on sub Hon Hsub].
  - constructor; [destruct L; lia|by eapply args_in_mono; [apply L|]|]. induction Hsub; constructor; [by apply IH|done].
  - constructor; [by apply def_in_mono|]. induction Hsub; constructor; [by apply IH|done].
Qed.
Lemma selections_in_mono l : Forall (selection_in a) l → Forall (selection_in b) l.
Proof. intros Hl. eapply Forall_impl; [exact Hl|]. apply selection_in_mono. Qed.
Lemma item_in_mono : ∀ s, item_in a s → item_in b s.
Proof.
  fix IH 2. intros s [i sub Hi Hsub]. constructor; [destruct L; lia|]. induction Hsub; constructor; [by apply IH|done].
Qed.
Lemma items_in_mono l : Forall (item_in a) l → Forall (item_in b) l.
Proof. intros Hl. eapply Forall_impl; [exact Hl|]. apply item_in_mono. Qed.
Lemma lt_all_mono n m (l : list nat) : n ≤ m → Forall (λ i, i < n) l → Forall (λ i, i < m) l.
Proof. intros Hnm Hl. eapply Forall_impl; [exact Hl|]. simpl. lia. Qed.

Ltac grow :=
  destruct L; eauto using opt_lt_mono, range_in_mono, def_in_mono, value_in_mono, args_in_mono, selections_in_mono, lt_all_mono, Nat.lt_le_trans.
Lemma directive_in_mono d : directive_in a d → directive_in b d.
Proof.
  destruct d as [|r| |l|l|n args]; simpl; try done; [grow| | |intros [? ?]; split; grow].
  - intros Hl. eapply Forall_impl; [exact Hl|]. intros x. apply lt_all_mono, L.
  - intros Hl. eapply Forall_impl; [exact Hl|]. intros x. apply lt_all_mono, L.
Qed.
Lemma authorized_in_mono x : authorized_in a x → authorized_in b x.
Proof.
  intros (? & ? & ? & ?). split_and!; (eapply opt_in_mono; [|eassumption]);
    [apply selections_in_mono|apply selections_in_mono|apply items_in_mono|apply value_in_mono].
Qed.
Lemma key_in_mono k : key_in a k → key_in b k.
Proof. intros [? ?]. split; grow. Qed.
Lemma join_in_mono e : join_in a e → join_in b e.
Proof. intros [? ?]. split; grow. Qed.
Lemma fields_in_mono r : fields_in a r → fields_in b r.
Proof. unfold fields_in. destruct L. lia. Qed.
Lemma object_in_mono o : object_in a o → object_in b o.
Proof.
  intros (? & ? & Hj & Hk & ?). split_and!; [grow|grow| | |by apply fields_in_mono].
  - eapply Forall_impl; [exact Hj|]. apply join_in_mono.
  - eapply Forall_impl; [exact Hk|]. apply key_in_mono.
Qed.
Lemma interface_in_mono o : interface_in a o → interface_in b o.
Proof.
  intros (? & ? & Hj & Hk & ?). split_and!; [grow|grow| | |by apply fields_in_mono].
  - eapply Forall_impl; [exact Hj|]. apply join_in_mono.
  - eapply Forall_impl; [exact Hk|]. apply key_in_mono.
Qed.
Lemma field_selection_in_mono x : field_selection_in a x → field_selection_in b x.
Proof. intros [? ?]. split; grow. Qed.
Lemma override_in_mono o : override_in a o → override_in b o.
Proof. intros [? Ho]. split; [grow|]. destruct (override_ir_from o); grow. Qed.
Lemma field_in_mono f : field_in a f → field_in b f.
Proof.
  intros (? & ? & ? & ? & Hp & Hr & Ho & ? & ?). split_and!; try (by grow).
  - eapply Forall_impl; [exact Hp|]. apply field_selection_in_mono.
  - eapply Forall_impl; [exact Hr|]. apply field_selection_in_mono.
  - eapply Forall_impl; [exact Ho|]. apply override_in_mono.
Qed.
Lemma type_in_mono x : type_in a x → type_in b x.
Proof. intros (? & ? & ?). split_and!; grow. Qed.
Lemma enum_value_in_mono x : enum_value_in a x → enum_value_in b x.
Proof. intros (? & ? & ? & ?). split_and!; grow. Qed.
Lemma union_in_mono x : union_in a x → union_in b x.
Proof. intros (? & ? & Hj & ? & ?). split_and!; try grow. intros s o [? ?]%Hj. split; lia. Qed.
Lemma input_object_in_mono x : input_object_in a x → input_object_in b x.
Proof. intros (? & ? & ? & ?). split_and!; grow. Qed.
Lemma input_value_in_mono x : input_value_in a x → input_value_in b x.
Proof. intros (? & ? & ? & ? & Hd). split_and!; try (by grow). eapply opt_in_mono; [|exact Hd]. apply value_in_mono. Qed.
Lemma root_in_mono x : root_in a x → root_in b x.
Proof. intros (? & ? & ?). split_and!; grow. Qed.

Lemma graph_in_mono g : graph_in a g → graph_in b g.
Proof.
  intros G. destruct G. split; try (eapply Forall_impl; [eassumption|]); cbn beta.
  - intros s [? ?]. split; grow.
  - by apply root_in_mono.
  - apply type_in_mono.
  - apply object_in_mono.
  - apply interface_in_mono.
  - apply field_in_mono.
  - apply union_in_mono.
  - apply input_object_in_mono.
  - apply enum_value_in_mono.
  - apply input_value_in_mono.
  - apply directive_in_mono.
  - apply authorized_in_mono.
  - intros s [? ?]. split; grow.
  - intros s [? ?]. split; grow.
  - intros s [? ?]. split; grow.
Qed.
End mono.
