(* ===== verification/EmitInvariant.v ===== *)
(** * The invariant of emission

    What holds of the context of emission at every step: the graph is
    well-formed, the cached types and the emitted fields are those of the
    intermediate representation, and the map of selectable fields points at
    them. Emission is reasoned about with a judgement of total correctness: a
    function returns, in a context that satisfies the invariant and extends the
    first one. *)
From S2P Require Import Prelude RustStd Wrapping CheckSchema IndexSet FieldTypes Subgraphs Ingest IngestRules Walkers ComposeContext ComposeDirectives ComposeTables Compose ComposeInvariant FederatedGraph Emit GraphWf.
Local Open Scope string_scope.
Local Open Scope list_scope.
Local Open Scope nat_scope.

(** The wrappers of a type, innermost first. *)
Definition kind_wrapping (k : WrapperTypeKind) : ListWrapping :=
  match k with KList => NullableList | KNonNullList => RequiredList end.
(** The packed word [w] has the nullability and the lists of [t]. *)
Definition wraps (w : Wrapping) (t : AType) : Prop :=
  Wrapping.wf w ∧ abs w = MkA (type_inner_nonnull t) (kind_wrapping <$> reverse (type_kinds t)) 0.

Section invariant.
Context `{IndexSetLaws} (sg : Subgraphs) (ir : Ctx).
Implicit Types c : EmitCtx.

(** ** What the intermediate representation says *)

(** The name [s] is defined as [d]. *)
Definition has_def (s : string) (d : FederatedDefinition) : Prop :=
  ∃ n, get_index (ir_strings ir) n = Some s ∧ ir_definitions_by_name ir !! n = Some d.
(** The emitted form of a type of the subgraphs. *)
Definition typed_as (id : FieldTypeId) (ty : FType) : Prop :=
  ∃ t, represents (store sg) id t ∧ has_def (base_name t) (ft_definition ty) ∧ wraps (ft_wrapping ty) t.
(** The fields of [d]: its own, and those an entity interface contributes to an
    object that has fields. *)
Definition object_name (id : nat) (name : nat) : Prop :=
  ∃ o td, objects (ir_tables ir) !! id = Some o ∧ ir_type_definitions ir !! object_type_definition_id o = Some td ∧
    td_name td = name.
Definition own_field (d : FederatedDefinition) (f : FieldIr) : Prop :=
  f ∈ ir_fields (ir_tables ir) ∧ fi_parent_definition f = d.
Definition contributed (d : FederatedDefinition) (f : FieldIr) : Prop :=
  ∃ id name i, d = FObject id ∧ (∃ f', own_field d f') ∧ object_name id name ∧
    (name, i) ∈ object_fields_from_entity_interfaces (ir_tables ir) ∧ ir_fields (ir_tables ir) !! i = Some f.
Definition field_of (d : FederatedDefinition) (f : FieldIr) : Prop := own_field d f ∨ contributed d f.

(** [ff] is the emitted form of [f], up to the selections attached later. *)
Definition emitted (strs : iset string) (f : FieldIr) (ff : FField) : Prop :=
  get_index strs (ff_name ff) = Some (str sg (fi_field_name f)) ∧ typed_as (fi_field_type f) (ff_type ff) ∧
  ff_arguments ff = fi_arguments f ∧ ff_resolvable_in ff = fi_resolvable_in f ∧ ff_overrides ff = fi_overrides f ∧
  ff_composed_directives ff = fi_composed_directives f ∧ ff_description ff = fi_description f.

(** [fv] is the emitted form of [v], up to the default. *)
Definition value_emitted (v : InputValueDefinitionIr) (fv : FInputValue) : Prop :=
  fiv_name fv = ivd_name v ∧ typed_as (ivd_type v) (fiv_type fv) ∧ fiv_directives fv = ivd_directives v ∧
  fiv_description fv = ivd_description v.

(** ** What emission relies on *)

(** The type is printed with at most 21 lists, and its name is defined. *)
Definition known_type (id : FieldTypeId) : Prop :=
  ∃ t d, represents (store sg) id t ∧ has_def (base_name t) d ∧ list_depth t ≤ 21.
(** An argument of [f] with the name. *)
Definition argument_of (f : FieldIr) (name : string) (v : InputValueDefinitionIr) : Prop :=
  ∃ i, i < (fi_arguments f).2 ∧ input_value_definitions (ir_tables ir) !! ((fi_arguments f).1 + i) = Some v ∧
    get_index (ir_strings ir) (ivd_name v) = Some name.
(** Every name that the selection uses exists below [d]. *)
Inductive resolves_on : FederatedDefinition → Selection → Prop :=
| resolves_field d n args sub :
    (∃ f, field_of d f ∧ str sg (fi_field_name f) = str sg n) →
    (∀ f, field_of d f → str sg (fi_field_name f) = str sg n →
       Forall (λ nv, ∃ v, argument_of f (str sg nv.1) v) args ∧
       ∀ t d', represents (store sg) (fi_field_type f) t → has_def (base_name t) d' → Forall (resolves_on d') sub) →
    resolves_on d (SField n args sub)
| resolves_fragment d on sub d' :
    has_def (str sg on) d' → Forall (resolves_on d') sub → resolves_on d (SInlineFragment on sub).
Definition type_definition_is (id : FieldTypeId) (d : FederatedDefinition) : Prop :=
  ∃ t, represents (store sg) id t ∧ has_def (base_name t) d.
(** The selections of the directives of a field that belongs to [d]. *)
Definition directives_resolve (d : FederatedDefinition) (f : FieldIr) : Prop :=
  (∀ p t l, p ∈ fi_provides f → definition_fields sg !! p = Some t → provides_ sg (tuple_directives t) = Some l →
     ∃ d', type_definition_is (tuple_type t) d' ∧ Forall (resolves_on d') l) ∧
  (∀ p t l, p ∈ fi_requires f → definition_fields sg !! p = Some t → requires_ sg (tuple_directives t) = Some l →
     Forall (resolves_on d) l) ∧
  (∀ p t a, p ∈ fi_authorized_directives f → definition_fields sg !! p = Some t →
     authorized_ sg (tuple_directives t) = Some a →
     (∀ l, authorized_fields a = Some l → Forall (resolves_on d) l) ∧
     (∀ l d', authorized_node a = Some l → type_definition_is (fi_field_type f) d' → Forall (resolves_on d') l) ∧
     (∀ l n args sub, authorized_arguments a = Some l → SField n args sub ∈ l → ∃ v, argument_of f (str sg n) v)).
Record emittable : Prop := {
  em_fields : ∀ f, f ∈ ir_fields (ir_tables ir) → known_type (fi_field_type f);
  em_values : ∀ v, v ∈ input_value_definitions (ir_tables ir) → known_type (ivd_type v);
  em_directives : ∀ d f, field_of d f → directives_resolve d f;
  em_impls : ∀ interface implementer, (interface, implementer) ∈ interface_impls sg →
    ∃ d, has_def (str sg interface) d ∧
      ∀ id, d = FInterface id → ∃ id', has_def (str sg implementer) (FObject id') ∨ has_def (str sg implementer) (FInterface id');
  em_members : ∀ u m, (u, m) ∈ union_members (ir_tables ir) →
    is_Some (ir_definitions_by_name ir !! u) ∧ is_Some (ir_definitions_by_name ir !! m);
  em_keys : ∀ k key, k ∈ ir_keys (ir_tables ir) → keys sg !! key_id k = Some key →
    (∃ id, key_parent k = FObject id ∨ key_parent k = FInterface id) ∧
    Forall (resolves_on (key_parent k)) (selection_set key.2);
  em_object_authorized : ∀ id site a l, (id, site) ∈ object_authorized_directives (ir_tables ir) →
    authorized_ sg site = Some a → authorized_fields a = Some l → Forall (resolves_on (FObject id)) l;
  em_interface_authorized : ∀ id site a l, (id, site) ∈ interface_authorized_directives (ir_tables ir) →
    authorized_ sg site = Some a → authorized_fields a = Some l → Forall (resolves_on (FInterface id)) l;
  em_small : (N.of_nat (length (ir_fields (ir_tables ir))) ≤ usize_max)%N;
}.

(** ** The invariant *)
Definition sizes c : Sizes :=
  sizes_with (iset_len (strings_ir c)) (length (subgraphs sg)) (length (ir_directives ir))
    (length (input_value_definitions (ir_tables ir))) (out c).
Record ewf c : Prop := {
  e_definitions : ctx_definitions c = ir_definitions_by_name ir;
  e_strings : extends (ir_strings ir) (strings_ir c);
  e_graph : graph_in (sizes c) (out c);
  e_types : fg_type_definitions (out c) = ir_type_definitions ir;
  e_objects : fo_type_definition_id <$> fg_objects (out c) = object_type_definition_id <$> objects (ir_tables ir);
  e_interfaces : fif_type_definition_id <$> fg_interfaces (out c) = interface_type_definition_id <$> interfaces (ir_tables ir);
  e_unions : fu_name <$> fg_unions (out c) = union_name <$> ir_unions (ir_tables ir);
  e_input_objects : fg_input_objects (out c) = input_objects (ir_tables ir);
  e_enum_values : fg_enum_values (out c) = ir_enum_values ir;
  e_query : root_query (ir_tables ir) = Some (rot_query (fg_root_operation_types (out c)));
  e_cache : ∀ id ty, field_types_map c !! id = Some ty → typed_as id ty;
  e_values : fg_input_value_definitions (out c) = [] ∨
    Forall2 value_emitted (input_value_definitions (ir_tables ir)) (fg_input_value_definitions (out c));
  e_select : ∀ d n i, selection_map c !! (d, n) = Some i →
    ∃ f ff, field_of d f ∧ fg_fields (out c) !! i = Some ff ∧ emitted (strings_ir c) f ff ∧ ff_name ff = n;
}.

(** ** Extension *)

(** The parts of a field that are set when it is emitted. *)
Definition same_core (f f' : FField) : Prop :=
  ff_name f' = ff_name f ∧ ff_type f' = ff_type f ∧ ff_arguments f' = ff_arguments f ∧
  ff_resolvable_in f' = ff_resolvable_in f ∧ ff_overrides f' = ff_overrides f ∧
  ff_composed_directives f' = ff_composed_directives f ∧ ff_description f' = ff_description f.
Definition same_value (v v' : FInputValue) : Prop :=
  fiv_name v' = fiv_name v ∧ ft_definition (fiv_type v') = ft_definition (fiv_type v).
Record egrows c c' : Prop := {
  eg_strings : extends (strings_ir c) (strings_ir c');
  eg_sizes : sz_le (sizes c) (sizes c');
  eg_fields : ∀ i f, fg_fields (out c) !! i = Some f → ∃ f', fg_fields (out c') !! i = Some f' ∧ same_core f f';
  eg_values : ∀ i v, fg_input_value_definitions (out c) !! i = Some v →
    ∃ v', fg_input_value_definitions (out c') !! i = Some v' ∧ same_value v v';
  eg_directives : length (fg_directives (out c)) ≤ length (fg_directives (out c'));
  eg_subgraphs : length (fg_subgraphs (out c)) ≤ length (fg_subgraphs (out c'));
  eg_select : ∀ k, is_Some (selection_map c !! k) → is_Some (selection_map c' !! k);
}.
Global Instance egrows_preorder : PreOrder egrows.
Proof.
  split.
  - intros c. split; try done; [intros i f Hf; exists f; by repeat split|intros i v Hv; exists v; by repeat split].
  - intros a b c [S1 Z1 F1 V1 D1 G1 M1] [S2 Z2 F2 V2 D2 G2 M2].
    split; [by etransitivity|by etransitivity| | |lia|lia|auto].
    + intros i f Hf. destruct (F1 i f Hf) as (f1 & Hf1 & C1). destruct (F2 i f1 Hf1) as (f2 & Hf2 & C2).
      exists f2. split; [done|]. unfold same_core in *. intuition congruence.
    + intros i f Hf. destruct (V1 i f Hf) as (f1 & Hf1 & C1). destruct (V2 i f1 Hf1) as (f2 & Hf2 & C2).
      exists f2. split; [done|]. unfold same_value in *. intuition congruence.
Qed.

Lemma emitted_mono strs strs' f ff ff' :
  extends strs strs' → same_core ff ff' → emitted strs f ff → emitted strs' f ff'.
Proof.
  unfold emitted. intros Hs (-> & -> & -> & -> & -> & -> & ->). intros (Hn & ? & ? & ? & ? & ? & ?). split_and!; try done. by apply Hs.
Qed.
Lemma same_core_refl f : same_core f f.
Proof. by repeat split. Qed.

(** The map of selectable fields after growth. *)
Lemma e_select_mono c c' :
  ewf c → egrows c c' → ∀ d n i, selection_map c !! (d, n) = Some i →
  ∃ f ff, field_of d f ∧ fg_fields (out c') !! i = Some ff ∧ emitted (strings_ir c') f ff ∧ ff_name ff = n.
Proof.
  intros W G d n i Hi. destruct (e_select _ W d n i Hi) as (f & ff & Hf & Hff & He & Hn).
  destruct (eg_fields _ _ G i ff Hff) as (ff' & Hff' & Hc). exists f, ff'. split_and!; [done|done| |].
  - eapply emitted_mono; [apply G|exact Hc|exact He].
  - destruct Hc as [-> _]. done.
Qed.

(** ** The judgement *)
Definition eok {A} c (r : res (A * EmitCtx)) (Q : A → EmitCtx → Prop) : Prop :=
  match r with
  | Ret (a, c') => ewf c' ∧ egrows c c' ∧ Q a c'
  | Panic _ => False
  end.
Abbreviation eok_any c r := (eok c r (λ _ _, True)).

Lemma eok_ret {A} c (a : A) (Q : A → EmitCtx → Prop) : ewf c → Q a c → eok c (mret (M := E) a c) Q.
Proof. intros ? ?. by split_and!. Qed.
Lemma eok_bind {A B} c (m : E A) (f : A → E B) Q Q' :
  eok c (m c) Q → (∀ a c', ewf c' → egrows c c' → Q a c' → eok c' (f a c') Q') → eok c ((a ← m; f a) c) Q'.
Proof.
  intros Hm Hf. unfold mbind, E_bind. destruct (m c) as [[a c1]|]; [|done]. destruct Hm as (Hwf & HG & HQ). simpl.
  specialize (Hf a c1 Hwf HG HQ). destruct (f a c1) as [[b c2]|]; [|done].
  destruct Hf as (? & ? & ?). split_and!; [done|by etransitivity|done].
Qed.
Lemma eok_wand {A} c (r : res (A * EmitCtx)) (Q Q' : A → EmitCtx → Prop) :
  eok c r Q → (∀ a c', ewf c' → egrows c c' → Q a c' → Q' a c') → eok c r Q'.
Proof. intros Hr HQ. destruct r as [[a c']|]; [|done]. destruct Hr as (? & ? & ?). split_and!; auto. Qed.
Lemma eok_read {A B} c (r : EmitCtx → res A) a (f : A → E B) Q :
  r c = Ret a → eok c (f a c) Q → eok c ((a ← eread r; f a) c) Q.
Proof. intros Hr Hf. unfold mbind, E_bind, eread. rewrite Hr. exact Hf. Qed.
Lemma eok_lift {A B} c (r : res A) a (f : A → E B) Q : r = Ret a → eok c (f a c) Q → eok c ((a ← elift r; f a) c) Q.
Proof. apply (eok_read c (λ _, r)). Qed.

(** A list of results, each with a property that survives extension. *)
Lemma eok_mapM {A B} (P : A → B → EmitCtx → Prop) (f : A → E B) l c :
  (∀ x y c c', egrows c c' → P x y c → P x y c') →
  (∀ x c, x ∈ l → ewf c → eok c (f x c) (P x)) → ewf c →
  eok c (mapM f l c) (λ ys c', Forall2 (λ x y, P x y c') l ys).
Proof.
  intros HP. induction l as [|x l IH] in c |- *; intros Hf Hwf; cbn [mapM]; [apply eok_ret; [done|constructor]|].
  eapply eok_bind; [apply Hf; [by left|done]|]. intros y c1 W1 _ Hy. cbn beta in Hy.
  eapply eok_bind; [apply IH; [|done]; intros z c2 Hz; apply Hf; by right|]. intros ys c2 W2 G2 Hys. cbn beta in Hys.
  apply eok_ret; [done|]. constructor; [by eapply HP|done].
Qed.
(** A loop whose steps need something that survives extension. *)
Lemma eok_mapM_inv {A B} (R : EmitCtx → Prop) (P : B → EmitCtx → Prop) (f : A → E B) l c :
  (∀ c c', ewf c' → egrows c c' → R c → R c') → (∀ y c c', egrows c c' → P y c → P y c') →
  (∀ x c, x ∈ l → ewf c → R c → eok c (f x c) P) → ewf c → R c →
  eok c (mapM f l c) (λ ys c', Forall (λ y, P y c') ys).
Proof.
  intros HR HP. induction l as [|x l IH] in c |- *; intros Hf Hwf Hr; cbn [mapM]; [apply eok_ret; [done|constructor]|].
  eapply eok_bind; [apply Hf; [by left|done|done]|]. intros y c1 W1 G1 Hy. cbn beta in Hy.
  assert (R c1) as Hr1 by (by eapply HR).
  eapply eok_bind; [apply IH; [|done|done]; intros z c2 Hz; apply Hf; by right|]. intros ys c2 W2 G2 Hys. cbn beta in Hys.
  apply eok_ret; [done|]. constructor; [by eapply HP|done].
Qed.
Lemma eok_mapM_all {A B} (P : B → EmitCtx → Prop) (f : A → E B) l c :
  (∀ y c c', egrows c c' → P y c → P y c') →
  (∀ x c, x ∈ l → ewf c → eok c (f x c) P) → ewf c → eok c (mapM f l c) (λ ys c', Forall (λ y, P y c') ys).
Proof. intros HP Hf Hwf. by apply (eok_mapM_inv (λ _, True)); auto. Qed.
Lemma eok_each {A} (P : EmitCtx → Prop) (f : A → E unit) l c :
  (∀ c c', ewf c' → egrows c c' → P c → P c') →
  (∀ x c, x ∈ l → ewf c → P c → eok_any c (f x c)) → ewf c → P c → eok_any c (eeach f l c).
Proof.
  intros HP. induction l as [|x l IH] in c |- *; intros Hf Hwf Hc; cbn [eeach]; [by apply eok_ret|].
  eapply eok_bind; [apply Hf; [by left|done|done]|]. intros u c1 W1 G1 _.
  apply IH; [|done|by eapply HP]. intros y c2 Hy. apply Hf. by right.
Qed.
Lemma eok_omapM {A B} (P : B → EmitCtx → Prop) (f : A → E B) o c :
  (∀ x, o = Some x → eok c (f x c) P) → ewf c → eok c (omapM f o c) (λ r c', ∀ y, r = Some y → P y c').
Proof.
  intros Hf Hwf. destruct o as [x|]; cbn [omapM]; [|by apply eok_ret].
  eapply eok_bind; [by apply Hf|]. intros y c1 W1 _ Hy. apply eok_ret; [done|]. by intros ? [= <-].
Qed.
End invariant.
Abbreviation eok_any sg ir c r := (eok sg ir c r (λ _ _, True)).
