(* ===== verification/EmitRules.v ===== *)
(** * Rules for the operations of emission *)
From S2P Require Import Prelude RustStd Wrapping CheckSchema IndexSet FieldTypes Subgraphs Ingest IngestRules IngestProps Walkers ComposeContext ComposeDirectives ComposeTables Compose ComposeInvariant ComposeValidateProps FederatedGraph Emit GraphWf EmitInvariant.
Local Open Scope string_scope.
Local Open Scope list_scope.
Local Open Scope nat_scope.

(** ** The packed wrapping *)
Lemma wrap_all_spec w b ls ks :
  Wrapping.wf w → abs w = MkA b ls 0 → length ls + length ks ≤ 21 →
  ∃ w', wrap_all w ks = Ret w' ∧ Wrapping.wf w' ∧ abs w' = MkA b (ls ++ (kind_wrapping <$> ks)) 0.
Proof.
  revert w ls. induction ks as [|k ks IH]; intros w ls Hwf Ha Hlen.
  { exists w. simpl. by rewrite app_nil_r. }
  cbn [length] in Hlen. pose proof (wrapped_by_spec w (kind_wrapping k) Hwf) as Hs. unfold a_step in Hs. rewrite Ha in Hs.
  cbn [a_front a_lists a_inner Nat.add] in Hs. rewrite decide_True in Hs by lia.
  assert (wrap_all w (k :: ks) = (w1 ← wrapped_by w (kind_wrapping k); wrap_all w1 ks)) as -> by (destruct k; reflexivity).
  destruct (wrapped_by w (kind_wrapping k)) as [w1|e]; [|discriminate Hs]. destruct Hs as [W1 Hs].
  remember (abs w1) as a1 eqn:E1. injection Hs as A1. rewrite E1 in A1. clear E1 a1.
  destruct (IH w1 (ls ++ [kind_wrapping k])) as (w' & E' & W' & A');
    [exact W1|symmetry; exact A1|rewrite length_app; cbn [length]; lia|].
  exists w'. split_and!; [exact E'|exact W'|]. rewrite A'. by rewrite <-(assoc_L (++)).
Qed.

Section rules.
Context `{IndexSetLaws} (sg : Subgraphs) (Hsg : wf sg) (ir : Ctx) (Hir : ir_wf sg ir).
Implicit Types c : EmitCtx.
Abbreviation eok := (eok sg ir).
Abbreviation ewf := (ewf sg ir).
Abbreviation egrows := (egrows sg ir).
Abbreviation sizes := (sizes sg ir).
Abbreviation has_def := (has_def ir).

(** ** Names and definitions *)
Lemma name_str_ok n d : ir_definitions_by_name ir !! n = Some d → defined_as ir n d.
Proof. apply (w_names _ _ Hir). Qed.
Lemma has_def_unique s d d' : has_def s d → has_def s d' → d = d'.
Proof.
  intros (n & Hn & Hd) (n' & Hn' & Hd'). assert (n = n') as <- by (exact (get_index_inj _ n n' s Hn Hn')). congruence.
Qed.
Lemma has_def_lookup c n s d :
  ewf c → get_index (strings_ir c) n = Some s → has_def s d → ctx_definitions c !! n = Some d.
Proof.
  intros W Hn (n' & Hn' & Hd). rewrite (e_definitions _ _ _ W).
  assert (n = n') as -> by (exact (get_index_inj _ n n' s Hn (e_strings _ _ _ W _ _ Hn'))). done.
Qed.
Lemma defined_as_in c n d : ewf c → defined_as ir n d → def_in (sizes c) d.
Proof.
  intros W. destruct d as [id|id|id|id|id|id]; simpl.
  - rewrite (e_types _ _ _ W). intros (td & Htd & _). by eapply lookup_lt_Some.
  - intros (o & Ho & _). rewrite <-(length_fmap fo_type_definition_id), (e_objects _ _ _ W), length_fmap.
    by eapply lookup_lt_Some.
  - intros (o & Ho & _). rewrite <-(length_fmap fif_type_definition_id), (e_interfaces _ _ _ W), length_fmap.
    by eapply lookup_lt_Some.
  - intros (o & Ho & _). rewrite <-(length_fmap fu_name), (e_unions _ _ _ W), length_fmap. by eapply lookup_lt_Some.
  - rewrite (e_types _ _ _ W). intros (td & Htd & _). by eapply lookup_lt_Some.
  - intros (o & Ho & _). rewrite (e_input_objects _ _ _ W). by eapply lookup_lt_Some.
Qed.
Lemma has_def_in c s d : ewf c → has_def s d → def_in (sizes c) d.
Proof. intros W (n & _ & Hd). eapply defined_as_in; [done|by apply name_str_ok]. Qed.
Lemma fed_in c d : ewf c → fed_ok ir d → def_in (sizes c) d.
Proof. intros W [n Hn]. by eapply defined_as_in. Qed.
Lemma str_in c i s : get_index (strings_ir c) i = Some s → i < z_strings (sizes c).
Proof. intros Hi. apply get_index_lt. by exists s. Qed.
Lemma ir_str_in c i : ewf c → str_ok ir i → i < z_strings (sizes c).
Proof. intros W [s Hs]. eapply str_in, (e_strings _ _ _ W), Hs. Qed.

(** ** Growth of the parts *)
Lemma extends_len {A} (s s' : iset A) : extends s s' → iset_len s ≤ iset_len s'.
Proof.
  intros He. destruct (iset_len s) as [|m] eqn:E; [lia|].
  destruct (proj2 (get_index_lt _ s m)) as [x Hx]; [lia|]. apply He in Hx.
  assert (m < iset_len s') by (apply get_index_lt; by exists x). lia.
Qed.
Definition upd c (g : FederatedGraph) : EmitCtx :=
  MkEmitCtx g (field_types_map c) (selection_map c) (ctx_definitions c) (strings_ir c).
Record graph_step (g g' : FederatedGraph) : Prop := {
  gs_types : fg_type_definitions g' = fg_type_definitions g;
  gs_objects : fo_type_definition_id <$> fg_objects g' = fo_type_definition_id <$> fg_objects g;
  gs_interfaces : fif_type_definition_id <$> fg_interfaces g' = fif_type_definition_id <$> fg_interfaces g;
  gs_unions : fu_name <$> fg_unions g' = fu_name <$> fg_unions g;
  gs_input_objects : fg_input_objects g' = fg_input_objects g;
  gs_enum_values : fg_enum_values g' = fg_enum_values g;
  gs_roots : fg_root_operation_types g' = fg_root_operation_types g;
  gs_fields : ∀ i f, fg_fields g !! i = Some f → ∃ f', fg_fields g' !! i = Some f' ∧ same_core f f';
  gs_values : fg_input_value_definitions g' = fg_input_value_definitions g;
  gs_directives : length (fg_directives g) ≤ length (fg_directives g');
  gs_subgraphs : length (fg_subgraphs g) ≤ length (fg_subgraphs g');
  gs_authorized : length (fg_authorized_directives g) ≤ length (fg_authorized_directives g');
}.
Lemma length_lookup_le {A B} (l : list A) (k : list B) :
  (∀ i x, l !! i = Some x → is_Some (k !! i)) → length l ≤ length k.
Proof.
  intros Hl. destruct (decide (length l ≤ length k)); [done|]. destruct (lookup_lt_is_Some_2 l (length k)) as [x Hx]; [lia|].
  apply Hl in Hx. apply lookup_lt_is_Some in Hx. lia.
Qed.
Lemma upd_grows c g : graph_step (out c) g → egrows c (upd c g).
Proof.
  intros [T O I U IO EV R F V D G A]. split; simpl; try done; [|rewrite V; intros i v Hv; exists v; by repeat split].
  apply (f_equal length) in O. apply (f_equal length) in I. apply (f_equal length) in U.
  rewrite !length_fmap in O. rewrite !length_fmap in I. rewrite !length_fmap in U. split; simpl; rewrite ?T, ?O, ?I, ?U, ?IO, ?EV; try done.
  apply length_lookup_le. intros i x Hx. destruct (F i x Hx) as (f' & -> & _). by eexists.
Qed.
Lemma eok_upd {A} c g (a : A) (Q : A → EmitCtx → Prop) :
  ewf c → graph_step (out c) g → (graph_in (sizes (upd c g)) (out c) → graph_in (sizes (upd c g)) g) →
  Q a (upd c g) → eok c (Ret (a, upd c g)) Q.
Proof.
  intros W S G HQ. pose proof (upd_grows c g S) as HG. split_and!; [|done|done].
  pose proof S as [T O I U IO EV R F V _ _ Au]. pose proof W as [W1 W2 W3 W4 W5 W6 W7 W8 W9 W10 W11 W12 W13]. split; simpl.
  - done.
  - done.
  - apply G. eapply graph_in_mono; [|exact W3]. apply HG.
  - congruence.
  - congruence.
  - congruence.
  - congruence.
  - congruence.
  - congruence.
  - by rewrite R.
  - done.
  - by rewrite V.
  - intros d n i Hi. by apply (e_select_mono sg ir c (upd c g)).
Qed.

(** ** Strings *)
Lemma eok_str c s : ewf c → eok c (emit_str s c) (λ i c', get_index (strings_ir c') i = Some s).
Proof.
  intros W. unfold emit_str. pose proof (intern_spec s (strings_ir c)) as [Hi He].
  destruct (intern s (strings_ir c)) as [i strs]. simpl in Hi, He.
  match goal with |- eok _ (Ret (_, ?c')) _ => assert (egrows c c') as G end.
  { split; simpl; try done; [|intros j f Hf; exists f; split; [done|apply same_core_refl]|intros j f Hf; exists f; by repeat split].
    split; simpl; try done. by apply extends_len. }
  split_and!; [|done|done]. pose proof W as [W1 W2 W3 W4 W5 W6 W7 W8 W9 W10 W11 W12 W13]. split; try done; simpl.
  - by etransitivity.
  - eapply graph_in_mono; [|exact W3]. apply G.
  - intros d n j Hj. by apply (e_select_mono sg ir c _ W G).
Qed.
Lemma eok_string c id :
  ewf c → interned sg id → eok c (emit_string sg id c) (λ i c', get_index (strings_ir c') i = Some (str sg id)).
Proof. intros W Hid. eapply eok_lift; [by apply string_at_str|]. by apply eok_str. Qed.
Lemma eok_definition_at c n s d (Q : FederatedDefinition → EmitCtx → Prop) :
  ewf c → get_index (strings_ir c) n = Some s → has_def s d → Q d c → eok c (definition_at n c) Q.
Proof.
  intros W Hn Hd HQ. unfold definition_at, eread. rewrite (has_def_lookup c n s d) by done. by apply eok_ret.
Qed.

(** ** Values *)
Lemma iter_enum_values_in g enum_id e : e ∈ iter_enum_values g enum_id → e.1 < length (fg_enum_values g).
Proof.
  unfold iter_enum_values. set (p := partition_point _ _). rewrite elem_of_lookup_imap. intros (i & v & -> & Hv). simpl.
  apply (lookup_app_l_Some _ (drop_while (λ v, ev_enum_id v =? enum_id) (drop p (fg_enum_values g)))) in Hv.
  rewrite take_drop_while, lookup_drop in Hv. by eapply lookup_lt_Some.
Qed.
Lemma value_object_strings (l : list (StringId * Value)) k v :
  interned_all sg (concat (map (λ f, f.1 :: value_strings f.2) l)) → (k, v) ∈ l →
  interned sg k ∧ interned_all sg (value_strings v).
Proof.
  unfold interned_all. intros Hl Hin. rewrite Forall_concat, Forall_forall in Hl.
  specialize (Hl (k :: value_strings v)). rewrite Forall_cons in Hl. apply Hl.
  by apply (list_elem_of_fmap_2 (λ f : StringId * Value, f.1 :: value_strings f.2) l (k, v)).
Qed.
Lemma eok_value v e c :
  ewf c → interned_all sg (value_strings v) →
  eok c (insert_value_with_type sg e v c) (λ v' c', value_in (sizes c') v').
Proof.
  revert e c. induction v as [s|n|b|b|s|l IH|l IH|] using value_nested_ind; intros e c W Hv;
    cbn [insert_value_with_type]; simpl in Hv.
  - eapply eok_bind; [apply eok_string; [done|exact (Forall_inv Hv)]|]. intros i c1 W1 _ Hi.
    apply eok_ret; [done|]. constructor. exact (str_in _ _ _ Hi).
  - apply eok_ret; [done|constructor].
  - apply eok_ret; [done|constructor].
  - apply eok_ret; [done|constructor].
  - eapply eok_bind; [apply eok_string; [done|exact (Forall_inv Hv)]|]. intros i c1 W1 _ Hi.
    eapply eok_read; [done|]. apply eok_ret; [done|]. case_match eqn:Ee; [|constructor; exact (str_in _ _ _ Hi)].
    destruct e as [e|]; [|done]. simpl in Ee. constructor.
    apply find_some in Ee as [Hin _]. simpl. apply (iter_enum_values_in _ e). by apply list_elem_of_In.
  - eapply eok_bind; [apply (eok_mapM_all _ _ (λ kv c, kv.1 < z_strings (sizes c) ∧ value_in (sizes c) kv.2))|].
    + intros kv c1 c2 G [Hk Hkv]. pose proof (eg_sizes _ _ _ _ G) as Z.
      split; [pose proof (le_strings _ _ Z); lia|by eapply value_in_mono].
    + intros [k v] c1 Hin W1. simpl. destruct (value_object_strings l k v Hv Hin) as [Hk Hvv].
      eapply eok_bind; [by apply eok_string|]. intros i c2 W2 _ Hi.
      rewrite Forall_forall in IH. specialize (IH _ Hin). simpl in IH.
      eapply eok_bind; [by apply IH|]. intros v' c3 W3 G3 Hv'. apply eok_ret; [done|]. split; [|done]. simpl.
      eapply Nat.lt_le_trans; [exact (str_in _ _ _ Hi)|]. apply (le_strings _ _ (eg_sizes _ _ _ _ G3)).
    + done.
    + intros kvs c1 W1 _ HF. apply eok_ret; [done|]. by constructor.
  - eapply eok_bind; [apply (eok_mapM_all _ _ (λ v c, value_in (sizes c) v))|].
    + intros v c1 c2 G Hv'. eapply value_in_mono; [|exact Hv']. apply (eg_sizes _ _ _ _ G).
    + intros v c1 Hin W1. rewrite Forall_forall in IH. apply IH; [done|done|].
      unfold interned_all in *. rewrite Forall_concat in Hv. rewrite Forall_forall in Hv. apply Hv.
      by apply (list_elem_of_fmap_2 value_strings).
    + done.
    + intros vs c1 W1 _ HF. apply eok_ret; [done|]. by constructor.
  - apply eok_ret; [done|constructor].
Qed.

(** ** Types *)
Lemma typed_as_in c id ty : ewf c → typed_as sg ir id ty → def_in (sizes c) (ft_definition ty).
Proof. intros W (t & _ & Hd & _). by eapply has_def_in. Qed.
Lemma typed_as_definition id ty ty' :
  typed_as sg ir id ty → typed_as sg ir id ty' → ft_definition ty = ft_definition ty'.
Proof.
  intros (t & Ht & Hd & _) (t' & Ht' & Hd' & _).
  assert (t = t') as <- by (by apply (represents_unique (store sg) id id t t' Ht Ht')). by eapply has_def_unique.
Qed.
Lemma eok_field_type c id :
  ewf c → known_type sg ir id → eok c (insert_field_type sg id c) (λ ty _, typed_as sg ir id ty).
Proof.
  intros W (t & d & Ht & Hd & Hdepth).
  destruct (represents_inner (store sg) (wf_store _ Hsg) id t Ht) as (inn & Hinn & Hw & Hr & Hn).
  unfold insert_field_type. eapply eok_lift; [exact Hinn|].
  eapply eok_bind; [apply eok_string; [done|by exists (base_name t)]|]. intros n c1 W1 _ Hi. cbn beta in Hi.
  assert (str sg (inner_name inn) = base_name t) as E by (unfold str; by rewrite Hn). rewrite E in Hi.
  eapply eok_read; [done|]. destruct (field_types_map c1 !! id) as [ty|] eqn:Ec.
  { apply eok_ret; [done|]. by eapply e_cache. }
  eapply eok_read; [by rewrite (has_def_lookup c1 n (base_name t) d)|].
  destruct (wrap_all_spec (new (inner_required inn)) (inner_required inn) [] (iter_wrappers (store sg) inn)) as (w & Hwrap & Hwf & Ha).
  { apply new_wf. }
  { apply new_abs. }
  { rewrite Hw, length_reverse, length_type_kinds. simpl. lia. }
  eapply eok_lift; [exact Hwrap|].
  assert (typed_as sg ir id (MkFType w d)) as Hty.
  { exists t. split_and!; [exact Ht|exact Hd|]. split; [exact Hwf|]. cbn [ft_wrapping]. rewrite Ha, Hw, Hr. reflexivity. }
  eapply (eok_bind _ _ _ _ _ (λ _ _, True)); [|intros u c2 W2 _ _; apply eok_ret; [exact W2|exact Hty]].
  unfold cache_type. split_and!; [|split; simpl; try done|exact Logic.I].
  - destruct W1 as [X1 X2 X3 X4 X5 X6 X7 X8 X9 X10 X11 X12 X13]. split; try done.
    cbn [field_types_map]. intros id' ty'. rewrite lookup_insert_Some. intros [[<- <-]|[_ ?]]; [exact Hty|by apply X11].
  - intros j f Hf. exists f. split; [done|apply same_core_refl].
  - intros j f Hf. exists f. by repeat split.
Qed.

(** ** Updates of one vector *)
Ltac step_graph := split; simpl; first [done|by intros ? f Hf; exists f; split; [done|apply same_core_refl]|rewrite ?length_app; simpl; lia|idtac].

Lemma eok_push_directive c d : ewf c → directive_in (sizes c) d → eok_any sg ir c (push_fdirective d c).
Proof.
  intros W Hd. apply (eok_upd c); [done|step_graph| |done].
  intros []. split; simpl; try done. apply Forall_app. split; [done|by constructor].
Qed.
Lemma eok_directive c d : ewf c → dir_ok sg ir d → eok c (emit_directive sg d c) (λ fd c', directive_in (sizes c') fd).
Proof.
  intros W (s & Hs & Hin). assert (∀ i t, named (ir_strings ir) i t → i < z_strings (sizes c)) as Hstr.
  { intros i t Hi. eapply ir_str_in; [done|by exists t]. }
  assert (∀ l k, Forall2 (Forall2 (named (ir_strings ir))) l k → Forall (Forall (λ i, i < z_strings (sizes c))) l) as Hlists.
  { intros l k HF. induction HF as [|x y l k Hxy _ IH]; constructor; [|done].
    clear IH. induction Hxy; constructor; [by eapply Hstr|done]. }
  destruct d as [|r| |l|l|n args], s as [|r'| |l'|l'|n' args']; try done; cbn [emit_directive]; simpl in Hs.
  - apply eok_ret; [done|]. intros i ->. inversion Hs as [? ? Hn|]. by eapply Hstr.
  - apply eok_ret; [done|]. by eapply Hlists.
  - apply eok_ret; [done|]. by eapply Hlists.
  - destruct Hs as [Hn Hargs]. simpl in Hin.
    eapply eok_bind; [apply (eok_mapM_all _ _ (λ nv c, nv.1 < z_strings (sizes c) ∧ value_in (sizes c) nv.2))|].
    + intros nv c1 c2 G [? ?]. pose proof (eg_sizes _ _ _ _ G) as Z.
      split; [pose proof (le_strings _ _ Z); lia|by eapply value_in_mono].
    + intros nv c1 Hnv W1. apply list_elem_of_lookup in Hnv as [i Hi].
      eapply Forall2_lookup_l in Hargs as (nv' & Hi' & Hn1 & Hv); [|exact Hi].
      eapply eok_bind; [apply eok_value; [done|]|].
      { rewrite Hv. by apply (Forall_lookup_1 _ _ i nv' Hin). }
      intros v c2 W2 _ Hv'. apply eok_ret; [done|]. split; [|done]. simpl. eapply ir_str_in; [done|by eexists].
    + done.
    + intros args2 c1 W1 _ HF. apply eok_ret; [done|]. split; [|done]. eapply ir_str_in; [done|by exists n'].
Qed.
Lemma eok_directives_loop l c :
  ewf c → Forall (dir_ok sg ir) l →
  eok c (emit_directives sg l c) (λ _ c', length (fg_directives (out c)) + length l ≤ length (fg_directives (out c'))).
Proof.
  unfold emit_directives. intros W HF. induction HF as [|d l Hd HF IH] in c, W |- *; cbn [eeach].
  { apply eok_ret; [done|simpl; lia]. }
  eapply (eok_bind _ _ _ _ _ (λ _ c', S (length (fg_directives (out c))) ≤ length (fg_directives (out c')))).
  - eapply eok_bind; [by apply eok_directive|]. intros fd c1 W1 G1 Hfd.
    pose proof (eok_push_directive c1 fd W1 Hfd) as Hp. unfold push_fdirective, modify_out in *.
    destruct Hp as (W2 & G2 & _). split_and!; [exact W2|exact G2|]. simpl. rewrite length_app. simpl.
    pose proof (eg_directives _ _ _ _ G1). lia.
  - intros u c1 W1 G1 Hl. cbn beta in Hl. eapply eok_wand; [by apply IH|]. simpl. intros _ c2 _ _ ?. lia.
Qed.

Lemma eok_subgraphs c :
  ewf c → eok c (emit_subgraphs sg c) (λ _ c', length (subgraphs sg) ≤ length (fg_subgraphs (out c'))).
Proof.
  intros W. unfold emit_subgraphs. pose proof (λ s, link_subgraphs _ (wf_links _ Hsg) s) as Hs.
  cut (eok c (eeach (λ s, name ← emit_string sg (subgraph_name_id s); url ← emit_string sg (subgraph_url s);
    modify_out (λ g, set_subgraphs (fg_subgraphs g ++ [MkFSubgraph name url]) g)) (subgraphs sg) c)
    (λ _ c', length (fg_subgraphs (out c)) + length (subgraphs sg) ≤ length (fg_subgraphs (out c')))).
  { intros Hok. eapply eok_wand; [exact Hok|]. simpl. lia. }
  induction (subgraphs sg) as [|s l IH] in c, W, Hs |- *; cbn [eeach]; [apply eok_ret; [done|simpl; lia]|].
  destruct (Hs s) as (Hn & Hu & _); [by left|].
  eapply (eok_bind _ _ _ _ _ (λ _ c', S (length (fg_subgraphs (out c))) ≤ length (fg_subgraphs (out c')))).
  - eapply eok_bind; [by apply eok_string|]. intros name c1 W1 G1 Hi1.
    eapply eok_bind; [by apply eok_string|]. intros url c2 W2 G2 Hi2. cbn beta in Hi1, Hi2.
    apply (eok_upd c2); [done|step_graph| |].
    + intros []. split; simpl; try done. apply Forall_app. split; [done|]. constructor; [|done]. simpl.
      split; [apply (str_in c2 _ _ (eg_strings _ _ _ _ G2 _ _ Hi1))|apply (str_in c2 _ _ Hi2)].
    + simpl. rewrite length_app. simpl. pose proof (eg_subgraphs _ _ _ _ G1). pose proof (eg_subgraphs _ _ _ _ G2). lia.
  - intros u c1 W1 G1 Hl. cbn beta in Hl. eapply eok_wand; [apply IH; [done|intros x Hx; apply Hs; by right]|].
    simpl. intros _ c2 _ _ ?. lia.
Qed.
End rules.

(** ** Emission: interfaces, input values and selections *)

Section selections.
Context `{IndexSetLaws} (sg : Subgraphs) (Hsg : wf sg) (ir : Ctx) (Hir : ir_wf sg ir) (Hem : emittable sg ir).
Implicit Types c : EmitCtx.
Abbreviation eok := (eok sg ir).
Abbreviation ewf := (ewf sg ir).
Abbreviation egrows := (egrows sg ir).
Abbreviation sizes := (sizes sg ir).
Abbreviation has_def := (has_def ir).

(** ** Updates of one record *)
Lemma update_at_Ret {A} (l : list A) i (f : A → A) :
  i < length l → ∃ x, l !! i = Some x ∧ update_at l i f = Ret (<[i := f x]> l).
Proof.
  intros [x Hx]%lookup_lt_is_Some_2. exists x. split; [done|]. unfold update_at, at_index. by rewrite Hx.
Qed.
Lemma Forall_insert_at {A} (P : A → Prop) l i x : Forall P l → P x → Forall P (<[i := x]> l).
Proof. intros HF Hx. by apply Forall_insert. Qed.
Lemma fmap_insert_same {A B} (g : A → B) (l : list A) i x y :
  l !! i = Some x → g y = g x → g <$> <[i := y]> l = g <$> l.
Proof.
  intros Hx Hy. rewrite list_fmap_insert, Hy. apply list_insert_id. by rewrite list_lookup_fmap, Hx.
Qed.

Lemma eok_update_object c id f (Q : unit → EmitCtx → Prop) :
  ewf c → def_in (sizes c) (FObject id) → (∀ o, fo_type_definition_id (f o) = fo_type_definition_id o) →
  (∀ sz o, sz_le (sizes c) sz → object_in sz o → object_in sz (f o)) →
  (∀ c' o, ewf c' → egrows c c' → fg_objects (out c) !! id = Some o →
     out c' = set_objects (<[id := f o]> (fg_objects (out c))) (out c) → Q () c') →
  eok c (update_object id f c) Q.
Proof.
  intros W Hid Htd Hf HQ. unfold update_object, try_modify_out.
  destruct (update_at_Ret (fg_objects (out c)) id f Hid) as (o & Ho & ->). cbn [mbind res_bind].
  assert (eok_any sg ir c (Ret ((), upd c (set_objects (<[id := f o]> (fg_objects (out c))) (out c))))) as (W' & G' & _).
  { apply eok_upd; [done| | |done].
    - split; simpl; try done; [by eapply fmap_insert_same|intros ? x Hx; exists x; split; [done|apply same_core_refl]].
    - intros G. pose proof (gi_objects _ _ G) as HO. destruct G. split; simpl; try done.
      apply Forall_insert_at; [done|]. apply Hf; [|by eapply Forall_lookup_1].
      split; simpl; rewrite ?length_insert; done. }
  split_and!; [done|done|]. by eapply HQ.
Qed.
Lemma eok_update_interface c id f (Q : unit → EmitCtx → Prop) :
  ewf c → def_in (sizes c) (FInterface id) → (∀ o, fif_type_definition_id (f o) = fif_type_definition_id o) →
  (∀ sz o, sz_le (sizes c) sz → interface_in sz o → interface_in sz (f o)) →
  (∀ c' o, ewf c' → egrows c c' → fg_interfaces (out c) !! id = Some o →
     out c' = set_interfaces (<[id := f o]> (fg_interfaces (out c))) (out c) → Q () c') →
  eok c (update_interface id f c) Q.
Proof.
  intros W Hid Htd Hf HQ. unfold update_interface, try_modify_out.
  destruct (update_at_Ret (fg_interfaces (out c)) id f Hid) as (o & Ho & ->). cbn [mbind res_bind].
  assert (eok_any sg ir c (Ret ((), upd c (set_interfaces (<[id := f o]> (fg_interfaces (out c))) (out c))))) as (W' & G' & _).
  { apply eok_upd; [done| | |done].
    - split; simpl; try done; [by eapply fmap_insert_same|intros ? x Hx; exists x; split; [done|apply same_core_refl]].
    - intros G. pose proof (gi_interfaces _ _ G) as HO. destruct G. split; simpl; try done.
      apply Forall_insert_at; [done|]. apply Hf; [|by eapply Forall_lookup_1].
      split; simpl; rewrite ?length_insert; done. }
  split_and!; [done|done|]. by eapply HQ.
Qed.
Lemma eok_update_union c id f :
  ewf c → def_in (sizes c) (FUnion id) → (∀ o, fu_name (f o) = fu_name o) →
  (∀ sz o, sz_le (sizes c) sz → union_in sz o → union_in sz (f o)) →
  eok_any sg ir c (update_union id f c).
Proof.
  intros W Hid Hn Hf. unfold update_union, try_modify_out.
  destruct (update_at_Ret (fg_unions (out c)) id f Hid) as (o & Ho & ->). cbn [mbind res_bind]. apply (eok_upd sg ir c); [done| | |done].
  - split; simpl; try done; [by eapply fmap_insert_same|intros ? x Hx; exists x; split; [done|apply same_core_refl]].
  - intros G. pose proof (gi_unions _ _ G) as HO. destruct G. split; simpl; try done.
    apply Forall_insert_at; [done|]. apply Hf; [|by eapply Forall_lookup_1]. split; simpl; rewrite ?length_insert; done.
Qed.
Lemma eok_update_field c id f :
  ewf c → id < z_fields (sizes c) → (∀ x, same_core x (f x)) →
  (∀ sz x, sz_le (sizes c) sz → field_in sz x → field_in sz (f x)) → eok_any sg ir c (update_field id f c).
Proof.
  intros W Hid Hc Hf. unfold update_field, try_modify_out.
  destruct (update_at_Ret (fg_fields (out c)) id f Hid) as (o & Ho & ->). cbn [mbind res_bind]. apply (eok_upd sg ir c); [done| | |done].
  - split; simpl; try done. intros i x Hx. destruct (decide (i = id)) as [->|].
    + exists (f x). assert (o = x) as -> by congruence. split; [|done]. rewrite list_lookup_insert, decide_True; [done|]. split; [done|by eapply lookup_lt_Some].
    + exists x. split; [by rewrite list_lookup_insert_ne|apply same_core_refl].
  - intros G. pose proof (gi_fields _ _ G) as HO. destruct G. split; simpl; try done.
    apply Forall_insert_at; [done|]. apply Hf; [|by eapply Forall_lookup_1]. split; simpl; rewrite ?length_insert; done.
Qed.

(** ** Implemented interfaces *)
Lemma eok_interface_impls c : ewf c → eok_any sg ir c (emit_interface_impls sg c).
Proof.
  intros W. apply (eok_each sg ir (λ _, True)); [done| |done|done].
  intros [interface implementer] c1 Hin W1 _. apply elem_of_btree_set_iter in Hin.
  destruct (link_impls _ (wf_links _ Hsg) _ _ Hin) as [Hi1 Hi2].
  destruct (em_impls _ _ Hem _ _ Hin) as (d & Hd & Himp). unfold emit_interface_impl.
  eapply eok_bind; [by apply eok_string|]. intros n2 c2 W2 _ Hn2. cbn beta in Hn2.
  eapply eok_bind; [by apply eok_string|]. intros n3 c3 W3 G3 Hn3. cbn beta in Hn3.
  apply (eg_strings _ _ _ _ G3) in Hn2.
  eapply (eok_bind _ _ _ _ _ (λ d' c', c' = c3 ∧ d' = d)); [by eapply eok_definition_at|]. intros d' c4 W4 _ [-> ->].
  assert (∀ e, e ∈ subgraphs_implementing_interface sg interface implementer → e < length (subgraphs sg)) as Hsub.
  { unfold subgraphs_implementing_interface. intros e He.
    destruct (interface_definitions_to_subgraphs sg !! _) as [l|] eqn:El; simpl in He; [|by apply elem_of_nil in He].
    pose proof (link_impl_subgraphs _ (wf_links _ Hsg) _ _ El) as [_ HF]. rewrite Forall_forall in HF. by apply HF. }
  destruct d as [| |id| | |]; try by apply eok_ret.
  pose proof (has_def_in sg ir Hir c3 _ _ W3 Hd) as Hdin.
  destruct (Himp id eq_refl) as [id' Hid'].
  assert (∀ sz, sz_le (sizes c3) sz → Forall (join_in sz) ((λ s, (s, id)) <$> subgraphs_implementing_interface sg interface implementer)) as Hj.
  { intros sz L. apply Forall_fmap, Forall_forall. intros s Hs. split; simpl; [|by apply (def_in_mono L) in Hdin].
    apply Hsub in Hs. pose proof (le_subgraphs _ _ L). simpl in *. lia. }
  destruct Hid' as [Hid'|Hid'].
  - eapply (eok_bind _ _ _ _ _ (λ d' c', c' = c3 ∧ d' = FObject id')); [by eapply eok_definition_at|]. intros d' c5 W5 _ [-> ->].
    apply eok_update_object; [done|by eapply has_def_in|done| |done].
    intros sz o L (? & Hi & Hjo & ? & ?). pose proof (def_in_mono L _ Hdin). split_and!; try done; simpl.
    + apply Forall_app. split; [done|by constructor].
    + apply Forall_app. split; [done|by apply Hj].
  - eapply (eok_bind _ _ _ _ _ (λ d' c', c' = c3 ∧ d' = FInterface id')); [by eapply eok_definition_at|]. intros d' c5 W5 _ [-> ->].
    apply eok_update_interface; [done|by eapply has_def_in|done| |done].
    intros sz o L (? & Hi & Hjo & ? & ?). pose proof (def_in_mono L _ Hdin). split_and!; try done; simpl.
    + apply Forall_app. split; [done|by constructor].
    + apply Forall_app. split; [done|by apply Hj].
Qed.

(** ** Input values *)
Definition values_done c : Prop :=
  Forall2 (value_emitted sg ir) (input_value_definitions (ir_tables ir)) (fg_input_value_definitions (out c)).
Lemma values_done_mono c c' : ewf c' → egrows c c' → values_done c → values_done c'.
Proof.
  intros W G Hv. destruct (e_values _ _ _ W) as [E|]; [|done]. unfold values_done. rewrite E.
  assert (fg_input_value_definitions (out c) = []) as E'.
  { apply elem_of_nil_inv. intros v [i Hi]%list_elem_of_lookup. destruct (eg_values _ _ _ _ G i v Hi) as (v' & Hv' & _).
    by rewrite E in Hv'. }
  unfold values_done in Hv. by rewrite E' in Hv.
Qed.
Lemma range_in_ir c r : values_ok ir r → range_in (z_values (sizes c)) r.
Proof. done. Qed.
Lemma opt_in_ir c o : ewf c → str_opt ir o → opt_lt (z_strings (sizes c)) o.
Proof. intros W Ho i Hi. by apply (ir_str_in sg ir c), Ho. Qed.
Lemma eok_input_value c v :
  ewf c → v ∈ input_value_definitions (ir_tables ir) →
  eok c (emit_input_value sg v c) (λ fv c', value_emitted sg ir v fv ∧ input_value_in (sizes c') fv).
Proof.
  intros W Hv. pose proof (w_values _ _ Hir) as HF. rewrite Forall_forall in HF.
  destruct (HF v Hv) as (Hn & Hd & Hdir & _ & Hdef). unfold emit_input_value.
  eapply eok_bind; [apply eok_field_type; [done|done|by apply (em_values _ _ Hem)]|]. intros ty c1 W1 G1 Hty. cbn beta in Hty.
  eapply (eok_bind _ _ _ _ _ (λ d c', ∀ x, d = Some x → value_in (sizes c') x)).
  { apply (eok_omapM _ _ (λ x c', value_in (sizes c') x)); [|done]. intros x Hx. apply eok_value; [done|by apply Hdef]. }
  intros d c2 W2 G2 Hdv. apply eok_ret; [done|]. split; [done|]. split_and!; simpl.
  - by apply (ir_str_in sg ir c2).
  - by eapply typed_as_in.
  - done.
  - by apply opt_in_ir.
  - done.
Qed.
Lemma eok_input_values c :
  ewf c → eok c (emit_input_value_definitions sg (input_value_definitions (ir_tables ir)) c) (λ _ c', values_done c').
Proof.
  intros W. unfold emit_input_value_definitions.
  eapply eok_bind; [apply (eok_mapM _ _ (λ v fv c, value_emitted sg ir v fv ∧ input_value_in (sizes c) fv)); [| |done]|].
  - intros v fv c1 c2 G [? ?]. split; [done|]. eapply input_value_in_mono; [|done]. apply G.
  - intros v c1 Hv W1. by apply eok_input_value.
  - intros l c1 W1 _ HF. cbn beta in HF. unfold modify_out.
    assert (Forall2 (value_emitted sg ir) (input_value_definitions (ir_tables ir)) l) as HE.
    { eapply Forall2_impl; [exact HF|]. by intros v fv [? _]. }
    match goal with |- eok _ (Ret (_, ?c')) _ => assert (egrows c1 c') as G end.
    { split; simpl; try done; [intros i f Hf; exists f; split; [done|apply same_core_refl]|].
      intros i v Hi. destruct (e_values _ _ _ W1) as [E|HE']; [by rewrite E in Hi|].
      eapply Forall2_lookup_r in HE' as (x & Hx & Hn & Ht & _); [|exact Hi].
      eapply Forall2_lookup_l in HE as (v' & Hv' & Hn' & Ht' & _); [|exact Hx].
      exists v'. split; [done|]. split; [congruence|]. by eapply typed_as_definition. }
    split_and!; [|done|done]. pose proof W1 as [W2 W3 W4 W5 W6 W7 W8 W9 W10 W11 W12 W13 W14]. split; try done; simpl.
    + destruct W4. split; try done. simpl. clear -HF. induction HF as [|v fv ? ? [_ ?]]; by constructor.
    + by right.
Qed.

(** ** Selections *)
Lemma position_Some {A} (p : A → bool) l i x :
  l !! i = Some x → p x = true → ∃ j y, position p l = Some j ∧ l !! j = Some y ∧ p y = true.
Proof.
  intros Hx Hp. unfold position. destruct (list_find (λ x, p x = true) l) as [[j y]|] eqn:E.
  - apply list_find_Some in E as (Hj & Hy & _). by exists j, y.
  - rewrite list_find_None, Forall_forall in E. by destruct (E x (list_elem_of_lookup_2 _ _ _ Hx)).
Qed.
Lemma position_lt {A} (p : A → bool) l i : position p l = Some i → i < length l.
Proof.
  unfold position. intros Hp. destruct (list_find _ l) as [[j y]|] eqn:E; [|done]. simplify_eq/=.
  apply list_find_Some in E as (Hj & _). by eapply lookup_lt_Some.
Qed.
Lemma input_values_at_done c r :
  values_done c → values_ok ir r →
  input_values_at (out c) r = Ret (take r.2 (drop r.1 (fg_input_value_definitions (out c)))).
Proof.
  intros Hv Hr. unfold input_values_at, slice. apply Forall2_length in Hv. unfold values_ok in Hr.
  rewrite (proj2 (Nat.leb_le _ _)) by lia. rewrite (proj2 (Nat.leb_le _ _)) by lia. simpl.
  by replace (r.1 + r.2 - r.1) with r.2 by lia.
Qed.
(** The argument of the field that a name selects. *)
Lemma argument_position c f n v name :
  ewf c → values_done c → f ∈ ir_fields (ir_tables ir) → argument_of ir f name v → get_index (strings_ir c) n = Some name →
  ∃ i fv, (args ← input_values_at (out c) (fi_arguments f); idx ← unwrap (position (λ a, fiv_name a =? n) args);
            Ret ((fi_arguments f).1 + idx)) = Ret i ∧
    fg_input_value_definitions (out c) !! i = Some fv ∧ i < z_values (sizes c).
Proof.
  intros W Hv Hf (i & Hi & Hiv & Hname) Hn. pose proof (w_fields _ _ Hir) as HF. rewrite Forall_forall in HF.
  destruct (HF f Hf) as (_ & _ & _ & Har & _). rewrite input_values_at_done by done. cbn [mbind res_bind].
  pose proof Hv as Hv2. unfold values_done in Hv2. eapply Forall2_lookup_l in Hv2 as (fv & Hfv & Hnv & _); [|exact Hiv].
  assert (take (fi_arguments f).2 (drop (fi_arguments f).1 (fg_input_value_definitions (out c))) !! i = Some fv) as Hlk.
  { rewrite lookup_take, lookup_drop. by rewrite decide_True. }
  assert (fiv_name fv = n) as En.
  { rewrite Hnv. exact (get_index_inj _ _ n name (e_strings _ _ _ W _ _ Hname) Hn). }
  destruct (position_Some (λ a, fiv_name a =? n) _ i fv Hlk) as (j & y & -> & Hy & _); [by apply Nat.eqb_eq|].
  cbn [expect mbind res_bind]. exists ((fi_arguments f).1 + j), y. split; [done|].
  rewrite lookup_take, lookup_drop in Hy. case_decide; [|done]. split; [done|].
  apply lookup_lt_Some in Hy. apply Forall2_length in Hv. simpl. lia.
Qed.

(** All fields and input values have been emitted. *)
Definition selectable c : Prop :=
  ∀ d f, field_of ir d f → ∃ n, get_index (strings_ir c) n = Some (str sg (fi_field_name f)) ∧ is_Some (selection_map c !! (d, n)).
Definition ready c : Prop := values_done c ∧ selectable c.
Lemma selectable_mono c c' : egrows c c' → selectable c → selectable c'.
Proof.
  intros G Hs d f Hf. destruct (Hs d f Hf) as (n & Hn & Hi). exists n. split; [by apply (eg_strings _ _ _ _ G)|].
  by apply (eg_select _ _ _ _ G).
Qed.
Lemma ready_mono c c' : ewf c' → egrows c c' → ready c → ready c'.
Proof. intros W G [? ?]. split; [by eapply values_done_mono|by eapply selectable_mono]. Qed.
Lemma field_of_in d f : field_of ir d f → f ∈ ir_fields (ir_tables ir).
Proof. intros [[? _]|(id & name & i & _ & _ & _ & _ & Hi)]; [done|by eapply list_elem_of_lookup_2]. Qed.

(** A loop whose steps keep [ready]. *)
Lemma eok_mapM_ready {A B} (P : B → EmitCtx → Prop) (f : A → E B) l c :
  (∀ y c c', egrows c c' → P y c → P y c') →
  (∀ x c, x ∈ l → ewf c → ready c → eok c (f x c) P) → ewf c → ready c →
  eok c (mapM f l c) (λ ys c', Forall (λ y, P y c') ys).
Proof.
  intros HP Hf W Hr. apply (eok_mapM_inv _ _ ready); [apply ready_mono|done|done|done|done].
Qed.
Lemma selection_in_grows x c c' : egrows c c' → selection_in (sizes c) x → selection_in (sizes c') x.
Proof. intros G. apply selection_in_mono, G. Qed.

Lemma eok_selection_arguments c f ff args :
  ewf c → ready c → f ∈ ir_fields (ir_tables ir) → ff_arguments ff = fi_arguments f →
  Forall (λ nv, ∃ v, argument_of ir f (str sg nv.1) v) args → interned_all sg (arguments_strings args) →
  eok c (mapM (λ nv : StringId * Value,
        arg_name ← emit_string sg nv.1;
        argument ← eread (λ c,
          args ← input_values_at (out c) (ff_arguments ff);
          idx ← unwrap (position (λ arg, fiv_name arg =? arg_name) args);
          Ret ((ff_arguments ff).1 + idx));
        argument_enum_type ← eread (λ c,
          a ← at_index (fg_input_value_definitions (out c)) argument; Ret (as_enum (ft_definition (fiv_type a))));
        value ← insert_value_with_type sg argument_enum_type nv.2;
        mret (argument, value)) args c)
    (λ avs c', Forall (λ av, av.1 < z_values (sizes c') ∧ value_in (sizes c') av.2) avs).
Proof.
  intros W Hr Hf -> HF Hs. apply eok_mapM_ready; [| |done|done].
  - intros av c1 c2 G [? ?]. split; [done|]. eapply value_in_mono; [apply G|done].
  - intros [n v] c1 Hin W1 Hr1. rewrite Forall_forall in HF. destruct (HF _ Hin) as [iv Hiv]. simpl in Hiv. simpl.
    destruct (value_object_strings sg args n v Hs Hin) as [Hn Hv].
    eapply eok_bind; [by apply eok_string|]. intros i c2 W2 G2 Hi. cbn beta in Hi.
    destruct (ready_mono _ _ W2 G2 Hr1) as [Hvd _].
    destruct (argument_position c2 f i iv (str sg n)) as (a & fv & Ha & Hfv & Hlt); [done..|].
    eapply eok_read; [exact Ha|]. eapply eok_read; [unfold at_index; rewrite Hfv; reflexivity|].
    eapply eok_bind; [by apply eok_value|]. intros x c3 W3 G3 Hx. apply eok_ret; [done|]. split; [|done]. exact Hlt.
Qed.
Lemma selections_interned (l : list Selection) : interned_all sg (selections_strings l) → Forall (λ s, interned_all sg (selection_strings s)) l.
Proof.
  unfold interned_all, selections_strings. rewrite Forall_concat. intros HF. apply Forall_forall. intros s Hs.
  rewrite Forall_forall in HF. apply HF. by apply (list_elem_of_fmap_2 selection_strings).
Qed.
Lemma eok_selection s d c :
  ewf c → ready c → resolves_on sg ir d s → interned_all sg (selection_strings s) →
  eok c (attach_selection_one sg d s c) (λ fs c', selection_in (sizes c') fs).
Proof.
  revert d c. induction s as [n args sub IH|on sub IH] using Selection_nested_ind; intros d c W Hr Hres Hstr;
    cbn [attach_selection_one]; simpl in Hstr.
  - inversion Hres as [? ? ? ? Hex Hall|]; subst. apply Forall_cons in Hstr as [Hn [Hargs Hsub]%Forall_app].
    eapply eok_bind; [by apply eok_string|]. intros i c1 W1 G1 Hi. cbn beta in Hi.
    pose proof (ready_mono _ _ W1 G1 Hr) as Hr1. destruct Hex as (f & Hf & Ef).
    destruct (proj2 Hr1 d f Hf) as (n' & Hn' & [fid Hfid]).
    assert (n' = i) as -> by (rewrite Ef in Hn'; exact (get_index_inj _ n' i _ Hn' Hi)).
    destruct (e_select _ _ _ W1 d i fid Hfid) as (f' & ff & Hf' & Hff & Hem' & Hname).
    destruct Hem' as (Hname' & Hty & Hargs' & _).
    assert (str sg (fi_field_name f') = str sg n) as Ef' by (rewrite Hname in Hname'; congruence).
    destruct (Hall f' Hf' Ef') as [Harg Hdeep]. destruct Hty as (t & Ht & Hd & _).
    eapply eok_read; [by rewrite Hfid|]. eapply eok_read; [unfold at_index; rewrite Hff; reflexivity|]. cbv zeta.
    eapply eok_bind; [apply (eok_selection_arguments c1 f' ff args); try done; by eapply field_of_in|].
    intros avs c2 W2 G2 Havs. cbn beta in Havs. pose proof (ready_mono _ _ W2 G2 Hr1) as Hr2.
    eapply eok_bind; [apply (eok_mapM_ready (λ x c, selection_in (sizes c) x)); [intros x c3 c4; apply selection_in_grows| |done|done]|].
    { intros x c3 Hx W3 Hr3. pose proof (selections_interned sub Hsub) as HS. specialize (Hdeep t _ Ht Hd).
      rewrite Forall_forall in IH, HS, Hdeep. by apply IH; auto. }
    intros subs c3 W3 G3 Hsubs. cbn beta in Hsubs. apply eok_ret; [done|]. constructor; [| |done].
    + apply lookup_lt_Some in Hff. pose proof (le_fields _ _ (eg_sizes _ _ _ _ G2)) as L2.
      pose proof (le_fields _ _ (eg_sizes _ _ _ _ G3)) as L3. simpl in *. lia.
    + eapply args_in_mono; [apply G3|apply G3|done].
  - inversion Hres as [|? ? ? d' Hd' Hsub']; subst. apply Forall_cons in Hstr as [Hn Hsub].
    eapply eok_bind; [by apply eok_string|]. intros i c1 W1 G1 Hi. cbn beta in Hi.
    pose proof (ready_mono _ _ W1 G1 Hr) as Hr1.
    eapply (eok_bind _ _ _ _ _ (λ x c', c' = c1 ∧ x = d')); [by eapply eok_definition_at|]. intros x c2 _ _ [-> ->].
    eapply eok_bind; [apply (eok_mapM_ready (λ x c, selection_in (sizes c) x)); [intros x c3 c4; apply selection_in_grows| |done|done]|].
    { intros x c3 Hx W3 Hr3. pose proof (selections_interned sub Hsub) as HS.
      rewrite Forall_forall in IH, HS, Hsub'. by apply IH; auto. }
    intros subs c3 W3 G3 Hsubs. cbn beta in Hsubs. apply eok_ret; [done|]. constructor; [|done]. by eapply has_def_in.
Qed.
Lemma eok_attach_selection l d c :
  ewf c → ready c → Forall (resolves_on sg ir d) l → interned_all sg (selections_strings l) →
  eok c (attach_selection sg l d c) (λ fs c', Forall (selection_in (sizes c')) fs).
Proof.
  intros W Hr HF Hs%selections_interned. unfold attach_selection.
  apply (eok_mapM_ready (λ x c, selection_in (sizes c) x)); [intros x c3 c4; apply selection_in_grows| |done|done].
  intros x c1 Hx W1 Hr1. rewrite Forall_forall in HF, Hs. by apply eok_selection; auto.
Qed.

(** ** Selections of arguments *)
Definition item_opt_in c (o : option ValueSetItem) : Prop := ∀ x, o = Some x → item_in (sizes c) x.
Lemma item_opt_in_grows o c c' : egrows c c' → item_opt_in c o → item_opt_in c' o.
Proof. intros G Ho x Hx. eapply item_in_mono; [apply G|by apply Ho]. Qed.
Lemma item_opts c (l : list (option ValueSetItem)) : Forall (item_opt_in c) l → Forall (item_in (sizes c)) (omap id l).
Proof.
  intros HF. apply Forall_forall. intros x Hx. apply list_elem_of_omap in Hx as (o & Ho & E).
  rewrite Forall_forall in HF. by apply (HF o Ho).
Qed.
Lemma eok_items (f : Selection → E (option ValueSetItem)) l c :
  (∀ x c, x ∈ l → ewf c → ready c → eok c (f x c) (λ o c', item_opt_in c' o)) → ewf c → ready c →
  eok c ((items ← mapM f l; mret (omap id items)) c) (λ items c', Forall (item_in (sizes c')) items).
Proof.
  intros Hf W Hr. eapply eok_bind.
  { apply (eok_mapM_ready (λ o c, item_opt_in c o)); [intros o c1 c2; apply item_opt_in_grows|exact Hf|done|done]. }
  intros items c1 W1 _ Hi. apply eok_ret; [done|]. by apply item_opts.
Qed.
(** The definition of the type of an emitted input value. *)
Lemma value_definition_in c i fv :
  ewf c → fg_input_value_definitions (out c) !! i = Some fv → def_in (sizes c) (ft_definition (fiv_type fv)).
Proof.
  intros W Hi. pose proof (gi_values _ _ (e_graph _ _ _ W)) as HF. by destruct (Forall_lookup_1 _ _ _ _ HF Hi) as (_ & ? & _).
Qed.
Lemma eok_item c i (sub : E (list ValueSetItem)) :
  i < z_values (sizes c) → (∀ c', ewf c' → egrows c c' → eok c' (sub c') (λ items c', Forall (item_in (sizes c')) items)) →
  ewf c → eok c ((s ← sub; mret (Some (MkValueSetItem i s))) c) (λ o c', item_opt_in c' o).
Proof.
  intros Hi Hs W. eapply eok_bind; [apply Hs; [done|reflexivity]|]. intros items c1 W1 _ Hitems.
  apply eok_ret; [done|]. intros x [= <-]. by constructor.
Qed.
Lemma eok_on_input_object s object c :
  ewf c → ready c → object < length (input_objects (ir_tables ir)) → interned_all sg (selection_strings s) →
  eok c (attach_on_input_object_one sg object s c) (λ o c', item_opt_in c' o).
Proof.
  revert object c. induction s as [n args sub IH|on sub IH] using Selection_nested_ind; intros object c W Hr Ho Hstr;
    cbn [attach_on_input_object_one]; simpl in Hstr; [|by apply eok_ret].
  apply Forall_cons in Hstr as [Hn [_ Hsub%selections_interned]%Forall_app].
  eapply eok_bind; [by apply eok_string|]. intros i c1 W1 G1 Hi. cbn beta in Hi.
  pose proof (ready_mono _ _ W1 G1 Hr) as Hr1. destruct (lookup_lt_is_Some_2 _ _ Ho) as [io Hio].
  pose proof (Forall_lookup_1 _ _ _ _ (w_input_objects _ _ Hir) Hio) as (_ & _ & _ & Hrange).
  eapply eok_read.
  { unfold at_index. rewrite (e_input_objects _ _ _ W1), Hio. cbn [expect mbind res_bind].
    rewrite input_values_at_done by (done || apply Hr1). reflexivity. }
  destruct (position _ _) as [idx|] eqn:Ep; cbn [mbind option_bind]; [|by apply eok_ret].
  pose proof (position_lt _ _ _ Ep) as Hlt. rewrite length_take, length_drop in Hlt.
  destruct (lookup_lt_is_Some_2 (fg_input_value_definitions (out c1)) ((io_fields io).1 + idx)) as [fv Hfv]; [lia|].
  pose proof (value_definition_in c1 _ _ W1 Hfv) as Hd.
  eapply eok_read; [unfold at_index; rewrite Hfv; reflexivity|].
  apply eok_item; [apply lookup_lt_Some in Hfv; pose proof (Forall2_length _ _ _ (proj1 Hr1)); simpl; lia| |done].
  intros c2 W2 G2. pose proof (ready_mono _ _ W2 G2 Hr1) as Hr2.
  destruct (ft_definition (fiv_type fv)) as [| | | | |object']; try (apply eok_ret; [done|constructor]).
  apply eok_items; [|done|done]. intros x c3 Hx W3 Hr3. rewrite Forall_forall in IH, Hsub. apply IH; auto.
  simpl in Hd. by rewrite (e_input_objects _ _ _ W1) in Hd.
Qed.
Lemma eok_argument_selection c f fid ff l :
  ewf c → ready c → fg_fields (out c) !! fid = Some ff → emitted sg ir (strings_ir c) f ff → f ∈ ir_fields (ir_tables ir) →
  interned_all sg (selections_strings l) → (∀ n args sub, SField n args sub ∈ l → ∃ v, argument_of ir f (str sg n) v) →
  eok c (attach_argument_selection sg l fid c) (λ items c', Forall (item_in (sizes c')) items).
Proof.
  intros W Hr Hff Hemf Hf Hs%selections_interned Hargs. unfold attach_argument_selection.
  assert (∀ c', egrows c c' → ∃ ff', fg_fields (out c') !! fid = Some ff' ∧ ff_arguments ff' = fi_arguments f) as Hfield.
  { intros c' G. destruct (eg_fields _ _ _ _ G _ _ Hff) as (ff' & Hff' & (_ & _ & Ea & _)). exists ff'. split; [done|].
    rewrite Ea. apply Hemf. }
  eapply (eok_bind _ _ _ _ _ (λ os c', Forall (item_opt_in c') os));
    [|intros items c1 W1 _ Hi; apply eok_ret; [done|by apply item_opts]].
  assert (∀ x, x ∈ l → interned_all sg (selection_strings x)) as Hs' by (rewrite Forall_forall in Hs; exact Hs).
  clear Hs Hff Hemf. induction l as [|x l IH] in c, W, Hr, Hfield, Hargs, Hs' |- *; cbn [mapM]; [apply eok_ret; [done|constructor]|].
  eapply (eok_bind _ _ _ _ _ (λ o c', item_opt_in c' o)).
  - destruct x as [n args sub|]; [|by apply eok_ret]. cbn [attach_argument_one].
    specialize (Hs' (SField n args sub) ltac:(by left)). simpl in Hs'.
    apply Forall_cons in Hs' as [Hn [_ Hsub%selections_interned]%Forall_app].
    destruct (Hargs n args sub) as [v Hv]; [by left|].
    eapply eok_bind; [by apply eok_string|]. intros i c1 W1 G1 Hi. cbn beta in Hi.
    pose proof (ready_mono _ _ W1 G1 Hr) as Hr1. destruct (Hfield c1 G1) as (ff1 & Hff1 & Ea).
    destruct (argument_position c1 f i v (str sg n)) as (a & fv & Ha & Hfv & Hlt); [done|apply Hr1|done..|].
    eapply eok_read; [unfold at_index; rewrite Hff1; cbn [expect mbind res_bind]; rewrite Ea; exact Ha|].
    eapply eok_read; [unfold at_index; rewrite Hfv; reflexivity|]. pose proof (value_definition_in c1 _ _ W1 Hfv) as Hd.
    apply eok_item; [done| |done]. intros c2 W2 G2. pose proof (ready_mono _ _ W2 G2 Hr1) as Hr2.
    destruct (ft_definition (fiv_type fv)) as [| | | | |object']; try (apply eok_ret; [done|constructor]).
    apply eok_items; [|done|done]. intros x c3 Hx W3 Hr3. rewrite Forall_forall in Hsub. apply eok_on_input_object; auto.
    simpl in Hd. by rewrite (e_input_objects _ _ _ W1) in Hd.
  - intros o c1 W1 G1 Ho. pose proof (ready_mono _ _ W1 G1 Hr) as Hr1.
    eapply eok_bind; [apply IH; try done|].
    + intros n args sub Hin. apply (Hargs n args sub). by right.
    + intros c' G. apply Hfield. by etransitivity.
    + intros y Hy. apply Hs'. by right.
    + intros os c2 W2 G2 Hos. cbn beta in Hos. apply eok_ret; [done|]. constructor; [by eapply item_opt_in_grows|done].
Qed.
End selections.
