(* ===== verification/EmitLayout.v ===== *)
(** * Emission: the fields *)
From S2P Require Import Prelude RustStd Wrapping CheckSchema IndexSet FieldTypes Subgraphs Ingest IngestRules IngestProps IngestClaims Walkers ComposeContext ComposeDirectives ComposeTables Compose ComposeInvariant ComposeValidateProps FederatedGraph Emit ComposeFields GraphWf EmitInvariant EmitRules.
Local Open Scope string_scope.
Local Open Scope list_scope.
Local Open Scope nat_scope.

(** ** Code that leaves the graph alone *)
Section keeps_out.
Context `{IndexSet}.
Definition keeps_out {A} (m : E A) : Prop := ∀ c a c', m c = Ret (a, c') → out c' = out c ∧ selection_map c' = selection_map c.
Lemma keeps_out_ret {A} (a : A) : keeps_out (mret a).
Proof. by intros c ? ? [= _ <-]. Qed.
Lemma keeps_out_bind {A B} (m : E A) (f : A → E B) : keeps_out m → (∀ a, keeps_out (f a)) → keeps_out (a ← m; f a).
Proof.
  intros Hm Hf c b c'. unfold mbind, E_bind. destruct (m c) as [[a c1]|] eqn:E1; [|done]. simpl. intros E2.
  destruct (Hm _ _ _ E1) as [<- <-]. by eapply Hf.
Qed.
Lemma keeps_out_read {A} (r : EmitCtx → res A) : keeps_out (eread r).
Proof. intros c a c'. unfold eread. destruct (r c); [|done]. by intros [= _ <-]. Qed.
Lemma keeps_out_str s : keeps_out (emit_str s).
Proof. intros c a c'. unfold emit_str. destruct (intern _ _). by intros [= _ <-]. Qed.
Lemma keeps_out_cache id ty : keeps_out (cache_type id ty).
Proof. by intros c a c' [= _ <-]. Qed.
Lemma keeps_out_mapM {A B} (f : A → E B) l : (∀ x, x ∈ l → keeps_out (f x)) → keeps_out (mapM f l).
Proof.
  induction l as [|x l IH]; intros Hf; [apply keeps_out_ret|]. cbn [mapM].
  apply keeps_out_bind; [apply Hf; by left|]. intros y.
  apply keeps_out_bind; [apply IH; intros z Hz; apply Hf; by right|]. intros ys. apply keeps_out_ret.
Qed.
Lemma keeps_out_omapM {A B} (f : A → E B) o : (∀ x, keeps_out (f x)) → keeps_out (omapM f o).
Proof. intros Hf. destruct o; [|apply keeps_out_ret]. cbn [omapM]. apply keeps_out_bind; [apply Hf|intros ?; apply keeps_out_ret]. Qed.
End keeps_out.
Ltac keeps_out :=
  repeat match goal with
  | |- keeps_out (mret _) => apply keeps_out_ret
  | |- keeps_out (mbind _ _) => apply keeps_out_bind; [|intros ?]
  | |- keeps_out (eread _) => apply keeps_out_read
  | |- keeps_out (elift _) => apply keeps_out_read
  | |- keeps_out (emit_str _) => apply keeps_out_str
  | |- keeps_out (cache_type _ _) => apply keeps_out_cache
  | |- keeps_out (mapM _ _) => apply keeps_out_mapM; intros ? ?
  | |- keeps_out (omapM _ _) => apply keeps_out_omapM; intros ?
  | |- keeps_out (match ?x with _ => _ end) => destruct x
  end.

Section fields.
Context `{IndexSetLaws} (sg : Subgraphs) (Hsg : wf sg) (ir : Ctx) (Hir : ir_wf sg ir) (Hem : emittable sg ir)
  (Hgr : fields_grouped ir).
Implicit Types c : EmitCtx.
Abbreviation eok := (eok sg ir).
Abbreviation ewf := (ewf sg ir).
Abbreviation egrows := (egrows sg ir).
Abbreviation sizes := (sizes sg ir).
Abbreviation has_def := (has_def ir).

Lemma eok_keeps_out {A} c (m : E A) Q :
  keeps_out m → eok c (m c) Q → eok c (m c) (λ a c', Q a c' ∧ out c' = out c ∧ selection_map c' = selection_map c).
Proof.
  intros Hk Hm. destruct (m c) as [[a c']|] eqn:Em; [|done]. destruct Hm as (? & ? & ?). split_and!; try done; by eapply Hk.
Qed.
Lemma keeps_field_type id : keeps_out (insert_field_type sg id).
Proof. unfold insert_field_type, emit_string. keeps_out. Qed.
Lemma keeps_string id : keeps_out (emit_string sg id).
Proof. unfold emit_string. keeps_out. Qed.

(** ** The selections that wait *)
Definition delayed_ok c (x : DelayedSelection) : Prop :=
  ds_field_id x < z_fields (sizes c) ∧ ds_subgraph_id x < length (subgraphs sg) ∧
  Forall (resolves_on sg ir (ds_definition x)) (ds_selection x) ∧ interned_all sg (selections_strings (ds_selection x)).
Definition authorized_ok c (a : AuthorizedField) : Prop :=
  ∃ f ff site, fg_fields (out c) !! af_field_id a = Some ff ∧ emitted sg ir (strings_ir c) f ff ∧
    f ∈ ir_fields (ir_tables ir) ∧ authorized_ sg site = Some (af_directive a) ∧
    (∀ l, authorized_fields (af_directive a) = Some l → Forall (resolves_on sg ir (af_parent a)) l) ∧
    (∀ l, authorized_node (af_directive a) = Some l → Forall (resolves_on sg ir (af_output a)) l) ∧
    (∀ l n args sub, authorized_arguments (af_directive a) = Some l → SField n args sub ∈ l → ∃ v, argument_of ir f (str sg n) v).
Definition delays_ok c (x : Delayed) : Prop :=
  Forall (delayed_ok c) (field_provides x) ∧ Forall (delayed_ok c) (field_requires x) ∧ Forall (authorized_ok c) (field_authorized x).
Lemma delayed_ok_mono c c' x : egrows c c' → delayed_ok c x → delayed_ok c' x.
Proof.
  intros G (? & ? & ? & ?). split_and!; try done. pose proof (le_fields _ _ (eg_sizes _ _ _ _ G)). lia.
Qed.
Lemma authorized_ok_mono c c' x : egrows c c' → authorized_ok c x → authorized_ok c' x.
Proof.
  intros G (f & ff & site & Hff & He & ? & ? & ? & ? & ?). destruct (eg_fields _ _ _ _ G _ _ Hff) as (ff' & Hff' & Hc).
  exists f, ff', site. split_and!; try done. eapply emitted_mono; [apply G|done|done].
Qed.
Lemma delays_ok_mono c c' x : egrows c c' → delays_ok c x → delays_ok c' x.
Proof.
  intros G (HP & HR & HA). split_and!; (eapply Forall_impl; [eassumption|]).
  - intros y. by apply delayed_ok_mono.
  - intros y. by apply delayed_ok_mono.
  - intros y. by apply authorized_ok_mono.
Qed.
Lemma delays_ok_app c a b : delays_ok c a → delays_ok c b → delays_ok c (Delayed_app a b).
Proof. intros (? & ? & ?) (? & ? & ?). split_and!; by apply Forall_app. Qed.
Lemma omap_id_Forall {A} (P : A → Prop) (l : list (option A)) : Forall (λ o, ∀ x, o = Some x → P x) l → Forall P (omap id l).
Proof.
  intros HF. apply Forall_forall. intros x Hx. apply list_elem_of_omap in Hx as (o & Ho & E).
  rewrite Forall_forall in HF. by apply (HF o Ho).
Qed.

(** The field of a subgraph behind an id of a field. *)
Lemma walk_field_ok p :
  field_exists sg p → ∃ t d, definition_fields sg !! p = Some t ∧ walk_field sg p = Ret t ∧
    parent_definition sg p = Ret d ∧ subgraph_id d.2 < length (subgraphs sg) ∧ typed sg (tuple_type t).
Proof.
  intros [t Ht]. destruct p as [d n]. destruct (body_fields _ (wf_bodies _ Hsg) d n t Ht) as (Hd & _ & Hty & _).
  destruct (lookup_lt_is_Some_2 _ _ Hd) as [def Hdef].
  destruct (def_ids _ (wf_definitions _ Hsg) d def Hdef) as (_ & _ & _ & Hs & _).
  exists t, (d, def). unfold walk_field, parent_definition, walk_definition, definition. simpl. rewrite Ht, Hdef. done.
Qed.

Lemma fi_parts f : f ∈ ir_fields (ir_tables ir) → fi_ok sg ir f.
Proof. intros Hf. pose proof (w_fields _ _ Hir) as HF. rewrite Forall_forall in HF. by apply HF. Qed.

Lemma eok_provides c d f fid p :
  ewf c → field_of ir d f → p ∈ fi_provides f → fid < z_fields (sizes c) →
  eok c (provides_of sg fid p c) (λ o c', ∀ x, o = Some x → delayed_ok c' x).
Proof.
  intros W Hf Hp Hfid. pose proof (fi_parts f (field_of_in ir d f Hf)) as (_ & _ & _ & _ & _ & _ & _ & Hprov & _).
  rewrite Forall_forall in Hprov. destruct (walk_field_ok p (Hprov p Hp)) as (t & def & Ht & Hw & Hpar & Hs & [ty Hty]).
  unfold provides_of. eapply eok_lift; [exact Hw|]. destruct (provides_ sg (tuple_directives t)) as [l|] eqn:El; [|by apply eok_ret].
  destruct (em_directives _ _ Hem d f Hf) as (Hpr & _ & _). destruct (Hpr p t l Hp Ht El) as (d' & (ty' & Hty' & Hd') & Hres).
  destruct (represents_inner (store sg) (wf_store _ Hsg) _ _ Hty') as (inn & Hinn & _ & _ & Hn).
  eapply eok_lift; [exact Hinn|].
  eapply eok_bind; [apply eok_string; [done|by exists (base_name ty')]|]. intros i c1 W1 G1 Hi. cbn beta in Hi.
  assert (str sg (inner_name inn) = base_name ty') as E by (unfold str; by rewrite Hn). rewrite E in Hi.
  eapply eok_lift; [exact Hpar|].
  eapply (eok_bind _ _ _ _ _ (λ x c', c' = c1 ∧ x = d')); [by eapply eok_definition_at|]. intros x c2 _ _ [-> ->].
  apply eok_ret; [done|]. intros y [= <-]. split_and!; simpl; [|done|done|].
  - pose proof (le_fields _ _ (eg_sizes _ _ _ _ G1)). simpl in *. lia.
  - by eapply (dir_provides _ _ (wf_directives _ Hsg)).
Qed.
Lemma eok_requires c d f fid p :
  ewf c → field_of ir d f → p ∈ fi_requires f → fid < z_fields (sizes c) →
  eok c (requires_of sg fid d p c) (λ o c', ∀ x, o = Some x → delayed_ok c' x).
Proof.
  intros W Hf Hp Hfid. pose proof (fi_parts f (field_of_in ir d f Hf)) as (_ & _ & _ & _ & _ & _ & _ & _ & Hreq & _).
  rewrite Forall_forall in Hreq. destruct (walk_field_ok p (Hreq p Hp)) as (t & def & Ht & Hw & Hpar & Hs & _).
  unfold requires_of. eapply eok_lift; [exact Hw|]. destruct (requires_ sg (tuple_directives t)) as [l|] eqn:El; [|by apply eok_ret].
  destruct (em_directives _ _ Hem d f Hf) as (_ & Hre & _). eapply eok_lift; [exact Hpar|].
  apply eok_ret; [done|]. intros y [= <-]. split_and!; simpl; [done|done|by eapply Hre|].
  by eapply (dir_requires _ _ (wf_directives _ Hsg)).
Qed.
Lemma eok_authorized c d f fid ff p :
  ewf c → field_of ir d f → p ∈ fi_authorized_directives f → fg_fields (out c) !! fid = Some ff →
  emitted sg ir (strings_ir c) f ff →
  eok c (authorized_of sg d fid (ft_definition (ff_type ff)) p c) (λ o c', ∀ x, o = Some x → authorized_ok c' x).
Proof.
  intros W Hf Hp Hff Hemf. pose proof (fi_parts f (field_of_in ir d f Hf)) as (_ & _ & _ & _ & _ & _ & _ & _ & _ & Hau & _).
  rewrite Forall_forall in Hau. destruct (walk_field_ok p (Hau p Hp)) as (t & def & Ht & Hw & _).
  unfold authorized_of. eapply eok_lift; [exact Hw|]. apply eok_ret; [done|].
  intros x Hx. destruct (authorized_ sg (tuple_directives t)) as [a|] eqn:Ea; simplify_eq/=.
  destruct (em_directives _ _ Hem d f Hf) as (_ & _ & Hd). destruct (Hd p t a Hp Ht Ea) as (H1 & H2 & H3).
  exists f, ff, (tuple_directives t). simpl. split_and!; try done; [by eapply field_of_in|].
  intros l Hl. apply (H2 l); [done|]. destruct Hemf as (_ & (ty & Hty & Hdef & _) & _). by exists ty.
Qed.

Lemma keeps_provides fid p : keeps_out (provides_of sg fid p).
Proof. unfold provides_of, emit_string, definition_at. keeps_out. Qed.
Lemma keeps_requires fid d p : keeps_out (requires_of sg fid d p).
Proof. unfold requires_of. keeps_out. Qed.
Lemma keeps_authorized d fid o p : keeps_out (authorized_of sg d fid o p).
Proof. unfold authorized_of. keeps_out. Qed.

(** ** One field *)
Lemma eok_push_field c ff :
  ewf c → field_in (sizes c) ff →
  eok c (push_field ff c) (λ i c', i = length (fg_fields (out c)) ∧ out c' = set_fields (fg_fields (out c) ++ [ff]) (out c) ∧
    selection_map c' = selection_map c ∧ strings_ir c' = strings_ir c).
Proof.
  intros W Hff. unfold push_field. apply (eok_upd sg ir c); [done| | |done].
  - split; simpl; try done. intros i f Hf. exists f. split; [|apply same_core_refl]. by apply lookup_app_l_Some.
  - intros G. pose proof (upd_grows sg ir c (set_fields (fg_fields (out c) ++ [ff]) (out c))) as HG.
    destruct G. split; simpl; try done. apply Forall_app. split; [done|]. constructor; [|done].
    eapply field_in_mono; [|exact Hff]. apply HG. split; simpl; try done.
    intros i f Hf. exists f. split; [|apply same_core_refl]. by apply lookup_app_l_Some.
Qed.
Lemma eok_select_as c d f i ff :
  ewf c → field_of ir d f → fg_fields (out c) !! i = Some ff → emitted sg ir (strings_ir c) f ff →
  eok c (select_as (d, ff_name ff) i c) (λ _ c', out c' = out c ∧ strings_ir c' = strings_ir c ∧
    is_Some (selection_map c' !! (d, ff_name ff))).
Proof.
  intros W Hf Hff Hemf. unfold select_as.
  match goal with |- eok _ (Ret (_, ?c')) _ => assert (egrows c c') as G end.
  { split; simpl; try done; [intros j x Hx; exists x; split; [done|apply same_core_refl]|intros j x Hx; exists x; by repeat split|].
    intros k Hk. rewrite lookup_insert_is_Some'. by right. }
  split_and!; [|done|done|done|simpl; rewrite lookup_insert_is_Some'; by left].
  destruct W as [W1 W2 W3 W4 W5 W6 W7 W8 W9 W10 W11 W12 W13]. split; try done. simpl.
  intros d' n j. rewrite lookup_insert_Some. intros [[[= <- <-] <-]|[_ Hj]]; [by exists f, ff|by apply W13].
Qed.
Lemma field_in_ir c f ff :
  ewf c → f ∈ ir_fields (ir_tables ir) → emitted sg ir (strings_ir c) f ff → ff_provides ff = [] → ff_requires ff = [] →
  field_in (sizes c) ff.
Proof.
  intros W Hf (Hn & Hty & Ea & Er & Eo & Ed & Ede) Hp Hq.
  destruct (fi_parts f Hf) as (_ & _ & _ & Har & Hdir & Hdesc & Hres & _ & _ & _ & Hov).
  unfold field_in. rewrite Ea, Er, Eo, Ed, Ede, Hp, Hq. split_and!; try done.
  - by eapply str_in.
  - by eapply typed_as_in.
  - eapply Forall_impl; [exact Hov|]. intros o [Hg Ho]. split; [done|]. destruct (override_ir_from o); [done|by apply (ir_str_in sg ir c)].
  - by apply opt_in_ir.
Qed.

Lemma eok_emit_field c d f :
  ewf c → field_of ir d f →
  eok c (emit_field sg d f c) (λ r c', ∃ ff, r.1 = length (fg_fields (out c)) ∧
    out c' = set_fields (fg_fields (out c) ++ [ff]) (out c) ∧ emitted sg ir (strings_ir c') f ff ∧
    is_Some (selection_map c' !! (d, ff_name ff)) ∧ delays_ok c' r.2).
Proof.
  intros W Hf. pose proof (field_of_in ir d f Hf) as Hin. pose proof (fi_parts f Hin) as (_ & Hname & _).
  unfold emit_field.
  eapply eok_bind; [apply eok_keeps_out; [apply keeps_field_type|apply eok_field_type; [done|done|by apply (em_fields _ _ Hem)]]|].
  intros ty c1 W1 G1 [Hty [O1 S1]]. cbn beta in Hty.
  eapply eok_bind; [apply eok_keeps_out; [apply keeps_string|by apply eok_string]|]. intros n c2 W2 G2 [Hn [O2 S2]]. cbn beta in Hn.
  set (ff := MkFField n ty (fi_arguments f) (fi_resolvable_in f) [] [] (fi_overrides f) (fi_composed_directives f) (fi_description f)).
  assert (emitted sg ir (strings_ir c2) f ff) as Hemf by (by split_and!).
  eapply eok_bind; [apply eok_push_field; [done|by eapply field_in_ir]|]. intros fid c3 W3 G3 (-> & O3 & S3 & T3).
  rewrite O2, O1 in O3. assert (fg_fields (out c3) !! length (fg_fields (out c2)) = Some ff) as Hff.
  { rewrite O3, O2, O1. simpl. by apply list_lookup_middle. }
  assert (length (fg_fields (out c2)) < z_fields (sizes c3)) as Hlt by (by eapply lookup_lt_Some).
  set (fid := length (fg_fields (out c2))) in *.
  set (R := λ c, ∃ ff', fg_fields (out c) !! fid = Some ff' ∧ emitted sg ir (strings_ir c) f ff' ∧ ff_type ff' = ty).
  assert (∀ c c', ewf c' → egrows c c' → R c → R c') as HR.
  { intros c4 c5 _ G (ff' & Hff' & He & Et). destruct (eg_fields _ _ _ _ G _ _ Hff') as (ff2 & Hff2 & Hc). exists ff2.
    split_and!; [done|eapply emitted_mono; [apply G|done|done]|]. destruct Hc as (_ & -> & _). done. }
  assert (R c3) as R3 by (exists ff; rewrite T3; done).
  eapply eok_bind; [apply eok_keeps_out; [apply keeps_out_mapM; intros ? _; apply keeps_provides|]|].
  { apply (eok_mapM_inv _ _ R (λ o c', ∀ x, o = Some x → delayed_ok c' x)); [exact HR| | |done|done].
    - intros o c4 c5 G Ho x Hx. eapply delayed_ok_mono; [done|by apply Ho].
    - intros p c4 Hp W4 (ff' & Hff' & _). eapply (eok_provides c4 d f); [done..|by eapply lookup_lt_Some]. }
  intros pr c4 W4 G4 (Hpr & O4 & S4). cbn beta in Hpr. pose proof (HR _ _ W4 G4 R3) as R4.
  eapply eok_bind; [apply eok_keeps_out; [apply keeps_out_mapM; intros ? _; apply keeps_requires|]|].
  { apply (eok_mapM_inv _ _ R (λ o c', ∀ x, o = Some x → delayed_ok c' x)); [exact HR| | |done|done].
    - intros o c5 c6 G Ho x Hx. eapply delayed_ok_mono; [done|by apply Ho].
    - intros p c5 Hp W5 (ff' & Hff' & _). eapply (eok_requires c5 d f); [done..|by eapply lookup_lt_Some]. }
  intros rq c5 W5 G5 (Hrq & O5 & S5). cbn beta in Hrq. pose proof (HR _ _ W5 G5 R4) as R5.
  eapply eok_bind; [apply eok_keeps_out; [apply keeps_out_mapM; intros ? _; apply keeps_authorized|]|].
  { apply (eok_mapM_inv _ _ R (λ o c', ∀ x, o = Some x → authorized_ok c' x)); [exact HR| | |done|done].
    - intros o c6 c7 G Ho x Hx. eapply authorized_ok_mono; [done|by apply Ho].
    - intros p c6 Hp W6 (ff' & Hff' & He & <-). by eapply (eok_authorized c6 d f). }
  intros au c6 W6 G6 (Hau & O6 & S6). cbn beta in Hau.
  assert (out c6 = out c3) as O63 by congruence.
  assert (emitted sg ir (strings_ir c6) f ff) as He6.
  { eapply emitted_mono; [|apply same_core_refl|exact Hemf]. rewrite <-T3.
    etransitivity; [apply G4|]. etransitivity; [apply G5|apply G6]. }
  eapply eok_bind; [apply (eok_select_as c6 d f fid ff); [done|done|by rewrite O63|done]|]. intros u c7 W7 G7 (O7 & T7 & S7).
  apply eok_ret; [done|]. exists ff. unfold delays_ok. split_and!; simpl.
  - unfold fid. by rewrite O2, O1.
  - congruence.
  - by rewrite T7.
  - done.
  - apply omap_id_Forall. eapply Forall_impl; [exact Hpr|]. intros o Ho x Hx.
    eapply delayed_ok_mono; [|by apply Ho]. etransitivity; [exact G5|]. etransitivity; [exact G6|exact G7].
  - apply omap_id_Forall. eapply Forall_impl; [exact Hrq|]. intros o Ho x Hx.
    eapply delayed_ok_mono; [|by apply Ho]. etransitivity; [exact G6|exact G7].
  - apply omap_id_Forall. eapply Forall_impl; [exact Hau|]. intros o Ho x Hx.
    eapply authorized_ok_mono; [|by apply Ho]. exact G7.
Qed.
End fields.

(** ** Emission: the layout of the fields *)

(** The range of the fields of an object or an interface. *)
Definition range_of (g : FederatedGraph) (d : FederatedDefinition) : option Fields :=
  match d with
  | FObject id => fo_fields <$> fg_objects g !! id
  | FInterface id => fif_fields <$> fg_interfaces g !! id
  | _ => None
  end.
(** The number of fields for introspection that follow the fields of [d]. *)
Definition introspection_fields (g : FederatedGraph) (d : FederatedDefinition) : nat :=
  if decide (d = FObject (rot_query (fg_root_operation_types g))) then 2 else 0.

Section layout.
Context `{IndexSetLaws} (sg : Subgraphs) (Hsg : wf sg) (ir : Ctx) (Hir : ir_wf sg ir) (Hem : emittable sg ir)
  (Hgr : fields_grouped ir).
Implicit Types c : EmitCtx.
Abbreviation eok := (eok sg ir).
Abbreviation ewf := (ewf sg ir).
Abbreviation egrows := (egrows sg ir).
Abbreviation sizes := (sizes sg ir).
Abbreviation has_def := (has_def ir).
Abbreviation tables := (ir_tables ir).

(** ** The fields of a group *)
Definition name_le (a b : FieldIr) : Prop := cmp_le (str sg (fi_field_name a)) (str sg (fi_field_name b)).
(** The fields of [d], sorted by name. *)
Definition fields_of_def (d : FederatedDefinition) (fs : list FieldIr) : Prop :=
  StronglySorted name_le fs ∧ ∀ f, f ∈ fs ↔ field_of ir d f.

Lemma object_name_type c id o : ewf c → fg_objects (out c) !! id = Some o →
  ∃ name, type_definition_name (out c) (fo_type_definition_id o) = Ret name ∧ object_name ir id name.
Proof.
  intros W Ho. assert (id < length (objects tables)) as Hlt.
  { apply lookup_lt_Some in Ho. pose proof (f_equal length (e_objects _ _ _ W)) as E. rewrite !length_fmap in E. lia. }
  destruct (w_objects _ _ Hir id Hlt) as (name & o' & Ho' & td & Htd & _ & Hname).
  assert (fo_type_definition_id o = object_type_definition_id o') as E.
  { pose proof (f_equal (.!! id) (e_objects _ _ _ W)) as E. cbn beta in E. rewrite !list_lookup_fmap, Ho, Ho' in E. by injection E. }
  exists name. unfold type_definition_name, at_index. rewrite (e_types _ _ _ W), E, Htd. simpl. rewrite Hname.
  split; [done|]. by exists o', td.
Qed.
Lemma object_name_unique id n n' : object_name ir id n → object_name ir id n' → n = n'.
Proof. intros (o & td & Ho & Htd & <-) (o' & td' & Ho' & Htd' & <-). congruence. Qed.

(** The fields that entity interfaces contribute. *)
Lemma contributed_fields name :
  ∃ fs, mapM_res (λ e : nat * nat, at_index (ir_fields tables) e.2)
          (filter (λ e, in_range name e = true) (btree_set_iter (object_fields_from_entity_interfaces tables))) = Ret fs ∧
    ∀ f, f ∈ fs ↔ ∃ i, (name, i) ∈ object_fields_from_entity_interfaces tables ∧ ir_fields tables !! i = Some f.
Proof.
  set (l := filter _ _). assert (∀ e, e ∈ l ↔ e.1 = name ∧ e ∈ object_fields_from_entity_interfaces tables) as Hl.
  { intros [n i]. unfold l. rewrite list_elem_of_filter, elem_of_btree_set_iter. unfold in_range. simpl.
    rewrite andb_true_iff, Nat.eqb_eq, N.ltb_lt. split; [intros [[-> _] ?]; done|]. intros [-> Hin]. split; [|done]. split; [done|].
    destruct (w_entity_fields _ _ Hir _ _ Hin) as [_ Hi]. pose proof (em_small _ _ Hem) as Hs. lia. }
  assert (∀ e, e ∈ l → is_Some (ir_fields tables !! e.2)) as Hsome.
  { intros [n i] [_ Hin]%Hl. apply lookup_lt_is_Some. by destruct (w_entity_fields _ _ Hir _ _ Hin). }
  assert (∀ f, (∃ i, (name, i) ∈ object_fields_from_entity_interfaces tables ∧ ir_fields tables !! i = Some f) ↔
    ∃ e, e ∈ l ∧ ir_fields tables !! e.2 = Some f) as Hiff.
  { intros f. split; [intros (i & Hi & Hf); exists (name, i); split; [by apply Hl|done]|].
    intros ([n i] & [En Hin]%Hl & Hf). simpl in *. subst n. by exists i. }
  setoid_rewrite Hiff. clear Hiff Hl. induction l as [|e l IH]; simpl.
  { exists []. split; [done|]. set_solver. }
  destruct (Hsome e) as [f Hf]; [by left|]. destruct IH as (fs & E & Hfs); [intros e' He'; apply Hsome; by right|].
  exists (f :: fs). unfold at_index in *. rewrite Hf. simpl. rewrite E. split; [done|].
  intros f'. rewrite elem_of_cons, Hfs. split.
  - intros [->|(e' & He' & Hf')]; [exists e; split; [by left|done]|exists e'; split; [by right|done]].
  - intros (e' & [->|He']%elem_of_cons & Hf'); [left; congruence|right; by exists e'].
Qed.

(** Sorting by the resolved names. *)
Lemma sort_by_name (fs : list FieldIr) :
  Forall (λ f, interned sg (fi_field_name f)) fs →
  ∃ fs', (named ← mapM_res (λ f, s ← string_at sg (fi_field_name f); Ret (s, f)) fs; Ret (sort (H := cmp_on fst) named).*2) = Ret fs' ∧
    StronglySorted name_le fs' ∧ fs' ≡ₚ fs.
Proof.
  intros HF.
  assert (mapM_res (λ f, s ← string_at sg (fi_field_name f); Ret (s, f)) fs = Ret ((λ f, (str sg (fi_field_name f), f)) <$> fs)) as ->.
  { induction HF as [|f fs Hf _ IH]; simpl; [done|]. rewrite string_at_str by done. simpl. by rewrite IH. }
  cbn [mbind res_bind]. eexists. split; [done|]. set (l := (λ f, (str sg (fi_field_name f), f)) <$> fs).
  pose proof (sort_perm (H := cmp_on fst) l) as Hp. split.
  - pose proof (sort_sorted (H := cmp_on fst) l) as Hs.
    assert (Forall (λ e : string * FieldIr, e.1 = str sg (fi_field_name e.2)) (sort (H := cmp_on fst) l)) as Hn.
    { rewrite Hp. unfold l. apply Forall_fmap, Forall_forall. done. }
    clear -Hs Hn. induction Hs as [|e l' Hs IH Hall]; simpl; [constructor|]. apply Forall_cons in Hn as [He Hn].
    constructor; [by apply IH|]. apply Forall_fmap, Forall_forall. intros e' Hin. simpl.
    rewrite Forall_forall in Hall, Hn. specialize (Hall e' Hin). specialize (Hn e' Hin).
    unfold name_le. rewrite <-He, <-Hn. exact Hall.
  - rewrite Hp. unfold l. rewrite <-list_fmap_compose. by rewrite list_fmap_id.
Qed.

(** The groups are the runs, and a group gives the fields of its definition. *)
Lemma group_own d l :
  (d, l) ∈ chunk_by fi_parent_definition (ir_fields tables) →
  (∀ f, f ∈ l ↔ own_field ir d f) ∧ l ≠ [] ∧ parent_exists ir d.
Proof.
  intros Hin. destruct Hgr as [HP HC]. pose proof (consecutive_chunk _ _ _ _ HC Hin) as El.
  pose proof (chunk_by_keys fi_parent_definition (ir_fields tables)) as HK. rewrite Forall_forall in HK.
  destruct (HK _ Hin) as [Hne _]. simpl in Hne. split_and!; [|done|].
  - intros f. rewrite El, list_elem_of_filter. unfold own_field. tauto.
  - destruct l as [|f l]; [done|]. assert (f ∈ f :: l) as Hf by (by left). rewrite El, list_elem_of_filter in Hf.
    destruct Hf as [<- Hf]. rewrite Forall_forall in HP. by apply HP.
Qed.
Lemma group_fields_spec c d l :
  ewf c → (d, l) ∈ chunk_by fi_parent_definition (ir_fields tables) →
  ∃ fs, group_fields sg (out c) (ir_fields tables) (object_fields_from_entity_interfaces tables) d l = Ret fs ∧
    fields_of_def d fs ∧ fs ≠ [].
Proof.
  intros W Hin. destruct (group_own d l Hin) as (Hl & Hne & Hp). unfold group_fields.
  assert (∃ extra, match d with
    | FObject id => o ← at_index (fg_objects (out c)) id;
        object_name ← type_definition_name (out c) (fo_type_definition_id o);
        mapM_res (λ e : nat * nat, at_index (ir_fields tables) e.2)
          (filter (λ e, in_range object_name e = true) (btree_set_iter (object_fields_from_entity_interfaces tables)))
    | _ => Ret [] end = Ret extra ∧ ∀ f, f ∈ extra ↔ contributed ir d f) as (extra & -> & Hextra).
  { destruct d as [|id|id| | |]; try done.
    - assert (id < length (fg_objects (out c))) as Hlt.
      { pose proof (f_equal length (e_objects _ _ _ W)) as E. rewrite !length_fmap in E. simpl in Hp. lia. }
      destruct (lookup_lt_is_Some_2 _ _ Hlt) as [o Ho]. assert (at_index (fg_objects (out c)) id = Ret o) as -> by (unfold at_index; by rewrite Ho). cbn [mbind res_bind].
      destruct (object_name_type c id o W Ho) as (name & -> & Hname). cbn [mbind res_bind].
      destruct (contributed_fields name) as (fs & E & Hfs). exists fs. split; [exact E|]. intros f. rewrite Hfs. split.
      + intros (i & Hi & Hf). exists id, name, i. split_and!; try done. destruct l as [|f' l]; [done|]. exists f'. apply Hl. by left.
      + intros (id' & name' & i & [= <-] & _ & Hname' & Hi & Hf). rewrite (object_name_unique id name name') by done. by exists i.
    - exists []. split; [done|]. intros f. split; [set_solver|]. by intros (? & ? & ? & ? & _). }
  cbn [mbind res_bind]. assert (∀ f, f ∈ l ++ extra ↔ field_of ir d f) as Hall.
  { intros f. rewrite elem_of_app, Hl, Hextra. done. }
  destruct (sort_by_name (l ++ extra)) as (fs & E & Hs & Hperm).
  { apply Forall_forall. intros f Hf%Hall. by destruct (fi_parts sg ir Hir f (field_of_in ir d f Hf)) as (_ & ? & _). }
  exists fs. split; [exact E|]. split; [split; [done|]|].
  - intros f. by rewrite Hperm, Hall.
  - intros ->. symmetry in Hperm. apply Permutation_nil_r in Hperm. by destruct l.
Qed.

(** ** The loop over the fields of a group *)
Definition selected c (d : FederatedDefinition) (f : FieldIr) : Prop :=
  ∃ n, get_index (strings_ir c) n = Some (str sg (fi_field_name f)) ∧ is_Some (selection_map c !! (d, n)).
Lemma selected_mono c c' d f : egrows c c' → selected c d f → selected c' d f.
Proof.
  intros G (n & Hn & Hi). exists n. split; [by apply (eg_strings _ _ _ _ G)|]. by apply (eg_select _ _ _ _ G).
Qed.
Lemma eok_field_loop c d ids dl fs :
  ewf c → (∀ f, f ∈ fs → field_of ir d f) → delays_ok sg ir c dl →
  eok c (emit_field_loop sg d ids dl fs c) (λ r c', ∃ ffs,
    out c' = set_fields (fg_fields (out c) ++ ffs) (out c) ∧ Forall2 (emitted sg ir (strings_ir c')) fs ffs ∧
    (∀ f, f ∈ fs → selected c' d f) ∧ delays_ok sg ir c' r.2 ∧
    r.1 = if decide (fs = []) then ids
          else Some (match ids with Some (start, _) => start | None => length (fg_fields (out c)) end,
                     length (fg_fields (out c)) + length fs - 1)).
Proof.
  induction fs as [|f fs IH] in c, ids, dl |- *; intros W Hf Hd; cbn [emit_field_loop].
  { apply eok_ret; [done|]. exists []. split_and!; [|constructor|set_solver|done|done]. rewrite app_nil_r. by destruct (out c). }
  eapply eok_bind; [apply eok_emit_field; [done..|apply Hf; by left]|]. intros r c1 W1 G1 (ff & Er & Eo & He & Hsel & Hdr).
  eapply eok_wand; [apply IH; [done|intros f' Hf'; apply Hf; by right|]|].
  { apply delays_ok_app; [by eapply delays_ok_mono|done]. }
  intros r2 c2 W2 G2 (ffs & Eo2 & HF & Hs2 & Hd2 & Er2). cbn beta. exists (ff :: ffs). split_and!.
  - rewrite Eo2, Eo. simpl. by rewrite <-(assoc_L (++)).
  - constructor; [|done]. eapply emitted_mono; [apply G2|apply same_core_refl|exact He].
  - intros f' [->|Hf']%elem_of_cons; [|by apply Hs2]. eapply selected_mono; [exact G2|]. exists (ff_name ff). split; [apply He|done].
  - done.
  - rewrite Er2, Er, Eo. simpl. rewrite length_app. simpl. case_decide as En; [subst fs; simpl|];
      destruct ids as [[s e]|]; simpl; do 2 f_equal; lia.
Qed.

(** ** The range of a definition *)
Lemma eok_append_fields c l :
  ewf c → Forall (field_in (sizes c)) l →
  eok c (modify_out (λ g, set_fields (fg_fields g ++ l) g) c)
    (λ _ c', out c' = set_fields (fg_fields (out c) ++ l) (out c) ∧ strings_ir c' = strings_ir c).
Proof.
  intros W Hl. unfold modify_out. assert (graph_step (out c) (set_fields (fg_fields (out c) ++ l) (out c))) as S.
  { split; simpl; try done. intros i f Hf. exists f. split; [|apply same_core_refl]. by apply lookup_app_l_Some. }
  apply (eok_upd sg ir c); [done|done| |done]. intros G. pose proof (upd_grows sg ir c _ S) as HG.
  destruct G. split; simpl; try done. apply Forall_app. split; [done|]. eapply Forall_impl; [exact Hl|].
  intros f. apply field_in_mono. apply HG.
Qed.
Lemma introspection_in c id name :
  def_in (sizes c) (FObject id) → name < z_strings (sizes c) → field_in (sizes c) (introspection_field (FObject id) name).
Proof. intros Hd Hn. unfold field_in, range_in. simpl in *. split_and!; try done; lia. Qed.
Lemma parent_in c d : ewf c → parent_exists ir d → def_in (sizes c) d.
Proof.
  intros W. destruct d as [|id|id| | |]; simpl; try done.
  - pose proof (f_equal length (e_objects _ _ _ W)) as E. rewrite !length_fmap in E. lia.
  - intros Hi. rewrite <-(length_fmap fif_type_definition_id), (e_interfaces _ _ _ W), length_fmap. done.
Qed.
Lemma eok_set_range c d r schema type_ :
  ewf c → parent_exists ir d → fields_in (sizes c) r → schema < z_strings (sizes c) → type_ < z_strings (sizes c) →
  eok c (set_range d r schema type_ c) (λ _ c', ∃ extra, fg_fields (out c') = fg_fields (out c) ++ extra ∧
    range_of (out c') d = Some (r.1, r.2 + introspection_fields (out c) d) ∧
    (∀ d', d' ≠ d → range_of (out c') d' = range_of (out c) d')).
Proof.
  intros W Hp Hr Hs Ht. pose proof (parent_in c d W Hp) as Hd. unfold set_range. eapply eok_read; [done|].
  unfold introspection_fields. destruct d as [|id|id| | |]; try done.
  - destruct (Nat.eqb_spec id (rot_query (fg_root_operation_types (out c)))) as [Eq|Nq].
    + rewrite decide_True by congruence.
      eapply eok_bind; [apply eok_append_fields; [done|]|].
      { repeat constructor; by apply introspection_in. }
      intros u c1 W1 G1 [O1 _]. eapply eok_update_object; [done|by apply (def_in_mono (eg_sizes _ _ _ _ G1))|done| |].
      * intros sz o L (? & ? & ? & ? & ?). split_and!; try done. simpl. unfold fields_in in *. simpl.
        pose proof (le_fields _ _ L) as L1. simpl in L1. rewrite O1 in L1. simpl in L1. rewrite length_app in L1. simpl in L1. simpl in Hr. lia.
      * intros c2 o W2 G2 Ho O2. exists (introspection_field (FObject id) <$> [schema; type_]). rewrite O2, O1 in *. simpl in *.
        split_and!; [done| |].
        -- rewrite list_lookup_insert, decide_True; [done|]. split; [done|by eapply lookup_lt_Some].
        -- intros [|id'|id'| | |] Hne; try done. simpl. rewrite list_lookup_insert_ne by congruence. done.
    + rewrite decide_False by congruence. eapply eok_update_object; [done|done|done| |].
      * intros sz o L (? & ? & ? & ? & ?). split_and!; try done. simpl. by apply (fields_in_mono L).
      * intros c2 o W2 G2 Ho O2. exists []. rewrite O2. simpl. rewrite app_nil_r, Nat.add_0_r. split_and!; [done| |].
        -- rewrite list_lookup_insert, decide_True; [by destruct r|]. split; [done|by eapply lookup_lt_Some].
        -- intros [|id'|id'| | |] Hne; try done. simpl. rewrite list_lookup_insert_ne by congruence. done.
  - rewrite decide_False by done. eapply eok_update_interface; [done|done|done| |].
    + intros sz o L (? & ? & ? & ? & ?). split_and!; try done. simpl. by apply (fields_in_mono L).
    + intros c2 o W2 G2 Ho O2. exists []. rewrite O2. simpl. rewrite app_nil_r, Nat.add_0_r. split_and!; [done| |].
      * rewrite list_lookup_insert, decide_True; [by destruct r|]. split; [done|by eapply lookup_lt_Some].
      * intros [|id'|id'| | |] Hne; try done. simpl. rewrite list_lookup_insert_ne by congruence. done.
Qed.

(** ** Groups *)
Definition laid_out c (d : FederatedDefinition) : Prop :=
  ∃ fs a, fields_of_def d fs ∧ range_of (out c) d = Some (a, a + length fs + introspection_fields (out c) d) ∧
    ∀ j f, fs !! j = Some f → ∃ ff, fg_fields (out c) !! (a + j) = Some ff ∧ emitted sg ir (strings_ir c) f ff.
Lemma introspection_same c c' d : ewf c → ewf c' → introspection_fields (out c') d = introspection_fields (out c) d.
Proof.
  intros W W'. unfold introspection_fields. pose proof (e_query _ _ _ W) as Q. pose proof (e_query _ _ _ W') as Q'.
  rewrite Q in Q'. injection Q' as ->. done.
Qed.
Lemma laid_out_mono c c' d :
  ewf c → ewf c' → egrows c c' → range_of (out c') d = range_of (out c) d → laid_out c d → laid_out c' d.
Proof.
  intros W W' G E (fs & a & Hd & Hr & Hf). exists fs, a. rewrite E, (introspection_same c c' d W W'). split_and!; [done|done|].
  intros j f Hj. destruct (Hf j f Hj) as (ff & Hff & He). destruct (eg_fields _ _ _ _ G _ _ Hff) as (ff' & Hff' & Hc).
  exists ff'. split; [done|]. eapply emitted_mono; [apply G|done|done].
Qed.
Abbreviation group := (λ dl g schema type_, emit_group sg (ir_fields tables) (object_fields_from_entity_interfaces tables) schema type_ dl g).

Lemma eok_group c dl d l schema type_ :
  ewf c → (d, l) ∈ chunk_by fi_parent_definition (ir_fields tables) → delays_ok sg ir c dl →
  schema < z_strings (sizes c) → type_ < z_strings (sizes c) →
  eok c (group dl (d, l) schema type_ c) (λ dl' c', delays_ok sg ir c' dl' ∧ laid_out c' d ∧
    (∀ f, field_of ir d f → selected c' d f) ∧ (∀ d', d' ≠ d → range_of (out c') d' = range_of (out c) d')).
Proof.
  intros W Hin Hd Hs Ht. cbn beta. unfold emit_group. cbn [fst snd].
  destruct (group_fields_spec c d l W Hin) as (fs & Hfs & Hof & Hne). destruct (group_own d l Hin) as (_ & _ & Hp).
  eapply eok_read; [exact Hfs|].
  eapply eok_bind; [apply eok_field_loop; [done|intros f Hf; by apply Hof|done]|].
  intros r c1 W1 G1 (ffs & O1 & HF & Hsel & Hdl & Er). cbn beta. rewrite decide_False in Er by done. rewrite Er.
  pose proof (Forall2_length _ _ _ HF) as Elen. assert (length fs ≠ 0) as Hlen by (by destruct fs).
  eapply eok_bind; [apply eok_set_range; [done|done| | |]|].
  { unfold fields_in. simpl. rewrite O1. simpl. rewrite length_app. lia. }
  { pose proof (le_strings _ _ (eg_sizes _ _ _ _ G1)). lia. }
  { pose proof (le_strings _ _ (eg_sizes _ _ _ _ G1)). lia. }
  intros u c2 W2 G2 (extra & E2 & Hrange & Hother). apply eok_ret; [done|]. split_and!.
  - by eapply delays_ok_mono.
  - exists fs, (length (fg_fields (out c))). split_and!; [done| |].
    + rewrite Hrange, (introspection_same c1 c2 d W1 W2). do 2 f_equal. simpl. lia.
    + intros j f Hj. eapply Forall2_lookup_l in HF as (ff & Hff & He); [|exact Hj]. exists ff. split.
      * rewrite E2, O1. simpl. apply lookup_app_l_Some. rewrite lookup_app_r by lia.
        by replace (length (fg_fields (out c)) + j - length (fg_fields (out c))) with j by lia.
      * eapply emitted_mono; [apply G2|apply same_core_refl|exact He].
  - intros f Hf. eapply selected_mono; [exact G2|]. apply Hsel. by apply Hof.
  - intros d' Hne'. rewrite Hother by done. rewrite O1. by destruct d'.
Qed.
Lemma eok_groups c dl gs schema type_ :
  ewf c → (∀ g, g ∈ gs → g ∈ chunk_by fi_parent_definition (ir_fields tables)) → NoDup gs.*1 → delays_ok sg ir c dl →
  schema < z_strings (sizes c) → type_ < z_strings (sizes c) →
  eok c (emit_groups sg (ir_fields tables) (object_fields_from_entity_interfaces tables) schema type_ dl gs c)
    (λ dl' c', delays_ok sg ir c' dl' ∧ (∀ d, d ∈ gs.*1 → laid_out c' d ∧ ∀ f, field_of ir d f → selected c' d f) ∧
      (∀ d, d ∉ gs.*1 → range_of (out c') d = range_of (out c) d)).
Proof.
  induction gs as [|[d l] gs IH] in c, dl |- *; intros W Hgs HN Hd Hs Ht; cbn [emit_groups].
  { apply eok_ret; [done|]. split_and!; [done|set_solver|done]. }
  apply NoDup_cons in HN as [Hnin HN].
  eapply eok_bind; [apply eok_group; [done|apply Hgs; by left|done|done|done]|].
  intros dl1 c1 W1 G1 (Hd1 & Hl1 & Hs1 & Hr1). pose proof (le_strings _ _ (eg_sizes _ _ _ _ G1)) as Lz.
  eapply eok_wand; [apply IH; [done|intros g Hg; apply Hgs; by right|done|done|lia|lia]|].
  intros dl2 c2 W2 G2 (Hd2 & Hl2 & Hr2). split_and!; [done| |].
  - intros d' [->|Hd']%elem_of_cons; [|by apply Hl2]. simpl in *. split.
    + eapply (laid_out_mono c1); [done|done|done|by apply Hr2|done].
    + intros f Hf. eapply selected_mono; [exact G2|by apply Hs1].
  - intros d' [Hd' Hgs']%not_elem_of_cons. rewrite Hr2 by done. by apply Hr1.
Qed.
End layout.
