(* ===== verification/EmitGraph.v ===== *)
(** * Emission: the whole graph *)
From S2P Require Import Prelude RustStd Wrapping CheckSchema IndexSet FieldTypes Subgraphs Ingest IngestRules IngestProps IngestClaims Walkers ComposeContext ComposeDirectives ComposeTables Compose ComposeInvariant ComposeValidateProps FederatedGraph Emit ComposeFields GraphWf EmitInvariant EmitRules EmitLayout.
Local Open Scope string_scope.
Local Open Scope list_scope.
Local Open Scope nat_scope.

(** ** Code that leaves the ranges of fields alone *)
Section keeps_ranges.
Context `{IndexSet} (sg : Subgraphs).
Definition keeps_ranges {A} (m : E A) : Prop := ∀ c a c', m c = Ret (a, c') → ∀ d, range_of (out c') d = range_of (out c) d.
Lemma keeps_ranges_out {A} (m : E A) : keeps_out m → keeps_ranges m.
Proof. intros Hm c a c' Ec d. by destruct (Hm _ _ _ Ec) as [-> _]. Qed.
Lemma keeps_ranges_bind {A B} (m : E A) (f : A → E B) : keeps_ranges m → (∀ a, keeps_ranges (f a)) → keeps_ranges (a ← m; f a).
Proof.
  intros Hm Hf c b c'. unfold mbind, E_bind. destruct (m c) as [[a c1]|] eqn:E1; [|done]. simpl. intros E2 d.
  rewrite (Hf _ _ _ _ E2), (Hm _ _ _ E1). done.
Qed.
Lemma keeps_ranges_each {A} (f : A → E unit) l : (∀ x, keeps_ranges (f x)) → keeps_ranges (eeach f l).
Proof.
  intros Hf. induction l as [|x l IH]; cbn [eeach]; [apply keeps_ranges_out, keeps_out_ret|].
  apply keeps_ranges_bind; [apply Hf|intros _; exact IH].
Qed.
Lemma keeps_ranges_mapM {A B} (f : A → E B) l : (∀ x, x ∈ l → keeps_ranges (f x)) → keeps_ranges (mapM f l).
Proof.
  induction l as [|x l IH]; intros Hf; [apply keeps_ranges_out, keeps_out_ret|]. cbn [mapM].
  apply keeps_ranges_bind; [apply Hf; by left|]. intros y.
  apply keeps_ranges_bind; [apply IH; intros z Hz; apply Hf; by right|]. intros ys. apply keeps_ranges_out, keeps_out_ret.
Qed.
Lemma keeps_ranges_modify f : (∀ g d, range_of (f g) d = range_of g d) → keeps_ranges (modify_out f).
Proof. intros Hf c a c' [= _ <-] d. apply Hf. Qed.
Lemma keeps_ranges_try f : (∀ g g' d, f g = Ret g' → range_of g' d = range_of g d) → keeps_ranges (try_modify_out f).
Proof.
  intros Hf c a c' Ec d. unfold try_modify_out in Ec. destruct (f (out c)) as [g|] eqn:Eg; [|done]. injection Ec as _ <-.
  by apply Hf.
Qed.
Lemma keeps_ranges_omapM {A B} (f : A → E B) o : (∀ x, keeps_ranges (f x)) → keeps_ranges (omapM f o).
Proof.
  intros Hf. destruct o; [|apply keeps_ranges_out, keeps_out_ret]. cbn [omapM].
  apply keeps_ranges_bind; [apply Hf|intros ?; apply keeps_ranges_out, keeps_out_ret].
Qed.
Lemma keeps_value e v : keeps_out (insert_value_with_type sg e v).
Proof.
  induction v as [s|n|b|b|s|l IH|l IH|] using value_nested_ind; cbn [insert_value_with_type];
    try (unfold emit_string; by keeps_out).
  - apply keeps_out_bind; [|intros ?; apply keeps_out_ret]. induction IH as [|kv l Hkv _ IHl]; cbn [mapM]; [apply keeps_out_ret|].
    apply keeps_out_bind; [apply keeps_out_bind; [apply keeps_string|intros ?; apply keeps_out_bind; [exact Hkv|intros ?; apply keeps_out_ret]]|].
    intros ?. apply keeps_out_bind; [exact IHl|intros ?; apply keeps_out_ret].
  - apply keeps_out_bind; [|intros ?; apply keeps_out_ret]. induction IH as [|v l Hv _ IHl]; cbn [mapM]; [apply keeps_out_ret|].
    apply keeps_out_bind; [exact Hv|]. intros ?. apply keeps_out_bind; [exact IHl|intros ?; apply keeps_out_ret].
Qed.
End keeps_ranges.
Ltac keeps_ranges :=
  repeat match goal with
  | |- keeps_ranges (mbind _ _) => apply keeps_ranges_bind; [|intros ?]
  | |- keeps_ranges (mapM _ _) => apply keeps_ranges_mapM; intros ? ?
  | |- keeps_ranges (eeach _ _) => apply keeps_ranges_each; intros ?
  | |- keeps_ranges (omapM _ _) => apply keeps_ranges_omapM; intros ?
  | |- keeps_ranges (insert_value_with_type _ _ _) => apply keeps_ranges_out, keeps_value
  | |- keeps_ranges (emit_string _ _) => apply keeps_ranges_out, keeps_string
  | |- keeps_ranges (mret _) => apply keeps_ranges_out, keeps_out_ret
  | |- keeps_ranges (eread _) => apply keeps_ranges_out, keeps_out_read
  | |- keeps_ranges (elift _) => apply keeps_ranges_out, keeps_out_read
  | |- keeps_ranges (definition_at _) => apply keeps_ranges_out, keeps_out_read
  | |- keeps_ranges (match ?x with _ => _ end) => destruct x
  | |- keeps_ranges (modify_out _) => apply keeps_ranges_modify; by intros ? []
  end.

Section after_fields.
Context `{IndexSet} (sg : Subgraphs).
Lemma keeps_selection s d : keeps_out (attach_selection_one sg d s).
Proof.
  revert d. induction s as [n args sub IH|on sub IH] using Selection_nested_ind; intros d; cbn [attach_selection_one];
    unfold emit_string, definition_at; keeps_out; first [apply keeps_value|rewrite Forall_forall in IH; by apply IH].
Qed.
Lemma keeps_attach l d : keeps_out (attach_selection sg l d).
Proof. unfold attach_selection. keeps_out. apply keeps_selection. Qed.
Lemma keeps_on_input_object s o : keeps_out (attach_on_input_object_one sg o s).
Proof.
  revert o. induction s as [n args sub IH|on sub IH] using Selection_nested_ind; intros o; cbn [attach_on_input_object_one];
    unfold emit_string; keeps_out; rewrite Forall_forall in IH; by apply IH.
Qed.
Lemma keeps_arguments l f : keeps_out (attach_argument_selection sg l f).
Proof.
  unfold attach_argument_selection, attach_argument_one, attach_selection_on_input_object, emit_string. keeps_out. apply keeps_on_input_object.
Qed.
Lemma ranges_attach l d : keeps_ranges (attach_selection sg l d).
Proof. apply keeps_ranges_out, keeps_attach. Qed.
Lemma ranges_arguments l f : keeps_ranges (attach_argument_selection sg l f).
Proof. apply keeps_ranges_out, keeps_arguments. Qed.
Lemma ranges_update_field i f : keeps_ranges (update_field i f).
Proof. apply keeps_ranges_try. intros g g' d. destruct (update_at _ _ _); [|done]. intros [= <-]. by destruct d. Qed.
Lemma ranges_update_union i f : keeps_ranges (update_union i f).
Proof. apply keeps_ranges_try. intros g g' d. destruct (update_at _ _ _); [|done]. intros [= <-]. by destruct d. Qed.
Lemma ranges_update_object i f : (∀ o, fo_fields (f o) = fo_fields o) → keeps_ranges (update_object i f).
Proof.
  intros Hf. apply keeps_ranges_try. intros g g' d. unfold update_at, at_index. destruct (fg_objects g !! i) as [o|] eqn:Eo; [|done].
  intros [= <-]. destruct d as [|j| | | |]; try done. simpl. rewrite list_lookup_insert. case_decide as Hc; [|done].
  destruct Hc as [<- _]. rewrite Eo. simpl. by rewrite Hf.
Qed.
Lemma ranges_update_interface i f : (∀ o, fif_fields (f o) = fif_fields o) → keeps_ranges (update_interface i f).
Proof.
  intros Hf. apply keeps_ranges_try. intros g g' d. unfold update_at, at_index. destruct (fg_interfaces g !! i) as [o|] eqn:Eo; [|done].
  intros [= <-]. destruct d as [| |j| | |]; try done. simpl. rewrite list_lookup_insert. case_decide as Hc; [|done].
  destruct Hc as [<- _]. rewrite Eo. simpl. by rewrite Hf.
Qed.
Lemma ranges_push_authorized a : keeps_ranges (push_authorized a).
Proof. intros c i c' [= _ <-] d. by destruct d. Qed.

Lemma ranges_delayed add d : keeps_ranges (emit_delayed sg add d).
Proof. unfold emit_delayed. keeps_ranges; [apply ranges_attach|apply ranges_update_field]. Qed.
Lemma ranges_authorized_field a : keeps_ranges (emit_authorized_field sg a).
Proof.
  unfold emit_authorized_field. keeps_ranges; first [apply ranges_attach|apply ranges_arguments|apply ranges_push_authorized|
    unfold insert_value; keeps_ranges].
Qed.
Lemma ranges_unions m j : keeps_ranges (emit_union_members m j).
Proof. unfold emit_union_members, emit_union_member. keeps_ranges. apply ranges_update_union. Qed.
Lemma ranges_keys l : keeps_ranges (emit_keys sg l).
Proof.
  unfold emit_keys, emit_key. keeps_ranges; first [apply ranges_attach|by apply ranges_update_object|by apply ranges_update_interface].
Qed.
Lemma ranges_authorized t : keeps_ranges (emit_authorized_directives sg t).
Proof.
  unfold emit_authorized_directives, emit_object_authorized, emit_interface_authorized, emit_authorized_on.
  keeps_ranges; first [apply ranges_attach|apply ranges_push_authorized|unfold insert_value; keeps_ranges].
Qed.
End after_fields.

Section graph.
Context `{IndexSetLaws} (sg : Subgraphs) (Hsg : wf sg) (ir : Ctx) (Hir : ir_wf sg ir) (Hem : emittable sg ir)
  (Hgr : fields_grouped ir).
Implicit Types c : EmitCtx.
Abbreviation eok := (eok sg ir).
Abbreviation ewf := (ewf sg ir).
Abbreviation egrows := (egrows sg ir).
Abbreviation sizes := (sizes sg ir).
Abbreviation ready := (ready sg ir).
Abbreviation tables := (ir_tables ir).

(** ** The selections that waited *)
Lemma eok_delayed add c x :
  (∀ s f, same_core f (add s f)) → (∀ sz s f, field_selection_in sz s → field_in sz f → field_in sz (add s f)) →
  ewf c → ready c → delayed_ok sg ir c x → eok_any sg ir c (emit_delayed sg add x c).
Proof.
  intros Hc Hin W Hr (Hf & Hs & Hres & Hstr). unfold emit_delayed.
  eapply eok_bind; [by apply eok_attach_selection|]. intros fs c1 W1 G1 Hfs. cbn beta in Hfs.
  apply eok_update_field; [done|pose proof (le_fields _ _ (eg_sizes _ _ _ _ G1)); simpl in *; lia|intros f; apply Hc|].
  intros sz f L Hfin. apply Hin; [|done]. split; simpl.
  - pose proof (le_subgraphs _ _ L). simpl in *. lia.
  - eapply selections_in_mono; [exact L|done].
Qed.
Lemma add_provides_in sz s f : field_selection_in sz s → field_in sz f → field_in sz (add_provides s f).
Proof.
  intros Hs (? & ? & ? & ? & Hp & ? & ? & ? & ?). unfold field_in. simpl. split_and!; try done. apply Forall_app. split; [done|by constructor].
Qed.
Lemma add_requires_in sz s f : field_selection_in sz s → field_in sz f → field_in sz (add_requires s f).
Proof.
  intros Hs (? & ? & ? & ? & ? & Hp & ? & ? & ?). unfold field_in. simpl. split_and!; try done. apply Forall_app. split; [done|by constructor].
Qed.
Lemma eok_all_delayed add c l :
  (∀ s f, same_core f (add s f)) → (∀ sz s f, field_selection_in sz s → field_in sz f → field_in sz (add s f)) →
  ewf c → ready c → Forall (delayed_ok sg ir c) l → eok_any sg ir c (eeach (emit_delayed sg add) l c).
Proof.
  intros Hc Hin W Hr Hl. apply (eok_each _ _ (λ c, ready c ∧ Forall (delayed_ok sg ir c) l)); [| |done|done].
  - intros c1 c2 W2 G [? HF]. split; [by eapply ready_mono|]. eapply Forall_impl; [exact HF|]. intros x. by apply delayed_ok_mono.
  - intros x c1 Hx W1 [Hr1 HF]. rewrite Forall_forall in HF. by apply eok_delayed; auto.
Qed.

(** ** [@authorized] *)
Lemma eok_push_authorized c a :
  ewf c → authorized_in (sizes c) a →
  eok c (push_authorized a c) (λ i c', i < z_authorized (sizes c') ∧ strings_ir c' = strings_ir c).
Proof.
  intros W Ha. unfold push_authorized.
  assert (graph_step (out c) (set_authorized_directives (fg_authorized_directives (out c) ++ [a]) (out c))) as S.
  { split; simpl; try done; [|rewrite length_app; lia]. intros i f Hf. exists f. split; [done|apply same_core_refl]. }
  apply (eok_upd sg ir c); [done|done| |simpl; rewrite length_app; simpl; split; [lia|done]].
  intros G. pose proof (upd_grows sg ir c _ S) as HG. destruct G. split; simpl; try done. apply Forall_app. split; [done|].
  constructor; [|done]. eapply authorized_in_mono; [apply HG|done].
Qed.
(** Appending to one of the three tables of authorized directives. *)
Ltac append_entry :=
  apply (eok_upd sg ir); [done|split; simpl; try done; intros ? ? ?; eexists; split; [eassumption|apply same_core_refl]| |done];
  intros []; split; simpl; try done; apply Forall_app; split; [done|constructor; [|done]]; simpl.
Lemma authorized_interned site a :
  authorized_ sg site = Some a →
  (∀ l, authorized_arguments a = Some l ∨ authorized_fields a = Some l ∨ authorized_node a = Some l → interned_all sg (selections_strings l)) ∧
  (∀ v, authorized_metadata a = Some v → interned_all sg (value_strings v)).
Proof. apply (dir_authorized _ _ (wf_directives _ Hsg)). Qed.

Lemma opt_selections c o c' :
  egrows c c' → (∀ y, o = Some y → Forall (selection_in (sizes c)) y) → opt_in (Forall (selection_in (sizes c'))) o.
Proof. intros G Ho y Hy. eapply selections_in_mono; [apply G|by apply Ho]. Qed.
Lemma eok_authorized_field c a :
  ewf c → ready c → authorized_ok sg ir c a → eok_any sg ir c (emit_authorized_field sg a c).
Proof.
  intros W Hr (f & ff & site & Hff & He & Hf & Hsite & HF & HN & HA). destruct (authorized_interned site _ Hsite) as [Hi Hm].
  unfold emit_authorized_field. cbv zeta.
  eapply eok_bind.
  { apply (eok_omapM _ _ (λ y c', Forall (selection_in (sizes c')) y)); [|done].
    intros l Hl. apply eok_attach_selection; [done..|by apply HF|apply Hi; auto]. }
  intros fs c1 W1 G1 H1. cbn beta in H1. pose proof (ready_mono sg ir _ _ W1 G1 Hr) as Hr1.
  eapply eok_bind.
  { apply (eok_omapM _ _ (λ y c', Forall (selection_in (sizes c')) y)); [|done].
    intros l Hl. apply eok_attach_selection; [done..|by apply HN|apply Hi; auto]. }
  intros node c2 W2 G2 H2. cbn beta in H2. pose proof (ready_mono sg ir _ _ W2 G2 Hr1) as Hr2.
  eapply eok_bind.
  { apply (eok_omapM _ _ (λ y c', value_in (sizes c') y)); [|done]. intros v Hv. apply eok_value; [done..|by apply Hm]. }
  intros meta c3 W3 G3 H3. cbn beta in H3. pose proof (ready_mono sg ir _ _ W3 G3 Hr2) as Hr3.
  assert (egrows c c3) as G03 by (etransitivity; [exact G1|]; etransitivity; [exact G2|exact G3]).
  destruct (eg_fields _ _ _ _ G03 _ _ Hff) as (ff' & Hff' & Hcore).
  eapply eok_bind.
  { apply (eok_omapM _ _ (λ y c', Forall (item_in (sizes c')) y)); [|done]. intros l Hl.
    eapply (eok_argument_selection sg ir Hir c3 f _ ff'); try done.
    - eapply emitted_mono; [apply G03|exact Hcore|exact He].
    - apply Hi. auto.
    - intros n args sub Hin. by eapply HA. }
  intros args c4 W4 G4 H4. cbn beta in H4.
  eapply eok_bind; [apply eok_push_authorized; [done|]|].
  { split_and!; simpl.
    - eapply (opt_selections c1); [|done]. etransitivity; [exact G2|]. etransitivity; [exact G3|exact G4].
    - eapply (opt_selections c2); [|done]. etransitivity; [exact G3|exact G4].
    - done.
    - intros v Hv. eapply value_in_mono; [apply G4|by apply H3]. }
  intros idx c5 W5 G5 [Hidx _]. unfold modify_out. append_entry. split; [|done].
  apply lookup_lt_Some in Hff. pose proof (le_fields _ _ (eg_sizes _ _ _ _ G03)). pose proof (le_fields _ _ (eg_sizes _ _ _ _ G4)).
  pose proof (le_fields _ _ (eg_sizes _ _ _ _ G5)). simpl in *. lia.
Qed.
Lemma eok_authorized_fields c l :
  ewf c → ready c → Forall (authorized_ok sg ir c) l → eok_any sg ir c (eeach (emit_authorized_field sg) l c).
Proof.
  intros W Hr Hl. apply (eok_each _ _ (λ c, ready c ∧ Forall (authorized_ok sg ir c) l)); [| |done|done].
  - intros c1 c2 W2 G [? HF]. split; [by eapply ready_mono|]. eapply Forall_impl; [exact HF|]. intros x. by apply authorized_ok_mono.
  - intros x c1 Hx W1 [Hr1 HF]. rewrite Forall_forall in HF. by apply eok_authorized_field; auto.
Qed.
Lemma eok_authorized_on c d site :
  ewf c → ready c → authorized_site sg site → (∀ a l, authorized_ sg site = Some a → authorized_fields a = Some l → Forall (resolves_on sg ir d) l) →
  eok c (emit_authorized_on sg d site c) (λ i c', i < z_authorized (sizes c')).
Proof.
  intros W Hr [_ Ha] HF. unfold emit_authorized_on, is_authorized in *.
  destruct (authorized_ sg site) as [a|] eqn:Ea; [|done]. destruct (authorized_interned site a Ea) as [Hi Hm].
  eapply eok_lift; [done|]. eapply eok_bind.
  { apply (eok_omapM _ _ (λ y c', value_in (sizes c') y)); [|done]. intros v Hv. apply eok_value; [done..|by apply Hm]. }
  intros meta c1 W1 G1 H1. cbn beta in H1. pose proof (ready_mono sg ir _ _ W1 G1 Hr) as Hr1.
  eapply eok_bind.
  { apply (eok_omapM _ _ (λ y c', Forall (selection_in (sizes c')) y)); [|done].
    intros l Hl. apply eok_attach_selection; [done..|by eapply HF|apply Hi; auto]. }
  intros fs c2 W2 G2 H2. cbn beta in H2. eapply eok_wand; [apply eok_push_authorized; [done|]|by intros i c3 _ _ [? _]].
  split_and!; simpl; try done. intros v Hv. eapply value_in_mono; [apply G2|by apply H1].
Qed.
Lemma eok_authorized_directives c : ewf c → ready c → eok_any sg ir c (emit_authorized_directives sg tables c).
Proof.
  intros W Hr. unfold emit_authorized_directives.
  eapply (eok_bind _ _ _ _ _ (λ _ _, True)).
  - apply (eok_each _ _ ready); [apply ready_mono| |done|done]. intros [id site] c1 Hin W1 Hr1. unfold emit_object_authorized. cbn [fst snd].
    pose proof (w_object_authorized _ _ Hir) as HF. rewrite Forall_forall in HF. destruct (HF _ Hin) as [Hid Hs].
    eapply eok_bind; [apply eok_authorized_on; [done|done|done|]|].
    { intros a l. by apply (em_object_authorized _ _ Hem). }
    intros i c2 W2 _ Hi. unfold modify_out. append_entry. split; [|done]. by apply (fed_in sg ir c2 (FObject id)).
  - intros u c1 W1 G1 _. pose proof (ready_mono sg ir _ _ W1 G1 Hr) as Hr1.
    apply (eok_each _ _ ready); [apply ready_mono| |done|done]. intros [id site] c2 Hin W2 Hr2. unfold emit_interface_authorized. cbn [fst snd].
    pose proof (w_interface_authorized _ _ Hir) as HF. rewrite Forall_forall in HF. destruct (HF _ Hin) as [Hid Hs].
    eapply eok_bind; [apply eok_authorized_on; [done|done|done|]|].
    { intros a l. by apply (em_interface_authorized _ _ Hem). }
    intros i c3 W3 _ Hi. unfold modify_out. append_entry. split; [|done]. by apply (fed_in sg ir c3 (FInterface id)).
Qed.

(** ** Unions and keys *)
Lemma read_definition {B} c n d (f : FederatedDefinition → E B) Q :
  ewf c → ir_definitions_by_name ir !! n = Some d → eok c (f d c) Q → eok c ((x ← definition_at n; f x) c) Q.
Proof. intros W Hd Hf. eapply eok_read; [by rewrite (e_definitions _ _ _ W), Hd|done]. Qed.
Lemma eok_union_members c :
  ewf c → eok_any sg ir c (emit_union_members (union_members tables) (union_join_members tables) c).
Proof.
  intros W. apply (eok_each _ _ (λ _, True)); [done| |done|done]. intros [u ms] c1 Hin W1 _. cbn [fst snd].
  assert (∀ e, e ∈ ms → e.1 = u ∧ e ∈ union_members tables) as Hms.
  { intros e He. pose proof (chunk_by_keys fst (btree_set_iter (union_members tables))) as HK. rewrite Forall_forall in HK.
    destruct (HK _ Hin) as [_ HF]. rewrite Forall_forall in HF. split; [by apply HF|]. apply elem_of_btree_set_iter.
    rewrite <-(chunk_by_concat fst (btree_set_iter (union_members tables))), elem_of_concat_map. by exists (u, ms). }
  assert (∃ d, ir_definitions_by_name ir !! u = Some d) as [d Hd].
  { pose proof (chunk_by_keys fst (btree_set_iter (union_members tables))) as HK. rewrite Forall_forall in HK.
    destruct (HK _ Hin) as [Hne _]. simpl in Hne. destruct ms as [|[u' m] ms]; [done|].
    destruct (Hms (u', m)) as [Eu Hmem]; [by left|]. simpl in Eu. subst u'. by apply (em_members _ _ Hem u m). }
  eapply read_definition; [done|exact Hd|]. destruct d as [| | |id| |]; try by apply eok_ret.
  pose proof (defined_as_in sg ir c1 u (FUnion id) W1 (name_str_ok sg ir Hir u _ Hd)) as Hu.
  destruct (lookup_lt_is_Some_2 (fg_unions (out c1)) id Hu) as [x Hx].
  eapply eok_read; [unfold at_index; by rewrite Hx|].
  apply (eok_each _ _ (λ c, def_in (sizes c) (FUnion id))); [intros c2 c3 _ G; apply def_in_mono, G| |done|done].
  intros [u' m] c2 He W2 Hu2. destruct (Hms _ He) as [Eu Hmem]. simpl in Eu. subst u'. unfold emit_union_member. cbn [fst snd].
  destruct (em_members _ _ Hem u m Hmem) as [_ [dm Hdm]]. eapply read_definition; [done|exact Hdm|].
  destruct dm as [|o| | | |]; try by apply eok_ret. pose proof (defined_as_in sg ir c2 m (FObject o) W2 (name_str_ok sg ir Hir m _ Hdm)) as Ho.
  apply eok_update_union; [done|done|done|]. intros sz y L (? & Hmem' & Hj & ? & ?).
  pose proof (def_in_mono L _ Ho) as Ho'. simpl in Ho'. split_and!; try done; simpl.
  - apply Forall_app. split; [done|by constructor].
  - intros s o'. rewrite elem_of_union, elem_of_list_to_set. intros [Hs|?]; [|by apply Hj].
    apply list_elem_of_fmap in Hs as (s' & [= -> ->] & Hs'). split; [|done].
    destruct (union_join_members tables !! (u, m)) as [l|] eqn:El; simpl in Hs'; [|by apply elem_of_nil in Hs'].
    destruct (w_join_members _ _ Hir _ _ El) as [_ HF]. rewrite Forall_forall in HF. specialize (HF _ Hs').
    pose proof (le_subgraphs _ _ L). unfold subgraph_exists in HF. simpl in *. lia.
Qed.
Lemma eok_keys c : ewf c → ready c → eok_any sg ir c (emit_keys sg (ir_keys tables) c).
Proof.
  intros W Hr. apply (eok_each _ _ ready); [apply ready_mono| |done|done]. intros k c1 Hin W1 Hr1. unfold emit_key.
  pose proof (w_keys _ _ Hir) as HF. rewrite Forall_forall in HF. destruct (HF k Hin) as [Hpar Hk].
  destruct (lookup_lt_is_Some_2 _ _ Hk) as [[did key] Hkey].
  destruct (link_keys _ (wf_links _ Hsg) did key) as [Hdid Hstr]; [by eapply list_elem_of_lookup_2|].
  destruct (em_keys _ _ Hem k _ Hin Hkey) as [Hkind Hres]. eapply eok_lift; [by rewrite Hkey|].
  eapply eok_bind; [by apply eok_attach_selection|]. intros fs c2 W2 G2 Hfs. cbn beta in Hfs.
  destruct (lookup_lt_is_Some_2 _ _ Hdid) as [def Hdef].
  destruct (def_ids _ (wf_definitions _ Hsg) _ _ Hdef) as (_ & _ & _ & Hsub & _).
  eapply eok_lift; [unfold walk_definition, definition; simpl; rewrite Hdef; done|]. cbv zeta.
  assert (∀ sz, sz_le (sizes c2) sz → key_in sz (MkFKey (subgraph_id def) fs (key_is_interface_object k) (key_resolvable k))) as Hkin.
  { intros sz L. split; simpl; [pose proof (le_subgraphs _ _ L); simpl in *; lia|by eapply selections_in_mono]. }
  pose proof (fed_in sg ir c2 _ W2 Hpar) as Hd. destruct Hkind as [id [E|E]]; rewrite E in *.
  - apply eok_update_object; [done|done|done| |done]. intros sz o L (? & ? & ? & ? & ?). split_and!; try done. simpl.
    apply Forall_app. split; [done|]. constructor; [by apply Hkin|done].
  - apply eok_update_interface; [done|done|done| |done]. intros sz o L (? & ? & ? & ? & ?). split_and!; try done. simpl.
    apply Forall_app. split; [done|]. constructor; [by apply Hkin|done].
Qed.

(** ** The fields *)
Definition all_laid_out c : Prop := ∀ d f, own_field ir d f → laid_out sg ir c d.
Lemma chunk_of_field d f : own_field ir d f → d ∈ (chunk_by fi_parent_definition (ir_fields tables)).*1.
Proof. intros [Hf <-]. apply elem_of_chunk_keys. by exists f. Qed.
Lemma own_of_field d f : field_of ir d f → ∃ f', own_field ir d f'.
Proof. intros [Hf|(id & name & i & -> & Hf & _)]; [by exists f|done]. Qed.
Lemma eok_fields c schema type_ :
  ewf c → values_done sg ir c → schema < z_strings (sizes c) → type_ < z_strings (sizes c) →
  eok c (emit_fields sg (ir_fields tables) (object_fields_from_entity_interfaces tables) schema type_ c)
    (λ _ c', ready c' ∧ all_laid_out c').
Proof.
  intros W Hv Hs Ht. unfold emit_fields.
  eapply eok_lift; [apply for_each_field_group_runs; apply Hgr|].
  eapply eok_bind; [apply eok_groups; [done..|apply Hgr|by repeat split; constructor|done|done]|].
  intros dl c1 W1 G1 ((HP & HR & HA) & Hl & _).
  assert (ready c1) as Hr1.
  { split; [by eapply values_done_mono|]. intros d f Hf. destruct (own_of_field d f Hf) as [f' Hf'].
    destruct (Hl d (chunk_of_field d f' Hf')) as [_ Hsel]. by apply Hsel. }
  assert (all_laid_out c1) as HL1 by (intros d f Hf; apply Hl; by eapply chunk_of_field).
  set (X := λ c', ready c' ∧ all_laid_out c').
  assert (∀ (m : E unit) c0, keeps_ranges m → ewf c0 → X c0 → eok_any sg ir c0 (m c0) → eok c0 (m c0) (λ _ c', X c')) as Hkeep.
  { intros m c0 Hm W0 [R0 L0] He. destruct (m c0) as [[u c']|] eqn:Em; [|done]. destruct He as (W' & G' & _).
    split; [done|]. split; [done|]. split; [by eapply ready_mono|]. intros d f Hf. eapply (laid_out_mono _ _ c0); [done|done|done|by eapply Hm|by eapply L0]. }
  eapply eok_bind; [apply Hkeep; [|done|done|by apply eok_all_delayed; auto using add_provides_in]|].
  { apply keeps_ranges_each. intros x. apply ranges_delayed. }
  intros u1 c2 W2 G2 X2. eapply eok_bind; [apply Hkeep; [|done|done|]|].
  { apply keeps_ranges_each. intros x. apply ranges_delayed. }
  { apply eok_all_delayed; [by repeat split|apply add_requires_in|done|exact (proj1 X2)|]. eapply Forall_impl; [exact HR|]. intros x. by apply delayed_ok_mono. }
  intros u2 c3 W3 G3 X3. apply Hkeep; [|done|done|].
  { apply keeps_ranges_each. intros x. apply ranges_authorized_field. }
  apply eok_authorized_fields; [done|exact (proj1 X3)|]. eapply Forall_impl; [exact HA|]. intros x. apply authorized_ok_mono. by etransitivity.
Qed.

(** ** From the intermediate representation to the graph *)
Lemma initial_wf q strings :
  root_query tables = Some q → extends (ir_strings ir) strings →
  ewf (MkEmitCtx (initial_graph ir q) ∅ ∅ (ir_definitions_by_name ir) strings).
Proof.
  intros Hq Hs. set (c0 := MkEmitCtx _ _ _ _ _).
  assert (∀ i, str_ok ir i → i < z_strings (sizes c0)) as Hstr.
  { intros i [s Hi]. apply get_index_lt. exists s. by apply Hs. }
  assert (∀ o, str_opt ir o → opt_lt (z_strings (sizes c0)) o) as Hopt by (intros o Ho i Hi; by apply Hstr, Ho).
  assert (∀ id, fed_ok ir (FObject id) → id < z_objects (sizes c0)) as Hobj.
  { intros id (n & o & Ho & _). simpl. rewrite length_fmap. by eapply lookup_lt_Some. }
  split; try done; simpl.
  - split; simpl; try (by constructor).
    + split_and!; [apply Hobj, (w_roots _ _ Hir); auto|intros id Hid; apply Hobj, (w_roots _ _ Hir); auto|].
      intros id Hid; apply Hobj, (w_roots _ _ Hir); auto.
    + eapply Forall_impl; [apply (w_types _ _ Hir)|]. intros td (? & ? & ?). split_and!; auto.
    + apply Forall_fmap, Forall_lookup. intros i o Ho. destruct (w_objects _ _ Hir i) as (n & o' & Ho' & td & Htd & _); [by eapply lookup_lt_Some|].
      assert (o' = o) as -> by congruence. split_and!; try by constructor. simpl. by eapply lookup_lt_Some.
    + apply Forall_fmap, Forall_lookup. intros i o Ho. destruct (w_interfaces _ _ Hir i) as (n & o' & Ho' & td & Htd & _); [by eapply lookup_lt_Some|].
      assert (o' = o) as -> by congruence. split_and!; try by constructor. simpl. by eapply lookup_lt_Some.
    + apply Forall_fmap. eapply Forall_impl; [apply (w_unions _ _ Hir)|]. intros u (? & ? & ?). split_and!; auto. simpl. set_solver.
    + eapply Forall_impl; [apply (w_input_objects _ _ Hir)|]. intros o (? & ? & ? & ?). split_and!; auto.
    + eapply Forall_impl; [apply (w_enum_values _ _ Hir)|]. intros o ((n & td & Htd & _) & ? & ? & ?). split_and!; auto.
      by eapply lookup_lt_Some.
  - by rewrite <-list_fmap_compose.
  - by rewrite <-list_fmap_compose.
  - by rewrite <-list_fmap_compose.
  - by left.
Qed.

Definition emitted_all c : Prop :=
  all_laid_out c ∧ length (ir_directives ir) ≤ length (fg_directives (out c)) ∧
  length (subgraphs sg) ≤ length (fg_subgraphs (out c)) ∧ values_done sg ir c.
Lemma eok_all c schema type_ :
  ewf c → schema < z_strings (sizes c) → type_ < z_strings (sizes c) →
  eok c (emit_all sg ir schema type_ c) (λ _ c', emitted_all c').
Proof.
  intros W Hs Ht. unfold emit_all. cbv zeta.
  eapply eok_bind; [apply eok_directives_loop; [done..|apply (w_directives _ _ Hir)]|]. intros u1 c1 W1 G1 D1. cbn beta in D1.
  eapply eok_bind; [by apply eok_subgraphs|]. intros u2 c2 W2 G2 S2. cbn beta in S2.
  eapply eok_bind; [by apply eok_interface_impls|]. intros u3 c3 W3 G3 _.
  eapply eok_bind; [by apply eok_input_values|]. intros u4 c4 W4 G4 V4. cbn beta in V4.
  assert (egrows c c4) as G04 by (do 3 (etransitivity; [eassumption|]); done).
  pose proof (le_strings _ _ (eg_sizes _ _ _ _ G04)) as Lz.
  eapply eok_bind; [apply eok_fields; [done|done|lia|lia]|]. intros u5 c5 W5 G5 [R5 L5].
  assert (∀ (m : E unit) c0, keeps_ranges m → ewf c0 → ready c0 ∧ all_laid_out c0 → eok_any sg ir c0 (m c0) →
    eok c0 (m c0) (λ _ c', ready c' ∧ all_laid_out c')) as Hkeep.
  { intros m c0 Hm W0 [R0 L0] He. destruct (m c0) as [[u c']|] eqn:Em; [|done]. destruct He as (W' & G' & _).
    split; [done|]. split; [done|]. split; [by eapply ready_mono|]. intros d f Hf.
    eapply (laid_out_mono _ _ c0); [done|done|done|by eapply Hm|by eapply L0]. }
  eapply eok_bind; [apply Hkeep; [apply ranges_unions|done|done|by apply eok_union_members]|]. intros u6 c6 W6 G6 [R6 L6].
  eapply eok_bind; [apply Hkeep; [apply ranges_keys|done|done|by apply eok_keys]|]. intros u7 c7 W7 G7 [R7 L7].
  eapply eok_wand; [apply Hkeep; [apply ranges_authorized|done|done|by apply eok_authorized_directives]|].
  intros u8 c8 W8 G8 [R8 L8]. assert (egrows c2 c8) as G28 by (do 5 (etransitivity; [eassumption|]); done).
  split_and!; [done| | |apply R8].
  - pose proof (eg_directives _ _ _ _ G2). pose proof (eg_directives _ _ _ _ G28). lia.
  - pose proof (eg_subgraphs _ _ _ _ G28). lia.
Qed.

Lemma federated_strings_lookup (s : iset string) i : into_federated_strings s !! i = get_index s i.
Proof.
  unfold into_federated_strings.
  assert (∀ n k, (∀ j, k ≤ j < k + n → is_Some (get_index s j)) →
    ∀ i, omap (get_index s) (seq k n) !! i = if decide (i < n) then get_index s (k + i) else None) as Hl.
  { induction n as [|n IH]; intros k Hk j; [done|]. cbn [seq omap list_omap]. destruct (Hk k) as [x Hx]; [lia|].
    rewrite Hx. destruct j as [|j]; simpl; [by rewrite Nat.add_0_r|].
    rewrite IH by (intros; apply Hk; lia). repeat case_decide; try lia; [|done]. by rewrite Nat.add_succ_r. }
  rewrite Hl by (intros j Hj; apply get_index_lt; lia). case_decide as Hd; [done|].
  symmetry. apply eq_None_not_Some. by rewrite get_index_lt.
Qed.
Lemma federated_strings_length (s : iset string) : length (into_federated_strings s) = iset_len s.
Proof.
  apply Nat.le_antisymm.
  - destruct (decide (length (into_federated_strings s) ≤ iset_len s)) as [|Hn]; [done|]. exfalso.
    destruct (lookup_lt_is_Some_2 (into_federated_strings s) (iset_len s)) as [x Hx]; [lia|].
    rewrite federated_strings_lookup in Hx. assert (iset_len s < iset_len s) by (apply get_index_lt; by exists x). lia.
  - destruct (iset_len s) as [|n] eqn:En; [lia|]. destruct (proj2 (get_index_lt _ s n)) as [x Hx]; [lia|].
    rewrite <-federated_strings_lookup in Hx. apply lookup_lt_Some in Hx. lia.
Qed.

(** The final context of emission. *)
Lemma emission_ok :
  is_Some (root_query tables) →
  ∃ c, emit_federated_graph sg ir = Ret (set_strings (into_federated_strings (strings_ir c)) (out c)) ∧ ewf c ∧ emitted_all c.
Proof.
  intros [q Hq]. unfold emit_federated_graph.
  pose proof (intern_spec "__schema" (ir_strings ir)) as [Hs1 He1]. destruct (intern "__schema" (ir_strings ir)) as [schema strs1].
  pose proof (intern_spec "__type" strs1) as [Hs2 He2]. destruct (intern "__type" strs1) as [type_ strs2]. simpl in *.
  rewrite Hq. cbn [expect mbind res_bind].
  assert (ewf (MkEmitCtx (initial_graph ir q) ∅ ∅ (ir_definitions_by_name ir) strs2)) as W0 by (apply initial_wf; [done|by etransitivity]).
  pose proof (eok_all _ schema type_ W0) as Hok.
  destruct (emit_all sg ir schema type_ _) as [[[] c]|]; [|destruct Hok].
  - destruct Hok as (W & _ & Hall); [simpl; apply get_index_lt; exists "__schema"; by apply He2|simpl; apply get_index_lt; by exists "__type"|].
    exists c. done.
  - simpl. apply get_index_lt. exists "__schema". by apply He2.
  - simpl. apply get_index_lt. by exists "__type".
Qed.
Lemma final_graph_wf c : ewf c → emitted_all c → graph_wf (set_strings (into_federated_strings (strings_ir c)) (out c)).
Proof.
  intros W (_ & HD & HS & HV). assert (graph_in (sizes c) (set_strings (into_federated_strings (strings_ir c)) (out c))) as G.
  { destruct (e_graph _ _ _ W). by split. }
  unfold graph_wf. eapply graph_in_mono; [|exact G]. apply Forall2_length in HV.
  split; simpl; rewrite ?federated_strings_length; lia.
Qed.
End graph.
