(* ===== verification/DisplayUtils.v ===== *)
(** * [federated-graph]: [render_sdl/display_utils.rs]

    What the two renderers of a federated graph share. Writing to a [String]
    or to the [Formatter] of [with_formatter] does not fail, so that a function
    that writes is modelled by the text it writes, or the panic of the index
    that it uses; [a ⊕ b] writes [a], then [b]. The text of an [f64] and the
    upper case of a character that is not ASCII are parameters: they come from
    the tables of the standard library. *)
From Stdlib Require Import Ascii.
From stdpp Require Import pretty.
From S2P Require Import Prelude RustStd Wrapping CheckSchema IndexSet FieldTypes Subgraphs ComposeContext Walkers ComposeValidate FederatedGraph.
Local Open Scope string_scope.
Local Open Scope list_scope.
Local Open Scope nat_scope.

(** ** Writing *)
Definition cat (a b : res string) : res string := x ← a; y ← b; Ret (x +:+ y).
Declare Scope render_scope.
Delimit Scope render_scope with render.
Infix "⊕" := cat (at level 60, right associativity) : render_scope.
Local Open Scope render_scope.
Fixpoint cat_all (l : list (res string)) : res string :=
  match l with [] => Ret "" | a :: l => a ⊕ cat_all l end.
Abbreviation cat_map f l := (cat_all (f <$> l)).
(** The loops over a [Peekable] that write a separator while there is a next element. *)
Fixpoint cat_sep (sep : string) (l : list (res string)) : res string :=
  match l with
  | [] => Ret ""
  | [a] => a
  | a :: l => a ⊕ Ret sep ⊕ cat_sep sep l
  end.
Fixpoint filter_res {A} (p : A → res bool) (l : list A) : res (list A) :=
  match l with
  | [] => Ret []
  | x :: l => b ← p x; r ← filter_res p l; Ret (if b : bool then x :: r else r)
  end.
Definition write_opt {A} (f : A → res string) (o : option A) : res string :=
  match o with Some x => f x | None => Ret "" end.

Definition newline : string := String (ascii_of_nat 10) "".
Definition INDENT : string := "    ".
Definition RENDERED_BUILTINS : list string := ["ID"; "String"; "Int"; "Float"; "Boolean"].
Definition str_at (g : FederatedGraph) (id : nat) : res string := at_index (fg_strings g) id.

(** ** [write_quoted] *)

(** [char::is_control]: the category Cc. *)
Definition is_control (c : string) : bool :=
  match c with
  | String a EmptyString => (nat_of_ascii a <? 32) || (nat_of_ascii a =? 127)
  | String a (String b EmptyString) => (nat_of_ascii a =? 194) && ascii_in 128 159 b
  | _ => false
  end.
(** [c as u32] for a control character. *)
Definition control_code (c : string) : nat :=
  match c with
  | String a EmptyString => nat_of_ascii a
  | String _ (String b EmptyString) => nat_of_ascii b
  | _ => 0
  end.
(** The format [{:04}]. *)
Definition pad4 (n : nat) : string :=
  let s := pretty n in repeat_str (4 - String.length s) "0" +:+ s.
Definition backslash : string := String (ascii_of_nat 92) "".
Definition escape_char (c : string) : string :=
  if String.eqb c (bytes [13]) then backslash +:+ "r"
  else if String.eqb c (bytes [10]) then backslash +:+ "n"
  else if String.eqb c (bytes [9]) then backslash +:+ "t"
  else if String.eqb c backslash then backslash +:+ backslash
  else if String.eqb c (String dquote "") then backslash +:+ String dquote ""
  else if is_control c then backslash +:+ "u" +:+ pad4 (control_code c)
  else c.
Definition write_quoted (s : string) : string := quoted (String.concat "" (escape_char <$> chars s)).

(** ** [Description] *)

(** [str::lines]. *)
Definition strip_cr (s : string) : string := default s (strip_suffix_char (ascii_of_nat 13) s).
Fixpoint lines_of (pieces : list string) : list string :=
  match pieces with
  | [] => []
  | [last] => if is_empty last then [] else [last]
  | piece :: pieces => strip_cr piece :: lines_of pieces
  end.
Definition lines (s : string) : list string := lines_of (str_split (ascii_of_nat 10) s).
Fixpoint description_lines (indentation : string) (l : list string) : string :=
  match l with
  | [] => ""
  | line :: rest =>
      let line := trim line in
      (if is_empty line && default true (is_empty <$> head rest) then "" else indentation +:+ line +:+ newline)
      +:+ description_lines indentation rest
  end.
Definition triple_quote : string := String dquote (String dquote (String dquote "")).
Definition Description (description indentation : string) : string :=
  indentation +:+ triple_quote +:+ newline
  +:+ description_lines indentation (drop_while is_empty (lines description))
  +:+ indentation +:+ triple_quote +:+ newline.
Definition write_description (description : option nat) (indent : string) (g : FederatedGraph) : res string :=
  write_opt (λ id, s ← str_at g id; Ret (Description s indent)) description.

(** ** Types *)
Definition render_field_type (field_type : FType) (g : FederatedGraph) : res string :=
  name_id ← definition_name_id g (ft_definition field_type);
  name ← str_at g name_id;
  let w := ft_wrapping field_type in
  Ret (repeat_str (Z.to_nat (len w)) "[" +:+ name +:+ (if Wrapping.inner_is_required w then "!" else "")
       +:+ foldr (λ wrapping out, "]" +:+ (if bool_decide (wrapping = RequiredList) then "!" else "") +:+ out) ""
             (list_wrappings w)).

Section display.
Context (f64_fmt : Z → string) (unicode_uppercase : string → string).
Implicit Types g : FederatedGraph.

(** ** Values *)
Fixpoint ValueDisplay g (v : FValue) : res string :=
  match v with
  | FVNull => Ret "null"
  | FVString s => s ← str_at g s; Ret (write_quoted s)
  | FVInt i => Ret (pretty i)
  | FVFloat val => Ret (f64_fmt val)
  | FVUnboundEnumValue val => str_at g val
  | FVEnumValue val => v ← at_index (fg_enum_values g) val; str_at g (ev_value v)
  | FVBoolean true => Ret "true"
  | FVBoolean false => Ret "false"
  | FVObject key_values =>
      Ret "{" ⊕
      cat_sep ", " ((λ kv, (s ← str_at g kv.1; Ret (write_quoted s)) ⊕ Ret ": " ⊕ ValueDisplay g kv.2) <$> key_values)
      ⊕ Ret "}"
  | FVList values => Ret "[" ⊕ cat_map (λ value, ValueDisplay g value ⊕ Ret ", ") values ⊕ Ret "]"
  end.
Definition Arguments_fmt g (arguments : list (nat * FValue)) : res string :=
  match arguments with
  | [] => Ret ""
  | _ =>
      Ret "(" ⊕ cat_sep ", " ((λ nv, str_at g nv.1 ⊕ Ret ": " ⊕ ValueDisplay g nv.2) <$> arguments) ⊕ Ret ")"
  end.

(** ** Selections *)

(** The loop of [BareSelectionSetDisplay]: a separator follows a field only. *)
Definition selection_loop (f : FSelection → res string) : list FSelection → res string :=
  fix go l :=
    match l with
    | [] => Ret ""
    | selection :: rest =>
        f selection ⊕ Ret (match selection, rest with FSField _ _ _, _ :: _ => " " | _, _ => "" end) ⊕ go rest
    end.
Fixpoint bare_selection g (selection : FSelection) : res string :=
  match selection with
  | FSField field arguments subselection =>
      f ← at_index (fg_fields g) field; name ← str_at g (ff_name f);
      arguments ← mapM_res (λ av, v ← at_index (fg_input_value_definitions g) av.1; Ret (fiv_name v, av.2)) arguments;
      Ret name ⊕ Arguments_fmt g arguments ⊕
      match subselection with
      | [] => Ret ""
      | _ => Ret " { " ⊕ selection_loop (bare_selection g) subselection ⊕ Ret " }"
      end
  | FSInlineFragment on subselection =>
      Ret "... on " ⊕ graph_definition_name g on ⊕
      Ret " { " ⊕ selection_loop (bare_selection g) subselection ⊕ Ret " }"
  end.
Definition BareSelectionSetDisplay g (selection_set : list FSelection) : res string :=
  selection_loop (bare_selection g) selection_set.
Definition SelectionSetDisplay g (selection_set : list FSelection) : res string :=
  out ← BareSelectionSetDisplay g selection_set; Ret (write_quoted out).

Fixpoint bare_value_set_item g (field : ValueSetItem) : res string :=
  match field with
  | MkValueSetItem input_value_definition subselection =>
      v ← at_index (fg_input_value_definitions g) input_value_definition; name ← str_at g (fiv_name v);
      Ret name ⊕
      match subselection with
      | [] => Ret ""
      | _ => Ret " { " ⊕ cat_sep " " (bare_value_set_item g <$> subselection) ⊕ Ret " }"
      end
  end.
Definition InputValueDefinitionSetDisplay g (selection_set : list ValueSetItem) : res string :=
  out ← cat_sep " " (bare_value_set_item g <$> selection_set); Ret (write_quoted out).

(** ** [GraphEnumVariantName] *)

(** [char::to_uppercase]. *)
Definition to_uppercase (c : string) : string :=
  match c with
  | String a EmptyString =>
      String (if ascii_in 97 122 a then ascii_of_nat (nat_of_ascii a - 32) else a) EmptyString
  | _ => unicode_uppercase c
  end.
Definition GraphEnumVariantName (name : string) : string :=
  String.concat ""
    ((λ c, if bool_decide (c ∈ ["-"; "_"; " "]) then "_" else to_uppercase c) <$> chars name).

(** ** [DirectiveWriter] *)
Inductive DisplayableArgument :=
| DValue (v : FValue)
| DFieldSet (l : list FSelection)
| DInputValueDefinitionSet (l : list ValueSetItem)
| DGraphEnumVariantName (name : string).
Definition display_argument g (a : DisplayableArgument) : res string :=
  match a with
  | DValue v => ValueDisplay g v
  | DFieldSet l => SelectionSetDisplay g l
  | DInputValueDefinitionSet l => InputValueDefinitionSetDisplay g l
  | DGraphEnumVariantName name => Ret (GraphEnumVariantName name)
  end.
(** The text written so far, and whether a parenthesis is open. *)
Record DirectiveWriter := MkDirectiveWriter { written : string; paren_open : bool }.
Definition writer_new (directive_name : string) : DirectiveWriter :=
  MkDirectiveWriter ("@" +:+ directive_name) false.
Definition arg g (name : string) (value : DisplayableArgument) (w : DirectiveWriter) : res DirectiveWriter :=
  v ← display_argument g value;
  Ret (MkDirectiveWriter (written w +:+ (if paren_open w then ", " else "(") +:+ name +:+ ": " +:+ v) true).
(** [Drop] closes the parenthesis. *)
Definition writer_drop (w : DirectiveWriter) : string := written w +:+ (if paren_open w then ")" else "").
(** A directive with the arguments, in order. *)
Definition write_directive g (name : string) (arguments : list (string * DisplayableArgument)) : res string :=
  w ← fold_res (λ w a, arg g a.1 a.2 w) (writer_new name) arguments; Ret (writer_drop w).

Definition string_lists (l : list (list nat)) : FValue := FVList ((λ p, FVList (FVString <$> p)) <$> l).
Definition write_composed_directive g (directive : FDirective) : res string :=
  match directive with
  | FDAuthenticated => write_directive g "authenticated" []
  | FDInaccessible => write_directive g "inaccessible" []
  | FDDeprecated reason =>
      write_directive g "deprecated" (match reason with Some r => [("reason", DValue (FVString r))] | None => [] end)
  | FDPolicy policies => write_directive g "policy" [("policies", DValue (string_lists policies))]
  | FDRequiresScopes scopes => write_directive g "requiresScopes" [("scopes", DValue (string_lists scopes))]
  | FDOther name arguments =>
      name ← str_at g name;
      w ← fold_res (λ w nv, n ← str_at g nv.1; arg g n (DValue nv.2) w) (writer_new name) arguments;
      Ret (writer_drop w)
  end.
End display.
