(* ===== verification/Rendering.v ===== *)
(** * [federated-graph]: [render_sdl/render_federated_sdl.rs]

    The SDL with the join directives, which is what composition returns. *)
From Stdlib Require Import Ascii.
From S2P Require Import Prelude RustStd Wrapping CheckSchema IndexSet FieldTypes Subgraphs ComposeContext Walkers ComposeValidate FederatedGraph DisplayUtils.
Local Open Scope string_scope.
Local Open Scope list_scope.
Local Open Scope nat_scope.
Local Open Scope render_scope.

(** ** Iteration over a graph *)
Global Instance TypeDefinitionKind_eq_dec : EqDecision TypeDefinitionKind.
Proof. solve_decision. Defined.
Definition indexed {A} (l : list A) : list (nat * A) := imap (λ i x, (i, x)) l.
Definition iter_enums (g : FederatedGraph) : list (TypeDefinitionId * TypeDefinitionRecord) :=
  filter (λ td, bool_decide (td_kind td.2 = TEnum)) (indexed (fg_type_definitions g)).
Definition iter_scalars (g : FederatedGraph) : list (TypeDefinitionId * TypeDefinitionRecord) :=
  filter (λ td, bool_decide (td_kind td.2 = TScalar)) (indexed (fg_type_definitions g)).
(** The search in a list that is sorted by the first component, used for the
    authorized directives of fields, objects and interfaces. *)
Definition authorized_for (g : FederatedGraph) (l : list (nat * nat)) (id : nat) : res (list FAuthorized) :=
  let start := partition_point (λ e, e.1 <? id) l in
  mapM_res (λ e, at_index (fg_authorized_directives g) e.2) (take_while (λ e, e.1 =? id) (drop start l)).
Definition object_authorized_directives (g : FederatedGraph) (id : nat) : res (list FAuthorized) :=
  authorized_for g (fg_object_authorized_directives g) id.
Definition interface_authorized_directives (g : FederatedGraph) (id : nat) : res (list FAuthorized) :=
  authorized_for g (fg_interface_authorized_directives g) id.
Definition object_name_id (g : FederatedGraph) (id : nat) : res nat := definition_name_id g (FObject id).
Definition interface_name_id (g : FederatedGraph) (id : nat) : res nat := definition_name_id g (FInterface id).

Definition write_prelude : string :=
"directive @core(feature: String!) repeatable on SCHEMA

directive @join__owner(graph: join__Graph!) on OBJECT

directive @join__type(
    graph: join__Graph!
    key: String!
    resolvable: Boolean = true
) repeatable on OBJECT | INTERFACE

directive @join__field(
    graph: join__Graph
    requires: String
    provides: String
) on FIELD_DEFINITION

directive @join__graph(name: String!, url: String!) on ENUM_VALUE

directive @join__implements(graph: join__Graph!, interface: String!) repeatable on OBJECT | INTERFACE

directive @join__unionMember(graph: join__Graph!, member: String!) repeatable on UNION
" +:+ newline.

(** The loop that removes the newlines at the end. *)
Fixpoint pop_newlines (s : string) : string :=
  match s with
  | EmptyString => EmptyString
  | String c s =>
      match pop_newlines s with
      | EmptyString => if decide (c = ascii_of_nat 10) then EmptyString else String c EmptyString
      | r => String c r
      end
  end.

Section federated.
Context (f64_fmt : Z → string) (unicode_uppercase : string → string).
Implicit Types g : FederatedGraph.
Abbreviation write_directive := (write_directive f64_fmt unicode_uppercase).
Abbreviation variant_name := (GraphEnumVariantName unicode_uppercase).
Abbreviation SelectionSetDisplay := (SelectionSetDisplay f64_fmt).

Definition subgraph_name g (id : SubgraphId) : res string :=
  s ← at_index (fg_subgraphs g) id; str_at g (fs_name s).

(** ** Directives *)
Definition render_composed_directives g (directives : DirectiveRange) : res string :=
  ds ← directives_at g directives;
  cat_map (λ d, Ret " " ⊕ write_composed_directive f64_fmt unicode_uppercase g d) ds.
Definition render_authorized_directive g (d : FAuthorized) : res string :=
  let some {A} (name : string) (f : A → DisplayableArgument) (o : option A) :=
    match o with Some x => [(name, f x)] | None => [] end in
  Ret " " ⊕
  write_directive g "authorized"
    (some "fields" DFieldSet (fa_fields d) ++ some "node" DFieldSet (fa_node d)
     ++ some "arguments" DInputValueDefinitionSet (fa_arguments d) ++ some "metadata" DValue (fa_metadata d)).
(** [render_join_field] writes the [@join__type] of a key. *)
Definition render_join_field g (key : FKey) : res string :=
  name ← subgraph_name g (fk_subgraph_id key);
  Ret INDENT ⊕
  write_directive g "join__type"
    ([("graph", DGraphEnumVariantName name)]
     ++ (match fk_fields key with [] => [] | fields => [("key", DFieldSet fields)] end)
     ++ (if fk_resolvable key then [] else [("resolvable", DValue (FVBoolean false))])
     ++ (if fk_is_interface_object key then [("isInterfaceObject", DValue (FVBoolean true))] else []))
  ⊕ Ret newline.
Definition render_join_implement g (subgraph_id : SubgraphId) (interface_id : nat) : res string :=
  name ← subgraph_name g subgraph_id; interface ← interface_name_id g interface_id;
  Ret INDENT ⊕
  write_directive g "join__implements"
    [("graph", DGraphEnumVariantName name); ("interface", DValue (FVString interface))].
Definition render_join_member g (subgraph_id : SubgraphId) (object_id : nat) : res string :=
  name ← subgraph_name g subgraph_id; member ← object_name_id g object_id;
  Ret INDENT ⊕
  write_directive g "join__unionMember" [("graph", DGraphEnumVariantName name); ("member", DValue (FVString member))].

(** ** Fields *)
Definition write_default g (o : option FValue) : res string :=
  write_opt (λ d, Ret " = " ⊕ ValueDisplay f64_fmt g d) o.
Definition render_field_arguments g (args : list FInputValue) : res string :=
  match args with
  | [] => Ret ""
  | _ =>
      Ret "(" ⊕
      cat_sep ", "
        ((λ a, str_at g (fiv_name a) ⊕ Ret ": " ⊕ render_field_type (fiv_type a) g ⊕ write_default g (fiv_default a) ⊕
               render_composed_directives g (fiv_directives a)) <$> args)
      ⊕ Ret ")"
  end.
Definition find_selection (subgraph : SubgraphId) (l : list FieldSelection) : option FieldSelection :=
  find (λ s, fsel_subgraph_id s =? subgraph) l.
Definition write_resolvable_in g (field : FField) (subgraph : SubgraphId) : res string :=
  name ← subgraph_name g subgraph;
  Ret (" @join__field(graph: " +:+ variant_name name) ⊕
  write_opt (λ s, Ret ", provides: " ⊕ SelectionSetDisplay g (fsel_fields s)) (find_selection subgraph (ff_provides field)) ⊕
  write_opt (λ s, Ret ", requires: " ⊕ SelectionSetDisplay g (fsel_fields s)) (find_selection subgraph (ff_requires field)) ⊕
  Ret ")".
Definition write_overrides g (field : FField) : res string :=
  cat_map (λ o,
    overrides ← match override_ir_from o with FromSubgraph id => subgraph_name g id | Missing s => str_at g s end;
    let optional_label :=
      match override_ir_label o with
      | Percent _ => ", overrideLabel: " +:+ quoted (label_fmt (override_ir_label o))
      | Unknown => ""
      end in
    name ← subgraph_name g (override_graph o);
    Ret (" @join__field(graph: " +:+ variant_name name +:+ ", override: " +:+ quoted overrides +:+ optional_label +:+ ")"))
    (ff_overrides field).
(** [write_provides] and [write_requires], for the subgraphs in which the field
    is not resolvable. *)
Definition write_selections g (argument : string) (field : FField) (l : list FieldSelection) : res string :=
  cat_map (λ s,
    name ← subgraph_name g (fsel_subgraph_id s);
    Ret (" @join__field(graph: " +:+ variant_name name +:+ ", " +:+ argument +:+ ": ")
    ⊕ SelectionSetDisplay g (fsel_fields s))
    (filter (λ s, fsel_subgraph_id s ∉ ff_resolvable_in field) l).
Definition write_provides g (field : FField) : res string := write_selections g "provides" field (ff_provides field).
Definition write_requires g (field : FField) : res string := write_selections g "requires" field (ff_requires field).
Definition write_authorized g (field_id : nat) : res string :=
  directives ← authorized_for g (fg_field_authorized_directives g) field_id;
  cat_map (render_authorized_directive g) directives.
Definition write_field g (field_id : nat) (field : FField) : res string :=
  field_name ← str_at g (ff_name field);
  field_type ← render_field_type (ff_type field) g;
  args ← (l ← input_values_at g (ff_arguments field); render_field_arguments g l);
  write_description (ff_description field) INDENT g ⊕
  Ret (INDENT +:+ field_name +:+ args +:+ ": " +:+ field_type) ⊕
  cat_map (write_resolvable_in g field) (ff_resolvable_in field) ⊕
  write_provides g field ⊕ write_requires g field ⊕
  render_composed_directives g (ff_composed_directives field) ⊕
  write_overrides g field ⊕ write_authorized g field_id ⊕ Ret newline.
Definition write_input_field g (field : FInputValue) : res string :=
  field_name ← str_at g (fiv_name field);
  field_type ← render_field_type (fiv_type field) g;
  write_description (fiv_description field) INDENT g ⊕
  Ret (INDENT +:+ field_name +:+ ": " +:+ field_type) ⊕
  write_default g (fiv_default field) ⊕ render_composed_directives g (fiv_directives field) ⊕ Ret newline.

(** ** Definitions *)
Definition write_subgraphs_enum g : res string :=
  match fg_subgraphs g with
  | [] => Ret ""
  | subgraphs =>
      Ret ("enum join__Graph" +:+ " {" +:+ newline) ⊕
      cat_map (λ s,
        name_str ← str_at g (fs_name s); url ← str_at g (fs_url s);
        Ret (INDENT +:+ variant_name name_str +:+ " @join__graph(name: " +:+ quoted name_str +:+ ", url: "
             +:+ quoted url +:+ ")" +:+ newline)) subgraphs
      ⊕ Ret ("}" +:+ newline +:+ newline)
  end.
Definition write_scalar g (scalar : TypeDefinitionRecord) : res string :=
  name ← str_at g (td_name scalar);
  write_description (td_description scalar) "" g ⊕
  (if bool_decide (name ∈ RENDERED_BUILTINS) then Ret ""
   else Ret ("scalar " +:+ name) ⊕ render_composed_directives g (td_directives scalar) ⊕ Ret (newline +:+ newline)).
(** [starts_with(..)] of the name of a field. *)
Definition is_introspection g (field : FField) : res bool :=
  name ← str_at g (ff_name field); Ret (bool_decide (is_Some (strip_prefix "__" name))).
Definition write_implements g (interfaces : list nat) : res string :=
  match interfaces with
  | [] => Ret ""
  | _ => Ret " implements " ⊕ cat_sep " & " ((λ id, name_id ← interface_name_id g id; str_at g name_id) <$> interfaces)
  end.
Definition write_join_implements g (join_implements : list (SubgraphId * nat)) (keys : list FKey) : res string :=
  match join_implements with
  | [] => Ret ""
  | _ =>
      cat_map (λ e, Ret newline ⊕ render_join_implement g e.1 e.2) join_implements ⊕
      Ret (match keys with [] => newline | _ => "" end)
  end.
Definition write_object g (id : nat) (object : FObjectRecord) : res string :=
  definition ← at_index (fg_type_definitions g) (fo_type_definition_id object);
  object_name ← str_at g (td_name definition);
  all ← fields_at g (fo_fields object);
  fields ← filter_res (λ f, b ← is_introspection g f.2; Ret (negb b)) (indexed all);
  match fields with
  | [] => Ret (newline +:+ newline)
  | _ =>
      write_description (td_description definition) "" g ⊕
      Ret ("type " +:+ object_name) ⊕ write_implements g (fo_implements_interfaces object) ⊕
      render_composed_directives g (td_directives definition) ⊕
      (ds ← object_authorized_directives g id; cat_map (render_authorized_directive g) ds) ⊕
      write_join_implements g (fo_join_implements object) (fo_keys object) ⊕
      match fo_keys object with
      | [] => Ret " "
      | keys => Ret newline ⊕ cat_map (render_join_field g) keys
      end ⊕
      Ret ("{" +:+ newline) ⊕
      cat_map (λ f, write_field g ((fo_fields object).1 + f.1) f.2) fields ⊕
      Ret ("}" +:+ newline +:+ newline)
  end.
Definition write_interface g (id : nat) (interface : FInterfaceRecord) : res string :=
  definition ← at_index (fg_type_definitions g) (fif_type_definition_id interface);
  interface_name ← str_at g (td_name definition);
  write_description (td_description definition) "" g ⊕
  Ret ("interface " +:+ interface_name) ⊕ write_implements g (fif_implements_interfaces interface) ⊕
  (ds ← interface_authorized_directives g id; cat_map (render_authorized_directive g) ds) ⊕
  render_composed_directives g (td_directives definition) ⊕
  write_join_implements g (fif_join_implements interface) (fif_keys interface) ⊕
  match fif_keys interface with
  | [] => Ret (" {" +:+ newline)
  | keys => Ret newline ⊕ cat_map (render_join_field g) keys ⊕ Ret ("{" +:+ newline)
  end ⊕
  (fields ← fields_at g (fif_fields interface);
   cat_map (λ f, write_field g ((fif_fields interface).1 + f.1) f.2) (indexed fields)) ⊕
  Ret ("}" +:+ newline +:+ newline).
Definition write_enum g (id : TypeDefinitionId) (enum : TypeDefinitionRecord) : res string :=
  enum_name ← str_at g (td_name enum);
  write_description (td_description enum) "" g ⊕
  Ret ("enum " +:+ enum_name) ⊕ render_composed_directives g (td_directives enum) ⊕ Ret (" {" +:+ newline) ⊕
  cat_map (λ v,
    value_name ← str_at g (ev_value v.2);
    write_description (ev_description v.2) INDENT g ⊕
    Ret (INDENT +:+ value_name) ⊕ render_composed_directives g (ev_composed_directives v.2) ⊕ Ret newline)
    (iter_enum_values g id) ⊕
  Ret ("}" +:+ newline +:+ newline).
Definition write_union g (union : FUnionRecord) : res string :=
  union_name ← str_at g (fu_name union);
  write_description (fu_description union) "" g ⊕
  Ret ("union " +:+ union_name) ⊕ render_composed_directives g (fu_composed_directives union) ⊕
  match btree_set_iter (fu_join_members union) with
  | [] => Ret ""
  | members => cat_map (λ e, Ret newline ⊕ render_join_member g e.1 e.2) members ⊕ Ret newline
  end ⊕
  Ret " = " ⊕ cat_sep " | " ((λ m, name_id ← object_name_id g m; str_at g name_id) <$> fu_members union) ⊕
  Ret (newline +:+ newline).
Definition write_input_object g (input_object : InputObjectRecord) : res string :=
  name ← str_at g (io_name input_object);
  write_description (io_description input_object) "" g ⊕
  Ret ("input " +:+ name) ⊕ render_composed_directives g (io_composed_directives input_object) ⊕
  Ret (" {" +:+ newline) ⊕
  (fields ← input_values_at g (io_fields input_object); cat_map (write_input_field g) fields) ⊕
  Ret ("}" +:+ newline +:+ newline).

Definition render_federated_sdl g : res string :=
  sdl ←
    (Ret write_prelude ⊕ write_subgraphs_enum g ⊕
     cat_map (λ s, write_scalar g s.2) (iter_scalars g) ⊕
     cat_map (λ o, write_object g o.1 o.2) (indexed (fg_objects g)) ⊕
     cat_map (λ i, write_interface g i.1 i.2) (indexed (fg_interfaces g)) ⊕
     cat_map (λ e, write_enum g e.1 e.2) (iter_enums g) ⊕
     cat_map (write_union g) (fg_unions g) ⊕
     cat_map (write_input_object g) (fg_input_objects g));
  Ret (pop_newlines sdl +:+ newline).
End federated.

(** ** [federated-graph]: [render_sdl/render_api_sdl.rs]

    The SDL of the schema as its consumers see it. *)

Definition has_inaccessible (g : FederatedGraph) (directives : DirectiveRange) : res bool :=
  ds ← directives_at g directives;
  Ret (existsb (λ d, match d with FDInaccessible => true | _ => false end) ds).
Definition is_public (g : FederatedGraph) (directive : FDirective) : res bool :=
  match directive with
  | FDInaccessible | FDPolicy _ => Ret false
  | FDOther name _ => s ← str_at g name; Ret (negb (String.eqb s "tag"))
  | FDRequiresScopes _ | FDAuthenticated | FDDeprecated _ => Ret true
  end.

(** [write_leading_whitespace]: a block that is not the first one is preceded
    by a newline. A loop skips the blocks that are inaccessible. *)
Fixpoint write_blocks (first_block : bool) (blocks : list (option string)) : string :=
  match blocks with
  | [] => ""
  | None :: blocks => write_blocks first_block blocks
  | Some b :: blocks => (if first_block then "" else newline) +:+ b +:+ write_blocks false blocks
  end.
Definition block_unless (hidden : res bool) (block : res string) : res (option string) :=
  h ← hidden; if h : bool then Ret None else b ← block; Ret (Some b).
Definition write_block (inner : res string) : res string := Ret ("{" +:+ newline) ⊕ inner ⊕ Ret "}".
(** The entries of a block that are not inaccessible. *)
Definition cat_visible {A} (hidden : A → res bool) (f : A → res string) (l : list A) : res string :=
  visible ← filter_res (λ x, h ← hidden x; Ret (negb h)) l; cat_map f visible.

Section api.
Context (f64_fmt : Z → string) (unicode_uppercase : string → string).
Implicit Types g : FederatedGraph.

Definition write_public_directives g (directives : DirectiveRange) : res string :=
  ds ← directives_at g directives;
  public ← filter_res (is_public g) ds;
  cat_map (λ d, Ret " " ⊕ write_composed_directive f64_fmt unicode_uppercase g d) public.
Definition write_enum_variant g (v : EnumValueRecord) : res string :=
  Ret INDENT ⊕ write_description (ev_description v) INDENT g ⊕ str_at g (ev_value v) ⊕
  write_public_directives g (ev_composed_directives v) ⊕ Ret newline.
Definition write_field_arguments g (args : list FInputValue) : res string :=
  match args with
  | [] => Ret ""
  | _ =>
      Ret "(" ⊕
      cat_sep ", "
        ((λ a, str_at g (fiv_name a) ⊕ Ret ": " ⊕ render_field_type (fiv_type a) g ⊕ write_default f64_fmt g (fiv_default a) ⊕
               write_public_directives g (fiv_directives a)) <$> args)
      ⊕ Ret ")"
  end.

Definition api_enum g (id : TypeDefinitionId) (enum : TypeDefinitionRecord) : res (option string) :=
  block_unless (has_inaccessible g (td_directives enum))
    (write_description (td_description enum) "" g ⊕ Ret "enum " ⊕ str_at g (td_name enum) ⊕
     write_public_directives g (td_directives enum) ⊕ Ret " " ⊕
     write_block (cat_visible (λ v, has_inaccessible g (ev_composed_directives v)) (write_enum_variant g)
                    ((iter_enum_values g id).*2)) ⊕
     Ret newline).
(** A field of an object that is not shown. *)
Definition hidden_field g (field : FField) : res bool :=
  b ← is_introspection g field; if b : bool then Ret true else has_inaccessible g (ff_composed_directives field).
Definition api_object_field g (field : FField) : res string :=
  write_description (ff_description field) INDENT g ⊕ Ret INDENT ⊕ str_at g (ff_name field) ⊕
  (args ← input_values_at g (ff_arguments field); write_field_arguments g args) ⊕
  Ret ": " ⊕ render_field_type (ff_type field) g ⊕ write_public_directives g (ff_composed_directives field) ⊕ Ret newline.
Definition api_object g (object : FObjectRecord) : res (option string) :=
  definition ← at_index (fg_type_definitions g) (fo_type_definition_id object);
  block_unless
    (h ← has_inaccessible g (td_directives definition);
     if h : bool then Ret true
     else fields ← fields_at g (fo_fields object);
          visible ← any_res (λ f, h ← hidden_field g f; Ret (negb h)) fields; Ret (negb visible))
    (write_description (td_description definition) "" g ⊕ Ret "type " ⊕ str_at g (td_name definition) ⊕
     write_public_directives g (td_directives definition) ⊕ Ret " " ⊕
     write_block (fields ← fields_at g (fo_fields object); cat_visible (hidden_field g) (api_object_field g) fields) ⊕
     Ret newline).
Definition api_interface_field g (field : FField) : res string :=
  write_description (ff_description field) INDENT g ⊕ Ret INDENT ⊕ str_at g (ff_name field) ⊕
  Ret ": " ⊕ render_field_type (ff_type field) g ⊕
  (args ← input_values_at g (ff_arguments field); write_field_arguments g args) ⊕
  write_public_directives g (ff_composed_directives field) ⊕ Ret newline.
Definition api_interface g (interface : FInterfaceRecord) : res (option string) :=
  definition ← at_index (fg_type_definitions g) (fif_type_definition_id interface);
  block_unless (has_inaccessible g (td_directives definition))
    (write_description (td_description definition) "" g ⊕ Ret "interface " ⊕ str_at g (td_name definition) ⊕
     write_public_directives g (td_directives definition) ⊕ Ret " " ⊕
     write_block (fields ← fields_at g (fif_fields interface);
                  cat_visible (λ f, has_inaccessible g (ff_composed_directives f)) (api_interface_field g) fields) ⊕
     Ret newline).
Definition api_input_field g (field : FInputValue) : res string :=
  write_description (fiv_description field) INDENT g ⊕ Ret INDENT ⊕ str_at g (fiv_name field) ⊕
  Ret ": " ⊕ render_field_type (fiv_type field) g ⊕ write_default f64_fmt g (fiv_default field) ⊕
  write_public_directives g (fiv_directives field) ⊕ Ret newline.
Definition api_input_object g (input_object : InputObjectRecord) : res (option string) :=
  block_unless (has_inaccessible g (io_composed_directives input_object))
    (write_description (io_description input_object) "" g ⊕ Ret "input " ⊕ str_at g (io_name input_object) ⊕
     write_public_directives g (io_composed_directives input_object) ⊕ Ret " " ⊕
     write_block (fields ← input_values_at g (io_fields input_object);
                  cat_visible (λ f, has_inaccessible g (fiv_directives f)) (api_input_field g) fields) ⊕
     Ret newline).
Definition api_union g (union : FUnionRecord) : res (option string) :=
  block_unless (has_inaccessible g (fu_composed_directives union))
    (write_description (fu_description union) "" g ⊕ Ret "union " ⊕ str_at g (fu_name union) ⊕
     write_public_directives g (fu_composed_directives union) ⊕ Ret " =" ⊕
     cat_sep " |" ((λ m, Ret " " ⊕ (name_id ← object_name_id g m; str_at g name_id)) <$> fu_members union) ⊕
     Ret newline).
Definition api_scalar g (scalar : TypeDefinitionRecord) : res (option string) :=
  name ← str_at g (td_name scalar);
  block_unless
    (if bool_decide (name ∈ RENDERED_BUILTINS) then Ret true else has_inaccessible g (td_directives scalar))
    (write_description (td_description scalar) "" g ⊕ Ret ("scalar " +:+ name) ⊕
     write_public_directives g (td_directives scalar) ⊕ Ret newline).

Definition api_blocks g : res (list (option string)) :=
  enums ← mapM_res (λ e, api_enum g e.1 e.2) (iter_enums g);
  objects ← mapM_res (api_object g) (fg_objects g);
  interfaces ← mapM_res (api_interface g) (fg_interfaces g);
  input_objects ← mapM_res (api_input_object g) (fg_input_objects g);
  unions ← mapM_res (api_union g) (fg_unions g);
  scalars ← mapM_res (λ s, api_scalar g s.2) (iter_scalars g);
  Ret (enums ++ objects ++ interfaces ++ input_objects ++ unions ++ scalars).
Definition render_api_sdl g : res string := blocks ← api_blocks g; Ret (write_blocks true blocks).
End api.
