(* ===== verification/RenderProps.v ===== *)
(** * Rendering a well-formed graph does not panic *)
From S2P Require Import Prelude RustStd Wrapping CheckSchema IndexSet FieldTypes Subgraphs ComposeContext Walkers ComposeValidate FederatedGraph GraphWf DisplayUtils Rendering.
Local Open Scope string_scope.
Local Open Scope list_scope.
Local Open Scope nat_scope.
Local Open Scope render_scope.

(** ** Functions that return *)
Definition total {A} (r : res A) : Prop := ∃ a, r = Ret a.
Create HintDb render.
Lemma total_ret {A} (a : A) : total (Ret a).
Proof. by exists a. Qed.
Lemma total_bind {A B} (r : res A) (f : A → res B) : total r → (∀ a, r = Ret a → total (f a)) → total (a ← r; f a).
Proof. intros [a ->] Hf. by apply Hf. Qed.
Lemma total_cat a b : total a → total b → total (a ⊕ b).
Proof. intros [x ->] [y ->]. by eexists. Qed.
Lemma total_cat_map {A} (f : A → res string) l : (∀ x, x ∈ l → total (f x)) → total (cat_map f l).
Proof.
  induction l as [|x l IH]; intros Hf; simpl; [apply total_ret|].
  apply total_cat; [apply Hf; by left|]. apply IH. intros y Hy. apply Hf. by right.
Qed.
Lemma total_cat_sep {A} sep (f : A → res string) l : (∀ x, x ∈ l → total (f x)) → total (cat_sep sep (f <$> l)).
Proof.
  induction l as [|x l IH]; intros Hf; [apply total_ret|].
  assert (total (f x)) as Hx by (apply Hf; by left). destruct l as [|y l]; [done|].
  apply total_cat; [done|]. apply total_cat; [apply total_ret|]. apply IH. intros z Hz. apply Hf. by right.
Qed.
Lemma total_mapM {A B} (f : A → res B) l : (∀ x, x ∈ l → total (f x)) → total (mapM_res f l).
Proof.
  induction l as [|x l IH]; intros Hf; cbn [mapM_res]; [apply total_ret|].
  apply total_bind; [apply Hf; by left|]. intros y _. apply total_bind; [|intros; apply total_ret].
  apply IH. intros z Hz. apply Hf. by right.
Qed.
Lemma filter_res_spec {A} (p : A → res bool) l :
  (∀ x, x ∈ l → total (p x)) → ∃ r, filter_res p l = Ret r ∧ ∀ x, x ∈ r ↔ x ∈ l ∧ p x = Ret true.
Proof.
  induction l as [|x l IH]; intros Hp; cbn [filter_res]; [exists []; split; [done|]; intros x; rewrite elem_of_nil; tauto|].
  destruct (Hp x) as [b Hb]; [by left|]. destruct IH as (r & -> & Hr); [intros y Hy; apply Hp; by right|].
  rewrite Hb. simpl. eexists. split; [done|]. intros y. rewrite elem_of_cons.
  destruct b; rewrite ?elem_of_cons, Hr; (split; [|intros [[->|Hy] Hpy]; [|auto]]); try tauto; try congruence.
  - intros [->|[Hy Hpy]]; auto.
Qed.
Lemma total_filter {A} (p : A → res bool) l : (∀ x, x ∈ l → total (p x)) → total (filter_res p l).
Proof. intros Hp. destruct (filter_res_spec p l Hp) as (r & -> & _). apply total_ret. Qed.
Lemma elem_of_filter_res {A} (p : A → res bool) l r x : filter_res p l = Ret r → x ∈ r → x ∈ l.
Proof.
  revert r. induction l as [|y l IH]; intros r E; cbn [filter_res] in E; [by injection E as <-|].
  destruct (p y) as [b|]; [|done]. destruct (filter_res p l) as [r'|]; [|done]. injection E as <-.
  destruct b; [intros [->|Hx]%elem_of_cons; [by left|]|intros Hx]; right; by eapply IH.
Qed.
Lemma total_any {A} (p : A → res bool) l : (∀ x, x ∈ l → total (p x)) → total (any_res p l).
Proof.
  induction l as [|x l IH]; intros Hp; cbn [any_res]; [apply total_ret|].
  apply total_bind; [apply Hp; by left|]. intros [] _; [apply total_ret|]. apply IH. intros y Hy. apply Hp. by right.
Qed.
Lemma total_fold {A B} (f : B → A → res B) l b : (∀ b x, x ∈ l → total (f b x)) → total (fold_res f b l).
Proof.
  induction l as [|x l IH] in b |- *; intros Hf; cbn [fold_res]; [apply total_ret|].
  apply total_bind; [apply Hf; by left|]. intros c _. apply IH. intros d y Hy. apply Hf. by right.
Qed.
Lemma total_opt {A} (f : A → res string) o : (∀ x, o = Some x → total (f x)) → total (write_opt f o).
Proof. intros Hf. destruct o; [by apply Hf|apply total_ret]. Qed.
Lemma total_at {A} (l : list A) i : i < length l → total (at_index l i).
Proof. intros [x Hx]%lookup_lt_is_Some_2. unfold at_index. rewrite Hx. apply total_ret. Qed.
Lemma at_index_Forall {A} (P : A → Prop) (l : list A) i x : Forall P l → at_index l i = Ret x → P x.
Proof. intros HF E%expect_Ret. by eapply Forall_lookup_1. Qed.
Lemma slice_Forall {A} (P : A → Prop) (l : list A) a b r : Forall P l → slice l a b = Ret r → Forall P r.
Proof.
  intros HF. unfold slice. destruct (_ && _); [|done]. intros [= <-]. by apply Forall_take, Forall_drop.
Qed.
Lemma total_slice {A} (l : list A) a b : a ≤ b ≤ length l → total (slice l a b).
Proof.
  intros Hab. unfold slice. rewrite (proj2 (Nat.leb_le a b)), (proj2 (Nat.leb_le b (length l))) by lia. apply total_ret.
Qed.
Lemma elem_of_indexed {A} (l : list A) i x : (i, x) ∈ indexed l ↔ l !! i = Some x.
Proof.
  unfold indexed. rewrite list_elem_of_lookup. setoid_rewrite list_lookup_imap. split.
  - intros (j & E). destruct (l !! j) eqn:Ej; [|done]. simpl in E. by injection E as -> ->.
  - intros E. exists i. by rewrite E.
Qed.
#[export] Hint Resolve total_ret total_cat : render.

Section wf.
Context (f64_fmt : Z → string) (unicode_uppercase : string → string) (g : FederatedGraph) (Hg : graph_wf g).
Abbreviation sz := (sizes_with (length (fg_strings g)) (length (fg_subgraphs g)) (length (fg_directives g))
  (length (fg_input_value_definitions g)) g).

(** ** Names *)
Lemma total_str i : i < z_strings sz → total (str_at g i).
Proof. apply total_at. Qed.
Lemma total_type_name id : id < z_types sz → ∃ n, type_definition_name g id = Ret n ∧ n < z_strings sz.
Proof.
  intros [td Htd]%lookup_lt_is_Some_2. exists (td_name td). unfold type_definition_name, at_index. rewrite Htd. split; [done|].
  pose proof (gi_types _ _ Hg) as HF. rewrite Forall_lookup in HF. by apply HF in Htd as [? _].
Qed.
Lemma total_name_id d : def_in sz d → ∃ n, definition_name_id g d = Ret n ∧ n < z_strings sz.
Proof.
  destruct Hg as [_ _ _ HO HI _ HU HIO _ _ _ _ _ _ _]. rewrite Forall_lookup in HO. rewrite Forall_lookup in HI.
  rewrite Forall_lookup in HU. rewrite Forall_lookup in HIO.
  destruct d as [id|id|id|id|id|id]; cbn [def_in definition_name_id].
  - apply total_type_name.
  - intros [o Ho]%lookup_lt_is_Some_2. unfold at_index. rewrite Ho. apply total_type_name. by apply HO in Ho as [? _].
  - intros [o Ho]%lookup_lt_is_Some_2. unfold at_index. rewrite Ho. apply total_type_name. by apply HI in Ho as [? _].
  - intros [o Ho]%lookup_lt_is_Some_2. unfold at_index. rewrite Ho. eexists. split; [done|]. by apply HU in Ho as [? _].
  - apply total_type_name.
  - intros [o Ho]%lookup_lt_is_Some_2. unfold at_index. rewrite Ho. eexists. split; [done|]. by apply HIO in Ho as [? _].
Qed.
Lemma total_name d : def_in sz d → total (name_id ← definition_name_id g d; str_at g name_id).
Proof. intros (n & -> & Hn)%total_name_id. by apply total_str. Qed.
Lemma total_field_type ty : def_in sz (ft_definition ty) → total (render_field_type ty g).
Proof.
  intros (n & Hn & Hlt)%total_name_id. unfold render_field_type. rewrite Hn. cbn [mbind res_bind].
  apply total_bind; [by apply total_str|]. intros. apply total_ret.
Qed.
Lemma total_description o indent : opt_lt (z_strings sz) o → total (write_description o indent g).
Proof. intros Ho. apply total_opt. intros i Hi. apply total_bind; [by apply total_str, Ho|]. intros. apply total_ret. Qed.

(** ** Values and selections *)
Lemma total_value : ∀ v, value_in sz v → total (ValueDisplay f64_fmt g v).
Proof.
  fix IH 2. intros v []; cbn [ValueDisplay]; try apply total_ret.
  - apply total_bind; [by apply total_str|intros; apply total_ret].
  - destruct b; apply total_ret.
  - by apply total_str.
  - apply total_bind; [by apply total_at|]. intros v' Hv'. apply total_str.
    by apply (at_index_Forall _ _ _ _ (gi_enum_values _ _ Hg)) in Hv' as (_ & ? & _).
  - apply total_cat; [apply total_ret|]. apply total_cat; [|apply total_ret]. apply total_cat_sep.
    assert (Forall (λ kv, kv.1 < z_strings sz ∧ total (ValueDisplay f64_fmt g kv.2)) l) as HF.
    { induction H as [|kv l' [Hs Hv] _ IHl]; constructor; [|done]. split; [done|by apply IH]. }
    rewrite Forall_forall in HF. intros kv Hkv. destruct (HF kv Hkv) as [Hs Hv].
    apply total_cat; [apply total_bind; [by apply total_str|intros; apply total_ret]|]. by apply total_cat; [apply total_ret|].
  - apply total_cat; [apply total_ret|]. apply total_cat; [|apply total_ret]. apply total_cat_map.
    assert (Forall (λ v, total (ValueDisplay f64_fmt g v)) l) as HF.
    { induction H as [|v' l' Hv _ IHl]; constructor; [by apply IH|done]. }
    rewrite Forall_forall in HF. intros v' Hv'. apply total_cat; [by apply HF|apply total_ret].
Qed.
Lemma total_arguments l : Forall (λ av, av.1 < z_strings sz ∧ value_in sz av.2) l → total (Arguments_fmt f64_fmt g l).
Proof.
  intros HF. unfold Arguments_fmt. destruct l as [|av l]; [apply total_ret|]. rewrite Forall_forall in HF.
  apply total_cat; [apply total_ret|]. apply total_cat; [|apply total_ret]. apply total_cat_sep.
  intros x Hx. destruct (HF x Hx). apply total_cat; [by apply total_str|]. apply total_cat; [apply total_ret|by apply total_value].
Qed.
Lemma value_name i v : at_index (fg_input_value_definitions g) i = Ret v → fiv_name v < z_strings sz.
Proof. intros Hv. by apply (at_index_Forall _ _ _ _ (gi_values _ _ Hg)) in Hv as (? & _). Qed.
Lemma selection_loop_total f l : Forall (λ s, total (f s)) l → total (selection_loop f l).
Proof.
  induction 1 as [|s l Hs _ IH]; [apply total_ret|]. cbn [selection_loop].
  apply total_cat; [done|]. apply total_cat; [apply total_ret|exact IH].
Qed.
Lemma total_selection : ∀ s, selection_in sz s → total (bare_selection f64_fmt g s).
Proof.
  fix IH 2. intros s [f args sub Hf Ha Hs|on sub Hon Hs].
  - assert (Forall (λ s, total (bare_selection f64_fmt g s)) sub) as HF.
    { induction Hs as [|s' l' H' _ IHl]; constructor; [by apply IH|done]. }
    cbn [bare_selection]. apply total_bind; [by apply total_at|]. intros fr Hfr. apply total_bind.
    { apply total_str. by apply (at_index_Forall _ _ _ _ (gi_fields _ _ Hg)) in Hfr as (? & _). }
    intros name _. rewrite Forall_forall in Ha. apply total_bind.
    { apply total_mapM. intros av Hav. destruct (Ha av Hav). apply total_bind; [by apply total_at|intros; apply total_ret]. }
    intros args' Hargs. apply total_cat; [apply total_ret|]. apply total_cat.
    + apply total_arguments. apply mapM_res_Ret in Hargs. apply Forall_forall. intros y Hy.
      apply list_elem_of_lookup in Hy as [i Hi]. destruct (Forall2_lookup_r _ _ _ _ _ Hargs Hi) as (x & Hx & E).
      apply list_elem_of_lookup_2 in Hx. destruct (Ha x Hx) as [_ Hv].
      apply res_bind_Ret in E as (v & Hv' & [= <-]). split; [by eapply value_name|done].
    + destruct sub as [|s' sub']; [apply total_ret|].
      apply total_cat; [apply total_ret|]. apply total_cat; [by apply selection_loop_total|apply total_ret].
  - assert (Forall (λ s, total (bare_selection f64_fmt g s)) sub) as HF.
    { induction Hs as [|s' l' H' _ IHl]; constructor; [by apply IH|done]. }
    cbn [bare_selection]. apply total_cat; [apply total_ret|]. apply total_cat; [by apply total_name|].
    apply total_cat; [apply total_ret|]. apply total_cat; [by apply selection_loop_total|apply total_ret].
Qed.
Lemma total_selection_set l : Forall (selection_in sz) l → total (SelectionSetDisplay f64_fmt g l).
Proof.
  intros HF. apply total_bind; [|intros; apply total_ret]. apply selection_loop_total.
  eapply Forall_impl; [exact HF|]. intros s. apply total_selection.
Qed.
Lemma total_item : ∀ i, item_in sz i → total (bare_value_set_item g i).
Proof.
  fix IH 2. intros i [i' sub Hi Hs].
  assert (∀ x, x ∈ sub → total (bare_value_set_item g x)) as HF.
  { apply Forall_forall. induction Hs as [|s' l' H' _ IHl]; constructor; [by apply IH|done]. }
  cbn [bare_value_set_item]. apply total_bind; [by apply total_at|]. intros v Hv. apply total_bind; [by eapply total_str, value_name|].
  intros name _. apply total_cat; [apply total_ret|]. destruct sub; [apply total_ret|].
  apply total_cat; [apply total_ret|]. apply total_cat; [by apply total_cat_sep|apply total_ret].
Qed.
Lemma total_item_set l : Forall (item_in sz) l → total (InputValueDefinitionSetDisplay g l).
Proof.
  intros HF. rewrite Forall_forall in HF. apply total_bind; [|intros; apply total_ret]. apply total_cat_sep.
  intros x Hx. by apply total_item, HF.
Qed.

(** ** Directives *)
Definition argument_in (a : DisplayableArgument) : Prop :=
  match a with
  | DValue v => value_in sz v
  | DFieldSet l => Forall (selection_in sz) l
  | DInputValueDefinitionSet l => Forall (item_in sz) l
  | DGraphEnumVariantName _ => True
  end.
Lemma total_arg name a w : argument_in a → total (arg f64_fmt unicode_uppercase g name a w).
Proof.
  intros Ha. apply total_bind; [|intros; apply total_ret]. destruct a as [v|l|l|s]; cbn [display_argument argument_in] in *.
  - by apply total_value.
  - by apply total_selection_set.
  - by apply total_item_set.
  - apply total_ret.
Qed.
Lemma total_directive name l :
  Forall (λ a, argument_in a.2) l → total (write_directive f64_fmt unicode_uppercase g name l).
Proof.
  intros HF. rewrite Forall_forall in HF. apply total_bind; [|intros; apply total_ret]. apply total_fold.
  intros w a Ha. by apply total_arg, HF.
Qed.
Lemma string_lists_in l : Forall (Forall (λ s, s < z_strings sz)) l → value_in sz (string_lists l).
Proof.
  intros HF. constructor. apply Forall_fmap. eapply Forall_impl; [exact HF|]. intros p Hp. constructor.
  apply Forall_fmap. eapply Forall_impl; [exact Hp|]. intros s Hs. by constructor.
Qed.
Lemma total_composed_directive d :
  directive_in sz d → total (write_composed_directive f64_fmt unicode_uppercase g d).
Proof.
  destruct d as [|[r|]| |l|l|n args]; cbn [directive_in write_composed_directive]; intros Hd.
  1,3,4: apply total_directive; constructor.
  - apply total_directive. constructor; [|constructor]. constructor. by apply Hd.
  - apply total_directive. constructor; [|constructor]. by apply string_lists_in.
  - apply total_directive. constructor; [|constructor]. by apply string_lists_in.
  - destruct Hd as [Hn Ha]. rewrite Forall_forall in Ha. apply total_bind; [by apply total_str|]. intros name _.
    apply total_bind; [|intros; apply total_ret]. apply total_fold. intros w nv Hnv. destruct (Ha nv Hnv).
    apply total_bind; [by apply total_str|]. intros s _. by apply total_arg.
Qed.
Lemma directives_at_ok r : range_in (z_directives sz) r → ∃ ds, directives_at g r = Ret ds ∧ Forall (directive_in sz) ds.
Proof.
  intros Hr. destruct (total_slice (fg_directives g) r.1 (r.1 + r.2)) as [ds E]; [unfold range_in in Hr; simpl in Hr; lia|].
  exists ds. split; [done|]. by eapply slice_Forall; [apply (gi_directives _ _ Hg)|].
Qed.
Lemma total_composed_directives r :
  range_in (z_directives sz) r → total (render_composed_directives f64_fmt unicode_uppercase g r).
Proof.
  intros (ds & E & HF)%directives_at_ok. unfold render_composed_directives. rewrite E. cbn [mbind res_bind].
  rewrite Forall_forall in HF. apply total_cat_map. intros d Hd. apply total_cat; [apply total_ret|by apply total_composed_directive, HF].
Qed.
Lemma total_authorized_directive d :
  authorized_in sz d → total (render_authorized_directive f64_fmt unicode_uppercase g d).
Proof.
  intros (Hf & Hn & Ha & Hm). apply total_cat; [apply total_ret|]. apply total_directive.
  rewrite !Forall_app. split_and!; (destruct d as [[f|] [n|] [a|] [m|]]; simpl in *; try constructor; simpl; auto).
Qed.
Lemma total_authorized_for l id n :
  Forall (λ e, e.1 < n ∧ e.2 < z_authorized sz) l → ∃ ds, authorized_for g l id = Ret ds ∧ Forall (authorized_in sz) ds.
Proof.
  intros HF. rewrite Forall_forall in HF. unfold authorized_for.
  set (es := take_while _ _). assert (∀ e, e ∈ es → e ∈ l) as Hes.
  { intros e He. subst es. eapply elem_of_drop. by eapply elem_of_take_while. }
  destruct (total_mapM (λ e, at_index (fg_authorized_directives g) e.2) es) as [ds E].
  { intros e He. apply total_at. by apply HF, Hes. }
  exists ds. split; [done|]. apply mapM_res_Ret in E. apply Forall_forall. intros d [i Hi]%list_elem_of_lookup.
  destruct (Forall2_lookup_r _ _ _ _ _ E Hi) as (e & _ & Hd). by apply (at_index_Forall _ _ _ _ (gi_authorized _ _ Hg)) in Hd.
Qed.
End wf.

(** ** Both renderers return on a well-formed graph *)

Section total.
Context (f64_fmt : Z → string) (unicode_uppercase : string → string) (g : FederatedGraph) (Hg : graph_wf g).
Abbreviation sz := (sizes_with (length (fg_strings g)) (length (fg_subgraphs g)) (length (fg_directives g))
  (length (fg_input_value_definitions g)) g).

(** The steps of a function that writes: sequences and the lemmas below. *)
Ltac write :=
  repeat first
    [ apply total_ret
    | match goal with |- total (cat _ _) => apply total_cat end
    | assumption
    | match goal with |- total (write_block _) => unfold write_block end
    | by apply total_str
    | by apply total_description
    | by apply total_composed_directives
    | by apply total_field_type ].

Lemma total_subgraph_name id : id < z_subgraphs sz → total (subgraph_name g id).
Proof.
  intros Hid. apply total_bind; [by apply total_at|]. intros s Hs. apply total_str.
  by apply (at_index_Forall _ _ _ _ (gi_subgraphs _ _ Hg)) in Hs as [? _].
Qed.
Lemma total_join_field k : key_in sz k → total (render_join_field f64_fmt unicode_uppercase g k).
Proof.
  intros [Hs Hf]. apply total_bind; [by apply total_subgraph_name|]. intros name _. write.
  apply total_directive; [done|]. rewrite !Forall_app. split_and!.
  - by constructor.
  - destruct (fk_fields k); by constructor.
  - destruct (fk_resolvable k); [done|]. constructor; [constructor|done].
  - destruct (fk_is_interface_object k); [|done]. constructor; [constructor|done].
Qed.
Lemma total_join_with name_id field s i :
  s < z_subgraphs sz → (∃ n, name_id = Ret n ∧ n < z_strings sz) →
  total (name ← subgraph_name g s; n ← name_id;
         Ret INDENT ⊕ write_directive f64_fmt unicode_uppercase g i [("graph", DGraphEnumVariantName name); (field, DValue (FVString n))]).
Proof.
  intros Hs (n & -> & Hn). apply total_bind; [by apply total_subgraph_name|]. intros name _. cbn [mbind res_bind]. write.
  apply total_directive; [done|]. constructor; [done|]. constructor; [by constructor|done].
Qed.
Lemma total_join_implement s i : s < z_subgraphs sz → i < z_interfaces sz → total (render_join_implement f64_fmt unicode_uppercase g s i).
Proof. intros Hs Hi. apply total_join_with; [done|]. by apply (total_name_id g Hg (FInterface i)). Qed.
Lemma total_join_member s i : s < z_subgraphs sz → i < z_objects sz → total (render_join_member f64_fmt unicode_uppercase g s i).
Proof. intros Hs Hi. apply total_join_with; [done|]. by apply (total_name_id g Hg (FObject i)). Qed.

(** ** Fields *)
Lemma total_default o : opt_in (value_in sz) o → total (write_default f64_fmt g o).
Proof. intros Ho. apply total_opt. intros x Hx. write. by apply total_value, Ho. Qed.
Lemma input_values_ok r :
  range_in (z_values sz) r → ∃ vs, input_values_at g r = Ret vs ∧ Forall (input_value_in sz) vs.
Proof.
  intros Hr. destruct (total_slice (fg_input_value_definitions g) r.1 (r.1 + r.2)) as [vs E]; [unfold range_in in Hr; simpl in Hr; lia|].
  exists vs. split; [done|]. by eapply slice_Forall; [apply (gi_values _ _ Hg)|].
Qed.
Lemma fields_at_ok r : fields_in sz r → ∃ fs, fields_at g r = Ret fs ∧ Forall (field_in sz) fs.
Proof.
  intros Hr. destruct (total_slice (fg_fields g) r.1 r.2) as [fs E]; [exact Hr|].
  exists fs. split; [done|]. by eapply slice_Forall; [apply (gi_fields _ _ Hg)|].
Qed.
Lemma total_argument_list (directives : DirectiveRange → res string) args :
  (∀ r, range_in (z_directives sz) r → total (directives r)) → Forall (input_value_in sz) args →
  total (match args with
    | [] => Ret ""
    | _ => Ret "(" ⊕ cat_sep ", "
        ((λ a, str_at g (fiv_name a) ⊕ Ret ": " ⊕ render_field_type (fiv_type a) g ⊕ write_default f64_fmt g (fiv_default a) ⊕
               directives (fiv_directives a)) <$> args) ⊕ Ret ")"
    end).
Proof.
  intros Hd HF. destruct args as [|a args]; [apply total_ret|]. rewrite Forall_forall in HF. write.
  apply total_cat_sep. intros x Hx. destruct (HF x Hx) as (? & ? & ? & ? & ?). write; [by apply total_default|by apply Hd].
Qed.
Lemma total_field_arguments r :
  range_in (z_values sz) r → total (l ← input_values_at g r; render_field_arguments f64_fmt unicode_uppercase g l).
Proof.
  intros (vs & -> & HF)%input_values_ok. cbn [mbind res_bind]. apply total_argument_list; [|done].
  intros r'. by apply total_composed_directives.
Qed.
Lemma total_found subgraph l text :
  Forall (field_selection_in sz) l →
  total (write_opt (λ s, Ret text ⊕ SelectionSetDisplay f64_fmt g (fsel_fields s)) (find_selection subgraph l)).
Proof.
  intros HF. apply total_opt. intros s Hs. write. apply total_selection_set; [done|].
  apply find_some in Hs as [Hs _]. rewrite Forall_forall in HF. apply HF. by apply list_elem_of_In.
Qed.
Lemma total_resolvable f s : field_in sz f → s ∈ ff_resolvable_in f → total (write_resolvable_in f64_fmt unicode_uppercase g f s).
Proof.
  intros (_ & _ & _ & HR & HP & HQ & _) Hs. rewrite Forall_forall in HR.
  apply total_bind; [by apply total_subgraph_name, HR|]. intros name _. write; by apply total_found.
Qed.
Lemma total_selections argument f l :
  Forall (field_selection_in sz) l → total (write_selections f64_fmt unicode_uppercase g argument f l).
Proof.
  intros HF. rewrite Forall_forall in HF. apply total_cat_map. intros s [_ Hs]%list_elem_of_filter.
  destruct (HF s Hs) as [Hid Hsel]. apply total_bind; [by apply total_subgraph_name|]. intros name _. write. by apply total_selection_set.
Qed.
Lemma total_overrides f : field_in sz f → total (write_overrides unicode_uppercase g f).
Proof.
  intros (_ & _ & _ & _ & _ & _ & HO & _). rewrite Forall_forall in HO. apply total_cat_map. intros o [Hgr Hfrom]%HO.
  apply total_bind; [destruct (override_ir_from o); [by apply total_subgraph_name|by apply total_str]|]. intros s _. cbv zeta.
  apply total_bind; [by apply total_subgraph_name|]. intros. apply total_ret.
Qed.
Lemma total_authorized l id n :
  Forall (λ e, e.1 < n ∧ e.2 < z_authorized sz) l →
  total (ds ← authorized_for g l id; cat_map (render_authorized_directive f64_fmt unicode_uppercase g) ds).
Proof.
  intros (ds & -> & HF)%(total_authorized_for g Hg _ id). cbn [mbind res_bind]. rewrite Forall_forall in HF.
  apply total_cat_map. intros d Hd. by apply total_authorized_directive, HF.
Qed.
Lemma total_field id f : field_in sz f → total (write_field f64_fmt unicode_uppercase g id f).
Proof.
  intros Hf. pose proof Hf as (Hn & Ht & Ha & HR & HP & HQ & HO & HD & Hdesc).
  apply total_bind; [by apply total_str|]. intros name _. apply total_bind; [by apply total_field_type|]. intros ty _.
  apply total_bind; [by apply total_field_arguments|]. intros args _. write.
  - apply total_cat_map. intros s Hs. by apply total_resolvable.
  - by apply total_selections.
  - by apply total_selections.
  - by apply total_overrides.
  - eapply total_authorized, (gi_field_authorized _ _ Hg).
Qed.
Lemma total_input_field v : input_value_in sz v → total (write_input_field f64_fmt unicode_uppercase g v).
Proof.
  intros (Hn & Ht & HD & Hdesc & Hdef). apply total_bind; [by apply total_str|]. intros name _.
  apply total_bind; [by apply total_field_type|]. intros ty _. write. by apply total_default.
Qed.
Lemma indexed_fields r fs :
  fields_in sz r → fields_at g r = Ret fs → ∀ f, f ∈ indexed fs → field_in sz f.2.
Proof.
  intros (fs' & E & HF)%fields_at_ok E'. assert (fs' = fs) as -> by congruence. intros [i f] Hi%elem_of_indexed.
  by eapply Forall_lookup_1 in HF.
Qed.

(** ** Definitions *)
Lemma total_introspection f : field_in sz f → total (is_introspection g f).
Proof. intros (Hn & _). apply total_bind; [by apply total_str|]. intros. apply total_ret. Qed.
Lemma total_implements l : Forall (λ i, i < z_interfaces sz) l → total (write_implements g l).
Proof.
  intros HF. unfold write_implements. destruct l as [|i l]; [apply total_ret|]. rewrite Forall_forall in HF. write.
  apply total_cat_sep. intros x Hx. apply (total_name g Hg (FInterface x)). by apply HF.
Qed.
Lemma total_join_implements l ks : Forall (join_in sz) l → total (write_join_implements f64_fmt unicode_uppercase g l ks).
Proof.
  intros HF. unfold write_join_implements. destruct l as [|e l'] eqn:E; [apply total_ret|].
  rewrite <-E in *. rewrite Forall_forall in HF. write.
  apply total_cat_map. intros x Hx. destruct (HF x Hx). write. by apply total_join_implement.
Qed.
Lemma total_keys ks : Forall (key_in sz) ks → total (cat_map (render_join_field f64_fmt unicode_uppercase g) ks).
Proof. intros HF. rewrite Forall_forall in HF. apply total_cat_map. intros k Hk. by apply total_join_field, HF. Qed.
Lemma type_definition_ok id :
  id < z_types sz → ∃ td, at_index (fg_type_definitions g) id = Ret td ∧ type_in sz td.
Proof.
  intros Hid. destruct (total_at (fg_type_definitions g) id Hid) as [td Htd]. exists td. split; [done|].
  by apply (at_index_Forall _ _ _ _ (gi_types _ _ Hg)) in Htd.
Qed.
Lemma total_object id o : object_in sz o → total (write_object f64_fmt unicode_uppercase g id o).
Proof.
  intros (Htd & Hi & Hj & Hk & Hf). unfold write_object.
  destruct (type_definition_ok _ Htd) as (td & -> & Hn & Hd & Hdir). cbn [mbind res_bind].
  apply total_bind; [by apply total_str|]. intros name _. destruct (fields_at_ok _ Hf) as (all & Eall & _). rewrite Eall. cbn [mbind res_bind].
  pose proof (indexed_fields _ _ Hf Eall) as Hall. apply total_bind.
  { apply total_filter. intros f Hin. apply total_bind; [by apply total_introspection, Hall|]. intros. apply total_ret. }
  intros fields Efs. assert (∀ f, f ∈ fields → field_in sz f.2) as Hfs by (intros f Hin; eapply Hall, elem_of_filter_res; done).
  destruct fields as [|f fields]; [apply total_ret|]. write.
  - by apply total_implements.
  - eapply total_authorized, (gi_object_authorized _ _ Hg).
  - by apply total_join_implements.
  - destruct (fo_keys o) eqn:E; [apply total_ret|]. rewrite <-E in *. write. by apply total_keys.
  - apply total_cat_map. intros x Hx. by apply total_field, Hfs.
Qed.
Lemma total_interface id o : interface_in sz o → total (write_interface f64_fmt unicode_uppercase g id o).
Proof.
  intros (Htd & Hi & Hj & Hk & Hf). unfold write_interface.
  destruct (type_definition_ok _ Htd) as (td & -> & Hn & Hd & Hdir). cbn [mbind res_bind].
  apply total_bind; [by apply total_str|]. intros name _. write.
  - by apply total_implements.
  - eapply total_authorized, (gi_interface_authorized _ _ Hg).
  - by apply total_join_implements.
  - destruct (fif_keys o) eqn:E; [apply total_ret|]. rewrite <-E in *. write. by apply total_keys.
  - destruct (fields_at_ok _ Hf) as (all & Eall & _). rewrite Eall. cbn [mbind res_bind].
    apply total_cat_map. intros x Hx. eapply total_field, indexed_fields; done.
Qed.
Lemma elem_of_graph_enum_values id i v : (i, v) ∈ iter_enum_values g id → enum_value_in sz v.
Proof.
  unfold iter_enum_values. set (l := take_while _ _). intros [j Hj]%list_elem_of_lookup.
  rewrite list_lookup_imap in Hj. destruct (l !! j) as [v'|] eqn:E; [|done]. simpl in Hj. injection Hj as _ <-.
  pose proof (gi_enum_values _ _ Hg) as HF. rewrite Forall_forall in HF. apply HF.
  apply list_elem_of_lookup_2 in E. subst l. by apply elem_of_take_while, elem_of_drop in E.
Qed.
Lemma iter_types_ok (p : TypeDefinitionRecord → bool) td :
  td ∈ filter (λ td, p td.2) (indexed (fg_type_definitions g)) → type_in sz td.2.
Proof.
  destruct td as [i td]. intros [_ Hi%elem_of_indexed]%list_elem_of_filter. by eapply Forall_lookup_1; [apply (gi_types _ _ Hg)|].
Qed.
Lemma total_enum id td : type_in sz td → total (write_enum f64_fmt unicode_uppercase g id td).
Proof.
  intros (Hn & Hd & Hdir). apply total_bind; [by apply total_str|]. intros name _. write.
  apply total_cat_map. intros [i v] Hv. apply elem_of_graph_enum_values in Hv as (_ & Hv & Hvd & Hdesc).
  apply total_bind; [by apply total_str|]. intros s _. write.
Qed.
Lemma total_object_names l (f : nat → res string) sep :
  (∀ m, m < z_objects sz → total (f m)) → Forall (λ o, o < z_objects sz) l → total (cat_sep sep (f <$> l)).
Proof. intros Hf HF. rewrite Forall_forall in HF. apply total_cat_sep. intros m Hm. by apply Hf, HF. Qed.
Lemma total_union u : union_in sz u → total (write_union f64_fmt unicode_uppercase g u).
Proof.
  intros (Hn & Hm & Hj & Hd & Hdesc). apply total_bind; [by apply total_str|]. intros name _. write.
  - destruct (btree_set_iter (fu_join_members u)) as [|e l] eqn:E; [apply total_ret|]. rewrite <-E. write.
    apply total_cat_map. intros [s o] Hin. apply elem_of_btree_set_iter, Hj in Hin as [? ?]. write. by apply total_join_member.
  - apply total_object_names; [|done]. intros m Hlt. by apply (total_name g Hg (FObject m)).
Qed.
Lemma total_input_object o : input_object_in sz o → total (write_input_object f64_fmt unicode_uppercase g o).
Proof.
  intros (Hn & Hf & Hd & Hdesc). apply total_bind; [by apply total_str|]. intros name _. write.
  destruct (input_values_ok _ Hf) as (vs & -> & HF). cbn [mbind res_bind]. rewrite Forall_forall in HF.
  apply total_cat_map. intros v Hv. by apply total_input_field, HF.
Qed.
Lemma total_scalar td : type_in sz td → total (write_scalar f64_fmt unicode_uppercase g td).
Proof.
  intros (Hn & Hd & Hdir). apply total_bind; [by apply total_str|]. intros name _. write.
  case_bool_decide; write.
Qed.
Lemma total_subgraphs : total (write_subgraphs_enum unicode_uppercase g).
Proof.
  unfold write_subgraphs_enum. destruct (fg_subgraphs g) as [|s l] eqn:E; [apply total_ret|]. rewrite <-E. write.
  apply total_cat_map. intros x Hx. pose proof (gi_subgraphs _ _ Hg) as HF. rewrite Forall_forall in HF. destruct (HF x Hx).
  apply total_bind; [by apply total_str|]. intros n _. apply total_bind; [by apply total_str|]. intros. apply total_ret.
Qed.
(** A loop over a vector of the graph. *)
Lemma total_each {A} (P : A → Prop) (f : A → res string) l :
  Forall P l → (∀ x, P x → total (f x)) → total (cat_map f l).
Proof. intros HF Hf. rewrite Forall_forall in HF. apply total_cat_map. auto. Qed.
Lemma total_each_indexed {A} (P : A → Prop) (f : nat → A → res string) l :
  Forall P l → (∀ i x, P x → total (f i x)) → total (cat_map (λ e, f e.1 e.2) (indexed l)).
Proof.
  intros HF Hf. apply total_cat_map. intros [i x] Hi%elem_of_indexed. apply Hf. by eapply Forall_lookup_1 in HF.
Qed.
Lemma total_federated : total (render_federated_sdl f64_fmt unicode_uppercase g).
Proof.
  apply total_bind; [|intros; apply total_ret]. write.
  - apply total_subgraphs.
  - apply total_cat_map. intros x Hx. apply total_scalar. by eapply (iter_types_ok (λ td, bool_decide (td_kind td = TScalar))).
  - eapply total_each_indexed; [apply (gi_objects _ _ Hg)|apply total_object].
  - eapply total_each_indexed; [apply (gi_interfaces _ _ Hg)|apply total_interface].
  - apply total_cat_map. intros x Hx. apply total_enum. by eapply (iter_types_ok (λ td, bool_decide (td_kind td = TEnum))).
  - eapply total_each; [apply (gi_unions _ _ Hg)|apply total_union].
  - eapply total_each; [apply (gi_input_objects _ _ Hg)|apply total_input_object].
Qed.

(** ** The API *)
Lemma total_inaccessible r : range_in (z_directives sz) r → total (has_inaccessible g r).
Proof. intros (ds & E & _)%(directives_at_ok g Hg). unfold has_inaccessible. rewrite E. apply total_ret. Qed.
Lemma total_public_directives r : range_in (z_directives sz) r → total (write_public_directives f64_fmt unicode_uppercase g r).
Proof.
  intros (ds & E & HF)%(directives_at_ok g Hg). unfold write_public_directives. rewrite E. cbn [mbind res_bind]. rewrite Forall_forall in HF.
  apply total_bind.
  - apply total_filter. intros d Hd%HF. destruct d as [| | | | |n args]; try apply total_ret.
    destruct Hd as [Hn _]. apply total_bind; [by apply total_str|]. intros. apply total_ret.
  - intros public Ep. apply total_cat_map. intros d Hd. write. apply total_composed_directive; [done|].
    eapply HF, elem_of_filter_res; done.
Qed.
Lemma total_api_arguments r :
  range_in (z_values sz) r → total (l ← input_values_at g r; write_field_arguments f64_fmt unicode_uppercase g l).
Proof.
  intros (vs & -> & HF)%input_values_ok. cbn [mbind res_bind]. apply total_argument_list; [|done].
  intros r'. by apply total_public_directives.
Qed.
Lemma total_block hidden block : total hidden → total block → total (block_unless hidden block).
Proof.
  intros Hh Hb. apply total_bind; [done|]. intros [] _; [apply total_ret|]. apply total_bind; [done|]. intros. apply total_ret.
Qed.
Lemma total_visible {A} (P : A → Prop) hidden f (l : list A) :
  Forall P l → (∀ x, P x → total (hidden x)) → (∀ x, P x → total (f x)) → total (cat_visible hidden f l).
Proof.
  intros HF Hh Hf. rewrite Forall_forall in HF. apply total_bind.
  - apply total_filter. intros x Hx. apply total_bind; [auto|]. intros. apply total_ret.
  - intros r Er. apply total_cat_map. intros x Hx. eapply Hf, HF, elem_of_filter_res; done.
Qed.
Lemma total_api_enum id td : type_in sz td → total (api_enum f64_fmt unicode_uppercase g id td).
Proof.
  intros (Hn & Hd & Hdir). apply total_block; [by apply total_inaccessible|]. write; [by apply total_public_directives|].
  apply (total_visible (enum_value_in sz)).
  - apply Forall_fmap, Forall_forall. intros [i v]. apply elem_of_graph_enum_values.
  - intros v (_ & _ & ? & _). by apply total_inaccessible.
  - intros v (_ & ? & ? & ?). unfold write_enum_variant. write. by apply total_public_directives.
Qed.
Lemma total_hidden_field f : field_in sz f → total (hidden_field g f).
Proof.
  intros Hf. apply total_bind; [by apply total_introspection|]. intros [] _; [apply total_ret|].
  destruct Hf as (_ & _ & _ & _ & _ & _ & _ & ? & _). by apply total_inaccessible.
Qed.
Lemma total_api_object o : object_in sz o → total (api_object f64_fmt unicode_uppercase g o).
Proof.
  intros (Htd & Hi & Hj & Hk & Hf). unfold api_object.
  destruct (type_definition_ok _ Htd) as (td & -> & Hn & Hd & Hdir). cbn [mbind res_bind].
  destruct (fields_at_ok _ Hf) as (all & -> & HF). cbn [mbind res_bind]. apply total_block.
  - apply total_bind; [by apply total_inaccessible|]. intros [] _; [apply total_ret|].
    apply total_bind; [|intros; apply total_ret]. rewrite Forall_forall in HF. apply total_any. intros f Hin.
    apply total_bind; [by apply total_hidden_field, HF|]. intros. apply total_ret.
  - write; [by apply total_public_directives|]. eapply total_visible; [exact HF|apply total_hidden_field|].
    intros f (? & ? & ? & _ & _ & _ & _ & ? & ?). unfold api_object_field.
    write; [by apply total_api_arguments|by apply total_public_directives].
Qed.
Lemma total_api_interface o : interface_in sz o → total (api_interface f64_fmt unicode_uppercase g o).
Proof.
  intros (Htd & Hi & Hj & Hk & Hf). unfold api_interface.
  destruct (type_definition_ok _ Htd) as (td & -> & Hn & Hd & Hdir). cbn [mbind res_bind].
  destruct (fields_at_ok _ Hf) as (all & -> & HF). cbn [mbind res_bind].
  apply total_block; [by apply total_inaccessible|]. write; [by apply total_public_directives|]. eapply total_visible; [exact HF| |].
  - intros f (_ & _ & _ & _ & _ & _ & _ & ? & _). by apply total_inaccessible.
  - intros f (? & ? & ? & _ & _ & _ & _ & ? & ?). unfold api_interface_field.
    write; [by apply total_api_arguments|by apply total_public_directives].
Qed.
Lemma total_api_input_object o : input_object_in sz o → total (api_input_object f64_fmt unicode_uppercase g o).
Proof.
  intros (Hn & Hf & Hd & Hdesc). apply total_block; [by apply total_inaccessible|]. write; [by apply total_public_directives|].
  destruct (input_values_ok _ Hf) as (vs & -> & HF). cbn [mbind res_bind]. eapply total_visible; [exact HF| |].
  - intros v (_ & _ & ? & _). by apply total_inaccessible.
  - intros v (? & ? & ? & ? & ?). unfold api_input_field. write; [by apply total_default|by apply total_public_directives].
Qed.
Lemma total_api_union u : union_in sz u → total (api_union f64_fmt unicode_uppercase g u).
Proof.
  intros (Hn & Hm & Hj & Hd & Hdesc). apply total_block; [by apply total_inaccessible|]. write; [by apply total_public_directives|].
  apply total_object_names; [|done]. intros m Hlt. write. by apply (total_name g Hg (FObject m)).
Qed.
Lemma total_api_scalar td : type_in sz td → total (api_scalar f64_fmt unicode_uppercase g td).
Proof.
  intros (Hn & Hd & Hdir). apply total_bind; [by apply total_str|]. intros name _. apply total_block.
  - case_bool_decide; [apply total_ret|by apply total_inaccessible].
  - write. by apply total_public_directives.
Qed.
Lemma total_blocks {A B} (P : A → Prop) (f : A → res B) l :
  Forall P l → (∀ x, P x → total (f x)) → total (mapM_res f l).
Proof. intros HF Hf. rewrite Forall_forall in HF. apply total_mapM. auto. Qed.
Lemma total_api_blocks : total (api_blocks f64_fmt unicode_uppercase g).
Proof.
  unfold api_blocks.
  apply total_bind; [|intros e _; apply total_bind; [|intros o _; apply total_bind; [|intros i _; apply total_bind;
    [|intros io _; apply total_bind; [|intros u _; apply total_bind; [|intros; apply total_ret]]]]]].
  - apply total_mapM. intros x Hx. apply total_api_enum. by eapply (iter_types_ok (λ td, bool_decide (td_kind td = TEnum))).
  - eapply total_blocks; [apply (gi_objects _ _ Hg)|apply total_api_object].
  - eapply total_blocks; [apply (gi_interfaces _ _ Hg)|apply total_api_interface].
  - eapply total_blocks; [apply (gi_input_objects _ _ Hg)|apply total_api_input_object].
  - eapply total_blocks; [apply (gi_unions _ _ Hg)|apply total_api_union].
  - apply total_mapM. intros x Hx. apply total_api_scalar. by eapply (iter_types_ok (λ td, bool_decide (td_kind td = TScalar))).
Qed.
Lemma total_api : total (render_api_sdl f64_fmt unicode_uppercase g).
Proof. apply total_bind; [apply total_api_blocks|]. intros. apply total_ret. Qed.
End total.
