(* ===== verification/EmitOrder.v ===== *)
(** * The tables of a federated graph that are searched by bisection

    The values of an enum and the authorized directives of a field, an object
    or an interface are found with [partition_point], in vectors that nothing
    sorts: composition and emission append to them in the order of the ids. *)
From S2P Require Import Prelude RustStd Wrapping CheckSchema IndexSet FieldTypes Subgraphs Ingest IngestClaims Walkers ComposeContext ComposeTables Compose ComposeEntity ComposeValidate FederatedGraph Emit ComposeFields EmitLayout EmitGraph DisplayUtils Rendering RenderProps.
Local Open Scope string_scope.
Local Open Scope list_scope.
Local Open Scope nat_scope.

(** ** Bisection *)
Lemma bs_loop_ext {A} (f g : A → comparison) l fuel left right :
  (∀ x, f x = g x) → bs_loop f l fuel left right = bs_loop g l fuel left right.
Proof.
  intros Hfg. revert left right. induction fuel as [|fuel IH]; intros left right; cbn [bs_loop]; [done|].
  case_decide; [|done]. cbv zeta. destruct (l !! _) as [x|]; [|done]. simpl. rewrite Hfg. by destruct (g x).
Qed.
Lemma partition_point_ext {A} (p q : A → bool) l : (∀ x, p x = q x) → partition_point p l = partition_point q l.
Proof.
  intros Hpq. unfold partition_point, binary_search_by. by rewrite (bs_loop_ext _ (λ x, if q x then Lt else Gt)) by (intros; by rewrite Hpq).
Qed.
Lemma ltb_Nat_ltb a b : (a <? b) = ltb a b.
Proof. unfold ltb, cmp, nat_ord. destruct (Nat.ltb_spec a b), (Nat.compare_spec a b); lia || done. Qed.
Lemma search_complete {A} (key : A → nat) l b :
  StronglySorted (λ x y, key x ≤ key y) l →
  take_while (λ x, key x =? b) (drop (partition_point (λ x, key x <? b) l) l) = filter (λ x, key x = b) l.
Proof.
  intros Hs. rewrite (partition_point_ext _ (λ x, ltb (key x) b)) by (intros; apply ltb_Nat_ltb).
  rewrite (take_while_ext _ (λ x, eqb (key x) b)) by (intros; apply eqb_Nat_eqb).
  rewrite (key_range_spec key); [apply (filter_cmp_eq key)|].
  eapply StronglySorted_weaken; [|exact Hs]. intros x y Hxy. by apply Nat.compare_le_iff.
Qed.
Lemma authorized_for_all g l id :
  StronglySorted (λ x y : nat * nat, x.1 ≤ y.1) l →
  authorized_for g l id = mapM_res (λ e, at_index (fg_authorized_directives g) e.2) (filter (λ e, e.1 = id) l).
Proof. intros Hs. unfold authorized_for. by rewrite (search_complete fst). Qed.
Lemma iter_enum_values_all g id :
  StronglySorted (λ x y, ev_enum_id x ≤ ev_enum_id y) (fg_enum_values g) →
  (iter_enum_values g id).*2 = filter (λ v, ev_enum_id v = id) (fg_enum_values g).
Proof.
  intros Hs. rewrite <-(search_complete ev_enum_id) by done. unfold iter_enum_values.
  set (l := take_while _ _). generalize (partition_point (λ v, ev_enum_id v <? id) (fg_enum_values g)). intros start.
  apply list_eq. intros i. rewrite list_lookup_fmap, list_lookup_imap. by destruct (l !! i).
Qed.

(** ** Code that leaves some of the tables alone *)
Section keeps_table.
Context `{IndexSet} {X : Type} (table : FederatedGraph → X).
Definition keeps_table {A} (m : E A) : Prop := ∀ c a c', m c = Ret (a, c') → table (out c') = table (out c).
Lemma keeps_table_out {A} (m : E A) : keeps_out m → keeps_table m.
Proof. intros Hm c a c' Ec. by destruct (Hm _ _ _ Ec) as [-> _]. Qed.
Lemma keeps_table_ret {A} (a : A) : keeps_table (mret a).
Proof. apply keeps_table_out, keeps_out_ret. Qed.
Lemma keeps_table_bind {A B} (m : E A) (f : A → E B) : keeps_table m → (∀ a, keeps_table (f a)) → keeps_table (a ← m; f a).
Proof.
  intros Hm Hf c b c'. unfold mbind, E_bind. destruct (m c) as [[a c1]|] eqn:E1; [|done]. simpl. intros E2.
  rewrite (Hf _ _ _ _ E2), (Hm _ _ _ E1). done.
Qed.
Lemma keeps_table_each {A} (f : A → E unit) l : (∀ x, keeps_table (f x)) → keeps_table (eeach f l).
Proof.
  intros Hf. induction l as [|x l IH]; cbn [eeach]; [apply keeps_table_ret|]. apply keeps_table_bind; [apply Hf|intros _; exact IH].
Qed.
Lemma keeps_table_mapM {A B} (f : A → E B) l : (∀ x, keeps_table (f x)) → keeps_table (mapM f l).
Proof.
  intros Hf. induction l as [|x l IH]; [apply keeps_table_ret|]. cbn [mapM].
  apply keeps_table_bind; [apply Hf|]. intros y. apply keeps_table_bind; [exact IH|]. intros ys. apply keeps_table_ret.
Qed.
Lemma keeps_table_omapM {A B} (f : A → E B) o : (∀ x, keeps_table (f x)) → keeps_table (omapM f o).
Proof. intros Hf. destruct o; [|apply keeps_table_ret]. cbn [omapM]. apply keeps_table_bind; [apply Hf|intros ?; apply keeps_table_ret]. Qed.
Lemma keeps_table_modify f : (∀ g, table (f g) = table g) → keeps_table (modify_out f).
Proof. intros Hf c a c' [= _ <-]. apply Hf. Qed.
Lemma keeps_table_try f : (∀ g g', f g = Ret g' → table g' = table g) → keeps_table (try_modify_out f).
Proof.
  intros Hf c a c' Ec. unfold try_modify_out in Ec. destruct (f (out c)) as [g|] eqn:Eg; [|done]. injection Ec as _ <-.
  by apply Hf.
Qed.
End keeps_table.

(** The tables that are searched. *)
Definition searched (g : FederatedGraph) : list EnumValueRecord * list (nat * nat) * list (nat * nat) * list (nat * nat) :=
  (fg_enum_values g, fg_field_authorized_directives g, fg_object_authorized_directives g, fg_interface_authorized_directives g).
Ltac keeps_searched :=
  repeat match goal with
  | |- keeps_table _ (mbind _ _) => apply keeps_table_bind; [|intros ?]
  | |- keeps_table _ (mapM _ _) => apply keeps_table_mapM; intros ?
  | |- keeps_table _ (eeach _ _) => apply keeps_table_each; intros ?
  | |- keeps_table _ (omapM _ _) => apply keeps_table_omapM; intros ?
  | |- keeps_table _ (mret _) => apply keeps_table_ret
  | |- keeps_table _ (insert_value_with_type _ _ _) => apply keeps_table_out, keeps_value
  | |- keeps_table _ (emit_string _ _) => apply keeps_table_out, keeps_string
  | |- keeps_table _ (insert_field_type _ _) => apply keeps_table_out, keeps_field_type
  | |- keeps_table _ (attach_selection _ _ _) => apply keeps_table_out, keeps_attach
  | |- keeps_table _ (attach_argument_selection _ _ _) => apply keeps_table_out, keeps_arguments
  | |- keeps_table _ (eread _) => apply keeps_table_out, keeps_out_read
  | |- keeps_table _ (elift _) => apply keeps_table_out, keeps_out_read
  | |- keeps_table _ (definition_at _) => apply keeps_table_out, keeps_out_read
  | |- keeps_table _ (match ?x with _ => _ end) => destruct x
  | |- keeps_table _ (modify_out _) => apply keeps_table_modify; by intros []
  | |- keeps_table _ (try_modify_out _) =>
      apply keeps_table_try; let g := fresh in intros g ?; destruct (update_at _ _ _); [intros [= <-]; by destruct g|done]
  end.

Section phases.
Context `{IndexSet} (sg : Subgraphs).
Abbreviation keeps_searched m := (keeps_table searched m).

Lemma searched_before ir :
  keeps_searched (emit_directives sg (ir_directives ir)) ∧ keeps_searched (emit_subgraphs sg) ∧
  keeps_searched (emit_interface_impls sg) ∧ keeps_searched (emit_input_value_definitions sg (input_value_definitions (ir_tables ir))).
Proof.
  unfold emit_directives, emit_directive, insert_value, push_fdirective, emit_subgraphs, emit_interface_impls, emit_interface_impl,
    update_object, update_interface, emit_input_value_definitions, emit_input_value.
  split_and!; keeps_searched.
Qed.
Lemma searched_after t :
  keeps_searched (emit_union_members (union_members t) (union_join_members t)) ∧ keeps_searched (emit_keys sg (ir_keys t)).
Proof.
  unfold emit_union_members, emit_union_member, update_union, emit_keys, emit_key, update_object, update_interface.
  split; keeps_searched.
Qed.

(** ** The fields *)
Lemma E_bind_Ret {A B} (m : E A) (f : A → E B) c b c' :
  (a ← m; f a) c = Ret (b, c') → ∃ a c1, m c = Ret (a, c1) ∧ f a c1 = Ret (b, c').
Proof. unfold mbind, E_bind. destruct (m c) as [[a c1]|]; [|done]. simpl. by exists a, c1. Qed.
Lemma mapM_results {A B} (P : B → Prop) (f : A → E B) l c bs c' :
  (∀ x c b c', f x c = Ret (b, c') → P b) → mapM f l c = Ret (bs, c') → Forall P bs.
Proof.
  intros Hf. revert c bs c'. induction l as [|x l IH]; intros c bs c' E; cbn [mapM] in E; [by injection E as <- _|].
  apply E_bind_Ret in E as (y & c1 & Ey & E). apply E_bind_Ret in E as (ys & c2 & Eys & E). injection E as <- _.
  constructor; [by eapply Hf|by eapply IH].
Qed.
Lemma emit_field_order d f c fid dl c' :
  emit_field sg d f c = Ret (fid, dl, c') →
  searched (out c') = searched (out c) ∧ fid = length (fg_fields (out c)) ∧ length (fg_fields (out c')) = S fid ∧
  Forall (λ a, af_field_id a = fid) (field_authorized dl).
Proof.
  unfold emit_field. intros (ty & c1 & [O1 _]%keeps_field_type & E)%E_bind_Ret.
  apply E_bind_Ret in E as (n & c2 & [O2 _]%keeps_string & E). apply E_bind_Ret in E as (id & c3 & E3 & E).
  injection E3 as Hid <-. apply E_bind_Ret in E as (ps & c4 & E4 & E). apply E_bind_Ret in E as (rs & c5 & E5 & E).
  apply E_bind_Ret in E as (aus & c6 & E6 & E). apply E_bind_Ret in E as (u & c7 & E7 & E).
  injection E as <- <- <-. injection E7 as _ <-. cbn [out] in *.
  destruct (keeps_out_mapM _ _ (λ x _, keeps_provides sg id x) _ _ _ E4) as [O4 _].
  destruct (keeps_out_mapM _ _ (λ x _, keeps_requires sg id d x) _ _ _ E5) as [O5 _].
  destruct (keeps_out_mapM _ _ (λ x _, keeps_authorized sg d id (ft_definition ty) x) _ _ _ E6) as [O6 _].
  rewrite O6, O5, O4. cbn [out]. rewrite O2, O1. subst id. rewrite O2, O1. split_and!; [done|done| |].
  - simpl. rewrite length_app. simpl. lia.
  - cbn [field_authorized]. rewrite O2, O1 in E6. eapply (mapM_results (λ o, ∀ a, o = Some a → af_field_id a = length (fg_fields (out c)))) in E6.
    + apply Forall_forall. intros a Ha. rewrite Forall_forall in E6. apply list_elem_of_omap in Ha as (o & Ho & Ea). by eapply E6.
    + intros x c0 o c0' Eo a ->. unfold authorized_of in Eo. apply E_bind_Ret in Eo as (fl & c8 & _ & Eo).
      injection Eo as Eo _. destruct (authorized_ sg _); [|done]. by injection Eo as <-.
Qed.

(** The delayed directives are in the order of the fields. *)
Definition delayed_sorted (dl : Delayed) (n : nat) : Prop :=
  StronglySorted (λ a b, af_field_id a ≤ af_field_id b) (field_authorized dl) ∧
  Forall (λ a, af_field_id a < n) (field_authorized dl).
Lemma delayed_sorted_app dl dl' n :
  delayed_sorted dl n → Forall (λ a, af_field_id a = n) (field_authorized dl') → delayed_sorted (Delayed_app dl dl') (S n).
Proof.
  intros [Hs Hlt] Heq. unfold delayed_sorted. cbn [Delayed_app field_authorized]. split.
  - apply StronglySorted_app. split_and!; [|done|].
    + intros a b Ha Hb. rewrite Forall_forall in Hlt. rewrite Forall_forall in Heq. specialize (Hlt a Ha). specialize (Heq b Hb).
      cbn beta in *. lia.
    + clear -Heq. induction Heq as [|a l Ha Hl IH]; constructor; [done|]. eapply Forall_impl; [exact Hl|]. intros b Hb. cbn beta in *. lia.
  - apply Forall_app. split; (eapply Forall_impl; [eassumption|]); intros a Ha; cbn beta in *; lia.
Qed.
Lemma delayed_sorted_le dl n m : n ≤ m → delayed_sorted dl n → delayed_sorted dl m.
Proof. intros Hnm [Hs Hlt]. split; [done|]. eapply Forall_impl; [exact Hlt|]. intros a Ha. cbn beta in *. lia. Qed.
Lemma emit_field_loop_order d ids dl fs c r dl' c' :
  delayed_sorted dl (length (fg_fields (out c))) → emit_field_loop sg d ids dl fs c = Ret (r, dl', c') →
  searched (out c') = searched (out c) ∧ delayed_sorted dl' (length (fg_fields (out c'))).
Proof.
  revert ids dl c. induction fs as [|f fs IH]; intros ids dl c Hdl E; cbn [emit_field_loop] in E.
  { injection E as <- <- <-. done. }
  apply E_bind_Ret in E as ([fid dl1] & c1 & E1 & E). apply emit_field_order in E1 as (S1 & -> & L1 & A1).
  apply IH in E as [S2 Hs]; [|cbn [snd]; rewrite L1; by apply delayed_sorted_app]. split; [congruence|done].
Qed.
Lemma set_range_order d r schema type_ c u c' :
  set_range d r schema type_ c = Ret (u, c') →
  searched (out c') = searched (out c) ∧ length (fg_fields (out c)) ≤ length (fg_fields (out c')).
Proof.
  unfold set_range. intros (q & c1 & E1 & Er)%E_bind_Ret. unfold eread in E1. injection E1 as _ <-.
  assert (∀ (m : E unit) c0, keeps_table (λ g, (searched g, fg_fields g)) m → m c0 = Ret (u, c') →
    searched (out c') = searched (out c0) ∧ fg_fields (out c') = fg_fields (out c0)) as Hk.
  { intros m c0 Hm Em. apply Hm in Em. unfold searched in *. split; congruence. }
  assert (∀ i f, keeps_table (λ g, (searched g, fg_fields g)) (update_object i f)) as Ho by (intros; unfold update_object; keeps_searched).
  assert (∀ i f, keeps_table (λ g, (searched g, fg_fields g)) (update_interface i f)) as Hi by (intros; unfold update_interface; keeps_searched).
  destruct d as [|id|id| | |]; try done.
  - destruct (id =? q).
    + apply E_bind_Ret in Er as (v & c2 & E2 & Er). injection E2 as _ <-. apply (Hk _ _ (Ho _ _)) in Er as [-> ->]. simpl.
      split; [done|]. rewrite length_app. lia.
    + apply (Hk _ _ (Ho _ _)) in Er as [-> ->]. done.
  - apply (Hk _ _ (Hi _ _)) in Er as [-> ->]. done.
Qed.
Lemma emit_groups_order irf fi schema type_ dl gs c dl' c' :
  delayed_sorted dl (length (fg_fields (out c))) → emit_groups sg irf fi schema type_ dl gs c = Ret (dl', c') →
  searched (out c') = searched (out c) ∧ delayed_sorted dl' (length (fg_fields (out c'))).
Proof.
  revert dl c. induction gs as [|g gs IH]; intros dl c Hdl E; cbn [emit_groups] in E; [by injection E as <- <-|].
  apply E_bind_Ret in E as (dl1 & c1 & E1 & E). unfold emit_group in E1.
  apply E_bind_Ret in E1 as (fs & c2 & E2 & E1). unfold eread in E2. destruct (group_fields _ _ _ _ _ _); [|done]. injection E2 as -> <-.
  apply E_bind_Ret in E1 as ([r dl2] & c3 & E3 & E1). apply emit_field_loop_order in E3 as [S3 H3]; [|done].
  cbv zeta in E1. apply E_bind_Ret in E1 as (u & c4 & E4 & E1). apply set_range_order in E4 as [S4 L4]. injection E1 as <- <-.
  apply IH in E as [S5 H5]; [|by eapply delayed_sorted_le]. split; [congruence|done].
Qed.

(** ** The directives *)
Lemma push_authorized_searched a : keeps_searched (push_authorized a).
Proof. by intros c i c' [= _ <-]. Qed.
Lemma emit_authorized_field_order a c u c' :
  emit_authorized_field sg a c = Ret (u, c') →
  ∃ idx, searched (out c') =
    (fg_enum_values (out c), fg_field_authorized_directives (out c) ++ [(af_field_id a, idx)],
     fg_object_authorized_directives (out c), fg_interface_authorized_directives (out c)).
Proof.
  unfold emit_authorized_field. cbv zeta. unfold insert_value.
  intros (fs & c1 & E1 & Er)%E_bind_Ret. apply E_bind_Ret in Er as (n & c2 & E2 & Er). apply E_bind_Ret in Er as (m & c3 & E3 & Er).
  apply E_bind_Ret in Er as (ar & c4 & E4 & Er). apply E_bind_Ret in Er as (idx & c5 & E5 & Er). injection Er as _ <-.
  assert (searched (out c5) = searched (out c)) as Es.
  { apply push_authorized_searched in E5.
    apply (keeps_table_omapM searched) in E1; [|intros; keeps_searched]. apply (keeps_table_omapM searched) in E2; [|intros; keeps_searched].
    apply (keeps_table_omapM searched) in E3; [|intros; keeps_searched]. apply (keeps_table_omapM searched) in E4; [|intros; keeps_searched].
    congruence. }
  exists idx. unfold searched in *. injection Es as H1 H2 H3 H4. simpl. congruence.
Qed.
Lemma emit_authorized_fields_order l c u c' :
  eeach (emit_authorized_field sg) l c = Ret (u, c') →
  ∃ k, k.*1 = (af_field_id <$> l) ∧ searched (out c') =
    (fg_enum_values (out c), fg_field_authorized_directives (out c) ++ k,
     fg_object_authorized_directives (out c), fg_interface_authorized_directives (out c)).
Proof.
  revert c. induction l as [|a l IH]; intros c; cbn [eeach].
  { intros Er. injection Er as _ <-. exists []. by rewrite app_nil_r. }
  intros (v & c1 & E1 & Er)%E_bind_Ret. apply emit_authorized_field_order in E1 as (idx & E1). apply IH in Er as (k & Hk & Er).
  unfold searched in *. injection E1 as H1 H2 H3 H4. exists ((af_field_id a, idx) :: k).
  split; [by rewrite fmap_cons, Hk|]. rewrite Er, H1, H2, H3, H4. by rewrite <-(assoc_L (++)).
Qed.
Lemma emit_authorized_on_searched d s : keeps_searched (emit_authorized_on sg d s).
Proof. unfold emit_authorized_on, insert_value. keeps_searched. apply push_authorized_searched. Qed.
Lemma emit_object_authorized_order l c u c' :
  eeach (emit_object_authorized sg) l c = Ret (u, c') →
  ∃ k, k.*1 = l.*1 ∧ searched (out c') =
    (fg_enum_values (out c), fg_field_authorized_directives (out c), fg_object_authorized_directives (out c) ++ k,
     fg_interface_authorized_directives (out c)).
Proof.
  revert c. induction l as [|e l IH]; intros c; cbn [eeach].
  { intros Er. injection Er as _ <-. exists []. by rewrite app_nil_r. }
  intros (v & c1 & E1 & Er)%E_bind_Ret. unfold emit_object_authorized in E1. apply E_bind_Ret in E1 as (idx & c2 & E2 & E1).
  apply emit_authorized_on_searched in E2. injection E1 as _ <-. apply IH in Er as (k & Hk & Er).
  unfold searched in *. simpl in Er. injection E2 as H1 H2 H3 H4. exists ((e.1, idx) :: k).
  split; [by rewrite !fmap_cons, Hk|]. rewrite Er, H1, H2, H3, H4. by rewrite <-(assoc_L (++)).
Qed.
Lemma emit_interface_authorized_order l c u c' :
  eeach (emit_interface_authorized sg) l c = Ret (u, c') →
  ∃ k, k.*1 = l.*1 ∧ searched (out c') =
    (fg_enum_values (out c), fg_field_authorized_directives (out c), fg_object_authorized_directives (out c),
     fg_interface_authorized_directives (out c) ++ k).
Proof.
  revert c. induction l as [|e l IH]; intros c; cbn [eeach].
  { intros Er. injection Er as _ <-. exists []. by rewrite app_nil_r. }
  intros (v & c1 & E1 & Er)%E_bind_Ret. unfold emit_interface_authorized in E1. apply E_bind_Ret in E1 as (idx & c2 & E2 & E1).
  apply emit_authorized_on_searched in E2. injection E1 as _ <-. apply IH in Er as (k & Hk & Er).
  unfold searched in *. simpl in Er. injection E2 as H1 H2 H3 H4. exists ((e.1, idx) :: k).
  split; [by rewrite !fmap_cons, Hk|]. rewrite Er, H1, H2, H3, H4. by rewrite <-(assoc_L (++)).
Qed.

(** ** The graph *)
Lemma emit_fields_order irf fi schema type_ c u c' :
  emit_fields sg irf fi schema type_ c = Ret (u, c') →
  ∃ k, StronglySorted (λ x y, x.1 ≤ y.1) k ∧ searched (out c') =
    (fg_enum_values (out c), fg_field_authorized_directives (out c) ++ k,
     fg_object_authorized_directives (out c), fg_interface_authorized_directives (out c)).
Proof.
  unfold emit_fields. intros (gs & c1 & E1 & Er)%E_bind_Ret. unfold elift, eread in E1.
  destruct (for_each_field_group irf) as [gs'|]; [|done]. injection E1 as -> <-.
  apply E_bind_Ret in Er as (dl & c2 & E2 & Er). apply emit_groups_order in E2 as [S2 [Hs _]]; [|by split; constructor].
  apply E_bind_Ret in Er as (v & c3 & E3 & Er). apply E_bind_Ret in Er as (w & c4 & E4 & Er).
  assert (∀ add l, keeps_searched (eeach (emit_delayed sg add) l)) as Hd by (intros; unfold emit_delayed, update_field; keeps_searched).
  apply Hd in E3. apply Hd in E4. apply emit_authorized_fields_order in Er as (k & Hk & Er). exists k. split.
  - clear -Hs Hk. revert k Hk. induction Hs as [|a l Hs IH Ha]; intros [|e k] Hk; try done; constructor;
      rewrite !fmap_cons in Hk; injection Hk as He Hk; [by apply IH|]. rewrite He.
    assert (Forall (λ i, af_field_id a ≤ i) k.*1) as HF.
    { rewrite Hk. by apply (Forall_fmap af_field_id). }
    by apply (Forall_fmap fst) in HF.
  - unfold searched in *. rewrite S2 in E3. rewrite E3 in E4. injection E4 as H1 H2 H3 H4. rewrite Er, H1, H2, H3, H4. done.
Qed.
Lemma emit_order ir g :
  emit_federated_graph sg ir = Ret g →
  fg_enum_values g = ir_enum_values ir ∧ StronglySorted (λ x y, x.1 ≤ y.1) (fg_field_authorized_directives g) ∧
  (fg_object_authorized_directives g).*1 = (ComposeContext.object_authorized_directives (ir_tables ir)).*1 ∧
  (fg_interface_authorized_directives g).*1 = (ComposeContext.interface_authorized_directives (ir_tables ir)).*1.
Proof.
  unfold emit_federated_graph. destruct (intern "__schema" _) as [schema s1]. destruct (intern "__type" _) as [type_ s2].
  destruct (root_query (ir_tables ir)) as [q|]; [|done]. cbn [expect mbind res_bind].
  set (c0 := MkEmitCtx _ _ _ _ _). destruct (emit_all sg ir schema type_ c0) as [[u c]|] eqn:Er; [|done].
  intros [= <-]. change (searched (out c0)) with (searched (initial_graph ir q)).
  unfold emit_all in Er. destruct (searched_before ir) as (K1 & K2 & K3 & K4). destruct (searched_after (ir_tables ir)) as (K6 & K7).
  cbv zeta in Er. apply E_bind_Ret in Er as (v1 & c1 & E1 & Er). apply E_bind_Ret in Er as (v2 & c2 & E2 & Er).
  apply E_bind_Ret in Er as (v3 & c3 & E3 & Er). apply E_bind_Ret in Er as (v4 & c4 & E4 & Er).
  apply E_bind_Ret in Er as (v5 & c5 & E5 & Er). apply E_bind_Ret in Er as (v6 & c6 & E6 & Er).
  apply E_bind_Ret in Er as (v7 & c7 & E7 & Er). unfold emit_authorized_directives in Er.
  apply E_bind_Ret in Er as (v8 & c8 & E8 & Er).
  apply K1 in E1. apply K2 in E2. apply K3 in E3. apply K4 in E4. apply K6 in E6. apply K7 in E7.
  assert (searched (out c4) = (ir_enum_values ir, [], [], [])) as S4 by (rewrite E4, E3, E2, E1; done).
  apply emit_fields_order in E5 as (k & Hk & E5). apply emit_object_authorized_order in E8 as (ko & Hko & E8).
  apply emit_interface_authorized_order in Er as (ki & Hki & Er).
  unfold searched in *. injection S4 as H1 H2 H3 H4. rewrite H1, H2, H3, H4 in E5. rewrite E5 in E6. rewrite E6 in E7.
  injection E7 as G1 G2 G3 G4. rewrite G1, G2, G3, G4 in E8. injection E8 as F1 F2 F3 F4. rewrite F1, F2, F3, F4 in Er.
  injection Er as R1 R2 R3 R4. simpl. rewrite R1, R2, R3, R4. done.
Qed.
End phases.

(** The keys of a table that has the order of another one. *)
Lemma sorted_keys {A B} (l : list (nat * A)) (l' : list (nat * B)) :
  l.*1 = l'.*1 → StronglySorted (λ x y, x.1 ≤ y.1) l' → StronglySorted (λ x y, x.1 ≤ y.1) l.
Proof.
  revert l'. induction l as [|x l IH]; intros [|y l'] E Hs; try done; [constructor|].
  rewrite !fmap_cons in E. injection E as Exy E. apply StronglySorted_inv in Hs as [Hs Hy]. constructor; [by apply (IH l')|].
  rewrite Exy. assert (Forall (λ i, y.1 ≤ i) l.*1) as HF.
  { rewrite E. by apply (Forall_fmap fst). }
  by apply (Forall_fmap fst) in HF.
Qed.
(** The entries of a table of authorized directives with the id. *)
Definition all_authorized (g : FederatedGraph) (l : list (nat * nat)) (id : nat) : res (list FAuthorized) :=
  mapM_res (λ e, at_index (fg_authorized_directives g) e.2) (filter (λ e, e.1 = id) l).

(** What the renderer looks up by bisection is complete. In the graph that
    is emitted for composed subgraphs, [iter_enum_values] gives all the values
    of an enum, and the authorized directives that are printed for a field, an
    object or an interface are all those recorded for it, though nothing sorts
    the four vectors. *)
Theorem searches_complete `{IndexSet} ua un sg ds ir g :
  compose_ir ua un sg = Ret (ds, Some ir) → emit_federated_graph sg ir = Ret g →
  ∀ id,
    (iter_enum_values g id).*2 = filter (λ v, ev_enum_id v = id) (fg_enum_values g) ∧
    authorized_for g (fg_field_authorized_directives g) id = all_authorized g (fg_field_authorized_directives g) id ∧
    object_authorized_directives g id = all_authorized g (fg_object_authorized_directives g) id ∧
    interface_authorized_directives g id = all_authorized g (fg_interface_authorized_directives g) id.
Proof.
  intros [_ HO HI HE]%compose_ir_ordered (Ee & Hf & Eo & Ei)%emit_order id. split_and!.
  - apply iter_enum_values_all. rewrite Ee. by apply (owners_sorted_ids ir (λ v, FEnum (ev_enum_id v))).
  - by apply authorized_for_all.
  - apply authorized_for_all. apply (sorted_keys _ _ Eo). by apply (owners_sorted_ids ir (λ e, FObject e.1) fst).
  - apply authorized_for_all. apply (sorted_keys _ _ Ei). by apply (owners_sorted_ids ir (λ e, FInterface e.1) fst).
Qed.
