(* ===== verification/EmitClaims.v ===== *)
(** * Emission and rendering: what the federated graph says *)
From S2P Require Import Prelude RustStd Wrapping CheckSchema IndexSet FieldTypes Subgraphs Ingest IngestRules IngestProps IngestClaims Walkers ComposeContext ComposeDirectives ComposeTables ComposeEnums ComposeEnumsClaims Compose ComposeEntity ComposeValidate ComposeInvariant ComposeValidateProps ComposeGroups ComposeClaims FederatedGraph Emit ComposeFields GraphWf EmitInvariant EmitRules EmitLayout EmitGraph DisplayUtils Rendering RenderProps EmitOrder.
Local Open Scope string_scope.
Local Open Scope list_scope.
Local Open Scope nat_scope.

(** ** Printed types *)
Lemma a_suffix_snoc b ls l :
  a_suffix b (ls ++ [l]) = a_suffix b ls +:+ match l with RequiredList => "]!" | NullableList => "]" end.
Proof.
  unfold a_suffix. rewrite <-append_assoc. f_equal. induction ls as [|k ls IH]; simpl; [by rewrite append_nil|].
  rewrite IH. by rewrite append_assoc.
Qed.
Lemma print_type_suffix t :
  print_type t = repeat_str (list_depth t) "[" +:+ base_name t +:+
    a_suffix (type_inner_nonnull t) (kind_wrapping <$> reverse (type_kinds t)).
Proof.
  induction t as [n b|t IH b]; cbn [print_type list_depth base_name type_inner_nonnull type_kinds].
  { unfold a_suffix. simpl. rewrite append_nil. by destruct b. }
  rewrite IH, reverse_cons, fmap_app. cbn [fmap list_fmap]. rewrite a_suffix_snoc, !append_assoc.
  cbn [repeat_str]. rewrite <-!append_assoc. by destruct b.
Qed.
Lemma render_field_type_string ty g :
  Wrapping.wf (ft_wrapping ty) →
  render_field_type ty g = (name ← graph_definition_name g (ft_definition ty); Ret (write_type_string (ft_wrapping ty) name)).
Proof.
  intros Hwf. unfold render_field_type, graph_definition_name. destruct (definition_name_id g _) as [n|]; [|done].
  cbn [mbind res_bind]. unfold str_at. destruct (at_index (fg_strings g) n) as [s|]; [|done]. cbn [mbind res_bind].
  unfold write_type_string. do 4 f_equal. induction (list_wrappings (ft_wrapping ty)) as [|l ls IH]; [done|].
  cbn [foldr]. rewrite IH. by destruct l.
Qed.

Section printed.
Context `{IndexSetLaws} (sg : Subgraphs) (Hsg : wf sg) (ir : Ctx) (Hir : ir_wf sg ir).

Definition final_graph (c : EmitCtx) : FederatedGraph := set_strings (into_federated_strings (strings_ir c)) (out c).
Lemma fmap_lookup_same {A B C} (f : A → C) (g : B → C) (l : list A) (l' : list B) i y :
  f <$> l = g <$> l' → l' !! i = Some y → ∃ x, l !! i = Some x ∧ f x = g y.
Proof.
  intros E Hy. assert ((f <$> l) !! i = Some (g y)) as Hx by (by rewrite E, list_lookup_fmap, Hy).
  rewrite list_lookup_fmap in Hx. destruct (l !! i) as [x|]; [|done]. exists x. split; [done|]. by injection Hx.
Qed.
Lemma final_name_id c n d : ewf sg ir c → defined_as ir n d → definition_name_id (final_graph c) d = Ret n.
Proof.
  intros W Hd. assert (∀ id k, type_at ir id k n → type_definition_name (final_graph c) id = Ret n) as Ht.
  { intros id k (td & Htd & _ & <-). unfold type_definition_name, at_index. cbn [final_graph set_strings fg_type_definitions].
    by rewrite (e_types _ _ _ W), Htd. }
  destruct d as [id|id|id|id|id|id]; cbn [defined_as definition_name_id] in *; [by eapply Ht| | | |by eapply Ht|].
  - destruct Hd as (o & Ho & Hd). destruct (fmap_lookup_same _ _ _ _ _ _ (e_objects _ _ _ W) Ho) as (x & Hx & E).
    unfold at_index. cbn [final_graph set_strings fg_objects]. rewrite Hx. cbn [expect mbind res_bind]. rewrite E. by eapply Ht.
  - destruct Hd as (o & Ho & Hd). destruct (fmap_lookup_same _ _ _ _ _ _ (e_interfaces _ _ _ W) Ho) as (x & Hx & E).
    unfold at_index. cbn [final_graph set_strings fg_interfaces]. rewrite Hx. cbn [expect mbind res_bind]. rewrite E. by eapply Ht.
  - destruct Hd as (o & Ho & <-). destruct (fmap_lookup_same _ _ _ _ _ _ (e_unions _ _ _ W) Ho) as (x & Hx & E).
    unfold at_index. cbn [final_graph set_strings fg_unions]. rewrite Hx. cbn [expect mbind res_bind]. by rewrite E.
  - destruct Hd as (o & Ho & <-). unfold at_index. cbn [final_graph set_strings fg_input_objects].
    by rewrite (e_input_objects _ _ _ W), Ho.
Qed.
Lemma final_string c n s : get_index (strings_ir c) n = Some s → str_at (final_graph c) n = Ret s.
Proof. intros Hn. unfold str_at, at_index. cbn [final_graph set_strings fg_strings]. by rewrite federated_strings_lookup, Hn. Qed.
Lemma has_def_name c s d : ewf sg ir c → has_def ir s d → graph_definition_name (final_graph c) d = Ret s.
Proof.
  intros W (n & Hn & Hd). unfold graph_definition_name. rewrite (final_name_id c n d W) by by apply (w_names _ _ Hir).
  apply final_string. by apply (e_strings _ _ _ W).
Qed.
Lemma typed_as_printed c id ty :
  ewf sg ir c → typed_as sg ir id ty → render_field_type ty (final_graph c) = display (store sg) id.
Proof.
  intros W (t & Ht & Hd & Hwf & Ha). rewrite render_field_type_string by done.
  rewrite (has_def_name c _ _ W Hd). cbn [mbind res_bind].
  rewrite write_type_string_eq by done. rewrite Ha. cbn [a_lists a_inner].
  rewrite length_fmap, length_reverse, length_type_kinds, <-print_type_suffix.
  symmetry. apply represents_display; [apply (wf_store _ Hsg)|done].
Qed.
End printed.

(** ** [compose]: from the subgraphs to the SDL *)
Section compose.
Context `{IndexSet} (ua un : string → bool) (f64_fmt : Z → string) (unicode_uppercase : string → string).

Definition compose (sg : Subgraphs) : res (list string * option string) :=
  '(ds, ir) ← compose_ir ua un sg;
  match ir with
  | None => Ret (ds, None)
  | Some ir =>
      g ← emit_federated_graph sg ir; sdl ← render_federated_sdl f64_fmt unicode_uppercase g; Ret (ds, Some sdl)
  end.
End compose.

Section claims.
Context `{IndexSetLaws} (parse_query : string → string + ExecutableDocument) (ua un : string → bool)
  (f64_fmt : Z → string) (unicode_uppercase : string → string).
Implicit Types sg : Subgraphs.

(** What holds of an intermediate representation that composition returns. *)
Lemma composed_context sg ds ir :
  reachable parse_query sg → (N.of_nat (iset_len (strings (store sg))) ≤ usize_max)%N →
  compose_ir ua un sg = Ret (ds, Some ir) → emittable sg ir →
  ∃ c, emit_federated_graph sg ir = Ret (final_graph c) ∧ wf sg ∧ ir_wf sg ir ∧ ewf sg ir c ∧ emitted_all sg ir c.
Proof.
  intros Hr Hlen Hc Hem. pose proof (reachable_wf parse_query _ Hr) as Hwf.
  pose proof (compose_ir_ok parse_query ua un sg Hr Hlen) as Hok. rewrite Hc in Hok. destruct Hok as (_ & Hir & Hq & _).
  destruct (emission_ok sg Hwf ir Hir Hem (compose_ir_grouped _ _ _ _ _ Hc) Hq) as (c & E & W & Ha). by exists c.
Qed.

(** C2. From the subgraphs to the SDL. On every state that ingestion reaches, if
    the composed graph is [emittable], [compose] returns the SDL of a
    well-formed federated graph and no diagnostic, or diagnostics and no graph,
    and it panics only where validation or the merge of enums does: emission and
    rendering return. [emittable] asks that the base type of every field and
    input value is defined and has at most 21 lists around it (a wrapping has
    no room for more, and panics), that the interfaces, implementers, members
    of unions and fields and arguments named by keys, [@provides], [@requires]
    and [@authorized] exist, that keys belong to objects and interfaces, and
    that the fields, like the strings, number at most [usize::MAX]. *)
Theorem compose_total sg :
  reachable parse_query sg → (N.of_nat (iset_len (strings (store sg))) ≤ usize_max)%N →
  (∀ ds ir, compose_ir ua un sg = Ret (ds, Some ir) → emittable sg ir) →
  match compose ua un f64_fmt unicode_uppercase sg with
  | Ret (ds, Some sdl) => ds = [] ∧ ∃ ir g, compose_ir ua un sg = Ret ([], Some ir) ∧
      emit_federated_graph sg ir = Ret g ∧ graph_wf g ∧ render_federated_sdl f64_fmt unicode_uppercase g = Ret sdl
  | Ret (ds, None) => ds ≠ []
  | Panic _ => unvalidated sg ∨ enum_outgrown sg
  end.
Proof.
  intros Hr Hlen Hem. pose proof (compose_ir_ok parse_query ua un sg Hr Hlen) as Hok. unfold compose.
  destruct (compose_ir ua un sg) as [[ds [ir|]]|] eqn:E; [|done|done].
  destruct Hok as (-> & _). destruct (composed_context sg [] ir Hr Hlen E (Hem _ _ eq_refl)) as (c & Eg & Hwf & Hir & W & Ha).
  cbn [mbind res_bind]. rewrite Eg. cbn [mbind res_bind].
  assert (graph_wf (final_graph c)) as Hg by (by apply (final_graph_wf sg ir)).
  destruct (total_federated f64_fmt unicode_uppercase _ Hg) as [sdl Es]. rewrite Es. cbn [mbind res_bind].
  split; [done|]. by exists ir, (final_graph c).
Qed.

(** The emitted field says what the field of the intermediate representation
    says, with the type that the subgraphs print. *)
Definition field_says sg (g : FederatedGraph) (f : FieldIr) (ff : FField) : Prop :=
  str_at g (ff_name ff) = Ret (str sg (fi_field_name f)) ∧
  render_field_type (ff_type ff) g = display (store sg) (fi_field_type f) ∧
  ff_arguments ff = fi_arguments f ∧ ff_resolvable_in ff = fi_resolvable_in f ∧ ff_overrides ff = fi_overrides f ∧
  ff_composed_directives ff = fi_composed_directives f ∧ ff_description ff = fi_description f.

(** C8. The layout of the fields. Every object and interface with fields has
    one range of ids in the graph: its fields and those that entity interfaces
    contribute, sorted by name, then the two fields for introspection if it is
    the query root. Each field has the name and the type as the subgraphs print
    them, and the arguments, subgraphs, overrides, directives and description
    of its composition. *)
Theorem emitted_layout sg ds ir g d f0 :
  reachable parse_query sg → (N.of_nat (iset_len (strings (store sg))) ≤ usize_max)%N →
  compose_ir ua un sg = Ret (ds, Some ir) → emittable sg ir → emit_federated_graph sg ir = Ret g → own_field ir d f0 →
  ∃ fs a, fields_of_def sg ir d fs ∧ range_of g d = Some (a, a + length fs + introspection_fields g d) ∧
    ∀ j f, fs !! j = Some f → ∃ ff, fg_fields g !! (a + j) = Some ff ∧ field_says sg g f ff.
Proof.
  intros Hr Hlen Hc Hem Eg Hf. destruct (composed_context sg ds ir Hr Hlen Hc Hem) as (c & E & Hwf & Hir & W & Ha).
  rewrite E in Eg. injection Eg as <-. destruct Ha as [Hl _]. destruct (Hl d f0 Hf) as (fs & a & Hfs & Hrange & Hffs).
  exists fs, a. split_and!; [done|exact Hrange|]. intros j f Hj. destruct (Hffs j f Hj) as (ff & Hff & Hn & Ht & He).
  exists ff. split; [done|]. split; [by apply final_string|]. split; [by apply (typed_as_printed sg Hwf ir Hir)|done].
Qed.

(** The input values are emitted in place: the graph has as many as the
    intermediate representation, each with the name, the printed type, the
    directives and the description of its counterpart, so that the ranges of
    arguments and input fields keep their meaning. *)
Theorem emitted_input_values sg ds ir g :
  reachable parse_query sg → (N.of_nat (iset_len (strings (store sg))) ≤ usize_max)%N →
  compose_ir ua un sg = Ret (ds, Some ir) → emittable sg ir → emit_federated_graph sg ir = Ret g →
  Forall2 (λ v fv, fiv_name fv = ivd_name v ∧ render_field_type (fiv_type fv) g = display (store sg) (ivd_type v) ∧
    fiv_directives fv = ivd_directives v ∧ fiv_description fv = ivd_description v)
    (input_value_definitions (ir_tables ir)) (fg_input_value_definitions g).
Proof.
  intros Hr Hlen Hc Hem Eg. destruct (composed_context sg ds ir Hr Hlen Hc Hem) as (c & E & Hwf & Hir & W & Ha).
  rewrite E in Eg. injection Eg as <-. destruct Ha as (_ & _ & _ & Hv). eapply Forall2_impl; [exact Hv|].
  intros v fv (? & Ht & ? & ?). split_and!; [done| |done|done]. by apply (typed_as_printed sg Hwf ir Hir).
Qed.

(** [for_each_field_group] on the fields that composition collects. It
    returns one group for each definition that has fields, with exactly the
    fields of the definition in their order, and the groups together are the
    fields: [partition_point] is used on fields that are grouped, though not
    sorted. *)
Theorem composed_field_groups sg ds ir :
  compose_ir ua un sg = Ret (ds, Some ir) →
  ∃ gs, for_each_field_group (ir_fields (ir_tables ir)) = Ret gs ∧ NoDup gs.*1 ∧
    concat gs.*2 = ir_fields (ir_tables ir) ∧
    ∀ d, (∃ f, own_field ir d f) ↔
      (d, filter (λ f, fi_parent_definition f = d) (ir_fields (ir_tables ir))) ∈ gs.
Proof.
  intros [_ Hg]%compose_ir_grouped. exists (chunk_by fi_parent_definition (ir_fields (ir_tables ir))).
  split_and!; [by apply for_each_field_group_runs|exact Hg|apply chunk_by_concat|].
  intros d. split.
  - intros [f Hf]. apply (chunk_of_field ir) in Hf as ([d' l] & -> & Hin)%list_elem_of_fmap. simpl.
    by rewrite <-(consecutive_chunk _ _ _ _ Hg Hin).
  - intros Hin. pose proof (chunk_by_keys fi_parent_definition (ir_fields (ir_tables ir))) as HF. rewrite Forall_forall in HF.
    destruct (HF _ Hin) as [Hne _]. simpl in Hne.
    destruct (filter _ _) as [|f l] eqn:Ef; [done|]. exists f.
    assert (f ∈ filter (λ f, fi_parent_definition f = d) (ir_fields (ir_tables ir))) as [? ?]%list_elem_of_filter by (rewrite Ef; by left).
    by split.
Qed.
End claims.

(** C31. Rendering is safe: on a well-formed graph both renderers return, so
    that the [unwrap] of the rendered SDL never fails. *)
Theorem rendering_total f64_fmt unicode_uppercase g :
  graph_wf g →
  (∃ sdl, render_federated_sdl f64_fmt unicode_uppercase g = Ret sdl) ∧
  (∃ sdl, render_api_sdl f64_fmt unicode_uppercase g = Ret sdl).
Proof. intros Hg. split; [by apply total_federated|by apply total_api]. Qed.

(** ** Emission and rendering on concrete subgraphs *)

#[local] Existing Instance list_index_set.
#[local] Existing Instance list_index_set_laws.
Definition no_floats (_ : Z) : string := "0".
Definition no_uppercase (s : string) : string := s.

(** ** The names of the two subgraphs exist *)
#[local] Opaque users_and_roles the_ir.
Definition the_fields : list FieldIr := Eval vm_compute in ir_fields (ir_tables the_ir).
Definition the_values : list InputValueDefinitionIr := Eval vm_compute in input_value_definitions (ir_tables the_ir).
Definition the_keys : list KeyIr := Eval vm_compute in ir_keys (ir_tables the_ir).
Lemma the_fields_eq : ir_fields (ir_tables the_ir) = the_fields.
Proof. vm_compute. reflexivity. Qed.
Lemma the_values_eq : input_value_definitions (ir_tables the_ir) = the_values.
Proof. vm_compute. reflexivity. Qed.
Lemma the_keys_eq : ir_keys (ir_tables the_ir) = the_keys.
Proof. vm_compute. reflexivity. Qed.
Ltac known t d n :=
  exists t, d; split_and!;
    [eexists; split_and!; [vm_compute; reflexivity|vm_compute; reflexivity|reflexivity|]
    |exists n; split; vm_compute; reflexivity|vm_compute; lia].
Lemma the_field_types : Forall (λ f, known_type users_and_roles the_ir (fi_field_type f)) the_fields.
Proof.
  repeat constructor; cbn [fi_field_type].
  - known (ANamed "ID" false) (FScalar 0) 0. constructor.
  - known (ANamed "Role" true) (FEnum 6) 8. constructor.
  - known (ANamed "User" true) (FObject 0) 5. constructor.
  - known (AList (ANamed "User" false) true) (FObject 0) 5. econstructor; [vm_compute; reflexivity|constructor].
Qed.
Lemma the_value_types : Forall (λ v, known_type users_and_roles the_ir (ivd_type v)) the_values.
Proof.
  repeat constructor; cbn [ivd_type].
  - known (ANamed "String" false) (FScalar 1) 1. constructor.
  - known (ANamed "Filter" true) (FInputObject 0) 6. constructor.
Qed.
Lemma the_fields_plain :
  Forall (λ f, fi_provides f = [] ∧ fi_requires f = [] ∧ fi_authorized_directives f = []) the_fields.
Proof. repeat constructor. Qed.
Lemma no_contributions : object_fields_from_entity_interfaces (ir_tables the_ir) = ∅.
Proof. vm_compute. reflexivity. Qed.
Lemma the_field_of d f : field_of the_ir d f → f ∈ the_fields.
Proof.
  intros [[Hf _]|(id & name & i & _ & _ & _ & Hin & _)]; [by rewrite the_fields_eq in Hf|]. rewrite no_contributions in Hin. set_solver.
Qed.
Lemma key_resolves : Forall (resolves_on users_and_roles the_ir (FObject 0)) [SField 8 [] []].
Proof.
  constructor; [|done]. constructor; [|intros; split; constructor].
  exists (MkFieldIr (FObject 0) 8 0 (0, 0) [] [] [] [] [] (0, 0) None). split; [|reflexivity]. left. split; [|reflexivity].
  rewrite the_fields_eq. by left.
Qed.
Lemma users_and_roles_emittable : emittable users_and_roles the_ir.
Proof.
  split.
  - rewrite the_fields_eq. apply Forall_forall, the_field_types.
  - rewrite the_values_eq. apply Forall_forall, the_value_types.
  - intros d f Hf%the_field_of. pose proof the_fields_plain as HF. rewrite Forall_forall in HF.
    destruct (HF f Hf) as (E1 & E2 & E3). unfold directives_resolve. rewrite E1, E2, E3.
    refine (conj _ (conj _ _)); intros p t l Hp; exfalso; exact (not_elem_of_nil p Hp).
  - assert (interface_impls users_and_roles = ∅) as -> by (vm_compute; reflexivity).
    intros x y Hin. destruct (not_elem_of_empty _ Hin).
  - assert (union_members (ir_tables the_ir) = ∅) as -> by (vm_compute; reflexivity).
    intros x y Hin. destruct (not_elem_of_empty _ Hin).
  - rewrite the_keys_eq. intros k key Hk Hkey.
    assert (key_parent k = FObject 0 ∧ selection_set key.2 = [SField 8 [] []]) as [-> ->].
    { repeat (apply elem_of_cons in Hk as [->|Hk]; [vm_compute in Hkey; injection Hkey as <-; split; reflexivity|]).
      destruct (not_elem_of_nil _ Hk). }
    split; [by exists 0; left|apply key_resolves].
  - assert (ComposeContext.object_authorized_directives (ir_tables the_ir) = []) as -> by (vm_compute; reflexivity). intros id site a l Hin. destruct (not_elem_of_nil _ Hin).
  - assert (ComposeContext.interface_authorized_directives (ir_tables the_ir) = []) as -> by (vm_compute; reflexivity). intros id site a l Hin. destruct (not_elem_of_nil _ Hin).
  - rewrite the_fields_eq. vm_compute. discriminate.
Qed.

(** ** From the subgraphs to the SDL *)
Abbreviation run := (compose no_unicode no_unicode no_floats no_uppercase).
Definition the_sdl : string := Eval vm_compute in match run users_and_roles with Ret (_, Some s) => s | _ => "" end.
Lemma run_users_and_roles : run users_and_roles = Ret ([], Some the_sdl).
Proof. vm_compute. reflexivity. Qed.
Definition the_graph : FederatedGraph :=
  Eval vm_compute in
    match emit_federated_graph users_and_roles the_ir with Ret g => g | Panic _ => initial_graph the_ir 0 end.
Lemma the_graph_emitted : emit_federated_graph users_and_roles the_ir = Ret the_graph.
Proof. vm_compute. reflexivity. Qed.
Lemma the_ir_emittable ds ir :
  compose_ir no_unicode no_unicode users_and_roles = Ret (ds, Some ir) → emittable users_and_roles ir.
Proof.
  intros E. rewrite users_and_roles_compose in E.
  refine (eq_ind the_ir (emittable users_and_roles) users_and_roles_emittable ir _).
  exact (f_equal (λ r, match r with Ret (_, Some c) => c | _ => Ctx_empty end) E).
Qed.
#[local] Opaque the_sdl the_graph.

Lemma compose_total_witness :
  run users_and_roles = Ret ([], Some the_sdl) ∧
  ∃ ir g, compose_ir no_unicode no_unicode users_and_roles = Ret ([], Some ir) ∧
    emit_federated_graph users_and_roles ir = Ret g ∧ graph_wf g ∧ render_federated_sdl no_floats no_uppercase g = Ret the_sdl.
Proof.
  split; [exact run_users_and_roles|].
  pose proof (compose_total parse_some no_unicode no_unicode no_floats no_uppercase users_and_roles users_and_roles_reachable
    users_and_roles_small the_ir_emittable) as Ho.
  rewrite run_users_and_roles in Ho. exact (proj2 Ho).
Defined.
(** The fields of [Query] are sorted by name and followed by the fields for introspection. *)
Lemma emitted_layout_witness :
  range_of the_graph (FObject 1) = Some (2, 6) ∧
  ∃ fs a, fields_of_def users_and_roles the_ir (FObject 1) fs ∧
    range_of the_graph (FObject 1) = Some (a, a + length fs + introspection_fields the_graph (FObject 1)).
Proof.
  split; [vm_compute; reflexivity|].
  destruct (nth_error the_fields 2) as [f|] eqn:Ef; [|vm_compute in Ef; discriminate Ef].
  assert (own_field the_ir (FObject 1) f) as Hf.
  { split; [|vm_compute in Ef; injection Ef as <-; reflexivity]. rewrite the_fields_eq.
    apply list_elem_of_In. eapply nth_error_In. exact Ef. }
  destruct (emitted_layout parse_some no_unicode no_unicode users_and_roles [] the_ir the_graph (FObject 1) f
    users_and_roles_reachable users_and_roles_small users_and_roles_compose users_and_roles_emittable the_graph_emitted Hf)
    as (fs & a & Hfs & Hr & _).
  exists fs, a. split; [exact Hfs|exact Hr].
Defined.
Lemma emitted_input_values_witness :
  length (fg_input_value_definitions the_graph) = 2 ∧
  Forall2 (λ v fv, fiv_name fv = ivd_name v ∧
    render_field_type (fiv_type fv) the_graph = display (store users_and_roles) (ivd_type v) ∧
    fiv_directives fv = ivd_directives v ∧ fiv_description fv = ivd_description v)
    (input_value_definitions (ir_tables the_ir)) (fg_input_value_definitions the_graph).
Proof.
  split; [vm_compute; reflexivity|].
  exact (emitted_input_values parse_some no_unicode no_unicode users_and_roles [] the_ir the_graph users_and_roles_reachable
    users_and_roles_small users_and_roles_compose users_and_roles_emittable the_graph_emitted).
Defined.
Lemma composed_field_groups_witness :
  ∃ gs, for_each_field_group (ir_fields (ir_tables the_ir)) = Ret gs ∧ NoDup gs.*1 ∧
    concat gs.*2 = ir_fields (ir_tables the_ir) ∧
    ∀ d, (∃ f, own_field the_ir d f) ↔
      (d, filter (λ f, fi_parent_definition f = d) (ir_fields (ir_tables the_ir))) ∈ gs.
Proof. exact (composed_field_groups no_unicode no_unicode users_and_roles [] the_ir users_and_roles_compose). Defined.
Lemma the_graph_wf : graph_wf the_graph.
Proof.
  destruct (composed_context parse_some no_unicode no_unicode users_and_roles [] the_ir users_and_roles_reachable
    users_and_roles_small users_and_roles_compose users_and_roles_emittable) as (c & E & _ & _ & W & Ha).
  rewrite the_graph_emitted in E.
  refine (eq_ind_r graph_wf (final_graph_wf users_and_roles the_ir c W Ha) _).
  exact (f_equal (λ r, match r with Ret g => g | Panic _ => the_graph end) E).
Qed.
Lemma rendering_total_witness :
  (∃ sdl, render_federated_sdl no_floats no_uppercase the_graph = Ret sdl) ∧
  (∃ sdl, render_api_sdl no_floats no_uppercase the_graph = Ret sdl).
Proof. exact (rendering_total no_floats no_uppercase the_graph the_graph_wf). Defined.

(** [Role] is the sixth type definition. *)
Lemma searches_complete_witness :
  length (iter_enum_values the_graph 6) = 2 ∧
  (iter_enum_values the_graph 6).*2 = filter (λ v, ev_enum_id v = 6) (fg_enum_values the_graph).
Proof.
  split; [vm_compute; reflexivity|].
  exact (proj1 (searches_complete no_unicode no_unicode users_and_roles [] the_ir the_graph users_and_roles_compose the_graph_emitted 6)).
Defined.

(** ** What the code does not handle *)
Definition run_all (subgraphs_ : list (string * Document)) : res (list string * option string) :=
  sg ← ingested subgraphs_; run sg.

(** Emission panics where its documentation says that it cannot fail: on a
    field whose type is a root type that is not named [Query], and on a key
    that selects a field that the type does not have. *)
Theorem emission_panics :
  run_all [("a", [TSSchema (MkSchemaDefinition [] (Some "Root") None None);
                  object "Root" [] [field "root" (ANamed "Root" true)]])]
    = Panic ("Invariant violation: definition " +:+ quoted "Root" +:+ " from field type not registered.") ∧
  run_all [("a", [object "User" [key "organization { id }"] [field "id" (ANamed "ID" false)];
                  query [field "me" (ANamed "User" true)]])]
    = Panic "no entry found for key".
Proof. vm_compute. split; reflexivity. Qed.

Fixpoint contains (sub s : string) : bool :=
  match strip_prefix sub s, s with
  | Some _, _ => true
  | None, String _ s => contains sub s
  | None, EmptyString => false
  end.
Definition provider : Document :=
  [query [field "me" (ANamed "User" true)];
   object "User" [key "organization { id }"]
     [field "id" (ANamed "ID" false);
      with_directive "organization" (ANamed "Organization" false) "provides" [("fields", CString "id")]];
   object "Organization" [key "id"] [field "id" (ANamed "ID" false)]].
(** A field of a key with [@provides] is rendered without the closing
    parenthesis of its directive. *)
Theorem provides_unclosed :
  match run_all [("a", provider)] with
  | Ret ([], Some sdl) =>
      contains ("    organization: Organization! @join__field(graph: A, provides: " +:+ quoted "id" +:+ newline +:+ "}") sdl = true
  | _ => False
  end.
Proof. vm_compute. reflexivity. Qed.

Definition with_argument : FieldDefinition :=
  MkFieldDefinition "f" None [Ingest.MkInputValueDefinition "x" None (ANamed "Int" true) None []] (ANamed "Int" true) [].
(** The arguments of the fields of an interface do not make it into the graph. *)
Theorem interface_arguments_lost :
  match run_all [("a", [query [field "n" (ANamed "Node" true)];
                        TSType (Ingest.MkTypeDefinition "Node" None [] (Ingest.TInterface [] [with_argument]))])] with
  | Ret ([], Some sdl) => contains ("interface Node {" +:+ newline +:+ "    f: Int" +:+ newline +:+ "}") sdl = true
  | _ => False
  end.
Proof. vm_compute. reflexivity. Qed.

Definition one_interface : FederatedGraph :=
  MkFederatedGraph [] (MkRootOperationTypes 0 None None)
    [MkTypeDefinition 0 None (0, 0) TScalar; MkTypeDefinition 1 None (0, 0) ComposeContext.TInterface] []
    [MkFInterface 1 [] [] (0, 1) []]
    [MkFField 2 (MkFType Wrapping.nullable (FScalar 0)) (0, 1) [] [] [] [] (0, 0) None] [] [] []
    [MkFInputValue 3 (MkFType Wrapping.nullable (FScalar 0)) (0, 0) None (Some (FVObject [(3, FVInt 1)]))]
    ["Int"; "Node"; "f"; "x"] [] [] [] [] [].
(** The API schema has the arguments of the fields of an interface after the
    type; the names in an object value are quoted like strings. *)
Theorem api_interface_arguments :
  render_api_sdl no_floats no_uppercase one_interface =
    Ret ("interface Node {" +:+ newline +:+ "    f: Int(x: Int = {" +:+ quoted "x" +:+ ": 1})" +:+ newline +:+ "}" +:+ newline).
Proof. vm_compute. reflexivity. Qed.
