(* ===== verification/StringLiterals.v ===== *)
(** * String literals: [parser/src/parse/utils.rs] and [write_quoted]

    [string_value] decodes the text between the quotes of a string literal;
    the grammar guarantees what it expects, and what it does otherwise is a
    panic here. [write_quoted] of the SDL renderer is its inverse on text
    without control characters other than tabs and line ends. *)
From Stdlib Require Import Ascii.
From S2P Require Import Prelude RustStd ComposeValidate FederatedGraph DisplayUtils.
Local Open Scope string_scope.
Local Open Scope list_scope.
Local Open Scope nat_scope.

(** [char::to_digit(16)]. *)
Definition to_digit16 (c : string) : option N :=
  match c with
  | String a EmptyString =>
      let n := N_of_ascii a in
      if ascii_in 48 57 a then Some (n - 48)%N
      else if ascii_in 97 102 a then Some (n - 87)%N
      else if ascii_in 65 70 a then Some (n - 55)%N
      else None
  | _ => None
  end.
(** [char::from_u32] for a number of at most four hexadecimal digits, as UTF-8. *)
Definition from_u32 (n : N) : option string :=
  let b (x : N) := N.to_nat x in
  if (n <? 128)%N then Some (bytes [b n])
  else if (n <? 2048)%N then Some (bytes [b (192 + n / 64); b (128 + n mod 64)]%N)
  else if ((55296 <=? n) && (n <? 57344))%N then None
  else Some (bytes [b (224 + n / 4096); b (128 + n / 64 mod 64); b (128 + n mod 64)]%N).

Definition simple_escape (c : string) : option string :=
  if bool_decide (c ∈ [String dquote ""; backslash; "/"]) then Some c
  else if String.eqb c "b" then Some (bytes [8])
  else if String.eqb c "f" then Some (bytes [12])
  else if String.eqb c "n" then Some (bytes [10])
  else if String.eqb c "r" then Some (bytes [13])
  else if String.eqb c "t" then Some (bytes [9])
  else None.
Fixpoint string_value_loop (cs : list string) : res string :=
  match cs with
  | [] => Ret ""
  | c :: cs =>
      if String.eqb c backslash then
        match cs with
        | [] => Panic "backslash at end"
        | e :: cs =>
            if String.eqb e "u" then
              match cs with
              | a :: b :: d :: h :: cs =>
                  a ← unwrap (to_digit16 a); b ← unwrap (to_digit16 b); d ← unwrap (to_digit16 d); h ← unwrap (to_digit16 h);
                  c ← unwrap (from_u32 (((a * 16 + b) * 16 + d) * 16 + h)%N);
                  rest ← string_value_loop cs; Ret (c +:+ rest)
              | _ => Panic "called `Option::unwrap()` on a `None` value"
              end
            else
              c ← expect "internal error: entered unreachable code" (simple_escape e);
              rest ← string_value_loop cs; Ret (c +:+ rest)
        end
      else rest ← string_value_loop cs; Ret (c +:+ rest)
  end.
Definition string_value (s : string) : res string := string_value_loop (chars s).

(** The unit tests of the crate. *)
Example test_string_value :
  string_value "abc" = Ret "abc" ∧
  string_value (backslash +:+ "n" +:+ backslash +:+ "b" +:+ backslash +:+ "u2a1A") = Ret (bytes [10; 8; 226; 168; 154]) ∧
  string_value (backslash +:+ String dquote "" +:+ backslash +:+ backslash) = Ret (String dquote "" +:+ backslash).
Proof. vm_compute. split_and!; reflexivity. Qed.

(** ** Characters *)

(** A [str] does not start with a continuation byte. *)
Definition starts_char (s : string) : Prop :=
  match s with String c _ => is_continuation c = false | EmptyString => True end.
Global Instance starts_char_dec s : Decision (starts_char s).
Proof. destruct s; simpl; apply _. Defined.
Lemma chars_concat s : String.concat "" (chars s) = s.
Proof.
  assert (∀ w ws, String.concat "" (w :: ws) = w +:+ String.concat "" ws) as Hc.
  { intros w [|v ws]; simpl; [by rewrite append_nil|done]. }
  induction s as [|c s IH]; [done|]. cbn [chars]. destruct s as [|c' s']; [done|].
  destruct (is_continuation c'); [|by rewrite Hc, IH].
  destruct (chars (String c' s')) as [|w ws] eqn:E; [simpl in IH; congruence|]. rewrite Hc in IH |- *. by rewrite <-IH.
Qed.
Lemma chars_nonempty c s : chars (String c s) ≠ [].
Proof.
  cbn [chars]. destruct s as [|c' s]; [done|]. destruct (is_continuation c'); [|done]. by destruct (chars (String c' s)).
Qed.
Lemma chars_cons c c' s :
  chars (String c (String c' s)) =
    if is_continuation c' then match chars (String c' s) with w :: ws => String c w :: ws | [] => [String c ""] end
    else String c "" :: chars (String c' s).
Proof. reflexivity. Qed.
Lemma chars_app a b : starts_char b → chars (a +:+ b) = chars a ++ chars b.
Proof.
  intros Hb. induction a as [|c a IH]; [done|]. change (String c a +:+ b) with (String c (a +:+ b)).
  destruct a as [|c' a].
  - destruct b as [|d b]; [done|]. change ("" +:+ String d b) with (String d b). rewrite chars_cons.
    unfold starts_char in Hb. by rewrite Hb.
  - change (String c' a +:+ b) with (String c' (a +:+ b)) in IH |- *. rewrite !chars_cons, IH.
    destruct (is_continuation c'); [|done]. pose proof (chars_nonempty c' a) as Hne. by destruct (chars (String c' a)).
Qed.
(** The characters of a [str] are characters. *)
Definition is_char (c : string) : Prop := chars c = [c] ∧ starts_char c.
Lemma chars_are_chars s : starts_char s → Forall is_char (chars s).
Proof.
  assert (∀ s, match chars s with
    | [] => True
    | w :: ws => chars w = [w] ∧ Forall is_char ws ∧ ∃ c r r', w = String c r ∧ s = String c r'
    end) as Hg.
  { clear s. induction s as [|c s IH]; [done|]. destruct s as [|c' s].
    { simpl. split_and!; [done|done|]. by eexists _, _, _. }
    rewrite chars_cons. destruct (is_continuation c') eqn:Ec.
    - destruct (chars (String c' s)) as [|w ws] eqn:E; [by destruct (chars_nonempty c' s)|].
      destruct IH as (Hw & Hws & d & r & r' & -> & [= -> ->]). split_and!; [|done|by eexists _, _, _].
      rewrite chars_cons, Ec, Hw. done.
    - split_and!; [done| |by eexists _, _, _].
      destruct (chars (String c' s)) as [|w ws] eqn:E; [done|].
      destruct IH as (Hw & Hws & d & r & r' & -> & [= -> ->]). constructor; [|done]. split; [done|exact Ec]. }
  intros Hs. specialize (Hg s). destruct (chars s) as [|w ws]; [done|].
  destruct Hg as (Hw & Hws & c & r & r' & -> & ->). constructor; [|done]. split; [done|exact Hs].
Qed.

(** ** The round trip *)

(** The control characters that have an escape of their own. *)
Definition plain_char (c : string) : Prop := is_control c = true → c ∈ [bytes [9]; bytes [10]; bytes [13]].
Definition plain (s : string) : Prop := Forall plain_char (chars s).
Global Instance plain_dec s : Decision (plain s).
Proof. unfold plain, plain_char. apply _. Defined.
Lemma escape_starts c : is_char c → starts_char (escape_char c).
Proof.
  intros [_ Hc]. unfold escape_char. repeat case_match; done.
Qed.
Lemma simple_escape_step e c cs rest :
  e ≠ "u" → simple_escape e = Some c → string_value_loop cs = Ret rest →
  string_value_loop (backslash :: e :: cs) = Ret (c +:+ rest).
Proof.
  intros He Hc Hr. cbn [string_value_loop]. rewrite String.eqb_refl, (proj2 (String.eqb_neq e "u") He), Hc, Hr. reflexivity.
Qed.
Lemma string_value_escape c cs rest :
  is_char c → plain_char c → string_value_loop cs = Ret rest →
  string_value_loop (chars (escape_char c) ++ cs) = Ret (c +:+ rest).
Proof.
  intros [Hc Hs] Hp Hr. unfold escape_char.
  destruct (String.eqb_spec c (bytes [13])) as [->|H13]; [by apply (simple_escape_step "r")|].
  destruct (String.eqb_spec c (bytes [10])) as [->|H10]; [by apply (simple_escape_step "n")|].
  destruct (String.eqb_spec c (bytes [9])) as [->|H9]; [by apply (simple_escape_step "t")|].
  destruct (String.eqb_spec c backslash) as [->|Hb]; [by apply (simple_escape_step backslash)|].
  destruct (String.eqb_spec c (String dquote "")) as [->|Hq]; [by apply (simple_escape_step (String dquote ""))|].
  destruct (is_control c) eqn:Ec; [exfalso; specialize (Hp Ec); set_solver|].
  rewrite Hc. cbn [app string_value_loop]. destruct (String.eqb_spec c backslash); [done|]. by rewrite Hr.
Qed.
Lemma concat_starts l : Forall starts_char l → Forall (λ s, s ≠ "") l → starts_char (String.concat "" l).
Proof.
  destruct l as [|s l]; [done|]. intros [Hs _]%Forall_cons [Hne _]%Forall_cons.
  destruct s as [|c s]; [done|]. by destruct l.
Qed.
Lemma escape_nonempty c : is_char c → escape_char c ≠ "".
Proof. intros [Hc _]. unfold escape_char. repeat case_match; try done. by destruct c. Qed.
Lemma string_value_escaped l :
  Forall is_char l → Forall plain_char l →
  string_value (String.concat "" (escape_char <$> l)) = Ret (String.concat "" l).
Proof.
  assert (∀ w ws, String.concat "" (w :: ws) = w +:+ String.concat "" ws) as Hcc.
  { intros w [|v ws]; simpl; [by rewrite append_nil|done]. }
  induction l as [|c l IH]; [done|]. intros [Hc Hl]%Forall_cons [Hp Hpl]%Forall_cons.
  cbn [fmap list_fmap]. rewrite !Hcc. unfold string_value in *. rewrite chars_app; [by apply string_value_escape; [| |apply IH]|].
  apply concat_starts; apply Forall_fmap; (eapply Forall_impl; [exact Hl|]); intros x Hx; [by apply escape_starts|by apply escape_nonempty].
Qed.

(** The text between the quotes that [write_quoted] writes. *)
Definition quoted_text (s : string) : string := String.concat "" (escape_char <$> chars s).

(** What the renderer quotes, the parser reads back: for every [str] whose
    control characters are tabs and line ends, [write_quoted] writes a quoted
    text that [string_value] decodes to the [str]. *)
Theorem write_quoted_roundtrip s :
  starts_char s → plain s → write_quoted s = quoted (quoted_text s) ∧ string_value (quoted_text s) = Ret s.
Proof.
  intros Hs Hp. split; [done|]. unfold quoted_text.
  rewrite string_value_escaped; [by rewrite chars_concat|by apply chars_are_chars|done].
Qed.
Lemma write_quoted_roundtrip_witness :
  let s := "a " +:+ quoted "b" +:+ bytes [10; 195; 169] in
  write_quoted s = quoted (quoted_text s) ∧ string_value (quoted_text s) = Ret s.
Proof.
  intros s. apply (write_quoted_roundtrip s); [vm_compute; reflexivity|].
  apply (bool_decide_unpack (plain s)). vm_compute. exact Logic.I.
Defined.

(** Other control characters are written with a decimal number where a
    hexadecimal one is read: escape, number 27, is read back as an apostrophe. *)
Theorem control_characters_change :
  write_quoted (bytes [27]) = quoted (backslash +:+ "u0027") ∧
  string_value (backslash +:+ "u0027") = Ret "'" ∧
  string_value (quoted_text (bytes [127])) = Ret (bytes [196; 167]).
Proof. vm_compute. split_and!; reflexivity. Qed.
