(* ===== verification/Normalizer.v ===== *)
(** * [operation-normalizer]: the signature of an operation

    [normalize] of [lib.rs] with [arguments.rs], [directives.rs],
    [selection_set.rs] and [operation.rs]. The syntax tree is that of the
    graphql-parser crate, without source positions, which nothing reads; its
    parser and its printer are arguments. Code that mutates the document in
    place is a function from the old part to the new one, with the map of used
    fragments passed along. *)
From S2P Require Import Prelude RustStd.
Local Open Scope string_scope.
Local Open Scope list_scope.
Local Open Scope nat_scope.

(** ** The document of graphql-parser *)
Inductive GValue :=
| GVVariable (name : string)
| GVInt (n : Z)
| GVFloat (bits : Z)
| GVString (s : string)
| GVBoolean (b : bool)
| GVNull
| GVEnum (name : string)
| GVList (items : list GValue)
| GVObject (entries : list (string * GValue)).
Inductive GType :=
| GNamedType (name : string)
| GListType (t : GType)
| GNonNullType (t : GType).

Abbreviation GArguments := (list (string * GValue)).
Record GDirective := MkGDirective { gd_name : string; gd_arguments : GArguments }.

Inductive GSelection :=
| GField (alias : option string) (name : string) (arguments : GArguments) (directives : list GDirective)
    (selection_set : list GSelection)
| GFragmentSpread (fragment_name : string) (directives : list GDirective)
| GInlineFragment (type_condition : option string) (directives : list GDirective) (selection_set : list GSelection).

Record GVariableDefinition := MkGVariable {
  gv_name : string;
  gv_var_type : GType;
  gv_default_value : option GValue;
}.
(** [Query], [Mutation] and [Subscription], which have the same fields. *)
Inductive OperationKind := OQuery | OMutation | OSubscription.
Record GOperationBody := MkGOperation {
  go_name : option string;
  go_variable_definitions : list GVariableDefinition;
  go_directives : list GDirective;
  go_selection_set : list GSelection;
}.
Inductive GOperation :=
| GSelectionSet (selection_set : list GSelection)
| GNamedOperation (kind : OperationKind) (body : GOperationBody).
Record GFragment := MkGFragment {
  gf_name : string;
  gf_type_condition : string;
  gf_directives : list GDirective;
  gf_selection_set : list GSelection;
}.
Inductive GDefinition :=
| GDOperation (operation : GOperation)
| GDFragment (fragment : GFragment).

(** ** [arguments.rs] and [directives.rs] *)
Definition normalize_value (v : GValue) : GValue :=
  match v with
  | GVString _ => GVString ""
  | GVFloat _ => GVFloat 0
  | GVInt _ => GVInt 0
  | GVList _ => GVList []
  | GVObject _ => GVObject []
  | _ => v
  end.
Definition normalize_arguments (arguments : GArguments) : GArguments :=
  (λ a, (a.1, normalize_value a.2)) <$> sort (H := cmp_on fst) arguments.
Definition normalize_directives (directives : list GDirective) : list GDirective :=
  (λ d, MkGDirective (gd_name d) (normalize_arguments (gd_arguments d))) <$> sort (H := cmp_on gd_name) directives.

(** ** [selection_set.rs] *)
Definition sort_selection (a b : GSelection) : comparison :=
  match a, b with
  | GField _ a _ _ _, GField _ b _ _ _ => cmp a b
  | GField _ _ _ _ _, GFragmentSpread _ _ => Lt
  | GField _ _ _ _ _, GInlineFragment _ _ _ => Lt
  | GFragmentSpread _ _, GField _ _ _ _ _ => Gt
  | GFragmentSpread a _, GFragmentSpread b _ => cmp a b
  | GFragmentSpread _ _, GInlineFragment _ _ _ => Lt
  | GInlineFragment _ _ _, GField _ _ _ _ _ => Gt
  | GInlineFragment _ _ _, GFragmentSpread _ _ => Gt
  | GInlineFragment a _ _, GInlineFragment b _ _ =>
      match a, b with
      | None, None => Eq
      | None, Some _ => Lt
      | Some _, None => Gt
      | Some a, Some b => cmp a b
      end
  end.

(** [HashMap<String, bool>]; [entry(name).or_insert(value)]. *)
Abbreviation UsedFragments := (gmap string bool).
Definition or_insert (name : string) (value : bool) (used : UsedFragments) : UsedFragments :=
  match used !! name with Some _ => used | None => <[name := value]> used end.

(** A loop that replaces the items of a vector and updates the map. *)
Definition thread {A} (f : UsedFragments → A → A * UsedFragments) :
    UsedFragments → list A → list A * UsedFragments :=
  fix go used l :=
    match l with
    | [] => ([], used)
    | x :: l => let r := f used x in let rs := go r.2 l in (r.1 :: rs.1, rs.2)
    end.

Fixpoint normalize_selection (in_operation : bool) (used : UsedFragments) (selection : GSelection)
    : GSelection * UsedFragments :=
  match selection with
  | GField _ name arguments directives selection_set =>
      let r := thread (normalize_selection in_operation) used selection_set in
      (GField None name (normalize_arguments arguments) (normalize_directives directives)
         (sort (H := sort_selection) r.1), r.2)
  | GFragmentSpread fragment_name directives =>
      (GFragmentSpread fragment_name (normalize_directives directives), or_insert fragment_name in_operation used)
  | GInlineFragment type_condition directives selection_set =>
      let r := thread (normalize_selection in_operation) used selection_set in
      (GInlineFragment type_condition (normalize_directives directives) (sort (H := sort_selection) r.1), r.2)
  end.
Definition normalize_selection_set (in_operation : bool) (used : UsedFragments) (selection_set : list GSelection)
    : list GSelection * UsedFragments :=
  let r := thread (normalize_selection in_operation) used selection_set in (sort (H := sort_selection) r.1, r.2).

(** ** [operation.rs] *)
Definition normalize_operation (used : UsedFragments) (operation : GOperation) : GOperation * UsedFragments :=
  match operation with
  | GSelectionSet selection_set =>
      let r := normalize_selection_set true used selection_set in (GSelectionSet r.1, r.2)
  | GNamedOperation kind body =>
      let r := normalize_selection_set true used (go_selection_set body) in
      (GNamedOperation kind
         (MkGOperation (go_name body) (sort (H := cmp_on gv_name) (go_variable_definitions body))
            (normalize_directives (go_directives body)) r.1), r.2)
  end.

(** ** [lib.rs] *)

(** The operations that [retain] keeps when a name is given. *)
Definition is_selected (operation_name : string) (definition : GDefinition) : bool :=
  match definition with
  | GDOperation (GNamedOperation _ body) => bool_decide (go_name body = Some operation_name)
  | _ => true
  end.
Definition normalize_if_operation (used : UsedFragments) (definition : GDefinition) : GDefinition * UsedFragments :=
  match definition with
  | GDOperation operation => let r := normalize_operation used operation in (GDOperation r.1, r.2)
  | GDFragment _ => (definition, used)
  end.
Definition normalize_if_fragment (used : UsedFragments) (definition : GDefinition) : GDefinition * UsedFragments :=
  match definition with
  | GDOperation _ => (definition, used)
  | GDFragment fragment =>
      let in_operation := bool_decide (is_Some (used !! gf_name fragment)) in
      if negb in_operation then (definition, used)
      else
        let r := normalize_selection_set in_operation used (gf_selection_set fragment) in
        (GDFragment (MkGFragment (gf_name fragment) (gf_type_condition fragment)
           (normalize_directives (gf_directives fragment)) r.1), r.2)
  end.
Definition is_retained (used : UsedFragments) (definition : GDefinition) : bool :=
  match definition with
  | GDFragment fragment => default false (used !! gf_name fragment)
  | _ => true
  end.
Definition sort_definition (a b : GDefinition) : comparison :=
  match a, b with
  | GDOperation _, GDFragment _ => Gt
  | GDFragment _, GDOperation _ => Lt
  | GDFragment a, GDFragment b => cmp (gf_name a) (gf_name b)
  | GDOperation _, GDOperation _ => Eq
  end.

(** The document that [normalize] prints. *)
Definition normalize_document (operation_name : option string) (definitions : list GDefinition) : list GDefinition :=
  let definitions :=
    match operation_name with
    | Some operation_name => filter (λ d, is_selected operation_name d = true) definitions
    | None => definitions
    end in
  let operations := thread normalize_if_operation ∅ definitions in
  let fragments := thread normalize_if_fragment operations.2 operations.1 in
  sort (H := sort_definition) (filter (λ d, is_retained fragments.2 d = true) fragments.1).

Definition empty_message : string :=
  "the normalized query is empty (meaning we couldn't find an operation with the given name)".
Definition normalize (parse_query : string → string + list GDefinition) (to_string : list GDefinition → string)
    (source_text : string) (operation_name : option string) : string + string :=
  match parse_query source_text with
  | inl error => inl error
  | inr document =>
      match normalize_document operation_name document with
      | [] => inl empty_message
      | definitions => inr (to_string definitions)
      end
  end.

(** ** What normalisation identifies, and which fragments it keeps *)

(** ** Stable sorting by a key *)
Section by_key.
Context {A K : Type} `{EqDecision K} `{OrdLaws K, !OrdEq K} (f : A → K).
Implicit Types l : list A.

(** Two lists that differ in the order of entries with different keys. *)
Definition reordered l1 l2 : Prop := ∀ k, filter (λ x, f x = k) l1 = filter (λ x, f x = k) l2.

Lemma reordered_elem l1 l2 x : reordered l1 l2 → x ∈ l1 → x ∈ l2.
Proof.
  intros Hr Hx. assert (x ∈ filter (λ y, f y = f x) l2) as [_ ?]%list_elem_of_filter; [|done].
  rewrite <-Hr. by apply list_elem_of_filter.
Qed.
Lemma reordered_tail x l1 l2 : reordered (x :: l1) (x :: l2) → reordered l1 l2.
Proof. intros Hr k. specialize (Hr k). rewrite !filter_cons in Hr. by case_decide; simplify_eq. Qed.
Lemma sorted_reordered l1 l2 : sorted_by f l1 → sorted_by f l2 → reordered l1 l2 → l1 = l2.
Proof.
  unfold sorted_by. intros H1. revert l2. induction H1 as [|x l1 _ IH Hx]; intros l2 H2 Hr.
  { destruct l2 as [|y l2]; [done|]. specialize (Hr (f y)). rewrite filter_cons_True in Hr by done. done. }
  destruct l2 as [|y l2]; [by apply (reordered_elem _ _ x) in Hr; [apply elem_of_nil in Hr|left]|].
  assert (f x = f y) as E.
  { apply StronglySorted_inv in H2 as [_ Hy]. rewrite Forall_forall in Hx, Hy.
    assert (x ∈ y :: l2) as Hin by (eapply reordered_elem; [exact Hr|left]).
    assert (y ∈ x :: l1) as Hin' by (eapply reordered_elem; [intros k; symmetry; apply Hr|left]).
    apply elem_of_cons in Hin as [->|Hin]; [done|]. apply elem_of_cons in Hin' as [->|Hin']; [done|].
    apply cmp_le_antisymm; [by apply Hx|by apply Hy]. }
  pose proof (Hr (f x)) as Hk. rewrite !filter_cons_True in Hk by done. injection Hk as <- _.
  f_equal. apply StronglySorted_inv in H2 as [H2 _]. apply IH; [done|]. by eapply reordered_tail.
Qed.
Lemma filter_sort k l : filter (λ x, f x = k) (sort (H := cmp_on f) l) = filter (λ x, f x = k) l.
Proof.
  destruct (filter (λ x, f x = k) l) as [|y l'] eqn:E.
  { apply filter_none. intros x Hx%elem_of_sort Hk. apply (not_elem_of_nil x). rewrite <-E. by apply list_elem_of_filter. }
  assert (y ∈ filter (λ x, f x = k) l) as [<- _]%list_elem_of_filter by (rewrite E; left).
  assert (∀ l, filter (λ x, f x = f y) l = filter (λ x, cmp_on f y x = Eq) l) as Hf.
  { intros l0. apply list_filter_iff. intros x. unfold cmp_on. split; [intros ->; apply cmp_refl|]. by intros ->%cmp_eq. }
  rewrite <-E, !Hf. apply (sort_stable (H := cmp_on f) y l).
Qed.
Lemma sort_reordered l1 l2 : reordered l1 l2 → sort (H := cmp_on f) l1 = sort (H := cmp_on f) l2.
Proof. intros Hr. apply sorted_reordered; try apply sort_sorted_by. intros k. by rewrite !filter_sort. Qed.
Lemma sort_self l : reordered (sort (H := cmp_on f) l) l.
Proof. intros k. apply filter_sort. Qed.
End by_key.

Lemma sort_ext {A} (o1 o2 : Ord A) l : (∀ x y : A, o1 x y = o2 x y) → sort (H := o1) l = sort (H := o2) l.
Proof.
  intros E. induction l as [|x l IH]; [done|].
  change (insert_by (H := o1) x (sort (H := o1) l) = insert_by (H := o2) x (sort (H := o2) l)). rewrite IH. clear IH.
  induction (sort (H := o2) l) as [|y l' IH']; [done|]. simpl. unfold cmp. rewrite E, IH'. done.
Qed.
Lemma sort_fmap {A B} (oA : Ord A) (oB : Ord B) (g : A → B) l :
  (∀ x y, oB (g x) (g y) = oA x y) → sort (H := oB) (g <$> l) = g <$> sort (H := oA) l.
Proof.
  intros E. induction l as [|x l IH]; [done|].
  change (insert_by (H := oB) (g x) (sort (H := oB) (g <$> l)) = g <$> insert_by (H := oA) x (sort (H := oA) l)).
  rewrite IH. clear IH. induction (sort (H := oA) l) as [|y l' IH]; [done|]. simpl. unfold cmp. rewrite E.
  destruct (oA x y); [done|done|]. simpl. f_equal. apply IH.
Qed.

(** ** The keys of the two comparison functions *)
Definition selection_key (s : GSelection) : nat * string :=
  match s with
  | GField _ name _ _ _ => (0, name)
  | GFragmentSpread name _ => (1, name)
  | GInlineFragment None _ _ => (2, "")
  | GInlineFragment (Some ty) _ _ => (3, ty)
  end.
Lemma sort_selection_key a b : sort_selection a b = cmp_on selection_key a b.
Proof.
  destruct a as [| |[]], b as [| |[]]; try done; unfold cmp_on, cmp, prod_ord; simpl;
    unfold then_with, cmp; by destruct (string_ord _ _).
Qed.
Definition definition_key (d : GDefinition) : nat * string :=
  match d with GDFragment f => (0, gf_name f) | GDOperation _ => (1, "") end.
Lemma sort_definition_key a b : sort_definition a b = cmp_on definition_key a b.
Proof. destruct a, b; try done; unfold cmp_on, cmp, prod_ord; simpl; unfold then_with, cmp; by destruct (string_ord _ _). Qed.

(** ** Normalisation without the map of fragments *)
Fixpoint norm (s : GSelection) : GSelection :=
  match s with
  | GField _ name arguments directives selection_set =>
      GField None name (normalize_arguments arguments) (normalize_directives directives)
        (sort (H := sort_selection) (norm <$> selection_set))
  | GFragmentSpread name directives => GFragmentSpread name (normalize_directives directives)
  | GInlineFragment ty directives selection_set =>
      GInlineFragment ty (normalize_directives directives) (sort (H := sort_selection) (norm <$> selection_set))
  end.
Definition norm_set (ss : list GSelection) : list GSelection := sort (H := sort_selection) (norm <$> ss).
(** The names that a selection spreads. *)
Fixpoint spreads (s : GSelection) : list string :=
  match s with
  | GField _ _ _ _ selection_set | GInlineFragment _ _ selection_set => concat (spreads <$> selection_set)
  | GFragmentSpread name _ => [name]
  end.
Definition set_spreads (ss : list GSelection) : list string := concat (spreads <$> ss).
(** The map after the names have been entered. *)
Definition mark (b : bool) (names : list string) (used : UsedFragments) : UsedFragments :=
  foldl (λ used name, or_insert name b used) used names.

Lemma GSelection_ind' (P : GSelection → Prop) :
  (∀ alias name args ds ss, Forall P ss → P (GField alias name args ds ss)) →
  (∀ name ds, P (GFragmentSpread name ds)) →
  (∀ ty ds ss, Forall P ss → P (GInlineFragment ty ds ss)) →
  ∀ s, P s.
Proof.
  intros HF HS HI. fix IH 1. intros [alias name args ds ss|name ds|ty ds ss]; [apply HF|apply HS|apply HI];
    induction ss as [|s ss IHss]; constructor; auto.
Qed.

Lemma thread_eq {A} (f : UsedFragments → A → A * UsedFragments) (g : A → A) (h : A → list string) b used l :
  Forall (λ x, ∀ used, f used x = (g x, mark b (h x) used)) l →
  thread f used l = (g <$> l, mark b (concat (h <$> l)) used).
Proof.
  intros HF. revert used. induction HF as [|x l Hx _ IH]; intros used; simpl; [done|].
  rewrite Hx. simpl. rewrite IH. unfold mark. by rewrite foldl_app.
Qed.
Lemma normalize_selection_eq b s used : normalize_selection b used s = (norm s, mark b (spreads s) used).
Proof.
  revert used. induction s as [alias name args ds ss IH|name ds|ty ds ss IH] using GSelection_ind'; intros used; simpl.
  - by rewrite (thread_eq _ norm spreads b).
  - done.
  - by rewrite (thread_eq _ norm spreads b).
Qed.
Lemma normalize_selection_set_eq b used ss :
  normalize_selection_set b used ss = (norm_set ss, mark b (set_spreads ss) used).
Proof.
  unfold normalize_selection_set. rewrite (thread_eq _ norm spreads b); [done|].
  apply Forall_forall. intros s _ u. apply normalize_selection_eq.
Qed.

Lemma mark_lookup b names used n :
  mark b names used !! n =
    match used !! n with Some v => Some v | None => if decide (n ∈ names) then Some b else None end.
Proof.
  revert used. induction names as [|m names IH]; intros used.
  { simpl. by destruct (used !! n). }
  change (mark b (m :: names) used) with (mark b names (or_insert m b used)). rewrite IH. unfold or_insert. destruct (used !! m) as [v|] eqn:Em.
  - destruct (used !! n) eqn:En; [done|]. apply decide_ext. rewrite elem_of_cons. naive_solver.
  - destruct (decide (n = m)) as [->|Hne].
    + rewrite lookup_insert_eq, Em, decide_True; [done|left].
    + rewrite lookup_insert_ne by done. destruct (used !! n); [done|].
      apply decide_ext. rewrite elem_of_cons. naive_solver.
Qed.
Lemma mark_same b l1 l2 used : (∀ n, n ∈ l1 ↔ n ∈ l2) → mark b l1 used = mark b l2 used.
Proof. intros E. apply map_eq. intros n. rewrite !mark_lookup. destruct (used !! n); [done|]. by apply decide_ext. Qed.

(** ** Similar operations

    What the documentation of the crate promises to ignore: aliases, the
    literals of arguments, and the order of arguments, directives, variables
    and selections (as far as they have different names). *)
Inductive similar_value : GValue → GValue → Prop :=
| similar_string s t : similar_value (GVString s) (GVString t)
| similar_int n m : similar_value (GVInt n) (GVInt m)
| similar_float n m : similar_value (GVFloat n) (GVFloat m)
| similar_list l k : similar_value (GVList l) (GVList k)
| similar_object l k : similar_value (GVObject l) (GVObject k)
| similar_same v : similar_value v v.
(** Entries are similar one by one, up to reordering by the key. *)
Definition similar_by {A} (key : A → string) (R : A → A → Prop) (l1 l2 : list A) : Prop :=
  ∃ l, Forall2 R l1 l ∧ reordered key l l2.
Definition similar_arguments : GArguments → GArguments → Prop :=
  similar_by fst (λ x y, x.1 = y.1 ∧ similar_value x.2 y.2).
Definition similar_directives : list GDirective → list GDirective → Prop :=
  similar_by gd_name (λ x y, gd_name x = gd_name y ∧ similar_arguments (gd_arguments x) (gd_arguments y)).
Inductive similar : GSelection → GSelection → Prop :=
| similar_field alias1 alias2 name args1 args2 ds1 ds2 ss1 ss ss2 :
    similar_arguments args1 args2 → similar_directives ds1 ds2 →
    Forall2 similar ss1 ss → reordered selection_key ss ss2 →
    similar (GField alias1 name args1 ds1 ss1) (GField alias2 name args2 ds2 ss2)
| similar_spread name ds1 ds2 :
    similar_directives ds1 ds2 → similar (GFragmentSpread name ds1) (GFragmentSpread name ds2)
| similar_inline ty ds1 ds2 ss1 ss ss2 :
    similar_directives ds1 ds2 → Forall2 similar ss1 ss → reordered selection_key ss ss2 →
    similar (GInlineFragment ty ds1 ss1) (GInlineFragment ty ds2 ss2).
Definition similar_set (ss1 ss2 : list GSelection) : Prop :=
  ∃ ss, Forall2 similar ss1 ss ∧ reordered selection_key ss ss2.
Inductive similar_definition : GDefinition → GDefinition → Prop :=
| similar_anonymous ss1 ss2 :
    similar_set ss1 ss2 → similar_definition (GDOperation (GSelectionSet ss1)) (GDOperation (GSelectionSet ss2))
| similar_operation kind name vs1 vs2 ds1 ds2 ss1 ss2 :
    reordered gv_name vs1 vs2 → similar_directives ds1 ds2 → similar_set ss1 ss2 →
    similar_definition (GDOperation (GNamedOperation kind (MkGOperation name vs1 ds1 ss1)))
      (GDOperation (GNamedOperation kind (MkGOperation name vs2 ds2 ss2)))
| similar_fragment name ty ds1 ds2 ss1 ss2 :
    similar_directives ds1 ds2 → similar_set ss1 ss2 →
    similar_definition (GDFragment (MkGFragment name ty ds1 ss1)) (GDFragment (MkGFragment name ty ds2 ss2)).

(** Sorting and then mapping forgets what the relation allows to differ. *)
Lemma sorted_image {A B K} `{OrdLaws K} (key : A → K) (g : A → B) (R : A → A → Prop) l1 l2 :
  Forall2 R l1 l2 → (∀ x y, x ∈ l1 → R x y → key x = key y ∧ g x = g y) →
  g <$> sort (H := cmp_on key) l1 = g <$> sort (H := cmp_on key) l2.
Proof.
  intros HR Hk.
  assert (∀ l, g <$> sort (H := cmp_on key) l = snd <$> sort (H := cmp_on fst) ((λ x, (key x, g x)) <$> l)) as E.
  { intros l. rewrite (sort_fmap (cmp_on key)) by done. by rewrite <-list_fmap_compose. }
  rewrite !E. do 2 f_equal. clear E. induction HR as [|x y l1 l2 HR _ IH]; [done|]. simpl.
  destruct (Hk x y) as [-> ->]; [left|done|]. f_equal. apply IH. intros; apply Hk; [by right|done].
Qed.
Lemma sorted_similar {A B K} `{EqDecision K} `{OrdLaws K, !OrdEq K} (key : A → K) (g : A → B) (R : A → A → Prop) l1 l l2 :
  Forall2 R l1 l → reordered key l l2 → (∀ x y, x ∈ l1 → R x y → key x = key y ∧ g x = g y) →
  g <$> sort (H := cmp_on key) l1 = g <$> sort (H := cmp_on key) l2.
Proof. intros HR Hr Hk. rewrite (sorted_image key g R l1 l HR Hk). f_equal. by apply sort_reordered. Qed.

Lemma normalize_value_similar v w : similar_value v w → normalize_value v = normalize_value w.
Proof. by destruct 1. Qed.
Lemma normalize_arguments_similar a1 a2 : similar_arguments a1 a2 → normalize_arguments a1 = normalize_arguments a2.
Proof.
  intros (a & HR & Hr). unfold normalize_arguments. eapply (sorted_similar fst); [done..|].
  intros [n v] [m w] _ [Hn Hv]. simpl in *. subst. by rewrite (normalize_value_similar v w).
Qed.
Lemma normalize_directives_similar d1 d2 : similar_directives d1 d2 → normalize_directives d1 = normalize_directives d2.
Proof.
  intros (d & HR & Hr). unfold normalize_directives. eapply (sorted_similar gd_name); [done..|].
  intros [n v] [m w] _ [Hn Hv]. simpl in *. subst. by rewrite (normalize_arguments_similar v w).
Qed.

Lemma norm_key s : selection_key (norm s) = selection_key s.
Proof. by destruct s. Qed.
Lemma norm_set_eq ss : norm_set ss = norm <$> sort (H := cmp_on selection_key) ss.
Proof.
  unfold norm_set. rewrite (sort_ext _ (cmp_on selection_key)) by apply sort_selection_key.
  apply sort_fmap. intros x y. unfold cmp_on. by rewrite !norm_key.
Qed.
Lemma similar_key s t : similar s t → selection_key s = selection_key t.
Proof. by destruct 1. Qed.
Lemma norm_set_from ss1 ss ss2 :
  Forall (λ s, ∀ t, similar s t → norm s = norm t) ss1 → Forall2 similar ss1 ss → reordered selection_key ss ss2 →
  norm_set ss1 = norm_set ss2.
Proof.
  intros IH HF Hr. rewrite !norm_set_eq. apply (sorted_similar _ _ similar _ ss); [done..|].
  intros x y Hx Hxy. rewrite Forall_forall in IH. split; [by apply similar_key|by apply IH].
Qed.
Lemma norm_similar s t : similar s t → norm s = norm t.
Proof.
  revert t. induction s as [alias name args ds ss IH|name ds|ty ds ss IH] using GSelection_ind'; intros t Hs;
    inversion Hs as [? ? ? ? ? ? ? ? ss' ss2 Ha Hd HF Hr|? ? ? Hd|? ? ? ? ss' ss2 Hd HF Hr]; subst; simpl;
    rewrite (normalize_directives_similar _ _ Hd); [|done|].
  - rewrite (normalize_arguments_similar _ _ Ha). f_equal. by apply (norm_set_from ss ss' ss2).
  - f_equal. by apply (norm_set_from ss ss' ss2).
Qed.
Lemma norm_set_similar ss1 ss2 : similar_set ss1 ss2 → norm_set ss1 = norm_set ss2.
Proof.
  intros (ss & HF & Hr). apply (norm_set_from ss1 ss ss2); [|done..]. apply Forall_forall. intros s _ t. apply norm_similar.
Qed.
Lemma spreads_from ss1 ss ss2 :
  Forall (λ s, ∀ t, similar s t → ∀ n, n ∈ spreads s ↔ n ∈ spreads t) ss1 → Forall2 similar ss1 ss →
  reordered selection_key ss ss2 → ∀ n, n ∈ set_spreads ss1 ↔ n ∈ set_spreads ss2.
Proof.
  intros IH HF Hr n. unfold set_spreads. transitivity (n ∈ concat (spreads <$> ss)).
  - clear Hr. induction HF as [|s t ss1 ss Hst _ IHss]; [done|]. inversion IH; subst. simpl. rewrite !elem_of_app. naive_solver.
  - rewrite !elem_of_concat_map.
    split; intros (s & Hs & Hn); exists s; (split; [|done]).
    + by apply (reordered_elem selection_key ss).
    + apply (reordered_elem selection_key ss2); [|done]. intros k. symmetry. apply Hr.
Qed.
Lemma spreads_similar s t : similar s t → ∀ n, n ∈ spreads s ↔ n ∈ spreads t.
Proof.
  revert t. induction s as [alias name args ds ss IH|name ds|ty ds ss IH] using GSelection_ind'; intros t Hs;
    inversion Hs as [? ? ? ? ? ? ? ? ss' ss2 Ha Hd HF Hr|? ? ? Hd|? ? ? ? ss' ss2 Hd HF Hr]; subst; simpl; [|done|];
    by apply (spreads_from ss ss' ss2).
Qed.
Lemma set_spreads_similar ss1 ss2 : similar_set ss1 ss2 → ∀ n, n ∈ set_spreads ss1 ↔ n ∈ set_spreads ss2.
Proof.
  intros (ss & HF & Hr). apply (spreads_from ss1 ss ss2); [|done..]. apply Forall_forall. intros s _ t. apply spreads_similar.
Qed.

(** ** Whole documents *)
Definition norm_operation (o : GOperation) : GOperation :=
  match o with
  | GSelectionSet ss => GSelectionSet (norm_set ss)
  | GNamedOperation kind body =>
      GNamedOperation kind (MkGOperation (go_name body) (sort (H := cmp_on gv_name) (go_variable_definitions body))
        (normalize_directives (go_directives body)) (norm_set (go_selection_set body)))
  end.
Definition operation_set (o : GOperation) : list GSelection :=
  match o with GSelectionSet ss => ss | GNamedOperation _ body => go_selection_set body end.
Definition norm_fragment (f : GFragment) : GFragment :=
  MkGFragment (gf_name f) (gf_type_condition f) (normalize_directives (gf_directives f)) (norm_set (gf_selection_set f)).
(** The two passes over the definitions. *)
Definition pass1 (d : GDefinition) : GDefinition :=
  match d with GDOperation o => GDOperation (norm_operation o) | GDFragment _ => d end.
Definition operation_spreads (d : GDefinition) : list string :=
  match d with GDOperation o => set_spreads (operation_set o) | GDFragment _ => [] end.
Lemma pass1_eq used ds :
  thread normalize_if_operation used ds = (pass1 <$> ds, mark true (concat (operation_spreads <$> ds)) used).
Proof.
  apply thread_eq, Forall_forall. intros [[ss|kind body]|f] _ u; [..|done];
    unfold normalize_if_operation, normalize_operation; by rewrite normalize_selection_set_eq.
Qed.

Definition pass2 (used : UsedFragments) (d : GDefinition) : GDefinition * UsedFragments :=
  match d with
  | GDFragment f =>
      if decide (is_Some (used !! gf_name f))
      then (GDFragment (norm_fragment f), mark true (set_spreads (gf_selection_set f)) used) else (d, used)
  | GDOperation _ => (d, used)
  end.
Lemma pass2_eq used d : normalize_if_fragment used d = pass2 used d.
Proof.
  destruct d as [o|f]; [done|]. unfold normalize_if_fragment, pass2. case_bool_decide; [|by rewrite decide_False].
  rewrite decide_True by done. by rewrite normalize_selection_set_eq.
Qed.
Lemma thread_cons {A} (f : UsedFragments → A → A * UsedFragments) used x l :
  thread f used (x :: l) =
    ((f used x).1 :: (thread f (f used x).2 l).1, (thread f (f used x).2 l).2).
Proof. done. Qed.
Lemma thread_ext {A} (f g : UsedFragments → A → A * UsedFragments) used l :
  (∀ used x, f used x = g used x) → thread f used l = thread g used l.
Proof. intros E. revert used. induction l as [|x l IH]; intros used; [done|]. simpl. by rewrite E, IH. Qed.

(** The fragments that an operation of the document uses, directly or through
    other fragments. *)
Inductive reachable (ds : list GDefinition) : string → Prop :=
| reachable_operation d n : d ∈ ds → n ∈ operation_spreads d → reachable ds n
| reachable_fragment f n :
    GDFragment f ∈ ds → reachable ds (gf_name f) → n ∈ set_spreads (gf_selection_set f) → reachable ds n.
(** A fragment in use is spread by an operation or by a fragment in use that is
    defined before it. *)
Definition defined_after_use (ds : list GDefinition) : Prop :=
  ∀ i f, ds !! i = Some (GDFragment f) → reachable ds (gf_name f) →
    (∃ d, d ∈ ds ∧ gf_name f ∈ operation_spreads d) ∨
    ∃ j g, j < i ∧ ds !! j = Some (GDFragment g) ∧ reachable ds (gf_name g) ∧ gf_name f ∈ set_spreads (gf_selection_set g).

Section fragments.
Context (ds : list GDefinition).

(** The map after the fragments before index [k] have been visited. *)
Definition visited_before (k : nat) (used : UsedFragments) : Prop :=
  (∀ n v, used !! n = Some v → v = true) ∧
  ∀ n, is_Some (used !! n) ↔
    (∃ d, d ∈ ds ∧ n ∈ operation_spreads d) ∨
    ∃ j g, j < k ∧ ds !! j = Some (GDFragment g) ∧ reachable ds (gf_name g) ∧ n ∈ set_spreads (gf_selection_set g).

Lemma mark_is_Some names used n : is_Some (mark true names used !! n) ↔ is_Some (used !! n) ∨ n ∈ names.
Proof. rewrite mark_lookup. destruct (used !! n); [naive_solver|]. case_decide; naive_solver. Qed.
Lemma mark_true names used :
  (∀ n v, used !! n = Some v → v = true) → ∀ n v, mark true names used !! n = Some v → v = true.
Proof. intros Hu n v. rewrite mark_lookup. destruct (used !! n) eqn:E; [naive_solver|]. case_decide; naive_solver. Qed.
Lemma visited_0 : visited_before 0 (mark true (concat (operation_spreads <$> ds)) ∅).
Proof.
  split; [by apply mark_true|]. intros n. rewrite mark_is_Some, elem_of_concat_map, lookup_empty.
  split; [intros [[]%is_Some_None|]; by left|]. intros [|(? & ? & ? & _)]; [by right|lia].
Qed.
Lemma visited_reachable k used n : visited_before k used → is_Some (used !! n) → reachable ds n.
Proof.
  intros [_ Hv] [(d & Hd & Hn)|(j & g & _ & Hj & Hg & Hn)]%Hv.
  - by eapply reachable_operation.
  - eapply reachable_fragment; [by eapply list_elem_of_lookup_2|done..].
Qed.
Lemma visited_skip k used :
  visited_before k used → (∀ f, ds !! k = Some (GDFragment f) → ¬ reachable ds (gf_name f)) → visited_before (S k) used.
Proof.
  intros [Ht Hv] Hk. split; [done|]. intros n. rewrite Hv. apply or_iff_compat_l. split.
  - intros (j & g & ? & ?). exists j, g. split; [lia|done].
  - intros (j & g & Hj & Eg & Hg & Hn). exists j, g. split_and!; [|done..].
    destruct (decide (j = k)) as [->|]; [by destruct (Hk g)|lia].
Qed.
Lemma visited_fragment k used f :
  visited_before k used → ds !! k = Some (GDFragment f) → reachable ds (gf_name f) →
  visited_before (S k) (mark true (set_spreads (gf_selection_set f)) used).
Proof.
  intros [Ht Hv] Ek Hf. split; [by apply mark_true|]. intros n. rewrite mark_is_Some, Hv. split.
  - intros [[?|(j & g & ? & ?)]|Hn]; [by left|right; exists j, g; split; [lia|done]|].
    right. exists k, f. split_and!; [lia|done..].
  - intros [?|(j & g & Hj & Eg & Hg & Hn)]; [by left; left|].
    destruct (decide (j = k)) as [->|]; [right; congruence|]. left. right. exists j, g. split_and!; [lia|done..].
Qed.

(** What the second pass does, if the order of the definitions is right. *)
Definition pass2_of (used : UsedFragments) (d : GDefinition) : GDefinition :=
  match d with
  | GDFragment f => if decide (is_Some (used !! gf_name f)) then GDFragment (norm_fragment f) else d
  | GDOperation _ => d
  end.
Lemma visited_all k used : length ds ≤ k → visited_before k used → ∀ n, is_Some (used !! n) ↔ reachable ds n.
Proof.
  intros Hk Hv n. split; [by apply (visited_reachable k)|]. destruct Hv as [_ Hv]. rewrite Hv.
  destruct 1 as [d n Hd Hn|f n Hf Hr Hn]; [left; by exists d|]. right.
  apply list_elem_of_lookup in Hf as [j Hj]. exists j, f. split_and!; [|done..]. apply lookup_lt_Some in Hj. lia.
Qed.
Lemma pass2_run (Hord : defined_after_use ds) rest k used :
  drop k ds = rest → visited_before k used →
  ∃ final, thread pass2 used (pass1 <$> rest) = (pass2_of final <$> (pass1 <$> rest), final) ∧
    (∀ n v, final !! n = Some v → v = true) ∧ ∀ n, is_Some (final !! n) ↔ reachable ds n.
Proof.
  revert k used. induction rest as [|d rest IH]; intros k used Hd Hv.
  { exists used. split; [done|]. split; [apply Hv|]. apply (visited_all k); [|done].
    apply (f_equal length) in Hd. rewrite length_drop in Hd. simpl in Hd. lia. }
  assert (ds !! k = Some d ∧ drop (S k) ds = rest) as [Ek Hd'].
  { split; [by rewrite <-(Nat.add_0_r k), <-lookup_drop, Hd|]. by rewrite <-Nat.add_1_r, <-drop_drop, Hd. }
  rewrite fmap_cons, thread_cons. setoid_rewrite fmap_cons.
  destruct d as [o|f]; cbn [pass1 pass2 fst snd pass2_of].
  { destruct (IH (S k) used) as (final & E & ?); [done|by apply visited_skip; [|congruence]|].
    exists final. by rewrite E. }
  destruct (decide (is_Some (used !! gf_name f))) as [Hf|Hf].
  - pose proof (visited_reachable _ _ _ Hv Hf) as Hr.
    destruct (IH (S k) (mark true (set_spreads (gf_selection_set f)) used)) as (final & E & Ht & Hfin);
      [done|by apply visited_fragment|]. exists final. cbn [fst snd]. rewrite E. rewrite (decide_True (P := is_Some (final !! _))); [done|].
    by apply Hfin.
  - assert (¬ reachable ds (gf_name f)) as Hr.
    { intros Hr. apply Hf. destruct Hv as [_ Hv]. apply Hv. destruct (Hord k f Ek Hr) as [|(j & g & ? & ?)]; [by left|].
      right. by exists j, g. }
    destruct (IH (S k) used) as (final & E & Ht & Hfin); [done|apply visited_skip; [done|congruence]|].
    exists final. cbn [fst snd]. rewrite E. rewrite (decide_False (P := is_Some (final !! _))); [done|]. by rewrite Hfin.
Qed.
End fragments.

Definition selected (operation_name : option string) (ds : list GDefinition) : list GDefinition :=
  match operation_name with Some name => filter (λ d, is_selected name d = true) ds | None => ds end.
Definition fragments_of (ds : list GDefinition) : list GFragment :=
  omap (λ d, match d with GDFragment f => Some f | GDOperation _ => None end) ds.
Definition operations_of (ds : list GDefinition) : list GOperation :=
  omap (λ d, match d with GDOperation o => Some o | GDFragment _ => None end) ds.
Definition norm_definition (d : GDefinition) : GDefinition :=
  match d with GDOperation o => GDOperation (norm_operation o) | GDFragment f => GDFragment (norm_fragment f) end.

Lemma retained_eq final (l : list GDefinition) :
  (∀ n v, final !! n = Some v → v = true) →
  filter (λ d, is_retained final d = true) (pass2_of final <$> (pass1 <$> l)) =
    norm_definition <$> filter (λ d, is_retained final d = true) l.
Proof.
  intros Ht. induction l as [|d l IH]; [done|]. rewrite !fmap_cons. destruct d as [o|f]; cbn [pass1 pass2_of].
  - rewrite !filter_cons_True by done. by rewrite fmap_cons, IH.
  - destruct (final !! gf_name f) as [v|] eqn:E; simpl in *.
    + pose proof (Ht _ _ E) as ->.
      rewrite !filter_cons_True by (simpl; by rewrite E). by rewrite fmap_cons, IH.
    + rewrite !filter_cons_False by (simpl; by rewrite E). done.
Qed.
Lemma normalize_document_eq operation_name ds :
  defined_after_use (selected operation_name ds) →
  ∃ final, (∀ n v, final !! n = Some v → v = true) ∧
    (∀ n, is_Some (final !! n) ↔ reachable (selected operation_name ds) n) ∧
    normalize_document operation_name ds =
      sort (H := sort_definition)
        (norm_definition <$> filter (λ d, is_retained final d = true) (selected operation_name ds)).
Proof.
  intros Hord. unfold normalize_document. fold (selected operation_name ds). set (sel := selected operation_name ds) in *.
  rewrite pass1_eq. cbn [fst snd]. rewrite (thread_ext _ pass2) by apply pass2_eq.
  destruct (pass2_run sel Hord sel 0 _ eq_refl (visited_0 sel)) as (final & E & Ht & Hf).
  exists final. split_and!; [done..|]. rewrite E. cbn [fst snd]. by rewrite retained_eq.
Qed.

(** Fragments come first, sorted by name; operations keep their order. *)
Lemma filter_omap_reorder k (l : list GDefinition) :
  filter (λ d, definition_key d = k) ((GDFragment <$> fragments_of l) ++ (GDOperation <$> operations_of l)) =
    filter (λ d, definition_key d = k) l.
Proof.
  rewrite filter_app. induction l as [|[o|f] l IH]; [done|..]; simpl.
  - rewrite !filter_cons, <-IH. case_decide as Hk; [|done]. simpl in Hk. subst.
    rewrite (filter_none _ (GDFragment <$> _)); [done|]. intros d (f & -> & _)%list_elem_of_fmap. done.
  - rewrite !filter_cons, <-IH. by case_decide.
Qed.
Lemma sort_definitions l :
  sort (H := sort_definition) l =
    (GDFragment <$> sort (H := cmp_on gf_name) (fragments_of l)) ++ (GDOperation <$> operations_of l).
Proof.
  rewrite (sort_ext _ (cmp_on definition_key)) by apply sort_definition_key.
  assert (GDFragment <$> sort (H := cmp_on gf_name) (fragments_of l) =
          sort (H := cmp_on definition_key) (GDFragment <$> fragments_of l)) as ->.
  { symmetry. apply sort_fmap. intros x y. unfold cmp_on, cmp at 1, prod_ord. simpl. done. }
  apply (sorted_reordered definition_key); [apply sort_sorted_by| |].
  - apply StronglySorted_app; split_and!.
    + intros x y Hx%elem_of_sort Hy. apply list_elem_of_fmap in Hx as (f & -> & _), Hy as (o & -> & _). done.
    + apply sort_sorted_by.
    + induction (operations_of l) as [|o os IH]; constructor; [done|]. apply Forall_forall.
      intros d (o' & -> & _)%list_elem_of_fmap. done.
  - intros k. rewrite filter_sort, filter_app, filter_sort, <-filter_app. symmetry. apply filter_omap_reorder.
Qed.

(** ** Similar documents use the same fragments *)
Definition same_uses (d e : GDefinition) : Prop :=
  definition_key d = definition_key e ∧
  match d, e with
  | GDOperation o, GDOperation p => ∀ n, n ∈ set_spreads (operation_set o) ↔ n ∈ set_spreads (operation_set p)
  | GDFragment f, GDFragment g => ∀ n, n ∈ set_spreads (gf_selection_set f) ↔ n ∈ set_spreads (gf_selection_set g)
  | _, _ => False
  end.
Lemma same_uses_sym d e : same_uses d e → same_uses e d.
Proof. destruct d, e; intros [Hk Hu]; try done; (split; [done|]); intros n; symmetry; apply Hu. Qed.
Lemma similar_uses d e : similar_definition d e → same_uses d e.
Proof. destruct 1; (split; [done|]); simpl; by apply set_spreads_similar. Qed.
Lemma similar_norm d e : similar_definition d e → norm_definition d = norm_definition e.
Proof.
  destruct 1 as [ss1 ss2 Hs|kind name vs1 vs2 ds1 ds2 ss1 ss2 Hv Hd Hs|name ty ds1 ds2 ss1 ss2 Hd Hs]; simpl;
    unfold norm_fragment; simpl; rewrite (norm_set_similar _ _ Hs); [done|..]; rewrite (normalize_directives_similar _ _ Hd);
    [|done]. by rewrite (sort_reordered gv_name vs1 vs2 Hv).
Qed.
Lemma similar_selected name d e : similar_definition d e → is_selected name d = is_selected name e.
Proof. by destruct 1. Qed.
Lemma selected_similar name ds es :
  Forall2 similar_definition ds es → Forall2 similar_definition (selected name ds) (selected name es).
Proof.
  intros HF. destruct name as [name|]; [|done]. simpl. induction HF as [|d e ds es Hd _ IH]; [done|].
  rewrite !filter_cons, (similar_selected name d e) by done. case_decide; [by constructor|done].
Qed.

Lemma Forall2_elem_l {A B} (R : A → B → Prop) l k x : Forall2 R l k → x ∈ l → ∃ y, y ∈ k ∧ R x y.
Proof. intros HR [i Hi]%list_elem_of_lookup. destruct (Forall2_lookup_l _ _ _ _ _ HR Hi) as (y & Hy & ?).
  exists y. split; [by eapply list_elem_of_lookup_2|done]. Qed.
Lemma reachable_same ds es n : Forall2 same_uses ds es → reachable ds n → reachable es n.
Proof.
  intros HF. induction 1 as [d n Hd Hn|f n Hf _ IH Hn].
  - destruct (Forall2_elem_l _ _ _ _ HF Hd) as (e & He & Hk & Hu). destruct d as [o|?], e as [p|?]; [|done|done|by apply not_elem_of_nil in Hn].
    apply (reachable_operation _ (GDOperation p)); [done|]. simpl in *. by apply Hu.
  - destruct (Forall2_elem_l _ _ _ _ HF Hf) as (e & He & Hk & Hu). destruct e as [|g]; [done|].
    apply (reachable_fragment _ g); [done| |by apply Hu]. injection Hk as <-. done.
Qed.
Lemma Forall2_same_sym ds es : Forall2 same_uses ds es → Forall2 same_uses es ds.
Proof. intros HF. apply Forall2_flip. eapply Forall2_impl; [exact HF|]. apply same_uses_sym. Qed.
Lemma defined_after_use_same ds es : Forall2 same_uses ds es → defined_after_use ds → defined_after_use es.
Proof.
  intros HF Ho i g Hg Hr. pose proof (Forall2_same_sym _ _ HF) as HF'.
  destruct (Forall2_lookup_l _ _ _ _ _ HF' Hg) as ([|f] & Hf & Hk & Hu); [done|]. injection Hk as Hk. rewrite Hk in *.
  destruct (Ho i f Hf (reachable_same _ _ _ HF' Hr)) as [(d & Hd & Hn)|(j & h & Hj & Hh & Hrh & Hn)].
  - left. destruct (Forall2_elem_l _ _ _ _ HF Hd) as (e & He & Hke & Hue). exists e. split; [done|].
    destruct d, e; [|done|done|by apply not_elem_of_nil in Hn]. simpl in *. by apply Hue.
  - right. destruct (Forall2_lookup_l _ _ _ _ _ HF Hh) as ([|h'] & Hh' & Hkh & Huh); [done|]. exists j, h'.
    injection Hkh as <-. split_and!; [done..|by apply (reachable_same ds)|by apply Huh].
Qed.

Lemma omap_sublist {A B} (f : A → option B) l k : l `sublist_of` k → omap f l `sublist_of` omap f k.
Proof. induction 1 as [|x l k _ IH|x l k _ IH]; simpl; [constructor|..]; destruct (f x); by try constructor. Qed.

Section entry.
Context (parse_query : string → string + list GDefinition) (to_string : list GDefinition → string).

(** C22. Similar operations have the same signature. Two documents that differ
    in aliases, in the literals of arguments and in the order of arguments,
    directives, variables and selections with different names are normalised
    to the same text, if the fragments in use are defined after their use. *)
Theorem normalize_similar s1 s2 ds es operation_name :
  parse_query s1 = inr ds → parse_query s2 = inr es → Forall2 similar_definition ds es →
  defined_after_use (selected operation_name ds) →
  normalize parse_query to_string s1 operation_name = normalize parse_query to_string s2 operation_name.
Proof.
  intros E1 E2 HF%(selected_similar operation_name) Ho. unfold normalize. rewrite E1, E2.
  assert (Forall2 same_uses (selected operation_name ds) (selected operation_name es)) as HU.
  { eapply Forall2_impl; [exact HF|]. apply similar_uses. }
  destruct (normalize_document_eq operation_name ds Ho) as (F & Ft & Fr & ->).
  destruct (normalize_document_eq operation_name es) as (G & Gt & Gr & ->); [by eapply defined_after_use_same|].
  assert (F = G) as ->.
  { apply map_eq. intros n. apply option_eq. intros v. assert (is_Some (F !! n) ↔ is_Some (G !! n)) as Hn.
    { rewrite Fr, Gr. split; apply reachable_same; [done|by apply Forall2_same_sym]. }
    split; intros Hv; [destruct (proj1 Hn) as [w Hw]|destruct (proj2 Hn) as [w Hw]]; try (by eexists).
    - pose proof (Ft _ _ Hv). pose proof (Gt _ _ Hw). congruence.
    - pose proof (Ft _ _ Hw). pose proof (Gt _ _ Hv). congruence. }
  assert (norm_definition <$> filter (λ d, is_retained G d = true) (selected operation_name ds) =
          norm_definition <$> filter (λ d, is_retained G d = true) (selected operation_name es)) as ->; [|done].
  clear -HF. induction HF as [|d e l k Hd _ IH]; [done|]. rewrite !filter_cons.
  assert (is_retained G d = is_retained G e) as -> by (by destruct Hd).
  case_decide; [|done]. rewrite !fmap_cons, IH. by rewrite (similar_norm d e).
Qed.

(** C23. Which definitions are printed. If the fragments in use are defined
    after their use, the result has exactly the fragments that the selected
    operations use, directly or through other fragments, each normalised,
    sorted by name and before the normalised operations. Without an operation
    to print it is an error. *)
Theorem normalize_fragments source ds operation_name :
  parse_query source = inr ds → defined_after_use (selected operation_name ds) →
  ∃ fs, fs `sublist_of` fragments_of ds ∧
    (∀ f, f ∈ fs ↔ f ∈ fragments_of ds ∧ reachable (selected operation_name ds) (gf_name f)) ∧
    normalize parse_query to_string source operation_name =
      match operations_of (selected operation_name ds) with
      | [] => inl empty_message
      | os => inr (to_string ((GDFragment <$> sort (H := cmp_on gf_name) (norm_fragment <$> fs)) ++
                              (GDOperation <$> (norm_operation <$> os))))
      end.
Proof.
  intros E Ho. unfold normalize. rewrite E. destruct (normalize_document_eq operation_name ds Ho) as (F & Ft & Fr & ->).
  set (sel := selected operation_name ds) in *. rewrite sort_definitions.
  assert (∀ l : list GDefinition, fragments_of (norm_definition <$> l) = norm_fragment <$> fragments_of l) as Hfs.
  { intros l. induction l as [|[o|f] l IH]; [done|exact IH|]. simpl. f_equal. exact IH. }
  assert (operations_of (norm_definition <$> filter (λ d, is_retained F d = true) sel) =
          norm_operation <$> operations_of sel) as ->.
  { clear. induction sel as [|[o|f] l IH]; [done|..].
    - rewrite filter_cons_True by done. simpl. f_equal. exact IH.
    - rewrite filter_cons. by case_decide. }
  rewrite Hfs. set (fs := fragments_of (filter (λ d, is_retained F d = true) sel)).
  assert (∀ f, f ∈ fs ↔ f ∈ fragments_of ds ∧ reachable sel (gf_name f)) as Hin.
  { intros f. subst fs. unfold fragments_of. rewrite !list_elem_of_omap. rewrite <-Fr. split.
    - intros ([|f'] & [Hr Hd]%list_elem_of_filter & [= ->]). split.
      + exists (GDFragment f). split; [|done]. subst sel. destruct operation_name; [by apply list_elem_of_filter in Hd as [_ ?]|done].
      + simpl in Hr. destruct (F !! gf_name f); [by eexists|done].
    - intros [([|f'] & Hd & [= ->]) [v Hv]]. exists (GDFragment f). split; [|done]. apply list_elem_of_filter. split.
      + simpl. rewrite Hv. simpl. by apply (Ft _ _ Hv).
      + subst sel. destruct operation_name; [by apply list_elem_of_filter|done]. }
  exists fs. split_and!; [|exact Hin|].
  - subst fs. apply omap_sublist. transitivity sel; [apply sublist_filter|]. subst sel. destruct operation_name; [apply sublist_filter|done].
  - destruct (operations_of sel) as [|o os] eqn:Eo; [|by destruct (GDFragment <$> _)].
    assert (fs = []) as ->; [|done]. destruct fs as [|f fs]; [done|]. exfalso.
    destruct (proj1 (Hin f)) as [_ Hr]; [left|]. clear -Eo Hr.
    assert (∀ o, GDOperation o ∉ sel) as Hno.
    { intros o Ho. apply (not_elem_of_nil o). rewrite <-Eo. apply list_elem_of_omap. by exists (GDOperation o). }
    induction Hr as [[o|g] n Hd Hn|]; [by apply Hno in Hd|by apply not_elem_of_nil in Hn|done].
Qed.
End entry.

(** ** Concrete documents *)
Definition leaf (name : string) : GSelection := GField None name [] [] [].
Definition user_query (id : GValue) (fields : list GSelection) : GDefinition :=
  GDOperation (GNamedOperation OQuery (MkGOperation (Some "GetUser") [] [] [GField None "user" [("id", id)] [] fields])).
Definition name_parts : GDefinition :=
  GDFragment (MkGFragment "NameParts" "User" [] [leaf "lastname"; leaf "firstname"]).
Definition unused : GDefinition := GDFragment (MkGFragment "Unused" "User" [] [leaf "id"]).
Definition document1 : list GDefinition :=
  [user_query (GVString "hello") [GFragmentSpread "NameParts" []; GField (Some "aliased") "name" [] [] []]; name_parts; unused].
Definition document2 : list GDefinition :=
  [user_query (GVString "") [leaf "name"; GFragmentSpread "NameParts" []]; name_parts; unused].
Definition parse_sources (s : string) : string + list GDefinition :=
  if String.eqb s "1" then inr document1 else if String.eqb s "2" then inr document2 else inl "syntax error".
(** A printer that writes the names of the definitions and of their fields. *)
Definition print_names (ds : list GDefinition) : string :=
  String.concat " " (concat ((λ d, match d with
    | GDOperation o => "op" :: set_spreads (operation_set o)
    | GDFragment f => gf_name f :: (snd ∘ selection_key <$> gf_selection_set f)
    end) <$> ds)).

Lemma reordered_swap {A K} `{EqDecision K} (f : A → K) x y : f x ≠ f y → reordered f [x; y] [y; x].
Proof. intros Hne k. rewrite !filter_cons, filter_nil. repeat case_decide; congruence. Qed.
Lemma similar_leaf a b name : similar (GField a name [] [] []) (GField b name [] [] []).
Proof. eapply similar_field; try (by exists []); by constructor. Qed.
Lemma similar_refl_leaves (names : list string) : similar_set (leaf <$> names) (leaf <$> names).
Proof. exists (leaf <$> names). split; [|done]. induction names; constructor; [apply similar_leaf|done]. Qed.
Lemma documents_similar : Forall2 similar_definition document1 document2.
Proof.
  constructor; [|constructor; [|constructor; [|constructor]]].
  - apply similar_operation; [done|by exists []|].
    exists [GField None "user" [("id", GVString "")] [] [leaf "name"; GFragmentSpread "NameParts" []]].
    split; [|done]. constructor; [|constructor].
    apply (similar_field _ _ _ _ _ _ _ _ [GFragmentSpread "NameParts" []; leaf "name"]).
    + exists [("id", GVString "")]. split; [|done]. constructor; [|constructor]. split; [done|apply similar_string].
    + by exists [].
    + constructor; [apply similar_spread; by exists []|]. constructor; [apply similar_leaf|constructor].
    + by apply reordered_swap.
  - apply similar_fragment; [by exists []|]. apply (similar_refl_leaves ["lastname"; "firstname"]).
  - apply similar_fragment; [by exists []|]. apply (similar_refl_leaves ["id"]).
Qed.
Lemma document1_reachable n : reachable document1 n → n = "NameParts".
Proof.
  induction 1 as [d n Hd Hn|f n Hf _ _ Hn].
  - apply elem_of_cons in Hd as [->|Hd]; [by apply list_elem_of_singleton in Hn|].
    repeat (apply elem_of_cons in Hd as [->|Hd]; [by apply not_elem_of_nil in Hn|]). by apply not_elem_of_nil in Hd.
  - repeat (apply elem_of_cons in Hf as [[= ->]|Hf]; [by apply not_elem_of_nil in Hn|]).
    apply elem_of_cons in Hf as [?|Hf]; [done|].
    repeat (apply elem_of_cons in Hf as [[= ->]|Hf]; [by apply not_elem_of_nil in Hn|]). by apply not_elem_of_nil in Hf.
Qed.
Lemma document1_ordered : defined_after_use (selected (Some "GetUser") document1).
Proof.
  intros i f _ ->%document1_reachable. left. exists (user_query (GVString "hello") [GFragmentSpread "NameParts" []; GField (Some "aliased") "name" [] [] []]).
  split; left.
Qed.
Lemma normalize_similar_witness :
  normalize parse_sources print_names "1" (Some "GetUser") = normalize parse_sources print_names "2" (Some "GetUser").
Proof.
  exact (normalize_similar parse_sources print_names "1" "2" document1 document2 (Some "GetUser") eq_refl eq_refl
           documents_similar document1_ordered).
Defined.
Lemma normalize_fragments_witness :
  (∃ fs, fs `sublist_of` fragments_of document1 ∧
    (∀ f, f ∈ fs ↔ f ∈ fragments_of document1 ∧ reachable document1 (gf_name f)) ∧
    normalize parse_sources print_names "1" (Some "GetUser") =
      inr (print_names ((GDFragment <$> sort (H := cmp_on gf_name) (norm_fragment <$> fs)) ++
                        (GDOperation <$> (norm_operation <$> operations_of document1))))) ∧
  normalize parse_sources print_names "1" (Some "GetUser") = inr "NameParts firstname lastname op NameParts".
Proof.
  split; [|vm_compute; reflexivity].
  exact (normalize_fragments parse_sources print_names "1" document1 (Some "GetUser") eq_refl document1_ordered).
Defined.

Definition spreading (name : string) (used : list string) : GDefinition :=
  GDFragment (MkGFragment name "User" [] (leaf "b" :: leaf "a" :: ((λ n, GFragmentSpread n []) <$> used))).
Definition operation_with (used : string) : GDefinition :=
  GDOperation (GSelectionSet [GFragmentSpread used []]).
(** The pass over the fragments visits them once, in the order of their
    definition. A fragment that is defined before the fragment that uses it is
    printed as it is, and the fragments it uses are dropped; since the printed
    fragments are sorted by name, normalising the result again can drop a
    fragment in use. *)
Theorem normalize_drops_used_fragments :
  print_names (normalize_document None [operation_with "A"; spreading "C" []; spreading "B" ["C"]; spreading "A" ["B"]])
    = "A a b B B b a C op A" ∧
  let once := normalize_document None [operation_with "Z"; spreading "Z" ["M"]; spreading "M" ["A"]; spreading "A" []] in
  fragments_of once ≡ₚ norm_fragment <$> fragments_of [spreading "Z" ["M"]; spreading "M" ["A"]; spreading "A" []] ∧
  gf_name <$> fragments_of (normalize_document None once) = ["M"; "Z"].
Proof.
  split; [vm_compute; reflexivity|]. intros once. split; [|vm_compute; reflexivity].
  vm_compute. apply (Permutation_rev [_; _; _]).
Qed.
