(* ===== verification/SdlAst.v ===== *)
(** * The documents of cynic-parser that the linter and [from_sdl] read

    Type system documents and the executable documents of selection sets, as
    the nodes whose accessors the two programs call. The parser is an argument
    of the functions that call it. *)
From S2P Require Import Prelude RustStd.

(** [type_system::Value]; numbers are an [i64] and the bits of an [f64]. *)
Inductive SValue :=
| SVVariable (name : string)
| SVInt (n : Z)
| SVFloat (bits : Z)
| SVString (s : string)
| SVBlockString (s : string)
| SVBoolean (b : bool)
| SVNull
| SVEnum (name : string)
| SVList (items : list SValue)
| SVObject (entries : list (string * SValue)).
Inductive SWrapping := WNonNull | WList.
(** A type: its name and [wrappers()], from the outermost to the innermost. *)
Record SType := MkSType { sty_name : string; sty_wrappers : list SWrapping }.
Record SDirective := MkSDirective { sdir_name : string; sdir_arguments : list (string * SValue) }.
Record SInputValue := MkSInputValue {
  siv_name : string;
  siv_ty : SType;
  siv_default_value : option SValue;
  siv_description : option string;
  siv_directives : list SDirective;
}.
Record SField := MkSField {
  sfd_name : string;
  sfd_arguments : list SInputValue;
  sfd_ty : SType;
  sfd_description : option string;
  sfd_directives : list SDirective;
}.
Record SEnumValue := MkSEnumValue {
  sev_value : string;
  sev_description : option string;
  sev_directives : list SDirective;
}.
(** What every [TypeDefinition] has. *)
Record SHeader := MkSHeader {
  sh_name : string;
  sh_description : option string;
  sh_directives : list SDirective;
}.
Inductive STypeDefinition :=
| STScalar (h : SHeader)
| STObject (h : SHeader) (implements : list string) (fields : list SField)
| STInterface (h : SHeader) (implements : list string) (fields : list SField)
| STUnion (h : SHeader) (members : list string)
| STEnum (h : SHeader) (values : list SEnumValue)
| STInputObject (h : SHeader) (fields : list SInputValue).
Definition st_header (t : STypeDefinition) : SHeader :=
  match t with
  | STScalar h | STObject h _ _ | STInterface h _ _ | STUnion h _ | STEnum h _ | STInputObject h _ => h
  end.
Definition st_name (t : STypeDefinition) : string := sh_name (st_header t).
Definition st_directives (t : STypeDefinition) : list SDirective := sh_directives (st_header t).

Record SSchema := MkSSchema {
  ss_query_type : option string;
  ss_mutation_type : option string;
  ss_subscription_type : option string;
  ss_directives : list SDirective;
}.
Record SDirectiveDefinition := MkSDirectiveDefinition { sdd_name : string; sdd_arguments : list SInputValue }.
Inductive SDefinition :=
| SDSchema (s : SSchema)
| SDSchemaExtension (s : SSchema)
| SDType (t : STypeDefinition)
| SDTypeExtension (t : STypeDefinition)
| SDDirective (d : SDirectiveDefinition).

(** [executable::Value] and [executable::Selection]. *)
Inductive EValue :=
| EVVariable (name : string)
| EVInt (n : Z)
| EVFloat (bits : Z)
| EVString (s : string)
| EVBoolean (b : bool)
| EVNull
| EVEnum (name : string)
| EVList (items : list EValue)
| EVObject (entries : list (string * EValue)).
Inductive ESelection :=
| ESField (name : string) (arguments : list (string * EValue)) (selection_set : list ESelection)
| ESInlineFragment (type_condition : option string) (selection_set : list ESelection)
| ESFragmentSpread.
