(* ===== verification/Lint.v ===== *)
(** * [graphql-lint]: the schema linter of [lib.rs]

    Every [visit_*] function is a function to the messages it pushes; all have
    the severity [Warning]. The case conversions of the heck crate are
    arguments. *)
From Stdlib Require Import Ascii.
From S2P Require Import Prelude RustStd SdlAst.
Local Open Scope string_scope.
Local Open Scope list_scope.

Inductive Case := Pascal | ShoutySnake | Camel.
Inductive CaseMatch := Correct | Incorrect (current fix_ : string).

(** [str::starts_with] and [str::ends_with]. *)
Definition starts_with (p s : string) : bool := String.prefix p s.
Definition ends_with (p s : string) : bool := String.prefix (str_rev p) (str_rev s).

(** What the linter takes from heck. *)
Class Heck := {
  to_pascal_case : string → string;
  to_shouty_snake_case : string → string;
  to_lower_camel_case : string → string;
}.

Section lint.
Context `{Heck}.

Definition convert (case : Case) (current : string) : string :=
  match case with
  | Pascal => to_pascal_case current
  | ShoutySnake => to_shouty_snake_case current
  | Camel => to_lower_camel_case current
  end.
Definition case_check (current : string) (case : Case) : CaseMatch :=
  let fix_ := convert case current in
  if String.eqb fix_ current then Correct else Incorrect current fix_.
(** [if let CaseMatch::Incorrect { current, fix } = ..] and the push of a message. *)
Definition when_incorrect (current : string) (case : Case) (message : string → string → string) : list string :=
  match case_check current case with Correct => [] | Incorrect current fix_ => [message current fix_] end.

Definition type_definition_display (kind : STypeDefinition) : string :=
  match kind with
  | STScalar _ => "scalar"
  | STObject _ _ _ => "type"
  | STInterface _ _ _ => "interface"
  | STUnion _ _ => "union"
  | STEnum _ _ => "enum"
  | STInputObject _ _ => "input"
  end.
Definition quote (s : string) : string := "'" +:+ s +:+ "'".

Definition visit_field_argument (parent_type : STypeDefinition) (field : SField) (argument : SInputValue) : list string :=
  when_incorrect (siv_name argument) Camel (λ current fix_,
    "argument " +:+ quote current +:+ " on field " +:+ quote (sfd_name field) +:+ " on " +:+
    type_definition_display parent_type +:+ " " +:+ quote (st_name parent_type) +:+ " should be renamed to " +:+ quote fix_).
Definition visit_directive_argument (directive : SDirectiveDefinition) (argument : SInputValue) : list string :=
  when_incorrect (siv_name argument) Camel (λ current fix_,
    "argument " +:+ quote current +:+ " on directive " +:+ quote (sdd_name directive) +:+ " should be renamed to " +:+ quote fix_).
Definition visit_input_value (parent : STypeDefinition) (value : SInputValue) : list string :=
  when_incorrect (siv_name value) Camel (λ current fix_,
    "input value " +:+ quote current +:+ " on input " +:+ quote (st_name parent) +:+ " should be renamed to " +:+ quote fix_).

(** A message for the first prefix that matches; a message for a suffix. *)
Fixpoint first_prefix (site : string) (prefixes : list string) (name : string) : list string :=
  match prefixes with
  | [] => []
  | prefix :: prefixes =>
      if starts_with prefix name then [site +:+ " has a forbidden prefix: " +:+ quote prefix] else first_prefix site prefixes name
  end.
Definition forbidden_suffix (site suffix name : string) : list string :=
  if ends_with suffix name then [site +:+ " has a forbidden suffix: " +:+ quote suffix] else [].
Definition affixes (site : string) (prefixes : list string) (suffix name : string) : list string :=
  first_prefix site prefixes name ++ forbidden_suffix site suffix name.

Definition visit_field (parent : STypeDefinition) (field : SField) : list string :=
  let field_name := sfd_name field in
  if starts_with "__" field_name then []
  else
    when_incorrect field_name Camel (λ current fix_,
      "field " +:+ quote current +:+ " on " +:+ type_definition_display parent +:+ " " +:+ quote (st_name parent) +:+
      " should be renamed to " +:+ quote fix_) ++
    let site := "field " +:+ quote field_name +:+ " on type " +:+ quote (st_name parent) in
    if String.eqb (st_name parent) "Query" then affixes site ["query"; "get"; "list"] "Query" field_name
    else if String.eqb (st_name parent) "Mutation" then
      affixes site ["mutation"; "put"; "post"; "patch"] "Mutation" field_name
    else if String.eqb (st_name parent) "Subscription" then
      affixes site ["subscription"] "Subscription" field_name
    else [].
Definition visit_directive (directive : SDirectiveDefinition) : list string :=
  when_incorrect (sdd_name directive) Camel (λ current fix_,
    "directive " +:+ quote current +:+ " should be renamed to " +:+ quote fix_).

(** The four visits of a use of [deprecated] differ in the site they name. *)
Definition deprecated_without_reason (site : string) (directive : SDirective) : list string :=
  if String.eqb (sdir_name directive) "deprecated" &&
     negb (existsb (λ a, String.eqb a.1 "reason") (sdir_arguments directive))
  then ["usage of directive 'deprecated' on " +:+ site +:+ " does not populate the 'reason' argument"] else [].
Definition visit_directive_usage (parent : STypeDefinition) : SDirective → list string :=
  deprecated_without_reason (type_definition_display parent +:+ " " +:+ quote (st_name parent)).
Definition visit_directive_usage_field (parent_type : STypeDefinition) (parent_field : SField) : SDirective → list string :=
  deprecated_without_reason ("field " +:+ quote (sfd_name parent_field) +:+ " on " +:+
    type_definition_display parent_type +:+ " " +:+ quote (st_name parent_type)).
Definition visit_directive_usage_input_value (parent_input : STypeDefinition) (parent_input_value : SInputValue)
    : SDirective → list string :=
  deprecated_without_reason ("input value " +:+ quote (siv_name parent_input_value) +:+ " on input " +:+
    quote (st_name parent_input)).
Definition visit_directive_usage_enum_value (parent_enum : STypeDefinition) (parent_value : SEnumValue)
    : SDirective → list string :=
  deprecated_without_reason ("enum value " +:+ quote (sev_value parent_value) +:+ " on enum " +:+ quote (st_name parent_enum)).

Definition visit_union (name : string) : list string := affixes ("union " +:+ quote name) ["Union"] "Union" name.
Definition visit_interface (name : string) : list string :=
  affixes ("interface " +:+ quote name) ["Interface"] "Interface" name.
Definition visit_object (name : string) : list string :=
  when_incorrect name Pascal (λ current fix_, "type " +:+ quote current +:+ " should be renamed to " +:+ quote fix_) ++
  affixes ("type " +:+ quote name) ["Type"] "Type" name.
Definition visit_enum (name : string) : list string :=
  when_incorrect name Pascal (λ current fix_, "enum " +:+ quote current +:+ " should be renamed to " +:+ quote fix_) ++
  affixes ("enum " +:+ quote name) ["Enum"] "Enum" name.
Definition visit_enum_value (parent : STypeDefinition) (enum_value : SEnumValue) : list string :=
  when_incorrect (sev_value enum_value) ShoutySnake (λ current fix_,
    "value " +:+ quote current +:+ " on enum " +:+ quote (st_name parent) +:+ " should be renamed to " +:+ quote fix_).

(** [for_each] over the nodes of a kind. *)
Definition each {A} (f : A → list string) (l : list A) : list string := concat (f <$> l).
Definition lint_field (parent : STypeDefinition) (field : SField) : list string :=
  visit_field parent field ++ each (visit_field_argument parent field) (sfd_arguments field) ++
  each (visit_directive_usage_field parent field) (sfd_directives field).
Definition lint_type (t : STypeDefinition) : list string :=
  let directives := each (visit_directive_usage t) (st_directives t) in
  match t with
  | STScalar _ => directives
  | STObject h _ fields => visit_object (sh_name h) ++ directives ++ each (lint_field t) fields
  | STInterface h _ fields => visit_interface (sh_name h) ++ directives ++ each (lint_field t) fields
  | STUnion h _ => visit_union (sh_name h) ++ directives
  | STEnum h values =>
      visit_enum (sh_name h) ++ directives ++
      each (λ v, visit_enum_value t v ++ each (visit_directive_usage_enum_value t v) (sev_directives v)) values
  | STInputObject _ fields =>
      directives ++
      each (λ v, visit_input_value t v ++ each (visit_directive_usage_input_value t v) (siv_directives v)) fields
  end.
Definition lint_definition (d : SDefinition) : list string :=
  match d with
  | SDSchema _ | SDSchemaExtension _ => []
  | SDTypeExtension t | SDType t => lint_type t
  | SDDirective d => visit_directive d ++ each (visit_directive_argument d) (sdd_arguments d)
  end.
Definition lint_document (schema : list SDefinition) : list string := each lint_definition schema.

(** [lint]; the error is [LinterError::Parse] as it is displayed. *)
Definition lint (parse_type_system_document : string → string + list SDefinition) (schema : string)
    : string + list string :=
  match parse_type_system_document schema with
  | inl error => inl ("encountered a parsing error:" +:+ String (ascii_of_nat 10) error)
  | inr parsed_schema => inr (lint_document parsed_schema)
  end.
End lint.

(** ** The conventions, as propositions *)
Definition has_prefix (p s : string) : Prop := ∃ t, s = p +:+ t.
Definition has_suffix (p s : string) : Prop := ∃ t, s = t +:+ p.
Definition free_of (prefixes : list string) (suffix name : string) : Prop :=
  (∀ p, p ∈ prefixes → ¬ has_prefix p name) ∧ ¬ has_suffix suffix name.
Definition reasons_given (directives : list SDirective) : Prop :=
  Forall (λ d, sdir_name d = "deprecated" → "reason" ∈ (sdir_arguments d).*1) directives.

Section conventions.
Context `{Heck}.
Definition in_case (case : Case) (name : string) : Prop := convert case name = name.
Definition field_name_ok (parent name : string) : Prop :=
  in_case Camel name ∧
  (parent = "Query" → free_of ["query"; "get"; "list"] "Query" name) ∧
  (parent = "Mutation" → free_of ["mutation"; "put"; "post"; "patch"] "Mutation" name) ∧
  (parent = "Subscription" → free_of ["subscription"] "Subscription" name).
Definition field_ok (parent : string) (f : SField) : Prop :=
  (¬ has_prefix "__" (sfd_name f) → field_name_ok parent (sfd_name f)) ∧
  Forall (λ a, in_case Camel (siv_name a)) (sfd_arguments f) ∧ reasons_given (sfd_directives f).
Definition type_ok (t : STypeDefinition) : Prop :=
  reasons_given (st_directives t) ∧
  match t with
  | STScalar _ => True
  | STObject h _ fields => in_case Pascal (sh_name h) ∧ free_of ["Type"] "Type" (sh_name h) ∧ Forall (field_ok (sh_name h)) fields
  | STInterface h _ fields => free_of ["Interface"] "Interface" (sh_name h) ∧ Forall (field_ok (sh_name h)) fields
  | STUnion h _ => free_of ["Union"] "Union" (sh_name h)
  | STEnum h values =>
      in_case Pascal (sh_name h) ∧ free_of ["Enum"] "Enum" (sh_name h) ∧
      Forall (λ v, in_case ShoutySnake (sev_value v) ∧ reasons_given (sev_directives v)) values
  | STInputObject _ fields => Forall (λ v, in_case Camel (siv_name v) ∧ reasons_given (siv_directives v)) fields
  end.
Definition definition_ok (d : SDefinition) : Prop :=
  match d with
  | SDSchema _ | SDSchemaExtension _ => True
  | SDTypeExtension t | SDType t => type_ok t
  | SDDirective d => in_case Camel (sdd_name d) ∧ Forall (λ a, in_case Camel (siv_name a)) (sdd_arguments d)
  end.

(** ** Each visit is silent exactly on what conforms *)
Lemma starts_with_prefix p s : starts_with p s = true ↔ has_prefix p s.
Proof.
  unfold starts_with, has_prefix. revert s. induction p as [|c p IH]; intros s; simpl; [split; intros _; [by exists s|by destruct s]|].
  destruct s as [|d s]; [by split; [|intros [t [=]]]|].
  change (String.prefix (String c p) (String d s)) with (if ascii_dec c d then String.prefix p s else false).
  destruct (ascii_dec c d) as [->|Hne].
  - rewrite IH. split; intros [t Ht]; exists t; [by rewrite Ht|by injection Ht].
  - split; [done|]. intros [t [= E _]]. congruence.
Qed.
Lemma list_ascii_app a b :
  String.list_ascii_of_string (a +:+ b) = String.list_ascii_of_string a ++ String.list_ascii_of_string b.
Proof. induction a as [|c a IH]; [done|]. simpl. f_equal. exact IH. Qed.
Lemma string_of_list_app l k :
  String.string_of_list_ascii (l ++ k) = String.string_of_list_ascii l +:+ String.string_of_list_ascii k.
Proof. induction l as [|c l IH]; [done|]. exact (f_equal (String c) IH). Qed.
Lemma str_rev_app a b : str_rev (a +:+ b) = str_rev b +:+ str_rev a.
Proof. unfold str_rev. by rewrite list_ascii_app, rev_app_distr, string_of_list_app. Qed.
Lemma str_rev_involutive s : str_rev (str_rev s) = s.
Proof.
  unfold str_rev. by rewrite String.list_ascii_of_string_of_list_ascii, rev_involutive, String.string_of_list_ascii_of_string.
Qed.
Lemma ends_with_suffix p s : ends_with p s = true ↔ has_suffix p s.
Proof.
  unfold ends_with. fold (starts_with (str_rev p) (str_rev s)). rewrite starts_with_prefix. split.
  - intros [t Ht]. exists (str_rev t). by rewrite <-(str_rev_involutive s), Ht, str_rev_app, str_rev_involutive.
  - intros [t ->]. exists (str_rev t). by rewrite str_rev_app.
Qed.

Lemma each_nil {A} (f : A → list string) (P : A → Prop) l :
  (∀ x, f x = [] ↔ P x) → each f l = [] ↔ Forall P l.
Proof.
  intros Hf. unfold each. induction l as [|x l IH]; simpl; [by split|].
  rewrite app_nil, Forall_cons. by rewrite Hf, IH.
Qed.
Lemma when_incorrect_nil current case message : when_incorrect current case message = [] ↔ in_case case current.
Proof.
  unfold when_incorrect, case_check, in_case. destruct (String.eqb_spec (convert case current) current); naive_solver.
Qed.
Lemma first_prefix_nil site prefixes name :
  first_prefix site prefixes name = [] ↔ ∀ p, p ∈ prefixes → ¬ has_prefix p name.
Proof.
  induction prefixes as [|p ps IH]; simpl; [split; [intros _ p []%elem_of_nil|done]|].
  destruct (starts_with p name) eqn:E.
  - apply starts_with_prefix in E. split; [done|]. intros Hp. destruct (Hp p); [left|done].
  - rewrite IH. split; [|set_solver]. intros Hp q [->|Hq]%elem_of_cons; [|by apply Hp].
    rewrite <-starts_with_prefix. congruence.
Qed.
Lemma forbidden_suffix_nil site suffix name : forbidden_suffix site suffix name = [] ↔ ¬ has_suffix suffix name.
Proof. unfold forbidden_suffix. rewrite <-ends_with_suffix. destruct (ends_with suffix name); naive_solver. Qed.
Lemma affixes_nil site prefixes suffix name : affixes site prefixes suffix name = [] ↔ free_of prefixes suffix name.
Proof. unfold affixes, free_of. by rewrite app_nil, first_prefix_nil, forbidden_suffix_nil. Qed.
Lemma deprecated_nil site d :
  deprecated_without_reason site d = [] ↔ (sdir_name d = "deprecated" → "reason" ∈ (sdir_arguments d).*1).
Proof.
  unfold deprecated_without_reason. destruct (String.eqb_spec (sdir_name d) "deprecated") as [E|E]; [|naive_solver].
  assert (existsb (λ a, String.eqb a.1 "reason") (sdir_arguments d) = true ↔ "reason" ∈ (sdir_arguments d).*1) as Hr.
  { induction (sdir_arguments d) as [|[n v] l IH]; simpl; [by split; [|intros []%elem_of_nil]|].
    rewrite orb_true_iff, IH, elem_of_cons. destruct (String.eqb_spec n "reason"); naive_solver. }
  destruct (existsb _ _); simpl; naive_solver.
Qed.
Lemma deprecated_each site ds : each (deprecated_without_reason site) ds = [] ↔ reasons_given ds.
Proof. apply each_nil. intros d. apply deprecated_nil. Qed.

Lemma visit_field_nil parent f :
  visit_field parent f = [] ↔ (¬ has_prefix "__" (sfd_name f) → field_name_ok (st_name parent) (sfd_name f)).
Proof.
  unfold visit_field, field_name_ok. destruct (starts_with "__" (sfd_name f)) eqn:E.
  { apply starts_with_prefix in E. naive_solver. }
  assert (¬ has_prefix "__" (sfd_name f)) as Hn by (rewrite <-starts_with_prefix; congruence).
  rewrite app_nil, when_incorrect_nil.
  repeat match goal with |- context [String.eqb ?a ?b] => destruct (String.eqb_spec a b) as [->|] end;
    rewrite ?affixes_nil; naive_solver.
Qed.
Lemma lint_field_nil parent f : lint_field parent f = [] ↔ field_ok (st_name parent) f.
Proof.
  unfold lint_field, field_ok, visit_directive_usage_field. rewrite !app_nil, visit_field_nil, deprecated_each.
  rewrite (each_nil _ (λ a, in_case Camel (siv_name a))); [done|]. intros a. apply when_incorrect_nil.
Qed.
Lemma lint_type_nil t : lint_type t = [] ↔ type_ok t.
Proof.
  unfold lint_type, type_ok, visit_directive_usage, visit_directive_usage_enum_value, visit_directive_usage_input_value.
  destruct t as [h|h i fs|h i fs|h ms|h vs|h fs]; cbn [st_directives st_header];
    rewrite ?app_nil, deprecated_each; unfold visit_object, visit_interface, visit_union, visit_enum;
    rewrite ?app_nil, ?when_incorrect_nil, ?affixes_nil.
  - naive_solver.
  - rewrite (each_nil _ (field_ok (sh_name h))); [naive_solver|]. intros f. apply lint_field_nil.
  - rewrite (each_nil _ (field_ok (sh_name h))); [naive_solver|]. intros f. apply lint_field_nil.
  - naive_solver.
  - rewrite (each_nil _ (λ v, in_case ShoutySnake (sev_value v) ∧ reasons_given (sev_directives v))); [naive_solver|].
    intros v. by rewrite app_nil, deprecated_each; unfold visit_enum_value; rewrite when_incorrect_nil.
  - rewrite (each_nil _ (λ v, in_case Camel (siv_name v) ∧ reasons_given (siv_directives v))); [naive_solver|].
    intros v. by rewrite app_nil, deprecated_each; unfold visit_input_value; rewrite when_incorrect_nil.
Qed.
Lemma lint_definition_nil d : lint_definition d = [] ↔ definition_ok d.
Proof.
  destruct d as [?|?|t|t|d]; simpl; [done|done|apply lint_type_nil|apply lint_type_nil|].
  rewrite app_nil. unfold visit_directive. rewrite when_incorrect_nil.
  rewrite (each_nil _ (λ a, in_case Camel (siv_name a))); [done|]. intros a. apply when_incorrect_nil.
Qed.

Lemma lint_silent parse schema ds :
  parse schema = inr ds → lint parse schema = inr [] ↔ Forall definition_ok ds.
Proof.
  unfold lint. intros ->. rewrite <-(each_nil lint_definition definition_ok ds lint_definition_nil).
  split; [by intros [= E]|intros E; by f_equal].
Qed.

(** ** The conventions of the documentation *)

(** All kinds of types are types, and every [@deprecated] needs a reason. *)
Definition type_name_ok (t : STypeDefinition) : Prop :=
  in_case Pascal (st_name t) ∧ free_of ["Type"] "Type" (st_name t).
Definition input_value_follows (v : SInputValue) : Prop :=
  in_case Camel (siv_name v) ∧ reasons_given (siv_directives v).
Definition field_follows (parent : string) (f : SField) : Prop :=
  field_name_ok parent (sfd_name f) ∧ Forall input_value_follows (sfd_arguments f) ∧ reasons_given (sfd_directives f).
Definition follows (d : SDefinition) : Prop :=
  match d with
  | SDSchema _ | SDSchemaExtension _ => True
  | SDTypeExtension t | SDType t =>
      type_name_ok t ∧ reasons_given (st_directives t) ∧
      match t with
      | STScalar _ => True
      | STObject h _ fields => Forall (field_follows (sh_name h)) fields
      | STInterface h _ fields => free_of ["Interface"] "Interface" (sh_name h) ∧ Forall (field_follows (sh_name h)) fields
      | STUnion h _ => free_of ["Union"] "Union" (sh_name h)
      | STEnum h values =>
          free_of ["Enum"] "Enum" (sh_name h) ∧
          Forall (λ v, in_case ShoutySnake (sev_value v) ∧ reasons_given (sev_directives v)) values
      | STInputObject _ fields => Forall input_value_follows fields
      end
  | SDDirective d => in_case Camel (sdd_name d) ∧ Forall input_value_follows (sdd_arguments d)
  end.
(** The part of the conventions that the linter does not look at: deprecated
    arguments, and the names of types that are not objects, but for the case of
    the names of enums. *)
Definition arguments_reasoned (l : list SInputValue) : Prop := Forall (λ a, reasons_given (siv_directives a)) l.
Definition unlinted_ok (d : SDefinition) : Prop :=
  match d with
  | SDSchema _ | SDSchemaExtension _ => True
  | SDTypeExtension t | SDType t =>
      match t with
      | STObject _ _ fields => Forall (λ f, arguments_reasoned (sfd_arguments f)) fields
      | STInterface _ _ fields => type_name_ok t ∧ Forall (λ f, arguments_reasoned (sfd_arguments f)) fields
      | STEnum h _ => free_of ["Type"] "Type" (sh_name h)
      | STScalar _ | STUnion _ _ | STInputObject _ _ => type_name_ok t
      end
  | SDDirective d => arguments_reasoned (sdd_arguments d)
  end.
(** The roots have their default names, and no field has a reserved name. *)
Definition type_fields (t : STypeDefinition) : list SField :=
  match t with STObject _ _ fields | STInterface _ _ fields => fields | _ => [] end.
Definition default_roots (d : SDefinition) : Prop :=
  match d with
  | SDSchema _ | SDSchemaExtension _ => False
  | SDTypeExtension t | SDType t => Forall (λ f, ¬ has_prefix "__" (sfd_name f)) (type_fields t)
  | SDDirective _ => True
  end.

Lemma input_values_follow l :
  Forall input_value_follows l ↔ Forall (λ a, in_case Camel (siv_name a)) l ∧ arguments_reasoned l.
Proof. apply Forall_and. Qed.
Lemma fields_follow parent fs :
  Forall (λ f, ¬ has_prefix "__" (sfd_name f)) fs →
  Forall (field_follows parent) fs ↔
  Forall (field_ok parent) fs ∧ Forall (λ f, arguments_reasoned (sfd_arguments f)) fs.
Proof.
  intros Hf. rewrite <-Forall_and. rewrite !Forall_forall in *. unfold field_follows, field_ok.
  setoid_rewrite input_values_follow. split; intros Hall f Hin; specialize (Hall f Hin); specialize (Hf f Hin); naive_solver.
Qed.
Lemma follows_definition d : default_roots d → follows d ↔ definition_ok d ∧ unlinted_ok d.
Proof.
  assert (∀ t, Forall (λ f, ¬ has_prefix "__" (sfd_name f)) (type_fields t) →
    follows (SDType t) ↔ definition_ok (SDType t) ∧ unlinted_ok (SDType t)) as Ht.
  { intros t Hf. simpl. unfold type_ok, type_name_ok, st_name.
    destruct t as [h|h i fs|h i fs|h ms|h vs|h fs]; cbn [type_fields st_header] in *;
      rewrite ?(fields_follow _ _ Hf); tauto. }
  destruct d as [?|?|t|t|d]; simpl; [done|done|apply Ht|apply Ht|]. rewrite input_values_follow. tauto.
Qed.

(** C27. The linter and the conventions of its documentation, for schemas
    without a schema definition, whose roots are [Query], [Mutation] and
    [Subscription], and without reserved field names. The documented
    conventions: names of types, fields, arguments, input values, directives
    and enum values in their cases and without the forbidden affixes, those of
    root fields included, and a reason for every [@deprecated]. A schema that
    follows them is not reported. A schema that is not reported follows them if
    it does in what the linter does not look at ([unlinted_ok]): deprecations of
    arguments, and the names of types other than objects but for the case of
    enum names. Schemas with other roots and deprecated arguments are in
    [lint_misses]. *)
Theorem lint_accepts parse schema ds :
  parse schema = inr ds → Forall default_roots ds →
  (Forall follows ds → lint parse schema = inr []) ∧
  (lint parse schema = inr [] → Forall unlinted_ok ds → Forall follows ds).
Proof.
  intros Hp Hr. rewrite (lint_silent _ _ _ Hp). rewrite !Forall_forall in *.
  split; [intros Hf d Hd; by apply follows_definition; auto|]. intros Hok Hu d Hd. apply follows_definition; auto.
Qed.
End conventions.

(** ** A schema that follows the conventions, and one that does not *)
Definition no_conversion : Heck := {| to_pascal_case := id; to_shouty_snake_case := id; to_lower_camel_case := id |}.
Definition lint_field_named (name : string) : SField := MkSField name [] (MkSType "Int" []) None [].
Definition lint_query (name : string) : list SDefinition :=
  [SDType (STObject (MkSHeader "Query" None []) [] [lint_field_named name])].
Lemma lint_accepts_witness :
  Forall (@follows no_conversion) (lint_query "user") ∧
  ¬ Forall (@follows no_conversion) (lint_query "getUser").
Proof.
  assert (∀ name, starts_with "__" name = false → Forall default_roots (lint_query name)) as Hr.
  { intros name Hn. constructor; [|done]. constructor; [|done]. rewrite <-starts_with_prefix. simpl. congruence. }
  split.
  - apply (proj2 (@lint_accepts no_conversion (λ _, inr (lint_query "user")) "" (lint_query "user") eq_refl (Hr "user" eq_refl))).
    + vm_compute. reflexivity.
    + repeat constructor.
  - intros Hf. apply (proj1 (@lint_accepts no_conversion (λ _, inr (lint_query "getUser")) "" (lint_query "getUser")
      eq_refl (Hr "getUser" eq_refl))) in Hf. vm_compute in Hf. discriminate Hf.
Defined.

(** ** Where the linter departs from its documentation *)

(** A deprecated argument without a reason is not reported, and a query root
    that is not named [Query] may have fields with the forbidden prefixes. *)
Theorem lint_misses :
  let deprecated := MkSDirective "deprecated" [] in
  let argument := MkSInputValue "a" (MkSType "Int" []) None None [deprecated] in
  let header name := MkSHeader name None [] in
  let field name arguments := MkSField name arguments (MkSType "Int" []) None [] in
  @lint_document no_conversion [SDType (STObject (header "User") [] [field "f" [argument]])] = [] ∧
  @lint_document no_conversion
    [SDSchema (MkSSchema (Some "Root") None None []); SDType (STObject (header "Root") [] [field "getUser" []])] = [].
Proof. vm_compute. split; reflexivity. Qed.
