(* ===== verification/FromSdl.v ===== *)
(** * [federated-graph]: reading the SDL of a federated graph, [from_sdl.rs]

    [from_sdl] with [from_sdl/arguments.rs] and [from_sdl/value.rs]. The vectors
    of the Rust [State] and of the graph it holds are kept in one
    [FederatedGraph]; functions that take [&mut State] are in a monad over the
    state, domain errors and panics. The parsers of cynic-parser are
    arguments. *)
From S2P Require Import Prelude RustStd Wrapping CheckSchema IndexSet FieldTypes Subgraphs ComposeContext Walkers FederatedGraph SdlAst.
Local Open Scope string_scope.
Local Open Scope list_scope.
Local Open Scope nat_scope.

Section from_sdl.
Context `{IndexSet}.

Record State := MkState {
  s_graph : FederatedGraph;
  s_strings : iset string;
  query_type_name : option string;
  mutation_type_name : option string;
  subscription_type_name : option string;
  definition_names : gmap string FederatedDefinition;
  s_selection_map : gmap (FederatedDefinition * string) nat;
  input_values_map : gmap (nat * string) nat;
  enum_values_map : gmap (TypeDefinitionId * string) nat;
  graph_sdl_names : gmap string SubgraphId;
}.

(** ** The monad: a domain error is on the left of the sum *)
Definition F (A : Type) : Type := State → res (string + A * State).
Global Instance F_ret : MRet F := λ A a st, Ret (inr (a, st)).
Global Instance F_bind : MBind F := λ A B f m st,
  r ← m st; match r with inl error => Ret (inl error) | inr (a, st) => f a st end.
Definition ferr {A} (error : string) : F A := λ _, Ret (inl error).
Definition fread {A} (r : State → res A) : F A := λ st, a ← r st; Ret (inr (a, st)).
Definition fget {A} (r : State → A) : F A := fread (λ st, Ret (r st)).
Definition flift {A} (r : res A) : F A := fread (λ _, r).
Definition fmodify (f : State → State) : F unit := λ st, Ret (inr ((), f st)).
Definition ok_or {A} (error : string) (o : option A) : F A := match o with Some a => mret a | None => ferr error end.
Fixpoint feach {A} (f : A → F unit) (l : list A) : F unit :=
  match l with
  | [] => mret ()
  | x :: l => _ ← f x; feach f l
  end.
(** [Option::map] with effects, and [transpose]. *)
Definition fopt {A B} (f : A → F B) (o : option A) : F (option B) :=
  match o with Some a => b ← f a; mret (Some b) | None => mret None end.

Definition set_graph (f : FederatedGraph → FederatedGraph) : F unit := fmodify (λ st,
  MkState (f (s_graph st)) (s_strings st) (query_type_name st) (mutation_type_name st) (subscription_type_name st)
    (definition_names st) (s_selection_map st) (input_values_map st) (enum_values_map st) (graph_sdl_names st)).
Definition name_definition (name : string) (d : FederatedDefinition) : F unit := fmodify (λ st,
  MkState (s_graph st) (s_strings st) (query_type_name st) (mutation_type_name st) (subscription_type_name st)
    (<[name := d]> (definition_names st)) (s_selection_map st) (input_values_map st) (enum_values_map st) (graph_sdl_names st)).
Definition name_field (key : FederatedDefinition * string) (id : nat) : F unit := fmodify (λ st,
  MkState (s_graph st) (s_strings st) (query_type_name st) (mutation_type_name st) (subscription_type_name st)
    (definition_names st) (<[key := id]> (s_selection_map st)) (input_values_map st) (enum_values_map st) (graph_sdl_names st)).
Definition name_input_value (key : nat * string) (id : nat) : F unit := fmodify (λ st,
  MkState (s_graph st) (s_strings st) (query_type_name st) (mutation_type_name st) (subscription_type_name st)
    (definition_names st) (s_selection_map st) (<[key := id]> (input_values_map st)) (enum_values_map st) (graph_sdl_names st)).
Definition name_enum_value (key : TypeDefinitionId * string) (id : nat) : F unit := fmodify (λ st,
  MkState (s_graph st) (s_strings st) (query_type_name st) (mutation_type_name st) (subscription_type_name st)
    (definition_names st) (s_selection_map st) (input_values_map st) (<[key := id]> (enum_values_map st)) (graph_sdl_names st)).
Definition name_subgraph (name : string) (id : SubgraphId) : F unit := fmodify (λ st,
  MkState (s_graph st) (s_strings st) (query_type_name st) (mutation_type_name st) (subscription_type_name st)
    (definition_names st) (s_selection_map st) (input_values_map st) (enum_values_map st) (<[name := id]> (graph_sdl_names st))).
Definition set_roots (query mutation subscription : option string → option string) : F unit := fmodify (λ st,
  MkState (s_graph st) (s_strings st) (query (query_type_name st)) (mutation (mutation_type_name st))
    (subscription (subscription_type_name st)) (definition_names st) (s_selection_map st) (input_values_map st)
    (enum_values_map st) (graph_sdl_names st)).

(** [push_return_idx] on the vectors of the state. *)
Definition push_with {A} (get : FederatedGraph → list A) (set : list A → FederatedGraph → FederatedGraph) (x : A) : F nat :=
  id ← fget (λ st, length (get (s_graph st)));
  _ ← set_graph (λ g, set (get g ++ [x]) g);
  mret id.
(** [&mut vector[id]]. *)
Definition update_with {A} (get : FederatedGraph → list A) (set : list A → FederatedGraph → FederatedGraph) (id : nat)
    (f : A → A) : F unit :=
  x ← fread (λ st, at_index (get (s_graph st)) id);
  set_graph (λ g, set (<[id := f x]> (get g)) g).
Definition set_type_definitions (x : list TypeDefinitionRecord) (g : FederatedGraph) : FederatedGraph :=
  MkFederatedGraph (fg_subgraphs g) (fg_root_operation_types g) x (fg_objects g) (fg_interfaces g)
    (fg_fields g) (fg_unions g) (fg_input_objects g) (fg_enum_values g) (fg_input_value_definitions g)
    (fg_strings g) (fg_directives g) (fg_authorized_directives g) (fg_field_authorized_directives g)
    (fg_object_authorized_directives g) (fg_interface_authorized_directives g).
Definition set_enum_values (x : list EnumValueRecord) (g : FederatedGraph) : FederatedGraph :=
  MkFederatedGraph (fg_subgraphs g) (fg_root_operation_types g) (fg_type_definitions g) (fg_objects g)
    (fg_interfaces g) (fg_fields g) (fg_unions g) (fg_input_objects g) x (fg_input_value_definitions g)
    (fg_strings g) (fg_directives g) (fg_authorized_directives g) (fg_field_authorized_directives g)
    (fg_object_authorized_directives g) (fg_interface_authorized_directives g).
Definition set_input_objects (x : list InputObjectRecord) (g : FederatedGraph) : FederatedGraph :=
  MkFederatedGraph (fg_subgraphs g) (fg_root_operation_types g) (fg_type_definitions g) (fg_objects g)
    (fg_interfaces g) (fg_fields g) (fg_unions g) x (fg_enum_values g) (fg_input_value_definitions g)
    (fg_strings g) (fg_directives g) (fg_authorized_directives g) (fg_field_authorized_directives g)
    (fg_object_authorized_directives g) (fg_interface_authorized_directives g).
Definition set_roots_of (x : RootOperationTypes) (g : FederatedGraph) : FederatedGraph :=
  MkFederatedGraph (fg_subgraphs g) x (fg_type_definitions g) (fg_objects g) (fg_interfaces g)
    (fg_fields g) (fg_unions g) (fg_input_objects g) (fg_enum_values g) (fg_input_value_definitions g)
    (fg_strings g) (fg_directives g) (fg_authorized_directives g) (fg_field_authorized_directives g)
    (fg_object_authorized_directives g) (fg_interface_authorized_directives g).
Definition push_subgraph := push_with fg_subgraphs set_subgraphs.
Definition push_type_definition := push_with fg_type_definitions set_type_definitions.
Definition push_object := push_with fg_objects set_objects.
Definition push_interface := push_with fg_interfaces set_interfaces.
Definition push_field := push_with fg_fields set_fields.
Definition push_union := push_with fg_unions set_unions.
Definition push_input_object := push_with fg_input_objects set_input_objects.
Definition push_enum_value := push_with fg_enum_values set_enum_values.
Definition push_input_value := push_with fg_input_value_definitions set_input_value_definitions.
Definition push_directive := push_with fg_directives set_fg_directives.
Definition push_authorized := push_with fg_authorized_directives set_authorized_directives.
Definition push_field_authorized := push_with fg_field_authorized_directives set_field_authorized.
Definition push_object_authorized := push_with fg_object_authorized_directives set_object_authorized.
Definition push_interface_authorized := push_with fg_interface_authorized_directives set_interface_authorized.
Definition update_object := update_with fg_objects set_objects.
Definition update_interface := update_with fg_interfaces set_interfaces.
Definition update_union := update_with fg_unions set_unions.
Definition update_field := update_with fg_fields set_fields.
Definition update_input_object := update_with fg_input_objects set_input_objects.

(** [map[key]] of a [HashMap]. *)
Definition findex {A} (o : State → option A) : F A := fread (λ st, expect "no entry found for key" (o st)).

(** ** [impl State] *)

(** The loop of [field_type] over the wrappers, the innermost first. *)
Fixpoint wrap_loop (wrapping : Wrapping) (wrappers : list SWrapping) : res Wrapping :=
  match wrappers with
  | [] => Ret wrapping
  | _ :: wrappers =>
      match wrappers with
      | WNonNull :: wrappers => w ← wrapped_by_required_list wrapping; wrap_loop w wrappers
      | _ => w ← wrapped_by_nullable_list wrapping; wrap_loop w wrappers
      end
  end.
Definition field_wrapping (wrappers : list SWrapping) : res Wrapping :=
  match wrappers with
  | WNonNull :: wrappers => wrap_loop (new true) wrappers
  | _ => wrap_loop (new false) wrappers
  end.
Definition field_type (field_type : SType) : F FType :=
  wrapping ← flift (field_wrapping (reverse (sty_wrappers field_type)));
  found ← fget (λ st, definition_names st !! sty_name field_type);
  definition ← ok_or ("Unknown type '" +:+ sty_name field_type +:+ "'") found;
  mret (MkFType wrapping definition).

Definition insert_string (s : string) : F nat := λ st,
  let '(id, strs) := intern s (s_strings st) in
  Ret (inr (id, MkState (s_graph st) strs (query_type_name st) (mutation_type_name st) (subscription_type_name st)
    (definition_names st) (s_selection_map st) (input_values_map st) (enum_values_map st) (graph_sdl_names st))).

(** [unwrap_or] has already interned the name of an enum value when it is found. *)
Fixpoint insert_value (expected_enum_type : option TypeDefinitionId) (node : SValue) : F FValue :=
  match node with
  | SVNull => mret FVNull
  | SVInt n => mret (FVInt n)
  | SVFloat n => mret (FVFloat n)
  | SVString s | SVBlockString s => id ← insert_string s; mret (FVString id)
  | SVBoolean b => mret (FVBoolean b)
  | SVEnum enm =>
      found ← fget (λ st, enum_id ← expected_enum_type; enum_values_map st !! (enum_id, enm));
      name ← insert_string enm;
      mret (match found with Some id => FVEnumValue id | None => FVUnboundEnumValue name end)
  | SVList list => items ← mapM (insert_value expected_enum_type) list; mret (FVList items)
  | SVObject obj =>
      entries ← mapM (λ kv, k ← insert_string kv.1; v ← insert_value expected_enum_type kv.2; mret (k, v)) obj;
      mret (FVObject entries)
  | SVVariable _ => flift (Panic "internal error: entered unreachable code: variable in type system document")
  end.

Definition get_object_id (st : State) (name : string) : option nat :=
  match definition_names st !! name with Some (FObject object_id) => Some object_id | _ => None end.
Definition root_operation_types (st : State) : string + RootOperationTypes :=
  let query := default "Query" (query_type_name st) in
  let mutation := default "Mutation" (mutation_type_name st) in
  let subscription := default "Subscription" (subscription_type_name st) in
  match get_object_id st query with
  | Some id => inr (MkRootOperationTypes id (get_object_id st mutation) (get_object_id st subscription))
  | None => inl ("The `" +:+ query +:+ "` type is not defined")
  end.
Definition get_definition_name (definition : FederatedDefinition) (st : State) : res string :=
  name ← definition_name_id (s_graph st) definition;
  expect "IndexSet: index out of bounds" (get_index (s_strings st) name).

(** ** [arguments.rs] and the arguments of directives *)
Definition get_argument (d : SDirective) (argument_name : string) : option SValue :=
  snd <$> find (λ a, String.eqb a.1 argument_name) (sdir_arguments d).
Definition string_argument (d : SDirective) (argument_name : string) : option string :=
  match get_argument d argument_name with Some (SVString s) | Some (SVBlockString s) => Some s | _ => None end.
Definition named (name : string) (d : SDirective) : bool := String.eqb (sdir_name d) name.
Definition is_given {A} (o : option A) : bool := match o with Some _ => true | None => false end.

(** ** [value.rs] *)
Fixpoint executable_value_to_type_system_value (value : EValue) : SValue :=
  match value with
  | EVVariable v => SVVariable v
  | EVInt v => SVInt v
  | EVFloat v => SVFloat v
  | EVString v => SVString v
  | EVBoolean v => SVBoolean v
  | EVEnum v => SVEnum v
  | EVList v => SVList (executable_value_to_type_system_value <$> v)
  | EVObject v => SVObject ((λ kv, (kv.1, executable_value_to_type_system_value kv.2)) <$> v)
  | EVNull => SVNull
  end.
Inductive Json :=
| JNull
| JNumber
| JBool (b : bool)
| JString (s : string)
| JArray (items : list Json)
| JObject (entries : list (string * Json)).
(** [Number::from_f64] refuses infinities and NaN. *)
Definition is_finite (bits : Z) : bool := negb ((bits / 2 ^ 52) mod 2048 =? 2047)%Z.
(** [collect::<Option<Vec<_>>>()]: stops at the first [None]. *)
Definition collect {A B} (f : A → res (option B)) : list A → res (option (list B)) :=
  fix go l :=
    match l with
    | [] => Ret (Some [])
    | x :: l =>
        o ← f x;
        match o with
        | None => Ret None
        | Some y => ys ← go l; Ret (option_map (cons y) ys)
        end
    end.
Fixpoint into_json (value : SValue) : res (option Json) :=
  match value with
  | SVVariable _ => Ret None
  | SVInt _ => Ret (Some JNumber)
  | SVFloat i => if is_finite i then Ret (Some JNumber) else Panic "called `Option::unwrap()` on a `None` value"
  | SVString s | SVBlockString s => Ret (Some (JString s))
  | SVBoolean b => Ret (Some (JBool b))
  | SVNull => Ret (Some JNull)
  | SVEnum _ => Ret None
  | SVList list => items ← collect into_json list; Ret (option_map JArray items)
  | SVObject obj =>
      entries ← collect (λ kv, v ← into_json kv.2; Ret (option_map (pair kv.1) v)) obj; Ret (option_map JObject entries)
  end.
(** [serde_json::from_value::<Vec<Vec<String>>>]. *)
Definition json_string (j : Json) : option string := match j with JString s => Some s | _ => None end.
Definition json_array (j : Json) : option (list Json) := match j with JArray l => Some l | _ => None end.
Definition from_json (j : Json) : option (list (list string)) :=
  items ← json_array j; mapM (λ i, l ← json_array i; mapM json_string l) items.

(** ** Composed directives *)
Definition string_lists_argument (d : SDirective) (argument_name : string) : F (option (list (list string))) :=
  match get_argument d argument_name with
  | None => mret None
  | Some v => json ← flift (into_json v); mret (json ≫= from_json)
  end.
Definition insert_string_lists (l : list (list string)) : F (list (list nat)) := mapM (mapM insert_string) l.
Definition collect_composed_directive (directive : SDirective) : F unit :=
  let name := sdir_name directive in
  if String.eqb name "join__field" || String.eqb name "join__type" then mret ()
  else if String.eqb name "inaccessible" then _ ← push_directive FDInaccessible; mret ()
  else if String.eqb name "deprecated" then
    reason ← fopt insert_string (string_argument directive "reason");
    _ ← push_directive (FDDeprecated reason); mret ()
  else if String.eqb name "requiresScopes" then
    scopes ← string_lists_argument directive "scopes";
    match scopes with
    | Some scopes =>
        transformed ← insert_string_lists scopes; _ ← push_directive (FDRequiresScopes transformed); mret ()
    | None => mret ()
    end
  else if String.eqb name "policy" then
    policies ← string_lists_argument directive "policies";
    match policies with
    | Some policies => transformed ← insert_string_lists policies; _ ← push_directive (FDPolicy transformed); mret ()
    | None => mret ()
    end
  else if String.eqb name "authenticated" then _ ← push_directive FDAuthenticated; mret ()
  else if String.eqb name "authorized" || String.eqb name "join__implements" || String.eqb name "join__unionMember" then mret ()
  else
    name ← insert_string name;
    arguments ← mapM (λ a, n ← insert_string a.1; v ← insert_value None a.2; mret (n, v)) (sdir_arguments directive);
    _ ← push_directive (FDOther name arguments); mret ().
Definition collect_composed_directives (directives : list SDirective) : F DirectiveRange :=
  start ← fget (λ st, length (fg_directives (s_graph st)));
  _ ← feach collect_composed_directive directives;
  end_ ← fget (λ st, length (fg_directives (s_graph st)));
  mret (start, end_ - start).

(** ** Definitions *)

(** A required string argument of [@join__graph]. *)
Definition join_graph_argument (directive : SDirective) (argument_name : string) : F string :=
  match get_argument directive argument_name with
  | None => ferr ("Missing `" +:+ argument_name +:+ "` argument in `@join__graph` directive on `join__Graph` enum value.")
  | Some (SVString s) | Some (SVBlockString s) => mret s
  | Some _ =>
      ferr ("Unexpected type for `" +:+ argument_name +:+ "` argument in `@join__graph` directive on `join__Graph` enum value.")
  end.
Definition ingest_join_graph_value (value : SEnumValue) : F unit :=
  directive ← ok_or "Missing @join__graph directive on join__Graph enum value."
                (find (named "join__graph") (sev_directives value));
  name ← join_graph_argument directive "name";
  url ← join_graph_argument directive "url";
  name ← insert_string name;
  url ← insert_string url;
  id ← push_subgraph (MkFSubgraph name url);
  name_subgraph (sev_value value) id.
Definition ingest_join_graph_enum (values : list SEnumValue) : F unit := feach ingest_join_graph_value values.

Definition kind_of (typedef : STypeDefinition) : TypeDefinitionKind :=
  match typedef with
  | STScalar _ => TScalar
  | STObject _ _ _ => TObject
  | STInterface _ _ _ => TInterface
  | STUnion _ _ => TUnion
  | STEnum _ _ => TEnum
  | STInputObject _ _ => TInputObject
  end.
Definition ingest_enum_value (type_definition_id : TypeDefinitionId) (value : SEnumValue) : F unit :=
  composed_directives ← collect_composed_directives (sev_directives value);
  description ← fopt insert_string (sev_description value);
  value_string_id ← insert_string (sev_value value);
  id ← push_enum_value (MkEnumValue type_definition_id value_string_id composed_directives description);
  name_enum_value (type_definition_id, sev_value value) id.
Definition ingest_type (typedef : STypeDefinition) (type_name_id : nat) (description : option nat)
    (composed_directives : DirectiveRange) : F unit :=
  let type_name := st_name typedef in
  type_definition_id ← push_type_definition (MkTypeDefinition type_name_id description composed_directives (kind_of typedef));
  match typedef with
  | STScalar _ => name_definition type_name (FScalar type_definition_id)
  | STObject _ _ _ =>
      object_id ← push_object (MkFObject type_definition_id [] [] [] NO_FIELDS);
      name_definition type_name (FObject object_id)
  | STInterface _ _ _ =>
      interface_id ← push_interface (MkFInterface type_definition_id [] [] NO_FIELDS []);
      name_definition type_name (FInterface interface_id)
  | STUnion _ _ =>
      union_id ← push_union (MkFUnion type_name_id [] ∅ composed_directives description);
      name_definition type_name (FUnion union_id)
  | STEnum _ values =>
      _ ← name_definition type_name (FEnum type_definition_id);
      feach (ingest_enum_value type_definition_id) values
  | STInputObject _ _ =>
      input_object_id ← push_input_object (MkInputObject type_name_id NO_INPUT_VALUE_DEFINITION composed_directives description);
      name_definition type_name (FInputObject input_object_id)
  end.
Definition ingest_definition (definition : SDefinition) : F unit :=
  match definition with
  | SDSchemaExtension _ | SDSchema _ | SDDirective _ => mret ()
  | SDTypeExtension typedef | SDType typedef =>
      type_name_id ← insert_string (st_name typedef);
      description ← fopt insert_string (sh_description (st_header typedef));
      composed_directives ← collect_composed_directives (st_directives typedef);
      match typedef with
      | STEnum h values =>
          if String.eqb (sh_name h) "join__Graph" then ingest_join_graph_enum values
          else ingest_type typedef type_name_id description composed_directives
      | _ => ingest_type typedef type_name_id description composed_directives
      end
  end.
Definition insert_builtin_scalar (name_str : string) : F unit :=
  name ← insert_string name_str;
  id ← push_type_definition (MkTypeDefinition name None (0, 0) TScalar);
  name_definition name_str (FScalar id).
Definition insert_builtin_scalars : F unit := feach insert_builtin_scalar ["String"; "ID"; "Float"; "Boolean"; "Int"].
Definition ingest_definitions (document : list SDefinition) : F unit :=
  _ ← feach ingest_definition document; insert_builtin_scalars.

Definition or_else {A} (new : option A) (old : option A) : option A := match new with Some _ => new | None => old end.
Definition ingest_schema_definition (schema : SSchema) : F unit :=
  _ ← feach (λ d, if named "link" d then mret () else ferr ("Unsupported directive " +:+ sdir_name d +:+ " on schema."))
        (ss_directives schema);
  set_roots (or_else (ss_query_type schema)) (or_else (ss_mutation_type schema)) (or_else (ss_subscription_type schema)).
Definition ingest_schema_definitions (document : list SDefinition) : F unit :=
  feach (λ d, match d with SDSchema schema => ingest_schema_definition schema | _ => mret () end) document.

(** ** Fields *)
Definition ingest_input_value (value : SInputValue) (name : nat) (ty : FType) (composed_directives : DirectiveRange)
    (description : option nat) : F unit :=
  default ← fopt (insert_value (as_enum (ft_definition ty))) (siv_default_value value);
  _ ← push_input_value (MkFInputValue name ty composed_directives description default);
  mret ().
Definition ingest_argument (arg : SInputValue) : F unit :=
  description ← fopt insert_string (siv_description arg);
  composed_directives ← collect_composed_directives (siv_directives arg);
  name ← insert_string (siv_name arg);
  ty ← field_type (siv_ty arg);
  ingest_input_value arg name ty composed_directives description.

(** [external: true]. *)
Definition is_external (d : SDirective) : bool :=
  match get_argument d "external" with Some (SVBoolean b) => b | _ => false end.
Definition has_override (d : SDirective) : bool :=
  is_given (get_argument d "overrides") || is_given (get_argument d "override").
Definition graph_argument (d : SDirective) : option string :=
  match get_argument d "graph" with Some (SVEnum s) => Some s | _ => None end.
Definition subgraph_named (s : string) : F SubgraphId := findex (λ st, graph_sdl_names st !! s).
Definition ingest_resolvable_in (directives : list SDirective) : F (list SubgraphId) :=
  mapM subgraph_named
    (omap graph_argument (filter (λ d, named "join__field" d && negb (has_override d) && negb (is_external d) = true) directives)).

(** [state.subgraphs.iter().position(..)]. *)
Definition position_of {A} (p : A → bool) (l : list A) : option nat := fst <$> list_find (λ x, p x = true) l.
(** The position of the first subgraph with the name, as a string. *)
Fixpoint subgraph_position (st : State) (name : string) (i : nat) (l : list FSubgraph) : res (option nat) :=
  match l with
  | [] => Ret None
  | subgraph :: l =>
      s ← expect "IndexSet: index out of bounds" (get_index (s_strings st) (fs_name subgraph));
      if String.eqb s name then Ret (Some i) else subgraph_position st name (S i) l
  end.
Definition override_graph_id (graph : string) : F (option SubgraphId) :=
  found ← fget (λ st, graph_sdl_names st !! graph);
  match found with
  | Some id => mret (Some id)
  | None =>
      subgraph_name ← insert_string graph;
      fget (λ st, position_of (λ s, fs_name s =? subgraph_name) (fg_subgraphs (s_graph st)))
  end.
Definition override_label (d : SDirective) : OverrideLabel :=
  match get_argument d "overrideLabel" with
  | Some (SVString s) => match label_from_str s with inr label => label | inl _ => Unknown end
  | _ => Unknown
  end.
Definition override_from (overrides : string) : F OverrideSource :=
  found ← fread (λ st, subgraph_position st overrides 0 (fg_subgraphs (s_graph st)));
  match found with
  | Some id => mret (FromSubgraph id)
  | None => id ← insert_string overrides; mret (Missing id)
  end.
Definition ingest_override (d : SDirective) : F (option Override) :=
  match get_argument d "graph", or_else (get_argument d "overrides") (get_argument d "override") with
  | Some (SVEnum graph), Some (SVString overrides) =>
      id ← override_graph_id graph;
      match id with
      | None => mret None
      | Some id => from ← override_from overrides; mret (Some (MkOverrideIr id (override_label d) from))
      end
  | _, _ => mret None
  end.
Definition ingest_overrides (directives : list SDirective) : F (list Override) :=
  overrides ← mapM ingest_override (filter (λ d, named "join__field" d = true) directives);
  mret (omap id overrides).

Definition ingest_field (parent_id : FederatedDefinition) (ast_field : SField) : F nat :=
  ty ← field_type (sfd_ty ast_field);
  name ← insert_string (sfd_name ast_field);
  args_start ← fget (λ st, length (fg_input_value_definitions (s_graph st)));
  _ ← feach ingest_argument (sfd_arguments ast_field);
  args_end ← fget (λ st, length (fg_input_value_definitions (s_graph st)));
  resolvable_in ← ingest_resolvable_in (sfd_directives ast_field);
  overrides ← ingest_overrides (sfd_directives ast_field);
  composed_directives ← collect_composed_directives (sfd_directives ast_field);
  description ← fopt insert_string (sfd_description ast_field);
  field_id ← push_field (MkFField name ty (args_start, args_end - args_start) resolvable_in [] [] overrides
                           composed_directives description);
  _ ← name_field (parent_id, sfd_name ast_field) field_id;
  mret field_id.

(** The ids of the first field and after the last one. *)
Fixpoint ingest_field_loop (parent_id : FederatedDefinition) (range : option (nat * nat)) (fields : list SField)
    : F (option (nat * nat)) :=
  match fields with
  | [] => mret range
  | field :: fields =>
      field_id ← ingest_field parent_id field;
      ingest_field_loop parent_id
        (Some (match range with Some (start, _) => start | None => field_id end, field_id + 1)) fields
  end.
Definition set_object_fields (fields : Fields) (o : FObjectRecord) : FObjectRecord :=
  MkFObject (fo_type_definition_id o) (fo_implements_interfaces o) (fo_join_implements o) (fo_keys o) fields.
Definition set_interface_fields (fields : Fields) (i : FInterfaceRecord) : FInterfaceRecord :=
  MkFInterface (fif_type_definition_id i) (fif_implements_interfaces i) (fif_keys i) fields (fif_join_implements i).
Definition ingest_interface_fields (interface_id : nat) (fields : list SField) : F unit :=
  range ← ingest_field_loop (FInterface interface_id) None fields;
  match range with
  | Some fields => update_interface interface_id (set_interface_fields fields)
  | None => mret ()
  end.
Definition push_introspection_field (object_id name : nat) : F unit :=
  _ ← push_field (MkFField name (MkFType (new false) (FObject object_id)) NO_INPUT_VALUE_DEFINITION [] [] [] []
                    NO_DIRECTIVES None);
  mret ().
Definition ingest_object_fields (object_id : nat) (fields : list SField) : F unit :=
  range ← ingest_field_loop (FObject object_id) None fields;
  roots ← fread (λ st, match root_operation_types st with
                       | inr roots => Ret roots
                       | inl _ => Panic "root operation types to be defined at this point"
                       end);
  range ←
    (if object_id =? rot_query roots then
       new_start ← fget (λ st, length (fg_fields (s_graph st)));
       schema ← insert_string "__schema";
       type_ ← insert_string "__type";
       _ ← push_introspection_field object_id schema;
       _ ← push_introspection_field object_id type_;
       mret (Some (match range with Some (start, end_) => (start, end_ + 2) | None => (new_start, new_start + 2) end))
     else mret range);
  match range with
  | Some fields => update_object object_id (set_object_fields fields)
  | None => mret ()
  end.

(** ** Interfaces, unions and input objects *)
Definition definition_named (name : string) : F FederatedDefinition := findex (λ st, definition_names st !! name).
Definition implemented_interface (name : string) : F nat :=
  d ← definition_named name;
  match d with
  | FInterface interface_id => mret interface_id
  | _ => ferr "Broken invariant: object implements non-interface type"
  end.
Definition set_object_implements (l : list nat) (o : FObjectRecord) : FObjectRecord :=
  MkFObject (fo_type_definition_id o) l (fo_join_implements o) (fo_keys o) (fo_fields o).
Definition set_interface_implements (l : list nat) (i : FInterfaceRecord) : FInterfaceRecord :=
  MkFInterface (fif_type_definition_id i) l (fif_keys i) (fif_fields i) (fif_join_implements i).
Definition ingest_object_interfaces (object_id : nat) (implements : list string) : F unit :=
  interfaces ← mapM implemented_interface implements;
  update_object object_id (set_object_implements interfaces).
Definition ingest_interface_interfaces (interface_id : nat) (implements : list string) : F unit :=
  interfaces ← mapM implemented_interface implements;
  update_interface interface_id (set_interface_implements interfaces).

(** The arguments of [@join__implements] and [@join__unionMember]; the second
    one takes a plain string only. *)
Definition join_arguments (directive : SDirective) (argument_name : string) : F (SubgraphId * string) :=
  match get_argument directive "graph" with
  | Some (SVEnum graph) =>
      match get_argument directive argument_name with
      | Some (SVString target) =>
          found ← fget (λ st, graph_sdl_names st !! graph);
          subgraph_id ← ok_or ("Unknown graph in " +:+ sdir_name directive +:+ " directive") found;
          mret (subgraph_id, target)
      | _ => ferr ("Missing " +:+ argument_name +:+ " argument in " +:+ sdir_name directive +:+ " directive")
      end
  | _ => ferr ("Missing graph argument in " +:+ sdir_name directive +:+ " directive")
  end.
Definition parse_join_implements (directive : SDirective) : F (option (SubgraphId * nat)) :=
  if negb (named "join__implements" directive) then mret None
  else
    a ← join_arguments directive "interface";
    found ← fget (λ st, definition_names st !! a.2);
    match found with
    | Some (FInterface interface_id) => mret (Some (a.1, interface_id))
    | _ => ferr "Broken invariant: join__implements points to a non-interface type"
    end.
Definition parse_join_union_member (directive : SDirective) : F (option (SubgraphId * nat)) :=
  if negb (named "join__unionMember" directive) then mret None
  else
    a ← join_arguments directive "member";
    found ← fget (λ st, definition_names st !! a.2);
    match found with
    | Some (FObject object_id) => mret (Some (a.1, object_id))
    | _ => ferr "Broken invariant: join__unionMember points to a non-existing type"
    end.
Definition add_object_join (e : SubgraphId * nat) (o : FObjectRecord) : FObjectRecord :=
  MkFObject (fo_type_definition_id o) (fo_implements_interfaces o) (fo_join_implements o ++ [e]) (fo_keys o) (fo_fields o).
Definition add_interface_join (e : SubgraphId * nat) (i : FInterfaceRecord) : FInterfaceRecord :=
  MkFInterface (fif_type_definition_id i) (fif_implements_interfaces i) (fif_keys i) (fif_fields i) (fif_join_implements i ++ [e]).
Definition add_union_join (e : SubgraphId * nat) (u : FUnionRecord) : FUnionRecord :=
  MkFUnion (fu_name u) (fu_members u) ({[e]} ∪ fu_join_members u) (fu_composed_directives u) (fu_description u).
Definition add_union_member (object_id : nat) (u : FUnionRecord) : FUnionRecord :=
  MkFUnion (fu_name u) (fu_members u ++ [object_id]) (fu_join_members u) (fu_composed_directives u) (fu_description u).
(** The three loops over the directives of a definition. *)
Definition ingest_joins (parse : SDirective → F (option (SubgraphId * nat))) (add : SubgraphId * nat → F unit)
    (directives : list SDirective) : F unit :=
  feach (λ d, e ← parse d; match e with Some e => add e | None => mret () end) directives.
Definition ingest_object_join_implements (object_id : nat) : list SDirective → F unit :=
  ingest_joins parse_join_implements (λ e, update_object object_id (add_object_join e)).
Definition ingest_interface_join_implements (interface_id : nat) : list SDirective → F unit :=
  ingest_joins parse_join_implements (λ e, update_interface interface_id (add_interface_join e)).
Definition ingest_union_join_members (union_id : nat) : list SDirective → F unit :=
  ingest_joins parse_join_union_member (λ e, update_union union_id (add_union_join e)).
Definition ingest_union_members (union_id : nat) (members : list string) : F unit :=
  feach (λ member,
    d ← definition_named member;
    match d with
    | FObject object_id => update_union union_id (add_union_member object_id)
    | _ => ferr "Non-object type in union members"
    end) members.

Definition ingest_input_object_field (input_object_id : nat) (field : SInputValue) : F unit :=
  id ← fget (λ st, length (fg_input_value_definitions (s_graph st)));
  _ ← name_input_value (input_object_id, siv_name field) id;
  name ← insert_string (siv_name field);
  ty ← field_type (siv_ty field);
  composed_directives ← collect_composed_directives (siv_directives field);
  description ← fopt insert_string (siv_description field);
  ingest_input_value field name ty composed_directives description.
Definition set_input_object_fields (fields : InputValueDefinitions) (o : InputObjectRecord) : InputObjectRecord :=
  MkInputObject (io_name o) fields (io_composed_directives o) (io_description o).
Definition ingest_input_object (input_object_id : nat) (fields : list SInputValue) : F unit :=
  start ← fget (λ st, length (fg_input_value_definitions (s_graph st)));
  _ ← feach (ingest_input_object_field input_object_id) fields;
  end_ ← fget (λ st, length (fg_input_value_definitions (s_graph st)));
  update_input_object input_object_id (set_input_object_fields (start, end_ - start)).

Definition ingest_fields_of (typedef : STypeDefinition) : F unit :=
  match typedef with
  | STScalar _ => mret ()
  | STObject h implements fields =>
      d ← definition_named (sh_name h);
      match d with
      | FObject object_id =>
          _ ← ingest_object_interfaces object_id implements;
          _ ← ingest_object_join_implements object_id (sh_directives h);
          ingest_object_fields object_id fields
      | _ => ferr "Broken invariant: object id behind object name."
      end
  | STInterface h implements fields =>
      d ← definition_named (sh_name h);
      match d with
      | FInterface interface_id =>
          _ ← ingest_interface_interfaces interface_id implements;
          _ ← ingest_interface_join_implements interface_id (sh_directives h);
          ingest_interface_fields interface_id fields
      | _ => ferr "Broken invariant: interface id behind interface name."
      end
  | STUnion h members =>
      d ← definition_named (sh_name h);
      match d with
      | FUnion union_id =>
          _ ← ingest_union_members union_id members;
          ingest_union_join_members union_id (sh_directives h)
      | _ => ferr "Broken invariant: UnionId behind union name."
      end
  | STEnum _ _ => mret ()
  | STInputObject h fields =>
      d ← definition_named (sh_name h);
      match d with
      | FInputObject input_object_id => ingest_input_object input_object_id fields
      | _ => ferr "Broken invariant: InputObjectId behind input object name."
      end
  end.
Definition ingest_fields (document : list SDefinition) : F unit :=
  feach (λ d, match d with SDType t | SDTypeExtension t => ingest_fields_of t | _ => mret () end) document.

(** ** Selection sets *)
Definition attach_argument (field : nat) (argument : string * EValue) : F (nat * FValue) :=
  name ← insert_string argument.1;
  range ← fread (λ st, f ← at_index (fg_fields (s_graph st)) field; Ret (ff_arguments f));
  arguments ← fread (λ st, input_values_at (s_graph st) range);
  idx ← flift (expect "unknown argument" (position_of (λ a, fiv_name a =? name) arguments));
  let argument_id := range.1 + idx in
  ty ← fread (λ st, v ← at_index (fg_input_value_definitions (s_graph st)) argument_id; Ret (fiv_type v));
  value ← insert_value (as_enum (ft_definition ty)) (executable_value_to_type_system_value argument.2);
  mret (argument_id, value).
Fixpoint attach_selection (target : FederatedDefinition) (selection : ESelection) : F FSelection :=
  match selection with
  | ESField name arguments selection_set =>
      found ← fget (λ st, s_selection_map st !! (target, name));
      match found with
      | None =>
          definition_name ← fread (get_definition_name target);
          ferr ("Field '" +:+ definition_name +:+ "." +:+ name +:+ "' does not exist")
      | Some field =>
          ty ← fread (λ st, f ← at_index (fg_fields (s_graph st)) field; Ret (ff_type f));
          arguments ← mapM (attach_argument field) arguments;
          subselection ← mapM (attach_selection (ft_definition ty)) selection_set;
          mret (FSField field arguments subselection)
      end
  | ESInlineFragment type_condition selection_set =>
      match type_condition with
      | None => ferr "Fragments without type condition are not supported"
      | Some type_name =>
          found ← fget (λ st, definition_names st !! type_name);
          on ← ok_or ("Type '" +:+ type_name +:+ "' in type condition does not exist") found;
          subselection ← mapM (attach_selection on) selection_set;
          mret (FSInlineFragment on subselection)
      end
  | ESFragmentSpread => ferr "Unsupported fragment spread in selection set"
  end.

Definition subselection_errors (definition : FederatedDefinition) (selection_set : list ESelection)
    : string + option nat :=
  match definition, selection_set with
  | FInputObject _, [] => inl "InputObject must have a subselection"
  | FInputObject input_object_id, _ => inr (Some input_object_id)
  | _, [] => inr None
  | _, _ => inl "Only InputObject can have a subselection"
  end.
Fixpoint attach_input_value_set_rec (input_object_id : nat) (selection : ESelection) : F ValueSetItem :=
  match selection with
  | ESField name _ selection_set =>
      found ← fget (λ st, input_values_map st !! (input_object_id, name));
      match found with
      | None =>
          definition_name ← fread (get_definition_name (FInputObject input_object_id));
          ferr ("Input field '" +:+ definition_name +:+ "." +:+ name +:+ "' does not exist")
      | Some id =>
          v ← fread (λ st, at_index (fg_input_value_definitions (s_graph st)) id);
          match subselection_errors (ft_definition (fiv_type v)) selection_set with
          | inl error => ferr error
          | inr None => mret (MkValueSetItem id [])
          | inr (Some input_object_id) =>
              subselection ← mapM (attach_input_value_set_rec input_object_id) selection_set;
              mret (MkValueSetItem id subselection)
          end
      end
  | _ => ferr "Unsupported fragment spread in selection set"
  end.
(** The first argument with the name, as a string, with its position. *)
Fixpoint argument_position (st : State) (name : string) (i : nat) (l : list FInputValue) : res (option (nat * FInputValue)) :=
  match l with
  | [] => Ret None
  | arg :: l =>
      s ← unwrap (get_index (s_strings st) (fiv_name arg));
      if String.eqb s name then Ret (Some (i, arg)) else argument_position st name (S i) l
  end.
Definition attach_input_value_to_field_arguments (parent : FederatedDefinition) (field_id : nat)
    (range : InputValueDefinitions) (selection : ESelection) : F ValueSetItem :=
  match selection with
  | ESField name _ selection_set =>
      found ← fread (λ st, l ← input_values_at (s_graph st) range; argument_position st name 0 l);
      match found with
      | None =>
          definition_name ← fread (get_definition_name parent);
          field_name ← fread (λ st, f ← at_index (fg_fields (s_graph st)) field_id; unwrap (get_index (s_strings st) (ff_name f)));
          ferr ("Argument '" +:+ name +:+ "' does not exist for the field '" +:+ definition_name +:+ "." +:+ field_name +:+ "'")
      | Some (i, arg) =>
          match subselection_errors (ft_definition (fiv_type arg)) selection_set with
          | inl error => ferr error
          | inr None => mret (MkValueSetItem (range.1 + i) [])
          | inr (Some input_object_id) =>
              subselection ← mapM (attach_input_value_set_rec input_object_id) selection_set;
              mret (MkValueSetItem (range.1 + i) subselection)
          end
      end
  | _ => ferr "Unsupported fragment spread in selection set"
  end.

(** The parser of executable documents: the selection sets of the operations. *)
Section documents.
Context (parse_executable : string → string + list (list ESelection)) (parse_type_system : string → string + list SDefinition).

Definition parse_selection_set (fields : string) : F (list (list ESelection)) :=
  match parse_executable ("{ " +:+ fields +:+ " }") with
  | inl err => ferr ("Error parsing a selection from a federated directive: " +:+ err)
  | inr document => mret document
  end.
Definition first_operation (document : list (list ESelection)) : F (list ESelection) :=
  flift (expect "first operation is there by construction" (head document)).
Definition attach_selection_set (target : FederatedDefinition) (fields : string) : F (list FSelection) :=
  document ← parse_selection_set fields;
  operation ← first_operation document;
  mapM (attach_selection target) operation.
Definition attach_input_value_set_to_field_arguments (parent : FederatedDefinition) (field_id : nat) (arguments : string)
    : F (list ValueSetItem) :=
  document ← parse_selection_set arguments;
  operation ← first_operation document;
  range ← fread (λ st, f ← at_index (fg_fields (s_graph st)) field_id; Ret (ff_arguments f));
  mapM (attach_input_value_to_field_arguments parent field_id range) operation.

(** [@join__field] on a field, once all the fields are in the graph. *)
Definition join_types (directives : list SDirective) : list SDirective := filter (λ d, named "join__type" d = true) directives.
Definition type_subgraphs (directives : list SDirective) : F (list SubgraphId) :=
  if existsb (λ d, is_given (get_argument d "key")) (join_types directives) then mret []
  else mapM subgraph_named (omap graph_argument (join_types directives)).
Definition field_selection (subgraph_id : SubgraphId) (target : FederatedDefinition) (d : SDirective) (argument_name : string)
    : F (option FieldSelection) :=
  fopt (λ fields, fields ← attach_selection_set target fields; mret (MkFieldSelection subgraph_id fields))
    (string_argument d argument_name).
(** What the loop over the directives of a field collects. *)
Record JoinField := MkJoinField {
  jf_resolvable_in : list SubgraphId; jf_provides : list FieldSelection; jf_requires : list FieldSelection }.
Definition ingest_join_field (parent_id : FederatedDefinition) (field_type : FType) (acc : JoinField) (d : SDirective)
    : F JoinField :=
  if is_external d then mret acc
  else
    found ← fget (λ st, graph ← graph_argument d; graph_sdl_names st !! graph);
    match found with
    | None => mret acc
    | Some subgraph_id =>
        provides ← field_selection subgraph_id (ft_definition field_type) d "provides";
        requires ← field_selection subgraph_id parent_id d "requires";
        mret (MkJoinField (if has_override d then jf_resolvable_in acc else jf_resolvable_in acc ++ [subgraph_id])
                (jf_provides acc ++ option_list provides) (jf_requires acc ++ option_list requires))
    end.
Fixpoint ffold {A B} (f : A → B → F A) (acc : A) (l : list B) : F A :=
  match l with
  | [] => mret acc
  | x :: l => acc ← f acc x; ffold f acc l
  end.
Definition set_join_field (jf : JoinField) (type_subgraph_ids : list SubgraphId) (f : FField) : FField :=
  MkFField (ff_name f) (ff_type f) (ff_arguments f)
    (match jf_resolvable_in jf with [] => type_subgraph_ids | resolvable_in => resolvable_in end)
    (jf_provides jf) (jf_requires jf) (ff_overrides f) (ff_composed_directives f) (ff_description f).
Definition field_of (parent_id : FederatedDefinition) (field : SField) : F (nat * FType) :=
  field_id ← findex (λ st, s_selection_map st !! (parent_id, sfd_name field));
  ty ← fread (λ st, f ← at_index (fg_fields (s_graph st)) field_id; Ret (ff_type f));
  mret (field_id, ty).
Definition ingest_join_fields (parent_id : FederatedDefinition) (type_subgraph_ids : list SubgraphId) (field : SField) : F unit :=
  f ← field_of parent_id field;
  jf ← ffold (ingest_join_field parent_id f.2) (MkJoinField [] [] [])
         (filter (λ d, named "join__field" d = true) (sfd_directives field));
  update_field f.1 (set_join_field jf type_subgraph_ids).
Definition ingest_join_field_directive (parent_id : FederatedDefinition) (parent_directives : list SDirective)
    (fields : list SField) : F unit :=
  type_subgraph_ids ← type_subgraphs parent_directives;
  feach (ingest_join_fields parent_id type_subgraph_ids) fields.

(** [@authorized] on a field. *)
Definition metadata_argument (d : SDirective) : F (option FValue) := fopt (insert_value None) (get_argument d "metadata").
Definition ingest_authorized (parent_id : FederatedDefinition) (field : nat * FType) (d : SDirective) : F unit :=
  arguments ← fopt (attach_input_value_set_to_field_arguments parent_id field.1) (string_argument d "arguments");
  fields ← fopt (attach_selection_set parent_id) (string_argument d "fields");
  node ← fopt (attach_selection_set (ft_definition field.2)) (string_argument d "node");
  metadata ← metadata_argument d;
  id ← push_authorized (MkFAuthorized fields node arguments metadata);
  _ ← push_field_authorized (field.1, id);
  mret ().
Definition ingest_authorized_directive (parent_id : FederatedDefinition) (fields : list SField) : F unit :=
  feach (λ field,
    f ← field_of parent_id field;
    feach (ingest_authorized parent_id f) (filter (λ d, named "authorized" d = true) (sfd_directives field))) fields.
Definition ingest_field_directives_after_graph (document : list SDefinition) : F unit :=
  feach (λ definition,
    match definition with
    | SDType (STObject h _ fields) | SDType (STInterface h _ fields) =>
        parent_id ← definition_named (sh_name h);
        _ ← ingest_join_field_directive parent_id (sh_directives h) fields;
        ingest_authorized_directive parent_id fields
    | _ => mret ()
    end) document.

(** [@authorized] on a type: the first one only. *)
Definition ingest_type_authorized (definition : FederatedDefinition) (authorized : SDirective) : F unit :=
  fields ← fopt (attach_selection_set definition) (string_argument authorized "fields");
  metadata ← metadata_argument authorized;
  idx ← push_authorized (MkFAuthorized fields None None metadata);
  match definition with
  | FObject object_id => _ ← push_object_authorized (object_id, idx); mret ()
  | FInterface interface_id => _ ← push_interface_authorized (interface_id, idx); mret ()
  | _ => mret ()
  end.
(** [state.definition_names.get(name)] with [continue] for an unknown name. *)
Definition if_defined (typedef : STypeDefinition) (f : FederatedDefinition → F unit) : F unit :=
  found ← fget (λ st, definition_names st !! st_name typedef);
  match found with Some definition => f definition | None => mret () end.
Definition type_definitions (document : list SDefinition) : list STypeDefinition :=
  omap (λ d, match d with SDType t => Some t | _ => None end) document.
Definition ingest_authorized_directives (document : list SDefinition) : F unit :=
  feach (λ typedef,
    match find (named "authorized") (st_directives typedef) with
    | None => mret ()
    | Some authorized => if_defined typedef (λ definition, ingest_type_authorized definition authorized)
    end) (type_definitions document).

(** [@join__type]. *)
Definition boolean_argument (d : SDirective) (argument_name : string) (default : bool) : bool :=
  match get_argument d argument_name with Some (SVBoolean b) => b | _ => default end.
Definition add_object_key (k : FKey) (o : FObjectRecord) : FObjectRecord :=
  MkFObject (fo_type_definition_id o) (fo_implements_interfaces o) (fo_join_implements o) (fo_keys o ++ [k]) (fo_fields o).
Definition add_interface_key (k : FKey) (i : FInterfaceRecord) : FInterfaceRecord :=
  MkFInterface (fif_type_definition_id i) (fif_implements_interfaces i) (fif_keys i ++ [k]) (fif_fields i) (fif_join_implements i).
Definition ingest_entity_key (definition : FederatedDefinition) (join_type : SDirective) : F unit :=
  graph ← fopt subgraph_named (graph_argument join_type);
  subgraph_id ← flift (expect "Missing graph argument in @join__type" graph);
  fields ← fopt (attach_selection_set definition) (string_argument join_type "key");
  let key := MkFKey subgraph_id (default [] fields) (boolean_argument join_type "isInterfaceObject" false)
               (boolean_argument join_type "resolvable" true) in
  match definition with
  | FObject object_id => update_object object_id (add_object_key key)
  | FInterface interface_id => update_interface interface_id (add_interface_key key)
  | _ => mret ()
  end.
Definition ingest_entity_keys (document : list SDefinition) : F unit :=
  feach (λ typedef,
    if_defined typedef (λ definition, feach (ingest_entity_key definition) (join_types (st_directives typedef))))
    (type_definitions document).
Definition ingest_selection_sets (document : list SDefinition) : F unit :=
  _ ← ingest_field_directives_after_graph document;
  _ ← ingest_authorized_directives document;
  ingest_entity_keys document.

(** ** [from_sdl] *)
Definition default_state : State :=
  MkState (MkFederatedGraph [] (MkRootOperationTypes 0 None None) [] [] [] [] [] [] [] [] [] [] [] [] [] [])
    iset_empty None None None ∅ ∅ ∅ ∅ ∅.
(** The root query type is added when it is not defined. *)
Definition ensure_query : F unit :=
  found ← fget (λ st, definition_names st !! default "Query" (query_type_name st));
  match found with
  | Some _ => mret ()
  | None =>
      _ ← set_roots (λ _, Some "Query") id id;
      object_id ← fget (λ st, length (fg_objects (s_graph st)));
      query_string_id ← insert_string "Query";
      _ ← name_definition "Query" (FObject object_id);
      type_definition_id ← push_type_definition (MkTypeDefinition query_string_id None NO_DIRECTIVES TObject);
      _ ← push_object (MkFObject type_definition_id [] [] [] NO_FIELDS);
      ingest_object_fields object_id []
  end.
Definition iset_elements {A} (s : iset A) : list A := omap (get_index s) (seq 0 (iset_len s)).
Definition finish : F FederatedGraph :=
  roots ← fget root_operation_types;
  match roots with
  | inl error => ferr error
  | inr roots => fget (λ st, set_strings (iset_elements (s_strings st)) (set_roots_of roots (s_graph st)))
  end.
Definition ingest_document (document : list SDefinition) : F FederatedGraph :=
  _ ← ingest_definitions document;
  _ ← ingest_schema_definitions document;
  _ ← ensure_query;
  _ ← ingest_fields document;
  _ ← ingest_selection_sets document;
  finish.
Definition from_sdl (sdl : string) : res (string + FederatedGraph) :=
  match parse_type_system sdl with
  | inl err => Ret (inl err)
  | inr document => r ← ingest_document document default_state; Ret (match r with inl e => inl e | inr (g, _) => inr g end)
  end.
End documents.
End from_sdl.
