(* ===== verification/FromSdlRules.v ===== *)
(** * [from_sdl]: the judgement of its proofs

    The state of [from_sdl] is well formed when every id of its graph and of its
    maps refers to an entry. [fok] says of a computation that it keeps the state
    well formed and lets it grow, and what it returns; it may panic only where
    the proposition [P] allows it. *)
From S2P Require Import Prelude RustStd Wrapping CheckSchema IndexSet FieldTypes Subgraphs ComposeContext Walkers FederatedGraph GraphWf SdlAst FromSdl.
Local Open Scope list_scope.
Local Open Scope nat_scope.

(** [graph_in] less the root types, which are known last. *)
Record vectors_in (sz : Sizes) (g : FederatedGraph) : Prop := {
  vi_subgraphs : Forall (λ s, fs_name s < z_strings sz ∧ fs_url s < z_strings sz) (fg_subgraphs g);
  vi_types : Forall (type_in sz) (fg_type_definitions g);
  vi_objects : Forall (object_in sz) (fg_objects g);
  vi_interfaces : Forall (interface_in sz) (fg_interfaces g);
  vi_fields : Forall (field_in sz) (fg_fields g);
  vi_unions : Forall (union_in sz) (fg_unions g);
  vi_input_objects : Forall (input_object_in sz) (fg_input_objects g);
  vi_enum_values : Forall (enum_value_in sz) (fg_enum_values g);
  vi_values : Forall (input_value_in sz) (fg_input_value_definitions g);
  vi_directives : Forall (directive_in sz) (fg_directives g);
  vi_authorized : Forall (authorized_in sz) (fg_authorized_directives g);
  vi_field_authorized : Forall (λ e, e.1 < z_fields sz ∧ e.2 < z_authorized sz) (fg_field_authorized_directives g);
  vi_object_authorized : Forall (λ e, e.1 < z_objects sz ∧ e.2 < z_authorized sz) (fg_object_authorized_directives g);
  vi_interface_authorized :
    Forall (λ e, e.1 < z_interfaces sz ∧ e.2 < z_authorized sz) (fg_interface_authorized_directives g);
}.
Lemma vectors_in_mono a b g : sz_le a b → vectors_in a g → vectors_in b g.
Proof.
  intros L V. destruct V, L. split; try (eapply Forall_impl; [eassumption|]); cbn beta;
    first [apply type_in_mono | apply object_in_mono | apply interface_in_mono | apply field_in_mono | apply union_in_mono
          | apply input_object_in_mono | apply enum_value_in_mono | apply input_value_in_mono | apply directive_in_mono
          | apply authorized_in_mono | idtac]; try (by split); lia.
Qed.
Lemma graph_in_vectors sz g roots : vectors_in sz g → root_in sz roots → graph_in sz (set_roots_of roots g).
Proof. intros [] ?. by split. Qed.

Section rules.
Context `{IndexSetLaws}.

Definition szs (st : State) : Sizes :=
  sizes_with (iset_len (s_strings st)) (length (fg_subgraphs (s_graph st))) (length (fg_directives (s_graph st)))
    (length (fg_input_value_definitions (s_graph st))) (s_graph st).
Record maps_in (sz : Sizes) (st : State) : Prop := {
  mi_definitions : map_Forall (λ _ d, def_in sz d) (definition_names st);
  mi_fields : map_Forall (λ _ i, i < z_fields sz) (s_selection_map st);
  mi_enum_values : map_Forall (λ _ i, i < z_enum_values sz) (enum_values_map st);
  mi_graphs : map_Forall (λ _ i, i < z_subgraphs sz) (graph_sdl_names st);
}.
Lemma maps_in_mono a b st : sz_le a b → maps_in a st → maps_in b st.
Proof.
  intros L [M1 M2 M3 M4]. split; intros k x Hx;
    [eapply def_in_mono; [done|]; by eapply M1|apply M2 in Hx|apply M3 in Hx|apply M4 in Hx]; destruct L; lia.
Qed.
Definition swf (st : State) : Prop := vectors_in (szs st) (s_graph st) ∧ maps_in (szs st) st.

(** The growth of the state once the definitions and the input fields are known. *)
Record grows (a b : State) : Prop := {
  gr_sizes : sz_le (szs a) (szs b);
  gr_definitions : definition_names b = definition_names a;
  gr_graphs : graph_sdl_names b = graph_sdl_names a;
  gr_query : query_type_name b = query_type_name a;
  gr_values : input_values_map b = input_values_map a;
  gr_selections : ∀ k, is_Some (s_selection_map a !! k) → is_Some (s_selection_map b !! k);
}.
Global Instance grows_preorder : PreOrder grows.
Proof.
  split; [by intros a; split|]. intros a b c [] []. split; [by etransitivity|congruence|congruence|congruence|congruence|auto].
Qed.

(** The growth of the state while the fields are read. *)
Record grows_fields (a b : State) : Prop := {
  gf_sizes : sz_le (szs a) (szs b);
  gf_definitions : definition_names b = definition_names a;
  gf_graphs : graph_sdl_names b = graph_sdl_names a;
  gf_query : query_type_name b = query_type_name a;
  gf_values : ∀ k i, input_values_map b !! k = Some i → input_values_map a !! k = Some i ∨ i < z_values (szs b);
  gf_selections : ∀ k, is_Some (s_selection_map a !! k) → is_Some (s_selection_map b !! k);
}.
Global Instance grows_fields_preorder : PreOrder grows_fields.
Proof.
  split; [by intros a; split; auto|]. intros a b c [L1 ? ? ? V1 ?] [L2 ? ? ? V2 ?].
  split; [by etransitivity|congruence|congruence|congruence| |auto].
  intros k i [Hi|]%V2; [|auto]. destruct (V1 k i Hi) as [|Hlt]; [auto|]. right. destruct L2. lia.
Qed.
(** A relation that allows such growth. *)
Class Includes (R : relation State) : Prop := grows_R : ∀ a b, grows a b → R a b.
Global Instance grows_includes : Includes grows.
Proof. by intros a b. Qed.

Global Instance grows_fields_includes : Includes grows_fields.
Proof. intros a b []. split; try done. intros k i Hi. left. congruence. Qed.

Section judgement.
Context (P : Prop) (R : relation State) `{!PreOrder R} `{!Includes R}.

Definition fok {A} (st : State) (m : F A) (Q : State → A → Prop) : Prop :=
  swf st →
  match m st with
  | Panic _ => P
  | Ret (inl _) => True
  | Ret (inr (a, st')) => swf st' ∧ R st st' ∧ Q st' a
  end.

Lemma fok_ret {A} st (a : A) (Q : State → A → Prop) : (swf st → Q st a) → fok st (mret a) Q.
Proof. intros HQ W. split; [done|]. split; [reflexivity|by apply HQ]. Qed.
Lemma fok_bind {A B} st (m : F A) (f : A → F B) Q Q' :
  fok st m Q → (∀ a st1, swf st1 → R st st1 → Q st1 a → fok st1 (f a) Q') → fok st (m ≫= f) Q'.
Proof.
  intros Hm Hf W. specialize (Hm W). unfold mbind, F_bind. cbn. destruct (m st) as [[e|[a st1]]|]; cbn; [done| |done].
  destruct Hm as (W1 & HR1 & HQ). specialize (Hf a st1 W1 HR1 HQ W1).
  destruct (f a st1) as [[e|[b st2]]|]; [done| |done]. destruct Hf as (? & ? & ?). split; [done|]. split; [by etransitivity|done].
Qed.
Lemma fok_weaken {A} st (m : F A) (Q Q' : State → A → Prop) :
  fok st m Q → (∀ st1 a, swf st1 → R st st1 → Q st1 a → Q' st1 a) → fok st m Q'.
Proof.
  intros Hm HQ W. specialize (Hm W). destruct (m st) as [[e|[a st1]]|]; [done| |done].
  destruct Hm as (? & ? & ?). split_and!; [done|done|by apply HQ].
Qed.
(** The growth itself as a postcondition. *)
Lemma fok_keep {A} st (m : F A) Q : fok st m Q → fok st m (λ st' a, Q st' a ∧ R st st').
Proof. intros Hm W. specialize (Hm W). destruct (m st) as [[e|[a st1]]|]; [done| |done]. by destruct Hm as (? & ? & ?). Qed.
Lemma fok_err {A} st e (Q : State → A → Prop) : fok st (ferr e) Q.
Proof. by intros W. Qed.
Lemma fok_read {A} st (r : State → res A) (Q : State → A → Prop) :
  (swf st → match r st with Ret a => Q st a | Panic _ => P end) → fok st (fread r) Q.
Proof.
  intros Hr W. specialize (Hr W). unfold fread. destruct (r st) as [a|]; [|done]. cbn. split; [done|]. split; [reflexivity|done].
Qed.
Lemma fok_get {A} st (r : State → A) (Q : State → A → Prop) : (swf st → Q st (r st)) → fok st (fget r) Q.
Proof. intros Hr. by apply fok_read. Qed.
Lemma fok_lift {A} st (r : res A) (Q : State → A → Prop) :
  match r with Ret a => swf st → Q st a | Panic _ => P end → fok st (flift r) Q.
Proof. intros Hr. apply fok_read. by destruct r. Qed.
Lemma fok_modify st f (Q : State → unit → Prop) :
  (swf st → swf (f st) ∧ R st (f st) ∧ Q (f st) ()) → fok st (fmodify f) Q.
Proof. intros Hf W. by apply Hf. Qed.
Lemma fok_ok_or {A} st e (o : option A) (Q : State → A → Prop) :
  (∀ a, o = Some a → swf st → Q st a) → fok st (ok_or e o) Q.
Proof. intros HQ. destruct o as [a|]; [apply fok_ret; by apply HQ|apply fok_err]. Qed.
Lemma fok_opt {A B} st (f : A → F B) (o : option A) (Q : State → B → Prop) :
  (∀ a, o = Some a → fok st (f a) Q) → fok st (fopt f o) (λ st b, opt_in (Q st) b).
Proof.
  intros Hf. destruct o as [a|]; [|by apply fok_ret]. eapply fok_bind; [by apply Hf|].
  intros b st1 W1 R1 HQ. apply fok_ret. by intros _ b' [= <-].
Qed.

(** Loops; what is shown of an element survives the steps after it. *)
Definition stable {A} (Q : State → A → Prop) : Prop := ∀ st st' a, R st st' → Q st a → Q st' a.
Lemma fok_each {A} st (f : A → F unit) l (Q : State → A → Prop) :
  stable Q → (∀ x st1, x ∈ l → R st st1 → fok st1 (f x) (λ st _, Q st x)) → fok st (feach f l) (λ st _, Forall (Q st) l).
Proof.
  intros HQ. revert st. induction l as [|x l IH]; intros st Hf; [by apply fok_ret|]. cbn [feach].
  eapply fok_bind; [apply Hf; [left|reflexivity]|]. intros u st1 W1 R1 Hx.
  eapply fok_weaken; [apply IH; intros y st2 Hy R2; apply Hf; [by right|by etransitivity]|].
  intros st2 v W2 R2 Hl. constructor; [by eapply HQ|done].
Qed.
Lemma fok_each_ {A} st (f : A → F unit) l :
  (∀ x st1, x ∈ l → R st st1 → fok st1 (f x) (λ _ _, True)) → fok st (feach f l) (λ _ _, True).
Proof. intros Hf. eapply fok_weaken; [by apply (fok_each _ _ _ (λ _ _, True))|done]. Qed.
Lemma fok_mapM {A B} st (f : A → F B) l (Q : State → B → Prop) :
  stable Q → (∀ x st1, x ∈ l → R st st1 → fok st1 (f x) Q) → fok st (mapM f l) (λ st ys, Forall (Q st) ys).
Proof.
  intros HQ. revert st. induction l as [|x l IH]; intros st Hf; [by apply fok_ret|]. cbn [mapM].
  eapply fok_bind; [apply Hf; [left|reflexivity]|]. intros y st1 W1 R1 Hy.
  eapply fok_bind; [apply IH; intros z st2 Hz R2; apply Hf; [by right|by etransitivity]|]. intros ys st2 W2 R2 Hys.
  apply fok_ret. intros _. constructor; [by eapply HQ|done].
Qed.
Lemma fok_fold {A B} st (f : A → B → F A) l acc (Q : State → A → Prop) :
  Q st acc → (∀ acc x st1, x ∈ l → R st st1 → Q st1 acc → fok st1 (f acc x) Q) → fok st (ffold f acc l) Q.
Proof.
  revert st acc. induction l as [|x l IH]; intros st acc Ha Hf; [by apply fok_ret|]. cbn [ffold].
  eapply fok_bind; [apply Hf; [left|reflexivity|done]|]. intros y st1 W1 R1 Hy.
  apply IH; [done|]. intros acc' z st2 Hz R2. apply Hf; [by right|by etransitivity].
Qed.

(** ** The primitives of the state *)
Definition sizes_of (n : nat) (g : FederatedGraph) : Sizes :=
  sizes_with n (length (fg_subgraphs g)) (length (fg_directives g)) (length (fg_input_value_definitions g)) g.
Lemma fok_set_graph st f :
  (swf st → sz_le (szs st) (sizes_of (iset_len (s_strings st)) (f (s_graph st))) ∧
    vectors_in (sizes_of (iset_len (s_strings st)) (f (s_graph st))) (f (s_graph st))) →
  fok st (set_graph f) (λ st' _, szs st' = sizes_of (iset_len (s_strings st)) (f (s_graph st))).
Proof.
  intros Hf. apply fok_modify. intros W. destruct (Hf W) as [L V]. split_and!; [|by apply grows_R|done].
  split; [done|]. destruct (maps_in_mono _ _ _ L (proj2 W)). by split.
Qed.
Lemma fok_insert_string st s : fok st (insert_string s) (λ st' id, id < z_strings (szs st')).
Proof.
  intros W. unfold insert_string. pose proof (intern_spec s (s_strings st)) as [Hs Hext].
  destruct (intern s (s_strings st)) as [id strs]. cbn [fst snd] in *.
  assert (iset_len (s_strings st) ≤ iset_len strs) as Hlen.
  { destruct (decide (iset_len (s_strings st) ≤ iset_len strs)) as [|Hlt]; [done|].
    destruct (proj2 (get_index_lt _ (s_strings st) (iset_len strs))) as [y Hy]; [lia|].
    apply Hext, mk_is_Some, get_index_lt in Hy. lia. }
  set (st' := MkState _ strs _ _ _ _ _ _ _ _).
  assert (sz_le (szs st) (szs st')) as L by (by split).
  split_and!; [|by apply grows_R|by apply get_index_lt; exists s]. split; [by eapply vectors_in_mono, W|].
  destruct (maps_in_mono _ _ _ L (proj2 W)). by split.
Qed.

(** [push_return_idx] of an entry that is in the graph already, and updates
    that keep an entry in it. *)
Lemma fok_push_with {A} get set (x : A) st (Q : State → nat → Prop) :
  let g := set (get (s_graph st) ++ [x]) (s_graph st) in
  let sz := sizes_of (iset_len (s_strings st)) g in
  (swf st → sz_le (szs st) sz ∧ vectors_in sz g) → (∀ st', szs st' = sz → Q st' (length (get (s_graph st)))) →
  fok st (push_with get set x) Q.
Proof.
  intros g sz Hg HQ. eapply fok_bind; [by apply (fok_get _ _ (λ st' n, st' = st ∧ n = length (get (s_graph st))))|].
  intros n st1 W1 R1 [-> ->]. eapply fok_bind; [by apply fok_set_graph|]. intros u st2 W2 R2 Hsz. apply fok_ret.
  intros _. by apply HQ.
Qed.
Lemma fok_update_with {A} get set id (f : A → A) st :
  id < length (get (s_graph st)) →
  (∀ x, get (s_graph st) !! id = Some x → swf st →
    let g := set (<[id := f x]> (get (s_graph st))) (s_graph st) in
    sizes_of (iset_len (s_strings st)) g = szs st ∧ vectors_in (szs st) g) →
  fok st (update_with get set id f) (λ st' _, szs st' = szs st).
Proof.
  intros Hid Hg. destruct (lookup_lt_is_Some_2 _ _ Hid) as [x Hx].
  eapply fok_bind; [apply (fok_read _ _ (λ st' y, st' = st ∧ y = x)); intros _; unfold at_index; by rewrite Hx|].
  intros y st1 W1 R1 [-> ->]. destruct (Hg x Hx W1) as [Hsz V].
  eapply fok_weaken; [apply fok_set_graph; intros W; by rewrite Hsz|]. intros st2 u W2 R2 ->. done.
Qed.
Ltac push_tac L V :=
  intros Hx; apply fok_push_with;
  [ intros W; cbn zeta;
    match goal with |- sz_le ?a ?b ∧ _ => assert (sz_le a b) as L by (split; cbn; rewrite ?length_app; cbn; lia) end;
    split; [exact L|]; pose proof (vectors_in_mono _ _ _ L (proj1 W)) as V; destruct V; split; cbn; try done;
    apply Forall_app; split; [done|constructor; [|done]]
  | intros st' Hsz; rewrite ?Hsz; cbn; rewrite ?length_app; cbn; lia || done ].
Ltac update_tac V :=
  intros Hid Hf; eapply fok_weaken; [|done]; apply fok_update_with; [done|]; intros x Hx W;
  split; [unfold szs, sizes_of, sizes_with; cbn; by rewrite ?length_insert|];
  pose proof (proj1 W) as V; destruct V; split; cbn; try done;
  apply Forall_insert; [done|]; apply Hf; [done|]; by eapply Forall_lookup_1.
Section pushes.
Context (st : State).
Lemma fok_push_subgraph x : fs_name x < z_strings (szs st) ∧ fs_url x < z_strings (szs st) →
  fok st (push_subgraph x) (λ st' i, i < z_subgraphs (szs st')).
Proof. push_tac L V. destruct L; cbn in *; lia. Qed.
Lemma fok_push_type x : type_in (szs st) x → fok st (push_type_definition x) (λ st' i, i < z_types (szs st')).
Proof. push_tac L V. by eapply type_in_mono. Qed.
Lemma fok_push_object x : object_in (szs st) x →
  fok st (push_object x) (λ st' i, i = z_objects (szs st) ∧ i < z_objects (szs st')).
Proof. push_tac L V. by eapply object_in_mono. Qed.
Lemma fok_push_interface x : interface_in (szs st) x → fok st (push_interface x) (λ st' i, i < z_interfaces (szs st')).
Proof. push_tac L V. by eapply interface_in_mono. Qed.
Lemma fok_push_field x : field_in (szs st) x →
  fok st (push_field x) (λ st' i, i = z_fields (szs st) ∧ z_fields (szs st') = i + 1).
Proof. push_tac L V. by eapply field_in_mono. Qed.
Lemma fok_push_union x : union_in (szs st) x → fok st (push_union x) (λ st' i, i < z_unions (szs st')).
Proof. push_tac L V. by eapply union_in_mono. Qed.
Lemma fok_push_input_object x : input_object_in (szs st) x →
  fok st (push_input_object x) (λ st' i, i < z_input_objects (szs st')).
Proof. push_tac L V. by eapply input_object_in_mono. Qed.
Lemma fok_push_enum_value x : enum_value_in (szs st) x →
  fok st (push_enum_value x) (λ st' i, i < z_enum_values (szs st')).
Proof. push_tac L V. by eapply enum_value_in_mono. Qed.
Lemma fok_push_input_value x : input_value_in (szs st) x →
  fok st (push_input_value x) (λ st' i, i = z_values (szs st) ∧ i < z_values (szs st')).
Proof. push_tac L V. by eapply input_value_in_mono. Qed.
Lemma fok_push_directive x : directive_in (szs st) x → fok st (push_directive x) (λ st' i, i < z_directives (szs st')).
Proof. push_tac L V. by eapply directive_in_mono. Qed.
Lemma fok_push_authorized x : authorized_in (szs st) x →
  fok st (push_authorized x) (λ st' i, i < z_authorized (szs st')).
Proof. push_tac L V. by eapply authorized_in_mono. Qed.
Lemma fok_push_field_authorized x : x.1 < z_fields (szs st) ∧ x.2 < z_authorized (szs st) →
  fok st (push_field_authorized x) (λ _ _, True).
Proof. push_tac L V. destruct L; cbn in *; lia. Qed.
Lemma fok_push_object_authorized x : x.1 < z_objects (szs st) ∧ x.2 < z_authorized (szs st) →
  fok st (push_object_authorized x) (λ _ _, True).
Proof. push_tac L V. destruct L; cbn in *; lia. Qed.
Lemma fok_push_interface_authorized x : x.1 < z_interfaces (szs st) ∧ x.2 < z_authorized (szs st) →
  fok st (push_interface_authorized x) (λ _ _, True).
Proof. push_tac L V. destruct L; cbn in *; lia. Qed.

Context (id : nat).
Lemma fok_update_object f : id < z_objects (szs st) → (∀ x, swf st → object_in (szs st) x → object_in (szs st) (f x)) →
  fok st (update_object id f) (λ _ _, True).
Proof. update_tac V. Qed.
Lemma fok_update_interface f :
  id < z_interfaces (szs st) → (∀ x, swf st → interface_in (szs st) x → interface_in (szs st) (f x)) →
  fok st (update_interface id f) (λ _ _, True).
Proof. update_tac V. Qed.
Lemma fok_update_union f : id < z_unions (szs st) → (∀ x, swf st → union_in (szs st) x → union_in (szs st) (f x)) →
  fok st (update_union id f) (λ _ _, True).
Proof. update_tac V. Qed.
Lemma fok_update_field f : id < z_fields (szs st) → (∀ x, swf st → field_in (szs st) x → field_in (szs st) (f x)) →
  fok st (update_field id f) (λ _ _, True).
Proof. update_tac V. Qed.
Lemma fok_update_input_object f :
  id < z_input_objects (szs st) → (∀ x, swf st → input_object_in (szs st) x → input_object_in (szs st) (f x)) →
  fok st (update_input_object id f) (λ _ _, True).
Proof. update_tac V. Qed.
End pushes.
End judgement.

(** The judgement with a relation that allows more. *)
Lemma fok_sub {A} P (R R' : relation State) st (m : F A) Q : (∀ a b, R a b → R' a b) → fok P R st m Q → fok P R' st m Q.
Proof.
  intros HR Hm W. specialize (Hm W). destruct (m st) as [[e|[a st1]]|]; [done| |done].
  destruct Hm as (? & ? & ?). split_and!; [done|by apply HR|done].
Qed.
End rules.

(** ** The rules at [grows], the sizes after some steps, and sequencing *)
Abbreviation g_ret := (fok_ret _ grows).
Abbreviation g_bind := (fok_bind _ grows).
Abbreviation g_weaken := (fok_weaken _ grows).
Abbreviation g_err := (fok_err _ grows).
Abbreviation g_read := (fok_read _ grows).
Abbreviation g_get := (fok_get _ grows).
Abbreviation g_lift := (fok_lift _ grows).
Abbreviation g_modify := (fok_modify _ grows).
Abbreviation g_ok_or := (fok_ok_or _ grows).
Abbreviation g_opt := (fok_opt _ grows).
Abbreviation g_each := (fok_each _ grows).
Abbreviation g_each_ := (fok_each_ _ grows).
Abbreviation g_mapM := (fok_mapM _ grows).
Abbreviation g_fold := (fok_fold _ grows).
Abbreviation g_insert_string := (fok_insert_string _ grows).
Abbreviation g_set_graph := (fok_set_graph _ grows).
Abbreviation g_push_subgraph := (fok_push_subgraph _ grows).
Abbreviation g_push_type := (fok_push_type _ grows).
Abbreviation g_push_object := (fok_push_object _ grows).
Abbreviation g_push_interface := (fok_push_interface _ grows).
Abbreviation g_push_field := (fok_push_field _ grows).
Abbreviation g_push_union := (fok_push_union _ grows).
Abbreviation g_push_input_object := (fok_push_input_object _ grows).
Abbreviation g_push_enum_value := (fok_push_enum_value _ grows).
Abbreviation g_push_input_value := (fok_push_input_value _ grows).
Abbreviation g_push_directive := (fok_push_directive _ grows).
Abbreviation g_push_authorized := (fok_push_authorized _ grows).
Abbreviation g_push_field_authorized := (fok_push_field_authorized _ grows).
Abbreviation g_push_object_authorized := (fok_push_object_authorized _ grows).
Abbreviation g_push_interface_authorized := (fok_push_interface_authorized _ grows).
Abbreviation g_update_object := (fok_update_object _ grows).
Abbreviation g_update_interface := (fok_update_interface _ grows).
Abbreviation g_update_union := (fok_update_union _ grows).
Abbreviation g_update_field := (fok_update_field _ grows).
Abbreviation g_update_input_object := (fok_update_input_object _ grows).
Ltac sizes :=
  repeat match goal with G : grows ?a ?b |- _ => destruct (gr_sizes _ _ G); clear G end; cbn beta in *; cbn [fst snd]; lia.
Tactic Notation "gstep" uconstr(l) "as" ident(x) ident(st) ident(W) ident(G) ident(Hx) :=
  eapply g_bind; [eapply l|intros x st W G Hx; cbn beta in Hx].
