(* ===== verification/FromSdlProps.v ===== *)
(** * [from_sdl]: what it reads and builds

    [sdl_ok] is what keeps [from_sdl] from panicking: the names and the graphs
    that a document uses are declared, types have at most 21 lists, values have
    no variables and no infinite numbers, and the query type is an object. Every
    step keeps the state well formed, whatever the document. *)
From S2P Require Import Prelude RustStd Wrapping CheckSchema IndexSet FieldTypes Subgraphs ComposeContext Walkers FederatedGraph Emit GraphWf EmitRules SdlAst FromSdl FromSdlRules.
Local Open Scope string_scope.
Local Open Scope list_scope.
Local Open Scope nat_scope.

(** ** Documents that cannot make [from_sdl] panic *)
Fixpoint plain (v : SValue) : bool :=
  match v with
  | SVVariable _ => false
  | SVFloat bits => is_finite bits
  | SVList items => forallb plain items
  | SVObject entries => forallb (λ kv, plain kv.2) entries
  | _ => true
  end.
Definition plain_directive (d : SDirective) : bool := forallb (λ a, plain a.2) (sdir_arguments d).
Definition plain_directives (l : list SDirective) : bool := forallb plain_directive l.
(** The lists of a type, innermost first, and [false] for a type that is
    doubly required. *)
Fixpoint wrapper_kinds (wrappers : list SWrapping) : option (list WrapperTypeKind) :=
  match wrappers with
  | [] => Some []
  | WNonNull :: _ => None
  | WList :: wrappers =>
      match wrappers with
      | WNonNull :: wrappers => option_map (cons KNonNullList) (wrapper_kinds wrappers)
      | _ => option_map (cons KList) (wrapper_kinds wrappers)
      end
  end.
Definition type_kinds_of (t : SType) : option (list WrapperTypeKind) :=
  match reverse (sty_wrappers t) with
  | WNonNull :: wrappers => wrapper_kinds wrappers
  | wrappers => wrapper_kinds wrappers
  end.
Definition ty_ok (t : SType) : bool := match type_kinds_of t with Some ks => length ks <=? 21 | None => false end.
Definition input_ok (v : SInputValue) : bool :=
  ty_ok (siv_ty v) && from_option plain true (siv_default_value v) && plain_directives (siv_directives v).

Definition is_join_graph (t : STypeDefinition) : bool :=
  match t with STEnum h _ => String.eqb (sh_name h) "join__Graph" | _ => false end.
Definition typedef_of (d : SDefinition) : option STypeDefinition :=
  match d with SDType t | SDTypeExtension t => Some t | _ => None end.
Definition all_types (document : list SDefinition) : list STypeDefinition := omap typedef_of document.
Definition builtin_names : list string := ["String"; "ID"; "Float"; "Boolean"; "Int"].
Definition declared_types (document : list SDefinition) : list STypeDefinition :=
  filter (λ t, is_join_graph t = false) (all_types document).
Definition declared_names (document : list SDefinition) : list string := st_name <$> declared_types document.
Definition graph_values (t : STypeDefinition) : list SEnumValue :=
  match t with STEnum h values => if String.eqb (sh_name h) "join__Graph" then values else [] | _ => [] end.
Definition declared_graphs (document : list SDefinition) : list string :=
  t ← all_types document; sev_value <$> graph_values t.
Definition document_query (document : list SDefinition) : option string :=
  foldl (λ q d, match d with SDSchema s => or_else (ss_query_type s) q | _ => q end) None document.
Definition is_object (t : STypeDefinition) : bool := match t with STObject _ _ _ => true | _ => false end.

Section documents.
Context (parse_executable : string → string + list (list ESelection)) (document : list SDefinition).
Definition name_ok (name : string) : bool := bool_decide (name ∈ declared_names document).
Definition graph_ok (graph : string) : bool := bool_decide (graph ∈ declared_graphs document).
Definition graph_arg_ok (d : SDirective) : bool := from_option graph_ok true (graph_argument d).
Fixpoint no_arguments (s : ESelection) : bool :=
  match s with
  | ESField _ arguments sub => match arguments with [] => true | _ => false end && forallb no_arguments sub
  | ESInlineFragment _ sub => forallb no_arguments sub
  | ESFragmentSpread => true
  end.
Definition selection_ok (s : string) : bool :=
  match parse_executable ("{ " +:+ s +:+ " }") with
  | inl _ => true
  | inr [] => false
  | inr (operation :: _) => forallb no_arguments operation
  end.
Definition selections_ok (d : SDirective) : bool :=
  forallb (λ a, from_option selection_ok true (string_argument d a))
    ["provides"; "requires"; "key"; "fields"; "node"; "arguments"].
Definition directives_ok (l : list SDirective) : bool := plain_directives l && forallb selections_ok l.
Definition sdl_field_ok (f : SField) : bool :=
  ty_ok (sfd_ty f) && forallb input_ok (sfd_arguments f) && directives_ok (sfd_directives f) &&
  forallb (λ d, negb (named "join__field" d && negb (has_override d) && negb (is_external d)) || graph_arg_ok d) (sfd_directives f).
Definition sdl_type_ok (t : STypeDefinition) : bool :=
  directives_ok (st_directives t) &&
  match t with
  | STScalar _ => true
  | STObject _ implements fields | STInterface _ implements fields => forallb name_ok implements && forallb sdl_field_ok fields
  | STUnion _ members => forallb name_ok members
  | STEnum _ values => forallb (λ v, plain_directives (sev_directives v)) values
  | STInputObject _ fields => forallb input_ok fields
  end.
(** [@join__type] of a definition that is not an extension. *)
Definition join_type_ok (d : SDirective) : bool := from_option graph_ok false (graph_argument d).
Definition query_ok : bool :=
  let q := default "Query" (document_query document) in
  forallb (λ t, negb (String.eqb (st_name t) q) || is_object t) (declared_types document) && negb (bool_decide (q ∈ builtin_names)).
Definition sdl_ok : bool :=
  forallb sdl_type_ok (all_types document) &&
  forallb (λ t, forallb join_type_ok (join_types (st_directives t))) (type_definitions document) && query_ok.
End documents.

(** ** Induction on values and selections *)
Section induction.
Context (Pv : SValue → Prop) (Hvar : ∀ x, Pv (SVVariable x)) (Hint : ∀ n, Pv (SVInt n)) (Hfloat : ∀ n, Pv (SVFloat n))
  (Hstring : ∀ s, Pv (SVString s)) (Hblock : ∀ s, Pv (SVBlockString s)) (Hbool : ∀ b, Pv (SVBoolean b)) (Hnull : Pv SVNull)
  (Henum : ∀ e, Pv (SVEnum e)) (Hlist : ∀ l, Forall Pv l → Pv (SVList l))
  (Hobject : ∀ l, Forall (λ kv, Pv kv.2) l → Pv (SVObject l)).
Definition svalue_ind : ∀ v, Pv v :=
  fix go v :=
    match v with
    | SVVariable x => Hvar x | SVInt n => Hint n | SVFloat n => Hfloat n | SVString s => Hstring s
    | SVBlockString s => Hblock s | SVBoolean b => Hbool b | SVNull => Hnull | SVEnum e => Henum e
    | SVList l => Hlist l ((fix all l := match l return Forall Pv l with [] => Forall_nil_2 _ | x :: l => Forall_cons_2 _ _ _ (go x) (all l) end) l)
    | SVObject l => Hobject l ((fix all l := match l return Forall (λ kv, Pv kv.2) l with
        [] => Forall_nil_2 _ | x :: l => Forall_cons_2 (λ kv, Pv kv.2) _ _ (go x.2) (all l) end) l)
    end.
End induction.
Section induction.
Context (Ps : ESelection → Prop) (Hfield : ∀ n a sub, Forall Ps sub → Ps (ESField n a sub))
  (Hfragment : ∀ t sub, Forall Ps sub → Ps (ESInlineFragment t sub)) (Hspread : Ps ESFragmentSpread).
Definition eselection_ind : ∀ s, Ps s :=
  fix go s :=
    let all := fix all l := match l return Forall Ps l with [] => Forall_nil_2 _ | x :: l => Forall_cons_2 _ _ _ (go x) (all l) end in
    match s with
    | ESField n a sub => Hfield n a sub (all sub)
    | ESInlineFragment t sub => Hfragment t sub (all sub)
    | ESFragmentSpread => Hspread
    end.
End induction.

(** ** Types *)
Lemma wrapper_kinds_ind (Pw : list SWrapping → list WrapperTypeKind → Prop) :
  Pw [] [] → (∀ ws ks, Pw ws ks → Pw (WList :: WNonNull :: ws) (KNonNullList :: ks)) →
  (∀ ws ks, wrapper_kinds ws = Some ks → Pw ws ks → Pw (WList :: ws) (KList :: ks)) →
  ∀ ws ks, wrapper_kinds ws = Some ks → Pw ws ks.
Proof.
  intros Hnil Hreq Hnull ws. remember (length ws) as n eqn:Hn. revert ws Hn.
  induction (lt_wf n) as [n _ IH]; intros [|[|] ws] Hn ks; cbn [wrapper_kinds]; [by intros [= <-]|done|].
  destruct ws as [|[|] ws'].
  - intros [= <-]. by apply Hnull.
  - destruct (wrapper_kinds ws') as [ks'|] eqn:E; [|done]. intros [= <-]. apply Hreq.
    by eapply (IH (length ws')); [simpl in *; lia| |].
  - destruct (wrapper_kinds (WList :: ws')) as [ks'|] eqn:E; [|done]. intros [= <-]. apply Hnull; [done|].
    refine (IH (length (WList :: ws')) _ (WList :: ws') eq_refl ks' E). rewrite Hn. simpl. lia.
Qed.
Lemma wrap_loop_kinds w ws ks : wrapper_kinds ws = Some ks → wrap_loop w ws = wrap_all w ks.
Proof.
  intros Hks. revert w. pattern ws, ks. revert ws ks Hks. apply wrapper_kinds_ind; [done| |].
  - intros ws ks IH w. cbn [wrap_loop wrap_all]. destruct (wrapped_by_required_list w); [exact (IH _)|done].
  - intros ws ks Hks IH w. cbn [wrap_loop wrap_all].
    destruct ws as [|[|] ws]; [|done|]; (destruct (wrapped_by_nullable_list w); [exact (IH _)|done]).
Qed.
Lemma field_wrapping_ok t : ty_ok t = true → ∃ w, field_wrapping (reverse (sty_wrappers t)) = Ret w.
Proof.
  unfold ty_ok, type_kinds_of, field_wrapping. intros Ht.
  assert (∀ b ws, (∃ ks, wrapper_kinds ws = Some ks ∧ length ks ≤ 21) → ∃ w, wrap_loop (new b) ws = Ret w) as Hb.
  { intros b ws (ks & Hks & Hlen). rewrite (wrap_loop_kinds _ _ _ Hks).
    destruct (wrap_all_spec (new b) b [] ks) as (w' & -> & _); [by destruct b|by destruct b|done|by exists w']. }
  destruct (reverse (sty_wrappers t)) as [|[|] ws]; apply Hb.
  - exists []. split; [done|simpl; lia].
  - destruct (wrapper_kinds ws) as [ks|]; [|done]. exists ks. split; [done|]. by apply Nat.leb_le.
  - destruct (wrapper_kinds (WList :: ws)) as [ks|]; [|done]. exists ks. split; [done|]. by apply Nat.leb_le.
Qed.

Section steps.
Context `{IndexSetLaws} (P : Prop).
Abbreviation gok := (fok P grows).

(** What holds of the entries of a graph holds of them when it has grown. *)
Definition persists {A} (Q : Sizes → A → Prop) : Prop := ∀ a b x, sz_le a b → Q a x → Q b x.
Lemma stable_in {A} (Q : Sizes → A → Prop) : persists Q → stable grows (λ st, Q (szs st)).
Proof. intros HQ st st' a G. eapply HQ, gr_sizes, G. Qed.
Lemma grown st st' : grows st st' → sz_le (szs st) (szs st').
Proof. apply gr_sizes. Qed.
Lemma or_mono (A B : Prop) : (A → B) → P ∨ A → P ∨ B.
Proof. tauto. Qed.


(** ** Strings, values and directives *)
Lemma gok_opt_string st o : gok st (fopt insert_string o) (λ st, opt_lt (z_strings (szs st))).
Proof. eapply g_weaken; [apply g_opt; intros s _; apply g_insert_string|]. intros st1 b W G Hb i Hi. by apply Hb. Qed.
Lemma gok_insert_value e v st : P ∨ plain v = true → gok st (insert_value e v) (λ st, value_in (szs st)).
Proof.
  revert st. induction v as [x|n|n|s|s|b| |x|l IHl|l IHl] using svalue_ind; intros st Hp; cbn [insert_value];
    try (by apply g_ret; constructor).
  - apply g_lift. by destruct Hp.
  - gstep g_insert_string as i st1 W1 G1 Hi. apply g_ret. by constructor.
  - gstep g_insert_string as i st1 W1 G1 Hi. apply g_ret. by constructor.
  - eapply g_bind.
    { apply (g_get _ _ (λ st, opt_lt (z_enum_values (szs st)))). intros W i. destruct e as [e|]; [|done].
      apply (mi_enum_values _ _ (proj2 W)). }
    intros o st1 W1 G1 Ho. gstep g_insert_string as i st2 W2 G2 Hi. apply g_ret. intros _.
    destruct o as [j|]; constructor; [|done]. specialize (Ho j eq_refl). sizes.
  - eapply g_bind.
    { apply g_mapM; [apply (stable_in value_in); intros a b x L; by apply value_in_mono|]. intros x st1 Hx G1.
      apply (proj1 (Forall_forall _ _) IHl); [done|]. eapply or_mono; [|exact Hp]. cbn. intros Hl.
      by apply (proj1 (forallb_forall _ _) Hl), list_elem_of_In. }
    intros items st1 W1 G1 Hi. apply g_ret. by constructor.
  - eapply g_bind.
    { apply (g_mapM _ _ _ (λ st kv, kv.1 < z_strings (szs st) ∧ value_in (szs st) kv.2)).
      { intros a b x G [? ?]. split; [sizes|by eapply value_in_mono; [apply grown|]]. }
      intros x st1 Hx G1. gstep g_insert_string as k st2 W2 G2 Hk. eapply g_bind.
      { apply (proj1 (Forall_forall _ _) IHl); [done|]. eapply or_mono; [|exact Hp]. cbn. intros Hl.
        apply (proj1 (forallb_forall _ _) Hl x), list_elem_of_In, Hx. }
      intros v st3 W3 G3 Hv. apply g_ret. intros _. split; [sizes|done]. }
    intros items st1 W1 G1 Hi. apply g_ret. by constructor.
Qed.
Lemma into_json_plain v : plain v = true → ∃ j, into_json v = Ret j.
Proof.
  assert (∀ A B (f : A → res (option B)) l, Forall (λ x, ∃ o, f x = Ret o) l → ∃ o, collect f l = Ret o) as Hcollect.
  { intros A B f l Hl. induction Hl as [|x l [o Ho] _ [r Hr]]; [by eexists|]. cbn. rewrite Ho. cbn.
    destruct o; [|by eexists]. cbn in Hr. rewrite Hr. by eexists. }
  induction v as [x|n|n|s|s|b| |x|l IHl|l IHl] using svalue_ind; cbn [plain into_json]; intros Hp; try (by eexists).
  - rewrite Hp. by eexists.
  - destruct (Hcollect _ _ into_json l) as [o ->]; [|by eexists]. apply Forall_forall. intros x Hx.
    apply (proj1 (Forall_forall _ _) IHl); [done|]. by apply (proj1 (forallb_forall _ _) Hp), list_elem_of_In.
  - match goal with |- context [collect ?f l] => destruct (Hcollect _ _ f l) as [o ->] end; [|by eexists].
    apply Forall_forall. intros x Hx. destruct (proj1 (Forall_forall _ _) IHl x Hx) as [j Hj];
      [by apply (proj1 (forallb_forall _ _) Hp x), list_elem_of_In|]. rewrite Hj. by eexists.
Qed.

Lemma gok_string_lists st d a :
  P ∨ plain_directive d = true → gok st (string_lists_argument d a) (λ _ _, True).
Proof.
  intros Hd. unfold string_lists_argument, get_argument. destruct (find _ _) as [[n v]|] eqn:E; [|by apply g_ret]. cbn.
  apply find_some in E as [Hin _]. eapply g_bind; [apply (g_lift _ _ (λ _ _, True))|intros; by apply g_ret].
  destruct Hd as [HP|Hd]; [by destruct (into_json v)|]. destruct (into_json_plain v) as [j ->]; [|done].
  by apply (proj1 (forallb_forall _ _) Hd (n, v)).
Qed.
Lemma gok_insert_string_lists st l :
  gok st (insert_string_lists l) (λ st, Forall (Forall (λ i, i < z_strings (szs st)))).
Proof.
  apply (g_mapM _ _ _ (λ st, Forall (λ i, i < z_strings (szs st)))).
  { intros a b x G Hx. eapply lt_all_mono; [|exact Hx]. sizes. }
  intros x st1 _ _. apply (g_mapM _ _ _ (λ st i, i < z_strings (szs st))); [intros a b i G Hi; sizes|].
  intros; apply g_insert_string.
Qed.
Lemma gok_composed_directive st d :
  P ∨ plain_directive d = true → gok st (collect_composed_directive d) (λ _ _, True).
Proof.
  intros Hd. unfold collect_composed_directive.
  assert (∀ x st, directive_in (szs st) x → gok st (_ ← push_directive x; mret ()) (λ _ _, True)) as Hpush.
  { intros x st' Hx. eapply g_bind; [by apply g_push_directive|]. intros; by apply g_ret. }
  repeat case_match; try (by apply g_ret); try (by apply Hpush).
  - gstep gok_opt_string as r st1 W1 G1 Hr. by apply Hpush.
  - eapply g_bind; [by apply gok_string_lists|]. intros [l|] st1 W1 G1 _; [|by apply g_ret].
    gstep gok_insert_string_lists as i st2 W2 G2 Hi. by apply Hpush.
  - eapply g_bind; [by apply gok_string_lists|]. intros [l|] st1 W1 G1 _; [|by apply g_ret].
    gstep gok_insert_string_lists as i st2 W2 G2 Hi. by apply Hpush.
  - gstep g_insert_string as n st1 W1 G1 Hn. eapply g_bind.
    { apply (g_mapM _ _ _ (λ st kv, kv.1 < z_strings (szs st) ∧ value_in (szs st) kv.2)).
      { intros a b x G [? ?]. split; [sizes|by eapply value_in_mono; [apply grown|]]. }
      intros x st2 Hx G2. gstep g_insert_string as k st3 W3 G3 Hk. eapply g_bind.
      { apply gok_insert_value. eapply or_mono; [|exact Hd]. intros Hl.
        by apply (proj1 (forallb_forall _ _) Hl), list_elem_of_In. }
      intros v st4 W4 G4 Hv. apply g_ret. intros _. split; [sizes|done]. }
    intros args st2 W2 G2 Ha. apply Hpush. split; [sizes|done].
Qed.
Lemma gok_composed_directives st l :
  P ∨ plain_directives l = true → gok st (collect_composed_directives l) (λ st, range_in (z_directives (szs st))).
Proof.
  intros Hl. unfold collect_composed_directives.
  gstep (g_get st _ (λ st' n, st' = st ∧ n = z_directives (szs st))) as n st0 W0 G0 Hn; [done|]. destruct Hn as [-> ->].
  eapply g_bind.
  { apply g_each_. intros d st1 Hd G1. apply gok_composed_directive. eapply or_mono; [|exact Hl]. intros Hp.
    by apply (proj1 (forallb_forall _ _) Hp), list_elem_of_In. }
  intros u st1 W1 G1 _. gstep (g_get st1 _ (λ st' n, st' = st1 ∧ n = z_directives (szs st1))) as m st2 W2 G2 Hm; [done|].
  destruct Hm as [-> ->]. apply g_ret. intros _. unfold range_in. sizes.
Qed.
Lemma gok_field_type st t : P ∨ ty_ok t = true → gok st (field_type t) (λ st ty, def_in (szs st) (ft_definition ty)).
Proof.
  intros Ht. unfold field_type. eapply g_bind.
  { apply (g_lift _ _ (λ _ _, True)). destruct Ht as [HP|Ht]; [by destruct (field_wrapping _)|].
    by destruct (field_wrapping_ok t Ht) as [w ->]. }
  intros w st1 W1 G1 _. gstep (g_get st1 _ (λ st', opt_in (def_in (szs st')))) as o st2 W2 G2 Ho.
  { intros W d. apply (mi_definitions _ _ (proj2 W)). }
  gstep (g_ok_or st2 _ _ (λ st', def_in (szs st'))) as d st3 W3 G3 Hd; [intros a -> _; by apply Ho|]. by apply g_ret.
Qed.

(** ** Fields *)
Lemma gok_input_value st v name ty cd desc :
  name < z_strings (szs st) → def_in (szs st) (ft_definition ty) → range_in (z_directives (szs st)) cd →
  opt_lt (z_strings (szs st)) desc → P ∨ input_ok v = true → 
  gok st (ingest_input_value v name ty cd desc) (λ st' _, z_values (szs st) < z_values (szs st')).
Proof.
  intros Hn Hty Hcd Hdesc Hv. unfold ingest_input_value. eapply g_bind.
  { apply g_opt. intros d Hd. apply gok_insert_value. eapply or_mono; [|exact Hv].
    intros [[_ Hp]%andb_prop _]%andb_prop. by rewrite Hd in Hp. }
  intros d st1 W1 G1 Hd. gstep g_push_input_value as i st2 W2 G2 Hi; [|apply g_ret; intros _; sizes].
  pose proof (grown _ _ G1) as L. split_and!; cbn [fiv_name fiv_type fiv_directives fiv_description fiv_default];
    [destruct L; lia|by eapply def_in_mono| | |done].
  - eapply range_in_mono; [|done]. apply L.
  - eapply opt_lt_mono; [|done]. apply L.
Qed.
Lemma input_ok_parts v : P ∨ input_ok v = true → (P ∨ ty_ok (siv_ty v) = true) ∧ (P ∨ plain_directives (siv_directives v) = true).
Proof. intros [HP|[[? ?]%andb_prop ?]%andb_prop]; auto. Qed.
Ltac grown_in :=
  first [ eapply def_in_mono; [|eassumption] | eapply range_in_mono; [|eassumption] | eapply opt_lt_mono; [|eassumption]
        | idtac ]; repeat match goal with G : grows ?a ?b |- _ => apply gr_sizes in G end;
  repeat match goal with L1 : sz_le ?a ?b, L2 : sz_le ?b ?c |- _ =>
    lazymatch goal with _ : sz_le a c |- _ => fail | _ => pose proof (transitivity L1 L2) end end;
  first [eassumption | by repeat match goal with L : sz_le _ _ |- _ => destruct L; clear L end; cbn beta in *; lia].
Lemma gok_argument st v : P ∨ input_ok v = true → gok st (ingest_argument v) (λ _ _, True).
Proof.
  intros Hv. destruct (input_ok_parts v Hv) as [Hty Hd]. unfold ingest_argument.
  gstep gok_opt_string as desc st1 W1 G1 H1. gstep gok_composed_directives as cd st2 W2 G2 H2; [done|].
  gstep g_insert_string as n st3 W3 G3 H3. gstep gok_field_type as ty st4 W4 G4 H4; [done|].
  eapply g_weaken; [apply gok_input_value; [|done| | |done]; grown_in|done].
Qed.

Context (parse_executable : string → string + list (list ESelection)) (document : list SDefinition).
(** The declared names are known. *)
Definition knows (st : State) : Prop :=
  (∀ n, name_ok document n = true → is_Some (definition_names st !! n)) ∧
  (∀ g, graph_ok document g = true → is_Some (graph_sdl_names st !! g)).
Lemma knows_grows_fields st st' : grows_fields st st' → knows st → knows st'.
Proof. intros [_ D G _ _ _] [? ?]. split; intros x Hx; [rewrite D|rewrite G]; auto. Qed.
Lemma knows_grows st st' : grows st st' → knows st → knows st'.
Proof. intros G. by apply knows_grows_fields, grows_R. Qed.

Lemma gok_subgraph_named st g : knows st → P ∨ graph_ok document g = true →
  gok st (subgraph_named g) (λ st i, i < z_subgraphs (szs st)).
Proof.
  intros [_ K] Hg. apply g_read. intros W. unfold expect. destruct (graph_sdl_names st !! g) as [i|] eqn:E; cbn.
  - by apply (mi_graphs _ _ (proj2 W)) in E.
  - destruct Hg as [|Hg]; [done|]. apply K in Hg. rewrite E in Hg. by destruct Hg.
Qed.
Lemma gok_subgraphs_named st l : knows st → P ∨ forallb (graph_ok document) l = true →
  gok st (mapM subgraph_named l) (λ st, Forall (λ i, i < z_subgraphs (szs st))).
Proof.
  intros K Hl. apply (g_mapM _ _ _ (λ st i, i < z_subgraphs (szs st))); [intros a b i G Hi; sizes|].
  intros g st1 Hg G1. apply gok_subgraph_named; [by eapply knows_grows|]. eapply or_mono; [|exact Hl]. intros Hp.
  by apply (proj1 (forallb_forall _ _) Hp), list_elem_of_In.
Qed.
Lemma gok_resolvable_in st l : knows st →
  P ∨ forallb (λ d, negb (named "join__field" d && negb (has_override d) && negb (is_external d)) || graph_arg_ok document d) l = true →
  gok st (ingest_resolvable_in l) (λ st, Forall (λ i, i < z_subgraphs (szs st))).
Proof.
  intros K Hl. apply gok_subgraphs_named; [done|]. eapply or_mono; [|exact Hl]. intros Hp. apply forallb_forall.
  intros g (d & Hd & Hg)%list_elem_of_In%list_elem_of_omap. apply list_elem_of_filter in Hd as [Hf Hd].
  apply list_elem_of_In, (proj1 (forallb_forall _ _) Hp) in Hd. rewrite Hf in Hd. cbn in Hd. unfold graph_arg_ok in Hd. by rewrite Hg in Hd.
Qed.

Lemma gok_override_graph_id st graph : gok st (override_graph_id graph) (λ st, opt_lt (z_subgraphs (szs st))).
Proof.
  gstep (g_get st _ (λ st', opt_lt (z_subgraphs (szs st')))) as o st1 W1 G1 Ho.
  { intros W i. apply (mi_graphs _ _ (proj2 W)). }
  destruct o as [i|]; [by apply g_ret|]. gstep g_insert_string as n st2 W2 G2 Hn. apply g_get. intros _ j. unfold position_of.
  intros ([k x] & (Hk & _)%list_find_Some & [= ->])%fmap_Some. by apply lookup_lt_Some in Hk.
Qed.
Lemma subgraph_position_ok st s l i : Forall (λ x, fs_name x < z_strings (szs st)) l →
  match subgraph_position st s i l with Ret o => opt_lt (i + length l) o | Panic _ => False end.
Proof.
  revert i. induction l as [|x l IH]; intros i Hl; [done|]. inversion Hl as [|? ? Hx Hl']; subst. cbn.
  apply get_index_lt in Hx as [y Hy]. rewrite Hy. cbn. destruct (String.eqb y s); [intros j Hj; injection Hj as <-; lia|].
  specialize (IH (S i) Hl'). destruct (subgraph_position st s (S i) l); [|done]. intros j Hj. specialize (IH j Hj). lia.
Qed.
Lemma gok_override_from st overrides : gok st (override_from overrides) (λ st' f,
  match f with FromSubgraph s => s < z_subgraphs (szs st') | Missing n => n < z_strings (szs st') end).
Proof.
  gstep (g_read st _ (λ st', opt_lt (z_subgraphs (szs st')))) as o st1 W1 G1 Ho.
  { intros W. pose proof (subgraph_position_ok st overrides (fg_subgraphs (s_graph st)) 0) as Hpos.
    destruct (subgraph_position _ _ _ _) as [o|]; [|destruct Hpos]; [apply Hpos|];
      (eapply Forall_impl; [apply (vi_subgraphs _ _ (proj1 W))|]; by intros x [? _]). }
  destruct o as [i|]; [apply g_ret; intros _; by apply Ho|]. gstep g_insert_string as n st3 W3 G3 Hn. by apply g_ret.
Qed.
Lemma gok_override st d : gok st (ingest_override d) (λ st, opt_in (override_in (szs st))).
Proof.
  unfold ingest_override. do 4 (case_match; try (by apply g_ret)).
  gstep gok_override_graph_id as id st1 W1 G1 Hid. destruct id as [id|]; [|by apply g_ret]. specialize (Hid id eq_refl).
  gstep gok_override_from as from st2 W2 G2 Hfrom.
  apply g_ret. intros _ o [= <-]. split; cbn [override_graph override_ir_from]; [sizes|done].
Qed.
Lemma gok_overrides st l : gok st (ingest_overrides l) (λ st, Forall (override_in (szs st))).
Proof.
  unfold ingest_overrides. eapply g_bind.
  { apply (g_mapM _ _ _ (λ st, opt_in (override_in (szs st)))); [|intros; apply gok_override].
    intros a b o G Ho x Hx. eapply override_in_mono; [by apply grown|by apply Ho]. }
  intros os st1 W1 G1 Hos. apply g_ret. intros _. apply Forall_forall. intros o (x & Hx & Ho)%list_elem_of_omap.
  cbn in Ho. subst x. by apply (proj1 (Forall_forall _ _) Hos _ Hx).
Qed.
Lemma gok_name_field st k id : id < z_fields (szs st) →
  gok st (name_field k id) (λ st' _, is_Some (s_selection_map st' !! k)).
Proof.
  intros Hid. apply g_modify. intros [V [M1 M2 M3 M4]]. split_and!; [split; [done|split; try done]|split; try done|].
  - by apply map_Forall_insert_2.
  - intros k' Hk'. cbn. destruct (decide (k = k')) as [->|Hne]; [rewrite lookup_insert_eq|rewrite lookup_insert_ne by done]; done.
  - cbn. by rewrite lookup_insert_eq.
Qed.
Lemma sdl_field_parts f : P ∨ sdl_field_ok parse_executable document f = true →
  (P ∨ ty_ok (sfd_ty f) = true) ∧ (P ∨ forallb input_ok (sfd_arguments f) = true) ∧
  (P ∨ plain_directives (sfd_directives f) = true) ∧
  (P ∨ forallb (λ d, negb (named "join__field" d && negb (has_override d) && negb (is_external d)) || graph_arg_ok document d)
    (sfd_directives f) = true).
Proof. intros [HP|[[[? ?]%andb_prop [? ?]%andb_prop]%andb_prop ?]%andb_prop]; auto. Qed.
Lemma gok_field st parent f : knows st → P ∨ sdl_field_ok parse_executable document f = true →
  gok st (ingest_field parent f) (λ st' id, z_fields (szs st) ≤ id < z_fields (szs st') ∧
    is_Some (s_selection_map st' !! (parent, sfd_name f))).
Proof.
  intros K Hf. destruct (sdl_field_parts f Hf) as (Hty & Hargs & Hdirs & Hgraphs). unfold ingest_field.
  gstep gok_field_type as ty st1 W1 G1 H1; [done|]. gstep g_insert_string as name st2 W2 G2 H2.
  gstep (g_get st2 _ (λ st' n, st' = st2 ∧ n = z_values (szs st2))) as a st2' W2' G2' Ha; [done|]. destruct Ha as [-> ->].
  gstep g_each_ as u st3 W3 G3 _u.
  { intros v st3 Hv G3. apply gok_argument. eapply or_mono; [|exact Hargs]. intros Hp.
    by apply (proj1 (forallb_forall _ _) Hp), list_elem_of_In. }
  gstep (g_get st3 _ (λ st' n, st' = st3 ∧ n = z_values (szs st3))) as b st3' W3' G3' Hb; [done|]. destruct Hb as [-> ->].
  gstep gok_resolvable_in as ri st4 W4 G4 H4; [eapply knows_grows; [|exact K]; by do 2 (etransitivity; [eassumption|])|done|].
  gstep gok_overrides as ov st5 W5 G5 H5. gstep gok_composed_directives as cd st6 W6 G6 H6; [done|].
  gstep gok_opt_string as desc st7 W7 G7 H7.
  gstep g_push_field as id st8 W8 G8 Hid.
  { split_and!; cbn [ff_name ff_type ff_arguments ff_resolvable_in ff_provides ff_requires ff_overrides ff_composed_directives
      ff_description]; try done.
    - sizes.
    - grown_in.
    - unfold range_in. cbn [fst snd]. sizes.
    - eapply Forall_impl; [exact H4|]. cbn beta. intros i Hi. sizes.
    - eapply Forall_impl; [exact H5|]. intros o. apply override_in_mono. by do 2 (etransitivity; [by apply grown|]).
    - grown_in. }
  gstep gok_name_field as u9 st9 W9 G9 H9; [sizes|]. apply g_ret. intros _. split; [sizes|done].
Qed.

(** ** The fields of a type *)
Definition registered (parent : FederatedDefinition) (fields : list SField) (st : State) : Prop :=
  Forall (λ f, is_Some (s_selection_map st !! (parent, sfd_name f))) fields.
Lemma registered_grows parent fields st st' : grows st st' → registered parent fields st → registered parent fields st'.
Proof. intros G Hr. eapply Forall_impl; [exact Hr|]. intros f. apply (gr_selections _ _ G). Qed.
Lemma gok_field_loop st parent range fields :
  knows st → P ∨ forallb (sdl_field_ok parse_executable document) fields = true → opt_in (fields_in (szs st)) range →
  gok st (ingest_field_loop parent range fields) (λ st' r, opt_in (fields_in (szs st')) r ∧ registered parent fields st').
Proof.
  revert st range. induction fields as [|f fields IH]; intros st range K Hf Hr; cbn [ingest_field_loop].
  { apply g_ret. intros _. split; [done|by apply Forall_nil_2]. }
  assert ((P ∨ sdl_field_ok parse_executable document f = true) ∧
    (P ∨ forallb (sdl_field_ok parse_executable document) fields = true)) as [Hf1 Hf2].
  { destruct Hf as [HP|[? ?]%andb_prop]; auto. }
  gstep gok_field as id st1 W1 G1 Hid; [done|done|]. destruct Hid as [Hid Hreg].
  eapply g_weaken; [apply IH; [by eapply knows_grows|done|]|].
  - intros r [= <-]. unfold fields_in. cbn [fst snd]. destruct range as [[s e]|]; [|sizes].
    specialize (Hr (s, e) eq_refl). unfold fields_in in Hr. cbn [fst snd] in Hr. sizes.
  - intros st2 r W2 G2 [Hr2 Hreg2]. split; [done|]. constructor; [|done]. by apply (gr_selections _ _ G2).
Qed.
Lemma gok_interface_fields st id fields :
  knows st → P ∨ forallb (sdl_field_ok parse_executable document) fields = true → id < z_interfaces (szs st) →
  gok st (ingest_interface_fields id fields) (λ st' _, registered (FInterface id) fields st').
Proof.
  intros K Hf Hid. unfold ingest_interface_fields. gstep gok_field_loop as r st1 W1 G1 Hr; [done|done|done|].
  destruct Hr as [Hr Hreg]. destruct r as [r|]; [|by apply g_ret].
  eapply g_weaken; [apply g_update_interface; [sizes|]|intros st2 u W2 G2 _; by eapply registered_grows].
  intros x _ (? & ? & ? & ? & ?). split_and!; try done. by apply Hr.
Qed.
Definition root_ok (st : State) : Prop :=
  ∃ id, definition_names st !! default "Query" (query_type_name st) = Some (FObject id).
Lemma root_ok_grows_fields st st' : grows_fields st st' → root_ok st → root_ok st'.
Proof. intros [_ D _ Q _ _] [id Hid]. exists id. by rewrite D, Q. Qed.
Lemma root_ok_grows st st' : grows st st' → root_ok st → root_ok st'.
Proof. intros G. by apply root_ok_grows_fields, grows_R. Qed.
Lemma get_object_id_in st name : swf st → opt_lt (z_objects (szs st)) (get_object_id st name).
Proof.
  intros W i. unfold get_object_id. destruct (definition_names st !! name) as [[]|] eqn:E; try done. intros [= <-].
  apply (mi_definitions _ _ (proj2 W) _ _ E).
Qed.
Lemma root_types_in st roots : swf st → root_operation_types st = inr roots → root_in (szs st) roots.
Proof.
  intros W. unfold root_operation_types. destruct (get_object_id st (default _ (query_type_name st))) as [q|] eqn:E; [|done].
  intros [= <-]. split_and!; cbn [rot_query rot_mutation rot_subscription]; [by eapply get_object_id_in| |]; by apply get_object_id_in.
Qed.
Lemma root_ok_types st : root_ok st → ∃ roots, root_operation_types st = inr roots.
Proof. intros [id Hid]. unfold root_operation_types, get_object_id at 1. rewrite Hid. by eexists. Qed.
Lemma gok_introspection_field st id name : id < z_objects (szs st) → name < z_strings (szs st) →
  gok st (push_introspection_field id name) (λ st' _, z_fields (szs st') = z_fields (szs st) + 1).
Proof.
  intros Hid Hn. unfold push_introspection_field. gstep g_push_field as i st1 W1 G1 Hi.
  - split_and!; cbn [ff_name ff_type ff_arguments ff_resolvable_in ff_provides ff_requires ff_overrides ff_composed_directives
      ff_description]; try done; unfold range_in; simpl; lia.
  - apply g_ret. intros _. lia.
Qed.
Lemma gok_introspection_fields st id range :
  id < z_objects (szs st) → opt_in (fields_in (szs st)) range →
  gok st (new_start ← fget (λ st, length (fg_fields (s_graph st)));
          schema ← insert_string "__schema"; type_ ← insert_string "__type";
          _ ← push_introspection_field id schema; _ ← push_introspection_field id type_;
          mret (Some (match range with Some (start, end_) => (start, end_ + 2) | None => (new_start, new_start + 2) end)))
    (λ st', opt_in (fields_in (szs st'))).
Proof.
  intros Hid Hr.
  gstep (g_get st _ (λ st' n, st' = st ∧ n = z_fields (szs st))) as n st0 W0 G0 Hn; [done|]. destruct Hn as [-> ->].
  gstep g_insert_string as s st1 W1 G1 Hs. gstep g_insert_string as t st2 W2 G2 Ht.
  gstep gok_introspection_field as u3 st3 W3 G3 H3; [sizes|sizes|].
  gstep gok_introspection_field as u4 st4 W4 G4 H4; [sizes|sizes|].
  apply g_ret. intros _ r [= <-]. unfold fields_in. destruct range as [[a b]|]; cbn [fst snd].
  2: { change (length (fg_fields (s_graph st))) with (z_fields (szs st)). sizes. }
  specialize (Hr (a, b) eq_refl). unfold fields_in in Hr. cbn [fst snd] in Hr. sizes.
Qed.
Lemma gok_object_fields st id fields :
  knows st ∨ fields = [] → P ∨ forallb (sdl_field_ok parse_executable document) fields = true → P ∨ root_ok st →
  id < z_objects (szs st) →
  gok st (ingest_object_fields id fields) (λ st' _, registered (FObject id) fields st').
Proof.
  intros K Hf Hroot Hid. unfold ingest_object_fields. eapply g_bind.
  { instantiate (1 := λ st' r, opt_in (fields_in (szs st')) r ∧ registered (FObject id) fields st').
    destruct K as [K| ->]; [by apply gok_field_loop|]. apply g_ret. intros _. split; [done|by apply Forall_nil_2]. }
  intros r st1 W1 G1 [Hr Hreg].
  gstep (g_read st1 _ (λ _ _, True)) as roots st2 W2 G2 _u.
  { intros _. destruct Hroot as [HP|Hroot]; [by case_match|].
    destruct (root_ok_types st1) as [roots ->]; [by eapply root_ok_grows|done]. }
  gstep (g_weaken st2 _ (λ st', opt_in (fields_in (szs st')))) as r' st3 W3 G3 Hr'.
  { case_match; [apply gok_introspection_fields; [sizes|]|apply g_ret; intros _];
      intros x Hx; eapply fields_in_mono; [by apply grown|by apply Hr|by apply grown|by apply Hr]. }
  { intros st3 a _ _ Ha. exact Ha. }
  destruct r' as [r'|]; [|apply g_ret; intros _; eapply registered_grows; [|exact Hreg]; by etransitivity].
  eapply g_weaken; [apply g_update_object; [sizes|]|].
  - intros x _ (? & ? & ? & ? & ?). split_and!; try done. by apply Hr'.
  - intros st4 u W4 G4 _. eapply registered_grows; [|exact Hreg]. by do 2 (etransitivity; [eassumption|]).
Qed.

(** ** Interfaces, unions and input objects *)
Lemma gok_definition_named st name : P ∨ is_Some (definition_names st !! name) →
  gok st (definition_named name) (λ st' d, def_in (szs st') d ∧ definition_names st' !! name = Some d).
Proof.
  intros Hn. apply g_read. intros W. unfold expect. destruct (definition_names st !! name) as [d|] eqn:E; cbn.
  - split; [|done]. apply (mi_definitions _ _ (proj2 W) _ _ E).
  - destruct Hn as [|[? [=]]]. done.
Qed.
Lemma gok_implements st names : knows st → P ∨ forallb (name_ok document) names = true →
  gok st (mapM implemented_interface names) (λ st', Forall (λ i, i < z_interfaces (szs st'))).
Proof.
  intros K Hn. apply (g_mapM _ _ _ (λ st i, i < z_interfaces (szs st))); [intros a b i G Hi; sizes|]. intros n st1 Hin G1.
  gstep gok_definition_named as d st2 W2 G2 Hd.
  { eapply or_mono; [|exact Hn]. intros Hp. apply (knows_grows _ _ G1 K).
    by apply (proj1 (forallb_forall _ _) Hp), list_elem_of_In. }
  destruct Hd as [Hd _]. destruct d; try apply g_err. by apply g_ret.
Qed.
Lemma gok_object_interfaces st id names : knows st → P ∨ forallb (name_ok document) names = true → id < z_objects (szs st) →
  gok st (ingest_object_interfaces id names) (λ _ _, True).
Proof.
  intros K Hn Hid. gstep gok_implements as l st1 W1 G1 Hl; [done|done|]. apply g_update_object; [sizes|].
  intros x _ (? & ? & ? & ? & ?). by split_and!.
Qed.
Lemma gok_interface_interfaces st id names :
  knows st → P ∨ forallb (name_ok document) names = true → id < z_interfaces (szs st) →
  gok st (ingest_interface_interfaces id names) (λ _ _, True).
Proof.
  intros K Hn Hid. gstep gok_implements as l st1 W1 G1 Hl; [done|done|]. apply g_update_interface; [sizes|].
  intros x _ (? & ? & ? & ? & ?). by split_and!.
Qed.
Lemma gok_join_arguments st d a : gok st (join_arguments d a) (λ st' r, r.1 < z_subgraphs (szs st')).
Proof.
  unfold join_arguments. do 4 (case_match; try apply g_err).
  gstep (g_get st _ (λ st', opt_lt (z_subgraphs (szs st')))) as o st1 W1 G1 Ho.
  { intros W i. apply (mi_graphs _ _ (proj2 W)). }
  gstep (g_ok_or st1 _ _ (λ st' i, i < z_subgraphs (szs st'))) as i st2 W2 G2 Hi; [intros i Hi _; by apply Ho|]. by apply g_ret.
Qed.
Lemma gok_parse_join_implements st d : gok st (parse_join_implements d) (λ st', opt_in (join_in (szs st'))).
Proof.
  unfold parse_join_implements. case_match; [by apply g_ret|]. gstep gok_join_arguments as a st1 W1 G1 Ha.
  gstep (g_get st1 _ (λ st', opt_in (def_in (szs st')))) as o st2 W2 G2 Ho.
  { intros W i. apply (mi_definitions _ _ (proj2 W)). }
  destruct o as [[]|]; try apply g_err. apply g_ret. intros _ e [= <-]. specialize (Ho _ eq_refl). cbn in Ho.
  split; cbn [fst snd]; [sizes|done].
Qed.
Lemma gok_parse_join_union_member st d : gok st (parse_join_union_member d)
  (λ st', opt_in (λ e, e.1 < z_subgraphs (szs st') ∧ e.2 < z_objects (szs st'))).
Proof.
  unfold parse_join_union_member. case_match; [by apply g_ret|]. gstep gok_join_arguments as a st1 W1 G1 Ha.
  gstep (g_get st1 _ (λ st', opt_in (def_in (szs st')))) as o st2 W2 G2 Ho.
  { intros W i. apply (mi_definitions _ _ (proj2 W)). }
  destruct o as [[]|]; try apply g_err. apply g_ret. intros _ e [= <-]. specialize (Ho _ eq_refl). cbn in Ho.
  split; cbn [fst snd]; [sizes|done].
Qed.
Lemma gok_joins st parse add l (Q : State → SubgraphId * nat → Prop) :
  (∀ d st1, gok st1 (parse d) (λ st', opt_in (Q st'))) →
  (∀ e st1, grows st st1 → Q st1 e → gok st1 (add e) (λ _ _, True)) → gok st (ingest_joins parse add l) (λ _ _, True).
Proof.
  intros Hparse Hadd. apply g_each_. intros d st1 _ G1. gstep Hparse as e st2 W2 G2 He. destruct e as [e|]; [|by apply g_ret].
  apply Hadd; [by etransitivity|by apply He].
Qed.
Lemma gok_object_joins st id l : id < z_objects (szs st) → gok st (ingest_object_join_implements id l) (λ _ _, True).
Proof.
  intros Hid. apply (gok_joins _ _ _ _ (λ st', join_in (szs st'))); [intros; apply gok_parse_join_implements|].
  intros e st1 G1 He. apply g_update_object; [sizes|]. intros x _ (? & ? & ? & ? & ?). split_and!; try done.
  apply Forall_app. by split; [|constructor].
Qed.
Lemma gok_interface_joins st id l : id < z_interfaces (szs st) → gok st (ingest_interface_join_implements id l) (λ _ _, True).
Proof.
  intros Hid. apply (gok_joins _ _ _ _ (λ st', join_in (szs st'))); [intros; apply gok_parse_join_implements|].
  intros e st1 G1 He. apply g_update_interface; [sizes|]. intros x _ (? & ? & ? & ? & ?). split_and!; try done.
  apply Forall_app. by split; [|constructor].
Qed.
Lemma gok_union_joins st id l : id < z_unions (szs st) → gok st (ingest_union_join_members id l) (λ _ _, True).
Proof.
  intros Hid. apply (gok_joins _ _ _ _ (λ st' e, e.1 < z_subgraphs (szs st') ∧ e.2 < z_objects (szs st')));
    [intros; apply gok_parse_join_union_member|].
  intros e st1 G1 He. apply g_update_union; [sizes|]. intros x _ (? & ? & Hj & ? & ?). split_and!; try done.
  intros s o [<-%elem_of_singleton|Ho]%elem_of_union; [done|by apply Hj].
Qed.
Lemma gok_union_members st id members : knows st → P ∨ forallb (name_ok document) members = true → id < z_unions (szs st) →
  gok st (ingest_union_members id members) (λ _ _, True).
Proof.
  intros K Hm Hid. apply g_each_. intros m st1 Hin G1. gstep gok_definition_named as d st2 W2 G2 Hd.
  { eapply or_mono; [|exact Hm]. intros Hp. apply (knows_grows _ _ G1 K).
    by apply (proj1 (forallb_forall _ _) Hp), list_elem_of_In. }
  destruct Hd as [Hd _]. destruct d; try apply g_err. apply g_update_union; [sizes|].
  intros x _ (? & ? & ? & ? & ?). split_and!; try done. apply Forall_app. by split; [|constructor].
Qed.

(** ** Input objects, and all the fields *)
Abbreviation fsub := (fok_sub P grows grows_fields).
Definition values_named (st : State) : Prop := map_Forall (λ _ i, i < z_values (szs st)) (input_values_map st).
Lemma values_named_grows_fields st st' : grows_fields st st' → values_named st → values_named st'.
Proof. intros [L _ _ _ V _] Hv k i [Hi|]%V; [|done]. apply Hv in Hi. destruct L. lia. Qed.
Lemma values_named_grows st st' : grows st st' → values_named st → values_named st'.
Proof. intros G. by apply values_named_grows_fields, grows_R. Qed.

(** A field is named before it is pushed. *)
Lemma fok_input_object_field st id v : P ∨ input_ok v = true →
  fok P grows_fields st (ingest_input_object_field id v) (λ _ _, True).
Proof.
  intros Hv W. destruct (input_ok_parts v Hv) as [Hty Hd]. unfold ingest_input_object_field, mbind at 1, F_bind at 1. cbn.
  unfold mbind at 1, F_bind at 1. cbn. set (st1 := MkState _ _ _ _ _ _ _ _ _ _).
  assert (swf st1) as W1 by (split; [apply W|]; destruct (proj2 W); by split).
  assert (∀ m : F unit, gok st1 m (λ st' _, z_values (szs st1) < z_values (szs st')) →
    match m st1 with Panic _ => P | Ret (inl _) => True | Ret (inr (a, st')) => swf st' ∧ grows_fields st st' ∧ True end) as Hm.
  { intros m Hm. specialize (Hm W1). destruct (m st1) as [[e|[a st2]]|]; [done| |done]. destruct Hm as (W2 & G2 & Hlt).
    split_and!; [done| |done]. destruct G2. split; try done. rewrite gr_values. intros k i. cbn.
    intros [[_ <-]|[_ Hi]]%lookup_insert_Some; [by right|by left]. }
  apply Hm. clear Hm. gstep g_insert_string as n st2 W2 G2 H2. gstep gok_field_type as ty st3 W3 G3 H3; [done|].
  gstep gok_composed_directives as cd st4 W4 G4 H4; [done|]. gstep gok_opt_string as desc st5 W5 G5 H5.
  eapply g_weaken; [apply gok_input_value; [| | |done|done]; grown_in|]. intros st6 u W6 G6 H6. sizes.
Qed.
Lemma fok_input_object st id fields : P ∨ forallb input_ok fields = true → id < z_input_objects (szs st) →
  fok P grows_fields st (ingest_input_object id fields) (λ _ _, True).
Proof.
  intros Hf Hid. unfold ingest_input_object.
  eapply fok_bind; [apply _|by apply (fok_get _ _ st _ (λ st' n, st' = st ∧ n = z_values (szs st)))|].
  intros n st0 W0 G0 [-> ->]. eapply fok_bind; [apply _|apply fok_each_; [apply _|]|].
  { intros v st1 Hv G1. apply fok_input_object_field. eapply or_mono; [|exact Hf]. intros Hp.
    by apply (proj1 (forallb_forall _ _) Hp), list_elem_of_In. }
  intros u st1 W1 G1 _. eapply fok_bind; [apply _|by apply (fok_get _ _ st1 _ (λ st' n, st' = st1 ∧ n = z_values (szs st1)))|].
  intros n st2 W2 G2 [-> ->]. apply fsub; [apply grows_R|]. destruct (gf_sizes _ _ G1).
  apply g_update_input_object; [lia|]. intros x _ (? & ? & ? & ?). unfold set_input_object_fields.
  split_and!; cbn [io_fields]; try done. unfold range_in. cbn [fst snd]. lia.
Qed.

Lemma own_name st t : knows st → t ∈ all_types document → is_join_graph t = false → is_Some (definition_names st !! st_name t).
Proof.
  intros [K _] Ht Hj. apply K, bool_decide_eq_true, list_elem_of_fmap. exists t. split; [done|]. by apply list_elem_of_filter.
Qed.
(** The fields of a type are registered under its id. *)
Definition type_registered (st : State) (t : STypeDefinition) : Prop :=
  match t with
  | STObject h _ fields | STInterface h _ fields =>
      ∃ d, definition_names st !! sh_name h = Some d ∧ registered d fields st
  | _ => True
  end.
Lemma type_registered_grows_fields st st' t : grows_fields st st' → type_registered st t → type_registered st' t.
Proof.
  intros [_ D _ _ _ S]. destruct t; try done; intros (d & Hd & Hr); exists d; rewrite D; (split; [done|]);
    (eapply Forall_impl; [exact Hr|]; intros f; apply S).
Qed.
Lemma fok_fields_of st t : knows st → P ∨ root_ok st → t ∈ all_types document →
  P ∨ sdl_type_ok parse_executable document t = true →
  fok P grows_fields st (ingest_fields_of t) (λ st' _, type_registered st' t).
Proof.
  intros K Hroot Hin Ht. pose proof (own_name st t K Hin) as Hname.
  assert (P ∨ match t with
    | STScalar _ => true
    | STObject _ implements fields | STInterface _ implements fields =>
        forallb (name_ok document) implements && forallb (sdl_field_ok parse_executable document) fields
    | STUnion _ members => forallb (name_ok document) members
    | STEnum _ values => forallb (λ v, plain_directives (sev_directives v)) values
    | STInputObject _ fields => forallb input_ok fields
    end = true) as Hparts.
  { eapply or_mono; [|exact Ht]. by intros [_ ?]%andb_prop. }
  clear Ht Hin. destruct t as [h|h impl fields|h impl fields|h members|h values|h fields]; cbn [ingest_fields_of];
    try (by apply fok_ret; [apply _|]); specialize (Hname eq_refl); unfold st_name in Hname; cbn [st_header] in Hname.
  - assert ((P ∨ forallb (name_ok document) impl = true) ∧ (P ∨ forallb (sdl_field_ok parse_executable document) fields = true))
      as [Hi Hf] by (destruct Hparts as [?|[? ?]%andb_prop]; auto).
    apply fsub; [apply grows_R|]. gstep gok_definition_named as d st1 W1 G1 Hd; [by right|]. destruct Hd as [Hd Hn].
    destruct d; try apply g_err. gstep gok_object_interfaces as u2 st2 W2 G2 _u2; [by eapply knows_grows|done|done|].
    gstep gok_object_joins as u3 st3 W3 G3 _u3; [cbn [def_in] in Hd; sizes|].
    assert (grows st st3) as G03 by (by do 2 (etransitivity; [eassumption|])).
    eapply g_weaken; [apply gok_object_fields; [left; by eapply knows_grows|done| |cbn [def_in] in Hd; sizes]|].
    + eapply or_mono; [|exact Hroot]. by apply root_ok_grows.
    + intros st4 u W4 G4 Hr. exists (FObject id). split; [|done]. rewrite (gr_definitions _ _ G4), (gr_definitions _ _ G3),
        (gr_definitions _ _ G2). done.
  - assert ((P ∨ forallb (name_ok document) impl = true) ∧ (P ∨ forallb (sdl_field_ok parse_executable document) fields = true))
      as [Hi Hf] by (destruct Hparts as [?|[? ?]%andb_prop]; auto).
    apply fsub; [apply grows_R|]. gstep gok_definition_named as d st1 W1 G1 Hd; [by right|]. destruct Hd as [Hd Hn].
    destruct d; try apply g_err. gstep gok_interface_interfaces as u2 st2 W2 G2 _u2; [by eapply knows_grows|done|done|].
    gstep gok_interface_joins as u3 st3 W3 G3 _u3; [cbn [def_in] in Hd; sizes|].
    assert (grows st st3) as G03 by (by do 2 (etransitivity; [eassumption|])).
    eapply g_weaken; [apply gok_interface_fields; [by eapply knows_grows|done|cbn [def_in] in Hd; sizes]|].
    intros st4 u W4 G4 Hr. exists (FInterface id). split; [|done]. rewrite (gr_definitions _ _ G4), (gr_definitions _ _ G3),
      (gr_definitions _ _ G2). done.
  - apply fsub; [apply grows_R|]. gstep gok_definition_named as d st1 W1 G1 Hd; [by right|]. destruct Hd as [Hd Hn].
    destruct d; try apply g_err. gstep gok_union_members as u2 st2 W2 G2 _u2; [by eapply knows_grows|done|done|].
    eapply g_weaken; [apply gok_union_joins; cbn [def_in] in Hd; sizes|done].
  - eapply fok_bind; [apply _|apply fsub; [apply grows_R|apply gok_definition_named; by right]|]. intros d st1 W1 G1 [Hd Hn].
    destruct d; try apply fok_err. eapply fok_weaken; [by apply fok_input_object|done].
Qed.
Lemma fok_fields st : knows st → P ∨ root_ok st → P ∨ forallb (sdl_type_ok parse_executable document) (all_types document) = true →
  fok P grows_fields st (ingest_fields document) (λ st' _, Forall (type_registered st') (all_types document)).
Proof.
  intros K Hroot Hdoc. eapply fok_weaken.
  - apply (fok_each _ _ _ _ _ (λ st d, from_option (type_registered st) True (typedef_of d))).
    { intros a b d G. destruct (typedef_of d); [by apply type_registered_grows_fields|done]. }
    intros d st1 Hd G1. assert (∀ t, typedef_of d = Some t → fok P grows_fields st1 (ingest_fields_of t) (λ st' _, type_registered st' t)) as Ht.
    { intros t Ht. assert (t ∈ all_types document) as Hin by (apply list_elem_of_omap; by exists d).
      apply fok_fields_of; [by eapply knows_grows_fields| |done|].
      - eapply or_mono; [|exact Hroot]. by apply root_ok_grows_fields.
      - eapply or_mono; [|exact Hdoc]. intros Hp. by apply (proj1 (forallb_forall _ _) Hp), list_elem_of_In. }
    destruct d as [s|s|t|t|x]; cbn; try (by apply fok_ret; [apply _|]); by apply Ht.
  - intros st1 u W1 G1 Hall. apply Forall_forall. intros t (d & Hd & Ht)%list_elem_of_omap.
    apply (proj1 (Forall_forall _ _) Hall) in Hd. by rewrite Ht in Hd.
Qed.
End steps.
