(* ===== verification/FromSdlClaims.v ===== *)
(** * [from_sdl]: selections, the whole of it, and what it shows

    The selection sets of federation directives, the definitions and the order
    of the steps; [from_sdl] returns well-formed graphs only, and returns
    whenever [sdl_ok] holds of the document. *)
From S2P Require Import Prelude RustStd Wrapping CheckSchema IndexSet FieldTypes Subgraphs ComposeContext Walkers FederatedGraph DisplayUtils Emit GraphWf EmitInvariant EmitRules EmitGraph Rendering RenderProps SdlAst FromSdl FromSdlRules FromSdlProps.
Local Open Scope string_scope.
Local Open Scope list_scope.
Local Open Scope nat_scope.

Section selections.
Context `{IndexSetLaws} (P : Prop).
Abbreviation gok := (fok P grows).

(** ** Reading the graph *)
Lemma read_at {A} st (get : FederatedGraph → list A) id (Q : A → Prop) :
  Forall Q (get (s_graph st)) → id < length (get (s_graph st)) →
  ∃ x, at_index (get (s_graph st)) id = Ret x ∧ get (s_graph st) !! id = Some x ∧ Q x.
Proof.
  intros HQ Hid. destruct (lookup_lt_is_Some_2 _ _ Hid) as [x Hx]. exists x. unfold at_index. rewrite Hx.
  split_and!; [done|done|]. by eapply Forall_lookup_1.
Qed.
Lemma definition_name_ok st d : swf st → def_in (szs st) d → ∃ s, get_definition_name d st = Ret s.
Proof.
  intros W Hd. unfold get_definition_name.
  assert (∀ n, n < z_strings (szs st) → ∃ s, expect "IndexSet: index out of bounds" (get_index (s_strings st) n) = Ret s) as Hs.
  { intros n [s Hs]%get_index_lt. exists s. by rewrite Hs. }
  assert (∀ i, i < z_types (szs st) → ∃ s, (n ← type_definition_name (s_graph st) i;
    expect "IndexSet: index out of bounds" (get_index (s_strings st) n)) = Ret s) as Ht.
  { intros i Hi. destruct (read_at st _ i _ (vi_types _ _ (proj1 W)) Hi) as (x & Hx & _ & Hn & _).
    unfold type_definition_name. rewrite Hx. by apply Hs. }
  destruct d as [i|i|i|i|i|i]; cbn [definition_name_id def_in] in *; try (by apply Ht).
  - destruct (read_at st _ i _ (vi_objects _ _ (proj1 W)) Hd) as (x & Hx & _ & Hn & _). rewrite Hx. by apply Ht.
  - destruct (read_at st _ i _ (vi_interfaces _ _ (proj1 W)) Hd) as (x & Hx & _ & Hn & _). rewrite Hx. by apply Ht.
  - destruct (read_at st _ i _ (vi_unions _ _ (proj1 W)) Hd) as (x & Hx & _ & Hn & _). rewrite Hx. by apply Hs.
  - destruct (read_at st _ i _ (vi_input_objects _ _ (proj1 W)) Hd) as (x & Hx & _ & Hn & _). rewrite Hx. by apply Hs.
Qed.
Lemma gok_definition_name st d : def_in (szs st) d → gok st (fread (get_definition_name d)) (λ _ _, True).
Proof. intros Hd. apply g_read. intros W. by destruct (definition_name_ok st d W Hd) as [s ->]. Qed.
Lemma gok_read_field {A} st id (r : FField → A) (Q : State → A → Prop) :
  id < z_fields (szs st) → (∀ f, swf st → field_in (szs st) f → Q st (r f)) →
  gok st (fread (λ st, f ← at_index (fg_fields (s_graph st)) id; Ret (r f))) Q.
Proof.
  intros Hid HQ. apply g_read. intros W.
  destruct (read_at st _ id _ (vi_fields _ _ (proj1 W)) Hid) as (f & -> & _ & Hf). by apply HQ.
Qed.
Lemma gok_read_values st range : range_in (z_values (szs st)) range →
  gok st (fread (λ st, input_values_at (s_graph st) range))
    (λ st' l, length l = range.2 ∧ Forall (input_value_in (szs st')) l).
Proof.
  intros Hr. apply g_read. intros W. unfold input_values_at, slice. unfold range_in in Hr.
  change (z_values (szs st)) with (length (fg_input_value_definitions (s_graph st))) in Hr.
  rewrite (proj2 (Nat.leb_le _ _)), (proj2 (Nat.leb_le _ _)) by lia. cbn [andb].
  split; [rewrite length_take, length_drop; lia|]. apply Forall_take, Forall_drop, (vi_values _ _ (proj1 W)).
Qed.

(** ** Selection sets *)
Lemma gok_attach_argument st field a : P → field < z_fields (szs st) →
  gok st (attach_argument field a) (λ st' r, r.1 < z_values (szs st') ∧ value_in (szs st') r.2).
Proof.
  intros HP Hf. unfold attach_argument. gstep fok_insert_string as n st1 W1 G1 Hn; [apply _|].
  gstep (gok_read_field _ _ _ (λ st' r, range_in (z_values (szs st')) r)) as range st2 W2 G2 Hr; [sizes|by intros f _ (? & ? & ? & ?)|].
  gstep gok_read_values as l st3 W3 G3 Hl; [done|]. destruct Hl as [Hlen Hl].
  gstep (g_lift _ _ (λ _ i, i < length l)) as idx st4 W4 G4 Hidx.
  { unfold position_of. destruct (list_find _ l) as [[i x]|] eqn:E; cbn; [|done]. intros _.
    apply list_find_Some in E as (Hi & _). by apply lookup_lt_Some in Hi. }
  gstep (g_read _ _ (λ _ _, True)) as ty st5 W5 G5 _u.
  { intros _. destruct (v ← at_index _ _; _); done. }
  gstep gok_insert_value as v st6 W6 G6 Hv; [by left|]. apply g_ret. intros _. split; [|done].
  unfold range_in in Hr. sizes.
Qed.
Lemma gok_attach_selection st target s : P ∨ no_arguments s = true → def_in (szs st) target →
  gok st (attach_selection target s) (λ st', selection_in (szs st')).
Proof.
  revert st target. induction s as [name args sub IH|cond sub IH|] using eselection_ind; intros st target Hs Ht;
    cbn [attach_selection]; [| |apply g_err].
  - gstep (g_get _ _ (λ st', opt_lt (z_fields (szs st')))) as o st1 W1 G1 Ho.
    { intros W i. apply (mi_fields _ _ (proj2 W)). }
    destruct o as [field|].
    2: { gstep gok_definition_name as x st2 W2 G2 _u; [eapply def_in_mono; [by apply grown|done]|]. apply g_err. }
    specialize (Ho field eq_refl).
    gstep (gok_read_field _ _ _ (λ st' ty, def_in (szs st') (ft_definition ty))) as ty st2 W2 G2 Hty; [done|by intros f _ (? & ? & ?)|].
    gstep (g_mapM _ _ _ (λ st' r, r.1 < z_values (szs st') ∧ value_in (szs st') r.2)) as vs st3 W3 G3 Hvs.
    { intros a b x G [? ?]. split; [sizes|by eapply value_in_mono; [apply grown|]]. }
    { intros a st3 Ha G3. apply gok_attach_argument; [|sizes]. destruct Hs as [|[Hargs _]%andb_prop]; [done|].
      destruct args; [|done]. by apply elem_of_nil in Ha. }
    gstep (g_mapM _ _ _ (λ st', selection_in (szs st'))) as l st4 W4 G4 Hl.
    { intros a b x G. by apply selection_in_mono, grown. }
    { intros x st4 Hx G4. apply (proj1 (Forall_forall _ _) IH); [done| |eapply def_in_mono; [|exact Hty]; apply grown; by etransitivity].
      eapply or_mono; [|exact Hs]. intros [_ Hsub]%andb_prop. by apply (proj1 (forallb_forall _ _) Hsub), list_elem_of_In. }
    apply g_ret. intros _. constructor; [sizes| |done]. eapply args_in_mono; [by apply grown| |exact Hvs]. sizes.
  - destruct cond as [n|]; [|apply g_err].
    gstep (g_get _ _ (λ st', opt_in (def_in (szs st')))) as o st1 W1 G1 Ho.
    { intros W d. apply (mi_definitions _ _ (proj2 W)). }
    gstep (g_ok_or st1 _ _ (λ st', def_in (szs st'))) as on st2 W2 G2 Hon; [intros d Hd _; by apply Ho|].
    gstep (g_mapM _ _ _ (λ st', selection_in (szs st'))) as l st4 W4 G4 Hl.
    { intros a b x G. by apply selection_in_mono, grown. }
    { intros x st4 Hx G4. apply (proj1 (Forall_forall _ _) IH); [done| |eapply def_in_mono; [|exact Hon]; by apply grown].
      eapply or_mono; [|exact Hs]. intros Hsub. by apply (proj1 (forallb_forall _ _) Hsub), list_elem_of_In. }
    apply g_ret. intros _. constructor; [eapply def_in_mono; [|exact Hon]; by apply grown|done].
Qed.

(** ** Input value sets *)
Lemma subselection_errors_input d sub id : subselection_errors d sub = inr (Some id) → d = FInputObject id.
Proof. destruct d, sub; simpl; congruence. Qed.
Lemma gok_attach_input_value st id s : id < z_input_objects (szs st) → values_named st →
  gok st (attach_input_value_set_rec id s) (λ st', item_in (szs st')).
Proof.
  revert st id. induction s as [name args sub IH|cond sub IH|] using eselection_ind; intros st id Hid Hv;
    cbn [attach_input_value_set_rec]; try apply g_err.
  gstep (g_get _ _ (λ st', opt_lt (z_values (szs st')))) as o st1 W1 G1 Ho; [intros _ i; apply Hv|].
  destruct o as [i|].
  2: { gstep gok_definition_name as x st2 W2 G2 _u; [cbn [def_in]; sizes|]. apply g_err. }
  specialize (Ho i eq_refl). gstep (g_read _ _ (λ st', input_value_in (szs st'))) as v st2 W2 G2 Hiv.
  { intros W. by destruct (read_at st1 _ i _ (vi_values _ _ (proj1 W)) Ho) as (x & -> & _ & Hx). }
  destruct (subselection_errors _ _) as [e|[id'|]] eqn:E; [apply g_err| |].
  - apply subselection_errors_input in E. destruct Hiv as (_ & Hd & _). rewrite E in Hd. cbn [def_in] in Hd.
    gstep (g_mapM _ _ _ (λ st', item_in (szs st'))) as l st3 W3 G3 Hl; [intros a b x G; by apply item_in_mono, grown| |].
    + intros x st3 Hx G3. apply (proj1 (Forall_forall _ _) IH); [done|sizes|].
      eapply values_named_grows; [|exact Hv]. by do 2 (etransitivity; [eassumption|]).
    + apply g_ret. intros _. constructor; [sizes|done].
  - apply g_ret. intros _. constructor; [sizes|done].
Qed.
Lemma argument_position_ok st name l i : Forall (λ v, fiv_name v < z_strings (szs st)) l →
  match argument_position st name i l with
  | Ret o => ∀ j v, o = Some (j, v) → j < i + length l ∧ v ∈ l
  | Panic _ => False
  end.
Proof.
  revert i. induction l as [|x l IH]; intros i Hl; [done|]. inversion Hl as [|? ? Hx Hl']; subst. cbn [argument_position].
  apply get_index_lt in Hx as [y Hy]. rewrite Hy. cbn. destruct (String.eqb y name).
  { intros j v Hj. injection Hj as <- <-. split; [lia|left]. }
  specialize (IH (S i) Hl'). destruct (argument_position st name (S i) l); [|done]. intros j v Hj.
  destruct (IH j v Hj). split; [lia|by right].
Qed.
Lemma gok_attach_argument_value st parent field range s :
  def_in (szs st) parent → field < z_fields (szs st) → range_in (z_values (szs st)) range → values_named st →
  gok st (attach_input_value_to_field_arguments parent field range s) (λ st', item_in (szs st')).
Proof.
  intros Hp Hf Hr Hv. destruct s as [name args sub|cond sub|]; cbn [attach_input_value_to_field_arguments]; try apply g_err.
  gstep (g_read _ _ (λ st' o, ∀ j v, o = Some (j, v) → j < range.2 ∧ input_value_in (szs st') v)) as o st1 W1 G1 Ho.
  { intros W. pose proof (gok_read_values st range Hr W) as Hl. unfold fread in Hl. cbn in Hl.
    destruct (input_values_at (s_graph st) range) as [l|]; [|done]. cbn in Hl |- *. destruct Hl as (_ & _ & Hlen & Hl).
    pose proof (argument_position_ok st name l 0) as Hpos. destruct (argument_position st name 0 l) as [o|].
    - intros j v Hj. destruct (Hpos ltac:(eapply Forall_impl; [exact Hl|]; by intros v' (? & _)) j v Hj) as [? Hin].
      split; [simpl in *; lia|]. by apply (proj1 (Forall_forall _ _) Hl).
    - destruct Hpos. eapply Forall_impl; [exact Hl|]. by intros v' (? & _). }
  destruct o as [[i v]|].
  2: { gstep gok_definition_name as x st2 W2 G2 _u; [eapply def_in_mono; [by apply grown|done]|].
       gstep (g_read _ _ (λ _ _, True)) as y st3 W3 G3 _v; [|apply g_err]. intros W.
       destruct (read_at st2 _ field _ (vi_fields _ _ (proj1 W))) as (f & -> & _ & Hn & _).
       { change (length (fg_fields (s_graph st2))) with (z_fields (szs st2)). sizes. }
       apply get_index_lt in Hn as [z Hz]. cbn. unfold unwrap. by rewrite Hz. }
  destruct (Ho i v eq_refl) as [Hi (_ & Hd & _)]. unfold range_in in Hr.
  destruct (subselection_errors _ _) as [e|[id|]] eqn:E; [apply g_err| |].
  - apply subselection_errors_input in E. rewrite E in Hd. cbn [def_in] in Hd.
    gstep (g_mapM _ _ _ (λ st', item_in (szs st'))) as l st3 W3 G3 Hl; [intros a b x G; by apply item_in_mono, grown| |].
    + intros x st3 Hx G3. apply gok_attach_input_value; [sizes|]. eapply values_named_grows; [|exact Hv]. by etransitivity.
    + apply g_ret. intros _. constructor; [sizes|done].
  - apply g_ret. intros _. constructor; [sizes|done].
Qed.

(** ** Strings of selections *)
Context (parse_executable : string → string + list (list ESelection)) (document : list SDefinition).
Lemma gok_parsed {A} st s (m : list (list ESelection) → F A) (Q : State → A → Prop) :
  (∀ ops, parse_executable ("{ " +:+ s +:+ " }") = inr ops → gok st (m ops) Q) →
  gok st (parse_selection_set parse_executable s ≫= m) Q.
Proof.
  intros Hm. unfold parse_selection_set. destruct (parse_executable _) as [e|ops]; [by intros W|].
  exact (Hm ops eq_refl).
Qed.
Lemma gok_first_operation {A} st ops (m : list ESelection → F A) (Q : State → A → Prop) :
  P ∨ ops ≠ [] → (∀ op rest, ops = op :: rest → gok st (m op) Q) → gok st (first_operation ops ≫= m) Q.
Proof.
  intros Hops Hm. destruct ops as [|op rest]; [|exact (Hm op rest eq_refl)]. intros W. cbn. by destruct Hops.
Qed.
Lemma selection_ok_nonempty s ops : P ∨ selection_ok parse_executable s = true →
  parse_executable ("{ " +:+ s +:+ " }") = inr ops → P ∨ ops ≠ [].
Proof. intros Hs E. eapply or_mono; [|exact Hs]. unfold selection_ok. rewrite E. by destruct ops. Qed.
Lemma gok_attach_selection_set st target s :
  P ∨ selection_ok parse_executable s = true → def_in (szs st) target →
  gok st (attach_selection_set parse_executable target s) (λ st', Forall (selection_in (szs st'))).
Proof.
  intros Hs Ht. apply gok_parsed. intros ops E. apply gok_first_operation; [by eapply selection_ok_nonempty|]. intros op rest ->.
  apply g_mapM; [intros a b x G; by apply selection_in_mono, grown|]. intros x st1 Hx G1.
  apply gok_attach_selection; [|eapply def_in_mono; [by apply grown|done]]. eapply or_mono; [|exact Hs]. unfold selection_ok.
  rewrite E. intros Hp. by apply (proj1 (forallb_forall _ _) Hp), list_elem_of_In.
Qed.
Lemma gok_attach_arguments st parent field s :
  P ∨ selection_ok parse_executable s = true → def_in (szs st) parent → field < z_fields (szs st) → values_named st →
  gok st (attach_input_value_set_to_field_arguments parse_executable parent field s) (λ st', Forall (item_in (szs st'))).
Proof.
  intros Hs Hp Hf Hv. apply gok_parsed. intros ops E. apply gok_first_operation; [by eapply selection_ok_nonempty|]. intros op rest ->.
  gstep (gok_read_field _ _ _ (λ st' r, range_in (z_values (szs st')) r)) as range st1 W1 G1 Hr; [done|by intros f _ (? & ? & ? & ?)|].
  apply g_mapM; [intros a b x G; by apply item_in_mono, grown|]. intros x st2 Hx G2.
  apply gok_attach_argument_value; [eapply def_in_mono; [|exact Hp]; apply grown; by etransitivity|sizes| |].
  - eapply range_in_mono; [|exact Hr]. sizes.
  - eapply values_named_grows; [|exact Hv]. by etransitivity.
Qed.

Lemma string_selection_ok d a s : P ∨ selections_ok parse_executable d = true →
  a ∈ ["provides"; "requires"; "key"; "fields"; "node"; "arguments"] → string_argument d a = Some s →
  P ∨ selection_ok parse_executable s = true.
Proof.
  intros Hd Ha Hs. eapply or_mono; [|exact Hd]. intros Hp.
  apply list_elem_of_In, (proj1 (forallb_forall _ _) Hp) in Ha. by rewrite Hs in Ha.
Qed.
Lemma gok_string_selection st d a target :
  P ∨ selections_ok parse_executable d = true → a ∈ ["provides"; "requires"; "key"; "fields"; "node"; "arguments"] →
  def_in (szs st) target →
  gok st (fopt (attach_selection_set parse_executable target) (string_argument d a))
    (λ st', opt_in (Forall (selection_in (szs st')))).
Proof. intros Hd Ha Ht. apply g_opt. intros s Hs. apply gok_attach_selection_set; [by eapply string_selection_ok|done]. Qed.

(** ** [@join__field] *)
Lemma gok_type_subgraphs st l : knows document st → P ∨ forallb (join_type_ok document) (join_types l) = true →
  gok st (type_subgraphs l) (λ st', Forall (λ i, i < z_subgraphs (szs st'))).
Proof.
  intros K Hl. unfold type_subgraphs. case_match; [by apply g_ret|]. apply (gok_subgraphs_named _ document); [done|].
  eapply or_mono; [|exact Hl]. intros Hp. apply forallb_forall. intros g (d & Hd & Hg)%list_elem_of_In%list_elem_of_omap.
  apply list_elem_of_In, (proj1 (forallb_forall _ _) Hp) in Hd. unfold join_type_ok in Hd. by rewrite Hg in Hd.
Qed.
Lemma gok_field_selection st subgraph target d a :
  P ∨ selections_ok parse_executable d = true → a ∈ ["provides"; "requires"; "key"; "fields"; "node"; "arguments"] →
  subgraph < z_subgraphs (szs st) → def_in (szs st) target →
  gok st (field_selection parse_executable subgraph target d a) (λ st', opt_in (field_selection_in (szs st'))).
Proof.
  intros Hd Ha Hs Ht. apply g_opt. intros s Es.
  gstep gok_attach_selection_set as l st1 W1 G1 Hl; [by eapply string_selection_ok|done|]. apply g_ret. intros _.
  split; cbn [fsel_subgraph_id fsel_fields]; [sizes|done].
Qed.
Definition join_field_in (st : State) (jf : JoinField) : Prop :=
  Forall (λ s, s < z_subgraphs (szs st)) (jf_resolvable_in jf) ∧ Forall (field_selection_in (szs st)) (jf_provides jf) ∧
  Forall (field_selection_in (szs st)) (jf_requires jf).
Lemma join_field_in_grows st st' jf : grows st st' → join_field_in st jf → join_field_in st' jf.
Proof.
  intros G (Hr & Hp & Hq). split_and!.
  - eapply lt_all_mono; [|exact Hr]. sizes.
  - eapply Forall_impl; [exact Hp|]. intros x. by apply field_selection_in_mono, grown.
  - eapply Forall_impl; [exact Hq|]. intros x. by apply field_selection_in_mono, grown.
Qed.
Lemma option_list_in {A} (Q : A → Prop) l o : Forall Q l → opt_in Q o → Forall Q (l ++ option_list o).
Proof. intros Hl Ho. apply Forall_app. split; [done|]. destruct o; constructor; [by apply Ho|done]. Qed.
Lemma gok_join_field st parent ty acc d :
  P ∨ selections_ok parse_executable d = true → def_in (szs st) parent → def_in (szs st) (ft_definition ty) →
  join_field_in st acc → gok st (ingest_join_field parse_executable parent ty acc d) join_field_in.
Proof.
  intros Hd Hp Hty Hacc. unfold ingest_join_field. case_match; [by apply g_ret|].
  gstep (g_get _ _ (λ st', opt_lt (z_subgraphs (szs st')))) as o st1 W1 G1 Ho.
  { intros W i. destruct (graph_argument d) as [g|]; [apply (mi_graphs _ _ (proj2 W))|done]. }
  destruct o as [s|]; [|apply g_ret; intros _; by eapply join_field_in_grows]. specialize (Ho s eq_refl).
  gstep gok_field_selection as pr st2 W2 G2 Hpr; [done|set_solver|done|eapply def_in_mono; [by apply grown|done]|].
  gstep gok_field_selection as rq st3 W3 G3 Hrq; [done|set_solver|sizes| |].
  { eapply def_in_mono; [|exact Hp]. apply grown. by etransitivity. }
  assert (grows st st3) as G03 by (by do 2 (etransitivity; [eassumption|])).
  apply g_ret. intros _. destruct (join_field_in_grows _ _ _ G03 Hacc) as (A1 & A2 & A3).
  split_and!; cbn [jf_resolvable_in jf_provides jf_requires].
  - case_match; [done|]. apply Forall_app. split; [done|]. constructor; [sizes|done].
  - apply option_list_in; [done|]. intros x Hx. eapply (field_selection_in_mono (a := szs st2)); [by apply grown|by apply Hpr].
  - by apply option_list_in.
Qed.
Lemma gok_field_of st parent f : is_Some (s_selection_map st !! (parent, sfd_name f)) →
  gok st (field_of parent f) (λ st' r, r.1 < z_fields (szs st') ∧ def_in (szs st') (ft_definition r.2)).
Proof.
  intros [id Hid]. unfold field_of. gstep (g_read _ _ (λ st' i, st' = st ∧ i = id)) as i st1 W1 G1 Hi.
  { intros _. unfold expect. by rewrite Hid. }
  destruct Hi as [-> ->]. pose proof (mi_fields _ _ (proj2 W1) _ _ Hid) as Hlt.
  gstep (gok_read_field _ _ _ (λ st' ty, def_in (szs st') (ft_definition ty))) as ty st2 W2 G2 Hty; [done|by intros f' _ (? & ? & ?)|].
  apply g_ret. intros _. split; cbn [fst snd]; [sizes|done].
Qed.
Lemma field_directives_ok f d : P ∨ sdl_field_ok parse_executable document f = true → d ∈ sfd_directives f →
  (P ∨ selections_ok parse_executable d = true) ∧ (P ∨ plain_directive d = true).
Proof.
  intros [HP|[[_ [Hp Hs]%andb_prop]%andb_prop _]%andb_prop] Hd; [by split; left|]. apply list_elem_of_In in Hd.
  split; right; [by apply (proj1 (forallb_forall _ _) Hs)|by apply (proj1 (forallb_forall _ _) Hp)].
Qed.
Lemma gok_join_fields st parent ids f :
  is_Some (s_selection_map st !! (parent, sfd_name f)) → P ∨ sdl_field_ok parse_executable document f = true →
  def_in (szs st) parent → Forall (λ i, i < z_subgraphs (szs st)) ids →
  gok st (ingest_join_fields parse_executable parent ids f) (λ _ _, True).
Proof.
  intros Hsel Hf Hp Hids. unfold ingest_join_fields. gstep gok_field_of as r st1 W1 G1 Hr; [done|]. destruct Hr as [Hr Hty].
  gstep (g_fold _ _ _ _ join_field_in) as jf st2 W2 G2 Hjf; [done| |].
  - intros acc d st2 [_ Hd]%list_elem_of_filter G2 Hacc.
    apply gok_join_field; [by eapply field_directives_ok| |eapply def_in_mono; [by apply grown|done]|done].
    eapply def_in_mono; [|exact Hp]. apply grown. by etransitivity.
  - apply g_update_field; [sizes|]. intros x _ (? & ? & ? & ? & ? & ? & ? & ? & ?). destruct Hjf as (J1 & J2 & J3).
    split_and!; try done. cbn [ff_resolvable_in set_join_field]. destruct (jf_resolvable_in jf); [|done].
    eapply lt_all_mono; [|exact Hids]. sizes.
Qed.
Lemma gok_join_field_directive st parent l fields :
  knows document st → registered parent fields st → def_in (szs st) parent →
  P ∨ forallb (join_type_ok document) (join_types l) = true →
  P ∨ forallb (sdl_field_ok parse_executable document) fields = true →
  gok st (ingest_join_field_directive parse_executable parent l fields) (λ _ _, True).
Proof.
  intros K Hreg Hp Hl Hf. unfold ingest_join_field_directive. gstep gok_type_subgraphs as ids st1 W1 G1 Hids; [done|done|].
  apply g_each_. intros f st2 Hin G2. assert (grows st st2) as G02 by (by etransitivity). apply gok_join_fields.
  - apply (gr_selections _ _ G02). by apply (proj1 (Forall_forall _ _) Hreg).
  - eapply or_mono; [|exact Hf]. intros Hall. by apply (proj1 (forallb_forall _ _) Hall), list_elem_of_In.
  - eapply def_in_mono; [by apply grown|done].
  - eapply lt_all_mono; [|exact Hids]. sizes.
Qed.

(** ** [@authorized] and [@join__type] *)
Lemma gok_metadata st d : P ∨ plain_directive d = true → gok st (metadata_argument d) (λ st', opt_in (value_in (szs st'))).
Proof.
  intros Hd. apply g_opt. intros v Hv. apply gok_insert_value. eapply or_mono; [|exact Hd]. intros Hp. unfold get_argument in Hv.
  destruct (find _ _) as [[n v']|] eqn:E; [|done]. injection Hv as <-. apply find_some in E as [Hin _].
  by apply (proj1 (forallb_forall _ _) Hp (n, v')).
Qed.
Lemma opt_in_grows {A} (Q : Sizes → A → Prop) st st' o :
  persists Q → grows st st' → opt_in (Q (szs st)) o → opt_in (Q (szs st')) o.
Proof. intros HQ G. apply opt_in_mono. intros x. apply HQ, gr_sizes, G. Qed.
Lemma persists_selections : persists (λ sz, Forall (selection_in sz)).
Proof. intros a b x L. by apply selections_in_mono. Qed.
Lemma persists_items : persists (λ sz, Forall (item_in sz)).
Proof. intros a b x L. by apply items_in_mono. Qed.
Lemma gok_authorized st parent f d :
  P ∨ selections_ok parse_executable d = true → P ∨ plain_directive d = true → values_named st →
  def_in (szs st) parent → f.1 < z_fields (szs st) → def_in (szs st) (ft_definition f.2) →
  gok st (ingest_authorized parse_executable parent f d) (λ _ _, True).
Proof.
  intros Hd Hplain Hv Hp Hf Hty. unfold ingest_authorized.
  gstep g_opt as args st1 W1 G1 Hargs.
  { intros s Hs. apply gok_attach_arguments; [|done|done|done]. eapply string_selection_ok; [done| |done]. set_solver. }
  gstep gok_string_selection as fields st2 W2 G2 Hfields; [done|set_solver|eapply def_in_mono; [by apply grown|done]|].
  gstep gok_string_selection as node st3 W3 G3 Hnode; [done|set_solver| |].
  { eapply def_in_mono; [|exact Hty]. apply grown. by etransitivity. }
  gstep gok_metadata as md st4 W4 G4 Hmd; [done|].
  gstep g_push_authorized as id st5 W5 G5 Hid.
  { split_and!; cbn [fa_fields fa_node fa_arguments fa_metadata]; [| | |done].
    - eapply (opt_in_grows _ _ _ _ persists_selections); [|exact Hfields]. by etransitivity.
    - by eapply (opt_in_grows _ _ _ _ persists_selections).
    - eapply (opt_in_grows _ _ _ _ persists_items); [|exact Hargs]. by do 2 (etransitivity; [eassumption|]). }
  gstep g_push_field_authorized as u st6 W6 G6 _u; [split; sizes|]. by apply g_ret.
Qed.
Lemma gok_authorized_directive st parent fields :
  registered parent fields st → def_in (szs st) parent → values_named st →
  P ∨ forallb (sdl_field_ok parse_executable document) fields = true →
  gok st (ingest_authorized_directive parse_executable parent fields) (λ _ _, True).
Proof.
  intros Hreg Hp Hv Hf. apply g_each_. intros f st1 Hin G1.
  assert (P ∨ sdl_field_ok parse_executable document f = true) as Hfok.
  { eapply or_mono; [|exact Hf]. intros Hall. by apply (proj1 (forallb_forall _ _) Hall), list_elem_of_In. }
  gstep gok_field_of as r st2 W2 G2 Hr.
  { apply (gr_selections _ _ G1). by apply (proj1 (Forall_forall _ _) Hreg). }
  destruct Hr as [Hr Hty]. apply g_each_. intros d st3 [_ Hd]%list_elem_of_filter G3.
  destruct (field_directives_ok f d Hfok Hd) as [Hs Hpl].
  assert (grows st st3) as G03 by (by do 2 (etransitivity; [eassumption|])).
  apply gok_authorized; [done|done|by eapply values_named_grows|eapply def_in_mono; [by apply grown|done]|sizes|].
  eapply def_in_mono; [|exact Hty]. by apply grown.
Qed.
Lemma gok_type_authorized st d authorized :
  P ∨ selections_ok parse_executable authorized = true → P ∨ plain_directive authorized = true → def_in (szs st) d →
  gok st (ingest_type_authorized parse_executable d authorized) (λ _ _, True).
Proof.
  intros Hs Hpl Hd. unfold ingest_type_authorized.
  gstep gok_string_selection as fields st1 W1 G1 Hfields; [done|set_solver|done|].
  gstep gok_metadata as md st2 W2 G2 Hmd; [done|].
  gstep g_push_authorized as id st3 W3 G3 Hid.
  { split_and!; cbn [fa_fields fa_node fa_arguments fa_metadata]; [|done|done|done].
    by eapply (opt_in_grows _ _ _ _ persists_selections). }
  destruct d; try (by apply g_ret); cbn [def_in] in Hd.
  - gstep g_push_object_authorized as u st4 W4 G4 _u; [split; sizes|by apply g_ret].
  - gstep g_push_interface_authorized as u st4 W4 G4 _u; [split; sizes|by apply g_ret].
Qed.
Lemma gok_if_defined st t f :
  (∀ d st1, grows st st1 → def_in (szs st1) d → gok st1 (f d) (λ _ _, True)) → gok st (if_defined t f) (λ _ _, True).
Proof.
  intros Hf. unfold if_defined. gstep (g_get _ _ (λ st', opt_in (def_in (szs st')))) as o st1 W1 G1 Ho.
  { intros W d. apply (mi_definitions _ _ (proj2 W)). }
  destruct o as [d|]; [|by apply g_ret]. apply Hf; [done|by apply Ho].
Qed.
Lemma type_in_all t : t ∈ type_definitions document → t ∈ all_types document.
Proof.
  intros (d & Hd & Ht)%list_elem_of_omap. apply list_elem_of_omap. exists d. split; [done|]. destruct d; try done.
Qed.
Lemma type_directives_ok t d : P ∨ sdl_ok parse_executable document = true → t ∈ all_types document → d ∈ st_directives t →
  (P ∨ selections_ok parse_executable d = true) ∧ (P ∨ plain_directive d = true).
Proof.
  intros [HP|[[Hall _]%andb_prop _]%andb_prop] Ht Hd; [by split; left|]. apply list_elem_of_In in Ht, Hd.
  apply (proj1 (forallb_forall _ _) Hall), andb_prop in Ht as [[Hp Hs]%andb_prop _].
  split; right; [by apply (proj1 (forallb_forall _ _) Hs)|by apply (proj1 (forallb_forall _ _) Hp)].
Qed.
Lemma gok_authorized_directives st : P ∨ sdl_ok parse_executable document = true →
  gok st (ingest_authorized_directives parse_executable document) (λ _ _, True).
Proof.
  intros Hdoc. apply g_each_. intros t st1 Ht G1. destruct (find _ _) as [d|] eqn:E; [|by apply g_ret].
  apply find_some in E as [Hin%list_elem_of_In _].
  destruct (type_directives_ok t d Hdoc (type_in_all t Ht) Hin) as [Hs Hp].
  apply gok_if_defined. intros x st2 G2 Hx. by apply gok_type_authorized.
Qed.
Lemma gok_entity_key st d join_type :
  knows document st → P ∨ join_type_ok document join_type = true → P ∨ selections_ok parse_executable join_type = true →
  def_in (szs st) d → gok st (ingest_entity_key parse_executable d join_type) (λ _ _, True).
Proof.
  intros K Hj Hs Hd. unfold ingest_entity_key.
  gstep (g_weaken _ _ (λ st' o, opt_lt (z_subgraphs (szs st')) o ∧ (P ∨ is_Some o))) as g st1 W1 G1 Hg.
  { unfold join_type_ok in Hj. destruct (graph_argument join_type) as [g|]; cbn [fopt].
    - gstep (gok_subgraph_named _ document) as s st1 W1 G1 Hsub; [done|done|]. apply g_ret. intros _. split; [|right; by exists s].
      by intros i [= <-].
    - apply g_ret. intros _. split; [done|]. destruct Hj as [HP|[=]]. by left. }
  { intros st1 o _ _ Ho. exact Ho. }
  destruct Hg as [Hg Hsome]. gstep (g_lift _ _ (λ st' i, i < z_subgraphs (szs st'))) as s st2 W2 G2 Hsub.
  { destruct g as [g|]; cbn; [intros _; by apply Hg|]. by destruct Hsome as [|[? [=]]]. }
  gstep gok_string_selection as fields st3 W3 G3 Hfields; [done|set_solver| |].
  { eapply def_in_mono; [|exact Hd]. apply grown. by etransitivity. }
  assert (∀ b1 b2, key_in (szs st3) (MkFKey s (default [] fields) b1 b2)) as Hkey.
  { intros b1 b2. split; cbn [fk_subgraph_id fk_fields]; [sizes|]. destruct fields; [by apply Hfields|done]. }
  destruct d; try (by apply g_ret); cbn [def_in] in Hd.
  - apply g_update_object; [sizes|]. intros x _ (? & ? & ? & ? & ?). split_and!; try done. apply Forall_app. by split; [|constructor].
  - apply g_update_interface; [sizes|]. intros x _ (? & ? & ? & ? & ?). split_and!; try done. apply Forall_app. by split; [|constructor].
Qed.
Lemma join_types_ok t : P ∨ sdl_ok parse_executable document = true → t ∈ type_definitions document →
  P ∨ forallb (join_type_ok document) (join_types (st_directives t)) = true.
Proof.
  intros Hdoc Ht. eapply or_mono; [|exact Hdoc]. intros [[_ Hall]%andb_prop _]%andb_prop.
  by apply list_elem_of_In, (proj1 (forallb_forall _ _) Hall) in Ht.
Qed.
Lemma gok_entity_keys st : knows document st → P ∨ sdl_ok parse_executable document = true →
  gok st (ingest_entity_keys parse_executable document) (λ _ _, True).
Proof.
  intros K Hdoc. apply g_each_. intros t st1 Ht G1. pose proof (join_types_ok t Hdoc Ht) as Hj.
  apply gok_if_defined. intros d st2 G2 Hd. apply g_each_. intros j st3 Hin G3.
  assert (grows st st3) as G03 by (by do 2 (etransitivity; [eassumption|])).
  apply gok_entity_key; [by eapply knows_grows| | |eapply def_in_mono; [|exact Hd]; by apply grown].
  - eapply or_mono; [|exact Hj]. intros Hp. by apply (proj1 (forallb_forall _ _) Hp), list_elem_of_In.
  - apply list_elem_of_filter in Hin as [_ Hin]. by eapply type_directives_ok; [| by apply type_in_all|].
Qed.
Lemma gok_after_graph st :
  knows document st → values_named st → Forall (type_registered st) (all_types document) →
  P ∨ sdl_ok parse_executable document = true →
  gok st (ingest_field_directives_after_graph parse_executable document) (λ _ _, True).
Proof.
  intros K Hv Hreg Hdoc.
  assert (∀ st1 t h fields, grows st st1 → SDType t ∈ document → st_header t = h →
    (∃ d, definition_names st !! sh_name h = Some d ∧ registered d fields st) →
    P ∨ forallb (sdl_field_ok parse_executable document) fields = true →
    gok st1 (parent_id ← definition_named (sh_name h);
             _ ← ingest_join_field_directive parse_executable parent_id (sh_directives h) fields;
             ingest_authorized_directive parse_executable parent_id fields) (λ _ _, True)) as Hone.
  { intros st1 t h fields G1 Ht Eh (d & Hd & Hr) Hf. rewrite <-(gr_definitions _ _ G1) in Hd.
    gstep gok_definition_named as d' st2 W2 G2 Hd'; [right; by exists d|]. destruct Hd' as [Hin Hd'].
    rewrite (gr_definitions _ _ G2), Hd in Hd'. injection Hd' as <-. assert (grows st st2) as G02 by (by etransitivity).
    gstep gok_join_field_directive as u st3 W3 G3 _u;
      [by eapply knows_grows|by eapply registered_grows|done| |done|].
    { rewrite <-Eh. apply join_types_ok; [done|]. apply list_elem_of_omap. by exists (SDType t). }
    assert (grows st st3) as G03 by (by etransitivity).
    apply gok_authorized_directive; [by eapply registered_grows|eapply def_in_mono; [|exact Hin]; by apply grown|by eapply values_named_grows|done]. }
  apply g_each_. intros d st1 Hd G1.
  assert (∀ t, d = SDType t → type_registered st t ∧ (P ∨ sdl_type_ok parse_executable document t = true)) as Ht.
  { intros t ->. assert (t ∈ all_types document) as Hin by (apply list_elem_of_omap; by exists (SDType t)).
    split; [by apply (proj1 (Forall_forall _ _) Hreg)|]. eapply or_mono; [|exact Hdoc]. intros [[Hall _]%andb_prop _]%andb_prop.
    by apply (proj1 (forallb_forall _ _) Hall), list_elem_of_In. }
  destruct d as [s|s|t|t|x]; try (by apply g_ret). destruct (Ht t eq_refl) as [Hr Hok]. clear Ht.
  destruct t as [h|h impl fields|h impl fields|h ms|h vs|h fs]; try (by apply g_ret).
  - eapply Hone; [done|exact Hd|done|exact Hr|]. eapply or_mono; [|exact Hok]. by intros [_ [_ ?]%andb_prop]%andb_prop.
  - eapply Hone; [done|exact Hd|done|exact Hr|]. eapply or_mono; [|exact Hok]. by intros [_ [_ ?]%andb_prop]%andb_prop.
Qed.
Lemma gok_selection_sets st :
  knows document st → values_named st → Forall (type_registered st) (all_types document) →
  P ∨ sdl_ok parse_executable document = true →
  gok st (ingest_selection_sets parse_executable document) (λ _ _, True).
Proof.
  intros K Hv Hreg Hdoc. gstep gok_after_graph as u1 st1 W1 G1 _u1; [done|done|done|done|].
  gstep gok_authorized_directives as u2 st2 W2 G2 _u2; [done|]. apply gok_entity_keys; [|done].
  eapply knows_grows; [|exact K]. by etransitivity.
Qed.
End selections.

(** ** Definitions *)
Section growth.
Context `{IndexSetLaws} (P : Prop) (O : string → FederatedDefinition → Prop) (fixed : Prop).

(** The growth of the state while the definitions are read; a new name stands
    for what [O] allows, and the name of the query type may be [fixed]. *)
Record grows_defs (a b : State) : Prop := {
  gd_sizes : sz_le (szs a) (szs b);
  gd_values : input_values_map b = input_values_map a;
  gd_definitions : ∀ n, is_Some (definition_names a !! n) → is_Some (definition_names b !! n);
  gd_graphs : ∀ n, is_Some (graph_sdl_names a !! n) → is_Some (graph_sdl_names b !! n);
  gd_query : fixed → query_type_name b = query_type_name a;
  gd_origin : ∀ n d, definition_names b !! n = Some d → definition_names a !! n = Some d ∨ O n d;
}.
Global Instance grows_defs_preorder : PreOrder grows_defs.
Proof.
  split; [by intros a; split; auto|]. intros a b c [L1 V1 D1 G1 Q1 O1] [L2 V2 D2 G2 Q2 O2].
  split; [by etransitivity|congruence|auto|auto| |].
  { intros Hf. by rewrite (Q2 Hf), (Q1 Hf). }
  intros n d [Hd|]%O2; [by apply O1|auto].
Qed.
Global Instance grows_defs_includes : Includes grows_defs.
Proof. intros a b [L D G Q V S]. split; try done; rewrite ?D, ?G; auto. Qed.
Abbreviation dok := (fok P grows_defs).

Lemma dok_name_definition st name d : def_in (szs st) d → O name d →
  dok st (name_definition name d) (λ st' _,
    definition_names st' !! name = Some d ∧ query_type_name st' = query_type_name st ∧ szs st' = szs st).
Proof.
  intros Hd Ho. apply fok_modify. intros [V [M1 M2 M3 M4]]. split_and!.
  - split; [done|]. split; try done. by apply map_Forall_insert_2.
  - split; try done; cbn; intros n.
    + destruct (decide (name = n)) as [->|]; [rewrite lookup_insert_eq|rewrite lookup_insert_ne by done]; done.
    + intros d' [[<- <-]|[_ ?]]%lookup_insert_Some; [by right|by left].
  - cbn. by rewrite lookup_insert_eq.
  - done.
  - done.
Qed.
Lemma dok_named st name d : def_in (szs st) d → O name d →
  dok st (name_definition name d) (λ st' _, is_Some (definition_names st' !! name)).
Proof. intros Hd Ho. eapply fok_weaken; [by apply dok_name_definition|]. intros st' u _ _ [Hn _]. by exists d. Qed.
Lemma dok_name_subgraph st name id : id < z_subgraphs (szs st) →
  dok st (name_subgraph name id) (λ st' _, is_Some (graph_sdl_names st' !! name)).
Proof.
  intros Hid. apply fok_modify. intros [V [M1 M2 M3 M4]]. split_and!.
  - split; [done|]. split; try done. by apply map_Forall_insert_2.
  - split; try done; cbn; [intros n|auto].
    destruct (decide (name = n)) as [->|]; [rewrite lookup_insert_eq|rewrite lookup_insert_ne by done]; done.
  - cbn. by rewrite lookup_insert_eq.
Qed.
Lemma dok_name_enum_value st k id : id < z_enum_values (szs st) → dok st (name_enum_value k id) (λ _ _, True).
Proof.
  intros Hid. apply fok_modify. intros [V [M1 M2 M3 M4]]. split_and!; [|by apply grows_R|done].
  split; [done|]. split; try done. by apply map_Forall_insert_2.
Qed.
Lemma dok_set_roots st q m s : ~ fixed → dok st (set_roots q m s) (λ st' _, query_type_name st' = q (query_type_name st) ∧ szs st' = szs st).
Proof. intros Hf. apply fok_modify. intros [V M]. split_and!; [|by split; auto|done|done]. split; [done|]. by destruct M. Qed.
Lemma dsub {A} st (m : F A) Q : fok P grows st m Q → dok st m Q.
Proof. apply fok_sub, grows_R. Qed.
Lemma knows_grows_defs document st st' : grows_defs st st' → knows document st → knows document st'.
Proof. intros [_ _ D G _ _] [K1 K2]. split; auto. Qed.
End growth.

Section definitions.
Context `{IndexSetLaws} (P : Prop) (parse_executable : string → string + list (list ESelection)) (document : list SDefinition).

(** What a name may stand for. *)
Definition origin (name : string) (d : FederatedDefinition) : Prop :=
  name ∈ builtin_names ∨
  ∃ t, t ∈ declared_types document ∧ st_name t = name ∧ (is_object t = true → ∃ id, d = FObject id).
Abbreviation grows_defs := (grows_defs origin True).
Abbreviation dok := (fok P grows_defs).
Abbreviation d_ret := (fok_ret _ grows_defs).
Abbreviation d_bind := (fok_bind _ grows_defs).
Abbreviation d_weaken := (fok_weaken _ grows_defs).
Tactic Notation "dstep" uconstr(l) "as" ident(x) ident(st) ident(W) ident(G) ident(Hx) :=
  eapply d_bind; [eapply l|intros x st W G Hx; cbn beta in Hx].
Ltac dsizes :=
  repeat match goal with G : grows_defs ?a ?b |- _ => destruct (gd_sizes _ _ _ _ G); clear G end; cbn beta in *; cbn [fst snd]; lia.
Ltac dgrown := cbn beta in *; first [eapply opt_lt_mono | eapply range_in_mono]; [|eassumption]; dsizes.

Lemma dok_join_graph_value st v : dok st (ingest_join_graph_value v) (λ st' _, is_Some (graph_sdl_names st' !! sev_value v)).
Proof.
  unfold ingest_join_graph_value.
  assert (∀ st d a, dok st (join_graph_argument d a) (λ _ _, True)) as Harg.
  { intros st' d a. unfold join_graph_argument. repeat case_match; first [apply fok_err | by apply d_ret]. }
  dstep (fok_ok_or _ grows_defs _ _ _ (λ _ _, True)) as d st1 W1 G1 _1; [done|].
  dstep Harg as n st2 W2 G2 _2. dstep Harg as u st3 W3 G3 _3.
  dstep (fok_insert_string _ grows_defs) as n' st4 W4 G4 H4. dstep (fok_insert_string _ grows_defs) as u' st5 W5 G5 H5.
  dstep (fok_push_subgraph _ grows_defs) as id st6 W6 G6 H6; [split; cbn [fs_name fs_url]; dsizes|].
  by apply dok_name_subgraph.
Qed.
Lemma dok_enum_value st t v : t < z_types (szs st) → P ∨ plain_directives (sev_directives v) = true →
  dok st (ingest_enum_value t v) (λ _ _, True).
Proof.
  intros Ht Hv. unfold ingest_enum_value. dstep dsub as cd st1 W1 G1 H1; [by apply gok_composed_directives|].
  dstep dsub as desc st2 W2 G2 H2; [by apply gok_opt_string|]. dstep (fok_insert_string _ grows_defs) as n st3 W3 G3 H3.
  dstep (fok_push_enum_value _ grows_defs) as id st4 W4 G4 H4; [|by apply dok_name_enum_value].
  split_and!; cbn [ev_enum_id ev_value ev_composed_directives ev_description]; [dsizes|done|dgrown|dgrown].
Qed.
Lemma dok_type st t name desc cd :
  t ∈ declared_types document → name < z_strings (szs st) → opt_lt (z_strings (szs st)) desc →
  range_in (z_directives (szs st)) cd → P ∨ sdl_type_ok parse_executable document t = true →
  dok st (ingest_type t name desc cd) (λ st' _, is_Some (definition_names st' !! st_name t)).
Proof.
  intros Ht Hn Hdesc Hcd Hok. unfold ingest_type.
  dstep (fok_push_type _ grows_defs) as id st1 W1 G1 Hid; [by split_and!|].
  assert (∀ d, (is_object t = true → ∃ i, d = FObject i) → origin (st_name t) d) as Ho by (intros d Hd; right; by exists t).
  destruct t as [h|h impl fields|h impl fields|h members|h values|h fields].
  - by apply dok_named; [|apply Ho].
  - dstep (fok_push_object _ grows_defs) as i st2 W2 G2 Hi; [split_and!; try done; unfold fields_in; simpl; lia|].
    apply dok_named; [apply Hi|]. apply Ho. by exists i.
  - dstep (fok_push_interface _ grows_defs) as i st2 W2 G2 Hi; [split_and!; try done; unfold fields_in; simpl; lia|].
    by apply dok_named; [|apply Ho].
  - dstep (fok_push_union _ grows_defs) as i st2 W2 G2 Hi.
    { split_and!; cbn [fu_name fu_members fu_join_members fu_composed_directives fu_description]; [dsizes|done| |dgrown|dgrown].
      intros s o []%not_elem_of_empty. }
    by apply dok_named; [|apply Ho].
  - dstep dok_named as u st2 W2 G2 H2; [done|by apply Ho|].
    eapply d_weaken; [apply fok_each_; [apply _|]|intros st3 v W3 G3 _; by apply (gd_definitions _ _ _ _ G3)].
    intros v st3 Hv G3. apply dok_enum_value; [dsizes|]. eapply or_mono; [|exact Hok]. intros [_ Hp]%andb_prop.
    by apply list_elem_of_In, (proj1 (forallb_forall _ _) Hp) in Hv.
  - dstep (fok_push_input_object _ grows_defs) as i st2 W2 G2 Hi.
    { split_and!; cbn [io_name io_fields io_composed_directives io_description]; [dsizes| |dgrown|dgrown].
      unfold range_in. simpl. lia. }
    by apply dok_named; [|apply Ho].
Qed.
(** What is known after a definition. *)
Definition defined (st : State) (d : SDefinition) : Prop :=
  ∀ t, typedef_of d = Some t →
    (is_join_graph t = false → is_Some (definition_names st !! st_name t)) ∧
    (∀ v, v ∈ graph_values t → is_Some (graph_sdl_names st !! sev_value v)).
Lemma dok_definition st d : d ∈ document → P ∨ sdl_ok parse_executable document = true →
  dok st (ingest_definition d) (λ st' _, defined st' d).
Proof.
  intros Hd Hdoc. destruct (typedef_of d) as [t|] eqn:E; [|by destruct d; try done; apply d_ret; intros _ t; rewrite E || intros [=]].
  assert (t ∈ all_types document) as Hin by (apply list_elem_of_omap; by exists d).
  assert (P ∨ sdl_type_ok parse_executable document t = true) as Hok.
  { eapply or_mono; [|exact Hdoc]. intros [[Hall _]%andb_prop _]%andb_prop.
    by apply (proj1 (forallb_forall _ _) Hall), list_elem_of_In. }
  assert (ingest_definition d =
    (type_name_id ← insert_string (st_name t);
     description ← fopt insert_string (sh_description (st_header t));
     composed_directives ← collect_composed_directives (st_directives t);
     if is_join_graph t then ingest_join_graph_enum (graph_values t)
     else ingest_type t type_name_id description composed_directives)) as ->.
  { destruct d; try done; injection E as ->; destruct t; try done; cbn; by destruct (String.eqb _ _). }
  dstep (fok_insert_string _ grows_defs) as n st1 W1 G1 H1. dstep dsub as desc st2 W2 G2 H2; [by apply gok_opt_string|].
  dstep dsub as cd st3 W3 G3 H3.
  { apply gok_composed_directives. eapply or_mono; [|exact Hok]. by intros [[? _]%andb_prop _]%andb_prop. }
  destruct (is_join_graph t) eqn:Ej.
  - eapply d_weaken.
    { apply (fok_each _ grows_defs _ _ _ (λ st v, is_Some (graph_sdl_names st !! sev_value v)));
        [|intros; apply dok_join_graph_value]. intros a b v G. apply (gd_graphs _ _ _ _ G). }
    intros st4 u W4 G4 Hall t' Ht'. rewrite E in Ht'. injection Ht' as <-. split; [by rewrite Ej|]. by apply Forall_forall.
  - eapply d_weaken; [apply dok_type; [by apply list_elem_of_filter|dsizes|dgrown|done|done]|].
    intros st4 u W4 G4 Hs t' Ht'. rewrite E in Ht'. injection Ht' as <-. split; [done|]. intros v Hv. exfalso. destruct t; try by apply elem_of_nil in Hv.
    cbn in Ej, Hv. rewrite Ej in Hv. by apply elem_of_nil in Hv.
Qed.
Lemma dok_definitions st : P ∨ sdl_ok parse_executable document = true →
  dok st (ingest_definitions document) (λ st' _, knows document st').
Proof.
  intros Hdoc. dstep (fok_each _ grows_defs _ _ _ defined) as u st1 W1 G1 Hall.
  { intros a b d G Hd t Ht. destruct (Hd t Ht) as [H1 H2]. split.
    - intros Hj. apply (gd_definitions _ _ _ _ G), H1, Hj.
    - intros v Hv. apply (gd_graphs _ _ _ _ G), H2, Hv. }
  { intros d st1 Hd _. by apply dok_definition. }
  eapply d_weaken.
  - apply fok_each_; [apply _|]. intros n st2 Hn G2. unfold insert_builtin_scalar.
    dstep (fok_insert_string _ grows_defs) as i st3 W3 G3 H3.
    dstep (fok_push_type _ grows_defs) as t st4 W4 G4 H4; [split_and!; try done; unfold range_in; simpl; lia|].
    eapply d_weaken; [apply dok_named; [done|by left]|done].
  - intros st2 v W2 G2 _. split.
    + intros n (t & -> & [Hj (d & Hd & Ht)%list_elem_of_omap]%list_elem_of_filter)%bool_decide_eq_true%list_elem_of_fmap.
      apply (gd_definitions _ _ _ _ G2). apply (proj1 (Forall_forall _ _) Hall) in Hd. by apply (Hd t Ht).
    + intros g Hg%bool_decide_eq_true. unfold declared_graphs in Hg. apply list_elem_of_bind in Hg as (t & Hg & (d & Hd & Ht)%list_elem_of_omap).
      apply list_elem_of_fmap in Hg as (v' & -> & Hv'). apply (gd_graphs _ _ _ _ G2).
      apply (proj1 (Forall_forall _ _) Hall) in Hd. by apply (Hd t Ht).
Qed.
End definitions.

(** ** The whole of it *)
Section whole.
Context `{IndexSetLaws} (P : Prop) (parse_executable : string → string + list (list ESelection)) (document : list SDefinition).
Abbreviation any := (λ _ _, True).
Abbreviation aok := (fok P (grows_defs any False)).

(** The names of the root types are those of the last schema definitions. *)
Lemma aok_schema_definitions st l :
  aok st (ingest_schema_definitions l) (λ st' _,
    query_type_name st' = foldl (λ q d, match d with SDSchema s => or_else (ss_query_type s) q | _ => q end) (query_type_name st) l ∧
    definition_names st' = definition_names st).
Proof.
  revert st. induction l as [|d l IH]; intros st; [by apply fok_ret; [apply _|]|]. unfold ingest_schema_definitions. cbn [feach].
  eapply fok_bind; [apply _| |].
  - instantiate (1 := λ st' _, query_type_name st' = match d with SDSchema s => or_else (ss_query_type s) (query_type_name st) | _ => query_type_name st end
      ∧ definition_names st' = definition_names st).
    destruct d as [s|s|t|t|x]; try (by apply fok_ret; [apply _|]). unfold ingest_schema_definition.
    assert (∀ ds, fok P (λ a b, a = b) st (feach (λ d, if named "link" d then mret ()
      else ferr ("Unsupported directive " +:+ sdir_name d +:+ " on schema.")) ds) (λ _ _, True)) as Hlinks.
    { induction ds as [|x ds IHds]; cbn [feach]; [by apply fok_ret; [apply _|]|].
      destruct (named "link" x); [exact IHds|by intros W]. }
    intros W. specialize (Hlinks (ss_directives s) W). unfold mbind at 1, F_bind at 1. cbn.
    destruct (feach _ (ss_directives s) st) as [[e|[u st1]]|]; cbn; [done| |done]. destruct Hlinks as (_ & <- & _).
    pose proof (dok_set_roots P any False st (or_else (ss_query_type s)) (or_else (ss_mutation_type s)) (or_else (ss_subscription_type s)) id W)
      as Hroots. cbn in Hroots. destruct Hroots as (Wr & Rr & _). by split_and!.
  - intros u st1 W1 G1 [Hq Hd]. eapply fok_weaken; [apply IH|]. intros st2 v W2 G2 [Hq2 Hd2]. cbn [foldl].
    rewrite Hq2, Hd2, Hq, Hd. done.
Qed.

(** The missing query type is named before it is pushed; the order makes no
    difference. *)
Lemma ensure_query_order st :
  ensure_query st =
  (found ← fget (λ st, definition_names st !! default "Query" (query_type_name st));
   match found with
   | Some _ => mret ()
   | None =>
       _ ← set_roots (λ _, Some "Query") id id;
       object_id ← fget (λ st, length (fg_objects (s_graph st)));
       _ ← (query_string_id ← insert_string "Query";
            type_definition_id ← push_type_definition (MkTypeDefinition query_string_id None NO_DIRECTIVES TObject);
            push_object (MkFObject type_definition_id [] [] [] NO_FIELDS));
       _ ← name_definition "Query" (FObject object_id);
       ingest_object_fields object_id []
   end) st.
Proof.
  unfold ensure_query, mbind, F_bind. cbn. destruct (definition_names st !! _); [done|].
  cbn. unfold insert_string. cbn. by destruct (intern _ _).
Qed.
Lemma aok_ensure_query st :
  P ∨ (∀ d, definition_names st !! default "Query" (query_type_name st) = Some d → ∃ id, d = FObject id) →
  aok st ensure_query (λ st' _, P ∨ root_ok st').
Proof.
  intros Hq W. rewrite ensure_query_order. revert W.
  match goal with |- swf st → match ?m st with _ => _ end => change (fok P (grows_defs any False) st m (λ st' _, P ∨ root_ok st')) end.
  eapply fok_bind; [apply _|apply (fok_get _ _ _ _ (λ st' o, st' = st ∧ o = definition_names st !! default "Query" (query_type_name st)))|].
  { done. }
  intros o st1 W1 G1 [-> ->]. destruct (definition_names st !! _) as [d|] eqn:E.
  { apply fok_ret; [apply _|]. intros _. eapply or_mono; [|exact Hq]. intros Hd. destruct (Hd d eq_refl) as [id ->]. by exists id. }
  eapply fok_bind; [apply _|apply dok_set_roots; by intros []|]. intros u st2 W2 G2 [Hq2 Hs2].
  eapply fok_bind; [apply _|by apply (fok_get _ _ _ _ (λ st' n, st' = st2 ∧ n = z_objects (szs st2)))|]. intros n st3 W3 G3 [-> ->].
  eapply fok_bind; [apply _|apply dsub, (fok_keep _ _ _ _ (λ st' i, z_objects (szs st2) < z_objects (szs st')))|].
  { gstep g_insert_string as q st4 W4 G4 H4. gstep g_push_type as t st5 W5 G5 H5; [split_and!; try done; unfold range_in; simpl; lia|].
    eapply g_weaken; [apply g_push_object; split_and!; try done; unfold fields_in; simpl; lia|].
    intros st6 i W6 G6 [-> Hi]. sizes. }
  intros i st4 W4 G4 [Hi Hg]. eapply fok_bind; [apply _|by apply dok_name_definition|]. intros v st5 W5 G5 (Hn & Hq5 & Hs5).
  assert (root_ok st5) as Hroot.
  { exists (z_objects (szs st2)). rewrite Hq5, (gr_query _ _ Hg), Hq2. exact Hn. }
  eapply dsub, fok_weaken.
  - apply (gok_object_fields P parse_executable document); [by right|by right|by right|by rewrite Hs5].
  - intros st6 w W6 G6 _. right. by eapply root_ok_grows.
Qed.

(** What [from_sdl] does with a document, whatever [P] allows. *)
Lemma query_is_object q d : query_ok document = true → q = default "Query" (document_query document) →
  origin document q d → ∃ id, d = FObject id.
Proof.
  intros [Hobj Hb]%andb_prop -> [Hin|(t & Ht & Hn & Hd)].
  - by rewrite bool_decide_true in Hb.
  - apply Hd. apply list_elem_of_In, (proj1 (forallb_forall _ _) Hobj) in Ht. rewrite Hn, String.eqb_refl in Ht. exact Ht.
Qed.
Lemma default_state_wf : swf default_state.
Proof. split; split; try done; apply map_Forall_empty. Qed.
Lemma final_strings (s : iset string) : length (iset_elements s) = iset_len s.
Proof. exact (federated_strings_length s). Qed.
Lemma ingest_document_ok : P ∨ sdl_ok parse_executable document = true →
  match ingest_document parse_executable document default_state with
  | Panic _ => P
  | Ret (inl _) => True
  | Ret (inr (g, _)) => graph_wf g
  end.
Proof.
  intros Hdoc.
  assert (∀ st, knows document st → values_named st → P ∨ root_ok st →
    fok P grows_fields st (_ ← ingest_fields document; _ ← ingest_selection_sets parse_executable document; finish) (λ _, graph_wf)) as Hfields.
  { intros st K Hv Hr. eapply fok_bind; [apply _|apply (fok_fields P parse_executable document); [done|done|]|].
    { eapply or_mono; [|exact Hdoc]. by intros [[? _]%andb_prop _]%andb_prop. }
    intros u st1 W1 G1 Hreg. eapply fok_bind; [apply _|eapply fok_sub; [apply grows_R|]|].
    { apply gok_selection_sets; [by eapply knows_grows_fields|by eapply values_named_grows_fields|done|done]. }
    intros v st2 W2 G2 _. unfold finish.
    eapply fok_bind; [apply _|by apply (fok_get _ _ _ _ (λ st' r, st' = st2 ∧ r = root_operation_types st2))|].
    intros r st3 W3 G3 [-> ->]. destruct (root_operation_types st2) as [e|roots] eqn:E; [apply fok_err|].
    apply fok_get; [apply _|]. intros W. apply root_types_in in E; [|done].
    pose proof (graph_in_vectors _ _ _ (proj1 W) E) as [].
    unfold graph_wf. cbn [set_strings set_roots_of fg_strings fg_subgraphs fg_directives fg_input_value_definitions].
    rewrite final_strings. by split. }
  assert (fok P (grows_defs any False) default_state
    (_ ← ingest_definitions document; _ ← ingest_schema_definitions document; ensure_query)
    (λ st' _, knows document st' ∧ values_named st' ∧ (P ∨ root_ok st'))) as Hdefs.
  { eapply fok_bind; [apply _|eapply fok_sub; [|apply fok_keep, (dok_definitions P parse_executable document); exact Hdoc]|].
    { intros a b []. split; auto. }
    intros u st1 W1 G1 [K1 [_ Hv1 _ _ Hq1 Ho1]]. eapply fok_bind; [apply _|apply aok_schema_definitions|].
    intros v st2 W2 G2 [Hq Hd]. eapply fok_weaken; [apply aok_ensure_query|].
    - eapply or_mono; [|exact Hdoc]. intros [_ Hqok]%andb_prop d Hfound. rewrite Hd in Hfound.
      destruct (Ho1 _ _ Hfound) as [[=]|Horigin]. eapply query_is_object; [done| |exact Horigin].
      rewrite Hq, (Hq1 Logic.I). done.
    - intros st3 w W3 G3 Hr. split_and!; [|intros k i; rewrite (gd_values _ _ _ _ G3), (gd_values _ _ _ _ G2), Hv1; intros [=]|done].
      by do 2 (eapply knows_grows_defs; [eassumption|]). }
  specialize (Hdefs default_state_wf). unfold ingest_document. unfold mbind, F_bind in *. cbn in *.
  destruct (ingest_definitions document default_state) as [[e|[u st1]]|]; cbn in *; [done| |done].
  destruct (ingest_schema_definitions document st1) as [[e|[v st2]]|]; cbn in *; [done| |done].
  destruct (ensure_query st2) as [[e|[w st3]]|]; cbn in *; [done| |done].
  destruct Hdefs as (W3 & _ & K3 & Hv3 & Hr3). specialize (Hfields st3 K3 Hv3 Hr3 W3).
  assert (∀ r : res (string + FederatedGraph * State),
    match r with Panic _ => P | Ret (inl _) => True | Ret (inr (g, st')) => swf st' ∧ grows_fields st3 st' ∧ graph_wf g end →
    match r with Panic _ => P | Ret (inl _) => True | Ret (inr (g, _)) => graph_wf g end) as Hlast.
  { intros [[e|[g st4]]|]; [done| |done]. by intros (_ & _ & ?). }
  exact (Hlast _ Hfields).
Qed.
End whole.

(** ** Types and their text *)
Fixpoint print_type (wrappers : list SWrapping) (name : string) : string :=
  match wrappers with
  | [] => name
  | WNonNull :: wrappers => print_type wrappers name +:+ "!"
  | WList :: wrappers => "[" +:+ print_type wrappers name +:+ "]"
  end.
Definition closing (w : SWrapping) : string := match w with WNonNull => "!" | WList => "]" end.
Definition is_list_wrapper (w : SWrapping) : bool := match w with WNonNull => false | WList => true end.
Definition lists (ws : list SWrapping) : nat := length (filter (λ w, is_list_wrapper w = true) ws).
Lemma print_type_parts ws name :
  print_type ws name = repeat_str (lists ws) "[" +:+ name +:+ foldr (λ w out, closing w +:+ out) "" (reverse ws).
Proof.
  assert (∀ l w, foldr (λ w out, closing w +:+ out) "" (l ++ [w]) = foldr (λ w out, closing w +:+ out) "" l +:+ closing w) as Hsnoc.
  { intros l w. induction l as [|x l IH]; cbn [foldr app]; [by destruct w|]. by rewrite IH, append_assoc. }
  induction ws as [|[|] ws IH]; [by rewrite append_nil| |]; cbn [print_type];
    rewrite reverse_cons, Hsnoc, IH; unfold lists; rewrite filter_cons; cbn [is_list_wrapper].
  - rewrite decide_False by done. by rewrite !append_assoc.
  - rewrite decide_True by done. cbn [length repeat_str]. by rewrite !append_assoc.
Qed.
Lemma kinds_text ws ks : wrapper_kinds ws = Some ks →
  lists ws = length ks ∧
  foldr (λ w out, closing w +:+ out) "" ws =
  foldr (λ wrapping out, "]" +:+ (if bool_decide (wrapping = RequiredList) then "!" else "") +:+ out) "" (kind_wrapping <$> ks).
Proof.
  revert ws ks. apply wrapper_kinds_ind; [done| |].
  - intros ws ks [IH1 IH2]. split; [change (S (lists ws) = S (length ks)); by rewrite IH1|]. cbn in IH2 |- *. by rewrite IH2.
  - intros ws ks _ [IH1 IH2]. split; [change (S (lists ws) = S (length ks)); by rewrite IH1|]. cbn in IH2 |- *. by rewrite IH2.
Qed.
Lemma field_wrapping_spec t : ty_ok t = true → ∃ w b ks,
  field_wrapping (reverse (sty_wrappers t)) = Ret w ∧ Wrapping.wf w ∧ abs w = MkA b (kind_wrapping <$> ks) 0 ∧
  lists (sty_wrappers t) = length ks ∧
  foldr (λ w out, closing w +:+ out) "" (reverse (sty_wrappers t)) =
  (if b then "!" else "") +:+
  foldr (λ wrapping out, "]" +:+ (if bool_decide (wrapping = RequiredList) then "!" else "") +:+ out) "" (kind_wrapping <$> ks).
Proof.
  assert (lists (reverse (sty_wrappers t)) = lists (sty_wrappers t)) as <-.
  { unfold lists. by rewrite reverse_Permutation. }
  unfold ty_ok, type_kinds_of, field_wrapping.
  assert (∀ b ws ks, wrapper_kinds ws = Some ks → (length ks <=? 21) = true →
    ∃ w, wrap_loop (new b) ws = Ret w ∧ Wrapping.wf w ∧ abs w = MkA b (kind_wrapping <$> ks) 0) as Hloop.
  { intros b ws ks Hks Hlen%Nat.leb_le. rewrite (wrap_loop_kinds _ _ _ Hks).
    destruct (wrap_all_spec (new b) b [] ks) as (w & ? & ? & ?); [by destruct b|by destruct b|done|by exists w]. }
  destruct (reverse (sty_wrappers t)) as [|[|] ws].
  - intros Hlen. destruct (Hloop false [] [] eq_refl Hlen) as (w & ? & ? & ?). by exists w, false, [].
  - destruct (wrapper_kinds ws) as [ks|] eqn:E; [|done]. intros Hlen. destruct (Hloop true _ _ E Hlen) as (w & ? & ? & ?).
    destruct (kinds_text _ _ E) as [Hl Ht]. exists w, true, ks. split_and!; try done. cbn [foldr closing]. by rewrite Ht.
  - destruct (wrapper_kinds (WList :: ws)) as [ks|] eqn:E; [|done]. intros Hlen. destruct (Hloop false _ _ E Hlen) as (w & ? & ? & ?).
    destruct (kinds_text _ _ E) as [Hl Ht]. exists w, false, ks. by split_and!.
Qed.

Section claims.
Context `{IndexSetLaws} (parse_executable : string → string + list (list ESelection))
  (parse_type_system : string → string + list SDefinition) (f64_fmt : Z → string) (unicode_uppercase : string → string).

(** A type is read as it is written: the packed wrapping that [field_type]
    builds, rendered with the name of the type, is the text of the type, for
    every type that is not doubly required and has at most 21 lists; reading it
    leaves the state as it is. *)
Theorem field_type_text t st ty st' g n :
  ty_ok t = true → field_type t st = Ret (inr (ty, st')) →
  definition_name_id g (ft_definition ty) = Ret n → str_at g n = Ret (sty_name t) →
  st' = st ∧ definition_names st !! sty_name t = Some (ft_definition ty) ∧
  render_field_type ty g = Ret (print_type (sty_wrappers t) (sty_name t)).
Proof.
  intros Ht Hty Hn Hname. unfold field_type, flift, fget, fread, mbind, F_bind in Hty.
  destruct (field_wrapping_spec t Ht) as (w & b & ks & Hw & Wf & Habs & Hlen & Htext). rewrite Hw in Hty. cbn in Hty.
  destruct (definition_names st !! sty_name t) as [d|]; [|done]. cbn in Hty. injection Hty as <- <-.
  split_and!; [done|done|]. unfold render_field_type. cbn [ft_definition ft_wrapping] in *. rewrite Hn. cbn [mbind res_bind]. rewrite Hname. cbn [mbind res_bind].
  rewrite len_abs, Nat2Z.id, list_wrappings_abs, inner_is_required_abs, Habs by done. cbn [a_lists a_inner].
  by rewrite length_fmap, <-Hlen, print_type_parts, Htext.
Qed.

(** C9. Reading is type safe: whatever the document, a graph that [from_sdl]
    returns is well formed, so that both renderers return on it. *)
Theorem from_sdl_wf sdl g :
  from_sdl parse_executable parse_type_system sdl = Ret (inr g) →
  graph_wf g ∧ (∃ text, render_federated_sdl f64_fmt unicode_uppercase g = Ret text) ∧
  (∃ text, render_api_sdl f64_fmt unicode_uppercase g = Ret text).
Proof.
  unfold from_sdl. destruct (parse_type_system sdl) as [e|document]; [done|].
  pose proof (ingest_document_ok True parse_executable document (or_introl Logic.I)) as Hok.
  destruct (ingest_document _ _ _) as [[e|[g' st]]|]; cbn; [done| |done]. intros [= <-].
  split_and!; [done|by apply total_federated|by apply total_api].
Qed.

(** C10. [from_sdl] returns, a graph or an error, on every document whose types,
    interfaces, members and graphs are declared, whose query type is an object,
    whose types have at most 21 lists, whose selections have no arguments and
    whose values have neither variables nor infinite numbers. *)
Theorem from_sdl_returns sdl :
  (∀ document, parse_type_system sdl = inr document → sdl_ok parse_executable document = true) →
  ∃ r, from_sdl parse_executable parse_type_system sdl = Ret r.
Proof.
  unfold from_sdl. destruct (parse_type_system sdl) as [e|document]; [by eexists|]. intros Hdoc.
  pose proof (ingest_document_ok False parse_executable document (or_intror (Hdoc document eq_refl))) as Hok.
  destruct (ingest_document _ _ _) as [r|]; [by eexists|done].
Qed.
End claims.

(** ** A document *)
#[local] Existing Instance list_index_set.
#[local] Existing Instance list_index_set_laws.
Definition on_graph (name : string) : SDirective := MkSDirective name [("graph", SVEnum "USERS")].
Definition keyed (key : string) : SDirective :=
  MkSDirective "join__type" [("graph", SVEnum "USERS"); ("key", SVString key)].
Definition plain_field (name type_ : string) (wrappers : list SWrapping) : SField :=
  MkSField name [] (MkSType type_ wrappers) None [].
Definition simple (name : string) (directives : list SDirective) : SHeader := MkSHeader name None directives.
Definition users_join_graph : SDefinition := SDType (STEnum (simple "join__Graph" [])
  [MkSEnumValue "USERS" None [MkSDirective "join__graph" [("name", SVString "users"); ("url", SVString "http://users")]]]).
Definition query_type (fields : list SField) : SDefinition := SDType (STObject (simple "Query" [on_graph "join__type"]) [] fields).
Definition users_document : list SDefinition :=
  [ users_join_graph
  ; SDType (STInterface (simple "Node" [keyed "id"]) [] [plain_field "id" "ID" [WNonNull]])
  ; SDType (STObject (simple "User" [keyed "id"; MkSDirective "join__implements" [("graph", SVEnum "USERS"); ("interface", SVString "Node")]])
      ["Node"]
      [ plain_field "id" "ID" [WNonNull]
      ; MkSField "posts" [MkSInputValue "first" (MkSType "Int" []) (Some (SVInt 10)) None []] (MkSType "Post" [WNonNull; WList; WNonNull])
          None [on_graph "join__field"; MkSDirective "authorized" [("fields", SVString "id"); ("metadata", SVList [SVString "a"])]]])
  ; SDType (STObject (simple "Post" [on_graph "join__type"]) [] [plain_field "title" "String" []])
  ; SDType (STUnion (simple "Content" []) ["User"; "Post"])
  ; SDType (STEnum (simple "Role" []) [MkSEnumValue "ADMIN" None []; MkSEnumValue "USER" None [MkSDirective "deprecated" []]])
  ; SDType (STInputObject (simple "Filter" []) [MkSInputValue "role" (MkSType "Role" []) (Some (SVEnum "ADMIN")) None []])
  ; query_type [plain_field "user" "User" [WList]] ].
Definition parse_id (s : string) : string + list (list ESelection) :=
  if String.eqb s "{ id }" then inr [[ESField "id" [] []]]
  else if String.eqb s "{ id(a: 1) }" then inr [[ESField "id" [("a", EVInt 1)] []]]
  else inl "unexpected token".
Definition read (document : list SDefinition) : res (string + FederatedGraph) := from_sdl parse_id (λ _, inr document) "".
Definition users_graph : FederatedGraph := Eval vm_compute in
  match read users_document with Ret (inr g) => g | _ => s_graph default_state end.

Lemma from_sdl_wf_witness :
  length (fg_fields users_graph) = 7 ∧ graph_wf users_graph ∧
  (∃ text, render_federated_sdl (λ _, "0") (λ s, s) users_graph = Ret text) ∧
  (∃ text, render_api_sdl (λ _, "0") (λ s, s) users_graph = Ret text).
Proof.
  split; [reflexivity|]. apply (from_sdl_wf parse_id (λ _, inr users_document) (λ _, "0") (λ s, s) "").
  vm_compute. reflexivity.
Defined.
Lemma from_sdl_returns_witness : ∃ r, from_sdl parse_id (λ _, inr users_document) "" = Ret r.
Proof. apply (from_sdl_returns parse_id (λ _, inr users_document) ""). intros document [= <-]. vm_compute. reflexivity. Defined.

(** The type [[Post!]!] with a state that knows [Post]. *)
Definition post_type : SType := MkSType "Post" [WNonNull; WList; WNonNull].
Definition post_state : State :=
  MkState users_graph iset_empty None None None {[ "Post" := FObject 1 ]} ∅ ∅ ∅ ∅.
Definition post_ftype : FType :=
  MkFType (match field_wrapping [WNonNull; WList; WNonNull] with Ret w => w | Panic _ => nullable end) (FObject 1).
Lemma field_type_text_witness :
  print_type (sty_wrappers post_type) "Post" = "[Post!]!" ∧ render_field_type post_ftype users_graph = Ret "[Post!]!".
Proof.
  split; [reflexivity|].
  apply (field_type_text post_type post_state post_ftype post_state users_graph 5); vm_compute; reflexivity.
Defined.

(** ** What the code does not handle *)
Definition panics {A} (r : res A) : bool := match r with Panic _ => true | Ret _ => false end.

(** [from_sdl] has a [Result] for documents that it cannot read, and panics on
    some of them: an interface, a member or a graph that is not declared,
    [@join__type] without a graph, an argument of a selected field that it does
    not have, a query type that is not an object, and a type of 22 lists. *)
Theorem from_sdl_panics :
  Forall (λ document, panics (read (users_join_graph :: document)) = true)
    [ [SDType (STObject (simple "User" []) ["Node"] [plain_field "id" "ID" []])]
    ; [SDType (STUnion (simple "Content" []) ["User"])]
    ; [SDType (STObject (simple "User" [MkSDirective "join__type" [("graph", SVEnum "POSTS")]]) [] [plain_field "id" "ID" []])]
    ; [SDType (STObject (simple "User" [MkSDirective "join__type" [("key", SVString "id")]]) [] [plain_field "id" "ID" []])]
    ; [SDType (STObject (simple "User" [keyed "id(a: 1)"]) [] [plain_field "id" "ID" []])]
    ; [SDType (STScalar (simple "Query" [])); SDType (STObject (simple "User" []) [] [plain_field "id" "ID" []])]
    ; [query_type [plain_field "deep" "ID" (replicate 22 WList)]] ].
Proof. repeat constructor; vm_compute; reflexivity. Qed.

(** A type extension is read as a type of its own that takes the name: the
    graph has two objects named [User], the first one has no fields, and the
    fields of the second one are those of the definition that comes last. *)
Theorem extension_loses_fields :
  match read [users_join_graph; SDType (STObject (simple "User" []) [] [plain_field "id" "ID" [WNonNull]]);
              SDTypeExtension (STObject (simple "User" []) [] [plain_field "name" "String" []]);
              query_type [plain_field "user" "User" []]] with
  | Ret (inr g) =>
      (λ o : FObjectRecord, (mapM (graph_definition_name g) [FObject 0; FObject 1],
        mapM (λ f, str_at g (ff_name f)) <$> fields_at g (fo_fields o))) <$> fg_objects g
  | _ => []
  end =
  [ (Ret ["User"; "User"], Ret (Ret []))
  ; (Ret ["User"; "User"], Ret (Ret ["name"]))
  ; (Ret ["User"; "User"], Ret (Ret ["user"; "__schema"; "__type"])) ].
Proof. vm_compute. reflexivity. Qed.
