(* ===== verification/CachePlan.v ===== *)
(** * [partial-caching]: planning

    [build_plan] of [planning/mod.rs] with the visitors of
    [planning/visitor.rs], [query_partitioner.rs], [defers.rs] and
    [fragments/], and the variables of [variables.rs]. A query is split into
    one partition for every cache control that is in force at one of its
    leaves, and one for the leaves without; a partition holds the selections
    and the fragments on the way to its leaves.

    The executable document is that of cynic-parser: every selection has an
    id, a fragment is named by its position. The registry of types is an
    interface, [CacheTypes], which [CacheRegistry.v] implements. [Vec]s that
    are used as stacks are lists with the top first; an [IndexSet] is the list
    of its elements and an [IndexMap] that of its entries, in order. *)
From Stdlib Require Import ZArith.
From S2P Require Import Prelude RustStd SdlAst.
Local Open Scope string_scope.
Local Open Scope list_scope.
Local Open Scope nat_scope.

(** ** [IndexSet] and [IndexMap] *)
Section index_collections.
Context {K V : Type} `{EqDecision K}.

Definition set_insert (x : K) (s : list K) : list K := if decide (x ∈ s) then s else s ++ [x].
Definition set_extend (s : list K) (xs : list K) : list K := foldl (λ s x, set_insert x s) s xs.

Definition map_get (k : K) (m : list (K * V)) : option V := snd <$> List.find (λ e, bool_decide (e.1 = k)) m.
(** The value of [entry(k).or_insert(d)], changed by [f]. *)
Fixpoint map_update (k : K) (d : V) (f : V → V) (m : list (K * V)) : list (K * V) :=
  match m with
  | [] => [(k, f d)]
  | (k', v) :: m => if decide (k' = k) then (k', f v) :: m else (k', v) :: map_update k d f m
  end.
Definition map_insert (k : K) (v : V) (m : list (K * V)) : list (K * V) := map_update k v (λ _, v) m.
End index_collections.

(** ** [registry-v2/src/cache_control.rs] *)
Inductive CacheAccessScope :=
| ApiKey
| Jwt (claim : string)
| Header (header : string)
| Public.
Inductive CacheInvalidationPolicy :=
| InvalidateEntity (field : string)
| InvalidateList
| InvalidateType.
Global Instance CacheAccessScope_eq_dec : EqDecision CacheAccessScope.
Proof. solve_decision. Defined.
Global Instance CacheInvalidationPolicy_eq_dec : EqDecision CacheInvalidationPolicy.
Proof. solve_decision. Defined.

(** [access_scopes] is a [BTreeSet], the list of its elements in order. *)
Record CacheControl := MkCacheControl {
  public : bool;
  max_age : Z;
  stale_while_revalidate : Z;
  invalidation_policy : option CacheInvalidationPolicy;
  access_scopes : option (list CacheAccessScope);
}.
Global Instance CacheControl_eq_dec : EqDecision CacheControl.
Proof. solve_decision. Defined.

(** ** The executable document of cynic-parser *)
Abbreviation SelectionId := nat.
Abbreviation FragmentDefinitionId := nat.
Abbreviation CArguments := (list (string * EValue)).
Record CDirective := MkCDirective { cd_name : string; cd_arguments : CArguments }.
Inductive CSelection :=
| CField (id : SelectionId) (alias : option string) (name : string) (arguments : CArguments)
    (directives : list CDirective) (selection_set : list CSelection)
| CInlineFragment (id : SelectionId) (type_condition : option string) (directives : list CDirective)
    (selection_set : list CSelection)
| CFragmentSpread (id : SelectionId) (fragment_name : string) (directives : list CDirective).
Definition selection_id (selection : CSelection) : SelectionId :=
  match selection with CField id _ _ _ _ _ | CInlineFragment id _ _ _ | CFragmentSpread id _ _ => id end.
Definition children (selection : CSelection) : list CSelection :=
  match selection with
  | CField _ _ _ _ _ selection_set | CInlineFragment _ _ _ selection_set => selection_set
  | CFragmentSpread _ _ _ => []
  end.

Record CFragment := MkCFragment {
  cf_name : string;
  cf_type_condition : string;
  cf_directives : list CDirective;
  cf_selection_set : list CSelection;
}.
Inductive OperationType := Query | Mutation | Subscription.
Global Instance OperationType_eq_dec : EqDecision OperationType.
Proof. solve_decision. Defined.
(** A variable definition: its name and its printed form. *)
Record CVariable := MkCVariable { cv_name : string; cv_text : string }.
Record COperation := MkCOperation {
  co_type : OperationType;
  co_name : option string;
  co_variables : list CVariable;
  co_directives : list CDirective;
  co_selection_set : list CSelection;
}.
Record CDocument := MkCDocument { cdoc_operations : list COperation; cdoc_fragments : list CFragment }.

(** A selection and those below it. *)
Fixpoint selections_in (selection : CSelection) : list CSelection :=
  selection ::
  match selection with
  | CField _ _ _ _ _ selection_set | CInlineFragment _ _ _ selection_set => concat (selections_in <$> selection_set)
  | CFragmentSpread _ _ _ => []
  end.
Definition selections_of (document : CDocument) : list CSelection :=
  concat (selections_in <$>
    concat (co_selection_set <$> cdoc_operations document) ++ concat (cf_selection_set <$> cdoc_fragments document)).

(** [document.read(id)] and [spread.fragment()]. *)
Definition read_selection (document : CDocument) (id : SelectionId) : res CSelection :=
  expect "index out of bounds" (List.find (λ s, bool_decide (selection_id s = id)) (selections_of document)).
Definition read_fragment (document : CDocument) (id : FragmentDefinitionId) : res CFragment :=
  expect "index out of bounds" (cdoc_fragments document !! id).
Definition fragment_named (document : CDocument) (name : string) : option FragmentDefinitionId :=
  fst <$> list_find (λ f, cf_name f = name) (cdoc_fragments document).

(** ** What planning asks of the registry *)
Class CacheTypes := {
  MetaType : Type;
  MetaField : Type;
  query_type : MetaType;
  lookup_type : string → option MetaType;
  type_cache_control : MetaType → option CacheControl;
  type_field : MetaType → string → option MetaField;
  field_cache_control : MetaField → option CacheControl;
  field_named_type : MetaField → MetaType;
}.

(** ** [visitor.rs] *)
Record FieldEdge `{CacheTypes} := MkFieldEdge {
  edge_selection : CSelection;
  edge_container : option MetaType;
  edge_field : option MetaField;
  edge_field_type : option MetaType;
}.
(** [FieldEdge::cache_control] of [planning/mod.rs]. *)
Definition edge_cache_control `{CacheTypes} (edge : FieldEdge) : option CacheControl :=
  match edge_field edge ≫= field_cache_control with
  | Some cache_control => Some cache_control
  | None => edge_field_type edge ≫= type_cache_control
  end.

(** The trait [Visitor], for visitors with state [S]. *)
Record Visitor `{CacheTypes} (S : Type) := MkVisitor {
  enter_selection : SelectionId → CSelection → S → S;
  exit_selection : SelectionId → CSelection → S → S;
  enter_field : FieldEdge → S → S;
  exit_field : FieldEdge → S → S;
  fragment_spread : CSelection → S → S;
}.
Global Arguments MkVisitor {_ S} _ _ _ _ _.
Global Arguments enter_selection {_ S} _ _ _ _.
Global Arguments exit_selection {_ S} _ _ _ _.
Global Arguments enter_field {_ S} _ _ _.
Global Arguments exit_field {_ S} _ _ _.
Global Arguments fragment_spread {_ S} _ _ _.

(** [VisitorContext]: the calls go to every visitor, one after the other. *)
Definition visit_both `{CacheTypes} {S T : Type} (v : Visitor S) (w : Visitor T) : Visitor (S * T) :=
  MkVisitor
    (λ id selection s, (enter_selection v id selection s.1, enter_selection w id selection s.2))
    (λ id selection s, (exit_selection v id selection s.1, exit_selection w id selection s.2))
    (λ edge s, (enter_field v edge s.1, enter_field w edge s.2))
    (λ edge s, (exit_field v edge s.1, exit_field w edge s.2))
    (λ spread s, (fragment_spread v spread s.1, fragment_spread w spread s.2)).

Section visit.
Context `{CacheTypes} {S : Type} (v : Visitor S).

(** The edge of a field and the container of an inline fragment. *)
Definition field_edge (container : option MetaType) (selection : CSelection) (name : string) : FieldEdge :=
  let field := container ≫= λ container, type_field container name in
  MkFieldEdge _ selection container field (field_named_type <$> field).
Definition new_container (container : option MetaType) (type_condition : option string) : option MetaType :=
  match type_condition with Some ty => lookup_type ty | None => container end.

Fixpoint visit_selection (container : option MetaType) (s : S) (selection : CSelection) : S :=
  let s := enter_selection v (selection_id selection) selection s in
  let s :=
    match selection with
    | CField _ _ name _ _ selection_set =>
        let edge := field_edge container selection name in
        let s := enter_field v edge s in
        let s := foldl (visit_selection (edge_field_type edge)) s selection_set in
        exit_field v edge s
    | CInlineFragment _ type_condition _ selection_set =>
        foldl (visit_selection (new_container container type_condition)) s selection_set
    | CFragmentSpread _ _ _ => fragment_spread v selection s
    end in
  exit_selection v (selection_id selection) selection s.
Definition visit_selection_set (container : option MetaType) (s : S) (selections : list CSelection) : S :=
  foldl (visit_selection container) s selections.

Definition visit_query (query : COperation) (s : S) : res S :=
  if decide (co_type query = Query) then Ret (visit_selection_set (Some query_type) s (co_selection_set query))
  else Panic "assertion `left == right` failed".
Definition visit_fragment (fragment : CFragment) (s : S) : S :=
  visit_selection_set (lookup_type (cf_type_condition fragment)) s (cf_selection_set fragment).
End visit.

(** ** [fragments/mod.rs] and [fragments/spread_set.rs] *)
Record FragmentKey := MkFragmentKey {
  key_id : FragmentDefinitionId;
  spread_cache_control : option CacheControl;
}.
Global Instance FragmentKey_eq_dec : EqDecision FragmentKey.
Proof. solve_decision. Defined.

Record FragmentSpreadSet := MkSpreadSet { spreads : list (FragmentKey * list SelectionId) }.
Definition spread_insert (key : FragmentKey) (selections : list SelectionId) (s : FragmentSpreadSet) : FragmentSpreadSet :=
  MkSpreadSet (map_update key [] (λ old, set_extend old selections) (spreads s)).
Definition spreads_for_fragment (key : FragmentKey) (s : FragmentSpreadSet) : option (list SelectionId) :=
  map_get key (spreads s).
Definition fragment_keys (s : FragmentSpreadSet) : list FragmentKey := fst <$> spreads s.

(** ** [fragments/tracker.rs] *)
Record FragmentTracker := MkTracker {
  ft_cache_control_stack : list CacheControl;
  ft_selection_stack : list SelectionId;
  ft_spreads : FragmentSpreadSet;
  ft_missing_fragments : list string;
}.
Definition tracker_new (root_cache_control : option CacheControl) : FragmentTracker :=
  MkTracker (option_list root_cache_control) [] (MkSpreadSet []) [].
Definition key_for (document : CDocument) (t : FragmentTracker) (name : string) : option FragmentKey :=
  (λ id, MkFragmentKey id (head (ft_cache_control_stack t))) <$> fragment_named document name.
Definition into_spreads (t : FragmentTracker) : string + FragmentSpreadSet :=
  match ft_missing_fragments t with
  | [] => inr (ft_spreads t)
  | [name] => inl ("Could not find a fragment named " +:+ name)
  | names => inl ("Could not find fragments named: " +:+ join ", " names)
  end.

Definition track_fragment_spread (document : CDocument) (selection : CSelection) (t : FragmentTracker) : FragmentTracker :=
  match selection with
  | CFragmentSpread _ name _ =>
      match key_for document t name with
      | Some key =>
          MkTracker (ft_cache_control_stack t) (ft_selection_stack t)
            (spread_insert key (set_extend [] (reverse (ft_selection_stack t))) (ft_spreads t)) (ft_missing_fragments t)
      | None =>
          MkTracker (ft_cache_control_stack t) (ft_selection_stack t) (ft_spreads t) (ft_missing_fragments t ++ [name])
      end
  | _ => t
  end.
Definition tracker_visitor `{CacheTypes} (document : CDocument) : Visitor FragmentTracker :=
  MkVisitor
    (λ id _ t, MkTracker (ft_cache_control_stack t) (id :: ft_selection_stack t) (ft_spreads t) (ft_missing_fragments t))
    (λ _ _ t, MkTracker (ft_cache_control_stack t) (tail (ft_selection_stack t)) (ft_spreads t) (ft_missing_fragments t))
    (λ edge t, match edge_cache_control edge with
               | Some cc => MkTracker (cc :: ft_cache_control_stack t) (ft_selection_stack t) (ft_spreads t) (ft_missing_fragments t)
               | None => t
               end)
    (λ edge t, match edge_cache_control edge with
               | Some _ => MkTracker (tail (ft_cache_control_stack t)) (ft_selection_stack t) (ft_spreads t) (ft_missing_fragments t)
               | None => t
               end)
    (track_fragment_spread document).

(** ** [query_partitioner.rs] *)
Record PlanningPartition := MkPlanning { pp_selections : list SelectionId; pp_fragments : list FragmentKey }.
Definition planning_default : PlanningPartition := MkPlanning [] [].
(** The loop of [update], which stops at the first selection it knows. *)
Fixpoint update_selections (selection_stack : list SelectionId) (selections : list SelectionId) : list SelectionId :=
  match selection_stack with
  | [] => selections
  | id :: selection_stack =>
      if decide (id ∈ selections) then selections else update_selections selection_stack (selections ++ [id])
  end.
Definition update (selection_stack : list SelectionId) (current_fragment : option FragmentKey) (p : PlanningPartition)
    : PlanningPartition :=
  MkPlanning (update_selections selection_stack (pp_selections p))
    (set_extend (pp_fragments p) (option_list current_fragment)).

Record QueryPartitioner := MkPartitioner {
  qp_selection_stack : list SelectionId;
  qp_cache_control_stack : list CacheControl;
  current_fragment : option FragmentKey;
  qp_cache_partitions : list (CacheControl * PlanningPartition);
  qp_nocache_partition : PlanningPartition;
}.
Definition partitioner_new (root_cache_control : option CacheControl) : QueryPartitioner :=
  MkPartitioner [] (option_list root_cache_control) None [] planning_default.
Definition for_next_fragment (next_fragment : FragmentKey) (p : QueryPartitioner) : res QueryPartitioner :=
  match qp_selection_stack p with
  | [] => Ret (MkPartitioner [] (option_list (spread_cache_control next_fragment)) (Some next_fragment)
                (qp_cache_partitions p) (qp_nocache_partition p))
  | _ => Panic "assertion failed: self.selection_stack.is_empty()"
  end.

Definition with_cache_control_stack (f : list CacheControl → list CacheControl) (p : QueryPartitioner) : QueryPartitioner :=
  MkPartitioner (qp_selection_stack p) (f (qp_cache_control_stack p)) (current_fragment p)
    (qp_cache_partitions p) (qp_nocache_partition p).
Definition with_selection_stack (f : list SelectionId → list SelectionId) (p : QueryPartitioner) : QueryPartitioner :=
  MkPartitioner (f (qp_selection_stack p)) (qp_cache_control_stack p) (current_fragment p)
    (qp_cache_partitions p) (qp_nocache_partition p).
(** The [match] at the end of [enter_field]. *)
Definition update_partition (p : QueryPartitioner) : QueryPartitioner :=
  let update := update (qp_selection_stack p) (current_fragment p) in
  match head (qp_cache_control_stack p) with
  | Some cache_control =>
      MkPartitioner (qp_selection_stack p) (qp_cache_control_stack p) (current_fragment p)
        (map_update cache_control planning_default update (qp_cache_partitions p)) (qp_nocache_partition p)
  | None =>
      MkPartitioner (qp_selection_stack p) (qp_cache_control_stack p) (current_fragment p)
        (qp_cache_partitions p) (update (qp_nocache_partition p))
  end.
Definition partitioner_enter_field `{CacheTypes} (edge : FieldEdge) (p : QueryPartitioner) : QueryPartitioner :=
  let p := match edge_cache_control edge with Some cc => with_cache_control_stack (cons cc) p | None => p end in
  if negb (length (children (edge_selection edge)) =? 0) then p else update_partition p.
Definition partitioner_exit_field `{CacheTypes} (edge : FieldEdge) (p : QueryPartitioner) : QueryPartitioner :=
  match edge_cache_control edge with Some _ => with_cache_control_stack tail p | None => p end.
Definition partitioner_visitor `{CacheTypes} : Visitor QueryPartitioner :=
  MkVisitor (λ id _, with_selection_stack (cons id)) (λ _ _, with_selection_stack tail)
    partitioner_enter_field partitioner_exit_field (λ _ p, p).

(** ** [parser_extensions.rs] and [defers.rs] *)
(** [DeferDirective]: its label. *)
Definition find_defer (directives : list CDirective) : option (option string) :=
  (λ directive,
    List.find (λ a, bool_decide (a.1 = "label")) (cd_arguments directive) ≫= λ argument,
      match argument.2 with EVString label => Some label | _ => None end) <$>
  List.find (λ d, bool_decide (cd_name d = "defer")) directives.
Definition defer_directive (selection : CSelection) : option (option string) :=
  match selection with
  | CField _ _ _ _ _ _ => None
  | CInlineFragment _ _ directives _ | CFragmentSpread _ _ directives => find_defer directives
  end.
Definition response_key (alias : option string) (name : string) : string := default name alias.

Record DeferRecord := MkDeferRecord { defer_label : option string; defer_spread_id : SelectionId }.
Record DeferVisitor := MkDeferVisitor { dv_defers : list DeferRecord; seen_selections : list SelectionId }.
Definition defer_enter_selection (id : SelectionId) (selection : CSelection) (d : DeferVisitor) : DeferVisitor :=
  match defer_directive selection with
  | Some label =>
      if decide (id ∈ seen_selections d) then d
      else MkDeferVisitor (dv_defers d ++ [MkDeferRecord label id]) (id :: seen_selections d)
  | None => d
  end.
Definition defer_visitor `{CacheTypes} : Visitor DeferVisitor :=
  MkVisitor defer_enter_selection (λ _ _ d, d) (λ _ d, d) (λ _ d, d) (λ _ d, d).
(** [DeferStore::iter]: the ids of the defers, [u16]s. *)
Definition defer_ids (defers : list DeferRecord) : res (list Z) :=
  mapM_res (λ i, if (Z.of_nat i <? 65536)%Z then Ret (Z.of_nat i) else Panic "there were more than 2^16 defers?  wtf")
    (seq 0 (length defers)).

(** ** [fragments/graph.rs] *)
Record AncestorEdge := MkAncestorEdge { parent_key : option FragmentKey; child_key : FragmentKey }.
Global Instance AncestorEdge_eq_dec : EqDecision AncestorEdge.
Proof. solve_decision. Defined.
(** [direct_parents]. *)
Record FragmentGraph := MkGraph { direct_parents : list (FragmentKey * list (option FragmentKey)) }.
Definition add_parent (parent : option FragmentKey) (parents : list (FragmentKey * list (option FragmentKey)))
    (child : FragmentKey) : list (FragmentKey * list (option FragmentKey)) :=
  map_update child [] (set_insert parent) parents.
Definition graph_new (fragments_in_fragments : list (FragmentKey * FragmentSpreadSet))
    (fragments_in_query : FragmentSpreadSet) : FragmentGraph :=
  MkGraph (foldl (add_parent None)
    (foldl (λ parents e, foldl (add_parent (Some e.1)) parents (fragment_keys e.2)) [] fragments_in_fragments)
    (fragment_keys fragments_in_query)).
Definition graph_fragments (graph : FragmentGraph) : list FragmentKey := fst <$> direct_parents graph.

Record AncestorEdgeIterator := MkEdgeIterator { edges_seen : list AncestorEdge; edge_stack : list AncestorEdge }.
Definition edges_to (child : FragmentKey) (parents : list (option FragmentKey)) : list AncestorEdge :=
  (λ parent, MkAncestorEdge parent child) <$> parents.
Definition ancestor_edges (graph : FragmentGraph) (key : FragmentKey) : res AncestorEdgeIterator :=
  parents ← expect "IndexMap: key not found" (map_get key (direct_parents graph));
  Ret (MkEdgeIterator [] (reverse (edges_to key parents))).
(** [next]: the loop that pops the edges seen before, and the edge it stops at. *)
Fixpoint pop_unseen (seen stack : list AncestorEdge) : option (AncestorEdge * list AncestorEdge) :=
  match stack with
  | [] => None
  | edge :: stack => if decide (edge ∈ seen) then pop_unseen seen stack else Some (edge, stack)
  end.
Definition edge_next (graph : FragmentGraph) (it : AncestorEdgeIterator) : option (AncestorEdge * AncestorEdgeIterator) :=
  '(edge, stack) ← pop_unseen (edges_seen it) (edge_stack it);
  let pushed :=
    match parent_key edge with
    | Some parent => edges_to parent (default [] (map_get parent (direct_parents graph)))
    | None => []
    end in
  Some (edge, MkEdgeIterator (edge :: edges_seen it) (reverse pushed ++ stack)).

(** ** [fragments/ancestry.rs] *)
Record FragmentAncestry := MkAncestry { fa_fragments : list FragmentDefinitionId; fa_selections : list SelectionId }.
(** The body of the loop over the edges. *)
Definition add_edge (fragments_in_fragments : list (FragmentKey * FragmentSpreadSet))
    (fragments_in_query : FragmentSpreadSet) (ancestry : FragmentAncestry) (edge : AncestorEdge) : FragmentAncestry :=
  match parent_key edge with
  | Some parent =>
      MkAncestry (set_insert (key_id parent) (fa_fragments ancestry))
        (set_extend (fa_selections ancestry)
           (default [] (map_get parent fragments_in_fragments ≫= spreads_for_fragment (child_key edge))))
  | None =>
      MkAncestry (fa_fragments ancestry)
        (set_extend (fa_selections ancestry) (default [] (spreads_for_fragment (child_key edge) fragments_in_query)))
  end.
Fixpoint edge_loop (fuel : nat) (graph : FragmentGraph) (it : AncestorEdgeIterator) (add : FragmentAncestry → AncestorEdge → FragmentAncestry)
    (ancestry : FragmentAncestry) : res FragmentAncestry :=
  match fuel with
  | 0 => Panic "out of fuel"
  | S fuel =>
      match edge_next graph it with
      | None => Ret ancestry
      | Some (edge, it) => edge_loop fuel graph it add (add ancestry edge)
      end
  end.
(** Every edge of the graph is met at most once. *)
Definition edge_fuel (graph : FragmentGraph) : nat := S (length (concat (snd <$> direct_parents graph))).
Definition calculate_ancestry (fragments_in_fragments : list (FragmentKey * FragmentSpreadSet))
    (fragments_in_query : FragmentSpreadSet) : res (list (FragmentKey * FragmentAncestry)) :=
  let graph := graph_new fragments_in_fragments fragments_in_query in
  fold_res (λ ancestor_map key,
    it ← ancestor_edges graph key;
    ancestry ← edge_loop (edge_fuel graph) graph it (add_edge fragments_in_fragments fragments_in_query) (MkAncestry [] []);
    Ret (map_insert key ancestry ancestor_map)) [] (graph_fragments graph).

(** ** [query_subset/mod.rs] *)
Record Partition := MkPartition { p_selections : list SelectionId; p_fragments : list FragmentDefinitionId }.
(** A variable is named by its position in the operation. *)
Record QuerySubset := MkSubset { qs_operation : nat; qs_partition : Partition; qs_variables : list nat }.
Definition subset_is_empty (s : QuerySubset) : bool := bool_decide (p_selections (qs_partition s) = []).
Definition subset_extend (other s : QuerySubset) : QuerySubset :=
  MkSubset (qs_operation s)
    (MkPartition (set_extend (p_selections (qs_partition s)) (p_selections (qs_partition other)))
       (set_extend (p_fragments (qs_partition s)) (p_fragments (qs_partition other))))
    (set_extend (qs_variables s) (qs_variables other)).
Definition contains_selection (s : QuerySubset) (selection : SelectionId) : bool :=
  bool_decide (selection ∈ p_selections (qs_partition s)).

(** ** [variables.rs] *)
(** [Value::variables_used] of cynic-parser. *)
Fixpoint variables_used (v : EValue) : list string :=
  match v with
  | EVVariable name => [name]
  | EVList items => concat (variables_used <$> items)
  | EVObject entries => concat ((λ e, variables_used e.2) <$> entries)
  | _ => []
  end.
Definition variables_used_in_argument (arguments : CArguments) : list string :=
  concat ((λ a, variables_used a.2) <$> arguments).
Definition variables_used_in_directive (directives : list CDirective) : list string :=
  concat ((λ d, variables_used_in_argument (cd_arguments d)) <$> directives).
Definition variables_used_in_selection (selection : CSelection) : list string :=
  match selection with
  | CField _ _ _ arguments directives _ => variables_used_in_argument arguments ++ variables_used_in_directive directives
  | CInlineFragment _ _ directives _ | CFragmentSpread _ _ directives => variables_used_in_directive directives
  end.
Definition variable_named (operation : COperation) (name : string) : option nat :=
  fst <$> list_find (λ v, cv_name v = name) (co_variables operation).
Definition variables_required (partition : Partition) (document : CDocument) (operation : COperation) : res (list nat) :=
  selections ← mapM_res (read_selection document) (p_selections partition);
  fragments ← mapM_res (read_fragment document) (p_fragments partition);
  let variables := set_extend [] (concat (variables_used_in_selection <$> selections)) in
  let variables := set_extend variables (concat ((λ f, variables_used_in_directive (cf_directives f)) <$> fragments)) in
  let variables := set_extend variables (variables_used_in_directive (co_directives operation)) in
  Ret (set_extend [] (filter_map (variable_named operation) variables)).

(** ** [planning/mod.rs] *)
Definition finalize_key (ancestors : list (FragmentKey * FragmentAncestry)) (partition : Partition) (key : FragmentKey)
    : Partition :=
  let fragments := set_insert (key_id key) (p_fragments partition) in
  match map_get key ancestors with
  | Some ancestry =>
      MkPartition (set_extend (p_selections partition) (fa_selections ancestry))
        (set_extend fragments (fa_fragments ancestry))
  | None => MkPartition (p_selections partition) fragments
  end.
Definition finalize (ancestors : list (FragmentKey * FragmentAncestry)) (p : PlanningPartition) : Partition :=
  foldl (finalize_key ancestors) (MkPartition (pp_selections p) []) (pp_fragments p).

Record CachingPlan := MkPlan {
  plan_document : CDocument;
  cache_partitions : list (CacheControl * QuerySubset);
  nocache_partition : QuerySubset;
  plan_operation : nat;
  plan_defers : list DeferRecord;
}.

Section plan.
Context `{CacheTypes} (document : CDocument).

(** The loop of [visit_fragments]. *)
Fixpoint fragment_loop (fuel : nat) (fragments_to_visit : list FragmentKey)
    (fragments_in_fragments : list (FragmentKey * FragmentSpreadSet)) (partitioner : QueryPartitioner) (defers : DeferVisitor)
    : res (string + (list (FragmentKey * FragmentSpreadSet) * QueryPartitioner * DeferVisitor)) :=
  match fuel with
  | 0 => Panic "out of fuel"
  | S fuel =>
      match fragments_to_visit with
      | [] => Ret (inr (fragments_in_fragments, partitioner, defers))
      | fragment_key :: fragments_to_visit =>
          fragment ← read_fragment document (key_id fragment_key);
          match map_get fragment_key fragments_in_fragments with
          | Some _ => fragment_loop fuel fragments_to_visit fragments_in_fragments partitioner defers
          | None =>
              partitioner ← for_next_fragment fragment_key partitioner;
              let fragment_tracker := tracker_new (spread_cache_control fragment_key) in
              let visited :=
                visit_fragment (visit_both partitioner_visitor (visit_both (tracker_visitor document) defer_visitor))
                  fragment (partitioner, (fragment_tracker, defers)) in
              match into_spreads visited.2.1 with
              | inl error => Ret (inl error)
              | inr spreads =>
                  fragment_loop fuel (reverse (fragment_keys spreads) ++ fragments_to_visit)
                    (map_insert fragment_key spreads fragments_in_fragments) visited.1 visited.2.2
              end
          end
      end
  end.

(** The cache controls that the fields below a selection set or its types
    have: with the fragments they bound the keys. *)
Fixpoint cache_controls_in (container : option MetaType) (selection : CSelection) : list CacheControl :=
  match selection with
  | CField _ _ name _ _ selection_set =>
      let edge := field_edge container selection name in
      option_list (edge_cache_control edge) ++ concat (cache_controls_in (edge_field_type edge) <$> selection_set)
  | CInlineFragment _ type_condition _ selection_set =>
      concat (cache_controls_in (new_container container type_condition) <$> selection_set)
  | CFragmentSpread _ _ _ => []
  end.
Definition all_cache_controls (operation : COperation) : list CacheControl :=
  option_list (type_cache_control query_type) ++
  concat (cache_controls_in (Some query_type) <$> co_selection_set operation) ++
  concat ((λ f, concat (cache_controls_in (lookup_type (cf_type_condition f)) <$> cf_selection_set f)) <$> cdoc_fragments document).
(** With [n] keys at most, [n] are pushed at first and [n] for each of them. *)
Definition key_bound (operation : COperation) : nat :=
  length (cdoc_fragments document) * S (length (all_cache_controls operation)).
Definition fragment_fuel (operation : COperation) : nat :=
  S (key_bound operation + key_bound operation * key_bound operation).

Definition visit_fragments (fuel : nat) (fragment_tracker : FragmentTracker) (partitioner : QueryPartitioner)
    (defers : DeferVisitor) : res (string + (list (CacheControl * Partition) * Partition * DeferVisitor)) :=
  match into_spreads fragment_tracker with
  | inl error => Ret (inl error)
  | inr fragments_in_query =>
      r ← fragment_loop fuel (reverse (fragment_keys fragments_in_query)) [] partitioner defers;
      match r with
      | inl error => Ret (inl error)
      | inr (fragments_in_fragments, partitioner, defers) =>
          ancestor_map ← calculate_ancestry fragments_in_fragments fragments_in_query;
          Ret (inr ((λ e, (e.1, finalize ancestor_map e.2)) <$> qp_cache_partitions partitioner,
                    finalize ancestor_map (qp_nocache_partition partitioner), defers))
      end
  end.

Definition select_operation (operation_name : option string) : string + (nat * COperation) :=
  match operation_name with
  | Some operation_name =>
      match list_find (λ op, co_name op = Some operation_name) (cdoc_operations document) with
      | Some operation => inr operation
      | None => inl ("Could not find an operation named " +:+ operation_name)
      end
  | None =>
      match cdoc_operations document with
      | operation :: _ => inr (0, operation)
      | [] => inl "the graphql document contains no operations"
      end
  end.

(** [build_plan] after parsing. *)
Definition plan_operations (operation_name : option string) : res (string + option CachingPlan) :=
  match select_operation operation_name with
  | inl error => Ret (inl error)
  | inr (operation_id, operation) =>
      if decide (co_type operation ≠ Query) then Ret (inr None)
      else
        let root_cache_control := type_cache_control query_type in
        visited ← visit_query (visit_both partitioner_visitor (visit_both (tracker_visitor document) defer_visitor)) operation
          (partitioner_new root_cache_control, (tracker_new root_cache_control, MkDeferVisitor [] []));
        r ← visit_fragments (fragment_fuel operation) visited.2.1 visited.1 visited.2.2;
        match r with
        | inl error => Ret (inl error)
        | inr (cache_groups, uncached_group, defers) =>
            nocache_variables ← variables_required uncached_group document operation;
            cache_partitions ← mapM_res (λ e,
              variables ← variables_required e.2 document operation;
              Ret (e.1, MkSubset operation_id e.2 variables)) cache_groups;
            Ret (inr (Some (MkPlan document cache_partitions (MkSubset operation_id uncached_group nocache_variables)
                              operation_id (dv_defers defers))))
        end
  end.
End plan.

Definition build_plan `{CacheTypes} (parse_executable_document : string → string + CDocument) (query : string)
    (operation_name : option string) : res (string + option CachingPlan) :=
  match parse_executable_document query with
  | inl error => Ret (inl error)
  | inr document => plan_operations document operation_name
  end.
