(* ===== verification/CachePlanProps.v ===== *)
(** * What planning computes, selection set by selection set

    The visitors are reduced to one list per selection set, [items]: the leaf
    fields and the fragment spreads below it, each with the path of selections
    that leads to it and the cache control in force there. *)
From S2P Require Import Prelude RustStd SdlAst CachePlan.
Local Open Scope list_scope.
Local Open Scope nat_scope.

(** ** [IndexSet] and [IndexMap] *)
Section collections.
Context {K V : Type} `{EqDecision K}.
Implicit Types (s : list K) (m : list (K * V)).

Lemma elem_of_set_insert (x y : K) s : x ∈ set_insert y s ↔ x = y ∨ x ∈ s.
Proof. unfold set_insert. case_decide; set_solver. Qed.
Lemma NoDup_set_insert (y : K) s : NoDup s → NoDup (set_insert y s).
Proof. unfold set_insert. case_decide; [done|]. intros. apply NoDup_app. split_and!; [done|set_solver|apply NoDup_singleton]. Qed.
Lemma elem_of_set_extend (x : K) s xs : x ∈ set_extend s xs ↔ x ∈ s ∨ x ∈ xs.
Proof.
  unfold set_extend. revert s. induction xs as [|y xs IH]; intros s; simpl; [set_solver|].
  rewrite IH, elem_of_set_insert. set_solver.
Qed.

Lemma map_get_cons k k' (v : V) m : map_get k ((k', v) :: m) = if decide (k' = k) then Some v else map_get k m.
Proof. unfold map_get. simpl. case_bool_decide; case_decide; done. Qed.
Lemma map_get_update k k' d f m :
  map_get k (map_update k' d f m) = if decide (k' = k) then Some (f (default d (map_get k' m))) else map_get k m.
Proof.
  induction m as [|[k1 v] m IH]; simpl.
  - rewrite map_get_cons. case_decide; done.
  - rewrite (map_get_cons k'), (map_get_cons k). destruct (decide (k1 = k')) as [->|E1]; rewrite map_get_cons;
      [by destruct (decide (k' = k))|].
    rewrite IH. repeat case_decide; congruence.
Qed.
Lemma map_get_insert k k' (v : V) m : map_get k (map_insert k' v m) = if decide (k' = k) then Some v else map_get k m.
Proof. apply map_get_update. Qed.
Lemma map_get_is_Some k m : is_Some (map_get k m) ↔ k ∈ m.*1.
Proof.
  induction m as [|[k1 v] m IH]; simpl; [split; [intros []; done|set_solver]|].
  rewrite map_get_cons. case_decide; set_solver.
Qed.
Lemma map_get_elem_of k (v : V) m : map_get k m = Some v → (k, v) ∈ m.
Proof.
  induction m as [|[k1 v1] m IH]; [done|]. rewrite map_get_cons. case_decide; [intros [= ->]; set_solver|set_solver].
Qed.
Lemma elem_of_map_get k (v : V) m : NoDup m.*1 → (k, v) ∈ m → map_get k m = Some v.
Proof.
  induction m as [|[k1 v1] m IH]; [set_solver|]. rewrite map_get_cons. intros [Hn HN]%NoDup_cons [E|Hm]%elem_of_cons.
  - case_decide; congruence.
  - case_decide; [subst|by apply IH]. destruct Hn. apply list_elem_of_fmap. by exists (k, v).
Qed.
Lemma map_update_keys k d f m : (map_update k d f m).*1 = set_insert k m.*1.
Proof.
  induction m as [|[k1 v] m IH]; [done|].
  cbn [map_update]. destruct (decide (k1 = k)) as [->|E].
  - rewrite !fmap_cons. unfold set_insert. by rewrite decide_True by (simpl; left).
  - rewrite !fmap_cons, IH. unfold set_insert. cbn [fst].
    destruct (decide (k ∈ m.*1)); [by rewrite decide_True by (by right)|rewrite decide_False; [done|]].
    intros [?|?]%elem_of_cons; congruence.
Qed.
Lemma map_update_NoDup k d f m : NoDup m.*1 → NoDup (map_update k d f m).*1.
Proof. rewrite map_update_keys. apply NoDup_set_insert. Qed.
End collections.

(** ** The items of a selection set *)

(** The induction on selections, with the hypothesis for every child. *)
Lemma CSelection_rect' (P : CSelection → Prop) :
  (∀ id alias name args dirs sels, Forall P sels → P (CField id alias name args dirs sels)) →
  (∀ id tc dirs sels, Forall P sels → P (CInlineFragment id tc dirs sels)) →
  (∀ id name dirs, P (CFragmentSpread id name dirs)) → ∀ sel, P sel.
Proof.
  intros H1 H2 H3. fix IH 1. intros [id alias name args dirs sels|id tc dirs sels|id name dirs].
  - apply H1. induction sels; constructor; auto.
  - apply H2. induction sels; constructor; auto.
  - apply H3.
Qed.

(** A path of selections, what it leads to (a leaf, or the spread of a
    fragment) and the cache control in force there. *)
Abbreviation Item := (list SelectionId * option string * option CacheControl)%type.
Definition prepend (id : SelectionId) (i : Item) : Item := (id :: i.1.1, i.1.2, i.2).

(** The partitions of a partitioner. *)
Abbreviation Contents := (list (CacheControl * PlanningPartition) * PlanningPartition)%type.

Section items.
Context `{CacheTypes}.

(** The innermost cache control below an edge. *)
Definition innermost (edge : FieldEdge) (cc : option CacheControl) : option CacheControl :=
  match edge_cache_control edge with Some c => Some c | None => cc end.
Fixpoint items (container : option MetaType) (cc : option CacheControl) (selection : CSelection) : list Item :=
  match selection with
  | CField id _ name _ _ selection_set =>
      let edge := field_edge container selection name in
      match selection_set with
      | [] => [([id], None, innermost edge cc)]
      | _ => prepend id <$> concat (items (edge_field_type edge) (innermost edge cc) <$> selection_set)
      end
  | CInlineFragment id type_condition _ selection_set =>
      prepend id <$> concat (items (new_container container type_condition) cc <$> selection_set)
  | CFragmentSpread id name _ => [([id], Some name, cc)]
  end.
Definition items_of (container : option MetaType) (cc : option CacheControl) (selections : list CSelection) : list Item :=
  concat (items container cc <$> selections).

Lemma elem_of_items_of container cc sels i :
  i ∈ items_of container cc sels ↔ ∃ sel, sel ∈ sels ∧ i ∈ items container cc sel.
Proof. unfold items_of. rewrite elem_of_concat_map. set_solver. Qed.
Lemma items_field container cc id alias name args dirs sels :
  sels ≠ [] →
  items container cc (CField id alias name args dirs sels) =
  let edge := field_edge container (CField id alias name args dirs sels) name in
  prepend id <$> items_of (edge_field_type edge) (innermost edge cc) sels.
Proof. intros Hs. destruct sels; [done|]. reflexivity. Qed.

(** ** Visitors side by side *)
Lemma visit_both_selection {S T} (v : Visitor S) (w : Visitor T) sel container s t :
  visit_selection (visit_both v w) container (s, t) sel =
  (visit_selection v container s sel, visit_selection w container t sel).
Proof.
  assert (∀ sels container s t,
    Forall (λ sel, ∀ container s t, visit_selection (visit_both v w) container (s, t) sel =
      (visit_selection v container s sel, visit_selection w container t sel)) sels →
    foldl (visit_selection (visit_both v w) container) (s, t) sels =
    (foldl (visit_selection v container) s sels, foldl (visit_selection w container) t sels)) as Hfold.
  { clear. intros sels container s t Hs. revert s t. induction Hs as [|sel sels Hsel _ IH]; intros; simpl; [done|].
    by rewrite Hsel, IH. }
  revert container s t. induction sel as [?????? IH|???? IH|] using CSelection_rect'; intros; cbn [visit_selection].
  - simpl. by rewrite Hfold.
  - simpl. by rewrite Hfold.
  - done.
Qed.
Lemma visit_both_set {S T} (v : Visitor S) (w : Visitor T) container s t sels :
  visit_selection_set (visit_both v w) container (s, t) sels =
  (visit_selection_set v container s sels, visit_selection_set w container t sels).
Proof.
  unfold visit_selection_set. revert s t. induction sels as [|sel sels IH]; intros; simpl; [done|].
  by rewrite visit_both_selection, IH.
Qed.

(** ** The partitioner *)
Definition put (cur : option FragmentKey) (st : list SelectionId) (x : Contents) (i : Item) : Contents :=
  match i.1.2 with
  | Some _ => x
  | None =>
      let f := update (reverse i.1.1 ++ st) cur in
      match i.2 with
      | Some c => (map_update c planning_default f x.1, x.2)
      | None => (x.1, f x.2)
      end
  end.
Definition with_contents (p : QueryPartitioner) (x : Contents) : QueryPartitioner :=
  MkPartitioner (qp_selection_stack p) (qp_cache_control_stack p) (current_fragment p) x.1 x.2.
Definition contents (p : QueryPartitioner) : Contents := (qp_cache_partitions p, qp_nocache_partition p).

Lemma put_prepend cur st id x its : foldl (put cur st) x (prepend id <$> its) = foldl (put cur (id :: st)) x its.
Proof.
  revert x. induction its as [|[[path t] cc] its IH]; intros x; [done|]. simpl. rewrite IH. f_equal.
  unfold put. simpl. by rewrite reverse_cons, <-app_assoc.
Qed.

Lemma partitioner_fold sels p container :
  Forall (λ sel, ∀ p container, visit_selection partitioner_visitor container p sel =
    with_contents p (foldl (put (current_fragment p) (qp_selection_stack p)) (contents p)
      (items container (head (qp_cache_control_stack p)) sel))) sels →
  foldl (visit_selection partitioner_visitor container) p sels =
  with_contents p (foldl (put (current_fragment p) (qp_selection_stack p)) (contents p)
    (items_of container (head (qp_cache_control_stack p)) sels)).
Proof.
  intros Hs. unfold items_of. revert p. induction Hs as [|sel sels Hsel _ IH]; intros p; simpl; [by destruct p|].
  rewrite Hsel, IH, foldl_app. simpl. f_equal. unfold contents at 1. simpl. by rewrite <-surjective_pairing.
Qed.
Lemma partitioner_selection sel p container :
  visit_selection partitioner_visitor container p sel =
  with_contents p (foldl (put (current_fragment p) (qp_selection_stack p)) (contents p)
    (items container (head (qp_cache_control_stack p)) sel)).
Proof.
  revert p container.
  induction sel as [id alias name args dirs sels IH|id tc dirs sels IH|id name dirs] using CSelection_rect';
    intros [st cs cur cps nc] container; cbn [visit_selection].
  - cbn zeta. set (sel := CField id alias name args dirs sels). set (edge := field_edge container sel name).
    cbn [enter_selection enter_field exit_field exit_selection partitioner_visitor].
    unfold partitioner_enter_field, partitioner_exit_field. fold sel.
    destruct (decide (sels = [])) as [->|Hne].
    + subst sel. simpl. unfold update_partition, innermost. fold edge.
      destruct (edge_cache_control edge) eqn:E; simpl; [done|].
      by destruct cs as [|c cs].
    + assert ((length (children (edge_selection edge)) =? 0) = false) as ->.
      { subst sel edge. simpl. destruct sels; done. }
      cbn [negb]. rewrite partitioner_fold by done. subst sel. rewrite items_field by done. cbn zeta. fold edge.
      unfold innermost. destruct (edge_cache_control edge) eqn:E; simpl; by rewrite put_prepend.
  - cbn [enter_selection exit_selection partitioner_visitor].
    rewrite partitioner_fold by done. simpl. by rewrite put_prepend.
  - done.
Qed.
Lemma partitioner_set sels p container :
  visit_selection_set partitioner_visitor container p sels =
  with_contents p (foldl (put (current_fragment p) (qp_selection_stack p)) (contents p)
    (items_of container (head (qp_cache_control_stack p)) sels)).
Proof. apply partitioner_fold, Forall_forall. intros. apply partitioner_selection. Qed.

(** ** The tracker *)
Section tracker.
Context (document : CDocument).

Definition key_of (name : string) (cc : option CacheControl) : option FragmentKey :=
  (λ id, MkFragmentKey id cc) <$> fragment_named document name.
Definition track (st : list SelectionId) (x : FragmentSpreadSet * list string) (i : Item) : FragmentSpreadSet * list string :=
  match i.1.2 with
  | None => x
  | Some name =>
      match key_of name i.2 with
      | Some key => (spread_insert key (set_extend [] (reverse (reverse i.1.1 ++ st))) x.1, x.2)
      | None => (x.1, x.2 ++ [name])
      end
  end.
Definition with_tracked (t : FragmentTracker) (x : FragmentSpreadSet * list string) : FragmentTracker :=
  MkTracker (ft_cache_control_stack t) (ft_selection_stack t) x.1 x.2.
Definition tracked (t : FragmentTracker) : FragmentSpreadSet * list string := (ft_spreads t, ft_missing_fragments t).

Lemma track_prepend st id x its : foldl (track st) x (prepend id <$> its) = foldl (track (id :: st)) x its.
Proof.
  revert x. induction its as [|[[path t] cc] its IH]; intros x; [done|]. simpl. rewrite IH. f_equal.
  unfold track. simpl. by rewrite (reverse_cons path), <-app_assoc.
Qed.
Lemma tracker_fold sels t container :
  Forall (λ sel, ∀ t container, visit_selection (tracker_visitor document) container t sel =
    with_tracked t (foldl (track (ft_selection_stack t)) (tracked t)
      (items container (head (ft_cache_control_stack t)) sel))) sels →
  foldl (visit_selection (tracker_visitor document) container) t sels =
  with_tracked t (foldl (track (ft_selection_stack t)) (tracked t)
    (items_of container (head (ft_cache_control_stack t)) sels)).
Proof.
  intros Hs. unfold items_of. revert t. induction Hs as [|sel sels Hsel _ IH]; intros t; simpl; [by destruct t|].
  rewrite Hsel, IH, foldl_app. simpl. f_equal. unfold tracked at 1. simpl. by rewrite <-surjective_pairing.
Qed.
Lemma tracker_selection sel t container :
  visit_selection (tracker_visitor document) container t sel =
  with_tracked t (foldl (track (ft_selection_stack t)) (tracked t)
    (items container (head (ft_cache_control_stack t)) sel)).
Proof.
  revert t container.
  induction sel as [id alias name args dirs sels IH|id tc dirs sels IH|id name dirs] using CSelection_rect';
    intros [cs st sp mi] container; cbn [visit_selection].
  - cbn zeta. set (sel := CField id alias name args dirs sels). set (edge := field_edge container sel name).
    cbn [enter_selection enter_field exit_field exit_selection tracker_visitor].
    rewrite tracker_fold by done.
    destruct (decide (sels = [])) as [->|Hne].
    + subst sel. simpl. by destruct (edge_cache_control edge) eqn:E.
    + subst sel. rewrite items_field by done. cbn zeta. fold edge.
      unfold innermost. destruct (edge_cache_control edge) eqn:E; simpl; by rewrite track_prepend.
  - cbn [enter_selection exit_selection tracker_visitor].
    rewrite tracker_fold by done. simpl. by rewrite track_prepend.
  - cbn [enter_selection exit_selection tracker_visitor fragment_spread track_fragment_spread selection_id].
    unfold key_for. simpl. unfold track. simpl. unfold key_of.
    by destruct (fragment_named document name); simpl.
Qed.
Lemma tracker_set sels t container :
  visit_selection_set (tracker_visitor document) container t sels =
  with_tracked t (foldl (track (ft_selection_stack t)) (tracked t)
    (items_of container (head (ft_cache_control_stack t)) sels)).
Proof. apply tracker_fold, Forall_forall. intros. apply tracker_selection. Qed.

(** What the tracker has after a root selection set. *)
Lemma track_spec its x k s :
  let r := foldl (track []) x its in
  (k ∈ fragment_keys r.1 ↔ k ∈ fragment_keys x.1 ∨ ∃ path name cc, (path, Some name, cc) ∈ its ∧ key_of name cc = Some k) ∧
  (s ∈ default [] (spreads_for_fragment k r.1) ↔ s ∈ default [] (spreads_for_fragment k x.1) ∨
    ∃ path name cc, (path, Some name, cc) ∈ its ∧ key_of name cc = Some k ∧ s ∈ path) ∧
  (NoDup (fragment_keys x.1) → NoDup (fragment_keys r.1)).
Proof.
  cbn zeta. revert x. induction its as [|[[path t] cc] its IH]; intros x; cbn [foldl].
  { split_and!; set_solver. }
  destruct (IH (track [] x (path, t, cc))) as (H1 & H2 & H3). rewrite H1, H2. clear IH H1 H2.
  destruct t as [name|]; [|unfold track; simpl; split_and!; [set_solver|set_solver|done]].
  unfold track in *. cbn [fst snd] in *. destruct (key_of name cc) as [k'|] eqn:E; [|].
  - cbn [fst snd] in *. rewrite app_nil_r, reverse_involutive in *.
    unfold fragment_keys, spreads_for_fragment, spread_insert in *. cbn [spreads] in *.
    rewrite map_update_keys, elem_of_set_insert, map_get_update in *.
    split_and!.
    + split; [|set_solver].
      intros [[->|?]|?]; [right; exists path, name, cc; set_solver|by left|set_solver].
    + case_decide as Ek; [subst k'|]; simpl.
      * rewrite !elem_of_set_extend. split; [intros [[?|[Hs|?]]|?]|]; [by left|by apply not_elem_of_nil in Hs| |set_solver|set_solver].
        right. exists path, name, cc. set_solver.
      * split; [set_solver|]. intros [?|(path' & name' & cc' & [[= -> -> ->]|?]%elem_of_cons & ? & ?)]; [by left|congruence|].
        right. set_solver.
    + intros HN. apply H3. rewrite ?map_update_keys. by apply NoDup_set_insert.
  - cbn [fst snd] in *. split_and!; [| |done].
    + split; [set_solver|]. intros [?|(path' & name' & cc' & [[= -> -> ->]|?]%elem_of_cons & ?)]; [by left|congruence|set_solver].
    + split; [set_solver|]. intros [?|(path' & name' & cc' & [[= -> -> ->]|?]%elem_of_cons & ? & ?)]; [by left|congruence|set_solver].
Qed.
Lemma track_missing its x :
  (foldl (track []) x its).2 =
  x.2 ++ filter_map (λ i : Item, i.1.2 ≫= λ name, match key_of name i.2 with Some _ => None | None => Some name end) its.
Proof.
  revert x. induction its as [|[[path [name|]] cc] its IH]; intros x; cbn [foldl]; [by rewrite app_nil_r| |].
  - rewrite IH. unfold filter_map. cbn [omap list_omap]. unfold track. simpl.
    destruct (key_of name cc); simpl; by rewrite ?(right_id_L [] (++)), <-?(assoc_L (++)).
  - rewrite IH. done.
Qed.
End tracker.

(** ** The contents of the partitions *)

(** The partition of a cache control, or that of the leaves without. *)
Definition part (c : option CacheControl) (x : Contents) : PlanningPartition :=
  match c with Some c => default planning_default (map_get c x.1) | None => x.2 end.

Lemma part_put c cur x path t cc :
  part c (put cur [] x (path, t, cc)) =
  if decide (t = None ∧ cc = c) then update (reverse path) cur (part c x) else part c x.
Proof.
  unfold put. cbn [fst snd]. rewrite app_nil_r. destruct t as [name|]; [by rewrite decide_False by (intros []; done)|].
  destruct cc as [cc|], c as [c|]; cbn [part fst snd].
  - rewrite map_get_update. destruct (decide (cc = c)) as [->|Hn].
    + by rewrite decide_True by done.
    + rewrite decide_False; [done|]. intros [_ ?]. congruence.
  - rewrite decide_False; [done|]. intros []; done.
  - rewrite decide_False; [done|]. intros []; done.
  - by rewrite decide_True by done.
Qed.
(** The cache controls with a partition, each once. *)
Lemma put_keys cur its x c :
  let r := foldl (put cur []) x its in
  (c ∈ r.1.*1 ↔ c ∈ x.1.*1 ∨ ∃ path, (path, None, Some c) ∈ its) ∧ (NoDup x.1.*1 → NoDup r.1.*1).
Proof.
  cbn zeta. revert x. induction its as [|[[path t] cc] its IH]; intros x; cbn [foldl]; [split; [set_solver|done]|].
  destruct (IH (put cur [] x (path, t, cc))) as [-> H2].
  destruct t as [name|]; [unfold put; simpl; split; [set_solver|done]|].
  destruct cc as [cc|]; [|unfold put; simpl; split; [set_solver|done]].
  unfold put in *. cbn [fst snd] in *. rewrite map_update_keys in *. split; [|intros; by apply H2, NoDup_set_insert].
  rewrite elem_of_set_insert. split.
  - intros [[->|?]|?]; [right; exists path; left|by left|set_solver].
  - intros [?|[path' [[= -> ->]|?]%elem_of_cons]]; set_solver.
Qed.

(** Every selection is below a fixed list of others, from the root down. *)
Definition above_ok (above : SelectionId → list SelectionId) (path : list SelectionId) : Prop :=
  ∀ a x b, path = a ++ x :: b → a = above x.
Definition closed (above : SelectionId → list SelectionId) (l : list SelectionId) : Prop :=
  ∀ x y, x ∈ l → y ∈ above x → y ∈ l.

Section above.
Context (above : SelectionId → list SelectionId).

Lemma above_ok_NoDup path : above_ok above path → NoDup path.
Proof.
  intros Ha. apply NoDup_alt. intros i j x Hi Hj.
  pose proof (list_elem_of_split_length _ _ _ Hi) as (a & b & -> & ->).
  pose proof (Ha _ _ _ eq_refl) as E. apply list_elem_of_split_length in Hj as (a' & b' & E' & ->).
  apply Ha in E'. congruence.
Qed.
Lemma above_ok_init path x : above_ok above (path ++ [x]) → above_ok above path.
Proof. intros Ha a y b ->. apply (Ha a y (b ++ [x])). by rewrite <-app_assoc. Qed.

(** The loop that stops early adds the whole path. *)
Lemma elem_of_update_selections path old new s :
  above_ok above path → closed above old → (∀ x, x ∈ new → x ∉ path) →
  s ∈ update_selections (reverse path) (old ++ new) ↔ s ∈ old ∨ s ∈ new ∨ s ∈ path.
Proof.
  revert new. induction path as [|x path IH] using rev_ind; intros new Ha Hc Hn; simpl; [set_solver|].
  rewrite reverse_snoc. simpl. pose proof (above_ok_NoDup _ Ha) as HN.
  case_decide as Hx.
  - assert (x ∈ old) as Hxo by set_solver.
    assert (∀ y, y ∈ path → y ∈ old) by (intros y Hy; eapply Hc; [done|]; by rewrite <-(Ha path x [])).
    set_solver.
  - rewrite <-(assoc_L (++)), IH; [set_solver|by eapply above_ok_init|done|].
    apply NoDup_app in HN as (_ & Hd & _). set_solver.
Qed.

Lemma update_spec path cur p s k :
  above_ok above path → closed above (pp_selections p) →
  (s ∈ pp_selections (update (reverse path) cur p) ↔ s ∈ pp_selections p ∨ s ∈ path) ∧
  (k ∈ pp_fragments (update (reverse path) cur p) ↔ k ∈ pp_fragments p ∨ cur = Some k).
Proof.
  intros Ha Hc. unfold update. simpl. split.
  - rewrite <-(app_nil_r (pp_selections p)) at 1. rewrite elem_of_update_selections; [set_solver|done|done|set_solver].
  - rewrite elem_of_set_extend. destruct cur; set_solver.
Qed.
Lemma update_closed path cur p :
  above_ok above path → closed above (pp_selections p) → closed above (pp_selections (update (reverse path) cur p)).
Proof.
  intros Ha Hc x y. destruct (update_spec path cur p x (MkFragmentKey 0 None) Ha Hc) as [-> _].
  destruct (update_spec path cur p y (MkFragmentKey 0 None) Ha Hc) as [-> _].
  intros [Hx|(a & b & E)%list_elem_of_split] Hy; [left; by eapply Hc|right].
  apply Ha in E as Ea. subst a. rewrite E. set_solver.
Qed.

(** A partition after a selection set has been visited: the paths to its
    leaves, and the current fragment if it has one. *)
Lemma put_spec its cur x c :
  Forall (λ i, above_ok above i.1.1) its → closed above (pp_selections (part c x)) →
  let r := part c (foldl (put cur []) x its) in
  (∀ s, s ∈ pp_selections r ↔ s ∈ pp_selections (part c x) ∨ ∃ path, (path, None, c) ∈ its ∧ s ∈ path) ∧
  (∀ k, k ∈ pp_fragments r ↔ k ∈ pp_fragments (part c x) ∨ cur = Some k ∧ ∃ path, (path, None, c) ∈ its) ∧
  closed above (pp_selections r).
Proof.
  intros Ha. revert x. induction Ha as [|[[path t] cc] its Hi Ha IH]; intros x Hc; cbn [foldl]; cbn zeta.
  { split_and!; [set_solver|set_solver|done]. }
  destruct (IH (put cur [] x (path, t, cc))) as (H1 & H2 & H3); rewrite part_put in *.
  - case_decide; [by apply update_closed|done].
  - case_decide as E; [destruct E as [-> ->]|].
    + split_and!; [intros s; rewrite H1|intros k; rewrite H2|done].
      * destruct (update_spec path cur (part c x) s (MkFragmentKey 0 None) Hi Hc) as [-> _].
        split; [|set_solver]. intros [[?|?]|?]; [by left|right; exists path; set_solver|set_solver].
      * destruct (update_spec path cur (part c x) 0 k Hi Hc) as [_ ->].
        split; [|set_solver]. intros [[?|?]|?]; [by left|right; split; [done|]; exists path; set_solver|set_solver].
    + split_and!; [intros s; rewrite H1|intros k; rewrite H2|done].
      * split; [set_solver|]. intros [?|(p & [[= ? ? ?]|?]%elem_of_cons & ?)]; [by left|by destruct E|set_solver].
      * split; [set_solver|]. intros [?|(? & p & [[= ? ? ?]|?]%elem_of_cons)]; [by left|by destruct E|set_solver].
Qed.
End above.

(** ** The selections above a selection *)

(** cynic-parser gives every selection of a document an id of its own. *)
Definition doc_wf (document : CDocument) : Prop := NoDup (selection_id <$> selections_of document).

(** Every selection below one, with the ids on the way to it. *)
Fixpoint chains (sel : CSelection) : list (SelectionId * list SelectionId) :=
  (selection_id sel, []) ::
  ((λ e, (e.1, selection_id sel :: e.2)) <$>
    match sel with
    | CField _ _ _ _ _ sels | CInlineFragment _ _ _ sels => concat (chains <$> sels)
    | CFragmentSpread _ _ _ => []
    end).
Definition all_chains (document : CDocument) : list (SelectionId * list SelectionId) :=
  concat (chains <$>
    concat (co_selection_set <$> cdoc_operations document) ++ concat (cf_selection_set <$> cdoc_fragments document)).

Lemma chains_ids_list l :
  Forall (λ sel, (chains sel).*1 = selection_id <$> selections_in sel) l →
  (concat (chains <$> l)).*1 = selection_id <$> concat (selections_in <$> l).
Proof. induction 1 as [|x l Hx _ IH]; [done|]. rewrite !fmap_cons. cbn [concat]. by rewrite !fmap_app, Hx, IH. Qed.
Lemma chains_ids sel : (chains sel).*1 = selection_id <$> selections_in sel.
Proof.
  induction sel as [id alias name args dirs sels IH|id tc dirs sels IH|id name dirs] using CSelection_rect';
    cbn [chains selections_in]; [| |done]; rewrite !fmap_cons, <-list_fmap_compose; f_equal;
    rewrite <-chains_ids_list by done; apply list_fmap_ext; by intros.
Qed.
Lemma all_chains_ids document : (all_chains document).*1 = selection_id <$> selections_of document.
Proof. apply chains_ids_list, Forall_forall. intros. apply chains_ids. Qed.

(** The path of an item is a chain. *)
Definition on_chains (l : list (SelectionId * list SelectionId)) (path : list SelectionId) : Prop :=
  ∀ a x b, path = a ++ x :: b → (x, a) ∈ l.
Lemma on_chains_cons sel l path :
  on_chains l path →
  (∀ x a, (x, a) ∈ l → (x, selection_id sel :: a) ∈ chains sel) → on_chains (chains sel) (selection_id sel :: path).
Proof.
  intros Hp Hl [|y a] x b [= E1 E2]; subst; [destruct sel; left|]. apply Hl. by apply (Hp _ _ b).
Qed.
Lemma items_chains container cc sel i : i ∈ items container cc sel → on_chains (chains sel) i.1.1.
Proof.
  assert (∀ sels container cc i,
    Forall (λ sel, ∀ container cc i, i ∈ items container cc sel → on_chains (chains sel) i.1.1) sels →
    i ∈ items_of container cc sels → on_chains (concat (chains <$> sels)) i.1.1) as Hset.
  { clear. intros sels container cc i Hs (sel & Hsel & Hi)%elem_of_items_of a x b E.
    rewrite Forall_forall in Hs. apply elem_of_concat_map. exists sel. split; [done|]. by eapply Hs. }
  revert container cc i.
  induction sel as [id alias name args dirs sels IH|id tc dirs sels IH|id name dirs] using CSelection_rect';
    intros container cc i Hi.
  - destruct (decide (sels = [])) as [->|Hne].
    + simpl in Hi. apply list_elem_of_singleton in Hi as ->. apply (on_chains_cons (CField id alias name args dirs []) []).
      * intros [|??] x b; done.
      * set_solver.
    + rewrite items_field in Hi by done. apply list_elem_of_fmap in Hi as (j & -> & Hj).
      apply (on_chains_cons (CField id alias name args dirs sels) (concat (chains <$> sels))).
      * by eapply Hset.
      * intros x a Hx. right. apply list_elem_of_fmap. by exists (x, a).
  - simpl in Hi. apply list_elem_of_fmap in Hi as (j & -> & Hj).
    apply (on_chains_cons (CInlineFragment id tc dirs sels) (concat (chains <$> sels))).
    + by eapply Hset.
    + intros x a Hx. right. apply list_elem_of_fmap. by exists (x, a).
  - simpl in Hi. apply list_elem_of_singleton in Hi as ->. apply (on_chains_cons (CFragmentSpread id name dirs) []).
    + intros [|??] x b; done.
    + set_solver.
Qed.

Definition above_of (document : CDocument) (x : SelectionId) : list SelectionId := default [] (map_get x (all_chains document)).
Lemma above_of_items document container cc sels i :
  doc_wf document →
  (∀ sel, sel ∈ sels → sel ∈ concat (co_selection_set <$> cdoc_operations document) ++ concat (cf_selection_set <$> cdoc_fragments document)) →
  i ∈ items_of container cc sels → above_ok (above_of document) i.1.1.
Proof.
  intros Hwf Hsub (sel & Hsel & Hi)%elem_of_items_of a x b E. unfold above_of.
  rewrite (elem_of_map_get x a); [done| |].
  - by rewrite all_chains_ids.
  - apply elem_of_concat_map. exists sel. split; [by apply Hsub|]. by eapply items_chains.
Qed.

(** ** The cache controls of a selection set *)
Lemma items_cache_control container cc sel path t c :
  (path, t, c) ∈ items container cc sel → c = cc ∨ ∃ c', c = Some c' ∧ c' ∈ cache_controls_in container sel.
Proof.
  revert container cc path.
  assert (∀ sels container cc path,
    Forall (λ sel, ∀ container cc path, (path, t, c) ∈ items container cc sel →
      c = cc ∨ ∃ c', c = Some c' ∧ c' ∈ cache_controls_in container sel) sels →
    (path, t, c) ∈ items_of container cc sels →
    c = cc ∨ ∃ c', c = Some c' ∧ c' ∈ concat (cache_controls_in container <$> sels)) as Hset.
  { intros sels container cc path Hs (x & Hsel & Hi)%elem_of_items_of. rewrite Forall_forall in Hs.
    destruct (Hs x Hsel _ _ _ Hi) as [?|(c' & ? & ?)]; [by left|]. right. exists c'. split; [done|].
    apply elem_of_concat_map. eauto. }
  induction sel as [id alias name args dirs sels IH|id tc dirs sels IH|id name dirs] using CSelection_rect';
    intros container cc path Hi.
  - cbn [cache_controls_in]. cbn zeta. set (edge := field_edge container _ name).
    assert (c = innermost edge cc ∨ ∃ c', c = Some c' ∧ c' ∈ concat (cache_controls_in (edge_field_type edge) <$> sels)) as Hc.
    { destruct (decide (sels = [])) as [->|Hne].
      - simpl in Hi. apply list_elem_of_singleton in Hi as [= -> -> ->]. by left.
      - rewrite items_field in Hi by done. apply list_elem_of_fmap in Hi as ([[path' t'] c'] & [= -> -> ->] & Hj).
        by eapply Hset. }
    destruct Hc as [->|(c' & -> & Hc)]; [|right; exists c'; set_solver].
    unfold innermost. destruct (edge_cache_control edge) as [c'|]; [right; exists c'; set_solver|by left].
  - simpl in Hi. apply list_elem_of_fmap in Hi as ([[path' t'] c'] & [= -> -> ->] & Hj). by eapply Hset.
  - simpl in Hi. apply list_elem_of_singleton in Hi as [= -> -> ->]. by left.
Qed.
End items.
