(* ===== verification/CachePlanClaims.v ===== *)
(** * Planning as a whole

    The fragments that are visited are those the query reaches; the ancestors
    of a fragment are the edges that lead to it; so a partition holds exactly
    the selections and the fragments on the paths, through the spreads of
    fragments, to the leaves whose innermost cache control it has. *)
From S2P Require Import Prelude RustStd SdlAst CachePlan CachePlanProps.
Local Open Scope string_scope.
Local Open Scope list_scope.
Local Open Scope nat_scope.

(** A duplicate-free list of elements of another is not longer. *)
Lemma NoDup_incl_length {A} (l k : list A) : NoDup l → (∀ x, x ∈ l → x ∈ k) → length l ≤ length k.
Proof. intros HN Hi. by apply submseteq_length, NoDup_submseteq. Qed.
(** Filtering out one more element that is there. *)
Lemma filter_not_in_lt {A} `{EqDecision A} (u seen : list A) x :
  x ∈ u → x ∉ seen →
  length (filter (λ y, y ∉ x :: seen) u) < length (filter (λ y, y ∉ seen) u).
Proof.
  intros Hx Hs. assert (filter (λ y, y ∉ x :: seen) u = filter (λ y, y ≠ x) (filter (λ y, y ∉ seen) u)) as ->.
  { rewrite list_filter_filter. apply list_filter_iff. intros y. set_solver. }
  assert (x ∈ filter (λ y, y ∉ seen) u) as Hf by (by apply list_elem_of_filter).
  revert Hf. generalize (filter (λ y, y ∉ seen) u). intros l.
  induction l as [|y l IH]; [set_solver|]. intros [<-|Hl]%elem_of_cons; rewrite filter_cons.
  - rewrite decide_False by (intros E; by destruct E). simpl. apply Nat.lt_succ_r, length_filter.
  - case_decide; simpl; [apply IH in Hl; lia|]. apply Nat.lt_succ_r, length_filter.
Qed.
Lemma filter_not_in_le {A} `{EqDecision A} (u s1 s2 : list A) :
  (∀ x, x ∈ s1 → x ∈ s2) → length (filter (λ y, y ∉ s2) u) ≤ length (filter (λ y, y ∉ s1) u).
Proof.
  intros Hs. induction u as [|y u IH]; [done|]. rewrite !filter_cons. repeat case_decide; simpl; try lia. set_solver.
Qed.

Section graph.
Context `{CacheTypes} (document : CDocument) (operation : COperation).
Implicit Types (n : option FragmentKey) (k : FragmentKey) (path : list SelectionId).

(** A node is the query or a fragment under the cache control of a spread. *)
Definition node_items (n : option FragmentKey) : list Item :=
  match n with
  | None => items_of (Some query_type) (type_cache_control query_type) (co_selection_set operation)
  | Some k =>
      match cdoc_fragments document !! key_id k with
      | Some f => items_of (lookup_type (cf_type_condition f)) (spread_cache_control k) (cf_selection_set f)
      | None => []
      end
  end.
(** A node spreads a fragment at the end of a path, or names one that is not there. *)
Definition edge (n : option FragmentKey) (k : FragmentKey) (path : list SelectionId) : Prop :=
  ∃ name cc, (path, Some name, cc) ∈ node_items n ∧ key_of document name cc = Some k.
Definition missing (n : option FragmentKey) : Prop :=
  ∃ path name cc, (path, Some name, cc) ∈ node_items n ∧ key_of document name cc = None.
Inductive reach : option FragmentKey → Prop :=
| reach_query : reach None
| reach_spread n k path : reach n → edge n k path → reach (Some k).

Definition node_tracked (n : option FragmentKey) : FragmentSpreadSet * list string :=
  foldl (track document []) (MkSpreadSet [], []) (node_items n).
Definition node_spreads (n : option FragmentKey) : FragmentSpreadSet := (node_tracked n).1.

Lemma elem_of_node_keys n k : k ∈ fragment_keys (node_spreads n) ↔ ∃ path, edge n k path.
Proof.
  unfold node_spreads, node_tracked, edge.
  destruct (track_spec document (node_items n) (MkSpreadSet [], []) k 0) as [-> _]. set_solver.
Qed.
Lemma elem_of_node_spreads n k s :
  s ∈ default [] (spreads_for_fragment k (node_spreads n)) ↔ ∃ path, edge n k path ∧ s ∈ path.
Proof.
  unfold node_spreads, node_tracked, edge.
  destruct (track_spec document (node_items n) (MkSpreadSet [], []) k s) as (_ & -> & _). set_solver.
Qed.
Lemma node_keys_NoDup n : NoDup (fragment_keys (node_spreads n)).
Proof.
  unfold node_spreads, node_tracked.
  destruct (track_spec document (node_items n) (MkSpreadSet [], []) (MkFragmentKey 0 None) 0) as (_ & _ & HN).
  apply HN, NoDup_nil_2.
Qed.
Lemma elem_of_node_missing n name :
  name ∈ (node_tracked n).2 ↔ ∃ path cc, (path, Some name, cc) ∈ node_items n ∧ key_of document name cc = None.
Proof.
  unfold node_tracked. rewrite track_missing. cbn [snd]. rewrite app_nil_l, elem_of_filter_map. split.
  - intros ([[path [nm|]] cc] & Hi & Hk); simpl in Hk; [|done].
    destruct (key_of document nm cc) eqn:E; [done|]. injection Hk as ->. eauto.
  - intros (path & cc & Hi & Hk). exists (path, Some name, cc). split; [done|]. simpl. by rewrite Hk.
Qed.
Lemma into_spreads_node n cs :
  match into_spreads (MkTracker cs [] (node_tracked n).1 (node_tracked n).2) with
  | inr spreads => spreads = node_spreads n ∧ ¬ missing n
  | inl _ => missing n
  end.
Proof.
  pose proof (elem_of_node_missing n) as Hm. unfold into_spreads. cbn [ft_missing_fragments ft_spreads].
  destruct (node_tracked n).2 as [|name [|name' l]] eqn:E.
  - split; [done|]. intros (path & name & cc & Hi & Hk). apply (not_elem_of_nil name), Hm. eauto.
  - destruct (proj1 (Hm name)) as (path & cc & ? & ?); [left|]. by exists path, name, cc.
  - destruct (proj1 (Hm name)) as (path & cc & ? & ?); [left|]. by exists path, name, cc.
Qed.

(** ** The keys are bounded *)
Definition keys_with (id : FragmentDefinitionId) : list FragmentKey :=
  (λ c, MkFragmentKey id c) <$> (None :: (Some <$> all_cache_controls document operation)).
Definition universe : list FragmentKey := concat (keys_with <$> seq 0 (length (cdoc_fragments document))).
Lemma universe_length : length universe = key_bound document operation.
Proof.
  unfold universe, key_bound. rewrite <-(length_seq (length (cdoc_fragments document)) 0) at 2.
  induction (seq 0 (length (cdoc_fragments document))) as [|id l IH]; [done|].
  rewrite fmap_cons. cbn [concat]. rewrite length_app, IH. unfold keys_with. rewrite length_fmap. simpl.
  rewrite length_fmap. lia.
Qed.
Lemma elem_of_universe k :
  k ∈ universe ↔ key_id k < length (cdoc_fragments document) ∧
    (spread_cache_control k = None ∨ ∃ c, spread_cache_control k = Some c ∧ c ∈ all_cache_controls document operation).
Proof.
  unfold universe, keys_with. rewrite elem_of_concat_map. setoid_rewrite elem_of_seq. setoid_rewrite list_elem_of_fmap.
  setoid_rewrite elem_of_cons. setoid_rewrite list_elem_of_fmap. split.
  - intros (id & ? & (c & -> & Hc)). simpl. split; [lia|]. destruct Hc as [->|(c' & -> & ?)]; eauto.
  - destruct k as [id c]. simpl. intros [? Hc]. exists id. split; [lia|]. exists c. split; [done|].
    destruct Hc as [->|(c' & -> & ?)]; eauto.
Qed.
Lemma key_of_bound name cc k : key_of document name cc = Some k → key_id k < length (cdoc_fragments document) ∧ spread_cache_control k = cc.
Proof.
  unfold key_of, fragment_named. destruct (list_find _ _) as [[i f]|] eqn:E; [|done]. intros [= <-]. simpl.
  apply list_find_Some in E as [E _]. split; [|done]. by eapply lookup_lt_Some.
Qed.
Lemma reach_universe n : reach n → match n with Some k => k ∈ universe | None => True end.
Proof.
  induction 1 as [|n k path Hr IH (name & cc & Hi & Hk)]; [done|]. apply key_of_bound in Hk as [Hb <-].
  apply elem_of_universe. split; [done|]. revert Hi. generalize (spread_cache_control k) as c. intros c Hi.
  destruct n as [k'|]; simpl in Hi.
  - destruct (cdoc_fragments document !! key_id k') as [f|] eqn:Ef; [|set_solver].
    apply elem_of_items_of in Hi as (sel & Hsel & Hi). apply items_cache_control in Hi as [->|(c' & -> & Hc)].
    + by apply elem_of_universe in IH as [_ ?].
    + right. exists c'. split; [done|]. unfold all_cache_controls. rewrite !elem_of_app. right. right.
      apply elem_of_concat_map. exists f. split; [by eapply list_elem_of_lookup_2|]. apply elem_of_concat_map. eauto.
  - apply elem_of_items_of in Hi as (sel & Hsel & Hi). unfold all_cache_controls. setoid_rewrite elem_of_app.
    apply items_cache_control in Hi as [->|(c' & -> & Hc)].
    + destruct (type_cache_control query_type) as [c|]; [right; exists c; set_solver|by left].
    + right. exists c'. split; [done|]. right. apply elem_of_app. left. apply elem_of_concat_map. eauto.
Qed.
Lemma node_keys_length n : reach n → length (fragment_keys (node_spreads n)) ≤ key_bound document operation.
Proof.
  intros Hr. rewrite <-universe_length. apply NoDup_incl_length; [apply node_keys_NoDup|].
  intros k [path He]%elem_of_node_keys. apply (reach_universe (Some k)). by eapply reach_spread.
Qed.

(** ** The loop over the fragments *)
Context (Hwf : doc_wf document) (Hop : operation ∈ cdoc_operations document).

Lemma node_items_above n : Forall (λ i : Item, above_ok (above_of document) i.1.1) (node_items n).
Proof.
  apply Forall_forall. intros i Hi. destruct n as [k|]; simpl in Hi.
  - destruct (cdoc_fragments document !! key_id k) as [f|] eqn:Ef; [|set_solver].
    eapply above_of_items; [done| |done]. intros sel Hsel. apply elem_of_app. right. apply elem_of_concat_map.
    exists f. split; [by eapply list_elem_of_lookup_2|done].
  - eapply above_of_items; [done| |done]. intros sel Hsel. apply elem_of_app. left. apply elem_of_concat_map. eauto.
Qed.

(** The nodes visited so far. *)
Definition visited (fif : list (FragmentKey * FragmentSpreadSet)) (n : option FragmentKey) : Prop :=
  match n with None => True | Some k => k ∈ fif.*1 end.
(** The partition of [c], when the nodes [N] have been visited. *)
Record part_spec (N : option FragmentKey → Prop) (c : option CacheControl) (x : Contents) : Prop := {
  ps_selections s : s ∈ pp_selections (part c x) ↔ ∃ n path, N n ∧ (path, None, c) ∈ node_items n ∧ s ∈ path;
  ps_fragments k : k ∈ pp_fragments (part c x) ↔ N (Some k) ∧ ∃ path, (path, None, c) ∈ node_items (Some k);
  ps_closed : closed (above_of document) (pp_selections (part c x));
}.
Record contents_spec (N : option FragmentKey → Prop) (x : Contents) : Prop := {
  cs_part c : part_spec N c x;
  cs_keys c : c ∈ x.1.*1 ↔ ∃ n path, N n ∧ (path, None, Some c) ∈ node_items n;
  cs_nodup : NoDup x.1.*1;
}.

(** Visiting one more node. *)
Lemma contents_step (N M : option FragmentKey → Prop) n x :
  (∀ m, M m ↔ N m ∨ m = n) → ¬ N n → contents_spec N x → contents_spec M (foldl (put n []) x (node_items n)).
Proof.
  intros HM Hn [Hp Hk HN]. split.
  - intros c. destruct (Hp c) as [H1 H2 H3].
    destruct (put_spec (above_of document) (node_items n) n x c (node_items_above n) H3) as (P1 & P2 & P3).
    split; [intros s; rewrite P1, H1|intros k; rewrite P2, H2|done]; setoid_rewrite HM.
    + split; [intros [(m & path & ? & ?)|(path & ?)]|intros (m & path & [?| ->] & ?)]; eauto 8.
    + split; [intros [[? ?]|(-> & ?)]|intros [[?| <-] ?]]; eauto.
  - intros c. destruct (put_keys n (node_items n) x c) as [-> _]. rewrite Hk. setoid_rewrite HM.
    split; [intros [(m & path & ? & ?)|(path & ?)]|intros (m & path & [?| ->] & ?)]; eauto 8.
  - by apply (put_keys n (node_items n) x (MkCacheControl false 0 0 None None)).
Qed.
Lemma contents_ext (N M : option FragmentKey → Prop) x : (∀ m, M m ↔ N m) → contents_spec N x → contents_spec M x.
Proof.
  intros HM [Hp Hk HN]. split; [|intros c; rewrite Hk; by setoid_rewrite HM|done].
  intros c. destruct (Hp c) as [H1 H2 H3]. split; [intros s; rewrite H1; by setoid_rewrite HM| |done].
  intros k. by rewrite H2, HM.
Qed.

(** What visiting a fragment does to the partitioner and the tracker. *)
Lemma visit_fragment_node k f cs cps nc d :
  cdoc_fragments document !! key_id k = Some f → cs = option_list (spread_cache_control k) →
  ∃ d', visit_fragment (visit_both partitioner_visitor (visit_both (tracker_visitor document) defer_visitor)) f
    (MkPartitioner [] cs (Some k) cps nc, (tracker_new (spread_cache_control k), d)) =
  (let x := foldl (put (Some k) []) (cps, nc) (node_items (Some k)) in MkPartitioner [] cs (Some k) x.1 x.2,
   (MkTracker cs [] (node_tracked (Some k)).1 (node_tracked (Some k)).2, d')).
Proof.
  intros Hf ->. unfold visit_fragment. rewrite !visit_both_set, partitioner_set, tracker_set.
  unfold with_contents, with_tracked, node_tracked. simpl. rewrite Hf.
  destruct (spread_cache_control k); simpl; eauto.
Qed.

Record loop_inv (stack : list FragmentKey) (fif : list (FragmentKey * FragmentSpreadSet)) (p : QueryPartitioner) : Prop := {
  li_stack : qp_selection_stack p = [];
  li_reach k : k ∈ stack ∨ k ∈ fif.*1 → reach (Some k);
  li_fif k ss : map_get k fif = Some ss → ss = node_spreads (Some k);
  li_found n : visited fif n → ¬ missing n;
  li_edges n k path : visited fif n → edge n k path → k ∈ stack ∨ k ∈ fif.*1;
  li_contents : contents_spec (visited fif) (contents p);
  li_nodup : NoDup fif.*1;
}.
Definition loop_bound (stack : list FragmentKey) (fif : list (FragmentKey * FragmentSpreadSet)) : nat :=
  length stack + length (filter (λ k, k ∉ fif.*1) universe) * key_bound document operation.

(** A key that was visited before is dropped. *)
Lemma loop_inv_skip k stack fif p : loop_inv (k :: stack) fif p → k ∈ fif.*1 → loop_inv stack fif p.
Proof.
  intros [H1 H2 H3 H4 H5 H6 H7] Hk. split; [done| |done|done| |done|done].
  - intros k' Hk'. apply H2. set_solver.
  - intros n k' path Hn He. destruct (H5 n k' path Hn He); set_solver.
Qed.
(** A new key is visited and the fragments it spreads are pushed. *)
Lemma loop_inv_visit k stack fif cs cur cps nc :
  loop_inv (k :: stack) fif (MkPartitioner [] cs cur cps nc) → k ∉ fif.*1 → ¬ missing (Some k) →
  let fif' := map_insert k (node_spreads (Some k)) fif in
  let stack' := reverse (fragment_keys (node_spreads (Some k))) ++ stack in
  let x := foldl (put (Some k) []) (cps, nc) (node_items (Some k)) in
  loop_inv stack' fif' (MkPartitioner [] (option_list (spread_cache_control k)) (Some k) x.1 x.2) ∧
  loop_bound stack' fif' < loop_bound (k :: stack) fif.
Proof.
  cbn zeta. intros Hi Hnew Hs. set (fif' := map_insert k (node_spreads (Some k)) fif).
  assert (reach (Some k)) as Hk by (apply (li_reach _ _ _ Hi); left; left).
  assert (∀ k', k' ∈ fif'.*1 ↔ k' = k ∨ k' ∈ fif.*1) as Hfif.
  { intros k'. unfold fif', map_insert. by rewrite map_update_keys, elem_of_set_insert. }
  assert (∀ n, visited fif' n ↔ visited fif n ∨ n = Some k) as Hvis.
  { intros [k'|]; simpl; [rewrite Hfif|]; naive_solver. }
  assert (∀ k', k' ∈ reverse (fragment_keys (node_spreads (Some k))) ↔ ∃ path, edge (Some k) k' path) as Hpush.
  { intros k'. by rewrite elem_of_reverse, elem_of_node_keys. }
  split.
  - destruct Hi as [H1 H2 H3 H4 H5 H6 H7]. split; [done| | | | | |by apply map_update_NoDup].
    + intros k'. rewrite elem_of_app, Hpush, Hfif. intros [[[path He]|?]|[->|?]]; [by eapply reach_spread| |done|].
      * apply H2. left. by right.
      * apply H2. by right.
    + intros k' ss. unfold fif'. rewrite map_get_insert. case_decide; [intros [= <-]; by subst|apply H3].
    + intros n [?| ->]%Hvis; [by apply H4|done].
    + intros n k' path [Hn| ->]%Hvis He; rewrite elem_of_app, Hpush, Hfif; [|eauto].
      destruct (H5 n k' path Hn He) as [[->|?]%elem_of_cons|?]; auto.
    + unfold contents. simpl. rewrite <-surjective_pairing.
      apply (contents_step (visited fif)); [done|by simpl|done].
  - unfold loop_bound. rewrite length_app, length_reverse. pose proof (node_keys_length (Some k) Hk).
    pose proof (filter_not_in_lt universe fif.*1 k (reach_universe _ Hk) Hnew) as Hlt.
    assert (length (filter (λ x, x ∉ fif'.*1) universe) ≤ length (filter (λ x, x ∉ k :: fif.*1) universe)) as Hle.
    { apply filter_not_in_le. intros x. rewrite Hfif. set_solver. }
    simpl. nia.
Qed.

(** The loop returns: an error if a fragment that the query reaches is not
    there, and otherwise with every fragment it reaches visited. *)
Lemma fragment_loop_spec fuel stack fif p d :
  loop_inv stack fif p → loop_bound stack fif < fuel →
  ∃ r, fragment_loop document fuel stack fif p d = Ret r ∧
  match r with
  | inl _ => ∃ n, reach n ∧ missing n
  | inr (fif', p', _) => loop_inv [] fif' p'
  end.
Proof.
  revert stack fif p d. induction fuel as [|fuel IH]; intros stack fif p d Hi Hb; [lia|].
  destruct stack as [|k stack]; cbn [fragment_loop]; [by eexists|].
  assert (reach (Some k)) as Hk by (apply (li_reach _ _ _ Hi); left; left).
  pose proof (reach_universe _ Hk) as Hu. simpl in Hu. apply elem_of_universe in Hu.
  destruct Hu as [(f & Hf)%lookup_lt_is_Some _]. unfold read_fragment. rewrite Hf. cbn [expect mbind res_bind].
  destruct (map_get k fif) as [ss|] eqn:Eg.
  { apply IH; [|unfold loop_bound in *; simpl in Hb; lia]. eapply loop_inv_skip; [done|]. apply map_get_is_Some. eauto. }
  assert (k ∉ fif.*1) as Hnew by (rewrite <-map_get_is_Some, Eg; intros []; done).
  destruct p as [st cs cur cps nc]. pose proof (li_stack _ _ _ Hi) as Est. simpl in Est. subst st.
  cbn [for_next_fragment qp_selection_stack mbind res_bind qp_cache_partitions qp_nocache_partition].
  destruct (visit_fragment_node k f (option_list (spread_cache_control k)) cps nc d Hf eq_refl) as [d' E].
  cbn zeta in E |- *. rewrite E. cbn [fst snd]. clear E.
  pose proof (into_spreads_node (Some k) (option_list (spread_cache_control k))) as Hs.
  destruct (into_spreads _) as [error|ss]; [eexists; split; [done|]; by exists (Some k)|]. destruct Hs as [-> Hs].
  destruct (loop_inv_visit k stack fif cs cur cps nc Hi Hnew Hs) as [Hi' Hb']. apply IH; [done|lia].
Qed.

(** ** The ancestors of a fragment *)

(** At the end of the loop the visited nodes are those the query reaches. *)
Lemma visited_reach fif p n : loop_inv [] fif p → visited fif n ↔ reach n.
Proof.
  intros Hi. split.
  - destruct n as [k|]; [|by constructor]. intros Hk. apply (li_reach _ _ _ Hi). by right.
  - induction 1 as [|n k path _ IH He]; [done|].
    destruct (li_edges _ _ _ Hi n k path IH He) as [?%not_elem_of_nil|?]; done.
Qed.

Section ancestry.
Context (fif : list (FragmentKey * FragmentSpreadSet)) (p : QueryPartitioner) (Hinv : loop_inv [] fif p).
Abbreviation fiq := (node_spreads None).
Abbreviation graph := (graph_new fif fiq).

Lemma add_parent_spec parent parents child k :
  default [] (map_get k (add_parent parent parents child)) =
  if decide (child = k) then set_insert parent (default [] (map_get k parents)) else default [] (map_get k parents).
Proof. unfold add_parent. rewrite map_get_update. case_decide; [by subst|done]. Qed.
Lemma foldl_add_parent parent l parents k q :
  q ∈ default [] (map_get k (foldl (add_parent parent) parents l)) ↔
  q ∈ default [] (map_get k parents) ∨ q = parent ∧ k ∈ l.
Proof.
  revert parents. induction l as [|c l IH]; intros parents; cbn [foldl]; [set_solver|].
  rewrite IH, add_parent_spec. case_decide; [subst; rewrite elem_of_set_insert|]; set_solver.
Qed.
Lemma foldl_add_parents l parents k q :
  q ∈ default [] (map_get k (foldl (λ parents (e : FragmentKey * FragmentSpreadSet),
    foldl (add_parent (Some e.1)) parents (fragment_keys e.2)) parents l)) ↔
  q ∈ default [] (map_get k parents) ∨ ∃ e, e ∈ l ∧ q = Some e.1 ∧ k ∈ fragment_keys e.2.
Proof.
  revert parents. induction l as [|e l IH]; intros parents; cbn [foldl]; [set_solver|].
  rewrite IH, foldl_add_parent. set_solver.
Qed.

Definition parents (k : FragmentKey) : list (option FragmentKey) := default [] (map_get k (direct_parents graph)).
Lemma elem_of_parents k q : q ∈ parents k ↔ reach q ∧ ∃ path, edge q k path.
Proof.
  unfold parents, graph_new. cbn [direct_parents]. rewrite foldl_add_parent, foldl_add_parents.
  setoid_rewrite elem_of_node_keys. rewrite <-(visited_reach _ _ q Hinv). split.
  - intros [[?%not_elem_of_nil|([k' ss] & He & -> & Hk)]|[-> Hk]]; [done| |done]. simpl in *.
    apply (elem_of_map_get _ _ _ (li_nodup _ _ _ Hinv)) in He as Eg. apply (li_fif _ _ _ Hinv) in Eg. subst ss.
    apply elem_of_node_keys in Hk. split; [|done]. apply list_elem_of_fmap. by exists (k', node_spreads (Some k')).
  - intros [Hv He]. destruct q as [q|]; [left; right|by right]. simpl in Hv.
    apply map_get_is_Some in Hv as [ss Eg]. exists (q, ss). simpl. apply map_get_elem_of in Eg as Hin. split_and!; [done|done|].
    apply (li_fif _ _ _ Hinv) in Eg. subst ss. by apply elem_of_node_keys.
Qed.
Lemma graph_fragments_spec k : reach (Some k) → k ∈ graph_fragments graph.
Proof.
  intros Hr. inversion Hr as [|n k' path Hn He]; subst.
  assert (n ∈ parents k) as Hp by (apply elem_of_parents; eauto).
  unfold graph_fragments. apply map_get_is_Some. unfold parents in Hp.
  destruct (map_get k (direct_parents graph)); [eauto|]. by apply not_elem_of_nil in Hp.
Qed.

(** The fragments from which [k0] is reached, and the edges between them. *)
Inductive anc (k0 : FragmentKey) : FragmentKey → Prop :=
| anc_refl : anc k0 k0
| anc_up c q : anc k0 c → Some q ∈ parents c → anc k0 q.
Definition valid (k0 : FragmentKey) (e : AncestorEdge) : Prop := anc k0 (child_key e) ∧ parent_key e ∈ parents (child_key e).
Definition all_edges : list AncestorEdge := concat ((λ e, edges_to e.1 e.2) <$> direct_parents graph).
Lemma all_edges_length : S (length all_edges) = edge_fuel graph.
Proof.
  unfold all_edges, edge_fuel. f_equal. induction (direct_parents graph) as [|e l IH]; [done|].
  rewrite !fmap_cons. cbn [concat]. rewrite !length_app, IH. unfold edges_to. by rewrite length_fmap.
Qed.
Lemma elem_of_edges_to c l e : e ∈ edges_to c l ↔ child_key e = c ∧ parent_key e ∈ l.
Proof.
  unfold edges_to. rewrite list_elem_of_fmap. split; [intros (q & -> & ?); done|]. destruct e as [q c'].
  simpl. intros [-> ?]. eauto.
Qed.
Lemma valid_all_edges k0 e : valid k0 e → e ∈ all_edges.
Proof.
  intros [_ Hp]. unfold all_edges. apply elem_of_concat_map. unfold parents in Hp.
  destruct (map_get (child_key e) (direct_parents graph)) as [l|] eqn:E; [|by apply not_elem_of_nil in Hp].
  exists (child_key e, l). split; [by apply map_get_elem_of|]. by apply elem_of_edges_to.
Qed.

Lemma pop_unseen_spec seen stack :
  match pop_unseen seen stack with
  | None => ∀ e, e ∈ stack → e ∈ seen
  | Some (e, stack') => e ∈ stack ∧ (e ∉ seen) ∧ (∀ e', e' ∈ stack' → e' ∈ stack) ∧
      (∀ e', e' ∈ stack → e' = e ∨ e' ∈ seen ∨ e' ∈ stack')
  end.
Proof.
  induction stack as [|e stack IH]; simpl; [set_solver|]. case_decide; [|set_solver].
  destruct (pop_unseen seen stack) as [[e' stack']|]; set_solver.
Qed.

Record edge_inv (k0 : FragmentKey) (it : AncestorEdgeIterator) (a : FragmentAncestry) : Prop := {
  ei_valid e : e ∈ edges_seen it ∨ e ∈ edge_stack it → valid k0 e;
  ei_first q : q ∈ parents k0 → MkAncestorEdge q k0 ∈ edges_seen it ∨ MkAncestorEdge q k0 ∈ edge_stack it;
  ei_next e c q : e ∈ edges_seen it → parent_key e = Some c → q ∈ parents c →
    MkAncestorEdge q c ∈ edges_seen it ∨ MkAncestorEdge q c ∈ edge_stack it;
  ei_fragments f : f ∈ fa_fragments a ↔ ∃ e q, e ∈ edges_seen it ∧ parent_key e = Some q ∧ key_id q = f;
  ei_selections s : s ∈ fa_selections a ↔ ∃ e path, e ∈ edges_seen it ∧ edge (parent_key e) (child_key e) path ∧ s ∈ path;
}.

(** One edge more. *)
Lemma edge_inv_step k0 it a e it' :
  edge_inv k0 it a → edge_next graph it = Some (e, it') →
  edge_inv k0 it' (add_edge fif fiq a e) ∧ (e ∉ edges_seen it) ∧ edges_seen it' = e :: edges_seen it ∧ valid k0 e.
Proof.
  intros [H1 H2 H3 H4 H5]. unfold edge_next. pose proof (pop_unseen_spec (edges_seen it) (edge_stack it)) as Hp.
  destruct (pop_unseen (edges_seen it) (edge_stack it)) as [[e' stack]|]; [|done]. cbn [mbind option_bind].
  intros [= -> <-]. destruct Hp as (He & Hn & Hs1 & Hs2). assert (valid k0 e) as Hv by (apply H1; by right).
  assert (∀ e' c q, e' ∈ e :: edges_seen it → parent_key e' = Some c → q ∈ parents c →
    MkAncestorEdge q c ∈ e :: edges_seen it ∨
    MkAncestorEdge q c ∈ reverse (match parent_key e with
      | Some parent => edges_to parent (default [] (map_get parent (direct_parents graph))) | None => [] end) ++ stack) as Hnext.
  { intros e' c q [->|He']%elem_of_cons Hc Hq.
    - right. rewrite Hc. apply elem_of_app. left. apply elem_of_reverse, elem_of_edges_to. done.
    - destruct (H3 e' c q He' Hc Hq) as [?|[->|[?|?]]%Hs2]; set_solver. }
  split_and!; [|done|done|done]. split; cbn [edges_seen edge_stack]; [| |exact Hnext| |].
  - intros e' [[->|?]%elem_of_cons|[Hr|?]%elem_of_app]; [done|apply H1; by left| |apply H1; right; by apply Hs1].
    rewrite elem_of_reverse in Hr. destruct (parent_key e) as [q|] eqn:Eq; [|by apply not_elem_of_nil in Hr].
    apply elem_of_edges_to in Hr as [Hc Hr]. split; rewrite Hc; [|done]. destruct Hv as [Ha Hb]. rewrite Eq in Hb. by eapply anc_up.
  - intros q Hq. destruct (H2 q Hq) as [?|[->|[?|?]]%Hs2]; set_solver.
  - intros f. unfold add_edge. destruct (parent_key e) as [q|] eqn:Eq; cbn [fa_fragments].
    + rewrite elem_of_set_insert, H4. setoid_rewrite elem_of_cons. split.
      * intros [->|(e' & q' & ? & ? & ?)]; [by exists e, q; auto|by exists e', q'; auto].
      * intros (e' & q' & [->|?] & Hq' & <-); [left; congruence|right; eauto].
    + rewrite H4. setoid_rewrite elem_of_cons. split; [naive_solver|]. intros (e' & q' & [->|?] & ? & ?); [congruence|eauto].
  - intros s. assert (s ∈ fa_selections (add_edge fif fiq a e) ↔
        s ∈ fa_selections a ∨ ∃ path, edge (parent_key e) (child_key e) path ∧ s ∈ path) as ->.
    { unfold add_edge. destruct (parent_key e) as [q|] eqn:Eq; cbn [fa_selections]; rewrite elem_of_set_extend.
      - destruct Hv as [_ Hb]. rewrite Eq in Hb. apply elem_of_parents in Hb as [Hr _].
        apply (visited_reach _ _ _ Hinv) in Hr. simpl in Hr. apply map_get_is_Some in Hr as [ss Eg].
        rewrite Eg. simpl. apply (li_fif _ _ _ Hinv) in Eg. subst ss. by rewrite elem_of_node_spreads.
      - by rewrite elem_of_node_spreads. }
    rewrite H5. setoid_rewrite elem_of_cons. naive_solver.
Qed.

(** The ancestry of [k0]: what is on the edges above it. *)
Definition ancestry_spec (k0 : FragmentKey) (a : FragmentAncestry) : Prop :=
  (∀ f, f ∈ fa_fragments a ↔ ∃ c q, anc k0 c ∧ Some q ∈ parents c ∧ key_id q = f) ∧
  (∀ s, s ∈ fa_selections a ↔ ∃ c q path, anc k0 c ∧ q ∈ parents c ∧ edge q c path ∧ s ∈ path).
Lemma edge_loop_spec fuel k0 it a :
  edge_inv k0 it a → length (filter (λ e, e ∉ edges_seen it) all_edges) < fuel →
  ∃ a', edge_loop fuel graph it (add_edge fif fiq) a = Ret a' ∧ ancestry_spec k0 a'.
Proof.
  revert it a. induction fuel as [|fuel IH]; intros it a Hi Hf; [lia|]. cbn [edge_loop].
  destruct (edge_next graph it) as [[e it']|] eqn:En.
  { destruct (edge_inv_step k0 it a e it' Hi En) as (Hi' & Hn & Es & Hv). apply IH; [done|]. rewrite Es.
    pose proof (filter_not_in_lt all_edges (edges_seen it) e (valid_all_edges _ _ Hv) Hn). lia. }
  eexists. split; [done|]. unfold edge_next in En. pose proof (pop_unseen_spec (edges_seen it) (edge_stack it)) as Hp.
  destruct (pop_unseen _ _) as [[??]|]; [done|]. clear En. destruct Hi as [H1 H2 H3 H4 H5].
  assert (∀ c, anc k0 c → ∀ q, q ∈ parents c → MkAncestorEdge q c ∈ edges_seen it) as Hall.
  { induction 1 as [|c q Hc IHc Hq]; intros q' Hq'.
    - destruct (H2 q' Hq') as [?|?]; [done|by apply Hp].
    - destruct (H3 _ q q' (IHc _ Hq) eq_refl Hq') as [?|?]; [done|by apply Hp]. }
  split.
  - intros f. rewrite H4. split.
    + intros (e & q & He & Hq & <-). destruct (H1 e) as [Ha Hb]; [by left|]. rewrite Hq in Hb. eauto.
    + intros (c & q & Hc & Hq & <-). exists (MkAncestorEdge (Some q) c), q. eauto.
  - intros s. rewrite H5. split.
    + intros (e & path & He & Hq & Hs). destruct (H1 e) as [Ha Hb]; [by left|]. eauto 8.
    + intros (c & q & path & Hc & Hq & He & Hs). exists (MkAncestorEdge q c), path. eauto.
Qed.
Lemma fragment_ancestry_spec k :
  k ∈ graph_fragments graph →
  ∃ it a, ancestor_edges graph k = Ret it ∧
    edge_loop (edge_fuel graph) graph it (add_edge fif fiq) (MkAncestry [] []) = Ret a ∧ ancestry_spec k a.
Proof.
  intros Hk. unfold graph_fragments in Hk. apply map_get_is_Some in Hk as [l El].
  unfold ancestor_edges. rewrite El. cbn [expect mbind res_bind]. eexists.
  assert (parents k = l) as Ep by (unfold parents; by rewrite El).
  destruct (edge_loop_spec (edge_fuel graph) k (MkEdgeIterator [] (reverse (edges_to k l))) (MkAncestry [] [])) as (a & Ea & Ha).
  - split; cbn [edges_seen edge_stack fa_fragments fa_selections].
    + intros e [?%not_elem_of_nil|He]; [done|]. rewrite elem_of_reverse in He. apply elem_of_edges_to in He as [Hc He].
      split; rewrite Hc; [constructor|by rewrite Ep].
    + intros q Hq. right. apply elem_of_reverse, elem_of_edges_to. rewrite <-Ep. done.
    + intros e c q ?%not_elem_of_nil; done.
    + intros f. split; [by intros ?%not_elem_of_nil|]. intros (e & q & ?%not_elem_of_nil & _); done.
    + intros f. split; [by intros ?%not_elem_of_nil|]. intros (e & q & ?%not_elem_of_nil & _); done.
  - rewrite <-all_edges_length. apply Nat.lt_succ_r, length_filter.
  - eauto.
Qed.
Lemma calculate_ancestry_spec :
  ∃ m, calculate_ancestry fif fiq = Ret m ∧
  ∀ k, reach (Some k) → ∃ a, map_get k m = Some a ∧ ancestry_spec k a.
Proof.
  unfold calculate_ancestry. cbn zeta.
  assert (∀ l m0, (∀ k, k ∈ l → k ∈ graph_fragments graph) →
    ∃ m, fold_res (λ ancestor_map key,
      it ← ancestor_edges graph key;
      ancestry ← edge_loop (edge_fuel graph) graph it (add_edge fif fiq) (MkAncestry [] []);
      Ret (map_insert key ancestry ancestor_map)) m0 l = Ret m ∧
    ∀ k, k ∈ l ∨ (∃ a, map_get k m0 = Some a ∧ ancestry_spec k a) → ∃ a, map_get k m = Some a ∧ ancestry_spec k a) as Hfold.
  { induction l as [|k l IH]; intros m0 Hl; cbn [fold_res].
    - exists m0. split; [done|]. intros k [?%not_elem_of_nil|?]; done.
    - destruct (fragment_ancestry_spec k) as (it & a & -> & Ea & Ha); [apply Hl; left|]. cbn [mbind res_bind]. rewrite Ea.
      cbn [mbind res_bind]. destruct (IH (map_insert k a m0)) as (m & Em & Hm); [intros; apply Hl; by right|].
      exists m. split; [done|]. intros k' Hk'. apply Hm. rewrite map_get_insert.
      destruct (decide (k = k')) as [<-|Hne]; [right; eauto|].
      destruct Hk' as [[->|?]%elem_of_cons|?]; [done|by left|by right]. }
  destruct (Hfold (graph_fragments graph) []) as (m & -> & Hm); [done|]. exists m. split; [done|].
  intros k Hk. apply Hm. left. by apply graph_fragments_spec.
Qed.
End ancestry.

(** ** Paths to leaves *)

(** [leaf_path container cc selections path fragments c]: [path] leads from a
    selection set, in a container and under a cache control, to a leaf field,
    through the spreads of [fragments], and [c] is the innermost cache control
    on it. *)
Inductive leaf_path : option MetaType → option CacheControl → list CSelection →
    list SelectionId → list FragmentDefinitionId → option CacheControl → Prop :=
| lp_leaf container cc selections id alias name arguments directives :
    CField id alias name arguments directives [] ∈ selections →
    leaf_path container cc selections [id] []
      (innermost (field_edge container (CField id alias name arguments directives []) name) cc)
| lp_field container cc selections id alias name arguments directives selection_set path fragments c :
    CField id alias name arguments directives selection_set ∈ selections →
    let edge := field_edge container (CField id alias name arguments directives selection_set) name in
    leaf_path (edge_field_type edge) (innermost edge cc) selection_set path fragments c →
    leaf_path container cc selections (id :: path) fragments c
| lp_inline container cc selections id type_condition directives selection_set path fragments c :
    CInlineFragment id type_condition directives selection_set ∈ selections →
    leaf_path (new_container container type_condition) cc selection_set path fragments c →
    leaf_path container cc selections (id :: path) fragments c
| lp_spread container cc selections id name directives f fragment path fragments c :
    CFragmentSpread id name directives ∈ selections →
    fragment_named document name = Some f → cdoc_fragments document !! f = Some fragment →
    leaf_path (lookup_type (cf_type_condition fragment)) cc (cf_selection_set fragment) path fragments c →
    leaf_path container cc selections (id :: path) (f :: fragments) c.
Definition query_leaf : list SelectionId → list FragmentDefinitionId → option CacheControl → Prop :=
  leaf_path (Some query_type) (type_cache_control query_type) (co_selection_set operation).

(** The same by items, fragment by fragment. *)
Inductive item_path : list Item → list SelectionId → list FragmentDefinitionId → option CacheControl → Prop :=
| ip_leaf its path c : (path, None, c) ∈ its → item_path its path [] c
| ip_spread its path1 name cc k path fragments c :
    (path1, Some name, cc) ∈ its → key_of document name cc = Some k →
    item_path (node_items (Some k)) path fragments c →
    item_path its (path1 ++ path) (key_id k :: fragments) c.

Lemma item_path_mono its its' path fs c : (∀ i, i ∈ its → i ∈ its') → item_path its path fs c → item_path its' path fs c.
Proof. intros Hs. destruct 1; [apply ip_leaf; auto|eapply ip_spread; eauto]. Qed.
Lemma item_path_prepend its id path fs c : item_path its path fs c → item_path (prepend id <$> its) (id :: path) fs c.
Proof.
  destruct 1 as [its path c Hi|its path1 name cc k path fs c Hi Hk Hp].
  - apply ip_leaf. apply list_elem_of_fmap. by exists (path, None, c).
  - eapply (ip_spread _ (id :: path1)); [|done|done]. apply list_elem_of_fmap. by exists (path1, Some name, cc).
Qed.
Lemma leaf_path_items container cc sels path fs c :
  leaf_path container cc sels path fs c → item_path (items_of container cc sels) path fs c.
Proof.
  induction 1 as [container cc sels id alias name args dirs Hs|container cc sels id alias name args dirs sub path fs c Hs edge Hp IH
    |container cc sels id tc dirs sub path fs c Hs Hp IH|container cc sels id name dirs f fragment path fs c Hs Hn Hf Hp IH].
  - apply ip_leaf. apply elem_of_items_of. eexists. split; [done|]. simpl. by left.
  - eapply item_path_mono; [|by apply item_path_prepend]. intros i Hi. apply elem_of_items_of.
    eexists. split; [done|]. rewrite items_field; [done|]. intros ->. inversion Hp; set_solver.
  - eapply item_path_mono; [|by apply item_path_prepend]. intros i Hi. apply elem_of_items_of. by eexists.
  - change (id :: path) with ([id] ++ path). change f with (key_id (MkFragmentKey f cc)).
    eapply ip_spread; [|unfold key_of; by rewrite Hn|simpl; by rewrite Hf].
    apply elem_of_items_of. eexists. split; [done|]. simpl. by left.
Qed.

(** An item of a selection is the end of a path, or the start of one through a fragment. *)
Lemma items_leaf_path sel container cc sels path1 t c1 :
  sel ∈ sels → (path1, t, c1) ∈ items container cc sel →
  match t with
  | None => leaf_path container cc sels path1 [] c1
  | Some name => ∀ f fragment path fs c,
      fragment_named document name = Some f → cdoc_fragments document !! f = Some fragment →
      leaf_path (lookup_type (cf_type_condition fragment)) c1 (cf_selection_set fragment) path fs c →
      leaf_path container cc sels (path1 ++ path) (f :: fs) c
  end.
Proof.
  revert container cc sels path1.
  induction sel as [id alias name args dirs sub IH|id tc dirs sub IH|id name dirs] using CSelection_rect';
    intros container cc sels path1 Hs Hi.
  - destruct (decide (sub = [])) as [->|Hne].
    + simpl in Hi. apply list_elem_of_singleton in Hi as [= -> -> ->]. by apply lp_leaf.
    + rewrite items_field in Hi by done. apply list_elem_of_fmap in Hi as ([[path' t'] c'] & [= -> -> ->] & Hj).
      apply elem_of_items_of in Hj as (sel & Hsel & Hj). rewrite Forall_forall in IH.
      specialize (IH sel Hsel _ _ sub _ Hsel Hj). destruct t' as [nm|]; simpl; intros; eapply lp_field; eauto.
  - simpl in Hi. apply list_elem_of_fmap in Hi as ([[path' t'] c'] & [= -> -> ->] & Hj).
    apply elem_of_items_of in Hj as (sel & Hsel & Hj). rewrite Forall_forall in IH.
    specialize (IH sel Hsel _ _ sub _ Hsel Hj). destruct t' as [nm|]; simpl; intros; eapply lp_inline; eauto.
  - simpl in Hi. apply list_elem_of_singleton in Hi as [= -> -> ->]. intros. by eapply lp_spread.
Qed.
Lemma item_path_leaf its path fs c :
  item_path its path fs c →
  ∀ container cc sels, its = items_of container cc sels → leaf_path container cc sels path fs c.
Proof.
  induction 1 as [its path c Hi|its path1 name cc1 k path fs c Hi Hk Hp IH]; intros container cc sels ->;
    apply elem_of_items_of in Hi as (sel & Hsel & Hi).
  - by apply (items_leaf_path sel _ _ _ _ None).
  - pose proof (key_of_bound _ _ _ Hk) as [(fragment & Hf)%lookup_lt_is_Some Hc].
    eapply (items_leaf_path sel _ _ _ _ (Some name)); [done|done| |done|].
    + unfold key_of in Hk. destruct (fragment_named document name); [|done]. by injection Hk as <-.
    + apply IH. simpl. by rewrite Hf, Hc.
Qed.
Lemma query_leaf_items path fs c : query_leaf path fs c ↔ item_path (node_items None) path fs c.
Proof. split; [apply leaf_path_items|]. intros Hp. by eapply item_path_leaf. Qed.

(** ** Partitions hold exactly the paths to their leaves *)
Lemma edge_item_path n k path1 path fs c :
  edge n k path1 → item_path (node_items (Some k)) path fs c → item_path (node_items n) (path1 ++ path) (key_id k :: fs) c.
Proof. intros (name & cc & Hi & Hk) Hp. by eapply ip_spread. Qed.
Lemma reach_item_path n path fs c :
  reach n → item_path (node_items n) path fs c →
  ∃ path' fs', item_path (node_items None) (path' ++ path) (fs' ++ fs) c ∧ ∀ k, n = Some k → key_id k ∈ fs'.
Proof.
  intros Hr. revert path fs. induction Hr as [|n k path1 Hr IH He]; intros path fs Hp.
  - exists [], []. split; [done|]. by intros.
  - destruct (IH _ _ (edge_item_path _ _ _ _ _ _ He Hp)) as (path' & fs' & Hp' & _).
    exists (path' ++ path1), (fs' ++ [key_id k]). rewrite <-!(assoc_L (++)). split; [done|].
    intros k' [= <-]. apply elem_of_app. right. by left.
Qed.

Section partitions.
Context (fif : list (FragmentKey * FragmentSpreadSet)) (p : QueryPartitioner) (Hinv : loop_inv [] fif p).

Lemma anc_item_path k0 k path fs c :
  anc fif k0 k → item_path (node_items (Some k0)) path fs c →
  ∃ path' fs', item_path (node_items (Some k)) (path' ++ path) (fs' ++ fs) c.
Proof.
  induction 1 as [|k q Hk IH Hq]; intros Hp; [by exists [], []|]. destruct (IH Hp) as (path' & fs' & Hp').
  apply (elem_of_parents _ _ Hinv) in Hq as [_ [path1 He]].
  exists (path1 ++ path'), (key_id k :: fs'). rewrite <-(assoc_L (++)). by apply edge_item_path.
Qed.

(** Where a path ends, and what is on the way there. *)
Definition on_the_way (last : option FragmentKey) (path0 : list SelectionId) (path : list SelectionId)
    (fs : list FragmentDefinitionId) : Prop :=
  (∀ s, s ∈ path → s ∈ path0 ∨ ∃ k c q path1, last = Some k ∧ anc fif k c ∧ q ∈ parents fif c ∧ edge q c path1 ∧ s ∈ path1) ∧
  (∀ f, f ∈ fs → ∃ k, last = Some k ∧ (f = key_id k ∨ ∃ c q, anc fif k c ∧ Some q ∈ parents fif c ∧ key_id q = f)).
Lemma item_path_last its path fs c :
  item_path its path fs c → ∀ n, its = node_items n → reach n →
  ∃ last path0, reach last ∧ (path0, None, c) ∈ node_items last ∧ on_the_way last path0 path fs ∧
    (∀ k, n = Some k → ∃ k0, last = Some k0 ∧ anc fif k0 k).
Proof.
  induction 1 as [its path c Hi|its path1 name cc k path fs c Hi Hk Hp IH]; intros n -> Hr.
  - exists n, path. split_and!; [done|done| |intros k ->; exists k; split; [done|constructor]].
    split; [by left|set_solver].
  - assert (edge n k path1) as He by (by exists name, cc).
    destruct (IH (Some k) eq_refl (reach_spread _ _ _ Hr He)) as (last & path0 & Hl & Hi0 & [Hw1 Hw2] & Hlast).
    destruct (Hlast k eq_refl) as (k0 & -> & Ha).
    assert (n ∈ parents fif k) as Hpar by (apply (elem_of_parents _ _ Hinv); eauto).
    exists (Some k0), path0. split_and!; [done|done| |intros k' ->; exists k0; split; [done|by eapply anc_up]].
    split.
    + intros s [Hs|Hs]%elem_of_app; [right; exists k0, k, n, path1; eauto|by apply Hw1].
    + intros f [->|Hf]%elem_of_cons; [|by apply Hw2]. exists k0. split; [done|].
      inversion Ha; subst; [by left|]. right. eauto.
Qed.

Lemma finalize_spec m pp s f :
  (s ∈ p_selections (finalize m pp) ↔ s ∈ pp_selections pp ∨
    ∃ k a, k ∈ pp_fragments pp ∧ map_get k m = Some a ∧ s ∈ fa_selections a) ∧
  (f ∈ p_fragments (finalize m pp) ↔
    ∃ k, k ∈ pp_fragments pp ∧ (f = key_id k ∨ ∃ a, map_get k m = Some a ∧ f ∈ fa_fragments a)).
Proof.
  destruct pp as [sels ks]. unfold finalize. cbn [pp_selections pp_fragments].
  assert (∀ P : Partition,
    (s ∈ p_selections (foldl (finalize_key m) P ks) ↔ s ∈ p_selections P ∨
      ∃ k a, k ∈ ks ∧ map_get k m = Some a ∧ s ∈ fa_selections a) ∧
    (f ∈ p_fragments (foldl (finalize_key m) P ks) ↔ f ∈ p_fragments P ∨
      ∃ k, k ∈ ks ∧ (f = key_id k ∨ ∃ a, map_get k m = Some a ∧ f ∈ fa_fragments a))) as Hfold.
  { induction ks as [|k ks IH]; intros P; cbn [foldl]; [set_solver|]. destruct (IH (finalize_key m P k)) as [-> ->].
    unfold finalize_key. setoid_rewrite elem_of_cons.
    destruct (map_get k m) as [a|] eqn:E; cbn [p_selections p_fragments];
      rewrite ?elem_of_set_extend, elem_of_set_insert; split; split; naive_solver. }
  destruct (Hfold (MkPartition sels [])) as [-> ->]. cbn [p_selections p_fragments]. set_solver.
Qed.

Lemma partition_exact m c :
  (∀ k, reach (Some k) → ∃ a, map_get k m = Some a ∧ ancestry_spec fif k a) →
  (∀ s, s ∈ p_selections (finalize m (part c (contents p))) ↔ ∃ path fs, query_leaf path fs c ∧ s ∈ path) ∧
  (∀ f, f ∈ p_fragments (finalize m (part c (contents p))) ↔ ∃ path fs, query_leaf path fs c ∧ f ∈ fs).
Proof.
  intros Hm. destruct (cs_part _ _ (li_contents _ _ _ Hinv) c) as [Hs Hf _].
  assert (∀ n, visited fif n ↔ reach n) as Hv by (intros n; by apply (visited_reach _ p)).
  setoid_rewrite query_leaf_items. split; [intros s|intros f].
  - destruct (finalize_spec m (part c (contents p)) s 0) as [-> _]. rewrite Hs. setoid_rewrite Hf. split.
    + intros [(n & path & Hn & Hi & Hp)|(k & a & [Hn [path Hi]] & Ea & Ha)]; apply Hv in Hn.
      * destruct (reach_item_path n path [] c Hn) as (path' & fs' & Hq & _); [by apply ip_leaf|].
        eexists _, _. split; [done|]. apply elem_of_app. by right.
      * destruct (Hm k Hn) as (a' & Ea' & _ & Hsel). rewrite Ea in Ea'. injection Ea' as <-.
        apply Hsel in Ha as (c' & q & path1 & Hc & Hq & He & Hp).
        destruct (anc_item_path k c' path [] c Hc) as (path' & fs' & Hi'); [by apply ip_leaf|].
        apply (elem_of_parents _ _ Hinv) in Hq as [Hq _].
        destruct (reach_item_path q _ _ c Hq (edge_item_path _ _ _ _ _ _ He Hi')) as (path2 & fs2 & Hi2 & _).
        eexists _, _. split; [done|]. rewrite !elem_of_app. auto.
    + intros (path & fs & Hp & Hin). destruct (item_path_last _ _ _ _ Hp None eq_refl reach_query) as (last & path0 & Hl & Hi & [Hw _] & _).
      destruct (Hw s Hin) as [?|(k & c' & q & path1 & -> & Ha & Hq & He & Hsp)]; [left; apply Hv in Hl; eauto|right].
      destruct (Hm k Hl) as (a & Ea & _ & Hsel). exists k, a. split_and!; [by apply Hv|by eexists|done|]. apply Hsel. eauto 8.
  - destruct (finalize_spec m (part c (contents p)) 0 f) as [_ ->]. setoid_rewrite Hf. split.
    + intros (k & [Hn [path Hi]] & Hk). apply Hv in Hn. destruct Hk as [->|(a & Ea & Ha)].
      * destruct (reach_item_path (Some k) path [] c Hn) as (path' & fs' & Hq & Hfs); [by apply ip_leaf|].
        eexists _, _. split; [done|]. apply elem_of_app. left. by apply Hfs.
      * destruct (Hm k Hn) as (a' & Ea' & Hfr & _). rewrite Ea in Ea'. injection Ea' as <-.
        apply Hfr in Ha as (c' & q & Hc & Hq & <-).
        destruct (anc_item_path k c' path [] c Hc) as (path' & fs' & Hi'); [by apply ip_leaf|].
        apply (elem_of_parents _ _ Hinv) in Hq as [Hq [path1 He]].
        destruct (reach_item_path (Some q) _ _ c Hq (edge_item_path _ _ _ _ _ _ He Hi')) as (path2 & fs2 & Hi2 & Hfs).
        eexists _, _. split; [done|]. apply elem_of_app. left. by apply Hfs.
    + intros (path & fs & Hp & Hin). destruct (item_path_last _ _ _ _ Hp None eq_refl reach_query) as (last & path0 & Hl & Hi & [_ Hw] & _).
      destruct (Hw f Hin) as (k & -> & Hk). exists k. split; [by split; [apply Hv|eexists]|].
      destruct Hk as [->|(c' & q & Ha & Hq & <-)]; [by left|right].
      destruct (Hm k Hl) as (a & Ea & Hfr & _). exists a. split; [done|]. apply Hfr. eauto.
Qed.
End partitions.

(** ** [visit_fragments] and [build_plan] *)
Lemma contents_empty : contents_spec (λ _, False) ([], planning_default).
Proof.
  split; [|intros c; split; [by intros ?%not_elem_of_nil|intros (? & ? & [] & _)]|apply NoDup_nil_2].
  intros c. assert (part c ([], planning_default) = planning_default) as E by (by destruct c).
  split; rewrite E; cbn [planning_default pp_selections pp_fragments].
  - intros s. split; [by intros ?%not_elem_of_nil|intros (? & ? & [] & _)].
  - intros k. split; [by intros ?%not_elem_of_nil|intros [[] _]].
  - intros x y ?%not_elem_of_nil. done.
Qed.
Lemma visit_query_node d :
  co_type operation = Query →
  ∃ d', visit_query (visit_both partitioner_visitor (visit_both (tracker_visitor document) defer_visitor)) operation
    (partitioner_new (type_cache_control query_type), (tracker_new (type_cache_control query_type), d)) =
  Ret (let x := foldl (put None []) ([], planning_default) (node_items None) in
       MkPartitioner [] (option_list (type_cache_control query_type)) None x.1 x.2,
       (MkTracker (option_list (type_cache_control query_type)) [] (node_tracked None).1 (node_tracked None).2, d')).
Proof.
  intros Ht. unfold visit_query. rewrite decide_True by done. rewrite !visit_both_set, partitioner_set, tracker_set.
  unfold with_contents, with_tracked, node_tracked. simpl.
  destruct (type_cache_control query_type); simpl; eauto.
Qed.
Lemma query_loop_inv cs :
  ¬ missing None →
  let x := foldl (put None []) ([], planning_default) (node_items None) in
  loop_inv (reverse (fragment_keys (node_spreads None))) [] (MkPartitioner [] cs None x.1 x.2).
Proof.
  intros Hm. cbn zeta. split.
  - done.
  - intros k [Hk|?%not_elem_of_nil]; [|done]. rewrite elem_of_reverse in Hk. apply elem_of_node_keys in Hk as [path He].
    by eapply reach_spread; [constructor|].
  - done.
  - intros [k|] Hn; [by apply not_elem_of_nil in Hn|done].
  - intros [k|] k' path Hn He; [by apply not_elem_of_nil in Hn|]. left. apply elem_of_reverse, elem_of_node_keys. eauto.
  - unfold contents. simpl. rewrite <-surjective_pairing. apply (contents_step (λ _, False)); [|intros []|apply contents_empty].
    intros [k|]; simpl; split; try naive_solver. intros ?%not_elem_of_nil; done.
  - apply NoDup_nil_2.
Qed.

(** What the two groups of partitions hold. *)
Definition groups_spec (groups : list (CacheControl * Partition)) (uncached : Partition) : Prop :=
  NoDup groups.*1 ∧ (∀ c, c ∈ groups.*1 ↔ ∃ path fs, query_leaf path fs (Some c)) ∧
  ∀ c P, match c with Some c => map_get c groups | None => Some uncached end = Some P →
    (∀ s, s ∈ p_selections P ↔ ∃ path fs, query_leaf path fs c ∧ s ∈ path) ∧
    (∀ f, f ∈ p_fragments P ↔ ∃ path fs, query_leaf path fs c ∧ f ∈ fs).

Lemma map_get_fmap {K V W} `{EqDecision K} (g : V → W) (k : K) (l : list (K * V)) :
  map_get k ((λ e, (e.1, g e.2)) <$> l) = g <$> map_get k l.
Proof.
  induction l as [|[k' v] l IH]; [done|]. rewrite fmap_cons. cbn [fst snd]. rewrite !map_get_cons, IH. by case_decide.
Qed.
Lemma groups_exact fif p m :
  loop_inv [] fif p → (∀ k, reach (Some k) → ∃ a, map_get k m = Some a ∧ ancestry_spec fif k a) →
  groups_spec ((λ e, (e.1, finalize m e.2)) <$> qp_cache_partitions p) (finalize m (qp_nocache_partition p)).
Proof.
  intros Hinv Hm. destruct (li_contents _ _ _ Hinv) as [_ Hk HN]. unfold groups_spec.
  assert (((λ e, (e.1, finalize m e.2)) <$> qp_cache_partitions p).*1 = (contents p).1.*1) as ->.
  { rewrite <-list_fmap_compose. apply list_fmap_ext. by intros. }
  split_and!; [done| |].
  - intros c. rewrite Hk. setoid_rewrite query_leaf_items. split.
    + intros (n & path & Hn & Hi). apply (visited_reach _ _ _ Hinv) in Hn.
      destruct (reach_item_path n path [] _ Hn (ip_leaf _ _ _ Hi)) as (path' & fs' & Hq & _). eauto.
    + intros (path & fs & Hp). destruct (item_path_last _ _ Hinv _ _ _ _ Hp None eq_refl reach_query) as (last & path0 & Hl & Hi & _).
      apply (visited_reach _ _ _ Hinv) in Hl. eauto.
  - intros c P HP. destruct (partition_exact fif p Hinv m c Hm) as [H1 H2]. destruct c as [c|].
    + rewrite map_get_fmap in HP. simpl in H1, H2. destruct (map_get c (qp_cache_partitions p)); [|done].
      by injection HP as <-.
    + by injection HP as <-.
Qed.

Lemma visit_fragments_spec d :
  let x := foldl (put None []) ([], planning_default) (node_items None) in
  let cs := option_list (type_cache_control query_type) in
  ∃ r, visit_fragments document (fragment_fuel document operation)
    (MkTracker cs [] (node_tracked None).1 (node_tracked None).2) (MkPartitioner [] cs None x.1 x.2) d = Ret r ∧
  match r with
  | inl _ => ∃ n, reach n ∧ missing n
  | inr (groups, uncached, _) => (∀ n, reach n → ¬ missing n) ∧ groups_spec groups uncached
  end.
Proof.
  cbn zeta. unfold visit_fragments. pose proof (into_spreads_node None (option_list (type_cache_control query_type))) as Hs.
  destruct (into_spreads _) as [error|ss]; [eexists; split; [done|]; exists None; split; [constructor|done]|].
  destruct Hs as [-> Hm].
  destruct (fragment_loop_spec (fragment_fuel document operation) _ [] _ d
    (query_loop_inv (option_list (type_cache_control query_type)) Hm)) as (r & -> & Hr).
  { unfold loop_bound, fragment_fuel. rewrite length_reverse. pose proof (node_keys_length None reach_query).
    pose proof (length_filter (λ k, k ∉ (@nil (FragmentKey * FragmentSpreadSet)).*1) universe). rewrite universe_length in *. nia. }
  cbn [mbind res_bind]. destruct r as [error|[[fif p] d']]; [by eexists|].
  destruct (calculate_ancestry_spec fif p Hr) as (m & -> & Hanc). cbn [mbind res_bind]. eexists. split; [done|]. split.
  - intros n Hn. apply (li_found _ _ _ Hr). by apply (visited_reach _ _ _ Hr).
  - by apply (groups_exact fif p).
Qed.

(** ** Variables *)

(** The variables that a partition, the fragments in it and the operation use. *)
Definition uses_variable (P : Partition) (name : string) : Prop :=
  (∃ sel, sel ∈ selections_of document ∧ selection_id sel ∈ p_selections P ∧ name ∈ variables_used_in_selection sel) ∨
  (∃ f fragment, f ∈ p_fragments P ∧ cdoc_fragments document !! f = Some fragment ∧
    name ∈ variables_used_in_directive (cf_directives fragment)) ∨
  name ∈ variables_used_in_directive (co_directives operation).
Lemma read_selection_spec s : s ∈ (selection_id <$> selections_of document) →
  ∃ sel, read_selection document s = Ret sel ∧ selection_id sel = s ∧ sel ∈ selections_of document.
Proof.
  intros (sel & -> & Hs)%list_elem_of_fmap. unfold read_selection.
  destruct (List.find _ _) as [sel'|] eqn:E.
  - apply List.find_some in E as [Hin ?%bool_decide_eq_true]. exists sel'. split_and!; [done|done|by apply list_elem_of_In].
  - exfalso. eapply List.find_none in E; [|by apply list_elem_of_In]. by rewrite bool_decide_true in E.
Qed.
Lemma mapM_res_exists {A B} (f : A → res B) (P : A → B → Prop) l :
  (∀ x, x ∈ l → ∃ y, f x = Ret y ∧ P x y) → ∃ ys, mapM_res f l = Ret ys ∧ Forall2 P l ys.
Proof.
  induction l as [|x l IH]; intros Hl; [by exists []|]. destruct (Hl x) as (y & Ey & Hy); [left|].
  destruct IH as (ys & Eys & Hys); [intros; apply Hl; by right|]. exists (y :: ys). cbn [mapM_res]. rewrite Ey. cbn [mbind res_bind].
  rewrite Eys. split; [done|by constructor].
Qed.
(** What the selections and the fragments that are read use. *)
Lemma read_selections_use P sels name :
  Forall2 (λ s sel, selection_id sel = s ∧ sel ∈ selections_of document) (p_selections P) sels →
  (∃ sel, sel ∈ sels ∧ name ∈ variables_used_in_selection sel) ↔
  ∃ sel, sel ∈ selections_of document ∧ selection_id sel ∈ p_selections P ∧ name ∈ variables_used_in_selection sel.
Proof.
  intros Fs. split.
  - intros (sel & Hsel & Hn). apply list_elem_of_lookup in Hsel as [j Hj].
    destruct (Forall2_lookup_r _ _ _ _ _ Fs Hj) as (s & Hj' & <- & ?). exists sel.
    split_and!; [done|by eapply list_elem_of_lookup_2|done].
  - intros (sel & Hsel & Hid & Hn). apply list_elem_of_lookup in Hid as [j Hj].
    destruct (Forall2_lookup_l _ _ _ _ _ Fs Hj) as (sel' & Hj' & Eid & Hsel'). exists sel'.
    split; [by eapply list_elem_of_lookup_2|].
    apply list_elem_of_lookup in Hsel as [a Ha], Hsel' as [b Hb].
    assert (a = b) as -> by (eapply (NoDup_lookup (selection_id <$> selections_of document)); [done| |];
      rewrite list_lookup_fmap; [by rewrite Ha|by rewrite Hb; simpl; f_equal]). congruence.
Qed.
Lemma read_fragments_use P fs name :
  Forall2 (λ f fragment, cdoc_fragments document !! f = Some fragment) (p_fragments P) fs →
  (∃ fragment, fragment ∈ fs ∧ name ∈ variables_used_in_directive (cf_directives fragment)) ↔
  ∃ f fragment, f ∈ p_fragments P ∧ cdoc_fragments document !! f = Some fragment ∧
    name ∈ variables_used_in_directive (cf_directives fragment).
Proof.
  intros Ff. split.
  - intros (fragment & Hin & Hn). apply list_elem_of_lookup in Hin as [j Hj].
    destruct (Forall2_lookup_r _ _ _ _ _ Ff Hj) as (f & Hj' & ?). exists f, fragment.
    split_and!; [by eapply list_elem_of_lookup_2|done|done].
  - intros (f & fragment & Hin & E & Hn). apply list_elem_of_lookup in Hin as [j Hj].
    destruct (Forall2_lookup_l _ _ _ _ _ Ff Hj) as (fragment' & Hj' & E'). exists fragment.
    split; [|done]. rewrite E in E'. injection E' as <-. by eapply list_elem_of_lookup_2.
Qed.
Lemma variables_required_spec P :
  (∀ s, s ∈ p_selections P → s ∈ (selection_id <$> selections_of document)) →
  (∀ f, f ∈ p_fragments P → f < length (cdoc_fragments document)) →
  ∃ vs, variables_required P document operation = Ret vs ∧
  ∀ i, i ∈ vs ↔ ∃ name, uses_variable P name ∧ variable_named operation name = Some i.
Proof.
  intros Hs Hf. unfold variables_required.
  destruct (mapM_res_exists (read_selection document) (λ s sel, selection_id sel = s ∧ sel ∈ selections_of document)
    (p_selections P)) as (sels & -> & Fs).
  { intros s Hin. apply read_selection_spec. by apply Hs. }
  destruct (mapM_res_exists (read_fragment document) (λ f fragment, cdoc_fragments document !! f = Some fragment)
    (p_fragments P)) as (fs & Ef & Ff).
  { intros f Hin. apply Hf in Hin. apply lookup_lt_is_Some in Hin as [fragment E]. exists fragment.
    unfold read_fragment. by rewrite E. }
  cbn [mbind res_bind]. rewrite Ef. cbn [mbind res_bind]. cbn zeta. eexists. split; [done|]. intros i.
  rewrite elem_of_set_extend, elem_of_filter_map. setoid_rewrite elem_of_set_extend. setoid_rewrite elem_of_set_extend.
  setoid_rewrite elem_of_set_extend. setoid_rewrite elem_of_concat_map.
  setoid_rewrite (λ name, read_selections_use P sels name Fs). setoid_rewrite (λ name, read_fragments_use P fs name Ff).
  unfold uses_variable. split.
  - intros [?%not_elem_of_nil|(name & Hn & Ei)]; [done|]. exists name. split; [|done].
    destruct Hn as [[[?%not_elem_of_nil|Hn]|Hn]|Hn]; [done|by left|by right; left|].
    right. right. by apply elem_of_concat_map.
  - intros (name & Hn & Ei). right. exists name. split; [|done].
    destruct Hn as [Hn|[Hn|Hn]]; [by left; left; right|by left; right|right]. by apply elem_of_concat_map.
Qed.

(** The selections and the fragments on a path are those of the document. *)
Lemma node_items_ids n i s : i ∈ node_items n → s ∈ i.1.1 → s ∈ (selection_id <$> selections_of document).
Proof.
  intros Hi Hs.
  assert (∃ container cc sels, i ∈ items_of container cc sels ∧ ∀ sel, sel ∈ sels →
    sel ∈ concat (co_selection_set <$> cdoc_operations document) ++ concat (cf_selection_set <$> cdoc_fragments document))
    as (container & cc & sels & Hi' & Hsub).
  { destruct n as [k|]; simpl in Hi.
    - destruct (cdoc_fragments document !! key_id k) as [f|] eqn:Ef; [|by apply not_elem_of_nil in Hi].
      eexists _, _, _. split; [done|]. intros sel Hsel. apply elem_of_app. right. apply elem_of_concat_map.
      exists f. split; [by eapply list_elem_of_lookup_2|done].
    - eexists _, _, _. split; [done|]. intros sel Hsel. apply elem_of_app. left. apply elem_of_concat_map. eauto. }
  apply elem_of_items_of in Hi' as (sel & Hsel & Hi'). apply list_elem_of_split in Hs as (a & b & E).
  apply items_chains in Hi'. apply Hi' in E. rewrite <-all_chains_ids. apply list_elem_of_fmap.
  exists (s, a). split; [done|]. apply elem_of_concat_map. exists sel. split; [by apply Hsub|done].
Qed.
Lemma query_leaf_bounds path fs c :
  query_leaf path fs c →
  (∀ s, s ∈ path → s ∈ (selection_id <$> selections_of document)) ∧ (∀ f, f ∈ fs → f < length (cdoc_fragments document)).
Proof.
  intros Hp%query_leaf_items. revert Hp. generalize (@None FragmentKey) as n. intros n Hp.
  remember (node_items n) as its eqn:E. revert n E.
  induction Hp as [its path c Hi|its path1 name cc k path fs c Hi Hk Hp IH]; intros n ->.
  - split; [intros s; by apply (node_items_ids n _ s Hi)|]. intros f ?%not_elem_of_nil. done.
  - destruct (IH (Some k) eq_refl) as [H1 H2]. split.
    + intros s [Hs|Hs]%elem_of_app; [by apply (node_items_ids n _ s Hi)|by apply H1].
    + intros f [->|Hf]%elem_of_cons; [|by apply H2]. by apply key_of_bound in Hk as [? _].
Qed.

(** The subset of a partition. *)
Definition subset_spec (c : option CacheControl) (subset : QuerySubset) : Prop :=
  (∀ s, s ∈ p_selections (qs_partition subset) ↔ ∃ path fs, query_leaf path fs c ∧ s ∈ path) ∧
  (∀ f, f ∈ p_fragments (qs_partition subset) ↔ ∃ path fs, query_leaf path fs c ∧ f ∈ fs) ∧
  (∀ v, v ∈ qs_variables subset ↔
    ∃ name, uses_variable (qs_partition subset) name ∧ variable_named operation name = Some v).
Lemma subset_required i c P :
  (∀ s, s ∈ p_selections P ↔ ∃ path fs, query_leaf path fs c ∧ s ∈ path) →
  (∀ f, f ∈ p_fragments P ↔ ∃ path fs, query_leaf path fs c ∧ f ∈ fs) →
  ∃ vs, variables_required P document operation = Ret vs ∧ subset_spec c (MkSubset i P vs).
Proof.
  intros Hs Hf. destruct (variables_required_spec P) as (vs & Ev & Hv).
  - intros s (path & fs & Hp & Hin)%Hs. by apply (query_leaf_bounds _ _ _ Hp).
  - intros f (path & fs & Hp & Hin)%Hf. by apply (query_leaf_bounds _ _ _ Hp).
  - exists vs. by split_and!.
Qed.

Definition plan_subset (plan : CachingPlan) (c : option CacheControl) : option QuerySubset :=
  match c with Some c => map_get c (cache_partitions plan) | None => Some (nocache_partition plan) end.
Definition plan_spec (plan : CachingPlan) : Prop :=
  NoDup (cache_partitions plan).*1 ∧
  (∀ c, c ∈ (cache_partitions plan).*1 ↔ ∃ path fs, query_leaf path fs (Some c)) ∧
  (∀ c subset, plan_subset plan c = Some subset → subset_spec c subset).
Lemma subsets_required i groups uncached :
  groups_spec groups uncached →
  ∃ subsets, mapM_res (λ e, variables ← variables_required e.2 document operation; Ret (e.1, MkSubset i e.2 variables)) groups
    = Ret subsets ∧ subsets.*1 = groups.*1 ∧ ∀ c subset, (c, subset) ∈ subsets → subset_spec (Some c) subset.
Proof.
  intros (HN & _ & Hg). destruct (mapM_res_exists
    (λ e : CacheControl * Partition, variables ← variables_required e.2 document operation; Ret (e.1, MkSubset i e.2 variables))
    (λ e e', e'.1 = e.1 ∧ subset_spec (Some e'.1) e'.2) groups) as (subsets & E & F).
  { intros [c P] Hin. destruct (Hg (Some c) P) as [Hs Hf]; [by apply elem_of_map_get|].
    destruct (subset_required i (Some c) P Hs Hf) as (vs & Ev & Hsub). exists (c, MkSubset i P vs). simpl. by rewrite Ev. }
  exists subsets. split_and!; [done| |].
  - clear E HN Hg. induction F as [|e e' l l' [E1 _] _ IH]; [done|]. by rewrite !fmap_cons, E1, IH.
  - intros c subset Hin. apply list_elem_of_lookup in Hin as [j Hj].
    by destruct (Forall2_lookup_r _ _ _ _ _ F Hj) as (e & _ & _ & ?).
Qed.

(** [build_plan] on a query, after parsing. *)
Lemma plan_operations_spec operation_name i :
  select_operation document operation_name = inr (i, operation) → co_type operation = Query →
  ∃ r, plan_operations document operation_name = Ret r ∧
  match r with
  | inl _ => ∃ n, reach n ∧ missing n
  | inr None => False
  | inr (Some plan) => (∀ n, reach n → ¬ missing n) ∧ plan_spec plan
  end.
Proof.
  intros Hsel Ht. unfold plan_operations. rewrite Hsel, decide_False by (intros Hn; by apply Hn). cbn zeta.
  destruct (visit_query_node (MkDeferVisitor [] []) Ht) as [d ->]. cbn [mbind res_bind fst snd].
  destruct (visit_fragments_spec d) as (r & -> & Hr). cbn [mbind res_bind].
  destruct r as [error|[[groups uncached] d']]; [by eexists|]. destruct Hr as [Hm Hg].
  destruct (proj2 (proj2 Hg) None uncached eq_refl) as [Hs Hf].
  destruct (subset_required i None uncached Hs Hf) as (vs & -> & Hsub). cbn [mbind res_bind].
  destruct (subsets_required i groups uncached Hg) as (subsets & -> & Ek & Hsubs). cbn [mbind res_bind].
  eexists. split; [done|]. split; [done|]. destruct Hg as (HN & Hk & _). unfold plan_spec. cbn [cache_partitions nocache_partition].
  rewrite Ek. split_and!; [done|done|]. intros [c|] subset Hc; simpl in Hc.
  - apply Hsubs. by apply map_get_elem_of.
  - by injection Hc as <-.
Qed.
End graph.

(** ** The theorems *)
Lemma select_operation_in document operation_name i operation :
  select_operation document operation_name = inr (i, operation) → operation ∈ cdoc_operations document.
Proof.
  unfold select_operation. destruct operation_name as [name|].
  - destruct (list_find _ _) as [[j op]|] eqn:E; [|done]. intros [= -> ->]. apply list_find_Some in E as [E _].
    by eapply list_elem_of_lookup_2.
  - destruct (cdoc_operations document); [done|]. intros [= <- <-]. left.
Qed.

Lemma build_plan_spec `{CacheTypes} parse_executable_document query operation_name document i operation plan :
  parse_executable_document query = inr document → doc_wf document →
  select_operation document operation_name = inr (i, operation) →
  build_plan parse_executable_document query operation_name = Ret (inr (Some plan)) →
  plan_spec document operation plan.
Proof.
  intros Hp Hwf Hsel Hb. unfold build_plan in Hb. rewrite Hp in Hb.
  destruct (decide (co_type operation = Query)) as [Ht|Ht].
  - destruct (plan_operations_spec document operation Hwf (select_operation_in _ _ _ _ Hsel) operation_name i Hsel Ht)
      as (r & Er & Hr). rewrite Hb in Er. injection Er as <-. apply Hr.
  - unfold plan_operations in Hb. rewrite Hsel, decide_True in Hb by done. done.
Qed.
Lemma query_leaf_nonempty `{CacheTypes} document operation path fs c : query_leaf document operation path fs c → path ≠ [].
Proof. by destruct 1. Qed.

(** C11. The partitions of a plan, against a definition of the paths of a query
    through its fragments: there is one partition for every cache control that
    is the innermost one at some leaf of the query, and a partition holds
    exactly the selections and the fragments on the paths to its leaves, with
    exactly the variables of the operation that they use. *)
Theorem build_plan_partitions `{CacheTypes} parse_executable_document query operation_name document i operation plan :
  parse_executable_document query = inr document → doc_wf document →
  select_operation document operation_name = inr (i, operation) →
  build_plan parse_executable_document query operation_name = Ret (inr (Some plan)) →
  NoDup (cache_partitions plan).*1 ∧
  (∀ c, c ∈ (cache_partitions plan).*1 ↔ ∃ path fs, query_leaf document operation path fs (Some c)) ∧
  (∀ c subset, plan_subset plan c = Some subset →
    (∀ s, s ∈ p_selections (qs_partition subset) ↔ ∃ path fs, query_leaf document operation path fs c ∧ s ∈ path) ∧
    (∀ f, f ∈ p_fragments (qs_partition subset) ↔ ∃ path fs, query_leaf document operation path fs c ∧ f ∈ fs) ∧
    (∀ v, v ∈ qs_variables subset ↔
      ∃ name, uses_variable document operation (qs_partition subset) name ∧ variable_named operation name = Some v)).
Proof. apply build_plan_spec. Qed.

(** C28. Planning returns, whatever the fragments spread, cyclic ones included:
    the parser's error, an error if there is no such operation, nothing for a
    mutation or a subscription, and for a query a plan, or an error exactly if
    a fragment that the query reaches is not defined. *)
Theorem build_plan_returns `{CacheTypes} parse_executable_document query operation_name :
  (∀ document, parse_executable_document query = inr document → doc_wf document) →
  ∃ r, build_plan parse_executable_document query operation_name = Ret r ∧
  match parse_executable_document query with
  | inl error => r = inl error
  | inr document =>
      match select_operation document operation_name with
      | inl error => r = inl error
      | inr (_, operation) =>
          if decide (co_type operation = Query) then
            ((∃ error, r = inl error) ∧ ∃ n, reach document operation n ∧ missing document operation n) ∨
            ((∃ plan, r = inr (Some plan)) ∧ ∀ n, reach document operation n → ¬ missing document operation n)
          else r = inr None
      end
  end.
Proof.
  intros Hwf. unfold build_plan. destruct (parse_executable_document query) as [error|document] eqn:Ep; [by eexists|].
  specialize (Hwf document eq_refl). destruct (select_operation document operation_name) as [error|[i operation]] eqn:Es.
  { unfold plan_operations. rewrite Es. by eexists. }
  case_decide as Ht.
  - destruct (plan_operations_spec document operation Hwf (select_operation_in _ _ _ _ Es) operation_name i Es Ht)
      as (r & Er & Hr). exists r. split; [done|]. destruct r as [error|[plan|]]; [left|right|done].
    + split; [eauto|done].
    + split; [eauto|]. apply Hr.
  - unfold plan_operations. rewrite Es, decide_True by done. by eexists.
Qed.

(** ** Witnesses *)

(** A registry in which [Query.user] has a cache control, and so has the type [Post]. *)
Definition control (age : Z) : CacheControl := MkCacheControl false age 0 None None.
Definition example_fields : list (string * string * string * option CacheControl) :=
  [("Query", "user", "User", Some (control 10)); ("Query", "hello", "String", None);
   ("User", "name", "String", None); ("User", "posts", "Post", None); ("Post", "title", "String", None)].
Definition example_types : CacheTypes := {|
  MetaType := string;
  MetaField := string * string * string * option CacheControl;
  query_type := "Query";
  lookup_type := λ name, if decide (name ∈ ["Query"; "User"; "Post"; "String"]) then Some name else None;
  type_cache_control := λ t, if decide (t = "Post") then Some (control 20) else None;
  type_field := λ t f, List.find (λ e, bool_decide (e.1.1.1 = t ∧ e.1.1.2 = f)) example_fields;
  field_cache_control := snd;
  field_named_type := λ f, f.1.2;
|}.
(** [query($n: Int) { user(first: $n) { ...F } hello }] with
    [fragment F on User { name posts { title } ...F }], a cyclic fragment. *)
Definition example_document : CDocument := {|
  cdoc_operations := [MkCOperation Query None [MkCVariable "n" "$n: Int"] []
    [CField 0 None "user" [("first", EVVariable "n")] [] [CFragmentSpread 1 "F" []]; CField 2 None "hello" [] [] []]];
  cdoc_fragments := [MkCFragment "F" "User" []
    [CField 3 None "name" [] [] []; CField 4 None "posts" [] [] [CField 5 None "title" [] [] []]; CFragmentSpread 6 "F" []]];
|}.
Definition example_plan : res (string + option CachingPlan) :=
  build_plan (H := example_types) (λ _, inr example_document) "query" None.

Lemma build_plan_partitions_witness :
  ∃ plan, example_plan = Ret (inr (Some plan)) ∧ NoDup (cache_partitions plan).*1 ∧
  ((λ e, (max_age e.1, p_selections (qs_partition e.2), qs_variables e.2)) <$> cache_partitions plan) =
    [(10%Z, [3; 0; 1; 6], [0]); (20%Z, [5; 4; 0; 1; 6], [0])].
Proof.
  eexists. split; [vm_compute; reflexivity|]. split; [|vm_compute; reflexivity].
  refine (proj1 (build_plan_partitions (H := example_types) (λ _, inr example_document) "query" None example_document 0 _ _ _ _ _ _)).
  - reflexivity.
  - vm_compute. repeat constructor; set_solver.
  - reflexivity.
  - vm_compute. reflexivity.
Defined.
Lemma build_plan_returns_witness : ∃ r, example_plan = Ret r.
Proof.
  destruct (build_plan_returns (H := example_types) (λ _, inr example_document) "query" None) as (r & E & _); [|by exists r].
  intros document [= <-]. vm_compute. repeat constructor; set_solver.
Defined.
