(* ===== verification/QueryResponse.v ===== *)
(** * [graph-entities]: responses as arenas of nodes

    [QueryResponse] of [response/mod.rs], with [from_serde_value] and the
    serialiser of [response/se.rs], and the conversions of [value/mod.rs]. The
    nodes of a response are in a map from [u32] ids; a tree of nodes that share
    no id is the value it stands for, and the operations refine those on
    values. *)
From Stdlib Require Import ZArith.
From stdpp Require Import list_numbers.
From S2P Require Import Prelude RustStd.
Local Open Scope string_scope.
Local Open Scope list_scope.
Local Open Scope Z_scope.

(** ** Values *)

(** [serde_json::Number]: an integer or the bits of an [f64]. *)
Inductive Number := NInt (n : Z) | NFloat (bits : Z).
(** [serde_json::Value]; an object lists its entries in the order of insertion. *)
Inductive Json :=
| JNull
| JBool (b : bool)
| JNumber (n : Number)
| JString (s : string)
| JArray (items : list Json)
| JObject (entries : list (string * Json)).
(** [CompactValue] of [value/mod.rs]. *)
Inductive CompactValue :=
| VNull
| VNumber (n : Number)
| VString (s : string)
| VBoolean (b : bool)
| VBinary (bytes : list Z)
| VEnum (name : string)
| VList (items : list CompactValue)
| VObject (entries : list (string * CompactValue)).

(** [Map::insert]: an entry that exists keeps its place. *)
Fixpoint json_insert {V} (key : string) (value : V) (entries : list (string * V)) : list (string * V) :=
  match entries with
  | [] => [(key, value)]
  | (key', value') :: entries =>
      if decide (key' = key) then (key, value) :: entries else (key', value') :: json_insert key value entries
  end.
(** Collecting entries into a [Map]. *)
Definition collect_map {V} (entries : list (string * V)) : list (string * V) :=
  foldl (λ m e, json_insert e.1 e.2 m) [] entries.

(** [From<serde_json::Value> for CompactValue] and the converse. *)
Fixpoint compact_of_json (value : Json) : CompactValue :=
  match value with
  | JNull => VNull
  | JNumber n => VNumber n
  | JString s => VString s
  | JBool b => VBoolean b
  | JArray list => VList (compact_of_json <$> list)
  | JObject entries => VObject ((λ e, (e.1, compact_of_json e.2)) <$> entries)
  end.
Fixpoint json_of_compact (value : CompactValue) : Json :=
  match value with
  | VNull => JNull
  | VNumber n => JNumber n
  | VString s => JString s
  | VBoolean b => JBool b
  | VBinary bytes => JArray ((λ b, JNumber (NInt b)) <$> bytes)
  | VEnum name => JString name
  | VList list => JArray (json_of_compact <$> list)
  | VObject entries => JObject (collect_map ((λ e, (e.1, json_of_compact e.2)) <$> entries))
  end.

(** ** The response *)
Abbreviation ResponseNodeId := Z.
Inductive QueryResponseNode :=
| Container (children : list (string * ResponseNodeId))
| ListNode (items : list ResponseNodeId)
| Primitive (value : CompactValue).
Record QueryResponse := MkResponse {
  root : option ResponseNodeId;
  data : gmap Z QueryResponseNode;
  next_id : Z;
  cache_tags : gset string;
}.
Definition response_default : QueryResponse := MkResponse None ∅ 0 ∅.
Definition with_data (f : gmap Z QueryResponseNode → gmap Z QueryResponseNode) (r : QueryResponse) : QueryResponse :=
  MkResponse (root r) (f (data r)) (next_id r) (cache_tags r).
Definition add_cache_tags (tags : list string) (r : QueryResponse) : QueryResponse :=
  MkResponse (root r) (data r) (next_id r) (cache_tags r ∪ list_to_set tags).

(** [next_id] and [insert_node]. *)
Definition take_next_id (r : QueryResponse) : res (ResponseNodeId * QueryResponse) :=
  let next := wrap 32 (next_id r + 1) in
  if decide (next ≠ 0) then Ret (next_id r, MkResponse (root r) (data r) next (cache_tags r)) else Panic "Oh no, an ID Overflow".
Definition insert_node (node : QueryResponseNode) (r : QueryResponse) : res (ResponseNodeId * QueryResponse) :=
  '(id, r) ← take_next_id r;
  Ret (id, with_data (insert id node) r).
Definition new_root (node : QueryResponseNode) : res QueryResponse :=
  '(_, r) ← insert_node node (MkResponse (Some 0) ∅ 0 ∅);
  Ret r.
Definition set_root_unchecked (id : ResponseNodeId) (r : QueryResponse) : QueryResponse :=
  MkResponse (Some id) (data r) (next_id r) (cache_tags r).
Definition get_node (r : QueryResponse) (id : ResponseNodeId) : option QueryResponseNode := data r !! id.
Definition get_container_node (r : QueryResponse) (id : ResponseNodeId) : option (list (string * ResponseNodeId)) :=
  match data r !! id with Some (Container children) => Some children | _ => None end.
Definition node_exists (r : QueryResponse) (id : ResponseNodeId) : bool := bool_decide (is_Some (get_node r id)).
(** The errors of [QueryResponseErrors]. *)
Inductive QueryResponseErrors := NodeNotFound | NotAContainer | NotAList.
Definition delete_node (id : ResponseNodeId) (r : QueryResponse) : (QueryResponseErrors + QueryResponseNode) * QueryResponse :=
  (match data r !! id with Some node => inr node | None => inl NodeNotFound end, with_data (delete id) r).

(** [ResponseContainer]. *)
Definition container_insert (name : string) (node : ResponseNodeId) (children : list (string * ResponseNodeId))
    : list (string * ResponseNodeId) :=
  match list_find (λ e, e.1 = name) children with
  | Some (i, e) => <[i := (e.1, node)]> children
  | None => children ++ [(name, node)]
  end.
Definition child (needle : string) (children : list (string * ResponseNodeId)) : option ResponseNodeId :=
  (λ e, e.2.2) <$> list_find (λ e, e.1 = needle) children.
(** [ResponsePrimitive::is_null]. *)
Definition primitive_is_null (value : CompactValue) : bool := match value with VNull => true | _ => false end.

(** [append_unchecked] and [push]. The node is inserted before the check. *)
Definition append_unchecked (from_id : ResponseNodeId) (to : QueryResponseNode) (field : string) (r : QueryResponse)
    : res ((QueryResponseErrors + ResponseNodeId) * QueryResponse) :=
  '(id, r) ← insert_node to r;
  match get_node r from_id with
  | None => Ret (inl NodeNotFound, r)
  | Some (Container children) =>
      Ret (inr id, with_data (insert from_id (Container (container_insert field id children))) r)
  | Some _ => Ret (inl NotAContainer, r)
  end.
Definition push (from_id : ResponseNodeId) (to : QueryResponseNode) (r : QueryResponse)
    : res ((QueryResponseErrors + ResponseNodeId) * QueryResponse) :=
  '(id, r) ← insert_node to r;
  match get_node r from_id with
  | None => Ret (inl NodeNotFound, r)
  | Some (ListNode items) => Ret (inr id, with_data (insert from_id (ListNode (items ++ [id]))) r)
  | Some _ => Ret (inl NotAContainer, r)
  end.

(** [merge]: the fields of one container go into another, the fields they
    share are merged afterwards. *)
Fixpoint merge_entries (entries : list (string * ResponseNodeId)) (existing : list (string * ResponseNodeId))
    (nested : list (ResponseNodeId * ResponseNodeId))
    : list (string * ResponseNodeId) * list (ResponseNodeId * ResponseNodeId) :=
  match entries with
  | [] => (existing, nested)
  | (name, src_field_id) :: entries =>
      match child name existing with
      | Some dest_field_id => merge_entries entries existing (nested ++ [(src_field_id, dest_field_id)])
      | None => merge_entries entries (container_insert name src_field_id existing) nested
      end
  end.
Fixpoint merge (fuel : nat) (source_container_id destination_container_id : ResponseNodeId) (r : QueryResponse)
    : res QueryResponse :=
  match fuel with
  | O => Panic "out of fuel"
  | S fuel =>
      match get_container_node r source_container_id, get_container_node r destination_container_id with
      | Some entries, Some existing =>
          let '(existing, nested) := merge_entries entries existing [] in
          fold_res (λ r ids, merge fuel ids.1 ids.2 r)
            (with_data (insert destination_container_id (Container existing)) r) nested
      | _, _ => Ret r
      end
  end.

(** ** [se.rs] *)

(** A loop that inserts values one after the other and collects their ids. *)
Definition insert_all {A} (f : A → QueryResponse → res (ResponseNodeId * QueryResponse)) :
    list A → QueryResponse → res (list ResponseNodeId * QueryResponse) :=
  fix go l r :=
    match l with
    | [] => Ret ([], r)
    | x :: l => '(id, r) ← f x r; '(ids, r) ← go l r; Ret (id :: ids, r)
    end.
Fixpoint from_serde_value (value : Json) (r : QueryResponse) : res (ResponseNodeId * QueryResponse) :=
  match value with
  | JNull => insert_node (Primitive VNull) r
  | JBool b => insert_node (Primitive (VBoolean b)) r
  | JNumber n => insert_node (Primitive (VNumber n)) r
  | JString s => insert_node (Primitive (VString s)) r
  | JArray items =>
      '(nodes, r) ← insert_all from_serde_value items r;
      insert_node (ListNode nodes) r
  | JObject entries =>
      '(nodes, r) ← insert_all (λ e, from_serde_value e.2) entries r;
      insert_node (Container (zip entries.*1 nodes)) r
  end.
Definition is_null (r : QueryResponse) : bool :=
  match root r ≫= get_node r with
  | Some (Primitive value) => primitive_is_null value
  | Some _ => false
  | None => true
  end.
(** [NodeSerializer]: children without a node are left out. A response whose
    nodes form a cycle has no serialisation. *)
Fixpoint serialize_node (fuel : nat) (r : QueryResponse) (id : ResponseNodeId) : res Json :=
  match fuel with
  | O => Panic "out of fuel"
  | S fuel =>
      node ← expect "node presence to be checked before NodeSerializer" (get_node r id);
      match node with
      | Container children =>
          entries ← mapM_res (λ e, json ← serialize_node fuel r e.2; Ret (e.1, json))
            (filter (λ e, node_exists r e.2 = true) children);
          Ret (JObject (collect_map entries))
      | ListNode items =>
          items ← mapM_res (serialize_node fuel r) (filter (λ id, node_exists r id = true) items);
          Ret (JArray items)
      | Primitive value => Ret (json_of_compact value)
      end
  end.
(** [GraphQlResponseSerializer] and [to_json_value]. *)
Definition to_json_value (fuel : nat) (r : QueryResponse) : res Json :=
  match root r with
  | Some id => if node_exists r id then serialize_node fuel r id else Ret JNull
  | None => Ret JNull
  end.

(** [take_node_into_compact_value]: every node is deleted when it is read. *)
Definition take_all (take : ResponseNodeId → QueryResponse → res (option CompactValue * QueryResponse)) :
    list ResponseNodeId → QueryResponse → res (option (list CompactValue) * QueryResponse) :=
  fix go ids r :=
    match ids with
    | [] => Ret (Some [], r)
    | id :: ids =>
        '(value, r) ← take id r;
        match value with
        | None => Ret (None, r)
        | Some value => '(values, r) ← go ids r; Ret (option_map (cons value) values, r)
        end
    end.
Fixpoint take_node_into_compact_value (fuel : nat) (id : ResponseNodeId) (r : QueryResponse)
    : res (option CompactValue * QueryResponse) :=
  match fuel with
  | O => Panic "out of fuel"
  | S fuel =>
      let '(node, r) := delete_node id r in
      match node with
      | inl _ => Ret (None, r)
      | inr (Container children) =>
          '(values, r) ← take_all (take_node_into_compact_value fuel) children.*2 r;
          Ret (option_map (λ values, VObject (zip children.*1 values)) values, r)
      | inr (ListNode items) =>
          '(values, r) ← take_all (take_node_into_compact_value fuel) items r;
          Ret (option_map VList values, r)
      | inr (Primitive value) => Ret (Some value, r)
      end
  end.
(** Every call that finds a node deletes it: the size of the map and one more
    call are enough. *)
Definition into_compact_value (r : QueryResponse) : res (option CompactValue) :=
  match root r with
  | None => Ret None
  | Some id =>
      '(value, _) ← take_node_into_compact_value (S (size (data r))) id r;
      value ← expect "graph root should always exist" value;
      Ret (Some value)
  end.

(** ** Trees of nodes *)
Inductive RTree :=
| TContainer (children : list (string * RTree))
| TList (items : list RTree)
| TPrimitive (value : CompactValue).

(** The tree with its root at a node, and the ids it occupies, each once. *)
Inductive tree_at (m : gmap Z QueryResponseNode) : Z → RTree → gset Z → Prop :=
| ta_primitive id value : m !! id = Some (Primitive value) → tree_at m id (TPrimitive value) {[ id ]}
| ta_list id ids ts fp :
    m !! id = Some (ListNode ids) → trees_at m ids ts fp → id ∉ fp → tree_at m id (TList ts) ({[ id ]} ∪ fp)
| ta_container id children ts fp :
    m !! id = Some (Container children) → trees_at m children.*2 ts fp → id ∉ fp →
    tree_at m id (TContainer (zip children.*1 ts)) ({[ id ]} ∪ fp)
with trees_at (m : gmap Z QueryResponseNode) : list Z → list RTree → gset Z → Prop :=
| tas_nil : trees_at m [] [] ∅
| tas_cons id ids t ts fp fps :
    tree_at m id t fp → trees_at m ids ts fps → fp ## fps → trees_at m (id :: ids) (t :: ts) (fp ∪ fps).
Scheme tree_at_mind := Induction for tree_at Sort Prop with trees_at_mind := Induction for trees_at Sort Prop.
Combined Scheme tree_at_mutind from tree_at_mind, trees_at_mind.

(** A tree depends only on the nodes it occupies. *)
Lemma tree_at_frame_both m m' :
  (∀ id t fp, tree_at m id t fp → (∀ i, i ∈ fp → m' !! i = m !! i) → tree_at m' id t fp) ∧
  (∀ ids ts fp, trees_at m ids ts fp → (∀ i, i ∈ fp → m' !! i = m !! i) → trees_at m' ids ts fp).
Proof.
  apply tree_at_mutind; intros.
  - constructor. rewrite H; [done|set_solver].
  - apply (ta_list _ id ids); [rewrite H0; [done|set_solver]| |done]. apply H. set_solver.
  - apply (ta_container _ id children); [rewrite H0; [done|set_solver]| |done]. apply H. set_solver.
  - constructor.
  - constructor; [apply H|apply H0|done]; set_solver.
Qed.
Lemma tree_at_frame m m' id t fp : tree_at m id t fp → (∀ i, i ∈ fp → m' !! i = m !! i) → tree_at m' id t fp.
Proof. apply (tree_at_frame_both m m'). Qed.
Lemma trees_at_frame m m' ids ts fp : trees_at m ids ts fp → (∀ i, i ∈ fp → m' !! i = m !! i) → trees_at m' ids ts fp.
Proof. apply (tree_at_frame_both m m'). Qed.
Lemma tree_at_root m id t fp : tree_at m id t fp → id ∈ fp ∧ is_Some (m !! id).
Proof. destruct 1; (split; [set_solver|eauto]). Qed.
Lemma trees_at_length m ids ts fp : trees_at m ids ts fp → length ids = length ts.
Proof. induction 1; simpl; congruence. Qed.
Lemma trees_at_ids m ids ts fp : trees_at m ids ts fp → ∀ id, id ∈ ids → is_Some (m !! id).
Proof.
  induction 1 as [|id ids t ts fp fps Ht Hts IH _]; intros i Hi; [set_solver|].
  apply elem_of_cons in Hi as [->|Hi]; [by apply tree_at_root in Ht as [_ ?]|by apply IH].
Qed.

(** A response whose ids are below [next_id], with room for [n] nodes. *)
Definition response_wf (r : QueryResponse) : Prop := 0 ≤ next_id r ∧ ∀ id, is_Some (data r !! id) → 0 ≤ id < next_id r.
Definition room (r : QueryResponse) (n : Z) : Prop := next_id r + n < 2 ^ 32.
Lemma tree_at_wf_both (r : QueryResponse) :
  response_wf r →
  (∀ id t fp, tree_at (data r) id t fp → ∀ i, i ∈ fp → 0 ≤ i < next_id r) ∧
  (∀ ids ts fp, trees_at (data r) ids ts fp → ∀ i, i ∈ fp → 0 ≤ i < next_id r).
Proof.
  intros [_ Hwf]. apply tree_at_mutind; intros; first
    [by apply elem_of_empty in H
    |apply elem_of_union in H1 as [?|?]; [by apply H|by apply H0]
    |apply elem_of_union in H0 as [->%elem_of_singleton|?]; [apply Hwf; eauto|by apply H]
    |apply elem_of_singleton in H as ->; apply Hwf; eauto].
Qed.
Lemma tree_at_wf r id t fp : response_wf r → tree_at (data r) id t fp → ∀ i, i ∈ fp → 0 ≤ i < next_id r.
Proof. intros Hwf. by apply (tree_at_wf_both r Hwf). Qed.
Lemma trees_at_wf r ids ts fp : response_wf r → trees_at (data r) ids ts fp → ∀ i, i ∈ fp → 0 ≤ i < next_id r.
Proof. intros Hwf. by apply (tree_at_wf_both r Hwf). Qed.

(** ** Inserting a value *)
Lemma Json_ind' (P : Json → Prop) :
  P JNull → (∀ b, P (JBool b)) → (∀ n, P (JNumber n)) → (∀ s, P (JString s)) →
  (∀ items, Forall P items → P (JArray items)) →
  (∀ entries, Forall (λ e, P e.2) entries → P (JObject entries)) → ∀ j, P j.
Proof.
  intros H1 H2 H3 H4 H5 H6. fix IH 1. intros [|b|n|s|items|entries]; [exact H1|apply H2|apply H3|apply H4| |].
  - apply H5. induction items; constructor; auto.
  - apply H6. induction entries as [|[k j] entries IHe]; constructor; auto.
Qed.
(** The number of nodes of a value, and its tree. *)
Fixpoint json_size (j : Json) : Z :=
  match j with
  | JArray items => 1 + foldr Z.add 0 (json_size <$> items)
  | JObject entries => 1 + foldr Z.add 0 ((λ e, json_size e.2) <$> entries)
  | _ => 1
  end.
Fixpoint tree_of_json (j : Json) : RTree :=
  match j with
  | JNull => TPrimitive VNull
  | JBool b => TPrimitive (VBoolean b)
  | JNumber n => TPrimitive (VNumber n)
  | JString s => TPrimitive (VString s)
  | JArray items => TList (tree_of_json <$> items)
  | JObject entries => TContainer ((λ e, (e.1, tree_of_json e.2)) <$> entries)
  end.
Lemma json_size_pos j : 1 ≤ json_size j.
Proof.
  induction j as [| | | |items IH|entries IH] using Json_ind'; simpl; try lia.
  - assert (0 ≤ foldr Z.add 0 (json_size <$> items)); [|unfold fmap in *; lia].
    induction IH; simpl; unfold fmap in *; simpl in *; lia.
  - assert (0 ≤ foldr Z.add 0 ((λ e, json_size e.2) <$> entries)); [|unfold fmap in *; lia].
    induction IH; simpl; unfold fmap in *; simpl in *; lia.
Qed.
Lemma sizes_nonneg {A} (f : A → Json) l : 0 ≤ foldr Z.add 0 ((λ x, json_size (f x)) <$> l).
Proof.
  induction l as [|x l IH]; [done|]. rewrite fmap_cons. cbn [foldr]. pose proof (json_size_pos (f x)). lia.
Qed.

(** [r'] is [r] with [n] more nodes. *)
Record grown (n : Z) (r r' : QueryResponse) : Prop := {
  gr_next : next_id r' = next_id r + n;
  gr_root : root r' = root r;
  gr_wf : response_wf r';
  gr_frame id : id < next_id r → data r' !! id = data r !! id;
  gr_tags : cache_tags r' = cache_tags r;
}.
Lemma grown_trans n n' r1 r2 r3 : 0 ≤ n → grown n r1 r2 → grown n' r2 r3 → grown (n + n') r1 r3.
Proof.
  intros Hn [H1 H2 H3 H4 H5] [K1 K2 K3 K4 K5]. split; [lia|congruence|done| |congruence]. intros id Hid. rewrite K4, H4; [done|done|lia].
Qed.
Lemma insert_node_spec node r :
  response_wf r → room r 1 →
  ∃ r', insert_node node r = Ret (next_id r, r') ∧ grown 1 r r' ∧ data r' = <[next_id r := node]> (data r).
Proof.
  intros [Hn Hwf] Hr. unfold room in Hr. unfold insert_node, take_next_id, wrap.
  rewrite Z.mod_small by lia. rewrite decide_True by lia. cbn [mbind res_bind]. eexists. split; [done|].
  split; [|done]. split; [done|done| | |done].
  - split; [simpl; lia|]. intros id. simpl. destruct (decide (id = next_id r)) as [->|Hne]; [lia|].
    rewrite lookup_insert_ne by done. intros H%Hwf. lia.
  - intros id Hid. simpl. rewrite lookup_insert_ne by lia. done.
Qed.

(** A loop of insertions, given what each of them does. *)
Lemma insert_all_spec {A} (f : A → Json) l r :
  (∀ x r, x ∈ l → response_wf r → room r (json_size (f x)) →
    ∃ id r' fp, from_serde_value (f x) r = Ret (id, r') ∧ grown (json_size (f x)) r r' ∧
      tree_at (data r') id (tree_of_json (f x)) fp ∧ ∀ i, i ∈ fp → next_id r ≤ i) →
  response_wf r → room r (foldr Z.add 0 ((λ x, json_size (f x)) <$> l)) →
  ∃ ids r' fp, insert_all (λ x, from_serde_value (f x)) l r = Ret (ids, r') ∧
    grown (foldr Z.add 0 ((λ x, json_size (f x)) <$> l)) r r' ∧
    trees_at (data r') ids ((λ x, tree_of_json (f x)) <$> l) fp ∧ ∀ i, i ∈ fp → next_id r ≤ i.
Proof.
  intros Hf. revert r. induction l as [|x l IH]; intros r Hwf Hr; cbn [insert_all].
  { exists [], r, ∅. split_and!; [done| |constructor|set_solver]. simpl in *. split; [lia|done..]. }
  rewrite fmap_cons in Hr |- *. cbn [foldr] in Hr |- *. unfold room in Hr.
  pose proof (json_size_pos (f x)) as Hp. pose proof (sizes_nonneg f l) as Hl.
  destruct (Hf x r) as (id & r1 & fp & -> & G1 & T1 & F1); [left|done|unfold room; lia|]. cbn [mbind res_bind].
  destruct (IH) with (r := r1) as (ids & r2 & fps & -> & G2 & T2 & F2).
  { intros y r0 Hy. apply Hf. by right. }
  { apply (gr_wf _ _ _ G1). }
  { unfold room. rewrite (gr_next _ _ _ G1). lia. }
  cbn [mbind res_bind]. exists (id :: ids), r2, (fp ∪ fps).
  pose proof (tree_at_wf _ _ _ _ (gr_wf _ _ _ G1) T1) as Hfp.
  split_and!; [done|by eapply grown_trans; [lia| |]| |].
  - rewrite fmap_cons. constructor; [|done|].
    + eapply tree_at_frame; [done|]. intros i Hi. apply (gr_frame _ _ _ G2). apply Hfp in Hi. lia.
    + intros i Hi Hi'. apply Hfp in Hi. apply F2 in Hi'. lia.
  - intros i [?|Hi]%elem_of_union; [by apply F1|]. apply F2 in Hi. rewrite (gr_next _ _ _ G1) in Hi. lia.
Qed.
Lemma insert_primitive_spec value r :
  response_wf r → room r 1 →
  ∃ id r' fp, insert_node (Primitive value) r = Ret (id, r') ∧ grown 1 r r' ∧
    tree_at (data r') id (TPrimitive value) fp ∧ ∀ i, i ∈ fp → next_id r ≤ i.
Proof.
  intros Hwf Hr. destruct (insert_node_spec (Primitive value) r Hwf Hr) as (r' & -> & G & E).
  exists (next_id r), r', {[ next_id r ]}. split_and!; [done|done| |set_solver by lia].
  constructor. by rewrite E, lookup_insert_eq.
Qed.
Lemma from_serde_value_spec j r :
  response_wf r → room r (json_size j) →
  ∃ id r' fp, from_serde_value j r = Ret (id, r') ∧ grown (json_size j) r r' ∧
    tree_at (data r') id (tree_of_json j) fp ∧ ∀ i, i ∈ fp → next_id r ≤ i.
Proof.
  revert r. induction j as [|b|n|s|items IH|entries IH] using Json_ind'; intros r Hwf Hr; cbn [from_serde_value json_size tree_of_json] in *.
  - by apply insert_primitive_spec.
  - by apply insert_primitive_spec.
  - by apply insert_primitive_spec.
  - by apply insert_primitive_spec.
  - change (json_size <$> items) with ((λ x, json_size (id x)) <$> items) in *.
    rewrite Forall_forall in IH. destruct (insert_all_spec id items r) as (ids & r1 & fp & E1 & G1 & T1 & F1);
      [auto|done|unfold room in *; lia|]. change (λ x, from_serde_value (id x)) with from_serde_value in E1.
    rewrite E1. cbn [mbind res_bind]. clear E1.
    destruct (insert_node_spec (ListNode ids) r1 (gr_wf _ _ _ G1)) as (r2 & -> & G2 & E2).
    { unfold room in *. rewrite (gr_next _ _ _ G1). lia. }
    pose proof (trees_at_wf _ _ _ _ (gr_wf _ _ _ G1) T1) as Hfp. pose proof (sizes_nonneg id items).
    exists (next_id r1), r2, ({[ next_id r1 ]} ∪ fp). split_and!; [done| | |].
    + rewrite Z.add_comm. eapply grown_trans; [|done|done]. done.
    + apply (ta_list _ _ ids); [by rewrite E2, lookup_insert_eq| |intros Hi; apply Hfp in Hi; lia].
      eapply trees_at_frame; [done|]. intros i Hi. apply (gr_frame _ _ _ G2). apply Hfp in Hi. lia.
    + intros i [->%elem_of_singleton|?]%elem_of_union; [|by apply F1]. rewrite (gr_next _ _ _ G1). lia.
  - rewrite Forall_forall in IH. destruct (insert_all_spec snd entries r) as (ids & r1 & fp & E1 & G1 & T1 & F1);
      [auto|done|unfold room in *; lia|]. rewrite E1. cbn [mbind res_bind]. clear E1.
    destruct (insert_node_spec (Container (zip entries.*1 ids)) r1 (gr_wf _ _ _ G1)) as (r2 & -> & G2 & E2).
    { unfold room in *. rewrite (gr_next _ _ _ G1). lia. }
    pose proof (trees_at_wf _ _ _ _ (gr_wf _ _ _ G1) T1) as Hfp. pose proof (sizes_nonneg snd entries).
    pose proof (trees_at_length _ _ _ _ T1) as Hlen. rewrite length_fmap in Hlen.
    exists (next_id r1), r2, ({[ next_id r1 ]} ∪ fp). split_and!; [done| | |].
    + rewrite Z.add_comm. eapply grown_trans; [|done|done]. done.
    + replace ((λ e, (e.1, tree_of_json e.2)) <$> entries)
        with (zip (zip entries.*1 ids).*1 ((λ e : string * Json, tree_of_json e.2) <$> entries)).
      * apply ta_container; [by rewrite E2, lookup_insert_eq| |intros Hi; apply Hfp in Hi; lia].
        rewrite snd_zip by (rewrite length_fmap; lia).
        eapply trees_at_frame; [done|]. intros i Hi. apply (gr_frame _ _ _ G2). apply Hfp in Hi. lia.
      * rewrite fst_zip by (rewrite length_fmap; lia). clear. induction entries as [|e l IHl]; [done|].
        rewrite !fmap_cons. simpl. f_equal. apply IHl.
    + intros i [->%elem_of_singleton|?]%elem_of_union; [|by apply F1]. rewrite (gr_next _ _ _ G1). lia.
Qed.

(** ** Reading a value back *)
Fixpoint json_of_tree (t : RTree) : Json :=
  match t with
  | TContainer children => JObject (collect_map ((λ e, (e.1, json_of_tree e.2)) <$> children))
  | TList items => JArray (json_of_tree <$> items)
  | TPrimitive value => json_of_compact value
  end.
Fixpoint compact_of_tree (t : RTree) : CompactValue :=
  match t with
  | TContainer children => VObject ((λ e, (e.1, compact_of_tree e.2)) <$> children)
  | TList items => VList (compact_of_tree <$> items)
  | TPrimitive value => value
  end.
Lemma tree_at_dom_both m :
  (∀ id t fp, tree_at m id t fp → fp ⊆ dom m) ∧ (∀ ids ts fp, trees_at m ids ts fp → fp ⊆ dom m).
Proof.
  apply tree_at_mutind; intros; [..|apply empty_subseteq|set_solver];
    (assert (id ∈ dom m) by (apply elem_of_dom; eauto); set_solver).
Qed.
Lemma tree_at_size m id t fp : tree_at m id t fp → (size fp ≤ size m)%nat.
Proof. intros H%(tree_at_dom_both m). rewrite <-size_dom. by apply subseteq_size. Qed.

Lemma filter_exists_all {A} (f : A → Z) r (l : list A) :
  (∀ x, x ∈ l → is_Some (data r !! f x)) → filter (λ x, node_exists r (f x) = true) l = l.
Proof.
  intros Hl. induction l as [|x l IH]; [done|]. rewrite filter_cons, decide_True, IH; [done|set_solver|].
  apply bool_decide_eq_true. apply Hl. left.
Qed.
Lemma size_union_insert (id : Z) (fp : gset Z) : id ∉ fp → size ({[ id ]} ∪ fp) = S (size fp).
Proof. intros H. rewrite size_union by set_solver. by rewrite size_singleton. Qed.
Lemma zip_fmap_r {A B C} (f : B → C) (k : list A) l : zip k (f <$> l) = (λ e, (e.1, f e.2)) <$> zip k l.
Proof. revert l. induction k as [|x k IH]; intros [|y l]; [done..|]. rewrite fmap_cons. simpl. f_equal. apply IH. Qed.
Lemma mapM_res_fmap {A B C} (g : B → A) (f : A → res C) l : mapM_res f (g <$> l) = mapM_res (λ x, f (g x)) l.
Proof. induction l as [|x l IH]; [done|]. rewrite fmap_cons. cbn [mapM_res]. by rewrite IH. Qed.
Lemma mapM_res_entries {A B} (f : Z → res B) (l : list (A * Z)) ys :
  mapM_res f l.*2 = Ret ys → mapM_res (λ e, y ← f e.2; Ret (e.1, y)) l = Ret (zip l.*1 ys).
Proof.
  revert ys. induction l as [|[k z] l IH]; intros ys; rewrite ?fmap_cons; cbn [mapM_res fst snd].
  - by intros [= <-].
  - intros H. destruct (f z) as [y|]; [|done]. cbn [mbind res_bind] in *.
    destruct (mapM_res f l.*2) as [ys'|]; [|done]. cbn [mbind res_bind] in *. injection H as <-. by rewrite (IH ys').
Qed.

Lemma serialize_node_both r :
  (∀ id t fp, tree_at (data r) id t fp → ∀ fuel, (size fp ≤ fuel)%nat → serialize_node fuel r id = Ret (json_of_tree t)) ∧
  (∀ ids ts fp, trees_at (data r) ids ts fp →
    ∀ fuel, (size fp ≤ fuel)%nat → mapM_res (serialize_node fuel r) ids = Ret (json_of_tree <$> ts)).
Proof.
  apply tree_at_mutind.
  - intros id value Hid fuel Hf. rewrite size_singleton in Hf. destruct fuel as [|fuel]; [lia|]. cbn [serialize_node].
    unfold get_node. by rewrite Hid.
  - intros id ids ts fp Hid Hts IH Hn fuel Hf. rewrite size_union_insert in Hf by done. destruct fuel as [|fuel]; [lia|].
    cbn [serialize_node]. unfold get_node. rewrite Hid. cbn [expect mbind res_bind].
    rewrite (filter_exists_all (λ x, x)) by (by eapply trees_at_ids). rewrite IH by lia. done.
  - intros id children ts fp Hid Hts IH Hn fuel Hf. rewrite size_union_insert in Hf by done. destruct fuel as [|fuel]; [lia|].
    cbn [serialize_node]. unfold get_node. rewrite Hid. cbn [expect mbind res_bind].
    rewrite (filter_exists_all snd).
    + rewrite (mapM_res_entries _ _ (json_of_tree <$> ts)) by (apply IH; lia). cbn [mbind res_bind json_of_tree].
      by rewrite zip_fmap_r.
    + intros e He. eapply trees_at_ids; [done|]. apply list_elem_of_fmap. eauto.
  - done.
  - intros id ids t ts fp fps Ht IHt Hts IHts Hd fuel Hf. cbn [mapM_res].
    assert (size fp ≤ size (fp ∪ fps))%nat by (apply subseteq_size; set_solver).
    assert (size fps ≤ size (fp ∪ fps))%nat by (apply subseteq_size; set_solver).
    rewrite IHt by lia. cbn [mbind res_bind]. by rewrite IHts by lia.
Qed.

Lemma take_all_cons take id ids r :
  take_all take (id :: ids) r =
  '(value, r) ← take id r;
  match value with
  | None => Ret (None, r)
  | Some value => '(values, r) ← take_all take ids r; Ret (option_map (cons value) values, r)
  end.
Proof. reflexivity. Qed.
(** Taking a tree out leaves the rest. *)
Lemma take_node_both m :
  (∀ id t fp, tree_at m id t fp → ∀ fuel r, (size fp ≤ fuel)%nat → (∀ i, i ∈ fp → data r !! i = m !! i) →
    ∃ r', take_node_into_compact_value fuel id r = Ret (Some (compact_of_tree t), r') ∧
      ∀ i, i ∉ fp → data r' !! i = data r !! i) ∧
  (∀ ids ts fp, trees_at m ids ts fp → ∀ fuel r, (size fp ≤ fuel)%nat → (∀ i, i ∈ fp → data r !! i = m !! i) →
    ∃ r', take_all (take_node_into_compact_value fuel) ids r = Ret (Some (compact_of_tree <$> ts), r') ∧
      ∀ i, i ∉ fp → data r' !! i = data r !! i).
Proof.
  apply tree_at_mutind.
  - intros id value Hid fuel r Hf Hr. rewrite size_singleton in Hf. destruct fuel as [|fuel]; [lia|].
    cbn [take_node_into_compact_value delete_node]. rewrite Hr by set_solver. rewrite Hid. eexists. split; [done|].
    intros i Hi. simpl. rewrite lookup_delete_ne; [done|set_solver].
  - intros id ids ts fp Hid Hts IH Hn fuel r Hf Hr. rewrite size_union_insert in Hf by done. destruct fuel as [|fuel]; [lia|].
    cbn [take_node_into_compact_value delete_node]. rewrite Hr by set_solver. rewrite Hid.
    destruct (IH fuel (with_data (delete id) r)) as (r' & -> & Hr'); [lia| |].
    { intros i Hi. simpl. rewrite lookup_delete_ne by set_solver. apply Hr. set_solver. }
    cbn [mbind res_bind]. eexists. split; [done|]. intros i Hi. rewrite Hr' by set_solver. simpl.
    rewrite lookup_delete_ne; [done|set_solver].
  - intros id children ts fp Hid Hts IH Hn fuel r Hf Hr. rewrite size_union_insert in Hf by done. destruct fuel as [|fuel]; [lia|].
    cbn [take_node_into_compact_value delete_node]. rewrite Hr by set_solver. rewrite Hid.
    destruct (IH fuel (with_data (delete id) r)) as (r' & -> & Hr'); [lia| |].
    { intros i Hi. simpl. rewrite lookup_delete_ne by set_solver. apply Hr. set_solver. }
    cbn [mbind res_bind]. eexists. split; [cbn [option_map compact_of_tree]; by rewrite zip_fmap_r|].
    intros i Hi. rewrite Hr' by set_solver. simpl. rewrite lookup_delete_ne; [done|set_solver].
  - intros fuel r _ _. by eexists.
  - intros id ids t ts fp fps Ht IHt Hts IHts Hd fuel r Hf Hr. rewrite take_all_cons.
    assert (size fp ≤ size (fp ∪ fps))%nat by (apply subseteq_size; set_solver).
    assert (size fps ≤ size (fp ∪ fps))%nat by (apply subseteq_size; set_solver).
    destruct (IHt fuel r) as (r1 & -> & H1); [lia|set_solver|]. cbn [mbind res_bind].
    destruct (IHts fuel r1) as (r2 & E2 & H2); [lia| |].
    { intros i Hi. rewrite H1 by set_solver. apply Hr. set_solver. }
    rewrite E2. cbn [mbind res_bind]. eexists. split; [done|].
    intros i Hi. rewrite H2, H1; [done|set_solver|set_solver].
Qed.

(** JSON objects have one entry for every key. *)
Fixpoint json_wf (j : Json) : Prop :=
  match j with
  | JArray items => foldr and True (json_wf <$> items)
  | JObject entries => NoDup entries.*1 ∧ foldr and True ((λ e, json_wf e.2) <$> entries)
  | _ => True
  end.
Lemma json_insert_new {V} key (value : V) entries : key ∉ entries.*1 → json_insert key value entries = entries ++ [(key, value)].
Proof.
  induction entries as [|[k v] l IH]; [done|]. rewrite fmap_cons. intros Hk. cbn [json_insert].
  rewrite decide_False; [|intros ->; set_solver]. simpl. f_equal. apply IH. set_solver.
Qed.
Lemma collect_map_NoDup {V} (entries : list (string * V)) : NoDup entries.*1 → collect_map entries = entries.
Proof.
  unfold collect_map. intros HN. assert (∀ m, NoDup (m ++ entries).*1 →
    foldl (λ m e, json_insert e.1 e.2 m) m entries = m ++ entries) as Hf; [|by apply (Hf [])].
  clear HN. induction entries as [|[k v] l IH]; intros m HN; cbn [foldl]; [by rewrite app_nil_r|].
  rewrite fmap_app, fmap_cons in HN. cbn [fst snd] in *.
  apply NoDup_app in HN as HN'. destruct HN' as (_ & Hd & _).
  rewrite json_insert_new by (intros Hin; apply (Hd k); [done|left]).
  rewrite IH; [by rewrite <-app_assoc|]. rewrite <-app_assoc, fmap_app. exact HN.
Qed.
Lemma foldr_and_Forall {A} (P : A → Prop) l : foldr and True (P <$> l) ↔ Forall P l.
Proof.
  induction l as [|x l IH]; [split; [constructor|done]|]. rewrite fmap_cons. cbn [foldr]. by rewrite IH, Forall_cons.
Qed.
Lemma list_fmap_id_Forall {A} (f : A → A) l : Forall (λ x, f x = x) l → f <$> l = l.
Proof. induction 1 as [|x l Hx _ IH]; [done|]. by rewrite fmap_cons, Hx, IH. Qed.
Lemma json_tree_roundtrip j : json_wf j → json_of_tree (tree_of_json j) = j.
Proof.
  induction j as [|b|n|s|items IH|entries IH] using Json_ind'; try done; cbn [json_wf].
  - intros Hw. cbn [tree_of_json json_of_tree]. f_equal. rewrite <-list_fmap_compose. apply list_fmap_id_Forall.
    rewrite foldr_and_Forall in Hw.
    eapply Forall_impl; [apply Forall_and; split; [exact IH|exact Hw]|]. intros x [H1 H2]. by apply H1.
  - intros [HN Hw]. cbn [tree_of_json json_of_tree]. f_equal. rewrite <-list_fmap_compose.
    rewrite (foldr_and_Forall (λ e : string * Json, json_wf e.2)) in Hw.
    assert ((λ e, (e.1, json_of_tree e.2)) ∘ (λ e, (e.1, tree_of_json e.2)) <$> entries = entries) as E.
    { apply list_fmap_id_Forall. eapply Forall_impl; [apply Forall_and; split; [exact IH|exact Hw]|].
      intros [k j] [H1 H2]. simpl in *. by rewrite H1. }
    rewrite E. by apply collect_map_NoDup.
Qed.
Lemma compact_tree_json j : compact_of_tree (tree_of_json j) = compact_of_json j.
Proof.
  induction j as [|b|n|s|items IH|entries IH] using Json_ind'; try done; cbn [tree_of_json compact_of_tree compact_of_json]; f_equal;
    rewrite <-list_fmap_compose; apply list_fmap_ext; intros i x Hx; rewrite Forall_lookup in IH; simpl; by rewrite (IH i x Hx).
Qed.

(** C30. A JSON value that is turned into the nodes of a response is what the
    response serialises to, and what its nodes are when they are taken out,
    unless the ids run out: [from_serde_value], [to_json_value] and
    [into_compact_value] lose nothing. *)
Theorem response_roundtrip j fuel :
  json_wf j → json_size j < 2 ^ 32 → (Z.to_nat (json_size j) ≤ fuel)%nat →
  ∃ id r, from_serde_value j response_default = Ret (id, r) ∧
    to_json_value fuel (set_root_unchecked id r) = Ret j ∧
    into_compact_value (set_root_unchecked id r) = Ret (Some (compact_of_json j)).
Proof.
  intros Hw Hs Hf.
  assert (response_wf response_default) as Hwf by (split; [done|]; intros i []; done).
  destruct (from_serde_value_spec j response_default Hwf) as (id & r & fp & E & G & T & F); [unfold room; simpl; lia|].
  exists id, r. split; [done|].
  assert (size fp ≤ Z.to_nat (json_size j))%nat as Hfp.
  { pose proof (tree_at_wf _ _ _ _ (gr_wf _ _ _ G) T) as Hb. rewrite (gr_next _ _ _ G) in Hb. simpl in Hb.
    rewrite <-(length_seqZ 0 (json_size j)). rewrite <-(size_list_to_set (C := gset Z)) by apply NoDup_seqZ.
    apply subseteq_size. intros i Hi. apply elem_of_list_to_set, elem_of_seqZ. apply Hb in Hi. lia. }
  pose proof (tree_at_root _ _ _ _ T) as [_ Hroot]. split.
  - unfold to_json_value. cbn [root set_root_unchecked]. unfold node_exists, get_node. cbn [data set_root_unchecked].
    rewrite bool_decide_true by done. rewrite <-(json_tree_roundtrip j) by done.
    apply (serialize_node_both (set_root_unchecked id r)) with (fp := fp); [done|lia].
  - unfold into_compact_value. cbn [root set_root_unchecked data].
    destruct (proj1 (take_node_both (data r)) id _ fp T (S (size (data r))) (set_root_unchecked id r)) as (r' & -> & _).
    + apply tree_at_size in T. lia.
    + done.
    + cbn [mbind res_bind expect]. by rewrite compact_tree_json.
Qed.
Lemma response_roundtrip_witness :
  ∃ id r, from_serde_value (JObject [("a", JArray [JNull; JBool true]); ("b", JString "x")]) response_default = Ret (id, r) ∧
    to_json_value 5 (set_root_unchecked id r) = Ret (JObject [("a", JArray [JNull; JBool true]); ("b", JString "x")]).
Proof.
  destruct (response_roundtrip (JObject [("a", JArray [JNull; JBool true]); ("b", JString "x")]) 5) as (id & r & H1 & H2 & _).
  - simpl. repeat split; auto. repeat constructor; set_solver.
  - reflexivity.
  - simpl. lia.
  - by exists id, r.
Defined.
