(* ===== verification/CachePhases.v ===== *)
(** * [partial-caching]: from the plan to the response

    The phases after planning: [fetching/] (cache keys and entries),
    [execution/mod.rs] (what is left for the executor, and its response),
    [hit.rs], [response.rs], [headers.rs] and [updating/]. Responses are those
    of [QueryResponse.v]. The hash of a cache key and the request headers are
    arguments; a [Duration] is a number of nanoseconds. *)
From Stdlib Require Import ZArith.
From S2P Require Import Prelude RustStd SdlAst CachePlan CachePlanProps CachePlanClaims QueryResponse.
Local Open Scope string_scope.
Local Open Scope list_scope.
Local Open Scope Z_scope.

(** ** [merge_json] of [execution/mod.rs] *)
Definition todo_invalidate {A} : res A := Panic "not yet implemented: probably need to invalidate cache if this happens".
(** The body of the loop over the fields of a cached object. *)
Definition merge_field (inner : Json → ResponseNodeId → QueryResponse → res QueryResponse) (current_node_id : ResponseNodeId)
    (r : QueryResponse) (e : string * Json) : res QueryResponse :=
  container ← unwrap (get_container_node r current_node_id);
  match child e.1 container with
  | Some child_id => inner e.2 child_id r
  | None =>
      '(field_id, r) ← from_serde_value e.2 r;
      container ← unwrap (get_container_node r current_node_id);
      Ret (with_data (insert current_node_id (Container (container_insert e.1 field_id container))) r)
  end.
Definition merge_fields (inner : Json → ResponseNodeId → QueryResponse → res QueryResponse) (current_node_id : ResponseNodeId) :
    list (string * Json) → QueryResponse → res QueryResponse :=
  fix go fields r :=
    match fields with
    | [] => Ret r
    | e :: fields => r ← merge_field inner current_node_id r e; go fields r
    end.
(** The loop over the items of a list and those of a cached one, as long as there are both. *)
Definition merge_items (inner : Json → ResponseNodeId → QueryResponse → res QueryResponse) :
    list Json → list ResponseNodeId → QueryResponse → res QueryResponse :=
  fix go cache_list response_items r :=
    match cache_list, response_items with
    | cache_item :: cache_list, response_item :: response_items =>
        r ← inner cache_item response_item r; go cache_list response_items r
    | _, _ => Ret r
    end.
Fixpoint merge_inner (json : Json) (current_node_id : ResponseNodeId) (r : QueryResponse) {struct json} : res QueryResponse :=
  node ← expect "every node ID should exist" (get_node r current_node_id);
  match node, json with
  | Container _, JObject cache_fields => merge_fields merge_inner current_node_id cache_fields r
  | Container _, _ => todo_invalidate
  | ListNode response_list, JArray cache_list => merge_items merge_inner cache_list response_list r
  | ListNode _, _ => Panic "not yet implemented: this is a problem"
  | Primitive primitive, _ => if primitive_is_null primitive then Ret r else todo_invalidate
  end.
Definition merge_json (r : QueryResponse) (json : Json) : res QueryResponse :=
  match root r with
  | None => Ret r
  | Some current_node_id => merge_inner json current_node_id r
  end.

(** ** [response.rs] and [headers.rs] *)
Abbreviation Duration := Z.
Definition NANOS : Z := 10 ^ 9.
Definition from_secs (secs : Z) : Duration := secs * NANOS.
Definition as_secs (d : Duration) : Z := d / NANOS.
Inductive MaxAge := Unknown | Known (d : Duration) | NoMaxAge.
Definition max_age_merge (other : Duration) (m : MaxAge) : MaxAge :=
  let other := from_secs (as_secs other) in
  match m with
  | Unknown => Known other
  | Known this => Known (Z.min this other)
  | NoMaxAge => NoMaxAge
  end.
Definition set_none (m : MaxAge) : MaxAge := NoMaxAge.
Definition into_duration (m : MaxAge) : option Duration :=
  match m with
  | Unknown | NoMaxAge => None
  | Known d => if d =? 0 then None else Some d
  end.
(** A response: its body and its two headers, the [max-age] in seconds. *)
Record Response := MkCacheResponse {
  body : QueryResponse;
  x_grafbase_cache : string;
  public_max_age : option Z;
}.
Definition headers (grafbase_cache : string) (m : MaxAge) (body : QueryResponse) : Response :=
  MkCacheResponse body grafbase_cache (as_secs <$> into_duration m).
Definition hit (body : QueryResponse) (m : MaxAge) : Response := headers "HIT" m body.
Definition partial_hit (body : QueryResponse) (m : MaxAge) : Response := headers "PARTIAL_HIT" m body.
Definition miss (body : QueryResponse) (m : MaxAge) : Response := headers "MISS" m body.

Record RequestCacheControl := MkRequest { should_read_from_cache : bool; should_write_to_cache : bool }.
(** From the directives [no-cache] and [no-store] of a [cache-control] header. *)
Definition request_cache_control_from (no_cache no_store : bool) : RequestCacheControl :=
  MkRequest (negb no_cache) (negb no_store).

(** ** [runtime::cache::Entry] *)
Inductive Entry :=
| Hit (value : Json) (time_till_miss : Duration)
| Miss
| Stale (value : Json).
Definition is_miss (e : Entry) : bool := match e with Miss => true | _ => false end.

(** ** [hit.rs] *)
(** The loop over the entries after the first. *)
Fixpoint merge_entries_into (entries : list Entry) (body : QueryResponse) (age : MaxAge) : res (QueryResponse * MaxAge) :=
  match entries with
  | [] => Ret (body, age)
  | Hit value time_till_miss :: entries =>
      body ← merge_json body value; merge_entries_into entries body (max_age_merge time_till_miss age)
  | Miss :: _ => Panic "a complete hit should have no misses"
  | Stale value :: entries => body ← merge_json body value; merge_entries_into entries body (set_none age)
  end.
Definition response_and_updates (cache_entries : list Entry) : res Response :=
  match cache_entries with
  | [] => Ret (hit response_default NoMaxAge)
  | first_entry :: cache_entries =>
      '(body, age) ←
        match first_entry with
        | Hit value time_till_miss =>
            '(root_id, body) ← from_serde_value value response_default;
            Ret (set_root_unchecked root_id body, max_age_merge time_till_miss Unknown)
        | Miss => Panic "a complete hit should have no misses"
        | Stale value =>
            '(root_id, body) ← from_serde_value value response_default;
            Ret (set_root_unchecked root_id body, set_none Unknown)
        end;
      '(body, age) ← merge_entries_into cache_entries body age;
      Ret (hit body age)
  end.

(** ** [query_subset/display.rs] *)
Definition write_indent (level : nat) : string := String.concat "" (replicate (level * 2) " ").
Fixpoint requires_synthetic_typename_from (result : bool) (selections : list CSelection) : bool :=
  match selections with
  | [] => result
  | CField _ alias name _ _ _ :: selections =>
      if bool_decide (name = "__typename" ∧ alias = None) then false
      else requires_synthetic_typename_from result selections
  | _ :: selections => requires_synthetic_typename_from true selections
  end.
(** The selections are the visible ones, those of a [FilteredSelectionSet]. *)
Definition requires_synthetic_typename (selections : list CSelection) : bool :=
  requires_synthetic_typename_from false selections.

Section display.
(** The printers of cynic-parser. *)
Context (arguments_text : CArguments → string) (directives_text : list CDirective → string).
Context (spread_text : string → list CDirective → string).
Definition newline : string := String (Ascii.ascii_of_nat 10) "".

(** A selection set, given the text of its selections. *)
Definition selection_set_display (visible : list SelectionId) (indent_level : nat) (selections : list (CSelection * string))
    : string :=
  match filter (λ e, selection_id e.1 ∈ visible) selections with
  | [] => ""
  | shown =>
      "{" +:+ newline +:+
      (if requires_synthetic_typename shown.*1 then write_indent (S indent_level) +:+ "__typename" +:+ newline else "") +:+
      String.concat "" ((λ e, e.2 +:+ newline) <$> shown) +:+
      write_indent indent_level +:+ "}"
  end.
Fixpoint selection_display (visible : list SelectionId) (indent_level : nat) (selection : CSelection) : string :=
  write_indent indent_level +:+
  match selection with
  | CField _ alias name arguments directives selection_set =>
      match alias with Some alias => alias +:+ ": " | None => "" end +:+
      name +:+ arguments_text arguments +:+ directives_text directives +:+
      (match selection_set with [] => "" | _ => " " end) +:+
      selection_set_display visible indent_level ((λ s, (s, selection_display visible (S indent_level) s)) <$> selection_set)
  | CInlineFragment _ type_condition directives selection_set =>
      "..." +:+ match type_condition with Some on_type => " on " +:+ on_type | None => "" end +:+
      directives_text directives +:+ " " +:+
      selection_set_display visible indent_level ((λ s, (s, selection_display visible (S indent_level) s)) <$> selection_set)
  | CFragmentSpread _ fragment_name directives => spread_text fragment_name directives
  end.
Definition root_display (visible : list SelectionId) (selections : list CSelection) : string :=
  selection_set_display visible 0 ((λ s, (s, selection_display visible 1 s)) <$> selections).

(** [QuerySubsetDisplay]. *)
Definition query_subset_display (include_query_name : bool) (document : CDocument) (subset : QuerySubset) : res string :=
  operation ← expect "index out of bounds" (cdoc_operations document !! qs_operation subset);
  variables ← mapM_res (λ v, expect "index out of bounds" (co_variables operation !! v)) (qs_variables subset);
  fragments ← mapM_res (read_fragment document) (p_fragments (qs_partition subset));
  let visible := p_selections (qs_partition subset) in
  Ret ("query" +:+
    (if include_query_name then match co_name operation with Some name => " " +:+ name | None => "" end else "") +:+
    (match variables with [] => "" | _ => "(" +:+ String.concat ", " (cv_text <$> variables) +:+ ")" end) +:+
    directives_text (co_directives operation) +:+ " " +:+ root_display visible (co_selection_set operation) +:+ newline +:+
    String.concat "" ((λ f, newline +:+ "fragment " +:+ cf_name f +:+ " on " +:+ cf_type_condition f +:+
      directives_text (cf_directives f) +:+ " " +:+ root_display visible (cf_selection_set f) +:+ newline) <$> fragments)).

(** ** [fetching/keys.rs] *)
(** [ExecutionAuth]: the text of its global operations, and the claims of a token. *)
Record ExecutionAuth := MkAuth { global_ops : string; as_token : option (string → option string) }.
Inductive CacheAccess := Scoped (scopes : list (option string)) | DefaultAccess (auth : ExecutionAuth).
Definition cache_scopes (cache_control : CacheControl) (auth : ExecutionAuth) (header : string → option string)
    : option CacheAccess :=
  match access_scopes cache_control with
  | None => Some (DefaultAccess auth)
  | Some scopes =>
      let actual_scopes :=
        (λ scope, match scope with
                  | Public | ApiKey => Some (global_ops auth)
                  | Jwt claim => as_token auth ≫= λ token, token claim
                  | Header name => header name
                  end) <$> scopes in
      match actual_scopes with [] => None | _ => Some (Scoped actual_scopes) end
  end.
(** The variables of the request that a subset uses. *)
Definition key_variables (document : CDocument) (subset : QuerySubset) (variables : gmap string Json)
    : res (list (string * Json)) :=
  operation ← expect "index out of bounds" (cdoc_operations document !! qs_operation subset);
  definitions ← mapM_res (λ v, expect "index out of bounds" (co_variables operation !! v)) (qs_variables subset);
  Ret (filter_map (λ d, (λ value, (cv_name d, value)) <$> variables !! cv_name d) definitions).

(** [build_key_string]: the hash of the three, or an error. *)
Context (build_key_string : string → CacheAccess → list (string * Json) → option string).
Definition build_cache_key (document : CDocument) (auth : ExecutionAuth) (header : string → option string)
    (variables : gmap string Json) (e : CacheControl * QuerySubset) : res (option string) :=
  match cache_scopes e.1 auth header with
  | None => Ret None
  | Some scopes =>
      variables ← key_variables document e.2 variables;
      query ← query_subset_display false document e.2;
      Ret (build_key_string query scopes variables)
  end.
Definition build_cache_keys (plan : CachingPlan) (auth : ExecutionAuth) (header : string → option string)
    (variables : gmap string Json) : res (list (option string)) :=
  mapM_res (build_cache_key (plan_document plan) auth header variables) (cache_partitions plan).

(** ** [fetching/mod.rs] *)
Record CacheFetchPhase := MkFetch {
  fetch_plan : CachingPlan;
  fetch_keys : list (option string);
  fetch_request : RequestCacheControl;
  fetch_entries : list Entry;
}.
(** The [cache-control] header of the request: its [no-cache] and [no-store]. *)
Definition start_fetch_phase (plan : CachingPlan) (auth : ExecutionAuth) (header : string → option string)
    (cache_headers : option (bool * bool)) (variables : gmap string Json) : res CacheFetchPhase :=
  let cache_headers := default (false, false) cache_headers in
  keys ← build_cache_keys plan auth header variables;
  Ret (MkFetch plan keys (request_cache_control_from cache_headers.1 cache_headers.2)
         (replicate (length (cache_partitions plan)) Miss)).
End display.

Record CacheKey := MkCacheKey { key_index : nat; key_text : string }.
Definition cache_keys (fetch : CacheFetchPhase) : list CacheKey :=
  if negb (should_read_from_cache (fetch_request fetch)) then []
  else filter_map (λ e, MkCacheKey e.1 <$> e.2) (imap pair (fetch_keys fetch)).
Definition record_cache_entry (key : CacheKey) (entry : Entry) (fetch : CacheFetchPhase) : res CacheFetchPhase :=
  if decide (key_index key < length (fetch_entries fetch))%nat then
    Ret (MkFetch (fetch_plan fetch) (fetch_keys fetch) (fetch_request fetch) (<[key_index key := entry]> (fetch_entries fetch)))
  else Panic "index out of bounds".

(** ** [execution/mod.rs] *)
Record ExecutionPhase := MkExecution {
  exec_plan : CachingPlan;
  exec_entries : list Entry;
  exec_keys : list (option string);
  executor_subset : QuerySubset;
  cache_miss_count : nat;
  is_partial_hit : bool;
  exec_request : RequestCacheControl;
}.
(** The loop of [ExecutionPhase::new]. *)
Definition add_entry (acc : QuerySubset * nat * bool) (e : Entry * (CacheControl * QuerySubset)) : QuerySubset * nat * bool :=
  let '(subset, misses, partial) := acc in
  if is_miss e.1 then (subset_extend e.2.2 subset, S misses, partial) else (subset, misses, true).
Definition execution_new (fetch : CacheFetchPhase) : ExecutionPhase :=
  let plan := fetch_plan fetch in
  let '(subset, misses, partial) :=
    foldl add_entry (nocache_partition plan, 0%nat, false) (zip (fetch_entries fetch) (cache_partitions plan)) in
  MkExecution plan (fetch_entries fetch) (fetch_keys fetch) subset misses partial (fetch_request fetch).
Inductive FetchPhaseResult := PartialHit (execution : ExecutionPhase) | CompleteHit (cache_entries : list Entry).
Definition finish (fetch : CacheFetchPhase) : FetchPhaseResult :=
  if existsb is_miss (fetch_entries fetch) || negb (subset_is_empty (nocache_partition (fetch_plan fetch)))
  then PartialHit (execution_new fetch) else CompleteHit (fetch_entries fetch).

(** ** [updating/mod.rs] *)
Record CacheUpdatePhase := MkUpdatePhase {
  up_document : CDocument;
  up_partitions : list (CacheControl * QuerySubset);
  keys_to_write : list (string * nat);
  up_response : QueryResponse;
}.
Record CacheUpdate := MkUpdate {
  update_key : string;
  update_cache_control : CacheControl;
  update_subset : QuerySubset;
  update_response : QueryResponse;
}.
Definition updates (phase : CacheUpdatePhase) : list CacheUpdate :=
  filter_map (λ e, (λ p, MkUpdate e.1 p.1 p.2 (up_response phase)) <$> up_partitions phase !! e.2) (keys_to_write phase).

Definition has_nocache_partition (execution : ExecutionPhase) : bool :=
  negb (subset_is_empty (nocache_partition (exec_plan execution))).
(** The loop of [handle_full_response]. *)
Fixpoint handle_entries (plan : CachingPlan) (index : nat) (entries : list (Entry * option string)) (response : QueryResponse)
    (age : MaxAge) (keys : list (string * nat)) : res (QueryResponse * MaxAge * list (string * nat)) :=
  match entries with
  | [] => Ret (response, age, keys)
  | (entry, key) :: entries =>
      match entry, key with
      | Hit value max_age, _ =>
          response ← merge_json response value;
          handle_entries plan (S index) entries response (max_age_merge max_age age) keys
      | Stale value, _ =>
          response ← merge_json response value;
          handle_entries plan (S index) entries response (set_none age) keys
      | Miss, key =>
          partition ← expect "index out of bounds" (cache_partitions plan !! index);
          let age := max_age_merge (from_secs (max_age partition.1)) age in
          handle_entries plan (S index) entries response age
            (match key with Some key => keys ++ [(key, index)] | None => keys end)
      end
  end.
Definition handle_full_response (execution : ExecutionPhase) (response : QueryResponse) (errors : bool)
    : res (Response * option CacheUpdatePhase) :=
  let age := if has_nocache_partition execution then set_none Unknown else Unknown in
  '(merged, age, keys) ←
    handle_entries (exec_plan execution) 0 (zip (exec_entries execution) (exec_keys execution)) response age [];
  let update_phase :=
    if negb (bool_decide (keys = [])) && negb errors && should_write_to_cache (exec_request execution) then
      Some (MkUpdatePhase (plan_document (exec_plan execution)) (cache_partitions (exec_plan execution)) keys response)
    else None in
  Ret (if is_partial_hit execution then partial_hit merged age else miss merged age, update_phase).

(** ** [query_subset/field_iter.rs] and [updating/ser.rs] *)

(** [FieldIter] with [find]: the selection set of the first field with a
    response key. The stack holds the rest of the selection sets that are
    being iterated; a fragment that spreads itself has no last field. *)
Fixpoint find_field (fuel : nat) (document : CDocument) (visible : list SelectionId) (iter_stack : list (list CSelection))
    (name : string) : res (option (list CSelection)) :=
  match fuel with
  | O => Panic "out of fuel"
  | S fuel =>
      match iter_stack with
      | [] => Ret None
      | [] :: iter_stack => find_field fuel document visible iter_stack name
      | (selection :: rest) :: iter_stack =>
          if bool_decide (selection_id selection ∈ visible) then
            match selection with
            | CField _ alias field_name _ _ selection_set =>
                if bool_decide (response_key alias field_name = name) then Ret (Some selection_set)
                else find_field fuel document visible (rest :: iter_stack) name
            | CInlineFragment _ _ _ selection_set =>
                find_field fuel document visible (selection_set :: rest :: iter_stack) name
            | CFragmentSpread _ fragment_name _ =>
                match fragment_named document fragment_name ≫= λ f, cdoc_fragments document !! f with
                | Some fragment => find_field fuel document visible (cf_selection_set fragment :: rest :: iter_stack) name
                | None => find_field fuel document visible (rest :: iter_stack) name
                end
            end
          else find_field fuel document visible (rest :: iter_stack) name
      end
  end.
(** [ValueSerializer] and [ObjectSerializer]: the fields of the response that
    are in the subset. *)
Fixpoint serialize_value (fuel : nat) (document : CDocument) (visible : list SelectionId) (r : QueryResponse)
    (selection_set : list CSelection) (node : QueryResponseNode) : res Json :=
  match fuel with
  | O => Panic "out of fuel"
  | S fuel =>
      match node with
      | Container children =>
          entries ← mapM_res (λ e,
            field ← find_field (S fuel) document visible [selection_set] e.1;
            match field, get_node r e.2 with
            | Some selection_set, Some node =>
                value ← serialize_value fuel document visible r selection_set node; Ret [(e.1, value)]
            | _, _ => Ret []
            end) children;
          Ret (JObject (concat entries))
      | ListNode items =>
          values ← mapM_res (serialize_value fuel document visible r selection_set) (filter_map (get_node r) items);
          Ret (JArray values)
      | Primitive value => Ret (json_of_compact value)
      end
  end.
Definition serialize_update (fuel : nat) (document : CDocument) (u : CacheUpdate) : res (string + Json) :=
  match root (update_response u) with
  | None => Ret (inl "internal error: no root to serialize")
  | Some root_id =>
      match get_container_node (update_response u) root_id with
      | None => Ret (inl "internal error: root is not a container")
      | Some container =>
          operation ← expect "index out of bounds" (cdoc_operations document !! qs_operation (update_subset u));
          json ← serialize_value fuel document (p_selections (qs_partition (update_subset u))) (update_response u)
            (co_selection_set operation) (Container container);
          Ret (inr json)
      end
  end.

(** ** Merging trees *)

(** What merging means: the fields of both, an error's [null] as it is, lists
    item by item; [None] where the code has [todo!]. *)
Definition merge_tree_fields (merge : Json → RTree → option RTree) :
    list (string * Json) → list (string * RTree) → option (list (string * RTree)) :=
  fix go cache_fields fields :=
    match cache_fields with
    | [] => Some fields
    | e :: cache_fields =>
        match list_find (λ f, f.1 = e.1) fields with
        | Some (i, f) => t' ← merge e.2 f.2; go cache_fields (<[i := (f.1, t')]> fields)
        | None => go cache_fields (fields ++ [(e.1, tree_of_json e.2)])
        end
    end.
Definition merge_tree_items (merge : Json → RTree → option RTree) : list Json → list RTree → option (list RTree) :=
  fix go cache_list items :=
    match cache_list, items with
    | json :: cache_list, t :: items => t' ← merge json t; items' ← go cache_list items; Some (t' :: items')
    | _, items => Some items
    end.
Fixpoint merge_tree (json : Json) (t : RTree) {struct json} : option RTree :=
  match t, json with
  | TContainer fields, JObject cache_fields => TContainer <$> merge_tree_fields merge_tree cache_fields fields
  | TList items, JArray cache_list => TList <$> merge_tree_items merge_tree cache_list items
  | TPrimitive VNull, _ => Some t
  | _, _ => None
  end.

(** ** Trees under updates *)
Lemma trees_at_focus m ids ts fp i id t :
  trees_at m ids ts fp → ids !! i = Some id → ts !! i = Some t →
  ∃ fp1 fp2, tree_at m id t fp1 ∧ fp = fp1 ∪ fp2 ∧ fp1 ## fp2 ∧
  ∀ m' t' fp1', tree_at m' id t' fp1' → fp1' ## fp2 → (∀ j, j ∈ fp2 → m' !! j = m !! j) →
    trees_at m' ids (<[i := t']> ts) (fp1' ∪ fp2).
Proof.
  intros Hts. revert i. induction Hts as [|id0 ids t0 ts fp fps Ht Hts IH Hd]; intros [|i] Hi Ht'; try done.
  - injection Hi as ->. injection Ht' as ->. exists fp, fps. split_and!; [done|done|done|].
    intros m' t' fp1' Ht1 Hd1 Hm. simpl. constructor; [done|by eapply trees_at_frame|done].
  - destruct (IH i Hi Ht') as (fp1 & fp2 & H1 & -> & H3 & H4). exists fp1, (fp ∪ fp2).
    split_and!; [done|set_solver|set_solver|]. intros m' t' fp1' Ht1 Hd1 Hm. simpl.
    replace (fp1' ∪ (fp ∪ fp2)) with (fp ∪ (fp1' ∪ fp2)) by set_solver.
    constructor; [|apply H4; [done|set_solver|set_solver]|set_solver].
    eapply tree_at_frame; [done|]. set_solver.
Qed.
Lemma trees_at_snoc m ids ts fp id t fp1 :
  trees_at m ids ts fp → tree_at m id t fp1 → fp ## fp1 → trees_at m (ids ++ [id]) (ts ++ [t]) (fp ∪ fp1).
Proof.
  intros Hts Ht. induction Hts as [|id0 ids t0 ts fp fps Ht0 Hts IH Hd]; intros Hf; simpl.
  - replace (∅ ∪ fp1) with (fp1 ∪ ∅) by set_solver. constructor; [done|constructor|set_solver].
  - rewrite <-(assoc_L (∪)). constructor; [done|apply IH; set_solver|set_solver].
Qed.

(** [r'] is [r] after a change of the tree that occupies the ids [fp]: it is
    well formed, at most [n] ids were handed out, the root and the cache tags
    are those of [r], as are the nodes outside [fp], and the tree occupies
    [fp'], ids of [fp] and new ones. *)
Record changed (n : Z) (r r' : QueryResponse) (fp fp' : gset Z) : Prop := {
  ch_wf : response_wf r';
  ch_next : next_id r ≤ next_id r' ≤ next_id r + n;
  ch_root : root r' = root r;
  ch_frame i : i ∉ fp → i < next_id r → data r' !! i = data r !! i;
  ch_new i : i ∈ fp' → i ∈ fp ∨ next_id r ≤ i;
  ch_tags : cache_tags r' = cache_tags r;
}.
Lemma changed_refl n r fp : 0 ≤ n → response_wf r → changed n r r fp fp.
Proof. intros. split; [done|lia|done|done|auto|done]. Qed.
(** Parts of a tree that are apart change one after the other. *)
Lemma changed_trans n1 n2 r1 r2 r3 fp1 fp1' fp2 fp2' fp :
  changed n1 r1 r2 fp1 fp1' → changed n2 r2 r3 fp2 fp2' →
  fp1 ⊆ fp → (∀ i, i ∈ fp2 → i ∈ fp ∨ next_id r1 ≤ i) → ∀ fp', (∀ i, i ∈ fp' → i ∈ fp2' ∨ i ∈ fp ∨ i ∈ fp1') →
  changed (n1 + n2) r1 r3 fp fp'.
Proof.
  intros [A1 A2 A3 A4 A5 A6] [B1 B2 B3 B4 B5 B6] H1 H2 fp' H3. split; [done|lia|congruence| | |congruence].
  - intros i Hi Hn. rewrite B4, A4; [done|set_solver|done| |lia]. intros Hi2. destruct (H2 i Hi2); [done|lia].
  - intros i [Hi|[Hi|Hi]]%H3; [|by left|].
    + destruct (B5 i Hi) as [Hi2|?]; [by apply H2|right; lia].
    + destruct (A5 i Hi); [left; set_solver|by right].
Qed.

Lemma list_find_zip {B} name (l : list (string * Z)) (ts : list B) :
  length l = length ts →
  list_find (λ e, e.1 = name) (zip l.*1 ts) =
  match list_find (λ e, e.1 = name) l with
  | Some (i, e) => (λ t, (i, (e.1, t))) <$> ts !! i
  | None => None
  end.
Proof.
  revert ts. induction l as [|[k z] l IH]; intros [|t ts] Hl; try done. rewrite fmap_cons. simpl.
  destruct (decide (k = name)); [done|]. simpl in Hl. rewrite IH by lia.
  by destruct (list_find _ l) as [[i e]|]; simpl; [destruct (ts !! i)|].
Qed.
Lemma zip_insert_r {A B} (k : list A) (ts : list B) i x t :
  k !! i = Some x → zip k (<[i := t]> ts) = <[i := (x, t)]> (zip k ts).
Proof. revert i ts. induction k as [|y k IH]; intros [|i] [|t0 ts] Hi; try done; simpl in *; [by injection Hi as ->|]. f_equal. by apply IH. Qed.
Lemma zip_snoc {A B} (k : list A) (ts : list B) x t : length k = length ts → zip (k ++ [x]) (ts ++ [t]) = zip k ts ++ [(x, t)].
Proof. revert ts. induction k as [|y k IH]; intros [|t0 ts] Hl; try done. simpl in *. f_equal. apply IH. lia. Qed.

(** The panics of the two [todo!]s of [merge_inner]. *)
Definition is_todo {A} (r : res A) : bool :=
  match r with
  | Panic msg => String.eqb msg "not yet implemented: probably need to invalidate cache if this happens" ||
                 String.eqb msg "not yet implemented: this is a problem"
  | Ret _ => false
  end.
(** [merge_inner] refines [merge_tree], for the value [j]. *)
Definition merge_refines (j : Json) : Prop :=
  ∀ r id t fp, response_wf r → room r (json_size j) → tree_at (data r) id t fp →
  match merge_tree j t with
  | Some t' => ∃ r' fp', merge_inner j id r = Ret r' ∧ tree_at (data r') id t' fp' ∧ changed (json_size j) r r' fp fp'
  | None => is_todo (merge_inner j id r) = true
  end.

Lemma is_todo_bind {A B} (m : res A) (f : A → res B) : is_todo m = true → is_todo (m ≫= f) = true.
Proof. by destruct m. Qed.
Lemma changed_apart n r r' fp1 fp1' (fp2 : gset Z) :
  changed n r r' fp1 fp1' → fp1 ## fp2 → (∀ i, i ∈ fp2 → i < next_id r) →
  fp1' ## fp2 ∧ ∀ j, j ∈ fp2 → data r' !! j = data r !! j.
Proof.
  intros [H1 H2 H3 H4 H5 _] Hd Hb. split.
  - intros i Hi Hi2. destruct (H5 i Hi); [set_solver|]. apply Hb in Hi2. lia.
  - intros j Hj. apply H4; [set_solver|by apply Hb].
Qed.

(** The object at [id]: its children, their trees, and the ids these occupy. *)
Record object_at (r : QueryResponse) (id : Z) (children : list (string * Z)) (ts : list RTree) (fp : gset Z) : Prop := {
  oa_node : data r !! id = Some (Container children);
  oa_trees : trees_at (data r) children.*2 ts fp;
  oa_apart : id ∉ fp;
}.
Lemma object_at_container r id children ts fp : object_at r id children ts fp → get_container_node r id = Some children.
Proof. intros [H _ _]. unfold get_container_node. by rewrite H. Qed.
Lemma object_at_length r id children ts fp : object_at r id children ts fp → length children = length ts.
Proof. intros [_ H _]. apply trees_at_length in H. by rewrite length_fmap in H. Qed.

(** A field that is there already. *)
Lemma merge_field_found j r id children ts fp i name cid t :
  merge_refines j → response_wf r → room r (json_size j) → object_at r id children ts fp →
  children !! i = Some (name, cid) → ts !! i = Some t →
  match merge_tree j t with
  | Some t' => ∃ r' fp', merge_inner j cid r = Ret r' ∧ object_at r' id children (<[i := t']> ts) fp' ∧
      changed (json_size j) r r' ({[ id ]} ∪ fp) ({[ id ]} ∪ fp')
  | None => is_todo (merge_inner j cid r) = true
  end.
Proof.
  intros Hj Hwf Hr [Hn Hts Ha] Hi Ht.
  destruct (trees_at_focus _ _ _ _ i cid t Hts) as (fp1 & fp2 & T1 & -> & Hd & Hfocus); [by rewrite list_lookup_fmap, Hi|done|].
  specialize (Hj r cid t fp1 Hwf Hr T1). destruct (merge_tree j t) as [t'|]; [|done].
  destruct Hj as (r' & fp1' & E & T' & C). exists r', (fp1' ∪ fp2). split; [done|].
  assert (∀ i, i ∈ fp2 → i < next_id r) as Hb.
  { intros k Hk. destruct (trees_at_wf _ _ _ _ Hwf Hts k); [set_solver|done]. }
  assert (id < next_id r) as Hid by (apply (proj2 Hwf); eauto).
  destruct (changed_apart _ _ _ _ _ fp2 C Hd Hb) as [Hd' Hf]. split.
  - split; [|by apply Hfocus|].
    + rewrite (ch_frame _ _ _ _ _ C); [done|set_solver|done].
    + intros [Hin|?]%elem_of_union; [|set_solver]. destruct (ch_new _ _ _ _ _ C id Hin); [set_solver|lia].
  - destruct C as [C1 C2 C3 C4 C5 C6]. split; [done|done|done| | |done].
    + intros k Hk Hkn. apply C4; [set_solver|done].
    + intros k [?|[Hk|?]%elem_of_union]%elem_of_union; [set_solver| |set_solver]. destruct (C5 k Hk); [set_solver|by right].
Qed.
(** A field that is not there yet. *)
Lemma merge_field_new j r id children ts fp name :
  response_wf r → room r (json_size j) → object_at r id children ts fp → list_find (λ e, e.1 = name) children = None →
  ∃ r' fp' nid, merge_field merge_inner id r (name, j) = Ret r' ∧
    object_at r' id (children ++ [(name, nid)]) (ts ++ [tree_of_json j]) fp' ∧
    changed (json_size j) r r' ({[ id ]} ∪ fp) ({[ id ]} ∪ fp').
Proof.
  intros Hwf Hr Ho Hnone. unfold merge_field. cbn [fst snd]. rewrite (object_at_container _ _ _ _ _ Ho).
  destruct Ho as [Hn Hts Ha]. cbn [expect mbind res_bind]. unfold child. rewrite Hnone. cbn [fmap option_fmap option_map].
  destruct (from_serde_value_spec j r Hwf Hr) as (nid & r1 & fpn & -> & G & T & F). cbn [mbind res_bind].
  assert (id < next_id r) as Hid by (apply (proj2 Hwf); eauto).
  assert (get_container_node r1 id = Some children) as -> by (unfold get_container_node; by rewrite (gr_frame _ _ _ G), Hn by done).
  cbn [expect mbind res_bind]. unfold container_insert. rewrite Hnone.
  pose proof (trees_at_wf _ _ _ _ Hwf Hts) as Hb. pose proof (json_size_pos j).
  assert (fp ## fpn) as Hd by (intros i H1 H2; apply Hb in H1; apply F in H2; lia).
  assert (id ∉ fp ∪ fpn) as Ha' by (intros [?|H2]%elem_of_union; [done|apply F in H2; lia]).
  eexists _, (fp ∪ fpn), nid. split; [done|]. split.
  - split; [cbn [data with_data]; by rewrite lookup_insert_eq| |done].
    cbn [data with_data]. rewrite fmap_app. cbn [fmap list_fmap snd].
    eapply trees_at_frame; [|intros i Hi; by rewrite lookup_insert_ne by (intros ->; done)].
    apply trees_at_snoc; [|done|done]. eapply trees_at_frame; [done|]. intros i Hi. apply (gr_frame _ _ _ G). by apply Hb.
  - destruct G as [G1 G2 G3 G4 G5']. split; cbn [data with_data next_id root cache_tags]; [|lia|done| | |done].
    + destruct G3 as [G5 G6]. split; [done|]. cbn [data with_data next_id]. intros i.
      destruct (decide (i = id)) as [->|Hne]; [intros _; apply G6; rewrite G4, Hn by done; eauto|]. rewrite lookup_insert_ne by done. apply G6.
    + intros i Hi Hin. rewrite lookup_insert_ne by set_solver. by apply G4.
    + intros i [?|[?|Hi]%elem_of_union]%elem_of_union; [set_solver|set_solver|]. right. by apply F.
Qed.
Lemma merge_fields_spec fields r id children ts fp :
  Forall (λ e, merge_refines e.2) fields →
  response_wf r → room r (foldr Z.add 0 ((λ e, json_size e.2) <$> fields)) → object_at r id children ts fp →
  match merge_tree_fields merge_tree fields (zip children.*1 ts) with
  | Some fields' => ∃ r' children' ts' fp', merge_fields merge_inner id fields r = Ret r' ∧
      object_at r' id children' ts' fp' ∧ fields' = zip children'.*1 ts' ∧
      changed (foldr Z.add 0 ((λ e, json_size e.2) <$> fields)) r r' ({[ id ]} ∪ fp) ({[ id ]} ∪ fp')
  | None => is_todo (merge_fields merge_inner id fields r) = true
  end.
Proof.
  intros Hf. revert r children ts fp. induction Hf as [|[name j] fields Hj Hf IH]; intros r children ts fp Hwf Hr Ho.
  { cbn [merge_tree_fields]. exists r, children, ts, fp. split_and!; [done|done|done|]. by apply changed_refl. }
  rewrite fmap_cons in Hr |- *. cbn [foldr snd] in Hr, Hj |- *. unfold room in Hr.
  pose proof (json_size_pos j) as Hp. pose proof (sizes_nonneg snd fields) as Hsz.
  assert (room r (json_size j)) as Hrj by (unfold room; lia).
  assert (∀ r1 children1 ts1 fp1, changed (json_size j) r r1 ({[ id ]} ∪ fp) ({[ id ]} ∪ fp1) → object_at r1 id children1 ts1 fp1 →
    match merge_tree_fields merge_tree fields (zip children1.*1 ts1) with
    | Some fields' => ∃ r' children' ts' fp', merge_fields merge_inner id fields r1 = Ret r' ∧
        object_at r' id children' ts' fp' ∧ fields' = zip children'.*1 ts' ∧
        changed (json_size j + foldr Z.add 0 ((λ e, json_size e.2) <$> fields)) r r' ({[ id ]} ∪ fp) ({[ id ]} ∪ fp')
    | None => is_todo (merge_fields merge_inner id fields r1) = true
    end) as Hrest.
  { intros r1 children1 ts1 fp1 C Ho1. specialize (IH r1 children1 ts1 fp1 (ch_wf _ _ _ _ _ C)).
    assert (room r1 (foldr Z.add 0 ((λ e : string * Json, json_size e.2) <$> fields))) as Hr1.
    { unfold room. pose proof (ch_next _ _ _ _ _ C). lia. }
    specialize (IH Hr1 Ho1).
    destruct (merge_tree_fields merge_tree fields (zip children1.*1 ts1)) as [fields'|]; [|done].
    destruct IH as (r' & children' & ts' & fp' & E & Ho' & -> & C'). exists r', children', ts', fp'. split_and!; [done|done|done|].
    eapply changed_trans; [exact C|exact C'|done| |auto]. intros i Hi. by apply (ch_new _ _ _ _ _ C). }
  change (merge_fields merge_inner id ((name, j) :: fields) r)
    with (r ← merge_field merge_inner id r (name, j); merge_fields merge_inner id fields r).
  change (merge_tree_fields merge_tree ((name, j) :: fields) (zip children.*1 ts))
    with (match list_find (λ f : string * RTree, f.1 = name) (zip children.*1 ts) with
          | Some (i, f) => t' ← merge_tree j f.2; merge_tree_fields merge_tree fields (<[i := (f.1, t')]> (zip children.*1 ts))
          | None => merge_tree_fields merge_tree fields (zip children.*1 ts ++ [(name, tree_of_json j)])
          end).
  rewrite list_find_zip by (by eapply object_at_length).
  destruct (list_find (λ e : string * Z, e.1 = name) children) as [[i [name' cid]]|] eqn:Ef.
  - apply list_find_Some in Ef as Ef'. destruct Ef' as (Hi & Hname & _).
    destruct (lookup_lt_is_Some_2 ts i) as [t Ht].
    { rewrite <-(object_at_length _ _ _ _ _ Ho). by eapply lookup_lt_Some. }
    rewrite Ht. cbn [fmap option_fmap option_map fst snd].
    assert (merge_field merge_inner id r (name, j) = merge_inner j cid r) as ->.
    { unfold merge_field, child. rewrite (object_at_container _ _ _ _ _ Ho). cbn [expect mbind res_bind fst snd]. by rewrite Ef. }
    pose proof (merge_field_found j r id children ts fp i name' cid t Hj Hwf Hrj Ho Hi Ht) as Hm.
    destruct (merge_tree j t) as [t'|]; cbn [mbind option_bind]; [|by apply is_todo_bind].
    destruct Hm as (r1 & fp1 & -> & Ho1 & C1). cbn [mbind res_bind].
    rewrite <-(zip_insert_r _ _ _ name') by (by rewrite list_lookup_fmap, Hi). by apply Hrest with fp1.
  - pose proof (merge_field_new j r id children ts fp name Hwf Hrj Ho Ef) as Hm. destruct Hm as (r1 & fp1 & nid & -> & Ho1 & C1). cbn [mbind res_bind].
    specialize (Hrest r1 (children ++ [(name, nid)]) (ts ++ [tree_of_json j]) fp1 C1 Ho1).
    rewrite fmap_app in Hrest. cbn [fmap list_fmap fst] in Hrest. rewrite zip_snoc in Hrest; [done|].
    rewrite length_fmap. by eapply object_at_length.
Qed.
Lemma merge_items_spec js r ids ts fp :
  Forall merge_refines js →
  response_wf r → room r (foldr Z.add 0 (json_size <$> js)) → trees_at (data r) ids ts fp →
  match merge_tree_items merge_tree js ts with
  | Some ts' => ∃ r' fp', merge_items merge_inner js ids r = Ret r' ∧ trees_at (data r') ids ts' fp' ∧
      changed (foldr Z.add 0 (json_size <$> js)) r r' fp fp'
  | None => is_todo (merge_items merge_inner js ids r) = true
  end.
Proof.
  intros Hjs. revert r ids ts fp. induction Hjs as [|j js Hj Hjs IH]; intros r ids ts fp Hwf Hr Hts.
  { cbn [merge_tree_items]. exists r, fp. split_and!; [by destruct ids|done|]. by apply changed_refl. }
  rewrite fmap_cons in Hr |- *. cbn [foldr] in Hr |- *. unfold room in Hr.
  pose proof (json_size_pos j) as Hp. pose proof (sizes_nonneg id js) as Hsz.
  change ((λ x, json_size (id x)) <$> js) with (json_size <$> js) in Hsz.
  destruct Hts as [|cid ids t ts fp fps Ht Hts Hd].
  { exists r, ∅. split_and!; [done|constructor|]. apply changed_refl; [lia|done]. }
  change (merge_items merge_inner (j :: js) (cid :: ids) r) with (r ← merge_inner j cid r; merge_items merge_inner js ids r).
  change (merge_tree_items merge_tree (j :: js) (t :: ts))
    with (t' ← merge_tree j t; ts' ← merge_tree_items merge_tree js ts; Some (t' :: ts')).
  assert (room r (json_size j)) as Hrj by (unfold room; lia).
  specialize (Hj r cid t fp Hwf Hrj Ht). destruct (merge_tree j t) as [t'|]; cbn [mbind option_bind]; [|by apply is_todo_bind].
  destruct Hj as (r1 & fp1 & -> & T1 & C1). cbn [mbind res_bind].
  pose proof (trees_at_wf _ _ _ _ Hwf Hts) as Hb.
  destruct (changed_apart _ _ _ _ _ fps C1 Hd) as [Hd1 Hf1]; [intros i Hi; by apply Hb|].
  assert (room r1 (foldr Z.add 0 (json_size <$> js))) as Hr1 by (unfold room; pose proof (ch_next _ _ _ _ _ C1); lia).
  specialize (IH r1 ids ts fps (ch_wf _ _ _ _ _ C1) Hr1 (trees_at_frame _ _ _ _ _ Hts Hf1)).
  destruct (merge_tree_items merge_tree js ts) as [ts'|]; cbn [mbind option_bind]; [|done].
  destruct IH as (r2 & fps2 & -> & T2 & C2). exists r2, (fp1 ∪ fps2).
  pose proof (tree_at_wf _ _ _ _ (ch_wf _ _ _ _ _ C1) T1) as Hb1.
  destruct (changed_apart _ _ _ _ _ fp1 C2) as [Hd2 Hf2]; [done|intros i Hi; by apply Hb1|].
  split_and!; [done|constructor; [by eapply tree_at_frame|done|done]|].
  eapply changed_trans; [exact C1|exact C2|set_solver|set_solver|set_solver].
Qed.

(** [merge_inner] on every node that is the root of a tree. *)
Lemma merge_inner_refines j : merge_refines j.
Proof.
  induction j as [|b|n|s|items IH|entries IH] using Json_ind'; intros r id t fp Hwf Hr Ht; destruct Ht as
    [id value Hid|id ids ts fp Hid Hts Hn|id children ts fp Hid Hts Hn]; cbn [merge_tree merge_inner]; unfold get_node;
    rewrite Hid; cbn [expect mbind res_bind]; try reflexivity; cbn [json_size] in *;
    try (destruct value; cbn [primitive_is_null]; try reflexivity; exists r, {[ id ]};
         (split_and!; [done|by constructor|apply changed_refl; [|done]])).
  1-4: lia.
  - pose proof (json_size_pos (JArray items)) as Hp. cbn [json_size] in Hp. lia.
  - assert (room r (foldr Z.add 0 (json_size <$> items))) as Hr1 by (unfold room in *; lia).
    pose proof (merge_items_spec items r ids ts fp IH Hwf Hr1 Hts) as Hm.
    destruct (merge_tree_items merge_tree items ts) as [ts'|]; cbn [fmap option_fmap option_map]; [|done].
    destruct Hm as (r' & fp' & -> & T' & C'). exists r', ({[ id ]} ∪ fp').
    assert (id < next_id r) as Hidn by (apply (proj2 Hwf); eauto). split_and!; [done| |].
    + apply (ta_list _ _ ids); [by rewrite (ch_frame _ _ _ _ _ C')|done|].
      intros Hi. destruct (ch_new _ _ _ _ _ C' id Hi); [done|lia].
    + destruct C' as [C1 C2 C3 C4 C5 C6]. split; [done|lia|done| | |done].
      * intros i Hi Hin. apply C4; [set_solver|done].
      * intros i [?|Hi]%elem_of_union; [set_solver|]. destruct (C5 i Hi); [set_solver|by right].
  - pose proof (json_size_pos (JObject entries)) as Hp. cbn [json_size] in Hp. lia.
  - assert (room r (foldr Z.add 0 ((λ e, json_size e.2) <$> entries))) as Hr1 by (unfold room in *; lia).
    pose proof (merge_fields_spec entries r id children ts fp IH Hwf Hr1) as Hm. specialize (Hm ltac:(by split)).
    destruct (merge_tree_fields merge_tree entries (zip children.*1 ts)) as [fields'|]; cbn [fmap option_fmap option_map]; [|done].
    destruct Hm as (r' & children' & ts' & fp' & -> & [O1 O2 O3] & -> & C'). exists r', ({[ id ]} ∪ fp').
    split_and!; [done|by apply ta_container|]. destruct C' as [C1 C2 C3 C4 C5 C6]. split; [done|lia|done|done|done|done].
Qed.

(** ** The executor's part of the query *)
Lemma subset_extend_spec other s x y :
  (x ∈ p_selections (qs_partition (subset_extend other s)) ↔
    x ∈ p_selections (qs_partition s) ∨ x ∈ p_selections (qs_partition other)) ∧
  (y ∈ p_fragments (qs_partition (subset_extend other s)) ↔
    y ∈ p_fragments (qs_partition s) ∨ y ∈ p_fragments (qs_partition other)).
Proof. unfold subset_extend. cbn [qs_partition p_selections p_fragments]. by rewrite !elem_of_set_extend. Qed.
(** The subset, the count and the flag that the loop of [ExecutionPhase::new] computes. *)
Lemma add_entries_spec es subset n partial x y :
  let r := foldl add_entry (subset, n, partial) es in
  (x ∈ p_selections (qs_partition r.1.1) ↔ x ∈ p_selections (qs_partition subset) ∨
    ∃ e, e ∈ es ∧ is_miss e.1 = true ∧ x ∈ p_selections (qs_partition e.2.2)) ∧
  (y ∈ p_fragments (qs_partition r.1.1) ↔ y ∈ p_fragments (qs_partition subset) ∨
    ∃ e, e ∈ es ∧ is_miss e.1 = true ∧ y ∈ p_fragments (qs_partition e.2.2)) ∧
  r.1.2 = (n + length (filter (λ e, is_miss e.1 = true) es))%nat ∧
  r.2 = partial || existsb (λ e, negb (is_miss e.1)) es.
Proof.
  cbn zeta. revert subset n partial. induction es as [|e es IH]; intros subset n partial; cbn [foldl].
  { cbn [existsb fst snd]. rewrite filter_nil, Nat.add_0_r, orb_false_r. split_and!; [set_solver|set_solver|done|done]. }
  rewrite filter_cons. cbn [existsb]. unfold add_entry at 2 4 6 8. destruct (is_miss e.1) eqn:Em.
  - destruct (IH (subset_extend e.2.2 subset) (S n) partial) as (-> & -> & -> & ->).
    destruct (subset_extend_spec e.2.2 subset x y) as [-> ->]. rewrite decide_True by done. cbn [length negb orb].
    split_and!; [| |lia|done].
    + setoid_rewrite elem_of_cons. naive_solver.
    + setoid_rewrite elem_of_cons. naive_solver.
  - destruct (IH subset n true) as (-> & -> & -> & ->). rewrite decide_False by congruence. cbn [negb orb].
    split_and!; [| |done|by rewrite orb_true_r].
    + setoid_rewrite elem_of_cons. split; [naive_solver|]. intros [?|(e' & [->|?] & ? & ?)]; [by left|congruence|naive_solver].
    + setoid_rewrite elem_of_cons. split; [naive_solver|]. intros [?|(e' & [->|?] & ? & ?)]; [by left|congruence|naive_solver].
Qed.

(** A leaf's partition was not in the cache. *)
Definition not_cached (fetch : CacheFetchPhase) (c : option CacheControl) : Prop :=
  match c with
  | None => True
  | Some c => ∃ i subset, cache_partitions (fetch_plan fetch) !! i = Some (c, subset) ∧ fetch_entries fetch !! i = Some Miss
  end.

Section executor.
Context `{CacheTypes} (document : CDocument) (operation : COperation) (fetch : CacheFetchPhase).
Context (Hplan : plan_spec document operation (fetch_plan fetch)).
Context (Hlen : length (fetch_entries fetch) = length (cache_partitions (fetch_plan fetch))).

(** The partitions that were missed. *)
Lemma missed_partitions (P : QuerySubset → Prop) :
  (∃ e, e ∈ zip (fetch_entries fetch) (cache_partitions (fetch_plan fetch)) ∧ is_miss e.1 = true ∧ P e.2.2) ↔
  ∃ c subset, plan_subset (fetch_plan fetch) (Some c) = Some subset ∧ not_cached fetch (Some c) ∧ P subset.
Proof.
  destruct Hplan as (HN & _ & _). split.
  - intros ([e [c subset]] & Hin & Hm & HP). apply list_elem_of_lookup in Hin as [i Hi].
    apply lookup_zip_with_Some in Hi as (e' & p & [= <- <-] & He & Hp). destruct e; try done. exists c, subset.
    split_and!; [by apply elem_of_map_get; [|eapply list_elem_of_lookup_2]|by exists i, subset|done].
  - intros (c & subset & Hs & (i & subset' & Hi & He) & HP). simpl in Hs.
    assert (subset' = subset) as ->.
    { apply list_elem_of_lookup_2 in Hi. apply (elem_of_map_get _ _ _ HN) in Hi. congruence. }
    exists (Miss, (c, subset)). split_and!; [|done|done]. apply list_elem_of_lookup. exists i.
    apply lookup_zip_with_Some. by exists Miss, (c, subset).
Qed.
Lemma execution_subset :
  executor_subset (execution_new fetch) =
  (foldl add_entry (nocache_partition (fetch_plan fetch), 0%nat, false)
    (zip (fetch_entries fetch) (cache_partitions (fetch_plan fetch)))).1.1.
Proof. unfold execution_new. by destruct (foldl _ _ _) as [[??]?]. Qed.
(** The executor's subset holds the paths to the leaves that were not in the cache. *)
Lemma executor_subset_spec :
  (∀ s, s ∈ p_selections (qs_partition (executor_subset (execution_new fetch))) ↔
    ∃ path fs c, query_leaf document operation path fs c ∧ s ∈ path ∧ not_cached fetch c) ∧
  (∀ f, f ∈ p_fragments (qs_partition (executor_subset (execution_new fetch))) ↔
    ∃ path fs c, query_leaf document operation path fs c ∧ f ∈ fs ∧ not_cached fetch c).
Proof.
  pose proof Hplan as (HN & Hk & Hs).
  assert (∀ c, not_cached fetch c → ∃ subset, plan_subset (fetch_plan fetch) c = Some subset) as Hsome.
  { intros [c|] Hc; [|simpl; eauto]. destruct Hc as (i & subset & Hi & _). exists subset.
    by apply elem_of_map_get; [|eapply list_elem_of_lookup_2]. }
  rewrite execution_subset. split; [intros s|intros f].
  - destruct (add_entries_spec (zip (fetch_entries fetch) (cache_partitions (fetch_plan fetch)))
      (nocache_partition (fetch_plan fetch)) 0 false s 0%nat) as (-> & _).
    rewrite (missed_partitions (λ subset, s ∈ p_selections (qs_partition subset))). split.
    + intros [Hin|(c & subset & Hc & Hm & Hin)].
      * apply (Hs None _ eq_refl) in Hin as (path & fs & ? & ?). by exists path, fs, None.
      * apply (Hs (Some c) _ Hc) in Hin as (path & fs & ? & ?). by exists path, fs, (Some c).
    + intros (path & fs & c & Hp & Hin & Hc). destruct (Hsome c Hc) as [subset Hsub].
      assert (s ∈ p_selections (qs_partition subset)) by (apply (Hs c _ Hsub); eauto).
      destruct c as [c|]; [right; eauto|left]. by injection Hsub as ->.
  - destruct (add_entries_spec (zip (fetch_entries fetch) (cache_partitions (fetch_plan fetch)))
      (nocache_partition (fetch_plan fetch)) 0 false 0%nat f) as (_ & -> & _).
    rewrite (missed_partitions (λ subset, f ∈ p_fragments (qs_partition subset))). split.
    + intros [Hin|(c & subset & Hc & Hm & Hin)].
      * apply (Hs None _ eq_refl) in Hin as (path & fs & ? & ?). by exists path, fs, None.
      * apply (Hs (Some c) _ Hc) in Hin as (path & fs & ? & ?). by exists path, fs, (Some c).
    + intros (path & fs & c & Hp & Hin & Hc). destruct (Hsome c Hc) as [subset Hsub].
      assert (f ∈ p_fragments (qs_partition subset)) by (apply (Hs c _ Hsub); eauto).
      destruct c as [c|]; [right; eauto|left]. by injection Hsub as ->.
Qed.
(** A complete hit is when no leaf is left. *)
Lemma finish_spec :
  finish fetch = CompleteHit (fetch_entries fetch) ↔ ∀ path fs c, query_leaf document operation path fs c → ¬ not_cached fetch c.
Proof.
  pose proof Hplan as (HN & Hk & Hs). unfold finish.
  assert (subset_is_empty (nocache_partition (fetch_plan fetch)) = true ↔ ∀ path fs, ¬ query_leaf document operation path fs None) as Hnone.
  { unfold subset_is_empty. rewrite bool_decide_eq_true. destruct (Hs None _ eq_refl) as (Hsel & _). split.
    - intros E path fs Hp. destruct path as [|s path]; [by apply query_leaf_nonempty in Hp|].
      apply (not_elem_of_nil s). rewrite <-E. apply Hsel. eexists _, _. split; [done|left].
    - intros Hn. destruct (p_selections _) as [|s l]; [done|]. destruct (proj1 (Hsel s)) as (path & fs & Hp & _); [left|].
      by apply Hn in Hp. }
  assert (existsb is_miss (fetch_entries fetch) = true ↔ ∃ path fs c, query_leaf document operation path fs (Some c) ∧ not_cached fetch (Some c)) as Hmiss.
  { rewrite existsb_exists. split.
    - intros (e & Hin & He). destruct e; try done. apply list_elem_of_In, list_elem_of_lookup in Hin as [i Hi].
      destruct (lookup_lt_is_Some_2 (cache_partitions (fetch_plan fetch)) i) as [[c subset] Hc].
      { rewrite <-Hlen. by eapply lookup_lt_Some. }
      destruct (proj1 (Hk c)) as (path & fs & Hp).
      { apply list_elem_of_fmap. exists (c, subset). split; [done|]. by eapply list_elem_of_lookup_2. }
      exists path, fs, c. split; [done|]. by exists i, subset.
    - intros (path & fs & c & _ & i & subset & _ & Hi). exists Miss. split; [|done].
      apply list_elem_of_In. by eapply list_elem_of_lookup_2. }
  destruct (existsb is_miss (fetch_entries fetch)) eqn:Em; cbn [orb].
  - split; [done|]. intros Hall. destruct (proj1 Hmiss eq_refl) as (path & fs & c & Hp & Hc). by destruct (Hall _ _ _ Hp).
  - destruct (subset_is_empty (nocache_partition (fetch_plan fetch))) eqn:Es; cbn [negb].
    + split; [|done]. intros _ path fs c Hp Hc. destruct c as [c|]; [|by apply (proj1 Hnone eq_refl path fs)].
      assert (false = true) as [=]. apply Hmiss. eauto.
    + split; [done|]. intros Hall. assert (false = true) as [=]. apply Hnone. intros path fs Hp. by apply (Hall _ _ _ Hp).
Qed.
End executor.

(** ** Responses *)

(** The value of an entry, and merging several. *)
Definition entry_value (e : Entry) : option Json := match e with Hit v _ | Stale v => Some v | Miss => None end.
Definition values (entries : list Entry) : list Json := filter_map entry_value entries.
Fixpoint merge_all (vs : list Json) (t : RTree) : option RTree :=
  match vs with [] => Some t | v :: vs => t ← merge_tree v t; merge_all vs t end.
Definition total_size (vs : list Json) : Z := foldr Z.add 0 (json_size <$> vs).
Lemma total_size_cons v vs : total_size (v :: vs) = json_size v + total_size vs.
Proof. reflexivity. Qed.
Lemma total_size_nonneg vs : 0 ≤ total_size vs.
Proof. apply (sizes_nonneg id vs). Qed.

(** A response with room for [n] nodes, whose body is the tree [t]. *)
Record response_at (n : Z) (r : QueryResponse) (t : RTree) : Prop := {
  ra_wf : response_wf r;
  ra_room : room r n;
  ra_tree : ∃ id fp, root r = Some id ∧ tree_at (data r) id t fp;
}.
Lemma merge_json_at j n r t :
  0 ≤ n → response_at (json_size j + n) r t →
  match merge_tree j t with
  | Some t' => ∃ r', merge_json r j = Ret r' ∧ response_at n r' t' ∧ cache_tags r' = cache_tags r
  | None => is_todo (merge_json r j) = true
  end.
Proof.
  intros Hn [Hwf Hr (id & fp & Hroot & Ht)]. unfold merge_json. rewrite Hroot. unfold room in Hr.
  assert (room r (json_size j)) as Hrj by (unfold room; lia).
  pose proof (merge_inner_refines j r id t fp Hwf Hrj Ht) as Hm. destruct (merge_tree j t) as [t'|]; [|done].
  destruct Hm as (r' & fp' & E & T & C). exists r'. split; [done|]. destruct C as [C1 C2 C3 _ _ C4].
  split; [|done]. split; [done|unfold room; lia|]. exists id, fp'. split; [congruence|done].
Qed.

(** ** The age of a response *)

(** What an entry says about the age: seconds, or nothing if it is stale. *)
Definition entry_age (partitions : list (CacheControl * QuerySubset)) (index : nat) (e : Entry) : option Z :=
  match e with
  | Hit _ time_till_miss => Some (as_secs time_till_miss)
  | Stale _ => None
  | Miss => max_age ∘ fst <$> partitions !! index
  end.
Fixpoint entry_ages (partitions : list (CacheControl * QuerySubset)) (index : nat) (entries : list Entry) : list (option Z) :=
  match entries with
  | [] => []
  | e :: entries => entry_age partitions index e :: entry_ages partitions (S index) entries
  end.
(** The smallest, unless there is one without or it is zero. *)
Definition expected_age (ages : list (option Z)) : option Z :=
  match mapM id ages with
  | Some (a :: l) => let m := foldr Z.min a l in if m =? 0 then None else Some m
  | _ => None
  end.
Definition age_step (m : MaxAge) (o : option Z) : MaxAge :=
  match o with Some secs => max_age_merge (from_secs secs) m | None => set_none m end.
Lemma as_from_secs s : as_secs (from_secs s) = s.
Proof. unfold as_secs, from_secs. by apply Z.div_mul. Qed.
Lemma max_age_merge_secs d m : max_age_merge (from_secs (as_secs d)) m = max_age_merge d m.
Proof. unfold max_age_merge. by rewrite as_from_secs. Qed.
Lemma age_steps_none ages : foldl age_step NoMaxAge ages = NoMaxAge.
Proof. induction ages as [|[s|] ages IH]; [done|done|done]. Qed.
Lemma age_steps_known ages s :
  foldl age_step (Known (from_secs s)) ages =
  match mapM id ages with Some l => Known (from_secs (foldr Z.min s l)) | None => NoMaxAge end.
Proof.
  revert s. induction ages as [|[a|] ages IH]; intros s; cbn [foldl]; [done| |by rewrite age_steps_none].
  cbn [age_step max_age_merge]. rewrite as_from_secs.
  replace (Z.min (from_secs s) (from_secs a)) with (from_secs (Z.min s a)) by (unfold from_secs, NANOS; lia).
  rewrite IH. simpl. destruct (mapM id ages) as [l|]; [|done]. simpl. f_equal. f_equal.
  clear. induction l as [|b l IH]; simpl; lia.
Qed.
Lemma age_of_entries ages : as_secs <$> into_duration (foldl age_step Unknown ages) = expected_age ages.
Proof.
  unfold expected_age. destruct ages as [|[a|] ages]; [done| |].
  - cbn [foldl age_step max_age_merge]. rewrite as_from_secs, age_steps_known.
    change (mapM id (Some a :: ages)) with (l ← mapM id ages; Some (a :: l)).
    destruct (mapM id ages) as [l|]; cbn [mbind option_bind]; [|done]. cbn [into_duration].
    assert ((from_secs (foldr Z.min a l) =? 0) = (foldr Z.min a l =? 0)) as ->.
    { unfold from_secs, NANOS. destruct (Z.eqb_spec (foldr Z.min a l) 0) as [->|Hne]; [done|]. apply Z.eqb_neq. lia. }
    destruct (foldr Z.min a l =? 0); [done|]. cbn [fmap option_fmap option_map]. by rewrite as_from_secs.
  - cbn [foldl age_step]. unfold set_none. by rewrite age_steps_none.
Qed.

(** The keys that are written: those of the entries that were missed. *)
Fixpoint written (index : nat) (entries : list (Entry * option string)) : list (string * nat) :=
  match entries with
  | [] => []
  | (Miss, Some key) :: entries => (key, index) :: written (S index) entries
  | _ :: entries => written (S index) entries
  end.

(** The loop over the entries: the merged body, the age, the keys. *)
Lemma handle_entries_spec plan entries index response age keys t n :
  0 ≤ n → response_at (total_size (values entries.*1) + n) response t →
  (index + length entries ≤ length (cache_partitions plan))%nat →
  match merge_all (values entries.*1) t with
  | Some t' => ∃ r', handle_entries plan index entries response age keys =
      Ret (r', foldl age_step age (entry_ages (cache_partitions plan) index entries.*1), keys ++ written index entries) ∧
      response_at n r' t' ∧ cache_tags r' = cache_tags response
  | None => is_todo (handle_entries plan index entries response age keys) = true
  end.
Proof.
  intros Hn. revert index response age keys t. induction entries as [|[e key] entries IH]; intros index response age keys t Hr Hl.
  { exists response. rewrite app_nil_r. split; [done|]. split; [exact Hr|done]. }
  rewrite fmap_cons in Hr |- *. cbn [fst entry_ages length] in Hr, Hl |- *.
  assert (∀ v age, Some v = entry_value e → response_at (json_size v + (total_size (values entries.*1) + n)) response t →
    match merge_tree v t with
    | Some t1 => match merge_all (values entries.*1) t1 with
      | Some t' => ∃ r', (response ← merge_json response v; handle_entries plan (S index) entries response age keys) =
          Ret (r', foldl age_step age (entry_ages (cache_partitions plan) (S index) entries.*1), keys ++ written (S index) entries) ∧
          response_at n r' t' ∧ cache_tags r' = cache_tags response
      | None => is_todo (response ← merge_json response v; handle_entries plan (S index) entries response age keys) = true
      end
    | None => is_todo (response ← merge_json response v; handle_entries plan (S index) entries response age keys) = true
    end) as Hmerge.
  { intros v age' _ Hv. apply merge_json_at in Hv; [|pose proof (total_size_nonneg (values entries.*1)); lia].
    destruct (merge_tree v t) as [t1|]; [|by apply is_todo_bind]. destruct Hv as (r1 & -> & Hr1 & <-). cbn [mbind res_bind].
    apply IH; [done|lia]. }
  destruct e as [v d| |v]; cbn [handle_entries foldl age_step entry_age written].
  - change (values (Hit v d :: entries.*1)) with (v :: values entries.*1) in *. rewrite total_size_cons, <-Z.add_assoc in Hr.
    rewrite max_age_merge_secs. specialize (Hmerge v (max_age_merge d age) eq_refl Hr). cbn [merge_all].
    by destruct (merge_tree v t); cbn [mbind option_bind].
  - change (values (Miss :: entries.*1)) with (values entries.*1) in *.
    destruct (lookup_lt_is_Some_2 (cache_partitions plan) index) as [[c subset] Hc]; [lia|]. rewrite Hc. cbn [expect mbind res_bind].
    cbn [fmap option_fmap option_map compose fst age_step].
    specialize (IH (S index) response (max_age_merge (from_secs (max_age c)) age)
      (match key with Some key => keys ++ [(key, index)] | None => keys end) t Hr ltac:(lia)).
    destruct (merge_all (values entries.*1) t); [|done].
    destruct IH as (r' & E & Hr'). exists r'. split; [|done]. rewrite E. destruct key; [|done]. by rewrite <-app_assoc.
  - change (values (Stale v :: entries.*1)) with (v :: values entries.*1) in *. rewrite total_size_cons, <-Z.add_assoc in Hr.
    specialize (Hmerge v (set_none age) eq_refl Hr). cbn [merge_all]. by destruct (merge_tree v t); cbn [mbind option_bind].
Qed.
(** The loop of a complete hit. *)
Lemma merge_entries_spec entries body age t n :
  0 ≤ n → response_at (total_size (values entries) + n) body t → existsb is_miss entries = false →
  match merge_all (values entries) t with
  | Some t' => ∃ r', merge_entries_into entries body age = Ret (r', foldl age_step age (entry_ages [] 0 entries)) ∧ response_at n r' t'
  | None => is_todo (merge_entries_into entries body age) = true
  end.
Proof.
  intros Hn. generalize 0%nat as index. revert body age t. induction entries as [|e entries IH]; intros body age t index Hr Hm.
  { by exists body. }
  cbn [existsb] in Hm. apply orb_false_iff in Hm as [He Hm]. pose proof (total_size_nonneg (values entries)) as Hs.
  destruct e as [v d| |v]; [|done|]; cbn [merge_entries_into foldl entry_ages entry_age age_step].
  - change (values (Hit v d :: entries)) with (v :: values entries) in *. rewrite total_size_cons, <-Z.add_assoc in Hr.
    rewrite max_age_merge_secs. cbn [merge_all]. apply merge_json_at in Hr; [|lia].
    destruct (merge_tree v t) as [t1|]; cbn [mbind option_bind]; [|by apply is_todo_bind].
    destruct Hr as (r1 & -> & Hr1 & _). cbn [mbind res_bind]. by apply IH.
  - change (values (Stale v :: entries)) with (v :: values entries) in *. rewrite total_size_cons, <-Z.add_assoc in Hr.
    cbn [merge_all]. apply merge_json_at in Hr; [|lia].
    destruct (merge_tree v t) as [t1|]; cbn [mbind option_bind]; [|by apply is_todo_bind].
    destruct Hr as (r1 & -> & Hr1 & _). cbn [mbind res_bind]. by apply IH.
Qed.
(** Only a miss takes its age from the plan. *)
Lemma entry_ages_hits partitions index index' entries :
  existsb is_miss entries = false → entry_ages partitions index entries = entry_ages [] index' entries.
Proof.
  revert index index'. induction entries as [|e entries IH]; intros index index' Hm; [done|].
  cbn [existsb] in Hm. apply orb_false_iff in Hm as [He Hm]. cbn [entry_ages]. f_equal; [by destruct e|by apply IH].
Qed.
(** The body that the first entry of a hit becomes. *)
Lemma first_body_at v n :
  0 ≤ n → json_size v + n < 2 ^ 32 →
  ∃ id r, from_serde_value v response_default = Ret (id, r) ∧ response_at n (set_root_unchecked id r) (tree_of_json v).
Proof.
  intros Hn Hs. assert (response_wf response_default) as Hwf by (split; [done|]; intros i []; done).
  destruct (from_serde_value_spec v response_default Hwf) as (id & r & fp & E & [G1 G2 G3 G4 _] & T & F); [unfold room; simpl; lia|].
  exists id, r. split; [done|]. simpl in G1. split; [done|unfold room; simpl; lia|]. by exists id, fp.
Qed.

(** What [ExecutionPhase::new] makes of a fetch phase. *)
Lemma existsb_zip_fst {A B} (f : A → bool) (l : list A) (k : list B) :
  length l = length k → existsb (λ e, f e.1) (zip l k) = existsb f l.
Proof. revert k. induction l as [|x l IH]; intros [|y k] Hl; try done. simpl in *. f_equal. apply IH. lia. Qed.
Lemma execution_parts fetch :
  length (fetch_entries fetch) = length (cache_partitions (fetch_plan fetch)) →
  ∃ subset misses, execution_new fetch =
    MkExecution (fetch_plan fetch) (fetch_entries fetch) (fetch_keys fetch) subset misses
      (existsb (λ e, negb (is_miss e)) (fetch_entries fetch)) (fetch_request fetch).
Proof.
  intros Hl. unfold execution_new.
  destruct (add_entries_spec (zip (fetch_entries fetch) (cache_partitions (fetch_plan fetch)))
    (nocache_partition (fetch_plan fetch)) 0 false 0%nat 0%nat) as (_ & _ & _ & E).
  destruct (foldl _ _ _) as [[subset misses] partial]. cbn [snd orb] in E.
  rewrite (existsb_zip_fst (λ e, negb (is_miss e))) in E by done. subst partial. by exists subset, misses.
Qed.

(** The parts of the response after execution. *)
Lemma response_parts (hits nocache : bool) r ages :
  let age := foldl age_step (if nocache then set_none Unknown else Unknown) ages in
  let result := if hits then partial_hit r age else miss r age in
  body result = r ∧ x_grafbase_cache result = (if hits then "PARTIAL_HIT" else "MISS") ∧
  public_max_age result = (if nocache then None else expected_age ages).
Proof.
  cbn zeta. rewrite <-age_of_entries. destruct hits, nocache; cbn [partial_hit miss headers body x_grafbase_cache public_max_age];
    unfold set_none; by rewrite ?age_steps_none.
Qed.

(** ** The theorems *)

(** C17. The executor is asked for exactly what the cache does not have: the
    selections and the fragments on the paths to the leaves that have no cache
    control, or whose partition was not found; and there is nothing to execute
    exactly when no such leaf is left. *)
Theorem executor_query `{CacheTypes} parse_executable_document query operation_name document i operation fetch :
  parse_executable_document query = inr document → doc_wf document →
  select_operation document operation_name = inr (i, operation) →
  build_plan parse_executable_document query operation_name = Ret (inr (Some (fetch_plan fetch))) →
  length (fetch_entries fetch) = length (cache_partitions (fetch_plan fetch)) →
  (∀ s, s ∈ p_selections (qs_partition (executor_subset (execution_new fetch))) ↔
    ∃ path fs c, query_leaf document operation path fs c ∧ s ∈ path ∧ not_cached fetch c) ∧
  (∀ f, f ∈ p_fragments (qs_partition (executor_subset (execution_new fetch))) ↔
    ∃ path fs c, query_leaf document operation path fs c ∧ f ∈ fs ∧ not_cached fetch c) ∧
  (finish fetch = CompleteHit (fetch_entries fetch) ↔
    ∀ path fs c, query_leaf document operation path fs c → ¬ not_cached fetch c).
Proof.
  intros Hp Hwf Hsel Hb Hl. pose proof (build_plan_spec _ _ _ _ _ _ _ Hp Hwf Hsel Hb) as Hplan.
  destruct (executor_subset_spec document operation fetch Hplan). split_and!; [done|done|by apply finish_spec].
Qed.
(** The example of the plan, with an entry for the first partition only. *)
Definition example_fetch (plan : CachingPlan) : CacheFetchPhase :=
  MkFetch plan [Some "key0"; Some "key1"] (MkRequest true true)
    [Hit (JObject [("user", JObject [("name", JString "n")])]) (from_secs 5); Miss].
Lemma executor_query_witness :
  ∃ plan, example_plan = Ret (inr (Some plan)) ∧
  ∃ path fs c, query_leaf (H := example_types) example_document
      (MkCOperation Query None [MkCVariable "n" "$n: Int"] []
        [CField 0 None "user" [("first", EVVariable "n")] [] [CFragmentSpread 1 "F" []]; CField 2 None "hello" [] [] []])
      path fs c ∧ 5%nat ∈ path ∧ not_cached (example_fetch plan) c.
Proof.
  eexists. split; [vm_compute; reflexivity|]. match goal with |- context [example_fetch ?plan] => set (p := plan) end.
  apply (proj1 (executor_query (H := example_types) (λ _, inr example_document) "query" None example_document 0 _ (example_fetch p)
    eq_refl ltac:(vm_compute; repeat constructor; set_solver) eq_refl ltac:(vm_compute; reflexivity) eq_refl)).
  vm_compute. repeat constructor.
Defined.

(** C29. Merging a cached value into a response with a root whose nodes form a
    tree, and with room for the nodes of the value in its 2^32 ids, is merging
    it into the tree: the nodes below the root stay a tree, the merged one, and
    nothing else changes, neither the root, nor the cache tags, nor the nodes
    outside the tree ([changed]); and the code stops with the message of one of
    its two [todo!]s exactly where the shapes of the two do not agree. *)
Theorem merge_json_refines j r id t fp :
  response_wf r → room r (json_size j) → root r = Some id → tree_at (data r) id t fp →
  match merge_tree j t with
  | Some t' => ∃ r' fp', merge_json r j = Ret r' ∧ tree_at (data r') id t' fp' ∧ changed (json_size j) r r' fp fp'
  | None => is_todo (merge_json r j) = true
  end.
Proof. intros Hwf Hr Hroot Ht. unfold merge_json. rewrite Hroot. by apply merge_inner_refines. Qed.
(** The response [{"user": {"id": 1}}], and its tree. *)
Definition example_response : QueryResponse :=
  match from_serde_value (JObject [("user", JObject [("id", JString "1")])]) response_default with
  | Ret (id, r) => set_root_unchecked id r
  | Panic _ => response_default
  end.
Definition example_tree : RTree := tree_of_json (JObject [("user", JObject [("id", JString "1")])]).
Lemma example_response_at n : 0 ≤ n ≤ 100 → response_at n example_response example_tree.
Proof.
  intros Hn. destruct (first_body_at (JObject [("user", JObject [("id", JString "1")])]) n) as (id & r & E & Hr); [lia|simpl; lia|].
  unfold example_response. by rewrite E.
Qed.
Lemma merge_json_refines_witness :
  ∃ id r' fp fp', root example_response = Some id ∧
    merge_json example_response (JObject [("user", JObject [("name", JString "n")])]) = Ret r' ∧
    tree_at (data r') id (tree_of_json (JObject [("user", JObject [("id", JString "1"); ("name", JString "n")])])) fp' ∧
    changed 3 example_response r' fp fp'.
Proof.
  destruct (example_response_at 3) as [Hwf Hr (id & fp & Hroot & Ht)]; [lia|].
  destruct (merge_json_refines (JObject [("user", JObject [("name", JString "n")])]) example_response id example_tree fp
    Hwf Hr Hroot Ht) as (r' & fp' & H1 & H2 & H3).
  by exists id, r', fp, fp'.
Defined.

(** C18. The response after execution, for a fetch phase with one entry and one
    key for every partition and an executor's response that has a root, whose
    nodes form a tree and which has room for the cached nodes. If the shapes of
    the cached values and the response agree, its body is the executor's with
    the cached values merged in, with the same cache tags; its header is
    [PARTIAL_HIT] if some entry was found, hit or stale, and [MISS] otherwise;
    its age is the smallest of the entries and of the partitions just fetched,
    and there is none if part of the response cannot be cached or was stale, or
    if the smallest is zero; and the partitions that were missed and have a key
    are written, unless there were errors or the request forbids it. If the
    shapes do not agree, the code panics with one of the [todo!]s. *)
Theorem full_response fetch response errors t n :
  0 ≤ n → response_at (total_size (values (fetch_entries fetch)) + n) response t →
  length (fetch_keys fetch) = length (fetch_entries fetch) →
  length (fetch_entries fetch) = length (cache_partitions (fetch_plan fetch)) →
  match merge_all (values (fetch_entries fetch)) t with
  | None => is_todo (handle_full_response (execution_new fetch) response errors) = true
  | Some t' =>
      ∃ result updates, handle_full_response (execution_new fetch) response errors = Ret (result, updates) ∧
      response_at n (body result) t' ∧ cache_tags (body result) = cache_tags response ∧
      x_grafbase_cache result =
        (if existsb (λ e, negb (is_miss e)) (fetch_entries fetch) then "PARTIAL_HIT" else "MISS") ∧
      public_max_age result =
        (if subset_is_empty (nocache_partition (fetch_plan fetch))
         then expected_age (entry_ages (cache_partitions (fetch_plan fetch)) 0 (fetch_entries fetch)) else None) ∧
      updates =
        (let keys := written 0 (zip (fetch_entries fetch) (fetch_keys fetch)) in
         if negb (bool_decide (keys = [])) && negb errors && should_write_to_cache (fetch_request fetch) then
           Some (MkUpdatePhase (plan_document (fetch_plan fetch)) (cache_partitions (fetch_plan fetch)) keys response)
         else None)
  end.
Proof.
  intros Hn Hr Hk Hl. destruct (execution_parts fetch Hl) as (subset & misses & ->).
  unfold handle_full_response, has_nocache_partition.
  cbn [exec_plan exec_entries exec_keys is_partial_hit exec_request]. cbn zeta.
  set (nocache := negb (subset_is_empty (nocache_partition (fetch_plan fetch)))).
  pose proof (handle_entries_spec (fetch_plan fetch) (zip (fetch_entries fetch) (fetch_keys fetch)) 0 response
    (if nocache then set_none Unknown else Unknown) [] t n Hn) as Hspec.
  rewrite fst_zip in Hspec by lia. specialize (Hspec Hr). rewrite length_zip_with in Hspec. specialize (Hspec ltac:(lia)).
  destruct (merge_all (values (fetch_entries fetch)) t) as [t'|]; [|by apply is_todo_bind].
  destruct Hspec as (r' & -> & Hr' & Htags). cbn [mbind res_bind]. eexists _, _. split; [done|].
  destruct (response_parts (existsb (λ e, negb (is_miss e)) (fetch_entries fetch)) nocache r'
    (entry_ages (cache_partitions (fetch_plan fetch)) 0 (fetch_entries fetch))) as (-> & -> & ->).
  split_and!; [done|done|done| |done]. unfold nocache. by destruct (subset_is_empty _).
Qed.
Lemma full_response_witness :
  ∃ plan, example_plan = Ret (inr (Some plan)) ∧
  ∃ result updates, handle_full_response (execution_new (example_fetch plan)) example_response false = Ret (result, updates) ∧
    x_grafbase_cache result = "PARTIAL_HIT" ∧ public_max_age result = None ∧ keys_to_write <$> updates = Some [("key1", 1%nat)].
Proof.
  eexists. split; [vm_compute; reflexivity|]. match goal with |- context [example_fetch ?plan] => set (p := plan) end.
  destruct (full_response (example_fetch p) example_response false example_tree 0) as (result & updates & H1 & _ & _ & H2 & H3 & H4).
  - lia.
  - apply example_response_at. vm_compute. split; discriminate.
  - reflexivity.
  - reflexivity.
  - exists result, updates. split_and!; [done|exact H2|by rewrite H3|by rewrite H4].
Defined.

(** A complete hit: the body is the first cached value with the others
    merged in, the age the smallest of theirs, none if one was stale. *)
Theorem complete_hit e entries v n :
  existsb is_miss (e :: entries) = false → entry_value e = Some v → 0 ≤ n →
  json_size v + (total_size (values entries) + n) < 2 ^ 32 →
  match merge_all (values entries) (tree_of_json v) with
  | None => is_todo (response_and_updates (e :: entries)) = true
  | Some t' =>
      ∃ result, response_and_updates (e :: entries) = Ret result ∧ response_at n (body result) t' ∧
      x_grafbase_cache result = "HIT" ∧ public_max_age result = expected_age (entry_ages [] 0 (e :: entries))
  end.
Proof.
  intros Hm Hv Hn Hs. pose proof (total_size_nonneg (values entries)) as Hts.
  destruct (first_body_at v (total_size (values entries) + n)) as (id & r & E & Hr); [lia|done|].
  cbn [existsb] in Hm. apply orb_false_iff in Hm as [_ Hm].
  assert (∃ age : MaxAge, age = age_step Unknown (entry_age [] 0 e) ∧
    response_and_updates (e :: entries) =
      (merged ← merge_entries_into entries (set_root_unchecked id r) age; let '(body, age) := merged in Ret (hit body age)))
    as (age & Hage & ->).
  { destruct e as [v' d| |v']; try done; injection Hv as ->; cbn [response_and_updates]; rewrite E; cbn [mbind res_bind];
      (eexists; split; [reflexivity|]); cbn [age_step entry_age]; by rewrite ?max_age_merge_secs. }
  pose proof (merge_entries_spec entries (set_root_unchecked id r) age (tree_of_json v) n Hn Hr Hm) as Hspec.
  destruct (merge_all (values entries) (tree_of_json v)) as [t'|]; [|by apply is_todo_bind].
  destruct Hspec as (r' & -> & Hr'). cbn [mbind res_bind]. eexists. split; [done|]. split; [done|]. split; [done|].
  cbn [hit headers public_max_age]. subst age. rewrite <-age_of_entries. cbn [entry_ages foldl].
  by rewrite (entry_ages_hits [] 1 0 entries Hm).
Qed.
Lemma complete_hit_witness :
  ∃ result, response_and_updates [Hit (JObject [("a", JNull)]) (from_secs 7); Hit (JObject [("b", JBool true)]) (from_secs 5)] = Ret result ∧
    response_at 0 (body result) (tree_of_json (JObject [("a", JNull); ("b", JBool true)])) ∧ public_max_age result = Some 5.
Proof.
  destruct (complete_hit (Hit (JObject [("a", JNull)]) (from_secs 7)) [Hit (JObject [("b", JBool true)]) (from_secs 5)] (JObject [("a", JNull)]) 0)
    as (result & H1 & H2 & _ & H3); try reflexivity; try lia; [].
  by exists result.
Defined.

(** ** What is lost *)

(** [{ user { name } user { other: name } }]: two fields with one response key. *)
Definition merged_document : CDocument := {|
  cdoc_operations := [MkCOperation Query None [] []
    [CField 0 None "user" [] [] [CField 1 None "name" [] [] []];
     CField 2 None "user" [] [] [CField 3 (Some "other") "name" [] [] []]]];
  cdoc_fragments := [];
|}.
Definition merged_json : Json := JObject [("user", JObject [("name", JString "n"); ("other", JString "n")])].

(** The fields of the second [user] are executed and answered, but they are not
    written to the cache, whose serializer takes the first field with a
    response key for all of them; the next request finds the entry and is
    answered without them. *)
Theorem update_loses_merged_fields :
  ∃ plan id response result phase,
    build_plan (H := example_types) (λ _, inr merged_document) "query" None = Ret (inr (Some plan)) ∧
    p_selections (qs_partition (executor_subset (execution_new (MkFetch plan [Some "key"] (MkRequest true true) [Miss])))) = [1; 0; 3; 2]%nat ∧
    from_serde_value merged_json response_default = Ret (id, response) ∧
    handle_full_response (execution_new (MkFetch plan [Some "key"] (MkRequest true true) [Miss])) (set_root_unchecked id response) false =
      Ret (result, Some phase) ∧
    to_json_value 10 (body result) = Ret merged_json ∧
    (serialize_update 20 merged_document <$> updates phase) = [Ret (inr (JObject [("user", JObject [("name", JString "n")])]))] ∧
    (hit_result ← response_and_updates [Hit (JObject [("user", JObject [("name", JString "n")])]) (from_secs 10)];
     to_json_value 10 (body hit_result)) = Ret (JObject [("user", JObject [("name", JString "n")])]).
Proof. do 5 eexists. split_and!; [vm_compute; reflexivity..]. Qed.

(** A scope that cannot be determined, as the header it names is not there,
    does not skip the entry: the requests without the header share one. *)
Theorem cache_scopes_missing_header auth name header :
  header name = None →
  cache_scopes (MkCacheControl false 10 0 None (Some [Header name])) auth header = Some (Scoped [None]).
Proof. intros E. unfold cache_scopes. cbn. by rewrite E. Qed.
