(* ===== verification/EngineCoerce.v ===== *)
(** * [engine-v2]: coercion of input values

    [engine-v2/src/operation/bind/coercion/*.rs], [bind/variables.rs] and the
    arguments of [bind/field.rs], with the stores of
    [operation/input_value/{variable,query}/mod.rs]. Values are written to three
    vectors and refer to them by ids; the schema is the record [ESchema], in
    which interned strings are strings and default values the values they
    denote. Numbers of JSON are given by the
    answers of their methods, and their text is an argument. The pool of empty buffers that
    saves allocations is left out, and the path is passed down instead of being
    pushed and popped. *)
From Stdlib Require Import ZArith SpecFloat.
From stdpp Require Import pretty.
From S2P Require Import Prelude RustStd Wrapping IdNewtypes.
Local Open Scope string_scope.
Local Open Scope list_scope.
Local Open Scope Z_scope.

(** ** Values of a request *)

(** A number of JSON, [serde_json::Number], by what the code asks of it. *)
Record CNumber := MkNumber {
  as_i64 : option Z;
  as_u64 : option Z;
  as_f64 : option spec_float;
  is_f64 : bool;
}.
Definition i32_try_from (n : Z) : option Z := if decide (- 2 ^ 31 ≤ n < 2 ^ 31) then Some n else None.

(** [engine_value::ConstValue]; an object lists its entries in order. *)
Inductive ConstValue :=
| CNull
| CNumberValue (n : CNumber)
| CString (s : string)
| CBoolean (b : bool)
| CBinary
| CEnum (name : string)
| CList (items : list ConstValue)
| CObject (entries : list (string * ConstValue)).
(** [engine_value::Value]: the same with variables. *)
Inductive QValue :=
| QVariable (name : string)
| QNull
| QNumberValue (n : CNumber)
| QString (s : string)
| QBoolean (b : bool)
| QBinary
| QEnum (name : string)
| QList (items : list QValue)
| QObject (entries : list (string * QValue)).
Fixpoint value_of_const (v : ConstValue) : QValue :=
  match v with
  | CNull => QNull
  | CNumberValue n => QNumberValue n
  | CString s => QString s
  | CBoolean b => QBoolean b
  | CBinary => QBinary
  | CEnum name => QEnum name
  | CList items => QList (value_of_const <$> items)
  | CObject entries => QObject ((λ e, (e.1, value_of_const e.2)) <$> entries)
  end.

(** [IndexMap::swap_remove]: the last entry takes the place of the removed one. *)
Definition swap_remove_at {A} (i : nat) (l : list A) : list A :=
  match last l with
  | Some x => if decide (S i = length l) then removelast l else <[i := x]> (removelast l)
  | None => l
  end.
Definition swap_remove {A} (key : string) (entries : list (string * A)) : option A * list (string * A) :=
  match list_find (λ e, e.1 = key) entries with
  | Some (i, e) => (Some e.2, swap_remove_at i entries)
  | None => (None, entries)
  end.

(** ** The schema *)
Inductive ScalarType := SString | SFloat | SInt | SBigInt | SJSON | SBoolean.
Inductive DefinitionId :=
| DefEnum (id : nat) | DefInputObject (id : nat) | DefInterface (id : nat)
| DefObject (id : nat) | DefScalar (id : nat) | DefUnion (id : nat).
Global Instance DefinitionId_eq_dec : EqDecision DefinitionId.
Proof. solve_decision. Defined.
Record TypeRecord := MkType { definition_id : DefinitionId; wrapping : Wrapping }.
(** [schema::InputValue]: what all stores of values are read as. *)
Inductive InputValue :=
| INull
| IString (s : string)
| IEnumValue (id : nat)
| IInt (n : Z)
| IBigInt (n : Z)
| IFloat (f : spec_float)
| IBoolean (b : bool)
| IInputObject (fields : list (nat * InputValue))
| IList (items : list InputValue)
| IMap (entries : list (string * InputValue))
| IU64 (n : Z)
| IUnboundEnumValue (s : string).
Record InputValueDefinition := MkInputValueDefinition {
  iv_name : string;
  iv_ty : TypeRecord;
  default_value_id : option nat;
}.
Record ESchema := MkSchema {
  scalar_definitions : list (string * ScalarType);
  enum_definitions : list (string * (nat * nat));
  enum_values : list string;
  input_object_definitions : list (string * (nat * nat));
  input_value_definitions : list InputValueDefinition;
  (** the names of the interfaces, objects and unions *)
  interface_names : list string;
  object_names : list string;
  union_names : list string;
  type_definitions_ordered_by_name : list DefinitionId;
  default_input_values : list InputValue;
}.
Definition at_index {A} (l : list A) (i : nat) : res A := expect "index out of bounds" (l !! i).
(** The ids of a range, with what they refer to. *)
Definition walk_range {A} (l : list A) (range : nat * nat) : res (list (nat * A)) :=
  mapM_res (λ i, x ← at_index l i; Ret (i, x)) (seq range.1 (range.2 - range.1)).

Definition definition_name (schema : ESchema) (id : DefinitionId) : res string :=
  match id with
  | DefEnum id => e ← at_index (enum_definitions schema) id; Ret e.1
  | DefInputObject id => e ← at_index (input_object_definitions schema) id; Ret e.1
  | DefInterface id => at_index (interface_names schema) id
  | DefObject id => at_index (object_names schema) id
  | DefScalar id => e ← at_index (scalar_definitions schema) id; Ret e.1
  | DefUnion id => at_index (union_names schema) id
  end.
(** [Display] of a type. *)
Definition type_text (schema : ESchema) (ty : TypeRecord) : res string :=
  name ← definition_name schema (definition_id ty);
  Ret (repeat_str (length (list_wrappings (wrapping ty))) "[" +:+ name +:+
       (if inner_is_required (wrapping ty) then "!" else "") +:+
       String.concat "" ((λ w, match w with RequiredList => "]!" | NullableList => "]" end) <$> list_wrappings (wrapping ty))).
Definition type_wrapped_by (ty : TypeRecord) (list_wrapping : ListWrapping) : res TypeRecord :=
  w ← wrapped_by (wrapping ty) list_wrapping;
  Ret (MkType (definition_id ty) w).
Definition is_compatible_with (self other : TypeRecord) : bool :=
  bool_decide (definition_id self = definition_id other) &&
  (negb (is_list (wrapping self)) ||
   bool_decide (length (list_wrappings (wrapping self)) = length (list_wrappings (wrapping other)))) &&
  (is_nullable (wrapping other) || is_required (wrapping self)).
Definition find_value_by_name (schema : ESchema) (range : nat * nat) (name : string) : res (option nat) :=
  values ← walk_range (enum_values schema) range;
  Ret (fst <$> (snd <$> list_find (λ e, e.2 = name) values)).

(** ** Errors *)
Record Location := MkLocation { line : Z; column : Z }.
Inductive ValueKind := KString | KInteger | KEnum | KFloat | KObject | KBoolean | KList | KNull.
Definition value_kind (v : ConstValue) : ValueKind :=
  match v with
  | CNull => KNull
  | CNumberValue n => if is_f64 n then KFloat else KInteger
  | CString _ => KString
  | CBoolean _ => KBoolean
  | CBinary => KString
  | CEnum _ => KEnum
  | CList _ => KList
  | CObject _ => KObject
  end.
Definition query_value_kind (v : QValue) : res ValueKind :=
  match v with
  | QNull => Ret KNull
  | QNumberValue n => Ret (if is_f64 n then KFloat else KInteger)
  | QString _ => Ret KString
  | QBoolean _ => Ret KBoolean
  | QBinary => Ret KString
  | QEnum _ => Ret KEnum
  | QList _ => Ret KList
  | QObject _ => Ret KObject
  | QVariable _ => Panic "internal error: entered unreachable code"
  end.
Inductive InputValueError :=
| UnexpectedNull (expected path : string) (location : Location)
| MissingList (actual : ValueKind) (expected path : string) (location : Location)
| MissingObject (name : string) (actual : ValueKind) (path : string) (location : Location)
| IncorrectScalarType (actual : ValueKind) (expected path : string) (location : Location)
| IncorrectScalarValue (actual expected path : string) (location : Location)
| IncorrectEnumValueType (enum : string) (actual : ValueKind) (path : string) (location : Location)
| UnknownEnumValue (enum value path : string) (location : Location)
| IncorrectVariableType (name variable_ty actual_ty : string) (location : Location) (path : string)
| UnknownInputField (input_object name : string) (location : Location) (path : string)
| UnknownVariable (name : string) (location : Location) (path : string)
| VariableDefaultValueReliesOnAnotherVariable (name : string) (location : Location) (path : string).
Definition error_location (e : InputValueError) : Location :=
  match e with
  | UnexpectedNull _ _ l | MissingList _ _ _ l | MissingObject _ _ _ l | IncorrectScalarType _ _ _ l
  | IncorrectScalarValue _ _ _ l | IncorrectEnumValueType _ _ _ l | UnknownVariable _ l _ | IncorrectVariableType _ _ _ l _
  | UnknownInputField _ _ l _ | VariableDefaultValueReliesOnAnotherVariable _ l _ | UnknownEnumValue _ _ _ l => l
  end.
Inductive ValuePathSegment := FieldSegment (name : string) | IndexSegment (i : nat).
Definition value_path_to_string (values : list ValuePathSegment) : string :=
  match values with
  | [] => ""
  | _ =>
      " at path '" +:+
      String.concat "" ((λ s, "." +:+ match s with FieldSegment name => name | IndexSegment i => pretty i end) <$> values) +:+ "'"
  end.

(** ** The stores of values *)

(** [derive(Id)] on a [NonZero<u32>] or a [NonZero<u16>], as the index it stands for. *)
Definition id_from_width (w : Z) (n : nat) : res nat :=
  id ← derived_from_usize w None (Z.of_nat n);
  Ret (Z.to_nat (derived_to_usize id)).
Definition id_from (n : nat) : res nat := id_from_width 32 n.
Definition range_from (start end_ : nat) : res (nat * nat) :=
  start ← id_from start;
  end_ ← id_from end_;
  Ret (start, end_).
Definition range_from_single (id : nat) : res (nat * nat) :=
  end_ ← id_from (S id);
  Ret (id, end_).

(** [VariableInputValues] and [QueryInputValues] differ in their values. *)
Record Store (V : Type) := MkStore {
  values : list V;
  input_fields : list (nat * V);
  key_values : list (string * V);
}.
Global Arguments MkStore {V} _ _ _.
Global Arguments values {V} _.
Global Arguments input_fields {V} _.
Global Arguments key_values {V} _.
Section store.
Context {V : Type} (null : V).
Definition store_default : Store V := MkStore [] [] [].
Definition push_value (value : V) (s : Store V) : res (nat * Store V) :=
  id ← id_from (length (values s));
  Ret (id, MkStore (values s ++ [value]) (input_fields s) (key_values s)).
Definition reserve_list (n : nat) (s : Store V) : res ((nat * nat) * Store V) :=
  let values' := values s ++ replicate n null in
  ids ← range_from (length (values s)) (length values');
  Ret (ids, MkStore values' (input_fields s) (key_values s)).
Definition reserve_map (n : nat) (s : Store V) : res ((nat * nat) * Store V) :=
  let key_values' := key_values s ++ replicate n ("", null) in
  ids ← range_from (length (key_values s)) (length key_values');
  Ret (ids, MkStore (values s) (input_fields s) key_values').
Definition append_input_object (fields : list (nat * V)) (s : Store V) : res ((nat * nat) * Store V) :=
  let input_fields' := input_fields s ++ fields in
  ids ← range_from (length (input_fields s)) (length input_fields');
  Ret (ids, MkStore (values s) input_fields' (key_values s)).
(** [input_values[id] = value]. *)
Definition set_value (id : nat) (value : V) (s : Store V) : res (Store V) :=
  if decide (id < length (values s))%nat then Ret (MkStore (<[id := value]> (values s)) (input_fields s) (key_values s))
  else Panic "index out of bounds".
Definition set_key_value (id : nat) (entry : string * V) (s : Store V) : res (Store V) :=
  if decide (id < length (key_values s))%nat then Ret (MkStore (values s) (input_fields s) (<[id := entry]> (key_values s)))
  else Panic "index out of bounds".
End store.

(** ** Code that has a state and can fail *)
Definition CM (S A : Type) : Type := S → res (S * (InputValueError + A)).
Section monad.
Context {S : Type}.
Global Instance cm_ret : MRet (CM S) := λ A x s, Ret (s, inr x).
Global Instance cm_bind : MBind (CM S) := λ A B f m s,
  r ← m s;
  match r.2 with inl e => Ret (r.1, inl e) | inr x => f x r.1 end.
Definition cm_fail {A} (e : InputValueError) : CM S A := λ s, Ret (s, inl e).
Definition cm_lift {A} (m : res A) : CM S A := λ s, x ← m; Ret (s, inr x).
(** An operation of a part of the state. *)
Definition cm_state {A} (f : S → res (A * S)) : CM S A := λ s, r ← f s; Ret (r.2, inr r.1).
Fixpoint cm_mapM {A B} (f : A → CM S B) (l : list A) : CM S (list B) :=
  match l with
  | [] => mret []
  | x :: l => y ← f x; ys ← cm_mapM f l; mret (y :: ys)
  end.
Fixpoint cm_iter {A} (f : A → CM S ()) (l : list A) : CM S () :=
  match l with
  | [] => mret ()
  | x :: l => _ ← f x; cm_iter f l
  end.
End monad.

(** ** [coercion/variable.rs] *)
Inductive VariableInputValue :=
| VINull
| VIString (s : string)
| VIEnumValue (id : nat)
| VIInt (n : Z)
| VIBigInt (n : Z)
| VIFloat (f : spec_float)
| VIBoolean (b : bool)
| VIInputObject (ids : nat * nat)
| VIList (ids : nat * nat)
| VIMap (ids : nat * nat)
| VIU64 (n : Z)
| VIDefaultValue (id : nat).
Abbreviation VariableInputValues := (Store VariableInputValue).

Section variable_coercion.
Context (number_text : CNumber → string) (schema : ESchema) (location : Location).
Abbreviation V := VariableInputValue.
Abbreviation VM := (CM VariableInputValues).
Abbreviation Path := (list ValuePathSegment).

Definition incorrect_type {S A} (actual : ValueKind) (scalar : string * ScalarType) (path : Path) : CM S A :=
  cm_fail (IncorrectScalarType actual scalar.1 (value_path_to_string path) location).
Definition incorrect_value {S A} (number : CNumber) (scalar : string * ScalarType) (path : Path) : CM S A :=
  cm_fail (IncorrectScalarValue (number_text number) scalar.1 (value_path_to_string path) location).
(** The loops over a list and over the entries of a map, which write the
    values to the ids that were reserved. *)
Definition fill_list (coerce : nat → ConstValue → VM V) : list ConstValue → nat → nat → VM () :=
  fix go items id idx :=
    match items with
    | [] => mret ()
    | value :: items =>
        value ← coerce idx value;
        _ ← cm_state (λ s, s ← set_value id value s; Ret ((), s));
        go items (S id) (S idx)
    end.
Definition fill_map (coerce : ConstValue → VM V) : list (string * ConstValue) → nat → VM () :=
  fix go entries id :=
    match entries with
    | [] => mret ()
    | e :: entries =>
        value ← coerce e.2;
        _ ← cm_state (λ s, s ← set_key_value id (e.1, value) s; Ret ((), s));
        go entries (S id)
    end.

(** A scalar for any JSON value. *)
Fixpoint coerce_json (scalar : string * ScalarType) (path : Path) (value : ConstValue) {struct value} : VM V :=
  match value with
  | CNull => mret VINull
  | CNumberValue n =>
      match as_f64 n with
      | Some f => mret (VIFloat f)
      | None =>
          match as_i64 n with
          | Some n => mret (VIBigInt n)
          | None => n ← cm_lift (unwrap (as_u64 n)); mret (VIU64 n)
          end
      end
  | CString s => mret (VIString s)
  | CBoolean b => mret (VIBoolean b)
  | CList array =>
      ids ← cm_state (reserve_list VINull (length array));
      _ ← fill_list (λ _, coerce_json scalar path) array ids.1 0;
      mret (VIList ids)
  | CObject fields =>
      ids ← cm_state (reserve_map VINull (length fields));
      _ ← fill_map (coerce_json scalar path) fields ids.1;
      mret (VIMap ids)
  | other => incorrect_type (value_kind other) scalar path
  end.
Definition coerce_scalar (scalar : string * ScalarType) (path : Path) (value : ConstValue) : VM V :=
  match value, scalar.2 with
  | value, SJSON => coerce_json scalar path value
  | CNumberValue number, SInt =>
      match as_i64 number ≫= i32_try_from with
      | Some value => mret (VIInt value)
      | None => incorrect_value number scalar path
      end
  | CNumberValue number, SBigInt =>
      match as_i64 number with
      | Some value => mret (VIBigInt value)
      | None => incorrect_value number scalar path
      end
  | CNumberValue number, SFloat =>
      match as_f64 number with
      | Some value => mret (VIFloat value)
      | None => incorrect_value number scalar path
      end
  | CString value, SString => mret (VIString value)
  | CBoolean value, SBoolean => mret (VIBoolean value)
  | CBinary, _ => cm_lift (Panic "Parser doesn't generate bytes, nor do variables.")
  | actual, _ => incorrect_type (value_kind actual) scalar path
  end.
Definition coerce_enum (enum : string * (nat * nat)) (path : Path) (value : ConstValue) : VM V :=
  match match value with CEnum name | CString name => inr name | value => inl (value_kind value) end with
  | inl actual => cm_fail (IncorrectEnumValueType enum.1 actual (value_path_to_string path) location)
  | inr name =>
      id ← cm_lift (find_value_by_name schema enum.2 name);
      match id with
      | Some id => mret (VIEnumValue id)
      | None => cm_fail (UnknownEnumValue enum.1 name (value_path_to_string path) location)
      end
  end.

(** The loop over the fields of an input object; the entries of the value are
    given with their coercion. *)
Fixpoint coerce_input_fields (path : Path) (definitions : list (nat * InputValueDefinition))
    (fields : list (string * (TypeRecord → Path → VM V))) (buffer : list (nat * V))
    : VM (list (string * (TypeRecord → Path → VM V)) * list (nat * V)) :=
  match definitions with
  | [] => mret (fields, buffer)
  | (id, input_field) :: definitions =>
      match swap_remove (iv_name input_field) fields with
      | (None, fields) =>
          match default_value_id input_field with
          | Some default_value_id =>
              coerce_input_fields path definitions fields (buffer ++ [(id, VIDefaultValue default_value_id)])
          | None =>
              if is_required (wrapping (iv_ty input_field)) then
                expected ← cm_lift (type_text schema (iv_ty input_field));
                cm_fail (UnexpectedNull expected (value_path_to_string path) location)
              else coerce_input_fields path definitions fields buffer
          end
      | (Some coerce, fields) =>
          value ← coerce (iv_ty input_field) (path ++ [FieldSegment (iv_name input_field)]);
          coerce_input_fields path definitions fields (buffer ++ [(id, value)])
      end
  end.
Definition coerce_input_object (input_object : string * (nat * nat)) (path : Path)
    (fields : list (string * (TypeRecord → Path → VM V))) : VM V :=
  definitions ← cm_lift (walk_range (input_value_definitions schema) input_object.2);
  '(rest, fields_buffer) ← coerce_input_fields path definitions fields [];
  match rest with
  | (name, _) :: _ => cm_fail (UnknownInputField input_object.1 name location (value_path_to_string path))
  | [] => ids ← cm_state (append_input_object fields_buffer); mret (VIInputObject ids)
  end.
(** [coerce_named_type]; [fields] are the entries of an object with their coercion. *)
Definition coerce_named_type (value : ConstValue) (fields : list (string * (TypeRecord → Path → VM V)))
    (ty : TypeRecord) (path : Path) : VM V :=
  match value with
  | CNull =>
      if is_required (wrapping ty) then
        expected ← cm_lift (type_text schema ty);
        cm_fail (UnexpectedNull expected (value_path_to_string path) location)
      else mret VINull
  | _ =>
      match definition_id ty with
      | DefScalar scalar => scalar ← cm_lift (at_index (scalar_definitions schema) scalar); coerce_scalar scalar path value
      | DefEnum enum => enum ← cm_lift (at_index (enum_definitions schema) enum); coerce_enum enum path value
      | DefInputObject input_object =>
          input_object ← cm_lift (at_index (input_object_definitions schema) input_object);
          match value with
          | CObject _ => coerce_input_object input_object path fields
          | value => cm_fail (MissingObject input_object.1 (value_kind value) (value_path_to_string path) location)
          end
      | _ => cm_lift (Panic "Cannot be an output type.")
      end
  end.
(** The loop that wraps a value in one list per wrapping. *)
Fixpoint wrap_in_lists (n : nat) (value : V) : VM V :=
  match n with
  | O => mret value
  | S n =>
      id ← cm_state (push_value value);
      ids ← cm_lift (range_from_single id);
      wrap_in_lists n (VIList ids)
  end.
(** [coerce_input_value] (for [nested = false]) and [coerce_list]. *)
Fixpoint coerce (value : ConstValue) (nested : bool) (ty : TypeRecord) (path : Path) {struct value} : VM V :=
  let fields :=
    match value with
    | CObject entries => (λ e, (e.1, λ ty path, coerce e.2 false ty path)) <$> entries
    | _ => []
    end in
  if negb nested && is_list (wrapping ty) && match value with CList _ | CNull => false | _ => true end then
    value ← coerce_named_type value fields ty path;
    wrap_in_lists (length (list_wrappings (wrapping ty))) value
  else
    match pop_list_wrapping (wrapping ty) with
    | (None, w) => coerce_named_type value fields (MkType (definition_id ty) w) path
    | (Some list_wrapping, w) =>
        let item_ty := MkType (definition_id ty) w in
        let expected := ty ← type_wrapped_by item_ty list_wrapping; type_text schema ty in
        match value, list_wrapping with
        | CNull, RequiredList =>
            expected ← cm_lift expected; cm_fail (UnexpectedNull expected (value_path_to_string path) location)
        | CNull, NullableList => mret VINull
        | CList array, _ =>
            ids ← cm_state (reserve_list VINull (length array));
            _ ← fill_list (λ idx value, coerce value true item_ty (path ++ [IndexSegment idx])) array ids.1 0;
            mret (VIList ids)
        | value, _ =>
            expected ← cm_lift expected;
            cm_fail (MissingList (value_kind value) expected (value_path_to_string path) location)
        end
    end.
Definition coerce_input_value (ty : TypeRecord) (value : ConstValue) (path : Path) : VM V := coerce value false ty path.
Definition coerce_list (ty : TypeRecord) (value : ConstValue) (path : Path) : VM V := coerce value true ty path.
End variable_coercion.

Record VariableDefinition := MkVariableDefinition {
  vd_name : string;
  name_location : Location;
  vd_default_value : option nat;
  in_use : bool;
  vd_ty : TypeRecord;
}.
Definition coerce_variable (number_text : CNumber → string) (schema : ESchema) (definition : VariableDefinition)
    (value : ConstValue) : CM VariableInputValues nat :=
  value ← coerce_input_value number_text schema (name_location definition) (vd_ty definition) value [];
  cm_state (push_value value).

(** Reading a value, [From<VariableInputValueWalker> for InputValue]. *)
Section read.
Context (schema : ESchema) (s : VariableInputValues).
Definition range_of {A} (l : list A) (range : nat * nat) : res (list A) :=
  if decide (range.1 ≤ range.2 ≤ length l)%nat then Ret (take (range.2 - range.1) (drop range.1 l))
  else Panic "range out of bounds".
Fixpoint to_input_value (fuel : nat) (value : VariableInputValue) : res InputValue :=
  match fuel with
  | O => Panic "out of fuel"
  | S fuel =>
      match value with
      | VINull => Ret INull
      | VIString s => Ret (IString s)
      | VIEnumValue id => Ret (IEnumValue id)
      | VIInt n => Ret (IInt n)
      | VIBigInt n => Ret (IBigInt n)
      | VIFloat f => Ret (IFloat f)
      | VIBoolean b => Ret (IBoolean b)
      | VIInputObject ids =>
          entries ← range_of (input_fields s) ids;
          fields ← mapM_res (λ e, v ← to_input_value fuel e.2; Ret (e.1, v)) entries;
          Ret (IInputObject fields)
      | VIList ids =>
          items ← mapM_res (λ i, v ← at_index (values s) i; to_input_value fuel v) (seq ids.1 (ids.2 - ids.1));
          Ret (IList items)
      | VIMap ids =>
          entries ← range_of (key_values s) ids;
          fields ← mapM_res (λ e, v ← to_input_value fuel e.2; Ret (e.1, v)) entries;
          Ret (IMap fields)
      | VIU64 n => Ret (IU64 n)
      | VIDefaultValue id => at_index (default_input_values schema) id
      end
  end.
End read.

(** ** [bind_variables] *)
Inductive VariableError :=
| MissingVariable (name : string) (location : Location)
| InvalidValue (name : string) (err : InputValueError).
Inductive VariableValue := Undefined | InputValueId (id : nat).
Record Variables := MkVariables { var_input_values : VariableInputValues; definition_to_value : list VariableValue }.
(** The loop over the variables: what is left of the request's variables, the
    values so far and the errors. *)
Fixpoint bind_variables_loop (number_text : CNumber → string) (schema : ESchema) (variable_id : nat)
    (definitions : list VariableDefinition) (request_variables : gmap string ConstValue) (variables : Variables)
    (errors : list VariableError) : res (Variables * list VariableError) :=
  match definitions with
  | [] => Ret (variables, errors)
  | definition :: definitions =>
      match request_variables !! vd_name definition with
      | Some value =>
          let request_variables := <[vd_name definition := CNull]> request_variables in
          r ← coerce_variable number_text schema definition value (var_input_values variables);
          match r.2 with
          | inr id =>
              bind_variables_loop number_text schema (S variable_id) definitions request_variables
                (MkVariables r.1 (<[variable_id := InputValueId id]> (definition_to_value variables))) errors
          | inl err =>
              bind_variables_loop number_text schema (S variable_id) definitions request_variables
                (MkVariables r.1 (definition_to_value variables)) (errors ++ [InvalidValue (vd_name definition) err])
          end
      | None =>
          bind_variables_loop number_text schema (S variable_id) definitions request_variables variables
            (if bool_decide (vd_default_value definition = None) && is_required (wrapping (vd_ty definition)) then
               errors ++ [MissingVariable (vd_name definition) (name_location definition)]
             else errors)
      end
  end.
Definition bind_variables (number_text : CNumber → string) (schema : ESchema) (variable_definitions : list VariableDefinition)
    (request_variables : gmap string ConstValue) : res (list VariableError + Variables) :=
  '(variables, errors) ←
    bind_variables_loop number_text schema 0 variable_definitions request_variables
      (MkVariables store_default (replicate (length variable_definitions) Undefined)) [];
  Ret (match errors with [] => inr variables | _ => inl errors end).

(** ** [coercion/query.rs] *)
Inductive QueryInputValue :=
| QINull
| QIString (s : string)
| QIEnumValue (id : nat)
| QIInt (n : Z)
| QIBigInt (n : Z)
| QIFloat (f : spec_float)
| QIBoolean (b : bool)
| QIInputObject (ids : nat * nat)
| QIList (ids : nat * nat)
| QIMap (ids : nat * nat)
| QIU64 (n : Z)
| QIUnboundEnumValue (s : string)
| QIDefaultValue (id : nat)
| QIVariable (id : nat).
Abbreviation QueryInputValues := (Store QueryInputValue).
(** The part of the [Binder] that coercion reads and writes. *)
Record Binder := MkBinder { variable_definitions : list VariableDefinition; query_input_values : QueryInputValues }.
Definition on_store {A} (f : QueryInputValues → res (A * QueryInputValues)) : CM Binder A :=
  cm_state (λ b, r ← f (query_input_values b); Ret (r.1, MkBinder (variable_definitions b) r.2)).
Definition set_in_use (v : VariableDefinition) : VariableDefinition :=
  MkVariableDefinition (vd_name v) (name_location v) (vd_default_value v) true (vd_ty v).

Section query_coercion.
Context (number_text : CNumber → string) (schema : ESchema) (location : Location) (is_default_value : bool).
Abbreviation QM := (CM Binder).
Abbreviation Path := (list ValuePathSegment).

Definition variable_ref (name : string) (ty : TypeRecord) (path : Path) : QM QueryInputValue := λ b,
  if is_default_value then
    Ret (b, inl (VariableDefaultValueReliesOnAnotherVariable name location (value_path_to_string path)))
  else
    match list_find (λ v, vd_name v = name) (variable_definitions b) with
    | None => Ret (b, inl (UnknownVariable name location (value_path_to_string path)))
    | Some (id, variable) =>
        if is_compatible_with (vd_ty variable) ty then
          _ ← id_from_width 16 id;
          Ret (MkBinder (<[id := set_in_use variable]> (variable_definitions b)) (query_input_values b), inr (QIVariable id))
        else
          variable_ty ← type_text schema (vd_ty variable);
          actual_ty ← type_text schema ty;
          Ret (b, inl (IncorrectVariableType name variable_ty actual_ty location (value_path_to_string path)))
    end.
Definition q_fill_list (coerce : nat → QValue → QM QueryInputValue) : list QValue → nat → nat → QM () :=
  fix go items id idx :=
    match items with
    | [] => mret ()
    | value :: items =>
        value ← coerce idx value;
        _ ← on_store (λ s, s ← set_value id value s; Ret ((), s));
        go items (S id) (S idx)
    end.
Definition q_fill_map (coerce : QValue → QM QueryInputValue) : list (string * QValue) → nat → QM () :=
  fix go entries id :=
    match entries with
    | [] => mret ()
    | e :: entries =>
        value ← coerce e.2;
        _ ← on_store (λ s, s ← set_key_value id (e.1, value) s; Ret ((), s));
        go entries (S id)
    end.
Fixpoint q_coerce_json (scalar : string * ScalarType) (path : Path) (value : QValue) {struct value} : QM QueryInputValue :=
  match value with
  | QNull => mret QINull
  | QNumberValue n =>
      match as_f64 n with
      | Some f => mret (QIFloat f)
      | None =>
          match as_i64 n with
          | Some n => mret (QIBigInt n)
          | None => n ← cm_lift (unwrap (as_u64 n)); mret (QIU64 n)
          end
      end
  | QString s => mret (QIString s)
  | QBoolean b => mret (QIBoolean b)
  | QList array =>
      ids ← on_store (reserve_list QINull (length array));
      _ ← q_fill_list (λ _, q_coerce_json scalar path) array ids.1 0;
      mret (QIList ids)
  | QObject fields =>
      ids ← on_store (reserve_map QINull (length fields));
      _ ← q_fill_map (q_coerce_json scalar path) fields ids.1;
      mret (QIMap ids)
  | other => kind ← cm_lift (query_value_kind other); incorrect_type location kind scalar path
  end.
Definition q_coerce_scalar (id : nat) (scalar : string * ScalarType) (path : Path) (value : QValue) : QM QueryInputValue :=
  match value, scalar.2 with
  | value, SJSON => q_coerce_json scalar path value
  | QNumberValue number, SInt =>
      match as_i64 number ≫= i32_try_from with
      | Some value => mret (QIInt value)
      | None => incorrect_value number_text location number scalar path
      end
  | QNumberValue number, SBigInt =>
      match as_i64 number with
      | Some value => mret (QIBigInt value)
      | None => incorrect_value number_text location number scalar path
      end
  | QNumberValue number, SFloat =>
      match as_f64 number with
      | Some value => mret (QIFloat value)
      | None => incorrect_value number_text location number scalar path
      end
  | QString value, SString => mret (QIString value)
  | QBoolean value, SBoolean => mret (QIBoolean value)
  | QBinary, _ => cm_lift (Panic "Parser doesn't generate bytes, nor do variables.")
  | QVariable name, _ => variable_ref name (MkType (DefScalar id) nullable) path
  | actual, _ => kind ← cm_lift (query_value_kind actual); incorrect_type location kind scalar path
  end.
Definition q_coerce_enum (enum : string * (nat * nat)) (path : Path) (value : QValue) : QM QueryInputValue :=
  match value with
  | QEnum name =>
      id ← cm_lift (find_value_by_name schema enum.2 name);
      match id with
      | Some id => mret (QIEnumValue id)
      | None => cm_fail (UnknownEnumValue enum.1 name (value_path_to_string path) location)
      end
  | value =>
      actual ← cm_lift (query_value_kind value);
      cm_fail (IncorrectEnumValueType enum.1 actual (value_path_to_string path) location)
  end.
Fixpoint q_coerce_input_fields (path : Path) (definitions : list (nat * InputValueDefinition))
    (fields : list (string * (TypeRecord → Path → QM QueryInputValue))) (buffer : list (nat * QueryInputValue))
    : QM (list (string * (TypeRecord → Path → QM QueryInputValue)) * list (nat * QueryInputValue)) :=
  match definitions with
  | [] => mret (fields, buffer)
  | (id, input_field) :: definitions =>
      match swap_remove (iv_name input_field) fields with
      | (None, fields) =>
          match default_value_id input_field with
          | Some default_value_id =>
              q_coerce_input_fields path definitions fields (buffer ++ [(id, QIDefaultValue default_value_id)])
          | None =>
              if is_required (wrapping (iv_ty input_field)) then
                expected ← cm_lift (type_text schema (iv_ty input_field));
                cm_fail (UnexpectedNull expected (value_path_to_string path) location)
              else q_coerce_input_fields path definitions fields buffer
          end
      | (Some coerce, fields) =>
          value ← coerce (iv_ty input_field) (path ++ [FieldSegment (iv_name input_field)]);
          q_coerce_input_fields path definitions fields (buffer ++ [(id, value)])
      end
  end.
Definition q_coerce_input_object (input_object : string * (nat * nat)) (path : Path)
    (fields : list (string * (TypeRecord → Path → QM QueryInputValue))) : QM QueryInputValue :=
  definitions ← cm_lift (walk_range (input_value_definitions schema) input_object.2);
  '(rest, fields_buffer) ← q_coerce_input_fields path definitions fields [];
  match rest with
  | (name, _) :: _ => cm_fail (UnknownInputField input_object.1 name location (value_path_to_string path))
  | [] => ids ← on_store (append_input_object fields_buffer); mret (QIInputObject ids)
  end.
Definition q_coerce_named_type (value : QValue) (fields : list (string * (TypeRecord → Path → QM QueryInputValue)))
    (ty : TypeRecord) (path : Path) : QM QueryInputValue :=
  match value with
  | QVariable name => variable_ref name ty path
  | QNull =>
      if is_required (wrapping ty) then
        expected ← cm_lift (type_text schema ty);
        cm_fail (UnexpectedNull expected (value_path_to_string path) location)
      else mret QINull
  | _ =>
      match definition_id ty with
      | DefScalar id => scalar ← cm_lift (at_index (scalar_definitions schema) id); q_coerce_scalar id scalar path value
      | DefEnum enum => enum ← cm_lift (at_index (enum_definitions schema) enum); q_coerce_enum enum path value
      | DefInputObject input_object =>
          input_object ← cm_lift (at_index (input_object_definitions schema) input_object);
          match value with
          | QObject _ => q_coerce_input_object input_object path fields
          | value =>
              actual ← cm_lift (query_value_kind value);
              cm_fail (MissingObject input_object.1 actual (value_path_to_string path) location)
          end
      | _ => cm_lift (Panic "Cannot be an output type.")
      end
  end.
Fixpoint q_wrap_in_lists (n : nat) (value : QueryInputValue) : QM QueryInputValue :=
  match n with
  | O => mret value
  | S n =>
      id ← on_store (push_value value);
      ids ← cm_lift (range_from_single id);
      q_wrap_in_lists n (QIList ids)
  end.
(** [coerce_input_value] (for [nested = false]) and [coerce_wrapped_value]. *)
Fixpoint q_coerce (value : QValue) (nested : bool) (ty : TypeRecord) (path : Path) {struct value} : QM QueryInputValue :=
  let fields :=
    match value with
    | QObject entries => (λ e, (e.1, λ ty path, q_coerce e.2 false ty path)) <$> entries
    | _ => []
    end in
  if negb nested && is_list (wrapping ty) && match value with QList _ | QNull | QVariable _ => false | _ => true end then
    value ← q_coerce_named_type value fields ty path;
    q_wrap_in_lists (length (list_wrappings (wrapping ty))) value
  else
    match value with
    | QVariable name => variable_ref name ty path
    | _ =>
        match pop_list_wrapping (wrapping ty) with
        | (None, w) => q_coerce_named_type value fields (MkType (definition_id ty) w) path
        | (Some list_wrapping, w) =>
            let item_ty := MkType (definition_id ty) w in
            let expected := ty ← type_wrapped_by item_ty list_wrapping; type_text schema ty in
            match value, list_wrapping with
            | QNull, RequiredList =>
                expected ← cm_lift expected; cm_fail (UnexpectedNull expected (value_path_to_string path) location)
            | QNull, NullableList => mret QINull
            | QList array, _ =>
                ids ← on_store (reserve_list QINull (length array));
                _ ← q_fill_list (λ idx value, q_coerce value true item_ty (path ++ [IndexSegment idx])) array ids.1 0;
                mret (QIList ids)
            | value, _ =>
                actual ← cm_lift (query_value_kind value);
                expected ← cm_lift expected;
                cm_fail (MissingList actual expected (value_path_to_string path) location)
            end
        end
    end.
Definition coerce_query_value (ty : TypeRecord) (value : QValue) : QM nat :=
  value ← q_coerce value false ty [];
  on_store (push_value value).
End query_coercion.
Definition coerce_variable_default_value (number_text : CNumber → string) (schema : ESchema) (location : Location)
    (ty : TypeRecord) (value : ConstValue) : CM Binder nat :=
  coerce_query_value number_text schema location true ty (value_of_const value).

(** ** [bind/variables.rs] and the arguments of [bind/field.rs] *)
Record Pos := MkPos { pos_line : nat; pos_column : nat }.
(** The errors of binding that the code below returns. *)
Inductive BindError :=
| UnknownType (name : string) (location : Location)
| InvalidVariableType (name ty : string) (location : Location)
| DuplicateVariable (name : string) (location : Location)
| UnusedVariable (name : string) (operation : option string) (location : Location)
| QueryTooBig (message : string)
| InvalidInputValue (err : InputValueError)
| MissingArgument (field name : string) (location : Location)
| UnknownArgument (field_name argument_name : string) (location : Location).
Definition location_try_from (pos : Pos) : BindError + Location :=
  if decide (Z.of_nat (pos_line pos) < 2 ^ 16) then
    if decide (Z.of_nat (pos_column pos) < 2 ^ 16) then inr (MkLocation (Z.of_nat (pos_line pos)) (Z.of_nat (pos_column pos)))
    else inl (QueryTooBig ("Too many columns (" +:+ pretty (pos_column pos) +:+ ")"))
  else inl (QueryTooBig ("Too many lines (" +:+ pretty (pos_line pos) +:+ ")")).

(** Results of binding: a panic, an error or a value. *)
Definition BR (A : Type) : Type := res (BindError + A).
Global Instance br_ret : MRet BR := λ A x, Ret (inr x).
Global Instance br_bind : MBind BR := λ A B f m,
  match m with
  | Panic msg => Panic msg
  | Ret (inl e) => Ret (inl e)
  | Ret (inr x) => f x
  end.
Definition br_lift {A} (m : res A) : BR A := match m with Panic msg => Panic msg | Ret x => Ret (inr x) end.
Definition br_try {A} (r : BindError + A) : BR A := Ret r.
(** Coercion in binding: the error is [InvalidInputValue]. *)
Definition br_coerce {A} (m : CM Binder A) (b : Binder) : BR (A * Binder) :=
  match m b with
  | Panic msg => Panic msg
  | Ret (_, inl e) => Ret (inl (InvalidInputValue e))
  | Ret (b, inr x) => Ret (inr (x, b))
  end.

(** The type of a variable: a name or a list, and whether it is nullable. *)
Inductive PType := PNamed (name : string) (is_nullable : bool) | PList (inner : PType) (is_nullable : bool).
Record PVariable := MkPVariable {
  pv_name : string;
  pv_name_pos : Pos;
  pv_type : PType;
  pv_type_pos : Pos;
  pv_default : option ConstValue;
}.
(** A binary search by name; the names are read while it runs. *)
Definition definition_by_name (schema : ESchema) (name : string) : res (option DefinitionId) :=
  names ← mapM_res (definition_name schema) (type_definitions_ordered_by_name schema);
  match binary_search name names with
  | inl i => id ← at_index (type_definitions_ordered_by_name schema) i; Ret (Some id)
  | inr _ => Ret None
  end.
Fixpoint convert_type (schema : ESchema) (variable_name : string) (location : Location) (ty : PType) : BR TypeRecord :=
  match ty with
  | PNamed type_name is_nullable =>
      definition ← br_lift (definition_by_name schema type_name);
      match definition with
      | None => br_try (inl (UnknownType type_name location))
      | Some definition =>
          match definition with
          | DefEnum _ | DefScalar _ | DefInputObject _ => mret (MkType definition (new (negb is_nullable)))
          | _ =>
              ty ← br_lift (definition_name schema definition);
              br_try (inl (InvalidVariableType variable_name ty location))
          end
      end
  | PList nested is_nullable =>
      ty ← convert_type schema variable_name location nested;
      w ← br_lift (if is_nullable then wrapped_by_nullable_list (wrapping ty) else wrapped_by_required_list (wrapping ty));
      mret (MkType (definition_id ty) w)
  end.
(** The type that a variable with a default value that is not null gets. *)
Definition type_with_default (ty : TypeRecord) : res TypeRecord :=
  w ← (if is_list (wrapping ty) then wrapped_by_required_list (wrapping ty) else Ret (new true));
  Ret (MkType (definition_id ty) w).
Definition bind_variable_definition (number_text : CNumber → string) (schema : ESchema) (b : Binder) (seen_names : list string)
    (node : PVariable) : BR (VariableDefinition * Binder) :=
  name_location ← br_try (location_try_from (pv_name_pos node));
  if decide (pv_name node ∈ seen_names) then br_try (inl (DuplicateVariable (pv_name node) name_location))
  else
    type_location ← br_try (location_try_from (pv_type_pos node));
    ty ← convert_type schema (pv_name node) type_location (pv_type node);
    ty ← br_lift (match pv_default node with
                  | None | Some CNull => Ret ty
                  | Some _ => type_with_default ty
                  end);
    match pv_default node with
    | None => mret (MkVariableDefinition (pv_name node) name_location None false ty, b)
    | Some value =>
        '(id, b) ← br_coerce (coerce_variable_default_value number_text schema name_location ty value) b;
        mret (MkVariableDefinition (pv_name node) name_location (Some id) false ty, b)
    end.
Fixpoint bind_variable_definitions_loop (number_text : CNumber → string) (schema : ESchema) (b : Binder)
    (seen_names : list string) (bound_variables : list VariableDefinition) (variables : list PVariable)
    : BR (list VariableDefinition * Binder) :=
  match variables with
  | [] => mret (bound_variables, b)
  | node :: variables =>
      '(bound, b) ← bind_variable_definition number_text schema b seen_names node;
      bind_variable_definitions_loop number_text schema b (pv_name node :: seen_names) (bound_variables ++ [bound]) variables
  end.
Definition bind_variable_definitions (number_text : CNumber → string) (schema : ESchema) (b : Binder)
    (variables : list PVariable) : BR (list VariableDefinition * Binder) :=
  bind_variable_definitions_loop number_text schema b [] [] variables.
Definition validate_all_variables_used (operation_name : option string) (b : Binder) : BindError + () :=
  match list_find (λ v, in_use v = false) (variable_definitions b) with
  | Some (_, variable) => inl (UnusedVariable (vd_name variable) operation_name (name_location variable))
  | None => inr ()
  end.

Record FieldDefinition := MkFieldDefinition { fd_name : string; parent_entity : string; argument_ids : nat * nat }.
Record FieldArgument := MkFieldArgument {
  fa_name_location : option Location;
  fa_value_location : option Location;
  input_value_definition_id : nat;
  input_value_id : nat;
}.
Record PArgument := MkPArgument { pa_name : string; pa_name_pos : Pos; pa_value : QValue; pa_value_pos : Pos }.
(** The loop over the arguments of the definition: the arguments of the field
    that are left, those that are bound. *)
Fixpoint bind_arguments_loop (number_text : CNumber → string) (schema : ESchema) (definition : FieldDefinition)
    (location : Location) (definitions : list (nat * InputValueDefinition)) (arguments : list PArgument)
    (bound : list FieldArgument) (b : Binder) : BR (list PArgument * list FieldArgument * Binder) :=
  match definitions with
  | [] => mret (arguments, bound, b)
  | (id, argument_def) :: definitions =>
      match list_find (λ a, pa_name a = iv_name argument_def) arguments with
      | Some (index, argument) =>
          name_location ← br_try (location_try_from (pa_name_pos argument));
          value_location ← br_try (location_try_from (pa_value_pos argument));
          '(value_id, b) ←
            br_coerce (coerce_query_value number_text schema value_location false (iv_ty argument_def) (pa_value argument)) b;
          bind_arguments_loop number_text schema definition location definitions (swap_remove_at index arguments)
            (bound ++ [MkFieldArgument (Some name_location) (Some value_location) id value_id]) b
      | None =>
          match default_value_id argument_def with
          | Some default_id =>
              '(value_id, store) ← br_lift (push_value (QIDefaultValue default_id) (query_input_values b));
              bind_arguments_loop number_text schema definition location definitions arguments
                (bound ++ [MkFieldArgument None None id value_id]) (MkBinder (variable_definitions b) store)
          | None =>
              if is_required (wrapping (iv_ty argument_def)) then
                br_try (inl (MissingArgument (fd_name definition) (iv_name argument_def) location))
              else bind_arguments_loop number_text schema definition location definitions arguments bound b
          end
      end
  end.
(** The map from locations to arguments that were bound before is never written. *)
Definition bind_field_arguments (number_text : CNumber → string) (schema : ESchema) (definition : FieldDefinition)
    (location : Location) (arguments : list PArgument) (field_arguments : list FieldArgument) (b : Binder)
    : BR ((nat * nat) * list FieldArgument * Binder) :=
  definitions ← br_lift (walk_range (input_value_definitions schema) (argument_ids definition));
  '(rest, bound, b) ← bind_arguments_loop number_text schema definition location definitions arguments field_arguments b;
  match rest with
  | argument :: _ =>
      br_try (inl (UnknownArgument (parent_entity definition +:+ "." +:+ fd_name definition) (pa_name argument) location))
  | [] =>
      start ← br_lift (id_from_width 16 (length field_arguments));
      end_ ← br_lift (id_from_width 16 (length bound));
      mret ((start, end_), bound, b)
  end.
