(* ===== verification/EngineCoerceProps.v ===== *)
(** * [engine-v2]: what coercion returns

    The rules of the GraphQL specification for input values as a function on
    trees ([spec]), the reading of a store ([reads]), and that the coercion of
    [EngineCoerce.v] implements the one on the other. *)
From Stdlib Require Import ZArith SpecFloat.
From S2P Require Import Prelude RustStd Wrapping IdNewtypes EngineCoerce.
Local Open Scope string_scope.
Local Open Scope list_scope.
Local Open Scope nat_scope.

(** ** Input coercion in the specification *)

(** A type: its name, whether that is required, and its lists, outermost first. *)
Record SType := MkSType { st_definition : DefinitionId; st_inner : bool; st_lists : list ListWrapping }.
Definition stype (ty : TypeRecord) : SType :=
  MkSType (definition_id ty) (a_inner (abs (wrapping ty))) (reverse (a_lists (abs (wrapping ty)))).
Definition st_required (st : SType) : bool :=
  match st_lists st with [] => st_inner st | l :: _ => bool_decide (l = RequiredList) end.
Fixpoint all_some {A} (l : list (option A)) : option (list A) :=
  match l with
  | [] => Some []
  | x :: l => x ← x; l ← all_some l; Some (x :: l)
  end.
Definition spec_number (n : CNumber) : option InputValue :=
  match as_f64 n, as_i64 n, as_u64 n with
  | Some f, _, _ => Some (IFloat f)
  | None, Some n, _ => Some (IBigInt n)
  | None, None, Some n => Some (IU64 n)
  | None, None, None => None
  end.
Fixpoint spec_json (v : ConstValue) : option InputValue :=
  match v with
  | CNull => Some INull
  | CNumberValue n => spec_number n
  | CString s => Some (IString s)
  | CBoolean b => Some (IBoolean b)
  | CList items => IList <$> all_some (spec_json <$> items)
  | CObject entries => IMap <$> all_some ((λ e, (λ t, (e.1, t)) <$> spec_json e.2) <$> entries)
  | CBinary | CEnum _ => None
  end.
Definition spec_scalar (ty : ScalarType) (v : ConstValue) : option InputValue :=
  match ty, v with
  | SJSON, v => spec_json v
  | SInt, CNumberValue n => n ← as_i64 n; if decide (- 2 ^ 31 ≤ n < 2 ^ 31)%Z then Some (IInt n) else None
  | SBigInt, CNumberValue n => IBigInt <$> as_i64 n
  | SFloat, CNumberValue n => IFloat <$> as_f64 n
  | SString, CString s => Some (IString s)
  | SBoolean, CBoolean b => Some (IBoolean b)
  | _, _ => None
  end.
Definition assoc {A} (key : string) (l : list (string * A)) : option A := (λ e, e.2.2) <$> list_find (λ e, e.1 = key) l.
Definition in_lists (n : nat) (t : InputValue) : InputValue := Nat.iter n (λ t, IList [t]) t.

Section spec.
Context (schema : ESchema).
Definition spec_enum (range : nat * nat) (name : string) : option InputValue :=
  (λ e, IEnumValue e.2) <$> list_find (λ i, enum_values schema !! i = Some name) (seq range.1 (range.2 - range.1)).
(** The fields of an input object, with their ids. *)
Definition definitions_in (range : nat * nat) : list (nat * InputValueDefinition) :=
  omap (λ i, pair i <$> input_value_definitions schema !! i) (seq range.1 (range.2 - range.1)).
(** A field is what is given, or else its default value, or else absent. *)
Definition spec_field (fields : list (string * (SType → option InputValue))) (d : nat * InputValueDefinition)
    : option (list (nat * InputValue)) :=
  match assoc (iv_name d.2) fields with
  | Some f => (λ t, [(d.1, t)]) <$> f (stype (iv_ty d.2))
  | None =>
      match default_value_id d.2 with
      | Some id => (λ t, [(d.1, t)]) <$> default_input_values schema !! id
      | None => if st_required (stype (iv_ty d.2)) then None else Some []
      end
  end.
Definition spec_object (range : nat * nat) (fields : list (string * (SType → option InputValue))) : option InputValue :=
  if forallb (λ e, bool_decide (e.1 ∈ (λ d, iv_name d.2) <$> definitions_in range)) fields then
    (λ fs, IInputObject (concat fs)) <$> all_some (spec_field fields <$> definitions_in range)
  else None.
Definition spec_named (v : ConstValue) (fields : list (string * (SType → option InputValue))) (st : SType) : option InputValue :=
  match v with
  | CNull => if st_required st then None else Some INull
  | _ =>
      match st_definition st with
      | DefScalar id => s ← scalar_definitions schema !! id; spec_scalar s.2 v
      | DefEnum id =>
          e ← enum_definitions schema !! id;
          match v with CEnum name | CString name => spec_enum e.2 name | _ => None end
      | DefInputObject id =>
          o ← input_object_definitions schema !! id;
          match v with CObject _ => spec_object o.2 fields | _ => None end
      | _ => None
      end
  end.
(** A value that is not a list is a list of one item, but not in a list. *)
Fixpoint spec (v : ConstValue) (nested : bool) (st : SType) : option InputValue :=
  let fields := match v with CObject entries => (λ e, (e.1, λ st, spec e.2 false st)) <$> entries | _ => [] end in
  match st_lists st with
  | [] => spec_named v fields st
  | l :: lists =>
      match v with
      | CNull => if decide (l = RequiredList) then None else Some INull
      | CList items => IList <$> all_some ((λ i, spec i true (MkSType (st_definition st) (st_inner st) lists)) <$> items)
      | _ => if nested then None else in_lists (S (length lists)) <$> spec_named v fields st
      end
  end.

(** ** Reading a store *)

(** [P] holds of the cells from [i] on and the trees. *)
Definition cells {T} (P : nat → T → Prop) : list T → nat → Prop :=
  fix go ts i := match ts with [] => True | t :: ts => P i t ∧ go ts (S i) end.
(** Sizes of the three vectors: a value that was written after others refers
    to cells behind them only. *)
Record Sizes := MkSizes { sz_values : nat; sz_fields : nat; sz_keys : nat }.
Definition sizes (s : VariableInputValues) : Sizes :=
  MkSizes (length (values s)) (length (input_fields s)) (length (key_values s)).
Fixpoint reads (b : Sizes) (s : VariableInputValues) (t : InputValue) (v : VariableInputValue) : Prop :=
  (∃ id, v = VIDefaultValue id ∧ default_input_values schema !! id = Some t) ∨
  match t with
  | INull => v = VINull
  | IString x => v = VIString x
  | IEnumValue id => v = VIEnumValue id
  | IInt n => v = VIInt n
  | IBigInt n => v = VIBigInt n
  | IFloat f => v = VIFloat f
  | IBoolean x => v = VIBoolean x
  | IU64 n => v = VIU64 n
  | IUnboundEnumValue _ => False
  | IList ts =>
      ∃ i, v = VIList (i, i + length ts) ∧ sz_values b ≤ i ∧
      cells (λ i t, ∃ x, values s !! i = Some x ∧ reads b s t x) ts i
  | IInputObject ts =>
      ∃ i, v = VIInputObject (i, i + length ts) ∧ sz_fields b ≤ i ≤ length (input_fields s) ∧
      cells (λ i t, ∃ x, input_fields s !! i = Some (t.1, x) ∧ reads b s t.2 x) ts i
  | IMap ts =>
      ∃ i, v = VIMap (i, i + length ts) ∧ sz_keys b ≤ i ≤ length (key_values s) ∧
      cells (λ i t, ∃ x, key_values s !! i = Some (t.1, x) ∧ reads b s t.2 x) ts i
  end.
End spec.

(** ** Induction and lists *)
Section const_ind.
Context (P : ConstValue → Prop).
Context (Hnull : P CNull) (Hnumber : ∀ n, P (CNumberValue n)) (Hstring : ∀ s, P (CString s)) (Hbool : ∀ b, P (CBoolean b)).
Context (Hbinary : P CBinary) (Henum : ∀ s, P (CEnum s)).
Context (Hlist : ∀ items, Forall P items → P (CList items)).
Context (Hobject : ∀ entries, Forall (λ e, P e.2) entries → P (CObject entries)).
Fixpoint ConstValue_ind' (v : ConstValue) : P v :=
  match v with
  | CNull => Hnull | CNumberValue n => Hnumber n | CString s => Hstring s | CBoolean b => Hbool b
  | CBinary => Hbinary | CEnum s => Henum s
  | CList items => Hlist items ((fix go l := match l return Forall P l with [] => List.Forall_nil _ | x :: l => List.Forall_cons _ _ _ (ConstValue_ind' x) (go l) end) items)
  | CObject entries => Hobject entries ((fix go l := match l return Forall (λ e, P e.2) l with [] => List.Forall_nil _ | x :: l => List.Forall_cons _ _ _ (ConstValue_ind' x.2) (go l) end) entries)
  end.
End const_ind.
Section input_ind.
Context (P : InputValue → Prop).
Context (Hleaf : ∀ t, match t with IList _ | IInputObject _ | IMap _ => False | _ => True end → P t).
Context (Hlist : ∀ ts, Forall P ts → P (IList ts)).
Context (Hobject : ∀ ts, Forall (λ e, P e.2) ts → P (IInputObject ts)).
Context (Hmap : ∀ ts, Forall (λ e, P e.2) ts → P (IMap ts)).
Fixpoint InputValue_ind' (t : InputValue) : P t :=
  match t with
  | IList ts => Hlist ts ((fix go l := match l return Forall P l with [] => List.Forall_nil _ | x :: l => List.Forall_cons _ _ _ (InputValue_ind' x) (go l) end) ts)
  | IInputObject ts => Hobject ts ((fix go l := match l return Forall (λ e, P e.2) l with [] => List.Forall_nil _ | x :: l => List.Forall_cons _ _ _ (InputValue_ind' x.2) (go l) end) ts)
  | IMap ts => Hmap ts ((fix go l := match l return Forall (λ e, P e.2) l with [] => List.Forall_nil _ | x :: l => List.Forall_cons _ _ _ (InputValue_ind' x.2) (go l) end) ts)
  | t => Hleaf t I
  end.
End input_ind.

Lemma cells_impl {T} (P Q : nat → T → Prop) ts i :
  Forall (λ t, ∀ k, i ≤ k → P k t → Q k t) ts → cells P ts i → cells Q ts i.
Proof.
  revert i. induction ts as [|t ts IH]; intros i Hf; [done|]. apply Forall_cons in Hf as [Ht Hf]. intros [HP Hc]. split; [by apply Ht|].
  apply IH; [|done]. eapply Forall_impl; [done|]. intros t' H k Hk. apply H. lia.
Qed.
Lemma all_some_cons {A} (x : option A) l : all_some (x :: l) = x ← x; l ← all_some l; Some (x :: l).
Proof. done. Qed.
Lemma all_some_length {A} (l : list (option A)) ts : all_some l = Some ts → length ts = length l.
Proof.
  revert ts. induction l as [|[x|] l IH]; intros ts; [intros [= <-]; done| |done]. rewrite all_some_cons. simpl.
  destruct (all_some l) as [ts'|]; [|done]. intros [= <-]. simpl. by rewrite (IH ts').
Qed.

(** ** Stores that grow *)
Lemma prefix_of_lookup {A} (l1 l2 : list A) : (∀ i x, l1 !! i = Some x → l2 !! i = Some x) → l1 `prefix_of` l2.
Proof.
  revert l2. induction l1 as [|x l1 IH]; intros l2 H; [apply prefix_nil|].
  destruct l2 as [|y l2]; [by specialize (H 0 x eq_refl)|]. injection (H 0 x eq_refl) as ->. apply prefix_cons, IH.
  intros i z Hz. by apply (H (S i)).
Qed.
Record frame (b : Sizes) (s s' : VariableInputValues) : Prop := {
  fr_values i x : sz_values b ≤ i → values s !! i = Some x → values s' !! i = Some x;
  fr_fields i x : sz_fields b ≤ i → input_fields s !! i = Some x → input_fields s' !! i = Some x;
  fr_keys i x : sz_keys b ≤ i → key_values s !! i = Some x → key_values s' !! i = Some x;
  fr_length_fields : length (input_fields s) ≤ length (input_fields s');
  fr_length_keys : length (key_values s) ≤ length (key_values s');
}.
Record sizes_le (b b' : Sizes) : Prop := {
  sl_values : sz_values b ≤ sz_values b';
  sl_fields : sz_fields b ≤ sz_fields b';
  sl_keys : sz_keys b ≤ sz_keys b';
}.
Lemma reads_frame schema b b' s s' t v : reads schema b s t v → frame b s s' → sizes_le b' b → reads schema b' s' t v.
Proof.
  intros Hr Hf Hb. revert v Hr. induction t as [t Ht|ts IH|ts IH|ts IH] using InputValue_ind'; intros v.
  - by destruct t.
  - intros [Hd|(i & -> & Hi & Hc)]; [by left|right]. exists i. split; [done|]. split; [destruct Hb, Hf; lia|].
    revert Hc. apply cells_impl. eapply Forall_impl; [exact IH|]. intros t H k Hk (x & Hx & Hr). exists x.
    split; [apply (fr_values _ _ _ Hf); [lia|done]|by apply H].
  - intros [Hd|(i & -> & Hi & Hc)]; [by left|right]. exists i. split; [done|]. split; [destruct Hb, Hf; lia|].
    revert Hc. apply cells_impl. eapply Forall_impl; [exact IH|]. intros t H k Hk (x & Hx & Hr). exists x.
    split; [apply (fr_fields _ _ _ Hf); [lia|done]|by apply H].
  - intros [Hd|(i & -> & Hi & Hc)]; [by left|right]. exists i. split; [done|]. split; [destruct Hb, Hf; lia|].
    revert Hc. apply cells_impl. eapply Forall_impl; [exact IH|]. intros t H k Hk (x & Hx & Hr). exists x.
    split; [apply (fr_keys _ _ _ Hf); [lia|done]|by apply H].
Qed.
(** Nothing that was written changes. *)
Record grew (s s' : VariableInputValues) : Prop := {
  gr_values : values s `prefix_of` values s';
  gr_fields : input_fields s `prefix_of` input_fields s';
  gr_keys : key_values s `prefix_of` key_values s';
}.
Global Instance grew_preorder : PreOrder grew.
Proof. split; [by split|]. intros s1 s2 s3 [] []. by split; etrans. Qed.
Lemma grew_frame b s s' : grew s s' → frame b s s'.
Proof.
  intros [H1 H2 H3]. split; [intros i x _ Hx; by eapply prefix_lookup_Some..| |]; by apply prefix_length.
Qed.
Lemma grew_sizes s s' : grew s s' → sizes_le (sizes s) (sizes s').
Proof. intros [H1 H2 H3]. split; by apply prefix_length. Qed.
Lemma sizes_le_refl b : sizes_le b b.
Proof. by split. Qed.
Definition total (s : VariableInputValues) : nat := length (values s) + length (input_fields s) + length (key_values s).
Definition room (s : VariableInputValues) (n : nat) : Prop := (Z.of_nat (total s + n) < 2 ^ 32 - 1)%Z.

Lemma id_from_small n : (Z.of_nat n < 2 ^ 32 - 1)%Z → id_from n = Ret n.
Proof.
  intros Hn. unfold id_from, id_from_width, derived_from_usize. rewrite decide_True by lia. cbn [max_check mbind res_bind].
  assert (wrap 32 (Z.of_nat n + 1) = Z.of_nat n + 1)%Z as -> by (apply Z.mod_small; lia).
  unfold try_non_zero. rewrite decide_False by lia. cbn [mbind res_bind]. unfold derived_to_usize. cbn [get_inner].
  unfold wrap. rewrite Z.mod_small by lia. do 2 f_equal. lia.
Qed.

(** ** Running code with a state *)
Section run.
Context {S : Type}.
Lemma cm_bind_ok {A B} (m : CM S A) (f : A → CM S B) s s1 x : m s = Ret (s1, inr x) → (m ≫= f) s = f x s1.
Proof. intros E. unfold mbind, cm_bind. by rewrite E. Qed.
Lemma cm_bind_err {A B} (m : CM S A) (f : A → CM S B) s s1 e : m s = Ret (s1, inl e) → (m ≫= f) s = Ret (s1, inl e).
Proof. intros E. unfold mbind, cm_bind. by rewrite E. Qed.
Lemma cm_lift_bind {A B} (m : res A) (f : A → CM S B) s x : m = Ret x → (cm_lift m ≫= f) s = f x s.
Proof. intros E. apply cm_bind_ok. unfold cm_lift. by rewrite E. Qed.
Lemma cm_state_bind {A B} (m : S → res (A * S)) (f : A → CM S B) s s1 x : m s = Ret (x, s1) → (cm_state m ≫= f) s = f x s1.
Proof. intros E. apply cm_bind_ok. unfold cm_state. by rewrite E. Qed.
End run.

(** ** What coercion does to a store *)

(** Code [m] that writes [n] cells at most and whose value reads as [spec]
    says; it fails exactly when there is none. *)
Definition outcome (schema : ESchema) (n : nat) (s : VariableInputValues) (spec : option InputValue)
    (m : CM VariableInputValues VariableInputValue) : Prop :=
  match spec with
  | Some t => ∃ s' x, m s = Ret (s', inr x) ∧ grew s s' ∧ total s' ≤ total s + n ∧ reads schema (sizes s) s' t x
  | None => ∃ s' e, m s = Ret (s', inl e) ∧ total s' ≤ total s + n
  end.
Lemma outcome_weaken schema n n' s spec m : n ≤ n' → outcome schema n s spec m → outcome schema n' s spec m.
Proof.
  intros Hn. destruct spec as [t|]; simpl.
  - intros (s' & x & ? & ? & ? & ?). exists s', x. split_and!; [done|done|lia|done].
  - intros (s' & e & ? & ?). exists s', e. split; [done|lia].
Qed.
(** A value that refers to no cell. *)
Lemma outcome_leaf schema n s t x : (∀ b s, reads schema b s t x) → outcome schema n s (Some t) (mret x).
Proof. intros Hr. exists s, x. split; [done|]. split; [reflexivity|]. split; [lia|apply Hr]. Qed.
Lemma outcome_fail schema n s e : outcome schema n s None (cm_fail e).
Proof. exists s, e. split; [done|lia]. Qed.
Lemma outcome_lift {A} schema n s spec (m : res A) (f : A → CM VariableInputValues VariableInputValue) x :
  m = Ret x → outcome schema n s spec (f x) → outcome schema n s spec (y ← cm_lift m; f y).
Proof. intros E. unfold outcome. by rewrite (cm_lift_bind _ _ _ x E). Qed.
(** A value and what is done with it. *)
Lemma outcome_bind schema n s spec m (f : VariableInputValue → CM VariableInputValues VariableInputValue) (g : InputValue → InputValue) k :
  outcome schema n s spec m →
  (∀ t s1 x, spec = Some t → grew s s1 → total s1 ≤ total s + n → reads schema (sizes s) s1 t x →
    ∃ s' x', f x s1 = Ret (s', inr x') ∧ grew s1 s' ∧ total s' ≤ total s1 + k ∧ reads schema (sizes s) s' (g t) x') →
  outcome schema (n + k) s (g <$> spec) (x ← m; f x).
Proof.
  destruct spec as [t|]; cbn [outcome fmap option_fmap option_map].
  - intros (s1 & x & E & Hg & Ht & Hr) Hf. destruct (Hf t s1 x eq_refl Hg Ht Hr) as (s' & x' & E' & Hg' & Ht' & Hr').
    exists s', x'. split_and!; [by rewrite (cm_bind_ok _ _ _ _ _ E)|by etrans|lia|done].
  - intros (s1 & e & E & Ht) _. exists s1, e. split; [by rewrite (cm_bind_err _ _ _ _ _ E)|lia].
Qed.

(** Overwriting a cell below those that a value refers to. *)
Lemma set_value_frame b s i x :
  i < length (values s) → i < sz_values b →
  set_value i x s = Ret (MkStore (<[i := x]> (values s)) (input_fields s) (key_values s)) ∧
  frame b s (MkStore (<[i := x]> (values s)) (input_fields s) (key_values s)).
Proof.
  intros Hi Hb. split; [unfold set_value; by rewrite decide_True|]. split; simpl; try done.
  intros j y Hj Hy. rewrite list_lookup_insert_ne by lia. done.
Qed.
Lemma set_key_value_frame b s i x :
  i < length (key_values s) → i < sz_keys b →
  set_key_value i x s = Ret (MkStore (values s) (input_fields s) (<[i := x]> (key_values s))) ∧
  frame b s (MkStore (values s) (input_fields s) (<[i := x]> (key_values s))).
Proof.
  intros Hi Hb. split; [unfold set_key_value; by rewrite decide_True|]. split; simpl; try done.
  - intros j y Hj Hy. rewrite list_lookup_insert_ne by lia. done.
  - by rewrite length_insert.
Qed.

(** The loop over a list writes the cells from [id] on, below [bound]. *)
Lemma fill_list_spec schema (f : nat → ConstValue → CM VariableInputValues VariableInputValue) (g : ConstValue → option InputValue)
    (c : ConstValue → nat) bound items :
  (∀ v idx s, v ∈ items → room s (c v) → outcome schema (c v) s (g v) (f idx v)) →
  ∀ idx id s, id + length items ≤ bound → bound ≤ length (values s) → room s (sum_list_with c items) →
  match all_some (g <$> items) with
  | Some ts => ∃ s', fill_list f items id idx s = Ret (s', inr ()) ∧ total s' ≤ total s + sum_list_with c items ∧
      length (values s) ≤ length (values s') ∧
      (∀ i x, i < id ∨ bound ≤ i → values s !! i = Some x → values s' !! i = Some x) ∧
      input_fields s `prefix_of` input_fields s' ∧ key_values s `prefix_of` key_values s' ∧
      cells (λ i t, ∃ x, values s' !! i = Some x ∧
        reads schema (MkSizes bound (length (input_fields s)) (length (key_values s))) s' t x) ts id
  | None => ∃ s' e, fill_list f items id idx s = Ret (s', inl e) ∧ total s' ≤ total s + sum_list_with c items
  end.
Proof.
  induction items as [|v items IH]; intros Hf idx id s Hid Hb Hr.
  { exists s. simpl. split_and!; try done; lia. }
  simpl in Hid, Hr. rewrite fmap_cons, all_some_cons. cbn [fill_list sum_list_with].
  assert (room s (c v)) as Hrv by (unfold room in *; lia).
  pose proof (Hf v idx s ltac:(set_solver) Hrv) as Hv.
  destruct (g v) as [t|]; cbn [mbind option_bind].
  2:{ destruct Hv as (s' & e & E & Ht). exists s', e. split; [by apply cm_bind_err|simpl; lia]. }
  destruct Hv as (s1 & x & E & Hg & Ht & Hrd). rewrite (cm_bind_ok _ _ _ _ _ E). clear E.
  pose proof (grew_sizes _ _ Hg) as [Hl1 Hl2 Hl3]. simpl in Hl1, Hl2, Hl3.
  destruct (set_value_frame (sizes s) s1 id x) as [E Hfr]; [lia|simpl; lia|].
  set (s2 := MkStore (<[id := x]> (values s1)) (input_fields s1) (key_values s1)) in *.
  rewrite (cm_state_bind _ _ s1 s2 ()) by (by rewrite E). clear E. fold (fill_list f).
  assert (total s2 = total s1) as Ht2 by (unfold total, s2; simpl; by rewrite length_insert).
  assert (length (values s2) = length (values s1)) as Hl4 by (unfold s2; simpl; by rewrite length_insert).
  specialize (IH (λ v idx s Hv, Hf v idx s (list_elem_of_further _ _ _ Hv)) (S idx) (S id) s2 ltac:(lia) ltac:(lia)
    ltac:(unfold room in *; lia)).
  destruct (all_some (g <$> items)) as [ts|]; cbn [mbind option_bind].
  2:{ destruct IH as (s' & e & E & Ht'). exists s', e. split; [done|simpl; lia]. }
  destruct IH as (s' & E & Ht' & Hlen & Hval & Hfld & Hkey & Hcells). exists s'.
  destruct Hg as [Hg1 Hg2 Hg3]. simpl in Hfld, Hkey. split; [done|]. split; [simpl; lia|]. split; [lia|].
  split; [|split; [by etrans|split; [by etrans|]]].
  - intros i y Hi Hy. apply Hval; [lia|]. unfold s2. simpl. rewrite list_lookup_insert_ne by lia. by eapply prefix_lookup_Some.
  - split.
    + exists x. split; [apply Hval; [lia|]; unfold s2; simpl; apply list_lookup_insert_eq; lia|].
      eapply reads_frame; [exact Hrd| |split; simpl; lia].
      destruct Hfr as [F1 F2 F3 _ _]. split; simpl in *; [intros i y Hi Hy..| |].
      * apply Hval; [lia|]. by apply F1.
      * eapply prefix_lookup_Some; [|exact Hfld]. done.
      * eapply prefix_lookup_Some; [|exact Hkey]. done.
      * by apply prefix_length.
      * by apply prefix_length.
    + revert Hcells. apply cells_impl. apply Forall_forall. intros t' _ k Hk (y & Hy & Hry). exists y. split; [done|].
      eapply reads_frame; [exact Hry|by apply grew_frame|split; simpl; lia].
Qed.
(** A list: its cells are reserved before its items are coerced. *)
Lemma list_outcome schema f (g : ConstValue → option InputValue) c items s :
  (∀ v idx s, v ∈ items → room s (c v) → outcome schema (c v) s (g v) (f idx v)) →
  room s (length items + sum_list_with c items) →
  outcome schema (length items + sum_list_with c items) s (IList <$> all_some (g <$> items))
    (ids ← cm_state (reserve_list VINull (length items)); _ ← fill_list f items ids.1 0; mret (VIList ids)).
Proof.
  intros Hf Hr. unfold room, total in Hr.
  set (s1 := MkStore (values s ++ replicate (length items) VINull) (input_fields s) (key_values s)).
  assert (length (values s1) = length (values s) + length items) as Hl1 by (unfold s1; simpl; by rewrite length_app, length_replicate).
  assert (reserve_list VINull (length items) s = Ret ((length (values s), length (values s) + length items), s1)) as E.
  { unfold reserve_list, range_from. rewrite length_app, length_replicate, !id_from_small by lia. done. }
  pose proof (fill_list_spec schema f g c (length (values s) + length items) items Hf 0 (length (values s)) s1
    ltac:(lia) ltac:(lia)) as Hfill.
  specialize (Hfill ltac:(unfold room, total; rewrite Hl1; simpl; lia)).
  destruct (all_some (g <$> items)) as [ts|] eqn:Hts; cbn [fmap option_fmap option_map outcome].
  - destruct Hfill as (s' & E' & Ht & Hl & Hval & Hfld & Hkey & Hcells).
    exists s', (VIList (length (values s), length (values s) + length items)).
    apply all_some_length in Hts. rewrite length_fmap in Hts.
    split; [rewrite (cm_state_bind _ _ _ _ _ E); simpl; by rewrite (cm_bind_ok _ _ _ _ _ E')|].
    split; [split; [|done|done]|split].
    + apply prefix_of_lookup. intros i x Hx. pose proof (lookup_lt_Some _ _ _ Hx). apply Hval; [lia|]. unfold s1. simpl.
      by apply lookup_app_l_Some.
    + revert Ht. unfold total. rewrite Hl1. simpl. lia.
    + right. exists (length (values s)). rewrite Hts. split; [done|]. split; [simpl; lia|].
      revert Hcells. apply cells_impl, Forall_forall. intros t _ k _ (x & Hx & Hrx). exists x. split; [done|].
      eapply reads_frame; [exact Hrx|by apply grew_frame|split; simpl; lia].
  - destruct Hfill as (s' & e & E' & Ht). exists s', e.
    split; [rewrite (cm_state_bind _ _ _ _ _ E); simpl; by rewrite (cm_bind_err _ _ _ _ _ E')|].
    revert Ht. unfold total. rewrite Hl1. simpl. lia.
Qed.
(** The same for the entries of a map. *)
Lemma fill_map_spec schema (f : ConstValue → CM VariableInputValues VariableInputValue) (g : ConstValue → option InputValue)
    (c : ConstValue → nat) bound entries :
  (∀ e s, e ∈ entries → room s (c e.2) → outcome schema (c e.2) s (g e.2) (f e.2)) →
  ∀ id s, id + length entries ≤ bound → bound ≤ length (key_values s) → room s (sum_list_with (λ e, c e.2) entries) →
  match all_some ((λ e : string * ConstValue, (λ t, (e.1, t)) <$> g e.2) <$> entries) with
  | Some ts => ∃ s', fill_map f entries id s = Ret (s', inr ()) ∧ total s' ≤ total s + sum_list_with (λ e, c e.2) entries ∧
      length (key_values s) ≤ length (key_values s') ∧
      (∀ i x, i < id ∨ bound ≤ i → key_values s !! i = Some x → key_values s' !! i = Some x) ∧
      values s `prefix_of` values s' ∧ input_fields s `prefix_of` input_fields s' ∧
      cells (λ i t, ∃ x, key_values s' !! i = Some (t.1, x) ∧
        reads schema (MkSizes (length (values s)) (length (input_fields s)) bound) s' t.2 x) ts id
  | None => ∃ s' e, fill_map f entries id s = Ret (s', inl e) ∧ total s' ≤ total s + sum_list_with (λ e, c e.2) entries
  end.
Proof.
  induction entries as [|[k v] entries IH]; intros Hf id s Hid Hb Hr.
  { exists s. simpl. split_and!; try done; lia. }
  simpl in Hid, Hr. rewrite fmap_cons, all_some_cons. cbn [fill_map sum_list_with fst snd].
  assert (room s (c v)) as Hrv by (unfold room in *; lia).
  pose proof (Hf (k, v) s ltac:(set_solver) Hrv) as Hv. cbn [snd] in Hv.
  destruct (g v) as [t|]; cbn [mbind option_bind fmap option_fmap option_map].
  2:{ destruct Hv as (s' & e & E & Ht). exists s', e. split; [by apply cm_bind_err|simpl; lia]. }
  destruct Hv as (s1 & x & E & Hg & Ht & Hrd). rewrite (cm_bind_ok _ _ _ _ _ E). clear E.
  pose proof (grew_sizes _ _ Hg) as [Hl1 Hl2 Hl3]. simpl in Hl1, Hl2, Hl3.
  destruct (set_key_value_frame (sizes s) s1 id (k, x)) as [E Hfr]; [lia|simpl; lia|].
  set (s2 := MkStore (values s1) (input_fields s1) (<[id := (k, x)]> (key_values s1))) in *.
  rewrite (cm_state_bind _ _ s1 s2 ()) by (by rewrite E). clear E. fold (fill_map f).
  assert (total s2 = total s1) as Ht2 by (unfold total, s2; simpl; by rewrite length_insert).
  assert (length (key_values s2) = length (key_values s1)) as Hl4 by (unfold s2; simpl; by rewrite length_insert).
  specialize (IH (λ e s He, Hf e s (list_elem_of_further _ _ _ He)) (S id) s2 ltac:(lia) ltac:(lia) ltac:(unfold room in *; lia)).
  destruct (all_some _) as [ts|]; cbn [mbind option_bind].
  2:{ destruct IH as (s' & e & E & Ht'). exists s', e. split; [done|simpl; lia]. }
  destruct IH as (s' & E & Ht' & Hlen & Hkey & Hval & Hfld & Hcells). exists s'.
  destruct Hg as [Hg1 Hg2 Hg3]. simpl in Hfld, Hval. split; [done|]. split; [simpl; lia|]. split; [lia|].
  split; [|split; [by etrans|split; [by etrans|]]].
  - intros i y Hi Hy. apply Hkey; [lia|]. unfold s2. simpl. rewrite list_lookup_insert_ne by lia. by eapply prefix_lookup_Some.
  - split.
    + exists x. split; [apply Hkey; [lia|]; unfold s2; simpl; apply list_lookup_insert_eq; lia|].
      eapply reads_frame; [exact Hrd| |split; simpl; lia].
      destruct Hfr as [F1 F2 F3 _ _]. split; simpl in *; [intros i y Hi Hy..| |].
      * eapply prefix_lookup_Some; [|exact Hval]. done.
      * eapply prefix_lookup_Some; [|exact Hfld]. done.
      * apply Hkey; [lia|]. by apply F3.
      * by apply prefix_length.
      * rewrite length_insert in Hlen. lia.
    + revert Hcells. apply cells_impl, Forall_forall. intros t' _ j Hj (y & Hy & Hry). exists y. split; [done|].
      eapply reads_frame; [exact Hry|by apply grew_frame|split; simpl; lia].
Qed.
Lemma map_outcome schema f (g : ConstValue → option InputValue) c entries s :
  (∀ e s, e ∈ entries → room s (c e.2) → outcome schema (c e.2) s (g e.2) (f e.2)) →
  room s (length entries + sum_list_with (λ e, c e.2) entries) →
  outcome schema (length entries + sum_list_with (λ e, c e.2) entries) s
    (IMap <$> all_some ((λ e : string * ConstValue, (λ t, (e.1, t)) <$> g e.2) <$> entries))
    (ids ← cm_state (reserve_map VINull (length entries)); _ ← fill_map f entries ids.1; mret (VIMap ids)).
Proof.
  intros Hf Hr. unfold room, total in Hr.
  set (s1 := MkStore (values s) (input_fields s) (key_values s ++ replicate (length entries) ("", VINull))).
  assert (length (key_values s1) = length (key_values s) + length entries) as Hl1
    by (unfold s1; simpl; by rewrite length_app, length_replicate).
  assert (reserve_map VINull (length entries) s = Ret ((length (key_values s), length (key_values s) + length entries), s1)) as E.
  { unfold reserve_map, range_from. rewrite length_app, length_replicate, !id_from_small by lia. done. }
  pose proof (fill_map_spec schema f g c (length (key_values s) + length entries) entries Hf (length (key_values s)) s1
    ltac:(lia) ltac:(lia)) as Hfill.
  specialize (Hfill ltac:(unfold room, total; rewrite Hl1; simpl; lia)).
  destruct (all_some _) as [ts|] eqn:Hts; cbn [fmap option_fmap option_map outcome].
  - destruct Hfill as (s' & E' & Ht & Hl & Hkey & Hval & Hfld & Hcells).
    exists s', (VIMap (length (key_values s), length (key_values s) + length entries)).
    apply all_some_length in Hts. rewrite length_fmap in Hts.
    split; [rewrite (cm_state_bind _ _ _ _ _ E); simpl; by rewrite (cm_bind_ok _ _ _ _ _ E')|].
    split; [split; [done|done|]|split].
    + apply prefix_of_lookup. intros i x Hx. pose proof (lookup_lt_Some _ _ _ Hx). apply Hkey; [lia|]. unfold s1. simpl.
      by apply lookup_app_l_Some.
    + revert Ht. unfold total. rewrite Hl1. simpl. lia.
    + right. exists (length (key_values s)). rewrite Hts. split; [done|]. split; [simpl; lia|].
      revert Hcells. apply cells_impl, Forall_forall. intros t _ k _ (x & Hx & Hrx). exists x. split; [done|].
      eapply reads_frame; [exact Hrx|by apply grew_frame|split; simpl; lia].
  - destruct Hfill as (s' & e & E' & Ht). exists s', e.
    split; [rewrite (cm_state_bind _ _ _ _ _ E); simpl; by rewrite (cm_bind_err _ _ _ _ _ E')|].
    revert Ht. unfold total. rewrite Hl1. simpl. lia.
Qed.

(** ** Well-formed schemas and values *)
Section wf.
Context (schema : ESchema).
Definition type_ok (ty : TypeRecord) : Prop :=
  wf (wrapping ty) ∧
  match definition_id ty with
  | DefScalar id => is_Some (scalar_definitions schema !! id)
  | DefEnum id => is_Some (enum_definitions schema !! id)
  | DefInputObject id => is_Some (input_object_definitions schema !! id)
  | _ => False
  end.
(** Ids refer to something, and the fields of an input object have different names. *)
Record schema_ok : Prop := {
  so_enums id e : enum_definitions schema !! id = Some e → e.2.2 ≤ length (enum_values schema);
  so_objects id o : input_object_definitions schema !! id = Some o →
    o.2.2 ≤ length (input_value_definitions schema) ∧ NoDup ((λ d, iv_name d.2) <$> definitions_in schema o.2);
  so_fields i d : input_value_definitions schema !! i = Some d →
    type_ok (iv_ty d) ∧ ∀ id, default_value_id d = Some id → is_Some (default_input_values schema !! id);
}.
(** No bytes, which no parser produces, numbers that are one of the three
    kinds, and maps that have a key once. *)
Fixpoint const_ok (v : ConstValue) : Prop :=
  match v with
  | CBinary => False
  | CNumberValue n => is_Some (as_f64 n) ∨ is_Some (as_i64 n) ∨ is_Some (as_u64 n)
  | CList items => foldr and True (const_ok <$> items)
  | CObject entries => NoDup entries.*1 ∧ foldr and True ((λ e, const_ok e.2) <$> entries)
  | _ => True
  end.
(** A bound on the cells that a value takes. *)
Definition base_cost : nat := 32 + length (input_value_definitions schema).
Fixpoint cost (v : ConstValue) : nat :=
  match v with
  | CList items => base_cost + length items + sum_list (cost <$> items)
  | CObject entries => base_cost + length entries + sum_list ((λ e, cost e.2) <$> entries)
  | _ => base_cost
  end.
End wf.
Lemma foldr_and {A} (P : A → Prop) l : foldr and True (P <$> l) ↔ Forall P l.
Proof. induction l as [|x l IH]; simpl; [done|]. by rewrite IH, Forall_cons. Qed.
Lemma sum_list_fmap {A} (f : A → nat) l : sum_list (f <$> l) = sum_list_with f l.
Proof. induction l as [|x l IH]; [done|]. rewrite fmap_cons. cbn [sum_list_with]. by rewrite IH. Qed.
Lemma sum_list_with_le {A} (f g : A → nat) l : Forall (λ x, f x ≤ g x) l → sum_list_with f l ≤ sum_list_with g l.
Proof. induction 1; simpl; lia. Qed.
Lemma room_le s n n' : n ≤ n' → room s n' → room s n.
Proof. unfold room. lia. Qed.

Section coercion.
Context (number_text : CNumber → string) (schema : ESchema) (location : Location).
Abbreviation outcome := (outcome schema).
Abbreviation cost := (cost schema).

Ltac leaf := apply outcome_leaf; intros; by right.
Lemma coerce_json_spec scalar path v s :
  const_ok v → room s (cost v) → outcome (cost v - 32) s (spec_json v) (coerce_json location scalar path v).
Proof.
  revert s. induction v as [|n|x|b| |x|items IH|entries IH] using ConstValue_ind'; intros s Hv Hr; cbn [spec_json coerce_json].
  - leaf.
  - unfold spec_number. simpl in Hv. destruct (as_f64 n); [leaf|]. destruct (as_i64 n); [leaf|].
    destruct Hv as [[f Hf]|[[i Hi]|[u Hu]]]; [done|done|]. rewrite Hu. eapply outcome_lift; [done|]. leaf.
  - leaf.
  - leaf.
  - apply outcome_fail.
  - apply outcome_fail.
  - simpl in Hr, Hv. rewrite sum_list_fmap in Hr. rewrite foldr_and, Forall_forall in Hv.
    eapply outcome_weaken; [|apply (list_outcome schema _ spec_json cost)].
    + simpl. rewrite sum_list_fmap. unfold base_cost. lia.
    + intros v idx s' Hin Hr'. rewrite Forall_forall in IH. eapply outcome_weaken; [|by apply IH; [|apply Hv|]]. lia.
    + eapply room_le; [|exact Hr]. lia.
  - simpl in Hr, Hv. rewrite sum_list_fmap in Hr. destruct Hv as [_ Hv]. rewrite foldr_and, Forall_forall in Hv.
    eapply outcome_weaken; [|apply (map_outcome schema _ spec_json cost)].
    + simpl. rewrite sum_list_fmap. unfold base_cost. lia.
    + intros v s' Hin Hr'. rewrite Forall_forall in IH. eapply outcome_weaken; [|by apply IH; [|apply Hv|]]. lia.
    + eapply room_le; [|exact Hr]. lia.
Qed.
Lemma coerce_scalar_spec scalar path v s :
  const_ok v → room s (cost v) → outcome (cost v - 32) s (spec_scalar scalar.2 v) (coerce_scalar number_text location scalar path v).
Proof.
  intros Hv Hr. destruct scalar as [name ty]. unfold coerce_scalar, spec_scalar. cbn [snd].
  destruct ty; [..|destruct v; try done; exact (coerce_json_spec (name, SJSON) path _ s Hv Hr)|];
    destruct v as [|n|x|b| |x|items|entries]; try done; try apply outcome_fail; try leaf; cbn [mbind option_bind].
  - destruct (as_f64 n); [leaf|apply outcome_fail].
  - unfold i32_try_from. destruct (as_i64 n) as [i|]; cbn [mbind option_bind]; [|apply outcome_fail]. destruct (decide _); [leaf|apply outcome_fail].
  - destruct (as_i64 n); [leaf|apply outcome_fail].
Qed.

(** Ranges that lie in a vector. *)
Lemma at_index_ok {A} (l : list A) i x : l !! i = Some x → at_index l i = Ret x.
Proof. intros E. unfold at_index. by rewrite E. Qed.
Lemma walk_range_ok {A} (l : list A) range :
  range.2 ≤ length l →
  walk_range l range = Ret (omap (λ i, pair i <$> l !! i) (seq range.1 (range.2 - range.1))).
Proof.
  destruct range as [a b]. simpl. intros Hb. unfold walk_range. cbn [fst snd].
  assert (∀ n, (n = 0 ∨ a + n ≤ length l) → mapM_res (λ i, x ← at_index l i; Ret (i, x)) (seq a n) =
    Ret (omap (λ i, pair i <$> l !! i) (seq a n))) as H; [|apply H; lia].
  intros n. revert a. clear Hb. induction n as [|n IH]; intros a Hn; [done|]. cbn [seq mapM_res].
  destruct (lookup_lt_is_Some_2 l a) as [x Hx]; [lia|]. rewrite (at_index_ok _ _ _ Hx). cbn [mbind res_bind].
  rewrite (IH (S a)) by lia. cbn [mbind res_bind]. unfold omap. cbn [list_omap]. by rewrite Hx.
Qed.
Lemma list_find_omap_index {A} (l : list A) (P : A → Prop) `{!∀ x, Decision (P x)} (Q : nat → Prop) `{!∀ i, Decision (Q i)} l0 :
  (∀ i x, i ∈ l0 → l !! i = Some x → (P x ↔ Q i)) → (∀ i, i ∈ l0 → is_Some (l !! i)) →
  fst <$> (snd <$> list_find (λ e : nat * A, P e.2) (omap (λ i, pair i <$> l !! i) l0)) = snd <$> list_find Q l0.
Proof.
  intros HPQ Hs. induction l0 as [|i l0 IH]; [done|]. destruct (Hs i) as [x Hx]; [set_solver|].
  unfold omap. cbn [list_omap]. rewrite Hx. fold (@omap list _ nat (nat * A)). cbn [fmap option_fmap option_map list_find snd].
  specialize (IH ltac:(set_solver) ltac:(set_solver)). pose proof (HPQ i x ltac:(set_solver) Hx) as Hi.
  destruct (decide (P x)), (decide (Q i)); [done|tauto|tauto|].
  destruct (list_find _ (omap _ l0)) as [[j y]|], (list_find Q l0) as [[k z]|]; simpl in *; congruence.
Qed.
Lemma find_value_by_name_ok range name :
  range.2 ≤ length (enum_values schema) →
  find_value_by_name schema range name = Ret (snd <$> list_find (λ i, enum_values schema !! i = Some name) (seq range.1 (range.2 - range.1))).
Proof.
  intros Hr. unfold find_value_by_name. rewrite walk_range_ok by done. cbn [mbind res_bind]. f_equal.
  apply (@list_find_omap_index _ (enum_values schema) (λ x, x = name) (λ x, decide_rel (=) x name)
    (λ i, enum_values schema !! i = Some name) (λ i, decide_rel (=) _ _)).
  - intros i x _ Hx. rewrite Hx. split; congruence.
  - intros i Hi. apply elem_of_seq in Hi. apply lookup_lt_is_Some_2. lia.
Qed.
Lemma coerce_enum_spec e path v s n :
  e.2.2 ≤ length (enum_values schema) →
  outcome n s (match v with CEnum name | CString name => spec_enum schema e.2 name | _ => None end) (coerce_enum schema location e path v).
Proof.
  intros He. unfold coerce_enum.
  assert (∀ name, outcome n s (spec_enum schema e.2 name)
    (id ← cm_lift (find_value_by_name schema e.2 name);
     match id with
     | Some id => mret (VIEnumValue id)
     | None => cm_fail (UnknownEnumValue e.1 name (value_path_to_string path) location)
     end)) as H.
  { intros name. eapply outcome_lift; [by apply find_value_by_name_ok|]. unfold spec_enum.
    destruct (list_find _ _) as [[j i]|]; cbn [fmap option_fmap option_map snd]; [leaf|apply outcome_fail]. }
  destruct v; try apply outcome_fail; apply H.
Qed.

(** The text of a type that is used in errors. *)
Lemma type_text_ok ty : type_ok schema ty → ∃ text, type_text schema ty = Ret text.
Proof.
  intros [_ Hd]. unfold type_text, definition_name, at_index.
  destruct (definition_id ty); try done; destruct Hd as [x ->]; eexists; reflexivity.
Qed.
Lemma pop_spec ty :
  type_ok schema ty →
  match pop_list_wrapping (wrapping ty) with
  | (None, w) => st_lists (stype ty) = [] ∧ type_ok schema (MkType (definition_id ty) w) ∧ stype (MkType (definition_id ty) w) = stype ty
  | (Some l, w) =>
      st_lists (stype ty) = l :: st_lists (stype (MkType (definition_id ty) w)) ∧
      stype (MkType (definition_id ty) w) = MkSType (definition_id ty) (st_inner (stype ty)) (st_lists (stype (MkType (definition_id ty) w))) ∧
      type_ok schema (MkType (definition_id ty) w) ∧
      ∃ text, (ty ← type_wrapped_by (MkType (definition_id ty) w) l; type_text schema ty) = Ret text
  end.
Proof.
  intros [Hw Hd]. unfold pop_list_wrapping. destruct (next_back_spec _ Hw) as [Hw' Hs].
  destruct (Wrapping.next_back (wrapping ty)) as [[l|] w]; cbn [fst snd] in *; unfold a_step in Hs; unfold stype; cbn [definition_id wrapping st_lists st_inner].
  - pose proof (a_lists_length (wrapping ty)) as Hlen. pose proof (wrapped_by_spec w l Hw') as Hwr. unfold a_step in Hwr.
    assert (a_front (abs (wrapping ty)) = Z.to_nat (Wrapping.start (wrapping ty))) as Hfront by done.
    generalize dependent (abs (wrapping ty)). intros a Hs Hlen Hfront. generalize dependent (abs w). intros a' Hwr Hs.
    destruct (last (a_lists a)) as [l'|] eqn:Hl in Hs; [|done]. injection Hs as -> <-. cbn [a_lists a_inner a_front] in *.
    apply last_Some in Hl as [ls Hl]. rewrite Hl, ?removelast_last, reverse_snoc in *.
    split; [done|]. split; [done|]. split; [done|]. unfold type_wrapped_by. cbn [wrapping definition_id].
    rewrite length_app in Hlen. cbn [length] in Hlen. destruct Hw as [_ [_ Hm]].
    assert (MAX_LIST_WRAPINGS = 21%Z) as Hmax by reflexivity. rewrite Hmax in Hm.
    rewrite decide_True in Hwr by lia.
    destruct (wrapped_by w l) as [w''|]; [|done]. cbn [mbind res_bind]. apply type_text_ok. split; [apply Hwr|done].
  - generalize dependent (abs (wrapping ty)). intros a Hs. generalize dependent (abs w). intros a' Hs.
    destruct (last (a_lists a)) as [l'|] eqn:Hl in Hs; [done|]. injection Hs as <-. apply last_None in Hl. by rewrite Hl.
Qed.
Lemma required_spec ty : wf (wrapping ty) → is_required (wrapping ty) = st_required (stype ty).
Proof.
  intros Hw. destruct (wrapping_observers _ Hw) as (_ & _ & _ & _ & ->). unfold st_required, stype. cbn [st_lists st_inner].
  destruct (last (a_lists (abs (wrapping ty)))) as [l|] eqn:E.
  - apply last_Some in E as [ls ->]. by rewrite reverse_snoc.
  - apply last_None in E. by rewrite E.
Qed.
Lemma is_list_spec ty : wf (wrapping ty) → is_list (wrapping ty) = bool_decide (st_lists (stype ty) ≠ []).
Proof.
  intros Hw. destruct (wrapping_observers _ Hw) as (_ & _ & _ & -> & _). apply bool_decide_ext. unfold stype. cbn [st_lists].
  split; intros H E; apply H; [by rewrite <-(reverse_involutive (a_lists _)), E|by rewrite E].
Qed.

(** A value in lists of one item. *)
Lemma wrap_in_lists_spec b n x s t :
  sz_values b ≤ length (values s) → reads schema b s t x → room s n →
  ∃ s' x', wrap_in_lists n x s = Ret (s', inr x') ∧ grew s s' ∧ total s' ≤ total s + n ∧ reads schema b s' (in_lists n t) x'.
Proof.
  revert x s t. induction n as [|n IH]; intros x s t Hb Hr Hn.
  { exists s, x. split_and!; [done|reflexivity|lia|done]. }
  cbn [wrap_in_lists]. unfold room, total in Hn.
  set (s1 := MkStore (values s ++ [x]) (input_fields s) (key_values s)).
  assert (push_value x s = Ret (length (values s), s1)) as E by (unfold push_value; by rewrite id_from_small by lia).
  rewrite (cm_state_bind _ _ _ _ _ E).
  rewrite (cm_lift_bind _ _ _ (length (values s), S (length (values s))))
    by (unfold range_from_single; by rewrite id_from_small by lia).
  assert (grew s s1) as Hg by (split; simpl; [by apply prefix_app_r|done|done]).
  assert (total s1 = S (total s)) as Ht by (unfold total; simpl; rewrite length_app; simpl; lia).
  destruct (IH (VIList (length (values s), S (length (values s)))) s1 (IList [t])) as (s' & x' & E' & Hg' & Ht' & Hr').
  - simpl. rewrite length_app. lia.
  - right. exists (length (values s)). split; [simpl; by rewrite Nat.add_1_r|]. split; [done|]. split; [|done].
    exists x. split; [simpl; by apply list_lookup_middle|]. eapply reads_frame; [exact Hr|by apply grew_frame|by split].
  - unfold room. rewrite Ht. unfold total. lia.
  - exists s', x'. split; [done|]. split; [by etrans|]. split; [lia|].
    unfold in_lists in *. by rewrite Nat.iter_succ_r.
Qed.

(** ** The fields of an input object *)
Lemma swap_remove_at_perm {A} (l : list A) i x : l !! i = Some x → l ≡ₚ x :: swap_remove_at i l.
Proof.
  intros Hi. unfold swap_remove_at. destruct (last l) as [y|] eqn:Hl; [|apply last_None in Hl; by subst].
  apply last_Some in Hl as [l' ->]. rewrite removelast_last, length_app. simpl.
  destruct (decide (S i = length l' + 1)) as [Heq|Hne].
  - rewrite lookup_app_r in Hi by lia. replace (i - length l') with 0 in Hi by lia. injection Hi as <-.
    symmetry. apply Permutation_cons_append.
  - pose proof (lookup_lt_Some _ _ _ Hi) as Hlt. rewrite length_app in Hlt. simpl in Hlt.
    rewrite lookup_app_l in Hi by lia. rewrite insert_take_drop by lia.
    rewrite <-(take_drop_middle l' i x Hi) at 1. rewrite <-app_assoc. simpl. rewrite <-!Permutation_middle, Permutation_app_comm. simpl.
    by rewrite app_nil_r, (Permutation_app_comm (take i l')).
Qed.
Lemma assoc_Some {A} k (l : list (string * A)) x : NoDup l.*1 → assoc k l = Some x ↔ (k, x) ∈ l.
Proof.
  intros Hnd. unfold assoc. split.
  - destruct (list_find _ l) as [[i [k' x']]|] eqn:E; [|done]. apply list_find_Some in E as (Hi & Hk & _). simpl in *.
    intros [= <-]. subst. by eapply list_elem_of_lookup_2.
  - intros [i Hi]%list_elem_of_lookup. destruct (list_find _ l) as [[j [k' x']]|] eqn:E.
    + apply list_find_Some in E as (Hj & Hk & _). simpl in *. subst k'. f_equal.
      assert (i = j) as ->; [|congruence]. eapply (NoDup_lookup l.*1); [done| |]; rewrite list_lookup_fmap; [by rewrite Hi|by rewrite Hj].
    + apply list_find_None in E. rewrite Forall_forall in E. exfalso. apply (E (k, x)); [by eapply list_elem_of_lookup_2|done].
Qed.
Lemma assoc_perm {A} k (l l' : list (string * A)) : NoDup l.*1 → l ≡ₚ l' → assoc k l = assoc k l'.
Proof.
  intros Hnd Hp. assert (NoDup l'.*1) as Hnd' by (by rewrite <-Hp).
  apply option_eq. intros x. rewrite !assoc_Some by done. by rewrite Hp.
Qed.
Lemma assoc_cons {A} k k' (x : A) l : assoc k ((k', x) :: l) = if decide (k' = k) then Some x else assoc k l.
Proof.
  unfold assoc. cbn [list_find fst]. destruct (decide (k' = k)); [done|]. by destruct (list_find _ l) as [[i e]|].
Qed.
Lemma assoc_None {A} k (l : list (string * A)) : assoc k l = None ↔ k ∉ l.*1.
Proof.
  induction l as [|[k' x] l IH]; [split; [set_solver|done]|]. rewrite assoc_cons, fmap_cons. cbn [fst].
  destruct (decide (k' = k)); [split; [done|set_solver]|]. rewrite IH. set_solver.
Qed.
Lemma swap_remove_spec {A} key (l : list (string * A)) :
  NoDup l.*1 →
  ∃ l', swap_remove key l = (assoc key l, l') ∧ NoDup l'.*1 ∧
    match assoc key l with Some x => l ≡ₚ (key, x) :: l' | None => l' = l end.
Proof.
  intros Hnd. unfold swap_remove, assoc. destruct (list_find _ l) as [[i [k x]]|] eqn:E; [|by exists l].
  apply list_find_Some in E as (Hi & Hk & _). simpl in Hk. subst k. cbn [fmap option_fmap option_map snd].
  pose proof (swap_remove_at_perm l i _ Hi) as Hp. exists (swap_remove_at i l). split; [done|]. split; [|done].
  rewrite Hp, fmap_cons in Hnd. by apply NoDup_cons in Hnd as [_ Hnd].
Qed.

Abbreviation Closure := (TypeRecord → list ValuePathSegment → CM VariableInputValues VariableInputValue).
(** A closure of the code and one of the specification. *)
Definition closure_ok (c : nat) (f : Closure) (g : SType → option InputValue) : Prop :=
  ∀ ty path s, type_ok schema ty → room s c → outcome c s (g (stype ty)) (f ty path).
Definition same_closure (c : nat) (f : option Closure) (g : option (SType → option InputValue)) : Prop :=
  match f, g with
  | Some f, Some g => closure_ok c f g
  | None, None => True
  | _, _ => False
  end.
(** A field that can be coerced to or has a default value. *)
Definition field_ok (d : InputValueDefinition) : Prop :=
  type_ok schema (iv_ty d) ∧ ∀ id, default_value_id d = Some id → is_Some (default_input_values schema !! id).
Abbreviation names defs := ((λ d : nat * InputValueDefinition, iv_name d.2) <$> defs).
Definition field_reads (b : Sizes) (s : VariableInputValues) (x : nat * VariableInputValue) (t : nat * InputValue) : Prop :=
  x.1 = t.1 ∧ reads schema b s t.2 x.2.

Lemma coerce_input_fields_spec path (specs : list (string * (SType → option InputValue))) (c : string → nat) defs :
  ∀ (cur : list (string * Closure)) buffer s,
  NoDup (names defs) → NoDup cur.*1 → Forall (λ d, field_ok d.2) defs →
  Forall (λ d, same_closure (c (iv_name d.2)) (assoc (iv_name d.2) cur) (assoc (iv_name d.2) specs)) defs →
  room s (sum_list_with (λ e, c e.1) cur) →
  match all_some (spec_field schema specs <$> defs) with
  | Some fss => ∃ s' cur' buf, coerce_input_fields schema location path defs cur buffer s = Ret (s', inr (cur', buffer ++ buf)) ∧
      grew s s' ∧ total s' ≤ total s + sum_list_with (λ e, c e.1) cur ∧
      Forall2 (field_reads (sizes s) s') buf (concat fss) ∧ length buf ≤ length defs ∧
      (∀ k, k ∈ cur'.*1 ↔ k ∈ cur.*1 ∧ k ∉ names defs)
  | None => ∃ s' e, coerce_input_fields schema location path defs cur buffer s = Ret (s', inl e) ∧
      total s' ≤ total s + sum_list_with (λ e, c e.1) cur
  end.
Proof.
  induction defs as [|[id d] defs IH]; intros cur buffer s Hnd Hcur Hok Hrel Hr.
  { exists s, cur, []. rewrite app_nil_r. split_and!; [done|reflexivity|lia|constructor|simpl; lia|set_solver]. }
  rewrite fmap_cons in Hnd. apply NoDup_cons in Hnd as [Hd Hnd]. apply Forall_cons in Hok as [[Hty Hdef] Hok].
  apply Forall_cons in Hrel as [Hd1 Hrel]. cbn [fst snd] in *.
  rewrite fmap_cons, all_some_cons. cbn [coerce_input_fields].
  assert (spec_field schema specs (id, d) =
    match assoc (iv_name d) specs with
    | Some f => (λ t, [(id, t)]) <$> f (stype (iv_ty d))
    | None =>
        match default_value_id d with
        | Some did => (λ t, [(id, t)]) <$> default_input_values schema !! did
        | None => if st_required (stype (iv_ty d)) then None else Some []
        end
    end) as -> by done.
  destruct (swap_remove_spec (iv_name d) cur Hcur) as (cur1 & -> & Hcur1 & Hp).
  assert (∀ k, k ≠ iv_name d → assoc k cur1 = assoc k cur) as Hassoc.
  { intros k Hk. destruct (assoc (iv_name d) cur) as [f|]; [|by rewrite Hp].
    rewrite (assoc_perm k _ _ Hcur Hp), assoc_cons. by rewrite decide_False by congruence. }
  assert (∀ k, k ∈ cur.*1 ∧ k ≠ iv_name d ↔ k ∈ cur1.*1) as Hkeys.
  { intros k. destruct (assoc (iv_name d) cur) as [f|] eqn:E; [|subst cur1; apply assoc_None in E; set_solver].
    rewrite Hp in Hcur |- *. rewrite fmap_cons in Hcur |- *. cbn [fst] in *. apply NoDup_cons in Hcur as [Hn _]. set_solver. }
  assert (∀ buf1 fs1 s1, grew s s1 →
    total s1 + sum_list_with (λ e, c e.1) cur1 ≤ total s + sum_list_with (λ e, c e.1) cur →
    Forall2 (field_reads (sizes s) s1) buf1 fs1 → length buf1 ≤ 1 →
    match l ← all_some (spec_field schema specs <$> defs); Some (fs1 :: l) with
    | Some fss => ∃ s' cur' buf,
        coerce_input_fields schema location path defs cur1 (buffer ++ buf1) s1 = Ret (s', inr (cur', buffer ++ buf)) ∧
        grew s s' ∧ total s' ≤ total s + sum_list_with (λ e, c e.1) cur ∧
        Forall2 (field_reads (sizes s) s') buf (concat fss) ∧ length buf ≤ S (length defs) ∧
        (∀ k, k ∈ cur'.*1 ↔ k ∈ cur.*1 ∧ k ∉ names ((id, d) :: defs))
    | None => ∃ s' e, coerce_input_fields schema location path defs cur1 (buffer ++ buf1) s1 = Ret (s', inl e) ∧
        total s' ≤ total s + sum_list_with (λ e, c e.1) cur
    end) as Hstep.
  { intros buf1 fs1 s1 Hg Ht Hb Hl. specialize (IH cur1 (buffer ++ buf1) s1 Hnd Hcur1 Hok).
    assert (Forall (λ d, same_closure (c (iv_name d.2)) (assoc (iv_name d.2) cur1) (assoc (iv_name d.2) specs)) defs) as Hrel1.
    { eapply Forall_impl; [apply Forall_and; split; [exact Hrel|apply Forall_forall; intros d' Hd'; exact Hd']|].
      intros d' [H1 H2]. rewrite Hassoc; [done|]. intros E. apply Hd. rewrite <-E. by apply (list_elem_of_fmap_2 (λ d, iv_name d.2)). }
    specialize (IH Hrel1 ltac:(unfold room in *; lia)).
    destruct (all_some (spec_field schema specs <$> defs)) as [fss|]; cbn [mbind option_bind].
    2:{ destruct IH as (s' & e & -> & Ht'). exists s', e. split; [done|lia]. }
    destruct IH as (s' & cur' & buf & -> & Hg' & Ht' & Hb' & Hl' & Hk'). exists s', cur', (buf1 ++ buf).
    rewrite app_assoc. split; [done|]. split; [by etrans|]. split; [lia|]. split; [|split].
    - cbn [concat]. apply Forall2_app.
      + eapply Forall2_impl; [exact Hb|]. intros x t [H1 H2]. split; [done|].
        eapply reads_frame; [exact H2|by apply grew_frame|apply sizes_le_refl].
      + eapply Forall2_impl; [exact Hb'|]. intros x t [H1 H2]. split; [done|].
        eapply reads_frame; [exact H2|by apply grew_frame, (reflexivity (R := grew))|by apply grew_sizes].
    - rewrite length_app. lia.
    - intros k. rewrite Hk', <-Hkeys, fmap_cons. set_solver. }
  destruct (assoc (iv_name d) cur) as [f|], (assoc (iv_name d) specs) as [g|]; try done.
  - assert (sum_list_with (λ e, c e.1) cur = c (iv_name d) + sum_list_with (λ e, c e.1) cur1) as Hsum by (by rewrite Hp).
    pose proof (Hd1 (iv_ty d) (path ++ [FieldSegment (iv_name d)]) s Hty ltac:(unfold room in *; lia)) as Hv.
    destruct (g (stype (iv_ty d))) as [t|]; cbn [mbind option_bind fmap option_fmap option_map].
    + destruct Hv as (s1 & x & E & Hg & Ht & Hrd). rewrite (cm_bind_ok _ _ _ _ _ E). apply Hstep; [done|lia| |done].
      by repeat constructor.
    + destruct Hv as (s1 & e & E & Ht). exists s1, e. split; [by apply cm_bind_err|lia].
  - assert (sum_list_with (λ e, c e.1) cur1 = sum_list_with (λ e, c e.1) cur) as Hsum by (by rewrite Hp).
    destruct (default_value_id d) as [did|].
    + destruct (Hdef did eq_refl) as [t Ht]. rewrite Ht. cbn [mbind option_bind fmap option_fmap option_map].
      apply Hstep; [reflexivity|lia| |done]. repeat constructor. simpl. destruct t; left; by exists did.
    + rewrite required_spec by apply Hty. destruct (st_required (stype (iv_ty d))).
      * destruct (type_text_ok _ Hty) as [text E]. rewrite (cm_lift_bind _ _ _ _ E). eexists _, _. split; [done|lia].
      * cbn [mbind option_bind]. specialize (Hstep [] [] s). rewrite app_nil_r in Hstep. apply Hstep; [reflexivity|lia|constructor|simpl; lia].
Qed.
Lemma cells_app {T X} (R : X → T → Prop) l xs ts :
  Forall2 R xs ts → cells (λ i t, ∃ x, (l ++ xs) !! i = Some x ∧ R x t) ts (length l).
Proof.
  intros H. revert l. induction H as [|x t xs ts Hx _ IH]; intros l; [done|]. split.
  - exists x. split; [by apply list_lookup_middle|done].
  - specialize (IH (l ++ [x])). rewrite <-app_assoc, length_app, Nat.add_comm in IH. exact IH.
Qed.
Lemma definitions_in_ok range : schema_ok schema → Forall (λ d, field_ok d.2) (definitions_in schema range).
Proof.
  intros Hs. apply Forall_forall. intros [i d] Hd. unfold definitions_in in Hd. apply list_elem_of_omap in Hd as (j & _ & Hj).
  destruct (input_value_definitions schema !! j) as [d'|] eqn:E; [|done]. injection Hj as <- <-. by apply (so_fields _ Hs j).
Qed.
Lemma length_omap_le {A B} (f : A → option B) l : length (omap f l) ≤ length l.
Proof.
  induction l as [|x l IH]; [done|]. change (omap f (x :: l)) with (match f x with Some y => y :: omap f l | None => omap f l end).
  destruct (f x); cbn [length]; lia.
Qed.
Lemma length_definitions_in range :
  range.2 ≤ length (input_value_definitions schema) → length (definitions_in schema range) ≤ length (input_value_definitions schema).
Proof.
  intros Hr. unfold definitions_in. etrans; [apply length_omap_le|]. rewrite length_seq. lia.
Qed.
Lemma coerce_input_object_spec o path cur specs c s :
  schema_ok schema → o.2.2 ≤ length (input_value_definitions schema) → NoDup (names (definitions_in schema o.2)) →
  NoDup cur.*1 → specs.*1 = cur.*1 →
  (∀ k, same_closure (c k) (assoc k cur) (assoc k specs)) →
  room s (length (input_value_definitions schema) + sum_list_with (λ e, c e.1) cur) →
  outcome (length (input_value_definitions schema) + sum_list_with (λ e, c e.1) cur) s (spec_object schema o.2 specs)
    (coerce_input_object schema location o path cur).
Proof.
  intros Hs Ho Hnd Hcur Hkeys Hrel Hr. unfold coerce_input_object. eapply outcome_lift; [by apply walk_range_ok|].
  fold (definitions_in schema o.2).
  pose proof (coerce_input_fields_spec path specs c (definitions_in schema o.2) cur [] s Hnd Hcur (definitions_in_ok _ Hs)) as Hf.
  specialize (Hf ltac:(apply Forall_forall; intros; apply Hrel) ltac:(unfold room in *; lia)). cbn [app] in Hf.
  unfold spec_object. destruct (all_some (spec_field schema specs <$> definitions_in schema o.2)) as [fss|]; cbn [fmap option_fmap option_map].
  2:{ destruct Hf as (s' & e & E & Ht). destruct (forallb _ specs); (exists s', e; split; [by rewrite (cm_bind_err _ _ _ _ _ E)|lia]). }
  destruct Hf as (s1 & cur' & buf & E & Hg & Ht & Hb & Hl & Hk).
  destruct (forallb _ specs) eqn:Hall.
  - assert (cur' = []) as ->.
    { destruct cur' as [|[k f] cur']; [done|]. exfalso. destruct (proj1 (Hk k)) as [Hin Hnin]; [set_solver|]. apply Hnin.
      rewrite <-Hkeys in Hin. apply list_elem_of_fmap in Hin as ([k' g] & -> & Hg'). rewrite forallb_forall in Hall.
      specialize (Hall (k', g) (proj1 (list_elem_of_In _ _) Hg')). by apply bool_decide_eq_true in Hall. }
    set (s2 := MkStore (values s1) (input_fields s1 ++ buf) (key_values s1)).
    assert (append_input_object buf s1 = Ret ((length (input_fields s1), length (input_fields s1) + length buf), s2)) as Ea.
    { pose proof (length_definitions_in o.2 Ho). unfold append_input_object, range_from. rewrite length_app.
      unfold room, total in *. rewrite !id_from_small by lia. done. }
    exists s2, (VIInputObject (length (input_fields s1), length (input_fields s1) + length buf)).
    split; [rewrite (cm_bind_ok _ _ _ _ _ E); by rewrite (cm_state_bind _ _ _ _ _ Ea)|].
    assert (grew s1 s2) as Hg2 by (split; simpl; [done|by apply prefix_app_r|done]).
    split; [by etrans|]. split.
    { pose proof (length_definitions_in o.2 Ho). unfold total in *. simpl. rewrite length_app. lia. }
    right. exists (length (input_fields s1)). rewrite <-(Forall2_length _ _ _ Hb). split; [done|].
    split; [split; [apply grew_sizes in Hg; apply Hg|simpl; rewrite length_app; lia]|].
    eapply cells_impl; [|exact (cells_app (field_reads (sizes s) s1) (input_fields s1) buf (concat fss) Hb)].
    apply Forall_forall. intros [tid t] _ k _ ([xid x] & Hx & Hid & Hrx). simpl in *. subst xid. exists x. split; [done|].
    eapply reads_frame; [exact Hrx|by apply grew_frame|apply sizes_le_refl].
  - destruct cur' as [|[k f] cur'].
    { exfalso. apply not_true_iff_false in Hall. apply Hall, forallb_forall. intros [k g] Hin%list_elem_of_In.
      apply bool_decide_eq_true. destruct (decide (k ∈ names (definitions_in schema o.2))) as [|Hn]; [done|].
      exfalso. apply (not_elem_of_nil (A := string) k). apply (Hk k). split; [|done]. rewrite <-Hkeys. by apply (list_elem_of_fmap_2 fst _ (k, g)). }
    eexists s1, _. split; [rewrite (cm_bind_ok _ _ _ _ _ E); done|lia].
Qed.

(** ** Coercion *)
Lemma coerce_named_spec v cur specs c ty path s :
  schema_ok schema → type_ok schema ty → const_ok v → room s (cost v) →
  (∀ entries, v = CObject entries → NoDup cur.*1 ∧ specs.*1 = cur.*1 ∧ (∀ k, same_closure (c k) (assoc k cur) (assoc k specs)) ∧
    length (input_value_definitions schema) + sum_list_with (λ e, c e.1) cur ≤ cost v - 32) →
  outcome (cost v - 32) s (spec_named schema v specs (stype ty)) (coerce_named_type number_text schema location v cur ty path).
Proof.
  intros Hs Hty Hv Hr Hobj. unfold coerce_named_type, spec_named.
  assert (v ≠ CNull → outcome (cost v - 32) s
    (match definition_id ty with
     | DefScalar id => s ← scalar_definitions schema !! id; spec_scalar s.2 v
     | DefEnum id =>
         e ← enum_definitions schema !! id;
         match v with CEnum name | CString name => spec_enum schema e.2 name | _ => None end
     | DefInputObject id =>
         o ← input_object_definitions schema !! id;
         match v with CObject _ => spec_object schema o.2 specs | _ => None end
     | _ => None
     end)
    (match definition_id ty with
     | DefScalar scalar => scalar ← cm_lift (at_index (scalar_definitions schema) scalar); coerce_scalar number_text location scalar path v
     | DefEnum enum => enum ← cm_lift (at_index (enum_definitions schema) enum); coerce_enum schema location enum path v
     | DefInputObject input_object =>
         input_object ← cm_lift (at_index (input_object_definitions schema) input_object);
         match v with
         | CObject _ => coerce_input_object schema location input_object path cur
         | v => cm_fail (MissingObject input_object.1 (value_kind v) (value_path_to_string path) location)
         end
     | _ => cm_lift (Panic "Cannot be an output type.")
     end)) as H.
  { intros _. destruct Hty as [_ Hd]. destruct (definition_id ty) as [id|id|id|id|id|id]; try done; destruct Hd as [x Hx].
    - rewrite Hx. eapply outcome_lift; [by apply at_index_ok|]. cbn [mbind option_bind]. apply coerce_enum_spec. by eapply so_enums.
    - rewrite Hx. eapply outcome_lift; [by apply at_index_ok|]. cbn [mbind option_bind]. destruct v; try apply outcome_fail.
      destruct (Hobj _ eq_refl) as (H1 & H2 & H3 & H4). destruct (so_objects _ Hs _ _ Hx) as [H5 H6].
      eapply outcome_weaken; [exact H4|]. apply coerce_input_object_spec; try done. unfold room in *. lia.
    - rewrite Hx. eapply outcome_lift; [by apply at_index_ok|]. cbn [mbind option_bind]. by apply coerce_scalar_spec. }
  destruct v; [|by apply H..]. rewrite required_spec by apply Hty. destruct (st_required (stype ty)); [|leaf].
  destruct (type_text_ok _ Hty) as [text E]. eapply outcome_lift; [exact E|]. apply outcome_fail.
Qed.
Lemma assoc_fmap {A B} (f : A → B) k (l : list (string * A)) : assoc k ((λ e, (e.1, f e.2)) <$> l) = f <$> assoc k l.
Proof.
  induction l as [|[k' x] l IH]; [done|]. rewrite fmap_cons. cbn [fst snd]. rewrite !assoc_cons, IH. by destruct (decide (k' = k)).
Qed.
Lemma sum_costs (entries : list (string * ConstValue)) :
  NoDup entries.*1 →
  sum_list_with (λ e, default 0 (cost <$> assoc e.1 entries)) entries = sum_list_with (λ e, cost e.2) entries.
Proof.
  intros Hnd. assert (∀ l : list (string * ConstValue), l ⊆ entries →
    sum_list_with (λ e, default 0 (cost <$> assoc e.1 entries)) l = sum_list_with (λ e, cost e.2) l) as H; [|by apply H].
  induction l as [|[k v] l IH]; intros Hl; [done|]. cbn [sum_list_with fst snd].
  rewrite (proj2 (assoc_Some k entries v Hnd)) by set_solver. cbn [fmap option_fmap option_map default]. rewrite IH by set_solver. done.
Qed.
Lemma sum_list_with_fmap {A B} (f : B → nat) (g : A → B) l : sum_list_with f (g <$> l) = sum_list_with (λ x, f (g x)) l.
Proof. induction l as [|x l IH]; [done|]. rewrite fmap_cons. cbn [sum_list_with]. by rewrite IH. Qed.

(** A value that is neither a list nor null. *)
Lemma coerce_other v cur specs (nested : bool) ty path s :
  (∀ ty, type_ok schema ty →
    outcome (cost v - 32) s (spec_named schema v specs (stype ty)) (coerce_named_type number_text schema location v cur ty path)) →
  type_ok schema ty → room s (cost v) →
  outcome (cost v) s
    (match st_lists (stype ty) with
     | [] => spec_named schema v specs (stype ty)
     | _ :: lists => if nested then None else in_lists (S (length lists)) <$> spec_named schema v specs (stype ty)
     end)
    (if negb nested && is_list (wrapping ty) then
       value ← coerce_named_type number_text schema location v cur ty path;
       wrap_in_lists (length (list_wrappings (wrapping ty))) value
     else
       match pop_list_wrapping (wrapping ty) with
       | (None, w) => coerce_named_type number_text schema location v cur (MkType (definition_id ty) w) path
       | (Some list_wrapping, w) =>
           expected ← cm_lift (ty ← type_wrapped_by (MkType (definition_id ty) w) list_wrapping; type_text schema ty);
           cm_fail (MissingList (value_kind v) expected (value_path_to_string path) location)
       end).
Proof.
  intros Hn Hty Hr. assert (32 ≤ cost v) as Hc by (destruct v; simpl; unfold base_cost; lia).
  rewrite is_list_spec by apply Hty. pose proof (pop_spec ty Hty) as Hp.
  destruct (pop_list_wrapping (wrapping ty)) as [[l|] w].
  - destruct Hp as (Hl & _ & _ & text & Htext). rewrite Hl. destruct nested; cbn [negb andb].
    + eapply outcome_lift; [exact Htext|]. apply outcome_fail.
    + rewrite bool_decide_eq_true_2 by done.
      assert (length (list_wrappings (wrapping ty)) = S (length (st_lists (stype (MkType (definition_id ty) w))))) as Hlen.
      { rewrite list_wrappings_abs by apply Hty. rewrite <-length_reverse. change (reverse _) with (st_lists (stype ty)). by rewrite Hl. }
      assert (S (length (st_lists (stype (MkType (definition_id ty) w)))) ≤ 32) as Hb.
      { rewrite <-Hlen, list_wrappings_abs, a_lists_length by apply Hty. pose proof (end_range (wrapping ty)). lia. }
      rewrite Hlen. eapply outcome_weaken; [|eapply (outcome_bind schema (cost v - 32) s _ _ _ _ 32); [by apply Hn|]]; [lia|].
      intros t s1 x _ Hg Ht Hrx.
      destruct (wrap_in_lists_spec (sizes s) (S (length (st_lists (stype (MkType (definition_id ty) w))))) x s1 t) as (s' & x' & E & Hg' & Ht' & Hr').
      * apply grew_sizes in Hg. apply Hg.
      * done.
      * unfold room in *. lia.
      * exists s', x'. split_and!; [done|done|lia|done].
  - destruct Hp as (Hl & Hty' & Hst). rewrite Hl, <-Hst. rewrite bool_decide_eq_false_2 by (intros H; by apply H). rewrite andb_false_r.
    eapply outcome_weaken; [|by apply Hn]. lia.
Qed.
Lemma coerce_spec v :
  schema_ok schema → const_ok v → ∀ nested ty path s, type_ok schema ty → room s (cost v) →
  outcome (cost v) s (spec schema v nested (stype ty)) (coerce number_text schema location v nested ty path).
Proof.
  intros Hs. induction v as [|n|x|b| |x|items IH|entries IH] using ConstValue_ind'; intros Hv nested ty path s Hty Hr;
    cbn [coerce spec]; rewrite ?andb_true_r, ?andb_false_r.
  2,3,4,6: eapply (coerce_other _ [] []); [|done|done]; intros ty' Hty'; by apply (coerce_named_spec _ _ _ (λ _, 0)).
  - (* null *)
    pose proof (pop_spec ty Hty) as Hp. destruct (pop_list_wrapping (wrapping ty)) as [[l|] w].
    + destruct Hp as (Hl & _ & _ & text & Htext). rewrite Hl. destruct l; [|leaf].
      eapply outcome_lift; [exact Htext|]. apply outcome_fail.
    + destruct Hp as (Hl & Hty' & Hst). rewrite Hl, <-Hst. eapply outcome_weaken; [|by apply (coerce_named_spec _ _ _ (λ _, 0))]. lia.
  - destruct Hv.
  - (* a list *)
    simpl in Hv. rewrite foldr_and, Forall_forall in Hv. rewrite Forall_forall in IH.
    assert (cost (CList items) = base_cost schema + length items + sum_list_with cost items) as Hcost by (simpl; by rewrite sum_list_fmap).
    pose proof (pop_spec ty Hty) as Hp. destruct (pop_list_wrapping (wrapping ty)) as [[l|] w].
    + destruct Hp as (Hl & Hst & Hty' & _). rewrite Hl. change (st_definition (stype ty)) with (definition_id ty). rewrite <-Hst.
      eapply outcome_weaken; [|apply (list_outcome schema _ (λ i, spec schema i true (stype (MkType (definition_id ty) w))) cost)].
      * rewrite Hcost. lia.
      * intros v idx s' Hin Hr'. exact (IH v Hin (Hv v Hin) true _ _ s' Hty' Hr').
      * rewrite Hcost in Hr. eapply room_le; [|exact Hr]. lia.
    + destruct Hp as (Hl & Hty' & Hst). rewrite Hl, <-Hst. eapply outcome_weaken; [|apply (coerce_named_spec _ _ _ (λ _, 0)); try done]; [lia|].
      simpl. by rewrite foldr_and, Forall_forall.
  - (* an object *)
    simpl in Hv. destruct Hv as [Hnd Hv]. rewrite foldr_and in Hv.
    assert (cost (CObject entries) = base_cost schema + length entries + sum_list_with (λ e, cost e.2) entries) as Hcost
      by (simpl; by rewrite sum_list_fmap).
    eapply coerce_other; [|done|done]. intros ty' Hty'.
    apply (coerce_named_spec _ _ _ (λ k, default 0 (cost <$> assoc k entries))); try done.
    { simpl. split; [done|]. by rewrite foldr_and. }
    intros entries' [= <-]. rewrite <-!list_fmap_compose. split; [done|]. split; [done|]. split.
    + intros k.
      rewrite (assoc_fmap (λ v ty path, coerce number_text schema location v false ty path)), (assoc_fmap (λ v st, spec schema v false st)).
      destruct (assoc k entries) as [v|] eqn:E; cbn [fmap option_fmap option_map]; [|done].
      intros ty'' path' s' Hty'' Hr'. apply assoc_Some in E; [|done]. rewrite Forall_forall in IH, Hv. apply (IH (k, v) E); [by apply (Hv (k, v))|done|done].
    + rewrite sum_list_with_fmap. cbn [fst]. rewrite sum_costs by done. rewrite Hcost. unfold base_cost. lia.
Qed.
End coercion.
