(* ===== verification/EngineCoerceClaims.v ===== *)
(** * [engine-v2]: coercion of variables and literals is right

    What [coerce_variable] and [bind_variables] return, read from the store they
    write, is what the rules of [EngineCoerceProps.v] say and has the type that
    was asked for; a literal is coerced like a variable with the same value. *)
From Stdlib Require Import ZArith SpecFloat.
From stdpp Require Import pretty.
From S2P Require Import Prelude RustStd Wrapping IdNewtypes EngineCoerce EngineCoerceProps.
Local Open Scope string_scope.
Local Open Scope list_scope.
Local Open Scope nat_scope.

(** ** Reading what was written *)
Fixpoint height (t : InputValue) : nat :=
  match t with
  | IList ts => S (max_list_with height ts)
  | IInputObject ts => S (max_list_with (λ e, height e.2) ts)
  | IMap ts => S (max_list_with (λ e, height e.2) ts)
  | _ => 1
  end.
Lemma height_pos t : 1 ≤ height t.
Proof. destruct t; simpl; lia. Qed.
Lemma max_list_elem {A} (f : A → nat) l x : x ∈ l → f x ≤ max_list_with f l.
Proof. induction 1; simpl; lia. Qed.
Lemma cells_weaken {T} (P Q : nat → T → Prop) ts i : (∀ k t, t ∈ ts → P k t → Q k t) → cells P ts i → cells Q ts i.
Proof. intros H. apply cells_impl, Forall_forall. eauto. Qed.
Lemma cells_length {T X} (l : list X) (R : X → T → Prop) ts i :
  i ≤ length l → cells (λ i t, ∃ x, l !! i = Some x ∧ R x t) ts i → i + length ts ≤ length l.
Proof.
  revert i. induction ts as [|t ts IH]; intros i Hi; [simpl; lia|]. intros [(x & Hx & _) Hc]. apply lookup_lt_Some in Hx. cbn [length].
  specialize (IH (S i) ltac:(lia) Hc). lia.
Qed.
Lemma cells_mapM {T X} (l : list X) (R : X → T → Prop) (f : X → res T) ts i :
  (∀ x t, t ∈ ts → R x t → f x = Ret t) →
  cells (λ i t, ∃ x, l !! i = Some x ∧ R x t) ts i →
  mapM_res (λ i, x ← at_index l i; f x) (seq i (length ts)) = Ret ts ∧ mapM_res f (take (length ts) (drop i l)) = Ret ts.
Proof.
  revert i. induction ts as [|t ts IH]; intros i Hf; [done|]. intros [(x & Hx & HR) Hc].
  destruct (IH (S i) ltac:(set_solver) Hc) as [IH1 IH2]. specialize (Hf x t ltac:(set_solver) HR).
  cbn [seq length mapM_res]. rewrite (at_index_ok _ _ _ Hx). cbn [mbind res_bind]. rewrite Hf, IH1. split; [done|].
  rewrite (drop_S _ _ _ Hx). cbn [take mapM_res]. by rewrite Hf, IH2.
Qed.
(** The same for the entries of an object or a map. *)
Lemma cells_entries {K} schema b s (l : list (K * VariableInputValue)) (f : VariableInputValue → res InputValue) ts i :
  (∀ x t, t ∈ ts → reads schema b s t.2 x → f x = Ret t.2) → i ≤ length l →
  cells (λ i t, ∃ x, l !! i = Some (t.1, x) ∧ reads schema b s t.2 x) ts i →
  (entries ← range_of l (i, i + length ts); mapM_res (λ e, v ← f e.2; Ret (e.1, v)) entries) = Ret ts.
Proof.
  intros Hf Hi Hc. unfold range_of. cbn [fst snd].
  set (R := λ (x : K * VariableInputValue) (t : K * InputValue), x.1 = t.1 ∧ reads schema b s t.2 x.2).
  apply (cells_weaken _ (λ i t, ∃ x, l !! i = Some x ∧ R x t)) in Hc; [|by intros k t _ (x & Hx & Hrx); exists (t.1, x)].
  pose proof (cells_length _ _ _ _ Hi Hc). rewrite decide_True by lia. cbn [mbind res_bind].
  replace (i + length ts - i) with (length ts) by lia. eapply (λ H, proj2 (cells_mapM l R _ ts i H Hc)).
  intros x t Ht [Hx1 Hx2]. rewrite (Hf _ _ Ht Hx2). cbn [mbind res_bind]. rewrite Hx1. by destruct t.
Qed.
Lemma reads_read schema b s t v fuel : reads schema b s t v → height t ≤ fuel → to_input_value schema s fuel v = Ret t.
Proof.
  revert v fuel. induction t as [t Ht|ts IH|ts IH|ts IH] using InputValue_ind'; intros v fuel Hr Hf;
    (assert (1 ≤ fuel) by (etrans; [apply height_pos|exact Hf])); (destruct fuel as [|fuel]; [lia|]);
    try rewrite Forall_forall in IH; simpl in Hf.
  - destruct t; try done; destruct Hr as [(did & -> & Hd)|Hr]; try (by apply at_index_ok); by subst.
  - destruct Hr as [(id & -> & Hd)|(i & -> & Hi & Hc)]; [by apply at_index_ok|]. cbn [to_input_value fst snd].
    replace (i + length ts - i) with (length ts) by lia.
    rewrite (proj1 (cells_mapM (values s) _ (to_input_value schema s fuel) ts i ltac:(intros x t Ht Hx;
      apply (IH t Ht); [exact Hx|pose proof (max_list_elem height ts t Ht); lia]) Hc)). done.
  - destruct Hr as [(id & -> & Hd)|(i & -> & Hi & Hc)]; [by apply at_index_ok|]. cbn [to_input_value].
    apply (cells_entries _ _ _ _ (to_input_value schema s fuel)) in Hc; [|intros x t Ht Hx; apply (IH t Ht); [exact Hx|]|lia].
    2:{ pose proof (max_list_elem (λ e, height e.2) ts t Ht). simpl in *. lia. }
    destruct (range_of _ _) as [es|]; [|done]. cbn [mbind res_bind] in *. by rewrite Hc.
  - destruct Hr as [(id & -> & Hd)|(i & -> & Hi & Hc)]; [by apply at_index_ok|]. cbn [to_input_value].
    apply (cells_entries _ _ _ _ (to_input_value schema s fuel)) in Hc; [|intros x t Ht Hx; apply (IH t Ht); [exact Hx|]|lia].
    2:{ pose proof (max_list_elem (λ e, height e.2) ts t Ht). simpl in *. lia. }
    destruct (range_of _ _) as [es|]; [|done]. cbn [mbind res_bind] in *. by rewrite Hc.
Qed.
Lemma mapM_res_mono {A B} (f g : A → res B) l ys : (∀ x y, f x = Ret y → g x = Ret y) → mapM_res f l = Ret ys → mapM_res g l = Ret ys.
Proof.
  intros H. revert ys. induction l as [|x l IH]; intros ys; [done|]. cbn [mapM_res]. destruct (f x) as [y|] eqn:E; [|done].
  cbn [mbind res_bind]. rewrite (H _ _ E). destruct (mapM_res f l) as [ys'|]; [|done]. by rewrite (IH ys' eq_refl).
Qed.
Lemma to_input_value_fuel schema s fuel fuel' v t :
  fuel ≤ fuel' → to_input_value schema s fuel v = Ret t → to_input_value schema s fuel' v = Ret t.
Proof.
  revert fuel' v t. induction fuel as [|fuel IH]; intros [|fuel'] v t Hf Ht; [done|done|lia|].
  assert (∀ v t, to_input_value schema s fuel v = Ret t → to_input_value schema s fuel' v = Ret t) as Hstep by (intros v' t'; apply IH; lia).
  assert (∀ {K} (l : list (K * VariableInputValue)) ys, mapM_res (λ e, v ← to_input_value schema s fuel e.2; Ret (e.1, v)) l = Ret ys →
    mapM_res (λ e, v ← to_input_value schema s fuel' e.2; Ret (e.1, v)) l = Ret ys) as Hes.
  { intros K l ys. apply mapM_res_mono. intros e y. destruct (to_input_value _ _ fuel _) eqn:E; [|done]. by rewrite (Hstep _ _ E). }
  destruct v; try done; cbn [to_input_value] in *.
  - destruct (range_of _ _) as [es|]; [|done]. cbn [mbind res_bind] in *. destruct (mapM_res _ es) eqn:E in Ht; [|done]. by rewrite (Hes _ _ _ E).
  - destruct (mapM_res _ _) as [ys|] eqn:E in Ht; [|done]. erewrite mapM_res_mono; [exact Ht| |exact E].
    intros i y. cbn beta. destruct (at_index (values s) i); [|done]. apply Hstep.
  - destruct (range_of _ _) as [es|]; [|done]. cbn [mbind res_bind] in *. destruct (mapM_res _ es) eqn:E in Ht; [|done]. by rewrite (Hes _ _ _ E).
Qed.
Lemma all_some_is_Some {A B} (f : A → option B) l : is_Some (all_some (f <$> l)) ↔ Forall (λ x, is_Some (f x)) l.
Proof.
  induction l as [|x l IH]; [split; [constructor|by eexists]|]. rewrite fmap_cons, all_some_cons, Forall_cons, <-IH.
  destruct (f x) as [y|]; cbn [mbind option_bind]; [|split; [by intros []|by intros [[] _]]].
  destruct (all_some _); cbn [mbind option_bind]; split; [by split; eexists|by eexists|by intros []|by intros [_ []]].
Qed.
Lemma fmap_nil_iff {A B} (f : A → B) l : f <$> l = [] ↔ l = [].
Proof. by destruct l. Qed.

(** ** Variables *)
Section variables.
Context (number_text : CNumber → string) (schema : ESchema).

(** The cell [id] of a store holds a value that reads as [t]. *)
Definition holds_value (s : VariableInputValues) (id : nat) (t : InputValue) : Prop :=
  ∃ x, values s !! id = Some x ∧ ∀ fuel, height t ≤ fuel → to_input_value schema s fuel x = Ret t.
Lemma coerce_variable_outcome d v s :
  schema_ok schema → type_ok schema (vd_ty d) → const_ok v → room s (S (cost schema v)) →
  match spec schema v false (stype (vd_ty d)) with
  | Some t => ∃ s' id x, coerce_variable number_text schema d v s = Ret (s', inr id) ∧ grew s s' ∧
      total s' ≤ total s + S (cost schema v) ∧ values s' !! id = Some x ∧ reads schema (MkSizes 0 0 0) s' t x
  | None => ∃ s' e, coerce_variable number_text schema d v s = Ret (s', inl e) ∧ total s' ≤ total s + S (cost schema v)
  end.
Proof.
  intros Hs Hty Hv Hr.
  pose proof (coerce_spec number_text schema (name_location d) v Hs Hv false (vd_ty d) [] s Hty) as H.
  specialize (H ltac:(unfold room in *; lia)). unfold coerce_variable, coerce_input_value.
  destruct (spec schema v false (stype (vd_ty d))) as [t|]; simpl in H.
  - destruct H as (s1 & x & E & Hg & Ht & Hrd). rewrite (cm_bind_ok _ _ _ _ _ E). unfold cm_state, push_value.
    unfold room, total in *. rewrite id_from_small by lia. eexists _, _, x. split; [reflexivity|]. cbn [fst snd values input_fields key_values].
    assert (grew s1 (MkStore (values s1 ++ [x]) (input_fields s1) (key_values s1))) as Hg1 by (split; simpl; [by apply prefix_app_r|done|done]).
    split; [by etrans|]. split; [rewrite length_app; simpl; lia|]. split; [by apply list_lookup_middle|].
    eapply reads_frame; [exact Hrd|by apply grew_frame|split; simpl; lia].
  - destruct H as (s1 & e & E & Ht). exists s1, e. split; [by rewrite (cm_bind_err _ _ _ _ _ E)|lia].
Qed.

(** What a variable is bound to: nothing that is allowed ([None]), no value or a value. *)
Definition variable_result (request_variables : gmap string ConstValue) (d : VariableDefinition) : option (option InputValue) :=
  match request_variables !! vd_name d with
  | Some v => Some <$> spec schema v false (stype (vd_ty d))
  | None => if bool_decide (vd_default_value d = None) && st_required (stype (vd_ty d)) then None else Some None
  end.
Definition error_name (e : VariableError) : string := match e with MissingVariable name _ | InvalidValue name _ => name end.
Definition variable_cost (request_variables : gmap string ConstValue) (d : VariableDefinition) : nat :=
  match request_variables !! vd_name d with Some v => S (cost schema v) | None => 0 end.
Definition bound_to (s : VariableInputValues) (v : VariableValue) (r : option InputValue) : Prop :=
  match v, r with
  | Undefined, None => True
  | InputValueId id, Some t => ∃ x, values s !! id = Some x ∧ reads schema (MkSizes 0 0 0) s t x
  | _, _ => False
  end.
Lemma bound_to_grew s s' v r : grew s s' → bound_to s v r → bound_to s' v r.
Proof.
  intros Hg. destruct v as [|id], r as [t|]; try done. intros (x & Hx & Hr). exists x. split; [eapply prefix_lookup_Some; [exact Hx|apply Hg]|].
  eapply reads_frame; [exact Hr|by apply grew_frame|apply sizes_le_refl].
Qed.
Lemma bind_variables_loop_spec request0 defs :
  schema_ok schema → (∀ k v, request0 !! k = Some v → const_ok v) →
  ∀ request done store errors,
  NoDup (vd_name <$> defs) → Forall (λ d, type_ok schema (vd_ty d)) defs →
  (∀ d, d ∈ defs → request !! vd_name d = request0 !! vd_name d) →
  room store (sum_list_with (variable_cost request0) defs) →
  ∃ store' new errs,
    bind_variables_loop number_text schema (length done) defs request
      (MkVariables store (done ++ replicate (length defs) Undefined)) errors =
    Ret (MkVariables store' (done ++ new), errors ++ errs) ∧ length new = length defs ∧
    error_name <$> errs = vd_name <$> filter (λ d, variable_result request0 d = None) defs ∧
    ∀ rs, all_some (variable_result request0 <$> defs) = Some rs → grew store store' ∧ Forall2 (bound_to store') new rs.
Proof.
  intros Hs Hreq. induction defs as [|d defs IH]; intros request done store errors Hnd Hty Hsame Hr.
  { exists store, [], []. rewrite !app_nil_r. split_and!; [done..|]. intros rs [= <-]. split; [reflexivity|constructor]. }
  rewrite fmap_cons in Hnd. apply NoDup_cons in Hnd as [Hd Hnd]. apply Forall_cons in Hty as [Ht Hty].
  cbn [sum_list_with] in Hr.
  assert (∀ request1 store1 v errs1, (∀ d', d' ∈ defs → request1 !! vd_name d' = request0 !! vd_name d') →
    total store1 ≤ total store + variable_cost request0 d →
    error_name <$> errs1 = (if decide (variable_result request0 d = None) then [vd_name d] else []) →
    (∀ r, variable_result request0 d = Some r → grew store store1 ∧ bound_to store1 v r) →
    ∃ store' new errs,
      bind_variables_loop number_text schema (S (length done)) defs request1
        (MkVariables store1 (done ++ v :: replicate (length defs) Undefined)) (errors ++ errs1) =
      Ret (MkVariables store' (done ++ new), errors ++ errs) ∧ length new = S (length defs) ∧
      error_name <$> errs = vd_name <$> filter (λ d, variable_result request0 d = None) (d :: defs) ∧
      ∀ rs, all_some (variable_result request0 <$> d :: defs) = Some rs → grew store store' ∧ Forall2 (bound_to store') new rs) as Hstep.
  { intros request1 store1 v errs1 Hsame1 Htot He Hv.
    destruct (IH request1 (done ++ [v]) store1 (errors ++ errs1)) as (store' & new & errs & E & Hl & Hn & Hrs); [done..|unfold room in *; lia|].
    rewrite length_app, Nat.add_1_r, <-!app_assoc in E. exists store', (v :: new), (errs1 ++ errs).
    split; [exact E|]. split; [simpl; by rewrite Hl|]. split.
    - rewrite fmap_app, He, Hn, filter_cons. by destruct (decide _).
    - intros rs. rewrite fmap_cons, all_some_cons. destruct (variable_result request0 d) as [r|]; [|done].
      destruct (all_some _) as [rs'|]; [|done]. intros [= <-]. destruct (Hv r eq_refl) as [Hg Hb], (Hrs rs' eq_refl) as [Hg' Hb'].
      split; [by etrans|]. constructor; [by eapply bound_to_grew|done]. }
  cbn [bind_variables_loop length replicate var_input_values]. rewrite (Hsame d) by set_solver.
  assert (variable_cost request0 d = match request0 !! vd_name d with Some v => S (cost schema v) | None => 0 end) as Hcost by done.
  assert (variable_result request0 d = match request0 !! vd_name d with
    | Some v => Some <$> spec schema v false (stype (vd_ty d))
    | None => if bool_decide (vd_default_value d = None) && st_required (stype (vd_ty d)) then None else Some None
    end) as Hres by done.
  rewrite Hcost in *. rewrite Hres in Hstep. destruct (request0 !! vd_name d) as [value|] eqn:Ev.
  - pose proof (coerce_variable_outcome d value store Hs Ht (Hreq _ _ Ev) ltac:(unfold room in *; lia)) as Hc.
    assert (∀ d', d' ∈ defs → <[vd_name d := CNull]> request !! vd_name d' = request0 !! vd_name d') as Hsame'.
    { intros d' Hd'. rewrite lookup_insert_ne; [apply Hsame; set_solver|]. intros E. apply Hd. rewrite E. by apply list_elem_of_fmap_2. }
    destruct (spec schema value false (stype (vd_ty d))) as [t|]; cbn [fmap option_fmap option_map] in Hstep.
    + destruct Hc as (s' & id & x & E & Hg & Htot & Hx & Hrd). rewrite E. cbn [mbind res_bind fst snd definition_to_value].
      rewrite insert_app_r_alt, Nat.sub_diag by done. specialize (Hstep _ s' (InputValueId id) [] Hsame' Htot eq_refl).
      rewrite app_nil_r in Hstep. apply Hstep. intros r [= <-]. split; [done|by exists x].
    + destruct Hc as (s' & e & E & Htot). rewrite E. cbn [mbind res_bind fst snd definition_to_value].
      apply (Hstep _ s' Undefined [InvalidValue (vd_name d) e] Hsame' Htot eq_refl). done.
  - rewrite (required_spec _ (proj1 Ht)). specialize (Hstep request store Undefined
      (if bool_decide (vd_default_value d = None) && st_required (stype (vd_ty d)) then [MissingVariable (vd_name d) (name_location d)] else [])
      ltac:(intros; apply Hsame; set_solver) ltac:(lia)).
    destruct (bool_decide (vd_default_value d = None) && st_required (stype (vd_ty d))).
    + by apply Hstep.
    + rewrite app_nil_r in Hstep. apply Hstep; [done|]. by intros r [= <-].
Qed.
End variables.

(** ** Types of trees *)
Section types.
Context (schema : ESchema).
Fixpoint json_tree (t : InputValue) : bool :=
  match t with
  | INull | IString _ | IFloat _ | IBigInt _ | IU64 _ | IBoolean _ => true
  | IList ts => forallb json_tree ts
  | IMap ts => forallb (λ e, json_tree e.2) ts
  | _ => false
  end.
Definition scalar_tree (ty : ScalarType) (t : InputValue) : bool :=
  match ty, t with
  | SString, IString _ | SFloat, IFloat _ | SBoolean, IBoolean _ => true
  | SInt, IInt n => bool_decide (- 2 ^ 31 ≤ n < 2 ^ 31)%Z
  | SBigInt, IBigInt _ => true
  | SJSON, t => json_tree t
  | _, _ => false
  end.
(** The fields of an object, in the order of their definitions: each has the
    type of its field, and only one that may be absent is. *)
Definition fields_typed : list (nat * InputValueDefinition) → list (nat * (SType → bool)) → bool :=
  fix go definitions fields :=
    match definitions with
    | [] => match fields with [] => true | _ => false end
    | d :: definitions =>
        match fields with
        | f :: fields' =>
            if decide (f.1 = d.1) then f.2 (stype (iv_ty d.2)) && go definitions fields'
            else negb (st_required (stype (iv_ty d.2))) && go definitions fields
        | [] => negb (st_required (stype (iv_ty d.2))) && go definitions []
        end
    end.
Fixpoint has_type (t : InputValue) (st : SType) : bool :=
  match t with
  | INull => negb (st_required st)
  | _ =>
      match st_lists st with
      | l :: lists =>
          match t with IList ts => forallb (λ t, has_type t (MkSType (st_definition st) (st_inner st) lists)) ts | _ => false end
      | [] =>
          match st_definition st with
          | DefScalar id => match scalar_definitions schema !! id with Some s => scalar_tree s.2 t | None => false end
          | DefEnum id =>
              match enum_definitions schema !! id, t with
              | Some e, IEnumValue i => bool_decide (e.2.1 ≤ i < e.2.2)
              | _, _ => false
              end
          | DefInputObject id =>
              match input_object_definitions schema !! id, t with
              | Some o, IInputObject fs => fields_typed (definitions_in schema o.2) ((λ f, (f.1, has_type f.2)) <$> fs)
              | _, _ => false
              end
          | _ => false
          end
      end
  end.
(** Default values have the types of their fields. *)
Definition defaults_typed : Prop :=
  ∀ i d id t, input_value_definitions schema !! i = Some d → default_value_id d = Some id →
    default_input_values schema !! id = Some t → has_type t (stype (iv_ty d)).

Lemma all_some_forallb {A B} (f : A → option B) (P : B → bool) l ts :
  (∀ x t, x ∈ l → f x = Some t → P t) → all_some (f <$> l) = Some ts → forallb P ts.
Proof.
  revert ts. induction l as [|x l IH]; intros ts HP; [by intros [= <-]|]. rewrite fmap_cons, all_some_cons.
  destruct (f x) as [t|] eqn:E; [|done]. cbn [mbind option_bind]. destruct (all_some (f <$> l)) as [ts'|] eqn:E'; [|done].
  intros [= <-]. simpl. apply andb_prop_intro. split; [apply (HP x); [set_solver|done]|]. apply IH; [|done]. intros y t' Hy. apply HP. set_solver.
Qed.
Lemma spec_json_tree v t : spec_json v = Some t → json_tree t.
Proof.
  revert t. induction v as [|n|x|b| |x|items IH|entries IH] using ConstValue_ind'; intros t; cbn [spec_json].
  - by intros [= <-].
  - unfold spec_number. destruct (as_f64 n), (as_i64 n), (as_u64 n); by intros [= <-].
  - by intros [= <-].
  - by intros [= <-].
  - done.
  - done.
  - rewrite Forall_forall in IH. destruct (all_some _) as [ts|] eqn:E; [|done]. intros [= <-]. cbn [json_tree].
    exact (all_some_forallb spec_json json_tree items ts (λ x t Hx, IH x Hx t) E).
  - rewrite Forall_forall in IH. destruct (all_some _) as [ts|] eqn:E; [|done]. intros [= <-]. cbn [json_tree].
    eapply all_some_forallb; [|exact E]. intros e t He. simpl. destruct (spec_json e.2) as [t'|] eqn:E'; [|done].
    intros [= <-]. by apply (IH e).
Qed.
Lemma spec_scalar_tree ty v t : spec_scalar ty v = Some t → scalar_tree ty t.
Proof.
  destruct ty; [| | | |exact (spec_json_tree v t)|]; destruct v as [|n|x|b| |x|items|entries]; simpl; try done;
    try (by intros [= <-]).
  - destruct (as_f64 n); [|done]. by intros [= <-].
  - destruct (as_i64 n) as [i|]; [|done]. simpl. destruct (decide _) as [Hd|]; [|done]. intros [= <-]. simpl. by apply bool_decide_pack.
  - destruct (as_i64 n); [|done]. by intros [= <-].
Qed.
Lemma spec_scalar_not_null ty v t : v ≠ CNull → spec_scalar ty v = Some t → t ≠ INull.
Proof.
  intros Hv H ->. destruct ty, v as [|n|x|b| |x|items|entries]; simpl in H; try done.
  - by destruct (as_f64 n).
  - destruct (as_i64 n); [|done]. simpl in H. by destruct (decide _).
  - by destruct (as_i64 n).
  - unfold spec_number in H. by destruct (as_f64 n), (as_i64 n), (as_u64 n).
  - by destruct (all_some _).
  - by destruct (all_some _).
Qed.
Definition typed_named (definition : DefinitionId) (t : InputValue) : bool :=
  match definition with
  | DefScalar id => match scalar_definitions schema !! id with Some s => scalar_tree s.2 t | None => false end
  | DefEnum id =>
      match enum_definitions schema !! id, t with
      | Some e, IEnumValue i => bool_decide (e.2.1 ≤ i < e.2.2)
      | _, _ => false
      end
  | DefInputObject id =>
      match input_object_definitions schema !! id, t with
      | Some o, IInputObject fs => fields_typed (definitions_in schema o.2) ((λ f, (f.1, has_type f.2)) <$> fs)
      | _, _ => false
      end
  | _ => false
  end.
Lemma has_type_named t st : st_lists st = [] → t ≠ INull → typed_named (st_definition st) t → has_type t st.
Proof. intros Hl Hn Ht. destruct t; try done; cbn [has_type]; rewrite Hl; exact Ht. Qed.
Lemma spec_named_other v fields st t :
  v ≠ CNull → spec_named schema v fields st = Some t →
  match st_definition st with
  | DefScalar id => s ← scalar_definitions schema !! id; spec_scalar s.2 v
  | DefEnum id =>
      e ← enum_definitions schema !! id;
      match v with CEnum name | CString name => spec_enum schema e.2 name | _ => None end
  | DefInputObject id =>
      o ← input_object_definitions schema !! id;
      match v with CObject _ => spec_object schema o.2 fields | _ => None end
  | _ => None
  end = Some t.
Proof. by destruct v. Qed.
Lemma definitions_in_lookup range d : d ∈ definitions_in schema range → input_value_definitions schema !! d.1 = Some d.2.
Proof.
  unfold definitions_in. rewrite list_elem_of_omap. intros (i & _ & Hi).
  destruct (input_value_definitions schema !! i) as [d'|] eqn:E; [|done]. by injection Hi as <-.
Qed.
Lemma definitions_in_nodup range : NoDup (definitions_in schema range).*1.
Proof.
  unfold definitions_in. generalize (NoDup_seq range.1 (range.2 - range.1)). generalize (seq range.1 (range.2 - range.1)). intros l.
  assert (∀ l, (omap (λ i, pair i <$> input_value_definitions schema !! i) l).*1 ⊆ l) as Hsub.
  { intros l' j Hj. apply list_elem_of_fmap in Hj as ([j' d] & -> & Hj). apply list_elem_of_omap in Hj as (k & Hk & Ek).
    destruct (_ !! k); [|done]. by injection Ek as <- _. }
  induction l as [|i l IH]; intros Hnd; [constructor|]. apply NoDup_cons in Hnd as [Hi Hnd].
  unfold omap. cbn [list_omap]. fold (@omap list _ nat (nat * InputValueDefinition)).
  destruct (input_value_definitions schema !! i); cbn [fmap option_fmap option_map]; [|by apply IH].
  rewrite fmap_cons. apply NoDup_cons. split; [intros Hj; apply Hi; by apply (Hsub l)|by apply IH].
Qed.
Lemma spec_field_ids fields defs fss i :
  all_some (spec_field schema fields <$> defs) = Some fss → i ∈ (concat fss).*1 → i ∈ defs.*1.
Proof.
  revert fss. induction defs as [|d defs IH]; intros fss; [by intros [= <-]|]. rewrite !fmap_cons, all_some_cons.
  destruct (spec_field schema fields d) as [fs|] eqn:E; [|done]. destruct (all_some _) as [fss'|] eqn:E'; [|done]. intros [= <-].
  cbn [concat]. rewrite fmap_app. assert (fs.*1 ⊆ [d.1]) as Hsub; [|specialize (IH _ eq_refl); set_solver].
  unfold spec_field in E. destruct (assoc _ fields) as [f|]; [destruct (f _); simplify_eq/=; set_solver|].
  destruct (default_value_id d.2) as [id|]; [destruct (_ !! id); simplify_eq/=; set_solver|].
  destruct (st_required _); simplify_eq/=. set_solver.
Qed.
(** A closure of the specification that returns trees of the type. *)
Definition typed_closure (f : SType → option InputValue) : Prop := ∀ st t, f st = Some t → has_type t st.
Lemma spec_fields_typed fields defs fss :
  defaults_typed → (∀ d, d ∈ defs → input_value_definitions schema !! d.1 = Some d.2) → NoDup defs.*1 →
  (∀ k f, assoc k fields = Some f → typed_closure f) →
  all_some (spec_field schema fields <$> defs) = Some fss →
  fields_typed defs ((λ f, (f.1, has_type f.2)) <$> concat fss).
Proof.
  intros Hdef Hlook Hnd Hf. revert fss. induction defs as [|d defs IH]; intros fss; [by intros [= <-]|].
  rewrite fmap_cons, all_some_cons. rewrite fmap_cons in Hnd. apply NoDup_cons in Hnd as [Hd Hnd].
  specialize (IH ltac:(set_solver) Hnd). pose proof (Hlook d ltac:(set_solver)) as Hl.
  destruct (spec_field schema fields d) as [fs|] eqn:E; [|done]. destruct (all_some _) as [fss'|] eqn:E'; [|done]. intros [= <-].
  specialize (IH _ eq_refl). cbn [concat]. rewrite fmap_app.
  assert ((∃ t, fs = [(d.1, t)] ∧ has_type t (stype (iv_ty d.2))) ∨ fs = [] ∧ st_required (stype (iv_ty d.2)) = false) as [(t & -> & Ht)|[-> Hr]].
  { unfold spec_field in E. destruct (assoc _ fields) as [f|] eqn:Ef.
    - destruct (f _) as [t|] eqn:Et; [|done]. injection E as <-. left. exists t. split; [done|]. by eapply Hf.
    - destruct (default_value_id d.2) as [id|] eqn:Eid.
      + destruct (default_input_values schema !! id) as [t|] eqn:Et; [|done]. injection E as <-. left. exists t. split; [done|]. by eapply Hdef.
      + destruct (st_required _); [done|]. injection E as <-. by right. }
  - rewrite fmap_cons. cbn [fields_typed app fst snd fmap list_fmap]. rewrite decide_True by done. by apply andb_prop_intro.
  - pose proof (spec_field_ids fields defs fss') as Hids. cbn [fmap list_fmap app fields_typed]. rewrite Hr.
    destruct (concat fss') as [|[i t] fs']; [exact IH|]. rewrite fmap_cons in IH |- *. cbn [fst snd]. rewrite decide_False; [exact IH|].
    intros ->. apply Hd, (Hids _ E'). set_solver.
Qed.
Lemma spec_named_typed v fields st t :
  defaults_typed → (v = CNull → st_lists st = []) → (∀ k f, assoc k fields = Some f → typed_closure f) →
  spec_named schema v fields st = Some t → has_type t (MkSType (st_definition st) (st_inner st) []).
Proof.
  intros Hdef Hnull Hf Hsp. assert (v = CNull ∨ v ≠ CNull) as [->|Hv] by (destruct v; auto).
  { simpl in Hsp. destruct (st_required st) eqn:Hr; [done|]. injection Hsp as <-. cbn [has_type]. unfold st_required in *. simpl.
    rewrite (Hnull eq_refl) in Hr. by rewrite Hr. }
  apply (spec_named_other v _ _ _ Hv) in Hsp. assert (t ≠ INull ∧ Is_true (typed_named (st_definition st) t)) as [Ht Ht'].
  { unfold typed_named. destruct (st_definition st) as [id|id|id|id|id|id]; try done.
    - destruct (enum_definitions schema !! id) as [e|]; [|done]. simpl in Hsp.
      assert (∃ name, spec_enum schema e.2 name = Some t) as [name Hn] by (destruct v; try done; eauto). clear Hsp. unfold spec_enum in Hn.
      destruct (list_find _ _) as [[j i]|] eqn:E; [|done]. injection Hn as <-. split; [done|]. apply bool_decide_pack.
      apply list_find_Some in E as (E & _ & _). apply list_elem_of_lookup_2, elem_of_seq in E. lia.
    - destruct (input_object_definitions schema !! id) as [o|]; [|done]. simpl in Hsp. destruct v; try done. unfold spec_object in Hsp.
      destruct (forallb _ _); [|done]. destruct (all_some _) as [fss|] eqn:E; [|done]. injection Hsp as <-. split; [done|].
      eapply spec_fields_typed; [done|intros d; apply definitions_in_lookup|apply definitions_in_nodup|done|done].
    - destruct (scalar_definitions schema !! id) as [[name ty]|]; [|done]. simpl in Hsp.
      split; [by eapply spec_scalar_not_null|by eapply spec_scalar_tree]. }
  by apply has_type_named.
Qed.
Lemma in_lists_typed t definition inner lists :
  has_type t (MkSType definition inner []) → has_type (in_lists (length lists) t) (MkSType definition inner lists).
Proof.
  intros Ht. induction lists as [|l lists IH]; [done|].
  change (in_lists (length (l :: lists)) t) with (IList [in_lists (length lists) t]).
  cbn [has_type st_lists st_definition st_inner forallb]. by rewrite andb_true_r.
Qed.
Lemma spec_typed v nested st t : defaults_typed → spec schema v nested st = Some t → has_type t st.
Proof.
  intros Hdef. revert nested st t.
  assert (∀ v nested fields st t, v ≠ CNull → (∀ items, v ≠ CList items) → (∀ k f, assoc k fields = Some f → typed_closure f) →
    match st_lists st with
    | [] => spec_named schema v fields st
    | _ :: lists => if nested : bool then None else in_lists (S (length lists)) <$> spec_named schema v fields st
    end = Some t → has_type t st) as Hother.
  { intros v' nested fields [def inner lists] t Hn _ Hf. destruct lists as [|l lists]; cbn [st_lists].
    - intros Hsp. by apply spec_named_typed in Hsp.
    - destruct nested; [done|]. destruct (spec_named _ _ _ _) as [t'|] eqn:E; [|done]. intros [= <-].
      apply spec_named_typed in E; [|done..]. by apply (in_lists_typed t' def inner (l :: lists)). }
  induction v as [|n|x|b| |x|items IH|entries IH] using ConstValue_ind'; intros nested st t; cbn [spec].
  2-6: by apply Hother.
  - destruct st as [def inner [|l lists]]; cbn [st_lists].
    + intros Hsp. by apply spec_named_typed in Hsp.
    + destruct (decide (l = RequiredList)) as [|Hl]; [done|]. intros [= <-]. cbn [has_type]. unfold st_required. simpl. by rewrite bool_decide_false.
  - destruct st as [def inner [|l lists]]; cbn [st_lists].
    + intros Hsp. by apply spec_named_typed in Hsp.
    + rewrite Forall_forall in IH. destruct (all_some _) as [ts|] eqn:E; [|done]. intros [= <-]. cbn [has_type st_lists st_definition st_inner].
      eapply all_some_forallb; [|exact E]. intros v t Hv. by apply (IH v Hv).
  - apply Hother; [done..|]. intros k f. rewrite (assoc_fmap (λ v st, spec schema v false st)). destruct (assoc k entries) as [v|] eqn:E; [|done].
    intros [= <-] st' t'. rewrite Forall_forall in IH. unfold assoc in E. destruct (list_find _ _) as [[i e]|] eqn:E'; [|done].
    injection E as <-. apply list_find_Some in E' as (E' & _ & _). apply (IH e). by eapply list_elem_of_lookup_2.
Qed.
End types.

(** ** An example *)
Definition list_of (w : Wrapping) (l : ListWrapping) : Wrapping := match wrapped_by w l with Ret w => w | Panic _ => w end.
(** [enum Color { RED BLUE }] and
    [input Filter { n: Int! tags: [String!] color: Color = RED }]. *)
Definition example_schema : ESchema := {|
  scalar_definitions := [("Int", SInt); ("JSON", SJSON); ("String", SString)];
  enum_definitions := [("Color", (0, 2))];
  enum_values := ["RED"; "BLUE"];
  input_object_definitions := [("Filter", (0, 3))];
  input_value_definitions := [
    MkInputValueDefinition "n" (MkType (DefScalar 0) (new true)) None;
    MkInputValueDefinition "tags" (MkType (DefScalar 2) (list_of (new true) NullableList)) None;
    MkInputValueDefinition "color" (MkType (DefEnum 0) (new false)) (Some 0)];
  interface_names := [];
  object_names := ["Query"];
  union_names := [];
  type_definitions_ordered_by_name := [DefEnum 0; DefInputObject 0; DefScalar 0; DefScalar 1; DefObject 0; DefScalar 2];
  default_input_values := [IEnumValue 0];
|}.
(** An integer that fits 64 bits. *)
Definition integer (n : Z) : CNumber :=
  MkNumber (if decide (n < 2 ^ 63)%Z then Some n else None) (if decide (0 ≤ n)%Z then Some n else None)
    (Some (binary_normalize 53 1024 n 0 false)) false.
Definition example_variable (name : string) (ty : TypeRecord) : VariableDefinition :=
  MkVariableDefinition name (MkLocation 1 1) None false ty.
(** [$f: [Filter]!], given [{ tags: "x", n: 5 }]. *)
Definition filter_variable : VariableDefinition :=
  example_variable "f" (MkType (DefInputObject 0) (list_of (new false) RequiredList)).
Definition filter_value : ConstValue := CObject [("tags", CString "x"); ("n", CNumberValue (integer 5))].
Definition filter_tree : InputValue := IList [IInputObject [(0, IInt 5); (1, IList [IString "x"]); (2, IEnumValue 0)]].
Definition filter_store : VariableInputValues :=
  MkStore [VIString "x"; VIInputObject (0, 3); VIList (1, 2)] [(0, VIInt 5); (1, VIList (0, 1)); (2, VIDefaultValue 0)] [].
Definition integer_text (n : CNumber) : string := match as_i64 n with Some n => pretty n | None => "float" end.
Lemma list_of_wf w l : wf w → wf (list_of w l).
Proof.
  intros Hw. unfold list_of. pose proof (wrapped_by_spec w l Hw) as H. destruct (wrapped_by w l); [apply H|done].
Qed.
Lemma example_schema_ok : schema_ok example_schema.
Proof.
  split.
  - intros [|id] e H; [|done]. injection H as <-. simpl. lia.
  - intros [|id] o H; [|done]. injection H as <-. split; [simpl; lia|]. refine (bool_decide_unpack _ _). vm_compute. exact I.
  - intros [|[|[|i]]] d H; try done; injection H as <-; cbn [iv_ty default_value_id]; (split; [split; [|simpl; eauto]|]); try (by intros ? [= <-]; simpl; eauto).
    + apply (new_wf true).
    + apply list_of_wf, (new_wf true).
    + apply (new_wf false).
Qed.
Lemma filter_variable_ok : type_ok example_schema (vd_ty filter_variable).
Proof. split; [apply list_of_wf, (new_wf false)|simpl; eauto]. Qed.
Lemma filter_value_ok : const_ok filter_value.
Proof. split; [refine (bool_decide_unpack _ _); vm_compute; exact I|]. simpl. eauto. Qed.
Lemma example_defaults_typed : defaults_typed example_schema.
Proof.
  intros [|[|[|i]]] d id t H; try done; injection H as <-; try done. intros [= <-] [= <-]. vm_compute. done.
Qed.

(** ** The claims *)

(** C13. Coercing the value of a variable implements the rules for input values:
    where they give a tree, [coerce_variable] returns the id of a cell from which
    that tree is read, and everything that was in the store before is unchanged;
    where they give none, it returns an error. It never panics. *)
Theorem coerce_variable_refines number_text schema d v s :
  schema_ok schema → type_ok schema (vd_ty d) → const_ok v → room s (S (cost schema v)) →
  match spec schema v false (stype (vd_ty d)) with
  | Some t => ∃ s' id, coerce_variable number_text schema d v s = Ret (s', inr id) ∧ grew s s' ∧ holds_value schema s' id t
  | None => ∃ s' e, coerce_variable number_text schema d v s = Ret (s', inl e)
  end.
Proof.
  intros Hs Hty Hv Hr. pose proof (coerce_variable_outcome number_text schema d v s Hs Hty Hv Hr) as H.
  destruct (spec schema v false (stype (vd_ty d))) as [t|].
  - destruct H as (s' & id & x & E & Hg & _ & Hx & Hrd). exists s', id. split; [done|]. split; [done|]. exists x. split; [done|].
    intros fuel Hf. by eapply reads_read.
  - destruct H as (s' & e & E & _). by exists s', e.
Qed.
Lemma coerce_variable_refines_witness :
  ∃ s' id, coerce_variable integer_text example_schema filter_variable filter_value store_default = Ret (s', inr id) ∧
    grew store_default s' ∧ holds_value example_schema s' id filter_tree.
Proof.
  assert (spec example_schema filter_value false (stype (vd_ty filter_variable)) = Some filter_tree) as E by (vm_compute; reflexivity).
  pose proof (coerce_variable_refines integer_text example_schema filter_variable filter_value store_default
    example_schema_ok filter_variable_ok filter_value_ok ltac:(vm_compute; reflexivity)) as H.
  rewrite E in H. exact H.
Defined.

(** C14. Values that are coerced have the type that was asked for: what is read
    back is null only where that is allowed, has a list per list of the type,
    an Int that fits 32 bits, values of the enum, and for an input object each
    field of its type, once, in order, and every required one. The default
    values of the schema have their types, and the ids do not run out. *)
Theorem coerce_variable_typed number_text schema d v s s' id x fuel t :
  schema_ok schema → type_ok schema (vd_ty d) → const_ok v → room s (S (cost schema v)) → defaults_typed schema →
  coerce_variable number_text schema d v s = Ret (s', inr id) → values s' !! id = Some x →
  to_input_value schema s' fuel x = Ret t → has_type schema t (stype (vd_ty d)).
Proof.
  intros Hs Hty Hv Hr Hdef Hc Hx Ht. pose proof (coerce_variable_outcome number_text schema d v s Hs Hty Hv Hr) as H.
  destruct (spec schema v false (stype (vd_ty d))) as [t'|] eqn:E; [|destruct H as (? & ? & H & _); congruence].
  destruct H as (s1 & id' & x' & E' & _ & _ & Hx' & Hrd). rewrite E' in Hc. injection Hc as <- <-. rewrite Hx' in Hx. injection Hx as <-.
  pose proof (to_input_value_fuel schema s1 fuel (fuel + height t') x' t ltac:(lia) Ht) as Ht1.
  rewrite (reads_read _ _ _ _ _ (fuel + height t') Hrd) in Ht1 by lia. injection Ht1 as <-. by eapply spec_typed.
Qed.
Lemma coerce_variable_typed_witness : has_type example_schema filter_tree (stype (vd_ty filter_variable)).
Proof.
  apply (coerce_variable_typed integer_text example_schema filter_variable filter_value store_default filter_store 2 (VIList (1, 2)) 4 filter_tree
    example_schema_ok filter_variable_ok filter_value_ok ltac:(vm_compute; reflexivity) example_defaults_typed); vm_compute; reflexivity.
Defined.

(** C12. Binding the variables of a request: all values are right exactly when
    [bind_variables] returns them, every variable then refers to the tree that the
    rules give for its value, or to nothing where none was given; otherwise the
    errors name the variables at fault, all of them, in order. *)
Theorem bind_variables_refines number_text schema definitions request :
  schema_ok schema → (∀ k v, request !! k = Some v → const_ok v) → NoDup (vd_name <$> definitions) →
  Forall (λ d, type_ok schema (vd_ty d)) definitions →
  (Z.of_nat (sum_list_with (variable_cost schema request) definitions) < 2 ^ 32 - 1)%Z →
  match all_some (variable_result schema request <$> definitions) with
  | Some rs => ∃ variables, bind_variables number_text schema definitions request = Ret (inr variables) ∧
      Forall2 (λ v r, match v, r with
                      | Undefined, None => True
                      | InputValueId id, Some t => holds_value schema (var_input_values variables) id t
                      | _, _ => False
                      end) (definition_to_value variables) rs
  | None => ∃ errors, bind_variables number_text schema definitions request = Ret (inl errors) ∧
      error_name <$> errors = vd_name <$> filter (λ d, variable_result schema request d = None) definitions
  end.
Proof.
  intros Hs Hreq Hnd Hty Hr.
  destruct (bind_variables_loop_spec number_text schema request definitions Hs Hreq request [] store_default [] Hnd Hty) as
    (store' & new & errs & E & Hl & Hn & Hrs); [done|exact Hr|]. unfold bind_variables. simpl in E. rewrite E. cbn [mbind res_bind app].
  assert (errs = [] ↔ is_Some (all_some (variable_result schema request <$> definitions))) as Herr.
  { rewrite all_some_is_Some, <-(fmap_nil_iff error_name), Hn, fmap_nil_iff. rewrite Forall_forall. split.
    - intros Hf d Hd. destruct (variable_result schema request d) eqn:Er; [done|]. exfalso. apply (not_elem_of_nil (A := VariableDefinition) d).
      rewrite <-Hf. by apply list_elem_of_filter.
    - intros Hf. apply elem_of_nil_inv. intros d [Hd1 Hd2]%list_elem_of_filter. specialize (Hf d Hd2). rewrite Hd1 in Hf. by destruct Hf. }
  destruct (all_some (variable_result schema request <$> definitions)) as [rs|].
  - rewrite (proj2 Herr) by done. eexists. split; [reflexivity|]. cbn [definition_to_value var_input_values].
    destruct (Hrs rs eq_refl) as [_ Hb]. eapply Forall2_impl; [exact Hb|]. intros [|id] [t|]; try done. intros (x & Hx & Hrd).
    exists x. split; [done|]. intros fuel Hf. by eapply reads_read.
  - exists errs. split; [|done]. destruct errs as [|e errs]; [|done]. destruct (proj1 Herr eq_refl) as [? Hx]. done.
Qed.
Lemma bind_variables_refines_witness :
  ∃ errors, bind_variables integer_text example_schema
      [filter_variable; example_variable "n" (MkType (DefScalar 0) (new true)); example_variable "c" (MkType (DefEnum 0) (new false))]
      {["f" := filter_value; "c" := CString "GREEN"]} = Ret (inl errors) ∧
    error_name <$> errors = ["n"; "c"].
Proof.
  pose proof (bind_variables_refines integer_text example_schema
    [filter_variable; example_variable "n" (MkType (DefScalar 0) (new true)); example_variable "c" (MkType (DefEnum 0) (new false))]
    {["f" := filter_value; "c" := CString "GREEN"]} example_schema_ok) as H.
  assert (all_some (variable_result example_schema {["f" := filter_value; "c" := CString "GREEN"]} <$>
    [filter_variable; example_variable "n" (MkType (DefScalar 0) (new true)); example_variable "c" (MkType (DefEnum 0) (new false))]) = None)
    as E by (vm_compute; reflexivity).
  rewrite E in H. apply H.
  - intros k v Hk. apply lookup_insert_Some in Hk as [[_ <-]|[_ [_ <-]%lookup_singleton_Some]]; [exact filter_value_ok|exact I].
  - refine (bool_decide_unpack _ _). vm_compute. exact I.
  - apply Forall_cons; split; [exact filter_variable_ok|]. apply Forall_cons; split; [split; [apply (new_wf true)|simpl; eauto]|].
    apply Forall_cons; split; [split; [apply (new_wf false)|simpl; eauto]|]. apply List.Forall_nil.
  - vm_compute. reflexivity.
Defined.
