(* ===== verification/EngineLiterals.v ===== *)
(** * [engine-v2]: literals and variables

    [coercion/query.rs] repeats [coercion/variable.rs] for the values that are
    written in a query. The two run in lockstep on a value without variables, on
    stores that correspond; then what variables inside a literal, default values
    and JSON do. *)
From Stdlib Require Import ZArith SpecFloat.
From S2P Require Import Prelude RustStd Wrapping IdNewtypes EngineCoerce EngineCoerceProps EngineCoerceClaims.
Local Open Scope string_scope.
Local Open Scope list_scope.
Local Open Scope nat_scope.

(** ** Runs that correspond *)
Definition literal_of (x : VariableInputValue) : QueryInputValue :=
  match x with
  | VINull => QINull
  | VIString s => QIString s
  | VIEnumValue id => QIEnumValue id
  | VIInt n => QIInt n
  | VIBigInt n => QIBigInt n
  | VIFloat f => QIFloat f
  | VIBoolean b => QIBoolean b
  | VIInputObject ids => QIInputObject ids
  | VIList ids => QIList ids
  | VIMap ids => QIMap ids
  | VIU64 n => QIU64 n
  | VIDefaultValue id => QIDefaultValue id
  end.
Definition literal_entry {K} (e : K * VariableInputValue) : K * QueryInputValue := (e.1, literal_of e.2).
Definition literal_store (s : VariableInputValues) : QueryInputValues :=
  MkStore (literal_of <$> values s) (literal_entry <$> input_fields s) (literal_entry <$> key_values s).
(** A string for an enum, which only a variable may give. *)
Definition string_for_enum {A} (r : res (Binder * (InputValueError + A))) : Prop :=
  ∃ b enum path location, r = Ret (b, inl (IncorrectEnumValueType enum KString path location)).
(** [m] on a store and [mq] on the corresponding one panic, fail alike, or
    return values that [R] relates. *)
Definition lockstep {A B} (R : A → B → Prop) (vars : list VariableDefinition) (r : res (VariableInputValues * (InputValueError + A)))
    (rq : res (Binder * (InputValueError + B))) : Prop :=
  match r, rq with
  | Panic msg, Panic msg' => msg = msg'
  | Ret (s, inl e), Ret (b, inl e') => b = MkBinder vars (literal_store s) ∧ e = e'
  | Ret (s, inr x), Ret (b, inr y) => b = MkBinder vars (literal_store s) ∧ R x y
  | _, _ => False
  end.
Definition sim {A B} (R : A → B → Prop) (m : CM VariableInputValues A) (mq : CM Binder B) : Prop :=
  ∀ s vars, string_for_enum (mq (MkBinder vars (literal_store s))) ∨ lockstep R vars (m s) (mq (MkBinder vars (literal_store s))).
Lemma sim_ret {A B} (R : A → B → Prop) x y : R x y → sim R (mret x) (mret y).
Proof. intros HR s vars. by right. Qed.
Lemma sim_fail {A B} (R : A → B → Prop) e : sim R (cm_fail e) (cm_fail e).
Proof. intros s vars. by right. Qed.
Lemma sim_lift {A} (m : res A) : sim eq (cm_lift m) (cm_lift m).
Proof. intros s vars. right. unfold cm_lift. by destruct m. Qed.
Lemma sim_bind {A B A' B'} (R : A → A' → Prop) (T : B → B' → Prop) m mq f fq :
  sim R m mq → (∀ x y, R x y → sim T (f x) (fq y)) → sim T (m ≫= f) (mq ≫= fq).
Proof.
  intros Hm Hf s vars. destruct (Hm s vars) as [(b & enum & path & l & E)|H].
  { left. exists b, enum, path, l. unfold mbind, cm_bind. by rewrite E. }
  unfold mbind, cm_bind. unfold lockstep in H. destruct (m s) as [[s1 [e|x]]|msg], (mq _) as [[b [e'|y]]|msg']; try done.
  - right. by destruct H as [-> ->].
  - destruct H as [-> HR]. apply Hf, HR.
  - right. by subst.
Qed.
(** A computation that both do. *)
Lemma sim_lift_bind {A B B'} (T : B → B' → Prop) (m : res A) f fq :
  (∀ x, sim T (f x) (fq x)) → sim T (cm_lift m ≫= f) (cm_lift m ≫= fq).
Proof. intros H. eapply sim_bind; [apply sim_lift|]. intros x y ->. apply H. Qed.
Lemma sim_state {A} (f : VariableInputValues → res (A * VariableInputValues)) (fq : QueryInputValues → res (A * QueryInputValues)) :
  (∀ s, fq (literal_store s) = match f s with Panic msg => Panic msg | Ret r => Ret (r.1, literal_store r.2) end) →
  sim eq (cm_state f) (on_store fq).
Proof.
  intros H s vars. right. unfold on_store, cm_state. simpl. rewrite H. by destruct (f s) as [[x s1]|].
Qed.
Abbreviation is_literal := (λ x y, y = literal_of x).

Lemma push_value_sim x : sim eq (cm_state (push_value x)) (on_store (push_value (literal_of x))).
Proof.
  apply sim_state. intros s. unfold push_value, literal_store. cbn [values input_fields key_values]. rewrite length_fmap.
  destruct (id_from _); [|done]. cbn [mbind res_bind fst snd values input_fields key_values]. by rewrite fmap_app.
Qed.
Lemma reserve_list_sim n : sim eq (cm_state (reserve_list VINull n)) (on_store (reserve_list QINull n)).
Proof.
  apply sim_state. intros s. unfold reserve_list, literal_store. cbn [values input_fields key_values].
  rewrite !length_app, !length_replicate, !length_fmap. destruct (range_from _ _); [|done].
  cbn [mbind res_bind fst snd values input_fields key_values]. by rewrite fmap_app, fmap_replicate.
Qed.
Lemma reserve_map_sim n : sim eq (cm_state (reserve_map VINull n)) (on_store (reserve_map QINull n)).
Proof.
  apply sim_state. intros s. unfold reserve_map, literal_store. cbn [values input_fields key_values].
  rewrite !length_app, !length_replicate, !length_fmap. destruct (range_from _ _); [|done].
  cbn [mbind res_bind fst snd values input_fields key_values]. by rewrite fmap_app, fmap_replicate.
Qed.
Lemma append_sim fields : sim eq (cm_state (append_input_object fields)) (on_store (append_input_object (literal_entry <$> fields))).
Proof.
  apply sim_state. intros s. unfold append_input_object, literal_store. cbn [values input_fields key_values].
  rewrite !length_app, !length_fmap. destruct (range_from _ _); [|done].
  cbn [mbind res_bind fst snd values input_fields key_values]. by rewrite fmap_app.
Qed.
Lemma set_value_sim id x : sim eq (cm_state (λ s, s ← set_value id x s; Ret ((), s))) (on_store (λ s, s ← set_value id (literal_of x) s; Ret ((), s))).
Proof.
  apply sim_state. intros s. unfold set_value, literal_store. cbn [values input_fields key_values]. rewrite length_fmap.
  destruct (decide _); [|done]. cbn [mbind res_bind fst snd values input_fields key_values]. by rewrite list_fmap_insert.
Qed.
Lemma set_key_value_sim id k x :
  sim eq (cm_state (λ s, s ← set_key_value id (k, x) s; Ret ((), s))) (on_store (λ s, s ← set_key_value id (k, literal_of x) s; Ret ((), s))).
Proof.
  apply sim_state. intros s. unfold set_key_value, literal_store. cbn [values input_fields key_values]. rewrite length_fmap.
  destruct (decide _); [|done]. cbn [mbind res_bind fst snd values input_fields key_values]. by rewrite list_fmap_insert.
Qed.
Lemma fill_list_sim (f : nat → ConstValue → CM VariableInputValues VariableInputValue) (fq : nat → QValue → CM Binder QueryInputValue) items :
  (∀ v idx, v ∈ items → sim is_literal (f idx v) (fq idx (value_of_const v))) →
  ∀ id idx, sim eq (fill_list f items id idx) (q_fill_list fq (value_of_const <$> items) id idx).
Proof.
  induction items as [|v items IH]; intros H id idx; [by apply sim_ret|]. rewrite fmap_cons. cbn [fill_list q_fill_list].
  eapply sim_bind; [apply H; set_solver|]. intros x y ->. eapply sim_bind; [apply set_value_sim|]. intros [] [] _.
  apply IH. intros v' idx' Hv. apply H. set_solver.
Qed.
Lemma fill_map_sim (f : ConstValue → CM VariableInputValues VariableInputValue) (fq : QValue → CM Binder QueryInputValue) entries :
  (∀ e, e ∈ entries → sim is_literal (f e.2) (fq (value_of_const e.2))) →
  ∀ id, sim eq (fill_map f entries id) (q_fill_map fq ((λ e, (e.1, value_of_const e.2)) <$> entries) id).
Proof.
  induction entries as [|e entries IH]; intros H id; [by apply sim_ret|]. rewrite fmap_cons. cbn [fill_map q_fill_map fst snd].
  eapply sim_bind; [apply H; set_solver|]. intros x y ->. eapply sim_bind; [apply set_key_value_sim|]. intros [] [] _.
  apply IH. intros e' He. apply H. set_solver.
Qed.

(** ** The two coercions *)
Section literals.
Context (number_text : CNumber → string) (schema : ESchema) (location : Location) (is_default_value : bool).

Lemma json_sim scalar path v :
  sim is_literal (coerce_json location scalar path v) (q_coerce_json location scalar path (value_of_const v)).
Proof.
  induction v as [|n|x|b| |x|items IH|entries IH] using ConstValue_ind'; cbn [coerce_json q_coerce_json value_of_const];
    try (by apply sim_ret); try apply sim_fail.
  - destruct (as_f64 n); [by apply sim_ret|]. destruct (as_i64 n); [by apply sim_ret|]. apply sim_lift_bind. intros. by apply sim_ret.
  - rewrite length_fmap. eapply sim_bind; [apply reserve_list_sim|]. intros ids ? <-. rewrite Forall_forall in IH.
    eapply sim_bind; [apply fill_list_sim; intros v' _ Hv; by apply IH|]. intros [] [] _. by apply sim_ret.
  - rewrite length_fmap. eapply sim_bind; [apply reserve_map_sim|]. intros ids ? <-. rewrite Forall_forall in IH.
    eapply sim_bind; [apply fill_map_sim; intros e He; by apply IH|]. intros [] [] _. by apply sim_ret.
Qed.
Lemma scalar_sim id scalar path v :
  sim is_literal (coerce_scalar number_text location scalar path v)
    (q_coerce_scalar number_text schema location is_default_value id scalar path (value_of_const v)).
Proof.
  destruct scalar as [name ty]. unfold coerce_scalar, q_coerce_scalar. cbn [snd].
  destruct ty; try (by destruct v; apply json_sim); destruct v; cbn [value_of_const query_value_kind]; try apply sim_fail; try (by apply sim_ret);
    try (intros s vars; by right).
  - destruct (as_f64 n); [by apply sim_ret|apply sim_fail].
  - destruct (as_i64 n ≫= i32_try_from); [by apply sim_ret|apply sim_fail].
  - destruct (as_i64 n); [by apply sim_ret|apply sim_fail].
Qed.
Lemma enum_sim enum path v : sim is_literal (coerce_enum schema location enum path v) (q_coerce_enum schema location enum path (value_of_const v)).
Proof.
  destruct v; unfold coerce_enum, q_coerce_enum; cbn [value_of_const query_value_kind]; try apply sim_fail.
  - intros s' vars. left. eexists _, _, _, _. reflexivity.
  - apply sim_lift_bind. intros [id|]; [by apply sim_ret|apply sim_fail].
Qed.

Lemma swap_remove_fmap {A B} (f : A → B) key (l : list (string * A)) :
  swap_remove key ((λ e, (e.1, f e.2)) <$> l) = (f <$> (swap_remove key l).1, (λ e, (e.1, f e.2)) <$> (swap_remove key l).2).
Proof.
  unfold swap_remove. rewrite list_find_fmap. cbn [compose fst]. unfold compose. cbn [fst].
  destruct (list_find _ l) as [[i e]|]; [|done]. cbn [fmap option_fmap option_map prod_map fst snd]. f_equal.
  unfold swap_remove_at. rewrite fmap_last, length_fmap. destruct (last l) as [x|]; [|done]. cbn [fmap option_fmap option_map].
  assert (∀ l : list (string * A), removelast ((λ e, (e.1, f e.2)) <$> l) = (λ e, (e.1, f e.2)) <$> removelast l) as Hrl.
  { clear. induction l as [|x [|y l] IH]; [done|done|]. rewrite !fmap_cons in *. cbn [removelast] in *. by rewrite fmap_cons, IH. }
  rewrite Hrl. destruct (decide _); [done|]. by rewrite list_fmap_insert.
Qed.
Lemma swap_remove_subset {A} key (l : list (string * A)) :
  (swap_remove key l).2 ⊆ l ∧ ∀ x, (swap_remove key l).1 = Some x → ∃ e, e ∈ l ∧ e.2 = x.
Proof.
  unfold swap_remove. destruct (list_find _ l) as [[i e]|] eqn:E; [|done]. apply list_find_Some in E as (Hi & _ & _). cbn [fst snd]. split.
  - pose proof (swap_remove_at_perm l i e Hi) as Hp. intros x Hx. rewrite Hp. set_solver.
  - intros x [= <-]. exists e. split; [by eapply list_elem_of_lookup_2|done].
Qed.
Abbreviation Closure := (TypeRecord → list ValuePathSegment → CM VariableInputValues VariableInputValue).
Abbreviation QClosure := (TypeRecord → list ValuePathSegment → CM Binder QueryInputValue).
Lemma input_fields_sim path (c : ConstValue → Closure) (cq : ConstValue → QClosure) defs :
  ∀ entries buffer,
  (∀ e ty path, e ∈ entries → sim is_literal (c e.2 ty path) (cq e.2 ty path)) →
  sim (λ x y, ∃ es, x.1 = (λ e, (e.1, c e.2)) <$> es ∧ y.1 = (λ e, (e.1, cq e.2)) <$> es ∧ y.2 = literal_entry <$> x.2)
    (coerce_input_fields schema location path defs ((λ e, (e.1, c e.2)) <$> entries) buffer)
    (q_coerce_input_fields schema location path defs ((λ e, (e.1, cq e.2)) <$> entries) (literal_entry <$> buffer)).
Proof.
  induction defs as [|[id d] defs IH]; intros entries buffer Hc; cbn [coerce_input_fields q_coerce_input_fields].
  { apply sim_ret. by exists entries. }
  rewrite !swap_remove_fmap. destruct (swap_remove_subset (iv_name d) entries) as [Hsub Hin].
  destruct (swap_remove (iv_name d) entries) as [[v|] es]; cbn [fst snd fmap option_fmap option_map] in *.
  - destruct (Hin v eq_refl) as (e & He & <-). eapply sim_bind; [by apply Hc|]. intros x y ->.
    specialize (IH es (buffer ++ [(id, x)]) ltac:(set_solver)). by rewrite fmap_app in IH.
  - destruct (default_value_id d) as [did|].
    + specialize (IH es (buffer ++ [(id, VIDefaultValue did)]) ltac:(set_solver)). by rewrite fmap_app in IH.
    + destruct (is_required _); [|apply IH; set_solver]. apply sim_lift_bind. intros. apply sim_fail.
Qed.
Lemma input_object_sim o path (c : ConstValue → Closure) (cq : ConstValue → QClosure) entries :
  (∀ e ty path, e ∈ entries → sim is_literal (c e.2 ty path) (cq e.2 ty path)) →
  sim is_literal (coerce_input_object schema location o path ((λ e, (e.1, c e.2)) <$> entries))
    (q_coerce_input_object schema location o path ((λ e, (e.1, cq e.2)) <$> entries)).
Proof.
  intros Hc. unfold coerce_input_object, q_coerce_input_object. apply sim_lift_bind. intros defs.
  eapply sim_bind; [by apply (input_fields_sim _ _ _ _ _ [])|]. intros [rest buf] [rest' buf'] (es & Hr & Hr' & Hb). simpl in Hr, Hr', Hb. subst.
  destruct es as [|e es]; [|apply sim_fail]. eapply sim_bind; [apply append_sim|]. intros ids ? <-. by apply sim_ret.
Qed.
Lemma wrap_in_lists_sim n x : sim is_literal (wrap_in_lists n x) (q_wrap_in_lists n (literal_of x)).
Proof.
  revert x. induction n as [|n IH]; intros x; [by apply sim_ret|]. cbn [wrap_in_lists q_wrap_in_lists].
  eapply sim_bind; [apply push_value_sim|]. intros id ? <-. apply sim_lift_bind. intros ids. apply IH.
Qed.
Lemma named_sim v (c : ConstValue → Closure) (cq : ConstValue → QClosure) entries ty path :
  (∀ e ty path, e ∈ entries → sim is_literal (c e.2 ty path) (cq e.2 ty path)) →
  sim is_literal (coerce_named_type number_text schema location v ((λ e, (e.1, c e.2)) <$> entries) ty path)
    (q_coerce_named_type number_text schema location is_default_value (value_of_const v) ((λ e, (e.1, cq e.2)) <$> entries) ty path).
Proof.
  intros Hc. pose proof (λ id scalar, scalar_sim id scalar path v) as Hscalar. pose proof (λ enum, enum_sim enum path v) as Henum.
  pose proof (λ o, input_object_sim o path c cq entries Hc) as Hobject. unfold coerce_named_type, q_coerce_named_type.
  destruct v; cbn [value_of_const query_value_kind] in *;
    [destruct (is_required _); [apply sim_lift_bind; intros; apply sim_fail|by apply sim_ret]|..];
    (destruct (definition_id ty); try (intros s' vars; by right); apply sim_lift_bind; intros def;
     first [apply Henum|apply Hscalar|apply Hobject|apply sim_fail]).
Qed.
(** A value that is neither a list nor null. *)
Lemma other_sim v cur curq (nested : bool) ty path :
  (∀ ty, sim is_literal (coerce_named_type number_text schema location v cur ty path)
    (q_coerce_named_type number_text schema location is_default_value (value_of_const v) curq ty path)) →
  sim is_literal
    (if negb nested && is_list (wrapping ty) then
       value ← coerce_named_type number_text schema location v cur ty path;
       wrap_in_lists (length (list_wrappings (wrapping ty))) value
     else
       match pop_list_wrapping (wrapping ty) with
       | (None, w) => coerce_named_type number_text schema location v cur (MkType (definition_id ty) w) path
       | (Some list_wrapping, w) =>
           expected ← cm_lift (ty ← type_wrapped_by (MkType (definition_id ty) w) list_wrapping; type_text schema ty);
           cm_fail (MissingList (value_kind v) expected (value_path_to_string path) location)
       end)
    (if negb nested && is_list (wrapping ty) then
       value ← q_coerce_named_type number_text schema location is_default_value (value_of_const v) curq ty path;
       q_wrap_in_lists (length (list_wrappings (wrapping ty))) value
     else
       match pop_list_wrapping (wrapping ty) with
       | (None, w) =>
           q_coerce_named_type number_text schema location is_default_value (value_of_const v) curq (MkType (definition_id ty) w) path
       | (Some list_wrapping, w) =>
           actual ← cm_lift (query_value_kind (value_of_const v));
           expected ← cm_lift (ty ← type_wrapped_by (MkType (definition_id ty) w) list_wrapping; type_text schema ty);
           cm_fail (MissingList actual expected (value_path_to_string path) location)
       end).
Proof.
  intros Hn. destruct (negb nested && is_list (wrapping ty)).
  { eapply sim_bind; [apply Hn|]. intros x ? ->. apply wrap_in_lists_sim. }
  destruct (pop_list_wrapping (wrapping ty)) as [[l|] w]; [|apply Hn].
  assert (query_value_kind (value_of_const v) = Ret (value_kind v)) as -> by (by destruct v).
  change (cm_lift (Ret (value_kind v)) ≫= ?f) with (f (value_kind v)). apply sim_lift_bind. intros. apply sim_fail.
Qed.
Lemma coerce_sim v : ∀ nested ty path,
  sim is_literal (coerce number_text schema location v nested ty path)
    (q_coerce number_text schema location is_default_value (value_of_const v) nested ty path).
Proof.
  induction v as [|n|x|b| |x|items IH|entries IH] using ConstValue_ind'; intros nested ty path;
    cbn [coerce q_coerce value_of_const]; rewrite ?andb_true_r, ?andb_false_r;
    pose proof (λ v ty, named_sim v (λ _ _ _, mret VINull) (λ _ _ _, mret QINull) [] ty path ltac:(intros ? ? ? H; by apply elem_of_nil in H)) as Hn.
  - destruct (pop_list_wrapping (wrapping ty)) as [[[]|] w]; [|by apply sim_ret|apply (Hn CNull)].
    apply sim_lift_bind. intros. apply sim_fail.
  - exact (other_sim (CNumberValue n) [] [] nested ty path (Hn _)).
  - exact (other_sim (CString x) [] [] nested ty path (Hn _)).
  - exact (other_sim (CBoolean b) [] [] nested ty path (Hn _)).
  - exact (other_sim CBinary [] [] nested ty path (Hn _)).
  - exact (other_sim (CEnum x) [] [] nested ty path (Hn _)).
  - destruct (pop_list_wrapping (wrapping ty)) as [[l|] w]; [|apply (Hn (CList items))]. rewrite Forall_forall in IH.
    rewrite length_fmap. destruct l; (eapply sim_bind; [apply reserve_list_sim|]; intros ids ? <-;
      eapply sim_bind; [apply fill_list_sim; intros v idx Hv; by apply (IH v Hv)|]; intros [] [] _; by apply sim_ret).
  - rewrite Forall_forall in IH. rewrite <-list_fmap_compose.
    refine (other_sim (CObject entries) _ _ nested ty path (λ ty, named_sim (CObject entries)
      (λ v ty path, coerce number_text schema location v false ty path)
      (λ v ty path, q_coerce number_text schema location is_default_value (value_of_const v) false ty path) entries ty path _)).
    intros e ty' path' He. by apply (IH e He).
Qed.
End literals.

(** C15. A literal is coerced like a variable with the same value: unless it
    holds a string where the type wants a value of an enum, which is an error in
    a literal only, [coerce_query_value] does what [coerce_variable] does, on a
    store that holds the same values: it returns the same id, or fails with the
    same error, and writes the same cells. *)
Theorem literal_like_variable number_text schema d is_default_value vars v s :
  let r := coerce_query_value number_text schema (name_location d) is_default_value (vd_ty d) (value_of_const v)
             (MkBinder vars (literal_store s)) in
  string_for_enum r ∨
  r = match coerce_variable number_text schema d v s with
      | Panic msg => Panic msg
      | Ret (s', result) => Ret (MkBinder vars (literal_store s'), result)
      end.
Proof.
  assert (sim eq (coerce_variable number_text schema d v)
    (coerce_query_value number_text schema (name_location d) is_default_value (vd_ty d) (value_of_const v))) as H.
  { unfold coerce_variable, coerce_query_value, coerce_input_value. eapply sim_bind; [apply coerce_sim|]. intros x ? ->. apply push_value_sim. }
  intros r. destruct (H s vars) as [Hl|Hr]; [by left|right]. unfold r, lockstep in *.
  destruct (coerce_variable _ _ _ _ _) as [[s' [e|id]]|msg], (coerce_query_value _ _ _ _ _ _ _) as [[b' [e'|id']]|msg']; try done.
  - by destruct Hr as [-> ->].
  - by destruct Hr as [-> ->].
  - by subst.
Qed.

(** ** Definitions of variables *)
Section definitions.
Context (number_text : CNumber → string) (schema : ESchema).
Lemma br_bind_inv {A B} (m : BR A) (f : A → BR B) y : (m ≫= f) = Ret (inr y) → ∃ x, m = Ret (inr x) ∧ f x = Ret (inr y).
Proof. destruct m as [[e|x]|msg]; try done. intros H. by exists x. Qed.
Lemma br_lift_inv {A} (m : res A) y : br_lift m = Ret (inr y) → m = Ret y.
Proof. destruct m; [|done]. by intros [= ->]. Qed.
Lemma mapM_res_lookup {A B} (f : A → res B) l ys i x : mapM_res f l = Ret ys → l !! i = Some x → ∃ y, f x = Ret y.
Proof.
  revert ys i. induction l as [|x' l IH]; intros ys i; [done|]. cbn [mapM_res]. destruct (f x') as [y|] eqn:E; [|done]. cbn [mbind res_bind].
  destruct (mapM_res f l) as [ys'|]; [|done]. intros _. destruct i as [|i]; [intros [= <-]; by exists y|by apply (IH ys')].
Qed.
Lemma definition_by_name_ok name id : definition_by_name schema name = Ret (Some id) → ∃ n, definition_name schema id = Ret n.
Proof.
  unfold definition_by_name. destruct (mapM_res _ _) as [names|] eqn:E; [|done]. cbn [mbind res_bind].
  destruct (binary_search name names) as [i|]; [|done]. unfold at_index. destruct (_ !! i) as [id'|] eqn:Ei; [|done].
  intros [= <-]. by eapply mapM_res_lookup.
Qed.
Lemma wrapped_by_wf w l w' : wf w → wrapped_by w l = Ret w' → wf w'.
Proof. intros Hw E. pose proof (wrapped_by_spec w l Hw) as H. rewrite E in H. apply H. Qed.
Lemma convert_type_ok name location ty t : convert_type schema name location ty = Ret (inr t) → type_ok schema t.
Proof.
  revert t. induction ty as [tname nullable|ty IH nullable]; intros t; cbn [convert_type].
  - intros ([id|] & Hd%br_lift_inv & H)%br_bind_inv; [|done]. destruct (definition_by_name_ok _ _ Hd) as [n Hn].
    destruct id; try (by apply br_bind_inv in H as (? & _ & H)); injection H as <-; (split; [apply new_wf|]);
      simpl in *; unfold at_index in Hn; destruct (_ !! id); by eauto.
  - intros (t' & Ht & H)%br_bind_inv. destruct (IH _ Ht) as [Hw Hd]. apply br_bind_inv in H as (w & Hr%br_lift_inv & H). injection H as <-.
    split; [|done]. cbn [wrapping]. destruct nullable; [by apply (wrapped_by_wf _ NullableList _ Hw)|by apply (wrapped_by_wf _ RequiredList _ Hw)].
Qed.
Lemma type_with_default_ok ty t : type_ok schema ty → type_with_default ty = Ret t → type_ok schema t.
Proof.
  intros [Hw Hd] H. unfold type_with_default in H. destruct (is_list (wrapping ty)).
  - destruct (wrapped_by_required_list (wrapping ty)) as [w|] eqn:E; [|done]. injection H as <-. split; [|done].
    by apply (wrapped_by_wf _ RequiredList _ Hw).
  - injection H as <-. split; [exact (new_wf true)|done].
Qed.
Lemma bind_variable_definition_ok b seen node d b' :
  bind_variable_definition number_text schema b seen node = Ret (inr (d, b')) →
  vd_name d = pv_name node ∧ (pv_name node ∉ seen) ∧ type_ok schema (vd_ty d) ∧ in_use d = false ∧
  (pv_default node = None ↔ vd_default_value d = None).
Proof.
  unfold bind_variable_definition. intros (loc & _ & H)%br_bind_inv. destruct (decide _) as [|Hseen]; [done|].
  apply br_bind_inv in H as (loc' & _ & H). apply br_bind_inv in H as (ty & Hty%convert_type_ok & H).
  apply br_bind_inv in H as (ty' & Hty'%br_lift_inv & H).
  assert (type_ok schema ty') as Hok.
  { destruct (pv_default node) as [[]|]; try (by injection Hty' as <-); by eapply type_with_default_ok. }
  destruct (pv_default node) as [v|].
  - apply br_bind_inv in H as ([id b1] & _ & H). by injection H as <- <-.
  - by injection H as <- <-.
Qed.
Lemma bind_variable_definitions_loop_ok variables :
  ∀ b seen bound defs b',
  bind_variable_definitions_loop number_text schema b seen bound variables = Ret (inr (defs, b')) →
  ∃ new, defs = bound ++ new ∧ vd_name <$> new = pv_name <$> variables ∧ NoDup (pv_name <$> variables) ∧
    (∀ name, name ∈ pv_name <$> variables → name ∉ seen) ∧
    Forall (λ d, type_ok schema (vd_ty d) ∧ in_use d = false) new.
Proof.
  induction variables as [|node variables IH]; intros b seen bound defs b'; cbn [bind_variable_definitions_loop].
  { intros [= <- <-]. exists []. rewrite app_nil_r. split_and!; [done|done|constructor|set_solver|constructor]. }
  intros ([d b1] & Hd%bind_variable_definition_ok & H)%br_bind_inv. destruct Hd as (Hn & Hs & Ht & Hu & _).
  destruct (IH _ _ _ _ _ H) as (new & -> & Hnames & Hnd & Hseen & Hall). exists (d :: new). rewrite <-app_assoc.
  split; [done|]. rewrite !fmap_cons. split; [by rewrite Hn, Hnames|]. split; [apply NoDup_cons; split; [|done]|split].
  - intros Hin. by apply (Hseen _ Hin), list_elem_of_here.
  - intros name [->|Hin]%elem_of_cons; [done|]. specialize (Hseen _ Hin). set_solver.
  - by constructor.
Qed.
End definitions.
(** Definitions that were bound can be given values: they have the names of
    the variables of the operation, each once, and types whose ids refer to
    something and can be an input, whatever the schema; none is in use yet. *)
Theorem bound_variables_ok number_text schema b variables definitions b' :
  bind_variable_definitions number_text schema b variables = Ret (inr (definitions, b')) →
  vd_name <$> definitions = pv_name <$> variables ∧ NoDup (vd_name <$> definitions) ∧
  Forall (λ d, type_ok schema (vd_ty d) ∧ in_use d = false) definitions.
Proof.
  intros H. apply bind_variable_definitions_loop_ok in H as (new & -> & Hn & Hnd & _ & Hall). simpl. by rewrite Hn.
Qed.

(** ** Arguments of a field *)
Section arguments.
Context (number_text : CNumber → string) (schema : ESchema).
(** An argument of the definition is bound if it is given or has a default value. *)
Definition is_bound (arguments : list PArgument) (d : nat * InputValueDefinition) : bool :=
  bool_decide (iv_name d.2 ∈ pa_name <$> arguments) || bool_decide (is_Some (default_value_id d.2)).
Lemma bind_arguments_loop_ok definition location arguments0 defs :
  ∀ arguments bound b rest bound' b',
  NoDup ((λ d, iv_name d.2) <$> defs) → (∀ d, d ∈ defs → iv_name d.2 ∈ pa_name <$> arguments ↔ iv_name d.2 ∈ pa_name <$> arguments0) →
  bind_arguments_loop number_text schema definition location defs arguments bound b = Ret (inr (rest, bound', b')) →
  ∃ new, bound' = bound ++ new ∧ input_value_definition_id <$> new = (filter (λ d, is_bound arguments0 d) defs).*1 ∧
    (∀ d, d ∈ defs → is_required (wrapping (iv_ty d.2)) → is_bound arguments0 d) ∧
    (∀ a, a ∈ arguments → a ∈ rest ∨ pa_name a ∈ (λ d, iv_name d.2) <$> defs).
Proof.
  induction defs as [|[id d] defs IH]; intros arguments bound b rest bound' b' Hnd Hsame H; cbn [bind_arguments_loop] in H.
  { injection H as <- <- <-. exists []. rewrite app_nil_r. split; [done|]. split; [done|]. split; [by intros d []%elem_of_nil|by left]. }
  rewrite fmap_cons in Hnd. apply NoDup_cons in Hnd as [Hd Hnd]. cbn [snd] in Hd.
  assert (∀ arguments1 bound1 b1 x, (∀ k, k ≠ iv_name d → k ∈ pa_name <$> arguments1 ↔ k ∈ pa_name <$> arguments) →
    (∀ a, a ∈ arguments → pa_name a = iv_name d ∨ a ∈ arguments1) →
    input_value_definition_id <$> x = (if is_bound arguments0 (id, d) then [id] else []) →
    (is_required (wrapping (iv_ty d)) → is_bound arguments0 (id, d)) → bound1 = bound ++ x →
    bind_arguments_loop number_text schema definition location defs arguments1 bound1 b1 = Ret (inr (rest, bound', b')) →
    ∃ new, bound' = bound ++ new ∧ input_value_definition_id <$> new = (filter (λ d, is_bound arguments0 d) ((id, d) :: defs)).*1 ∧
      (∀ d', d' ∈ (id, d) :: defs → is_required (wrapping (iv_ty d'.2)) → is_bound arguments0 d') ∧
      (∀ a, a ∈ arguments → a ∈ rest ∨ pa_name a ∈ (λ d, iv_name d.2) <$> (id, d) :: defs)) as Hstep.
  { intros arguments1 bound1 b1 x Hk Ha Hx Hreq -> Hl. apply IH in Hl as (new & -> & Hids & Hr & Hrest); [|done|].
    - exists (x ++ new). rewrite app_assoc. split; [done|]. split; [|split].
      + rewrite fmap_app, Hx, Hids, filter_cons. by destruct (is_bound arguments0 (id, d)).
      + intros d' [->|Hd']%elem_of_cons; [done|by apply Hr].
      + intros a Hin. rewrite fmap_cons. destruct (Ha a Hin) as [->|Ha1]; [right; by apply list_elem_of_here|].
        destruct (Hrest a Ha1); [by left|right; by apply list_elem_of_further].
    - intros d' Hd'. rewrite Hk; [apply Hsame; by apply list_elem_of_further|]. intros E. apply Hd. rewrite <-E.
      by apply (list_elem_of_fmap_2 (λ d, iv_name d.2)). }
  pose proof (Hsame (id, d) ltac:(apply list_elem_of_here)) as Hgiven. cbn [snd] in Hgiven.
  assert (is_bound arguments0 (id, d) = bool_decide (iv_name d ∈ pa_name <$> arguments) || bool_decide (is_Some (default_value_id d))) as Hb.
  { unfold is_bound. cbn [snd]. by rewrite (bool_decide_ext _ _ Hgiven). }
  destruct (list_find _ arguments) as [[i a]|] eqn:Ef.
  - apply list_find_Some in Ef as (Hi & Hname & _). pose proof (swap_remove_at_perm arguments i a Hi) as Hp.
    assert (is_bound arguments0 (id, d) = true) as Ht.
    { rewrite Hb, bool_decide_eq_true_2; [done|]. rewrite <-Hname. apply list_elem_of_fmap_2. by eapply list_elem_of_lookup_2. }
    apply br_bind_inv in H as (loc1 & _ & H). cbn beta in H. apply br_bind_inv in H as (loc2 & _ & H). cbn beta in H.
    apply br_bind_inv in H as ([vid b1] & _ & H). cbn beta iota in H.
    generalize dependent (swap_remove_at i arguments). intros arguments1 H Hp. eapply Hstep; [| | |by rewrite Ht|reflexivity|exact H].
    + intros k Hk. rewrite Hp, fmap_cons, elem_of_cons, Hname. split; [by right|]. by intros [->|Hin].
    + intros a' Ha'. rewrite Hp in Ha'. apply elem_of_cons in Ha' as [->|Ha']; [by left|by right].
    + by rewrite Ht.
  - apply list_find_None in Ef. rewrite Forall_forall in Ef.
    assert (bool_decide (iv_name d ∈ pa_name <$> arguments) = false) as Hn.
    { apply bool_decide_eq_false_2. intros (a & E & Ha)%list_elem_of_fmap. by apply (Ef a). }
    rewrite Hn in Hb. destruct (default_value_id d) as [did|].
    + apply br_bind_inv in H as ([vid st] & _ & H). eapply Hstep; [done|by right| |by rewrite Hb|reflexivity|exact H]. by rewrite Hb.
    + destruct (is_required (wrapping (iv_ty d))); [done|]. eapply (Hstep _ _ _ []); [done|by right| |done|by rewrite app_nil_r|exact H]. by rewrite Hb.
Qed.
Lemma id_from_width_inv n i : id_from_width 16 n = Ret i → i = n.
Proof.
  unfold id_from_width, derived_from_usize. case_decide; [|done]. cbn [mbind res_bind max_check]. unfold try_non_zero.
  case_decide as Hz; [done|]. cbn [mbind res_bind]. unfold derived_to_usize. cbn [get_inner]. intros [= <-].
  assert (Z.of_nat n + 1 ≠ 2 ^ 16)%Z by (intros E; apply Hz; rewrite E; reflexivity).
  unfold wrap. rewrite (Z.mod_small (Z.of_nat n + 1)) by lia. rewrite Z.mod_small by lia. lia.
Qed.
End arguments.
(** C16. The arguments of a field that was bound: the new ones are those of the
    definition that are given or have a default value, in the order of the
    definition and at the range that is returned; every argument that is required
    is bound, and every argument that is given is one of the definition. *)
Theorem bind_field_arguments_complete number_text schema definition location arguments field_arguments b range field_arguments' b' :
  NoDup ((λ d, iv_name d.2) <$> definitions_in schema (argument_ids definition)) →
  (argument_ids definition).2 ≤ length (input_value_definitions schema) →
  bind_field_arguments number_text schema definition location arguments field_arguments b = Ret (inr (range, field_arguments', b')) →
  ∃ new, field_arguments' = field_arguments ++ new ∧ range = (length field_arguments, length field_arguments') ∧
    input_value_definition_id <$> new = (filter (λ d, is_bound arguments d) (definitions_in schema (argument_ids definition))).*1 ∧
    (∀ d, d ∈ definitions_in schema (argument_ids definition) → is_required (wrapping (iv_ty d.2)) → is_bound arguments d) ∧
    (∀ a, a ∈ arguments → pa_name a ∈ (λ d, iv_name d.2) <$> definitions_in schema (argument_ids definition)).
Proof.
  intros Hnd Hr H. unfold bind_field_arguments in H. rewrite walk_range_ok in H by done. apply br_bind_inv in H as (defs & Hdefs & H).
  injection Hdefs as <-. fold (definitions_in schema (argument_ids definition)) in H. apply br_bind_inv in H as ([[rest bound] b1] & Hl & H).
  destruct rest as [|a rest]; [|done]. apply br_bind_inv in H as (i & Hi%br_lift_inv%id_from_width_inv & H).
  apply br_bind_inv in H as (j & Hj%br_lift_inv%id_from_width_inv & H). injection H as <- <- <-. subst i j.
  apply (bind_arguments_loop_ok _ _ _ _ arguments) in Hl as (new & -> & Hids & Hreq & Hall); [|done|done].
  exists new. split_and!; [done|done|done|done|]. intros a Ha. destruct (Hall a Ha) as [Hn|]; [by apply elem_of_nil in Hn|done].
Qed.

(** ** Examples *)
Definition json_type : TypeRecord := MkType (DefScalar 1) (new false).
Definition one_pos : Pos := MkPos 1 1.
Definition no_binder : Binder := MkBinder [] store_default.
(** [$a: Int! $b: [Color]]. *)
Definition two_variables : list PVariable :=
  [MkPVariable "a" one_pos (PNamed "Int" false) one_pos None; MkPVariable "b" one_pos (PList (PNamed "Color" true) true) one_pos None].
Lemma bound_variables_ok_witness :
  NoDup ["a"; "b"] ∧
  bind_variable_definitions integer_text example_schema no_binder two_variables =
    Ret (inr ([MkVariableDefinition "a" (MkLocation 1 1) None false (MkType (DefScalar 0) (new true));
               MkVariableDefinition "b" (MkLocation 1 1) None false (MkType (DefEnum 0) (list_of (new false) NullableList))], no_binder)).
Proof.
  assert (bind_variable_definitions integer_text example_schema no_binder two_variables =
    Ret (inr ([MkVariableDefinition "a" (MkLocation 1 1) None false (MkType (DefScalar 0) (new true));
               MkVariableDefinition "b" (MkLocation 1 1) None false (MkType (DefEnum 0) (list_of (new false) NullableList))], no_binder)))
    as E by (vm_compute; reflexivity).
  split; [exact (proj1 (proj2 (bound_variables_ok _ _ _ _ _ _ E)))|exact E].
Defined.
(** A field [search(n: Int!, tags: [String!], color: Color = RED)], given [n: 1]. *)
Definition search_field : FieldDefinition := MkFieldDefinition "search" "Query" (0, 3).
Definition search_arguments : list PArgument := [MkPArgument "n" one_pos (QNumberValue (integer 1)) one_pos].
Lemma bind_field_arguments_complete_witness :
  ∃ range args b, bind_field_arguments integer_text example_schema search_field (MkLocation 1 1) search_arguments [] no_binder =
      Ret (inr (range, args, b)) ∧
    ∃ new, args = [] ++ new ∧ range = (0, length args) ∧ input_value_definition_id <$> new = [0; 2].
Proof.
  destruct (bind_field_arguments integer_text example_schema search_field (MkLocation 1 1) search_arguments [] no_binder)
    as [[e|[[range args] b]]|msg] eqn:E; [vm_compute in E; discriminate E| |vm_compute in E; discriminate E].
  exists range, args, b. split; [reflexivity|].
  destruct (bind_field_arguments_complete integer_text example_schema search_field (MkLocation 1 1) search_arguments [] no_binder range args b)
    as (new & H1 & H2 & H3 & _); [refine (bool_decide_unpack _ _); vm_compute; exact I|simpl; lia|exact E|].
  exists new. split; [exact H1|]. split; [exact H2|exact H3].
Defined.

(** ** What the code gets wrong *)

(** A variable of a list type with a default value, [$a: [Int] = [1]]: the type
    is wrapped in one more list instead of being made required, so the value is
    rejected for not being a list of lists. *)
Theorem list_default_rejected :
  bind_variable_definitions integer_text example_schema no_binder
    [MkPVariable "a" one_pos (PList (PNamed "Int" true) true) one_pos (Some (CList [CNumberValue (integer 1)]))] =
  Ret (inl (InvalidInputValue (MissingList KInteger "[Int]" " at path '.0'" (MkLocation 1 1)))).
Proof. vm_compute. reflexivity. Qed.
(** A variable inside a literal for a JSON scalar, [{ a: $x }], panics. *)
Theorem json_variable_panics :
  coerce_query_value integer_text example_schema (MkLocation 1 1) false json_type (QObject [("a", QVariable "x")])
    (MkBinder [example_variable "x" json_type] store_default) =
  Panic "internal error: entered unreachable code".
Proof. vm_compute. reflexivity. Qed.
(** A variable of type [[Int]!] may be used where [[Int!]!] is wanted, and may
    hold a null. *)
Theorem variable_item_nullability :
  let v := example_variable "v" (MkType (DefScalar 0) (list_of (new false) RequiredList)) in
  coerce_variable integer_text example_schema v (CList [CNull]) store_default = Ret (MkStore [VINull; VIList (0, 1)] [] [], inr 1) ∧
  coerce_query_value integer_text example_schema (MkLocation 1 1) false (MkType (DefScalar 0) (list_of (new true) RequiredList))
    (QVariable "v") (MkBinder [v] store_default) = Ret (MkBinder [set_in_use v] (MkStore [QIVariable 0] [] []), inr 0) ∧
  has_type example_schema (IList [INull]) (stype (MkType (DefScalar 0) (list_of (new true) RequiredList))) = false.
Proof. split_and!; vm_compute; reflexivity. Qed.
(** An integer for a JSON scalar goes through a float: 2^53 + 1 becomes 2^53. *)
Theorem json_integer_rounded :
  coerce_variable integer_text example_schema (example_variable "j" json_type) (CNumberValue (integer (2 ^ 53 + 1))) store_default =
  Ret (MkStore [VIFloat (binary_normalize 53 1024 (2 ^ 53) 0 false)] [] [], inr 0).
Proof. vm_compute. reflexivity. Qed.
